(* ===== verification/_CoqProject ===== *)
-Q . S2P
Prelude.v
Text.v
Target.v
Snapshot.v
SnapshotFacts.v
CoreFile.v
LinuxCore.v
LinuxCoreFacts.v
LinuxCoreTheorems.v
Umem.v
UmemWalk.v
UmemFacts.v
UmemIndexFacts.v
UmemWalkFacts.v
UmemParkedFacts.v
UmemDemo.v
UmemTheorems.v
Interner.v
StringTable.v
Schema.v
BundleCheck.v
TypeView.v
DisplayResolve.v
DisplayEval.v
BundleCheckFacts.v
TypeSizes.v
BundleDemo.v
BundleTheorems.v
ScalarFacts.v
EvalFacts.v
DisplayTheorems.v
Unwind.v
UnwindFacts.v
UnwindTheorems.v
TaskGraph.v
TaskGraphFacts.v
GraphWalk.v
GraphWalkFacts.v
Discovery.v
Work.v
DiscoveryFacts.v
WorkFacts.v
WorkTheorems.v
Value.v
Elements.v
Par.v
Collections.v
ElementsFacts.v
MapFacts.v
MemoryDemo.v
SequenceTheorems.v
Symbols.v
Semantics.v
SymbolTheorems.v
Pairing.v
PairingTheorems.v
Contract.v
Chain.v
ContractFacts.v
ChainTheorems.v
TaskHeader.v
OwnedLists.v
TaskDemo.v
OwnedListTheorems.v
Runtimes.v
RuntimeTheorems.v
Effects.v
Registries.v
RegistryFacts.v
Containers.v
Observe.v
Assess.v
AssessFacts.v
AssessTheorems.v
Scan.v
ScanFacts.v
ScanSpec.v
ScanTheorems.v
Live.v
LiveTheorems.v
