(* ===== verification/Prelude.v ===== *)
(** * Hansei, verified

    Hansei inspects the tokio runtime of a dead process: it opens a core dump,
    joins it to a bundle of type information extracted from a build of the
    program, and prints the tasks, the futures they hold and what they wait for.
    This library models the parts of that work that are not someone else's code
    (the DWARF and ELF parsers, the demangler, tokio itself) and proves what the
    program relies on them for.

    ** Parts, files and sources

    Each group below is a data model and its operations, translated function by
    function from the files named, then the facts about them and, last, the
    theorems.  A theorem with a claim number is a property of the program; the
    others serve them.

    - The target (crate [proc]).  [Target.v] is the [Target] trait as a class,
      with the errors, registers, mappings and symbols of [lib.rs] and the
      helpers built on the trait.  [Snapshot.v] is the recorder and the snapshot
      it writes ([snapshot.rs]); [SnapshotFacts.v] shows that replaying a
      recording gives back what was read, and no byte that was not.  [CoreFile.v] and [LinuxCore.v] are the
      core readers ([coredump/common.rs], [mod.rs], [linux.rs]); [LinuxCoreFacts]
      and [LinuxCoreTheorems] show what an
      opened core holds and answers.  [Text.v] is the text the messages use.
    - The allocator ([hansei-runtime/src/heap/umem.rs]).  [Umem.v] and
      [UmemWalk.v] are libumem's caches, slabs, magazines, arenas and allocation
      tags, and the index built of them; [UmemFacts], [UmemIndexFacts], [UmemWalkFacts],
      [UmemParkedFacts] and [UmemTheorems] show that the index
      is consistent, that building it cannot panic, and that it answers every
      address by the chunk that holds it.  [UmemDemo.v] is a heap to run it on.
    - Strings.  [Interner.v] is the sharded interner of [exegesis] and
      [StringTable.v] the table of a bundle ([hansei-bundle/src/strings.rs]).
    - The bundle (crate [hansei-bundle], and [reify] over it).  [Schema.v] is the
      type table, selectors and display nodes; [BundleCheck.v] the validation of
      [io.rs]; [TypeView.v] the view of [view.rs]; [DisplayResolve.v] and
      [DisplayEval.v] the resolution and evaluation of display programs
      ([reify/src/debug_type.rs], [render/scalar.rs], [render/node.rs]).
      [BundleCheckFacts], [TypeSizes] and [BundleTheorems] show
      that the checks of strings, types, display programs and walk bindings cannot
      panic and what they buy; [ScalarFacts], [EvalFacts]
      and [DisplayTheorems] that a validated program evaluates
      as it should.  [BundleDemo.v] is a bundle to run them on.
    - The unwinder (crate [unwind]).  [Unwind.v], [UnwindFacts],
      [UnwindTheorems].
    - The task graph ([hansei/src/relations.rs], [graph.rs], and the model types
      they read).  [TaskGraph.v] builds the relations, [GraphWalk.v] lists them;
      [TaskGraphFacts] and [GraphWalkFacts] show what is kept of the evidence and
      that a listing ends and shows every node once.
    - Discovery ([hansei-runtime/src/tokio/discovery.rs], [work.rs]).
      [Discovery.v] is the store of task records, [Work.v] the sweep's queue and
      the scope.  [DiscoveryFacts] shows that a record is
      what the evidence amounts to, and what of it no order of filing changes;
      [WorkFacts] and [WorkTheorems] that the sweep ends with every item given its
      turn once, which records it scanned, and that the scope is reachability from
      the roots.

    - Values ([reify/src/value.rs], [parse.rs], [elements.rs], [render/par.rs],
      [render/collections.rs]).  [Value.v] is a value read from the
      target, [Elements.v] the sequences, [Collections.v] the
      ordered, hashed and list-backed maps and their renders, [Par.v] the fan-out of a rendering
      over workers.  [ElementsFacts] and [MapFacts]
      serve [SequenceTheorems]: a sequence reads the bytes
      of its elements in order, a map's walk gives every entry once, the number of
      workers cannot be seen, and when fanning a map out cannot.  [MemoryDemo.v] is the target they run on.
    - Symbols and pairing ([hansei-bundle/src/symbols.rs], [semantics.rs], and
      [tokio/pairing.rs] of the runtime).  [Symbols.v] and [SymbolTheorems]: the
      normalized keys a mangled name joins by.  [Pairing.v] and
      [PairingTheorems]: the crates of a target paired with the bundle's.
      [Semantics.v]: poll programs, lock words and the symbol tables.
    - Chains ([tokio/contract.rs] and [tokio/chain.rs]).  [Contract.v] is a role's walk over a value, [Chain.v] the
      await chain of a task; [ContractFacts] and [ChainTheorems]
      show that a validated walk lands where its rows say, that a dynamic future
      is the one its vtable's slots name and that an inspection ends on its cause.
    - Sessions ([tokio/bundle.rs]).  [TaskHeader.v] reads a task from its header,
      [OwnedLists.v] a runtime's and a local set's lists, [Runtimes.v] the workers
      and the runtimes they reach, [Registries.v] the timer wheel, the io driver
      and the blocking queues, in the state and error monad of [Effects.v].
      [OwnedListTheorems], [RuntimeTheorems] and [RegistryFacts] show that each walk ends and files every link once.
      [Live.v] is the world of the sweep over these and over the storage scan
      below, and the discovery of hidden
      tasks; [LiveTheorems] composes them: the discovery ends,
      complete, over owners of the session alone, and each of its references is
      one the scanned task's storage makes.  [TaskDemo.v] is a runtime of
      three tasks they run on.
    - The storage scan ([tokio/scan.rs], [containers.rs], [observe.rs] and the
      observers of [tokio/bundle.rs] they call).  [Containers.v] walks vectors,
      intrusive lists, wait queues and hash tables; [Observe.v] decodes the tokio
      resources a future can wait on, with the memo of notify lists; [Scan.v] is
      the search of a task's storage for the tasks and resources it refers to,
      with the reference-free types and the allocation referents.  [ScanFacts]
      holds the equations of the scan.  [ScanSpec.v] says, with no order and no
      fuel, what a value holds ([part], [within]), what of it is asked and which
      references it makes ([names]), and what a search for reference-free types
      ought to find.  [ScanTheorems] shows that the scan emits exactly
      those references, that a spent frame stops it and is said, and that the
      types it skips are exactly the ones with nothing it looks for inside.
    - Waits ([tokio/assess.rs], the targets of [model.rs] and the joins of
      [tokio/bundle.rs]).  [Assess.v] is the assessor: the pass that reads each
      resource once, a protocol per resource with every way it declines, the
      phases of an HTTP connection, the target an observation names under no
      protocol, and the polling barriers.  [AssessFacts] states, protocol by
      protocol, what must have been read of a resource for a task to be waiting
      on it, and [AssessTheorems] shows that a task is assessed waiting exactly
      then, that two waits of one pass do not hold one place, and that a polling
      barrier is only told where it holds.

    The parts meet at interfaces: [Target] is what the unwinder, the allocator
    walk and the evaluator read through, [Goblin], [Elf] and the like stand for
    the parsing crates, [Demangler] for the demangler, [DiscoveryWorld] is what the
    sweep asks of a target, which [Live.v] answers by running the readers and the
    scan, and [StreamObservers] stands for the observers of i/o operations and
    connections, which the scan and the assessor only call.
    Their laws are hypotheses or class fields, and each theorem that needs one
    has a witness over a concrete instance.

    ** Conventions

    A machine word is a [Z] within its width, with the wrap-around of the release
    profile written out ([u64_add]) where the source does not check it.  A panic
    (an index, an [expect], an [unreachable!]) is the [Panic] of [outcome], so a
    theorem that a function returns is a theorem that it cannot panic.  A map is
    a [gmap] or, where order matters, an association list.  Loops over data that
    is not structural run on fuel, and running out of it is [Panic] or the stated
    error: the fuel given is the cap the source has (the frame limit of the
    unwinder, the item cap of the sweep, the 1000 runs of a custom list), the
    number of things a loop can still visit (the interval walks, the scope, the
    graph, the mapped bytes for a list in the target), or the number of types of a table (the recursion into array elements and the
    search for reference-free types).  The scan's own recursion runs on
    [visit_fuel], one more than the inline visits its budget has left, since each
    nested visit spends one.
    The theorems show that it is enough.

    ** Findings

    Modelling turned up places where the code and its comments part, and inputs
    it panics on; each is an [Example] or a theorem beside the code it is about:
    the inputs on which the unwind-table parser and the core reader panic, a cycle
    the graph listing does not mark, an array type that is its own element, the
    count of omitted references, a buffer cut inside an element, the cap zero-sized
    elements escape, a wrapper of itself that is peeled forever, the memo of paired
    candidates keyed by the symbol alone, the second read of a map fanned out, and a
    crate name cut inside a character.

    ** Not modelled

    The extraction of bundles from DWARF ([exegesis] but for its interner) is
    nearly all calls of [gimli] and tables of reviewed library layouts; the
    framing of a bundle is [postcard] and [zstd]; the illumos core reader repeats
    the Linux one against other note layouts; the commands of [hansei] print what
    the libraries compute.  The observers of i/o operations and of HTTP connections
    are reviewed layouts of third-party crates and stay behind an interface.  The
    wait sets, the sweep for wakers and its attributions, the census and the
    connection pools are not modelled; the assessor keeps the members of a wait
    set as a parameter. *)

(** ** The prelude

    Shared base of the development: machine words at their width, an outcome
    type for the panics of the source, a little-endian byte codec, stable
    sorting, binary-search partition points, and the tactics and hints every
    component file uses. *)

From stdpp Require Export base option list strings gmap sorting.
From Stdlib Require Export ZArith Lia.

#[global] Open Scope Z_scope.

(** ** Machine words

    A [u64] is a [Z] in [0, 2^64).  The plain operators [+], [-] and [*] of the
    source wrap, as they do in the release profile the tool is built with; the
    [checked_] and [saturating_] forms are the ones the source spells out. *)

Abbreviation W64 := 18446744073709551616.
Abbreviation W32 := 4294967296.

Definition u64_add (a b : Z) : Z := (a + b) `mod` W64.
Definition u64_sub (a b : Z) : Z := (a - b) `mod` W64.
Definition u64_mul (a b : Z) : Z := (a * b) `mod` W64.
Definition u32_add (a b : Z) : Z := (a + b) `mod` W32.

Definition checked_add (a b : Z) : option Z :=
  if a + b <? W64 then Some (a + b) else None.
Definition checked_sub (a b : Z) : option Z :=
  if b <=? a then Some (a - b) else None.
Definition checked_mul (a b : Z) : option Z :=
  if a * b <? W64 then Some (a * b) else None.
Definition saturating_add (a b : Z) : Z := Z.min (a + b) (W64 - 1).

(** A word as a two's-complement number of its width. *)
Definition as_i32 (w : Z) : Z := if w <? 2147483648 then w else w - W32.
Definition as_i64 (w : Z) : Z := if w <? 9223372036854775808 then w else w - W64.

(** [as u32] of a wider word. *)
Definition as_u32 (w : Z) : Z := w `mod` W32.

Definition is_u64 (z : Z) : Prop := 0 <= z < W64.
Definition is_u32 (z : Z) : Prop := 0 <= z < W32.

(** [u64::is_power_of_two]. *)
Definition is_power_of_two (z : Z) : bool :=
  (0 <? z) && (Z.land z (z - 1) =? 0).

(** A half-open range [start..end]. *)
Record range := Range { r_start : Z; r_end : Z }.

Definition range_contains (r : range) (a : Z) : bool :=
  (r_start r <=? a) && (a <? r_end r).

#[global] Instance range_eq_dec : EqDecision range.
Proof. solve_decision. Defined.

(** ** Panics

    [Panic] is a Rust panic: a failed index, [unwrap], [expect] or
    [unreachable!]. *)
Inductive outcome (A : Type) : Type :=
  | Ret (a : A)
  | Panic.
Arguments Ret {_} _.
Arguments Panic {_}.

#[global] Instance outcome_ret : MRet outcome := λ A, Ret.
#[global] Instance outcome_bind : MBind outcome := λ A B f m,
  match m with Ret a => f a | Panic => Panic end.
#[global] Instance outcome_fmap : FMap outcome := λ A B f m,
  match m with Ret a => Ret (f a) | Panic => Panic end.

(** An index, [unwrap] or [expect]: the value, or a panic. *)
Definition or_panic {A} (o : option A) : outcome A :=
  match o with Some a => Ret a | None => Panic end.

(** Integer division and remainder, which panic at zero. *)
Definition div_u64 (a b : Z) : outcome Z := if b =? 0 then Panic else Ret (a / b).
Definition rem_u64 (a b : Z) : outcome Z := if b =? 0 then Panic else Ret (a `mod` b).

(** The [?] of a function that returns an option and may panic: a missing value
    ends the function with [None]. *)
Definition try_bind {A B} (m : outcome (option A)) (f : A → outcome (option B))
    : outcome (option B) :=
  match m with
  | Ret (Some a) => f a
  | Ret None => Ret None
  | Panic => Panic
  end.

Notation "x ←? m ; k" := (try_bind m (λ x, k))
  (at level 20, m at level 100, k at level 200, only parsing) : stdpp_scope.
Notation "' x ←? m ; k" := (try_bind m (λ x : _, k))
  (at level 20, x pattern, m at level 100, k at level 200, only parsing) : stdpp_scope.

(** ** Bytes *)

#[global] Instance byte_eq_dec : EqDecision Byte.byte := Byte.byte_eq_dec.

Definition byte_Z (b : Byte.byte) : Z := Z.of_N (Byte.to_N b).

Fixpoint from_le_bytes (bs : list Byte.byte) : Z :=
  match bs with
  | [] => 0
  | b :: bs => byte_Z b + 256 * from_le_bytes bs
  end.

Definition Z_byte (z : Z) : Byte.byte :=
  match Byte.of_N (Z.to_N (z `mod` 256)) with
  | Some b => b
  | None => Byte.x00
  end.

Fixpoint to_le_bytes (n : nat) (z : Z) : list Byte.byte :=
  match n with
  | O => []
  | S n => Z_byte z :: to_le_bytes n (z / 256)
  end.

(** ** Sorting and searching

    [sort_by leb] is a stable sort: the result of [sort_by_key], and one of the
    results [sort_unstable] may give. *)
Section sort_by.
Context {A : Type} (leb : A → A → bool).

Fixpoint insert_by (x : A) (l : list A) : list A :=
  match l with
  | [] => [x]
  | y :: l' => if leb x y then x :: y :: l' else y :: insert_by x l'
  end.

Fixpoint sort_by (l : list A) : list A :=
  match l with
  | [] => []
  | x :: l' => insert_by x (sort_by l')
  end.
End sort_by.

(** [slice::partition_point] on a slice the predicate partitions: how many
    leading elements satisfy it. *)
Fixpoint partition_point {A} (p : A → bool) (l : list A) : nat :=
  match l with
  | [] => O
  | x :: l' => if p x then S (partition_point p l') else O
  end.

(** [Vec::dedup_by_key] with the equality test spelled out: an element equal to
    the last one kept is dropped. *)
Fixpoint dedup_from {A} (same : A → A → bool) (last : A) (l : list A) : list A :=
  match l with
  | [] => []
  | x :: l' => if same x last then dedup_from same last l'
               else x :: dedup_from same x l'
  end.

Definition dedup_by {A} (same : A → A → bool) (l : list A) : list A :=
  match l with
  | [] => []
  | x :: l' => x :: dedup_from same x l'
  end.

(** The order of a pair. *)
Definition pair_leb (x y : Z * Z) : bool :=
  (x.1 <? y.1) || ((x.1 =? y.1) && (x.2 <=? y.2)).

(** A slice [l[start..start+len]]; [None] is the panic of a range past the
    end. *)
Definition slice {A} (l : list A) (start len : Z) : option (list A) :=
  if (0 <=? start) && (0 <=? len) && (start + len <=? Z.of_nat (length l))
  then Some (take (Z.to_nat len) (drop (Z.to_nat start) l))
  else None.

(** [slice::windows(2)]. *)
Fixpoint windows2 {A} (l : list A) : list (A * A) :=
  match l with
  | x :: ((y :: _) as l') => (x, y) :: windows2 l'
  | _ => []
  end.

(** [Iterator::find_map]. *)
Fixpoint find_map {A B} (f : A → option B) (l : list A) : option B :=
  match l with
  | [] => None
  | x :: l' => match f x with Some b => Some b | None => find_map f l' end
  end.

(** [Iterator::find]. *)
Fixpoint find_first {A} (p : A → bool) (l : list A) : option A :=
  match l with
  | [] => None
  | x :: l' => if p x then Some x else find_first p l'
  end.

(** [Iterator::position]. *)
Fixpoint find_position {A} (p : A → bool) (l : list A) : option nat :=
  match l with
  | [] => None
  | x :: l' => if p x then Some O else S <$> find_position p l'
  end.

(** The integers [a..a+n]. *)
Fixpoint z_range (a : Z) (n : nat) : list Z :=
  match n with O => [] | S n => a :: z_range (a + 1) n end.

Definition sum_Z (l : list Z) : Z := foldr Z.add 0 l.

(** A sum of [u64]s, wrapping. *)
Definition sum_u64 (l : list Z) : Z := foldl u64_add 0 l.

(** ** Tactics *)

Ltac zb :=
  repeat match goal with
  | H : (_ <? _) = true |- _ => apply Z.ltb_lt in H
  | H : (_ <? _) = false |- _ => apply Z.ltb_ge in H
  | H : (_ <=? _) = true |- _ => apply Z.leb_le in H
  | H : (_ <=? _) = false |- _ => apply Z.leb_gt in H
  | H : (_ =? _) = true |- _ => apply Z.eqb_eq in H
  | H : (_ =? _) = false |- _ => apply Z.eqb_neq in H
  | H : (_ && _)%bool = true |- _ => apply andb_true_iff in H as [? ?]
  | H : (_ || _)%bool = false |- _ => apply orb_false_iff in H as [? ?]
  | H : negb _ = true |- _ => apply negb_true_iff in H
  | H : negb _ = false |- _ => apply negb_false_iff in H
  | |- (_ <? _) = true => apply Z.ltb_lt
  | |- (_ <? _) = false => apply Z.ltb_ge
  | |- (_ <=? _) = true => apply Z.leb_le
  | |- (_ <=? _) = false => apply Z.leb_gt
  | |- (_ =? _) = true => apply Z.eqb_eq
  | |- (_ =? _) = false => apply Z.eqb_neq
  | |- (_ && _)%bool = true => apply andb_true_iff; split
  end.

(** Case on the scrutinee of a match or conditional of the goal or of [H]. *)
Ltac case_goal :=
  match goal with
  | |- context [match ?x with _ => _ end] =>
      lazymatch x with context [match _ with _ => _ end] => fail | _ => destruct x eqn:? end
  end.
Ltac case_in H :=
  match type of H with
  | context [match ?x with _ => _ end] =>
      lazymatch x with context [match _ with _ => _ end] => fail | _ => destruct x eqn:? end
  end.

(** ** Lemmas *)

Lemma outcome_bind_eq {A B} (f : A → outcome B) m :
  m ≫= f = match m with Ret a => f a | Panic => Panic end.
Proof. done. Qed.

Lemma outcome_bind_Ret {A B} (f : A → outcome B) m b :
  m ≫= f = Ret b ↔ ∃ a, m = Ret a ∧ f a = Ret b.
Proof. destruct m; simpl; naive_solver. Qed.

Lemma or_panic_Ret {A} (o : option A) a : or_panic o = Ret a ↔ o = Some a.
Proof. destruct o; simpl; naive_solver. Qed.

Create HintDb word discriminated.

Lemma u64_add_small a b : is_u64 (a + b) → u64_add a b = a + b.
Proof. intros ?. by apply Z.mod_small. Qed.
Lemma u64_sub_small a b : is_u64 (a - b) → u64_sub a b = a - b.
Proof. intros ?. by apply Z.mod_small. Qed.
Lemma u64_mul_small a b : is_u64 (a * b) → u64_mul a b = a * b.
Proof. intros ?. by apply Z.mod_small. Qed.
Lemma u64_add_range a b : is_u64 (u64_add a b).
Proof. by apply Z.mod_pos_bound. Qed.
Lemma u64_sub_range a b : is_u64 (u64_sub a b).
Proof. by apply Z.mod_pos_bound. Qed.
Lemma u64_mul_range a b : is_u64 (u64_mul a b).
Proof. by apply Z.mod_pos_bound. Qed.
#[export] Hint Resolve u64_add_range u64_sub_range u64_mul_range : word.

Lemma checked_add_Some a b c :
  checked_add a b = Some c ↔ c = a + b ∧ a + b < W64.
Proof.
  unfold checked_add. destruct (Z.ltb_spec (a + b) W64); split; [|intros [-> ?]| |intros [-> ?]];
    intros; simplify_eq; try split; try done; lia.
Qed.
Lemma checked_sub_Some a b c :
  checked_sub a b = Some c ↔ c = a - b ∧ b <= a.
Proof.
  unfold checked_sub. destruct (Z.leb_spec b a); split; [|intros [-> ?]| |intros [-> ?]];
    intros; simplify_eq; try split; try done; lia.
Qed.
Lemma checked_mul_Some a b c :
  checked_mul a b = Some c ↔ c = a * b ∧ a * b < W64.
Proof.
  unfold checked_mul. destruct (Z.ltb_spec (a * b) W64); split; [|intros [-> ?]| |intros [-> ?]];
    intros; simplify_eq; try split; try done; lia.
Qed.

Lemma range_contains_spec r a :
  range_contains r a = true ↔ r_start r <= a < r_end r.
Proof. unfold range_contains. rewrite andb_true_iff, Z.leb_le, Z.ltb_lt. done. Qed.

Lemma byte_Z_range b : 0 <= byte_Z b < 256.
Proof.
  unfold byte_Z. pose proof (Byte.to_N_bounded b). lia.
Qed.

Lemma byte_Z_inj b b' : byte_Z b = byte_Z b' → b = b'.
Proof.
  unfold byte_Z. intros H%N2Z.inj. pose proof (Byte.of_to_N b).
  pose proof (Byte.of_to_N b'). congruence.
Qed.

Lemma byte_Z_Z_byte z : byte_Z (Z_byte z) = z `mod` 256.
Proof.
  unfold Z_byte, byte_Z. pose proof (Z.mod_pos_bound z 256 ltac:(lia)).
  destruct (Byte.of_N _) eqn:E.
  - apply Byte.to_of_N in E. rewrite E. rewrite Z2N.id; lia.
  - apply Byte.of_N_None_iff in E. lia.
Qed.

Lemma from_le_bytes_range bs :
  0 <= from_le_bytes bs < 256 ^ Z.of_nat (length bs).
Proof.
  induction bs as [|b bs IH]; [done|].
  simpl length. rewrite Nat2Z.inj_succ, Z.pow_succ_r by lia. simpl.
  pose proof (byte_Z_range b). lia.
Qed.

Lemma length_to_le_bytes n z : length (to_le_bytes n z) = n.
Proof. revert z. induction n; naive_solver. Qed.

Lemma from_to_le_bytes n z :
  from_le_bytes (to_le_bytes n z) = z `mod` (256 ^ Z.of_nat n).
Proof.
  revert z. induction n as [|n IH]; intros z; [by rewrite Z.mod_1_r|].
  cbn [to_le_bytes from_le_bytes]. rewrite IH, byte_Z_Z_byte.
  rewrite Nat2Z.inj_succ, Z.pow_succ_r by lia.
  rewrite Z.rem_mul_r by lia. lia.
Qed.

(** Elements of a sorted list, and the first of a list that a predicate holds of. *)

Lemma StronglySorted_lookup {A} (R : relation A) l i j x y :
  StronglySorted R l → l !! i = Some x → l !! j = Some y → (i < j)%nat → R x y.
Proof.
  intros Hs. revert i j. induction Hs as [|z l _ IH Hz]; intros i j Hi Hj Hlt; [done|].
  destruct j as [|j]; [lia|]. destruct i as [|i]; simpl in *; [|by apply (IH i j); [..|lia]].
  simplify_eq. rewrite Forall_forall in Hz. by apply Hz; eapply list_elem_of_lookup_2.
Qed.

Lemma find_first_ext {A} (p q : A → bool) l :
  (∀ a, a ∈ l → p a = q a) → find_first p l = find_first q l.
Proof.
  induction l as [|a l IH]; intros H; [done|]. cbn [find_first]. rewrite H by (by left).
  destruct (q a); [done|]. apply IH. intros; apply H. by right.
Qed.

Lemma find_first_existsb {A} (p : A → bool) l :
  find_first p l = None ↔ existsb p l = false.
Proof. induction l as [|a l IH]; [done|]. cbn. by destruct (p a). Qed.

Section sort_lemmas.
Context {A : Type} (leb : A → A → bool).

Lemma insert_by_perm x l : insert_by leb x l ≡ₚ x :: l.
Proof.
  induction l as [|y l IH]; simpl; [done|].
  destruct (leb x y); [done|]. rewrite IH. apply Permutation_swap.
Qed.

Lemma sort_by_perm l : sort_by leb l ≡ₚ l.
Proof. induction l as [|x l IH]; simpl; [done|]. by rewrite insert_by_perm, IH. Qed.

Context (leb_total : ∀ x y, leb x y = true ∨ leb y x = true).
Context (leb_trans : ∀ x y z, leb x y = true → leb y z = true → leb x z = true).

Lemma insert_by_sorted x l :
  StronglySorted (λ a b, leb a b = true) l →
  StronglySorted (λ a b, leb a b = true) (insert_by leb x l).
Proof.
  induction 1 as [|y l Hs IH Hy]; simpl; [by repeat constructor|].
  destruct (leb x y) eqn:E.
  - constructor; [by constructor|]. constructor; [done|].
    eapply Forall_impl; [done|]. eauto.
  - constructor; [done|]. rewrite insert_by_perm. constructor; [|done].
    destruct (leb_total x y); congruence.
Qed.

Lemma sort_by_sorted l : StronglySorted (λ a b, leb a b = true) (sort_by leb l).
Proof. induction l; simpl; [constructor|]. by apply insert_by_sorted. Qed.

(** Elements a predicate cannot tell apart by order keep their order. *)
Lemma insert_by_stable (p : A → bool) x l :
  (∀ y, p x = true → p y = true → leb x y = true) →
  filter (λ y, p y = true) (insert_by leb x l) =
  filter (λ y, p y = true) (x :: l).
Proof.
  intros Hp. induction l as [|y l IH]; [done|].
  cbn [insert_by]. destruct (leb x y) eqn:E; [done|].
  rewrite filter_cons, IH, !filter_cons.
  repeat case_decide; try done. rewrite Hp in E by done. done.
Qed.

Lemma sort_by_stable (p : A → bool) l :
  (∀ x y, p x = true → p y = true → leb x y = true) →
  filter (λ y, p y = true) (sort_by leb l) = filter (λ y, p y = true) l.
Proof.
  intros Hp. induction l as [|x l IH]; [done|]. cbn [sort_by].
  rewrite insert_by_stable by eauto. rewrite !filter_cons, IH. done.
Qed.
End sort_lemmas.

Lemma pair_leb_total x y : pair_leb x y = true ∨ pair_leb y x = true.
Proof.
  unfold pair_leb. rewrite !orb_true_iff, !andb_true_iff, !Z.ltb_lt, !Z.eqb_eq, !Z.leb_le. lia.
Qed.
Lemma pair_leb_trans x y z :
  pair_leb x y = true → pair_leb y z = true → pair_leb x z = true.
Proof.
  unfold pair_leb. rewrite !orb_true_iff, !andb_true_iff, !Z.ltb_lt, !Z.eqb_eq, !Z.leb_le. lia.
Qed.

Lemma length_slice {A} (l : list A) start len l' :
  slice l start len = Some l' → Z.of_nat (length l') = len.
Proof.
  unfold slice. destruct (_ && _) eqn:E; [|done]. zb. intros [= <-].
  rewrite length_take, length_drop. lia.
Qed.

Lemma partition_point_le {A} (p : A → bool) l : (partition_point p l ≤ length l)%nat.
Proof. induction l as [|x l IH]; simpl; [lia|]. destruct (p x); simpl; lia. Qed.

Lemma partition_point_before {A} (p : A → bool) l i x :
  l !! i = Some x → (i < partition_point p l)%nat → p x = true.
Proof.
  revert i. induction l as [|y l IH]; intros i Hi Hlt; [done|].
  simpl in Hlt. destruct (p y) eqn:E; [|lia].
  destruct i as [|i]; simpl in Hi; [congruence|]. eapply IH; [done|lia].
Qed.

Lemma partition_point_at {A} (p : A → bool) l x :
  l !! partition_point p l = Some x → p x = false.
Proof. induction l as [|y l IH]; simpl; [done|]. destruct (p y) eqn:E; simpl; naive_solver. Qed.

(** On a sorted list the predicate is false from the partition point on. *)
Lemma partition_point_after {A} (R : relation A) (p : A → bool) l i x :
  StronglySorted R l → (∀ a b, R a b → p b = true → p a = true) →
  l !! i = Some x → (partition_point p l ≤ i)%nat → p x = false.
Proof.
  intros Hs HR. revert i. induction Hs as [|y l Hs IH Hy]; intros i Hi Hle; [done|].
  simpl in Hle. destruct (p y) eqn:E.
  - destruct i as [|i]; [lia|]. apply (IH i); [done|lia].
  - destruct i as [|i]; simpl in Hi; [congruence|].
    destruct (p x) eqn:Ex; [|done]. rewrite Forall_lookup in Hy.
    rewrite (HR y x) in E; [done|eauto|done].
Qed.

Lemma find_first_Some {A} (p : A → bool) l x :
  find_first p l = Some x → x ∈ l ∧ p x = true.
Proof.
  induction l as [|y l IH]; simpl; [done|].
  destruct (p y) eqn:E; intros; simplify_eq; [split; [left|done]|].
  destruct IH as [??]; [done|]. split; [by right|done].
Qed.

Lemma find_first_None {A} (p : A → bool) l :
  find_first p l = None ↔ ∀ x, x ∈ l → p x = false.
Proof.
  induction l as [|y l IH]; simpl; [split; [by intros _ x ?%not_elem_of_nil|done]|].
  destruct (p y) eqn:E.
  - split; [done|]. intros H. rewrite H in E by left. done.
  - rewrite IH. split.
    + intros H x [->|?]%elem_of_cons; auto.
    + intros H x ?. apply H. by right.
Qed.

Lemma find_first_filter {A} (p : A → bool) l :
  find_first p l = head (filter (λ x, p x = true) l).
Proof.
  induction l as [|y l IH]; [done|]. simpl. rewrite filter_cons.
  destruct (p y) eqn:E; case_decide; simplify_eq; done.
Qed.

Lemma elem_of_z_range a n z : z ∈ z_range a n ↔ a <= z < a + Z.of_nat n.
Proof.
  revert a. induction n as [|n IH]; intros a; simpl z_range.
  - rewrite elem_of_nil. lia.
  - rewrite elem_of_cons, IH. lia.
Qed.

Lemma length_z_range a n : length (z_range a n) = n.
Proof. revert a. induction n; naive_solver. Qed.

Lemma z_range_lookup a n i :
  (i < n)%nat → z_range a n !! i = Some (a + Z.of_nat i).
Proof.
  revert a i. induction n as [|n IH]; intros a [|i] ?; try lia; simpl.
  - f_equal. lia.
  - rewrite IH by lia. f_equal. lia.
Qed.

Lemma NoDup_z_range a n : NoDup (z_range a n).
Proof.
  revert a. induction n as [|n IH]; intros a; simpl; constructor; [|done].
  rewrite elem_of_z_range. lia.
Qed.

Lemma windows2_sorted {A} (R : relation A) (l : list A) :
  Sorted R l ↔ ∀ p, p ∈ windows2 l → R p.1 p.2.
Proof.
  induction l as [|x [|y l] IH].
  - split; [by intros _ p ?%elem_of_nil|constructor].
  - split; [by intros _ p ?%elem_of_nil|repeat constructor].
  - cbn [windows2]. split.
    + intros Hs p [->|Hp]%elem_of_cons; inversion Hs as [|?? Hs' Hx]; subst.
      * by inversion Hx.
      * by apply IH.
    + intros H. constructor; [|constructor].
      * apply IH. intros p ?. apply H. by right.
      * apply (H (x, y)). left.
Qed.


Lemma partition_point_split {A} (p : A → bool) l n :
  partition_point p l = n → (∀ i x, l !! i = Some x → (i < n)%nat → p x = true) ∧
  (∀ x, l !! n = Some x → p x = false) ∧ (n ≤ length l)%nat.
Proof.
  intros <-. split_and!.
  - intros i x. apply partition_point_before.
  - intros x. apply partition_point_at.
  - apply partition_point_le.
Qed.

(** ** Searching disjoint intervals

    The bisection every index of the source makes: the last interval that
    starts at or before an address, if the address is inside it. *)
Section intervals.
Context {A : Type} (lo hi : A → Z).

Definition interval_index (l : list A) (x : Z) : option nat :=
  match partition_point (λ a, lo a <=? x) l with
  | O => None
  | S i => a ← l !! i; if x <? hi a then Some i else None
  end.

(** In order, none empty and none meeting another. *)
Definition intervals_wf (l : list A) : Prop :=
  StronglySorted (λ a b, hi a <= lo b) l ∧ Forall (λ a, lo a < hi a) l.

Lemma intervals_wf_cons a l :
  intervals_wf (a :: l) ↔
  lo a < hi a ∧ Forall (λ b, hi a <= lo b) l ∧ intervals_wf l.
Proof.
  unfold intervals_wf. rewrite Forall_cons. split.
  - intros [Hs [? ?]]. apply StronglySorted_inv in Hs as [??]. tauto.
  - intros (? & ? & ? & ?). repeat split; [by constructor|done|done].
Qed.

Lemma intervals_before l i j a b :
  intervals_wf l → l !! i = Some a → l !! j = Some b → (i < j)%nat → hi a <= lo b.
Proof.
  revert i j. induction l as [|c l IH]; intros i j Hwf Hi Hj Hij; [done|].
  apply intervals_wf_cons in Hwf as (Hc & Hall & Hwf).
  destruct j as [|j]; [lia|]. destruct i as [|i]; simpl in *.
  - simplify_eq. rewrite Forall_lookup in Hall. eauto.
  - eapply (IH i j); [done..|lia].
Qed.

Lemma intervals_unique l i j a b x :
  intervals_wf l → l !! i = Some a → l !! j = Some b →
  lo a <= x < hi a → lo b <= x < hi b → i = j.
Proof.
  intros Hwf Hi Hj Ha Hb. destruct (lt_eq_lt_dec i j) as [[?| ->]|?]; [|done|].
  - pose proof (intervals_before l i j a b Hwf Hi Hj ltac:(lia)). lia.
  - pose proof (intervals_before l j i b a Hwf Hj Hi ltac:(lia)). lia.
Qed.

Lemma interval_index_Some l x i :
  intervals_wf l →
  interval_index l x = Some i ↔ ∃ a, l !! i = Some a ∧ lo a <= x < hi a.
Proof.
  intros Hwf. unfold interval_index.
  destruct (partition_point _ l) as [|n] eqn:E; apply partition_point_split in E as (Hb & Hat & Hn).
  - split; [done|]. intros (a & Hi & Ha). destruct l as [|c l]; [done|].
    specialize (Hat c eq_refl). zb. destruct i as [|i]; [simpl in Hi; simplify_eq; lia|].
    pose proof (intervals_before (c :: l) 0 (S i) c a Hwf eq_refl Hi ltac:(lia)).
    apply intervals_wf_cons in Hwf as [? _]. lia.
  - destruct (lookup_lt_is_Some_2 l n) as [a Ha]; [lia|]. rewrite Ha. simpl.
    specialize (Hb n a Ha ltac:(lia)) as Hlo. zb. split.
    + case_match; [|done]. intros [= <-]. zb. eauto.
    + intros (b & Hi & Hx). destruct (decide (i < n)%nat) as [Hlt|].
      { pose proof (intervals_before l i n b a Hwf Hi Ha Hlt). lia. }
      destruct (decide (i = n)) as [->|].
      { simplify_eq. by rewrite (proj2 (Z.ltb_lt _ _)) by lia. }
      exfalso. destruct (lookup_lt_is_Some_2 l (S n)) as [c Hc].
      { apply lookup_lt_Some in Hi. lia. }
      specialize (Hat c Hc). zb. destruct (decide (i = S n)) as [->|]; [simplify_eq; lia|].
      pose proof (intervals_before l (S n) i c b Hwf Hc Hi ltac:(lia)).
      destruct Hwf as [_ Hne]. rewrite Forall_lookup in Hne. specialize (Hne _ _ Hc). lia.
Qed.
End intervals.

(** ** Sums *)

Lemma sum_Z_app l k : sum_Z (l ++ k) = sum_Z l + sum_Z k.
Proof. induction l as [|x l IH]; simpl; [done|]. lia. Qed.

Lemma sum_Z_nonneg l : Forall (Z.le 0) l → 0 <= sum_Z l.
Proof. induction 1; simpl; lia. Qed.

Lemma sum_Z_perm l k : l ≡ₚ k → sum_Z l = sum_Z k.
Proof. induction 1; simpl; lia. Qed.

Lemma sum_u64_mod l : sum_u64 l = sum_Z l `mod` W64.
Proof.
  assert (∀ l a, foldl u64_add (a `mod` W64) l = (a + sum_Z l) `mod` W64) as Haux.
  { clear l. induction l as [|x l IH]; intros a; simpl.
    - f_equal. lia.
    - unfold u64_add. rewrite Zplus_mod_idemp_l, IH. f_equal. lia. }
  apply (Haux l 0).
Qed.

Lemma sum_u64_small l : is_u64 (sum_Z l) → sum_u64 l = sum_Z l.
Proof. intros ?. rewrite sum_u64_mod. by apply Z.mod_small. Qed.

(** How many of [a..a+n] satisfy a test. *)
Definition count_range (p : Z → bool) (a : Z) (n : nat) : Z :=
  Z.of_nat (length (filter (λ i, p i = true) (z_range a n))).

Lemma z_range_app a n m : z_range a (n + m) = z_range a n ++ z_range (a + Z.of_nat n) m.
Proof.
  revert a. induction n as [|n IH]; intros a.
  - cbn [z_range Nat.add app]. f_equal. lia.
  - cbn [z_range Nat.add app]. rewrite IH. do 3 f_equal. lia.
Qed.

Lemma count_range_S p a n :
  count_range p a (S n) = (if p a then 1 else 0) + count_range p (a + 1) n.
Proof.
  unfold count_range. simpl z_range. rewrite filter_cons.
  destruct (p a) eqn:E; case_decide; simplify_eq; simpl length; lia.
Qed.

Lemma count_range_app p a n m :
  count_range p a (n + m) = count_range p a n + count_range p (a + Z.of_nat n) m.
Proof. unfold count_range. rewrite z_range_app, filter_app, length_app. lia. Qed.

Lemma count_range_ext p q a n b :
  (∀ i, a <= i < a + Z.of_nat n → p i = q (i + b)) →
  count_range p a n = count_range q (a + b) n.
Proof.
  revert a. induction n as [|n IH]; intros a H; [done|].
  rewrite !count_range_S, H, (IH (a + 1)) by (intros; apply H || lia; lia).
  replace (a + 1 + b) with (a + b + 1) by lia. done.
Qed.

Lemma count_range_none p a n :
  (∀ i, a <= i < a + Z.of_nat n → p i = false) → count_range p a n = 0.
Proof.
  revert a. induction n as [|n IH]; intros a H; [done|].
  rewrite count_range_S, H, IH by (intros; try apply H; lia). done.
Qed.

Lemma count_range_bound p a n : 0 <= count_range p a n <= Z.of_nat n.
Proof.
  revert a. induction n as [|n IH]; intros a; [done|].
  rewrite count_range_S. specialize (IH (a + 1)). case_match; lia.
Qed.

Lemma count_range_negb p a n :
  count_range (λ i, negb (p i)) a n = Z.of_nat n - count_range p a n.
Proof.
  revert a. induction n as [|n IH]; intros a; [done|].
  rewrite !count_range_S, IH. destruct (p a); simpl; lia.
Qed.

Lemma count_range_orb p q a n :
  (∀ i, a <= i < a + Z.of_nat n → p i = true → q i = false) →
  count_range (λ i, p i || q i) a n = count_range p a n + count_range q a n.
Proof.
  revert a. induction n as [|n IH]; intros a H; [done|].
  rewrite !count_range_S, IH by (intros; apply H; [lia|done]).
  specialize (H a ltac:(lia)). destruct (p a); simpl; [rewrite H by done|]; lia.
Qed.

(** Setting one more element of the range. *)
Lemma count_range_add p c a n :
  a <= c < a + Z.of_nat n → p c = false →
  count_range (λ i, p i || (i =? c)) a n = count_range p a n + 1.
Proof.
  intros Hc Hp. rewrite count_range_orb by (intros i _ Hi; zb; congruence). f_equal.
  revert a Hc. induction n as [|n IH]; intros a Hc; [lia|].
  rewrite count_range_S. destruct (a =? c) eqn:E; zb.
  - rewrite count_range_none; [done|]. intros; zb; lia.
  - rewrite IH by lia. done.
Qed.

Lemma filter_all {A} (P : A → Prop) `{!∀ x : A, Decision (P x)} (l : list A) :
  (∀ x, x ∈ l → P x) → filter P l = l.
Proof.
  induction l as [|x l IH]; intros Hl; [done|].
  rewrite filter_cons_True by (apply Hl; left). f_equal. apply IH. intros y ?. apply Hl. by right.
Qed.

Lemma filter_none {A} (P : A → Prop) `{!∀ x : A, Decision (P x)} (l : list A) :
  (∀ x, x ∈ l → ¬ P x) → filter P l = [].
Proof.
  induction l as [|x l IH]; intros Hl; [done|].
  rewrite filter_cons_False by (apply Hl; left). apply IH. intros y ?. apply Hl. by right.
Qed.
