(* ===== verification/Text.v ===== *)
(** Text as the source's standard library makes it: the number formats of
    [format!], and the lossy decoding of bytes into a string.  A string is a
    list of UTF-8 bytes, as Rust's is. *)

From stdpp Require Import pretty.
From S2P Require Import Prelude.

Local Open Scope Z_scope.

(** [{}] of an unsigned number. *)
Definition dec (z : Z) : string := pretty (Z.to_N z).

(** [{:#x}] of an unsigned word. *)
Definition hex_digit (d : Z) : string :=
  default "?" (["0"; "1"; "2"; "3"; "4"; "5"; "6"; "7"; "8"; "9";
                "a"; "b"; "c"; "d"; "e"; "f"]%string !! Z.to_nat d).

Fixpoint hex_digits (fuel : nat) (z : Z) (acc : string) : string :=
  match fuel with
  | O => acc
  | S fuel =>
      let acc := (hex_digit (z `mod` 16) +:+ acc)%string in
      if z / 16 =? 0 then acc else hex_digits fuel (z / 16) acc
  end.

Definition hex (z : Z) : string := ("0x" +:+ hex_digits 16 z EmptyString)%string.

(** Bytes and the characters of a string. *)
Definition bytes_of_string (s : string) : list Byte.byte := String.list_byte_of_string s.
Definition string_of_bytes (bs : list Byte.byte) : string := String.string_of_list_byte bs.

(** One step of [String::from_utf8_lossy] from a nonempty rest: whether the
    sequence that starts there is valid, and how many bytes it takes.  An
    invalid one takes the maximal prefix a valid sequence could have. *)
Definition utf8_step (bs : list Byte.byte) : bool * nat :=
  let at_ i := default 0 (byte_Z <$> bs !! i) in
  let within lo hi b := (lo <=? b) && (b <=? hi) in
  let cont i := within 128 191 (at_ i) in
  let b := at_ O in
  if b <? 128 then (true, 1%nat)
  else if within 194 223 b then
    if cont 1%nat then (true, 2%nat) else (false, 1%nat)
  else if within 224 239 b then
    let lo := if b =? 224 then 160 else 128 in
    let hi := if b =? 237 then 159 else 191 in
    if within lo hi (at_ 1%nat) then
      if cont 2%nat then (true, 3%nat) else (false, 2%nat)
    else (false, 1%nat)
  else if within 240 244 b then
    let lo := if b =? 240 then 144 else 128 in
    let hi := if b =? 244 then 143 else 191 in
    if within lo hi (at_ 1%nat) then
      if cont 2%nat then
        if cont 3%nat then (true, 4%nat) else (false, 3%nat)
      else (false, 2%nat)
    else (false, 1%nat)
  else (false, 1%nat).

(** U+FFFD, the replacement character. *)
Definition replacement : list Byte.byte := [Byte.xef; Byte.xbf; Byte.xbd].

Fixpoint utf8_lossy (fuel : nat) (bs : list Byte.byte) : list Byte.byte :=
  match fuel, bs with
  | S fuel, _ :: _ =>
      let (valid, n) := utf8_step bs in
      (if valid then take n bs else replacement) ++ utf8_lossy fuel (drop n bs)
  | _, _ => []
  end.

(** [String::from_utf8_lossy]; every step takes a byte, so the length is
    enough fuel. *)
Definition from_utf8_lossy (bs : list Byte.byte) : string :=
  string_of_bytes (utf8_lossy (length bs) bs).

Example hex_example : hex 57005 = "0xdead" ∧ hex 0 = "0x0".
Proof. split; reflexivity. Qed.
Example lossy_example :
  from_utf8_lossy (bytes_of_string "umem_oversize") = "umem_oversize" ∧
  utf8_lossy 3 [Byte.xe0; Byte.xa0; Byte.x41] = replacement ++ [Byte.x41].
Proof. split; reflexivity. Qed.

(** ** The order of strings *)

Lemma ascii_compare_N c d :
  Ascii.compare c d = N.compare (Ascii.N_of_ascii c) (Ascii.N_of_ascii d).
Proof. done. Qed.

Lemma string_leb_trans x y z :
  String.leb x y = true → String.leb y z = true → String.leb x z = true.
Proof.
  unfold String.leb. revert y z. induction x as [|c x IH]; intros [|d y] [|e z]; simpl; try done.
  rewrite !ascii_compare_N.
  destruct (N.compare_spec (Ascii.N_of_ascii c) (Ascii.N_of_ascii d)) as [Ecd|Hcd|]; [| |done];
  destruct (N.compare_spec (Ascii.N_of_ascii d) (Ascii.N_of_ascii e)) as [Ede|Hde|]; try done;
  destruct (N.compare_spec (Ascii.N_of_ascii c) (Ascii.N_of_ascii e)); try lia; try done.
  apply IH.
Qed.

Lemma string_ltb_leb x y : String.ltb x y = negb (String.leb y x).
Proof.
  unfold String.ltb, String.leb. rewrite (String.compare_antisym y x).
  by destruct (String.compare x y).
Qed.

Lemma string_leb_refl x : String.leb x x = true.
Proof. by destruct (String.leb_total x x). Qed.
#[export] Hint Resolve string_leb_trans string_leb_refl : core.

(** ** Splitting and checking *)

(** [String::from_utf8]. *)
Fixpoint utf8_valid (fuel : nat) (bs : list Byte.byte) : bool :=
  match fuel, bs with
  | S fuel, _ :: _ =>
      let (valid, n) := utf8_step bs in valid && utf8_valid fuel (drop n bs)
  | _, _ => true
  end.

Definition from_utf8 (bs : list Byte.byte) : option string :=
  if utf8_valid (length bs) bs then Some (string_of_bytes bs) else None.

Definition slash : Ascii.ascii := Ascii.ascii_of_N 47.
Definition backtick : Ascii.ascii := Ascii.ascii_of_N 96.

(** [str::split_once] on a character. *)
Fixpoint split_once (c : Ascii.ascii) (s : string) : option (string * string) :=
  match s with
  | EmptyString => None
  | String d s =>
      if Ascii.eqb d c then Some (EmptyString, s)
      else '(a, b) ← split_once c s; Some (String d a, b)
  end.

(** The first item of [str::rsplit] on a character: what follows the last. *)
Fixpoint after_last (c : Ascii.ascii) (s : string) : string :=
  match s with
  | EmptyString => EmptyString
  | String d s' =>
      match split_once c s' with
      | Some _ => after_last c s'
      | None => if Ascii.eqb d c then s' else s
      end
  end.

(** [str::trim_start_matches] of a character. *)
Fixpoint trim_start (c : Ascii.ascii) (s : string) : string :=
  match s with
  | String d s' => if Ascii.eqb d c then trim_start c s' else s
  | EmptyString => s
  end.

(** [Path::join] of a relative path. *)
Definition path_join (root p : string) : string :=
  if String.eqb root EmptyString then p
  else if String.eqb (after_last slash root) EmptyString then root +:+ p
  else root +:+ "/" +:+ p.

Example split_example :
  split_once backtick "libc`read" = Some ("libc", "read") ∧ split_once backtick "read" = None ∧
  after_last slash "/usr/bin/cat" = "cat" ∧ after_last slash "cat" = "cat" ∧
  trim_start slash "//lib/a" = "lib/a" ∧ path_join "/root" "lib/a" = "/root/lib/a" ∧
  path_join "/root/" "a" = "/root/a".
Proof. repeat split; reflexivity. Qed.
