(* ===== verification/Target.v ===== *)
(** The reading surface of a debug target ([proc/src/lib.rs]): the [Target]
    trait as a typeclass with its contract, errors, registers, mappings,
    symbols, and the helpers built on the trait ([readable_runs], the
    thread-local resolvers). *)

From S2P Require Import Prelude.

Local Open Scope Z_scope.

(** ** Errors *)

(** The foreign payloads (a NUL position, an [io::Error]) are kept as the text
    they print. *)
Inductive ErrorKind :=
  | BadCore (what : string)
  | BadPath (e : string)
  | GrabFailed (what : string)
  | LgrabFailed (what : string)
  | LwpIterFailed
  | MapIterFailed
  | NoExecName
  | NoLwpName
  | NoNul (e : string)
  | NotThreadLocal (name : string) (ty : Z)
  | ReadIo (e : string)
  | SymbolIterFailed
  | TlsKeyOutOfRange (key : Z)
  | TlsNotRecorded (name : string) (fsbase : Z)
  | UnexpectedEof
  | Unmapped (addr len : Z).

Inductive Result (A : Type) :=
  | Ok (a : A)
  | Err (e : ErrorKind).
Arguments Ok {_} _.
Arguments Err {_} _.

#[global] Instance result_ret : MRet Result := λ A, Ok.
#[global] Instance result_bind : MBind Result := λ A B f m,
  match m with Ok a => f a | Err e => Err e end.

(** [Result::ok]. *)
Definition ok {A} (r : Result A) : option A :=
  match r with Ok a => Some a | Err _ => None end.

(** ** Symbols *)

Record SymbolBuf := mkSymbol {
  name : string;
  st_name : Z;
  st_info : Z;
  st_other : Z;
  st_shndx : Z;
  st_value : Z;
  st_size : Z
}.

(** ** Registers *)

Definition Reg := Z.

Definition is_callee_saved (r : Reg) : bool :=
  (r =? 3) || (r =? 6) || ((12 <=? r) && (r <=? 15)).

Definition RAX : Reg := 0.
Definition RDX : Reg := 1.
Definition RCX : Reg := 2.
Definition RBX : Reg := 3.
Definition RSI : Reg := 4.
Definition RDI : Reg := 5.
Definition RBP : Reg := 6.
Definition RSP : Reg := 7.
Definition RIP : Reg := 16.

Definition REGS : list Reg :=
  [RAX; RDX; RCX; RBX; RSI; RDI; RBP; RSP; 8; 9; 10; 11; 12; 13; 14; 15].

Record Regs := mkRegs {
  r15 : Z; r14 : Z; r13 : Z; r12 : Z; r11 : Z; r10 : Z; r9 : Z; r8 : Z;
  rdi : Z; rsi : Z; rbp : Z; rbx : Z; rdx : Z; rcx : Z; rax : Z;
  trapno : Z; err : Z; rip : Z; cs : Z; rfl : Z; rsp : Z; ss : Z;
  fs : Z; gs : Z; es : Z; ds : Z; fsbase : Z; gsbase : Z
}.

Definition Regs_default : Regs :=
  mkRegs 0 0 0 0 0 0 0 0 0 0 0 0 0 0 0 0 0 0 0 0 0 0 0 0 0 0 0 0.

(** [regs[reg]]: any register past r15, the instruction pointer included, is
    [unreachable!]. *)
Definition Regs_index (r : Regs) (reg : Reg) : outcome Z :=
  match reg with
  | 0 => Ret (rax r) | 1 => Ret (rdx r) | 2 => Ret (rcx r) | 3 => Ret (rbx r)
  | 4 => Ret (rsi r) | 5 => Ret (rdi r) | 6 => Ret (rbp r) | 7 => Ret (rsp r)
  | 8 => Ret (r8 r) | 9 => Ret (r9 r) | 10 => Ret (r10 r) | 11 => Ret (r11 r)
  | 12 => Ret (r12 r) | 13 => Ret (r13 r) | 14 => Ret (r14 r) | 15 => Ret (r15 r)
  | _ => Panic
  end.

(** [regs[reg] = v]. *)
Definition Regs_index_mut (r : Regs) (reg : Reg) (v : Z) : outcome Regs :=
  let sel k old := if reg =? k then v else old in
  if (0 <=? reg) && (reg <=? 15) then
    Ret {| r15 := sel 15 (r15 r); r14 := sel 14 (r14 r); r13 := sel 13 (r13 r);
           r12 := sel 12 (r12 r); r11 := sel 11 (r11 r); r10 := sel 10 (r10 r);
           r9 := sel 9 (r9 r); r8 := sel 8 (r8 r); rdi := sel 5 (rdi r);
           rsi := sel 4 (rsi r); rbp := sel 6 (rbp r); rbx := sel 3 (rbx r);
           rdx := sel 1 (rdx r); rcx := sel 2 (rcx r); rax := sel 0 (rax r);
           trapno := trapno r; err := err r; rip := rip r; cs := cs r;
           rfl := rfl r; rsp := sel 7 (rsp r); ss := ss r; fs := fs r;
           gs := gs r; es := es r; ds := ds r; fsbase := fsbase r;
           gsbase := gsbase r |}
  else Panic.

(** The field assignments [regs.rip = v] and [regs.rsp = v]. *)
Definition set_rip (r : Regs) (v : Z) : Regs :=
  mkRegs (r15 r) (r14 r) (r13 r) (r12 r) (r11 r) (r10 r) (r9 r) (r8 r)
    (rdi r) (rsi r) (rbp r) (rbx r) (rdx r) (rcx r) (rax r) (trapno r) (err r)
    v (cs r) (rfl r) (rsp r) (ss r) (fs r) (gs r) (es r) (ds r) (fsbase r)
    (gsbase r).
Definition set_rsp (r : Regs) (v : Z) : Regs :=
  mkRegs (r15 r) (r14 r) (r13 r) (r12 r) (r11 r) (r10 r) (r9 r) (r8 r)
    (rdi r) (rsi r) (rbp r) (rbx r) (rdx r) (rcx r) (rax r) (trapno r) (err r)
    (rip r) (cs r) (rfl r) v (ss r) (fs r) (gs r) (es r) (ds r) (fsbase r)
    (gsbase r).
Definition set_rbp (r : Regs) (v : Z) : Regs :=
  mkRegs (r15 r) (r14 r) (r13 r) (r12 r) (r11 r) (r10 r) (r9 r) (r8 r)
    (rdi r) (rsi r) v (rbx r) (rdx r) (rcx r) (rax r) (trapno r) (err r)
    (rip r) (cs r) (rfl r) (rsp r) (ss r) (fs r) (gs r) (es r) (ds r) (fsbase r)
    (gsbase r).

(** ** Threads, mappings and process facts *)

Record Timespec := mkTimespec { tv_sec : Z; tv_nsec : Z }.

Record LwpInfo := mkLwpInfo {
  tid : Z;
  regs : Regs;
  stack_range : range;
  altstack : range;
  tstamp : Timespec
}.

(** [MapFlags], by its word. *)
Definition MA_EXEC : Z := 1.
Definition MA_WRITE : Z := 2.
Definition MA_READ : Z := 4.
Definition MA_SHARED : Z := 8.
Definition MA_BREAK : Z := 16.
Definition MA_ANON : Z := 64.

Definition is_read (f : Z) : bool := 0 <? Z.land f MA_READ.
Definition is_write (f : Z) : bool := 0 <? Z.land f MA_WRITE.
Definition is_exec (f : Z) : bool := 0 <? Z.land f MA_EXEC.
Definition is_shared (f : Z) : bool := 0 <? Z.land f MA_SHARED.
Definition is_anon (f : Z) : bool := 0 <? Z.land f MA_ANON.
Definition is_break (f : Z) : bool := 0 <? Z.land f MA_BREAK.

Record LoadedObjectWithPath := mkObject {
  path : option string;
  vaddr : Z;
  size : Z;
  flags : Z
}.

Definition obj_range (o : LoadedObjectWithPath) : range :=
  Range (vaddr o) (saturating_add (vaddr o) (size o)).

Definition region (o : LoadedObjectWithPath) : string :=
  match is_exec (flags o), is_write (flags o) with
  | true, _ => "text"
  | false, true => "data"
  | false, false => "rodata"
  end.

Definition is_text (o : LoadedObjectWithPath) : bool :=
  is_read (flags o) && is_exec (flags o).
Definition is_data (o : LoadedObjectWithPath) : bool :=
  is_read (flags o) && is_write (flags o) && negb (is_anon (flags o)).
Definition is_heap (o : LoadedObjectWithPath) : bool :=
  is_read (flags o) && is_write (flags o) && is_anon (flags o) && is_break (flags o).
Definition is_guard (o : LoadedObjectWithPath) : bool := flags o =? 0.

(** [Mappings], its inner vector. *)
Definition Mappings := list LoadedObjectWithPath.

Definition mappings_from_iter (l : list LoadedObjectWithPath) : Mappings :=
  sort_by (λ a b, vaddr a <=? vaddr b) l.
Definition mappings_get (m : Mappings) (address : Z) : option LoadedObjectWithPath :=
  find_first (λ o, range_contains (obj_range o) address) m.
Definition contains_addr (m : Mappings) (address : Z) : bool :=
  match mappings_get m address with Some _ => true | None => false end.

Inductive RecordedHeapEvidence := Available | Unavailable.

Record FatalSignal := mkFatalSignal {
  sig_name : string;
  signo : Z;
  code : Z;
  code_name : option string;
  fault_addr : option Z;
  sig_lwp : option Z;
  sender : option Z
}.

Record BuildIds := mkBuildIds {
  bid_core : option (list Byte.byte);
  bid_binary : option (list Byte.byte)
}.

Definition disagree (b : BuildIds) : bool :=
  match bid_core b, bid_binary b with
  | Some x, Some y => negb (bool_decide (x = y))
  | _, _ => false
  end.

Record ProcessFacts := mkProcessFacts {
  pid : Z; ppid : Z; uid : Z; gid : Z;
  euid : option Z; egid : option Z;
  model : option string;
  start : option Timespec;
  fname : string;
  psargs : string;
  argv : option (list string);
  env : option (list string);
  execfn : option string
}.

(** The name of a fault code, keyed by the decoded signal name; [code] is an
    [i32]. *)
Definition fault_code_name (signal : string) (code : Z) : option string :=
  let names :=
    if String.eqb signal "SIGSEGV" then ["SEGV_MAPERR"; "SEGV_ACCERR"]
    else if String.eqb signal "SIGBUS" then ["BUS_ADRALN"; "BUS_ADRERR"; "BUS_OBJERR"]
    else if String.eqb signal "SIGILL" then
      ["ILL_ILLOPC"; "ILL_ILLOPN"; "ILL_ILLADR"; "ILL_ILLTRP";
       "ILL_PRVOPC"; "ILL_PRVREG"; "ILL_COPROC"; "ILL_BADSTK"]
    else if String.eqb signal "SIGFPE" then
      ["FPE_INTDIV"; "FPE_INTOVF"; "FPE_FLTDIV"; "FPE_FLTOVF";
       "FPE_FLTUND"; "FPE_FLTRES"; "FPE_FLTINV"; "FPE_FLTSUB"]
    else if String.eqb signal "SIGTRAP" then ["TRAP_BRKPT"; "TRAP_TRACE"]
    else [] in
  if code <? 0 then None
  else index ← checked_sub code 1; names !! Z.to_nat index.

(** ** The trait

    [read_bytes_len] and [read_bytes_u64] are the trait's documented contract:
    a read serves exactly the bytes asked for.  Every instance proves it. *)
Class Target (T : Type) := {
  read_bytes : T → Z → Z → Result (list Byte.byte);
  readable_len : T → Z → Z → Z;
  lookup_symbol_by_addr : T → Z → option SymbolBuf;
  lookup_symbol_by_name : T → string → option SymbolBuf;
  symbols : T → Result (list SymbolBuf);
  object_symbols : T → Result (list SymbolBuf);
  fatal_signal : T → option FatalSignal;
  lwp_name : T → Z → option string;
  agent_lwp : T → option Z;
  process_facts : T → option ProcessFacts;
  exec_path : T → option string;
  build_ids : T → option BuildIds;
  backing_file_problem : T → string → option string;
  recorded_heap_evidence : T → option RecordedHeapEvidence;
  mappings : T → Result Mappings;
  captured_runs : T → option (list range);
  lwps : T → Result (list LwpInfo);
  tls_var_addr : T → Regs → SymbolBuf → Result (option Z);
  exec_bias : T → option Z;
  read_bytes_len t a n bs :
    read_bytes t a n = Ok bs → Z.of_nat (length bs) = n
}.

(** The methods the trait itself provides. *)
Section provided.
Context `{Target T} (t : T).

Definition read_u64 (addr : Z) : Result Z :=
  bytes ← read_bytes t addr 8; Ok (from_le_bytes bytes).
Definition read_u32 (addr : Z) : Result Z :=
  bytes ← read_bytes t addr 4; Ok (from_le_bytes bytes).
Definition read_u16 (addr : Z) : Result Z :=
  bytes ← read_bytes t addr 2; Ok (from_le_bytes bytes).
Definition read_u8 (addr : Z) : Result Z :=
  bytes ← read_bytes t addr 1; Ok (from_le_bytes bytes).

Definition STT_TLS : Z := 6.

Definition tls_word (rg : Regs) (sym : SymbolBuf) : Result (option Z) :=
  var ← tls_var_addr t rg sym;
  match var with
  | None => Ok None
  | Some a =>
      word ← (if Z.land (st_info sym) 15 =? STT_TLS then read_u64 a else Ok a);
      Ok (if word =? 0 then None else Some word)
  end.
End provided.

(** The bodies of the methods a target need not write. *)
Definition default_readable_len (_addr max : Z) : Z := max.
Definition default_object_symbols : Result (list SymbolBuf) := Ok [].

(** ** Readable runs

    The loop of [readable_runs] from offset [off]; [None] is fuel exhausted. *)
Definition PAGE : Z := 4096.

Fixpoint readable_runs_from (fuel : nat) (vaddr size : Z)
    (readable : Z → Z → Z) (off : Z) : option (list (Z * Z)) :=
  match fuel with
  | O => None
  | S fuel =>
      if off <? size then
        let addr := u64_add vaddr off in
        let n := readable addr (u64_sub size off) in
        if n =? 0 then
          readable_runs_from fuel vaddr size readable
            (u64_add off (PAGE - Z.land addr (PAGE - 1)))
        else
          runs ← readable_runs_from fuel vaddr size readable (u64_add off n);
          Some ((addr, n) :: runs)
      else Some []
  end.

Definition readable_runs (vaddr size : Z) (readable : Z → Z → Z)
    : option (list (Z * Z)) :=
  readable_runs_from (S (Z.to_nat size)) vaddr size readable 0.

(** ** Thread-locals through a pthread key *)

Definition UL_FTSD_OFFSET : Z := 320.
Definition UL_FTSD_LEN : nat := 9.

Fixpoint collect {A} (l : list (Result A)) : Result (list A) :=
  match l with
  | [] => Ok []
  | r :: l => x ← r; xs ← collect l; Ok (x :: xs)
  end.

Definition tsd_from_fsbase (read : Z → Result Z) (rg : Regs) : Result (list Z) :=
  collect ((λ i, read (u64_add (u64_add (fsbase rg) UL_FTSD_OFFSET) (i * 8)))
           <$> z_range 0 UL_FTSD_LEN).

Definition tls_addr_from_pthread_key (read : Z → Result Z) (rg : Regs)
    (sym : SymbolBuf) : Result (option Z) :=
  key ← read (st_value sym);
  slots ← tsd_from_fsbase read rg;
  match slots !! Z.to_nat key with
  | None => Err (TlsKeyOutOfRange key)
  | Some addr => Ok (if addr =? 0 then None else Some addr)
  end.

(** ** Lemmas *)

Lemma result_bind_Ok {A B} (f : A → Result B) m b :
  m ≫= f = Ok b ↔ ∃ a, m = Ok a ∧ f a = Ok b.
Proof. destruct m; simpl; naive_solver. Qed.

(** Every target read is bounded by the contract of the trait. *)
Section read_lemmas.
Context `{Target T} (t : T).

Lemma read_bytes_length a n bs :
  read_bytes t a n = Ok bs → length bs = Z.to_nat n ∧ 0 <= n.
Proof. intros Hr%read_bytes_len. lia. Qed.

Lemma read_u64_range a w : read_u64 t a = Ok w → is_u64 w.
Proof.
  unfold read_u64. destruct (read_bytes t a 8) as [bs|] eqn:E; [|done].
  intros [= <-]. apply read_bytes_len in E.
  pose proof (from_le_bytes_range bs) as Hb. rewrite E in Hb. exact Hb.
Qed.

Lemma read_u32_range a w : read_u32 t a = Ok w → is_u32 w.
Proof.
  unfold read_u32. destruct (read_bytes t a 4) as [bs|] eqn:E; [|done].
  intros [= <-]. apply read_bytes_len in E.
  pose proof (from_le_bytes_range bs) as Hb. rewrite E in Hb. exact Hb.
Qed.

Lemma read_u8_range a w : read_u8 t a = Ok w → 0 <= w < 256.
Proof.
  unfold read_u8. destruct (read_bytes t a 1) as [bs|] eqn:E; [|done].
  intros [= <-]. apply read_bytes_len in E.
  pose proof (from_le_bytes_range bs) as Hb. rewrite E in Hb. exact Hb.
Qed.
End read_lemmas.
#[export] Hint Resolve read_u64_range read_u32_range read_u8_range : word.

Lemma page_offset a : Z.land a (PAGE - 1) = a `mod` 4096.
Proof. change (PAGE - 1) with (Z.ones 12). by rewrite Z.land_ones. Qed.

Definition run_covers (runs : list (Z * Z)) (a : Z) : Prop :=
  ∃ r, r ∈ runs ∧ r.1 <= a < r.1 + r.2.

Section readable_runs.
Context (vaddr size : Z) (readable : Z → Z → Z).
Context (Hv : 0 <= vaddr) (Hs : 0 <= size) (Hend : vaddr + size <= W64)
        (Hpage : size + 4096 <= W64).
Context (Hserve : ∀ a m, 0 <= m → 0 <= readable a m <= m).

(** One turn of the loop inside the mapping, with every sum in range. *)
Lemma readable_runs_step fuel off :
  0 <= off < size →
  readable_runs_from (S fuel) vaddr size readable off =
    let n := readable (vaddr + off) (size - off) in
    if n =? 0 then
      readable_runs_from fuel vaddr size readable
        (off + (4096 - (vaddr + off) `mod` 4096))
    else
      runs ← readable_runs_from fuel vaddr size readable (off + n);
      Some ((vaddr + off, n) :: runs).
Proof.
  intros Hoff. cbn [readable_runs_from].
  rewrite (proj2 (Z.ltb_lt _ _)) by lia.
  rewrite (u64_add_small vaddr), (u64_sub_small size) by (unfold is_u64; lia).
  rewrite page_offset. cbv zeta.
  pose proof (Hserve (vaddr + off) (size - off) ltac:(lia)).
  pose proof (Z.mod_pos_bound (vaddr + off) 4096 ltac:(lia)).
  unfold PAGE. rewrite !u64_add_small by (unfold is_u64; lia). done.
Qed.

Definition runs_ordered (off : Z) (runs : list (Z * Z)) : Prop :=
  StronglySorted (λ r s : Z * Z, r.1 + r.2 <= s.1) runs ∧
  Forall (λ r : Z * Z,
    vaddr + off <= r.1 ∧ 0 < r.2 ∧ r.1 + r.2 <= vaddr + size) runs.

Lemma runs_ordered_weaken off off' runs :
  off <= off' → runs_ordered off' runs → runs_ordered off runs.
Proof.
  intros Hle [Hsort Hall]. split; [done|].
  eapply Forall_impl; [done|]. simpl. lia.
Qed.

Lemma runs_ordered_cons off n runs :
  0 < n → off + n <= size → runs_ordered (off + n) runs →
  runs_ordered off ((vaddr + off, n) :: runs).
Proof.
  intros Hn Hle [Hsort Hall]. split.
  - constructor; [done|]. eapply Forall_impl; [done|]. simpl. lia.
  - constructor; [simpl; lia|]. eapply Forall_impl; [done|]. simpl. lia.
Qed.

Lemma readable_runs_from_bounds fuel off runs :
  0 <= off → readable_runs_from fuel vaddr size readable off = Some runs →
  runs_ordered off runs.
Proof.
  revert off runs. induction fuel as [|fuel IH]; intros off runs Hoff Hr; [done|].
  destruct (decide (off < size)) as [Hlt|Hge].
  - rewrite readable_runs_step in Hr by lia. cbv zeta in Hr.
    pose proof (Hserve (vaddr + off) (size - off) ltac:(lia)) as Hn.
    pose proof (Z.mod_pos_bound (vaddr + off) 4096 ltac:(lia)) as Hm.
    destruct (_ =? 0) eqn:E; zb.
    + eapply runs_ordered_weaken; [|eapply IH; [|done]]; lia.
    + destruct (readable_runs_from _ _ _ _ _) as [runs'|] eqn:E'; [|done].
      injection Hr as <-. apply runs_ordered_cons; [lia..|]. eapply IH; [lia|done].
  - cbn [readable_runs_from] in Hr. rewrite (proj2 (Z.ltb_ge _ _)) in Hr by lia.
    injection Hr as <-. repeat constructor.
Qed.

(** The loop ends: every turn moves the offset forward. *)
Lemma readable_runs_from_ends fuel off :
  0 <= off → (Z.to_nat (size - off) < fuel)%nat →
  is_Some (readable_runs_from fuel vaddr size readable off).
Proof.
  revert off. induction fuel as [|fuel IH]; intros off Hoff Hf; [lia|].
  destruct (decide (off < size)) as [Hlt|Hge].
  - rewrite readable_runs_step by lia. cbv zeta.
    pose proof (Hserve (vaddr + off) (size - off) ltac:(lia)) as Hn.
    pose proof (Z.mod_pos_bound (vaddr + off) 4096 ltac:(lia)) as Hm.
    destruct (_ =? 0) eqn:E; zb.
    + apply IH; lia.
    + destruct (IH (off + readable (vaddr + off) (size - off))) as [? ->]; [lia..|].
      eauto.
  - cbn [readable_runs_from]. rewrite (proj2 (Z.ltb_ge _ _)) by lia. eauto.
Qed.

Context (P : Z → Prop).
Context (Hexact : ∀ a m, 0 < m →
  (∀ b, a <= b < a + readable a m → P b) ∧
  (readable a m < m → ¬ P (a + readable a m))).
Context (Hstart : ∀ a, P a → a `mod` 4096 ≠ 0 → P (a - 1)).

(** From an unreadable byte nothing is readable up to the next page. *)
Lemma hole_to_page a k :
  ¬ P a → 0 <= k < 4096 - a `mod` 4096 → ¬ P (a + k).
Proof.
  intros Ha [Hk Hlt]. revert k Hk Hlt.
  apply (natlike_ind (λ k, k < 4096 - a `mod` 4096 → ¬ P (a + k))).
  - intros _. by rewrite Z.add_0_r.
  - intros k Hk IH Hlt HP. pose proof (Z.mod_pos_bound a 4096 ltac:(lia)).
    apply IH; [lia|]. replace (a + k) with (a + Z.succ k - 1) by lia.
    apply Hstart; [done|].
    rewrite <- Z.add_mod_idemp_l by lia. rewrite Z.mod_small by lia. lia.
Qed.

Lemma run_covers_bound off runs a :
  runs_ordered off runs → run_covers runs a → vaddr + off <= a.
Proof.
  intros [_ Hall] (r & Hr & ?). rewrite Forall_forall in Hall.
  apply Hall in Hr. lia.
Qed.

Lemma readable_runs_from_exact fuel off runs a :
  0 <= off → readable_runs_from fuel vaddr size readable off = Some runs →
  vaddr + off <= a < vaddr + size → P a ↔ run_covers runs a.
Proof.
  revert off runs. induction fuel as [|fuel IH]; intros off runs Hoff Hr Ha; [done|].
  rewrite readable_runs_step in Hr by lia. cbv zeta in Hr.
  pose proof (Hserve (vaddr + off) (size - off) ltac:(lia)) as Hn.
  destruct (Hexact (vaddr + off) (size - off) ltac:(lia)) as [Hin Hout].
  pose proof (Z.mod_pos_bound (vaddr + off) 4096 ltac:(lia)) as Hm.
  destruct (_ =? 0) eqn:E; zb.
  - rewrite E, Z.add_0_r in Hout. set (skip := 4096 - _) in *.
    destruct (decide (a < vaddr + off + skip)) as [Hlt|]; [|apply (IH (off + skip)); [lia|done|lia]].
    split; intros HP; exfalso.
    + replace a with (vaddr + off + (a - (vaddr + off))) in HP by lia.
      revert HP. apply hole_to_page; [apply Hout; lia|lia].
    + apply readable_runs_from_bounds in Hr; [|lia].
      apply (run_covers_bound _ _ _ Hr) in HP. lia.
  - set (n := readable _ _) in *.
    destruct (readable_runs_from _ _ _ _ _) as [runs'|] eqn:E'; [|done].
    injection Hr as <-.
    destruct (decide (a < vaddr + off + n)) as [Hlt|Hge].
    + split; intros _; [|apply Hin; lia]. eexists; split; [left|simpl; lia].
    + rewrite (IH (off + n) runs') by (done || lia).
      split; intros (r & Hr & ?); [exists r; split; [by right|done]|].
      apply elem_of_cons in Hr as [->|Hr]; [simpl in *; lia|]. by exists r.
Qed.
End readable_runs.

(** ** Properties *)

(** [readable_runs] terminates on every mapping that leaves a page of
    headroom, and hands back nonempty stretches inside the mapping, in address
    order and disjoint. *)
Theorem readable_runs_ends (vaddr size : Z) (readable : Z → Z → Z) :
  0 <= vaddr → 0 <= size → vaddr + size <= W64 → size + 4096 <= W64 →
  (∀ a m, 0 <= m → 0 <= readable a m <= m) →
  ∃ runs, readable_runs vaddr size readable = Some runs ∧
    StronglySorted (λ r s : Z * Z, r.1 + r.2 <= s.1) runs ∧
    Forall (λ r : Z * Z, vaddr <= r.1 ∧ 0 < r.2 ∧ r.1 + r.2 <= vaddr + size) runs.
Proof.
  intros Hv Hs Hend Hpage Hserve.
  assert (is_Some (readable_runs vaddr size readable)) as [runs Hr].
  { apply readable_runs_from_ends; (done || lia). }
  exists runs. split; [exact Hr|].
  assert (runs_ordered vaddr size 0 runs) as [Hsort Hall].
  { eapply readable_runs_from_bounds; [..|exact Hr]; done. }
  by rewrite Z.add_0_r in Hall.
Qed.

(** The runs are exactly the readable bytes of the mapping, provided
    [readable] answers exactly and a readable region begins only at a page
    boundary: skipping a hole to the next page loses nothing. *)
Theorem readable_runs_exact (vaddr size : Z) (readable : Z → Z → Z) (P : Z → Prop)
    (runs : list (Z * Z)) (a : Z) :
  0 <= vaddr → 0 <= size → vaddr + size <= W64 → size + 4096 <= W64 →
  (∀ a m, 0 <= m → 0 <= readable a m <= m) →
  (∀ a m, 0 < m → (∀ b, a <= b < a + readable a m → P b) ∧
                  (readable a m < m → ¬ P (a + readable a m))) →
  (∀ a, P a → a `mod` 4096 ≠ 0 → P (a - 1)) →
  readable_runs vaddr size readable = Some runs →
  vaddr <= a < vaddr + size → P a ↔ run_covers runs a.
Proof.
  intros Hv Hs Hend Hpage Hserve Hexact Hstart Hr Ha.
  by eapply readable_runs_from_exact; [..|exact Hr|rewrite Z.add_0_r].
Qed.

(** Writing a general-purpose register and reading it back gives the value,
    and leaves every other register alone; the instruction pointer is no
    register of [regs[reg]] at all. *)
Theorem regs_index_update (rg rg' : Regs) (reg other : Reg) (v : Z) :
  Regs_index_mut rg reg v = Ret rg' →
  Regs_index rg' other = (if other =? reg then Ret v else Regs_index rg other) ∧
  rip rg' = rip rg ∧ Regs_index rg RIP = Panic.
Proof.
  unfold Regs_index_mut. destruct (_ && _) eqn:E; [|done]. zb.
  intros [= <-]. split; [|done].
  destruct (other =? reg) eqn:Eo; zb.
  - subst. assert (reg ∈ z_range 0 16) as Hin by (apply elem_of_z_range; lia).
    repeat (apply elem_of_cons in Hin as [->|Hin]; [done|]). by apply elem_of_nil in Hin.
  - assert (∀ k old, k = other → (if reg =? k then v else old) = old) as Hsel.
    { intros k old ->. rewrite (proj2 (Z.eqb_neq _ _)); [done|congruence]. }
    unfold Regs_index.
    repeat (case_match; simpl; try (rewrite Hsel by done); try done).
Qed.

(** ** Witnesses *)

(** A mapping of two pages whose second page is backed as far as byte 5000. *)
Definition demo_readable (a m : Z) : Z :=
  if (4096 <=? a) && (a <? 5000) then Z.max 0 (Z.min m (5000 - a)) else 0.

Lemma demo_readable_serves a m : 0 <= m → 0 <= demo_readable a m <= m.
Proof. unfold demo_readable. case_match; zb; lia. Qed.

Lemma demo_readable_exact a m :
  0 < m →
  (∀ b, a <= b < a + demo_readable a m → 4096 <= b < 5000) ∧
  (demo_readable a m < m → ¬ 4096 <= a + demo_readable a m < 5000).
Proof.
  unfold demo_readable.
  destruct (Z.leb_spec 4096 a), (Z.ltb_spec a 5000); cbn [andb]; split; intros; lia.
Qed.

Lemma readable_runs_ends_witness :
  ∃ runs, readable_runs 0 8192 demo_readable = Some runs ∧
    StronglySorted (λ r s : Z * Z, r.1 + r.2 <= s.1) runs ∧
    Forall (λ r : Z * Z, 0 <= r.1 ∧ 0 < r.2 ∧ r.1 + r.2 <= 0 + 8192) runs.
Proof.
  apply (readable_runs_ends 0 8192 demo_readable); [lia..|].
  exact demo_readable_serves.
Defined.

Lemma readable_runs_exact_witness :
  readable_runs 0 8192 demo_readable = Some [(4096, 904)] ∧
  (4096 <= 4500 < 5000 ↔ run_covers [(4096, 904)] 4500).
Proof.
  split; [vm_compute; reflexivity|].
  apply (readable_runs_exact 0 8192 demo_readable (λ a, 4096 <= a < 5000));
    [lia|lia|lia|lia|exact demo_readable_serves|exact demo_readable_exact|
     |vm_compute; reflexivity|lia].
  cbv beta. intros a Ha Hm. destruct (decide (a = 4096)) as [->|]; [done|lia].
Defined.

Lemma regs_index_update_witness :
  ∃ rg', Regs_index_mut Regs_default RBP 7 = Ret rg' ∧
    Regs_index rg' RBP = Ret 7 ∧ Regs_index Regs_default RIP = Panic.
Proof.
  eexists. split; [reflexivity|].
  destruct (regs_index_update Regs_default _ RBP RBP 7 eq_refl) as (H & _ & HP).
  split; [exact H|exact HP].
Defined.
