(* ===== verification/Snapshot.v ===== *)
(** In-memory target snapshots and the recorder that takes them
    ([proc/src/snapshot.rs]): the read log and its covered runs, the merge of a
    log into maximal segments, and a snapshot as a [Target] of its own.

    The maps of the source are [gmap]s, except [covered]: its range queries
    need the order of a [BTreeMap], so it is an association list by increasing
    key.  A recorder's [Mutex]es guard one step each: an operation is a function
    from the recorder's state to its answer and the next state. *)

From S2P Require Import Prelude Target.

Local Open Scope Z_scope.

(** ** Segments *)

Record Segment := mkSegment { addr : Z; bytes : list Byte.byte }.

Definition blen (s : Segment) : Z := Z.of_nat (length (bytes s)).

Definition seg_end (s : Segment) : Z := u64_add (addr s) (blen s).

(** [l[start..start+src.len()].copy_from_slice(src)]. *)
Definition copy_from_slice {A} (l : list A) (start : Z) (src : list A)
    : outcome (list A) :=
  if (0 <=? start) && (start + Z.of_nat (length src) <=? Z.of_nat (length l))
  then Ret (take (Z.to_nat start) l ++ src ++
            drop (Z.to_nat start + length src) l)
  else Panic.

(** ** The snapshot *)

Record Snapshot := mkSnapshot {
  memory : list Segment;
  functions : list SymbolBuf;
  objects : list SymbolBuf;
  by_addr : gmap Z (option SymbolBuf);
  by_name : gmap string (option SymbolBuf);
  tls : gmap (Z * string) (option Z);
  s_mappings : Mappings;
  s_lwps : list LwpInfo;
  s_exec_bias : option Z;
  heap_evidence : RecordedHeapEvidence;
  s_agent_lwp : option Z
}.

Definition segments (s : Snapshot) : list range :=
  (λ g, Range (addr g) (seg_end g)) <$> memory s.

(** The segment holding [a], in address-ordered [memory]. *)
Definition segment_in (mem : list Segment) (a : Z) : option Segment :=
  let idx := partition_point (λ s, addr s <=? a) mem in
  match idx with
  | O => None
  | S i => seg ← mem !! i; if a <? seg_end seg then Some seg else None
  end.

Definition segment (s : Snapshot) (a : Z) : option Segment := segment_in (memory s) a.

(** The slice of a segment the bounds check admits is in range, so its panic
    has no case of its own here. *)
Definition snapshot_read_bytes (s : Snapshot) (a len : Z) : Result (list Byte.byte) :=
  let lent :=
    e ← checked_add a len;
    seg ← segment s a;
    (if e <=? seg_end seg then slice (bytes seg) (a - addr seg) len else None) in
  match lent with
  | Some bs => Ok bs
  | None => Err (Unmapped a len)
  end.

Definition snapshot_readable_len (s : Snapshot) (a max : Z) : Z :=
  match segment s a with
  | Some seg => Z.min (u64_sub (seg_end seg) a) max
  | None => 0
  end.

Definition snapshot_lookup_symbol_by_addr (s : Snapshot) (a : Z) : option SymbolBuf :=
  match by_addr s !! a with
  | Some recorded => recorded
  | None =>
      match partition_point (λ f, st_value f <=? a) (functions s) with
      | O => None
      | S i =>
          sym ← functions s !! i;
          if a <? u64_add (st_value sym) (st_size sym) then Some sym else None
      end
  end.

Definition snapshot_lookup_symbol_by_name (s : Snapshot) (n : string) : option SymbolBuf :=
  match by_name s !! n with
  | Some recorded => recorded
  | None => find_first (λ f, String.eqb (name f) n) (functions s ++ objects s)
  end.

Definition snapshot_tls_var_addr (s : Snapshot) (rg : Regs) (sym : SymbolBuf)
    : Result (option Z) :=
  match tls s !! (fsbase rg, name sym) with
  | Some a => Ok a
  | None => Err (TlsNotRecorded (name sym) (fsbase rg))
  end.

(** ** The read log *)

Record ReadLog := mkReadLog {
  reads : list Segment;
  log_bytes : Z;
  covered : list (Z * Z)
}.

Definition log_default : ReadLog := mkReadLog [] 0 [].

(** The [BTreeMap] operations of [covered]. *)
Fixpoint btree_insert (k v : Z) (m : list (Z * Z)) : list (Z * Z) :=
  match m with
  | [] => [(k, v)]
  | (k', v') :: m' =>
      if k <? k' then (k, v) :: m
      else if k =? k' then (k, v) :: m'
      else (k', v') :: btree_insert k v m'
  end.

Fixpoint btree_remove (k : Z) (m : list (Z * Z)) : option (Z * list (Z * Z)) :=
  match m with
  | [] => None
  | (k', v') :: m' =>
      if k =? k' then Some (v', m')
      else '(v, m'') ← btree_remove k m'; Some (v, (k', v') :: m'')
  end.

(** [range(..=k)], by increasing key. *)
Definition btree_upto (k : Z) (m : list (Z * Z)) : list (Z * Z) :=
  take (partition_point (λ e : Z * Z, e.1 <=? k) m) m.

Definition covers_in (m : list (Z * Z)) (a e : Z) : bool :=
  match last (btree_upto a m) with
  | Some (_, run_end) => e <=? run_end
  | None => false
  end.

Definition covers (log : ReadLog) (a e : Z) : bool := covers_in (covered log) a e.

(** The loop folding the touching runs into [start..stop]. *)
Fixpoint absorb (touching : list Z) (m : list (Z * Z)) (start stop : Z)
    : outcome (list (Z * Z) * Z * Z) :=
  match touching with
  | [] => Ret (m, start, stop)
  | run_start :: touching =>
      '(run_end, m) ← or_panic (btree_remove run_start m);
      absorb touching m (Z.min start run_start) (Z.max stop run_end)
  end.

Definition touching_runs (m : list (Z * Z)) (start stop : Z) : list Z :=
  let back := reverse (btree_upto stop m) in
  (take (partition_point (λ r : Z * Z, start <=? r.2) back) back).*1.

Definition cover_in (m : list (Z * Z)) (a e : Z) : outcome (list (Z * Z)) :=
  '(m, start, stop) ← absorb (touching_runs m a e) m a e;
  Ret (btree_insert start stop m).

Definition cover (log : ReadLog) (a e : Z) : outcome ReadLog :=
  m ← cover_in (covered log) a e;
  Ret (mkReadLog (reads log) (log_bytes log) m).

(** ** Merging a log *)

Definition served (l : list Segment) : list Segment :=
  filter (λ r, bytes r ≠ []) l.

(** One interval swept into the extents, the last of them first. *)
Definition sweep_step (extents : list (Z * Z)) (iv : Z * Z) : list (Z * Z) :=
  match extents with
  | (s, last_end) :: rest =>
      if iv.1 <=? last_end then (s, Z.max last_end iv.2) :: rest
      else iv :: extents
  | [] => [iv]
  end.

Definition sweep (intervals : list (Z * Z)) : list (Z * Z) :=
  reverse (foldl sweep_step [] intervals).

Definition blank (ext : Z * Z) : Segment :=
  mkSegment ext.1 (replicate (Z.to_nat (u64_sub ext.2 ext.1)) Byte.x00).

(** One read replayed on top of the segments. *)
Definition replay_read (merged : list Segment) (r : Segment) : outcome (list Segment) :=
  match partition_point (λ s, addr s <=? addr r) merged with
  | O => Ret merged
  | S i =>
      seg ← or_panic (merged !! i);
      bs ← copy_from_slice (bytes seg) (addr r - addr seg) (bytes r);
      Ret (<[i := mkSegment (addr seg) bs]> merged)
  end.

Fixpoint replay_reads (merged : list Segment) (l : list Segment) : outcome (list Segment) :=
  match l with
  | [] => Ret merged
  | r :: l => merged ← replay_read merged r; replay_reads merged l
  end.

Definition merge_reads (l : list Segment) : outcome (list Segment) :=
  let intervals := sort_by pair_leb ((λ r, (addr r, seg_end r)) <$> served l) in
  replay_reads (blank <$> sweep intervals) (served l).

(** ** The snapshot as a target *)

Lemma snapshot_read_bytes_len s a n bs :
  snapshot_read_bytes s a n = Ok bs → Z.of_nat (length bs) = n.
Proof.
  unfold snapshot_read_bytes. intros Hr. case_match eqn:E; [|done]. simplify_eq.
  apply bind_Some in E as (e & _ & (seg & _ & E)%bind_Some).
  case_match; [|done]. by eapply length_slice.
Qed.

#[export] Instance snapshot_target : Target Snapshot := {
  read_bytes := snapshot_read_bytes;
  readable_len := snapshot_readable_len;
  lookup_symbol_by_addr := snapshot_lookup_symbol_by_addr;
  lookup_symbol_by_name := snapshot_lookup_symbol_by_name;
  symbols s := Ok (functions s);
  object_symbols s := Ok (objects s);
  fatal_signal _ := None;
  lwp_name _ _ := None;
  agent_lwp := s_agent_lwp;
  process_facts _ := None;
  exec_path _ := None;
  build_ids _ := None;
  backing_file_problem _ _ := None;
  recorded_heap_evidence s := Some (heap_evidence s);
  mappings s := Ok (s_mappings s);
  captured_runs s := Some (segments s);
  lwps s := Ok (s_lwps s);
  tls_var_addr := snapshot_tls_var_addr;
  exec_bias := s_exec_bias;
  read_bytes_len := snapshot_read_bytes_len
}.

(** ** The recorder *)

Section recorder.
Context `{Target T}.

Record Recorder := mkRecorder {
  target : T;
  log : ReadLog;
  rec_by_addr : gmap Z (option SymbolBuf);
  rec_by_name : gmap string (option SymbolBuf);
  rec_tls : gmap (Z * string) (option Z)
}.

Definition recorder_new (t : T) : Recorder := mkRecorder t log_default ∅ ∅ ∅.

(** [charged]: the log's bytes and entries before merging. *)
Definition charged (r : Recorder) : Z * Z :=
  (log_bytes (log r), Z.of_nat (length (reads (log r)))).

Definition with_log (r : Recorder) (l : ReadLog) : Recorder :=
  mkRecorder (target r) l (rec_by_addr r) (rec_by_name r) (rec_tls r).

Definition recorder_read_bytes (r : Recorder) (a len : Z)
    : outcome (Result (list Byte.byte) * Recorder) :=
  match read_bytes (target r) a len with
  | Err e => Ret (Err e, r)
  | Ok bs =>
      let e := saturating_add a (Z.of_nat (length bs)) in
      if covers (log r) a e then Ret (Ok bs, r)
      else
        log' ← cover (mkReadLog (reads (log r) ++ [mkSegment a bs])
                        (u64_add (log_bytes (log r)) (Z.of_nat (length bs)))
                        (covered (log r))) a e;
        Ret (Ok bs, with_log r log')
  end.

Definition recorder_lookup_symbol_by_addr (r : Recorder) (a : Z)
    : option SymbolBuf * Recorder :=
  let sym := lookup_symbol_by_addr (target r) a in
  (sym, mkRecorder (target r) (log r) (<[a := sym]> (rec_by_addr r))
          (rec_by_name r) (rec_tls r)).

Definition recorder_lookup_symbol_by_name (r : Recorder) (n : string)
    : option SymbolBuf * Recorder :=
  let sym := lookup_symbol_by_name (target r) n in
  (sym, mkRecorder (target r) (log r) (rec_by_addr r)
          (<[n := sym]> (rec_by_name r)) (rec_tls r)).

Definition recorder_tls_var_addr (r : Recorder) (rg : Regs) (sym : SymbolBuf)
    : Result (option Z) * Recorder :=
  match tls_var_addr (target r) rg sym with
  | Err e => (Err e, r)
  | Ok a =>
      (Ok a, mkRecorder (target r) (log r) (rec_by_addr r) (rec_by_name r)
               (<[(fsbase rg, name sym) := a]> (rec_tls r)))
  end.

(** The snapshot of everything recorded so far, in the source's order: the
    symbols, the merge, then what the fields read from the target. *)
Definition recorder_snapshot (r : Recorder) (he : RecordedHeapEvidence)
    : outcome (Result Snapshot) :=
  match fns ← symbols (target r); objs ← object_symbols (target r); Ok (fns, objs) with
  | Err e => Ret (Err e)
  | Ok (fns, objs) =>
      merged ← merge_reads (reads (log r));
      Ret (maps ← mappings (target r);
           lwps ← lwps (target r);
           Ok {| memory := merged;
                 functions := sort_by (λ x y, st_value x <=? st_value y) fns;
                 objects := sort_by (λ x y, st_value x <=? st_value y) objs;
                 by_addr := rec_by_addr r;
                 by_name := rec_by_name r;
                 tls := rec_tls r;
                 s_mappings := maps;
                 s_lwps := lwps;
                 s_exec_bias := exec_bias (target r);
                 heap_evidence := he;
                 s_agent_lwp := agent_lwp (target r) |})
  end.

(** What an analysis asks of a recorder, and what it is answered. *)
Inductive request :=
  | ReadBytes (a len : Z)
  | SymbolByAddr (a : Z)
  | SymbolByName (n : string)
  | TlsVarAddr (rg : Regs) (sym : SymbolBuf).

Definition serve (r : Recorder) (q : request) : outcome Recorder :=
  match q with
  | ReadBytes a len => '(_, r) ← recorder_read_bytes r a len; Ret r
  | SymbolByAddr a => Ret (recorder_lookup_symbol_by_addr r a).2
  | SymbolByName n => Ret (recorder_lookup_symbol_by_name r n).2
  | TlsVarAddr rg sym => Ret (recorder_tls_var_addr r rg sym).2
  end.

Fixpoint serve_all (r : Recorder) (qs : list request) : outcome Recorder :=
  match qs with
  | [] => Ret r
  | q :: qs => r ← serve r q; serve_all r qs
  end.
End recorder.
Arguments Recorder _ : clear implicits.
