(* ===== verification/SnapshotFacts.v ===== *)
(** What [Snapshot] promises: the covered runs stay maximal and denote exactly
    the bytes read, merging a log yields maximal segments holding the latest
    bytes, and a snapshot replays the recording it was taken from. *)

From S2P Require Import Prelude Target Snapshot.

Local Open Scope Z_scope.

(** ** Vocabulary *)

(** Runs in address order, no two of them touching. *)
Definition runs_wf (m : list (Z * Z)) : Prop :=
  StronglySorted (λ x y : Z * Z, x.2 < y.1) m ∧
  Forall (λ x : Z * Z, x.1 <= x.2) m.

Definition run_mem (m : list (Z * Z)) (x : Z) : Prop :=
  ∃ r, r ∈ m ∧ r.1 <= x < r.2.

(** The byte a segment, a memory, or a log (its latest read) holds at [x]. *)
Definition seg_byte (s : Segment) (x : Z) : option Byte.byte :=
  if addr s <=? x then bytes s !! Z.to_nat (x - addr s) else None.

Definition mem_byte (mem : list Segment) (x : Z) : option Byte.byte :=
  find_map (λ s, seg_byte s x) mem.

Definition log_byte (l : list Segment) (x : Z) : option Byte.byte :=
  foldl (λ acc r, match seg_byte r x with Some b => Some b | None => acc end) None l.

(** A segment inside the address space. *)
Definition seg_ok (s : Segment) : Prop := 0 <= addr s ∧ addr s + blen s < W64.

Definition extent (s : Segment) : Z * Z := (addr s, addr s + blen s).

(** ** Sorted runs *)

Lemma StronglySorted_tricho {A} (R : relation A) l x y :
  StronglySorted R l → x ∈ l → y ∈ l → x = y ∨ R x y ∨ R y x.
Proof.
  induction 1 as [|z l Hs IH Hz]; [by intros ?%elem_of_nil|].
  rewrite Forall_forall in Hz.
  intros [->|Hx]%elem_of_cons [->|Hy]%elem_of_cons; eauto.
Qed.

Lemma runs_wf_app A B :
  runs_wf (A ++ B) ↔
  runs_wf A ∧ runs_wf B ∧ (∀ x y, x ∈ A → y ∈ B → x.2 < y.1).
Proof.
  unfold runs_wf. rewrite StronglySorted_app, Forall_app. naive_solver.
Qed.

Lemma runs_wf_cons r B :
  runs_wf (r :: B) ↔ r.1 <= r.2 ∧ runs_wf B ∧ (∀ y, y ∈ B → r.2 < y.1).
Proof.
  unfold runs_wf. rewrite StronglySorted_cons, Forall_cons, Forall_forall. naive_solver.
Qed.

Lemma run_mem_app A B x : run_mem (A ++ B) x ↔ run_mem A x ∨ run_mem B x.
Proof. unfold run_mem. setoid_rewrite elem_of_app. naive_solver. Qed.

Lemma run_mem_cons r B x : run_mem (r :: B) x ↔ r.1 <= x < r.2 ∨ run_mem B x.
Proof. unfold run_mem. setoid_rewrite elem_of_cons. naive_solver. Qed.

Lemma run_mem_nil x : ¬ run_mem [] x.
Proof. intros (r & Hr%elem_of_nil & _). done. Qed.

(** An interval inside the union of the runs is inside one of them. *)
Lemma run_mem_interval m a e :
  runs_wf m → a < e → (∀ x, a <= x < e → run_mem m x) →
  ∃ r, r ∈ m ∧ r.1 <= a ∧ e <= r.2.
Proof.
  intros [Hs _] Hlt Hall. destruct (Hall a) as (r & Hr & Hra); [lia|].
  exists r. split; [done|]. split; [lia|].
  destruct (decide (e <= r.2)); [done|].
  destruct (Hall r.2) as (r' & Hr' & Hra'); [lia|].
  destruct (StronglySorted_tricho _ _ _ _ Hs Hr Hr') as [->|[?|?]]; lia.
Qed.

Lemma partition_point_spec {A} (R : relation A) (p : A → bool) l :
  StronglySorted R l →
  (∀ x y, x ∈ l → y ∈ l → R x y → p y = true → p x = true) →
  (∀ x, x ∈ take (partition_point p l) l → p x = true) ∧
  (∀ x, x ∈ drop (partition_point p l) l → p x = false).
Proof.
  induction 1 as [|y l Hs IH Hy]; intros HR; [split; by intros ? ?%elem_of_nil|].
  rewrite Forall_forall in Hy. simpl. destruct (p y) eqn:E.
  - destruct IH as [IH1 IH2]; [intros; eapply HR; [by right|by right|done..]|].
    split; [intros x [->|?]%elem_of_cons; auto|done].
  - split; [by intros x ?%elem_of_nil|].
    intros x Hx. destruct (p x) eqn:Ex; [|done].
    apply elem_of_cons in Hx as Hx'. destruct Hx' as [->|Hx']; [congruence|].
    rewrite (HR y x) in E; [done|by left|done|auto|done].
Qed.

(** Splitting the runs at a key, as [range(..=k)] does. *)
Lemma btree_upto_split k m :
  runs_wf m →
  ∃ C, m = btree_upto k m ++ C ∧
    (∀ x, x ∈ btree_upto k m → x.1 <= k) ∧ (∀ x, x ∈ C → k < x.1).
Proof.
  intros [Hs Hle]. rewrite Forall_forall in Hle.
  destruct (partition_point_spec _ (λ e : Z * Z, e.1 <=? k) _ Hs) as [H1 H2].
  { intros x y Hx _ HR Hp. zb. specialize (Hle x Hx). lia. }
  exists (drop (partition_point (λ e : Z * Z, e.1 <=? k) m) m).
  unfold btree_upto. split; [by rewrite take_drop|]. split.
  - intros x Hx%H1. by zb.
  - intros x Hx%H2. by zb.
Qed.

Lemma covers_in_spec m a e :
  runs_wf m → a < e →
  covers_in m a e = true ↔ ∀ x, a <= x < e → run_mem m x.
Proof.
  intros Hwf Hlt. unfold covers_in.
  destruct (btree_upto_split a m Hwf) as (C & Hm & Hup & HC). split.
  - intros Hc x Hx. destruct (last _) as [[s t]|] eqn:El; [|done]. zb.
    exists (s, t). apply last_Some_elem_of in El. split.
    + rewrite Hm. apply elem_of_app. by left.
    + apply Hup in El. simpl in *. lia.
  - intros Hall. destruct (run_mem_interval m a e Hwf Hlt Hall) as (r & Hr & ? & ?).
    assert (r ∈ btree_upto a m) as Hru.
    { rewrite Hm in Hr. apply elem_of_app in Hr as [?|Hr]; [done|].
      apply HC in Hr. lia. }
    destruct (last _) as [[s t]|] eqn:El.
    + zb. apply last_Some in El as [L HL].
      rewrite HL in Hru, Hup. apply elem_of_app in Hru as [HrL|Hru].
      * rewrite Hm, HL in Hwf. apply runs_wf_app in Hwf as [Hwf _].
        apply runs_wf_app in Hwf as (_ & Hst & Hsep).
        apply runs_wf_cons in Hst as (? & _). 
        specialize (Hsep r (s, t) HrL ltac:(by left)).
        specialize (Hup (s, t) ltac:(apply elem_of_app; right; by left)).
        simpl in *. lia.
      * apply list_elem_of_singleton in Hru as ->. done.
    + apply last_None in El. rewrite El in Hru. by apply elem_of_nil in Hru.
Qed.

(** ** Folding a run in *)

Lemma btree_remove_mid A k v C :
  (∀ x, x ∈ A → x.1 ≠ k) →
  btree_remove k (A ++ (k, v) :: C) = Some (v, A ++ C).
Proof.
  induction A as [|[k' v'] A IH]; intros HA; simpl.
  - by rewrite Z.eqb_refl.
  - destruct (Z.eqb_spec k k') as [->|].
    + by destruct (HA (k', v') ltac:(by left)).
    + rewrite IH; [done|]. intros x Hx. apply HA. by right.
Qed.

Lemma btree_insert_mid A k v C :
  (∀ x, x ∈ A → x.1 < k) → (∀ x, x ∈ C → k < x.1) →
  btree_insert k v (A ++ C) = A ++ (k, v) :: C.
Proof.
  induction A as [|[k' v'] A IH]; intros HA HC; simpl.
  - destruct C as [|[k' v'] C]; simpl; [done|].
    specialize (HC (k', v') ltac:(by left)). simpl in HC.
    by rewrite (proj2 (Z.ltb_lt _ _)).
  - specialize (HA (k', v') ltac:(by left)) as Hk'. simpl in Hk'.
    rewrite (proj2 (Z.ltb_ge _ _)), (proj2 (Z.eqb_neq _ _)) by lia.
    rewrite IH; [done| |done]. intros x Hx. apply HA. by right.
Qed.

(** Absorbing the touching runs [B], last of them first. *)
Lemma absorb_spec A B C s t :
  runs_wf (A ++ B ++ C) → s <= t →
  (∀ r, r ∈ B → s <= r.2 ∧ r.1 <= t) →
  ∃ s' t', absorb (reverse B).*1 (A ++ B ++ C) s t = Ret (A ++ C, s', t') ∧
    s' <= t' ∧
    (s' = s ∨ ∃ r, r ∈ B ∧ s' = r.1) ∧ (t' = t ∨ ∃ r, r ∈ B ∧ t' = r.2) ∧
    (∀ x, s' <= x < t' ↔ s <= x < t ∨ run_mem B x).
Proof.
  revert s t. induction B as [|r B IH] using rev_ind; intros s t Hwf Hst HB.
  - exists s, t. simpl. split_and!; [done..|by left|by left|].
    intros x. pose proof (run_mem_nil x). naive_solver.
  - rewrite reverse_snoc. cbn [fmap list_fmap absorb]. rewrite <- !app_assoc.
    rewrite <- app_assoc in Hwf. simpl in Hwf |- *.
    destruct r as [rs rt]. simpl.
    rewrite (app_assoc A B ((rs, rt) :: C)), btree_remove_mid.
    2:{ intros x Hx. rewrite app_assoc in Hwf.
        apply runs_wf_app in Hwf as ((_ & HAB) & _ & Hsep).
        specialize (Hsep x (rs, rt) Hx ltac:(by left)).
        rewrite Forall_forall in HAB. apply HAB in Hx. simpl in *. lia. }
    simpl. rewrite <- app_assoc.
    assert (runs_wf (A ++ B ++ C) ∧ rs <= rt) as [Hwf' Hr].
    { rewrite !runs_wf_app, runs_wf_cons in Hwf. rewrite !runs_wf_app.
      setoid_rewrite elem_of_app. setoid_rewrite elem_of_app in Hwf.
      setoid_rewrite elem_of_cons in Hwf. naive_solver. }
    destruct (HB (rs, rt)) as [Hr1 Hr2]; [apply elem_of_app; right; by left|].
    simpl in Hr1, Hr2.
    destruct (IH (Z.min s rs) (Z.max t rt)) as (s' & t' & -> & Hst' & Hs' & Ht' & Hx);
      [done|lia| |].
    { intros r Hr'. destruct (HB r) as [??]; [apply elem_of_app; by left|]. lia. }
    exists s', t'. split; [done|]. split; [done|].
    setoid_rewrite elem_of_app. split; [|split].
    + destruct Hs' as [->|(r & ? & ->)]; [|eauto 6].
      destruct (Z.min_spec s rs) as [[? ->]|[? ->]]; [by left|right].
      exists (rs, rt). split; [right; by left|done].
    + destruct Ht' as [->|(r & ? & ->)]; [|eauto 6].
      destruct (Z.max_spec t rt) as [[? ->]|[? ->]]; [right|by left].
      exists (rs, rt). split; [right; by left|done].
    + intros x. rewrite Hx, run_mem_app, run_mem_cons. simpl.
      assert (Z.min s rs <= x < Z.max t rt ↔ s <= x < t ∨ rs <= x < rt) as -> by lia.
      pose proof (run_mem_nil x). tauto.
Qed.

(** The runs an interval touches are a contiguous stretch of the runs. *)
Lemma touching_split m a e :
  runs_wf m → a <= e →
  ∃ A B C, m = A ++ B ++ C ∧ touching_runs m a e = (reverse B).*1 ∧
    (∀ x, x ∈ A → x.2 < a) ∧ (∀ x, x ∈ B → a <= x.2 ∧ x.1 <= e) ∧
    (∀ x, x ∈ C → e < x.1).
Proof.
  intros Hwf Hae. destruct (btree_upto_split e m Hwf) as (C & Hm & Hup & HC).
  unfold touching_runs. set (U := btree_upto e m) in *.
  set (p := λ r : Z * Z, a <=? r.2). set (k := partition_point p (reverse U)).
  rewrite Hm in Hwf. apply runs_wf_app in Hwf as ([HsU HleU] & _).
  rewrite Forall_forall in HleU.
  destruct (partition_point_spec (λ x y : Z * Z, y.2 < x.1) p (reverse U)) as [H1 H2].
  { clear -HsU. induction HsU as [|x l Hs IH Hx]; [constructor|].
    rewrite reverse_cons. apply StronglySorted_app. split_and!; [|done|repeat constructor].
    intros y z Hy ->%list_elem_of_singleton. rewrite Forall_forall in Hx.
    by apply Hx, elem_of_reverse. }
  { intros x y Hx Hy HR Hp. unfold p in *. zb.
    specialize (HleU x ltac:(by apply elem_of_reverse)). lia. }
  fold k in H1, H2.
  exists (reverse (drop k (reverse U))), (reverse (take k (reverse U))), C.
  rewrite reverse_involutive. split_and!; [|done| | |done].
  - rewrite app_assoc, <- reverse_app, take_drop, reverse_involutive. done.
  - intros x Hx%elem_of_reverse%H2. unfold p in Hx. by zb.
  - intros x Hx. rewrite elem_of_reverse in Hx. specialize (H1 x Hx).
    unfold p in H1. zb. split; [done|]. apply Hup.
    apply elem_of_reverse. eapply elem_of_take in Hx as (i & Hi & _).
    by eapply list_elem_of_lookup_2.
Qed.

Lemma cover_in_spec m a e :
  runs_wf m → a <= e →
  ∃ m', cover_in m a e = Ret m' ∧ runs_wf m' ∧
    ∀ x, run_mem m' x ↔ run_mem m x ∨ a <= x < e.
Proof.
  intros Hwf Hae. destruct (touching_split m a e Hwf Hae) as
    (A & B & C & Hm & Ht & HA & HB & HC).
  unfold cover_in. rewrite Ht, Hm. rewrite Hm in Hwf.
  destruct (absorb_spec A B C a e Hwf Hae) as (s' & t' & -> & Hst & Hs' & Ht' & Hx);
    [done|]. simpl.
  apply runs_wf_app in Hwf as (HwA & HwBC & HsepA).
  apply runs_wf_app in HwBC as (HwB & HwC & HsepB).
  assert (∀ x, x ∈ A → x.2 < s') as HA'.
  { intros x Hx'. destruct Hs' as [->|(r & Hr & ->)]; [auto|].
    apply HsepA; [done|]. apply elem_of_app. by left. }
  assert (∀ x, x ∈ C → t' < x.1) as HC'.
  { intros x Hx'. destruct Ht' as [->|(r & Hr & ->)]; auto. }
  eexists. split; [done|].
  rewrite btree_insert_mid.
  2:{ intros x Hx'. destruct HwA as [_ HwA]. rewrite Forall_forall in HwA.
      specialize (HwA x Hx'). specialize (HA' x Hx'). lia. }
  2:{ intros x Hx'. specialize (HC' x Hx'). lia. }
  split.
  - apply runs_wf_app. split; [done|]. rewrite runs_wf_cons. split; [by split_and!|].
    intros x y Hx' [->|Hy]%elem_of_cons; [by apply HA'|].
    apply HsepA; [done|]. apply elem_of_app. by right.
  - intros x. rewrite run_mem_app, run_mem_cons, !run_mem_app, Hx. tauto.
Qed.

(** ** Bytes of a segment *)

Lemma seg_byte_is_Some s x :
  is_Some (seg_byte s x) ↔ addr s <= x < addr s + blen s.
Proof.
  unfold seg_byte, blen. destruct (Z.leb_spec (addr s) x).
  - rewrite lookup_lt_is_Some. lia.
  - split; [intros [??]; done|lia].
Qed.

Lemma seg_byte_None s x :
  seg_byte s x = None ↔ ¬ addr s <= x < addr s + blen s.
Proof. rewrite <- seg_byte_is_Some, <- eq_None_not_Some. done. Qed.

Lemma find_map_app {A B} (f : A → option B) l k :
  find_map f (l ++ k) =
  match find_map f l with Some b => Some b | None => find_map f k end.
Proof. induction l as [|x l IH]; simpl; [done|]. rewrite IH. by destruct (f x). Qed.

Lemma find_map_None {A B} (f : A → option B) l :
  (∀ x, x ∈ l → f x = None) → find_map f l = None.
Proof.
  induction l as [|x l IH]; intros Hf; simpl; [done|].
  rewrite Hf by left. apply IH. intros. apply Hf. by right.
Qed.

Lemma seg_end_small s : seg_ok s → seg_end s = addr s + blen s.
Proof.
  intros [? ?]. unfold seg_end. apply u64_add_small. unfold is_u64, blen in *. lia.
Qed.

Lemma copy_from_slice_spec {A} (l : list A) k src :
  0 <= k → k + Z.of_nat (length src) <= Z.of_nat (length l) →
  ∃ l', copy_from_slice l k src = Ret l' ∧ length l' = length l ∧
    ∀ j, l' !! j = if decide (Z.to_nat k ≤ j < Z.to_nat k + length src)%nat
                   then src !! (j - Z.to_nat k)%nat else l !! j.
Proof.
  intros Hk Hlen. unfold copy_from_slice.
  rewrite (proj2 (Z.leb_le 0 k)), (proj2 (Z.leb_le (k + _) _)) by lia. simpl.
  eexists. split; [done|]. split.
  - rewrite !length_app, length_take, length_drop. lia.
  - intros j. case_decide as Hj.
    + rewrite lookup_app_r; rewrite length_take; [|lia].
      rewrite lookup_app_l by lia. f_equal. lia.
    + destruct (decide (j < Z.to_nat k)%nat).
      * rewrite lookup_app_l by (rewrite length_take; lia).
        by rewrite lookup_take_lt.
      * rewrite lookup_app_r; rewrite length_take; [|lia].
        rewrite lookup_app_r by lia. rewrite lookup_drop. f_equal. lia.
Qed.

(** ** The sweep *)

Lemma sweep_step_inv acc iv :
  runs_wf (reverse acc) → iv.1 <= iv.2 → (∀ x, x ∈ acc → x.1 <= iv.1) →
  runs_wf (reverse (sweep_step acc iv)) ∧
  (∀ x, run_mem (sweep_step acc iv) x ↔ run_mem acc x ∨ iv.1 <= x < iv.2) ∧
  (∀ x, x ∈ sweep_step acc iv → x.1 <= iv.1).
Proof.
  destruct acc as [|[s e] acc]; simpl; intros Hwf Hiv Hle.
  - split; [apply runs_wf_cons; split_and!; [done|repeat constructor|by intros ? ?%elem_of_nil]|].
    split; [intros x; rewrite run_mem_cons; tauto|].
    by intros x ->%list_elem_of_singleton.
  - rewrite reverse_cons in Hwf. pose proof Hwf as Hwf'.
    apply runs_wf_app in Hwf as (Hw1 & Hw2 & Hsep).
    apply runs_wf_cons in Hw2 as (Hse & _). simpl in Hse.
    pose proof (Hle (s, e) ltac:(by left)) as Hs. simpl in Hs.
    destruct (Z.leb_spec iv.1 e).
    + rewrite reverse_cons. split_and!.
      * apply runs_wf_app. split_and!; [done| |].
        -- apply runs_wf_cons. simpl.
           split_and!; [lia|repeat constructor|by intros ? ?%elem_of_nil].
        -- intros x y Hx ->%list_elem_of_singleton.
           apply (Hsep x (s, e) Hx). by left.
      * intros x. rewrite !run_mem_cons. simpl.
        assert (s <= x < Z.max e iv.2 ↔ s <= x < e ∨ iv.1 <= x < iv.2) by lia. tauto.
      * intros x [->|Hx]%elem_of_cons; [done|]. apply Hle. by right.
    + rewrite (reverse_cons ((s, e) :: acc)), reverse_cons. split_and!.
      * apply runs_wf_app. split_and!; [done| |].
        -- apply runs_wf_cons.
           split_and!; [lia|repeat constructor|by intros ? ?%elem_of_nil].
        -- intros x y Hx ->%list_elem_of_singleton. 
           apply elem_of_app in Hx as [Hx|Hx%list_elem_of_singleton].
           ++ specialize (Hsep x (s, e) Hx ltac:(by left)). simpl in Hsep. lia.
           ++ subst. done.
      * intros x. rewrite (run_mem_cons iv). tauto.
      * intros x [->|Hx]%elem_of_cons; [done|]. by apply Hle.
Qed.

Lemma sweep_spec ivs :
  StronglySorted (λ x y, pair_leb x y = true) ivs →
  Forall (λ iv : Z * Z, iv.1 <= iv.2) ivs →
  runs_wf (sweep ivs) ∧
  ∀ x, run_mem (sweep ivs) x ↔ run_mem ivs x.
Proof.
  unfold sweep. intros Hs Hle.
  assert (∀ acc, runs_wf (reverse acc) →
    (∀ x y, x ∈ acc → y ∈ ivs → x.1 <= y.1) →
    runs_wf (reverse (foldl sweep_step acc ivs)) ∧
    ∀ x, run_mem (foldl sweep_step acc ivs) x ↔ run_mem acc x ∨ run_mem ivs x) as H.
  { induction Hs as [|iv ivs Hs IH Hiv]; intros acc Hwf Hbelow; simpl.
    - split; [done|]. intros x. pose proof (run_mem_nil x). tauto.
    - apply Forall_cons in Hle as [Hle1 Hle2]. rewrite Forall_forall in Hiv.
      destruct (sweep_step_inv acc iv) as (Hwf' & Hmem & Hb); [done..| |].
      { intros x Hx. apply Hbelow; [done|by left]. }
      destruct (IH Hle2 (sweep_step acc iv)) as [HA HB]; [done| |].
      { intros x y Hx Hy. specialize (Hb x Hx). specialize (Hiv y Hy).
        unfold pair_leb in Hiv. apply orb_true_iff in Hiv as [?|?]; zb; lia. }
      split; [done|]. intros x. rewrite HB, Hmem, run_mem_cons. tauto. }
  destruct (H []) as [HA HB]; [repeat constructor|by intros ?? ?%elem_of_nil|].
  split; [done|]. intros x. unfold run_mem at 1. setoid_rewrite elem_of_reverse.
  fold (run_mem (foldl sweep_step [] ivs) x). rewrite HB.
  pose proof (run_mem_nil x). tauto.
Qed.

Lemma sweep_nonempty ivs :
  Forall (λ iv : Z * Z, iv.1 < iv.2) ivs → Forall (λ e : Z * Z, e.1 < e.2) (sweep ivs).
Proof.
  intros Hivs. unfold sweep. apply Forall_reverse.
  assert (Forall (λ e : Z * Z, e.1 < e.2) []) as Hacc by constructor.
  revert Hacc. generalize (@nil (Z * Z)).
  induction Hivs as [|iv ivs Hiv _ IH]; intros acc Hacc; simpl; [done|].
  apply IH. unfold sweep_step. destruct acc as [|[s e] acc]; [by repeat constructor|].
  apply Forall_cons in Hacc as [Hse Hacc]. simpl in Hse.
  case_match; repeat constructor; simpl; try done; lia.
Qed.

(** ** Replaying the log on the extents *)

Lemma extent_lookup (mem : list Segment) i s :
  mem !! i = Some s → (extent <$> mem) !! i = Some (extent s).
Proof. intros Hi. by rewrite list_lookup_fmap, Hi. Qed.

(** The partition point of an address inside a segment is just past it. *)
Lemma segment_index L s R x :
  runs_wf (extent <$> (L ++ s :: R)) → addr s <= x <= addr s + blen s →
  partition_point (λ g, addr g <=? x) (L ++ s :: R) = S (length L).
Proof.
  intros Hwf Hx. rewrite fmap_app, fmap_cons in Hwf.
  apply runs_wf_app in Hwf as ((_ & HL) & HR & Hsep).
  apply runs_wf_cons in HR as (_ & _ & HR).
  assert (∀ g, g ∈ L → addr g <= x) as HLx.
  { intros g Hg. specialize (Hsep (extent g) (extent s)
      ltac:(by apply list_elem_of_fmap_2) ltac:(by left)).
    unfold extent, blen in *. simpl in *. lia. }
  clear HL Hsep. induction L as [|g L IH]; simpl.
  - rewrite (proj2 (Z.leb_le _ _)) by lia. f_equal.
    destruct R as [|g R]; simpl; [done|].
    specialize (HR (extent g) ltac:(by left)). unfold extent in HR. simpl in HR.
    by rewrite (proj2 (Z.leb_gt _ _)) by lia.
  - rewrite (proj2 (Z.leb_le _ _)) by (apply HLx; left). rewrite IH; [done|].
    intros ??. apply HLx. by right.
Qed.

Lemma mem_byte_mid L s R x :
  runs_wf (extent <$> (L ++ s :: R)) → addr s <= x < addr s + blen s →
  mem_byte (L ++ s :: R) x = seg_byte s x.
Proof.
  intros Hwf Hx. unfold mem_byte. rewrite find_map_app, find_map_None.
  - simpl. by destruct (proj2 (seg_byte_is_Some s x) Hx) as [b ->].
  - intros g Hg. apply seg_byte_None. rewrite fmap_app, fmap_cons in Hwf.
    apply runs_wf_app in Hwf as (_ & _ & Hsep).
    specialize (Hsep (extent g) (extent s)
      ltac:(by apply list_elem_of_fmap_2) ltac:(by left)).
    unfold extent in Hsep. simpl in Hsep. lia.
Qed.

Lemma mem_byte_outside L s s' R x :
  extent s' = extent s → ¬ addr s <= x < addr s + blen s →
  mem_byte (L ++ s' :: R) x = mem_byte (L ++ s :: R) x.
Proof.
  unfold extent. intros [= Ha Hb] Hx. unfold mem_byte. rewrite !find_map_app. simpl.
  rewrite (proj2 (seg_byte_None s x)), (proj2 (seg_byte_None s' x)) by lia. done.
Qed.

Lemma replay_read_spec mem r :
  runs_wf (extent <$> mem) → 
  (∃ s, s ∈ mem ∧ addr s <= addr r ∧ addr r + blen r <= addr s + blen s) →
  ∃ mem', replay_read mem r = Ret mem' ∧ extent <$> mem' = extent <$> mem ∧
    ∀ x, mem_byte mem' x =
         match seg_byte r x with Some b => Some b | None => mem_byte mem x end.
Proof.
  intros Hwf (s & Hs & Hlo & Hhi). apply list_elem_of_split in Hs as (L & R & ->).
  unfold replay_read. rewrite (segment_index L s R) by (unfold blen in *; done || lia).
  rewrite list_lookup_middle by done. cbn [or_panic mbind outcome_bind].
  destruct (copy_from_slice_spec (bytes s) (addr r - addr s) (bytes r))
    as (bs & -> & Hlen & Hbs); [lia|unfold blen in *; lia|]. cbn.
  set (s' := mkSegment (addr s) bs).
  assert (blen s' = blen s) as Hb by (unfold blen; simpl; by rewrite Hlen).
  assert (extent s' = extent s) as He by (unfold extent; by rewrite Hb).
  eexists. split; [done|].
  replace (length L) with (length L + 0)%nat by lia. rewrite insert_app_r. simpl.
  assert (extent <$> (L ++ s' :: R) = extent <$> (L ++ s :: R)) as Hf
    by (by rewrite !fmap_app, !fmap_cons, He).
  split; [exact Hf|]. intros x.
  destruct (decide (addr s <= x < addr s + blen s)) as [Hx|Hx].
  - rewrite !mem_byte_mid; [|done|done|by rewrite Hf|simpl; lia].
    unfold seg_byte. simpl.
    rewrite (proj2 (Z.leb_le _ _)) by lia. rewrite Hbs. unfold blen in *.
    destruct (Z.leb_spec (addr r) x).
    + case_decide as Hd.
      * replace (Z.to_nat (x - addr s) - Z.to_nat (addr r - addr s))%nat
          with (Z.to_nat (x - addr r)) by lia.
        destruct (lookup_lt_is_Some_2 (bytes r) (Z.to_nat (x - addr r))) as [b ->]; [lia|done].
      * rewrite (lookup_ge_None_2 (bytes r)) by lia. done.
    + rewrite decide_False by lia. done.
  - rewrite (mem_byte_outside L s s' R) by done.
    rewrite (proj2 (seg_byte_None r x)) by lia. done.
Qed.

Definition latest (base : Z → option Byte.byte) (l : list Segment) (x : Z) : option Byte.byte :=
  foldl (λ acc r, match seg_byte r x with Some b => Some b | None => acc end) (base x) l.

Lemma replay_reads_spec l mem :
  runs_wf (extent <$> mem) →
  (∀ r, r ∈ l → ∃ s, s ∈ extent <$> mem ∧ s.1 <= addr r ∧ addr r + blen r <= s.2) →
  ∃ mem', replay_reads mem l = Ret mem' ∧ extent <$> mem' = extent <$> mem ∧
    ∀ x, mem_byte mem' x = latest (mem_byte mem) l x.
Proof.
  revert mem. induction l as [|r l IH]; intros mem Hwf Hin; simpl; [by eauto|].
  destruct (replay_read_spec mem r) as (mem1 & -> & He1 & Hb1); [done| |].
  { destruct (Hin r ltac:(by left)) as (s & Hs & ?).
    apply list_elem_of_fmap in Hs as (g & -> & Hg). by exists g. }
  simpl. destruct (IH mem1) as (mem2 & -> & He2 & Hb2).
  - by rewrite He1.
  - rewrite He1. intros r' Hr'. apply Hin. by right.
  - exists mem2. split; [done|]. split; [by rewrite He2|].
    intros x. rewrite Hb2. unfold latest. simpl. by rewrite Hb1.
Qed.

Lemma latest_None base l x : latest base l x =
  match log_byte l x with Some b => Some b | None => base x end.
Proof.
  unfold latest, log_byte. induction l as [|r l IH] using rev_ind; simpl; [done|].
  rewrite !foldl_app. simpl. destruct (seg_byte r x); [done|]. exact IH.
Qed.

Lemma log_byte_snoc l r x :
  log_byte (l ++ [r]) x =
  match seg_byte r x with Some b => Some b | None => log_byte l x end.
Proof. unfold log_byte. by rewrite foldl_app. Qed.

Lemma log_byte_is_Some l x :
  is_Some (log_byte l x) ↔ ∃ r, r ∈ l ∧ addr r <= x < addr r + blen r.
Proof.
  induction l as [|r l IH] using rev_ind.
  - split; [by intros [??]|]. by intros (? & ?%elem_of_nil & _).
  - rewrite log_byte_snoc. setoid_rewrite elem_of_app. setoid_rewrite list_elem_of_singleton.
    destruct (seg_byte r x) eqn:E.
    + split; [intros _|by eauto]. exists r. split; [by right|].
      apply seg_byte_is_Some. by rewrite E.
    + apply seg_byte_None in E. rewrite IH. naive_solver.
Qed.

Lemma log_byte_served l x : log_byte (served l) x = log_byte l x.
Proof.
  unfold served. induction l as [|r l IH] using rev_ind; [done|].
  rewrite filter_app, log_byte_snoc, filter_cons, filter_nil.
  case_decide as Hr; [by rewrite log_byte_snoc, IH|].
  rewrite app_nil_r, (proj2 (seg_byte_None r x)); [done|].
  unfold blen. rewrite Hr. simpl. lia.
Qed.

(** ** The merge *)

(** The runs of a log: the extents its merge is laid out on. *)
Definition log_extents (l : list Segment) : list (Z * Z) :=
  sweep (sort_by pair_leb ((λ r, (addr r, seg_end r)) <$> served l)).

Lemma elem_of_served l r : r ∈ served l ↔ r ∈ l ∧ 0 < blen r.
Proof.
  unfold served. rewrite list_elem_of_filter.
  assert (bytes r ≠ [] ↔ 0 < blen r) as ->; [|tauto].
  unfold blen. destruct (bytes r); simpl; [split; [done|lia]|split; [lia|done]].
Qed.

Lemma log_extents_spec l :
  Forall seg_ok l →
  runs_wf (log_extents l) ∧
  (∀ x, run_mem (log_extents l) x ↔ is_Some (log_byte l x)) ∧
  Forall (λ e : Z * Z, 0 <= e.1 < e.2 ∧ e.2 < W64) (log_extents l).
Proof.
  intros Hok. rewrite Forall_forall in Hok.
  assert (∀ iv, iv ∈ sort_by pair_leb ((λ r, (addr r, seg_end r)) <$> served l) ↔
    ∃ r, r ∈ l ∧ 0 < blen r ∧ iv = extent r) as Hivs.
  { intros iv. rewrite sort_by_perm, list_elem_of_fmap.
    setoid_rewrite elem_of_served. split.
    - intros (r & -> & Hr & ?). exists r. split_and!; [done..|].
      by rewrite seg_end_small by auto.
    - intros (r & Hr & ? & ->). exists r. rewrite seg_end_small by auto. done. }
  unfold log_extents. set (ivs := sort_by _ _) in *.
  assert (∀ x, run_mem ivs x ↔ is_Some (log_byte l x)) as Hb.
  { intros x. rewrite log_byte_is_Some. unfold run_mem. setoid_rewrite Hivs. split.
    - intros (iv & (r & Hr & _ & ->) & Hx). by exists r.
    - intros (r & Hr & Hx). exists (extent r). split; [|done].
      exists r. split_and!; [done|lia|done]. }
  destruct (sweep_spec ivs) as [Hwf Hmem].
  - apply sort_by_sorted; [apply pair_leb_total|apply pair_leb_trans].
  - apply Forall_forall. intros iv (r & _ & ? & ->)%Hivs. simpl. lia.
  - split; [done|]. assert (Forall (λ e : Z * Z, e.1 < e.2) (sweep ivs)) as Hne.
    { apply sweep_nonempty, Forall_forall. intros iv (r & _ & ? & ->)%Hivs. simpl. lia. }
    split; [intros x; by rewrite Hmem|]. rewrite Forall_forall in Hne.
    apply Forall_forall. intros e He. specialize (Hne e He).
    assert (∀ x, e.1 <= x < e.2 → 0 <= x < W64 - 1) as Hx.
    { intros x Hx. assert (run_mem ivs x) as (iv & (r & Hr & _ & ->)%Hivs & Hxr).
      { apply Hmem. by exists e. }
      specialize (Hok r Hr) as [??]. simpl in *. lia. }
    pose proof (Hx e.1 ltac:(lia)). pose proof (Hx (e.2 - 1) ltac:(lia)). lia.
Qed.

Lemma blank_extents exts :
  Forall (λ e : Z * Z, 0 <= e.1 < e.2 ∧ e.2 < W64) exts →
  extent <$> (blank <$> exts) = exts.
Proof.
  induction 1 as [|[s e] exts He _ IH]; [done|]. rewrite !fmap_cons, IH. f_equal.
  unfold extent, blank, blen. simpl in *.
  rewrite length_replicate, u64_sub_small by (unfold is_u64; lia). f_equal. lia.
Qed.

Lemma merge_reads_spec l :
  Forall seg_ok l →
  ∃ mem, merge_reads l = Ret mem ∧ runs_wf (extent <$> mem) ∧ Forall seg_ok mem ∧
    ∀ x, mem_byte mem x = log_byte l x.
Proof.
  intros Hok. destruct (log_extents_spec l Hok) as (Hwf & Hmem & Hu).
  pose proof (blank_extents _ Hu) as Hext.
  unfold merge_reads. fold (log_extents l).
  destruct (replay_reads_spec (served l) (blank <$> log_extents l)) as (mem & -> & He & Hb).
  - by rewrite Hext.
  - intros r [Hr Hpos]%elem_of_served. rewrite Hext.
    apply run_mem_interval; [done|lia|]. intros x Hx.
    apply Hmem, log_byte_is_Some. by exists r.
  - exists mem. split; [done|]. rewrite He, Hext. split; [done|]. split.
    { rewrite <- Hext, <- He in Hu. apply Forall_fmap in Hu.
      eapply Forall_impl; [exact Hu|]. unfold seg_ok. simpl. lia. }
    intros x. rewrite Hb, latest_None, log_byte_served.
    destruct (log_byte l x) eqn:El; [done|]. apply find_map_None.
    intros s Hs. apply seg_byte_None. intros Hx.
    assert (run_mem (log_extents l) x) as Hrm.
    { exists (extent s). split; [|done]. rewrite <- Hext. by apply list_elem_of_fmap_2. }
    apply Hmem in Hrm as [??]. congruence.
Qed.

(** ** Reading a snapshot *)

Lemma slice_lookup {A} (l l' : list A) start len i :
  slice l start len = Some l' → (i < length l')%nat → 
  l' !! i = l !! (Z.to_nat start + i)%nat.
Proof.
  unfold slice. destruct (_ && _) eqn:E; [|done]. zb. intros [= <-] Hi.
  rewrite length_take, length_drop in Hi.
  rewrite lookup_take_lt by lia. by rewrite lookup_drop.
Qed.

Lemma segment_in_mid L s R x :
  runs_wf (extent <$> (L ++ s :: R)) → seg_ok s → addr s <= x <= addr s + blen s →
  segment_in (L ++ s :: R) x = if x <? addr s + blen s then Some s else None.
Proof.
  intros Hwf Hok Hx. unfold segment_in. rewrite (segment_index L s R) by done.
  rewrite list_lookup_middle by done. simpl. by rewrite seg_end_small.
Qed.

Lemma segment_in_Some mem x s :
  Forall seg_ok mem → segment_in mem x = Some s → s ∈ mem ∧ addr s <= x < addr s + blen s.
Proof.
  intros Hok. unfold segment_in. destruct (partition_point _ _) eqn:Ep; [done|].
  intros (g & Hg & Hx)%bind_Some. case_match eqn:E; [|done]. simplify_eq. zb.
  assert (s ∈ mem) as Hin by (by eapply list_elem_of_lookup_2).
  rewrite Forall_forall in Hok. split; [done|]. rewrite seg_end_small in E by auto.
  split; [|done].
  apply partition_point_before with (p := λ s, addr s <=? x) in Hg; [by zb|lia].
Qed.

(** A nonempty read is served exactly when every byte of it is captured. *)
Lemma snapshot_read_bytes_spec s a n bs :
  runs_wf (extent <$> memory s) → Forall seg_ok (memory s) → 0 < n →
  snapshot_read_bytes s a n = Ok bs ↔
  Z.of_nat (length bs) = n ∧ a + n < W64 ∧
  ∀ i, (i < length bs)%nat → mem_byte (memory s) (a + Z.of_nat i) = bs !! i.
Proof.
  intros Hwf Hok Hn. pose proof Hok as Hok'. rewrite Forall_forall in Hok'. split.
  - intros Hr. pose proof (snapshot_read_bytes_len _ _ _ _ Hr) as Hlen.
    split; [done|]. unfold snapshot_read_bytes in Hr. case_match eqn:E; [|done].
    simplify_eq. apply bind_Some in E as (e & He & (seg & Hseg & E)%bind_Some).
    apply checked_add_Some in He as [-> Hlt]. split; [done|]. intros i Hi.
    apply segment_in_Some in Hseg as [Hin Hx]; [|done].
    case_match eqn:Ee; [|done]. zb. rewrite seg_end_small in Ee by auto.
    rewrite (slice_lookup _ _ _ _ _ E Hi).
    apply list_elem_of_split in Hin as (L & R & HLR). rewrite HLR in Hwf |- *.
    rewrite mem_byte_mid by (done || lia). unfold seg_byte.
    rewrite (proj2 (Z.leb_le _ _)) by lia. f_equal. lia.
  - intros (Hlen & Hlt & Hb).
    destruct (run_mem_interval (extent <$> memory s) a (a + n)) as (r & Hr & Hlo & Hhi);
      [done|lia| |].
    { intros x Hx. specialize (Hb (Z.to_nat (x - a)) ltac:(lia)).
      destruct (lookup_lt_is_Some_2 bs (Z.to_nat (x - a))) as [b Hbb]; [lia|].
      rewrite Hbb in Hb. replace (a + Z.of_nat (Z.to_nat (x - a))) with x in Hb by lia.
      assert (∃ g, g ∈ memory s ∧ is_Some (seg_byte g x)) as (g & Hg & Hgx).
      { destruct (decide (Exists (λ g, is_Some (seg_byte g x)) (memory s))) as [He|He].
        - by apply Exists_exists in He.
        - unfold mem_byte in Hb. rewrite find_map_None in Hb; [done|].
          intros g Hg. apply eq_None_not_Some. intros ?. apply He, Exists_exists. eauto. }
      apply seg_byte_is_Some in Hgx. exists (extent g).
      split; [by apply list_elem_of_fmap_2|done]. }
    apply list_elem_of_fmap in Hr as (g & -> & Hg). simpl in Hlo, Hhi.
    specialize (Hok' g Hg) as Hgok.
    apply list_elem_of_split in Hg as (L & R & HLR).
    unfold snapshot_read_bytes, segment, checked_add.
    rewrite (proj2 (Z.ltb_lt _ _)) by lia. cbn [mbind option_bind].
    rewrite HLR in Hwf, Hb |- *. rewrite (segment_in_mid L g R) by (done || lia).
    rewrite (proj2 (Z.ltb_lt a _)) by lia. simpl.
    rewrite (seg_end_small g) by done. rewrite (proj2 (Z.leb_le _ _)) by lia.
    unfold slice. unfold blen in Hhi.
    rewrite (proj2 (Z.leb_le 0 (a - _))), (proj2 (Z.leb_le 0 n)),
      (proj2 (Z.leb_le (_ + _) _)) by lia. simpl.
    f_equal. apply list_eq_same_length with (n := length bs); [done| |].
    { rewrite length_take, length_drop. lia. }
    intros i x y Hi Hxl Hyl. rewrite lookup_take_lt, lookup_drop in Hxl by lia.
    specialize (Hb i Hi). rewrite (mem_byte_mid L g R) in Hb by (unfold blen; done || lia).
    unfold seg_byte in Hb. rewrite (proj2 (Z.leb_le _ _)) in Hb by lia.
    replace (Z.to_nat (a + Z.of_nat i - addr g)) with (Z.to_nat (a - addr g) + i)%nat in Hb by lia.
    congruence.
Qed.

(** An empty read is served exactly where a byte is captured. *)
Lemma snapshot_read_empty_spec s a :
  runs_wf (extent <$> memory s) → Forall seg_ok (memory s) →
  snapshot_read_bytes s a 0 = Ok [] ↔ is_Some (mem_byte (memory s) a).
Proof.
  intros Hwf Hok. pose proof Hok as Hok'. rewrite Forall_forall in Hok'. split.
  - unfold snapshot_read_bytes. intros Hr. case_match eqn:E; [|done].
    apply bind_Some in E as (e & _ & (seg & Hseg & _)%bind_Some).
    apply segment_in_Some in Hseg as [Hin Hx]; [|done].
    apply list_elem_of_split in Hin as (L & R & HLR). rewrite HLR in Hwf |- *.
    rewrite mem_byte_mid by (done || lia). by apply seg_byte_is_Some.
  - intros [b Hb]. assert (∃ bs, bs = [b] ∧ snapshot_read_bytes s a 1 = Ok bs) as (bs & _ & H1).
    { exists [b]. split; [done|].
      assert (∃ g, g ∈ memory s ∧ addr g <= a < addr g + blen g) as (g & Hg & Hx).
      { destruct (decide (Exists (λ g, is_Some (seg_byte g a)) (memory s))) as [He|He].
        - apply Exists_exists in He as (g & Hg & Hx%seg_byte_is_Some). by exists g.
        - unfold mem_byte in Hb. rewrite find_map_None in Hb; [done|].
          intros g Hg. apply eq_None_not_Some. intros ?. apply He, Exists_exists. eauto. }
      destruct (Hok' g Hg). apply snapshot_read_bytes_spec; [done|done|lia|]. split; [done|].
      split; [lia|]. intros [|i] Hi; [|simpl in Hi; lia]. by rewrite Z.add_0_r. }
    unfold snapshot_read_bytes in *. case_match eqn:E; [|done].
    apply bind_Some in E as (e & [-> He]%checked_add_Some & (seg & Hseg & E)%bind_Some).
    unfold checked_add. rewrite (proj2 (Z.ltb_lt _ _)) by lia. cbn [mbind option_bind]. rewrite Hseg.
    cbn [mbind option_bind]. destruct (a + 1 <=? seg_end seg) eqn:Ee; [|done]. zb.
    rewrite (proj2 (Z.leb_le _ _)) by lia. unfold slice in *. destruct (_ && _) eqn:Es in E; [|done]. zb.
    rewrite (proj2 (Z.leb_le 0 (a - _))), (proj2 (Z.leb_le (_ + 0) _)) by lia. done.
Qed.

(** ** Recording and replaying *)

Section recorder_facts.
Context `{Target T} (t : T) (mem : Z → option Byte.byte).

(** The target does not change under the recording: what it serves are the
    bytes of one memory, inside the address space. *)
Definition coherent : Prop :=
  ∀ a n bs, read_bytes t a n = Ok bs →
    0 <= a ∧ a + n < W64 ∧
    ∀ i, (i < length bs)%nat → mem (a + Z.of_nat i) = bs !! i.

(** A thread-local's address is named by the thread pointer and the symbol's
    name, the key it is recorded under. *)
Definition tls_keyed : Prop :=
  ∀ rg sym rg' sym', fsbase rg = fsbase rg' → name sym = name sym' →
    tls_var_addr t rg sym = tls_var_addr t rg' sym'.

Record recording (r : Recorder T) : Prop := {
  rec_target : target r = t;
  rec_ok : Forall seg_ok (reads (log r));
  rec_bytes : ∀ x b, log_byte (reads (log r)) x = Some b → mem x = Some b;
  rec_runs : runs_wf (covered (log r));
  rec_covered : ∀ x, run_mem (covered (log r)) x ↔ is_Some (log_byte (reads (log r)) x);
  rec_addrs : ∀ a v, rec_by_addr r !! a = Some v → v = lookup_symbol_by_addr t a;
  rec_names : ∀ n v, rec_by_name r !! n = Some v → v = lookup_symbol_by_name t n;
  rec_tlss : ∀ f n v, rec_tls r !! (f, n) = Some v →
    ∃ rg sym, fsbase rg = f ∧ name sym = n ∧ tls_var_addr t rg sym = Ok v
}.

(** The recorder holds what answers [q] again. *)
Definition recorded (r : Recorder T) (q : request) : Prop :=
  match q with
  | ReadBytes a n => ∀ bs, read_bytes t a n = Ok bs →
      ∀ x, a <= x < a + n → is_Some (log_byte (reads (log r)) x)
  | SymbolByAddr a => is_Some (rec_by_addr r !! a)
  | SymbolByName n => is_Some (rec_by_name r !! n)
  | TlsVarAddr rg sym => ∀ v, tls_var_addr t rg sym = Ok v →
      is_Some (rec_tls r !! (fsbase rg, name sym))
  end.

(** A byte that a read of the sequence served. *)
Definition captured (qs : list request) (x : Z) : Prop :=
  ∃ a n bs, ReadBytes a n ∈ qs ∧ read_bytes t a n = Ok bs ∧ a <= x < a + n.

Lemma captured_cons q qs x : captured (q :: qs) x ↔ captured [q] x ∨ captured qs x.
Proof. unfold captured. set_solver. Qed.

Lemma recording_new : recording (recorder_new t).
Proof.
  constructor; simpl; try done.
  - repeat constructor.
  - intros x. split; [by intros (? & ?%elem_of_nil & _)|by intros [??]].
Qed.

Context (Hcoh : coherent).

Lemma recorder_read_ok r a n bs :
  recording r → read_bytes t a n = Ok bs →
  ∃ r', recorder_read_bytes r a n = Ret (Ok bs, r') ∧ recording r' ∧
    (∀ x, is_Some (log_byte (reads (log r')) x) ↔
          is_Some (log_byte (reads (log r)) x) ∨ a <= x < a + n) ∧
    rec_by_addr r' = rec_by_addr r ∧ rec_by_name r' = rec_by_name r ∧
    rec_tls r' = rec_tls r.
Proof.
  intros Hr Hread. pose proof (read_bytes_len _ _ _ _ Hread) as Hlen.
  destruct (Hcoh _ _ _ Hread) as (Ha & Hend & Hb).
  unfold recorder_read_bytes. rewrite (rec_target r Hr), Hread, Hlen. cbv zeta.
  assert (saturating_add a n = a + n) as -> by (unfold saturating_add; lia).
  destruct (covers (log r) a (a + n)) eqn:Ec.
  - exists r. split_and!; try done. intros x. split; [by left|].
    intros [?|Hx]; [done|]. apply (rec_covered r Hr). revert x Hx.
    destruct (decide (0 < n)); [|intros; lia].
    apply covers_in_spec; [apply Hr|lia|done].
  - set (seg := mkSegment a bs).
    assert (blen seg = n) as Hseg by done.
    destruct (cover_in_spec (covered (log r)) a (a + n)) as (m & Hm & Hwf & Hmem);
      [apply Hr|lia|].
    unfold cover. cbn [covered reads log_bytes]. rewrite Hm. simpl. eexists. split; [done|].
    assert (∀ x, is_Some (log_byte (reads (log r) ++ [seg]) x) ↔
                 is_Some (log_byte (reads (log r)) x) ∨ a <= x < a + n) as Hx.
    { intros x. rewrite log_byte_snoc. destruct (seg_byte seg x) eqn:E.
      - assert (is_Some (seg_byte seg x)) as Hs by eauto.
        apply seg_byte_is_Some in Hs. rewrite Hseg in Hs. simpl in Hs.
        split; [by right|by eauto].
      - apply seg_byte_None in E. rewrite Hseg in E. simpl in E. tauto. }
    split; [|by split_and!].
    destruct Hr as [Ht Hok Hby Hru Hcov ???]. constructor; simpl; try done.
    + apply Forall_app. split; [done|]. constructor; [|done].
      unfold seg_ok. rewrite Hseg. simpl. lia.
    + intros x b. rewrite log_byte_snoc. destruct (seg_byte seg x) eqn:E; [|apply Hby].
      intros [= <-]. assert (is_Some (seg_byte seg x)) as Hs by eauto.
      apply seg_byte_is_Some in Hs. rewrite Hseg in Hs. simpl in Hs.
      unfold seg_byte in E. rewrite (proj2 (Z.leb_le _ _)) in E by (simpl; lia).
      rewrite <- E. simpl. rewrite <- Hb by lia. f_equal. lia.
    + intros x. rewrite Hmem, Hcov, Hx. done.
Qed.

Lemma not_captured q l : (∀ a n bs, q = ReadBytes a n → read_bytes t a n ≠ Ok bs) →
  ∀ x, is_Some (log_byte l x) ↔ is_Some (log_byte l x) ∨ captured [q] x.
Proof.
  intros Hq x. split; [by left|]. intros [?|(a & n & bs & Hin%list_elem_of_singleton & Hb & _)]; [done|].
  by destruct (Hq a n bs).
Qed.

Lemma serve_recording r q :
  recording r →
  ∃ r', serve r q = Ret r' ∧ recording r' ∧
    (∀ x, is_Some (log_byte (reads (log r')) x) ↔ is_Some (log_byte (reads (log r)) x) ∨ captured [q] x) ∧
    recorded r' q ∧ ∀ q', recorded r q' → recorded r' q'.
Proof.
  intros Hr. destruct q as [a n|a|n|rg sym]; simpl.
  - destruct (read_bytes t a n) as [bs|e] eqn:Hread.
    + destruct (recorder_read_ok r a n bs Hr Hread)
        as (r' & -> & Hr' & Hx & Ha & Hn & Htls).
      exists r'. split; [done|]. split; [done|]. split; [|split].
      * intros x. rewrite Hx. unfold captured. split; (intros [?|H']; [by left|right]).
        -- exists a, n, bs. split; [by left|done].
        -- by destruct H' as (a' & n' & bs' & [= -> ->]%list_elem_of_singleton & _ & ?).
      * intros bs' _ x Hin. apply Hx. by right.
      * intros [a' n'|a'|n'|rg sym]; simpl; [|by rewrite ?Ha, ?Hn, ?Htls..].
        intros Hq bs' Hb x Hin. apply Hx. left. by eapply Hq.
    + unfold recorder_read_bytes. rewrite (rec_target r Hr), Hread.
      exists r. split; [done|]. split; [done|]. split; [|split; [intros bs'; congruence|done]].
      apply not_captured. intros a' n' bs' [= -> ->]. congruence.
  - eexists. split; [done|]. split; [|split; [by apply not_captured|split]].
    + destruct Hr as [Ht ??????]. constructor; simpl; try done.
      intros a' v [[<- <-]|[_ ?]]%lookup_insert_Some; [by rewrite Ht|eauto].
    + simpl. rewrite lookup_insert_eq. eauto.
    + intros [| | |]; simpl; try done. intros Hs. apply lookup_insert_is_Some'. by right.
  - eexists. split; [done|]. split; [|split; [by apply not_captured|split]].
    + destruct Hr as [Ht ??????]. constructor; simpl; try done.
      intros a' v [[<- <-]|[_ ?]]%lookup_insert_Some; [by rewrite Ht|eauto].
    + simpl. rewrite lookup_insert_eq. eauto.
    + intros [| | |]; simpl; try done. intros Hs. apply lookup_insert_is_Some'. by right.
  - unfold recorder_tls_var_addr. rewrite (rec_target r Hr).
    destruct (tls_var_addr t rg sym) as [v|e] eqn:E; simpl.
    + eexists. split; [done|]. split; [|split; [by apply not_captured|split]].
      * destruct Hr as [Ht ??????]. constructor; simpl; try done.
        intros f n v' [[[= <- <-] <-]|[_ ?]]%lookup_insert_Some; [by exists rg, sym|eauto].
      * simpl. rewrite lookup_insert_eq. eauto.
      * intros [| | |]; simpl; try done. intros Hs v' Hv'.
        apply lookup_insert_is_Some'. right. eauto.
    + exists r. split; [done|]. split; [done|]. split; [by apply not_captured|].
      split; [intros v; congruence|done].
Qed.

Lemma serve_all_recording qs r :
  recording r →
  ∃ r', serve_all r qs = Ret r' ∧ recording r' ∧
    (∀ x, is_Some (log_byte (reads (log r')) x) ↔ is_Some (log_byte (reads (log r)) x) ∨ captured qs x) ∧
    (∀ q, q ∈ qs → recorded r' q) ∧ ∀ q, recorded r q → recorded r' q.
Proof.
  revert r. induction qs as [|q qs IH]; intros r Hr; simpl.
  - exists r. split_and!; try done; [|by intros ? ?%elem_of_nil].
    intros x. split; [by left|]. by intros [?|(a & n & bs & ?%elem_of_nil & _)].
  - destruct (serve_recording r q Hr) as (r1 & -> & Hr1 & Hx1 & Hq & Hmono). simpl.
    destruct (IH r1 Hr1) as (r2 & -> & Hr2 & Hx2 & Hqs & Hmono2).
    exists r2. split_and!; [done..| | |eauto].
    { intros x. rewrite Hx2, Hx1, (captured_cons q qs x). tauto. }
    intros q' [->|?]%elem_of_cons; eauto.
Qed.

(** The snapshot answers a request the way the target did: what a read served, what
    every symbol lookup gave, and a thread-local's address or its refusal. *)
Definition replays (s : Snapshot) (q : request) : Prop :=
  match q with
  | ReadBytes a n => ∀ bs, 0 < n → read_bytes t a n = Ok bs → read_bytes s a n = Ok bs
  | SymbolByAddr a => lookup_symbol_by_addr s a = lookup_symbol_by_addr t a
  | SymbolByName n => lookup_symbol_by_name s n = lookup_symbol_by_name t n
  | TlsVarAddr rg sym =>
      match tls_var_addr t rg sym with
      | Ok v => tls_var_addr s rg sym = Ok v
      | Err _ => tls_var_addr s rg sym = Err (TlsNotRecorded (name sym) (fsbase rg))
      end
  end.

(** What a snapshot serves: the target's bytes, each of which some read of the sequence
    served; and an empty read at such a byte. *)
Definition serves_captured (s : Snapshot) (qs : list request) : Prop :=
  (∀ a n bs, 0 < n → read_bytes s a n = Ok bs ↔
     Z.of_nat (length bs) = n ∧ a + n < W64 ∧
     ∀ i, (i < length bs)%nat →
       mem (a + Z.of_nat i) = bs !! i ∧ captured qs (a + Z.of_nat i)) ∧
  ∀ a, read_bytes s a 0 = Ok [] ↔ captured qs a.

Lemma recorder_snapshot_fields r he s :
  recording r → recorder_snapshot r he = Ret (Ok s) →
  by_addr s = rec_by_addr r ∧ by_name s = rec_by_name r ∧ tls s = rec_tls r ∧
  runs_wf (extent <$> memory s) ∧ Forall seg_ok (memory s) ∧
  ∀ x, mem_byte (memory s) x = log_byte (reads (log r)) x.
Proof.
  intros Hr Hs. unfold recorder_snapshot in Hs.
  destruct (merge_reads_spec (reads (log r)) (rec_ok r Hr)) as (m & Hm & Hwf & Hok & Hb).
  match type of Hs with context [match ?x with _ => _ end] =>
    destruct x as [[fns objs]|e]; [|done] end.
  rewrite Hm in Hs.
  cbn [mbind outcome_bind] in Hs. injection Hs as Hs.
  repeat (apply result_bind_Ok in Hs as (? & _ & Hs)). injection Hs as <-. done.
Qed.

Lemma snapshot_replays r he s q :
  tls_keyed → recording r → recorder_snapshot r he = Ret (Ok s) →
  recorded r q → replays s q.
Proof.
  intros Hkey Hr Hs Hq. destruct (recorder_snapshot_fields r he s Hr Hs) as (Ea & En & Et & Hwf & Hok & Hb).
  destruct q as [a n|a|n|rg sym]; simpl in *.
  - intros bs Hn Hread. pose proof (read_bytes_len _ _ _ _ Hread) as Hlen.
    destruct (Hcoh _ _ _ Hread) as (Ha & Hend & Hbs).
    apply snapshot_read_bytes_spec; [exact Hwf|exact Hok|exact Hn|].
    split; [done|]. split; [done|]. simpl. intros i Hi. rewrite Hb.
    specialize (Hq _ Hread (a + Z.of_nat i) ltac:(lia)) as [b Hbb].
    rewrite <- Hbs by done. rewrite Hbb. symmetry. by apply (rec_bytes r Hr).
  - unfold snapshot_lookup_symbol_by_addr. rewrite Ea. destruct Hq as [v Hv].
    rewrite Hv. by apply (rec_addrs r Hr).
  - unfold snapshot_lookup_symbol_by_name. rewrite En. destruct Hq as [v Hv].
    rewrite Hv. by apply (rec_names r Hr).
  - unfold snapshot_tls_var_addr. rewrite Et.
    assert (∀ w, rec_tls r !! (fsbase rg, name sym) = Some w → tls_var_addr t rg sym = Ok w) as Hw.
    { intros w (rg' & sym' & Hf & Hnm & Hv')%(rec_tlss r Hr). by rewrite (Hkey rg' sym' rg sym) in Hv'. }
    destruct (tls_var_addr t rg sym) as [v|e].
    + destruct (Hq v eq_refl) as [w Hw']. rewrite Hw'. apply Hw in Hw'. congruence.
    + destruct (rec_tls r !! _) as [w|]; [by specialize (Hw w eq_refl)|done].
Qed.

Lemma snapshot_serves_captured r he s qs :
  recording r → recorder_snapshot r he = Ret (Ok s) →
  (∀ x, is_Some (log_byte (reads (log r)) x) ↔ captured qs x) → serves_captured s qs.
Proof.
  intros Hr Hs Hcap. destruct (recorder_snapshot_fields r he s Hr Hs) as (_ & _ & _ & Hwf & Hok & Hb).
  split.
  - intros a n bs Hn. rewrite (snapshot_read_bytes_spec s a n bs Hwf Hok Hn).
    do 2 (apply and_iff_compat_l).
    split; intros Hi i Hlt; specialize (Hi i Hlt); rewrite <- ?Hcap, ?Hb in *.
    + destruct (lookup_lt_is_Some_2 bs i Hlt) as [b Hbi]. rewrite Hbi in *.
      split; [by apply (rec_bytes r Hr)|eauto].
    + destruct Hi as [Hm [b Hlog]]. rewrite <- Hm, Hlog. symmetry. by apply (rec_bytes r Hr).
  - intros a. rewrite <- Hcap, <- Hb. by apply snapshot_read_empty_spec.
Qed.
End recorder_facts.

(** A snapshot is itself a target that does not change: recordings of
    recordings are recordings. *)
Lemma snapshot_coherent s :
  runs_wf (extent <$> memory s) → Forall seg_ok (memory s) →
  coherent s (mem_byte (memory s)).
Proof.
  intros Hwf Hok a n bs Hr. simpl in Hr.
  pose proof (snapshot_read_bytes_len _ _ _ _ Hr) as Hlen.
  assert (0 <= a ∧ a + n < W64) as [Ha Hend].
  { unfold snapshot_read_bytes in Hr. case_match eqn:E; [|done].
    apply bind_Some in E as (e & [-> ?]%checked_add_Some & (g & Hg & _)%bind_Some).
    apply segment_in_Some in Hg as [Hg ?]; [|done].
    rewrite Forall_forall in Hok. destruct (Hok g Hg). lia. }
  split_and!; [done..|]. intros i Hi.
  assert (0 < n) as Hn by lia.
  pose proof (proj1 (snapshot_read_bytes_spec s a n bs Hwf Hok Hn) Hr) as (_ & _ & Hb). auto.
Qed.

Lemma snapshot_tls_keyed s : tls_keyed s.
Proof. intros rg sym rg' sym' Hf Hn. simpl. unfold snapshot_tls_var_addr. by rewrite Hf, Hn. Qed.

(** A captured read and what [readable_len] says of its address. *)
Lemma snapshot_readable_len_spec s a n max :
  runs_wf (extent <$> memory s) → Forall seg_ok (memory s) →
  0 < n <= max →
  (∃ bs, snapshot_read_bytes s a n = Ok bs) ↔ n <= snapshot_readable_len s a max.
Proof.
  intros Hwf Hok Hn. unfold snapshot_read_bytes, snapshot_readable_len, checked_add.
  destruct (segment s a) as [g|] eqn:Eg.
  - apply segment_in_Some in Eg as [Hg Hx]; [|done].
    rewrite Forall_forall in Hok. specialize (Hok g Hg) as Hgok. destruct Hgok as [??].
    rewrite seg_end_small by done. rewrite u64_sub_small by (unfold is_u64, blen in *; lia).
    destruct (Z.ltb_spec (a + n) W64) as [Hlt|Hge]; simpl.
    + rewrite seg_end_small by done. destruct (Z.leb_spec (a + n) (addr g + blen g)); [|split; [by intros [??]|lia]].
      unfold slice, blen in *.
      rewrite (proj2 (Z.leb_le 0 (a - _))), (proj2 (Z.leb_le 0 n)),
        (proj2 (Z.leb_le (_ + _) _)) by lia. simpl. split; [lia|by eauto].
    + split; [by intros [??]|lia].
  - split; [|lia]. intros [bs Hbs]. by destruct (if _ <? _ then _ else _).
Qed.

(** ** Properties *)

(** C3: a snapshot replays its recording.  Whatever sequence of reads, symbol
    lookups and thread-local lookups an analysis drives through a recorder over
    an unchanging target, the recorder never panics, neither does assembling
    the snapshot, and the snapshot gives again what every nonempty read the target
    served gave, what every symbol lookup found, and every thread-local's address or
    its refusal.  What it serves beyond the reads of the sequence is exact: a nonempty
    read is served when each of its bytes is one that some read of the sequence
    served, and then with the target's bytes, and an empty read at such a byte; so a
    read the target refused is served only where others served all of it. *)
Theorem recording_replays `{Target T} (t : T) (mem : Z → option Byte.byte)
    (he : RecordedHeapEvidence) (qs : list request) :
  coherent t mem → tls_keyed t →
  ∃ r, serve_all (recorder_new t) qs = Ret r ∧
    recorder_snapshot r he ≠ Panic ∧
    ∀ s, recorder_snapshot r he = Ret (Ok s) →
      (∀ q, q ∈ qs → replays t s q) ∧ serves_captured t mem s qs.
Proof.
  intros Hcoh Hkey.
  destruct (serve_all_recording t mem Hcoh qs (recorder_new t)) as (r & Hr & Hrec & Hx & Hqs & _);
    [apply recording_new|].
  exists r. split; [done|]. split.
  - unfold recorder_snapshot.
    destruct (merge_reads_spec (reads (log r)) (rec_ok _ _ _ Hrec)) as (m & -> & _).
    by repeat case_match.
  - intros s Hs. split; [intros q Hq; by eapply snapshot_replays; eauto|].
    eapply snapshot_serves_captured; [done..|]. intros x. rewrite Hx.
    split; [by intros [[? [=]]|?]|by right].
Qed.

(** Merging a log whose reads lie in the address space never indexes out of
    range; the segments are in address order with a gap between any two, so
    every captured stretch is one segment; and each byte is the one the latest
    read covering it served, with nothing captured elsewhere. *)
Theorem merge_reads_correct (l : list Segment) :
  Forall seg_ok l →
  ∃ mem, merge_reads l = Ret mem ∧
    StronglySorted (λ a b, addr a + blen a < addr b) mem ∧
    ∀ x, mem_byte mem x = log_byte l x.
Proof.
  intros Hok. destruct (merge_reads_spec l Hok) as (mem & Hm & [Hs _] & _ & Hb).
  exists mem. split; [done|]. split; [|done].
  clear -Hs. induction mem as [|g mem IH]; [constructor|].
  rewrite fmap_cons in Hs. apply StronglySorted_cons in Hs as [Hg Hs].
  constructor; [by apply IH|]. by rewrite !Forall_fmap in Hg.
Qed.

(** Folding a read into the covered runs never misses a key it removes,
    keeps the runs in order with a gap between any two, and adds exactly the
    read's bytes; and on such runs [covers] says exactly whether every byte of
    a nonempty read is already logged. *)
Theorem covered_runs_exact (m : list (Z * Z)) (a e : Z) :
  runs_wf m → a < e →
  (covers_in m a e = true ↔ ∀ x, a <= x < e → run_mem m x) ∧
  ∃ m', cover_in m a e = Ret m' ∧ runs_wf m' ∧
    ∀ x, run_mem m' x ↔ run_mem m x ∨ a <= x < e.
Proof. intros Hwf Hlt. split; [by apply covers_in_spec|]. apply cover_in_spec; [done|lia]. Qed.

(** Over a merged memory a nonempty read is served exactly when it stays in
    the address space and every byte of it is captured, and then with those
    bytes. *)
Theorem snapshot_read_exact (s : Snapshot) (a n : Z) (bs : list Byte.byte) :
  runs_wf (extent <$> memory s) → Forall seg_ok (memory s) → 0 < n →
  snapshot_read_bytes s a n = Ok bs ↔
  Z.of_nat (length bs) = n ∧ a + n < W64 ∧
  ∀ i, (i < length bs)%nat → mem_byte (memory s) (a + Z.of_nat i) = bs !! i.
Proof. apply snapshot_read_bytes_spec. Qed.

(** [readable_len] is the exact bound on what a read at an address can
    serve: a nonempty read of at most [max] bytes succeeds if and only if it is
    no longer than [readable_len]. *)
Theorem snapshot_readable_len_exact (s : Snapshot) (a n max : Z) :
  runs_wf (extent <$> memory s) → Forall seg_ok (memory s) → 0 < n <= max →
  (∃ bs, snapshot_read_bytes s a n = Ok bs) ↔ n <= snapshot_readable_len s a max.
Proof. apply snapshot_readable_len_spec. Qed.

(** ** Witnesses *)

Definition demo_memory : list Segment :=
  [mkSegment 16 [Byte.x01; Byte.x02; Byte.x03]; mkSegment 32 [Byte.x07; Byte.x08]].

Definition demo_snapshot : Snapshot :=
  mkSnapshot demo_memory [] [] ∅ ∅ ∅ [] [] None Available None.

Lemma demo_wf : runs_wf (extent <$> memory demo_snapshot) ∧ Forall seg_ok (memory demo_snapshot).
Proof. split; [split|]; repeat constructor; vm_compute; congruence. Qed.

Definition demo_requests : list request :=
  [ReadBytes 16 2; ReadBytes 17 2; SymbolByName "main"; ReadBytes 32 2; ReadBytes 16 3; ReadBytes 18 4].

Lemma recording_replays_witness :
  ∃ r s, serve_all (recorder_new demo_snapshot) demo_requests = Ret r ∧
    recorder_snapshot r Unavailable = Ret (Ok s) ∧
    memory s = demo_memory ∧
    read_bytes s 16 3 = Ok [Byte.x01; Byte.x02; Byte.x03] ∧
    serves_captured demo_snapshot (mem_byte demo_memory) s demo_requests.
Proof.
  destruct demo_wf as [Hwf Hok].
  destruct (recording_replays demo_snapshot _ Unavailable demo_requests
              (snapshot_coherent _ Hwf Hok) (snapshot_tls_keyed _)) as (r & Hr & _ & Hall).
  vm_compute in Hr. injection Hr as <-.
  eexists _, _. split; [vm_compute; reflexivity|]. split; [vm_compute; reflexivity|].
  split; [vm_compute; reflexivity|]. split.
  - refine (proj1 (Hall _ _) (ReadBytes 16 3) _ _ _ _).
    + vm_compute. reflexivity.
    + do 4 right. left.
    + lia.
    + vm_compute. reflexivity.
  - refine (proj2 (Hall _ _)). vm_compute. reflexivity.
Defined.

(** A refused read that two reads of the sequence cover: this target serves two adjacent
    bytes apart and refuses them together, and its recording serves them together. *)
Definition split_memory : list Segment := [mkSegment 0 [Byte.x01]; mkSegment 1 [Byte.x02]].
Definition split_snapshot : Snapshot :=
  mkSnapshot split_memory [] [] ∅ ∅ ∅ [] [] None Available None.

Example refused_read_served :
  read_bytes split_snapshot 0 2 = Err (Unmapped 0 2) ∧
  match r ← serve_all (recorder_new split_snapshot) [ReadBytes 0 1; ReadBytes 1 1; ReadBytes 0 2];
        recorder_snapshot r Unavailable with
  | Ret (Ok s) => read_bytes s 0 2 = Ok [Byte.x01; Byte.x02]
  | _ => False
  end.
Proof. vm_compute. done. Qed.

Lemma merge_reads_correct_witness :
  ∃ mem, merge_reads [mkSegment 4 [Byte.x01; Byte.x02]; mkSegment 5 [Byte.x09; Byte.x0a]] = Ret mem ∧
    mem = [mkSegment 4 [Byte.x01; Byte.x09; Byte.x0a]] ∧ mem_byte mem 5 = Some Byte.x09.
Proof.
  destruct (merge_reads_correct
    [mkSegment 4 [Byte.x01; Byte.x02]; mkSegment 5 [Byte.x09; Byte.x0a]]) as (mem & Hm & _ & Hb).
  { repeat constructor; vm_compute; congruence. }
  exists mem. split; [done|]. vm_compute in Hm. injection Hm as <-.
  split; [reflexivity|]. rewrite Hb. reflexivity.
Defined.

Lemma covered_runs_exact_witness :
  covers_in [(0, 4); (8, 12)] 2 4 = true ∧
  ∃ m', cover_in [(0, 4); (8, 12)] 4 9 = Ret m' ∧ m' = [(0, 12)] ∧ run_mem m' 6.
Proof.
  assert (runs_wf [(0, 4); (8, 12)]) as Hwf.
  { split; repeat constructor; vm_compute; congruence. }
  split.
  - apply (proj1 (covered_runs_exact [(0, 4); (8, 12)] 2 4 Hwf ltac:(lia))).
    intros x Hx. exists (0, 4). split; [left|simpl; lia].
  - destruct (covered_runs_exact [(0, 4); (8, 12)] 4 9 Hwf ltac:(lia)) as (_ & m' & Hm & _ & Hx).
    exists m'. split; [done|]. split; [vm_compute in Hm; congruence|].
    apply Hx. right. lia.
Defined.

Lemma snapshot_read_exact_witness :
  snapshot_read_bytes demo_snapshot 17 2 = Ok [Byte.x02; Byte.x03].
Proof.
  destruct demo_wf as [Hwf Hok].
  apply (snapshot_read_exact demo_snapshot 17 2 [Byte.x02; Byte.x03] Hwf Hok ltac:(lia)).
  split; [reflexivity|]. split; [lia|].
  intros [|[|i]] Hi; [reflexivity|reflexivity|simpl in Hi; lia].
Defined.

Lemma snapshot_readable_len_exact_witness :
  ∃ bs, snapshot_read_bytes demo_snapshot 17 2 = Ok bs.
Proof.
  destruct demo_wf as [Hwf Hok].
  apply (snapshot_readable_len_exact demo_snapshot 17 2 8 Hwf Hok ltac:(lia)).
  vm_compute. congruence.
Defined.
