(* ===== verification/CoreFile.v ===== *)
(** What both core readers share ([proc/src/coredump/common.rs]): the dumped
    and mapped parts of a segment, the line a symbol table entry has to pass,
    and the symbols of one object with their lookup by name.  goblin, which
    parses the ELF structures, is the class [Goblin].  Then the lookups against a
    scan, and the reads a slice of a file gives. *)

From S2P Require Import Prelude Text Target.

Local Open Scope Z_scope.

(** ** The ELF structures

    goblin's records, with the fields the readers use. *)
Record ProgramHeader := mkPhdr {
  p_type : Z;
  p_flags : Z;
  p_offset : Z;
  p_vaddr : Z;
  p_filesz : Z;
  p_memsz : Z;
  p_align : Z
}.

Record Sym := mkSym {
  sym_name : Z;
  sym_info : Z;
  sym_other : Z;
  sym_shndx : Z;
  sym_value : Z;
  sym_size : Z
}.

Record Note := mkNote { n_type : Z; desc : list Byte.byte }.

(** goblin parses a file whole, or gives an error the readers map away; a
    string table resolves an offset to a name or not. *)
Class Goblin := {
  Elf : Type;
  elf_parse : list Byte.byte → option Elf;
  e_type : Elf → Z;
  program_headers : Elf → list ProgramHeader;
  syms : Elf → list Sym;
  strtab : Elf → Z → option string;
  dynsyms : Elf → list Sym;
  dynstrtab : Elf → Z → option string;
  (* [Elf::iter_note_headers], each note parsed or malformed *)
  note_headers : Elf → list Byte.byte → list (option Note);
  (* [Elf::parse_header] and [ProgramHeader::parse] of a file's own headers *)
  parse_phdrs : list Byte.byte → option (list ProgramHeader)
}.

Definition ET_CORE : Z := 4.
Definition PT_LOAD : Z := 1.
Definition PT_NOTE : Z := 4.
Definition PT_TLS : Z := 7.
Definition PF_X : Z := 1.
Definition PF_W : Z := 2.
Definition PF_R : Z := 4.
Definition STB_WEAK : Z := 2.
Definition STT_OBJECT : Z := 1.
Definition STT_FUNC : Z := 2.

Definition st_bind (s : Sym) : Z := Z.shiftr (sym_info s) 4.
Definition st_type (s : Sym) : Z := Z.land (sym_info s) 15.

(** ** Segments *)

Record Segment := mkSegment {
  seg_vaddr : Z;
  seg_memsz : Z;
  seg_filesz : Z;
  seg_offset : Z;
  seg_flags : Z
}.

Definition dumped (s : Segment) : range :=
  Range (seg_vaddr s) (u64_add (seg_vaddr s) (seg_filesz s)).
Definition seg_range (s : Segment) : range :=
  Range (seg_vaddr s) (u64_add (seg_vaddr s) (seg_memsz s)).

(** [slice::get] of the range [start..end_]. *)
Definition get_range {A} (l : list A) (start end_ : Z) : option (list A) :=
  slice l start (end_ - start).

(** [slice::get] of [start..start + len] in words.  A sum that wraps gives a
    range that ends before it starts, which [get] answers with nothing
    ([get_from_wrapping]). *)
Definition get_from {A} (l : list A) (start len : Z) : option (list A) :=
  if start + len <? W64 then slice l start len else None.

(** ** Symbols *)

Definition names_something (nm : string) (s : Sym) : bool :=
  negb (String.eqb nm EmptyString) && negb (st_bind s =? STB_WEAK)
  && (negb (sym_value s =? 0) || (st_type s =? STT_TLS)).

Record Symbols := mkSymbols {
  functions : list SymbolBuf;
  objects : list SymbolBuf
}.

Definition Symbols_default : Symbols := mkSymbols [] [].

(** A position of the functions-then-objects chain. *)
Definition at_ (s : Symbols) (position : Z) : outcome SymbolBuf :=
  let p := Z.to_nat position in
  match functions s !! p with
  | Some sym => Ret sym
  | None => or_panic (objects s !! (p - length (functions s))%nat)
  end.

(** The positions with the names they sort by. *)
Fixpoint keyed (s : Symbols) (ps : list Z) : outcome (list (Z * string)) :=
  match ps with
  | [] => Ret []
  | p :: ps => sym ← at_ s p; rest ← keyed s ps; Ret ((p, name sym) :: rest)
  end.

(** The index a first lookup builds; a later one builds the same. *)
Definition by_name (s : Symbols) : outcome (list (Z * string)) :=
  let n := as_u32 (Z.of_nat (length (functions s)) + Z.of_nat (length (objects s))) in
  ks ← keyed s (z_range 0 (Z.to_nat n));
  Ret (sort_by (λ a b, String.leb a.2 b.2) ks).

Definition find_by_name (s : Symbols) (nm : string) : outcome (option SymbolBuf) :=
  index ← by_name s;
  let lo := partition_point (λ k, String.ltb k.2 nm) index in
  match index !! lo with
  | None => Ret None
  | Some k =>
      sym ← at_ s k.1;
      Ret (if String.eqb (name sym) nm then Some sym else None)
  end.

(** ** Slices *)

Lemma get_range_Some {A} (l : list A) s e l' :
  get_range l s e = Some l' ↔
    0 <= s <= e ∧ e <= Z.of_nat (length l) ∧
    l' = take (Z.to_nat (e - s)) (drop (Z.to_nat s) l).
Proof.
  unfold get_range, slice. destruct (_ && _)%bool eqn:E.
  - zb. split; [intros [= <-]; split_and!; [lia..|done]|]. by intros (? & ? & ->).
  - split; [done|]. intros (? & ? & ->).
    rewrite !andb_false_iff, !Z.leb_gt in E. lia.
Qed.

Lemma get_range_lookup {A} (l : list A) s e l' i :
  get_range l s e = Some l' → 0 <= i < e - s →
  l' !! Z.to_nat i = l !! Z.to_nat (s + i).
Proof.
  intros (? & ? & ->)%get_range_Some Hi.
  rewrite lookup_take_lt, lookup_drop by lia. f_equal. lia.
Qed.

Lemma get_range_length {A} (l : list A) s e l' :
  get_range l s e = Some l' → Z.of_nat (length l') = e - s.
Proof. apply length_slice. Qed.

Lemma get_from_wrapping {A} (l : list A) s n :
  is_u64 s → is_u64 n → Z.of_nat (length l) < W64 →
  get_from l s n = get_range l s (u64_add s n).
Proof.
  intros Hs Hn Hl. unfold get_from, get_range, slice, u64_add.
  destruct (Z.ltb_spec (s + n) W64) as [Hlt|Hge].
  - rewrite Z.mod_small by (unfold is_u64 in *; lia). by replace (s + n - s) with n by lia.
  - replace ((s + n) `mod` W64) with (s + n - W64)
      by (apply Z.mod_unique with 1; unfold is_u64 in *; lia).
    replace (0 <=? s + n - W64 - s) with false; [by rewrite andb_false_r|].
    symmetry. zb. unfold is_u64 in *. lia.
Qed.

Lemma get_from_Some {A} (l : list A) s n l' :
  get_from l s n = Some l' ↔
    0 <= s ∧ 0 <= n ∧ s + n < W64 ∧ s + n <= Z.of_nat (length l) ∧
    l' = take (Z.to_nat n) (drop (Z.to_nat s) l).
Proof.
  unfold get_from, slice. destruct (Z.ltb_spec (s + n) W64); [|naive_solver lia].
  destruct (_ && _)%bool eqn:E.
  - zb. split; [intros [= <-]; split_and!; [lia..|done]|]. by intros (? & ? & ? & ? & ->).
  - split; [done|]. intros (? & ? & ? & ? & ->).
    rewrite !andb_false_iff, !Z.leb_gt in E. lia.
Qed.

Lemma get_from_lookup {A} (l : list A) s n l' i :
  get_from l s n = Some l' → 0 <= i < n →
  l' !! Z.to_nat i = l !! Z.to_nat (s + i).
Proof.
  intros (? & ? & ? & ? & ->)%get_from_Some Hi.
  rewrite lookup_take_lt, lookup_drop by lia. f_equal. lia.
Qed.

Lemma get_from_length {A} (l : list A) s n l' :
  get_from l s n = Some l' → Z.of_nat (length l') = n.
Proof. intros (? & ? & ? & ? & ->)%get_from_Some. rewrite length_take, length_drop. lia. Qed.

(** [sort_by_key] of a word. *)
Lemma sort_by_key_sorted {A} (k : A → Z) l :
  StronglySorted (λ a b, k a <= k b) (sort_by (λ a b, k a <=? k b) l).
Proof.
  assert (StronglySorted (λ a b, (k a <=? k b) = true) (sort_by (λ a b, k a <=? k b) l)) as Hs.
  { apply sort_by_sorted; intros *; rewrite !Z.leb_le; lia. }
  induction Hs as [|a l' _ IH Ha]; constructor; [done|].
  eapply Forall_impl; [exact Ha|]. intros b Hb. by apply Z.leb_le.
Qed.

(** ** Lookup by name *)

Definition chain (s : Symbols) : list SymbolBuf := functions s ++ objects s.

Lemma at_chain s p : at_ s p = or_panic (chain s !! Z.to_nat p).
Proof.
  unfold at_, chain. destruct (functions s !! Z.to_nat p) as [x|] eqn:E.
  - by rewrite (lookup_app_l_Some _ _ _ _ E).
  - apply lookup_ge_None in E. by rewrite lookup_app_r.
Qed.

Lemma keyed_Ret s ps :
  Forall (λ p, 0 <= p < Z.of_nat (length (chain s))) ps →
  ∃ ks, keyed s ps = Ret ks ∧
    Forall2 (λ p k, k.1 = p ∧ ∃ sym, chain s !! Z.to_nat p = Some sym ∧ k.2 = name sym) ps ks.
Proof.
  induction 1 as [|p ps Hp _ (ks & IH & HF)]; simpl; [by exists []|].
  destruct (lookup_lt_is_Some_2 (chain s) (Z.to_nat p)) as [sym Hsym]; [lia|].
  rewrite at_chain, Hsym. simpl. rewrite outcome_bind_eq, IH.
  eexists. split; [done|]. constructor; [|done]. simpl. eauto.
Qed.

Definition key_leb (a b : Z * string) : bool := String.leb a.2 b.2.

Lemma key_leb_sort ks :
  StronglySorted (λ a b, key_leb a b = true) (sort_by key_leb ks).
Proof.
  apply sort_by_sorted; unfold key_leb; [|eauto].
  intros x y. apply String.leb_total.
Qed.

(** The entry at the partition point of a sorted index is its first of the
    name, if it has one. *)
Lemma sorted_first nm idx :
  StronglySorted (λ a b, key_leb a b = true) idx →
  match idx !! partition_point (λ k, String.ltb k.2 nm) idx with
  | Some k => if String.eqb k.2 nm then Some k else None
  | None => None
  end = find_first (λ k, String.eqb k.2 nm) idx.
Proof.
  unfold key_leb. induction 1 as [|y l Hs IH Hy]; [done|]. simpl.
  destruct (String.ltb y.2 nm) eqn:Elt; simpl.
  - rewrite IH. destruct (String.eqb_spec y.2 nm) as [E|]; [|done].
    rewrite string_ltb_leb, E, string_leb_refl in Elt. done.
  - destruct (String.eqb_spec y.2 nm) as [|Hne]; [done|]. symmetry.
    apply find_first_None. intros x Hx. rewrite Forall_forall in Hy.
    apply String.eqb_neq. intros <-. apply Hne, String.leb_antisym; [by apply Hy|].
    rewrite string_ltb_leb in Elt. by apply negb_false_iff in Elt.
Qed.

Lemma sort_first nm ks :
  find_first (λ k, String.eqb k.2 nm) (sort_by key_leb ks) =
  find_first (λ k : Z * string, String.eqb k.2 nm) ks.
Proof.
  rewrite !find_first_filter.
  rewrite (sort_by_stable key_leb (λ k, String.eqb k.2 nm)); [done|].
  intros x y Ex%String.eqb_eq Ey%String.eqb_eq. unfold key_leb. rewrite Ex, Ey. eauto.
Qed.

(** The scan of the keys is the scan of the chain. *)
Lemma keys_first s nm (off : nat) ks :
  Forall2 (λ p k, k.1 = p ∧ ∃ sym, chain s !! Z.to_nat p = Some sym ∧ k.2 = name sym)
    (z_range (Z.of_nat off) (length (chain s) - off)) ks →
  match find_first (λ k, String.eqb k.2 nm) ks with
  | Some k => chain s !! Z.to_nat k.1
  | None => None
  end = find_first (λ sym, String.eqb (name sym) nm) (drop off (chain s)).
Proof.
  remember (length (chain s) - off)%nat as n eqn:En. revert off ks En.
  induction n as [|n IH]; intros off ks En HF; simpl in HF.
  - inversion HF; subst. by rewrite drop_ge by lia.
  - inversion HF as [|p k ps ks' [Ek (sym & Hsym & Ename)] HF']; subst.
    rewrite Nat2Z.id in Hsym.
    rewrite (drop_S _ sym) by done. simpl. rewrite Ename.
    destruct (String.eqb (name sym) nm) eqn:E; [by rewrite Ek, Nat2Z.id|].
    replace (Z.of_nat off + 1) with (Z.of_nat (S off)) in HF' by lia.
    apply IH; [lia|done].
Qed.

(** By-name lookup is the scan of the chain, on any table whose positions fit
    the index. *)
Lemma find_by_name_scan s nm :
  is_u32 (Z.of_nat (length (chain s))) →
  find_by_name s nm = Ret (find_first (λ sym, String.eqb (name sym) nm) (chain s)).
Proof.
  intros Hn. unfold find_by_name, by_name.
  rewrite <-Nat2Z.inj_add, <-length_app. fold (chain s).
  unfold as_u32. rewrite (Z.mod_small _ W32 Hn), Nat2Z.id.
  destruct (keyed_Ret s (z_range 0 (length (chain s)))) as (ks & Hks & HF).
  { apply Forall_forall. intros p Hp%elem_of_z_range. lia. }
  rewrite Hks. rewrite outcome_bind_eq; cbv beta iota.
  cbv zeta. change (λ a b : Z * string, String.leb a.2 b.2) with key_leb.
  rewrite (outcome_bind_eq _ (Ret ks)); cbv beta iota.
  pose proof (sorted_first nm _ (key_leb_sort ks)) as Hfirst.
  rewrite sort_first in Hfirst. change (Z.of_nat 0) with 0 in *.
  pose proof (keys_first s nm 0 ks) as Hkeys. rewrite Nat.sub_0_r in Hkeys.
  specialize (Hkeys HF). rewrite drop_0 in Hkeys. rewrite <-Hkeys, <-Hfirst.
  destruct (sort_by key_leb ks !! _) as [k|] eqn:Ek; [|done].
  assert (k ∈ ks) as Hin.
  { rewrite <-(sort_by_perm key_leb ks). by eapply list_elem_of_lookup_2. }
  apply list_elem_of_lookup_1 in Hin as [i Hi].
  destruct (Forall2_lookup_r _ _ _ _ _ HF Hi) as (p & _ & Ep & sym & Hsym & Ename).
  rewrite at_chain, Ep, Hsym, Ename. simpl.
  destruct (String.eqb (name sym) nm); [|done]. by rewrite Ep, Hsym.
Qed.
