(* ===== verification/LinuxCore.v ===== *)
(** A Linux core ([proc/src/coredump/linux.rs]): its notes, the files it names,
    the mappings and the executable they give, its memory reads, its symbols
    and thread-locals, and the [Target] it is.

    The file system is the parameter [open_file]: a path gives the bytes of the
    file there, or why it did not open.  An open file is its bytes, as the
    source assumes of everything it maps. *)

From stdpp Require Import gmap.
From S2P Require Import Prelude Text Target CoreFile.

Local Open Scope Z_scope.

Definition NT_PRSTATUS : Z := 1.
Definition NT_PRPSINFO : Z := 3.
Definition NT_AUXV : Z := 6.
Definition NT_SIGINFO : Z := 1397311305.
Definition NT_FILE : Z := 1179208773.

Definition AT_NULL : Z := 0.
Definition AT_PHDR : Z := 3.
Definition AT_EXECFN : Z := 31.

Definition PRPSINFO_LEN : Z := 136.
Definition PRPSINFO_PR_UID : Z := 16.
Definition PRPSINFO_PR_GID : Z := 20.
Definition PRPSINFO_PR_PID : Z := 24.
Definition PRPSINFO_PR_PPID : Z := 28.
Definition PRPSINFO_PR_FNAME : Z := 40.
Definition PRPSINFO_FNAME_LEN : Z := 16.
Definition PRPSINFO_PR_PSARGS : Z := 56.
Definition PRPSINFO_PSARGS_LEN : Z := 80.

Definition PR_PID : Z := 32.
Definition PR_CURSIG : Z := 12.
Definition PR_REG : Z := 112.
Definition PR_REG_COUNT : nat := 27.
Definition PRSTATUS_LEN : Z := PR_REG + Z.of_nat PR_REG_COUNT * 8 + 8.

Definition SI_SIGNO : Z := 0.
Definition SI_CODE : Z := 8.
Definition SI_ADDR : Z := 16.
Definition SIGINFO_LEN : Z := 128.

Definition SIGNAL_NAMES : list string :=
  ["SIGHUP"; "SIGINT"; "SIGQUIT"; "SIGILL"; "SIGTRAP"; "SIGABRT";
   "SIGBUS"; "SIGFPE"; "SIGKILL"; "SIGUSR1"; "SIGSEGV"; "SIGUSR2";
   "SIGPIPE"; "SIGALRM"; "SIGTERM"; "SIGSTKFLT"; "SIGCHLD"; "SIGCONT";
   "SIGSTOP"; "SIGTSTP"; "SIGTTIN"; "SIGTTOU"; "SIGURG"; "SIGXCPU";
   "SIGXFSZ"; "SIGVTALRM"; "SIGPROF"; "SIGWINCH"; "SIGIO"; "SIGPWR";
   "SIGSYS"]%string.
Definition RT_SIGNAL_NAMES : list string :=
  ["SIG32"; "SIG33"; "SIGRTMIN"; "SIGRTMIN+1"; "SIGRTMIN+2";
   "SIGRTMIN+3"; "SIGRTMIN+4"; "SIGRTMIN+5"; "SIGRTMIN+6"; "SIGRTMIN+7";
   "SIGRTMIN+8"; "SIGRTMIN+9"; "SIGRTMIN+10"; "SIGRTMIN+11";
   "SIGRTMIN+12"; "SIGRTMIN+13"; "SIGRTMIN+14"; "SIGRTMIN+15";
   "SIGRTMAX-14"; "SIGRTMAX-13"; "SIGRTMAX-12"; "SIGRTMAX-11";
   "SIGRTMAX-10"; "SIGRTMAX-9"; "SIGRTMAX-8"; "SIGRTMAX-7";
   "SIGRTMAX-6"; "SIGRTMAX-5"; "SIGRTMAX-4"; "SIGRTMAX-3"; "SIGRTMAX-2";
   "SIGRTMAX-1"; "SIGRTMAX"]%string.

(** [signo] is an [i32]: its least has no predecessor, and a negative
    predecessor no index. *)
Definition signal_name (signo : Z) : option string :=
  let index := signo - 1 in
  if index <? 0 then None
  else
    match SIGNAL_NAMES !! Z.to_nat index with
    | Some n => Some n
    | None => RT_SIGNAL_NAMES !! Z.to_nat (index - Z.of_nat (length SIGNAL_NAMES))
    end.

(** An [i16] of a 16-bit word. *)
Definition as_i16 (w : Z) : Z := if w <? 32768 then w else w - 65536.

(** [from_le_bytes] of [n] bytes of a note, indexed. *)
Definition field (d : list Byte.byte) (at_ n : Z) : outcome Z :=
  bs ← or_panic (slice d at_ n); Ret (from_le_bytes bs).

(** ** A thread's note *)

Definition from_user_regs (l : list Z) : Regs :=
  let r i := nth i l 0 in
  {| r15 := r 0%nat; r14 := r 1%nat; r13 := r 2%nat; r12 := r 3%nat;
     rbp := r 4%nat; rbx := r 5%nat; r11 := r 6%nat; r10 := r 7%nat;
     r9 := r 8%nat; r8 := r 9%nat; rax := r 10%nat; rcx := r 11%nat;
     rdx := r 12%nat; rsi := r 13%nat; rdi := r 14%nat; rip := r 16%nat;
     cs := r 17%nat; rfl := r 18%nat; rsp := r 19%nat; ss := r 20%nat;
     fsbase := r 21%nat; gsbase := r 22%nat; ds := r 23%nat; es := r 24%nat;
     fs := r 25%nat; gs := r 26%nat; trapno := 0; err := 0 |}.

(** The first [n] whole words of the bytes, as [as_chunks] and [take] give
    them. *)
Fixpoint note_words (n : nat) (bs : list Byte.byte) : list Z :=
  match n with
  | O => []
  | S n => if (length bs <? 8)%nat then []
           else from_le_bytes (take 8 bs) :: note_words n (drop 8 bs)
  end.

Definition parse_prstatus (d : list Byte.byte) : outcome (Result LwpInfo) :=
  if negb (Z.of_nat (length d) =? PRSTATUS_LEN) then
    Ret (Err (BadCore "NT_PRSTATUS is not the size Linux writes; this core came from another system"))
  else
    t ← field d PR_PID 4;
    Ret (Ok {| tid := t;
               regs := from_user_regs (note_words PR_REG_COUNT (drop (Z.to_nat PR_REG) d));
               stack_range := Range 0 0;
               altstack := Range 0 0;
               tstamp := mkTimespec 0 0 |}).

(** ** A cursor over a note *)

Record Cursor := mkCursor { bytes : list Byte.byte; pos : Z }.

Definition cursor_new (b : list Byte.byte) : Cursor := mkCursor b 0.
Definition remaining (c : Cursor) : Z := Z.of_nat (length (bytes c)) - pos c.

Definition cursor_take (c : Cursor) (len : Z) : Result (list Byte.byte * Cursor) :=
  match checked_add (pos c) len with
  | Some end_ =>
      if end_ <=? Z.of_nat (length (bytes c)) then
        Ok (take (Z.to_nat len) (drop (Z.to_nat (pos c)) (bytes c)),
            mkCursor (bytes c) end_)
      else Err (BadCore "note ends mid-field")
  | None => Err (BadCore "note ends mid-field")
  end.

Definition cursor_u64 (c : Cursor) : Result (Z * Cursor) :=
  '(bs, c) ← cursor_take c 8; Ok (from_le_bytes bs, c).

Definition cursor_cstr (c : Cursor) : Result (string * Cursor) :=
  let rest := drop (Z.to_nat (pos c)) (bytes c) in
  match find_position (λ b, byte_Z b =? 0) rest with
  | None => Err (BadCore "unterminated string in NT_FILE")
  | Some len =>
      match from_utf8 (take len rest) with
      | Some s => Ok (s, mkCursor (bytes c) (pos c + Z.of_nat len + 1))
      | None => Err (BadCore "non-UTF-8 mapping path")
      end
  end.

(** ** The file table *)

Record FileMap := mkFileMap { fm_range : range; fm_offset : Z; fm_path : string }.

(** [Vec::with_capacity] of triples of words: past [isize::MAX] bytes it
    panics. *)
Definition with_capacity_triples (count : Z) : outcome unit :=
  if count * 24 <=? 9223372036854775807 then Ret tt else Panic.

Fixpoint nt_ranges (n : nat) (page_size : Z) (c : Cursor)
    : Result (list (Z * Z * Z) * Cursor) :=
  match n with
  | O => Ok ([], c)
  | S n =>
      '(start, c) ← cursor_u64 c;
      '(end_, c) ← cursor_u64 c;
      '(pages, c) ← cursor_u64 c;
      '(rest, c) ← nt_ranges n page_size c;
      Ok ((start, end_, u64_mul pages page_size) :: rest, c)
  end.

Fixpoint nt_paths (ranges : list (Z * Z * Z)) (c : Cursor) : Result (list FileMap) :=
  match ranges with
  | [] => Ok []
  | (start, end_, offset) :: ranges =>
      '(p, c) ← cursor_cstr c;
      rest ← nt_paths ranges c;
      Ok (mkFileMap (Range start end_) offset p :: rest)
  end.

Definition parse_nt_file (d : list Byte.byte) (files : list FileMap)
    : outcome (Result (list FileMap)) :=
  match ('(count, c) ← cursor_u64 (cursor_new d);
         '(page_size, c) ← cursor_u64 c;
         Ok (count, page_size, c)) with
  | Err e => Ret (Err e)
  | Ok (count, page_size, c) =>
      _ ← with_capacity_triples count;
      Ret ('(ranges, c) ← nt_ranges (Z.to_nat count) page_size c;
           maps ← nt_paths ranges c;
           Ok (files ++ maps))
  end.

(** ** The auxiliary vector

    Every turn takes sixteen bytes, so the length of the note is enough
    fuel. *)
Fixpoint parse_auxv (fuel : nat) (c : Cursor) (auxv : gmap Z Z) : Result (gmap Z Z) :=
  match fuel with
  | O => Ok auxv
  | S fuel =>
      if 16 <=? remaining c then
        '(tag, c) ← cursor_u64 c;
        '(val, c) ← cursor_u64 c;
        if tag =? AT_NULL then Ok auxv
        else parse_auxv fuel c (<[tag := val]> auxv)
      else Ok auxv
  end.

(** ** The fatal signal *)

Definition decode_fatal_signal (cursig t : Z) (siginfo : option (Z * Z * Z))
    : option FatalSignal :=
  if cursig =? 0 then None
  else
    n ← signal_name cursig;
    let '(cd, addr) :=
      match siginfo with
      | Some (si_signo, si_code, si_addr) =>
          if si_signo =? cursig then (si_code, si_addr) else (0, 0)
      | None => (0, 0)
      end in
    let cname := fault_code_name n cd in
    let p := as_i32 (as_u32 addr) in
    Some {| sig_name := n;
            signo := cursig;
            code := cd;
            code_name := cname;
            fault_addr := if bool_decide (cname = None) then None else Some addr;
            sig_lwp := Some t;
            sender := if (cd <=? 0) && negb (p =? 0) then Some p else None |}.

(** ** Build ids *)

Definition next_multiple_of (x m : Z) : Z :=
  let r := x `mod` m in if r =? 0 then x else u64_add x (m - r).

(** The walk of a note segment; a turn moves at least twelve bytes, so the
    length is enough fuel.  [None] is fuel exhausted.  The sizes are [u32]s and
    the position inside a slice, so no sum leaves a word. *)
Fixpoint build_id_from (fuel : nat) (notes : list Byte.byte) (at_ : Z)
    : option (option (list Byte.byte)) :=
  match fuel with
  | O => None
  | S fuel =>
      if at_ + 12 <=? Z.of_nat (length notes) then
        let word i := from_le_bytes <$> get_range notes i (i + 4) in
        match word at_, word (at_ + 4), word (at_ + 8) with
        | Some namesz, Some descsz, Some kind =>
            match get_range notes (at_ + 12) (at_ + 12 + namesz) with
            | None => Some None
            | Some nm =>
                let d := at_ + 12 + next_multiple_of namesz 4 in
                if (kind =? 3)
                   && bool_decide (take 4 nm = [Byte.x47; Byte.x4e; Byte.x55; Byte.x00])
                then Some (get_range notes d (d + descsz))
                else build_id_from fuel notes (d + next_multiple_of descsz 4)
            end
        | _, _, _ => Some None
        end
      else Some None
  end.

Definition build_id_in_notes (notes : list Byte.byte) : option (list Byte.byte) :=
  default None (build_id_from (S (length notes)) notes 0).

(** ** The core *)

Record ExecInfo := mkExec { ei_path : string; ei_bias : Z; ei_tls_block : Z }.

(** A backing file is the bytes mapped from it, or why it is not in use.  The
    symbols a file caches on first use are a function of the opened core, which
    does not change, and are computed where they are asked for. *)
Inductive Backing :=
  | InUse (map : list Byte.byte)
  | Problem (why : string).

Record Core := mkCore {
  c_core : list Byte.byte;
  c_segments : list Segment;
  c_files : list FileMap;
  c_backing : gmap string Backing;
  c_mappings : Mappings;
  c_lwps : list LwpInfo;
  c_fatal : option FatalSignal;
  c_exec : option ExecInfo;
  c_facts : option ProcessFacts
}.

(** *** Reads *)

Definition file_at (files : list FileMap) (addr : Z) : option FileMap :=
  let idx := partition_point (λ f, r_start (fm_range f) <=? addr) files in
  match idx with
  | O => None
  | S i => f ← files !! i; if addr <? r_end (fm_range f) then Some f else None
  end.

Definition segment_at (segs : list Segment) (addr : Z) : option Segment :=
  let idx := partition_point (λ s, seg_vaddr s <=? addr) segs in
  match idx with
  | O => None
  | S i => s ← segs !! i; if addr <? r_end (seg_range s) then Some s else None
  end.

(** The segment whose dumped part holds an address. *)
Definition dumped_at (segs : list Segment) (addr : Z) : option Segment :=
  s ← segment_at segs addr;
  if range_contains (dumped s) addr then Some s else None.

Definition readable_until (c : Core) (addr : Z) : option Z :=
  match dumped_at (c_segments c) addr with
  | Some s => Some (r_end (dumped s))
  | None => (λ f, r_end (fm_range f)) <$> file_at (c_files c) addr
  end.

Definition core_readable_len (c : Core) (addr max : Z) : Z :=
  match readable_until c addr with
  | Some end_ => Z.min (u64_sub end_ addr) max
  | None => 0
  end.

Definition backing (c : Core) (p : string) : option (list Byte.byte) :=
  match c_backing c !! p with Some (InUse m) => Some m | _ => None end.

Definition segment_slice (core : list Byte.byte) (s : Segment) (addr len : Z)
    : option (list Byte.byte) :=
  let skip := u64_sub addr (seg_vaddr s) in
  if u64_sub (seg_filesz s) skip <? len then None
  else
    let start := u64_add (seg_offset s) skip in
    get_from core start len.

Definition pslice (c : Core) (addr len : Z) : option (list Byte.byte) :=
  match dumped_at (c_segments c) addr with
  | Some s => segment_slice (c_core c) s addr len
  | None =>
      f ← file_at (c_files c) addr;
      if u64_sub (r_end (fm_range f)) addr <? len then None
      else
        let start := u64_add (fm_offset f) (u64_sub addr (r_start (fm_range f))) in
        m ← backing c (fm_path f);
        get_from m start len
  end.

Definition dumped_slice (c : Core) (addr len : Z) : option (list Byte.byte) :=
  s ← dumped_at (c_segments c) addr;
  segment_slice (c_core c) s addr len.

Definition core_read_bytes (c : Core) (addr len : Z) : Result (list Byte.byte) :=
  match pslice c addr len with
  | Some bs => Ok bs
  | None => Err (Unmapped addr len)
  end.

(** A string of the target's memory; [n] is what is left of the 4096 bytes it
    may take. *)
Fixpoint read_cstr_from (c : Core) (n : nat) (at_ : Z) (out : list Byte.byte)
    : option string :=
  match n with
  | O => None
  | S n =>
      match core_read_bytes c at_ 1 with
      | Ok (b :: _) =>
          if byte_Z b =? 0 then from_utf8 out
          else read_cstr_from c n (u64_add at_ 1) (out ++ [b])
      | _ => None
      end
  end.

Definition read_cstr (c : Core) (at_ : Z) : option string :=
  if at_ =? 0 then None else read_cstr_from c 4096 at_ [].

(** *** Process facts *)

(** The bytes before the first zero, decoded. *)
Definition fixed_str (raw : list Byte.byte) : string :=
  from_utf8_lossy
    (match find_position (λ b, byte_Z b =? 0) raw with
     | Some end_ => take end_ raw
     | None => raw
     end).

Definition process_facts_from (c : Core) (d : list Byte.byte) (efn : option Z)
    : outcome ProcessFacts :=
  p ← field d PRPSINFO_PR_PID 4;
  pp ← field d PRPSINFO_PR_PPID 4;
  u ← field d PRPSINFO_PR_UID 4;
  g ← field d PRPSINFO_PR_GID 4;
  fn ← or_panic (slice d PRPSINFO_PR_FNAME PRPSINFO_FNAME_LEN);
  args ← or_panic (slice d PRPSINFO_PR_PSARGS PRPSINFO_PSARGS_LEN);
  Ret {| pid := as_i32 p; ppid := as_i32 pp; uid := u; gid := g;
         euid := None; egid := None; model := None; start := None;
         fname := fixed_str fn; psargs := fixed_str args;
         argv := None; env := None;
         execfn := a ← efn; read_cstr c a |}.

(** *** Choices by a key: the first of the least, the last of the greatest *)

Definition min_by_key {A} (k : A → Z) (l : list A) : option A :=
  match l with
  | [] => None
  | x :: l => Some (foldl (λ m y, if k y <? k m then y else m) x l)
  end.

Definition max_by_key {A} (k : A → Z) (l : list A) : option A :=
  match l with
  | [] => None
  | x :: l => Some (foldl (λ m y, if k m <=? k y then y else m) x l)
  end.

Definition min_of (l : list Z) : option Z := min_by_key id l.
Definition max_of (l : list Z) : option Z := max_by_key id l.

(** *** The build id the core recorded *)

Definition le_at (d : list Byte.byte) (a b : Z) : option Z :=
  from_le_bytes <$> get_range d a b.

Definition dumped_phdrs (c : Core) (base phoff phentsize : Z) (phnum : nat)
    : option (list (Z * Z * Z)) :=
  mapM (λ i,
    ph ← dumped_slice c (u64_add (u64_add base phoff) (u64_mul i phentsize)) 56;
    ty ← le_at ph 0 4;
    va ← le_at ph 16 24;
    fsz ← le_at ph 32 40;
    Some (ty, va, fsz)) (z_range 0 phnum).

Definition dumped_build_id (c : Core) (p : string) : option (list Byte.byte) :=
  base ← min_of ((λ f, r_start (fm_range f)) <$>
           filter (λ f, String.eqb (fm_path f) p && (fm_offset f =? 0) = true) (c_files c));
  header ← dumped_slice c base 64;
  if bool_decide (take 4 header = [Byte.x7f; Byte.x45; Byte.x4c; Byte.x46]) then
    phoff ← le_at header 32 40;
    phentsize ← le_at header 54 56;
    phnum ← le_at header 56 58;
    phdrs ← dumped_phdrs c base phoff phentsize (Z.to_nat phnum);
    lowest ← min_of ((λ ph, ph.1.2) <$> filter (λ ph : Z * Z * Z, ph.1.1 = PT_LOAD) phdrs);
    let bias := u64_sub base lowest in
    find_map (λ ph : Z * Z * Z,
      notes ← dumped_slice c (u64_add ph.1.2 bias) ph.2;
      build_id_in_notes notes) (filter (λ ph : Z * Z * Z, ph.1.1 = PT_NOTE) phdrs)
  else None.

(** *** Opening *)

Inductive OpenError :=
  | NotFound (e : string)
  | OtherError (e : string).

Definition open_error_text (e : OpenError) : string :=
  match e with NotFound s | OtherError s => s end.

Record Status := mkStatus {
  active_lwp : Z;
  brk_range : range;
  st_stack_range : range
}.

Section core.
Context `{Goblin} (open_file : string → list Byte.byte + OpenError).

Definition file_build_id (file : list Byte.byte) : option (list Byte.byte) :=
  elf ← elf_parse file;
  find_map (λ ph,
    notes ← get_from file (p_offset ph) (p_filesz ph);
    build_id_in_notes notes)
    (filter (λ ph, p_type ph = PT_NOTE) (program_headers elf)).

Definition hex_bytes (bs : list Byte.byte) : string :=
  String.concat EmptyString
    ((λ b, hex_digit (byte_Z b / 16) +:+ hex_digit (byte_Z b `mod` 16)) <$> bs).

Definition open_recorded (c : Core) (p : string) (sysroot : option string) : Backing :=
  let '(at_, missing) :=
    match sysroot with
    | Some root =>
        let at_ := path_join root (trim_start slash p) in
        (at_, "the sysroot has no " +:+ at_)
    | None => (p, "the backing file is not on this machine"%string)
    end in
  match open_file at_ with
  | inr (NotFound _) => Problem missing
  | inr (OtherError e) => Problem (at_ +:+ " did not open: " +:+ e)
  | inl file =>
      match dumped_build_id c p, file_build_id file with
      | Some recorded, Some found =>
          if bool_decide (recorded = found) then InUse file
          else Problem (at_ +:+ " has build id " +:+ hex_bytes found +:+ ", not the "
                         +:+ hex_bytes recorded +:+ " the core recorded")
      | _, _ => InUse file
      end
  end.

(** One file of the table: an entry already opened is kept, and the substitute
    is taken once, for the executable. *)
Definition open_backing_step (c : Core) (exec_path : option string) (sysroot : option string)
    (st : gmap string Backing * option (list Byte.byte)) (f : FileMap)
    : gmap string Backing * option (list Byte.byte) :=
  let '(b, substitute) := st in
  match b !! fm_path f with
  | Some _ => st
  | None =>
      match substitute with
      | Some file =>
          if bool_decide (exec_path = Some (fm_path f)) then
            (<[fm_path f := InUse file]> b, None)
          else (<[fm_path f := open_recorded c (fm_path f) sysroot]> b, substitute)
      | None => (<[fm_path f := open_recorded c (fm_path f) sysroot]> b, None)
      end
  end.

Definition open_backing (c : Core) (exec_path : option string)
    (substitute : option (list Byte.byte)) (sysroot : option string)
    : gmap string Backing :=
  (foldl (open_backing_step c exec_path sysroot) (∅, substitute) (c_files c)).1.

(** *** Mappings *)

Definition loaded_flags (c : Core) (f : FileMap) : option Z :=
  m ← backing c (fm_path f);
  phdrs ← parse_phdrs m;
  (λ ph, Z.land (p_flags ph) (Z.lor PF_R (Z.lor PF_W PF_X))) <$>
    max_by_key p_offset
      (filter (λ ph,
         (p_type ph =? PT_LOAD)
         && (let start := Z.land (p_offset ph) (Z.lnot (4096 - 1)) in
             (start <=? fm_offset f)
             && (fm_offset f <? u64_add (p_offset ph) (Z.max (p_filesz ph) 1))) = true) phdrs).

Definition segment_mapping (c : Core) (s : Segment) : LoadedObjectWithPath :=
  let b := file_at (c_files c) (seg_vaddr s) in
  let fl := Z.land (seg_flags s) (Z.lor PF_R (Z.lor PF_W PF_X)) in
  mkObject (fm_path <$> b) (seg_vaddr s) (seg_memsz s)
    (match b with None => Z.lor fl 64 | Some _ => fl end).

Definition overlaps_segment (c : Core) (f : FileMap) : bool :=
  existsb (λ s, (seg_vaddr s <? r_end (fm_range f))
                && (r_start (fm_range f) <? r_end (seg_range s))) (c_segments c).

Definition file_mapping (c : Core) (f : FileMap) : LoadedObjectWithPath :=
  mkObject (Some (fm_path f)) (r_start (fm_range f))
    (u64_sub (r_end (fm_range f)) (r_start (fm_range f)))
    (default PF_R (loaded_flags c f)).

Definition build_mappings (c : Core) : Mappings :=
  mappings_from_iter
    ((segment_mapping c <$> c_segments c) ++
     (file_mapping c <$> filter (λ f, overlaps_segment c f = false) (c_files c))).

(** *** The executable *)

Definition object_bias (c : Core) (elf : Elf) (p : string) : option Z :=
  first ← min_by_key p_vaddr (filter (λ ph, p_type ph = PT_LOAD) (program_headers elf));
  mapped ← min_by_key (λ f, r_start (fm_range f))
             (filter (λ f, fm_path f = p) (c_files c));
  Some (u64_sub (r_start (fm_range mapped)) (p_vaddr first)).

Definition find_exec (c : Core) (at_phdr : option Z) : option ExecInfo :=
  a ← at_phdr;
  f ← file_at (c_files c) a;
  m ← backing c (fm_path f);
  elf ← elf_parse m;
  bias ← object_bias c elf (fm_path f);
  let tls_block :=
    match find_first (λ ph, p_type ph =? PT_TLS) (program_headers elf) with
    | Some ph => next_multiple_of (p_memsz ph) (Z.max (p_align ph) 1)
    | None => 0
    end in
  Some (mkExec (fm_path f) bias tls_block).

Definition stack_of (segs : list Segment) (l : LwpInfo) : range :=
  match find_first (λ s, range_contains (seg_range s) (rsp (regs l))) segs with
  | Some s => seg_range s
  | None => Range 0 0
  end.

Definition fill_stack_range (segs : list Segment) (l : LwpInfo) : LwpInfo :=
  mkLwpInfo (tid l) (regs l) (stack_of segs l) (altstack l) (tstamp l).

(** *** The notes of a core *)

Record Notes := mkNotes {
  n_lwps : list LwpInfo;
  n_files : list FileMap;
  n_auxv : gmap Z Z;
  n_cursig : Z;
  n_siginfo : option (Z * Z * Z);
  n_prpsinfo : option (list Byte.byte)
}.

Definition notes_empty : Notes := mkNotes [] [] ∅ 0 None None.

(** One note; its arms are tried in the source's order. *)
Definition note_step (st : Notes) (n : Note) : outcome (Result Notes) :=
  let d := desc n in
  let len := Z.of_nat (length d) in
  if n_type n =? NT_PRSTATUS then
    r ← parse_prstatus d;
    match r with
    | Err e => Ret (Err e)
    | Ok lwp =>
        sig ← (if bool_decide (n_lwps st = []) then
                 w ← field d PR_CURSIG 2; Ret (as_i16 w)
               else Ret (n_cursig st));
        Ret (Ok (mkNotes (n_lwps st ++ [lwp]) (n_files st) (n_auxv st) sig
                         (n_siginfo st) (n_prpsinfo st)))
    end
  else if (n_type n =? NT_SIGINFO) && (SIGINFO_LEN <=? len) then
    sg ← field d SI_SIGNO 4;
    cd ← field d SI_CODE 4;
    ad ← field d SI_ADDR 8;
    Ret (Ok (mkNotes (n_lwps st) (n_files st) (n_auxv st) (n_cursig st)
                     (Some (as_i32 sg, as_i32 cd, ad)) (n_prpsinfo st)))
  else if (n_type n =? NT_PRPSINFO) && (PRPSINFO_LEN <=? len)
          && bool_decide (n_prpsinfo st = None) then
    Ret (Ok (mkNotes (n_lwps st) (n_files st) (n_auxv st) (n_cursig st)
                     (n_siginfo st) (Some d)))
  else if n_type n =? NT_FILE then
    r ← parse_nt_file d (n_files st);
    Ret (files ← r;
         Ok (mkNotes (n_lwps st) files (n_auxv st) (n_cursig st)
                     (n_siginfo st) (n_prpsinfo st)))
  else if n_type n =? NT_AUXV then
    Ret (auxv ← parse_auxv (length d) (cursor_new d) (n_auxv st);
         Ok (mkNotes (n_lwps st) (n_files st) auxv (n_cursig st)
                     (n_siginfo st) (n_prpsinfo st)))
  else Ret (Ok st).

Fixpoint read_notes (ns : list (option Note)) (st : Notes) : outcome (Result Notes) :=
  match ns with
  | [] => Ret (Ok st)
  | None :: _ => Ret (Err (BadCore "malformed note"))
  | Some n :: ns =>
      r ← note_step st n;
      match r with
      | Err e => Ret (Err e)
      | Ok st => read_notes ns st
      end
  end.

Definition load_segments (elf : Elf) : list Segment :=
  sort_by (λ a b, seg_vaddr a <=? seg_vaddr b)
    ((λ ph, mkSegment (p_vaddr ph) (p_memsz ph) (p_filesz ph) (p_offset ph) (p_flags ph)) <$>
       filter (λ ph, p_type ph = PT_LOAD) (program_headers elf)).

(** The executable's stand-in, where one was asked for. *)
Definition open_substitute (exec_path : option string) (binary : option string)
    : Result (option (list Byte.byte)) :=
  match binary with
  | None => Ok None
  | Some b =>
      if bool_decide (exec_path = None) then
        Err (BadCore "no AT_PHDR auxv entry, so the core does not say which of its mapped files is the executable")
      else
        match open_file b with
        | inl file => Ok (Some file)
        | inr _ => Err (ReadIo ("failed to open " +:+ b))
        end
  end.

(** The core from its parts, the later fields filled in from the earlier. *)
Definition assemble (core : list Byte.byte) (segs : list Segment) (files : list FileMap)
    (st : Notes) (exec_path : option string) (substitute : option (list Byte.byte))
    (sysroot : option string) : outcome Core :=
  first ← or_panic (head (n_lwps st));
  let fatal := decode_fatal_signal (n_cursig st) (tid first) (n_siginfo st) in
  let c0 := mkCore core segs files ∅ [] (n_lwps st) fatal None None in
  let c1 := mkCore core segs files (open_backing c0 exec_path substitute sysroot)
              [] (n_lwps st) fatal None None in
  let c2 := mkCore core segs files (c_backing c1) (build_mappings c1)
              (n_lwps st) fatal None None in
  let c3 := mkCore core segs files (c_backing c2) (c_mappings c2)
              (fill_stack_range segs <$> n_lwps st) fatal
              (find_exec c2 (n_auxv st !! AT_PHDR)) None in
  facts ← match n_prpsinfo st with
          | None => Ret None
          | Some d => f ← process_facts_from c3 d (n_auxv st !! AT_EXECFN); Ret (Some f)
          end;
  Ret (mkCore core segs files (c_backing c3) (c_mappings c3) (c_lwps c3) fatal
              (c_exec c3) facts).

Definition open_with (core_path : string) (binary sysroot : option string)
    : outcome (Result Core) :=
  match open_file core_path with
  | inr e => Ret (Err (ReadIo (open_error_text e)))
  | inl core =>
      match elf_parse core with
      | None => Ret (Err (BadCore "not an ELF file"))
      | Some elf =>
          if negb (e_type elf =? ET_CORE) then Ret (Err (BadCore "not a core file"))
          else
            let segs := load_segments elf in
            r ← read_notes (note_headers elf core) notes_empty;
            match r with
            | Err e => Ret (Err e)
            | Ok st =>
                if bool_decide (n_lwps st = []) then
                  Ret (Err (BadCore "no NT_PRSTATUS note"))
                else
                  let files := sort_by (λ a b, r_start (fm_range a) <=? r_start (fm_range b))
                                 (n_files st) in
                  let exec_path := fm_path <$> (a ← n_auxv st !! AT_PHDR; file_at files a) in
                  match open_substitute exec_path binary with
                  | Err e => Ret (Err e)
                  | Ok substitute =>
                      c ← assemble core segs files st exec_path substitute sysroot;
                      Ret (Ok c)
                  end
            end
      end
  end.

(** *** Symbols *)

(** One entry of a symbol table, as the object's symbols take it. *)
Definition symbol_entry (bias : Z) (names : Z → option string) (s : Sym)
    : option (Z * SymbolBuf) :=
  nm ← names (sym_name s);
  if names_something nm s then
    Some (st_type s,
      {| name := nm;
         st_name := sym_name s;
         st_info := sym_info s;
         st_other := sym_other s;
         st_shndx := sym_shndx s;
         st_value := if st_type s =? STT_TLS then sym_value s else u64_add (sym_value s) bias;
         st_size := sym_size s |})
  else None.

Definition symbol_leb (a b : SymbolBuf) : bool :=
  (st_value a <? st_value b) || ((st_value a =? st_value b) && String.leb (name a) (name b)).
Definition symbol_same (a b : SymbolBuf) : bool :=
  String.eqb (name a) (name b) && (st_value a =? st_value b).

Definition symbol_list (l : list SymbolBuf) : list SymbolBuf :=
  dedup_by symbol_same (sort_by symbol_leb l).

Definition symbol_entries (elf : Elf) (bias : Z) : list (Z * SymbolBuf) :=
  omap (symbol_entry bias (strtab elf)) (syms elf) ++
  omap (symbol_entry bias (dynstrtab elf)) (dynsyms elf).

Definition symbols_of_elf (elf : Elf) (bias : Z) : Symbols :=
  let es := symbol_entries elf bias in
  mkSymbols
    (symbol_list (snd <$> filter (λ e, e.1 = STT_FUNC) es))
    (symbol_list (snd <$> filter (λ e, e.1 = STT_OBJECT ∨ e.1 = STT_TLS) es)).

Definition symbols_of (c : Core) (p : string) : option Symbols :=
  m ← backing c p;
  Some
    match elf_parse m with
    | None => Symbols_default
    | Some elf =>
        let other := default 0 (object_bias c elf p) in
        let bias :=
          match c_exec c with
          | Some e => if String.eqb (ei_path e) p then ei_bias e else other
          | None => other
          end in
        symbols_of_elf elf bias
    end.

Definition core_symbols (c : Core) : Result (list SymbolBuf) :=
  match c_exec c with
  | None => Ok []
  | Some e => Ok (default [] (functions <$> symbols_of c (ei_path e)))
  end.

Definition core_object_symbols (c : Core) : Result (list SymbolBuf) :=
  match c_exec c with
  | None => Ok []
  | Some e => Ok (default [] (objects <$> symbols_of c (ei_path e)))
  end.

(** The nearest function at or below an address, if it covers it. *)
Definition function_at (fns : list SymbolBuf) (address : Z) : option SymbolBuf :=
  match partition_point (λ s, st_value s <=? address) fns with
  | O => None
  | S i =>
      sym ← fns !! i;
      if address <? u64_add (st_value sym) (st_size sym) then Some sym else None
  end.

Definition core_lookup_symbol_by_addr (c : Core) (address : Z) : option SymbolBuf :=
  f ← file_at (c_files c) address;
  s ← symbols_of c (fm_path f);
  function_at (functions s) address.

(** The name an object-qualified name has in the executable. *)
Definition exec_symbol_name (e : ExecInfo) (nm : string) : option string :=
  match split_once backtick nm with
  | Some (object, nm) =>
      if String.eqb object (ei_path e) || String.eqb object (after_last slash (ei_path e))
      then Some nm else None
  | None => Some nm
  end.

Definition core_lookup_symbol_by_name (c : Core) (nm : string) : outcome (option SymbolBuf) :=
  e ←? Ret (c_exec c);
  nm ←? Ret (exec_symbol_name e nm);
  s ←? Ret (symbols_of c (ei_path e));
  find_by_name s nm.

Definition core_tls_var_addr (c : Core) (rg : Regs) (sym : SymbolBuf) : Result (option Z) :=
  let ty := Z.land (st_info sym) 15 in
  if negb (ty =? STT_TLS) then Err (NotThreadLocal (name sym) ty)
  else if fsbase rg =? 0 then Ok None
  else
    match c_exec c with
    | None => Err (BadCore "no executable in the core's NT_FILE table")
    | Some e => Ok (Some (u64_add (u64_sub (fsbase rg) (ei_tls_block e)) (st_value sym)))
    end.

(** *** Threads and facts *)

Definition core_regs (c : Core) (lwp : Z) : Result Regs :=
  match find_first (λ l, tid l =? lwp) (c_lwps c) with
  | Some l => Ok (regs l)
  | None => Err (LgrabFailed "no such lwp in the core")
  end.

Definition core_status (c : Core) : Status :=
  let exec_end :=
    default 0 (e ← c_exec c;
      max_of ((λ f, r_end (fm_range f)) <$> filter (λ f, fm_path f = ei_path e) (c_files c))) in
  {| active_lwp := default 0 (tid <$> head (c_lwps c));
     brk_range :=
       default (Range 0 0)
         (seg_range <$> find_first (λ s, (exec_end <=? seg_vaddr s)
            && bool_decide (file_at (c_files c) (seg_vaddr s) = None :> option FileMap)
            && negb (Z.land (seg_flags s) PF_W =? 0)) (c_segments c));
     st_stack_range := default (Range 0 0) (stack_range <$> head (c_lwps c)) |}.

Definition core_exec_name (c : Core) : Result string :=
  match c_exec c with Some e => Ok (ei_path e) | None => Err NoExecName end.

Definition core_build_ids (c : Core) : BuildIds :=
  mkBuildIds (e ← c_exec c; dumped_build_id c (ei_path e))
             (e ← c_exec c; m ← backing c (ei_path e); file_build_id m).

Definition core_backing_file_problem (c : Core) (p : string) : option string :=
  match c_backing c !! p with Some (Problem why) => Some why | _ => None end.
End core.
