(* ===== verification/LinuxCoreFacts.v ===== *)
(** The reads of a Linux core: the address each source of bytes serves, and the
    [Target] the core is; what an opened core's parts are taken from; and its symbols. *)

From stdpp Require Import gmap.
From S2P Require Import Prelude Text Target CoreFile LinuxCore.

Local Open Scope Z_scope.

(** ** Sorting and dropping repeats *)

Section dedup.
Context {A : Type} (leb same : A → A → bool).
Context (leb_total : ∀ x y, leb x y = true ∨ leb y x = true).
Context (leb_trans : ∀ x y z, leb x y = true → leb y z = true → leb x z = true).
Context (same_spec : ∀ x y, same x y = true ↔ leb x y = true ∧ leb y x = true).

Lemma dedup_from_spec last l :
  StronglySorted (λ a b, leb a b = true) (last :: l) →
  let l' := dedup_from same last l in
  StronglySorted (λ a b, leb b a = false) (last :: l') ∧
  (∀ x, x ∈ l' → x ∈ l) ∧
  (∀ x, x ∈ l → ∃ y, y ∈ last :: l' ∧ same x y = true).
Proof.
  revert last. induction l as [|x l IH]; intros last Hs; cbv zeta.
  { split_and!; [repeat constructor|done|by intros x ?%not_elem_of_nil]. }
  apply StronglySorted_cons in Hs as [[Hlx Hl]%Forall_cons Hs]. cbn [dedup_from].
  destruct (same x last) eqn:E.
  - destruct (IH last) as (Hsort & Hin & Hcov).
    { apply StronglySorted_cons. split; [done|]. by apply StronglySorted_cons in Hs as [_ ?]. }
    split_and!; [done|intros y Hy; right; eauto|].
    intros y [->|Hy]%elem_of_cons; [|by apply Hcov]. exists last. split; [left|done].
  - destruct (IH x Hs) as (Hsort & Hin & Hcov). split_and!.
    + apply StronglySorted_cons. split; [|done]. apply Forall_forall.
      assert (leb x last = false) as Hxl.
      { apply not_true_iff_false. intros Hxl.
        rewrite (proj2 (same_spec x last) (conj Hxl Hlx)) in E. done. }
      intros y [->|Hy]%elem_of_cons; [done|]. apply not_true_iff_false. intros Hyl.
      apply StronglySorted_cons in Hsort as [Hx _]. rewrite Forall_forall in Hx.
      specialize (Hx y Hy). apply not_true_iff_false in Hxl. apply Hxl.
      destruct (leb_total x y) as [|]; [eauto|congruence].
    + intros y [->|Hy]%elem_of_cons; [left|right; eauto].
    + intros y [->|Hy]%elem_of_cons.
      * exists x. split; [right; left|]. apply same_spec. destruct (leb_total x x); done.
      * destruct (Hcov y Hy) as (z & Hz & ?). exists z. split; [by right|done].
Qed.

Lemma sort_dedup_spec l :
  let l' := dedup_by same (sort_by leb l) in
  StronglySorted (λ a b, leb b a = false) l' ∧
  (∀ x, x ∈ l' → x ∈ l) ∧
  (∀ x, x ∈ l → ∃ y, y ∈ l' ∧ same x y = true).
Proof.
  cbv zeta. pose proof (sort_by_sorted leb leb_total leb_trans l) as Hs.
  pose proof (sort_by_perm leb l) as Hp.
  destruct (sort_by leb l) as [|x s]; simpl.
  - apply Permutation_nil_l in Hp as <-. split_and!; [constructor|done|].
    by intros x ?%not_elem_of_nil.
  - destruct (dedup_from_spec x s Hs) as (Hsort & Hin & Hcov). split_and!; [done|..].
    + intros y Hy. rewrite <-Hp. apply elem_of_cons in Hy as [->|Hy]; [left|right; eauto].
    + intros y Hy. rewrite <-Hp in Hy. apply elem_of_cons in Hy as [->|Hy]; [|by apply Hcov].
      exists x. split; [left|]. apply same_spec. destruct (leb_total x x); done.
Qed.
End dedup.

(** ** The order of symbols *)

Lemma symbol_leb_spec a b :
  symbol_leb a b = true ↔
    st_value a < st_value b ∨ st_value a = st_value b ∧ String.leb (name a) (name b) = true.
Proof.
  unfold symbol_leb. rewrite orb_true_iff, andb_true_iff, Z.ltb_lt, Z.eqb_eq. done.
Qed.

Lemma symbol_leb_total a b : symbol_leb a b = true ∨ symbol_leb b a = true.
Proof.
  rewrite !symbol_leb_spec. pose proof (String.leb_total (name a) (name b)).
  destruct (Z.lt_trichotomy (st_value a) (st_value b)) as [|[|]]; intuition lia.
Qed.

Lemma symbol_leb_trans a b d :
  symbol_leb a b = true → symbol_leb b d = true → symbol_leb a d = true.
Proof.
  rewrite !symbol_leb_spec. intros [?|[? ?]] [?|[? ?]]; [left; lia..|].
  right. split; [lia|eauto].
Qed.

Lemma symbol_same_spec a b :
  symbol_same a b = true ↔ symbol_leb a b = true ∧ symbol_leb b a = true.
Proof.
  unfold symbol_same. rewrite !symbol_leb_spec, andb_true_iff, String.eqb_eq, Z.eqb_eq. split.
  - intros [-> ->]. rewrite string_leb_refl. auto.
  - intros [[?|[? ?]] [?|[? ?]]]; try lia. split; [by apply String.leb_antisym|done].
Qed.

Lemma length_dedup_from {A} (same : A → A → bool) last l :
  (length (dedup_from same last l) <= length l)%nat.
Proof.
  revert last. induction l as [|x l IH]; intros last; simpl; [lia|].
  destruct (same x last); simpl; [specialize (IH last)|specialize (IH x)]; lia.
Qed.

Lemma symbol_list_length l : (length (symbol_list l) <= length l)%nat.
Proof.
  unfold symbol_list, dedup_by. pose proof (sort_by_perm symbol_leb l) as Hp.
  apply Permutation_length in Hp. destruct (sort_by symbol_leb l) as [|x s]; simpl in *; [lia|].
  pose proof (length_dedup_from symbol_same x s). lia.
Qed.

Lemma length_omap_le {A B} (f : A → option B) l : (length (omap f l) <= length l)%nat.
Proof.
  unfold omap. induction l as [|x l IH]; simpl; [lia|].
  destruct (f x); cbn [length]; lia.
Qed.

Lemma symbols_length `{Goblin} (elf : Elf) bias :
  (length (functions (symbols_of_elf elf bias) ++ objects (symbols_of_elf elf bias))
     <= 2 * (length (syms elf) + length (dynsyms elf)))%nat.
Proof.
  rewrite length_app. unfold symbols_of_elf. cbv zeta. cbn [functions objects].
  set (es := symbol_entries elf bias).
  assert (length es <= length (syms elf) + length (dynsyms elf))%nat.
  { unfold es, symbol_entries. rewrite length_app.
    apply Nat.add_le_mono; apply length_omap_le. }
  pose proof (symbol_list_length (snd <$> filter (λ e, e.1 = STT_FUNC) es)) as H1.
  pose proof (symbol_list_length (snd <$> filter (λ e, e.1 = STT_OBJECT ∨ e.1 = STT_TLS) es)) as H2.
  rewrite length_fmap in H1, H2.
  pose proof (length_filter (λ e : Z * SymbolBuf, e.1 = STT_FUNC) es) as H3.
  pose proof (length_filter (λ e : Z * SymbolBuf, e.1 = STT_OBJECT ∨ e.1 = STT_TLS) es) as H4.
  fold es. lia.
Qed.

Lemma symbols_of_length `{Goblin} c p s n :
  (∀ elf : Elf, 2 * (length (syms elf) + length (dynsyms elf)) <= n)%nat →
  symbols_of c p = Some s → (length (functions s ++ objects s) <= n)%nat.
Proof.
  intros Hn. unfold symbols_of. intros (m & _ & [= <-])%bind_Some.
  destruct (elf_parse m) as [elf|]; [|simpl; lia].
  etrans; [apply symbols_length|apply Hn].
Qed.

(** ** Lookup by address *)

(** The last of the functions in order that start at or below the address. *)
Definition nearest (fns : list SymbolBuf) (a : Z) (sym : SymbolBuf) : Prop :=
  sym ∈ fns ∧ st_value sym <= a ∧
  ∀ t, t ∈ fns → st_value t <= a → t = sym ∨ symbol_leb sym t = false.

Lemma nearest_index fns a :
  StronglySorted (λ x y, symbol_leb y x = false) fns →
  match partition_point (λ s, st_value s <=? a) fns with
  | O => ∀ t, t ∈ fns → a < st_value t
  | S i => ∃ sym, fns !! i = Some sym ∧ nearest fns a sym
  end.
Proof.
  intros Hs. pose proof (partition_point_split (λ s, st_value s <=? a) fns _ eq_refl) as (Hb & _ & Hn).
  assert (∀ j t, fns !! j = Some t → (partition_point (λ s, (st_value s <=? a)%Z) fns <= j)%nat →
    a < st_value t) as Haft.
  { intros j t Hj Hle. apply Z.leb_gt.
    apply (partition_point_after (λ x y, symbol_leb y x = false)
             (λ s, st_value s <=? a) fns j t Hs); [|done..].
    intros x y Hxy. rewrite !Z.leb_le. apply not_true_iff_false in Hxy.
    rewrite symbol_leb_spec in Hxy. lia. }
  destruct (partition_point _ fns) as [|i].
  - intros t [j Hj]%list_elem_of_lookup_1. eapply Haft; [done|lia].
  - destruct (lookup_lt_is_Some_2 fns i) as [sym Hsym]; [lia|]. exists sym. split; [done|].
    split; [by eapply list_elem_of_lookup_2|]. split.
    { apply Z.leb_le. by apply (Hb i); [|lia]. }
    intros t [j Hj]%list_elem_of_lookup_1 Ht.
    destruct (lt_eq_lt_dec j i) as [[Hlt| ->]|Hgt].
    + right. by apply (StronglySorted_lookup _ _ _ _ _ _ Hs Hj Hsym).
    + left. congruence.
    + specialize (Haft j t Hj ltac:(lia)). lia.
Qed.

Lemma nearest_unique fns a x y : nearest fns a x → nearest fns a y → x = y.
Proof.
  intros (Hx & Hxa & Hxm) (Hy & Hya & Hym).
  destruct (Hxm y Hy Hya) as [->|Hxy]; [done|].
  destruct (Hym x Hx Hxa) as [->|Hyx]; [done|].
  destruct (symbol_leb_total x y); congruence.
Qed.

Lemma function_at_exact fns a sym :
  StronglySorted (λ x y, symbol_leb y x = false) fns →
  function_at fns a = Some sym ↔
    nearest fns a sym ∧ a < u64_add (st_value sym) (st_size sym).
Proof.
  intros Hs. pose proof (nearest_index fns a Hs) as Hi. unfold function_at.
  destruct (partition_point _ fns) as [|i].
  - split; [done|]. intros [(Hin & Ha & _) _]. specialize (Hi sym Hin). lia.
  - destruct Hi as (t & Ht & Hnt). rewrite Ht. cbn [mbind option_bind].
    destruct (Z.ltb_spec a (u64_add (st_value t) (st_size t))) as [Hlt|Hge]; split.
    + intros [= <-]. done.
    + intros [Hn _]. f_equal. by eapply nearest_unique.
    + done.
    + intros [Hn ?]. rewrite (nearest_unique _ _ _ _ Hn Hnt) in *. lia.
Qed.

(** ** Panics *)

Lemma field_Ret d at_ n :
  0 <= at_ → 0 <= n → at_ + n <= Z.of_nat (length d) →
  field d at_ n = Ret (from_le_bytes (take (Z.to_nat n) (drop (Z.to_nat at_) d))).
Proof.
  intros. unfold field, slice.
  replace (_ && _)%bool with true; [done|]. symmetry. rewrite !andb_true_iff, !Z.leb_le. lia.
Qed.

Lemma parse_prstatus_Ret d :
  parse_prstatus d =
    if Z.of_nat (length d) =? PRSTATUS_LEN then
      Ret (Ok {| tid := from_le_bytes (take 4 (drop 32 d));
                 regs := from_user_regs (note_words PR_REG_COUNT (drop (Z.to_nat PR_REG) d));
                 stack_range := Range 0 0;
                 altstack := Range 0 0;
                 tstamp := mkTimespec 0 0 |})
    else Ret (Err (BadCore "NT_PRSTATUS is not the size Linux writes; this core came from another system")).
Proof.
  unfold parse_prstatus. destruct (Z.eqb_spec (Z.of_nat (length d)) PRSTATUS_LEN) as [E|]; [|done].
  cbn [negb]. rewrite field_Ret by (rewrite ?E; done). done.
Qed.

(** The count of a file table whose triples no vector can hold. *)
Definition count_overflows (d : list Byte.byte) : Prop :=
  16 <= Z.of_nat (length d) ∧ from_le_bytes (take 8 d) * 24 > 9223372036854775807.

Lemma cursor_take_Ok c n bs c' :
  cursor_take c n = Ok (bs, c') →
  pos c' = pos c + n ∧ bytes c' = bytes c ∧ pos c' <= Z.of_nat (length (bytes c)) ∧
  bs = take (Z.to_nat n) (drop (Z.to_nat (pos c)) (bytes c)).
Proof.
  unfold cursor_take. destruct (checked_add (pos c) n) as [e|] eqn:E; [|done].
  apply checked_add_Some in E as [-> _].
  destruct (_ <=? _) eqn:El; [|done]. zb. intros. simplify_eq. done.
Qed.

Lemma cursor_u64_eq c :
  is_u64 (pos c + 8) → 0 <= pos c →
  cursor_u64 c =
    if pos c + 8 <=? Z.of_nat (length (bytes c)) then
      Ok (from_le_bytes (take 8 (drop (Z.to_nat (pos c)) (bytes c))), mkCursor (bytes c) (pos c + 8))
    else Err (BadCore "note ends mid-field").
Proof.
  intros Hu Hp. unfold cursor_u64, cursor_take.
  replace (checked_add (pos c) 8) with (Some (pos c + 8)).
  - destruct (_ <=? _); done.
  - symmetry. apply checked_add_Some. unfold is_u64 in *. split; [done|lia].
Qed.

Lemma parse_nt_file_Panic d files :
  parse_nt_file d files = Panic ↔ count_overflows d.
Proof.
  unfold parse_nt_file, count_overflows.
  rewrite (cursor_u64_eq (cursor_new d)) by (unfold is_u64; simpl; lia).
  cbn [cursor_new pos bytes]. change (0 + 8) with 8. change (Z.to_nat 0) with O. rewrite drop_0.
  destruct (Z.leb_spec 8 (Z.of_nat (length d))); unfold mbind, result_bind; [|split; [done|lia]].
  rewrite cursor_u64_eq by (unfold is_u64; simpl; lia).
  cbn [pos bytes]. change (8 + 8) with 16.
  destruct (Z.leb_spec 16 (Z.of_nat (length d))); unfold mbind, result_bind; [|split; [done|lia]].
  unfold with_capacity_triples.
  destruct (Z.leb_spec (from_le_bytes (take 8 d) * 24) 9223372036854775807).
  - split; [done|lia].
  - split; [intros _; lia|done].
Qed.

Lemma note_step_Panic st n :
  note_step st n = Panic ↔ n_type n = NT_FILE ∧ count_overflows (desc n).
Proof.
  unfold note_step.
  destruct (Z.eqb_spec (n_type n) NT_PRSTATUS) as [E|].
  { rewrite parse_prstatus_Ret, E.
    destruct (Z.eqb_spec (Z.of_nat (length (desc n))) PRSTATUS_LEN) as [El|]; [|naive_solver].
    cbn [mbind outcome_bind]. case_bool_decide; [|naive_solver].
    rewrite field_Ret by (rewrite ?El; done). naive_solver. }
  destruct ((n_type n =? NT_SIGINFO) && _) eqn:E.
  { zb. rewrite !field_Ret by (unfold SI_SIGNO, SI_CODE, SI_ADDR, SIGINFO_LEN in *; lia).
    split; [done|]. intros [Et _]. unfold NT_FILE, NT_SIGINFO in *. lia. }
  destruct (_ && bool_decide _) eqn:E'.
  { zb. split; [done|]. intros [Et _]. unfold NT_FILE, NT_PRPSINFO in *. lia. }
  destruct (Z.eqb_spec (n_type n) NT_FILE) as [Et|].
  { rewrite <-(parse_nt_file_Panic _ (n_files st)).
    destruct (parse_nt_file _ _); naive_solver. }
  destruct (n_type n =? NT_AUXV); naive_solver.
Qed.

Lemma read_notes_Panic ns st :
  read_notes ns st = Panic ↔
    ∃ pre n rest st', ns = (Some <$> pre) ++ Some n :: rest ∧
      read_notes (Some <$> pre) st = Ret (Ok st') ∧
      n_type n = NT_FILE ∧ count_overflows (desc n).
Proof.
  revert st. induction ns as [|[n|] ns IH]; intros st; simpl.
  - split; [done|]. intros ([|] & ? & ? & ? & ? & _); done.
  - destruct (note_step st n) as [[st1|e]|] eqn:E; simpl.
    + rewrite IH. split.
      * intros (pre & m & rest & st' & -> & Hr & Hm). exists (n :: pre), m, rest, st'.
        split; [done|]. simpl. rewrite E. done.
      * intros ([|k pre] & m & rest & st' & Heq & Hr & Ht & Hc); simplify_eq/=.
        -- pose proof (proj2 (note_step_Panic st' m) (conj Ht Hc)). congruence.
        -- rewrite E in Hr. simpl in Hr. eauto 10.
    + split; [done|]. intros ([|k pre] & m & rest & st' & Heq & Hr & Ht & Hc); simplify_eq/=.
      * pose proof (proj2 (note_step_Panic st' m) (conj Ht Hc)). congruence.
      * rewrite E in Hr. done.
    + split; [|done]. intros _. exists [], n, ns, st. split_and!; [done|done|..];
        by apply (note_step_Panic st n).
  - split; [done|]. intros ([|] & ? & ? & ? & ? & _); done.
Qed.

(** ** What the notes give *)

Definition thread_ids (ns : list (option Note)) : list Z :=
  omap (λ o : option Note, n ← o;
    if n_type n =? NT_PRSTATUS then Some (from_le_bytes (take 4 (drop 32 (desc n))))
    else None) ns.

Definition notes_ok (st : Notes) : Prop :=
  ∀ d, n_prpsinfo st = Some d → PRPSINFO_LEN <= Z.of_nat (length d).

Lemma note_step_Ok st n st' :
  note_step st n = Ret (Ok st') → notes_ok st →
  notes_ok st' ∧ tid <$> n_lwps st' = (tid <$> n_lwps st) ++ thread_ids [Some n].
Proof.
  unfold note_step, thread_ids. cbn [omap list_omap mbind option_bind]. intros Hs Hok.
  destruct (n_type n =? NT_PRSTATUS) eqn:E0.
  { rewrite parse_prstatus_Ret in Hs. destruct (_ =? PRSTATUS_LEN); [|done].
    simpl in Hs. apply outcome_bind_Ret in Hs as (sig & _ & Hs). simplify_eq.
    split; [exact Hok|]. simpl. by rewrite fmap_app. }
  rewrite app_nil_r.
  destruct (_ && (SIGINFO_LEN <=? _)).
  { do 3 (apply outcome_bind_Ret in Hs as (? & _ & Hs)). by simplify_eq. }
  destruct (_ && bool_decide _) eqn:E1.
  { zb. simplify_eq. split; [|done]. intros d [= <-]. lia. }
  destruct (n_type n =? NT_FILE).
  { apply outcome_bind_Ret in Hs as (r & _ & Hs). destruct r; [|done]. by simplify_eq/=. }
  destruct (n_type n =? NT_AUXV); [|by simplify_eq].
  destruct (parse_auxv _ _ _); [|done]. by simplify_eq/=.
Qed.

Lemma read_notes_Ok ns st st' :
  read_notes ns st = Ret (Ok st') → notes_ok st →
  notes_ok st' ∧ tid <$> n_lwps st' = (tid <$> n_lwps st) ++ thread_ids ns.
Proof.
  revert st. induction ns as [|[n|] ns IH]; intros st Hr Hok; simpl in Hr; [|..|done].
  - simplify_eq. by rewrite app_nil_r.
  - apply outcome_bind_Ret in Hr as ([st1|] & Hs & Hr); [|done].
    apply note_step_Ok in Hs as [Hok1 Ht]; [|done].
    destruct (IH st1 Hr Hok1) as [? Ht']. split; [done|].
    rewrite Ht', Ht, <-app_assoc. f_equal. unfold thread_ids. by rewrite <-omap_app.
Qed.

(** ** The files in use *)

Section backing.
Context `{Goblin} (open_file : string → list Byte.byte + OpenError).
Context (c : Core) (exec_path : option string) (sub : option (list Byte.byte))
        (sysroot : option string).

(** What the table holds for a file the core names. *)
Definition backing_of (p : string) : Backing :=
  match sub with
  | Some file => if decide (exec_path = Some p) then InUse file
                 else open_recorded open_file c p sysroot
  | None => open_recorded open_file c p sysroot
  end.

(** The substitute is still to be placed until the executable was met. *)
Definition sub_left (ps : list string) : option (list Byte.byte) :=
  match exec_path with
  | Some p => if decide (p ∈ ps) then None else sub
  | None => sub
  end.

Lemma open_backing_inv fs :
  let st := foldl (open_backing_step open_file c exec_path sysroot) (∅, sub) fs in
  (∀ p, st.1 !! p = if decide (p ∈ fm_path <$> fs) then Some (backing_of p) else None) ∧
  st.2 = sub_left (fm_path <$> fs).
Proof.
  induction fs as [|f fs IH] using rev_ind.
  - simpl. split; [intros p; by rewrite lookup_empty|].
    unfold sub_left. by destruct exec_path.
  - rewrite foldl_snoc, fmap_app. cbv zeta in *.
    destruct (foldl _ _ fs) as [b s]. destruct IH as [Hb Hs]. simpl in Hb, Hs.
    unfold open_backing_step. rewrite (Hb (fm_path f)).
    assert (∀ p, p ∈ (fm_path <$> fs) ++ (fm_path <$> [f]) ↔
                 p ∈ fm_path <$> fs ∨ p = fm_path f) as Hin
      by (intros p; rewrite elem_of_app; simpl; rewrite list_elem_of_singleton; done).
    destruct (decide (fm_path f ∈ fm_path <$> fs)) as [Hf|Hf].
    { split; simpl.
      - intros p. rewrite Hb. repeat case_decide; naive_solver.
      - rewrite Hs. unfold sub_left. destruct exec_path; [|done].
        repeat case_decide; naive_solver. }
    assert (∀ x p, x = backing_of (fm_path f) →
      <[fm_path f := x]> b !! p =
        if decide (p ∈ (fm_path <$> fs) ++ (fm_path <$> [f])) then Some (backing_of p) else None)
      as Hins.
    { intros x p ->. destruct (decide (p = fm_path f)) as [->|Hne].
      - rewrite lookup_insert_eq, decide_True by naive_solver. done.
      - rewrite lookup_insert_ne, Hb by done. repeat case_decide; naive_solver. }
    rewrite Hs. unfold sub_left, backing_of in *.
    destruct sub as [file|], exec_path as [e|]; simpl in *;
      repeat (case_decide || case_bool_decide); simplify_eq; simpl;
      (split; [intros p; apply Hins; repeat case_decide; naive_solver|]);
      repeat case_decide; naive_solver.
Qed.

Lemma open_backing_lookup p :
  open_backing open_file c exec_path sub sysroot !! p =
    if decide (p ∈ fm_path <$> c_files c) then Some (backing_of p) else None.
Proof. apply (open_backing_inv (c_files c)). Qed.
End backing.

(** A file opened as recorded is not another build of the one that ran. *)
Lemma open_recorded_held `{Goblin} open_file c p sysroot file :
  open_recorded open_file c p sysroot = InUse file →
  disagree (mkBuildIds (dumped_build_id c p) (file_build_id file)) = false.
Proof.
  unfold open_recorded, disagree. destruct (match sysroot with Some _ => _ | None => _ end) as [at_ missing].
  destruct (open_file at_) as [m|[]]; [|done..]. simpl.
  destruct (dumped_build_id c p) as [r|] eqn:Er, (file_build_id m) as [f|] eqn:Ef;
    simpl; try (intros; simplify_eq; rewrite ?Ef; done).
  case_bool_decide; [|done]. intros. simplify_eq. rewrite Ef. by rewrite bool_decide_eq_true_2.
Qed.

(** ** The assembled core *)

Section assembled.
Context `{Goblin} (open_file : string → list Byte.byte + OpenError).

Lemma process_facts_Ret c d efn :
  PRPSINFO_LEN <= Z.of_nat (length d) → ∃ f, process_facts_from c d efn = Ret f.
Proof.
  intros Hl. unfold process_facts_from.
  unfold PRPSINFO_LEN, PRPSINFO_PR_PID, PRPSINFO_PR_PPID, PRPSINFO_PR_UID, PRPSINFO_PR_GID,
    PRPSINFO_PR_FNAME, PRPSINFO_FNAME_LEN, PRPSINFO_PR_PSARGS, PRPSINFO_PSARGS_LEN in *.
  rewrite !field_Ret by lia. unfold slice.
  rewrite !(proj2 (andb_true_iff _ _)); [by eexists|..];
    rewrite ?andb_true_iff, !Z.leb_le; lia.
Qed.

Lemma assemble_Ret core segs files st ep sub sysroot :
  n_lwps st ≠ [] → notes_ok st →
  ∃ c, assemble open_file core segs files st ep sub sysroot = Ret c.
Proof.
  intros Hne Hok. unfold assemble. destruct (n_lwps st) as [|l ls]; [done|]. simpl.
  destruct (n_prpsinfo st) as [d|] eqn:Ed; [|by eexists].
  match goal with |- context [process_facts_from ?c d ?e] =>
    destruct (process_facts_Ret c d e) as [f Hf]; [by apply Hok|] end.
  rewrite Hf. by eexists.
Qed.

(** Every field of the core, from the parts. *)
Lemma assemble_fields core segs files st ep sub sysroot c :
  assemble open_file core segs files st ep sub sysroot = Ret c →
  ∃ c0 c1, c_segments c0 = segs ∧ c_files c0 = files ∧ c_core c0 = core ∧
  c_segments c1 = segs ∧ c_files c1 = files ∧ c_core c1 = core ∧ c_backing c1 = c_backing c ∧
  c_core c = core ∧ c_segments c = segs ∧ c_files c = files ∧
  c_backing c = open_backing open_file c0 ep sub sysroot ∧
  c_mappings c = build_mappings c1 ∧
  c_lwps c = fill_stack_range segs <$> n_lwps st ∧
  c_exec c = find_exec c1 (n_auxv st !! AT_PHDR).
Proof.
  unfold assemble. destruct (n_lwps st) as [|l ls]; [done|]. simpl.
  intros (facts & _ & [= <-])%outcome_bind_Ret.
  eexists (mkCore core segs files ∅ [] (l :: ls) _ None None), (mkCore core segs files _ _ (l :: ls) _ None None).
  simpl. split_and!; try reflexivity.
Qed.
End assembled.

Lemma dumped_build_id_ext c c' p :
  c_core c = c_core c' → c_segments c = c_segments c' → c_files c = c_files c' →
  dumped_build_id c p = dumped_build_id c' p.
Proof. destruct c, c'. simpl. intros -> -> ->. reflexivity. Qed.

Lemma find_exec_Some `{Goblin} c ph e :
  find_exec c ph = Some e →
  ∃ a f m, ph = Some a ∧ file_at (c_files c) a = Some f ∧ ei_path e = fm_path f ∧
    backing c (fm_path f) = Some m.
Proof.
  unfold find_exec. intros (a & -> & Hf)%bind_Some. apply bind_Some in Hf as (f & Hf & He).
  apply bind_Some in He as (m & Hm & He). apply bind_Some in He as (elf & _ & He).
  apply bind_Some in He as (b & _ & He). simplify_eq. exists a, f, m. done.
Qed.

Lemma build_mappings_segment `{Goblin} c s :
  s ∈ c_segments c → ∃ o, o ∈ build_mappings c ∧ vaddr o = seg_vaddr s ∧ size o = seg_memsz s.
Proof.
  intros Hs. exists (segment_mapping c s). split; [|done].
  unfold build_mappings, mappings_from_iter. rewrite sort_by_perm, elem_of_app. left.
  by apply list_elem_of_fmap_2.
Qed.

Lemma build_mappings_file `{Goblin} c f :
  f ∈ c_files c → overlaps_segment c f = false →
  ∃ o, o ∈ build_mappings c ∧ path o = Some (fm_path f) ∧ vaddr o = r_start (fm_range f).
Proof.
  intros Hf Ho. exists (file_mapping c f). split; [|done].
  unfold build_mappings, mappings_from_iter. rewrite sort_by_perm, elem_of_app. right.
  apply list_elem_of_fmap_2, list_elem_of_filter. done.
Qed.

(** ** The target a core is *)

Lemma core_read_bytes_len c a n bs :
  core_read_bytes c a n = Ok bs → Z.of_nat (length bs) = n.
Proof.
  unfold core_read_bytes. intros Hr. destruct (pslice c a n) as [bs'|] eqn:E; [|done].
  simplify_eq. unfold pslice, segment_slice in E.
  destruct (dumped_at _ _).
  - case_match; [done|]. by eapply get_from_length.
  - apply bind_Some in E as (f & _ & E). case_match; [done|].
    apply bind_Some in E as (m & _ & E). by eapply get_from_length.
Qed.

#[export] Instance linux_target `{Goblin} : Target Core := {
  read_bytes := core_read_bytes;
  readable_len := core_readable_len;
  lookup_symbol_by_addr := core_lookup_symbol_by_addr;
  lookup_symbol_by_name c nm :=
    match core_lookup_symbol_by_name c nm with Ret r => r | Panic => None end;
  symbols := core_symbols;
  object_symbols := core_object_symbols;
  fatal_signal := c_fatal;
  lwp_name _ _ := None;
  agent_lwp _ := None;
  process_facts := c_facts;
  exec_path c := ei_path <$> c_exec c;
  build_ids c := Some (core_build_ids c);
  backing_file_problem := core_backing_file_problem;
  recorded_heap_evidence _ := None;
  mappings c := Ok (c_mappings c);
  captured_runs _ := None;
  lwps c := Ok (c_lwps c);
  tls_var_addr := core_tls_var_addr;
  exec_bias c := ei_bias <$> c_exec c;
  read_bytes_len := core_read_bytes_len
}.

(** ** What holds of an opened core

    The kernel's part, over what the open sorts: the segments and the entries
    of the file table are nonempty, disjoint and inside the address space, no
    more of a segment is dumped than is mapped, and no entry runs into the
    dumped part of a segment that starts inside it (the kernel writes one
    segment per mapping). *)
Definition mapped_end (s : Segment) : Z := seg_vaddr s + seg_memsz s.
Definition fm_start (f : FileMap) : Z := r_start (fm_range f).
Definition fm_end (f : FileMap) : Z := r_end (fm_range f).

Record segment_wf (s : Segment) : Prop := {
  sw_addr : 0 <= seg_vaddr s;
  sw_size : 0 <= seg_filesz s <= seg_memsz s;
  sw_end : seg_vaddr s + seg_memsz s < W64;
  sw_offset : 0 <= seg_offset s ∧ seg_offset s + seg_filesz s < W64
}.

Record file_wf (f : FileMap) : Prop := {
  fw_addr : 0 <= fm_start f;
  fw_end : fm_end f < W64;
  fw_offset : 0 <= fm_offset f ∧ fm_offset f + (fm_end f - fm_start f) < W64
}.

Record core_wf (c : Core) : Prop := {
  cw_segments : intervals_wf seg_vaddr mapped_end (c_segments c);
  cw_segment : Forall segment_wf (c_segments c);
  cw_files : intervals_wf fm_start fm_end (c_files c);
  cw_file : Forall file_wf (c_files c);
  cw_split : ∀ f s, f ∈ c_files c → s ∈ c_segments c →
    fm_start f < seg_vaddr s < fm_end f → seg_filesz s = 0
}.

(** ** Where an address falls *)

Lemma interval_find {A} (lo hi : A → Z) l x a :
  intervals_wf lo hi l →
  (i ← interval_index lo hi l x; l !! i) = Some a ↔ a ∈ l ∧ lo a <= x < hi a.
Proof.
  intros Hwf. split.
  - intros (i & (b & Hb & Hx)%interval_index_Some & Ha)%bind_Some; [|done].
    simplify_eq. split; [by eapply list_elem_of_lookup_2|done].
  - intros ([i Hi]%list_elem_of_lookup_1 & Hx). apply bind_Some. exists i.
    split; [|done]. apply interval_index_Some; [done|]. eauto.
Qed.

Lemma seg_range_end s : segment_wf s → r_end (seg_range s) = mapped_end s.
Proof. intros []. simpl. apply u64_add_small. unfold is_u64, mapped_end. lia. Qed.

Lemma dumped_end s : segment_wf s → r_end (dumped s) = seg_vaddr s + seg_filesz s.
Proof. intros []. simpl. apply u64_add_small. unfold is_u64. lia. Qed.

Lemma segment_at_Some segs a s :
  intervals_wf seg_vaddr mapped_end segs → Forall segment_wf segs →
  segment_at segs a = Some s ↔ s ∈ segs ∧ seg_vaddr s <= a < mapped_end s.
Proof.
  intros Hwf Hs. rewrite <-interval_find by done.
  unfold segment_at, interval_index.
  destruct (partition_point _ _) as [|i]; [done|].
  destruct (segs !! i) as [t|] eqn:Ei; [|done]. cbn [mbind option_bind].
  rewrite seg_range_end by (by eapply Forall_lookup_1).
  destruct (a <? mapped_end t); simpl; [by rewrite Ei|done].
Qed.

Lemma file_at_Some files a f :
  intervals_wf fm_start fm_end files →
  file_at files a = Some f ↔ f ∈ files ∧ fm_start f <= a < fm_end f.
Proof.
  intros Hwf. rewrite <-interval_find by done.
  unfold file_at, interval_index. fold fm_start.
  change (λ f, r_start (fm_range f) <=? a) with (λ f, fm_start f <=? a).
  destruct (partition_point _ _) as [|i]; [done|].
  destruct (files !! i) as [t|] eqn:Ei; [|done]. cbn [mbind option_bind].
  change (r_end (fm_range t)) with (fm_end t).
  destruct (a <? fm_end t); simpl; [by rewrite Ei|done].
Qed.

Section reads.
Context (c : Core) (Hwf : core_wf c).

Lemma dumped_at_Some a s :
  dumped_at (c_segments c) a = Some s ↔
    s ∈ c_segments c ∧ seg_vaddr s <= a < seg_vaddr s + seg_filesz s.
Proof.
  destruct Hwf as [Hi Hs _ _ _]. unfold dumped_at. split.
  - intros (t & [Hin Ha]%segment_at_Some & E)%bind_Some; [|done..].
    destruct (range_contains (dumped t) a) eqn:Ed; [|done]. simplify_eq.
    apply range_contains_spec in Ed. rewrite dumped_end in Ed; [done|].
    by apply (proj1 (Forall_forall _ _) Hs).
  - intros [Hin Ha]. pose proof (proj1 (Forall_forall _ _) Hs s Hin) as Hsw.
    apply bind_Some. exists s. split.
    + apply segment_at_Some; [done..|]. split; [done|]. destruct Hsw. unfold mapped_end. lia.
    + rewrite (proj2 (range_contains_spec _ _)); [done|]. by rewrite dumped_end.
Qed.

(** The byte of the address space: the core's own where it was dumped, and the
    backing file's elsewhere. *)
Definition byte_at (a : Z) : option Byte.byte :=
  match dumped_at (c_segments c) a with
  | Some s => c_core c !! Z.to_nat (seg_offset s + (a - seg_vaddr s))
  | None =>
      f ← file_at (c_files c) a;
      m ← backing c (fm_path f);
      m !! Z.to_nat (fm_offset f + (a - fm_start f))
  end.

Lemma byte_at_dumped a s i :
  dumped_at (c_segments c) a = Some s → 0 <= i → a + i < seg_vaddr s + seg_filesz s →
  byte_at (a + i) = c_core c !! Z.to_nat (seg_offset s + (a - seg_vaddr s) + i).
Proof.
  intros [Hin Ha]%dumped_at_Some Hi Hlt. unfold byte_at.
  rewrite (proj2 (dumped_at_Some (a + i) s)) by (split; [done|lia]).
  f_equal. f_equal. lia.
Qed.

(** An address the core did not dump, inside a file's entry: so are the rest of
    the entry's. *)
Lemma byte_at_file a f i :
  dumped_at (c_segments c) a = None → file_at (c_files c) a = Some f →
  0 <= i → a + i < fm_end f →
  byte_at (a + i) =
    m ← backing c (fm_path f); m !! Z.to_nat (fm_offset f + (a - fm_start f) + i).
Proof.
  intros Hd [Hin Ha]%file_at_Some Hi Hlt; [|by destruct Hwf]. unfold byte_at.
  destruct (dumped_at (c_segments c) (a + i)) as [s|] eqn:E.
  - apply dumped_at_Some in E as [Hs Hai].
    destruct (decide (seg_vaddr s <= a)).
    + rewrite (proj2 (dumped_at_Some a s)) in Hd by (split; [done|lia]). done.
    + rewrite (cw_split _ Hwf f s Hin Hs) in Hai by lia. lia.
  - rewrite (proj2 (file_at_Some _ (a + i) f (cw_files _ Hwf))) by (split; [done|lia]).
    cbn [mbind option_bind]. destruct (backing c (fm_path f)); [|done]. simpl.
    f_equal. f_equal. lia.
Qed.

(** Every address is served by one source, from a position to an end, or by
    none. *)
Lemma source_cases a :
  is_u64 a →
  ((∀ n, pslice c a n = None) ∧ readable_until c a = None ∧ byte_at a = None) ∨
  ∃ src p e,
    a < e < W64 ∧ 0 <= p ∧ p + (e - a) < W64 ∧
    readable_until c a = Some e ∧
    (∀ n, pslice c a n = if e - a <? n then None else m ← src; get_from m p n) ∧
    (∀ i, 0 <= i → a + i < e → byte_at (a + i) = m ← src; m !! Z.to_nat (p + i)).
Proof.
  intros Ha64. destruct (dumped_at (c_segments c) a) as [s|] eqn:Ed.
  - right. pose proof Ed as [Hin Ha]%dumped_at_Some.
    pose proof (proj1 (Forall_forall _ _) (cw_segment _ Hwf) s Hin) as Hs.
    exists (Some (c_core c)), (seg_offset s + (a - seg_vaddr s)), (seg_vaddr s + seg_filesz s).
    pose proof Hs as []. split_and!; try lia.
    + unfold readable_until. by rewrite Ed, dumped_end.
    + intros n. unfold pslice, segment_slice. rewrite Ed.
      rewrite (u64_sub_small a), (u64_sub_small (seg_filesz s)), u64_add_small
        by (unfold is_u64 in *; lia).
      by replace (seg_filesz s - (a - seg_vaddr s)) with (seg_vaddr s + seg_filesz s - a) by lia.
    + intros i Hi Hlt. by rewrite (byte_at_dumped a s).
  - destruct (file_at (c_files c) a) as [f|] eqn:Ef.
    + right. pose proof Ef as [Hin Ha]%file_at_Some; [|by destruct Hwf].
      pose proof (proj1 (Forall_forall _ _) (cw_file _ Hwf) f Hin) as [].
      exists (backing c (fm_path f)), (fm_offset f + (a - fm_start f)), (fm_end f).
      split_and!; try lia.
      * unfold readable_until. by rewrite Ed, Ef.
      * intros n. unfold pslice. rewrite Ed, Ef. cbn [mbind option_bind].
        fold (fm_start f) (fm_end f).
        rewrite (u64_sub_small (fm_end f)), (u64_sub_small a), u64_add_small
          by (unfold is_u64 in *; lia). done.
      * intros i Hi Hlt. by apply byte_at_file.
    + left. unfold pslice, readable_until, byte_at. rewrite Ed, Ef. done.
Qed.

(** A read of one source: served whole exactly when its bytes are there. *)
Lemma get_from_bytes (src : option (list Byte.byte)) p n :
  0 < n → 0 <= p → p + n < W64 →
  match m ← src; get_from m p n with
  | Some bs => Z.of_nat (length bs) = n ∧
      ∀ i, 0 <= i < n → is_Some (bs !! Z.to_nat i) ∧
        bs !! Z.to_nat i = m ← src; m !! Z.to_nat (p + i)
  | None => (m ← src; m !! Z.to_nat (p + (n - 1))) = None
  end.
Proof.
  intros Hn Hp Hw. destruct src as [m|]; [|done]. cbn [mbind option_bind].
  destruct (get_from m p n) as [bs|] eqn:E.
  - pose proof (get_from_length _ _ _ _ E) as Hl. split; [done|]. intros i Hi.
    split; [apply lookup_lt_is_Some; lia|]. by eapply get_from_lookup.
  - apply lookup_ge_None. destruct (decide (p + n <= Z.of_nat (length m))) as [Hle|]; [|lia].
    assert (get_from m p n = Some (take (Z.to_nat n) (drop (Z.to_nat p) m))) as E'
      by (apply get_from_Some; split_and!; done || lia).
    congruence.
Qed.
End reads.
