(* ===== verification/LinuxCoreTheorems.v ===== *)
(** What a Linux core serves and refuses: its reads, its open and its
    symbols. *)

From stdpp Require Import gmap.
From S2P Require Import Prelude Text Target CoreFile LinuxCore LinuxCoreFacts.

Local Open Scope Z_scope.

(** A core of one segment dumped in part, one left to its file, and an entry
    whose file is missing. *)
Definition demo_regs : Regs := Regs_default.
Definition demo_core : Core := {|
  c_core := Z_byte <$> z_range 0 12;
  c_segments := [mkSegment 4096 4096 8 4 6; mkSegment 12288 4096 0 12 5];
  c_files := [mkFileMap (Range 12288 16384) 0 "/bin/a";
              mkFileMap (Range 20480 24576) 4096 "/lib/b"];
  c_backing := {[ "/bin/a" := InUse (Z_byte <$> z_range 64 32);
                  "/lib/b" := Problem "the backing file is not on this machine" ]};
  c_mappings := [];
  c_lwps := [];
  c_fatal := None;
  c_exec := Some (mkExec "/bin/a" 12288 8);
  c_facts := None
|}.

Lemma demo_core_wf : core_wf demo_core.
Proof.
  split; simpl.
  - split; repeat constructor; done.
  - repeat constructor; done.
  - split; repeat constructor; done.
  - repeat constructor; done.
  - intros f s Hf Hs. rewrite !list_elem_of_In in *. simpl in *.
    destruct Hf as [<-|[<-|[]]], Hs as [<-|[<-|[]]]; unfold fm_start, fm_end; simpl; lia.
Qed.

(** C35: a read of a core gives exactly the bytes of the address space, the
    core's own where it dumped them and the backing file's elsewhere; one it
    refuses runs past the source the address is in, by [readable_len], or wants
    a byte no source has.  The segments and the table are as the kernel writes
    them. *)
Theorem core_reads_exact (c : Core) (a n : Z)
    (Hwf : core_wf c) (Ha : is_u64 a) (Hn : 0 < n) :
  match core_read_bytes c a n with
  | Ok bs => Z.of_nat (length bs) = n ∧ core_readable_len c a n = n ∧
      ∀ i, 0 <= i < n → is_Some (byte_at c (a + i)) ∧
        byte_at c (a + i) = bs !! Z.to_nat i
  | Err e => e = Unmapped a n ∧
      (core_readable_len c a n < n ∨ ∃ i, 0 <= i < n ∧ byte_at c (a + i) = None)
  end.
Proof.
  unfold core_read_bytes, core_readable_len.
  destruct (source_cases c Hwf a Ha) as [(Hp & Hu & Hb)|(src & p & e & He & Hp0 & Hpe & Hu & Hp & Hb)].
  - rewrite Hp, Hu. split; [done|]. lia.
  - rewrite Hp, Hu, u64_sub_small by (unfold is_u64 in *; lia).
    destruct (Z.ltb_spec (e - a) n); [split; [done|]; lia|].
    pose proof (get_from_bytes src p n Hn Hp0 ltac:(lia)) as Hg.
    destruct (m ← src; get_from m p n) as [bs|].
    + destruct Hg as [Hl Hg]. split_and!; [done|lia|]. intros i Hi.
      rewrite Hb by lia. destruct (Hg i Hi) as [? <-]. done.
    + split; [done|]. right. exists (n - 1). split; [lia|]. by rewrite Hb by lia.
Qed.

Lemma core_reads_exact_witness :
  core_wf demo_core ∧
  core_read_bytes demo_core 4098 4 = Ok (Z_byte <$> z_range 6 4) ∧
  core_read_bytes demo_core 12290 3 = Ok (Z_byte <$> z_range 66 3) ∧
  core_read_bytes demo_core 4100 8 = Err (Unmapped 4100 8) ∧
  (core_readable_len demo_core 4100 8 < 8 ∨
   ∃ i, 0 <= i < 8 ∧ byte_at demo_core (4100 + i) = None).
Proof.
  split; [exact demo_core_wf|]. split; [reflexivity|]. split; [reflexivity|].
  split; [reflexivity|].
  exact (proj2 (core_reads_exact demo_core 4100 8 demo_core_wf
                  ltac:(unfold is_u64; lia) ltac:(lia))).
Defined.

(** [readable_len] counts bytes of a file's entry that no read serves: those of
    a file that is not in use, and those past the end of one that is. *)
Example readable_len_past_the_file :
  core_wf demo_core ∧
  core_readable_len demo_core 20480 8 = 8 ∧
  core_read_bytes demo_core 20480 8 = Err (Unmapped 20480 8) ∧
  core_readable_len demo_core 12318 4 = 4 ∧
  core_read_bytes demo_core 12318 4 = Err (Unmapped 12318 4).
Proof. split; [exact demo_core_wf|]. repeat split; reflexivity. Qed.

(** ** Opening *)

Section opening.
Context `{Goblin} (open_file : string → list Byte.byte + OpenError).

(** C40: opening a core panics exactly when a file-table note that the earlier
    notes do not stop it from reaching claims more entries than a vector can
    hold; whatever else the file says, it opens or is refused with an error. *)
Theorem open_panics_exactly (core_path : string) (binary sysroot : option string) :
  open_with open_file core_path binary sysroot = Panic ↔
    ∃ core elf pre n rest st,
      open_file core_path = inl core ∧ elf_parse core = Some elf ∧ e_type elf = ET_CORE ∧
      note_headers elf core = (Some <$> pre) ++ Some n :: rest ∧
      read_notes (Some <$> pre) notes_empty = Ret (Ok st) ∧
      n_type n = NT_FILE ∧ count_overflows (desc n).
Proof.
  unfold open_with. destruct (open_file core_path) as [core|e]; [|naive_solver].
  destruct (elf_parse core) as [elf|] eqn:Ep; [|naive_solver].
  destruct (Z.eqb_spec (e_type elf) ET_CORE) as [Et|Et]; cbn [negb]; [|naive_solver].
  destruct (read_notes (note_headers elf core) notes_empty) as [[st|e]|] eqn:Er; cbn -[read_notes].
  - apply read_notes_Ok in Er as Hok; [|done]. destruct Hok as [Hok _].
    split.
    + case_bool_decide as Hl; [done|]. destruct (open_substitute _ _ _) as [sub|]; [|done].
      match goal with |- context [assemble ?a ?b ?d ?e ?f ?g ?h ?i] =>
        destruct (assemble_Ret a b d e f g h i Hl Hok) as [c Hc] end.
      rewrite Hc. done.
    + intros (core' & elf' & pre & n & rest & st' & [= <-] & Hp & _ & Hns & Hpre & Hn).
      simplify_eq. assert (read_notes (note_headers elf core) notes_empty = Panic)
        by (apply read_notes_Panic; rewrite Hns; eauto 10). congruence.
  - split; [done|].
    intros (core' & elf' & pre & n & rest & st' & [= <-] & Hp & _ & Hns & Hpre & Hn).
    simplify_eq. assert (read_notes (note_headers elf core) notes_empty = Panic)
      by (apply read_notes_Panic; rewrite Hns; eauto 10). congruence.
  - split; [|done]. intros _.
    apply read_notes_Panic in Er as (pre & n & rest & st & Hns & Hpre & Hn).
    exists core, elf, pre, n, rest, st. done.
Qed.

(** C15: an opened core has the file's load segments and file table in address
    order, a thread for every thread note in note order, a mapping for every
    segment and for every entry no segment meets, an answer for every file of
    its table and no other, and an executable that is one of them; and every
    file in use but the given binary carries no build id other than the one the
    core recorded for it. *)
Theorem open_core_exact (core_path : string) (binary sysroot : option string) (c : Core)
    (Hopen : open_with open_file core_path binary sysroot = Ret (Ok c)) :
  ∃ core elf, open_file core_path = inl core ∧ elf_parse core = Some elf ∧
    c_core c = core ∧
    c_segments c = load_segments elf ∧
    StronglySorted (λ a b, seg_vaddr a <= seg_vaddr b) (c_segments c) ∧
    StronglySorted (λ a b, r_start (fm_range a) <= r_start (fm_range b)) (c_files c) ∧
    tid <$> c_lwps c = thread_ids (note_headers elf core) ∧ c_lwps c ≠ [] ∧
    StronglySorted (λ a b, vaddr a <= vaddr b) (c_mappings c) ∧
    (∀ s, s ∈ c_segments c →
      ∃ o, o ∈ c_mappings c ∧ vaddr o = seg_vaddr s ∧ size o = seg_memsz s) ∧
    (∀ f, f ∈ c_files c → overlaps_segment c f = false →
      ∃ o, o ∈ c_mappings c ∧ path o = Some (fm_path f) ∧ vaddr o = r_start (fm_range f)) ∧
    (∀ p, is_Some (c_backing c !! p) ↔ p ∈ fm_path <$> c_files c) ∧
    (∀ e, c_exec c = Some e → ei_path e ∈ fm_path <$> c_files c ∧ is_Some (backing c (ei_path e))) ∧
    (∀ p file, c_backing c !! p = Some (InUse file) →
      disagree (mkBuildIds (dumped_build_id c p) (file_build_id file)) = false ∨
      ∃ b a, binary = Some b ∧ open_file b = inl file ∧
        fm_path <$> file_at (c_files c) a = Some p).
Proof.
  unfold open_with in Hopen. destruct (open_file core_path) as [core|e]; [|done].
  destruct (elf_parse core) as [elf|] eqn:Ep; [|done].
  destruct (negb _); [done|]. apply outcome_bind_Ret in Hopen as ([st|] & Hr & Hopen); [|done].
  case_bool_decide as Hl; [done|]. cbv zeta in Hopen.
  destruct (open_substitute _ _ _) as [sub|] eqn:Esub; [|done].
  apply outcome_bind_Ret in Hopen as (c' & Ha & [= ->]).
  apply read_notes_Ok in Hr as [_ Ht]; [|done].
  apply assemble_fields in Ha as (c0 & c1 & Hs0 & Hf0 & Hc0 & Hs1 & Hf1 & Hc1 & Hb1 & Hc & Hs & Hf & Hb & Hm & Hw & He).
  exists core, elf. split_and!; try done.
  - rewrite Hs. apply sort_by_key_sorted.
  - rewrite Hf. apply sort_by_key_sorted.
  - rewrite Hw, <-list_fmap_compose. exact Ht.
  - rewrite Hw. by destruct (n_lwps st).
  - rewrite Hm. apply sort_by_key_sorted.
  - rewrite Hm, Hs, <-Hs1. apply build_mappings_segment.
  - rewrite Hm, Hf, <-Hf1. intros f Hin Ho. apply build_mappings_file; [done|].
    unfold overlaps_segment in *. by rewrite Hs1, <-Hs.
  - intros p. rewrite Hb, open_backing_lookup, Hf0, <-Hf.
    case_decide; split; done.
  - intros e Hx. rewrite He in Hx. apply find_exec_Some in Hx as (a & f & m & _ & Hfa & -> & Hbk).
    split.
    + apply list_elem_of_fmap_2. rewrite Hf, <-Hf1. unfold file_at in Hfa.
      destruct (partition_point _ _); [done|].
      apply bind_Some in Hfa as (g & Hg & Hfa). case_match; [|done]. simplify_eq.
      by eapply list_elem_of_lookup_2.
    + unfold backing in *. rewrite <-Hb1. by rewrite Hbk.
  - intros p file Hp. rewrite Hb, open_backing_lookup in Hp. case_decide; [|done].
    injection Hp as Hp. rewrite (dumped_build_id_ext c c0) by congruence.
    unfold backing_of in Hp. destruct sub as [sfile|].
    + case_decide as Hep; [|left; by eapply open_recorded_held]. injection Hp as <-.
      right. unfold open_substitute in Esub. destruct binary as [b|]; [|done].
      case_bool_decide; [done|]. destruct (open_file b) as [file|] eqn:Eb; [|done].
      simplify_eq. apply fmap_Some in Hep as (f & Hep & ->).
      apply bind_Some in Hep as (a & _ & Hfa).
      exists b, a. rewrite Hf. split_and!; [done..|]. by rewrite Hfa.
    + left. by eapply open_recorded_held.
Qed.
End opening.

(** ** Symbols *)

Section symbols.
Context `{Goblin}.

(** What a list of the object's symbols holds of the entries of its kind. *)
Definition holds_entries (l es : list SymbolBuf) : Prop :=
  StronglySorted (λ x y, symbol_leb y x = false) l ∧
  (∀ sym, sym ∈ l → sym ∈ es) ∧
  (∀ sym, sym ∈ es → ∃ t, t ∈ l ∧ name t = name sym ∧ st_value t = st_value sym).

Lemma symbol_list_holds es : holds_entries (symbol_list es) es.
Proof.
  pose proof (sort_dedup_spec symbol_leb symbol_same symbol_leb_total symbol_leb_trans
    symbol_same_spec es) as (Hs & Hin & Hcov).
  split_and!; [done..|]. intros sym Hsym. destruct (Hcov sym Hsym) as (t & Ht & Hst).
  exists t. split; [done|]. unfold symbol_same in Hst.
  rewrite andb_true_iff, String.eqb_eq, Z.eqb_eq in Hst. destruct Hst. done.
Qed.

(** An object's functions and objects hold, in strict order of address and
    name, one symbol for each name and address its two tables give an entry of
    that kind, and nothing else; the lookup by address answers with the last
    function at or below, when it covers the address, and the lookup by name
    with the first of the name in functions then objects, as a scan would. *)
Theorem object_symbols_exact (elf : Elf) (bias : Z) :
  let s := symbols_of_elf elf bias in
  holds_entries (functions s) (snd <$> filter (λ e, e.1 = STT_FUNC) (symbol_entries elf bias)) ∧
  holds_entries (objects s)
    (snd <$> filter (λ e, e.1 = STT_OBJECT ∨ e.1 = STT_TLS) (symbol_entries elf bias)) ∧
  (∀ a sym, function_at (functions s) a = Some sym ↔
    nearest (functions s) a sym ∧ a < u64_add (st_value sym) (st_size sym)) ∧
  (∀ nm, is_u32 (Z.of_nat (length (functions s ++ objects s))) →
    find_by_name s nm =
      Ret (find_first (λ sym, String.eqb (name sym) nm) (functions s ++ objects s))).
Proof.
  intros s. split; [apply symbol_list_holds|]. split; [apply symbol_list_holds|]. split.
  - intros a sym. apply function_at_exact. apply (symbol_list_holds _).
  - intros nm. apply find_by_name_scan.
Qed.

Lemma symbols_of_sorted c p s :
  symbols_of c p = Some s → StronglySorted (λ x y, symbol_leb y x = false) (functions s).
Proof.
  unfold symbols_of. intros (m & _ & [= <-])%bind_Some.
  destruct (elf_parse m) as [elf|]; [|constructor]. apply (symbol_list_holds _).
Qed.

(** An address resolves to the nearest function at or below it in the file
    mapped there, when the function covers it; a name, to the first symbol of
    it in the executable, once an object qualifier names the executable by its
    path or its file name; nothing else resolves, and no lookup panics. *)
Theorem core_lookups_exact (c : Core) (a : Z) (nm : string)
    (Hfit : ∀ p s, symbols_of c p = Some s →
              is_u32 (Z.of_nat (length (functions s ++ objects s)))) :
  (∀ sym, core_lookup_symbol_by_addr c a = Some sym ↔
    ∃ f s, file_at (c_files c) a = Some f ∧ symbols_of c (fm_path f) = Some s ∧
      nearest (functions s) a sym ∧ a < u64_add (st_value sym) (st_size sym)) ∧
  ∃ r, core_lookup_symbol_by_name c nm = Ret r ∧
    ∀ sym, r = Some sym ↔
      ∃ e n s, c_exec c = Some e ∧ symbols_of c (ei_path e) = Some s ∧
        (split_once backtick nm = None ∧ n = nm ∨
         ∃ object, split_once backtick nm = Some (object, n) ∧
           (object = ei_path e ∨ object = after_last slash (ei_path e))) ∧
        find_first (λ sym, String.eqb (name sym) n) (functions s ++ objects s) = Some sym.
Proof.
  split.
  - intros sym. unfold core_lookup_symbol_by_addr. rewrite bind_Some.
    split.
    + intros (f & Hf & (s & Hs & Hsym)%bind_Some). exists f, s.
      apply function_at_exact in Hsym; [done|by eapply symbols_of_sorted].
    + intros (f & s & Hf & Hs & Hsym). exists f. split; [done|]. apply bind_Some. exists s.
      split; [done|]. apply function_at_exact; [by eapply symbols_of_sorted|done].
  - unfold core_lookup_symbol_by_name, exec_symbol_name.
    destruct (c_exec c) as [e|]; [|exists None; naive_solver]. cbn [try_bind].
    destruct (split_once backtick nm) as [[object n]|] eqn:Esp.
    + destruct (String.eqb object (ei_path e) || _) eqn:Eo.
      * destruct (symbols_of c (ei_path e)) as [s|] eqn:Es; [|exists None; naive_solver].
        cbn [try_bind]. rewrite find_by_name_scan by (by eapply Hfit).
        eexists. split; [done|]. intros sym. rewrite orb_true_iff, !String.eqb_eq in Eo.
        split; [intros ?; exists e, n, s; eauto 10|naive_solver].
      * exists None. split; [done|]. intros sym. apply orb_false_iff in Eo.
        rewrite !String.eqb_neq in Eo. naive_solver.
    + destruct (symbols_of c (ei_path e)) as [s|] eqn:Es; [|exists None; naive_solver].
      cbn [try_bind]. rewrite find_by_name_scan by (by eapply Hfit).
      eexists. split; [done|]. intros sym.
      split; [intros ?; exists e, nm, s; eauto 10|naive_solver].
Qed.
End symbols.

(** ** A core to open

    A goblin that reads the kind of a file off its second byte, a core of one
    thread over an executable that is there and a library that is not. *)

Definition demo_words (l : list Z) : list Byte.byte := mjoin (to_le_bytes 8 <$> l).

Definition demo_sym (n value : Z) (info : Z) : Sym := mkSym n info 0 1 value 8.

#[local] Instance demo_goblin : Goblin := {|
  Elf := list Byte.byte;
  elf_parse bs := match bs with Byte.x7f :: _ => Some bs | _ => None end;
  e_type bs := default 0 (byte_Z <$> bs !! 1%nat);
  program_headers bs :=
    if default 0 (byte_Z <$> bs !! 1%nat) =? ET_CORE then
      [mkPhdr PT_LOAD 5 12 12288 0 4096 4096; mkPhdr PT_LOAD 6 4 4096 8 4096 4096]
    else [mkPhdr PT_LOAD 5 0 0 4096 4096 4096; mkPhdr PT_TLS 4 0 0 0 5 8];
  syms bs := [demo_sym 1 16 18; demo_sym 2 64 17; demo_sym 3 0 18];
  strtab _ z := if z =? 1 then Some "main"%string else if z =? 2 then Some "state"%string
                else Some "memcpy"%string;
  dynsyms bs := [demo_sym 1 16 18];
  dynstrtab _ z := Some "main"%string;
  note_headers _ _ :=
    [Some (mkNote NT_PRSTATUS (repeat Byte.x07 336));
     Some (mkNote NT_FILE
       (demo_words [2; 4096; 12288; 16384; 0; 20480; 24576; 1] ++
        bytes_of_string "/bin/a" ++ [Byte.x00] ++ bytes_of_string "/lib/b" ++ [Byte.x00]));
     Some (mkNote NT_AUXV (demo_words [AT_PHDR; 12352; 0; 0]))];
  parse_phdrs _ := None
|}.

Definition demo_open (p : string) : list Byte.byte + OpenError :=
  if String.eqb p "core" then inl (Byte.x7f :: Byte.x04 :: (Z_byte <$> z_range 2 10))
  else if String.eqb p "/bin/a" then inl (Byte.x7f :: Byte.x03 :: (Z_byte <$> z_range 2 30))
  else inr (NotFound "No such file or directory").

Definition demo_opened : Core :=
  match open_with demo_open "core" None None with Ret (Ok c) => c | _ => demo_core end.

Lemma open_core_exact_witness :
  open_with demo_open "core" None None = Ret (Ok demo_opened) ∧
  tid <$> c_lwps demo_opened = [117901063] ∧
  c_exec demo_opened = Some (mkExec "/bin/a" 12288 8) ∧
  ∀ p, is_Some (c_backing demo_opened !! p) ↔ p ∈ ["/bin/a"; "/lib/b"]%string.
Proof.
  assert (open_with demo_open "core" None None = Ret (Ok demo_opened)) as Ho
    by (vm_compute; reflexivity).
  split; [exact Ho|]. split; [vm_compute; reflexivity|]. split; [vm_compute; reflexivity|].
  pose proof (open_core_exact demo_open "core" None None demo_opened Ho)
    as (core & elf & _ & _ & _ & _ & _ & _ & _ & _ & _ & _ & _ & Hb & _).
  exact Hb.
Defined.

Definition demo_main : SymbolBuf := mkSymbol "main" 1 18 0 1 12304 8.

Lemma demo_fits p s :
  symbols_of demo_opened p = Some s → is_u32 (Z.of_nat (length (functions s ++ objects s))).
Proof.
  intros Hs. apply (symbols_of_length _ _ _ 8) in Hs; [|intros elf; simpl; lia].
  unfold is_u32. lia.
Qed.

Lemma core_lookups_exact_witness :
  core_lookup_symbol_by_addr demo_opened 12310 = Some demo_main ∧
  core_lookup_symbol_by_name demo_opened "a`main" = Ret (Some demo_main) ∧
  core_lookup_symbol_by_name demo_opened "b`main" = Ret None ∧
  ∃ f s, file_at (c_files demo_opened) 12310 = Some f ∧
    symbols_of demo_opened (fm_path f) = Some s ∧ nearest (functions s) 12310 demo_main ∧
    12310 < u64_add (st_value demo_main) (st_size demo_main).
Proof.
  assert (core_lookup_symbol_by_addr demo_opened 12310 = Some demo_main) as Ha
    by (vm_compute; reflexivity).
  split; [exact Ha|]. split; [vm_compute; reflexivity|]. split; [vm_compute; reflexivity|].
  refine (proj1 (proj1 (core_lookups_exact demo_opened 12310 "main" _) demo_main) Ha).
  intros p s Hs. exact (demo_fits p s Hs).
Defined.
