(* ===== verification/Umem.v ===== *)
(** libumem's account of a target's heap ([hansei-runtime/src/heap/umem.rs]):
    the layout constants, the index [UmemHeap] with its slabs, caches, arenas
    and bitmaps, and every question asked of a finished index: [locate],
    [allocation], the buffer enumerations, the self-consistency checks and the tags
    malloc leaves before a block.

    The walk that builds an index is in [UmemWalk].  A bitmap is the list of its
    words; an index into one, a slab's cache or a division is an [outcome], with
    the panic it would be. *)

From S2P Require Import Prelude Target Text.

Local Open Scope Z_scope.

(** ** Constants *)

Definition LIBUMEM : string := "libumem.so.1".
Definition UMEM_READY : Z := 3.
Definition UMF_NOMAGAZINE : Z := 0x20.
Definition UMF_HASH : Z := 0x200.
Definition UMF_PTC : Z := 0x800.

(** The bounds that turn a cycle into a decline.  The ones a loop counts
    against are the number of turns it may take. *)
Definition MAX_CACHES : nat := Z.to_nat 4096.
Definition MAX_SLABS_PER_CACHE : nat := Z.to_nat 2097152.
Definition MAX_CHUNKS_PER_SLAB : Z := 1048576.
Definition MAX_HASH_BUCKETS : Z := 16777216.
Definition MAX_CPUS : Z := 4096.
Definition MAX_ROUNDS : Z := 4096.
Definition MAX_MAGAZINES : Z := 4194304.
Definition MAX_PTC_BUFFERS : nat := Z.to_nat 1048576.
Definition NTMEMBASE : nat := 16.
Definition MAX_SEGS : nat := Z.to_nat 4194304.
Definition MAX_NOTES : nat := 32.

Definition VMEM_ALLOC : Z := 0x01.
Definition VMEM_FREE : Z := 0x02.
Definition VMEM_SPAN : Z := 0x10.

Definition MALLOC_ARENAS : list (string * string) :=
  [("umem_oversize_arena", "umem_oversize");
   ("umem_memalign_arena", "umem_memalign")]%string.

(** ** Layouts *)

Record Layout := mkLayout {
  l_name : string;
  cache_name : Z; cache_bufsize : Z; cache_flags : Z; cache_next : Z;
  cache_prev : Z; cache_chunksize : Z; cache_slabsize : Z; cache_bufctl : Z;
  cache_hash_mask : Z; cache_nullslab : Z; cache_hash_table : Z; slab_cache : Z;
  slab_base : Z; slab_next : Z; slab_prev : Z; slab_head : Z; slab_refcnt : Z;
  slab_chunks : Z; slab_size : Z; bufctl_next : Z; bufctl_addr : Z;
  cache_cpu_mask : Z; cache_magtype : Z; cache_full : Z; cache_cpu : Z;
  cpu_cache : Z; cc_loaded : Z; cc_ploaded : Z; cc_rounds : Z; cc_prounds : Z;
  cc_magsize : Z; ml_list : Z; ml_total : Z; mag_next : Z; mag_round : Z;
  mt_magsize : Z; vm_name : Z; vm_seg0 : Z; vs_start : Z; vs_end : Z; vs_anext : Z;
  vs_aprev : Z; vs_type : Z
}.

Definition LP64 : Layout := {|
  l_name := "lp64";
  cache_name := 88; cache_bufsize := 120; cache_flags := 180; cache_next := 192;
  cache_prev := 200; cache_chunksize := 256; cache_slabsize := 264;
  cache_bufctl := 272; cache_hash_mask := 336; cache_nullslab := 352;
  cache_hash_table := 416; slab_cache := 0; slab_base := 8; slab_next := 16;
  slab_prev := 24; slab_head := 32; slab_refcnt := 40; slab_chunks := 48;
  slab_size := 56; bufctl_next := 0; bufctl_addr := 8; cache_cpu_mask := 224;
  cache_magtype := 448; cache_full := 456; cache_cpu := 536; cpu_cache := 64;
  cc_loaded := 32; cc_ploaded := 40; cc_rounds := 48; cc_prounds := 52;
  cc_magsize := 56; ml_list := 0; ml_total := 8; mag_next := 0; mag_round := 8;
  mt_magsize := 0; vm_name := 0; vm_seg0 := 184; vs_start := 0; vs_end := 8;
  vs_anext := 32; vs_aprev := 40; vs_type := 48
|}.

Definition LAYOUTS : list Layout := [LP64].

(** ** Answers *)

Inductive Source :=
  | SourceCache (i : Z)
  | SourceArena (i : Z).

Inductive Liveness :=
  | Live (buffer : range) (source : Source)
  | Freed (buffer : range) (source : Source)
  | Unknown.

Inductive Size :=
  | Requested (n : Z)
  | Block (n : Z).

Record Allocation := mkAllocation { al_live : bool; al_size : Size; al_offset : Z }.

(** ** The index *)

Record Cache := mkCache {
  ca_addr : Z; ca_name : string;
  ca_bufsize : Z; ca_chunksize : Z; ca_slabsize : Z; ca_flags : Z;
  ca_slabs : Z; ca_slabs_declined : Z;
  ca_live : Z; ca_freed : Z; ca_parked : Z; ca_parked_walked : bool;
  ca_bufctl : Z
}.

Definition hashed (c : Cache) : bool := negb (Z.land (ca_flags c) UMF_HASH =? 0).

Record Stats := mkStats {
  st_layout : string; st_caches : Z; st_caches_declined : Z; st_slabs : Z;
  st_slabs_declined : Z; st_live_chunks : Z; st_freed_chunks : Z;
  st_parked_chunks : Z; st_live_bytes : Z; st_overlaps : Z;
  st_magazines_walked : bool; st_ptc_walked : bool; st_caches_parked_declined : Z;
  st_oversize_walked : bool; st_arenas : Z; st_arena_live : Z;
  st_arena_live_bytes : Z; st_arena_freed : Z; st_notes : list string
}.

Definition Stats_default (layout : string) : Stats :=
  mkStats layout 0 0 0 0 0 0 0 0 0 false false 0 false 0 0 0 0 [].

Definition incomplete (s : Stats) : bool :=
  (0 <? st_caches_declined s) || (0 <? st_slabs_declined s) ||
  (0 <? st_overlaps s) || (0 <? st_caches_parked_declined s).

Record Slab := mkSlab {
  sl_base : Z; sl_chunksize : Z; sl_chunks : Z; sl_cache : Z;
  sl_free : list Z; sl_parked : list Z
}.

Record Arena := mkArena {
  ar_addr : Z; ar_name : string;
  ar_segs : Z; ar_live : Z; ar_freed : Z; ar_live_bytes : Z
}.

Record Seg := mkSeg { sg_start : Z; sg_end : Z; sg_arena : Z; sg_live : bool }.

Record UmemHeap := mkUmemHeap {
  h_caches : list Cache;
  h_slabs : list Slab;
  h_parked : list Z;
  h_arenas : list Arena;
  h_segs : list Seg;
  h_arena_span : range;
  h_stats : Stats
}.

(** ** Bitmaps *)

(** Bit [chunk] of a bitmap that may be empty. *)
Definition bit (map : list Z) (chunk : Z) : bool :=
  match map !! Z.to_nat (chunk / 64) with
  | Some word => Z.land (Z.shiftr word (chunk `mod` 64)) 1 =? 1
  | None => false
  end.

(** [map[chunk / 64] |= 1 << (chunk % 64)]. *)
Definition set_bit (map : list Z) (chunk : Z) : outcome (list Z) :=
  word ← or_panic (map !! Z.to_nat (chunk / 64));
  Ret (<[Z.to_nat (chunk / 64) := Z.lor word (Z.shiftl 1 (chunk `mod` 64))]> map).

(** [u64::count_ones]. *)
Definition count_ones (w : Z) : Z :=
  Z.of_nat (length (filter (λ i, Z.testbit w i = true) (z_range 0 64))).

Definition popcount (map : list Z) : Z := sum_u64 (count_ones <$> map).

(** [vec![0; chunks.div_ceil(64)]]. *)
Definition blank_bitmap (chunks : Z) : list Z :=
  replicate (Z.to_nat ((chunks + 63) / 64)) 0.

(** ** Slabs *)

Definition slab_end (s : Slab) : Z :=
  u64_add (sl_base s) (u64_mul (sl_chunks s) (sl_chunksize s)).
Definition is_free (s : Slab) (chunk : Z) : bool := bit (sl_free s) chunk.
Definition is_parked (s : Slab) (chunk : Z) : bool := bit (sl_parked s) chunk.
Definition is_held (s : Slab) (chunk : Z) : bool := is_free s chunk || is_parked s chunk.
Definition freed (s : Slab) : Z := popcount (sl_free s).

Definition base_of (s : Slab) (addr : Z) : outcome Z :=
  q ← div_u64 (u64_sub addr (sl_base s)) (sl_chunksize s);
  Ret (u64_add (sl_base s) (u64_mul q (sl_chunksize s))).

(** The chunk index of [addr], as the callers spell it. *)
Definition chunk_of (s : Slab) (addr : Z) : outcome Z :=
  q ← div_u64 (u64_sub addr (sl_base s)) (sl_chunksize s); Ret (as_u32 q).

Definition slab_index (slabs : list Slab) (addr : Z) : option nat :=
  match partition_point (λ s, sl_base s <=? addr) slabs with
  | O => None
  | S at_ => s ← slabs !! at_; if addr <? slab_end s then Some at_ else None
  end.

Definition slab_at (slabs : list Slab) (addr : Z) : option Slab :=
  i ← slab_index slabs addr; slabs !! i.

(** [self.caches[i]]. *)
Definition cache_ix (caches : list Cache) (i : Z) : outcome Cache :=
  or_panic (caches !! Z.to_nat i).

(** ** What the index says of an address *)

Definition locate_in_arena (h : UmemHeap) (addr : Z) : Liveness :=
  if negb (range_contains (h_arena_span h) addr) then Unknown
  else
    match partition_point (λ s, sg_start s <=? addr) (h_segs h) with
    | O => Unknown
    | S i =>
        match h_segs h !! i with
        | Some seg =>
            if addr <? sg_end seg then
              let buffer := Range (sg_start seg) (sg_end seg) in
              let source := SourceArena (sg_arena seg) in
              if sg_live seg then Live buffer source else Freed buffer source
            else Unknown
        | None => Unknown
        end
    end.

Definition locate (h : UmemHeap) (addr : Z) : outcome Liveness :=
  match slab_at (h_slabs h) addr with
  | None => Ret (locate_in_arena h addr)
  | Some slab =>
      index ← chunk_of slab addr;
      let start := u64_add (sl_base slab) (u64_mul index (sl_chunksize slab)) in
      cache ← cache_ix (h_caches h) (sl_cache slab);
      let buffer := Range start (u64_add start (ca_bufsize cache)) in
      if negb (range_contains buffer addr) then Ret Unknown
      else
        let source := SourceCache (sl_cache slab) in
        Ret (if is_held slab index then Freed buffer source else Live buffer source)
  end.

(** Every buffer of a slab whose verdict is [live], by chunk. *)
Definition slab_buffers (slab : Slab) (bufsize : Z) (live : bool) : list range :=
  (λ i, let start := u64_add (sl_base slab) (u64_mul i (sl_chunksize slab)) in
        Range start (u64_add start bufsize))
  <$> filter (λ i, Bool.eqb (is_held slab i) live = false)
        (z_range 0 (Z.to_nat (sl_chunks slab))).

Fixpoint buffers_of (caches : list Cache) (slabs : list Slab) (live : bool)
    : outcome (list range) :=
  match slabs with
  | [] => Ret []
  | slab :: slabs =>
      cache ← cache_ix caches (sl_cache slab);
      rest ← buffers_of caches slabs live;
      Ret (slab_buffers slab (ca_bufsize cache) live ++ rest)
  end.

Definition buffers (h : UmemHeap) (live : bool) : outcome (list range) :=
  buffers_of (h_caches h) (h_slabs h) live.

Definition live_buffers (h : UmemHeap) : outcome (list range) := buffers h true.
Definition freed_buffers (h : UmemHeap) : outcome (list range) := buffers h false.

Definition arena_extents (h : UmemHeap) (live : bool) : list range :=
  (λ s, Range (sg_start s) (sg_end s)) <$>
    filter (λ s, Bool.eqb (sg_live s) live = true) (h_segs h).

Definition source_name (h : UmemHeap) (source : Source) : outcome string :=
  match source with
  | SourceCache i => ca_name <$> cache_ix (h_caches h) i
  | SourceArena i => ar_name <$> or_panic (h_arenas h !! Z.to_nat i)
  end.

(** ** Self-consistency *)

(** [counts[i] += 1]. *)
Definition bump (counts : list Z) (i : Z) : outcome (list Z) :=
  n ← or_panic (counts !! Z.to_nat i);
  Ret (<[Z.to_nat i := u64_add n 1]> counts).

(** A [for] loop whose body may panic. *)
Fixpoint for_each {A S} (f : S → A → outcome S) (s : S) (l : list A) : outcome S :=
  match l with
  | [] => Ret s
  | x :: l => s ← f s x; for_each f s l
  end.

(** [zip] of two lists of counts with the caches they are kept for. *)
Definition indexed {A} (l : list A) : list (nat * A) := imap pair l.

(** The first loop of [violations]: every chunk counted live or freed. *)
Definition count_chunk (slab : Slab) (counts : list Z * list Z) (i : Z)
    : outcome (list Z * list Z) :=
  let (live, freed) := counts in
  if is_free slab i then f ← bump freed (sl_cache slab); Ret (live, f)
  else l ← bump live (sl_cache slab); Ret (l, freed).

Definition count_slab (counts : list Z * list Z) (slab : Slab) : outcome (list Z * list Z) :=
  for_each (count_chunk slab) counts (z_range 0 (Z.to_nat (sl_chunks slab))).

Definition overlap_violation (pair : Slab * Slab) : list string :=
  if sl_base pair.2 <? slab_end pair.1 then
    [("slabs at " +:+ hex (sl_base pair.1) +:+ " and " +:+ hex (sl_base pair.2)
        +:+ " overlap")%string]
  else [].

Definition count_violation (live freed : list Z) (out : list string) (ic : nat * Cache)
    : outcome (list string) :=
  let (i, cache) := ic in
  l ← or_panic (live !! i);
  f ← or_panic (freed !! i);
  if (u64_add (ca_live cache) (ca_parked cache) =? l) && (ca_freed cache =? f) then Ret out
  else Ret (out ++
    [(ca_name cache +:+ " counted " +:+ dec (ca_live cache) +:+ " live / "
        +:+ dec (ca_parked cache) +:+ " parked / " +:+ dec (ca_freed cache)
        +:+ " freed, its slabs hold " +:+ dec l +:+ " / " +:+ dec f)%string]).

(** The pass over the parked addresses, counting them by cache. *)
Definition parked_violation (slabs : list Slab) (st : list string * list Z) (addr : Z)
    : outcome (list string * list Z) :=
  let (out, counted) := st in
  let no_buffer :=
    Ret (out ++ [("parked " +:+ hex addr +:+ " is no walked buffer")%string], counted) in
  match slab_at slabs addr with
  | None => no_buffer
  | Some slab =>
      base ← base_of slab addr;
      if negb (addr =? base) then no_buffer
      else
        index ← chunk_of slab addr;
        let out :=
          if is_free slab index then
            out ++ [("parked " +:+ hex addr +:+ " is also on its slab's freelist")%string]
          else out in
        let out :=
          if negb (is_parked slab index) then
            out ++ [("parked " +:+ hex addr +:+ " is not marked on its slab")%string]
          else out in
        counted ← bump counted (sl_cache slab);
        Ret (out, counted)
  end.

Definition parked_violations (h : UmemHeap) : outcome (list string) :=
  let twice :=
    flat_map (λ p : Z * Z,
      if p.2 <=? p.1 then [(hex p.1 +:+ " is parked twice")%string] else [])
      (windows2 (h_parked h)) in
  '(out, counted) ← for_each (parked_violation (h_slabs h))
                      (twice, replicate (length (h_caches h)) 0) (h_parked h);
  let marked := sum_u64 ((λ s, popcount (sl_parked s)) <$> h_slabs h) in
  let n := Z.of_nat (length (h_parked h)) in
  let out :=
    if negb (marked =? n) then
      out ++ [(dec n +:+ " buffer(s) are parked, " +:+ dec marked
                 +:+ " are marked on a slab")%string]
    else out in
  for_each (λ out (ic : nat * Cache),
    c ← or_panic (counted !! ic.1);
    Ret (if negb (ca_parked ic.2 =? c) then
           out ++ [(ca_name ic.2 +:+ " counted " +:+ dec (ca_parked ic.2)
                      +:+ " parked, the index holds " +:+ dec c)%string]
         else out)) out (indexed (h_caches h)).

(** The pass over the segments, counting them by arena. *)
Definition arena_violation (slabs : list Slab) (st : list string * list (Z * Z)) (seg : Seg)
    : outcome (list string * list (Z * Z)) :=
  let (out, counted) := st in
  let out :=
    match slab_at slabs (sg_start seg) with
    | Some _ =>
        out ++ [("the segment at " +:+ hex (sg_start seg) +:+ " is inside a walked slab")%string]
    | None => out
    end in
  c ← or_panic (counted !! Z.to_nat (sg_arena seg));
  let c := if sg_live seg then (u64_add c.1 1, c.2) else (c.1, u64_add c.2 1) in
  Ret (out, <[Z.to_nat (sg_arena seg) := c]> counted).

Definition arena_violations (h : UmemHeap) : outcome (list string) :=
  let overlaps :=
    flat_map (λ p : Seg * Seg,
      if sg_start p.2 <? sg_end p.1 then
        [("segments at " +:+ hex (sg_start p.1) +:+ " and " +:+ hex (sg_start p.2)
            +:+ " overlap")%string]
      else []) (windows2 (h_segs h)) in
  '(out, counted) ← for_each (arena_violation (h_slabs h))
                      (overlaps, replicate (length (h_arenas h)) (0, 0)) (h_segs h);
  for_each (λ out (ia : nat * Arena),
    c ← or_panic (counted !! ia.1);
    Ret (if (ar_live ia.2 =? c.1) && (ar_freed ia.2 =? c.2) then out
         else out ++
           [(ar_name ia.2 +:+ " counted " +:+ dec (ar_live ia.2) +:+ " live / "
               +:+ dec (ar_freed ia.2) +:+ " freed, the index holds " +:+ dec c.1
               +:+ " / " +:+ dec c.2)%string])) out (indexed (h_arenas h)).

(** What the slab and cache arithmetic must satisfy, before the parked set and
    the arenas are looked at. *)
Definition slab_violations (h : UmemHeap) : outcome (list string) :=
  let out := flat_map overlap_violation (windows2 (h_slabs h)) in
  let zeros := replicate (length (h_caches h)) 0 in
  '(live, freed) ← for_each count_slab (zeros, zeros) (h_slabs h);
  for_each (count_violation live freed) out (indexed (h_caches h)).

Definition violations (h : UmemHeap) : outcome (list string) :=
  out ← slab_violations h;
  parked ← parked_violations h;
  arena ← arena_violations h;
  Ret (out ++ parked ++ arena).

Definition MALLOC_MAGIC : Z := 0x3a10c000.
Definition MALLOC_SECOND_MAGIC : Z := 0x16ba7000.
Definition MALLOC_OVERSIZE_MAGIC : Z := 0x06e47000.
Definition MEMALIGN_MAGIC : Z := 0x3e3a1000.

Inductive TagKind := Malloc | Second | Oversize | Memalign.

Record MallocTag := mkTag { tag_kind : TagKind; tag_total : Z; tag_base : Z }.

Section malloc_tag.
Context `{Target T} (t : T).

(** The closure [wide] of [malloc_tag]: the second tag, 16 bytes below. *)
Definition wide (ptr size magic : Z) : option (Z * Z) :=
  base ← checked_sub ptr 16;
  high ← ok (read_u32 t base);
  status ← ok (read_u32 t (u64_add base 4));
  if u32_add status high =? magic then Some (base, Z.lor (Z.shiftl high 32) size) else None.

Definition malloc_tag (ptr : Z) : option MallocTag :=
  low ← checked_sub ptr 8;
  size ← ok (read_u32 t low);
  status ← ok (read_u32 t (u64_add low 4));
  let word := u32_add status size in
  if word =? MALLOC_MAGIC then Some (mkTag Malloc size low)
  else if word =? MALLOC_SECOND_MAGIC then
    base ← checked_sub ptr 16; Some (mkTag Second size base)
  else if word =? MALLOC_OVERSIZE_MAGIC then
    '(base, total) ← wide ptr size MALLOC_MAGIC; Some (mkTag Oversize total base)
  else if word =? MEMALIGN_MAGIC then
    '(base, total) ← wide ptr size MEMALIGN_MAGIC; Some (mkTag Memalign total base)
  else None.

Definition header (base block : Z) : option (Z * Z) :=
  find_map (λ hd,
    tag ← malloc_tag (u64_add base hd);
    requested ← checked_sub (tag_total tag) hd;
    if (tag_base tag =? base) && (tag_total tag <=? block)
    then Some (u64_add base hd, requested) else None) [8; 16].

(** What is known of the block an index found around [addr]. *)
Definition block_allocation (live : bool) (block : range) (addr : Z) : Allocation :=
  let size := u64_sub (r_end block) (r_start block) in
  let none := mkAllocation live (Block size) (u64_sub addr (r_start block)) in
  match header (r_start block) size with
  | Some (ptr, requested) =>
      if ptr <=? addr then mkAllocation live (Requested requested) (u64_sub addr ptr)
      else none
  | None => none
  end.

Definition allocation (h : UmemHeap) (addr : Z) : outcome (option Allocation) :=
  verdict ← locate h addr;
  match verdict with
  | Live buffer _ => Ret (Some (block_allocation true buffer addr))
  | Freed buffer _ => Ret (Some (block_allocation false buffer addr))
  | Unknown =>
      Ret (tag ← malloc_tag addr;
           let hd := u64_sub addr (tag_base tag) in
           size ← checked_sub (tag_total tag) hd;
           Some (mkAllocation true (Requested size) 0))
  end.
End malloc_tag.
