(* ===== verification/UmemWalk.v ===== *)
(** The walk of libumem's metadata that builds an index
    ([hansei-runtime/src/heap/umem.rs], [Walk] and [UmemHeap::build]).

    A [&self] reading is an option, or an [outcome] of one where it can panic.
    A [&mut self] operation is a function of type [W]: it takes the walk and
    gives its answer with the walk it leaves, a [None] included, since what was
    pushed before a [?] stays pushed.  A loop that counts its turns against a
    bound takes the turns it has left as its structural argument. *)

From S2P Require Import Prelude Target Text Umem.

Local Open Scope Z_scope.

Record Walk := mkWalk {
  w_caches : list Cache;
  w_slabs : list Slab;
  w_parked : list (Z * Z);
  w_parked_declined : list Z;
  w_arenas : list Arena;
  w_segs : list Seg;
  w_stats : Stats
}.

Definition W (A : Type) : Type := Walk → outcome (option A * Walk).

Definition w_ret {A} (a : A) : W A := λ w, Ret (Some a, w).
Definition w_none {A} : W A := λ w, Ret (None, w).

#[global] Instance w_bind : MBind W := λ A B f m w,
  match m w with
  | Ret (Some a, w') => f a w'
  | Ret (None, w') => Ret (None, w')
  | Panic => Panic
  end.

(** A reading with [?]; an expression that may panic; the walk itself; an
    assignment to it; an operation that never declines; and one whose decline is
    looked at. *)
Definition opt {A} (m : option A) : W A := λ w, Ret (m, w).
Definition run_ {A} (m : outcome A) : W A := λ w, a ← m; Ret (Some a, w).
Definition get : W Walk := λ w, Ret (Some w, w).
Definition modify (f : Walk → Walk) : W () := λ w, Ret (Some (), f w).
Definition total {A} (f : Walk → outcome (A * Walk)) : W A := λ w,
  '(a, w') ← f w; Ret (Some a, w').
Definition attempt {A} (m : W A) : W (option A) := λ w,
  '(o, w') ← m w; Ret (Some o, w').

Lemma w_bind_eq {A B} (m : W A) (f : A → W B) w :
  (m ≫= f) w =
  match m w with
  | Ret (Some a, w') => f a w'
  | Ret (None, w') => Ret (None, w')
  | Panic => Panic
  end.
Proof. done. Qed.

(** One step of a proof about an operation of type [W]. *)
Ltac wstep :=
  rewrite w_bind_eq;
  cbv beta iota delta [opt run_ modify w_ret w_none get total attempt];
  rewrite ?outcome_bind_eq; cbv beta iota.

Definition set_caches (cs : list Cache) (w : Walk) : Walk :=
  mkWalk cs (w_slabs w) (w_parked w) (w_parked_declined w) (w_arenas w) (w_segs w) (w_stats w).
Definition set_slabs (ss : list Slab) (w : Walk) : Walk :=
  mkWalk (w_caches w) ss (w_parked w) (w_parked_declined w) (w_arenas w) (w_segs w) (w_stats w).
Definition set_parked (ps : list (Z * Z)) (w : Walk) : Walk :=
  mkWalk (w_caches w) (w_slabs w) ps (w_parked_declined w) (w_arenas w) (w_segs w) (w_stats w).
Definition set_parked_declined (l : list Z) (w : Walk) : Walk :=
  mkWalk (w_caches w) (w_slabs w) (w_parked w) l (w_arenas w) (w_segs w) (w_stats w).
Definition set_arenas (l : list Arena) (w : Walk) : Walk :=
  mkWalk (w_caches w) (w_slabs w) (w_parked w) (w_parked_declined w) l (w_segs w) (w_stats w).
Definition set_segs (l : list Seg) (w : Walk) : Walk :=
  mkWalk (w_caches w) (w_slabs w) (w_parked w) (w_parked_declined w) (w_arenas w) l (w_stats w).
Definition set_stats (s : Stats) (w : Walk) : Walk :=
  mkWalk (w_caches w) (w_slabs w) (w_parked w) (w_parked_declined w) (w_arenas w) (w_segs w) s.

(** The assignments to the statistics. *)
Definition stats_note (s : Stats) (notes : list string) : Stats :=
  mkStats (st_layout s) (st_caches s) (st_caches_declined s) (st_slabs s)
  (st_slabs_declined s) (st_live_chunks s) (st_freed_chunks s) (st_parked_chunks s)
  (st_live_bytes s) (st_overlaps s) (st_magazines_walked s) (st_ptc_walked s)
  (st_caches_parked_declined s) (st_oversize_walked s) (st_arenas s)
  (st_arena_live s) (st_arena_live_bytes s) (st_arena_freed s) notes.

Definition stats_cache_declined (s : Stats) (caches_declined : Z) : Stats :=
  mkStats (st_layout s) (st_caches s) caches_declined (st_slabs s)
  (st_slabs_declined s) (st_live_chunks s) (st_freed_chunks s) (st_parked_chunks s)
  (st_live_bytes s) (st_overlaps s) (st_magazines_walked s) (st_ptc_walked s)
  (st_caches_parked_declined s) (st_oversize_walked s) (st_arenas s)
  (st_arena_live s) (st_arena_live_bytes s) (st_arena_freed s) (st_notes s).

Definition stats_slab_declined (s : Stats) (slabs_declined : Z) : Stats :=
  mkStats (st_layout s) (st_caches s) (st_caches_declined s) (st_slabs s)
  slabs_declined (st_live_chunks s) (st_freed_chunks s) (st_parked_chunks s)
  (st_live_bytes s) (st_overlaps s) (st_magazines_walked s) (st_ptc_walked s)
  (st_caches_parked_declined s) (st_oversize_walked s) (st_arenas s)
  (st_arena_live s) (st_arena_live_bytes s) (st_arena_freed s) (st_notes s).

Definition stats_parked_declined (s : Stats) (caches_parked_declined : Z) : Stats :=
  mkStats (st_layout s) (st_caches s) (st_caches_declined s) (st_slabs s)
  (st_slabs_declined s) (st_live_chunks s) (st_freed_chunks s) (st_parked_chunks s)
  (st_live_bytes s) (st_overlaps s) (st_magazines_walked s) (st_ptc_walked s)
  caches_parked_declined (st_oversize_walked s) (st_arenas s) (st_arena_live s)
  (st_arena_live_bytes s) (st_arena_freed s) (st_notes s).

Definition stats_overlaps (s : Stats) (overlaps : Z) : Stats :=
  mkStats (st_layout s) (st_caches s) (st_caches_declined s) (st_slabs s)
  (st_slabs_declined s) (st_live_chunks s) (st_freed_chunks s) (st_parked_chunks s)
  (st_live_bytes s) overlaps (st_magazines_walked s) (st_ptc_walked s)
  (st_caches_parked_declined s) (st_oversize_walked s) (st_arenas s)
  (st_arena_live s) (st_arena_live_bytes s) (st_arena_freed s) (st_notes s).

Definition stats_magazines (s : Stats) (magazines_walked : bool) : Stats :=
  mkStats (st_layout s) (st_caches s) (st_caches_declined s) (st_slabs s)
  (st_slabs_declined s) (st_live_chunks s) (st_freed_chunks s) (st_parked_chunks s)
  (st_live_bytes s) (st_overlaps s) magazines_walked (st_ptc_walked s)
  (st_caches_parked_declined s) (st_oversize_walked s) (st_arenas s)
  (st_arena_live s) (st_arena_live_bytes s) (st_arena_freed s) (st_notes s).

Definition stats_ptc (s : Stats) (ptc_walked : bool) : Stats :=
  mkStats (st_layout s) (st_caches s) (st_caches_declined s) (st_slabs s)
  (st_slabs_declined s) (st_live_chunks s) (st_freed_chunks s) (st_parked_chunks s)
  (st_live_bytes s) (st_overlaps s) (st_magazines_walked s) ptc_walked
  (st_caches_parked_declined s) (st_oversize_walked s) (st_arenas s)
  (st_arena_live s) (st_arena_live_bytes s) (st_arena_freed s) (st_notes s).

Definition stats_counts (s : Stats) (caches : Z) (slabs : Z) (live_chunks : Z) (freed_chunks : Z) (live_bytes : Z) : Stats :=
  mkStats (st_layout s) caches (st_caches_declined s) slabs (st_slabs_declined s)
  live_chunks freed_chunks (st_parked_chunks s) live_bytes (st_overlaps s)
  (st_magazines_walked s) (st_ptc_walked s) (st_caches_parked_declined s)
  (st_oversize_walked s) (st_arenas s) (st_arena_live s) (st_arena_live_bytes s)
  (st_arena_freed s) (st_notes s).

Definition stats_parked (s : Stats) (parked_chunks : Z) (live_chunks : Z) (live_bytes : Z) : Stats :=
  mkStats (st_layout s) (st_caches s) (st_caches_declined s) (st_slabs s)
  (st_slabs_declined s) live_chunks (st_freed_chunks s) parked_chunks live_bytes
  (st_overlaps s) (st_magazines_walked s) (st_ptc_walked s)
  (st_caches_parked_declined s) (st_oversize_walked s) (st_arenas s)
  (st_arena_live s) (st_arena_live_bytes s) (st_arena_freed s) (st_notes s).

Definition stats_arenas (s : Stats) (oversize_walked : bool) (arenas : Z) (arena_live : Z) (arena_freed : Z) (arena_live_bytes : Z) : Stats :=
  mkStats (st_layout s) (st_caches s) (st_caches_declined s) (st_slabs s)
  (st_slabs_declined s) (st_live_chunks s) (st_freed_chunks s) (st_parked_chunks s)
  (st_live_bytes s) (st_overlaps s) (st_magazines_walked s) (st_ptc_walked s)
  (st_caches_parked_declined s) oversize_walked arenas arena_live arena_live_bytes
  arena_freed (st_notes s).

Definition walk_new (l : Layout) : Walk :=
  mkWalk [] [] [] [] [] [] (Stats_default (l_name l)).

Definition note (text : string) (w : Walk) : Walk :=
  if (length (st_notes (w_stats w)) <? MAX_NOTES)%nat
  then set_stats (stats_note (w_stats w) (st_notes (w_stats w) ++ [text])) w
  else w.

Definition decline_cache (addr : Z) (why : string) (w : Walk) : Walk :=
  note ("cache " +:+ hex addr +:+ ": " +:+ why)%string
    (set_stats (stats_cache_declined (w_stats w) (st_caches_declined (w_stats w) + 1)) w).

(** Counters of the walk. *)
Definition cache_count (c : Cache) (slab : option Slab) : Cache :=
  match slab with
  | Some s =>
      mkCache (ca_addr c) (ca_name c) (ca_bufsize c) (ca_chunksize c) (ca_slabsize c)
        (ca_flags c) (ca_slabs c + 1) (ca_slabs_declined c)
        (u64_add (ca_live c) (u64_sub (sl_chunks s) (freed s)))
        (u64_add (ca_freed c) (freed s)) (ca_parked c) (ca_parked_walked c) (ca_bufctl c)
  | None =>
      mkCache (ca_addr c) (ca_name c) (ca_bufsize c) (ca_chunksize c) (ca_slabsize c)
        (ca_flags c) (ca_slabs c) (ca_slabs_declined c + 1) (ca_live c) (ca_freed c)
        (ca_parked c) (ca_parked_walked c) (ca_bufctl c)
  end.
Definition cache_parked (c : Cache) (live parked : Z) (walked : bool) : Cache :=
  mkCache (ca_addr c) (ca_name c) (ca_bufsize c) (ca_chunksize c) (ca_slabsize c)
    (ca_flags c) (ca_slabs c) (ca_slabs_declined c) live (ca_freed c) parked walked
    (ca_bufctl c).
Definition cache_zero (c : Cache) : Cache :=
  mkCache (ca_addr c) (ca_name c) (ca_bufsize c) (ca_chunksize c) (ca_slabsize c)
    (ca_flags c) 0 (ca_slabs_declined c) 0 0 (ca_parked c) (ca_parked_walked c)
    (ca_bufctl c).

Section walk.
Context `{Target T} (t : T) (l : Layout).

(** ** Reading *)

Definition symbol (name : string) : option Z :=
  st_value <$> lookup_symbol_by_name t (LIBUMEM +:+ "`" +:+ name)%string.

Definition read (addr : Z) : option Z := ok (read_u64 t addr).
Definition read_at (base offset : Z) : option Z := a ← checked_add base offset; read a.
Definition read_i32 (addr : Z) : option Z := as_i32 <$> ok (read_u32 t addr).
Definition read_i32_at (base offset : Z) : option Z :=
  a ← checked_add base offset; read_i32 a.

Definition read_name (addr : Z) : option string :=
  bytes ← ok (read_bytes t addr 32);
  let end_ := default (length bytes) (find_position (λ b, byte_Z b =? 0) bytes) in
  Some (from_utf8_lossy (take end_ bytes)).
Definition read_name_at (base offset : Z) : option string :=
  a ← checked_add base offset; read_name a.

(** ** A cache *)

Definition read_cache (addr : Z) : option Cache :=
  bufsize ← read_at addr (cache_bufsize l);
  chunksize ← read_at addr (cache_chunksize l);
  slabsize ← read_at addr (cache_slabsize l);
  flags_at ← checked_add addr (cache_flags l);
  flags ← ok (read_u32 t flags_at);
  if (bufsize =? 0) || (chunksize <? bufsize) || (slabsize <? chunksize) then None
  else
    bufctl ← read_at addr (cache_bufctl l);
    if (Z.land flags UMF_HASH =? 0) && (chunksize <=? bufctl) then None
    else
      name ← read_name_at addr (cache_name l);
      Some (mkCache addr name bufsize chunksize slabsize flags 0 0 0 0 0 false bufctl).

(** ** A slab *)

(** The freelist, chained from [bufctl]: the bitmap it marks and its length. *)
Fixpoint read_freelist (remaining : nat) (cache : Cache) (base span : Z)
    (free : list Z) (freed bufctl : Z) : outcome (option (list Z * Z)) :=
  if bufctl =? 0 then Ret (Some (free, freed))
  else
    match remaining with
    | O => Ret None
    | S remaining =>
        buf ←? Ret (if hashed cache then read_at bufctl (bufctl_addr l)
                    else checked_sub bufctl (ca_bufctl cache));
        offset ←? Ret (checked_sub buf base);
        if span <=? offset then Ret None
        else
          rem ← rem_u64 offset (ca_chunksize cache);
          if negb (rem =? 0) then Ret None
          else
            chunk ← div_u64 offset (ca_chunksize cache);
            word ← or_panic (free !! Z.to_nat (chunk / 64));
            if Z.land (Z.shiftr word (chunk `mod` 64)) 1 =? 1 then Ret None
            else
              free ← set_bit free chunk;
              next ←? Ret (read_at bufctl (bufctl_next l));
              read_freelist remaining cache base span free (u64_add freed 1) next
    end.

Definition read_slab (addr cache_addr : Z) (cache : Cache) (index : Z)
    : outcome (option Slab) :=
  slab ←? Ret (ok (read_bytes t addr (slab_size l)));
  let at_ off := from_le_bytes <$> or_panic (slice slab off 8) in
  owner ← at_ (slab_cache l);
  if negb (owner =? cache_addr) then Ret None
  else
    base ← at_ (slab_base l);
    chunks ← at_ (slab_chunks l);
    refcnt ← at_ (slab_refcnt l);
    if (chunks =? 0) || (MAX_CHUNKS_PER_SLAB <? chunks) || (chunks <? refcnt) then Ret None
    else
      span ←? Ret (checked_mul chunks (ca_chunksize cache));
      if (ca_slabsize cache <? span) ||
         match checked_add base span with Some _ => false | None => true end
      then Ret None
      else
        head ← at_ (slab_head l);
        '(free, freed) ←? read_freelist (Z.to_nat chunks) cache base span
                            (blank_bitmap chunks) 0 head;
        if negb (freed =? u64_sub chunks refcnt) then Ret None
        else
          Ret (Some (mkSlab base (ca_chunksize cache) (as_u32 chunks) index
                       (if freed =? 0 then [] else free) [])).

(** What the slab loop does with the slab it read, its cache's counts apart. *)
Definition push_slab (cache : Cache) (addr : Z) (slab : option Slab) (w : Walk) : Walk :=
  match slab with
  | Some s => set_slabs (w_slabs w ++ [s]) w
  | None =>
      note (ca_name cache +:+ ": slab " +:+ hex addr +:+ " declined")%string
        (set_stats (stats_slab_declined (w_stats w) (st_slabs_declined (w_stats w) + 1)) w)
  end.

Fixpoint walk_slab_list (remaining : nat) (anchor cache_addr index : Z) (cache : Cache)
    (prev addr : Z) : W Cache :=
  if addr =? anchor then w_ret cache
  else
    match remaining with
    | O => w_none
    | S remaining =>
        back ← opt (read_at addr (slab_prev l));
        if negb (back =? prev) then w_none
        else
          slab ← run_ (read_slab addr cache_addr cache index);
          _ ← modify (push_slab cache addr slab);
          next ← opt (read_at addr (slab_next l));
          walk_slab_list remaining anchor cache_addr index (cache_count cache slab) addr next
    end.

Definition walk_slabs (cache_addr : Z) (cache : Cache) (index : Z) : W Cache :=
  anchor ← opt (checked_add cache_addr (cache_nullslab l));
  addr ← opt (read_at anchor (slab_next l));
  walk_slab_list MAX_SLABS_PER_CACHE anchor cache_addr index cache anchor addr.

(** ** The hash table *)

(** Whether an entry's buffer is a chunk of one of the slabs. *)
Definition hash_entry_ok (spans : list (Z * Z)) (chunksize buf : Z) : outcome bool :=
  match partition_point (λ s : Z * Z, s.1 <=? buf) spans with
  | O => Ret false
  | S i =>
      '(base, end_) ← or_panic (spans !! i);
      if buf <? end_ then
        rem ← rem_u64 (u64_sub buf base) chunksize; Ret (rem =? 0)
      else Ret false
  end.

(** One bucket's chain; the answer is the entries the cache has left and those
    counted, or [None] where the table disagrees. *)
Fixpoint hash_chain (remaining : nat) (cache : Cache) (spans : list (Z * Z))
    (entries bufctl : Z) : outcome (option (nat * Z)) :=
  if bufctl =? 0 then Ret (Some (remaining, entries))
  else
    match remaining with
    | O => Ret None
    | S remaining =>
        buf ←? Ret (read_at bufctl (bufctl_addr l));
        next ←? Ret (read_at bufctl (bufctl_next l));
        found ← hash_entry_ok spans (ca_chunksize cache) buf;
        if negb found then Ret None
        else hash_chain remaining cache spans (u64_add entries 1) next
    end.

Fixpoint hash_buckets (remaining : nat) (cache : Cache) (spans : list (Z * Z))
    (table entries : Z) (buckets : list Z) : outcome (option Z) :=
  match buckets with
  | [] => Ret (Some entries)
  | bucket :: buckets =>
      bufctl ←? Ret (read_at table (u64_mul bucket 8));
      '(remaining, entries) ←? hash_chain remaining cache spans entries bufctl;
      hash_buckets remaining cache spans table entries buckets
  end.

Definition hash_agrees (cache_addr : Z) (cache : Cache) (slabs : list Slab) : outcome bool :=
  match read_at cache_addr (cache_hash_table l), read_at cache_addr (cache_hash_mask l) with
  | Some table, Some mask =>
      let buckets := u64_add mask 1 in
      if (table =? 0) || (MAX_HASH_BUCKETS <? buckets) || negb (is_power_of_two buckets)
      then Ret false
      else
        let spans := sort_by pair_leb ((λ s, (sl_base s, slab_end s)) <$> slabs) in
        entries ← hash_buckets (Z.to_nat (ca_live cache)) cache spans table 0
                    (z_range 0 (Z.to_nat buckets));
        Ret (match entries with Some n => n =? ca_live cache | None => false end)
  | _, _ => Ret false
  end.

(** ** The magazine layer

    [out] is the accumulator of the caller's vector. *)

Fixpoint read_rounds_from (mag : Z) (index : Z) (out : list (Z * Z)) (rounds : list Z)
    : option (list (Z * Z)) :=
  match rounds with
  | [] => Some out
  | round :: rounds =>
      buf ← read_at mag (u64_add (mag_round l) (u64_mul round 8));
      if buf =? 0 then None
      else read_rounds_from mag index (out ++ [(index, buf)]) rounds
  end.

Definition read_rounds (mag rounds : Z) (cache : Cache) (index : Z) (out : list (Z * Z))
    : option (list (Z * Z)) :=
  out ← read_rounds_from mag index out (z_range 0 (Z.to_nat rounds));
  if Z.of_nat (length out) <=? ca_live cache then Some out else None.

Definition magazine_size (cache_addr : Z) (cache : Cache) : option Z :=
  cpu ← checked_add cache_addr (cache_cpu l);
  size ← read_i32_at cpu (cc_magsize l);
  if (1 <=? size) && (size <=? MAX_ROUNDS) then Some size
  else if negb (size =? 0) then None
  else if negb (Z.land (ca_flags cache) UMF_NOMAGAZINE =? 0) then Some 0
  else
    magtype ← read_at cache_addr (cache_magtype l);
    if magtype =? 0 then Some 0
    else
      magsize ← read_i32_at magtype (mt_magsize l);
      if (0 <=? magsize) && (magsize <=? MAX_ROUNDS) then Some magsize else None.

(** The depot's list from [mag]; the answer is how many magazines were seen. *)
Fixpoint depot_list (remaining : nat) (head magsize : Z) (cache : Cache) (index : Z)
    (out : list (Z * Z)) (seen mag : Z) : option (Z * list (Z * Z)) :=
  if mag =? 0 then Some (seen, out)
  else
    match remaining with
    | O => None
    | S remaining =>
        out ← read_rounds mag magsize cache index out;
        mag ← read_at mag (mag_next l);
        if mag =? head then Some (seen + 1, out)
        else depot_list remaining head magsize cache index out (seen + 1) mag
    end.

Definition walk_depot (cache_addr : Z) (cache : Cache) (magsize index : Z)
    (out : list (Z * Z)) : option (list (Z * Z)) :=
  depot ← checked_add cache_addr (cache_full l);
  head ← read_at depot (ml_list l);
  total ← read_at depot (ml_total l);
  if MAX_MAGAZINES <? total then None
  else
    '(seen, out) ← depot_list (Z.to_nat total) head magsize cache index out 0 head;
    if seen =? total then Some out else None.

(** One of a CPU's two magazines: its round count's field and its own. *)
Definition cpu_magazine (cpu magsize : Z) (cache : Cache) (index : Z)
    (out : list (Z * Z)) (fields : Z * Z) : option (list (Z * Z)) :=
  rounds ← read_i32_at cpu fields.1;
  if rounds <=? 0 then Some out
  else if magsize <? rounds then None
  else
    mag ← read_at cpu fields.2;
    if mag =? 0 then None else read_rounds mag rounds cache index out.

Definition one_cpu (cache_addr : Z) (cache : Cache) (index : Z)
    (out : list (Z * Z)) (i : Z) : option (list (Z * Z)) :=
  cpus ← checked_add cache_addr (cache_cpu l);
  cpu ← checked_add cpus (u64_mul i (cpu_cache l));
  magsize ← read_i32_at cpu (cc_magsize l);
  out ← cpu_magazine cpu magsize cache index out (cc_rounds l, cc_loaded l);
  cpu_magazine cpu magsize cache index out (cc_prounds l, cc_ploaded l).

Fixpoint each_cpu (cache_addr : Z) (cache : Cache) (index : Z)
    (out : list (Z * Z)) (cpus : list Z) : option (list (Z * Z)) :=
  match cpus with
  | [] => Some out
  | i :: cpus => out ← one_cpu cache_addr cache index out i;
                 each_cpu cache_addr cache index out cpus
  end.

Definition walk_cpu_caches (cache_addr : Z) (cache : Cache) (index : Z)
    (out : list (Z * Z)) : option (list (Z * Z)) :=
  mask_at ← checked_add cache_addr (cache_cpu_mask l);
  mask ← ok (read_u32 t mask_at);
  let cpus := mask + 1 in
  if negb (is_power_of_two cpus) || (MAX_CPUS <? cpus) then None
  else each_cpu cache_addr cache index out (z_range 0 (Z.to_nat cpus)).

Definition walk_magazines (cache_addr : Z) (cache : Cache) (index : Z)
    (out : list (Z * Z)) : option (list (Z * Z)) :=
  magsize ← magazine_size cache_addr cache;
  if magsize =? 0 then Some out
  else
    out ← walk_depot cache_addr cache magsize index out;
    walk_cpu_caches cache_addr cache index out.

(** ** The cache list *)

(** What [walk_cache] does with a cache whose slabs are believed. *)
Definition keep_cache (addr : Z) (cache : Cache) (index : Z) (w : Walk) : Walk :=
  let '(cache, w) :=
    match walk_magazines addr cache index [] with
    | Some parked =>
        (cache_parked cache (ca_live cache) (ca_parked cache) true,
         set_parked (w_parked w ++ parked) w)
    | None =>
        (cache,
         note (ca_name cache +:+ ": its magazine layer declined")%string
           (set_stats (stats_parked_declined (w_stats w)
                         (st_caches_parked_declined (w_stats w) + 1))
              (set_parked_declined (w_parked_declined w ++ [index]) w)))
    end in
  let s := w_stats w in
  set_caches (w_caches w ++ [cache])
    (set_stats (stats_counts s (st_caches s + 1) (st_slabs s + ca_slabs cache)
                  (u64_add (st_live_chunks s) (ca_live cache))
                  (u64_add (st_freed_chunks s) (ca_freed cache))
                  (u64_add (st_live_bytes s) (u64_mul (ca_live cache) (ca_chunksize cache)))) w).

Definition truncate_slabs (n : nat) (w : Walk) : Walk := set_slabs (take n (w_slabs w)) w.

Definition walk_cache (addr : Z) : W () :=
  match read_cache addr with
  | None => modify (decline_cache addr "unreadable or implausible geometry")
  | Some cache =>
      w ← get;
      let index := as_u32 (Z.of_nat (length (w_caches w))) in
      let first := length (w_slabs w) in
      walked ← attempt (walk_slabs addr cache index);
      match walked with
      | None =>
          _ ← modify (truncate_slabs first);
          modify (decline_cache addr "its slab list did not walk")
      | Some cache =>
          w ← get;
          agrees ← run_ (if hashed cache then hash_agrees addr cache (drop first (w_slabs w))
                         else Ret true);
          match agrees with
          | true => modify (keep_cache addr cache index)
          | false =>
              _ ← modify (truncate_slabs first);
              modify (decline_cache addr "its hash table disagrees with its slabs")
          end
      end
  end.

Fixpoint walk_cache_list (remaining : nat) (anchor prev addr : Z) : W () :=
  if addr =? anchor then w_ret ()
  else
    match remaining with
    | O => w_none
    | S remaining =>
        back ← opt (read_at addr (cache_prev l));
        if negb (back =? prev) then w_none
        else
          _ ← walk_cache addr;
          next ← opt (read_at addr (cache_next l));
          walk_cache_list remaining anchor addr next
    end.

Definition walk_caches (anchor : Z) : W () :=
  addr ← opt (read_at anchor (cache_next l));
  _ ← walk_cache_list MAX_CACHES anchor anchor addr;
  w ← get;
  if 0 <? st_caches (w_stats w) then w_ret () else w_none.

(** ** Overlaps *)

Fixpoint retain_disjoint (end_ : Z) (slabs : list Slab) : list Slab :=
  match slabs with
  | [] => []
  | s :: slabs =>
      if sl_base s <? end_ then retain_disjoint end_ slabs
      else s :: retain_disjoint (slab_end s) slabs
  end.

Definition recount_slab (caches : list Cache) (s : Slab) : outcome (list Cache) :=
  c ← cache_ix caches (sl_cache s);
  Ret (<[Z.to_nat (sl_cache s) := cache_count c (Some s)]> caches).

Definition recount (w : Walk) : outcome Walk :=
  caches ← for_each recount_slab (cache_zero <$> w_caches w) (w_slabs w);
  let s := w_stats w in
  Ret (set_caches caches
         (set_stats (stats_counts s (st_caches s) (Z.of_nat (length (w_slabs w)))
                       (sum_u64 (ca_live <$> caches)) (sum_u64 (ca_freed <$> caches))
                       (sum_u64 ((λ c, u64_mul (ca_live c) (ca_chunksize c)) <$> caches))) w)).

Definition drop_overlaps (w : Walk) : outcome Walk :=
  let kept := retain_disjoint 0 (w_slabs w) in
  let overlaps := Z.of_nat (length (w_slabs w)) - Z.of_nat (length kept) in
  let w := set_slabs kept w in
  if 0 <? overlaps then
    recount (note (dec overlaps +:+ " overlapping slab(s) dropped")%string
               (set_stats (stats_overlaps (w_stats w) overlaps) w))
  else Ret w.

(** ** The threads' caches *)

Fixpoint ptc_list (remaining : nat) (cache : option Z) (buf : Z) : W () :=
  if buf =? 0 then w_ret ()
  else
    match remaining with
    | O => w_none
    | S remaining =>
        w ← get;
        slab ← opt (slab_at (w_slabs w) buf);
        let index := sl_cache slab in
        let seen := default index cache in
        if negb (seen =? index) then w_none
        else
          c ← run_ (cache_ix (w_caches w) index);
          if Z.land (ca_flags c) UMF_PTC =? 0 then w_none
          else
            _ ← modify (λ w, set_parked (w_parked w ++ [(index, buf)]) w);
            next ← opt (read buf);
            ptc_list remaining (Some seen) next
    end.

Definition walk_ptc_root (head : Z) : W () :=
  buf ← opt (read head); ptc_list MAX_PTC_BUFFERS None buf.

Fixpoint each_root (ulwp tmem : Z) (roots : list Z) : W () :=
  match roots with
  | [] => w_ret ()
  | root :: roots =>
      tm ← opt (checked_add ulwp tmem);
      head ← opt (checked_add tm (8 + root * 8));
      _ ← walk_ptc_root head;
      each_root ulwp tmem roots
  end.

Fixpoint each_thread (tmem : Z) (threads : list Z) : W () :=
  match threads with
  | [] => w_ret ()
  | ulwp :: threads =>
      if ulwp =? 0 then w_none
      else
        self ← opt (read ulwp);
        if negb (self =? ulwp) then w_none
        else
          _ ← each_root ulwp tmem (z_range 0 NTMEMBASE);
          each_thread tmem threads
  end.

Definition walk_thread_caches : W () :=
  match symbol "umem_ptc_enabled" with
  | None => modify (λ w, set_stats (stats_ptc (w_stats w) true) w)
  | Some enabled =>
      on ← opt (ok (read_u32 t enabled));
      if on =? 0 then w_ret ()
      else
        off ← opt (symbol "umem_tmem_off");
        tmem ← opt (read off);
        lwps ← opt (ok (lwps t));
        each_thread tmem
          (dedup_by Z.eqb (sort_by Z.leb ((λ lwp, fsbase (regs lwp)) <$> lwps)))
  end.

Definition walk_ptc : W () :=
  w ← get;
  let before := length (w_parked w) in
  walked ← attempt walk_thread_caches;
  match walked with
  | Some _ => modify (λ w, set_stats (stats_ptc (w_stats w) true) w)
  | None =>
      modify (λ w, note "the threads' own caches did not walk"
                     (set_parked (take before (w_parked w)) w))
  end.

(** ** Folding the parked buffers in *)

Definition with_parked (s : Slab) (map : list Z) : Slab :=
  mkSlab (sl_base s) (sl_chunksize s) (sl_chunks s) (sl_cache s) (sl_free s) map.

(** The first entry of [group] that is not sound, by the checks of one entry. *)
Fixpoint find_stray (slabs : list Slab) (cache : Z) (group : list (Z * Z))
    : outcome (option (Z * string)) :=
  match group with
  | [] => Ret None
  | (_, buf) :: group =>
      match slab_at slabs buf with
      | None => Ret (Some (buf, "is in no walked slab"%string))
      | Some slab =>
          if negb (sl_cache slab =? cache) then
            Ret (Some (buf, "belongs to another cache"%string))
          else
            base ← base_of slab buf;
            if negb (base =? buf) then Ret (Some (buf, "is not a buffer's base"%string))
            else
              chunk ← chunk_of slab buf;
              if is_free slab chunk then
                Ret (Some (buf, "is also on its slab's freelist"%string))
              else find_stray slabs cache group
      end
  end.

Definition stray_parked (slabs : list Slab) (cache : Z) (group : list (Z * Z))
    : outcome (option (Z * string)) :=
  match find_first (λ p : (Z * Z) * (Z * Z), p.1.2 =? p.2.2) (windows2 group) with
  | Some held => Ret (Some (held.1.2, "is held twice"%string))
  | None => find_stray slabs cache group
  end.

Definition mark_parked (slabs : list Slab) (buf : Z) : outcome (list Slab) :=
  i ← or_panic (slab_index slabs buf);
  slab ← or_panic (slabs !! i);
  chunk ← chunk_of slab buf;
  map ← set_bit (if (length (sl_parked slab) =? 0)%nat then blank_bitmap (sl_chunks slab)
                 else sl_parked slab) chunk;
  Ret (<[i := with_parked slab map]> slabs).

(** A cache whose set is not sound: declined whole. *)
Definition decline_parked (cache addr : Z) (why : string) (w : Walk) : outcome Walk :=
  c ← cache_ix (w_caches w) cache;
  Ret (note (ca_name c +:+ ": parked " +:+ hex addr +:+ " " +:+ why)%string
         (set_stats (stats_parked_declined (w_stats w)
                       (st_caches_parked_declined (w_stats w) + 1))
            (set_parked_declined (w_parked_declined w ++ [cache])
               (set_caches (<[Z.to_nat cache := cache_parked c (ca_live c) (ca_parked c) false]>
                              (w_caches w)) w)))).

(** A cache whose set is sound: counted, and marked on its slabs. *)
Definition accept_parked (cache : Z) (group : list (Z * Z)) (w : Walk) : outcome Walk :=
  c ← cache_ix (w_caches w) cache;
  let n := Z.of_nat (length group) in
  let caches := <[Z.to_nat cache := cache_parked c (ca_live c) n (ca_parked_walked c)]>
                  (w_caches w) in
  slabs ← for_each mark_parked (w_slabs w) group.*2;
  Ret (set_slabs slabs (set_caches caches w)).

(** The loop over the groups of the sorted candidates; each turn takes one at
    least, so their number is enough fuel. *)
Fixpoint fold_groups (fuel : nat) (sorted : list (Z * Z)) (kept : list Z) (w : Walk)
    : outcome (list Z * Walk) :=
  match sorted, fuel with
  | [], _ => Ret (kept, w)
  | _ :: _, O => Panic
  | (cache, _) :: _, S fuel =>
      let n := partition_point (λ e : Z * Z, e.1 =? cache) sorted in
      let group := take n sorted in
      let rest := drop n sorted in
      if existsb (Z.eqb cache) (w_parked_declined w) then fold_groups fuel rest kept w
      else
        stray ← stray_parked (w_slabs w) cache group;
        match stray with
        | Some (addr, why) =>
            w ← decline_parked cache addr why w;
            fold_groups fuel rest kept w
        | None =>
            w ← accept_parked cache group w;
            fold_groups fuel rest (kept ++ group.*2) w
        end
  end.

Definition fold_parked (w : Walk) : outcome (list Z * Walk) :=
  let sorted := sort_by pair_leb (w_parked w) in
  '(kept, w) ← fold_groups (length sorted) sorted [] (set_parked [] w);
  let caches := (λ c, cache_parked c (u64_sub (ca_live c) (ca_parked c)) (ca_parked c)
                        (ca_parked_walked c)) <$> w_caches w in
  Ret (sort_by Z.leb kept,
       set_caches caches
         (set_stats (stats_parked (w_stats w) (Z.of_nat (length kept))
                       (sum_u64 (ca_live <$> caches))
                       (sum_u64 ((λ c, u64_mul (ca_live c) (ca_chunksize c)) <$> caches))) w)).

(** ** The arenas *)

Definition arena_count (a : Arena) (start end_ : Z) (live : bool) : Arena :=
  if live then
    mkArena (ar_addr a) (ar_name a) (ar_segs a + 1) (u64_add (ar_live a) 1) (ar_freed a)
      (u64_add (ar_live_bytes a) (u64_sub end_ start))
  else
    mkArena (ar_addr a) (ar_name a) (ar_segs a + 1) (ar_live a) (u64_add (ar_freed a) 1)
      (ar_live_bytes a).

Fixpoint walk_seg_list (remaining : nat) (anchor index : Z) (out : Arena)
    (span : range) (last prev addr : Z) : W Arena :=
  if addr =? anchor then w_ret out
  else
    match remaining with
    | O => w_none
    | S remaining =>
        back ← opt (read_at addr (vs_aprev l));
        if negb (back =? prev) then w_none
        else
          start ← opt (read_at addr (vs_start l));
          end_ ← opt (read_at addr (vs_end l));
          kind_at ← opt (checked_add addr (vs_type l));
          kind ← opt (ok (read_u8 t kind_at));
          let next k := (next ← opt (read_at addr (vs_anext l)); k next) : W Arena in
          if kind =? VMEM_SPAN then
            if end_ <=? start then w_none
            else next (walk_seg_list remaining anchor index out (Range start end_) start addr)
          else if (kind =? VMEM_ALLOC) || (kind =? VMEM_FREE) then
            if (end_ <=? start) || (start <? last) || (r_end span <? end_) then w_none
            else
              let live := kind =? VMEM_ALLOC in
              _ ← modify (λ w, set_segs (w_segs w ++ [mkSeg start end_ index live]) w);
              next (walk_seg_list remaining anchor index (arena_count out start end_ live)
                      span end_ addr)
          else next (walk_seg_list remaining anchor index out span last addr)
    end.

Definition walk_arena (symbol_name name : string) (index : Z) : W Arena :=
  at_ ← opt (symbol symbol_name);
  arena ← opt (read at_);
  if arena =? 0 then w_none
  else
    spelled ← opt (read_name_at arena (vm_name l));
    if negb (String.eqb spelled name) then w_none
    else
      anchor ← opt (checked_add arena (vm_seg0 l));
      addr ← opt (read_at anchor (vs_anext l));
      walk_seg_list MAX_SEGS anchor index (mkArena arena name 0 0 0 0) (Range 0 0) 0 anchor addr.

Fixpoint each_arena (names : list (string * string)) (walked : bool) : W bool :=
  match names with
  | [] => w_ret walked
  | (symbol_name, name) :: names =>
      w ← get;
      let first := length (w_segs w) in
      let index := as_u32 (Z.of_nat (length (w_arenas w))) in
      arena ← attempt (walk_arena symbol_name name index);
      match arena with
      | Some a =>
          _ ← modify (λ w, set_arenas (w_arenas w ++ [a]) w);
          each_arena names walked
      | None =>
          _ ← modify (λ w, note ("the " +:+ name +:+ " arena did not walk")%string
                             (set_segs (take first (w_segs w)) w));
          each_arena names false
      end
  end.

Definition walk_arenas : W () :=
  walked ← each_arena MALLOC_ARENAS true;
  modify (λ w,
    set_stats (stats_arenas (w_stats w) walked (Z.of_nat (length (w_arenas w)))
                 (sum_u64 (ar_live <$> w_arenas w)) (sum_u64 (ar_freed <$> w_arenas w))
                 (sum_u64 (ar_live_bytes <$> w_arenas w))) w).

(** ** The whole walk *)

Definition sort_slabs : list Slab → list Slab :=
  sort_by (λ x y, sl_base x <=? sl_base y).
Definition sort_segs : list Seg → list Seg :=
  sort_by (λ x y, sg_start x <=? sg_start y).

Definition run_body : W UmemHeap :=
  ready ← opt (symbol "umem_ready");
  state ← opt (ok (read_u32 t ready));
  if negb (state =? UMEM_READY) then w_none
  else
    anchor ← opt (symbol "umem_null_cache");
    _ ← walk_caches anchor;
    _ ← modify (λ w, set_stats (stats_magazines (w_stats w) true) w);
    _ ← modify (λ w, set_slabs (sort_slabs (w_slabs w)) w);
    _ ← total (λ w, w ← drop_overlaps w; Ret ((), w));
    _ ← walk_ptc;
    parked ← total fold_parked;
    _ ← walk_arenas;
    _ ← modify (λ w, set_segs (sort_segs (w_segs w)) w);
    w ← get;
    let arena_span :=
      match head (w_segs w), last (w_segs w) with
      | Some first, Some last => Range (sg_start first) (sg_end last)
      | _, _ => Range 0 0
      end in
    w_ret (mkUmemHeap (w_caches w) (w_slabs w) parked (w_arenas w) (w_segs w) arena_span
             (w_stats w)).

Definition run : outcome (option UmemHeap) :=
  '(heap, _) ← run_body (walk_new l); Ret heap.
End walk.

(** [UmemHeap::build]: the first layout whose walk is believed. *)
Fixpoint build_from `{Target T} (t : T) (layouts : list Layout) : outcome (option UmemHeap) :=
  match layouts with
  | [] => Ret None
  | l :: layouts =>
      heap ← run t l;
      match heap with
      | Some h => Ret (Some h)
      | None => build_from t layouts
      end
  end.

Definition build `{Target T} (t : T) : outcome (option UmemHeap) := build_from t LAYOUTS.
