(* ===== verification/UmemFacts.v ===== *)
(** Facts of a finished index of libumem's heap: bitmaps as sets of chunks, the
    geometry of a slab, the search for the slab of an address, and the theorems
    that [locate], the two enumerations and the caches' counts are readings of
    one partition. *)

From S2P Require Import Prelude Target Text Umem.

Local Open Scope Z_scope.

(** ** Bitmaps *)

Definition ones (map : list Z) : Z := sum_Z (count_ones <$> map).

Definition words (chunks : Z) : nat := Z.to_nat ((chunks + 63) / 64).

(** A bitmap over [chunks] chunks: empty or whole, and no bit past the end. *)
Definition map_ok (chunks : Z) (map : list Z) : Prop :=
  (map = [] ∨ length map = words chunks) ∧
  ∀ i, 0 <= i → bit map i = true → i < chunks.

Lemma land_bit w k : 0 <= k → (Z.land (Z.shiftr w k) 1 =? 1) = Z.testbit w k.
Proof.
  intros Hk. change 1 with (Z.ones 1) at 1. rewrite Z.land_ones by lia.
  rewrite Z.testbit_odd, Z.pow_1_r, Zmod_odd. by destruct (Z.odd _).
Qed.

Lemma bit_testbit map i :
  0 <= i → bit map i =
  match map !! Z.to_nat (i / 64) with Some w => Z.testbit w (i `mod` 64) | None => false end.
Proof.
  intros Hi. unfold bit. case_match; [|done]. apply land_bit. by apply Z.mod_pos_bound.
Qed.

Lemma bit_nil i : bit [] i = false.
Proof. done. Qed.

Lemma bit_blank chunks i : bit (blank_bitmap chunks) i = false.
Proof.
  unfold bit, blank_bitmap. case_match eqn:E; [|done].
  apply lookup_replicate in E as [-> _]. by rewrite Z.shiftr_0_l.
Qed.

Lemma length_blank chunks : length (blank_bitmap chunks) = words chunks.
Proof. apply length_replicate. Qed.

Lemma word_index chunks i :
  0 <= i < chunks → (Z.to_nat (i / 64) < words chunks)%nat.
Proof.
  intros Hi. unfold words. pose proof (Z.div_mod i 64 ltac:(lia)).
  pose proof (Z.mod_pos_bound i 64 ltac:(lia)).
  pose proof (Z.div_mod (chunks + 63) 64 ltac:(lia)).
  pose proof (Z.mod_pos_bound (chunks + 63) 64 ltac:(lia)). lia.
Qed.

Lemma set_bit_spec map chunks c :
  0 <= c < chunks → length map = words chunks →
  ∃ map', set_bit map c = Ret map' ∧ length map' = words chunks ∧
    ∀ i, 0 <= i → bit map' i = bit map i || (i =? c).
Proof.
  intros Hc Hlen. unfold set_bit.
  destruct (lookup_lt_is_Some_2 map (Z.to_nat (c / 64))) as [w Hw].
  { rewrite Hlen. by apply word_index. }
  rewrite Hw. eexists. split; [done|]. split; [by rewrite length_insert|].
  intros i Hi. rewrite !bit_testbit by done.
  pose proof (Z.mod_pos_bound i 64 ltac:(lia)). pose proof (Z.mod_pos_bound c 64 ltac:(lia)).
  pose proof (Z.div_mod i 64 ltac:(lia)). pose proof (Z.div_mod c 64 ltac:(lia)).
  destruct (decide (Z.to_nat (i / 64) = Z.to_nat (c / 64))) as [E|E].
  - rewrite E, Hw, list_lookup_insert_eq by (by eapply lookup_lt_Some).
    rewrite Z.lor_spec, Z.shiftl_1_l, Z.pow2_bits_eqb by lia. f_equal.
    assert (i / 64 = c / 64) by (pose proof (Z.div_pos i 64); pose proof (Z.div_pos c 64); lia).
    destruct (Z.eqb_spec i c) as [->|]; zb; lia.
  - rewrite list_lookup_insert_ne by done.
    replace (i =? c) with false; [by rewrite orb_false_r|].
    symmetry. zb. congruence.
Qed.

(** The ones of the words are the bits of the map. *)
Lemma count_ones_range w : count_ones w = count_range (Z.testbit w) 0 64.
Proof. done. Qed.

Lemma ones_count map : ones map = count_range (bit map) 0 (64 * length map).
Proof.
  unfold ones. induction map as [|w map IH]; [done|].
  cbn [fmap list_fmap sum_Z foldr]. fold (sum_Z (count_ones <$> map)). rewrite IH.
  replace (64 * length (w :: map))%nat with (64 + 64 * length map)%nat by (simpl; lia).
  rewrite count_range_app. f_equal.
  - rewrite count_ones_range. rewrite (count_range_ext _ (bit (w :: map)) 0 64 0); [done|].
    intros i Hi. rewrite bit_testbit by lia.
    rewrite Z.add_0_r, Z.div_small, Z.mod_small by lia. done.
  - change (0 + Z.of_nat 64) with 64.
    rewrite (count_range_ext _ (bit (w :: map)) 0 _ 64); [done|].
    intros i Hi. rewrite !bit_testbit by lia.
    replace (i + 64) with (i + 1 * 64) by lia. rewrite Z.div_add, Z.mod_add by lia.
    rewrite Z2Nat.inj_add, Nat.add_1_r by (try apply Z.div_pos; lia). done.
Qed.

Lemma map_ok_ones chunks map :
  0 <= chunks → map_ok chunks map → ones map = count_range (bit map) 0 (Z.to_nat chunks).
Proof.
  intros Hc [[->|Hlen] Hbits].
  - rewrite (count_range_none (bit [])); done.
  - rewrite ones_count. rewrite Hlen.
    assert (Z.to_nat chunks ≤ 64 * words chunks)%nat as Hle.
    { unfold words. pose proof (Z.div_mod (chunks + 63) 64 ltac:(lia)).
      pose proof (Z.mod_pos_bound (chunks + 63) 64 ltac:(lia)). lia. }
    replace (64 * words chunks)%nat
      with (Z.to_nat chunks + (64 * words chunks - Z.to_nat chunks))%nat by lia.
    rewrite count_range_app, (count_range_none _ (0 + _)); [lia|].
    intros i Hi. destruct (bit map i) eqn:E; [|done]. apply Hbits in E; lia.
Qed.

Lemma ones_bound chunks map :
  0 <= chunks → map_ok chunks map → 0 <= ones map <= chunks.
Proof.
  intros Hc Hm. rewrite (map_ok_ones chunks) by done.
  pose proof (count_range_bound (bit map) 0 (Z.to_nat chunks)). lia.
Qed.

Lemma popcount_ones chunks map :
  0 <= chunks < W64 → map_ok chunks map → popcount map = ones map.
Proof.
  intros Hc Hm. apply sum_u64_small. pose proof (ones_bound chunks map ltac:(lia) Hm).
  unfold is_u64. unfold ones in *. lia.
Qed.

Lemma map_ok_nil chunks : map_ok chunks [].
Proof. split; [by left|done]. Qed.

Lemma map_ok_blank chunks : map_ok chunks (blank_bitmap chunks).
Proof. split; [right; apply length_blank|]. intros i _. by rewrite bit_blank. Qed.

(** Setting a bit that was clear adds one, whichever way the set is counted. *)
Lemma map_ok_set chunks map map' c :
  0 <= c < chunks → map_ok chunks map →
  length map' = words chunks →
  (∀ i, 0 <= i → bit map' i = bit map i || (i =? c)) →
  bit map c = false →
  map_ok chunks map' ∧ ones map' = ones map + 1.
Proof.
  intros Hc Hok Hlen Hbits Hclear.
  assert (map_ok chunks map') as Hok'.
  { split; [by right|]. intros i Hi. rewrite Hbits by done. intros [?|?]%orb_true_iff.
    - by apply Hok.
    - zb. lia. }
  split; [done|]. rewrite !(map_ok_ones chunks) by (done || lia).
  rewrite <- count_range_add with (c := c) by (done || lia).
  rewrite (count_range_ext _ (λ i, bit map i || (i =? c)) 0 _ 0); [done|].
  intros i Hi. rewrite Hbits, Z.add_0_r by lia. done.
Qed.

(** ** Slab geometry *)

Definition geometry (caches : list Cache) : list (Z * Z) :=
  (λ c, (ca_bufsize c, ca_chunksize c)) <$> caches.

(** A slab's chunks tile memory below the end of the address space, and its
    bitmaps are over those chunks, a chunk in one of them at most. *)
Record slab_geo (s : Slab) : Prop := {
  sg_base : 0 <= sl_base s;
  sg_chunksize : 0 < sl_chunksize s;
  sg_chunks : 0 < sl_chunks s <= MAX_CHUNKS_PER_SLAB;
  sg_fits : sl_base s + sl_chunks s * sl_chunksize s < W64;
  sg_cache : 0 <= sl_cache s;
  sg_free : map_ok (sl_chunks s) (sl_free s);
  sg_parked : map_ok (sl_chunks s) (sl_parked s);
  sg_apart : ∀ i, 0 <= i → is_parked s i = true → is_free s i = false
}.

(** A slab of a known cache, whose buffer fits the slab's stride. *)
Definition slab_in (geo : list (Z * Z)) (s : Slab) : Prop :=
  ∃ bufsize, geo !! Z.to_nat (sl_cache s) = Some (bufsize, sl_chunksize s) ∧
    0 < bufsize <= sl_chunksize s.

Record index_ok (caches : list Cache) (slabs : list Slab) : Prop := {
  ix_wf : intervals_wf sl_base slab_end slabs;
  ix_geo : Forall slab_geo slabs;
  ix_in : Forall (slab_in (geometry caches)) slabs
}.

Lemma chunk_bound s i :
  slab_geo s → 0 <= i < sl_chunks s →
  0 <= sl_base s + i * sl_chunksize s ∧
  sl_base s + i * sl_chunksize s + sl_chunksize s
    <= sl_base s + sl_chunks s * sl_chunksize s < W64.
Proof.
  intros [Hb Hcs Hch Hf _ _ _ _] Hi. split; [nia|]. split; [|lia].
  assert (i * sl_chunksize s + sl_chunksize s = (i + 1) * sl_chunksize s) as E by lia.
  assert ((i + 1) * sl_chunksize s <= sl_chunks s * sl_chunksize s); [|lia].
  apply Z.mul_le_mono_nonneg_r; lia.
Qed.

Lemma chunk_unique k i j x :
  0 < k → i * k <= x < i * k + k → j * k <= x < j * k + k → i = j.
Proof. intros. assert (i < j + 1 ∧ j < i + 1) by (split; nia). lia. Qed.

Lemma chunk_start s i :
  slab_geo s → 0 <= i < sl_chunks s →
  u64_add (sl_base s) (u64_mul i (sl_chunksize s)) = sl_base s + i * sl_chunksize s.
Proof.
  intros Hg Hi. pose proof (chunk_bound s i Hg Hi). destruct Hg.
  assert (0 <= i * sl_chunksize s) by nia.
  rewrite u64_mul_small, u64_add_small by (unfold is_u64; lia). done.
Qed.

Lemma slab_end_small s :
  slab_geo s → slab_end s = sl_base s + sl_chunks s * sl_chunksize s.
Proof.
  intros [Hb Hcs Hch Hf _ _ _ _]. unfold slab_end.
  assert (0 <= sl_chunks s * sl_chunksize s) by nia.
  rewrite u64_mul_small, u64_add_small by (unfold is_u64; lia). done.
Qed.

(** The chunk an address of the slab is in. *)
Lemma chunk_of_spec s a :
  slab_geo s → sl_base s <= a < slab_end s →
  ∃ i, chunk_of s a = Ret i ∧ base_of s a = Ret (sl_base s + i * sl_chunksize s) ∧
    0 <= i < sl_chunks s ∧
    sl_base s + i * sl_chunksize s <= a < sl_base s + i * sl_chunksize s + sl_chunksize s.
Proof.
  intros Hg Ha. rewrite slab_end_small in Ha by done.
  pose proof Hg as [Hb Hcs [Hch1 Hch2] Hf _ _ _ _].
  assert (is_u64 (a - sl_base s)) as Hd by (unfold is_u64; lia).
  set (i := (a - sl_base s) / sl_chunksize s).
  assert (0 <= i < sl_chunks s) as Hi.
  { split; [apply Z.div_pos; lia|]. apply Z.div_lt_upper_bound; lia. }
  exists i. unfold chunk_of, base_of, div_u64.
  rewrite u64_sub_small by done. rewrite (proj2 (Z.eqb_neq _ _)) by lia.
  cbn [mbind outcome_bind]. fold i.
  unfold as_u32. unfold MAX_CHUNKS_PER_SLAB in Hch2. rewrite Z.mod_small by lia.
  rewrite chunk_start by done. do 3 (split; [done|]). split.
  - pose proof (Z.mul_div_le (a - sl_base s) (sl_chunksize s) ltac:(lia)). unfold i. lia.
  - pose proof (Z.mod_pos_bound (a - sl_base s) (sl_chunksize s) ltac:(lia)).
    pose proof (Z.div_mod (a - sl_base s) (sl_chunksize s) ltac:(lia)). unfold i. lia.
Qed.

(** A chunk's own base is found in that chunk. *)
Lemma chunk_of_base s i :
  slab_geo s → 0 <= i < sl_chunks s →
  sl_base s <= sl_base s + i * sl_chunksize s < slab_end s ∧
  chunk_of s (sl_base s + i * sl_chunksize s) = Ret i.
Proof.
  intros Hg Hi. pose proof (chunk_bound s i Hg Hi). pose proof Hg as [? Hcs ? ? _ _ _ _].
  assert (sl_base s <= sl_base s + i * sl_chunksize s < slab_end s) as Hin.
  { rewrite slab_end_small by done. nia. }
  split; [done|]. destruct (chunk_of_spec s _ Hg Hin) as (j & -> & _ & Hj & Hb).
  f_equal. nia.
Qed.

Lemma slab_index_Some slabs a i :
  intervals_wf sl_base slab_end slabs →
  slab_index slabs a = Some i ↔
  ∃ s, slabs !! i = Some s ∧ sl_base s <= a < slab_end s.
Proof. apply interval_index_Some. Qed.

Lemma slab_at_Some slabs a s :
  intervals_wf sl_base slab_end slabs →
  slab_at slabs a = Some s ↔ s ∈ slabs ∧ sl_base s <= a < slab_end s.
Proof.
  intros Hwf. unfold slab_at. split.
  - intros (i & Hi & Hs)%bind_Some. apply slab_index_Some in Hi as (s' & Hs' & ?); [|done].
    simplify_eq. split; [by eapply list_elem_of_lookup_2|done].
  - intros [[i Hi]%list_elem_of_lookup Ha].
    rewrite (proj2 (slab_index_Some slabs a i Hwf)) by eauto. done.
Qed.

Lemma slab_at_None slabs a :
  intervals_wf sl_base slab_end slabs →
  slab_at slabs a = None ↔ ∀ s, s ∈ slabs → ¬ sl_base s <= a < slab_end s.
Proof.
  intros Hwf. split.
  - intros Hn s Hs Ha. rewrite (proj2 (slab_at_Some slabs a s Hwf)) in Hn by done. done.
  - intros H. destruct (slab_at slabs a) as [s|] eqn:E; [|done].
    apply slab_at_Some in E as [Hs Ha]; [|done]. by destruct (H s Hs).
Qed.

Lemma slab_in_cache caches s :
  slab_in (geometry caches) s →
  ∃ c, cache_ix caches (sl_cache s) = Ret c ∧ ca_chunksize c = sl_chunksize s ∧
    0 < ca_bufsize c <= sl_chunksize s.
Proof.
  intros (bufsize & Hg & Hb). unfold geometry in Hg. rewrite list_lookup_fmap in Hg.
  apply fmap_Some in Hg as (c & Hc & [= -> Heq]).
  exists c. unfold cache_ix. rewrite Hc. by rewrite <- Heq.
Qed.

(** ** Locating an address *)

(** The buffer of chunk [i]. *)
Definition chunk_buffer (s : Slab) (i bufsize : Z) : range :=
  Range (sl_base s + i * sl_chunksize s) (sl_base s + i * sl_chunksize s + bufsize).

Section locate.
Context (h : UmemHeap) (Hix : index_ok (h_caches h) (h_slabs h)).

Lemma locate_in_slab a s :
  s ∈ h_slabs h → sl_base s <= a < slab_end s →
  ∃ i c, cache_ix (h_caches h) (sl_cache s) = Ret c ∧ 0 <= i < sl_chunks s ∧
    0 < ca_bufsize c <= sl_chunksize s ∧
    sl_base s + i * sl_chunksize s <= a < sl_base s + i * sl_chunksize s + sl_chunksize s ∧
    locate h a =
      let buffer := chunk_buffer s i (ca_bufsize c) in
      Ret (if range_contains buffer a then
             (if is_held s i then Freed buffer (SourceCache (sl_cache s))
              else Live buffer (SourceCache (sl_cache s)))
           else Unknown).
Proof.
  intros Hs Ha. pose proof Hix as [Hwf Hgeo Hin].
  rewrite Forall_forall in Hgeo, Hin. specialize (Hgeo s Hs). specialize (Hin s Hs).
  destruct (slab_in_cache _ _ Hin) as (c & Hc & Hcs & Hb).
  destruct (chunk_of_spec s a Hgeo Ha) as (i & Hi & _ & Hir & Hia).
  exists i, c. split_and!; [done|lia..|].
  unfold locate. rewrite (proj2 (slab_at_Some _ a s Hwf)) by done. rewrite Hi, Hc.
  cbn [mbind outcome_bind]. rewrite chunk_start by done.
  pose proof (chunk_bound s i Hgeo Hir). pose proof Hgeo as [? ? ? ? _ _ _ _].
  rewrite u64_add_small by (unfold is_u64; nia). fold (chunk_buffer s i (ca_bufsize c)).
  cbv zeta. by destruct (range_contains _ a).
Qed.

Lemma locate_no_slab a :
  slab_at (h_slabs h) a = None → locate h a = Ret (locate_in_arena h a).
Proof. intros E. unfold locate. by rewrite E. Qed.

(** The buffers of one verdict, as a set. *)
Definition is_buffer (live : bool) (b : range) (ci : Z) : Prop :=
  ∃ s i c, s ∈ h_slabs h ∧ 0 <= i < sl_chunks s ∧ sl_cache s = ci ∧
    cache_ix (h_caches h) ci = Ret c ∧ is_held s i = negb live ∧
    b = chunk_buffer s i (ca_bufsize c).

Lemma locate_buffer a live b ci :
  is_buffer live b ci → range_contains b a = true →
  locate h a = Ret ((if live then Live else Freed) b (SourceCache ci)).
Proof.
  intros (s & i & c & Hs & Hi & <- & Hc & Hheld & ->) Ha.
  pose proof Hix as [Hwf Hgeo Hin]. rewrite Forall_forall in Hgeo. specialize (Hgeo s Hs).
  apply range_contains_spec in Ha as Ha'. unfold chunk_buffer in Ha'. simpl in Ha'.
  pose proof (chunk_bound s i Hgeo Hi) as Hcb.
  rewrite Forall_forall in Hin. specialize (Hin s Hs).
  destruct (slab_in_cache _ _ Hin) as (c' & Hc' & _ & Hb).
  rewrite Hc in Hc'. injection Hc' as <-.
  destruct (locate_in_slab a s Hs) as (j & c'' & Hc'' & Hj & Hb' & Haj & ->).
  { rewrite slab_end_small by done. pose proof Hgeo as [? ? ? ? _ _ _ _].
    assert (0 <= i * sl_chunksize s) by (apply Z.mul_nonneg_nonneg; lia). lia. }
  rewrite Hc in Hc''. injection Hc'' as <-. assert (j = i) as ->.
  { pose proof Hgeo as [? ? ? ? _ _ _ _].
    apply (chunk_unique (sl_chunksize s) j i (a - sl_base s)); [done|lia|]. lia. }
  cbv zeta. rewrite Ha, Hheld. by destruct live.
Qed.

Lemma locate_inv a v :
  locate h a = Ret v →
  (∃ live b ci, v = (if live : bool then Live else Freed) b (SourceCache ci) ∧
     is_buffer live b ci ∧ range_contains b a = true) ∨
  (v = Unknown ∧ slab_at (h_slabs h) a ≠ None) ∨
  (slab_at (h_slabs h) a = None ∧ v = locate_in_arena h a).
Proof.
  intros Hv. destruct (slab_at (h_slabs h) a) as [s|] eqn:E.
  - apply slab_at_Some in E as [Hs Ha]; [|apply Hix].
    destruct (locate_in_slab a s Hs Ha) as (i & c & Hc & Hi & _ & _ & Hl).
    rewrite Hl in Hv. cbv zeta in Hv. injection Hv as <-.
    destruct (range_contains _ a) eqn:Er; [|by right; left].
    left. exists (negb (is_held s i)), (chunk_buffer s i (ca_bufsize c)), (sl_cache s).
    split; [by destruct (is_held s i)|]. split; [|done].
    exists s, i, c. by rewrite negb_involutive.
  - rewrite locate_no_slab in Hv by done. right. right. by simplify_eq.
Qed.

Lemma locate_total a : ∃ v, locate h a = Ret v.
Proof.
  destruct (slab_at (h_slabs h) a) as [s|] eqn:E; [|eauto using locate_no_slab].
  apply slab_at_Some in E as [Hs Ha]; [|apply Hix].
  destruct (locate_in_slab a s Hs Ha) as (i & c & _ & _ & _ & _ & ->). eauto.
Qed.
End locate.

(** ** The enumerations *)

(** Whether chunk [i] is enumerated with the [live] buffers. *)
Definition shows (live : bool) (s : Slab) (i : Z) : bool := negb (Bool.eqb (is_held s i) live).

Lemma shows_spec live s i : shows live s i = true ↔ is_held s i = negb live.
Proof. unfold shows. by destruct (is_held s i), live. Qed.

Definition shown (live : bool) (s : Slab) : Z :=
  count_range (shows live s) 0 (Z.to_nat (sl_chunks s)).

Lemma slab_buffers_chunks s bufsize live :
  slab_geo s → 0 < bufsize <= sl_chunksize s →
  slab_buffers s bufsize live =
  (λ i, chunk_buffer s i bufsize) <$>
    filter (λ i, shows live s i = true) (z_range 0 (Z.to_nat (sl_chunks s))).
Proof.
  intros Hg Hb. unfold slab_buffers.
  assert (∀ l, filter (λ i, Bool.eqb (is_held s i) live = false) l =
               filter (λ i, shows live s i = true) l) as ->.
  { intros l. apply list_filter_iff. intros i. unfold shows. by destruct (Bool.eqb _ _). }
  apply list_fmap_ext. intros k i Hi%list_elem_of_lookup_2.
  apply list_elem_of_filter in Hi as [_ Hi%elem_of_z_range].
  pose proof Hg as [? ? [? ?] ? _ _ _ _].
  rewrite chunk_start by (done || lia). pose proof (chunk_bound s i Hg ltac:(lia)).
  rewrite u64_add_small by (unfold is_u64; lia). done.
Qed.

Lemma elem_of_slab_buffers s bufsize live b :
  slab_geo s → 0 < bufsize <= sl_chunksize s →
  b ∈ slab_buffers s bufsize live ↔
  ∃ i, 0 <= i < sl_chunks s ∧ is_held s i = negb live ∧ b = chunk_buffer s i bufsize.
Proof.
  intros Hg Hb. rewrite slab_buffers_chunks by done. rewrite list_elem_of_fmap.
  pose proof Hg as [_ _ [? _] _ _ _ _ _]. split.
  - intros (i & -> & Hi). apply list_elem_of_filter in Hi as [Hs Hi%elem_of_z_range].
    apply shows_spec in Hs. exists i. split; [lia|done].
  - intros (i & Hi & Hs & ->). exists i. split; [done|].
    apply list_elem_of_filter. rewrite shows_spec, elem_of_z_range. split; [done|lia].
Qed.

Lemma length_slab_buffers s bufsize live :
  Z.of_nat (length (slab_buffers s bufsize live)) = shown live s.
Proof.
  unfold slab_buffers, shown, count_range. rewrite length_fmap. do 2 f_equal.
  apply list_filter_iff. intros i. unfold shows. by destruct (Bool.eqb _ _).
Qed.

Lemma slab_buffers_wf s bufsize live :
  slab_geo s → 0 < bufsize <= sl_chunksize s →
  intervals_wf r_start r_end (slab_buffers s bufsize live).
Proof.
  intros Hg Hb. rewrite slab_buffers_chunks by done.
  generalize (Z.to_nat (sl_chunks s)). intros n. generalize 0 at 1. revert n.
  induction n as [|n IH]; intros a; [by repeat constructor|].
  cbn [z_range]. rewrite filter_cons. case_decide; [|apply IH].
  rewrite fmap_cons, intervals_wf_cons. split; [simpl; lia|]. split; [|apply IH].
  rewrite Forall_fmap, Forall_forall. intros i Hi.
  apply list_elem_of_filter in Hi as [_ Hi%elem_of_z_range]. simpl.
  pose proof Hg as [_ Hcs _ _ _ _ _ _].
  assert ((a + 1) * sl_chunksize s <= i * sl_chunksize s); [|lia].
  apply Z.mul_le_mono_nonneg_r; lia.
Qed.

Lemma intervals_wf_app {A} (lo hi : A → Z) l k x :
  intervals_wf lo hi l → intervals_wf lo hi k →
  Forall (λ a, hi a <= x) l → Forall (λ b, x <= lo b) k →
  intervals_wf lo hi (l ++ k).
Proof.
  intros Hl Hk Hlx Hkx. induction l as [|a l IH]; [done|].
  apply intervals_wf_cons in Hl as (Ha & Hall & Hl). apply Forall_cons in Hlx as [Hax Hlx].
  simpl. apply intervals_wf_cons. split; [done|]. split; [|by apply IH].
  apply Forall_app. split; [done|]. eapply Forall_impl; [done|]. simpl. lia.
Qed.

Lemma buffers_of_spec caches slabs live :
  Forall slab_geo slabs → Forall (slab_in (geometry caches)) slabs →
  ∃ bs, buffers_of caches slabs live = Ret bs ∧
    (∀ b, b ∈ bs ↔ ∃ s i c, s ∈ slabs ∧ 0 <= i < sl_chunks s ∧
       cache_ix caches (sl_cache s) = Ret c ∧ is_held s i = negb live ∧
       b = chunk_buffer s i (ca_bufsize c)) ∧
    Z.of_nat (length bs) = sum_Z (shown live <$> slabs) ∧
    (intervals_wf sl_base slab_end slabs → intervals_wf r_start r_end bs).
Proof.
  intros Hgeo. induction Hgeo as [|s slabs Hg Hgeo IH]; intros Hin.
  { exists []. split; [done|]. split; [|by repeat constructor].
    intros b. rewrite elem_of_nil. split; [done|]. by intros (?&?&?&?%elem_of_nil&_). }
  apply Forall_cons in Hin as [Hs Hin]. destruct (IH Hin) as (bs & Hbs & Hmem & Hlen & Hwf).
  destruct (slab_in_cache _ _ Hs) as (c & Hc & _ & Hb).
  exists (slab_buffers s (ca_bufsize c) live ++ bs).
  cbn [buffers_of]. rewrite Hc. cbn [mbind outcome_bind]. rewrite Hbs. split; [done|].
  split_and!.
  - intros b. rewrite elem_of_app, Hmem, elem_of_slab_buffers by done. split.
    + intros [(i & Hi & Hh & ->)|(s' & i & c' & Hs' & ?)].
      * exists s, i, c. split; [left|done].
      * exists s', i, c'. split; [by right|done].
    + intros (s' & i & c' & [->|Hs']%elem_of_cons & Hi & Hc' & Hh & ->).
      * left. rewrite Hc in Hc'. injection Hc' as <-. eauto.
      * right. by exists s', i, c'.
  - rewrite length_app, Nat2Z.inj_add, Hlen, length_slab_buffers. done.
  - intros (_ & Hafter & Hrest)%intervals_wf_cons.
    apply (intervals_wf_app _ _ _ _ (slab_end s)); [by apply slab_buffers_wf|by apply Hwf| |].
    + rewrite Forall_forall. intros b (i & Hi & _ & ->)%elem_of_slab_buffers; [|done..].
      rewrite slab_end_small by done. pose proof (chunk_bound s i Hg Hi). simpl. lia.
    + rewrite Forall_forall. intros b (s' & i & c' & Hs' & Hi & _ & _ & ->)%Hmem.
      rewrite Forall_forall in Hafter, Hgeo. specialize (Hafter s' Hs').
      pose proof (chunk_bound s' i (Hgeo s' Hs') Hi). simpl.
      pose proof (Hgeo s' Hs') as [? ? ? ? _ _ _ _].
      assert (0 <= i * sl_chunksize s') by (apply Z.mul_nonneg_nonneg; lia). lia.
Qed.

(** Every chunk is shown as live or as freed, and held ones are counted by the
    two bitmaps. *)
Lemma shown_freed s : slab_geo s → shown false s = ones (sl_free s) + ones (sl_parked s).
Proof.
  intros [_ _ Hc _ _ Hf Hp Hap]. unfold shown.
  rewrite !(map_ok_ones (sl_chunks s)) by (done || lia).
  rewrite <- count_range_orb.
  - rewrite (count_range_ext (shows false s) (λ i, bit (sl_free s) i || bit (sl_parked s) i) 0 _ 0).
    { done. }
    intros i Hi. rewrite Z.add_0_r. unfold shows, is_held, is_free, is_parked.
    by destruct (_ || _).
  - intros i Hi Hfree. destruct (bit (sl_parked s) i) eqn:E; [|done].
    specialize (Hap i ltac:(lia) E). unfold is_free in Hap. congruence.
Qed.

Lemma shown_live s :
  slab_geo s → shown true s = sl_chunks s - ones (sl_free s) - ones (sl_parked s).
Proof.
  intros Hg. pose proof (shown_freed s Hg) as Hf. unfold shown in *.
  rewrite (count_range_ext (shows true s) (λ i, negb (shows false s i)) 0 _ 0).
  - change (0 + 0) with 0. rewrite count_range_negb.
    pose proof Hg as [_ _ [? _] _ _ _ _ _]. lia.
  - intros i _. rewrite Z.add_0_r. unfold shows. by destruct (is_held s i).
Qed.
