(* ===== verification/UmemIndexFacts.v ===== *)
(** The self-consistency of a finished index of libumem's heap: what [heap_ok]
    asks of one, and that the source's own checks of its slabs, its counts and
    its parked set find nothing wrong with an index that has it. *)

From S2P Require Import Prelude Target Text Umem UmemFacts.

Local Open Scope Z_scope.

(** ** Totals by cache *)

Definition total (f : Slab → Z) (i : nat) (slabs : list Slab) : Z :=
  sum_Z (f <$> filter (λ s, sl_cache s = Z.of_nat i) slabs).

Definition allocated (s : Slab) : Z := sl_chunks s - ones (sl_free s).
Definition freed_chunks (s : Slab) : Z := ones (sl_free s).
Definition parked_chunks (s : Slab) : Z := ones (sl_parked s).

Lemma total_nil f i : total f i [] = 0.
Proof. done. Qed.

Lemma total_cons f i s slabs :
  total f i (s :: slabs) =
  (if bool_decide (sl_cache s = Z.of_nat i) then f s else 0) + total f i slabs.
Proof. unfold total. rewrite filter_cons. case_decide; case_bool_decide; simpl; done || lia. Qed.

Lemma total_app f i l k : total f i (l ++ k) = total f i l + total f i k.
Proof. unfold total. by rewrite filter_app, fmap_app, sum_Z_app. Qed.

Lemma total_perm f i l k : l ≡ₚ k → total f i l = total f i k.
Proof. intros H. unfold total. apply sum_Z_perm. by rewrite H. Qed.

Lemma total_ext f g i slabs :
  (∀ s, s ∈ slabs → f s = g s) → total f i slabs = total g i slabs.
Proof.
  induction slabs as [|s slabs IH]; intros H; [done|].
  rewrite !total_cons, IH by (intros; apply H; by right). rewrite (H s) by left. done.
Qed.

Lemma total_sub f g i slabs :
  total (λ s, f s - g s) i slabs = total f i slabs - total g i slabs.
Proof.
  induction slabs as [|s slabs IH]; [done|]. rewrite !total_cons, IH.
  case_bool_decide; lia.
Qed.

(** Disjoint slabs hold fewer chunks than there are addresses. *)
Lemma chunks_bound slabs x :
  Forall slab_geo slabs → intervals_wf sl_base slab_end slabs →
  0 <= x < W64 → Forall (λ s, x <= sl_base s) slabs →
  x + sum_Z (sl_chunks <$> slabs) < W64.
Proof.
  intros Hgeo. revert x. induction Hgeo as [|s slabs Hg Hgeo IH]; intros x Hwf Hx Hall.
  { simpl. lia. }
  apply intervals_wf_cons in Hwf as (Hs & Hafter & Hwf).
  apply Forall_cons in Hall as [Hxs _].
  rewrite fmap_cons. cbn [sum_Z foldr]. fold (sum_Z (sl_chunks <$> slabs)).
  rewrite slab_end_small in * by done.
  pose proof Hg as [? ? [? ?] ? _ _ _ _].
  assert (sl_chunks s <= sl_chunks s * sl_chunksize s) by nia.
  specialize (IH (sl_base s + sl_chunks s * sl_chunksize s) Hwf ltac:(lia) Hafter). lia.
Qed.

Lemma total_bound f i slabs :
  Forall slab_geo slabs → intervals_wf sl_base slab_end slabs →
  (∀ s, slab_geo s → 0 <= f s <= sl_chunks s) → is_u64 (total f i slabs).
Proof.
  intros Hgeo Hwf Hf.
  assert (0 + sum_Z (sl_chunks <$> slabs) < W64) as Hb.
  { apply chunks_bound; [done..|lia|]. eapply Forall_impl; [done|]. by intros s []. }
  assert (0 <= total f i slabs <= sum_Z (sl_chunks <$> slabs)); [|unfold is_u64; lia].
  clear Hwf Hb. induction Hgeo as [|s slabs Hg Hgeo IH]; [done|].
  rewrite total_cons, fmap_cons. cbn [sum_Z foldr]. fold (sum_Z (sl_chunks <$> slabs)).
  specialize (Hf s Hg). case_bool_decide; lia.
Qed.

Lemma allocated_range s : slab_geo s → 0 <= allocated s <= sl_chunks s.
Proof.
  intros [_ _ [? _] _ _ Hf _ _]. unfold allocated.
  pose proof (ones_bound (sl_chunks s) (sl_free s) ltac:(lia) Hf). lia.
Qed.

Lemma freed_range s : slab_geo s → 0 <= freed_chunks s <= sl_chunks s.
Proof.
  intros [_ _ [? _] _ _ Hf _ _]. apply (ones_bound (sl_chunks s) (sl_free s)); [lia|done].
Qed.

Lemma parked_range s : slab_geo s → 0 <= parked_chunks s <= sl_chunks s.
Proof.
  intros [_ _ [? _] _ _ _ Hp _]. apply (ones_bound (sl_chunks s) (sl_parked s)); [lia|done].
Qed.

Lemma shown_live_split s : slab_geo s → shown true s = allocated s - parked_chunks s.
Proof. intros Hg. by rewrite shown_live. Qed.

(** ** The parked buffers *)

Definition parked_bases (s : Slab) : list Z :=
  (λ i, sl_base s + i * sl_chunksize s) <$>
    filter (λ i, is_parked s i = true) (z_range 0 (Z.to_nat (sl_chunks s))).

Lemma elem_of_parked_bases s a :
  slab_geo s → a ∈ parked_bases s ↔
  ∃ i, 0 <= i < sl_chunks s ∧ is_parked s i = true ∧ a = sl_base s + i * sl_chunksize s.
Proof.
  intros [_ _ [? _] _ _ _ _ _]. unfold parked_bases. rewrite list_elem_of_fmap. split.
  - intros (i & -> & [Hp Hi%elem_of_z_range]%list_elem_of_filter). exists i. split; [lia|done].
  - intros (i & Hi & Hp & ->). exists i. split; [done|].
    apply list_elem_of_filter. rewrite elem_of_z_range. split; [done|lia].
Qed.

Lemma length_parked_bases s :
  slab_geo s → Z.of_nat (length (parked_bases s)) = parked_chunks s.
Proof.
  intros [_ _ [? _] _ _ _ Hp _]. unfold parked_bases, parked_chunks.
  rewrite length_fmap, (map_ok_ones (sl_chunks s)) by (done || lia). done.
Qed.

(** ** The whole index *)

Definition seg_live (i : nat) (live : bool) (g : Seg) : bool :=
  (sg_arena g =? Z.of_nat i) && Bool.eqb (sg_live g) live.

Definition seg_count (i : nat) (live : bool) (segs : list Seg) : Z :=
  Z.of_nat (length (filter (λ g, seg_live i live g = true) segs)).

Record heap_ok (h : UmemHeap) : Prop := {
  hk_index : index_ok (h_caches h) (h_slabs h);
  hk_counts : ∀ i c, h_caches h !! i = Some c →
    ca_live c = total (shown true) i (h_slabs h) ∧
    ca_freed c = total freed_chunks i (h_slabs h) ∧
    ca_parked c = total parked_chunks i (h_slabs h);
  hk_parked : h_parked h ≡ₚ h_slabs h ≫= parked_bases;
  hk_sorted : StronglySorted Z.lt (h_parked h);
  hk_segs : Forall (λ g, 0 <= sg_start g < sg_end g ∧
                         0 <= sg_arena g < Z.of_nat (length (h_arenas h))) (h_segs h);
  hk_seg_sorted : StronglySorted (λ a b, sg_start a <= sg_start b) (h_segs h);
  hk_seg_counts : ∀ i a, h_arenas h !! i = Some a →
    ar_live a = seg_count i true (h_segs h) `mod` W64 ∧
    ar_freed a = seg_count i false (h_segs h) `mod` W64;
  hk_span : h_arena_span h =
    match head (h_segs h), last (h_segs h) with
    | Some f, Some g => Range (sg_start f) (sg_end g)
    | _, _ => Range 0 0
    end
}.

(** ** The counting loops of the checks *)

(** [counts[c] += n], wrapping. *)
Definition add_at (counts : list Z) (c : nat) (n : Z) : list Z :=
  alter (λ x, u64_add x n) c counts.

Lemma length_add_at l c n : length (add_at l c n) = length l.
Proof. apply length_alter. Qed.

Lemma u64_add_assoc a b c : u64_add (u64_add a b) c = u64_add a (b + c).
Proof. unfold u64_add. rewrite Zplus_mod_idemp_l. f_equal. lia. Qed.

Lemma lookup_add_at l c n i :
  add_at l c n !! i = (if bool_decide (c = i) then (λ x, u64_add x n) <$> l !! i else l !! i).
Proof.
  unfold add_at. case_bool_decide as E; [subst; apply list_lookup_alter_eq|].
  by apply list_lookup_alter_ne.
Qed.

Lemma add_at_add l c m n : add_at (add_at l c m) c n = add_at l c (m + n).
Proof.
  apply list_eq. intros i. rewrite !lookup_add_at. case_bool_decide; [|done].
  destruct (l !! i); [|done]. simpl. by rewrite u64_add_assoc.
Qed.

Lemma bump_add_at l i :
  (Z.to_nat i < length l)%nat → bump l i = Ret (add_at l (Z.to_nat i) 1).
Proof.
  intros Hi. unfold bump, add_at. destruct (lookup_lt_is_Some_2 _ _ Hi) as [x Hx].
  rewrite Hx. cbn [mbind outcome_bind or_panic]. f_equal.
  apply list_eq. intros j. destruct (decide (j = Z.to_nat i)) as [->|].
  - rewrite list_lookup_insert_eq, list_lookup_alter_eq, Hx by done. done.
  - by rewrite list_lookup_insert_ne, list_lookup_alter_ne by done.
Qed.

Lemma add_at_0 l c : Forall is_u64 l → add_at l c 0 = l.
Proof.
  intros Hl. apply list_eq. intros i. rewrite lookup_add_at. case_bool_decide; [|done].
  destruct (l !! i) as [x|] eqn:E; [|done]. simpl. f_equal.
  rewrite Forall_lookup in Hl. specialize (Hl _ _ E).
  rewrite u64_add_small; [lia|]. by rewrite Z.add_0_r.
Qed.

Lemma add_at_u64 l c n : Forall is_u64 l → Forall is_u64 (add_at l c n).
Proof.
  intros Hl. apply Forall_lookup. intros i x. rewrite Forall_lookup in Hl.
  rewrite lookup_add_at. case_bool_decide; [|eauto].
  intros (y & _ & ->)%fmap_Some. apply u64_add_range.
Qed.

Lemma count_chunk_loop s l f a n :
  0 <= sl_cache s → (Z.to_nat (sl_cache s) < length l)%nat →
  (Z.to_nat (sl_cache s) < length f)%nat → Forall is_u64 l → Forall is_u64 f →
  let k := count_range (is_free s) a n in
  for_each (count_chunk s) (l, f) (z_range a n) =
  Ret (add_at l (Z.to_nat (sl_cache s)) (Z.of_nat n - k),
       add_at f (Z.to_nat (sl_cache s)) k).
Proof.
  intros Hc. revert l f a. induction n as [|n IH]; intros l f a Hl Hf Hlu Hfu k.
  { unfold k. cbn [z_range for_each]. by rewrite !add_at_0 by done. }
  unfold k. rewrite count_range_S. cbn [z_range for_each count_chunk].
  destruct (is_free s a).
  - rewrite bump_add_at by done. cbn [mbind outcome_bind].
    rewrite IH by (rewrite ?length_add_at; auto using add_at_u64). rewrite add_at_add.
    do 3 f_equal; lia.
  - rewrite bump_add_at by done. cbn [mbind outcome_bind].
    rewrite IH by (rewrite ?length_add_at; auto using add_at_u64). rewrite add_at_add.
    do 3 f_equal; lia.
Qed.

Lemma count_slab_spec s l f :
  slab_geo s → (Z.to_nat (sl_cache s) < length l)%nat → length f = length l →
  Forall is_u64 l → Forall is_u64 f →
  count_slab (l, f) s =
  Ret (add_at l (Z.to_nat (sl_cache s)) (allocated s),
       add_at f (Z.to_nat (sl_cache s)) (freed_chunks s)).
Proof.
  intros [_ _ [? _] _ ? Hf _ _] Hl Hlf Hlu Hfu. unfold count_slab, allocated, freed_chunks.
  rewrite count_chunk_loop by (done || lia). rewrite (map_ok_ones (sl_chunks s)) by (done || lia).
  rewrite Z2Nat.id by lia. done.
Qed.

(** Counting every slab gives each cache its totals. *)
Lemma count_slabs_spec n slabs l f :
  Forall slab_geo slabs → Forall (λ s, (Z.to_nat (sl_cache s) < n)%nat) slabs →
  length l = n → length f = n → Forall is_u64 l → Forall is_u64 f →
  ∃ l' f', for_each count_slab (l, f) slabs = Ret (l', f') ∧
    length l' = n ∧ length f' = n ∧
    (∀ i x, l !! i = Some x → l' !! i = Some (u64_add x (total allocated i slabs))) ∧
    (∀ i x, f !! i = Some x → f' !! i = Some (u64_add x (total freed_chunks i slabs))).
Proof.
  intros Hgeo. revert l f. induction Hgeo as [|s slabs Hg Hgeo IH]; intros l f Hn Hl Hf Hlu Hfu.
  { exists l, f. cbn [for_each]. do 3 (split; [done|]).
    assert (∀ k : list Z, Forall is_u64 k → ∀ (i : nat) (x : Z), k !! i = Some x →
      k !! i = Some (u64_add x 0)) as H0.
    { intros k Hk i x Hx. rewrite Forall_lookup in Hk. specialize (Hk _ _ Hx).
      rewrite Hx. f_equal. rewrite u64_add_small; [lia|]. by rewrite Z.add_0_r. }
    split; intros i x Hx; rewrite total_nil; by apply H0. }
  apply Forall_cons in Hn as [Hs Hn]. cbn [for_each].
  rewrite count_slab_spec by (done || lia || congruence). cbn [mbind outcome_bind].
  destruct (IH (add_at l (Z.to_nat (sl_cache s)) (allocated s))
              (add_at f (Z.to_nat (sl_cache s)) (freed_chunks s)))
    as (l' & f' & -> & Hl' & Hf' & Hlx & Hfx);
    [done|by rewrite length_add_at|by rewrite length_add_at|by apply add_at_u64
    |by apply add_at_u64|].
  exists l', f'. do 3 (split; [done|]). pose proof (sg_cache s Hg) as Hc.
  assert (∀ i (k : list Z) x m, k !! i = Some x →
    add_at k (Z.to_nat (sl_cache s)) m !! i =
      Some (u64_add x (if bool_decide (sl_cache s = Z.of_nat i) then m else 0)) ∨
    sl_cache s ≠ Z.of_nat i ∧ add_at k (Z.to_nat (sl_cache s)) m !! i = Some x) as Hat.
  { intros i k x m Hx. rewrite lookup_add_at, Hx.
    repeat case_bool_decide; simpl; auto; lia. }
  split; intros i x Hx; rewrite total_cons.
  - destruct (Hat i l x (allocated s) Hx) as [E|[Hne E]].
    + rewrite (Hlx _ _ E), u64_add_assoc. done.
    + rewrite (Hlx _ _ E), bool_decide_false by done. done.
  - destruct (Hat i f x (freed_chunks s) Hx) as [E|[Hne E]].
    + rewrite (Hfx _ _ E), u64_add_assoc. done.
    + rewrite (Hfx _ _ E), bool_decide_false by done. done.
Qed.

Lemma flat_map_nil {A B} (f : A → list B) l : (∀ x, x ∈ l → f x = []) → flat_map f l = [].
Proof.
  induction l as [|x l IH]; intros H; [done|]. simpl. rewrite (H x) by left.
  apply IH. intros y ?. apply H. by right.
Qed.

Lemma for_each_same {A S} (f : S → A → outcome S) s l :
  (∀ x, x ∈ l → f s x = Ret s) → for_each f s l = Ret s.
Proof.
  induction l as [|x l IH]; intros H; [done|]. cbn [for_each]. rewrite (H x) by left.
  apply IH. intros y ?. apply H. by right.
Qed.

Lemma elem_of_indexed {A} (l : list A) i x : (i, x) ∈ indexed l ↔ l !! i = Some x.
Proof.
  unfold indexed. rewrite list_elem_of_lookup. split.
  - intros [j Hj]. rewrite list_lookup_imap in Hj. apply fmap_Some in Hj as (y & Hy & [= -> ->]). done.
  - intros Hi. exists i. by rewrite list_lookup_imap, Hi.
Qed.

Lemma slab_cache_lt caches s :
  slab_in (geometry caches) s → (Z.to_nat (sl_cache s) < length caches)%nat.
Proof.
  intros (b & Hb & _). apply lookup_lt_Some in Hb. unfold geometry in Hb.
  by rewrite length_fmap in Hb.
Qed.

Lemma zeros_u64 n : Forall is_u64 (replicate n 0).
Proof. apply Forall_replicate. done. Qed.

Section checks.
Context (h : UmemHeap) (Hok : heap_ok h).

Lemma heap_counts i c :
  h_caches h !! i = Some c →
  ca_live c + ca_parked c = total allocated i (h_slabs h) ∧
  ca_freed c = total freed_chunks i (h_slabs h) ∧
  is_u64 (total allocated i (h_slabs h)) ∧ is_u64 (ca_freed c) ∧
  0 <= ca_live c ∧ 0 <= ca_parked c.
Proof.
  intros Hc. pose proof (hk_index h Hok) as [Hwf Hgeo Hin].
  destruct (hk_counts h Hok i c Hc) as (Hl & Hf & Hp). rewrite Forall_forall in Hgeo.
  assert (total (shown true) i (h_slabs h) =
          total allocated i (h_slabs h) - total parked_chunks i (h_slabs h)) as Hs.
  { rewrite <- total_sub. apply total_ext. intros s Hs. apply shown_live_split. auto. }
  assert (is_u64 (total (shown true) i (h_slabs h))) as [? _].
  { apply total_bound; [by apply Forall_forall|done|].
    intros s Hg. unfold shown. pose proof Hg as [_ _ [? _] _ _ _ _ _].
    pose proof (count_range_bound (shows true s) 0 (Z.to_nat (sl_chunks s))). lia. }
  assert (is_u64 (total parked_chunks i (h_slabs h))) as [? _].
  { apply total_bound; [by apply Forall_forall|done|apply parked_range]. }
  split; [lia|]. split; [done|]. split_and!; [| |lia|lia].
  - apply total_bound; [by apply Forall_forall|done|apply allocated_range].
  - rewrite Hf. apply total_bound; [by apply Forall_forall|done|apply freed_range].
Qed.

Lemma slab_violations_nil : slab_violations h = Ret [].
Proof.
  pose proof (hk_index h Hok) as [Hwf Hgeo Hin]. unfold slab_violations.
  destruct (count_slabs_spec (length (h_caches h)) (h_slabs h)
    (replicate (length (h_caches h)) 0) (replicate (length (h_caches h)) 0))
    as (l & f & Hlf & Hl & Hf & Hlx & Hfx);
    [done| |by rewrite length_replicate|by rewrite length_replicate|apply zeros_u64
    |apply zeros_u64|].
  { eapply Forall_impl; [done|]. intros s. apply slab_cache_lt. }
  rewrite Hlf. cbn [mbind outcome_bind].
  rewrite flat_map_nil.
  - apply for_each_same. intros [i c] Hic%elem_of_indexed.
    destruct (heap_counts i c Hic) as (Hlive & Hfreed & Hu & Hfu & _).
    assert (replicate (length (h_caches h)) 0 !! i = Some 0) as H0.
    { apply lookup_replicate_2. by eapply lookup_lt_Some. }
    unfold count_violation. rewrite (Hlx _ _ H0), (Hfx _ _ H0).
    cbn [mbind outcome_bind or_panic]. rewrite <- Hlive, <- Hfreed in *.
    rewrite !u64_add_small by done. by rewrite !Z.add_0_l, !Z.eqb_refl.
  - intros [s s'] Hp. unfold overlap_violation. simpl.
    destruct Hwf as [Hs _]. apply StronglySorted_Sorted in Hs.
    apply (proj1 (windows2_sorted _ _) Hs) in Hp. simpl in Hp.
    by rewrite (proj2 (Z.ltb_ge _ _)).
Qed.

(** ** The parked set *)

Definition owner (a : Z) : option Z := sl_cache <$> slab_at (h_slabs h) a.

Lemma parked_slab s a :
  s ∈ h_slabs h → a ∈ parked_bases s →
  slab_at (h_slabs h) a = Some s ∧ base_of s a = Ret a ∧
  ∃ i, chunk_of s a = Ret i ∧ is_parked s i = true ∧ is_free s i = false.
Proof.
  intros Hs Ha. pose proof (hk_index h Hok) as [Hwf Hgeo _].
  rewrite Forall_forall in Hgeo. specialize (Hgeo s Hs).
  apply elem_of_parked_bases in Ha as (i & Hi & Hp & ->); [|done].
  destruct (chunk_of_base s i Hgeo Hi) as [Hin Hci].
  split; [by apply slab_at_Some|].
  destruct (chunk_of_spec s _ Hgeo Hin) as (j & Hcj & Hb & _).
  rewrite Hci in Hcj. injection Hcj as <-. split; [done|]. exists i. split; [done|].
  split; [done|]. apply (sg_apart s Hgeo); [lia|done].
Qed.

Lemma elem_of_parked a :
  a ∈ h_parked h ↔ ∃ s, s ∈ h_slabs h ∧ a ∈ parked_bases s.
Proof. rewrite (hk_parked h Hok), list_elem_of_bind. naive_solver. Qed.

Definition owned (i : nat) (l : list Z) : Z :=
  Z.of_nat (length (filter (λ a, owner a = Some (Z.of_nat i)) l)).

(** Checking one parked buffer finds nothing and counts it for its cache. *)
Lemma parked_violation_spec out counted a :
  a ∈ h_parked h → length counted = length (h_caches h) →
  ∃ c, 0 <= c ∧ owner a = Some c ∧ parked_violation (h_slabs h) (out, counted) a =
    Ret (out, add_at counted (Z.to_nat c) 1).
Proof.
  intros (s & Hs & Ha)%elem_of_parked Hlen.
  destruct (parked_slab s a Hs Ha) as (Hat & Hb & i & Hi & Hp & Hf).
  pose proof (hk_index h Hok) as [_ Hgeo Hin]. rewrite Forall_forall in Hgeo, Hin.
  exists (sl_cache s). split; [by apply Hgeo|]. unfold owner, parked_violation.
  rewrite Hat. split; [done|]. rewrite Hb. cbn [mbind outcome_bind].
  rewrite Z.eqb_refl. cbn [negb]. rewrite Hi. cbn [mbind outcome_bind].
  rewrite Hf, Hp. cbn [negb]. rewrite bump_add_at; [done|].
  rewrite Hlen. apply slab_cache_lt. auto.
Qed.

Lemma parked_loop l out counted :
  (∀ a, a ∈ l → a ∈ h_parked h) → length counted = length (h_caches h) →
  Forall is_u64 counted →
  ∃ counted', for_each (parked_violation (h_slabs h)) (out, counted) l = Ret (out, counted') ∧
    ∀ i x, counted !! i = Some x → counted' !! i = Some (u64_add x (owned i l)).
Proof.
  revert counted. induction l as [|a l IH]; intros counted Hl Hlen Hu.
  { exists counted. split; [done|]. intros i x Hx. rewrite Hx.
    rewrite Forall_lookup in Hu. specialize (Hu _ _ Hx). unfold owned. simpl.
    rewrite u64_add_small; [f_equal; lia|]. by rewrite Z.add_0_r. }
  destruct (parked_violation_spec out counted a) as (c & Hc & Ho & Hv);
    [apply Hl; left|done|].
  cbn [for_each]. rewrite Hv. cbn [mbind outcome_bind].
  destruct (IH (add_at counted (Z.to_nat c) 1)) as (counted' & -> & Hx);
    [intros; apply Hl; by right|by rewrite length_add_at|by apply add_at_u64|].
  exists counted'. split; [done|]. intros i x Hi. unfold owned. rewrite filter_cons, Ho.
  case_decide as E; simplify_eq.
  - rewrite (Hx i (u64_add x 1)).
    + rewrite u64_add_assoc. unfold owned. f_equal. simpl length. f_equal. lia.
    + rewrite lookup_add_at, bool_decide_true by lia. by rewrite Hi.
  - apply Hx. rewrite lookup_add_at, bool_decide_false; [done|].
    intros <-. apply E. f_equal. lia.
Qed.

Lemma owned_total i : owned i (h_parked h) = total parked_chunks i (h_slabs h).
Proof.
  unfold owned. rewrite (hk_parked h Hok).
  pose proof (hk_index h Hok) as [_ Hgeo _]. rewrite Forall_forall in Hgeo.
  assert (∀ slabs, (∀ s, s ∈ slabs → s ∈ h_slabs h) →
    Z.of_nat (length (filter (λ a, owner a = Some (Z.of_nat i)) (slabs ≫= parked_bases))) =
    total parked_chunks i slabs) as H; [|auto].
  induction slabs as [|s slabs IH]; intros Hs; [done|].
  rewrite total_cons. cbn [mbind list_bind]. rewrite filter_app, length_app, Nat2Z.inj_add, IH.
  2: { intros s' ?. apply Hs. by right. }
  f_equal. specialize (Hs s ltac:(left)). specialize (Hgeo s Hs).
  rewrite <- length_parked_bases by done.
  assert (∀ a, a ∈ parked_bases s → owner a = Some (sl_cache s)) as Ho.
  { intros a Ha. unfold owner. by rewrite (proj1 (parked_slab s a Hs Ha)). }
  case_bool_decide as E.
  - rewrite filter_all; [done|]. intros a Ha. rewrite (Ho a Ha). by rewrite E.
  - rewrite filter_none; [done|]. intros a Ha. rewrite (Ho a Ha). congruence.
Qed.

Lemma parked_marked :
  sum_u64 ((λ s, popcount (sl_parked s)) <$> h_slabs h) = Z.of_nat (length (h_parked h)).
Proof.
  pose proof (hk_index h Hok) as [Hwf Hgeo _].
  assert (∀ slabs, Forall slab_geo slabs →
    sum_Z ((λ s, popcount (sl_parked s)) <$> slabs) =
    Z.of_nat (length (slabs ≫= parked_bases)) ∧
    0 <= Z.of_nat (length (slabs ≫= parked_bases)) <= sum_Z (sl_chunks <$> slabs)) as H.
  { induction 1 as [|s slabs Hg Hgs [IH1 IH2]]; [done|].
    rewrite !fmap_cons. cbn [mbind list_bind sum_Z foldr].
    fold (sum_Z ((λ s, popcount (sl_parked s)) <$> slabs)) (sum_Z (sl_chunks <$> slabs)).
    rewrite length_app, Nat2Z.inj_add, length_parked_bases, IH1 by done.
    pose proof Hg as [_ _ [? Hm] _ _ _ Hp _]. unfold MAX_CHUNKS_PER_SLAB in Hm.
    rewrite (popcount_ones (sl_chunks s)) by (done || lia).
    pose proof (parked_range s Hg). unfold parked_chunks in *. lia. }
  destruct (H _ Hgeo) as [E Hb]. rewrite sum_u64_small, E.
  - by rewrite (hk_parked h Hok).
  - rewrite E. unfold is_u64.
    assert (0 + sum_Z (sl_chunks <$> h_slabs h) < W64); [|lia].
    apply chunks_bound; [done..|lia|]. eapply Forall_impl; [exact Hgeo|]. by intros s [].
Qed.

Lemma parked_violations_nil : parked_violations h = Ret [].
Proof.
  unfold parked_violations. rewrite flat_map_nil.
  - destruct (parked_loop (h_parked h) [] (replicate (length (h_caches h)) 0))
      as (counted & -> & Hx); [done|by rewrite length_replicate|apply zeros_u64|].
    cbn [mbind outcome_bind]. rewrite parked_marked, Z.eqb_refl. cbn [negb].
    apply for_each_same. intros [i c] Hic%elem_of_indexed. cbn [fst snd].
    assert (replicate (length (h_caches h)) 0 !! i = Some 0) as H0.
    { apply lookup_replicate_2. by eapply lookup_lt_Some. }
    rewrite (Hx _ _ H0), owned_total. cbn [mbind outcome_bind or_panic].
    destruct (hk_counts h Hok i c Hic) as (_ & _ & ->).
    pose proof (hk_index h Hok) as [Hwf Hgeo _].
    rewrite u64_add_small, Z.add_0_l, Z.eqb_refl; [done|].
    apply total_bound; [done..|apply parked_range].
  - intros [a b] Hp. pose proof (hk_sorted h Hok) as Hs. apply StronglySorted_Sorted in Hs.
    apply (proj1 (windows2_sorted _ _) Hs) in Hp. simpl in *.
    by rewrite (proj2 (Z.leb_gt _ _)).
Qed.
End checks.
