(* ===== verification/UmemWalkFacts.v ===== *)
(** Facts of the walk that builds an index of libumem's heap: no operation of it
    panics on any target, a slab is believed only when its freelist accounts for
    its reference count, and the index a build gives has [heap_ok]. *)

From S2P Require Import Prelude Target Text Umem UmemWalk UmemFacts UmemIndexFacts.

Local Open Scope Z_scope.

(** What a layout must be for the walk: the slab fields inside the slab. *)
Definition layout_ok (l : Layout) : Prop :=
  Forall (λ off, 0 <= off ∧ off + 8 <= slab_size l)
    [slab_cache l; slab_base l; slab_chunks l; slab_refcnt l; slab_head l].

Lemma LP64_ok : layout_ok LP64.
Proof. repeat constructor; vm_compute; congruence. Qed.

Lemma try_bind_Ret {A B} (m : outcome (option A)) (f : A → outcome (option B)) (P : option B → Prop) o :
  m = Ret o → P None → (∀ a, o = Some a → ∃ r, f a = Ret r ∧ P r) →
  ∃ r, try_bind m f = Ret r ∧ P r.
Proof. intros -> HN HS. destruct o as [a|]; simpl; eauto. Qed.

Section walk.
Context `{Target T} (t : T) (l : Layout) (Hl : layout_ok l).

Lemma read_at_u64 base off w : read_at t base off = Some w → is_u64 w.
Proof.
  unfold read_at, read. intros (a & _ & Hr)%bind_Some.
  destruct (read_u64 t a) eqn:E; [|done]. injection Hr as <-. by apply (read_u64_range t a).
Qed.

(** ** A slab *)

Section slab.
Context (cache : Cache) (Hcs : 0 < ca_chunksize cache).
Context (chunks base : Z) (Hch : 0 < chunks <= MAX_CHUNKS_PER_SLAB).

Definition freelist_ok (free : list Z) (n : Z) : Prop :=
  length free = words chunks ∧ map_ok chunks free ∧ ones free = n.

Lemma read_freelist_spec remaining free n bufctl :
  freelist_ok free n → 0 <= n → n + Z.of_nat remaining <= chunks →
  ∃ r, read_freelist t l remaining cache base (chunks * ca_chunksize cache) free n bufctl = Ret r ∧
    ∀ free' n', r = Some (free', n') → freelist_ok free' n' ∧ 0 <= n' <= chunks.
Proof.
  revert free n bufctl. induction remaining as [|remaining IH]; intros free n bufctl Hf Hn Hle;
    cbn [read_freelist]; destruct (bufctl =? 0).
  1, 3: eexists; split; [done|]; intros ?? [= <- <-]; split; [done|lia].
  { by eexists. }
  eapply try_bind_Ret; [done|done|]. intros buf _.
  eapply try_bind_Ret; [done|done|]. intros offset [-> Hoff]%checked_sub_Some.
  destruct (_ <=? buf - base) eqn:Espan; [by eexists|]. zb.
  unfold rem_u64, div_u64. rewrite (proj2 (Z.eqb_neq (ca_chunksize cache) 0)) by lia.
  cbn [mbind outcome_bind]. destruct (negb _) eqn:Erem; [by eexists|]. zb.
  set (chunk := (buf - base) / ca_chunksize cache).
  assert (0 <= chunk < chunks) as Hc.
  { split; [apply Z.div_pos; lia|]. apply Z.div_lt_upper_bound; lia. }
  destruct Hf as (Hlen & Hmap & Hones).
  destruct (lookup_lt_is_Some_2 free (Z.to_nat (chunk / 64))) as [word Hw].
  { rewrite Hlen. by apply word_index. }
  rewrite Hw. cbn [mbind outcome_bind or_panic].
  destruct (_ =? 1) eqn:Ebit; [by eexists|].
  assert (bit free chunk = false) as Hclear by (unfold bit; by rewrite Hw).
  destruct (set_bit_spec free chunks chunk Hc Hlen) as (free' & -> & Hlen' & Hbits).
  cbn [mbind outcome_bind].
  eapply try_bind_Ret; [done|done|]. intros next _.
  destruct (map_ok_set chunks free free' chunk Hc Hmap Hlen' Hbits Hclear) as [Hmap' Hones'].
  unfold MAX_CHUNKS_PER_SLAB in Hch.
  rewrite u64_add_small by (unfold is_u64; lia).
  apply IH; [|lia|lia]. split; [done|]. split; [done|lia].
Qed.
End slab.

(** A slab that is believed: geometry, and the freelist's length against the
    reference count. *)
Definition slab_from (addr cache_addr : Z) (cache : Cache) (index : Z) (s : Slab) : Prop :=
  slab_geo s ∧ sl_cache s = index ∧ sl_chunksize s = ca_chunksize cache ∧ sl_parked s = [] ∧
  sl_chunks s * sl_chunksize s <= ca_slabsize cache ∧
  ∃ bytes refcnt,
    read_bytes t addr (slab_size l) = Ok bytes ∧
    from_le_bytes <$> slice bytes (slab_cache l) 8 = Some cache_addr ∧
    from_le_bytes <$> slice bytes (slab_base l) 8 = Some (sl_base s) ∧
    from_le_bytes <$> slice bytes (slab_chunks l) 8 = Some (sl_chunks s) ∧
    from_le_bytes <$> slice bytes (slab_refcnt l) 8 = Some refcnt ∧
    0 <= refcnt <= sl_chunks s ∧ freed s = sl_chunks s - refcnt.

Lemma slice_word bs off n :
  Z.of_nat (length bs) = n → 0 <= off → off + 8 <= n →
  ∃ w, or_panic (slice bs off 8) = Ret w ∧ slice bs off 8 = Some w ∧ is_u64 (from_le_bytes w).
Proof.
  intros Hlen H0 Hle. destruct (slice bs off 8) as [w|] eqn:E.
  - exists w. split; [done|]. split; [done|]. apply length_slice in E.
    pose proof (from_le_bytes_range w) as Hr. rewrite E in Hr. exact Hr.
  - unfold slice in E. rewrite (proj2 (Z.leb_le 0 off)), (proj2 (Z.leb_le (off + 8) _)) in E by lia. done.
Qed.

Lemma read_slab_spec addr cache_addr cache index :
  0 < ca_chunksize cache → 0 <= index →
  ∃ r, read_slab t l addr cache_addr cache index = Ret r ∧
    ∀ s, r = Some s → slab_from addr cache_addr cache index s.
Proof.
  intros Hcs Hix. unfold read_slab. eapply try_bind_Ret; [done|done|]. intros bs Hbs.
  destruct (read_bytes t addr (slab_size l)) as [bs'|] eqn:Er; [|done]. injection Hbs as ->.
  pose proof (read_bytes_len _ _ _ _ Er) as Hlen. unfold layout_ok in Hl.
  rewrite !Forall_cons in Hl. destruct Hl as ([? ?] & [? ?] & [? ?] & [? ?] & [? ?] & _).
  destruct (slice_word bs (slab_cache l) _ Hlen) as (w1 & -> & E1 & _); [done..|].
  destruct (slice_word bs (slab_base l) _ Hlen) as (w2 & -> & E2 & Hw2); [done..|].
  destruct (slice_word bs (slab_chunks l) _ Hlen) as (w3 & -> & E3 & Hw3); [done..|].
  destruct (slice_word bs (slab_refcnt l) _ Hlen) as (w4 & -> & E4 & Hw4); [done..|].
  destruct (slice_word bs (slab_head l) _ Hlen) as (w5 & -> & _ & _); [done..|].
  cbn [mbind outcome_bind fmap outcome_fmap].
  destruct (negb _) eqn:Eowner; [by eexists|]. zb.
  set (base := from_le_bytes w2) in *. set (chunks := from_le_bytes w3) in *.
  set (refcnt := from_le_bytes w4) in *. unfold is_u64 in *.
  destruct (_ || _) eqn:Ebad; [by eexists|]. zb.
  eapply try_bind_Ret; [done|done|]. intros span [-> Hspan]%checked_mul_Some.
  destruct (_ || _) eqn:Ebad2; [by eexists|]. zb.
  destruct (checked_add base _) as [e|] eqn:Eend; [|done].
  apply checked_add_Some in Eend as [-> Hend].
  destruct (read_freelist_spec cache Hcs chunks base) with (remaining := Z.to_nat chunks)
    (free := blank_bitmap chunks) (n := 0) (bufctl := from_le_bytes w5) as (r & -> & Hfree); [lia| | | |].
  { split; [apply length_blank|]. split; [apply map_ok_blank|].
    rewrite (map_ok_ones chunks) by (apply map_ok_blank || lia).
    apply count_range_none. intros i _. apply bit_blank. }
  { lia. }
  { lia. }
  destruct r as [[free n]|]; [|by eexists]. cbn [try_bind].
  destruct (Hfree _ _ eq_refl) as ((Hlenf & Hmap & Hones) & Hn).
  rewrite u64_sub_small by (unfold is_u64; lia).
  destruct (negb _) eqn:Ecross; [by eexists|]. zb.
  eexists. split; [done|]. intros s [= <-]. unfold as_u32.
  unfold MAX_CHUNKS_PER_SLAB in *. rewrite Z.mod_small by lia.
  assert (map_ok chunks (if n =? 0 then [] else free) ∧
          ones (if n =? 0 then [] else free) = n) as [Hmap' Hones'].
  { destruct (Z.eqb_spec n 0); [split; [apply map_ok_nil|subst; done]|done]. }
  unfold slab_from. simpl. split.
  { split; simpl; unfold MAX_CHUNKS_PER_SLAB; try done; try lia. apply map_ok_nil. }
  do 4 (split; [done || lia|]). exists bs, refcnt. rewrite E1, E2, E3, E4. simpl.
  split; [done|]. split; [by f_equal|]. do 3 (split; [done|]). split; [lia|].
  unfold freed. simpl. rewrite (popcount_ones chunks) by (done || lia). lia.
Qed.

(** ** The slab list of a cache *)

Definition same_geometry (c c' : Cache) : Prop :=
  ca_bufsize c' = ca_bufsize c ∧ ca_chunksize c' = ca_chunksize c ∧
  ca_slabsize c' = ca_slabsize c ∧ ca_parked c' = ca_parked c.

(** What the walk knows of a slab it pushes: [slab_from], less the bytes. *)
Definition slab_kept (index chunksize : Z) (s : Slab) : Prop :=
  slab_geo s ∧ sl_cache s = index ∧ sl_chunksize s = chunksize ∧ sl_parked s = [].

Lemma freed_ones s : slab_geo s → freed s = freed_chunks s.
Proof.
  intros [_ _ [? Hm] _ _ Hf _ _]. unfold MAX_CHUNKS_PER_SLAB in Hm.
  apply (popcount_ones (sl_chunks s)); [lia|done].
Qed.

Lemma cache_count_spec c s :
  slab_geo s →
  same_geometry c (cache_count c (Some s)) ∧
  ca_live (cache_count c (Some s)) = u64_add (ca_live c) (allocated s) ∧
  ca_freed (cache_count c (Some s)) = u64_add (ca_freed c) (freed_chunks s).
Proof.
  intros Hg. split; [done|]. simpl. rewrite freed_ones by done.
  pose proof (freed_range s Hg). pose proof Hg as [_ _ [? Hm] _ _ _ _ _].
  unfold MAX_CHUNKS_PER_SLAB in Hm.
  rewrite u64_sub_small by (unfold is_u64; lia). done.
Qed.

(** [note] and the other writes to the statistics leave the rest alone. *)
Lemma note_stats text w : ∃ st, note text w = set_stats st w.
Proof.
  unfold note. case_match; [by eexists|]. exists (w_stats w). by destruct w.
Qed.

(** Counts that were words stay words. *)
Definition counts_u64 (c c' : Cache) : Prop :=
  is_u64 (ca_live c) → is_u64 (ca_freed c) → is_u64 (ca_live c') ∧ is_u64 (ca_freed c').

(** The outcome of walking slabs for [cache] from [w]: slabs pushed, and the
    cache's counts moved by exactly theirs. *)
Definition slabs_walked (index : Z) (cache : Cache) (w : Walk)
    (r : outcome (option Cache * Walk)) : Prop :=
  ∃ o new st,
    r = Ret (o, set_stats st (set_slabs (w_slabs w ++ new) w)) ∧
    Forall (slab_kept index (ca_chunksize cache)) new ∧
    ∀ c, o = Some c → same_geometry cache c ∧
      counts_u64 cache c ∧
      ca_live c `mod` W64 = (ca_live cache + sum_Z (allocated <$> new)) `mod` W64 ∧
      ca_freed c `mod` W64 = (ca_freed cache + sum_Z (freed_chunks <$> new)) `mod` W64.

Lemma slabs_walked_end index cache w o :
  o = None ∨ o = Some cache → slabs_walked index cache w (Ret (o, w)).
Proof.
  intros Ho. exists o, [], (w_stats w). rewrite app_nil_r. split; [by destruct w|].
  split; [constructor|]. intros c ->. destruct Ho as [|[= ->]]; [done|].
  rewrite !Z.add_0_r. split; [done|]. by split.
Qed.

Lemma slabs_walked_push index cache addr w slab r :
  (∀ s, slab = Some s → slab_kept index (ca_chunksize cache) s) →
  slabs_walked index (cache_count cache slab) (push_slab cache addr slab w) r →
  slabs_walked index cache w r.
Proof.
  intros Hs (o & new & st & -> & Hnew & Hc). destruct slab as [s|]; simpl in *.
  - exists o, (s :: new), st. rewrite <- app_assoc. split; [by destruct w|].
    specialize (Hs s eq_refl). split; [by constructor|].
    intros c Ho. destruct (Hc c Ho) as (Hsame & Hu & Hlive & Hfreed).
    pose proof (cache_count_spec cache s (proj1 Hs)) as (Hg & El & Ef). simpl in El, Ef.
    split; [exact Hsame|]. split; [intros _ _; apply Hu; apply u64_add_range|]. rewrite Hlive, Hfreed, El, Ef. unfold u64_add.
    rewrite !Zplus_mod_idemp_l, !fmap_cons. cbn [sum_Z foldr].
    split; f_equal; unfold sum_Z; lia.
  - destruct (note_stats (ca_name cache +:+ ": slab " +:+ hex addr +:+ " declined")
      (set_stats (stats_slab_declined (w_stats w) (st_slabs_declined (w_stats w) + 1)) w)) as [st' ->].
    exists o, new, st. split; [done|]. split; [done|]. exact Hc.
Qed.

Lemma walk_slab_list_spec remaining anchor cache_addr index cache prev addr w :
  0 < ca_chunksize cache → 0 <= index →
  slabs_walked index cache w
    (walk_slab_list t l remaining anchor cache_addr index cache prev addr w).
Proof.
  intros Hcs Hix. revert cache prev addr w Hcs.
  induction remaining as [|remaining IH]; intros cache prev addr w Hcs;
    cbn [walk_slab_list]; destruct (addr =? anchor); try (apply slabs_walked_end; auto; fail).
  wstep. destruct (read_at t addr (slab_prev l)) as [back|]; [|apply slabs_walked_end; auto].
  destruct (negb _); [apply slabs_walked_end; auto|].
  destruct (read_slab_spec addr cache_addr cache index Hcs Hix) as (r & Hr & Hfrom).
  wstep. rewrite Hr. wstep.
  apply (slabs_walked_push _ _ addr _ r).
  { intros s Hs. destruct (Hfrom s Hs) as (? & ? & ? & ? & _). done. }
  wstep.
  destruct (read_at t addr (slab_next l)) as [next|]; [|apply slabs_walked_end; auto].
  apply IH. by destruct r.
Qed.

Lemma walk_slabs_spec cache_addr cache index w :
  0 < ca_chunksize cache → 0 <= index →
  slabs_walked index cache w (walk_slabs t l cache_addr cache index w).
Proof.
  intros Hcs Hix. unfold walk_slabs. wstep.
  destruct (checked_add _ _) as [anchor|]; [|apply slabs_walked_end; auto].
  wstep. destruct (read_at t anchor _) as [addr|]; [|apply slabs_walked_end; auto].
  by apply walk_slab_list_spec.
Qed.

(** ** The hash table and the magazines *)

Lemma hash_entry_total spans chunksize buf :
  0 < chunksize → ∃ b, hash_entry_ok spans chunksize buf = Ret b.
Proof.
  intros Hcs. unfold hash_entry_ok.
  destruct (partition_point _ _) as [|i] eqn:E; [by eexists|].
  apply partition_point_split in E as (_ & _ & Hle).
  destruct (lookup_lt_is_Some_2 spans i) as [[b e] ->]; [lia|].
  cbn [mbind outcome_bind or_panic]. case_match; [|by eexists].
  unfold rem_u64. rewrite (proj2 (Z.eqb_neq _ _)) by lia. by eexists.
Qed.

Lemma hash_chain_total remaining cache spans entries bufctl :
  0 < ca_chunksize cache →
  ∃ r, hash_chain t l remaining cache spans entries bufctl = Ret r.
Proof.
  intros Hcs. revert entries bufctl.
  induction remaining as [|remaining IH]; intros entries bufctl; cbn [hash_chain];
    destruct (bufctl =? 0); try by eexists.
  destruct (read_at t bufctl (bufctl_addr l)) as [buf|]; [|by eexists]. cbn [try_bind].
  destruct (read_at t bufctl (bufctl_next l)) as [next|]; [|by eexists]. cbn [try_bind].
  destruct (hash_entry_total spans _ buf Hcs) as [b ->]. cbn [mbind outcome_bind].
  destruct (negb b); [by eexists|]. apply IH.
Qed.

Lemma hash_buckets_total remaining cache spans table entries buckets :
  0 < ca_chunksize cache →
  ∃ r, hash_buckets t l remaining cache spans table entries buckets = Ret r.
Proof.
  intros Hcs. revert remaining entries.
  induction buckets as [|b buckets IH]; intros remaining entries; cbn [hash_buckets]; [by eexists|].
  destruct (read_at t table _) as [bufctl|]; [|by eexists]. cbn [try_bind].
  destruct (hash_chain_total remaining cache spans entries bufctl Hcs) as [[[r e]|] ->];
    [|by eexists]. apply IH.
Qed.

Lemma hash_agrees_total cache_addr cache slabs :
  0 < ca_chunksize cache → ∃ b, hash_agrees t l cache_addr cache slabs = Ret b.
Proof.
  intros Hcs. unfold hash_agrees. repeat case_match; try by eexists.
  edestruct hash_buckets_total as [r ->]; [done|]. by eexists.
Qed.

(** Every parked candidate of a cache carries its index. *)
Definition tagged (index : Z) (l : list (Z * Z)) : Prop := Forall (λ p, p.1 = index) l.

Lemma read_rounds_tagged mag rounds cache index out out' :
  tagged index out → read_rounds t l mag rounds cache index out = Some out' →
  tagged index out'.
Proof.
  unfold read_rounds. intros Ht (o & Ho & Hout)%bind_Some.
  case_match; [|done]. injection Hout as <-.
  revert out Ht Ho. induction (z_range 0 (Z.to_nat rounds)) as [|r rs IH]; intros out Ht Ho;
    cbn [read_rounds_from] in Ho; [by injection Ho as <-|].
  apply bind_Some in Ho as (buf & _ & Ho). case_match; [done|].
  eapply IH; [|done]. apply Forall_app. split; [done|]. by repeat constructor.
Qed.

Lemma depot_list_tagged remaining head magsize cache index out seen mag r :
  tagged index out →
  depot_list t l remaining head magsize cache index out seen mag = Some r → tagged index r.2.
Proof.
  revert out seen mag. induction remaining as [|remaining IH]; intros out seen mag Ht Hr;
    cbn [depot_list] in Hr; destruct (mag =? 0); try done; try by injection Hr as <-.
  apply bind_Some in Hr as (out' & Ho & (mag' & _ & Hr)%bind_Some).
  apply read_rounds_tagged in Ho; [|done]. case_match; [by injection Hr as <-|by eapply IH].
Qed.

Lemma cpu_magazine_tagged cpu magsize cache index out fields out' :
  tagged index out → cpu_magazine t l cpu magsize cache index out fields = Some out' →
  tagged index out'.
Proof.
  unfold cpu_magazine. intros Ht (rounds & _ & Hr)%bind_Some.
  case_match; [by injection Hr as <-|]. case_match; [done|].
  apply bind_Some in Hr as (mag & _ & Hr). case_match; [done|]. by eapply read_rounds_tagged.
Qed.

Lemma each_cpu_tagged cache_addr cache index cpus out out' :
  tagged index out → each_cpu t l cache_addr cache index out cpus = Some out' →
  tagged index out'.
Proof.
  revert out. induction cpus as [|i cpus IH]; intros out Ht Ho; cbn [each_cpu] in Ho.
  { by injection Ho as <-. }
  apply bind_Some in Ho as (o & Ho & Hrest). eapply IH; [|done].
  unfold one_cpu in Ho.
  apply bind_Some in Ho as (? & _ & (? & _ & (? & _ & (o1 & Ho1 & Ho2)%bind_Some)%bind_Some)%bind_Some).
  eapply cpu_magazine_tagged; [|done]. by eapply cpu_magazine_tagged.
Qed.

Lemma walk_magazines_tagged cache_addr cache index out :
  walk_magazines t l cache_addr cache index [] = Some out → tagged index out.
Proof.
  unfold walk_magazines. intros (magsize & _ & Ho)%bind_Some.
  case_match; [injection Ho as <-; constructor|].
  apply bind_Some in Ho as (o & Hd & Hc). unfold walk_depot in Hd.
  apply bind_Some in Hd as (? & _ & (head & _ & (total & _ & Hd)%bind_Some)%bind_Some).
  case_match; [done|]. apply bind_Some in Hd as ([seen o'] & Hd & Hs). case_match; [|done].
  injection Hs as <-. apply depot_list_tagged in Hd; [|constructor].
  unfold walk_cpu_caches in Hc. apply bind_Some in Hc as (? & _ & (mask & _ & Hc)%bind_Some).
  case_match; [done|]. by eapply each_cpu_tagged.
Qed.

(** ** The invariant of the walk over the caches *)

Definition counts_mod (caches : list Cache) (slabs : list Slab) : Prop :=
  ∀ i c, caches !! i = Some c →
    ca_live c = total allocated i slabs `mod` W64 ∧
    ca_freed c = total freed_chunks i slabs `mod` W64.

Record walk_inv (w : Walk) : Prop := {
  wi_caches : Forall (λ c, 0 < ca_bufsize c <= ca_chunksize c ∧ ca_parked c = 0) (w_caches w);
  wi_slabs : Forall (λ s, slab_geo s ∧ slab_in (geometry (w_caches w)) s ∧ sl_parked s = [])
               (w_slabs w);
  wi_counts : counts_mod (w_caches w) (w_slabs w);
  wi_parked : Forall (λ p, 0 <= p.1 < Z.of_nat (length (w_caches w))) (w_parked w);
  wi_arenas : w_arenas w = [];
  wi_segs : w_segs w = []
}.

Lemma walk_inv_new : walk_inv (walk_new l).
Proof. split; simpl; try done; constructor. Qed.

(** The statistics are no part of it. *)
Lemma walk_inv_stats st w : walk_inv w → walk_inv (set_stats st w).
Proof. intros []. by split. Qed.
Lemma walk_inv_note text w : walk_inv w → walk_inv (note text w).
Proof. intros Hw. destruct (note_stats text w) as [st ->]. by apply walk_inv_stats. Qed.
Lemma walk_inv_decline addr why w : walk_inv w → walk_inv (decline_cache addr why w).
Proof. intros Hw. by apply walk_inv_note, walk_inv_stats. Qed.
Lemma walk_inv_declined d w : walk_inv w → walk_inv (set_parked_declined d w).
Proof. intros []. by split. Qed.

Lemma caches_note text w : w_caches (note text w) = w_caches w.
Proof. destruct (note_stats text w) as [st ->]. done. Qed.

Lemma slab_in_app geo geo' s : slab_in geo s → slab_in (geo ++ geo') s.
Proof. intros (b & Hb & ?). exists b. split; [by apply lookup_app_l_Some|done]. Qed.

Lemma total_fresh f n slabs :
  Forall (λ s, slab_geo s ∧ (Z.to_nat (sl_cache s) < n)%nat) slabs → total f n slabs = 0.
Proof.
  induction 1 as [|s slabs [Hg Hs] _ IH]; [done|].
  rewrite total_cons, IH, bool_decide_false; [done|]. pose proof (sg_cache s Hg). lia.
Qed.

Lemma total_kept f n cs new :
  Forall (slab_kept (Z.of_nat n) cs) new → total f n new = sum_Z (f <$> new).
Proof.
  induction 1 as [|s new (_ & Hs & _) _ IH]; [done|].
  rewrite total_cons, IH, bool_decide_true by done. done.
Qed.

Lemma total_kept_other f i n cs new :
  i ≠ n → Forall (slab_kept (Z.of_nat n) cs) new → total f i new = 0.
Proof.
  intros Hne. induction 1 as [|s new (_ & Hs & _) _ IH]; [done|].
  rewrite total_cons, IH, bool_decide_false by (rewrite Hs; lia). done.
Qed.

Lemma counts_mod_snoc caches slabs c new :
  counts_mod caches slabs →
  Forall (λ s, slab_geo s ∧ slab_in (geometry caches) s ∧ sl_parked s = []) slabs →
  Forall (slab_kept (Z.of_nat (length caches)) (ca_chunksize c)) new →
  ca_live c = sum_Z (allocated <$> new) `mod` W64 →
  ca_freed c = sum_Z (freed_chunks <$> new) `mod` W64 →
  counts_mod (caches ++ [c]) (slabs ++ new).
Proof.
  intros Hc Hs Hn Hlv Hf i c' Hi. rewrite !total_app.
  apply lookup_app_Some in Hi as [Hi|[Hle Hi]].
  - pose proof (lookup_lt_Some _ _ _ Hi) as Hlt.
    assert (i ≠ length caches) as Hne by lia.
    rewrite !(total_kept_other _ i _ _ _ Hne Hn), !Z.add_0_r. by apply Hc.
  - destruct (i - length caches)%nat as [|k] eqn:E; [|done]. simpl in Hi. injection Hi as <-.
    assert (i = length caches) as -> by lia.
    assert (Forall (λ s, slab_geo s ∧ (Z.to_nat (sl_cache s) < length caches)%nat) slabs) as Ho.
    { eapply Forall_impl; [done|]. intros s (? & ? & _). split; [done|]. by apply slab_cache_lt. }
    rewrite !(total_fresh _ _ _ Ho), !Z.add_0_l, !(total_kept _ _ _ _ Hn). done.
Qed.

Lemma walk_inv_keep addr cache index new w :
  walk_inv w → index = Z.of_nat (length (w_caches w)) →
  0 < ca_bufsize cache <= ca_chunksize cache → ca_parked cache = 0 →
  Forall (slab_kept index (ca_chunksize cache)) new →
  ca_live cache = sum_Z (allocated <$> new) `mod` W64 →
  ca_freed cache = sum_Z (freed_chunks <$> new) `mod` W64 →
  let w' := keep_cache t l addr cache index (set_slabs (w_slabs w ++ new) w) in
  walk_inv w' ∧ length (w_caches w') = S (length (w_caches w)).
Proof.
  intros Hw -> Hgeo Hp Hnew Hlive Hfreed. set (n := length (w_caches w)) in *.
  (* Whatever the magazines said, a cache of this geometry and these counts is
     pushed, and the candidates gained carry its index. *)
  assert (∃ walked ps d st,
    keep_cache t l addr cache (Z.of_nat n) (set_slabs (w_slabs w ++ new) w) =
    set_stats st (set_caches (w_caches w ++ [cache_parked cache (ca_live cache) 0 walked])
      (set_parked (w_parked w ++ ps) (set_parked_declined d
        (set_slabs (w_slabs w ++ new) w)))) ∧ tagged (Z.of_nat n) ps) as (b & ps & d & st & -> & Hps).
  { unfold keep_cache. destruct (walk_magazines t l addr cache (Z.of_nat n) []) as [ps|] eqn:E.
    - rewrite Hp. eexists true, ps, (w_parked_declined w), _. split; [reflexivity|].
      by eapply walk_magazines_tagged.
    - match goal with |- context [note ?x ?w] => destruct (note_stats x w) as [st ->] end.
      eexists (ca_parked_walked cache), [], _, _. split; [|constructor].
      rewrite app_nil_r. unfold cache_parked. rewrite <- Hp at 1. by destruct cache. }
  destruct Hw as [Hc Hs Hcounts Hpk Ha Hsg]. split; [|simpl; by rewrite length_app, Nat.add_1_r].
  split; simpl; try done.
  - apply Forall_app. split; [done|]. repeat constructor; simpl; lia.
  - unfold geometry. rewrite fmap_app. apply Forall_app. split.
    + eapply Forall_impl; [exact Hs|]. intros s (? & ? & ?). split; [done|].
      split; [by apply slab_in_app|done].
    + eapply Forall_impl; [exact Hnew|]. intros s (Hg & Hcache & Hchunk & Hpark).
      split; [done|]. split; [|done]. exists (ca_bufsize cache). rewrite Hcache, Hchunk, Nat2Z.id.
      split; [|done]. rewrite lookup_app_r by (by rewrite length_fmap).
      rewrite length_fmap. fold n. by rewrite Nat.sub_diag.
  - by apply counts_mod_snoc.
  - rewrite length_app. fold n. apply Forall_app. split.
    + eapply Forall_impl; [exact Hpk|]. simpl. lia.
    + eapply Forall_impl; [exact Hps|]. simpl. lia.
Qed.

Lemma read_cache_spec addr c :
  read_cache t l addr = Some c →
  0 < ca_bufsize c <= ca_chunksize c ∧ ca_chunksize c <= ca_slabsize c ∧
  ca_parked c = 0 ∧ ca_live c = 0 ∧ ca_freed c = 0.
Proof.
  unfold read_cache. intros (bs & Hb & (cs & Hc & (ss & Hs & (fa & _ & (fl & _ & Hr)
    %bind_Some)%bind_Some)%bind_Some)%bind_Some)%bind_Some.
  apply read_at_u64 in Hb. unfold is_u64 in Hb.
  case_match eqn:E; [done|]. zb. apply bind_Some in Hr as (bc & _ & Hr).
  case_match; [done|]. apply bind_Some in Hr as (nm & _ & Hr). injection Hr as <-.
  simpl. split; [lia|done].
Qed.

Lemma take_app_length' {A} (k k' : list A) : take (length k) (k ++ k') = k.
Proof. apply take_app_length. Qed.

Lemma walk_inv_truncate new st w :
  walk_inv w →
  walk_inv (truncate_slabs (length (w_slabs w)) (set_stats st (set_slabs (w_slabs w ++ new) w))).
Proof.
  intros []. unfold truncate_slabs. simpl. rewrite take_app_length. by split.
Qed.

Lemma walk_cache_spec addr w :
  walk_inv w → Z.of_nat (length (w_caches w)) < W32 →
  ∃ w', walk_cache t l addr w = Ret (Some (), w') ∧ walk_inv w' ∧
    (length (w_caches w') ≤ S (length (w_caches w)))%nat.
Proof.
  intros Hw Hlen. unfold walk_cache. destruct (read_cache t l addr) as [cache|] eqn:Ec.
  2: { eexists. split; [reflexivity|]. split; [by apply walk_inv_decline|].
       unfold decline_cache. rewrite caches_note. simpl. lia. }
  apply read_cache_spec in Ec as (Hgeo & _ & Hp & Hl0 & Hf0).
  wstep. wstep. assert (as_u32 (Z.of_nat (length (w_caches w))) = Z.of_nat (length (w_caches w))) as ->.
  { unfold as_u32. rewrite Z.mod_small; lia. }
  set (index := Z.of_nat (length (w_caches w))).
  destruct (walk_slabs_spec addr cache index w) as (o & new & st & -> & Hnew & Ho);
    [lia|unfold index; lia|].
  cbv beta iota. destruct o as [cache'|].
  2: { wstep. eexists. split; [reflexivity|].
       split; [by apply walk_inv_decline, walk_inv_truncate|].
       unfold decline_cache. rewrite caches_note. simpl. lia. }
  destruct (Ho _ eq_refl) as ((Hb & Hcs & Hss & Hpk) & Hu & Hlive & Hfreed).
  destruct Hu as [Hu1 Hu2]; [by rewrite Hl0|by rewrite Hf0|].
  rewrite Hl0, Z.add_0_l, Z.mod_small in Hlive by done.
  rewrite Hf0, Z.add_0_l, Z.mod_small in Hfreed by done.
  wstep. wstep.
  assert (∃ b, (if hashed cache' then hash_agrees t l addr cache'
      (drop (length (w_slabs w)) (w_slabs (set_stats st (set_slabs (w_slabs w ++ new) w))))
      else Ret true) = Ret b) as [b ->].
  { destruct (hashed cache'); [apply hash_agrees_total; lia|by eexists]. }
  cbv beta iota. destruct b.
  - eexists. split; [reflexivity|].
    destruct (walk_inv_keep addr cache' index new (set_stats st w)) as [Hinv Hlen'];
      [by apply walk_inv_stats|done|by rewrite Hb, Hcs|congruence|by rewrite Hcs|done|done|].
    split; [exact Hinv|]. exact (Nat.eq_le_incl _ _ Hlen').
  - wstep. eexists. split; [reflexivity|].
    split; [by apply walk_inv_decline, walk_inv_truncate|].
    unfold decline_cache. rewrite caches_note. simpl. lia.
Qed.

(** The cache list: no panic, and the invariant where it walks. *)
Lemma walk_cache_list_spec remaining anchor prev addr w :
  walk_inv w → Z.of_nat (length (w_caches w) + remaining) < W32 →
  ∃ o w', walk_cache_list t l remaining anchor prev addr w = Ret (o, w') ∧ walk_inv w'.
Proof.
  revert prev addr w. induction remaining as [|remaining IH]; intros prev addr w Hw Hlen;
    cbn [walk_cache_list]; destruct (addr =? anchor); try by eexists _, _.
  wstep. destruct (read_at t addr (cache_prev l)) as [back|]; [|by eexists _, _].
  destruct (negb _); [by eexists _, _|].
  wstep. destruct (walk_cache_spec addr w Hw) as (w' & -> & Hw' & Hlen'); [lia|].
  cbv beta iota. wstep. destruct (read_at t addr (cache_next l)) as [next|]; [|by eexists _, _].
  apply IH; [done|lia].
Qed.

Lemma walk_caches_spec anchor w :
  walk_inv w → w_caches w = [] →
  ∃ o w', walk_caches t l anchor w = Ret (o, w') ∧ walk_inv w'.
Proof.
  intros Hw Hnil. unfold walk_caches. wstep.
  destruct (read_at t anchor (cache_next l)) as [addr|]; [|by eexists _, _].
  wstep. destruct (walk_cache_list_spec MAX_CACHES anchor anchor addr w Hw) as (o & w' & -> & Hw').
  { rewrite Hnil. unfold MAX_CACHES. simpl length. lia. }
  destruct o as [[]|]; cbv beta iota; [|by eexists _, _].
  wstep. case_match; by eexists _, _.
Qed.

(** ** Overlaps *)

Lemma retain_Forall (P : Slab → Prop) e slabs : Forall P slabs → Forall P (retain_disjoint e slabs).
Proof.
  intros Hs. revert e. induction Hs as [|s slabs Hp Hs IH]; intros e; [constructor|].
  cbn [retain_disjoint]. case_match; [apply IH|]. constructor; [done|apply IH].
Qed.

Lemma retain_wf e slabs :
  Forall slab_geo slabs →
  intervals_wf sl_base slab_end (retain_disjoint e slabs) ∧
  Forall (λ s, e <= sl_base s) (retain_disjoint e slabs).
Proof.
  intros Hs. revert e. induction Hs as [|s slabs Hg Hs IH]; intros e.
  { split; [by repeat constructor|constructor]. }
  cbn [retain_disjoint]. case_match eqn:E; [apply IH|]. zb.
  destruct (IH (slab_end s)) as [Hwf Hafter].
  pose proof Hg as [? ? [? ?] ? _ _ _ _]. rewrite slab_end_small in * by done.
  assert (0 < sl_chunks s * sl_chunksize s) by nia. split.
  - apply intervals_wf_cons. rewrite slab_end_small by done. split; [lia|done].
  - constructor; [done|]. eapply Forall_impl; [done|]. simpl. lia.
Qed.

Lemma retain_length e slabs : (length (retain_disjoint e slabs) ≤ length slabs)%nat.
Proof.
  revert e. induction slabs as [|s slabs IH]; intros e; [done|]. cbn [retain_disjoint].
  case_match; simpl; [specialize (IH e)|specialize (IH (slab_end s))]; lia.
Qed.

Lemma retain_all e slabs :
  length (retain_disjoint e slabs) = length slabs → retain_disjoint e slabs = slabs.
Proof.
  revert e. induction slabs as [|s slabs IH]; intros e; [done|]. cbn [retain_disjoint].
  case_match; simpl; intros Hlen.
  - pose proof (retain_length e slabs). lia.
  - f_equal. apply IH. lia.
Qed.

Lemma geometry_insert caches i c c' :
  caches !! i = Some c → same_geometry c c' → geometry (<[i := c']> caches) = geometry caches.
Proof.
  intros Hi (Hb & Hc & _). unfold geometry. rewrite list_fmap_insert.
  apply list_insert_id. rewrite list_lookup_fmap, Hi. simpl. by rewrite Hb, Hc.
Qed.

Lemma recount_slabs_spec slabs caches :
  Forall slab_geo slabs → Forall (slab_in (geometry caches)) slabs →
  ∃ caches', for_each recount_slab caches slabs = Ret caches' ∧
    geometry caches' = geometry caches ∧
    ∀ i c', caches' !! i = Some c' → ∃ c, caches !! i = Some c ∧ same_geometry c c' ∧
      counts_u64 c c' ∧
      ca_live c' `mod` W64 = (ca_live c + total allocated i slabs) `mod` W64 ∧
      ca_freed c' `mod` W64 = (ca_freed c + total freed_chunks i slabs) `mod` W64.
Proof.
  intros Hg. revert caches. induction Hg as [|s slabs Hg Hgs IH]; intros caches Hin.
  { exists caches. split; [done|]. split; [done|]. intros i c Hc. exists c.
    rewrite !total_nil, !Z.add_0_r. do 2 (split; [done|]). by split. }
  apply Forall_cons in Hin as [Hs Hin]. cbn [for_each].
  pose proof (slab_cache_lt _ _ Hs) as Hlt. destruct (lookup_lt_is_Some_2 _ _ Hlt) as [c Hc].
  assert (recount_slab caches s = Ret (<[Z.to_nat (sl_cache s):=cache_count c (Some s)]> caches)) as ->.
  { unfold recount_slab, cache_ix. by rewrite Hc. }
  rewrite outcome_bind_eq. cbv beta iota. destruct (cache_count_spec c s Hg) as (Hsame & Hlive & Hfreed).
  pose proof (geometry_insert _ _ _ _ Hc Hsame) as Hgeo.
  destruct (IH (<[Z.to_nat (sl_cache s):=cache_count c (Some s)]> caches))
    as (caches' & -> & Hgeo' & Hall); [by rewrite Hgeo|].
  exists caches'. split; [done|]. split; [congruence|]. intros i c' Hi.
  destruct (Hall i c' Hi) as (c1 & Hc1 & Hsame1 & Hu1 & Hl1 & Hf1). rewrite !total_cons.
  pose proof (sg_cache s Hg) as Hpos.
  destruct (decide (i = Z.to_nat (sl_cache s))) as [->|Hne].
  - rewrite list_lookup_insert_eq in Hc1 by done.
    assert (c1 = cache_count c (Some s)) as -> by congruence. exists c.
    split; [done|]. split.
    { destruct Hsame1 as (? & ? & ? & ?). by split_and!. }
    split; [intros _ _; apply Hu1; apply u64_add_range|].
    rewrite !bool_decide_true by lia. rewrite Hl1, Hf1, Hlive, Hfreed. unfold u64_add.
    rewrite !Zplus_mod_idemp_l. split; f_equal; lia.
  - rewrite list_lookup_insert_ne in Hc1 by done. exists c1. do 3 (split; [done|]).
    rewrite !bool_decide_false by lia. rewrite !Z.add_0_l. done.
Qed.

Definition slabs_wf (w : Walk) : Prop := intervals_wf sl_base slab_end (w_slabs w).

Lemma walk_inv_sort w : walk_inv w → walk_inv (set_slabs (sort_slabs (w_slabs w)) w).
Proof.
  intros [Hc Hs Hcounts Hp Ha Hsg].
  assert (sort_slabs (w_slabs w) ≡ₚ w_slabs w) as Hperm by apply sort_by_perm.
  split; simpl; try done; [by rewrite Hperm|]. intros i c Hi.
  rewrite !(total_perm _ _ _ _ Hperm). by apply Hcounts.
Qed.

Lemma recount_spec w :
  Forall (λ c, 0 < ca_bufsize c <= ca_chunksize c ∧ ca_parked c = 0) (w_caches w) →
  Forall (λ s, slab_geo s ∧ slab_in (geometry (w_caches w)) s ∧ sl_parked s = []) (w_slabs w) →
  ∃ caches st, recount w = Ret (set_caches caches (set_stats st w)) ∧
    geometry caches = geometry (w_caches w) ∧
    Forall (λ c, 0 < ca_bufsize c <= ca_chunksize c ∧ ca_parked c = 0) caches ∧
    counts_mod caches (w_slabs w).
Proof.
  intros Hc Hs. unfold recount.
  assert (geometry (cache_zero <$> w_caches w) = geometry (w_caches w)) as Hz.
  { unfold geometry. rewrite <- list_fmap_compose. by apply list_fmap_ext. }
  destruct (recount_slabs_spec (w_slabs w) (cache_zero <$> w_caches w)) as (caches & -> & Hg & Hall).
  { eapply Forall_impl; [done|]. by intros s []. }
  { rewrite Hz. eapply Forall_impl; [done|]. by intros s (_ & ? & _). }
  rewrite outcome_bind_eq. cbv beta iota zeta. eexists caches, _. split; [reflexivity|].
  split; [congruence|]. split.
  - apply Forall_lookup. intros i c' Hi. destruct (Hall i c' Hi) as (c & Hc0 & Hsame & _).
    rewrite list_lookup_fmap in Hc0. apply fmap_Some in Hc0 as (c0 & Hc0 & ->).
    rewrite Forall_lookup in Hc. specialize (Hc _ _ Hc0).
    destruct Hsame as (Eb & Ec & _ & Ep). simpl in Eb, Ec, Ep. by rewrite Eb, Ec, Ep.
  - intros i c' Hi. destruct (Hall i c' Hi) as (c & Hc0 & _ & Hu & Hl0 & Hf0).
    rewrite list_lookup_fmap in Hc0. apply fmap_Some in Hc0 as (c0 & _ & ->).
    destruct Hu as [Hu1 Hu2]; [done..|]. simpl in Hl0, Hf0.
    rewrite Z.mod_small in Hl0, Hf0 by done. done.
Qed.

Lemma drop_overlaps_spec w :
  walk_inv w → ∃ w', drop_overlaps w = Ret w' ∧ walk_inv w' ∧ slabs_wf w'.
Proof.
  intros [Hc Hs Hcounts Hp Ha Hsg]. unfold drop_overlaps.
  set (kept := retain_disjoint 0 (w_slabs w)).
  assert (Forall slab_geo (w_slabs w)) as Hgeo by (eapply Forall_impl; [done|]; by intros s []).
  destruct (retain_wf 0 _ Hgeo) as [Hwf _]. fold kept in Hwf.
  destruct (0 <? _) eqn:E.
  - match goal with |- context [note ?x ?w] => destruct (note_stats x w) as [st ->] end.
    set (w1 := set_stats st _).
    destruct (recount_spec w1) as (caches & st' & -> & Hg & Hcs & Hcm); [done| |].
    { by apply retain_Forall. }
    eexists. split; [reflexivity|]. split; [|exact Hwf].
    split; simpl; try done.
    + rewrite Hg. by apply retain_Forall.
    + replace (length caches) with (length (w_caches w)); [done|].
      apply (f_equal length) in Hg. unfold geometry in Hg. by rewrite !length_fmap in Hg.
  - eexists. split; [reflexivity|]. split; [|exact Hwf]. zb.
    pose proof (retain_length 0 (w_slabs w)).
    assert (kept = w_slabs w) as -> by (apply retain_all; unfold kept in E; lia).
    by split.
Qed.

(** ** The threads' caches *)

(** The outcome of an operation that only collects parked candidates. *)
Definition collected {A} (w : Walk) (r : outcome (option A * Walk)) : Prop :=
  ∃ o ps st, r = Ret (o, set_stats st (set_parked (w_parked w ++ ps) w)) ∧
    Forall (λ p, 0 <= p.1 < Z.of_nat (length (w_caches w))) ps.

Lemma collected_end {A} w (o : option A) : collected w (Ret (o, w)).
Proof. exists o, [], (w_stats w). rewrite app_nil_r. split; [by destruct w|constructor]. Qed.

Lemma collected_stats {A} w st (o : option A) : collected w (Ret (o, set_stats st w)).
Proof. exists o, [], st. rewrite app_nil_r. split; [by destruct w|constructor]. Qed.

Lemma collected_app {A} w ps st (r : outcome (option A * Walk)) :
  Forall (λ p, 0 <= p.1 < Z.of_nat (length (w_caches w))) ps →
  collected (set_stats st (set_parked (w_parked w ++ ps) w)) r → collected w r.
Proof.
  intros Hps (o & ps' & st' & -> & Hps'). exists o, (ps ++ ps'), st'. simpl in *.
  rewrite <- app_assoc. split; [done|]. by apply Forall_app.
Qed.

(** Sequencing two such operations. *)
Lemma collected_bind {A B} (m : W A) (f : A → W B) w :
  collected w (m w) →
  (∀ a ps st, collected (set_stats st (set_parked (w_parked w ++ ps) w))
     (f a (set_stats st (set_parked (w_parked w ++ ps) w)))) →
  collected w ((m ≫= f) w).
Proof.
  intros (o & ps & st & Hm & Hps) Hf. rewrite w_bind_eq, Hm. destruct o as [a|].
  - by eapply collected_app.
  - by exists None, ps, st.
Qed.

Definition slabs_known (w : Walk) : Prop :=
  Forall (λ s, slab_geo s ∧ slab_in (geometry (w_caches w)) s ∧ sl_parked s = []) (w_slabs w).

Lemma slab_at_known w a s :
  slabs_known w → slab_at (w_slabs w) a = Some s →
  (∃ c, cache_ix (w_caches w) (sl_cache s) = Ret c) ∧
  0 <= sl_cache s < Z.of_nat (length (w_caches w)).
Proof.
  intros Hw (i & _ & Hs)%bind_Some. unfold slabs_known in Hw. rewrite Forall_lookup in Hw.
  destruct (Hw _ _ Hs) as (Hg & Hin & _). split.
  - destruct (slab_in_cache _ _ Hin) as (c & Hc & _). eauto.
  - pose proof (slab_cache_lt _ _ Hin). pose proof (sg_cache s Hg). lia.
Qed.

Lemma ptc_list_spec remaining cache buf w :
  slabs_known w → collected w (ptc_list t remaining cache buf w).
Proof.
  revert cache buf w. induction remaining as [|remaining IH]; intros cache buf w Hw;
    cbn [ptc_list]; destruct (buf =? 0); try apply collected_end.
  wstep. wstep. destruct (slab_at (w_slabs w) buf) as [s|] eqn:Es; [|apply collected_end].
  destruct (slab_at_known w buf s Hw Es) as [[c Hc] Hix].
  destruct (negb _); [apply collected_end|]. wstep. rewrite Hc. cbv beta iota.
  destruct (_ =? 0); [apply collected_end|]. wstep.
  eapply (collected_app _ [(sl_cache s, buf)] (w_stats w)); [constructor; [exact Hix|constructor]|].
  change (set_stats (w_stats w) ?x) with x.
  wstep. destruct (read t buf) as [next|]; [|apply collected_end].
  by apply IH.
Qed.

Lemma each_root_spec ulwp tmem roots w :
  slabs_known w → collected w (each_root t ulwp tmem roots w).
Proof.
  revert w. induction roots as [|r roots IH]; intros w Hw; cbn [each_root];
    [apply collected_end|].
  wstep. destruct (checked_add ulwp tmem); [|apply collected_end].
  wstep. destruct (checked_add _ _); [|apply collected_end].
  apply collected_bind; [|intros; by apply IH].
  unfold walk_ptc_root. wstep. destruct (read t _); [|apply collected_end].
  by apply ptc_list_spec.
Qed.

Lemma each_thread_spec tmem threads w :
  slabs_known w → collected w (each_thread t tmem threads w).
Proof.
  revert w. induction threads as [|u threads IH]; intros w Hw; cbn [each_thread];
    [apply collected_end|].
  destruct (u =? 0); [apply collected_end|].
  wstep. destruct (read t u); [|apply collected_end].
  destruct (negb _); [apply collected_end|].
  apply collected_bind; [by apply each_root_spec|intros; by apply IH].
Qed.

Lemma walk_thread_caches_spec w : slabs_known w → collected w (walk_thread_caches t w).
Proof.
  intros Hw. unfold walk_thread_caches.
  destruct (symbol t "umem_ptc_enabled"); [|apply collected_stats].
  wstep. destruct (ok _); [|apply collected_end]. destruct (_ =? 0); [apply collected_end|].
  wstep. destruct (symbol t _); [|apply collected_end].
  wstep. destruct (read t _); [|apply collected_end].
  wstep. destruct (ok _); [|apply collected_end]. by apply each_thread_spec.
Qed.

Lemma walk_ptc_spec w :
  walk_inv w → slabs_wf w → ∃ w', walk_ptc t w = Ret (Some (), w') ∧ walk_inv w' ∧ slabs_wf w'.
Proof.
  intros Hw Hwf. unfold walk_ptc. wstep. wstep.
  destruct (walk_thread_caches_spec w (wi_slabs w Hw)) as (o & ps & st & -> & Hps).
  cbv beta iota. destruct Hw as [Hc Hs Hcounts Hp Ha Hsg]. destruct o as [[]|].
  - eexists. split; [reflexivity|]. split; [|exact Hwf]. split; simpl; try done.
    by apply Forall_app.
  - unfold modify. match goal with |- context [note ?x ?w] => destruct (note_stats x w) as [st' ->] end.
    eexists. split; [reflexivity|]. split; [|exact Hwf]. split; simpl; try done.
    by rewrite take_app_length.
Qed.
End walk.
