(* ===== verification/UmemParkedFacts.v ===== *)
(** Folding the parked buffers into an index of libumem's heap: a cache's set is
    believed whole or not at all, and what is kept is exactly what the slabs'
    parked bitmaps say. *)

From S2P Require Import Prelude Target Text Umem UmemWalk UmemFacts UmemIndexFacts UmemWalkFacts.

Local Open Scope Z_scope.

(** A buffer the slab layer counts allocated, of cache [c]. *)
Definition sound (slabs : list Slab) (c buf : Z) : Prop :=
  ∃ s i, s ∈ slabs ∧ sl_cache s = c ∧ 0 <= i < sl_chunks s ∧
    buf = sl_base s + i * sl_chunksize s ∧ is_free s i = false.

Definition slabs_ok (geo : list (Z * Z)) (slabs : list Slab) : Prop :=
  intervals_wf sl_base slab_end slabs ∧ Forall slab_geo slabs ∧ Forall (slab_in geo) slabs.

Definition all_parked (slabs : list Slab) : list Z := slabs ≫= parked_bases.

(** Slabs that differ in their parked bitmaps alone. *)
Definition same_but_parked (s s' : Slab) : Prop :=
  sl_base s' = sl_base s ∧ sl_chunksize s' = sl_chunksize s ∧ sl_chunks s' = sl_chunks s ∧
  sl_cache s' = sl_cache s ∧ sl_free s' = sl_free s.

Lemma same_refl s : same_but_parked s s.
Proof. done. Qed.

Lemma same_trans s1 s2 s3 :
  same_but_parked s1 s2 → same_but_parked s2 s3 → same_but_parked s1 s3.
Proof. unfold same_but_parked. intros (?&?&?&?&?) (?&?&?&?&?). split_and!; congruence. Qed.

Lemma same_end s s' : same_but_parked s s' → slab_end s' = slab_end s.
Proof. intros (E1 & E2 & E3 & _). unfold slab_end. by rewrite E1, E2, E3. Qed.

Lemma same_wf slabs slabs' :
  Forall2 same_but_parked slabs slabs' →
  intervals_wf sl_base slab_end slabs → intervals_wf sl_base slab_end slabs'.
Proof.
  induction 1 as [|s s' slabs slabs' Hs Hall IH]; intros Hwf; [by repeat constructor|].
  apply intervals_wf_cons in Hwf as (Hne & Hafter & Hwf). apply intervals_wf_cons.
  rewrite (same_end s s') by done. destruct Hs as (-> & _). split; [done|]. split; [|by apply IH].
  clear -Hall Hafter. induction Hall as [|x x' slabs slabs' (Hb & _) _ IH]; [constructor|].
  apply Forall_cons in Hafter as [? ?]. constructor; [lia|by apply IH].
Qed.

Lemma same_in geo slabs slabs' :
  Forall2 same_but_parked slabs slabs' → Forall (slab_in geo) slabs → Forall (slab_in geo) slabs'.
Proof.
  induction 1 as [|s s' slabs slabs' (Eb & Ecs & Ech & Ec & Ef) Hall IH]; intros Hg; [constructor|].
  apply Forall_cons in Hg as [(b & Hb & Hle) Hg]. constructor; [|by apply IH].
  exists b. by rewrite Ec, Ecs.
Qed.

Lemma same_total f slabs slabs' i :
  (∀ s s', same_but_parked s s' → f s' = f s) →
  Forall2 same_but_parked slabs slabs' → total f i slabs' = total f i slabs.
Proof.
  intros Hf. induction 1 as [|s s' slabs slabs' Hs Hall IH]; [done|].
  rewrite !total_cons, IH, (Hf s s') by done. destruct Hs as (_ & _ & _ & -> & _). done.
Qed.

Lemma same_allocated s s' : same_but_parked s s' → allocated s' = allocated s.
Proof. intros (_ & _ & Ech & _ & Ef). unfold allocated. by rewrite Ech, Ef. Qed.
Lemma same_freed s s' : same_but_parked s s' → freed_chunks s' = freed_chunks s.
Proof. intros (_ & _ & _ & _ & Ef). unfold freed_chunks. by rewrite Ef. Qed.

Lemma same_sound slabs slabs' c buf :
  Forall2 same_but_parked slabs slabs' → sound slabs c buf → sound slabs' c buf.
Proof.
  intros Hall (s & i & [k Hk]%list_elem_of_lookup & Hc & Hi & Hbuf & Hf).
  destruct (Forall2_lookup_l _ _ _ _ _ Hall Hk) as (s' & Hk' & (Eb & Ecs & Ech & Ec & Ef)).
  exists s', i. split; [by eapply list_elem_of_lookup_2|]. unfold is_free in *.
  rewrite Ec, Ech, Eb, Ecs, Ef. done.
Qed.

Lemma same_Forall2_refl slabs : Forall2 same_but_parked slabs slabs.
Proof. apply Forall2_same_length_lookup_2; [done|]. intros i s s' ??. by simplify_eq. Qed.

Lemma Forall2_trans_same {A} (R : relation A) l1 l2 l3 :
  (∀ x y z, R x y → R y z → R x z) → Forall2 R l1 l2 → Forall2 R l2 l3 → Forall2 R l1 l3.
Proof.
  intros HR H. revert l3. induction H as [|x y l1 l2 Hxy H IH]; intros l3 H3; inversion H3; subst;
    constructor; eauto.
Qed.

Lemma Forall2_same_trans l1 l2 l3 :
  Forall2 same_but_parked l1 l2 → Forall2 same_but_parked l2 l3 → Forall2 same_but_parked l1 l3.
Proof. intros H1 H2. eapply Forall2_trans_same; [|exact H1|exact H2]. apply same_trans. Qed.

Lemma same_insert slabs k s s' :
  slabs !! k = Some s → same_but_parked s s' → Forall2 same_but_parked slabs (<[k := s']> slabs).
Proof.
  intros Hk Hs. apply Forall2_same_length_lookup_2; [by rewrite length_insert|].
  intros i x y Hx Hy. apply list_lookup_insert_Some in Hy as [(-> & -> & _)|[_ Hy]];
    simplify_eq; done.
Qed.

Lemma with_parked_same s m : same_but_parked s (with_parked s m).
Proof. done. Qed.

(** ** One mark *)

Lemma parked_bases_set s m i :
  slab_geo s → 0 <= i < sl_chunks s → is_parked s i = false →
  (∀ j, 0 <= j → bit m j = is_parked s j || (j =? i)) →
  parked_bases (with_parked s m) ≡ₚ sl_base s + i * sl_chunksize s :: parked_bases s.
Proof.
  intros Hg Hi Hp Hm. pose proof Hg as [_ Hcs [? _] _ _ _ _ _].
  unfold parked_bases. cbn [with_parked sl_base sl_chunksize sl_chunks].
  set (f := λ j, sl_base s + j * sl_chunksize s). change (sl_base s + i * sl_chunksize s) with (f i).
  rewrite <- fmap_cons. apply fmap_Permutation, NoDup_Permutation.
  - apply NoDup_filter, NoDup_z_range.
  - constructor; [|apply NoDup_filter, NoDup_z_range].
    rewrite list_elem_of_filter. intros [? _]. congruence.
  - intros j. rewrite elem_of_cons, !list_elem_of_filter, !elem_of_z_range.
    unfold is_parked at 1. simpl. split.
    + intros [Hj Hr]. rewrite Hm in Hj by lia.
      apply orb_true_iff in Hj as [?|Hj]; [by right|]. zb. by left.
    + intros [->|[Hj Hr]].
      * split; [|lia]. rewrite Hm, Z.eqb_refl by lia. by rewrite orb_true_r.
      * split; [|done]. rewrite Hm by lia. by rewrite Hj.
Qed.

Lemma all_parked_insert slabs k s s' a :
  slabs !! k = Some s → parked_bases s' ≡ₚ a :: parked_bases s →
  all_parked (<[k := s']> slabs) ≡ₚ a :: all_parked slabs.
Proof.
  intros Hk Hp. unfold all_parked. revert k Hk.
  induction slabs as [|x slabs IH]; intros k Hk; [done|].
  destruct k as [|k]; simpl in Hk.
  - simplify_eq. cbn. by rewrite Hp.
  - cbn [insert list_insert mbind list_bind]. rewrite (IH k Hk).
    symmetry. apply Permutation_middle.
Qed.

Lemma mark_parked_spec geo slabs c buf :
  slabs_ok geo slabs → sound slabs c buf → buf ∉ all_parked slabs →
  ∃ slabs', mark_parked slabs buf = Ret slabs' ∧ slabs_ok geo slabs' ∧
    Forall2 same_but_parked slabs slabs' ∧
    all_parked slabs' ≡ₚ buf :: all_parked slabs ∧
    ∀ i, total parked_chunks i slabs' =
         total parked_chunks i slabs + (if bool_decide (c = Z.of_nat i) then 1 else 0).
Proof.
  intros (Hwf & Hgeo & Hin) (s & i & Hs & Hc & Hi & -> & Hfree) Hnot.
  pose proof Hs as [k Hk]%list_elem_of_lookup.
  pose proof (proj1 (Forall_forall _ _) Hgeo s Hs) as Hg.
  destruct (chunk_of_base s i Hg Hi) as [Hrange Hchunk].
  assert (is_parked s i = false) as Hclear.
  { destruct (is_parked s i) eqn:E; [|done]. exfalso. apply Hnot.
    apply list_elem_of_bind. exists s. split; [|done].
    apply elem_of_parked_bases; [done|]. eauto. }
  unfold mark_parked. rewrite (proj2 (slab_index_Some slabs _ k Hwf)) by eauto.
  cbn [or_panic]. rewrite outcome_bind_eq, Hk. cbn [or_panic]. rewrite !outcome_bind_eq, Hchunk.
  set (map := if (_ =? 0)%nat then _ else _).
  assert (length map = words (sl_chunks s) ∧ ∀ j, bit map j = is_parked s j) as [Hlen Hbits].
  { unfold map, is_parked. destruct (sg_parked s Hg) as [[E|E] _].
    - rewrite E. simpl. split; [apply length_blank|]. intros j. by rewrite bit_blank.
    - case_match eqn:E0; [|done]. apply Nat.eqb_eq, nil_length_inv in E0. rewrite E0 in *.
      split; [apply length_blank|]. intros j. by rewrite bit_blank. }
  destruct (set_bit_spec map (sl_chunks s) i Hi Hlen) as (map' & Hset & Hlen' & Hbits').
  rewrite outcome_bind_eq, Hset. cbv beta iota.
  assert (∀ j, 0 <= j → bit map' j = is_parked s j || (j =? i)) as Hm.
  { intros j Hj. by rewrite Hbits', Hbits. }
  destruct (map_ok_set (sl_chunks s) (sl_parked s) map' i Hi (sg_parked s Hg) Hlen' Hm Hclear)
    as [Hmap Hones].
  eexists. split; [reflexivity|].
  pose proof (same_insert slabs k s (with_parked s map') Hk (with_parked_same s map')) as Hsame.
  split; [|split; [done|split]].
  - split; [by eapply same_wf|]. split; [|by eapply same_in].
    apply Forall_insert; [done|]. pose proof Hg as [? ? ? ? ? ? ? Hap].
    split; simpl; try done. intros j Hj. unfold is_parked, is_free. simpl. rewrite Hm by done.
    intros [Hp|E]%orb_true_iff; [by apply Hap|]. zb. by subst.
  - apply (all_parked_insert slabs k s); [done|]. by apply parked_bases_set.
  - intros j. pose proof (take_drop_middle slabs k s Hk) as Hsplit.
    rewrite insert_take_drop by (by eapply lookup_lt_Some). rewrite <- Hsplit at 3.
    rewrite !total_app, !total_cons. simpl. rewrite Hc. unfold parked_chunks at 2 5. simpl.
    rewrite Hones. case_bool_decide; lia.
Qed.

(** Marking a whole set. *)
Lemma mark_all_spec geo slabs c bufs :
  slabs_ok geo slabs → Forall (sound slabs c) bufs → NoDup bufs →
  (∀ b, b ∈ bufs → b ∉ all_parked slabs) →
  ∃ slabs', for_each mark_parked slabs bufs = Ret slabs' ∧ slabs_ok geo slabs' ∧
    Forall2 same_but_parked slabs slabs' ∧
    all_parked slabs' ≡ₚ bufs ++ all_parked slabs ∧
    ∀ i, total parked_chunks i slabs' = total parked_chunks i slabs +
         (if bool_decide (c = Z.of_nat i) then Z.of_nat (length bufs) else 0).
Proof.
  revert slabs. induction bufs as [|b bufs IH]; intros slabs Hok Hs Hnd Hnot.
  { exists slabs. split; [done|]. split; [done|]. split; [apply same_Forall2_refl|].
    split; [done|]. intros i. case_bool_decide; simpl; lia. }
  apply Forall_cons in Hs as [Hb Hs]. apply NoDup_cons in Hnd as [Hbn Hnd].
  destruct (mark_parked_spec geo slabs c b Hok Hb ltac:(apply Hnot; left))
    as (s1 & Hm & Hok1 & Hsame1 & Hp1 & Ht1).
  cbn [for_each]. rewrite Hm, outcome_bind_eq. cbv beta iota.
  destruct (IH s1 Hok1) as (s2 & -> & Hok2 & Hsame2 & Hp2 & Ht2); [|done| |].
  - eapply Forall_impl; [exact Hs|]. intros x. by apply same_sound.
  - intros x Hx. rewrite Hp1, elem_of_cons. intros [->|?]; [done|].
    by apply (Hnot x); [right|].
  - exists s2. split; [done|]. split; [done|]. split; [by eapply Forall2_same_trans|].
    split; [rewrite Hp2, Hp1; by rewrite <- Permutation_middle|].
    intros i. rewrite Ht2, Ht1. case_bool_decide; simpl length; lia.
Qed.

(** ** A cache's set is checked whole *)

Lemma find_stray_spec geo slabs c group :
  slabs_ok geo slabs →
  ∃ r, find_stray slabs c group = Ret r ∧
    (r = None → Forall (λ p, sound slabs c p.2) group).
Proof.
  intros (Hwf & Hgeo & Hin). induction group as [|[c' buf] group IH]; cbn [find_stray].
  { exists None. split; [done|constructor]. }
  destruct (slab_at slabs buf) as [s|] eqn:Es; [|by eexists].
  apply slab_at_Some in Es as [Hs Ha]; [|done].
  destruct (negb _) eqn:Ec; [by eexists|]. zb.
  rewrite Forall_forall in Hgeo. destruct (chunk_of_spec s buf (Hgeo s Hs) Ha) as (i & Hci & Hb & Hi & _).
  rewrite Hb, outcome_bind_eq. cbv beta iota. destruct (negb _) eqn:Eb; [by eexists|]. zb.
  rewrite Hci, outcome_bind_eq. cbv beta iota. destruct (is_free s i) eqn:Ef; [by eexists|].
  destruct IH as (r & -> & Hr). exists r. split; [done|]. intros Hn. constructor; [|by apply Hr].
  exists s, i. by rewrite <- Eb.
Qed.

(** Sorted candidates of one cache, no two neighbours the same. *)
Lemma group_sorted c group :
  Forall (λ p, p.1 = c) group → StronglySorted (λ a b, pair_leb a b = true) group →
  find_first (λ p : (Z * Z) * (Z * Z), p.1.2 =? p.2.2) (windows2 group) = None →
  StronglySorted Z.lt group.*2.
Proof.
  intros Hc Hs Hf. apply Sorted_StronglySorted; [exact Z.lt_trans|].
  rewrite find_first_None in Hf. apply StronglySorted_Sorted in Hs.
  assert (Sorted (λ a b : Z * Z, a.2 < b.2) group) as Hlt.
  { apply windows2_sorted. intros [a b] Hp. pose proof (Hf _ Hp) as Hne.
    apply (proj1 (windows2_sorted _ _) Hs) in Hp as Hle. simpl in *. zb.
    assert (a ∈ group ∧ b ∈ group) as [Ha Hb].
    { clear -Hp. induction group as [|x [|y group] IH]; cbn [windows2] in Hp;
        try by apply elem_of_nil in Hp.
      apply elem_of_cons in Hp as [[= -> ->]|Hp]; [split; [left|right; left]|].
      destruct (IH Hp). split; by right. }
    rewrite Forall_forall in Hc. pose proof (Hc a Ha) as Ea. pose proof (Hc b Hb) as Eb.
    simpl in *. unfold pair_leb in Hle. rewrite Ea, Eb, Z.ltb_irrefl, Z.eqb_refl in Hle.
    simpl in Hle. zb. lia. }
  clear -Hlt. induction Hlt as [|x group Hs IH Hx]; [constructor|].
  constructor; [done|]. destruct Hx; constructor. done.
Qed.

Lemma sorted_lt_NoDup l : StronglySorted Z.lt l → NoDup l.
Proof.
  induction 1 as [|x l Hs IH Hx]; constructor; [|done].
  intros Hin. rewrite Forall_forall in Hx. specialize (Hx x Hin). lia.
Qed.

Lemma stray_parked_spec geo slabs c group :
  slabs_ok geo slabs → Forall (λ p, p.1 = c) group →
  StronglySorted (λ a b, pair_leb a b = true) group →
  ∃ r, stray_parked slabs c group = Ret r ∧
    (r = None → Forall (sound slabs c) group.*2 ∧ NoDup group.*2).
Proof.
  intros Hok Hc Hs. unfold stray_parked. destruct (find_first _ _) eqn:E; [by eexists|].
  destruct (find_stray_spec geo slabs c group Hok) as (r & -> & Hr). exists r. split; [done|].
  intros Hn. split; [|by eapply sorted_lt_NoDup, group_sorted]. rewrite Forall_fmap. by apply Hr.
Qed.

(** The groups of the sorted candidates. *)
Lemma group_rest c l :
  StronglySorted (λ a b, pair_leb a b = true) l → Forall (λ e, c <= e.1) l →
  Forall (λ e, c < e.1) (drop (partition_point (λ e : Z * Z, e.1 =? c) l) l).
Proof.
  intros Hs. induction Hs as [|x l Hs IH Hx]; intros Hc; [constructor|].
  apply Forall_cons in Hc as [Hxc Hc]. simpl. destruct (x.1 =? c) eqn:E; [by apply IH|].
  zb. constructor; [lia|]. eapply Forall_impl; [exact Hx|]. intros y Hy. simpl in Hy.
  unfold pair_leb in Hy. apply orb_true_iff in Hy as [Hy|Hy]; zb; lia.
Qed.

Lemma group_same c l :
  Forall (λ e, e.1 = c) (take (partition_point (λ e : Z * Z, e.1 =? c) l) l).
Proof.
  induction l as [|x l IH]; simpl; [constructor|]. destruct (x.1 =? c) eqn:E; [|constructor].
  zb. by constructor.
Qed.

Lemma total_lower f i slabs s :
  (∀ s, s ∈ slabs → 0 <= f s) → s ∈ slabs → sl_cache s = Z.of_nat i → f s <= total f i slabs.
Proof.
  intros Hf Hs Hc. induction slabs as [|x slabs IH]; [by apply elem_of_nil in Hs|].
  rewrite total_cons. pose proof (Hf x ltac:(left)).
  assert (0 <= total f i slabs) as H0.
  { unfold total. apply sum_Z_nonneg. rewrite Forall_fmap. apply Forall_forall.
    intros y [_ Hy]%list_elem_of_filter. apply Hf. by right. }
  apply elem_of_cons in Hs as [->|Hs].
  - rewrite bool_decide_true by done. lia.
  - specialize (IH ltac:(intros; apply Hf; by right) Hs). case_bool_decide; lia.
Qed.

(** A cache with nothing parked has no buffer among the parked. *)
Lemma sound_not_parked geo slabs c b :
  slabs_ok geo slabs → 0 <= c → total parked_chunks (Z.to_nat c) slabs = 0 →
  sound slabs c b → b ∉ all_parked slabs.
Proof.
  intros (Hwf & Hgeo & _) Hc Ht (s & i & Hs & Hsc & Hi & -> & _) Hin.
  rewrite Forall_forall in Hgeo. apply list_elem_of_bind in Hin as (s' & Hp & Hs').
  pose proof (length_parked_bases s' (Hgeo s' Hs')) as Hlen.
  apply elem_of_parked_bases in Hp as Hp'; [|by apply Hgeo]. destruct Hp' as (j & Hj & _ & Heq).
  assert (s' = s) as ->.
  { destruct (chunk_of_base s i (Hgeo s Hs) Hi) as [Hr _].
    destruct (chunk_of_base s' j (Hgeo s' Hs') Hj) as [Hr' _].
    apply list_elem_of_lookup in Hs as [k Hk], Hs' as [k' Hk'].
    rewrite <- Heq in Hr'.
    pose proof (intervals_unique _ _ _ _ _ _ _ _ Hwf Hk Hk' Hr Hr') as ->. congruence. }
  assert (parked_chunks s <= total parked_chunks (Z.to_nat c) slabs).
  { apply total_lower; [|done|rewrite Hsc; lia].
    intros x Hx. pose proof (parked_range x (Hgeo x Hx)). lia. }
  destruct (parked_bases s); [by apply elem_of_nil in Hp|]. simpl length in Hlen. lia.
Qed.

Lemma all_parked_NoDup geo slabs : slabs_ok geo slabs → NoDup (all_parked slabs).
Proof.
  intros (Hwf & Hgeo & _). unfold all_parked.
  induction Hgeo as [|s slabs Hg Hgeo IH]; [constructor|].
  apply intervals_wf_cons in Hwf as (Hs & Hafter & Hwf). cbn [mbind list_bind].
  apply NoDup_app. split; [|split; [|by apply IH]].
  - unfold parked_bases. apply NoDup_fmap_2_strong; [|apply NoDup_filter, NoDup_z_range].
    intros x y _ _ E. pose proof (sg_chunksize s Hg). nia.
  - intros a Ha Hin. apply list_elem_of_bind in Hin as (s' & Ha' & Hs').
    rewrite Forall_forall in Hafter, Hgeo. specialize (Hafter s' Hs'). specialize (Hgeo s' Hs').
    apply elem_of_parked_bases in Ha as (i & Hi & _ & ->); [|done].
    apply elem_of_parked_bases in Ha' as (j & Hj & _ & Heq); [|done].
    destruct (chunk_of_base s i Hg Hi) as [? _]. destruct (chunk_of_base s' j Hgeo Hj) as [? _]. lia.
Qed.

(** ** The fold *)

Record fold_inv (geo : list (Z * Z)) (kept : list Z) (w : Walk) : Prop := {
  fi_geo : geometry (w_caches w) = geo;
  fi_slabs : slabs_ok geo (w_slabs w);
  fi_counts : counts_mod (w_caches w) (w_slabs w);
  fi_parked : ∀ i c, w_caches w !! i = Some c → ca_parked c = total parked_chunks i (w_slabs w);
  fi_kept : kept ≡ₚ all_parked (w_slabs w);
  fi_arenas : w_arenas w = [];
  fi_segs : w_segs w = []
}.

Lemma fold_inv_stats geo kept st w : fold_inv geo kept w → fold_inv geo kept (set_stats st w).
Proof. intros []. by split. Qed.

Lemma cache_parked_same c live p b :
  p = ca_parked c → same_geometry c (cache_parked c live p b).
Proof. by intros ->. Qed.

Lemma decline_parked_spec geo kept c addr why w :
  fold_inv geo kept w → 0 <= c < Z.of_nat (length (w_caches w)) →
  ∃ w', decline_parked c addr why w = Ret w' ∧ fold_inv geo kept w' ∧ w_slabs w' = w_slabs w ∧
    length (w_caches w') = length (w_caches w).
Proof.
  intros [Hgeo Hslabs Hcounts Hp Hk Ha Hsg] Hc.
  destruct (lookup_lt_is_Some_2 (w_caches w) (Z.to_nat c)) as [ca Hca]; [lia|].
  unfold decline_parked, cache_ix. rewrite Hca. cbn [or_panic]. rewrite outcome_bind_eq.
  match goal with |- context [note ?x ?w] => destruct (note_stats x w) as [st ->] end.
  eexists. split; [reflexivity|]. simpl. split; [|by rewrite length_insert].
  split; simpl; try done.
  - rewrite (geometry_insert _ _ ca); done.
  - intros i c' Hi. apply list_lookup_insert_Some in Hi as [(<- & <- & _)|[_ Hi]]; [|by apply Hcounts].
    simpl. by apply Hcounts.
  - intros i c' Hi. apply list_lookup_insert_Some in Hi as [(<- & <- & _)|[_ Hi]]; [|by apply Hp].
    simpl. by apply Hp.
Qed.

Lemma accept_parked_spec geo kept c group w :
  fold_inv geo kept w → 0 <= c < Z.of_nat (length (w_caches w)) →
  Forall (sound (w_slabs w) c) group.*2 → NoDup group.*2 →
  total parked_chunks (Z.to_nat c) (w_slabs w) = 0 →
  ∃ w', accept_parked c group w = Ret w' ∧ fold_inv geo (kept ++ group.*2) w' ∧
    length (w_caches w') = length (w_caches w) ∧
    ∀ i, Z.of_nat i ≠ c → total parked_chunks i (w_slabs w') = total parked_chunks i (w_slabs w).
Proof.
  intros [Hgeo Hslabs Hcounts Hp Hk Ha Hsg] Hc Hsound Hnd H0.
  destruct (lookup_lt_is_Some_2 (w_caches w) (Z.to_nat c)) as [ca Hca]; [lia|].
  unfold accept_parked, cache_ix. rewrite Hca. cbn [or_panic]. rewrite outcome_bind_eq. cbv beta iota zeta.
  destruct (mark_all_spec geo (w_slabs w) c group.*2 Hslabs Hsound Hnd) as (slabs & Hm & Hok & Hsame & Hperm & Ht).
  { intros b Hb. rewrite Forall_forall in Hsound. eapply (sound_not_parked geo _ c); [done|lia|done|auto]. }
  rewrite outcome_bind_eq, Hm. eexists. split; [reflexivity|]. simpl.
  split; [|split; [by rewrite length_insert|]].
  - split; simpl; try done.
    + unfold geometry. rewrite list_fmap_insert. rewrite list_insert_id; [done|].
      rewrite list_lookup_fmap, Hca. done.
    + intros i c' Hi.
      rewrite !(same_total _ _ _ _ same_allocated Hsame), !(same_total _ _ _ _ same_freed Hsame).
      apply list_lookup_insert_Some in Hi as [(<- & <- & _)|[_ Hi]]; [|by apply Hcounts].
      simpl. by apply Hcounts.
    + intros i c' Hi. rewrite Ht.
      apply list_lookup_insert_Some in Hi as [(<- & <- & _)|[Hne Hi]].
      * simpl. rewrite H0, bool_decide_true by lia. by rewrite length_fmap.
      * rewrite bool_decide_false by lia. rewrite (Hp _ _ Hi). lia.
    + rewrite Hperm, Hk. apply Permutation_app_comm.
  - intros i Hi. rewrite Ht, bool_decide_false by congruence. lia.
Qed.

Lemma fold_groups_spec geo fuel sorted kept w :
  fold_inv geo kept w → (length sorted ≤ fuel)%nat →
  StronglySorted (λ a b, pair_leb a b = true) sorted →
  Forall (λ p, 0 <= p.1 < Z.of_nat (length (w_caches w)) ∧
               total parked_chunks (Z.to_nat p.1) (w_slabs w) = 0) sorted →
  ∃ kept' w', fold_groups fuel sorted kept w = Ret (kept', w') ∧ fold_inv geo kept' w'.
Proof.
  revert sorted kept w. induction fuel as [|fuel IH]; intros sorted kept w Hinv Hlen Hs Hall.
  { destruct sorted; [by eexists _, _|simpl in Hlen; lia]. }
  destruct sorted as [|[c b] l]; [by eexists _, _|]. cbn [fold_groups].
  set (n := partition_point _ _). set (rest := drop n _). set (group := take n _).
  assert (n = S (partition_point (λ e : Z * Z, e.1 =? c) l)) as Hn.
  { unfold n. simpl. by rewrite Z.eqb_refl. }
  assert (length rest ≤ fuel)%nat as Hlr.
  { unfold rest. rewrite Hn, length_drop. simpl in *. lia. }
  assert (StronglySorted (λ a b, pair_leb a b = true) rest ∧
          StronglySorted (λ a b, pair_leb a b = true) group) as [Hsr Hsg].
  { pose proof Hs as Hs'. rewrite <- (take_drop n) in Hs'. split.
    - by eapply StronglySorted_app_1_r.
    - by eapply StronglySorted_app_1_l. }
  assert (Forall (λ e, c < e.1) rest) as Hgt.
  { apply group_rest; [done|]. apply StronglySorted_inv in Hs as [_ Hx].
    constructor; [done|]. eapply Forall_impl; [exact Hx|]. intros y Hy. simpl in Hy.
    unfold pair_leb in Hy. simpl in Hy. apply orb_true_iff in Hy as [Hy|Hy]; zb; lia. }
  pose proof (group_same c ((c, b) :: l)) as Hgs. fold n in Hgs. fold group in Hgs.
  pose proof (Forall_drop _ n _ Hall) as Har. fold rest in Har.
  apply Forall_cons in Hall as [[Hc H0] _]. simpl in Hc, H0.
  destruct (existsb _ _); [by apply IH|].
  destruct (stray_parked_spec geo (w_slabs w) c group (fi_slabs _ _ _ Hinv) Hgs Hsg) as (r & -> & Hr).
  rewrite outcome_bind_eq. cbv beta iota. destruct r as [[a why]|].
  - destruct (decline_parked_spec geo kept c a why w Hinv Hc) as (w' & -> & Hinv' & Hsl & Hcl).
    rewrite outcome_bind_eq. cbv beta iota. apply IH; [done..|]. by rewrite Hcl, Hsl.
  - destruct (Hr eq_refl) as [Hsound Hnd].
    destruct (accept_parked_spec geo kept c group w Hinv Hc Hsound Hnd H0) as (w' & -> & Hinv' & Hcl & Ht).
    rewrite outcome_bind_eq. cbv beta iota. apply IH; [done..|]. rewrite Hcl.
    rewrite Forall_forall in Har, Hgt. apply Forall_forall. intros p Hp.
    destruct (Har p Hp) as [Hpc Hp0]. specialize (Hgt p Hp). split; [done|]. rewrite Ht; [done|]. lia.
Qed.

(** What a walk has once the parked buffers are folded in. *)
Record folded (kept : list Z) (w : Walk) : Prop := {
  fo_index : index_ok (w_caches w) (w_slabs w);
  fo_counts : ∀ i c, w_caches w !! i = Some c →
    ca_live c = total (shown true) i (w_slabs w) ∧
    ca_freed c = total freed_chunks i (w_slabs w) ∧
    ca_parked c = total parked_chunks i (w_slabs w);
  fo_kept : kept ≡ₚ all_parked (w_slabs w);
  fo_sorted : StronglySorted Z.lt kept;
  fo_arenas : w_arenas w = [];
  fo_segs : w_segs w = []
}.

Lemma sort_lt l : NoDup l → StronglySorted Z.lt (sort_by Z.leb l).
Proof.
  intros Hnd.
  assert (StronglySorted (λ a b, Z.leb a b = true) (sort_by Z.leb l)) as Hs.
  { apply sort_by_sorted.
    - intros x y. rewrite !Z.leb_le. lia.
    - intros x y z. rewrite !Z.leb_le. lia. }
  assert (NoDup (sort_by Z.leb l)) as Hnd' by (by rewrite (sort_by_perm Z.leb l)).
  induction Hs as [|x k Hs IH Hx]; [constructor|].
  apply NoDup_cons in Hnd' as [Hx' Hnd']. constructor; [by apply IH|].
  rewrite Forall_forall in Hx. apply Forall_forall. intros y Hy. specialize (Hx y Hy).
  apply Z.leb_le in Hx. destruct (decide (x = y)) as [->|]; [done|lia].
Qed.

Lemma total_live_bound geo slabs i :
  slabs_ok geo slabs →
  0 <= total (shown true) i slabs ∧ is_u64 (total allocated i slabs) ∧
  is_u64 (total freed_chunks i slabs) ∧
  total (shown true) i slabs = total allocated i slabs - total parked_chunks i slabs ∧
  0 <= total parked_chunks i slabs.
Proof.
  intros (Hwf & Hgeo & _). split_and!.
  - apply total_bound; [done..|]. intros s Hg. unfold shown. pose proof Hg as [_ _ [? _] _ _ _ _ _].
    pose proof (count_range_bound (shows true s) 0 (Z.to_nat (sl_chunks s))). lia.
  - apply total_bound; [done..|apply allocated_range].
  - apply total_bound; [done..|apply freed_range].
  - rewrite <- total_sub. apply total_ext. intros s Hs. rewrite Forall_forall in Hgeo.
    apply shown_live_split. auto.
  - apply total_bound; [done..|apply parked_range].
Qed.

Lemma walk_slabs_ok w : walk_inv w → slabs_wf w → slabs_ok (geometry (w_caches w)) (w_slabs w).
Proof.
  intros [_ Hs _ _ _ _] Hwf. split; [done|]. split.
  - eapply Forall_impl; [exact Hs|]. by intros s [].
  - eapply Forall_impl; [exact Hs|]. by intros s (_ & ? & _).
Qed.

(** Before the fold nothing is parked. *)
Lemma nothing_parked w :
  walk_inv w → all_parked (w_slabs w) = [] ∧ ∀ i, total parked_chunks i (w_slabs w) = 0.
Proof.
  intros [_ Hs _ _ _ _]. induction Hs as [|s slabs (Hg & _ & Hp) Hs [IH1 IH2]]; [done|].
  assert (parked_bases s = []) as E.
  { unfold parked_bases. rewrite filter_none; [done|]. intros i _.
    unfold is_parked. by rewrite Hp, bit_nil. }
  split.
  - unfold all_parked in *. cbn [mbind list_bind]. by rewrite E.
  - intros i. rewrite total_cons, IH2. unfold parked_chunks. rewrite Hp.
    case_bool_decide; done.
Qed.

Lemma fold_parked_spec w :
  walk_inv w → slabs_wf w →
  ∃ kept w', fold_parked w = Ret (kept, w') ∧ folded kept w' ∧
    w_arenas w' = [] ∧ w_segs w' = [].
Proof.
  intros Hw Hwf. pose proof (walk_slabs_ok w Hw Hwf) as Hok.
  destruct (nothing_parked w Hw) as [Hnone Hzero]. unfold fold_parked.
  set (geo := geometry (w_caches w)) in *. set (sorted := sort_by pair_leb (w_parked w)).
  destruct Hw as [Hc Hs Hcounts Hp Ha Hsg].
  destruct (fold_groups_spec geo (length sorted) sorted [] (set_parked [] w))
    as (kept & w' & -> & [Hgeo Hslabs Hcnt Hpk Hkept Ha' Hsg']).
  - split; simpl; try done.
    + intros i c Hi. rewrite Hzero. rewrite Forall_lookup in Hc. by apply (Hc i c).
    + by rewrite Hnone.
  - done.
  - apply sort_by_sorted; [apply pair_leb_total|apply pair_leb_trans].
  - unfold sorted. rewrite (sort_by_perm pair_leb (w_parked w)). simpl.
    eapply Forall_impl; [exact Hp|]. intros p ?. split; [done|apply Hzero].
  - rewrite outcome_bind_eq. cbv beta iota zeta. eexists _, _. split; [reflexivity|].
    set (caches := (λ c, cache_parked _ _ _ _) <$> w_caches w').
    assert (geometry caches = geo) as Hg'.
    { rewrite <- Hgeo. unfold geometry, caches. rewrite <- list_fmap_compose. by apply list_fmap_ext. }
    split; [|split; [exact Ha'|exact Hsg']]. split; simpl; try done.
    + destruct Hslabs as (? & ? & ?). split; [done..|]. by rewrite Hg'.
    + intros i c Hi. unfold caches in Hi. rewrite list_lookup_fmap in Hi.
      apply fmap_Some in Hi as (c0 & Hi & ->). simpl.
      destruct (Hcnt i c0 Hi) as [Hl Hf]. rewrite (Hpk i c0 Hi), Hl, Hf.
      destruct (total_live_bound geo (w_slabs w') i Hslabs) as (H0 & Hal & Hfr & E & ?).
      rewrite !Z.mod_small by done. unfold is_u64 in Hal.
      rewrite u64_sub_small by (unfold is_u64; lia). split; [lia|done].
    + by rewrite (sort_by_perm Z.leb kept).
    + apply sort_lt. rewrite Hkept. by eapply all_parked_NoDup.
Qed.

(** ** The arenas *)

Section arenas.
Context `{Target T} (t : T) (l : Layout).

Definition seg_kept (index : Z) (g : Seg) : Prop :=
  0 <= sg_start g < sg_end g ∧ sg_arena g = index.

Definition seg_lives (live : bool) (segs : list Seg) : Z :=
  Z.of_nat (length (filter (λ g, sg_live g = live) segs)).

(** The outcome of walking an arena's segments from [w]. *)
Definition segs_walked (index : Z) (a : Arena) (w : Walk)
    (r : outcome (option Arena * Walk)) : Prop :=
  ∃ o new, r = Ret (o, set_segs (w_segs w ++ new) w) ∧ Forall (seg_kept index) new ∧
    ∀ a', o = Some a' →
      ar_live a' `mod` W64 = (ar_live a + seg_lives true new) `mod` W64 ∧
      ar_freed a' `mod` W64 = (ar_freed a + seg_lives false new) `mod` W64 ∧
      (is_u64 (ar_live a) → is_u64 (ar_freed a) → is_u64 (ar_live a') ∧ is_u64 (ar_freed a')).

Lemma segs_walked_end index a w o :
  o = None ∨ o = Some a → segs_walked index a w (Ret (o, w)).
Proof.
  intros Ho. exists o, []. rewrite app_nil_r. split; [by destruct w|]. split; [constructor|].
  intros a' ->. destruct Ho as [|[= ->]]; [done|]. unfold seg_lives. simpl. by rewrite !Z.add_0_r.
Qed.

Lemma segs_walked_push index a w start end_ live r :
  0 <= start < end_ →
  segs_walked index (arena_count a start end_ live)
    (set_segs (w_segs w ++ [mkSeg start end_ index live]) w) r →
  segs_walked index a w r.
Proof.
  intros Hse (o & new & -> & Hnew & Ha). exists o, (mkSeg start end_ index live :: new).
  simpl. rewrite <- app_assoc. split; [by destruct w|]. split; [by constructor|].
  intros a' Ho. destruct (Ha a' Ho) as (Hl & Hf & Hu). unfold seg_lives in *.
  rewrite !filter_cons. simpl sg_live. destruct live; simpl in *; unfold u64_add in *.
  - rewrite Zplus_mod_idemp_l in Hl. rewrite Hl, Hf. split; [f_equal; lia|].
    split; [done|]. intros _ ?. apply Hu; [|done]. apply Z.mod_pos_bound. lia.
  - rewrite Zplus_mod_idemp_l in Hf. rewrite Hl, Hf. split; [done|].
    split; [f_equal; lia|]. intros ? _. apply Hu; [done|]. apply Z.mod_pos_bound. lia.
Qed.

Lemma walk_seg_list_spec remaining anchor index a span last_ prev addr w :
  segs_walked index a w (walk_seg_list t l remaining anchor index a span last_ prev addr w).
Proof.
  revert a span last_ prev addr w.
  induction remaining as [|remaining IH]; intros a span last_ prev addr w;
    cbn [walk_seg_list]; destruct (addr =? anchor); try (apply segs_walked_end; auto; fail).
  wstep. destruct (read_at t addr (vs_aprev l)); [|apply segs_walked_end; auto].
  destruct (negb _); [apply segs_walked_end; auto|].
  wstep. destruct (read_at t addr (vs_start l)) as [start|] eqn:Es; [|apply segs_walked_end; auto].
  apply read_at_u64 in Es. unfold is_u64 in Es.
  wstep. destruct (read_at t addr (vs_end l)) as [end_|]; [|apply segs_walked_end; auto].
  wstep. destruct (checked_add _ _); [|apply segs_walked_end; auto].
  wstep. destruct (ok _) as [kind|]; [|apply segs_walked_end; auto].
  destruct (kind =? VMEM_SPAN).
  { destruct (end_ <=? start); [apply segs_walked_end; auto|]. wstep.
    destruct (read_at t addr (vs_anext l)); [|apply segs_walked_end; auto]. apply IH. }
  destruct (_ || _).
  - destruct (_ || _) eqn:E; [apply segs_walked_end; auto|]. zb. wstep.
    eapply (segs_walked_push index a w start end_); [lia|]. wstep.
    destruct (read_at t addr (vs_anext l)); [|apply segs_walked_end; auto]. apply IH.
  - wstep. destruct (read_at t addr (vs_anext l)); [|apply segs_walked_end; auto]. apply IH.
Qed.

Lemma walk_arena_spec sym nm index w :
  ∃ o new, walk_arena t l sym nm index w = Ret (o, set_segs (w_segs w ++ new) w) ∧
    Forall (seg_kept index) new ∧
    ∀ a, o = Some a → ar_live a = seg_lives true new `mod` W64 ∧
                      ar_freed a = seg_lives false new `mod` W64.
Proof.
  assert (∀ w, ∃ o new, Ret (@None Arena, w) = Ret (o, set_segs (w_segs w ++ new) w) ∧
    Forall (seg_kept index) new ∧ ∀ a, o = Some a → ar_live a = seg_lives true new `mod` W64 ∧
                      ar_freed a = seg_lives false new `mod` W64) as Hnone.
  { intros w'. exists None, []. rewrite app_nil_r. split; [by destruct w'|]. split; [constructor|done]. }
  unfold walk_arena. wstep. destruct (symbol t sym); [|apply Hnone].
  wstep. destruct (read t _) as [arena|]; [|apply Hnone]. destruct (arena =? 0); [apply Hnone|].
  wstep. destruct (read_name_at t _ _); [|apply Hnone]. destruct (negb _); [apply Hnone|].
  wstep. destruct (checked_add _ _) as [anchor|]; [|apply Hnone].
  wstep. destruct (read_at t anchor _) as [addr|]; [|apply Hnone].
  destruct (walk_seg_list_spec MAX_SEGS anchor index (mkArena arena nm 0 0 0 0) (Range 0 0) 0 anchor addr w)
    as (o & new & -> & Hnew & Ha). exists o, new. split; [done|]. split; [done|].
  intros a Ho. destruct (Ha a Ho) as (Hl & Hf & Hu). simpl in *.
  destruct Hu as [Hu1 Hu2]; [done..|]. rewrite Z.add_0_l, (Z.mod_small (ar_live a)) in Hl by done.
  rewrite Z.add_0_l, (Z.mod_small (ar_freed a)) in Hf by done. done.
Qed.

(** Arenas and segments that agree. *)
Record arenas_ok (arenas : list Arena) (segs : list Seg) : Prop := {
  ao_segs : Forall (λ g, 0 <= sg_start g < sg_end g ∧
                         0 <= sg_arena g < Z.of_nat (length arenas)) segs;
  ao_counts : ∀ i a, arenas !! i = Some a →
    ar_live a = seg_count i true segs `mod` W64 ∧ ar_freed a = seg_count i false segs `mod` W64
}.

Lemma seg_count_app i live segs new :
  seg_count i live (segs ++ new) = seg_count i live segs + seg_count i live new.
Proof. unfold seg_count. rewrite filter_app, length_app. lia. Qed.

Lemma seg_count_none i live segs :
  Forall (λ g, sg_arena g ≠ Z.of_nat i) segs → seg_count i live segs = 0.
Proof.
  intros Hs. unfold seg_count. rewrite filter_none; [done|]. intros g Hg.
  rewrite Forall_forall in Hs. specialize (Hs g Hg). unfold seg_live.
  by rewrite (proj2 (Z.eqb_neq _ _)).
Qed.

Lemma seg_count_all i live segs :
  Forall (seg_kept (Z.of_nat i)) segs → seg_count i live segs = seg_lives live segs.
Proof.
  intros Hs. unfold seg_count, seg_lives. do 2 f_equal.
  induction Hs as [|g segs [_ Hg] Hs IH]; [done|]. rewrite !filter_cons, IH. unfold seg_live.
  rewrite Hg, Z.eqb_refl. simpl. destruct (sg_live g), live; simpl; done.
Qed.

Lemma arenas_ok_snoc arenas segs a new :
  arenas_ok arenas segs → Forall (seg_kept (Z.of_nat (length arenas))) new →
  ar_live a = seg_lives true new `mod` W64 → ar_freed a = seg_lives false new `mod` W64 →
  arenas_ok (arenas ++ [a]) (segs ++ new).
Proof.
  intros [Hs Hc] Hnew Hl Hf. split.
  - rewrite length_app, Nat.add_1_r. apply Forall_app. split.
    + eapply Forall_impl; [exact Hs|]. simpl. lia.
    + eapply Forall_impl; [exact Hnew|]. intros g [? ->]. lia.
  - intros i a' Hi. rewrite !seg_count_app.
    apply lookup_app_Some in Hi as [Hi|[Hle Hi]].
    + pose proof (lookup_lt_Some _ _ _ Hi) as Hlt.
      assert (Forall (λ g, sg_arena g ≠ Z.of_nat i) new) as Hne.
      { eapply Forall_impl; [exact Hnew|]. intros g [_ ->]. lia. }
      rewrite !(seg_count_none _ _ new) by done. rewrite !Z.add_0_r. by apply Hc.
    + destruct (i - length arenas)%nat as [|k] eqn:E; [|done]. simpl in Hi. injection Hi as <-.
      assert (i = length arenas) as -> by lia.
      assert (Forall (λ g, sg_arena g ≠ Z.of_nat (length arenas)) segs) as Hne.
      { eapply Forall_impl; [exact Hs|]. simpl. lia. }
      rewrite !(seg_count_none _ _ segs) by done. by rewrite !(seg_count_all _ _ new).
Qed.

(** Walking arenas adds arenas and segments, and changes nothing else but the
    statistics. *)
Lemma each_arena_spec names walked w :
  arenas_ok (w_arenas w) (w_segs w) →
  Z.of_nat (length (w_arenas w) + length names) < W32 →
  ∃ b arenas segs st, each_arena t l names walked w =
      Ret (Some b, set_stats st (set_segs segs (set_arenas arenas w))) ∧
    arenas_ok arenas segs.
Proof.
  revert walked w. induction names as [|[sym nm] names IH]; intros walked w Hok Hlen; cbn [each_arena].
  { exists walked, (w_arenas w), (w_segs w), (w_stats w). split; [by destruct w|done]. }
  wstep. wstep. simpl length in Hlen.
  assert (as_u32 (Z.of_nat (length (w_arenas w))) = Z.of_nat (length (w_arenas w))) as ->.
  { unfold as_u32. rewrite Z.mod_small; lia. }
  destruct (walk_arena_spec sym nm (Z.of_nat (length (w_arenas w))) w) as (o & new & -> & Hnew & Ha).
  cbv beta iota. destruct o as [a|].
  - wstep. destruct (Ha a eq_refl) as [Hl Hf].
    destruct (IH walked (set_arenas (w_arenas w ++ [a]) (set_segs (w_segs w ++ new) w)))
      as (b & arenas & segs & st & Hr & Hok'); [by apply arenas_ok_snoc| |].
    { simpl. rewrite length_app. simpl. lia. }
    exists b, arenas, segs, st. simpl in *. rewrite Hr. done.
  - wstep. match goal with |- context [note ?x ?w] => destruct (note_stats x w) as [st ->] end.
    simpl. rewrite take_app_length.
    destruct (IH false (set_stats st (set_segs (w_segs w) w))) as (b & arenas & segs & st' & Hr & Hok');
      [done|simpl; lia|].
    exists b, arenas, segs, st'. split; [exact Hr|done].
Qed.

Lemma walk_arenas_spec w :
  w_arenas w = [] → w_segs w = [] →
  ∃ arenas segs st, walk_arenas t l w =
      Ret (Some (), set_stats st (set_segs segs (set_arenas arenas w))) ∧
    arenas_ok arenas segs.
Proof.
  intros Ha Hs. unfold walk_arenas. wstep.
  destruct (each_arena_spec MALLOC_ARENAS true w) as (b & arenas & segs & st & -> & Hok).
  { rewrite Ha, Hs. split; [constructor|done]. }
  { rewrite Ha. done. }
  cbv beta iota. eexists arenas, segs, _. split; [reflexivity|done].
Qed.

Lemma arenas_ok_sort arenas segs : arenas_ok arenas segs → arenas_ok arenas (sort_segs segs).
Proof.
  assert (sort_segs segs ≡ₚ segs) as Hp by apply sort_by_perm.
  intros [Hs Hc]. split; [by rewrite Hp|]. intros i a Hi.
  unfold seg_count in *. rewrite !Hp. by apply Hc.
Qed.

Lemma sort_segs_sorted segs :
  StronglySorted (λ a b, sg_start a <= sg_start b) (sort_segs segs).
Proof.
  assert (StronglySorted (λ a b, (sg_start a <=? sg_start b) = true) (sort_segs segs)) as Hs.
  { apply sort_by_sorted; intros *; rewrite !Z.leb_le; lia. }
  induction Hs as [|x k Hs IH Hx]; [constructor|]. constructor; [done|].
  eapply Forall_impl; [exact Hx|]. intros y. apply Z.leb_le.
Qed.

(** ** The whole walk *)

Lemma run_spec :
  layout_ok l → ∃ o, run t l = Ret o ∧ ∀ h, o = Some h → heap_ok h.
Proof.
  intros Hlay. unfold run, run_body. rewrite w_bind_eq. cbv beta iota delta [opt].
  destruct (symbol t "umem_ready"); [|by eexists].
  wstep. destruct (ok _); [|by eexists]. destruct (negb _); [by eexists|].
  wstep. destruct (symbol t "umem_null_cache") as [anchor|]; [|by eexists].
  wstep. destruct (walk_caches_spec t l Hlay anchor (walk_new l)) as (o & w & -> & Hw);
    [apply walk_inv_new|done|].
  destruct o as [[]|]; cbv beta iota; [|by eexists].
  wstep. wstep. wstep. set (w0 := set_stats _ w).
  destruct (drop_overlaps_spec (set_slabs (sort_slabs (w_slabs w0)) w0)) as (w1 & Hd & Hw1 & Hwf1).
  { by apply walk_inv_sort, walk_inv_stats. }
  rewrite Hd. cbv beta iota.
  wstep. destruct (walk_ptc_spec t w1 Hw1 Hwf1) as (w2 & -> & Hw2 & Hwf2). cbv beta iota.
  wstep. destruct (fold_parked_spec w2 Hw2 Hwf2) as (kept & w3 & -> & [Hix Hcnt Hk Hsrt _ _] & Ha & Hsg).
  cbv beta iota. wstep.
  destruct (walk_arenas_spec w3 Ha Hsg) as (arenas & segs & st & -> & Hao). cbv beta iota.
  wstep. wstep. eexists. split; [reflexivity|].
  intros h [= <-]. destruct (arenas_ok_sort _ _ Hao) as [Hs Hc].
  split; simpl; try done. apply sort_segs_sorted.
Qed.
End arenas.

Lemma build_spec `{Target T} (t : T) :
  ∃ o, build t = Ret o ∧ ∀ h, o = Some h → heap_ok h.
Proof.
  unfold build. simpl. destruct (run_spec t LP64 LP64_ok) as (o & -> & Ho).
  rewrite outcome_bind_eq. destruct o as [h|]; by eexists.
Qed.
