(* ===== verification/UmemDemo.v ===== *)
(** A small target with a libumem heap, as a recording would hold it: one cache
    of one slab with four chunks, the first on the freelist, the second handed
    out under a malloc header, the third in a CPU's magazine, the fourth handed
    out; and the oversize arena with one segment handed out and one free.  The
    witnesses of the umem theorems apply them here. *)

From S2P Require Import Prelude Target Snapshot Text Umem UmemWalk.

Local Open Scope Z_scope.

Definition word (a : Z) (n : nat) (v : Z) : Segment := mkSegment a (to_le_bytes n v).

Definition text32 (a : Z) (s : string) : Segment :=
  let bs := bytes_of_string s in
  mkSegment a (bs ++ replicate (32 - length bs) Byte.x00).

(** The addresses: the cache anchor, the cache, its slab, its data, a magazine,
    the arena and its segments. *)
Definition at_null : Z := 1000.
Definition at_cache : Z := 2000.
Definition at_slab : Z := 3000.
Definition at_data : Z := 4000.
Definition at_mag : Z := 5000.
Definition at_vmem : Z := 6000.
Definition at_seg (i : Z) : Z := 7000 + 100 * i.

Definition slab_words : Segment :=
  mkSegment at_slab (flat_map (to_le_bytes 8)
    [at_cache; at_data; at_cache + 352; at_cache + 352; at_data + 24; 3; 4; 0]).

Definition seg_words (i start end_ next prev kind : Z) : list Segment :=
  [word (at_seg i) 8 start; word (at_seg i + 8) 8 end_; word (at_seg i + 32) 8 next;
   word (at_seg i + 40) 8 prev; word (at_seg i + 48) 1 kind].

Definition demo_words : list Segment :=
  [word 500 4 3; word 600 8 at_vmem;
   word (at_null + 192) 8 at_cache;
   text32 (at_cache + 88) "umem_alloc_24";
   word (at_cache + 120) 8 24; word (at_cache + 180) 4 0;
   word (at_cache + 192) 8 at_null; word (at_cache + 200) 8 at_null;
   word (at_cache + 224) 4 0;
   word (at_cache + 256) 8 32; word (at_cache + 264) 8 128; word (at_cache + 272) 8 24;
   word (at_cache + 368) 8 at_slab; word (at_cache + 376) 8 at_slab;
   word (at_cache + 456) 8 0; word (at_cache + 464) 8 0;
   word (at_cache + 568) 8 at_mag; word (at_cache + 584) 4 1;
   word (at_cache + 588) 4 0; word (at_cache + 592) 4 3;
   slab_words;
   word (at_data + 24) 8 0;
   word (at_data + 32) 4 20; word (at_data + 36) 4 (MALLOC_MAGIC - 20);
   word (at_mag + 8) 8 (at_data + 64);
   text32 at_vmem "umem_oversize";
   word (at_vmem + 184 + 32) 8 (at_seg 0)] ++
  seg_words 0 10000 14096 (at_seg 1) (at_vmem + 184) 16 ++
  seg_words 1 10000 12048 (at_seg 2) (at_seg 0) 1 ++
  seg_words 2 12048 14096 (at_vmem + 184) (at_seg 1) 2.

Definition demo_symbol (name : string) (value : Z) : string * option SymbolBuf :=
  ((LIBUMEM +:+ "`" +:+ name)%string, Some (mkSymbol name 0 0 0 0 value 8)).

Definition demo_target : Snapshot :=
  mkSnapshot (sort_by (λ a b, addr a <=? addr b) demo_words) [] [] ∅
    (list_to_map [demo_symbol "umem_ready" 500; demo_symbol "umem_null_cache" at_null;
                  demo_symbol "umem_oversize_arena" 600])
    ∅ [] [] None Available None.

(** The same with the arena's segments on two spans that overlap. *)
Definition torn_words : list Segment :=
  filter (λ s, addr s < 7000) demo_words ++
  seg_words 0 10000 14096 (at_seg 1) (at_vmem + 184) 16 ++
  seg_words 1 10000 14096 (at_seg 2) (at_seg 0) 1 ++
  seg_words 2 12048 15000 (at_seg 3) (at_seg 1) 16 ++
  seg_words 3 12048 15000 (at_vmem + 184) (at_seg 2) 1.

Definition torn_target : Snapshot :=
  mkSnapshot (sort_by (λ a b, addr a <=? addr b) torn_words) [] [] ∅
    (by_name demo_target) ∅ [] [] None Available None.

Definition heap_of (o : outcome (option UmemHeap)) : UmemHeap :=
  match o with
  | Ret (Some h) => h
  | _ => mkUmemHeap [] [] [] [] [] (Range 0 0) (Stats_default EmptyString)
  end.

Definition demo_heap : UmemHeap := Eval vm_compute in heap_of (build demo_target).
Definition torn_heap : UmemHeap := Eval vm_compute in heap_of (build torn_target).

Lemma demo_build : build demo_target = Ret (Some demo_heap).
Proof. vm_compute. reflexivity. Qed.

Lemma torn_build : build torn_target = Ret (Some torn_heap).
Proof. vm_compute. reflexivity. Qed.
