(* ===== verification/UmemTheorems.v ===== *)
(** What a build of libumem's index promises, on every target: it ends without a
    panic, the index it gives passes its own checks of slabs, counts and parked
    buffers, and [locate], the enumerations and the counts agree on one
    partition of the chunks.  Last, the tag in front of a [malloc]ed pointer. *)

From S2P Require Import Prelude Target Snapshot Text Umem UmemWalk UmemFacts UmemIndexFacts UmemWalkFacts UmemParkedFacts UmemDemo.

Local Open Scope Z_scope.

(** ** Lemmas *)

(** The totals of the caches are the total of the slabs. *)
Lemma total_all f slabs n :
  Forall (λ s, 0 <= sl_cache s < Z.of_nat n) slabs →
  sum_Z ((λ i, total f i slabs) <$> seq 0 n) = sum_Z (f <$> slabs).
Proof.
  induction 1 as [|s slabs Hs _ IH].
  - induction (seq 0 n) as [|i k IHk]; [done|]. exact IHk.
  - rewrite fmap_cons. cbn [sum_Z foldr]. fold (sum_Z (f <$> slabs)). rewrite <- IH.
    assert (∀ k, NoDup k → sum_Z ((λ i, total f i (s :: slabs)) <$> k) =
      (if bool_decide (Z.to_nat (sl_cache s) ∈ k) then f s else 0) +
      sum_Z ((λ i, total f i slabs) <$> k)) as H.
    { induction 1 as [|i k Hi Hk IHk]; [done|].
      rewrite !fmap_cons. cbn [sum_Z foldr].
      fold (sum_Z ((λ i, total f i (s :: slabs)) <$> k)) (sum_Z ((λ i, total f i slabs) <$> k)).
      rewrite IHk, total_cons.
      destruct (decide (Z.to_nat (sl_cache s) = i)) as [<-|Hne].
      - rewrite (bool_decide_true (sl_cache s = _)) by lia.
        rewrite (bool_decide_false (_ ∈ k)) by done.
        rewrite (bool_decide_true (_ ∈ _ :: k)) by left. lia.
      - rewrite (bool_decide_false (sl_cache s = _)) by lia.
        rewrite (bool_decide_ext (_ ∈ i :: k) (Z.to_nat (sl_cache s) ∈ k)); [lia|].
        rewrite elem_of_cons. tauto. }
    rewrite H by apply NoDup_seq. rewrite bool_decide_true; [done|].
    apply elem_of_seq. lia.
Qed.

Lemma sum_by_index {A} (l : list A) (g : A → Z) (F : nat → Z) :
  (∀ i x, l !! i = Some x → g x = F i) →
  sum_Z (g <$> l) = sum_Z (F <$> seq 0 (length l)).
Proof.
  intros H. f_equal. apply list_eq. intros i. rewrite !list_lookup_fmap.
  destruct (l !! i) as [x|] eqn:E.
  - rewrite lookup_seq_lt by (by eapply lookup_lt_Some). simpl. f_equal. auto.
  - rewrite lookup_seq_ge by (by apply lookup_ge_None). done.
Qed.

(** Checking the arenas never indexes out of range and never finds a count
    wrong: it reports the overlaps and the segments inside slabs, no more. *)
Definition overlap_reports (h : UmemHeap) : list string :=
  flat_map (λ p : Seg * Seg,
    if sg_start p.2 <? sg_end p.1 then
      [("segments at " +:+ hex (sg_start p.1) +:+ " and " +:+ hex (sg_start p.2)
          +:+ " overlap")%string]
    else []) (windows2 (h_segs h)).

Definition inside_report (h : UmemHeap) (g : Seg) : list string :=
  match slab_at (h_slabs h) (sg_start g) with
  | Some _ => [("the segment at " +:+ hex (sg_start g) +:+ " is inside a walked slab")%string]
  | None => []
  end.

Lemma seg_count_cons i live g segs :
  seg_count i live (g :: segs) = (if seg_live i live g then 1 else 0) + seg_count i live segs.
Proof.
  unfold seg_count. rewrite filter_cons. destruct (seg_live i live g); simpl length; simpl; lia.
Qed.

Lemma arena_loop h segs out counted :
  Forall (λ g, 0 <= sg_arena g < Z.of_nat (length counted)) segs →
  ∃ counted', for_each (arena_violation (h_slabs h)) (out, counted) segs =
      Ret (out ++ flat_map (inside_report h) segs, counted') ∧
    length counted' = length counted ∧
    ∀ i c, counted !! i = Some c → is_u64 c.1 → is_u64 c.2 → counted' !! i =
      Some (u64_add c.1 (seg_count i true segs), u64_add c.2 (seg_count i false segs)).
Proof.
  intros Hs. revert out counted Hs. induction segs as [|g segs IH]; intros out counted Hs.
  { exists counted. rewrite app_nil_r. do 2 (split; [done|]). intros i [a b] Hc Ha Hb.
    rewrite Hc. unfold seg_count. simpl in *.
    rewrite !u64_add_small, !Z.add_0_r by (by rewrite Z.add_0_r). done. }
  apply Forall_cons in Hs as [Hg Hs].
  destruct (lookup_lt_is_Some_2 counted (Z.to_nat (sg_arena g))) as [[a b] Hc]; [lia|].
  set (c' := if sg_live g then (u64_add a 1, b) else (a, u64_add b 1)).
  destruct (IH (out ++ inside_report h g) (<[Z.to_nat (sg_arena g) := c']> counted))
    as (counted' & Hr & Hlen & Hx).
  { rewrite length_insert. done. }
  exists counted'. cbn [for_each].
  assert (arena_violation (h_slabs h) (out, counted) g =
          Ret (out ++ inside_report h g, <[Z.to_nat (sg_arena g) := c']> counted)) as ->.
  { unfold arena_violation, inside_report, c'. rewrite Hc. cbn [or_panic].
    rewrite outcome_bind_eq. cbv beta iota zeta. do 2 f_equal.
    destruct (slab_at _ _); [done|by rewrite app_nil_r]. }
  rewrite outcome_bind_eq. cbv beta iota. rewrite Hr. simpl flat_map. rewrite app_assoc.
  split; [done|]. split; [by rewrite Hlen, length_insert|].
  intros i [x y] Hi Hxu Hyu. rewrite !seg_count_cons.
  destruct (decide (Z.to_nat (sg_arena g) = i)) as [<-|Hne].
  - rewrite Hc in Hi. injection Hi as -> ->. unfold seg_live.
    replace (sg_arena g =? Z.of_nat (Z.to_nat (sg_arena g))) with true by (symmetry; zb; lia).
    rewrite (Hx (Z.to_nat (sg_arena g)) c').
    + unfold c'. destruct (sg_live g); simpl; by rewrite u64_add_assoc.
    + apply list_lookup_insert_eq. by apply lookup_lt_Some in Hc.
    + unfold c'. destruct (sg_live g); simpl; auto using u64_add_range.
    + unfold c'. destruct (sg_live g); simpl; auto using u64_add_range.
  - unfold seg_live. replace (sg_arena g =? Z.of_nat i) with false by (symmetry; zb; lia).
    simpl. apply (Hx i (x, y)); [by rewrite list_lookup_insert_ne|done|done].
Qed.

Lemma arena_violations_eq h :
  heap_ok h → arena_violations h = Ret (overlap_reports h ++ flat_map (inside_report h) (h_segs h)).
Proof.
  intros Hok. unfold arena_violations. fold (overlap_reports h).
  destruct (arena_loop h (h_segs h) (overlap_reports h) (replicate (length (h_arenas h)) (0, 0)))
    as (counted & -> & Hlen & Hx).
  { rewrite length_replicate. eapply Forall_impl; [apply (hk_segs h Hok)|]. by intros g []. }
  rewrite outcome_bind_eq. cbv beta iota. apply for_each_same.
  intros [i a] Hi%elem_of_indexed. cbn [fst snd].
  assert (replicate (length (h_arenas h)) (0, 0) !! i = Some (0, 0)) as H0.
  { apply lookup_replicate_2. by eapply lookup_lt_Some. }
  rewrite (Hx _ _ H0) by done. cbn [or_panic]. rewrite outcome_bind_eq. cbv beta iota.
  destruct (hk_seg_counts h Hok i a Hi) as [-> ->]. simpl.
  unfold u64_add. by rewrite !Z.add_0_l, !Z.eqb_refl.
Qed.

Lemma shown_total_freed h i :
  heap_ok h → total (shown false) i (h_slabs h) =
  total freed_chunks i (h_slabs h) + total parked_chunks i (h_slabs h).
Proof.
  intros Hok. pose proof (hk_index h Hok) as [_ Hgeo _].
  induction Hgeo as [|s slabs Hg Hgeo IH]; [done|]. rewrite !total_cons, IH, shown_freed by done.
  unfold freed_chunks, parked_chunks. case_bool_decide; lia.
Qed.

Lemma slabs_in_range h :
  heap_ok h → Forall (λ s, 0 <= sl_cache s < Z.of_nat (length (h_caches h))) (h_slabs h).
Proof.
  intros Hok. pose proof (hk_index h Hok) as [_ Hgeo Hin].
  rewrite Forall_forall in Hgeo, Hin. apply Forall_forall. intros s Hs.
  pose proof (sg_cache s (Hgeo s Hs)). pose proof (slab_cache_lt _ _ (Hin s Hs)). lia.
Qed.

Lemma buffers_spec h live :
  heap_ok h →
  ∃ bs, buffers h live = Ret bs ∧
    (∀ b, b ∈ bs ↔ ∃ ci, is_buffer h live b ci) ∧
    Z.of_nat (length bs) = sum_Z ((λ i, total (shown live) i (h_slabs h)) <$>
                                    seq 0 (length (h_caches h))) ∧
    intervals_wf r_start r_end bs.
Proof.
  intros Hok. pose proof (hk_index h Hok) as [Hwf Hgeo Hin].
  destruct (buffers_of_spec (h_caches h) (h_slabs h) live Hgeo Hin) as (bs & Hbs & Hmem & Hlen & Hord).
  exists bs. split; [done|]. split_and!.
  - intros b. rewrite Hmem. unfold is_buffer. split.
    + intros (s & i & c & Hs & Hi & Hc & Hh & ->). exists (sl_cache s), s, i, c. done.
    + intros (ci & s & i & c & Hs & Hi & <- & Hc & Hh & ->). by exists s, i, c.
  - rewrite total_all; [done|]. by apply slabs_in_range.
  - by apply Hord.
Qed.

(** ** Properties *)

(** C32: building the index never panics: whatever the target's memory, symbols
    and threads hold, the walk ends with an index or a decline. *)
Theorem build_never_panics `{Target T} (t : T) : build t ≠ Panic.
Proof. destruct (build_spec t) as (o & -> & _). done. Qed.

(** C31: the index a build gives, from any target, passes its own checks: no two
    slabs overlap, every cache's live, freed and parked counts are those of its
    slabs, and every parked buffer is a marked, allocated chunk held once.  All
    that [violations] can report are the arenas' overlaps. *)
Theorem build_consistent `{Target T} (t : T) (h : UmemHeap) :
  build t = Ret (Some h) →
  slab_violations h = Ret [] ∧ parked_violations h = Ret [] ∧
  violations h = Ret (overlap_reports h ++ flat_map (inside_report h) (h_segs h)).
Proof.
  intros Hb. destruct (build_spec t) as (o & Ho & Hok). rewrite Hb in Ho. injection Ho as <-.
  specialize (Hok h eq_refl). unfold violations.
  rewrite slab_violations_nil, parked_violations_nil, arena_violations_eq by done. done.
Qed.

(** C30: [locate] and the enumerations are one reading: an address is in a live
    (a freed) cache buffer of the enumeration exactly when [locate] says so, with
    that buffer, and [locate] never panics. *)
Theorem locate_enumerates `{Target T} (t : T) (h : UmemHeap) (a : Z) (live : bool) :
  build t = Ret (Some h) →
  ∃ bs v, buffers h live = Ret bs ∧ locate h a = Ret v ∧
    ∀ b, (b ∈ bs ∧ range_contains b a = true) ↔
         ∃ ci, v = (if live then Live else Freed) b (SourceCache ci).
Proof.
  intros Hb. destruct (build_spec t) as (o & Ho & Hok). rewrite Hb in Ho. injection Ho as <-.
  specialize (Hok h eq_refl). destruct (buffers_spec h live Hok) as (bs & Hbs & Hmem & _).
  pose proof (hk_index h Hok) as Hix. destruct (locate_total h Hix a) as [v Hv].
  exists bs, v. do 2 (split; [done|]). intros b. rewrite Hmem. split.
  - intros [[ci Hbuf] Ha]. exists ci. pose proof (locate_buffer h Hix a live b ci Hbuf Ha). congruence.
  - intros [ci ->]. destruct (locate_inv h Hix a _ Hv) as [(lv & b' & ci' & Heq & Hbuf & Ha)|[[Heq _]|[_ Heq]]].
    + destruct lv, live; try done; injection Heq as -> ->; eauto.
    + by destruct live.
    + unfold locate_in_arena in Heq. by destruct live; repeat case_match.
Qed.

(** The live and the freed buffers partition the chunks of the index: each
    enumeration is in address order with no two buffers meeting, no address is in
    a buffer of both, and their lengths are the caches' own counts. *)
Theorem enumerations_partition `{Target T} (t : T) (h : UmemHeap) :
  build t = Ret (Some h) →
  ∃ ls fs, live_buffers h = Ret ls ∧ freed_buffers h = Ret fs ∧
    intervals_wf r_start r_end ls ∧ intervals_wf r_start r_end fs ∧
    (∀ a b b', b ∈ ls → b' ∈ fs → range_contains b a = true → range_contains b' a = false) ∧
    Z.of_nat (length ls) = sum_Z (ca_live <$> h_caches h) ∧
    Z.of_nat (length fs) = sum_Z ((λ c, ca_freed c + ca_parked c) <$> h_caches h).
Proof.
  intros Hb. destruct (build_spec t) as (o & Ho & Hok). rewrite Hb in Ho. injection Ho as <-.
  specialize (Hok h eq_refl).
  destruct (buffers_spec h true Hok) as (ls & Hls & Hmem & Hlen & Hwf).
  destruct (buffers_spec h false Hok) as (fs & Hfs & Hmem' & Hlen' & Hwf').
  exists ls, fs. do 4 (split; [done|]). split_and!.
  - intros a b b' [ci Hbuf]%Hmem [ci' Hbuf']%Hmem' Ha.
    destruct (range_contains b' a) eqn:Ha'; [|done]. pose proof (hk_index h Hok) as Hix.
    pose proof (locate_buffer h Hix a true b ci Hbuf Ha).
    pose proof (locate_buffer h Hix a false b' ci' Hbuf' Ha'). congruence.
  - rewrite Hlen. symmetry. apply sum_by_index. intros i c Hc. by apply (hk_counts h Hok i c Hc).
  - rewrite Hlen'. symmetry. apply sum_by_index. intros i c Hc.
    destruct (hk_counts h Hok i c Hc) as (_ & -> & ->). by rewrite shown_total_freed.
Qed.

(** Every parked address is a whole buffer the index calls freed, and the
    parked addresses are strictly increasing. *)
Theorem parked_are_freed `{Target T} (t : T) (h : UmemHeap) :
  build t = Ret (Some h) →
  StronglySorted Z.lt (h_parked h) ∧
  ∀ a, a ∈ h_parked h → ∃ b ci, locate h a = Ret (Freed b (SourceCache ci)) ∧ r_start b = a.
Proof.
  intros Hb. destruct (build_spec t) as (o & Ho & Hok). rewrite Hb in Ho. injection Ho as <-.
  specialize (Hok h eq_refl). split; [apply (hk_sorted h Hok)|].
  intros a Ha. apply (elem_of_parked h Hok) in Ha as (s & Hs & Ha).
  pose proof (hk_index h Hok) as Hix. pose proof Hix as [Hwf Hgeo Hin].
  rewrite Forall_forall in Hgeo, Hin.
  apply elem_of_parked_bases in Ha as (i & Hi & Hp & ->); [|auto].
  destruct (slab_in_cache _ _ (Hin s Hs)) as (c & Hc & _ & Hbs).
  exists (chunk_buffer s i (ca_bufsize c)), (sl_cache s). split; [|done].
  apply (locate_buffer h Hix _ false).
  - exists s, i, c. do 4 (split; [done|]). split; [|done]. unfold is_held. rewrite Hp.
    by rewrite orb_true_r.
  - apply range_contains_spec. simpl. lia.
Qed.

(** A slab is believed only when its freelist accounts for its reference
    count: it names the cache it was reached from, its chunks tile the slab below
    the end of the address space, and its freed chunks are the ones not
    referenced. *)
Theorem read_slab_cross_checked `{Target T} (t : T) (addr cache_addr index : Z)
    (cache : Cache) (s : Slab) :
  0 < ca_chunksize cache → 0 <= index →
  read_slab t LP64 addr cache_addr cache index = Ret (Some s) →
  slab_from t LP64 addr cache_addr cache index s.
Proof.
  intros Hcs Hi Hr. destruct (read_slab_spec t LP64 LP64_ok addr cache_addr cache index Hcs Hi)
    as (r & Hr' & Hs). rewrite Hr in Hr'. injection Hr' as <-. by apply Hs.
Qed.

(** ** The arenas *)

Lemma flat_map_nil_inv {A B} (f : A → list B) l x : flat_map f l = [] → x ∈ l → f x = [].
Proof.
  induction l as [|y l IH]; [by intros _ ?%elem_of_nil|]. simpl.
  intros [Hy Hl]%app_eq_nil [->|Hx]%elem_of_cons; [done|by apply IH].
Qed.

Lemma segs_wf h :
  heap_ok h → overlap_reports h = [] → intervals_wf sg_start sg_end (h_segs h).
Proof.
  intros Hok Hnone. split.
  2: { eapply Forall_impl; [apply (hk_segs h Hok)|]. simpl. lia. }
  assert (StronglySorted (λ a b, sg_end a <= sg_start b ∧ sg_start b < sg_end b) (h_segs h)) as Hs.
  { apply Sorted_StronglySorted; [intros a b c ??; lia|]. apply windows2_sorted.
    intros [a b] Hp. pose proof (flat_map_nil_inv _ _ _ Hnone Hp) as Hr. simpl in *.
    case_match eqn:E; [done|]. zb. split; [done|].
    assert (b ∈ h_segs h) as Hb.
    { clear -Hp. induction (h_segs h) as [|x [|y k] IH]; cbn [windows2] in Hp;
        try by apply elem_of_nil in Hp.
      apply elem_of_cons in Hp as [[= -> ->]|Hp]; [right; left|right; auto]. }
    pose proof (hk_segs h Hok) as Hse. rewrite Forall_forall in Hse. apply Hse in Hb. lia. }
  clear -Hs. induction Hs as [|a k Hs IH Ha]; constructor; [done|].
  eapply Forall_impl; [exact Ha|]. by intros b [].
Qed.

Lemma head_lower {A} (lo hi : A → Z) l f a :
  intervals_wf lo hi l → head l = Some f → a ∈ l → lo f <= lo a.
Proof.
  intros Hwf Hf Ha. destruct l as [|x l]; [done|]. simpl in Hf. simplify_eq.
  apply intervals_wf_cons in Hwf as (Hne & Hall & _). rewrite Forall_forall in Hall.
  apply elem_of_cons in Ha as [->|Ha]; [lia|]. specialize (Hall a Ha). lia.
Qed.

Lemma last_upper {A} (lo hi : A → Z) l f a :
  intervals_wf lo hi l → last l = Some f → a ∈ l → hi a <= hi f.
Proof.
  intros Hwf Hf [i Hi]%list_elem_of_lookup. rewrite last_lookup in Hf.
  destruct (decide (i = pred (length l))) as [->|Hne]; [simplify_eq; lia|].
  pose proof (lookup_lt_Some _ _ _ Hi).
  pose proof (intervals_before lo hi l i (pred (length l)) a f Hwf Hi Hf ltac:(lia)).
  destruct Hwf as [_ Hall]. rewrite Forall_lookup in Hall. specialize (Hall _ _ Hf). simpl in Hall. lia.
Qed.

Lemma locate_in_arena_spec h a v :
  heap_ok h → overlap_reports h = [] →
  locate_in_arena h a = v →
  (v = Unknown ∧ ∀ g, g ∈ h_segs h → ¬ sg_start g <= a < sg_end g) ∨
  ∃ g, g ∈ h_segs h ∧ sg_start g <= a < sg_end g ∧
    v = (if sg_live g then Live else Freed) (Range (sg_start g) (sg_end g)) (SourceArena (sg_arena g)).
Proof.
  intros Hok Hnone <-. pose proof (segs_wf h Hok Hnone) as Hwf. unfold locate_in_arena.
  destruct (negb _) eqn:Espan.
  { left. split; [done|]. intros g Hg Ha. apply negb_true_iff in Espan.
    assert (range_contains (h_arena_span h) a = true); [|congruence].
    rewrite range_contains_spec, (hk_span h Hok).
    destruct (head (h_segs h)) as [f|] eqn:Ef; [|by destruct (h_segs h); [apply elem_of_nil in Hg|]].
    destruct (last (h_segs h)) as [e|] eqn:Ee;
      [|by apply last_None in Ee; rewrite Ee in Hg; apply elem_of_nil in Hg].
    simpl. pose proof (head_lower _ _ _ _ _ Hwf Ef Hg). pose proof (last_upper _ _ _ _ _ Hwf Ee Hg). lia. }
  pose proof (λ i, interval_index_Some sg_start sg_end (h_segs h) a i Hwf) as Hix.
  unfold interval_index in Hix.
  destruct (partition_point _ _) as [|n].
  { left. split; [done|]. intros g [i Hi]%list_elem_of_lookup Ha.
    pose proof (proj2 (Hix i) (ex_intro _ g (conj Hi Ha))). done. }
  destruct (h_segs h !! n) as [g|] eqn:Eg; simpl in Hix.
  - destruct (a <? sg_end g) eqn:E; rewrite ?E in Hix.
    + right. exists g. destruct (proj1 (Hix n) eq_refl) as (g' & Hg' & Ha). simplify_eq.
      split; [by eapply list_elem_of_lookup_2|]. split; [done|]. by destruct (sg_live g).
    + left. split; [done|]. intros g' [i Hi]%list_elem_of_lookup Ha.
      pose proof (proj2 (Hix i) (ex_intro _ g' (conj Hi Ha))). done.
  - left. split; [done|]. intros g' [i Hi]%list_elem_of_lookup Ha.
    pose proof (proj2 (Hix i) (ex_intro _ g' (conj Hi Ha))). done.
Qed.

(** Where the checks report no overlapping segments, an address outside the
    slabs is located by the arenas exactly: it is in an extent of
    [arena_extents] if and only if [locate] gives that extent with that
    verdict. *)
Theorem locate_arena_exact `{Target T} (t : T) (h : UmemHeap) (a : Z) (live : bool) (b : range) :
  build t = Ret (Some h) → overlap_reports h = [] → slab_at (h_slabs h) a = None →
  (b ∈ arena_extents h live ∧ range_contains b a = true) ↔
  ∃ i, locate h a = Ret ((if live then Live else Freed) b (SourceArena i)).
Proof.
  intros Hb Hnone Hslab. destruct (build_spec t) as (o & Ho & Hok). rewrite Hb in Ho.
  injection Ho as <-. specialize (Hok h eq_refl). rewrite locate_no_slab by done.
  pose proof (segs_wf h Hok Hnone) as Hwf. unfold arena_extents. rewrite list_elem_of_fmap.
  destruct (locate_in_arena_spec h a _ Hok Hnone eq_refl) as [[-> Hno]|(g & Hg & Ha & ->)].
  - split; [|by destruct live; intros [? ?]].
    intros [(g & -> & [_ Hg]%list_elem_of_filter) Ha%range_contains_spec]. by destruct (Hno g Hg).
  - split.
    + intros [(g' & -> & [Hlive Hg']%list_elem_of_filter) Ha'%range_contains_spec]. simpl in Ha'.
      apply list_elem_of_lookup in Hg as [i Hi], Hg' as [j Hj].
      pose proof (intervals_unique _ _ _ _ _ _ _ _ Hwf Hi Hj Ha Ha') as <-. simplify_eq.
      exists (sg_arena g). apply eqb_prop in Hlive. by rewrite Hlive.
    + intros [i Heq]. assert (sg_live g = live ∧ b = Range (sg_start g) (sg_end g)) as [Hlive ->].
      { destruct (sg_live g), live; simplify_eq; done. }
      split; [|by apply range_contains_spec]. exists g. split; [done|].
      apply list_elem_of_filter. split; [|done]. rewrite Hlive. by destruct live.
Qed.

(** A core whose arena lists two overlapping spans is indexed as it is: the
    segments of a build need not be disjoint, and the check says so. *)
Lemma overlapping_segments_kept :
  build torn_target = Ret (Some torn_heap) ∧
  violations torn_heap = Ret ["segments at 0x2710 and 0x2f10 overlap"%string].
Proof. split; [exact torn_build|vm_compute; reflexivity]. Qed.

(** ** Witnesses *)

Lemma build_consistent_witness :
  slab_violations demo_heap = Ret [] ∧ violations demo_heap = Ret [].
Proof.
  destruct (build_consistent demo_target demo_heap demo_build) as (Hs & _ & Hv).
  split; [exact Hs|]. rewrite Hv. vm_compute. reflexivity.
Defined.

Lemma locate_enumerates_witness :
  ∃ v, locate demo_heap 4040 = Ret v ∧
    (Range 4032 4056 ∈ [Range 4032 4056; Range 4096 4120] ∧
     range_contains (Range 4032 4056) 4040 = true ↔
     ∃ ci, v = Live (Range 4032 4056) (SourceCache ci)).
Proof.
  destruct (locate_enumerates demo_target demo_heap 4040 true demo_build)
    as (bs & v & Hbs & Hv & Hiff).
  exists v. split; [exact Hv|]. vm_compute in Hbs. injection Hbs as <-. apply Hiff.
Defined.

Lemma enumerations_partition_witness :
  ∃ ls fs, live_buffers demo_heap = Ret ls ∧ freed_buffers demo_heap = Ret fs ∧
    Z.of_nat (length ls) = 2 ∧ Z.of_nat (length fs) = 2.
Proof.
  destruct (enumerations_partition demo_target demo_heap demo_build)
    as (ls & fs & Hl & Hf & _ & _ & _ & Hnl & Hnf).
  exists ls, fs. split; [exact Hl|]. split; [exact Hf|]. rewrite Hnl, Hnf. split; reflexivity.
Defined.

Lemma parked_are_freed_witness :
  ∃ b ci, locate demo_heap 4064 = Ret (Freed b (SourceCache ci)) ∧ r_start b = 4064.
Proof.
  apply (proj2 (parked_are_freed demo_target demo_heap demo_build)). left.
Defined.

Definition demo_cache : Cache :=
  mkCache at_cache "umem_alloc_24" 24 32 128 0 0 0 0 0 0 false 24.

Lemma read_slab_cross_checked_witness :
  ∃ s, read_slab demo_target LP64 at_slab at_cache demo_cache 0 = Ret (Some s) ∧
    slab_from demo_target LP64 at_slab at_cache demo_cache 0 s.
Proof.
  exists (mkSlab 4000 32 4 0 [1] []). split; [vm_compute; reflexivity|].
  apply read_slab_cross_checked; [reflexivity|vm_compute; congruence|vm_compute; reflexivity].
Defined.

Lemma locate_arena_exact_witness :
  ∃ i, locate demo_heap 13000 = Ret (Freed (Range 12048 14096) (SourceArena i)).
Proof.
  apply (locate_arena_exact demo_target demo_heap 13000 false (Range 12048 14096) demo_build);
    [reflexivity|reflexivity|]. split; [left|reflexivity].
Defined.

(** ** The encoding

    A header's second word is a magic with the size subtracted out; a size past
    32 bits rides in a tag of its own. *)
Definition seal (magic size : Z) : Z := (magic - size) `mod` W32.

Definition tag_bytes (k : TagKind) : Z :=
  match k with Malloc => 8 | Second | Oversize | Memalign => 16 end.

Definition tag_magic (k : TagKind) : Z :=
  match k with
  | Malloc => MALLOC_MAGIC
  | Second => MALLOC_SECOND_MAGIC
  | Oversize => MALLOC_OVERSIZE_MAGIC
  | Memalign => MEMALIGN_MAGIC
  end.

(** The magic of the high word's tag, where the spelling has one. *)
Definition high_magic (k : TagKind) : option Z :=
  match k with
  | Malloc | Second => None
  | Oversize => Some MALLOC_MAGIC
  | Memalign => Some MEMALIGN_MAGIC
  end.

Definition tagged_at `{Target T} (t : T) (ptr : Z) (k : TagKind) (total : Z) : Prop :=
  read_u32 t (ptr - 8) = Ok (total `mod` W32) ∧
  read_u32 t (ptr - 4) = Ok (seal (tag_magic k) (total `mod` W32)) ∧
  match high_magic k with
  | None => 0 <= total < W32
  | Some magic =>
      0 <= total < W64 ∧ read_u32 t (ptr - 16) = Ok (total / W32) ∧
      read_u32 t (ptr - 12) = Ok (seal magic (total / W32))
  end.

(** ** Lemmas *)

Lemma seal_iff magic size status :
  0 <= magic < W32 → is_u32 status →
  u32_add status size = magic ↔ status = seal magic size.
Proof.
  intros Hm Hs. unfold u32_add, seal, is_u32 in *. split.
  - intros <-. rewrite Zminus_mod_idemp_l. replace (status + size - size) with status by lia.
    by rewrite Z.mod_small.
  - intros ->. rewrite Zplus_mod_idemp_l. replace (magic - size + size) with magic by lia.
    by apply Z.mod_small.
Qed.

Lemma low_word_high_bits low n : 0 <= low < W32 → 32 <= n → Z.testbit low n = false.
Proof.
  intros Hl Hn. rewrite <- (Z.mod_small low (2 ^ 32)) by done. by apply Z.mod_pow2_bits_high.
Qed.

Lemma lor_words high low :
  0 <= high → 0 <= low < W32 → Z.lor (Z.shiftl high 32) low = high * W32 + low.
Proof.
  intros Hh Hl.
  assert (Z.land (Z.shiftl high 32) low = 0) as E.
  { apply Z.bits_inj'. intros n Hn. rewrite Z.land_spec, Z.bits_0, Z.shiftl_spec by done.
    destruct (Z.ltb_spec n 32).
    - by rewrite Z.testbit_neg_r by lia.
    - by rewrite (low_word_high_bits low n), andb_false_r by lia. }
  pose proof (Z.add_lor_land (Z.shiftl high 32) low) as Ha.
  rewrite E, Z.shiftl_mul_pow2 in * by lia. change (2 ^ 32) with W32 in *. lia.
Qed.

Lemma split_word total : 0 <= total → total / W32 * W32 + total `mod` W32 = total.
Proof. intros. pose proof (Z.div_mod total W32 ltac:(lia)). lia. Qed.

Section tag.
Context `{Target T} (t : T) (ptr : Z) (Hptr : 16 <= ptr < W64).

Lemma wide_spec size magic base total :
  0 <= magic < W32 → 0 <= size < W32 →
  wide t ptr size magic = Some (base, total) ↔
  base = ptr - 16 ∧ 0 <= total < W64 ∧ total `mod` W32 = size ∧
  read_u32 t (ptr - 16) = Ok (total / W32) ∧
  read_u32 t (ptr - 12) = Ok (seal magic (total / W32)).
Proof.
  intros Hm Hs. unfold wide, checked_sub. rewrite (proj2 (Z.leb_le 16 ptr)) by lia. simpl.
  rewrite u64_add_small by (unfold is_u64; lia). replace (ptr - 16 + 4) with (ptr - 12) by lia.
  destruct (read_u32 t (ptr - 16)) as [high|] eqn:Eh; simpl; [|naive_solver].
  pose proof (read_u32_range t _ _ Eh) as Hh. unfold is_u32 in Hh.
  destruct (read_u32 t (ptr - 12)) as [status|] eqn:Es; simpl; [|naive_solver].
  pose proof (read_u32_range t _ _ Es) as Hst.
  rewrite lor_words by lia. split.
  - destruct (_ =? magic) eqn:E; [|done]. zb. apply seal_iff in E; [|done..].
    intros [= <- <-]. split; [done|].
    rewrite Z.div_add_l, (Z.div_small size), Z.add_0_r by lia.
    rewrite Z.add_comm, Z_mod_plus_full, Z.mod_small by lia. rewrite E. split; [lia|done].
  - intros (-> & Ht & Hsz & [= Ehigh] & [= ->]).
    assert (u32_add (seal magic (total / W32)) high = magic) as E.
    { apply seal_iff; [done|done|]. by rewrite Ehigh. }
    rewrite E, Z.eqb_refl. do 2 f_equal. rewrite Ehigh, <- Hsz. apply split_word. lia.
Qed.

Lemma magic_range k : 0 <= tag_magic k < W32.
Proof. by destruct k. Qed.

Lemma malloc_tag_decodes k total base :
  malloc_tag t ptr = Some (mkTag k total base) ↔
  tagged_at t ptr k total ∧ base = ptr - tag_bytes k.
Proof.
  unfold malloc_tag, checked_sub, tagged_at.
  rewrite (proj2 (Z.leb_le 8 ptr)), (proj2 (Z.leb_le 16 ptr)) by lia. simpl.
  rewrite u64_add_small by (unfold is_u64; lia). replace (ptr - 8 + 4) with (ptr - 4) by lia.
  destruct (read_u32 t (ptr - 8)) as [size|] eqn:Esz; simpl; [|naive_solver].
  pose proof (read_u32_range t _ _ Esz) as Hsz. unfold is_u32 in Hsz.
  destruct (read_u32 t (ptr - 4)) as [status|] eqn:Est; simpl; [|naive_solver].
  pose proof (read_u32_range t _ _ Est) as Hst.
  (* The kind the sealed word names, if any. *)
  assert (∀ k', u32_add status size = tag_magic k' ↔ status = seal (tag_magic k') size) as Hk.
  { intros k'. apply seal_iff; [apply magic_range|done]. }
  split.
  - intros Htag. repeat case_in Htag; zb; simplify_eq; simpl;
      try (apply bind_Some in Htag as ([b tt] & Hw & Htag); simplify_eq;
           apply wide_spec in Hw as (-> & ? & Hmod & ? & ?); [|done|lia]).
    + rewrite Z.mod_small by lia. split; [|done]. split; [done|].
      split; [f_equal; by apply (Hk Malloc)|lia].
    + rewrite Z.mod_small by lia. split; [|done]. split; [done|].
      split; [f_equal; by apply (Hk Second)|lia].
    + rewrite Hmod. split; [|done]. split; [done|]. split; [f_equal; by apply (Hk Oversize)|cbn [high_magic]; auto].
    + rewrite Hmod. split; [|done]. split; [done|]. split; [f_equal; by apply (Hk Memalign)|cbn [high_magic]; auto].
  - intros [([= Hs] & [= Hsl] & Hhi) ->]. rewrite <- Hs in Hsl. apply Hk in Hsl. rewrite Hsl.
    destruct k; simpl in *.
    + rewrite Z.mod_small in Hs by lia. by subst.
    + rewrite Z.mod_small in Hs by lia. by subst.
    + assert (wide t ptr size MALLOC_MAGIC = Some (ptr - 16, total)) as ->; [|done].
      apply wide_spec; [done|lia|]. naive_solver.
    + assert (wide t ptr size MEMALIGN_MAGIC = Some (ptr - 16, total)) as ->; [|done].
      apply wide_spec; [done|lia|]. naive_solver.
Qed.
End tag.

(** The header a block carries is its own, and fits it. *)
Lemma header_Some `{Target T} (t : T) base block ptr requested :
  header t base block = Some (ptr, requested) →
  ∃ hd tag, (hd = 8 ∨ hd = 16) ∧ ptr = u64_add base hd ∧ malloc_tag t ptr = Some tag ∧
    tag_base tag = base ∧ requested = tag_total tag - hd ∧ hd <= tag_total tag <= block.
Proof.
  unfold header. intros Hf. simpl in Hf.
  repeat match goal with
  | H : match ?x with Some _ => _ | None => _ end = Some _ |- _ => destruct x eqn:?
  end; simplify_eq.
  - apply bind_Some in Heqo as (tag & Ht & (r & [-> ?]%checked_sub_Some & Hr)%bind_Some).
    case_match eqn:E; [|done]. zb. simplify_eq. exists 8, tag. split_and!; auto; lia.
  - apply bind_Some in Heqo0 as (tag & Ht & (r & [-> ?]%checked_sub_Some & Hr)%bind_Some).
    case_match eqn:E; [|done]. zb. simplify_eq. exists 16, tag. split_and!; auto; lia.
Qed.

(** ** Properties *)

(** A malloc header decodes exactly when it is one: [malloc_tag] answers a
    kind, a size and a base if and only if the words before the pointer are what
    the shim writes for that kind and size, and the base is that kind's header
    below the pointer. *)
Theorem malloc_tag_exact `{Target T} (t : T) (ptr : Z) (k : TagKind) (total base : Z) :
  16 <= ptr < W64 →
  malloc_tag t ptr = Some (mkTag k total base) ↔
  tagged_at t ptr k total ∧ base = ptr - tag_bytes k.
Proof. intros Hptr. by apply malloc_tag_decodes. Qed.

(** Where [locate] finds a block, the account of its allocation keeps the
    verdict and measures either by a header that names the block's
    own base and fits it, from a pointer at or below the address, or by the block
    itself. *)
Theorem allocation_measures `{Target T} (t : T) (h : UmemHeap) (a : Z) (b : range)
    (src : Source) (live : bool) :
  locate h a = Ret ((if live then Live else Freed) b src) →
  ∃ al, allocation t h a = Ret (Some al) ∧ al_live al = live ∧
    let size := u64_sub (r_end b) (r_start b) in
    (al_size al = Block size ∧ al_offset al = u64_sub a (r_start b)) ∨
    ∃ hd tag, (hd = 8 ∨ hd = 16) ∧ let ptr := u64_add (r_start b) hd in
      malloc_tag t ptr = Some tag ∧ tag_base tag = r_start b ∧ hd <= tag_total tag <= size ∧
      ptr <= a ∧ al_size al = Requested (tag_total tag - hd) ∧ al_offset al = u64_sub a ptr.
Proof.
  intros Hl. unfold allocation. rewrite Hl, outcome_bind_eq.
  exists (block_allocation t live b a). split; [by destruct live|].
  unfold block_allocation.
  destruct (header t (r_start b) _) as [[ptr req]|] eqn:Eh; [|split; [done|by left]].
  destruct (ptr <=? a) eqn:Ep; [|split; [done|by left]].
  apply header_Some in Eh as (hd & tag & Hhd & -> & Ht & Hbase & -> & Hle). zb.
  split; [done|]. right. exists hd, tag. done.
Qed.

(** ** Witnesses *)

Lemma malloc_tag_exact_witness :
  malloc_tag demo_target (at_data + 40) = Some (mkTag Malloc 20 (at_data + 32)).
Proof.
  apply (malloc_tag_exact demo_target (at_data + 40) Malloc 20 (at_data + 32)).
  - vm_compute. split; congruence.
  - split; [|reflexivity]. split; [vm_compute; reflexivity|].
    split; [vm_compute; reflexivity|]. vm_compute. split; congruence.
Defined.

Lemma allocation_measures_witness :
  ∃ al, allocation demo_target demo_heap 4045 = Ret (Some al) ∧ al_live al = true.
Proof.
  destruct (allocation_measures demo_target demo_heap 4045 (Range 4032 4056) (SourceCache 0) true)
    as (al & Hal & Hlive & _); [vm_compute; reflexivity|].
  exists al. split; [exact Hal|exact Hlive].
Defined.
