(* ===== verification/Interner.v ===== *)
(** The sharded string interner ([exegesis/src/string_table.rs]): striped ids,
    one shard's interning, the table as a list of shards, and its lookups.

    A shard's lock makes each [intern] one step, so a run of many threads is the
    sequence of its [intern]s in the order they took their locks: [intern_all]
    is any such run.  The content hash is foldhash's, a parameter. *)

From S2P Require Import Prelude.

Local Open Scope Z_scope.

Definition SHARD_BITS : Z := 8.
Definition SHARDS : Z := Z.shiftl 1 SHARD_BITS.

(** A [StrId] is its [NonZero<u32>]. *)
Definition StrId := Z.

Definition encode (shard local : Z) : outcome StrId :=
  let raw := Z.lor ((Z.shiftl local SHARD_BITS) `mod` W32) (as_u32 shard) in
  let id := u32_add raw 1 in
  if id =? 0 then Panic else Ret id.

Definition decode (id : StrId) : Z * Z :=
  let raw := id - 1 in
  (Z.land raw (SHARDS - 1), Z.shiftr raw SHARD_BITS).

Record Shard := mkShard {
  sh_index : gmap string StrId;
  sh_entries : list string;
  sh_dups : Z
}.

Definition shard_default : Shard := mkShard ∅ [] 0.

Definition shard_intern (shard : Shard) (k : Z) (s : string) : outcome (StrId * Shard) :=
  match sh_index shard !! s with
  | Some id => Ret (id, mkShard (sh_index shard) (sh_entries shard) (sh_dups shard + 1))
  | None =>
      id ← encode k (as_u32 (Z.of_nat (length (sh_entries shard))));
      Ret (id, mkShard (<[s := id]> (sh_index shard)) (sh_entries shard ++ [s]) (sh_dups shard))
  end.

(** [ShardedInterner] and [FrozenStrings] are the same shards, with and without
    their locks; [freeze] drops the locks. *)
Abbreviation FrozenStrings := (list Shard).

Definition interner_new : FrozenStrings := replicate (Z.to_nat SHARDS) shard_default.

Definition freeze (interner : FrozenStrings) : FrozenStrings := interner.

Section interner.
Context (hash_one : string → Z).

Definition shard_of (s : string) : Z := Z.land (hash_one s) (SHARDS - 1).

Definition intern (t : FrozenStrings) (s : string) : outcome (StrId * FrozenStrings) :=
  let k := shard_of s in
  shard ← or_panic (t !! Z.to_nat k);
  '(id, shard) ← shard_intern shard k s;
  Ret (id, <[Z.to_nat k := shard]> t).

Definition get (t : FrozenStrings) (id : StrId) : outcome string :=
  let (k, j) := decode id in
  shard ← or_panic (t !! Z.to_nat k);
  or_panic (sh_entries shard !! Z.to_nat j).

Definition find (t : FrozenStrings) (s : string) : outcome (option StrId) :=
  shard ← or_panic (t !! Z.to_nat (shard_of s)); Ret (sh_index shard !! s).

Definition len (t : FrozenStrings) : Z :=
  sum_Z ((λ s, Z.of_nat (length (sh_entries s))) <$> t).

Definition is_empty (t : FrozenStrings) : bool :=
  forallb (λ s, (length (sh_entries s) =? 0)%nat) t.

Definition dups_found (t : FrozenStrings) : Z := sum_Z (sh_dups <$> t).

(** Interning strings in some order: their ids and the table left. *)
Fixpoint intern_all (t : FrozenStrings) (l : list string) : outcome (list StrId * FrozenStrings) :=
  match l with
  | [] => Ret ([], t)
  | s :: l =>
      '(id, t) ← intern t s;
      '(ids, t) ← intern_all t l;
      Ret (id :: ids, t)
  end.

(** ** Ids *)

Definition MAX_LOCAL : Z := 16777216.

Lemma SHARDS_eq : SHARDS = 256.
Proof. reflexivity. Qed.

Definition id_of (k j : Z) : StrId := j * 256 + k + 1.

Lemma encode_spec k j :
  0 <= k < SHARDS → 0 <= j < MAX_LOCAL - 1 → encode k j = Ret (id_of k j).
Proof.
  intros Hk Hj. rewrite SHARDS_eq in Hk. unfold encode, id_of, SHARD_BITS, MAX_LOCAL in *.
  rewrite Z.shiftl_mul_pow2 by lia. change (2 ^ 8) with 256.
  rewrite (Z.mod_small (j * 256)) by lia. unfold as_u32. rewrite (Z.mod_small k) by lia.
  assert (Z.land (j * 256) k = 0) as E.
  { apply Z.bits_inj'. intros n Hn. rewrite Z.land_spec, Z.bits_0.
    change 256 with (2 ^ 8). rewrite <- Z.shiftl_mul_pow2, Z.shiftl_spec by lia.
    destruct (Z.ltb_spec n 8); [by rewrite Z.testbit_neg_r by lia|].
    rewrite <- (Z.mod_small k (2 ^ 8)), Z.mod_pow2_bits_high, andb_false_r by lia. done. }
  pose proof (Z.add_lor_land (j * 256) k) as Ha. rewrite E, Z.add_0_r in Ha.
  rewrite Ha. unfold u32_add. rewrite (Z.mod_small (_ + _ + _)) by lia.
  by rewrite (proj2 (Z.eqb_neq _ _)) by lia.
Qed.

Lemma decode_spec k j :
  0 <= k < SHARDS → 0 <= j → decode (id_of k j) = (k, j).
Proof.
  intros Hk Hj. rewrite SHARDS_eq in Hk. unfold decode, id_of. rewrite SHARDS_eq. unfold SHARD_BITS. cbv zeta. change (256 - 1) with 255.
  replace (j * 256 + k + 1 - 1) with (k + j * 2 ^ 8) by lia.
  change 255 with (Z.ones 8). rewrite Z.land_ones, Z.shiftr_div_pow2 by lia.
  change (2 ^ 8) with 256. rewrite Z.mod_add, Z.div_add, Z.mod_small, Z.div_small by lia. done.
Qed.

Lemma id_of_inj k j k' j' :
  0 <= k < SHARDS → 0 <= k' < SHARDS → id_of k j = id_of k' j' → k = k' ∧ j = j'.
Proof. rewrite SHARDS_eq. unfold id_of. lia. Qed.

(** ** The invariant *)

(** A shard's index inverts its entries, which are distinct. *)
Record shard_ok (k : Z) (sh : Shard) : Prop := {
  so_index : ∀ s id, sh_index sh !! s = Some id ↔
    ∃ j, sh_entries sh !! j = Some s ∧ id = id_of k (Z.of_nat j);
  so_home : Forall (λ s, shard_of s = k) (sh_entries sh)
}.

Record table_ok (t : FrozenStrings) : Prop := {
  to_length : length t = Z.to_nat SHARDS;
  to_shards : ∀ k sh, t !! k = Some sh → shard_ok (Z.of_nat k) sh
}.

Lemma shard_of_range s : 0 <= shard_of s < SHARDS.
Proof.
  unfold shard_of. rewrite SHARDS_eq. change (256 - 1) with (Z.ones 8).
  rewrite Z.land_ones by lia. by apply Z.mod_pos_bound.
Qed.

Lemma table_ok_new : table_ok interner_new.
Proof.
  split; [apply length_replicate|]. intros k sh [-> _]%lookup_replicate.
  split; [|constructor]. intros s id. simpl. rewrite lookup_empty. naive_solver.
Qed.

Lemma entries_NoDup k sh : shard_ok k sh → NoDup (sh_entries sh).
Proof.
  intros [Hix _]. apply NoDup_alt. intros i j s Hi Hj.
  assert (sh_index sh !! s = Some (id_of k (Z.of_nat i))) as E1 by (apply Hix; eauto).
  assert (sh_index sh !! s = Some (id_of k (Z.of_nat j))) as E2 by (apply Hix; eauto).
  rewrite E1 in E2. injection E2 as E2. unfold id_of in E2. lia.
Qed.

(** What the table knows: which id a string has. *)
Definition knows (t : FrozenStrings) (s : string) (id : StrId) : Prop :=
  ∃ sh j, t !! Z.to_nat (shard_of s) = Some sh ∧ sh_entries sh !! j = Some s ∧
    id = id_of (shard_of s) (Z.of_nat j).

Lemma knows_inj t s s' id : knows t s id → knows t s' id → s = s'.
Proof.
  intros (sh & j & Hsh & Hj & ->) (sh' & j' & Hsh' & Hj' & Heq).
  apply id_of_inj in Heq as [Ek Ej%Nat2Z.inj]; [|apply shard_of_range..].
  rewrite Ek in Hsh. subst j'. rewrite Hsh in Hsh'. congruence.
Qed.

Lemma knows_fun t s id id' : table_ok t → knows t s id → knows t s id' → id = id'.
Proof.
  intros Ht (sh & j & Hsh & Hj & ->) (sh' & j' & Hsh' & Hj' & ->). simplify_eq.
  pose proof (entries_NoDup _ _ (to_shards t Ht _ _ Hsh)) as Hnd.
  rewrite NoDup_alt in Hnd. by rewrite (Hnd _ _ _ Hj Hj').
Qed.

Lemma knows_find t s id : table_ok t → find t s = Ret (Some id) ↔ knows t s id.
Proof.
  intros Ht. unfold find, knows. pose proof (shard_of_range s) as Hr.
  destruct (t !! Z.to_nat (shard_of s)) as [sh|] eqn:E; simpl; [|naive_solver].
  pose proof (to_shards t Ht _ _ E) as [Hix _]. rewrite Z2Nat.id in Hix by lia. split.
  - intros [= Hs]. apply Hix in Hs as (j & ? & ->). eauto.
  - intros (sh' & j & [= <-] & Hj & ->). f_equal. apply Hix. eauto.
Qed.

Lemma knows_get t s id : knows t s id → get t id = Ret s.
Proof.
  intros (sh & j & Hsh & Hj & ->). unfold get.
  rewrite decode_spec by (apply shard_of_range || lia). rewrite Hsh. simpl.
  by rewrite Nat2Z.id, Hj.
Qed.

(** Every string of the table, shard by shard. *)
Definition strings (t : FrozenStrings) : list string := t ≫= sh_entries.

Lemma length_strings t : Z.of_nat (length (strings t)) = len t.
Proof.
  unfold strings, len. induction t as [|sh t IH]; [done|].
  cbn [mbind list_bind]. rewrite length_app, Nat2Z.inj_add, IH. done.
Qed.

Lemma elem_of_strings t s : table_ok t → s ∈ strings t ↔ ∃ id, knows t s id.
Proof.
  intros Ht. unfold strings. rewrite list_elem_of_bind. split.
  - intros (sh & Hs & [k Hk]%list_elem_of_lookup). pose proof (to_shards t Ht _ _ Hk) as [_ Hh].
    rewrite Forall_forall in Hh. pose proof (Hh s Hs) as Hhome.
    apply list_elem_of_lookup in Hs as [j Hj]. eexists _, sh, j. rewrite Hhome, Nat2Z.id. done.
  - intros (id & sh & j & Hsh & Hj & _). exists sh. split; by eapply list_elem_of_lookup_2.
Qed.

Lemma strings_NoDup_from t k :
  (∀ i sh, t !! i = Some sh → shard_ok (Z.of_nat (k + i)) sh) → NoDup (strings t).
Proof.
  revert k. induction t as [|sh t IH]; intros k Ht; [constructor|].
  unfold strings. cbn [mbind list_bind].
  pose proof (Ht 0%nat sh eq_refl) as Hsh. rewrite Nat.add_0_r in Hsh.
  apply NoDup_app. split; [by eapply entries_NoDup|]. split.
  - intros s Hs Hin. apply list_elem_of_bind in Hin as (sh' & Hs' & [i Hi]%list_elem_of_lookup).
    pose proof (Ht (S i) sh' Hi) as [_ Hh']. destruct Hsh as [_ Hh].
    rewrite Forall_forall in Hh, Hh'. specialize (Hh s Hs). specialize (Hh' s Hs'). lia.
  - apply (IH (S k)). intros i sh' Hi. specialize (Ht (S i) sh' Hi).
    by replace (S k + i)%nat with (k + S i)%nat by lia.
Qed.

Lemma strings_NoDup t : table_ok t → NoDup (strings t).
Proof. intros [_ Ht]. by apply (strings_NoDup_from t 0). Qed.

(** ** One step *)

Lemma len_insert t k sh sh' :
  t !! k = Some sh →
  len (<[k := sh']> t) = len t - Z.of_nat (length (sh_entries sh)) + Z.of_nat (length (sh_entries sh')) ∧
  dups_found (<[k := sh']> t) = dups_found t - sh_dups sh + sh_dups sh'.
Proof.
  intros Hk. pose proof (take_drop_middle t k sh Hk) as Ht. unfold len, dups_found.
  rewrite (insert_take_drop t k sh') by (by eapply lookup_lt_Some).
  revert Ht. generalize (take k t) (drop (S k) t). intros a b <-.
  rewrite !fmap_app, !sum_Z_app, !fmap_cons. simpl. lia.
Qed.

Lemma entries_le_len t k sh : t !! k = Some sh → Z.of_nat (length (sh_entries sh)) <= len t.
Proof.
  intros Hk. unfold len. rewrite <- (take_drop_middle t k sh Hk).
  rewrite fmap_app, sum_Z_app, fmap_cons. simpl.
  assert (∀ l, 0 <= sum_Z ((λ s, Z.of_nat (length (sh_entries s))) <$> l)) as H.
  { intros l. apply sum_Z_nonneg, Forall_fmap, Forall_forall. simpl. lia. }
  pose proof (H (take k t)). pose proof (H (drop (S k) t)). unfold sum_Z in *. lia.
Qed.

(** Storing a shard of a table's own keeps the table. *)
Lemma table_ok_insert t k sh :
  table_ok t → shard_ok (Z.of_nat k) sh → table_ok (<[k := sh]> t).
Proof.
  intros [Hlen Hs] Hsh. split; [by rewrite length_insert|]. intros i sh' Hi.
  apply list_lookup_insert_Some in Hi as [(-> & -> & _)|[_ Hi]]; [done|auto].
Qed.

Lemma shard_ok_push k sh s :
  shard_ok k sh → shard_of s = k → sh_index sh !! s = None →
  shard_ok k (mkShard (<[s := id_of k (Z.of_nat (length (sh_entries sh)))]> (sh_index sh))
                (sh_entries sh ++ [s]) (sh_dups sh)).
Proof.
  intros [Hix Hh] Hk Hnone. split; simpl; [|apply Forall_app; split; [done|by constructor]].
  intros s' id. split.
  - intros [[-> <-]|[Hne Hs']]%lookup_insert_Some.
    + exists (length (sh_entries sh)). by rewrite lookup_app_r, Nat.sub_diag by done.
    + apply Hix in Hs' as (j & Hj & ->). exists j. split; [|done]. by apply lookup_app_l_Some.
  - intros (j & Hj & ->). apply lookup_app_Some in Hj as [Hj|[Hle Hj]].
    + rewrite lookup_insert_ne; [apply Hix; eauto|]. intros ->.
      assert (sh_index sh !! s' = Some (id_of k (Z.of_nat j))) by (apply Hix; eauto). congruence.
    + destruct (j - length (sh_entries sh))%nat as [|m] eqn:E; [|done]. simpl in Hj.
      injection Hj as ->. replace j with (length (sh_entries sh)) by lia. apply lookup_insert_eq.
Qed.

(** One [intern]: the id of a known string, or a new one. *)
Lemma intern_spec t s :
  table_ok t → len t < MAX_LOCAL - 1 →
  ∃ id t', intern t s = Ret (id, t') ∧ table_ok t' ∧ knows t' s id ∧
    (∀ s' id', knows t s' id' → knows t' s' id') ∧
    (∀ s' id', knows t' s' id' → s' = s ∨ knows t s' id') ∧
    len t <= len t' <= len t + 1 ∧
    len t' + dups_found t' = len t + dups_found t + 1.
Proof.
  intros Ht Hlen. pose proof (shard_of_range s) as Hr. set (k := shard_of s) in *.
  destruct (lookup_lt_is_Some_2 t (Z.to_nat k)) as [sh Hk].
  { rewrite (to_length t Ht). lia. }
  pose proof (to_shards t Ht _ _ Hk) as Hsh. rewrite Z2Nat.id in Hsh by lia.
  pose proof (lookup_lt_Some _ _ _ Hk) as Hlt.
  unfold intern. fold k. rewrite Hk. cbn [or_panic]. rewrite outcome_bind_eq. cbv beta iota.
  unfold shard_intern. destruct (sh_index sh !! s) as [id|] eqn:E.
  - rewrite outcome_bind_eq. cbv beta iota. set (sh' := mkShard _ _ _).
    exists id, (<[Z.to_nat k := sh']> t). split; [done|].
    assert (∀ s' id', knows (<[Z.to_nat k := sh']> t) s' id' ↔ knows t s' id') as Hkn.
    { intros s' id'. unfold knows. destruct (decide (Z.to_nat (shard_of s') = Z.to_nat k)) as [Ek|Ek].
      - rewrite Ek, list_lookup_insert_eq, Hk by done. split; intros (? & j & [= <-] & ?); eauto.
      - by rewrite list_lookup_insert_ne by done. }
    destruct (len_insert t (Z.to_nat k) sh sh' Hk) as [El Ed]. simpl in El, Ed.
    split; [apply table_ok_insert; [done|]; rewrite Z2Nat.id by lia; destruct Hsh; by split|].
    split; [|split; [|split; [|lia]]].
    + apply Hkn. apply (so_index k sh Hsh) in E as (j & Hj & ->). exists sh, j. done.
    + intros s' id'. apply Hkn.
    + intros s' id' H%Hkn. by right.
  - pose proof (entries_le_len t _ sh Hk) as Hel. unfold MAX_LOCAL in Hlen.
    assert (as_u32 (Z.of_nat (length (sh_entries sh))) = Z.of_nat (length (sh_entries sh))) as ->.
    { unfold as_u32. rewrite Z.mod_small; lia. }
    rewrite encode_spec by (done || unfold MAX_LOCAL; lia).
    rewrite !outcome_bind_eq. cbv beta iota. set (id := id_of _ _). set (sh' := mkShard _ _ _).
    exists id, (<[Z.to_nat k := sh']> t). split; [done|].
    destruct (len_insert t (Z.to_nat k) sh sh' Hk) as [El Ed]. simpl in El, Ed.
    rewrite length_app in El. simpl in El.
    split; [apply table_ok_insert; [done|]; rewrite Z2Nat.id by lia; by apply shard_ok_push|].
    split; [|split; [|split; [|lia]]].
    + exists sh', (length (sh_entries sh)). fold k. rewrite list_lookup_insert_eq by done.
      split; [done|]. split; [|done]. simpl. by rewrite lookup_app_r, Nat.sub_diag by done.
    + intros s' id' (sh0 & j & Hsh0 & Hj & ->). unfold knows.
      destruct (decide (Z.to_nat (shard_of s') = Z.to_nat k)) as [Ek|Ek].
      * rewrite Ek in *. simplify_eq. exists sh', j. rewrite list_lookup_insert_eq by done.
        split; [done|]. split; [by apply lookup_app_l_Some|done].
      * exists sh0, j. by rewrite list_lookup_insert_ne by done.
    + intros s' id' (sh0 & j & Hsh0 & Hj & ->).
      destruct (decide (Z.to_nat (shard_of s') = Z.to_nat k)) as [Ek|Ek].
      * rewrite Ek, list_lookup_insert_eq in Hsh0 by done. injection Hsh0 as <-. simpl in Hj.
        apply lookup_app_Some in Hj as [Hj|[Hle Hj]].
        -- right. exists sh, j. by rewrite Ek.
        -- left. destruct (j - _)%nat; [by injection Hj|done].
      * right. exists sh0, j. by rewrite list_lookup_insert_ne in Hsh0 by done.
Qed.

(** A run of [intern]s. *)
Lemma intern_all_spec l t :
  table_ok t → len t + Z.of_nat (length l) < MAX_LOCAL →
  ∃ ids t', intern_all t l = Ret (ids, t') ∧ table_ok t' ∧
    Forall2 (knows t') l ids ∧
    (∀ s id, knows t s id → knows t' s id) ∧
    (∀ s id, knows t' s id → s ∈ l ∨ knows t s id) ∧
    len t' + dups_found t' = len t + dups_found t + Z.of_nat (length l).
Proof.
  revert t. induction l as [|s l IH]; intros t Ht Hlen.
  { exists [], t. do 2 (split; [done|]). split; [constructor|]. split; [done|].
    split; [by right|]. simpl. lia. }
  simpl length in Hlen.
  destruct (intern_spec t s Ht ltac:(lia)) as (id & t1 & E1 & Ht1 & Hs & Hk1 & Hb1 & Hl1 & Hd1).
  destruct (IH t1 Ht1 ltac:(lia)) as (ids & t2 & E2 & Ht2 & Hall & Hk2 & Hb2 & Hd2).
  exists (id :: ids), t2. cbn [intern_all]. rewrite E1, outcome_bind_eq. cbv beta iota.
  rewrite E2, outcome_bind_eq. split; [done|]. split; [done|]. split; [constructor; auto|].
  split; [auto|]. split; [|simpl length; lia].
  intros s' id' [?|[->|?]%Hb1]%Hb2; [left; by right|left; left|by right].
Qed.
End interner.

(** ** Properties *)

(** However interning is interleaved, as long as fewer than 2^24 strings are
    interned nothing panics; equal strings get one id and different strings get
    different ids; [get] gives back the string of every id handed out and [find]
    its id; and the table holds each string once, every repeat counted. *)
Theorem interning_correct (hash_one : string → Z) (l : list string) :
  Z.of_nat (length l) < MAX_LOCAL →
  ∃ ids t, intern_all hash_one interner_new l = Ret (ids, t) ∧
    (∀ i j s s' id id', l !! i = Some s → l !! j = Some s' →
       ids !! i = Some id → ids !! j = Some id' → (s = s' ↔ id = id')) ∧
    (∀ i s id, l !! i = Some s → ids !! i = Some id →
       get (freeze t) id = Ret s ∧ find hash_one (freeze t) s = Ret (Some id)) ∧
    len t = Z.of_nat (size (list_to_set l : gset string)) ∧
    len t + dups_found t = Z.of_nat (length l).
Proof.
  intros Hlen.
  assert (len interner_new = 0 ∧ dups_found interner_new = 0) as [H0 H0'] by done.
  destruct (intern_all_spec hash_one l interner_new (table_ok_new hash_one) ltac:(lia))
    as (ids & t & Hr & Ht & Hall & _ & Hback & Hd).
  exists ids, t. split; [done|]. split; [|split; [|split; [|lia]]].
  - intros i j s s' id id' Hi Hj Hid Hid'.
    pose proof (Forall2_lookup_lr _ _ _ _ _ _ Hall Hi Hid) as Hk.
    pose proof (Forall2_lookup_lr _ _ _ _ _ _ Hall Hj Hid') as Hk'. split.
    + intros ->. by eapply knows_fun.
    + intros ->. by eapply knows_inj.
  - intros i s id Hi Hid. pose proof (Forall2_lookup_lr _ _ _ _ _ _ Hall Hi Hid) as Hk.
    split; [by eapply knows_get|by apply knows_find].
  - rewrite <- length_strings, <- (size_list_to_set (C := gset string))
      by (by eapply strings_NoDup).
    do 2 f_equal. apply set_eq. intros s. rewrite !elem_of_list_to_set.
    rewrite (elem_of_strings hash_one) by done. split.
    + intros (id & [?|(sh & j & Hsh & Hj & _)]%Hback); [done|].
      apply lookup_replicate in Hsh as [-> _]. done.
    + intros [i Hi]%list_elem_of_lookup.
      destruct (Forall2_lookup_l _ _ _ _ _ Hall Hi) as (id & _ & Hk). eauto.
Qed.

(** An id encodes its shard and its index: below 2^24 - 1 entries [decode]
    gives both back; past that the encoding is not injective, and the last index
    of the last shard is a panic. *)
Theorem encode_decode (k j : Z) :
  0 <= k < SHARDS → 0 <= j < MAX_LOCAL - 1 →
  ∃ id, encode k j = Ret id ∧ 0 < id < W32 ∧ decode id = (k, j) ∧
    encode k (j + MAX_LOCAL) = encode k j.
Proof.
  intros Hk Hj. exists (id_of k j). split; [by apply encode_spec|].
  split; [rewrite SHARDS_eq in Hk; unfold id_of, MAX_LOCAL in *; lia|].
  split; [apply decode_spec; lia|].
  unfold encode. do 3 f_equal. unfold SHARD_BITS, MAX_LOCAL.
  rewrite !Z.shiftl_mul_pow2 by lia. change (2 ^ 8) with 256.
  replace ((j + 16777216) * 256) with (j * 256 + 1 * W32) by lia. by rewrite Z_mod_plus_full.
Qed.

(** The expectation that an id is never zero fails at the bound: the entry
    2^24 - 1 of the last shard panics, and entry 2^24 of the first takes the id
    of entry 0. *)
Theorem encode_limits :
  encode 255 16777215 = Panic ∧ encode 0 16777216 = encode 0 0.
Proof. split; reflexivity. Qed.

(** ** Witnesses *)

Definition demo_hash (s : string) : Z := Z.of_nat (String.length s).

Lemma interning_correct_witness :
  ∃ ids t, intern_all demo_hash interner_new ["a"; "bb"; "a"; "c"]%string = Ret (ids, t) ∧
    ids = [2; 3; 2; 258] ∧ len t = 3 ∧ get t 258 = Ret "c"%string.
Proof.
  destruct (interning_correct demo_hash ["a"; "bb"; "a"; "c"]%string ltac:(vm_compute; reflexivity))
    as (ids & t & Hr & _ & Hget & Hlen & _).
  exists ids, t. split; [exact Hr|]. vm_compute in Hr. injection Hr as <- <-.
  split; [reflexivity|]. split; [rewrite Hlen; reflexivity|].
  apply (Hget 3%nat); reflexivity.
Defined.

Lemma encode_decode_witness :
  ∃ id, encode 7 9 = Ret id ∧ decode id = (7, 9).
Proof.
  destruct (encode_decode 7 9) as (id & He & _ & Hd & _);
    [vm_compute; split; congruence|vm_compute; split; congruence|].
  exists id. split; [exact He|exact Hd].
Defined.
