(* ===== verification/StringTable.v ===== *)
(** The bundle's string table ([hansei-bundle/src/strings.rs]): strings laid end
    to end in one buffer with their end offsets, the checks on a table read from
    a file, and the interner that builds one.

    A [str] is its UTF-8 bytes; a [usize] is 64 bits, so a [u32] index widens
    unchanged. *)

From S2P Require Import Prelude Text.

Local Open Scope Z_scope.

Abbreviation str := (list Byte.byte).

#[global] Instance byte_countable : Countable Byte.byte :=
  inj_countable Byte.to_N Byte.of_N Byte.of_to_N.

(** ** [str] *)

(** A [str] is valid UTF-8: the type's own invariant. *)
Fixpoint valid_utf8 (fuel : nat) (bs : str) : bool :=
  match fuel, bs with
  | _, [] => true
  | S fuel, _ :: _ => let (ok, n) := utf8_step bs in ok && valid_utf8 fuel (drop n bs)
  | O, _ :: _ => false
  end.
Definition is_str (bs : str) : Prop := valid_utf8 (length bs) bs = true.

(** A byte that continues a character. *)
Definition is_continuation (b : Byte.byte) : bool :=
  (128 <=? byte_Z b) && (byte_Z b <=? 191).

(** [str::is_char_boundary]. *)
Definition is_char_boundary (bs : str) (i : Z) : bool :=
  if i =? 0 then true
  else match bs !! Z.to_nat i with
       | Some b => negb (is_continuation b)
       | None => i =? Z.of_nat (length bs)
       end.

(** [str::get] of a range. *)
Definition str_get (bs : str) (s e : Z) : option str :=
  if (s <=? e) && is_char_boundary bs s && is_char_boundary bs e
  then Some (take (Z.to_nat (e - s)) (drop (Z.to_nat s) bs))
  else None.

(** ** The table *)

Abbreviation StrRef := Z (only parsing).

(** [StrRef::index]. *)
Definition index (r : StrRef) : nat := Z.to_nat r.

Record StringTable := mkStringTable {
  data : str;
  ends : list Z
}.

Definition get (t : StringTable) (r : StrRef) : outcome (option str) :=
  match ends t !! index r with
  | None => Ret None
  | Some end_ =>
      start ← match index r with
              | O => Ret 0
              | i => or_panic (ends t !! (i - 1)%nat)
              end;
      Ret (str_get (data t) start end_)
  end.

Definition len (t : StringTable) : Z := Z.of_nat (length (ends t)).
Definition is_empty (t : StringTable) : bool := len t =? 0.

(** [(0..n).map(|i| self.get(StrRef(i as u32)).unwrap())]. *)
Definition iter_at (t : StringTable) (i : nat) : outcome str :=
  o ← get t (as_u32 (Z.of_nat i)); or_panic o.

Fixpoint mapM_out {A B} (f : A → outcome B) (l : list A) : outcome (list B) :=
  match l with
  | [] => Ret []
  | a :: l => b ← f a; bs ← mapM_out f l; Ret (b :: bs)
  end.

Definition iter (t : StringTable) : outcome (list str) :=
  mapM_out (iter_at t) (seq 0 (length (ends t))).

Fixpoint offsets_ok (n prev : Z) (l : list Z) : bool :=
  match l with
  | [] => true
  | e :: l => if (e <? prev) || (n <? e) then false else offsets_ok n e l
  end.

Fixpoint all_resolve (t : StringTable) (l : list nat) : outcome bool :=
  match l with
  | [] => Ret true
  | i :: l =>
      o ← get t (as_u32 (Z.of_nat i));
      match o with Some _ => all_resolve t l | None => Ret false end
  end.

Definition is_well_formed (t : StringTable) : outcome bool :=
  if offsets_ok (Z.of_nat (length (data t))) 0 (ends t)
  then all_resolve t (seq 0 (length (ends t)))
  else Ret false.

(** ** The interner *)

Record StringInterner := mkStringInterner {
  table : StringTable;
  si_index : gmap str StrRef
}.

Definition interner_new : StringInterner := mkStringInterner (mkStringTable [] []) ∅.

(** [u32::try_from(n).expect(..)]. *)
Definition try_u32 (n : Z) : outcome Z := if n <? W32 then Ret n else Panic.

Definition intern (si : StringInterner) (s : str) : outcome (StrRef * StringInterner) :=
  match si_index si !! s with
  | Some r => Ret (r, si)
  | None =>
      let data' := data (table si) ++ s in
      r ← try_u32 (Z.of_nat (length (ends (table si))));
      end_ ← try_u32 (Z.of_nat (length data'));
      Ret (r, mkStringInterner (mkStringTable data' (ends (table si) ++ [end_]))
                               (<[s := r]> (si_index si)))
  end.

Definition interner_get (si : StringInterner) (r : StrRef) : outcome (option str) :=
  get (table si) r.

Definition finish (si : StringInterner) : StringTable := table si.

Fixpoint intern_all (si : StringInterner) (l : list str)
    : outcome (list StrRef * StringInterner) :=
  match l with
  | [] => Ret ([], si)
  | s :: l =>
      '(r, si) ← intern si s;
      '(rs, si) ← intern_all si l;
      Ret (r :: rs, si)
  end.

(** ** The specification: distinct strings in the order they were first seen *)

Definition seen (acc : list str) (s : str) : list str :=
  if decide (s ∈ acc) then acc else acc ++ [s].
Definition first_seen (l : list str) : list str := foldl seen [] l.

(** ** Lemmas: boundaries *)

Lemma utf8_step_head b bs n :
  utf8_step (b :: bs) = (true, n) → is_continuation b = false.
Proof.
  unfold utf8_step, is_continuation. cbn [lookup list_lookup fmap option_fmap option_map default].
  unfold id. cbv beta zeta. intros H.
  destruct (Z.ltb_spec (byte_Z b) 128).
  { by rewrite (proj2 (Z.leb_gt 128 (byte_Z b))) by done. }
  destruct (Z.leb_spec (byte_Z b) 191); [exfalso|by rewrite andb_false_r].
  rewrite !(proj2 (Z.leb_gt 194 (byte_Z b))), !(proj2 (Z.leb_gt 224 (byte_Z b))),
    !(proj2 (Z.leb_gt 240 (byte_Z b))) in H by lia.
  cbn [andb] in H. by destruct (byte_Z b <? 128) eqn:E; [apply Z.ltb_lt in E; lia|].
Qed.

Definition head_ok (bs : str) : Prop :=
  match bs with [] => True | b :: _ => is_continuation b = false end.

Lemma is_str_head bs : is_str bs → head_ok bs.
Proof.
  unfold is_str. destruct bs as [|b bs]; [done|]. cbn [length valid_utf8 head_ok].
  destruct (utf8_step (b :: bs)) as [ok n] eqn:E. intros [-> _]%andb_true_iff.
  by eapply utf8_step_head.
Qed.

Lemma head_ok_mjoin ss : Forall is_str ss → head_ok (mjoin ss).
Proof.
  induction 1 as [|s ss Hs _ IH]; [done|]. cbn [mjoin list_join].
  destruct s; [done|]. by apply is_str_head in Hs.
Qed.

Lemma boundary_app a b : head_ok b → is_char_boundary (a ++ b) (Z.of_nat (length a)) = true.
Proof.
  intros Hb. unfold is_char_boundary. destruct (Z.eqb_spec (Z.of_nat (length a)) 0); [done|].
  rewrite Nat2Z.id, lookup_app_r, Nat.sub_diag by done.
  destruct b as [|x b]; simpl in *; [rewrite app_nil_r; lia|by rewrite Hb].
Qed.

Lemma str_get_middle a b c :
  head_ok (b ++ c) → head_ok c →
  str_get (a ++ b ++ c) (Z.of_nat (length a)) (Z.of_nat (length a + length b)) = Some b.
Proof.
  intros Hbc Hc. unfold str_get. rewrite boundary_app by done.
  pose proof (boundary_app (a ++ b) c Hc) as H. rewrite length_app, <- app_assoc in H.
  rewrite H, (proj2 (Z.leb_le _ _)) by lia. simpl. f_equal.
  rewrite Nat2Z.id, drop_app_length.
  replace (Z.to_nat _) with (length b) by lia. apply take_app_length.
Qed.

(** ** Lemmas: tables *)

Fixpoint ends_of (off : nat) (ss : list str) : list Z :=
  match ss with
  | [] => []
  | s :: ss => Z.of_nat (off + length s) :: ends_of (off + length s) ss
  end.

Lemma length_ends_of off ss : length (ends_of off ss) = length ss.
Proof. revert off. induction ss; intros off; simpl; auto. Qed.

Lemma ends_of_app off ss ss' :
  ends_of off (ss ++ ss') = ends_of off ss ++ ends_of (off + length (mjoin ss)) ss'.
Proof.
  revert off. induction ss as [|s ss IH]; intros off; simpl; [by rewrite Nat.add_0_r|].
  rewrite IH, length_app. by rewrite Nat.add_assoc.
Qed.

(** The table of a list of strings. *)
Definition table_of (ss : list str) : StringTable := mkStringTable (mjoin ss) (ends_of 0 ss).

Lemma prev_end a rest :
  match length a with O => Ret 0 | i => or_panic ((ends_of 0 a ++ rest) !! (i - 1)%nat) end
  = Ret (Z.of_nat (length (mjoin a))).
Proof.
  induction a as [|s a _] using rev_ind; [done|]. rewrite length_app, Nat.add_1_r.
  replace (S (length a) - 1)%nat with (length a) by lia.
  rewrite ends_of_app, <- app_assoc, lookup_app_r, length_ends_of, Nat.sub_diag
    by (by rewrite length_ends_of).
  simpl. rewrite join_app, length_app. simpl. by rewrite app_nil_r.
Qed.

Lemma get_table_of ss r :
  Forall is_str ss → 0 <= r → get (table_of ss) r = Ret (ss !! Z.to_nat r).
Proof.
  intros Hss Hr. unfold get, index. destruct (ss !! Z.to_nat r) as [s|] eqn:E.
  2:{ rewrite lookup_ge_None_2; [done|]. simpl. rewrite length_ends_of.
      by apply lookup_ge_None_1. }
  pose proof (take_drop_middle _ _ _ E) as Hs. set (a := take _ ss) in *. set (c := drop _ ss) in *.
  assert (Z.to_nat r = length a) as ->.
  { subst a. rewrite length_take. apply lookup_lt_Some in E. lia. }
  rewrite <- Hs in *. apply Forall_app in Hss as [_ Hsc].
  pose proof (Forall_inv_tail Hsc) as Hc.
  cbn [table_of ends data]. rewrite ends_of_app. rewrite lookup_app_r, length_ends_of,
    Nat.sub_diag by (by rewrite length_ends_of).
  cbn [ends_of lookup list_lookup Nat.add]. rewrite prev_end, outcome_bind_eq.
  rewrite join_app. f_equal. apply (str_get_middle (mjoin a) s (mjoin c)); [by apply (head_ok_mjoin (s :: c))|by apply head_ok_mjoin].
Qed.

Lemma get_total t r : ∃ o, get t r = Ret o.
Proof.
  unfold get. destruct (ends t !! index r) as [e|] eqn:E; [|eauto].
  destruct (index r) as [|i]; [by eexists|].
  destruct (lookup_lt_is_Some_2 (ends t) (S i - 1)) as [x ->].
  { apply lookup_lt_Some in E. lia. }
  by eexists.
Qed.

(** ** Lemmas: reading a whole table *)

Lemma mapM_out_Ret {A B} (f : A → outcome B) l bs :
  mapM_out f l = Ret bs ↔ Forall2 (λ a b, f a = Ret b) l bs.
Proof.
  revert bs. induction l as [|a l IH]; intros bs; simpl.
  { split; [intros [= <-]; constructor|by inversion 1]. }
  rewrite outcome_bind_eq. split.
  - destruct (f a) eqn:E; [|done]. rewrite outcome_bind_eq.
    destruct (mapM_out f l) eqn:E'; [|done]. intros [= <-]. constructor; [done|by apply IH].
  - inversion 1 as [|? b ? bs' Hb Hbs]; simplify_eq. rewrite Hb, outcome_bind_eq.
    apply IH in Hbs as ->. done.
Qed.

Lemma iter_table_of ss :
  Forall is_str ss → Z.of_nat (length ss) <= W32 → iter (table_of ss) = Ret ss.
Proof.
  intros Hss Hlen. unfold iter. simpl. rewrite length_ends_of. apply mapM_out_Ret.
  apply Forall2_same_length_lookup_2; [apply length_seq|]. intros i x s Hx Hs.
  apply lookup_seq in Hx as [-> Hi]. unfold iter_at, as_u32. rewrite Z.mod_small by lia.
  rewrite get_table_of, Nat2Z.id, Nat.add_0_l, Hs by (done || lia). done.
Qed.

Lemma all_resolve_Ret t l :
  ∃ b, all_resolve t l = Ret b ∧
    (b = true ↔ ∀ i, i ∈ l → ∃ s, get t (as_u32 (Z.of_nat i)) = Ret (Some s)).
Proof.
  induction l as [|i l (b & Hb & IH)]; simpl.
  { exists true. split; [done|]. split; [|done]. intros _ i ?%elem_of_nil. done. }
  destruct (get_total t (as_u32 (Z.of_nat i))) as [[s|] E]; rewrite E, outcome_bind_eq.
  - exists b. split; [done|]. rewrite IH. setoid_rewrite elem_of_cons. split.
    + intros H j [->|?]; eauto.
    + eauto.
  - exists false. split; [done|]. split; [done|]. intros H.
    destruct (H i ltac:(left)) as [s Hs]. congruence.
Qed.

Lemma offsets_ok_alt n prev l :
  offsets_ok n prev l = true ↔
  ∀ i e, l !! i = Some e → match i with O => prev | S i => default 0 (l !! i) end <= e <= n.
Proof.
  revert prev. induction l as [|e l IH]; intros prev; simpl.
  { split; [intros _ i e ?; by rewrite lookup_nil in *|done]. }
  destruct (Z.ltb_spec e prev), (Z.ltb_spec n e); simpl;
    try (split; [done|intros H'; specialize (H' 0%nat e eq_refl); simpl in H'; lia]).
  rewrite IH. split.
  - intros H' [|i] e' He'; [injection He' as <-; lia|]. specialize (H' i e' He').
    by destruct i.
  - intros H' i e' He'. specialize (H' (S i) e' He'). by destruct i.
Qed.

Lemma str_get_Some bs s e x :
  0 <= s → str_get bs s e = Some x →
  s <= e <= Z.of_nat (length bs) ∧ x = take (Z.to_nat (e - s)) (drop (Z.to_nat s) bs).
Proof.
  intros Hs. unfold str_get. destruct (Z.leb_spec s e); [simpl|done].
  destruct (is_char_boundary bs s); [simpl|done]. unfold is_char_boundary.
  destruct (Z.eqb_spec e 0) as [->|]; [intros [= <-]; split; [lia|done]|].
  destruct (bs !! Z.to_nat e) as [b|] eqn:E.
  - apply lookup_lt_Some in E. destruct (negb _); [|done]. intros [= <-]. split; [lia|done].
  - destruct (Z.eqb_spec e (Z.of_nat (length bs))); [|done]. intros [= <-]. split; [lia|done].
Qed.

Lemma iter_lookup t ss i s :
  Z.of_nat (length (ends t)) <= W32 → iter t = Ret ss → ss !! i = Some s →
  get t (Z.of_nat i) = Ret (Some s).
Proof.
  intros Hlen Hit Hs. unfold iter in Hit. apply mapM_out_Ret in Hit.
  pose proof (Forall2_length _ _ _ Hit) as Hl. rewrite length_seq in Hl.
  destruct (Forall2_lookup_r _ _ _ _ _ Hit Hs) as (k & Hk & Hg).
  apply lookup_seq in Hk as [-> Hi]. unfold iter_at, as_u32 in Hg.
  rewrite Z.mod_small in Hg by lia. destruct (get_total t (Z.of_nat i)) as [o Ho].
  rewrite Nat.add_0_l, Ho, outcome_bind_eq in Hg. destruct o; simplify_eq/=. done.
Qed.

(** The offsets of a table that reads back are its strings' own. *)
Lemma iter_prefix t ss k :
  Z.of_nat (length (ends t)) <= W32 → iter t = Ret ss → (k <= length ss)%nat →
  match k with O => Some 0 | S i => ends t !! i end
    = Some (Z.of_nat (length (mjoin (take k ss)))) ∧
  mjoin (take k ss) = take (length (mjoin (take k ss))) (data t).
Proof.
  intros Hlen Hit. induction k as [|k IH]; intros Hk; [done|].
  destruct (IH ltac:(lia)) as [Hst Hpre]. clear IH.
  destruct (lookup_lt_is_Some_2 ss k) as [s Hs]; [lia|].
  pose proof (iter_lookup t ss k s Hlen Hit Hs) as Hg.
  unfold get, index in Hg. rewrite Nat2Z.id in Hg.
  destruct (ends t !! k) as [e|] eqn:He; [|done].
  assert (str_get (data t) (Z.of_nat (length (mjoin (take k ss)))) e = Some s) as Hsg.
  { destruct k as [|k]; rewrite ?Nat.sub_succ, ?Nat.sub_0_r in Hg.
    - by injection Hg.
    - rewrite Hst in Hg. by injection Hg. }
  apply str_get_Some in Hsg as [Hb ->]; [|lia]. set (d := data t) in *.
  rewrite (take_S_r _ _ _ Hs), join_app. cbn [mjoin list_join]. rewrite app_nil_r, !length_app.
  set (n := length (mjoin (take k ss))) in *. rewrite Nat2Z.id, length_take, length_drop.
  rewrite Nat.min_l by lia. split; [f_equal; lia|]. rewrite Hpre at 1. unfold n at 1.
  fold n. by rewrite take_take_drop.
Qed.

Lemma iter_shape t ss :
  Z.of_nat (length (ends t)) <= W32 → iter t = Ret ss →
  length ss = length (ends t) ∧ (∃ rest, data t = mjoin ss ++ rest) ∧
  (∀ r, 0 <= r → get t r = Ret (ss !! Z.to_nat r)) ∧
  offsets_ok (Z.of_nat (length (data t))) 0 (ends t) = true.
Proof.
  intros Hlen Hit. pose proof Hit as Hl. unfold iter in Hl. apply mapM_out_Ret in Hl.
  apply Forall2_length in Hl. rewrite length_seq in Hl. split; [done|]. split; [|split].
  - destruct (iter_prefix t ss (length ss) Hlen Hit ltac:(lia)) as [_ H].
    rewrite firstn_all in H. eexists. rewrite H. symmetry. apply take_drop.
  - intros r Hr. destruct (ss !! Z.to_nat r) as [s|] eqn:E.
    + rewrite <- (Z2Nat.id r) at 1 by done. by eapply iter_lookup.
    + apply lookup_ge_None_1 in E. unfold get, index.
      by rewrite (lookup_ge_None_2 (ends t)) by lia.
  - apply offsets_ok_alt. intros i e He. pose proof (lookup_lt_Some _ _ _ He) as Hi.
    destruct (iter_prefix t ss (S i) Hlen Hit ltac:(lia)) as [H1 H2].
    destruct (iter_prefix t ss i Hlen Hit ltac:(lia)) as [H1' H2'].
    destruct (lookup_lt_is_Some_2 ss i) as [s Hs]; [lia|].
    rewrite He in H1. injection H1 as ->. apply (f_equal length) in H2. rewrite length_take in H2.
    rewrite (take_S_r _ _ _ Hs), join_app, length_app in *.
    split; [|lia]. destruct i as [|i]; [lia|]. rewrite H1'. simpl. lia.
Qed.

(** ** Lemmas: interning *)

(** The interner holds the strings [ss]. *)
Record holds (si : StringInterner) (ss : list str) : Prop := {
  h_table : table si = table_of ss;
  h_index : ∀ s r, si_index si !! s = Some r ↔ 0 <= r ∧ ss !! Z.to_nat r = Some s;
  h_str : Forall is_str ss
}.

Lemma holds_new : holds interner_new [].
Proof. split; [done| |constructor]. intros s r. simpl. rewrite lookup_empty. naive_solver. Qed.

Definition fits (ss : list str) : Prop :=
  Z.of_nat (length ss) <= W32 ∧ Z.of_nat (length (mjoin ss)) < W32.

Lemma st_intern_spec si ss s :
  holds si ss → is_str s → fits (seen ss s) →
  ∃ r si', intern si s = Ret (r, si') ∧ holds si' (seen ss s) ∧
    0 <= r ∧ seen ss s !! Z.to_nat r = Some s.
Proof.
  intros [Ht Hix Hss] Hs. unfold seen, intern. destruct (si_index si !! s) as [r|] eqn:E.
  - intros _. pose proof E as [Hr0 Hr]%Hix.
    rewrite decide_True by (by eapply list_elem_of_lookup_2). by exists r, si.
  - rewrite decide_False.
    2:{ intros [i Hi]%list_elem_of_lookup. assert (si_index si !! s = Some (Z.of_nat i)).
        { apply Hix. rewrite Nat2Z.id. split; [lia|done]. } congruence. }
    intros [Hf1 Hf2]. rewrite length_app in Hf1. rewrite join_app, length_app in Hf2.
    cbn [mjoin list_join length] in Hf1, Hf2. rewrite app_nil_r in Hf2.
    rewrite Ht. cbn [table_of data ends]. rewrite length_ends_of, length_app. unfold try_u32.
    rewrite !(proj2 (Z.ltb_lt _ _)) by lia. rewrite !outcome_bind_eq.
    eexists _, _. split; [done|]. split; [|split; [lia|]].
    + split; simpl.
      * unfold table_of. rewrite join_app, ends_of_app. simpl. by rewrite app_nil_r.
      * intros s' r. rewrite lookup_insert_Some, Hix, lookup_app_Some. split.
        -- intros [[-> <-]|[Hne [Hr Hs']]]; [|by eauto]. rewrite Nat2Z.id, Nat.sub_diag.
           split; [lia|]. by right.
        -- intros [Hr [Hs'|[Hle Hs']]].
           ++ right. split; [|done]. intros ->.
              assert (si_index si !! s' = Some r) by (by apply Hix). congruence.
           ++ left. destruct (Z.to_nat r - length ss)%nat eqn:?; simplify_eq/=.
              split; [done|]. lia.
      * apply Forall_app. by repeat constructor.
    + by rewrite Nat2Z.id, lookup_app_r, Nat.sub_diag by done.
Qed.

Lemma foldl_seen_prefix acc l : acc `prefix_of` foldl seen acc l.
Proof.
  revert acc. induction l as [|s l IH]; intros acc; [done|]. simpl.
  trans (seen acc s); [|apply IH]. unfold seen. case_decide; [done|by apply prefix_app_r].
Qed.

Lemma fits_prefix ss ss' : ss `prefix_of` ss' → fits ss' → fits ss.
Proof. intros [k ->] [H1 H2]. rewrite length_app in H1. rewrite join_app, length_app in H2.
  split; lia. Qed.

Lemma st_intern_all_spec l si ss :
  holds si ss → Forall is_str l → fits (foldl seen ss l) →
  ∃ rs si', intern_all si l = Ret (rs, si') ∧ holds si' (foldl seen ss l) ∧
    Forall2 (λ s r, 0 <= r ∧ foldl seen ss l !! Z.to_nat r = Some s) l rs.
Proof.
  intros Hsi Hl. revert si ss Hsi. induction Hl as [|s l Hs _ IH]; intros si ss Hsi Hf.
  { by exists [], si. }
  simpl in Hf. pose proof (foldl_seen_prefix (seen ss s) l) as Hp.
  destruct (st_intern_spec si ss s Hsi Hs ltac:(by eapply fits_prefix))
    as (r & si1 & E1 & Hsi1 & Hr & Hrs).
  destruct (IH si1 (seen ss s) Hsi1 Hf) as (rs & si2 & E2 & Hsi2 & Hrest).
  exists (r :: rs), si2. cbn [intern_all]. rewrite E1, outcome_bind_eq. cbv beta iota.
  rewrite E2, outcome_bind_eq. split; [done|]. split; [done|]. constructor; [|done].
  split; [done|]. by eapply prefix_lookup_Some.
Qed.

Lemma foldl_seen_NoDup acc l : NoDup acc → NoDup (foldl seen acc l).
Proof.
  revert acc. induction l as [|s l IH]; intros acc Ha; [done|]. apply IH. unfold seen.
  case_decide; [done|]. apply NoDup_app. split; [done|]. split; [|apply NoDup_singleton].
  intros x Hx ->%list_elem_of_singleton. done.
Qed.

Lemma well_formed_alt t :
  ∃ b, is_well_formed t = Ret b ∧
    (b = true ↔ offsets_ok (Z.of_nat (length (data t))) 0 (ends t) = true ∧
       ∃ ss, iter t = Ret ss).
Proof.
  unfold is_well_formed. destruct (offsets_ok _ _ _); [|by exists false; naive_solver].
  destruct (all_resolve_Ret t (seq 0 (length (ends t)))) as (b & Hb & Hspec).
  exists b. split; [done|]. rewrite Hspec. clear Hspec. split.
  - intros H. split; [done|]. unfold iter. induction (seq _ _) as [|i l IH]; [by eexists|].
    destruct (H i ltac:(left)) as [s Hs]. destruct IH as [ss Hss].
    { simpl in Hb. rewrite Hs, outcome_bind_eq in Hb. done. }
    { intros j Hj. apply H. by right. }
    exists (s :: ss). cbn [mapM_out].
    assert (iter_at t i = Ret s) as -> by (unfold iter_at; by rewrite Hs).
    by rewrite outcome_bind_eq, Hss.
  - intros [_ [ss Hss]] i Hi. unfold iter in Hss. apply mapM_out_Ret in Hss.
    apply list_elem_of_lookup in Hi as [k Hk].
    destruct (Forall2_lookup_l _ _ _ _ _ Hss Hk) as (s & _ & Hit). unfold iter_at in Hit.
    destruct (get_total t (as_u32 (Z.of_nat i))) as [o Ho].
    rewrite Ho, outcome_bind_eq in Hit. destruct o; simplify_eq/=. eauto.
Qed.

(** ** Properties *)

(** C38: interning strings that fit a table never panics; equal strings get
    equal refs and different ones different refs; the finished table gives each
    string back, passes its own well-formedness check, and reads back as the
    distinct strings in the order they were first seen. *)
Theorem string_interning_correct (l : list str) :
  Forall is_str l → fits (first_seen l) →
  ∃ refs si, intern_all interner_new l = Ret (refs, si) ∧
    (∀ i s r, l !! i = Some s → refs !! i = Some r → get (finish si) r = Ret (Some s)) ∧
    (∀ i j s s' r r', l !! i = Some s → refs !! i = Some r → l !! j = Some s' →
       refs !! j = Some r' → (s = s' ↔ r = r')) ∧
    iter (finish si) = Ret (first_seen l) ∧
    is_well_formed (finish si) = Ret true.
Proof.
  intros Hl Hf.
  destruct (st_intern_all_spec l interner_new [] holds_new Hl Hf) as (rs & si & E & Hsi & Hrs).
  fold (first_seen l) in *. destruct Hsi as [Ht _ Hstr].
  exists rs, si. split; [done|]. unfold finish. rewrite Ht. destruct Hf as [Hf1 Hf2].
  assert (Z.of_nat (length (ends (table_of (first_seen l)))) <= W32) as Hle
    by (simpl; by rewrite length_ends_of).
  pose proof (iter_table_of _ Hstr Hf1) as Hit.
  split; [|split; [|split; [done|]]].
  - intros i s r Hi Hr. destruct (Forall2_lookup_lr _ _ _ _ _ _ Hrs Hi Hr) as [Hr0 Hs].
    by rewrite get_table_of, Hs by done.
  - intros i j s s' r r' Hi Hr Hj Hr'.
    destruct (Forall2_lookup_lr _ _ _ _ _ _ Hrs Hi Hr) as [Hr0 Hs].
    destruct (Forall2_lookup_lr _ _ _ _ _ _ Hrs Hj Hr') as [Hr0' Hs']. split.
    + intros <-. pose proof (foldl_seen_NoDup [] l (NoDup_nil_2)) as Hnd.
      rewrite NoDup_alt in Hnd. pose proof (Hnd _ _ _ Hs Hs'). lia.
    + intros <-. congruence.
  - destruct (well_formed_alt (table_of (first_seen l))) as (b & Hb & Hspec). rewrite Hb.
    f_equal. apply Hspec. split; [|by eexists].
    by destruct (iter_shape _ _ Hle Hit) as (_ & _ & _ & ?).
Qed.

(** For any table at all, however corrupt, [get] and the well-formedness
    check return without panicking; the check accepts exactly the tables whose
    every string reads back, and such a table is its strings laid end to end,
    [get] giving each. *)
Theorem table_check_exact (t : StringTable) :
  len t <= W32 →
  (∀ r, ∃ o, get t r = Ret o) ∧
  ∃ b, is_well_formed t = Ret b ∧
    (b = true ↔ ∃ ss, iter t = Ret ss) ∧
    ∀ ss, iter t = Ret ss →
      len t = Z.of_nat (length ss) ∧ (∃ rest, data t = mjoin ss ++ rest) ∧
      ∀ r, 0 <= r → get t r = Ret (ss !! Z.to_nat r).
Proof.
  unfold len. intros Hlen. split; [apply get_total|].
  destruct (well_formed_alt t) as (b & Hb & Hspec). exists b. split; [done|]. split.
  - rewrite Hspec. split; [naive_solver|]. intros [ss Hss]. split; [|eauto].
    by destruct (iter_shape _ _ Hlen Hss) as (_ & _ & _ & ?).
  - intros ss Hss. destruct (iter_shape _ _ Hlen Hss) as (-> & ? & ? & _). done.
Qed.

(** ** Witnesses *)

Lemma string_interning_correct_witness :
  ∃ refs si,
    intern_all interner_new (bytes_of_string <$> ["Δ"; "plain"; "Δ"; "T"]%string)
      = Ret (refs, si) ∧
    refs = [0; 1; 0; 2] ∧ is_well_formed (finish si) = Ret true.
Proof.
  destruct (string_interning_correct (bytes_of_string <$> ["Δ"; "plain"; "Δ"; "T"]%string))
    as (refs & si & E & _ & _ & _ & W); [repeat constructor|split; vm_compute; congruence|].
  exists refs, si. split; [exact E|]. split; [|exact W]. vm_compute in E. by injection E as <- _.
Defined.

Lemma table_check_exact_witness :
  let t := mkStringTable (bytes_of_string "λ") [1; 2] in
  is_well_formed t = Ret false ∧ ∃ o, get t 0 = Ret o.
Proof.
  intros t. split; [reflexivity|].
  apply (table_check_exact t); vm_compute; congruence.
Defined.
