(* ===== verification/Schema.v ===== *)
(** The bundle's description of a program's types and of how to show their
    values ([hansei-bundle/src/schema.rs], [shape.rs] and [lib.rs]): type
    definitions, selectors, display programs and what they require of the types
    they land on, and the operations on them. *)

From S2P Require Import Prelude Text StringTable.

Local Open Scope Z_scope.
#[local] Set Warnings "-register-all".

(** ** Types *)

(** A [BundleTypeId] is an index into the type table; nothing is computed
    with it. *)
Abbreviation BundleTypeId := nat (only parsing).

Inductive Encoding :=
  | Address | Boolean | Float | Signed | Unsigned | SignedChar | UnsignedChar | UtfChar.

#[global] Instance encoding_eq_dec : EqDecision Encoding.
Proof. solve_decision. Defined.

Record SourceLoc := mkSourceLoc { loc_file : StrRef; loc_line : Z }.

Record MemberDef := mkMember {
  m_name : StrRef;
  m_ty : BundleTypeId;
  m_offset : Z
}.

Record DiscrDef := mkDiscr { d_offset : Z; d_ty : BundleTypeId }.

(** Discriminants are [u128]s. *)
Inductive DiscrValue :=
  | DValue (x : Z)
  | DRange (lo hi : Z).

Definition DiscrValues := list DiscrValue.

Definition discr_matches (dv : DiscrValues) (raw : Z) : bool :=
  existsb (λ v, match v with
                | DValue x => x =? raw
                | DRange lo hi => (lo <=? raw) && (raw <=? hi)
                end) dv.

Record VariantDef := mkVariant {
  v_name : StrRef;
  v_discr_values : option DiscrValues;
  v_payload : MemberDef;
  v_decl : option SourceLoc;
  v_await_site : option SourceLoc
}.

Record VariantShape := mkShape {
  discr : option DiscrDef;
  variants : list VariantDef
}.

Inductive TypeDef :=
  | TBase (nm : StrRef) (size : Z) (encoding : Encoding)
  | TPointer (nm : option StrRef) (target : BundleTypeId)
  | TArray (elem : BundleTypeId) (count : Z)
  | TStruct (nm : StrRef) (size : Z) (members : list MemberDef)
  | TUnion (nm : StrRef) (size : Z) (members : list MemberDef)
  | TEnum (nm : StrRef) (size : Z) (shape : VariantShape)
  | TCEnum (nm : StrRef) (size : Z) (repr : BundleTypeId) (enumerators : list (StrRef * Z))
  | TOpaque (nm : StrRef) (size : option Z).

Definition POINTER_SIZE : Z := 8.

(** ** Paths *)

Inductive MemberRef :=
  | Index (index : Z)
  | Named (nm : StrRef).

Inductive Step :=
  | Member (at_ : MemberRef)
  | Deref
  | Variant (nm : StrRef)
  | ActiveVariant.

#[global] Instance member_ref_eq_dec : EqDecision MemberRef.
Proof. solve_decision. Defined.
#[global] Instance step_eq_dec : EqDecision Step.
Proof. solve_decision. Defined.

Definition Selector := list Step.

(** The positions below [count] a predicate holds of. *)
Definition positions (count : nat) (p : nat → bool) : list nat :=
  filter (λ i, p i = true) (seq 0 count).

(** [MemberRef::resolve]. *)
Definition member_ref_resolve (at_ : MemberRef) (count : nat) (is_named : nat → StrRef → bool)
    : option nat :=
  match at_ with
  | Index i => if i <? Z.of_nat count then Some (Z.to_nat i) else None
  | Named nm =>
      match positions count (λ i, is_named i nm) with
      | [i] => Some i
      | _ => None
      end
  end.

(** ** Display programs *)

Inductive FieldRender :=
  | REnum (table : list (Z * StrRef))
  | RUint.

(** [shift] is a [u8]; [width] a nonzero [u8] or none. *)
Record BitField := mkBitField {
  bf_name : StrRef;
  bf_shift : Z;
  bf_width : option Z;
  bf_render : FieldRender
}.

Inductive ScalarDecode :=
  | Raw
  | Millis
  | Bits (fields : list BitField).

Inductive Notation_ := IpAddr | Uuid | Hex | PaddedText.

Inductive ValueExpr :=
  | Read (sel : Selector)
  | Const (v : Z)
  | And (a b : ValueExpr)
  | Not (a : ValueExpr)
  | Ne (a b : ValueExpr)
  | Var (i : Z)
  | Load (addr : ValueExpr) (size : Z)
  | Add (a b : ValueExpr)
  | Sub (a b : ValueExpr)
  | Mul (a b : ValueExpr)
  | Lt (a b : ValueExpr)
  | Shl (a b : ValueExpr).

Inductive Stmt :=
  | Set_ (var : Z) (value : ValueExpr)
  | If_ (cond : ValueExpr) (then_ otherwise : list Stmt)
  | Emit (at_ : ValueExpr)
  | Break (cond : ValueExpr).

Inductive MapEntries :=
  | BTree (root root_node height node : Selector) (leaf : BundleTypeId)
      (leaf_len leaf_keys leaf_values : Selector) (internal : BundleTypeId)
      (internal_data internal_edges edge : Selector)
  | Hash (bucket_mask ctrl : Selector) (bucket : BundleTypeId) (key : Selector)
      (value : option Selector).

Inductive DisplayNode :=
  | NScalar (at_ : Selector) (decode : ScalarDecode)
  | NComputed (value : ValueExpr) (decode : ScalarDecode)
  | NSymbol (at_ : Selector)
  | NStruct (fields : list Field)
  | NList (head next : Selector) (node : DisplayNode) (node_ty : BundleTypeId)
  | NStr (pointer length : Selector) (capacity : option Selector) (nul_terminated : bool)
      (offset : Z)
  | NSlice (pointer length : Selector) (capacity head : option Selector)
      (element : BundleTypeId)
  | NBytes (at_ : Selector) (notation : Notation_)
  | NSocketAddr (ip port : Selector) (scope_id : option Selector)
  | NAlias (at_ : Selector) (follow_pointers : bool)
  | NSlotCount (bitmap slots : Selector)
  | NPointer (at_ via : Selector) (then_ : DisplayNode)
  | NDynPointer (pointer vtable : Selector) (drop_in_place size align : Z)
      (tail_prefixes : list Z)
  | NMap (length : Selector) (key : BundleTypeId) (value : option BundleTypeId)
      (entries : MapEntries)
  | NVariant (discriminant : ValueExpr) (arms : list Arm) (default_ : option DisplayNode)
  | NCustomList (vars : list ValueExpr) (condition : ValueExpr) (body : list Stmt)
      (element : BundleTypeId)
with Field :=
  | FMember (at_ : MemberRef) (node : option DisplayNode)
  | FSynth (label : StrRef) (node : DisplayNode)
with Arm :=
  | mkArm (value : Z) (label : option StrRef) (payload : option DisplayNode).

(** ** The type table *)

Record TypeTable := mkTypeTable {
  types : list TypeDef;
  debug_formats : list (BundleTypeId * DisplayNode)
}.

Definition ty_get (t : TypeTable) (id : BundleTypeId) : option TypeDef :=
  types t !! id.

(** [TypeTable::size_of]: an array's elements are followed, and one that
    contains itself has no size.  The types followed are distinct and in the
    table, so its length is enough fuel ([size_of_fuel]). *)
Fixpoint size_of_go (fuel : nat) (t : TypeTable) (id : BundleTypeId) (seen : list BundleTypeId)
    : option Z :=
  match fuel with
  | O => None
  | S fuel =>
      if bool_decide (id ∈ seen) then None
      else
        def ← ty_get t id;
        match def with
        | TBase _ size _ | TStruct _ size _ | TUnion _ size _ | TEnum _ size _
        | TCEnum _ size _ _ => Some size
        | TPointer _ _ => Some POINTER_SIZE
        | TArray elem count =>
            size ← size_of_go fuel t elem (id :: seen); checked_mul size count
        | TOpaque _ size => size
        end
  end.

Definition size_of (t : TypeTable) (id : BundleTypeId) : option Z :=
  size_of_go (S (S (length (types t)))) t id [].
Arguments size_of : simpl never.

(** ** Shapes *)

Inductive Shape :=
  | Word
  | Uint (size : Z)
  | Int (size : Z)
  | PointerSized
  | ShPointer
  | ShArray
  | Any.

Record Addressed := mkAddressed {
  ad_sel : Selector;
  ad_shape : Shape;
  root_allowed : bool;
  variants_allowed : bool
}.

Definition addressed_new (sel : Selector) (sh : Shape) : Addressed :=
  mkAddressed sel sh false false.
Definition at_root (a : Addressed) : Addressed :=
  mkAddressed (ad_sel a) (ad_shape a) true (variants_allowed a).
Definition guarded (a : Addressed) : Addressed :=
  mkAddressed (ad_sel a) (ad_shape a) (root_allowed a) true.

(** [Option] in a list. *)
Definition opt_list {A B} (f : A → B) (o : option A) : list B :=
  match o with Some a => [f a] | None => [] end.

Definition buffer (pointer len_ : Selector) (capacity : option Selector) (word : Z)
    : list Addressed :=
  [addressed_new pointer ShPointer; addressed_new len_ (Uint word)]
  ++ opt_list (λ c, addressed_new c (Uint word)) capacity.

Definition addressed (n : DisplayNode) : list Addressed :=
  let word := POINTER_SIZE in
  match n with
  | NScalar at_ _ => [addressed_new at_ Word]
  | NSymbol at_ => [at_root (addressed_new at_ ShPointer)]
  | NList head _ _ _ => [addressed_new head PointerSized]
  | NStr pointer len_ capacity _ _ => buffer pointer len_ capacity word
  | NSlice pointer len_ capacity head _ =>
      buffer pointer len_ capacity word ++ opt_list (λ h, addressed_new h (Uint word)) head
  | NBytes at_ _ => [addressed_new at_ ShArray]
  | NSocketAddr ip port scope_id =>
      [addressed_new ip ShArray; addressed_new port (Uint 2)]
      ++ opt_list (λ s, addressed_new s (Uint 4)) scope_id
  | NAlias at_ _ => [guarded (addressed_new at_ Any)]
  | NSlotCount bitmap slots => [addressed_new bitmap (Uint word); addressed_new slots ShArray]
  | NPointer at_ _ _ => [addressed_new at_ ShPointer]
  | NDynPointer pointer vtable _ _ _ _ =>
      [addressed_new pointer ShPointer; addressed_new vtable ShPointer]
  | NMap len_ _ _ entries =>
      addressed_new len_ (Uint word) ::
      match entries with
      | BTree root _ _ _ _ _ _ _ _ _ _ _ => [addressed_new root Any]
      | Hash bucket_mask ctrl _ _ _ =>
          [addressed_new bucket_mask (Uint word); addressed_new ctrl ShPointer]
      end
  | NStruct _ | NVariant _ _ _ | NComputed _ _ | NCustomList _ _ _ _ => []
  end.
