(* ===== verification/BundleCheck.v ===== *)
(** Validation of a bundle's types, display programs and walk bindings
    ([hansei-bundle/src/io.rs]): the selector traversals, the shape table, and
    the recursive checks of a display program.

    Every error of this file is the source's [Error::Corrupt] with a message
    naming the place; the message is dropped, so a check is an
    [outcome (option A)]: [pass a], that is [Ret (Some a)], is [Ok a], [Ret None] is
    [Err(Corrupt(_))], and [Panic] an [expect] or [unreachable!] that fired. *)

From S2P Require Import Prelude Text StringTable Schema.

Local Open Scope Z_scope.

Definition pass {A} (a : A) : outcome (option A) := Ret (Some a).
Definition corrupt {A} : outcome (option A) := Ret None.

(** A guard that returns early with an error when [b] holds. *)
Definition fail_if (b : bool) : outcome (option ()) := if b then corrupt else pass ().

(** A [for] loop whose body may return an error. *)
Definition try_all {A} (f : A → outcome (option ())) : list A → outcome (option ()) :=
  fix go l := match l with
              | [] => pass ()
              | a :: l => _ ←? f a; go l
              end.

(** [Vec::extend] of each body's result. *)
Definition try_concat {A B} (f : A → outcome (option (list B)))
    : list A → outcome (option (list B)) :=
  fix go l := match l with
              | [] => pass []
              | a :: l => bs ←? f a; rest ←? go l; pass (bs ++ rest)
              end.

(** ** The bundle *)

(** A [WalkRole] is its place in the declaration order. *)
Abbreviation WalkRole := Z (only parsing).

Inductive WalkOutcome :=
  | Bound (spelling spellings : Z) (note : option string)
  | Absent (reason : string)
  | Broken (errors : list string).

Record WalkBinding := mkBinding {
  roots : list BundleTypeId;
  steps : list Step;
  wb_outcome : WalkOutcome
}.

Record Bundle := mkBundle {
  b_strings : StringTable;
  b_types : TypeTable;
  b_walks : list (WalkRole * WalkBinding)
}.

(** ** Selectors *)

Definition member_at (members : list MemberDef) (at_ : MemberRef) : option MemberDef :=
  index ← member_ref_resolve at_ (length members)
            (λ i nm, match members !! i with Some m => m_name m =? nm | None => false end);
  members !! index.

Definition variant_named (sh : VariantShape) (nm : StrRef) : option VariantDef :=
  match filter (λ v, v_name v = nm) (variants sh) with
  | [v] => Some v
  | _ => None
  end.

(** The members of a struct or a union. *)
Definition aggregate_members (def : TypeDef) : option (list MemberDef) :=
  match def with
  | TStruct _ _ members | TUnion _ _ members => Some members
  | _ => None
  end.

(** The [inline] closure: where a member lies within the current allocation,
    when it is sized and within its parent. *)
Definition inline (t : TypeTable) (parent : BundleTypeId) (member : MemberDef) (offset : Z)
    : option Z :=
  size ← size_of t (m_ty member);
  parent_size ← size_of t parent;
  end_ ← checked_add (m_offset member) size;
  if end_ >? parent_size then None
  else
    offset ← checked_add offset (m_offset member);
    _ ← checked_add offset size;
    Some offset.

Definition is_union (def : TypeDef) : bool :=
  match def with TUnion _ _ _ => true | _ => false end.
Definition is_named_ref (at_ : MemberRef) : bool :=
  match at_ with Named _ => true | Index _ => false end.

(** The loop of [selector_target_with_policy]: its local state is the current
    type and its definition, the types of the current allocation, and the
    offset into it. *)
Fixpoint selector_go (t : TypeTable) (semantic : bool) (sel : Selector)
    (current : BundleTypeId) (def : TypeDef) (seen : list BundleTypeId) (offset : Z)
    : option (BundleTypeId * Z) :=
  match sel with
  | [] => Some (current, offset)
  | Member at_ :: sel =>
      if semantic && (negb (is_named_ref at_) || is_union def) then None
      else
        members ← aggregate_members def;
        member ← member_at members at_;
        offset ← (if semantic then inline t current member offset else Some offset);
        if bool_decide (m_ty member ∈ seen) then None
        else
          def ← ty_get t (m_ty member);
          selector_go t semantic sel (m_ty member) def (m_ty member :: seen) offset
  | Deref :: sel =>
      match def with
      | TPointer _ target =>
          def ← ty_get t target;
          selector_go t semantic sel target def [target] 0
      | _ => None
      end
  | Variant nm :: sel =>
      match def with
      | TEnum _ _ sh =>
          variant ← variant_named sh nm;
          let payload := v_payload variant in
          offset ← (if semantic then inline t current payload offset else Some offset);
          if bool_decide (m_ty payload ∈ seen) then None
          else
            def ← ty_get t (m_ty payload);
            selector_go t semantic sel (m_ty payload) def (m_ty payload :: seen) offset
      | _ => None
      end
  | ActiveVariant :: _ => None
  end.

Definition selector_target_with_policy (t : TypeTable) (root : BundleTypeId) (sel : Selector)
    (semantic : bool) : option BundleTypeId :=
  def ← ty_get t root;
  '(current, _) ← selector_go t semantic sel root def [root] 0;
  if semantic && bool_decide (size_of t current = None) then None else Some current.

Definition selector_target (t : TypeTable) (root : BundleTypeId) (sel : Selector)
    : option BundleTypeId :=
  selector_target_with_policy t root sel false.

Definition semantic_path_target (t : TypeTable) (root : BundleTypeId) (sel : Selector)
    : option BundleTypeId :=
  selector_target_with_policy t root sel true.

Fixpoint selector_offset_go (t : TypeTable) (sel : Selector) (def : TypeDef) (offset : Z)
    : option Z :=
  match sel with
  | [] => Some offset
  | step :: sel =>
      '(member_offset, ty) ←
        match step with
        | Member at_ =>
            members ← aggregate_members def;
            member ← member_at members at_;
            Some (m_offset member, m_ty member)
        | Variant nm =>
            match def with
            | TEnum _ _ sh =>
                variant ← variant_named sh nm;
                Some (m_offset (v_payload variant), m_ty (v_payload variant))
            | _ => None
            end
        | Deref | ActiveVariant => None
        end;
      offset ← checked_add offset member_offset;
      def ← ty_get t ty;
      selector_offset_go t sel def offset
  end.

Definition selector_offset (t : TypeTable) (root : BundleTypeId) (sel : Selector) : option Z :=
  def ← ty_get t root; selector_offset_go t sel def 0.

(** The [seen] vector is popped after each descent, so it is an argument. *)
Fixpoint walk_targets (t : TypeTable) (current : BundleTypeId) (steps : list Step)
    (seen : list BundleTypeId) : outcome (option (list BundleTypeId)) :=
  match steps with
  | [] => pass [current]
  | step :: rest =>
      def ← or_panic (ty_get t current);
      let descend ty :=
        if bool_decide (ty ∈ seen) then corrupt else walk_targets t ty rest (ty :: seen) in
      match step with
      | Member at_ =>
          members ←? Ret (aggregate_members def);
          member ←? Ret (member_at members at_);
          descend (m_ty member)
      | Deref =>
          match def with
          | TPointer _ target => walk_targets t target rest [target]
          | _ => corrupt
          end
      | Variant nm =>
          match def with
          | TEnum _ _ sh =>
              variant ←? Ret (variant_named sh nm);
              descend (m_ty (v_payload variant))
          | _ => corrupt
          end
      | ActiveVariant =>
          match def with
          | TEnum _ _ sh =>
              match variants sh with
              | [] => corrupt
              | vs => try_concat (λ v, descend (m_ty (v_payload v))) vs
              end
          | _ => corrupt
          end
      end
  end.

(** One binding of [check_walks]. *)
Definition check_walk (t : TypeTable) (binding : WalkBinding) : outcome (option ()) :=
  match wb_outcome binding with
  | Bound spelling spellings _ =>
      _ ←? fail_if (spelling >=? spellings);
      _ ←? fail_if (bool_decide (roots binding = []));
      try_all (λ root,
        _ ←? fail_if (bool_decide (ty_get t root = None));
        _ ←? walk_targets t root (steps binding) [root];
        pass ()) (roots binding)
  | Absent _ | Broken _ =>
      fail_if (negb (bool_decide (steps binding = [])) || negb (bool_decide (roots binding = [])))
  end.

Definition check_walks (b : Bundle) : outcome (option ()) :=
  try_all (λ e, check_walk (b_types b) e.2) (b_walks b).

(** ** Shapes *)

Definition is_base (def : option TypeDef) (size : Z) (enc : Encoding) : bool :=
  match def with
  | Some (TBase _ found e) => (found =? size) && bool_decide (e = enc)
  | _ => false
  end.

Definition shape_matches (t : TypeTable) (id : BundleTypeId) (sh : Shape) : bool :=
  let landed := ty_get t id in
  match sh with
  | Word => match size_of t id with Some n => (1 <=? n) && (n <=? 8) | None => false end
  | Uint size => is_base landed size Unsigned
  | Int size => is_base landed size Signed
  | PointerSized => bool_decide (size_of t id = Some POINTER_SIZE)
  | ShPointer => match landed with Some (TPointer _ _) => true | _ => false end
  | ShArray => match landed with Some (TArray _ _) => true | _ => false end
  | Any => true
  end.

Definition is_variant_step (s : Step) : bool :=
  match s with Variant _ => true | _ => false end.

Definition forbid_variant_steps (sel : Selector) (allow_variants : bool) : option () :=
  if negb allow_variants && existsb is_variant_step sel then None else Some ().

Definition check_selector (t : TypeTable) (root : BundleTypeId) (sel : Selector) (expect : Shape)
    (allow_variants : bool) : option BundleTypeId :=
  if bool_decide (sel = []) then None
  else
    _ ← forbid_variant_steps sel allow_variants;
    target ← selector_target t root sel;
    if shape_matches t target expect then Some target else None.

Definition check_addressed (t : TypeTable) (scope : BundleTypeId) (a : Addressed) : option () :=
  if bool_decide (ad_sel a = []) && root_allowed a
  then if shape_matches t scope (ad_shape a) then Some () else None
  else _ ← check_selector t scope (ad_sel a) (ad_shape a) (variants_allowed a); Some ().

(** ** Scalar decodes *)

Definition u64_not (x : Z) : Z := W64 - 1 - x.

(** The mask of a field of [width] bits. *)
Definition width_mask (width : Z) : Z :=
  if 64 <=? width then W64 - 1 else Z.shiftl 1 width - 1.

Definition check_ref (b : Bundle) (r : StrRef) : outcome (option ()) :=
  o ← get (b_strings b) r;
  match o with Some _ => pass () | None => corrupt end.

(** One field of [check_scalar_decode], and the bits covered after it. *)
Definition check_field_bits (b : Bundle) (word_bits covered : Z) (field : BitField)
    : outcome (option Z) :=
  _ ←? check_ref b (bf_name field);
  _ ←? fail_if (bf_shift field >=? word_bits);
  let width := default (word_bits - bf_shift field) (bf_width field) in
  _ ←? fail_if (bf_shift field + width >? word_bits);
  let value_mask := width_mask width in
  let field_mask := Z.shiftl value_mask (bf_shift field) `mod` W64 in
  _ ←? fail_if (negb (Z.land covered field_mask =? 0));
  _ ←? match bf_render field with
       | REnum table =>
           try_all (λ e,
             _ ←? check_ref b e.2;
             fail_if (negb (Z.land e.1 (u64_not value_mask) =? 0))) table
       | RUint => pass ()
       end;
  pass (Z.lor covered field_mask).

Fixpoint check_fields_bits (b : Bundle) (word_bits covered : Z) (fields : list BitField)
    : outcome (option ()) :=
  match fields with
  | [] => pass ()
  | field :: fields =>
      covered ←? check_field_bits b word_bits covered field;
      check_fields_bits b word_bits covered fields
  end.

Definition check_scalar_decode (b : Bundle) (decode : ScalarDecode) (word_bits : Z)
    : outcome (option ()) :=
  match decode with
  | Bits [] => corrupt
  | Bits fields => check_fields_bits b word_bits 0 fields
  | Raw | Millis => pass ()
  end.

(** ** Expressions and statements *)

Fixpoint check_value_expr (t : TypeTable) (scope : BundleTypeId) (e : ValueExpr) (num_vars : Z)
    : outcome (option ()) :=
  match e with
  | Const _ => pass ()
  | Read sel =>
      _ ←? fail_if (bool_decide (sel = []));
      targets ←? walk_targets t scope sel [scope];
      try_all (λ target, fail_if (negb (shape_matches t target Word))) targets
  | Var id => fail_if (id >=? num_vars)
  | Load addr size =>
      _ ←? fail_if (negb (bool_decide (size ∈ [1; 2; 4; 8])));
      check_value_expr t scope addr num_vars
  | Not inner => check_value_expr t scope inner num_vars
  | And a b | Ne a b | Add a b | Sub a b | Mul a b | Lt a b | Shl a b =>
      _ ←? check_value_expr t scope a num_vars;
      check_value_expr t scope b num_vars
  end.

Fixpoint check_stmt (t : TypeTable) (scope : BundleTypeId) (num_vars : Z) (s : Stmt)
    : outcome (option ()) :=
  match s with
  | Set_ var value =>
      _ ←? fail_if (var >=? num_vars);
      check_value_expr t scope value num_vars
  | If_ cond then_ otherwise =>
      _ ←? check_value_expr t scope cond num_vars;
      _ ←? try_all (check_stmt t scope num_vars) then_;
      try_all (check_stmt t scope num_vars) otherwise
  | Emit at_ => check_value_expr t scope at_ num_vars
  | Break cond => check_value_expr t scope cond num_vars
  end.

Definition check_stmts (t : TypeTable) (scope : BundleTypeId) (stmts : list Stmt) (num_vars : Z)
    : outcome (option ()) :=
  try_all (check_stmt t scope num_vars) stmts.

(** ** Maps *)

(** [iter().find] with a test that looks a string up. *)
Fixpoint find_variant (b : Bundle) (nm : str) (vs : list VariantDef)
    : outcome (option VariantDef) :=
  match vs with
  | [] => Ret None
  | v :: vs =>
      o ← get (b_strings b) (v_name v);
      if bool_decide (o = Some nm) then Ret (Some v) else find_variant b nm vs
  end.

Definition SOME_NAME : str := bytes_of_string "Some".

Definition is_unsigned (t : TypeTable) (ty : BundleTypeId) : bool :=
  match ty_get t ty with
  | Some (TBase _ size Unsigned) => (0 <? size) && (size <=? 8)
  | _ => false
  end.

Definition points_to (t : TypeTable) (ty target : BundleTypeId) : bool :=
  match ty_get t ty with
  | Some (TPointer _ found) => (found =? target)%nat
  | _ => false
  end.

(** The element and count of an array the shape table verified; anything else
    is [unreachable!]. *)
Definition array_or_panic (t : TypeTable) (ty : BundleTypeId) : outcome (BundleTypeId * Z) :=
  match ty_get t ty with
  | Some (TArray elem count) => Ret (elem, count)
  | _ => Panic
  end.

Definition pointer_or_panic (t : TypeTable) (ty : BundleTypeId) : outcome BundleTypeId :=
  match ty_get t ty with
  | Some (TPointer _ target) => Ret target
  | _ => Panic
  end.

(** Two sizes that are known and equal. *)
Definition same_size (t : TypeTable) (a b : BundleTypeId) : bool :=
  match size_of t a, size_of t b with
  | Some x, Some y => x =? y
  | _, _ => false
  end.

Definition check_hash_entries (t : TypeTable) (scope key : BundleTypeId)
    (value : option BundleTypeId) (ctrl : Selector) (bucket : BundleTypeId) (key_at : Selector)
    (value_at : option Selector) : outcome (option ()) :=
  ctrl ←? Ret (check_selector t scope ctrl ShPointer false);
  target ← pointer_or_panic t ctrl;
  _ ←? fail_if (negb (is_base (ty_get t target) 1 Unsigned));
  _ ←? fail_if (bool_decide (ty_get t bucket = None));
  _ ←? fail_if (bool_decide (size_of t bucket = None));
  k ←? Ret (check_selector t bucket key_at Any false);
  _ ←? fail_if (negb (k =? key)%nat);
  match value, value_at with
  | Some value, Some value_at =>
      v ←? Ret (check_selector t bucket value_at Any false);
      fail_if (negb (v =? value)%nat)
  | None, None => pass ()
  | _, _ => corrupt
  end.

Definition check_btree_entries (b : Bundle) (scope key value : BundleTypeId)
    (root root_node height node : Selector) (leaf : BundleTypeId)
    (leaf_len leaf_keys leaf_values : Selector) (internal : BundleTypeId)
    (internal_data internal_edges edge : Selector) : outcome (option ()) :=
  let t := b_types b in
  root ←? Ret (check_selector t scope root Any false);
  sh ←? match ty_get t root with Some (TEnum _ _ sh) => pass sh | _ => corrupt end;
  some ←? find_variant b SOME_NAME (variants sh);
  let some_ty := m_ty (v_payload some) in
  _ ←? Ret (forbid_variant_steps root_node false);
  node_ref ←? Ret (selector_target t some_ty root_node);
  height_ty ←? Ret (check_selector t node_ref height Any false);
  node_ptr ←? Ret (check_selector t node_ref node ShPointer false);
  _ ←? fail_if (bool_decide (ty_get t leaf = None));
  _ ←? fail_if (bool_decide (ty_get t internal = None));
  _ ←? fail_if (negb (is_unsigned t height_ty));
  _ ←? fail_if (negb (points_to t node_ptr leaf));
  len_ty ←? Ret (check_selector t leaf leaf_len Any false);
  _ ←? fail_if (negb (is_unsigned t len_ty));
  keys_ty ←? Ret (check_selector t leaf leaf_keys ShArray false);
  values_ty ←? Ret (check_selector t leaf leaf_values ShArray false);
  '(key_slot, key_slots) ← array_or_panic t keys_ty;
  '(value_slot, value_slots) ← array_or_panic t values_ty;
  _ ←? fail_if ((key_slots =? 0) || negb (key_slots =? value_slots)
                || negb (same_size t key_slot key) || negb (same_size t value_slot value));
  data_ty ←? Ret (check_selector t internal internal_data Any false);
  _ ←? fail_if (negb (data_ty =? leaf)%nat
                || negb (bool_decide (selector_offset t internal internal_data = Some 0)));
  edges_ty ←? Ret (check_selector t internal internal_edges ShArray false);
  '(edge_elem, edge_slots) ← array_or_panic t edges_ty;
  _ ←? fail_if (negb (edge_slots =? u64_add key_slots 1));
  _ ←? Ret (forbid_variant_steps edge false);
  edge_ptr ←? Ret (selector_target t edge_elem edge);
  fail_if (negb (points_to t edge_ptr leaf)).

Definition check_map_entries (b : Bundle) (scope key : BundleTypeId)
    (value : option BundleTypeId) (entries : MapEntries) : outcome (option ()) :=
  match entries, value with
  | BTree root root_node height node leaf leaf_len leaf_keys leaf_values internal
      internal_data internal_edges edge, Some value =>
      check_btree_entries b scope key value root root_node height node leaf leaf_len leaf_keys
        leaf_values internal internal_data internal_edges edge
  | BTree _ _ _ _ _ _ _ _ _ _ _ _, None => corrupt
  | Hash _ ctrl bucket key_at value_at, value =>
      check_hash_entries (b_types b) scope key value ctrl bucket key_at value_at
  end.

(** ** Trait objects *)

(** [str::starts_with]. *)
Definition bytes_prefix (p s : str) : bool := bool_decide (take (length p) s = p).

(** [names::is_trait_object]. *)
Definition is_trait_object (nm : str) : bool :=
  let nm := match nm with Byte.x28 :: rest => rest | _ => nm end in
  bytes_prefix (bytes_of_string "dyn ") nm.

(** The depth guard stops at eight wrappers, so nine calls are enough fuel. *)
Fixpoint dyn_tail_depth (fuel : nat) (b : Bundle) (id : BundleTypeId) (seen : list BundleTypeId)
    : outcome (option nat) :=
  match fuel with
  | O => Ret None
  | S fuel =>
      if (8 <=? length seen)%nat || bool_decide (id ∈ seen) then Ret None
      else
        def ←? Ret (ty_get (b_types b) id);
        nm ← match def with
             | TStruct nm _ _ | TOpaque nm _ => get (b_strings b) nm
             | _ => Ret None
             end;
        if match nm with Some nm => is_trait_object nm | None => false end then pass 0%nat
        else
          match def with
          | TStruct _ _ members =>
              tail ←? Ret (last members);
              inner ←? dyn_tail_depth fuel b (m_ty tail) (seen ++ [id]);
              pass (S inner)
          | _ => corrupt
          end
  end.

(** ** Display programs *)

(** The array of unsigned bytes a notation or an address reads, as its
    length. *)
Definition byte_array (t : TypeTable) (target : BundleTypeId) : outcome (option Z) :=
  '(elem, count) ← array_or_panic t target;
  match ty_get t elem with
  | Some (TBase _ size Unsigned) => _ ←? fail_if (negb (size =? 1)); pass count
  | _ => corrupt
  end.

Definition notation_admits (n : Notation_) (count : Z) : bool :=
  match n with
  | IpAddr => (count =? 4) || (count =? 16)
  | Uuid => count =? 16
  | Hex | PaddedText => 0 <? count
  end.

Definition check_dyn_pointer (b : Bundle) (scope : BundleTypeId) (pointer vtable : Selector)
    (drop_in_place size align : Z) (tail_prefixes : list Z) : outcome (option ()) :=
  let t := b_types b in
  _ ←? fail_if (bool_decide (pointer = vtable));
  data_ptr ←? Ret (selector_target t scope pointer);
  data_target ← pointer_or_panic t data_ptr;
  depth ←? dyn_tail_depth 9 b data_target [];
  _ ←? fail_if (negb (length tail_prefixes =? depth)%nat);
  vtable_ptr ←? Ret (selector_target t scope vtable);
  vtable_array ← pointer_or_panic t vtable_ptr;
  '(elem, count) ←? match ty_get t vtable_array with
                    | Some (TArray elem count) => pass (elem, count)
                    | _ => corrupt
                    end;
  _ ←? match ty_get t elem with
       | Some (TBase _ word_size Unsigned) => fail_if (negb (word_size =? POINTER_SIZE))
       | _ => corrupt
       end;
  _ ←? fail_if (existsb (λ slot, slot >=? count) [drop_in_place; size; align]);
  fail_if ((drop_in_place =? size) || (drop_in_place =? align) || (size =? align)).

(** A type that is in the table and sized. *)
Definition check_sized (t : TypeTable) (ty : BundleTypeId) : outcome (option ()) :=
  _ ←? fail_if (bool_decide (ty_get t ty = None));
  fail_if (bool_decide (size_of t ty = None)).

(** The [resolves] closure of the record node. *)
Definition check_member_field (members : option (list MemberDef)) (at_ : MemberRef)
    : outcome (option ()) :=
  members ←? Ret members;
  fail_if (bool_decide (member_at members at_ = None)).

(** A list or a ring header of a slice. *)
Definition is_none {A} (o : option A) : bool := match o with None => true | Some _ => false end.

Fixpoint check_node (b : Bundle) (scope : BundleTypeId) (node : DisplayNode) {struct node}
    : outcome (option ()) :=
  let t := b_types b in
  _ ←? try_all (λ a, Ret (check_addressed t scope a)) (addressed node);
  match node with
  | NScalar at_ decode =>
      landed ←? Ret (selector_target t scope at_);
      size ← or_panic (size_of t landed);
      check_scalar_decode b decode ((size * 8) `mod` 256)
  | NComputed value decode =>
      _ ←? check_value_expr t scope value 0;
      check_scalar_decode b decode 64
  | NSymbol _ => pass ()
  | NStruct fields =>
      let members := def ← ty_get t scope; aggregate_members def in
      try_all (check_field b scope members) fields
  | NList _ next node node_ty =>
      _ ←? fail_if (bool_decide (ty_get t node_ty = None));
      _ ←? Ret (check_selector t node_ty next PointerSized false);
      check_node b node_ty node
  | NStr _ _ _ _ _ => pass ()
  | NSlice _ _ capacity head element =>
      _ ←? fail_if (negb (is_none head) && is_none capacity);
      check_sized t element
  | NBytes at_ notation =>
      target ←? Ret (selector_target t scope at_);
      count ←? byte_array t target;
      fail_if (negb (notation_admits notation count))
  | NSocketAddr ip _ _ =>
      target ←? Ret (selector_target t scope ip);
      count ←? byte_array t target;
      fail_if (negb ((count =? 4) || (count =? 16)))
  | NAlias _ _ | NSlotCount _ _ => pass ()
  | NPointer at_ via then_ =>
      ptr ←? Ret (selector_target t scope at_);
      pointee ← pointer_or_panic t ptr;
      target ←? Ret (check_selector t pointee via Any false);
      check_node b target then_
  | NDynPointer pointer vtable drop_in_place size align tail_prefixes =>
      check_dyn_pointer b scope pointer vtable drop_in_place size align tail_prefixes
  | NMap length_ key value entries =>
      _ ←? match entries with
           | BTree root _ _ _ _ _ _ _ _ _ _ _ => fail_if (bool_decide (root = length_))
           | Hash bucket_mask _ _ _ _ => fail_if (bool_decide (bucket_mask = length_))
           end;
      _ ←? check_sized t key;
      _ ←? match value with Some value => check_sized t value | None => pass () end;
      check_map_entries b scope key value entries
  | NVariant discriminant arms default_ =>
      _ ←? check_value_expr t scope discriminant 0;
      _ ←? try_all (check_arm b scope) arms;
      match default_ with Some node => check_node b scope node | None => pass () end
  | NCustomList vars condition body element =>
      _ ←? try_all (λ e, check_value_expr t scope e 0) vars;
      let num_vars := as_u32 (Z.of_nat (length vars)) in
      _ ←? check_value_expr t scope condition num_vars;
      _ ←? check_stmts t scope body num_vars;
      check_sized t element
  end
with check_field (b : Bundle) (scope : BundleTypeId) (members : option (list MemberDef))
    (field : Field) {struct field} : outcome (option ()) :=
  match field with
  | FMember at_ node =>
      _ ←? check_member_field members at_;
      match node with Some node => check_node b scope node | None => pass () end
  | FSynth label node =>
      _ ←? check_ref b label;
      check_node b scope node
  end
with check_arm (b : Bundle) (scope : BundleTypeId) (arm : Arm) {struct arm}
    : outcome (option ()) :=
  match arm with
  | mkArm _ label payload =>
      _ ←? match label with Some label => check_ref b label | None => pass () end;
      _ ←? fail_if (is_none label && is_none payload);
      match payload with Some node => check_node b scope node | None => pass () end
  end.

(** ** Types *)

Definition check_ty (t : TypeTable) (id : BundleTypeId) : outcome (option ()) :=
  fail_if (length (types t) <=? id)%nat.

Definition check_member (b : Bundle) (m : MemberDef) : outcome (option ()) :=
  _ ←? check_ref b (m_name m); check_ty (b_types b) (m_ty m).

Definition check_loc (b : Bundle) (loc : option SourceLoc) : outcome (option ()) :=
  match loc with Some loc => check_ref b (loc_file loc) | None => pass () end.

Definition check_variant_def (b : Bundle) (v : VariantDef) : outcome (option ()) :=
  _ ←? check_ref b (v_name v);
  _ ←? check_member b (v_payload v);
  _ ←? check_loc b (v_decl v);
  check_loc b (v_await_site v).

(** One entry of the type table. *)
Definition check_type_def (b : Bundle) (def : TypeDef) : outcome (option ()) :=
  let t := b_types b in
  match def with
  | TBase nm _ _ | TOpaque nm _ => check_ref b nm
  | TPointer nm target =>
      _ ←? match nm with Some nm => check_ref b nm | None => pass () end;
      check_ty t target
  | TArray elem _ => check_ty t elem
  | TStruct nm _ members | TUnion nm _ members =>
      _ ←? check_ref b nm; try_all (check_member b) members
  | TEnum nm _ sh =>
      _ ←? check_ref b nm;
      _ ←? match discr sh with Some d => check_ty t (d_ty d) | None => pass () end;
      try_all (check_variant_def b) (variants sh)
  | TCEnum nm _ repr enumerators =>
      _ ←? check_ref b nm;
      _ ←? check_ty t repr;
      try_all (λ e, check_ref b e.1) enumerators
  end.

(** The part of [Bundle::validate] that covers the strings, the types and the
    display programs. *)
Definition validate_types (b : Bundle) : outcome (option ()) :=
  well_formed ← is_well_formed (b_strings b);
  _ ←? fail_if (negb well_formed);
  _ ←? try_all (check_type_def b) (types (b_types b));
  try_all (λ f, _ ←? check_ty (b_types b) f.1; check_node b f.1 f.2)
    (debug_formats (b_types b)).
