(* ===== verification/TypeView.v ===== *)
(** The read-only view over a loaded bundle that names types and decodes the
    values of its enums ([hansei-bundle/src/view.rs]).

    A [BundleType] is a bundle and a type id, so each of its methods is a
    function of the two; an id outside the table is the [expect] of
    [BundleType::def]. *)

From S2P Require Import Prelude Text StringTable Schema BundleCheck.

Local Open Scope Z_scope.

Abbreviation W128 := 340282366920938463463374607431768211456.

Definition ANON : str := bytes_of_string "<anon>".

Definition ty_def (b : Bundle) (id : BundleTypeId) : outcome TypeDef :=
  or_panic (ty_get (b_types b) id).

Definition resolve_str (b : Bundle) (r : StrRef) : outcome str :=
  o ← get (b_strings b) r; Ret (default ANON o).

Definition ty_name (b : Bundle) (id : BundleTypeId) : outcome str :=
  def ← ty_def b id;
  match def with
  | TBase nm _ _ | TStruct nm _ _ | TUnion nm _ _ | TEnum nm _ _ | TCEnum nm _ _ _
  | TOpaque nm _ => resolve_str b nm
  | TPointer nm _ => match nm with Some nm => resolve_str b nm | None => Ret ANON end
  | TArray _ _ => Ret ANON
  end.

(** [BundleType::size]: the recursion into an array's element has no guard of
    its own, so running out of fuel is running out of stack. *)
Fixpoint ty_size_go (fuel : nat) (b : Bundle) (id : BundleTypeId) : outcome Z :=
  match fuel with
  | O => Panic
  | S fuel =>
      def ← ty_def b id;
      match def with
      | TBase _ size _ | TStruct _ size _ | TUnion _ size _ | TEnum _ size _
      | TCEnum _ size _ _ => Ret size
      | TPointer _ _ => Ret POINTER_SIZE
      | TArray elem count => size ← ty_size_go fuel b elem; Ret (u64_mul size count)
      | TOpaque _ size => Ret (default 0 size)
      end
  end.

(** A chain of elements that repeats no type is no longer than the table. *)
Definition ty_size (b : Bundle) (id : BundleTypeId) : outcome Z :=
  ty_size_go (S (length (types (b_types b)))) b id.

(** ** Kinds *)

Inductive TypeKind :=
  | KInteger | KFloat | KPointer | KArray | KStruct | KUnion | KEnum | KOther.

Definition kind (b : Bundle) (id : BundleTypeId) : outcome TypeKind :=
  def ← ty_def b id;
  Ret match def with
      | TBase _ _ Float => KFloat
      | TBase _ _ _ => KInteger
      | TPointer _ _ => KPointer
      | TArray _ _ => KArray
      | TStruct _ _ _ => KStruct
      | TUnion _ _ _ => KUnion
      | TEnum _ _ _ | TCEnum _ _ _ _ => KEnum
      | TOpaque _ _ => KOther
      end.

Inductive TypeClass :=
  | CInteger (size : Z) (is_signed is_bool is_char : bool)
  | CFloat (size : Z)
  | CPointer (target : BundleTypeId)
  | CArray (element : BundleTypeId) (count : Z)
  | CStruct
  | CUnion
  | CRustEnum
  | CCEnum
  | COpaque.

Definition classify (b : Bundle) (id : BundleTypeId) : outcome TypeClass :=
  def ← ty_def b id;
  Ret match def with
      | TBase _ size Float => CFloat size
      | TBase _ size e =>
          CInteger size
            (match e with Signed | SignedChar => true | _ => false end)
            (match e with Boolean => true | _ => false end)
            (match e with SignedChar | UnsignedChar | UtfChar => true | _ => false end)
      | TPointer _ target => CPointer target
      | TArray elem count => CArray elem count
      | TStruct _ _ _ => CStruct
      | TUnion _ _ _ => CUnion
      | TEnum _ _ _ => CRustEnum
      | TCEnum _ _ _ _ => CCEnum
      | TOpaque _ _ => COpaque
      end.

(** ** Structure *)

Definition members (b : Bundle) (id : BundleTypeId) : outcome (list MemberDef) :=
  def ← ty_def b id; Ret (default [] (aggregate_members def)).

(** [members().find] by a name, which each member is asked for. *)
Fixpoint find_named {A} (b : Bundle) (nm_of : A → StrRef) (nm : str) (l : list A)
    : outcome (option A) :=
  match l with
  | [] => Ret None
  | a :: l =>
      s ← resolve_str b (nm_of a);
      if bool_decide (s = nm) then Ret (Some a) else find_named b nm_of nm l
  end.

Definition member (b : Bundle) (id : BundleTypeId) (nm : str) : outcome (option MemberDef) :=
  ms ← members b id; find_named b m_name nm ms.

Definition pointer_target (b : Bundle) (id : BundleTypeId) : outcome (option BundleTypeId) :=
  def ← ty_def b id;
  Ret match def with TPointer _ target => Some target | _ => None end.

Definition array_info (b : Bundle) (id : BundleTypeId) : outcome (option (BundleTypeId * Z)) :=
  def ← ty_def b id;
  Ret match def with TArray elem count => Some (elem, count) | _ => None end.

Definition variant_shape (b : Bundle) (id : BundleTypeId) : outcome (option VariantShape) :=
  def ← ty_def b id;
  Ret match def with TEnum _ _ sh => Some sh | _ => None end.

(** [BundleType::variant]. *)
Definition ty_variant (b : Bundle) (id : BundleTypeId) (nm : str)
    : outcome (option (BundleTypeId * Z)) :=
  sh ←? variant_shape b id;
  v ←? find_named b v_name nm (variants sh);
  pass (m_ty (v_payload v), m_offset (v_payload v)).

Definition variant_name_ref (b : Bundle) (id : BundleTypeId) (nm : str)
    : outcome (option StrRef) :=
  sh ←? variant_shape b id;
  v ←? find_named b v_name nm (variants sh);
  pass (v_name v).

Definition is_digit_byte (c : Byte.byte) : bool :=
  (48 <=? byte_Z c) && (byte_Z c <=? 57).

Definition is_number (s : str) : bool :=
  negb (bool_decide (s = [])) && forallb is_digit_byte s.

Fixpoint all_numbered (b : Bundle) (vs : list VariantDef) : outcome bool :=
  match vs with
  | [] => Ret true
  | v :: vs =>
      nm ← resolve_str b (v_name v);
      if is_number nm then all_numbered b vs else Ret false
  end.

Definition is_coroutine (b : Bundle) (id : BundleTypeId) : outcome bool :=
  sh ← variant_shape b id;
  match sh with
  | None => Ret false
  | Some sh =>
      if bool_decide (variants sh = []) then Ret false else all_numbered b (variants sh)
  end.

(** ** Display programs *)

(** The lazily built index: a position per type into the list of nodes, and
    [u32::MAX] for a type without one. *)
Definition FormatIndex : Type := list Z * list DisplayNode.

Definition NO_FORMAT : Z := W32 - 1.

(** One assignment of the loop; an id outside the table is an index panic. *)
Definition format_index_add (acc : outcome FormatIndex) (f : BundleTypeId * DisplayNode)
    : outcome FormatIndex :=
  '(positions, nodes) ← acc;
  _ ← or_panic (positions !! f.1);
  Ret (<[f.1 := as_u32 (Z.of_nat (length nodes))]> positions, nodes ++ [f.2]).

Definition format_index (t : TypeTable) : outcome FormatIndex :=
  foldl format_index_add (Ret (replicate (length (types t)) NO_FORMAT, [])) (debug_formats t).

Definition debug_format (b : Bundle) (id : BundleTypeId) : outcome (option DisplayNode) :=
  '(positions, nodes) ← format_index (b_types b);
  pos ←? Ret (positions !! id);
  Ret (if pos <? Z.of_nat (length nodes) then nodes !! Z.to_nat pos else None).

Definition is_display_leaf (b : Bundle) (id : BundleTypeId) : outcome bool :=
  node ← debug_format b id;
  Ret match node with Some (NAlias _ _) | None => false | Some _ => true end.

(** ** Variants *)

Inductive VariantError :=
  | ShortBuffer (needed len : Z)
  | NoVariantMatch (raw : Z)
  | NoSuchVariant
  | Uninhabited
  | MissingDiscriminant
  | BadDiscriminantSize (size : Z).

Record BundleVariant := mkBundleVariant {
  bv_name : str;
  bv_ty : BundleTypeId;
  bv_offset : Z;
  bv_decl : option (str * Z);
  bv_await_site : option (str * Z);
  bv_owner : BundleTypeId;
  bv_key : StrRef
}.

(** The raw bits of a discriminant: byte [i] shifted to bit [8 * i]. *)
Fixpoint u128_le (i raw : Z) (bs : list Byte.byte) : Z :=
  match bs with
  | [] => raw
  | c :: bs => u128_le (i + 1) (Z.lor raw (Z.shiftl (byte_Z c) (8 * i))) bs
  end.

(** [bytes.get(start..end)]. *)
Definition bytes_get (bs : list Byte.byte) (start end_ : Z) : option (list Byte.byte) :=
  slice bs start (end_ - start).

Definition explicit_match (raw : Z) (v : VariantDef) : bool :=
  match v_discr_values v with Some dv => discr_matches dv raw | None => false end.
Definition is_default (v : VariantDef) : bool := is_none (v_discr_values v).

(** Which variant a raw discriminant selects. *)
Definition select_variant (sh : VariantShape) (raw : Z) : option VariantDef :=
  match find_first (explicit_match raw) (variants sh) with
  | Some v => Some v
  | None => find_first is_default (variants sh)
  end.

Definition loc_of (b : Bundle) (loc : option SourceLoc) : outcome (option (str * Z)) :=
  loc ←? Ret loc;
  file ←? get (b_strings b) (loc_file loc);
  pass (file, loc_line loc).

Definition variant_of (b : Bundle) (owner : BundleTypeId) (v : VariantDef)
    : outcome BundleVariant :=
  nm ← resolve_str b (v_name v);
  decl ← loc_of b (v_decl v);
  await_site ← loc_of b (v_await_site v);
  Ret (mkBundleVariant nm (m_ty (v_payload v)) (m_offset (v_payload v)) decl await_site owner
         (v_name v)).

(** The variant [decode_variant] selects. *)
Definition decode_selected (b : Bundle) (sh : VariantShape) (bytes : list Byte.byte)
    : outcome (VariantDef + VariantError) :=
  match discr sh with
  | None =>
      Ret match variants sh with
          | [v] => inl v
          | [] => inr Uninhabited
          | _ => inr MissingDiscriminant
          end
  | Some d =>
      size ← ty_size b (d_ty d);
      if negb (bool_decide (size ∈ [1; 2; 4; 8; 16])) then Ret (inr (BadDiscriminantSize size))
      else
        let end_ := u64_add (d_offset d) size in
        Ret match bytes_get bytes (d_offset d) end_ with
            | None => inr (ShortBuffer end_ (Z.of_nat (length bytes)))
            | Some raw_bytes =>
                let raw := u128_le 0 0 raw_bytes in
                match select_variant sh raw with
                | Some v => inl v
                | None => inr (NoVariantMatch raw)
                end
            end
  end.

Definition decode_variant (b : Bundle) (owner : BundleTypeId) (sh : VariantShape)
    (bytes : list Byte.byte) : outcome (BundleVariant + VariantError) :=
  r ← decode_selected b sh bytes;
  match r with
  | inl v => bv ← variant_of b owner v; Ret (inl bv)
  | inr e => Ret (inr e)
  end.

Definition active_variant (b : Bundle) (id : BundleTypeId) (bytes : list Byte.byte)
    : outcome (option (BundleVariant + VariantError)) :=
  sh ←? variant_shape b id;
  r ← decode_variant b id sh bytes; pass r.

Definition check_variant (b : Bundle) (id : BundleTypeId) (bytes : list Byte.byte) (nm : str)
    : outcome (option (option (BundleTypeId * Z) + VariantError)) :=
  sh ←? variant_shape b id;
  known ← find_named b v_name nm (variants sh);
  match known with
  | None => pass (inr NoSuchVariant)
  | Some _ =>
      r ← decode_variant b id sh bytes;
      pass match r with
           | inl active =>
               inl (if bool_decide (bv_name active = nm)
                    then Some (bv_ty active, bv_offset active) else None)
           | inr e => inr e
           end
  end.

(** ** Enumerations *)

(** [u128 as i128]. *)
Definition as_i128 (w : Z) : Z := if w <? W128 / 2 then w else w - W128.

Definition enumerator_name (b : Bundle) (id : BundleTypeId) (bytes : list Byte.byte)
    : outcome (option str) :=
  def ← ty_def b id;
  match def with
  | TCEnum _ size repr enumerators =>
      if (size =? 0) || (size >? 16) then Ret None
      else
        word ←? Ret (bytes_get bytes 0 size);
        let raw := from_le_bytes word in
        repr_def ← ty_def b repr;
        let signed :=
          match repr_def with
          | TBase _ _ Signed | TBase _ _ SignedChar => true
          | _ => false
          end in
        let shift := 128 - 8 * size in
        let value := if signed
                     then Z.shiftr (as_i128 (Z.shiftl (as_i128 raw) shift `mod` W128)) shift
                     else as_i128 raw in
        e ←? Ret (find_first (λ e, e.2 =? value) enumerators);
        nm ← resolve_str b e.1; pass nm
  | _ => Ret None
  end.

(** ** Trait objects *)

Record DynPointer := mkDynPointer {
  data_offset : Z;
  vtable_offset : Z;
  dyn_pointee : BundleTypeId
}.

Definition dyn_pointer (b : Bundle) (id : BundleTypeId) : outcome (option DynPointer) :=
  def ← ty_def b id;
  match def with
  | TStruct _ _ _ =>
      data ←? member b id (bytes_of_string "pointer");
      vtable ←? member b id (bytes_of_string "vtable");
      _ ←? pointer_target b (m_ty vtable);
      pointee ←? pointer_target b (m_ty data);
      nm ← ty_name b pointee;
      if is_trait_object nm
      then pass (mkDynPointer (m_offset data) (m_offset vtable) pointee)
      else corrupt
  | _ => Ret None
  end.
