(* ===== verification/DisplayResolve.v ===== *)
(** The resolved form of a display program, its selectors reduced to byte
    offsets against concrete types ([reify/src/debug_type.rs]).

    [Ret None] is the [None] of a program that declines; [Panic] is an [expect]
    of the view or its unbounded recursion. *)

From S2P Require Import Prelude Text StringTable Schema BundleCheck TypeView.

Local Open Scope Z_scope.
#[local] Set Warnings "-register-all".

(** ** Places *)

Inductive GuardExpect :=
  | Match (ranges : list (Z * Z))
  | Niche (ranges : list (Z * Z)).

Definition in_ranges (ranges : list (Z * Z)) (raw : Z) : bool :=
  existsb (λ r, (r.1 <=? raw) && (raw <=? r.2)) ranges.

Definition selects (e : GuardExpect) (raw : Z) : bool :=
  match e with
  | Match ranges => in_ranges ranges raw
  | Niche ranges => negb (in_ranges ranges raw)
  end.

Record VariantGuard := mkGuard {
  g_segment : nat;
  g_at : Z;
  g_size : Z;
  g_expect : GuardExpect
}.

Record Place := mkPlace {
  root_offset : Z;
  hops : list Z;
  guards : list VariantGuard
}.

(** ** Resolved programs *)

Record RBitField := mkRBitField {
  rf_name : str;
  rf_shift : Z;
  rf_width : option Z;
  rf_render : option (list (Z * str))  (** [Enum] of a table, or [Uint] *)
}.

Inductive RScalarDecode :=
  | RRaw
  | RMillis
  | RBits (fields : list RBitField).

Inductive RExpr :=
  | RRead (candidates : list (Place * Z))
  | RConst (v : Z)
  | RAnd (a b : RExpr)
  | RNot (a : RExpr)
  | RNe (a b : RExpr)
  | RVar (i : Z)
  | RLoad (addr : RExpr) (size : Z)
  | RAdd (a b : RExpr)
  | RSub (a b : RExpr)
  | RMul (a b : RExpr)
  | RLt (a b : RExpr)
  | RShl (a b : RExpr).

Inductive RStmt :=
  | RSet (var : Z) (value : RExpr)
  | RIf (cond : RExpr) (then_ otherwise : list RStmt)
  | REmit (at_ : RExpr)
  | RBreak (cond : RExpr).

Record FatHeader := mkFatHeader {
  fh_pointer_offset : Z;
  fh_length_offset : Z;
  fh_length_size : Z;
  fh_capacity : option (Z * Z);
  fh_head : option (Z * Z);
  fh_data_offset : Z
}.

Inductive RMapEntries :=
  | RBTree (root : BundleTypeId) (root_offset : Z) (root_node : BundleTypeId)
      (root_node_offset : Z) (height : BundleTypeId) (height_offset node_offset : Z)
      (leaf leaf_len : BundleTypeId) (leaf_len_offset keys_offset key_slots values_offset : Z)
      (internal : BundleTypeId) (edges_offset : Z) (edge : BundleTypeId)
      (edge_pointer_offset : Z)
  | RHash (bucket_mask_offset ctrl_offset : Z) (bucket : BundleTypeId) (key_offset : Z)
      (value_offset : option Z).

Inductive RNode :=
  | RScalar (offset word_size : Z) (decode : RScalarDecode)
  | RComputed (value : RExpr) (decode : RScalarDecode)
  | RSymbol (offset : Z)
  | RStruct (fields : list RField)
  | RList (head_offset next_offset : Z) (node : RNode) (node_ty : BundleTypeId) (node_size : Z)
  | RStr (header : FatHeader) (nul_terminated : bool)
  | RSlice (header : FatHeader) (element : BundleTypeId) (element_size : Z)
  | RBytes (offset size : Z) (notation : Notation_)
  | RSocketAddr (ip octets port : Z) (scope_id : option Z)
  | RAlias (target : BundleTypeId) (place : Place) (follow_pointers : bool)
  | RSlotCount (bitmap_offset bitmap_size count : Z)
  | RPointer (pointer_offset via_offset : Z) (target : BundleTypeId) (then_ : RNode)
  | RDynPointer (pointer_offset : Z) (vtable : BundleTypeId) (vtable_offset : Z)
      (drop_in_place size align : Z) (tail_prefixes : list Z)
  | RMap (length_offset length_size : Z) (key : BundleTypeId) (value : option BundleTypeId)
      (entries : RMapEntries)
  | RVariant (discriminant : RExpr) (arms : list RArm) (default_ : option RNode)
  | RCustomList (vars : list RExpr) (condition : RExpr) (body : list RStmt)
      (element : BundleTypeId)
with RField :=
  | Structural (nm : str) (ty : BundleTypeId) (offset : Z)
  | Computed (label : str) (node : RNode)
with RArm :=
  | mkRArm (value : Z) (label : option str) (payload : option RNode).

(** [iter().map(..).collect::<Option<Vec<_>>>()]. *)
Definition try_map {A B} (f : A → outcome (option B)) : list A → outcome (option (list B)) :=
  fix go l := match l with
              | [] => pass []
              | a :: l => c ←? f a; cs ←? go l; pass (c :: cs)
              end.

(** ** Selectors *)

(** The [member_at] of the resolver, over the view's members. *)
Definition view_member_at (b : Bundle) (ty : BundleTypeId) (at_ : MemberRef)
    : outcome (option MemberDef) :=
  ms ← members b ty; Ret (member_at ms at_).

(** A variant as a read candidate: its payload's type and offset, and the guard
    that checks it is live. *)
Definition Candidate : Type := (BundleTypeId * Z) * option VariantGuard.

Definition discr_range (dv : DiscrValue) : Z * Z :=
  match dv with DValue x => (x, x) | DRange lo hi => (lo, hi) end.

Definition ranges_of (v : VariantDef) : list (Z * Z) :=
  discr_range <$> default [] (v_discr_values v).

Definition expect_of (sh : VariantShape) (v : VariantDef) : GuardExpect :=
  match v_discr_values v with
  | Some _ => Match (ranges_of v)
  | None => Niche (mjoin (ranges_of <$> variants sh))
  end.

Definition variant_candidate (b : Bundle) (ty : BundleTypeId) (index segment : nat)
    (offset : Z) : outcome (option Candidate) :=
  sh ←? variant_shape b ty;
  v ←? Ret (variants sh !! index);
  let payload := (m_ty (v_payload v), m_offset (v_payload v)) in
  match discr sh with
  | None => if (length (variants sh) =? 1)%nat then pass (payload, None) else corrupt
  | Some d =>
      size ← ty_size b (d_ty d);
      if negb (bool_decide (size ∈ [1; 2; 4; 8; 16])) then corrupt
      else
        at_ ←? Ret (checked_add offset (d_offset d));
        pass (payload, Some (mkGuard segment at_ (as_u32 size) (expect_of sh v)))
  end.

Definition resolve_variant_step (b : Bundle) (ty : BundleTypeId) (nm : StrRef) (segment : nat)
    (offset : Z) : outcome (option Candidate) :=
  sh ←? variant_shape b ty;
  match positions (length (variants sh))
          (λ i, match variants sh !! i with Some v => v_name v =? nm | None => false end) with
  | [index] => variant_candidate b ty index segment offset
  | _ => corrupt
  end.

Definition resolve_active_variants (b : Bundle) (ty : BundleTypeId) (segment : nat) (offset : Z)
    : outcome (option (list Candidate)) :=
  sh ←? variant_shape b ty;
  let count := length (variants sh) in
  if (count =? 0)%nat then corrupt
  else try_map (λ index, variant_candidate b ty index segment offset) (seq 0 count).

(** A guard is recorded when the enum has a discriminant to check. *)
Definition push_guard (p : Place) (g : option VariantGuard) : Place :=
  match g with
  | Some g => mkPlace (root_offset p) (hops p) (guards p ++ [g])
  | None => p
  end.

(** Where the offset so far goes: the root's, before the first pointer, or
    another hop. *)
Definition stash (before_first_deref : bool) (p : Place) (offset : Z) : Place :=
  if before_first_deref then mkPlace offset (hops p) (guards p)
  else mkPlace (root_offset p) (hops p ++ [offset]) (guards p).

(** The [go] of [resolve_places]; its [out] is the list it returns. *)
Fixpoint places_go (b : Bundle) (steps : list Step) (ty : BundleTypeId) (offset : Z)
    (segment : nat) (place : Place) (before_first_deref : bool)
    : outcome (option (list (BundleTypeId * Place))) :=
  match steps with
  | [] => pass [(ty, stash before_first_deref place offset)]
  | Member at_ :: steps =>
      m ←? view_member_at b ty at_;
      offset ←? Ret (checked_add offset (m_offset m));
      places_go b steps (m_ty m) offset segment place before_first_deref
  | Deref :: steps =>
      let place := stash before_first_deref place offset in
      ty ←? pointer_target b ty;
      places_go b steps ty 0 (S segment) place false
  | Variant nm :: steps =>
      '(payload, guard) ←? resolve_variant_step b ty nm segment offset;
      let place := push_guard place guard in
      offset ←? Ret (checked_add offset payload.2);
      places_go b steps payload.1 offset segment place before_first_deref
  | ActiveVariant :: steps =>
      cs ←? resolve_active_variants b ty segment offset;
      try_concat (λ c,
        offset ←? Ret (checked_add offset c.1.2);
        places_go b steps c.1.1 offset segment (push_guard place c.2) before_first_deref) cs
  end.

Definition resolve_places (b : Bundle) (root : BundleTypeId) (sel : Selector)
    : outcome (option (list (BundleTypeId * Place))) :=
  out ←? places_go b sel root 0 0%nat (mkPlace 0 [] []) true;
  match out with [] => corrupt | _ => pass out end.

Definition resolve_place (b : Bundle) (root : BundleTypeId) (sel : Selector)
    : outcome (option (BundleTypeId * Place)) :=
  places ←? resolve_places b root sel;
  match places with [p] => pass p | _ => corrupt end.

Definition resolve_selector (b : Bundle) (root : BundleTypeId) (sel : Selector)
    : outcome (option (BundleTypeId * Z)) :=
  '(ty, place) ←? resolve_place b root sel;
  match hops place, guards place with
  | [], [] => pass (ty, root_offset place)
  | _, _ => corrupt
  end.

(** ** Expressions *)

(** A candidate place with the width of its word. *)
Definition sized_place (b : Bundle) (c : BundleTypeId * Place) : outcome (option (Place * Z)) :=
  size ← ty_size b c.1; pass (c.2, as_u32 size).

Fixpoint resolve_value_expr (b : Bundle) (scope : BundleTypeId) (e : ValueExpr)
    : outcome (option RExpr) :=
  match e with
  | Read sel =>
      places ←? resolve_places b scope sel;
      cs ←? try_map (sized_place b) places;
      pass (RRead cs)
  | Const v => pass (RConst v)
  | And x y => x ←? resolve_value_expr b scope x; y ←? resolve_value_expr b scope y;
               pass (RAnd x y)
  | Not x => x ←? resolve_value_expr b scope x; pass (RNot x)
  | Ne x y => x ←? resolve_value_expr b scope x; y ←? resolve_value_expr b scope y;
              pass (RNe x y)
  | Var i => pass (RVar i)
  | Load addr size => x ←? resolve_value_expr b scope addr; pass (RLoad x size)
  | Add x y => x ←? resolve_value_expr b scope x; y ←? resolve_value_expr b scope y;
               pass (RAdd x y)
  | Sub x y => x ←? resolve_value_expr b scope x; y ←? resolve_value_expr b scope y;
               pass (RSub x y)
  | Mul x y => x ←? resolve_value_expr b scope x; y ←? resolve_value_expr b scope y;
               pass (RMul x y)
  | Lt x y => x ←? resolve_value_expr b scope x; y ←? resolve_value_expr b scope y;
              pass (RLt x y)
  | Shl x y => x ←? resolve_value_expr b scope x; y ←? resolve_value_expr b scope y;
               pass (RShl x y)
  end.

Fixpoint resolve_stmt (b : Bundle) (scope : BundleTypeId) (s : Stmt) : outcome (option RStmt) :=
  match s with
  | Set_ var value => v ←? resolve_value_expr b scope value; pass (RSet var v)
  | If_ cond then_ otherwise =>
      c ←? resolve_value_expr b scope cond;
      th ←? try_map (resolve_stmt b scope) then_;
      el ←? try_map (resolve_stmt b scope) otherwise;
      pass (RIf c th el)
  | Emit at_ => a ←? resolve_value_expr b scope at_; pass (REmit a)
  | Break cond => c ←? resolve_value_expr b scope cond; pass (RBreak c)
  end.

(** ** Scalar decodes *)

(** A map over a list whose body may panic. *)
Definition resolve_label (b : Bundle) (e : Z * StrRef) : outcome (Z * str) :=
  l ← resolve_str b e.2; Ret (e.1, l).

Definition resolve_field_bits (b : Bundle) (f : BitField) : outcome RBitField :=
  nm ← resolve_str b (bf_name f);
  render ← match bf_render f with
           | REnum table => t ← mapM_out (resolve_label b) table; Ret (Some t)
           | RUint => Ret None
           end;
  Ret (mkRBitField nm (bf_shift f) (bf_width f) render).

Definition resolve_decode (b : Bundle) (decode : ScalarDecode) : outcome RScalarDecode :=
  match decode with
  | Raw => Ret RRaw
  | Millis => Ret RMillis
  | Bits fields => fs ← mapM_out (resolve_field_bits b) fields; Ret (RBits fs)
  end.

(** ** Nodes *)

(** A word of a header: where it is and how wide. *)
Definition header_word (b : Bundle) (scope : BundleTypeId) (sel : option Selector)
    : outcome (option (option (Z * Z))) :=
  match sel with
  | Some sel =>
      '(ty, offset) ←? resolve_selector b scope sel;
      size ← ty_size b ty;
      pass (Some (offset, as_u32 size))
  | None => pass None
  end.

Definition resolve_fat_header (b : Bundle) (scope : BundleTypeId) (pointer length_ : Selector)
    (capacity head : option Selector) (data_offset : Z) : outcome (option FatHeader) :=
  '(pointer_ty, pointer_offset) ←? resolve_selector b scope pointer;
  _ ←? pointer_target b pointer_ty;
  '(length_ty, length_offset) ←? resolve_selector b scope length_;
  length_size ← ty_size b length_ty;
  capacity ←? header_word b scope capacity;
  head ←? header_word b scope head;
  pass (mkFatHeader pointer_offset length_offset (as_u32 length_size) capacity head data_offset).

Definition resolve_hash_entries (b : Bundle) (scope key : BundleTypeId)
    (value : option BundleTypeId) (entries : MapEntries) : outcome (option RMapEntries) :=
  match entries with
  | BTree _ _ _ _ _ _ _ _ _ _ _ _ => corrupt
  | Hash bucket_mask ctrl bucket key_at value_at =>
      '(_, bucket_mask_offset) ←? resolve_selector b scope bucket_mask;
      '(ctrl, ctrl_offset) ←? resolve_selector b scope ctrl;
      _ ←? pointer_target b ctrl;
      '(key_ty, key_offset) ←? resolve_selector b bucket key_at;
      _ ←? fail_if (negb (key_ty =? key)%nat);
      value_offset ←? match value, value_at with
                      | Some value, Some value_at =>
                          '(value_ty, value_offset) ←? resolve_selector b bucket value_at;
                          _ ←? fail_if (negb (value_ty =? value)%nat);
                          pass (Some value_offset)
                      | None, None => pass None
                      | _, _ => corrupt
                      end;
      pass (RHash bucket_mask_offset ctrl_offset bucket key_offset value_offset)
  end.

Definition resolve_btree_entries (b : Bundle) (scope key value : BundleTypeId)
    (root root_node height node : Selector) (leaf : BundleTypeId)
    (leaf_len leaf_keys leaf_values : Selector) (internal : BundleTypeId)
    (internal_edges edge_path : Selector) : outcome (option RMapEntries) :=
  '(root, root_off) ←? resolve_selector b scope root;
  '(some, some_offset) ←? ty_variant b root SOME_NAME;
  '(root_node, root_node_off) ←? resolve_selector b some root_node;
  '(height, height_offset) ←? resolve_selector b root_node height;
  '(node, node_offset) ←? resolve_selector b root_node node;
  _ ←? pointer_target b node;
  '(leaf_len, leaf_len_offset) ←? resolve_selector b leaf leaf_len;
  '(keys, keys_offset) ←? resolve_selector b leaf leaf_keys;
  '(key_slot, key_slots) ←? array_info b keys;
  key_slot_size ← ty_size b key_slot;
  key_size ← ty_size b key;
  _ ←? fail_if (negb (key_slot_size =? key_size));
  '(values, values_offset) ←? resolve_selector b leaf leaf_values;
  '(value_slot, value_slots) ←? array_info b values;
  value_slot_size ← ty_size b value_slot;
  value_size ← ty_size b value;
  _ ←? fail_if (negb (value_slot_size =? value_size) || negb (value_slots =? key_slots));
  '(edges, edges_offset) ←? resolve_selector b internal internal_edges;
  '(edge, edge_slots) ←? array_info b edges;
  _ ←? fail_if (negb (edge_slots =? u64_add key_slots 1));
  '(edge_pointer, edge_pointer_offset) ←? resolve_selector b edge edge_path;
  _ ←? pointer_target b edge_pointer;
  root_node_offset ←? Ret (o ← checked_add root_off some_offset; checked_add o root_node_off);
  pass (RBTree root root_off root_node root_node_offset height height_offset node_offset leaf
          leaf_len leaf_len_offset keys_offset key_slots values_offset internal edges_offset edge
          edge_pointer_offset).

Definition resolve_map_entries (b : Bundle) (scope key : BundleTypeId)
    (value : option BundleTypeId) (entries : MapEntries) : outcome (option RMapEntries) :=
  match entries, value with
  | BTree root root_node height node leaf leaf_len leaf_keys leaf_values internal _
      internal_edges edge_path, Some value =>
      resolve_btree_entries b scope key value root root_node height node leaf leaf_len leaf_keys
        leaf_values internal internal_edges edge_path
  | _, _ => resolve_hash_entries b scope key value entries
  end.

Fixpoint resolve_node (b : Bundle) (scope : BundleTypeId) (node : DisplayNode) {struct node}
    : outcome (option RNode) :=
  match node with
  | NScalar at_ decode =>
      '(landed, offset) ←? resolve_selector b scope at_;
      size ← ty_size b landed;
      decode ← resolve_decode b decode;
      pass (RScalar offset (as_u32 size) decode)
  | NComputed value decode =>
      value ←? resolve_value_expr b scope value;
      decode ← resolve_decode b decode;
      pass (RComputed value decode)
  | NSymbol at_ =>
      '(_, offset) ←? resolve_selector b scope at_;
      pass (RSymbol offset)
  | NStruct fields =>
      fields ←? try_map (resolve_field b scope) fields;
      pass (RStruct fields)
  | NList head next node node_ty =>
      '(_, head_offset) ←? resolve_selector b scope head;
      '(_, next_offset) ←? resolve_selector b node_ty next;
      node ←? resolve_node b node_ty node;
      size ← ty_size b node_ty;
      pass (RList head_offset next_offset node node_ty (as_u32 size))
  | NStr pointer length_ capacity nul_terminated offset =>
      header ←? resolve_fat_header b scope pointer length_ capacity None offset;
      pass (RStr header nul_terminated)
  | NSlice pointer length_ capacity head element =>
      header ←? resolve_fat_header b scope pointer length_ capacity head 0;
      size ← ty_size b element;
      pass (RSlice header element (as_u32 size))
  | NBytes at_ notation =>
      '(array_ty, offset) ←? resolve_selector b scope at_;
      '(_, count) ←? array_info b array_ty;
      pass (RBytes offset (as_u32 count) notation)
  | NSocketAddr ip port scope_id =>
      '(array_ty, ip) ←? resolve_selector b scope ip;
      '(_, octets) ←? array_info b array_ty;
      '(_, port) ←? resolve_selector b scope port;
      scope_id ←? match scope_id with
                  | Some sel => '(_, o) ←? resolve_selector b scope sel; pass (Some o)
                  | None => pass None
                  end;
      pass (RSocketAddr ip (as_u32 octets) port scope_id)
  | NAlias at_ follow_pointers =>
      '(target, place) ←? resolve_place b scope at_;
      pass (RAlias target place follow_pointers)
  | NSlotCount bitmap slots =>
      '(bitmap_ty, bitmap_offset) ←? resolve_selector b scope bitmap;
      '(array_ty, _) ←? resolve_selector b scope slots;
      '(_, count) ←? array_info b array_ty;
      size ← ty_size b bitmap_ty;
      pass (RSlotCount bitmap_offset (as_u32 size) (as_u32 count))
  | NPointer at_ via then_ =>
      '(ptr_ty, pointer_offset) ←? resolve_selector b scope at_;
      pointee_ty ←? pointer_target b ptr_ty;
      '(target, via_offset) ←? resolve_selector b pointee_ty via;
      then_ ←? resolve_node b target then_;
      pass (RPointer pointer_offset via_offset target then_)
  | NDynPointer pointer vtable drop_in_place size align tail_prefixes =>
      '(_, pointer_offset) ←? resolve_selector b scope pointer;
      '(vtable, vtable_offset) ←? resolve_selector b scope vtable;
      pass (RDynPointer pointer_offset vtable vtable_offset drop_in_place size align
              tail_prefixes)
  | NMap length_ key value entries =>
      '(length_ty, length_offset) ←? resolve_selector b scope length_;
      size ← ty_size b length_ty;
      entries ←? resolve_map_entries b scope key value entries;
      pass (RMap length_offset (as_u32 size) key value entries)
  | NVariant discriminant arms default_ =>
      arms ←? try_map (resolve_arm b scope) arms;
      default_ ←? match default_ with
                  | Some node => node ←? resolve_node b scope node; pass (Some node)
                  | None => pass None
                  end;
      discriminant ←? resolve_value_expr b scope discriminant;
      pass (RVariant discriminant arms default_)
  | NCustomList vars condition body element =>
      vars ←? try_map (resolve_value_expr b scope) vars;
      body ←? try_map (resolve_stmt b scope) body;
      condition ←? resolve_value_expr b scope condition;
      pass (RCustomList vars condition body element)
  end
with resolve_field (b : Bundle) (scope : BundleTypeId) (field : Field) {struct field}
    : outcome (option RField) :=
  match field with
  | FMember at_ node =>
      m ←? view_member_at b scope at_;
      nm ← resolve_str b (m_name m);
      match node with
      | None => pass (Structural nm (m_ty m) (m_offset m))
      | Some node => node ←? resolve_node b scope node; pass (Computed nm node)
      end
  | FSynth label node =>
      label ← resolve_str b label;
      node ←? resolve_node b scope node;
      pass (Computed label node)
  end
with resolve_arm (b : Bundle) (scope : BundleTypeId) (arm : Arm) {struct arm}
    : outcome (option RArm) :=
  match arm with
  | mkArm value label payload =>
      label ← match label with
              | Some label => l ← resolve_str b label; Ret (Some l)
              | None => Ret None
              end;
      payload ←? match payload with
                 | Some node => node ←? resolve_node b scope node; pass (Some node)
                 | None => pass None
                 end;
      pass (mkRArm value label payload)
  end.

(** [DisplayNode::resolve]. *)
Definition resolve (b : Bundle) (ty : BundleTypeId) : outcome (option RNode) :=
  node ←? debug_format b ty; resolve_node b ty node.
