(* ===== verification/DisplayEval.v ===== *)
(** Evaluation of resolved display programs against a value's bytes and a
    target ([reify/src/render/scalar.rs], [node.rs] and the read of
    [render/mod.rs]): word reads, scalar decodes, guarded places, value
    expressions, and the loop of a custom list.

    What the formatter is told to write is kept as a list of pieces, a nested
    value rendered by [write_display_value] being one piece.  The allocator's
    tally of gates that fired ([Heap::note]) is not kept. *)

From S2P Require Import Prelude Text StringTable Target Schema BundleCheck TypeView DisplayResolve.

Local Open Scope Z_scope.

(** ** Words *)

Definition byte_range (bytes : list Byte.byte) (offset size : Z) : option (list Byte.byte) :=
  end_ ← checked_add offset size; bytes_get bytes offset end_.

Definition read_unsigned_at (bytes : list Byte.byte) (offset size : Z) : option Z :=
  bytes ← byte_range bytes offset size;
  if bool_decide (size ∈ [1; 2; 4; 8]) then Some (from_le_bytes bytes) else None.

Definition read_u64_at (bytes : list Byte.byte) (offset : Z) : option Z :=
  from_le_bytes <$> byte_range bytes offset 8.

(** ** Scalar decodes *)

(** The mask of a field's value; a shift of a [u64] counts modulo 64. *)
Definition value_mask (f : RBitField) : Z :=
  match rf_width f with
  | Some w => width_mask w
  | None => Z.shiftr (W64 - 1) (rf_shift f `mod` 64)
  end.

Definition field_bits (f : RBitField) : Z :=
  Z.shiftl (value_mask f) (rf_shift f `mod` 64) `mod` W64.

Definition field_value (f : RBitField) (word : Z) : Z :=
  Z.land (Z.shiftr word (rf_shift f `mod` 64)) (value_mask f).

Definition covered_bits (fields : list RBitField) : Z :=
  foldl (λ c f, Z.lor c (field_bits f)) 0 fields.

(** The bits of a word no field covers. *)
Definition leftover_bits (fields : list RBitField) (word : Z) : Z :=
  Z.land word (u64_not (covered_bits fields)).

Definition render_value (f : RBitField) (value : Z) : string :=
  match rf_render f with
  | None => dec value
  | Some table =>
      match find_first (λ e, e.1 =? value) table with
      | Some e => string_of_bytes e.2
      | None => ("<unknown: " +:+ dec value +:+ ">")%string
      end
  end.

Definition render_field (word : Z) (f : RBitField) : string :=
  let rendered := render_value f (field_value f word) in
  if bool_decide (rf_name f = []) then rendered
  else (string_of_bytes (rf_name f) +:+ "=" +:+ rendered)%string.

(** [{:03}] of a number below 1000. *)
Definition pad3 (z : Z) : string :=
  ((if (z <? 100)%Z then "0" else EmptyString) +:+ (if (z <? 10)%Z then "0" else EmptyString)
   +:+ dec z)%string.

Definition apply (decode : RScalarDecode) (word : Z) : string :=
  match decode with
  | RRaw => dec word
  | RMillis =>
      let ms := as_i64 word in
      let sign := if ms <? 0 then "-"%string else EmptyString in
      let ms := Z.abs ms in
      (sign +:+ dec (ms / 1000)%Z +:+ "." +:+ pad3 (ms `mod` 1000)%Z +:+ "s")%string
  | RBits fields =>
      let leftover := leftover_bits fields word in
      String.concat ", "
        ((render_field word <$> fields)
         ++ if leftover =? 0 then []
            else [("<unknown bits: " +:+ hex leftover +:+ ">")%string])
  end.

(** ** Degradation markers

    A read yields a value, or the text printed in its place. *)
Inductive marked (A : Type) :=
  | Got (a : A)
  | Marker (m : string).
Arguments Got {_} _.
Arguments Marker {_} _.

#[global] Instance marked_ret : MRet marked := λ A, Got.
#[global] Instance marked_bind : MBind marked := λ A B f m,
  match m with Got a => f a | Marker m => Marker m end.

Definition ok_or {A} (o : option A) (m : string) : marked A :=
  match o with Some a => Got a | None => Marker m end.

Definition TRUNCATED : string := "<truncated>".
Definition UNREADABLE : string := "<unreadable>".
Definition INACTIVE : string := "<inactive variant>".
Definition INVALID_ADDRESS : string := "<invalid address>".
Definition INVALID_VAR : string := "<invalid var>".
Definition NULL : string := "<null>".

(** ** The target *)

Inductive Liveness :=
  | Live (block : range)
  | Freed
  | Unknown.

Section eval.
Context {T : Type} `{!Target T}.

(** The parts of [RenderCtx] the evaluation reads: the target, the allocator,
    the depth and the line prefix. *)
Record RenderCtx := mkCtx {
  proc : option T;
  heap : option (Z → Liveness);
  depth : nat;
  prefix : string
}.

Implicit Types ctx : RenderCtx.

Definition freed ctx (addr : Z) : bool :=
  match heap ctx with
  | Some locate => match locate addr with Freed => true | _ => false end
  | None => false
  end.

(** [RenderCtx::read]. *)
Definition ctx_read ctx (addr size : Z) : marked (list Byte.byte) :=
  proc ← ok_or (proc ctx) "<target unavailable>";
  if freed ctx addr then Marker "<freed>"
  else match read_bytes proc addr size with
       | Ok bytes => Got bytes
       | Err _ => Marker UNREADABLE
       end.

(** ** Guarded places *)

Definition u128_from_le (bytes : list Byte.byte) : Z := u128_le 0 0 bytes.

(** One guard, its discriminant read from the value's bytes or, in a pointee,
    through the target. *)
Definition check_guard ctx (base : option Z) (bytes : list Byte.byte) (g : VariantGuard)
    : marked () :=
  raw ← match base with
        | None => ok_or (byte_range bytes (g_at g) (g_size g)) TRUNCATED
        | Some base =>
            at_ ← ok_or (checked_add base (g_at g)) INVALID_ADDRESS;
            ctx_read ctx at_ (g_size g)
        end;
  if selects (g_expect g) (u128_from_le raw) then Got () else Marker INACTIVE.

Fixpoint check_guards ctx (base : option Z) (bytes : list Byte.byte) (gs : list VariantGuard)
    : marked () :=
  match gs with
  | [] => Got ()
  | g :: gs => _ ← check_guard ctx base bytes g; check_guards ctx base bytes gs
  end.

Definition check_place_guards ctx (p : Place) (segment : nat) (base : option Z)
    (bytes : list Byte.byte) : marked () :=
  check_guards ctx base bytes (filter (λ g, g_segment g = segment) (guards p)).

(** The loop over the hops before the last, and the pointer and segment it ends
    with. *)
Fixpoint follow_hops ctx (p : Place) (bytes : list Byte.byte) (pointer : Z) (segment : nat)
    (intermediate : list Z) : marked (Z * nat) :=
  match intermediate with
  | [] => Got (pointer, segment)
  | hop :: rest =>
      if pointer =? 0 then Marker NULL
      else
        _ ← check_place_guards ctx p segment (Some pointer) bytes;
        addr ← ok_or (checked_add pointer hop) INVALID_ADDRESS;
        word ← ctx_read ctx addr 8;
        pointer ← ok_or (read_u64_at word 0) UNREADABLE;
        follow_hops ctx p bytes pointer (S segment) rest
  end.

Definition read_place_bytes ctx (p : Place) (bytes : list Byte.byte) (addr size : Z)
    : marked (Z * list Byte.byte) :=
  _ ← check_place_guards ctx p 0 None bytes;
  match last (hops p) with
  | None =>
      slice ← ok_or (byte_range bytes (root_offset p) size) TRUNCATED;
      Got (u64_add addr (root_offset p), slice)
  | Some last_ =>
      pointer ← ok_or (read_u64_at bytes (root_offset p)) TRUNCATED;
      '(pointer, segment) ← follow_hops ctx p bytes pointer 1 (removelast (hops p));
      if pointer =? 0 then Marker NULL
      else
        _ ← check_place_guards ctx p segment (Some pointer) bytes;
        target ← ok_or (checked_add pointer last_) INVALID_ADDRESS;
        read ← (if size =? 0 then Got [] else ctx_read ctx target size);
        Got (target, read)
  end.

(** ** Expressions *)

(** The candidates of a read, tried until one is live. *)
Fixpoint read_candidates ctx (bytes : list Byte.byte) (addr : Z) (cs : list (Place * Z))
    : marked Z :=
  match cs with
  | [] => Marker INACTIVE
  | (p, size) :: cs =>
      match read_place_bytes ctx p bytes addr size with
      | Got (_, word) => ok_or (read_unsigned_at word 0 size) UNREADABLE
      | Marker m =>
          if String.eqb m INACTIVE then read_candidates ctx bytes addr cs else Marker m
      end
  end.

Definition b2u (b : bool) : Z := if b then 1 else 0.

(** [u32::try_from(count)] and [checked_shl]. *)
Definition shl_or_zero (value count : Z) : Z :=
  if count <? 64 then Z.shiftl value count `mod` W64 else 0.

Fixpoint eval_expr ctx (vars : list Z) (bytes : list Byte.byte) (addr : Z) (e : RExpr)
    : marked Z :=
  match e with
  | RConst v => Got v
  | RRead cs => read_candidates ctx bytes addr cs
  | RAnd a b =>
      x ← eval_expr ctx vars bytes addr a; y ← eval_expr ctx vars bytes addr b;
      Got (Z.land x y)
  | RNot a => x ← eval_expr ctx vars bytes addr a; Got (u64_not x)
  | RNe a b =>
      x ← eval_expr ctx vars bytes addr a; y ← eval_expr ctx vars bytes addr b;
      Got (b2u (negb (x =? y)))
  | RVar i => ok_or (vars !! Z.to_nat i) INVALID_VAR
  | RLoad a size =>
      target ← eval_expr ctx vars bytes addr a;
      word ← ctx_read ctx target size;
      ok_or (read_unsigned_at word 0 size) UNREADABLE
  | RAdd a b =>
      x ← eval_expr ctx vars bytes addr a; y ← eval_expr ctx vars bytes addr b;
      Got (u64_add x y)
  | RSub a b =>
      x ← eval_expr ctx vars bytes addr a; y ← eval_expr ctx vars bytes addr b;
      Got (u64_sub x y)
  | RMul a b =>
      x ← eval_expr ctx vars bytes addr a; y ← eval_expr ctx vars bytes addr b;
      Got (u64_mul x y)
  | RLt a b =>
      x ← eval_expr ctx vars bytes addr a; y ← eval_expr ctx vars bytes addr b;
      Got (b2u (x <? y))
  | RShl a b =>
      x ← eval_expr ctx vars bytes addr a; y ← eval_expr ctx vars bytes addr b;
      Got (shl_or_zero x y)
  end.

(** ** Custom lists *)

Inductive Piece :=
  | Written (s : string)
  | Child (ty : BundleTypeId) (addr : Z) (bytes : list Byte.byte) (depth : nat)
  | Nested (node : RNode) (ty : BundleTypeId) (addr : Z) (bytes : list Byte.byte) (depth : nat).

Inductive Flow := Next | Stop.

Definition MAX_CUSTOM_LIST_ITERS : nat := 1000.

(** The loop's variables, whether an element was written, and what was. *)
Record ListState := mkList {
  l_vars : list Z;
  l_any : bool;
  l_out : list Piece
}.

Definition emit (st : ListState) (ps : list Piece) : ListState :=
  mkList (l_vars st) (l_any st) (l_out st ++ ps).

Definition newline : string := String (Ascii.ascii_of_N 10) EmptyString.

Definition write_indent (prefix : string) (depth : nat) : string :=
  (prefix +:+ String.concat EmptyString (replicate depth "    "))%string.

Definition write_seq_prefix (pretty : bool) (prefix : string) (depth : nat) (first : bool)
    : string :=
  if pretty then (newline +:+ write_indent prefix (S depth))%string
  else if first then EmptyString else ", "%string.

Definition write_seq_close (pretty : bool) (prefix : string) (depth : nat) (any : bool)
    : string :=
  if pretty && any then (newline +:+ write_indent prefix depth)%string else EmptyString.

Definition write_seq_marker (m : string) (any : bool) : string :=
  ((if any then ", " else EmptyString) +:+ m)%string.

Section loop.
Context (b : Bundle) (element : BundleTypeId) (bytes : list Byte.byte) (addr : Z)
  (ctx : RenderCtx) (pretty : bool).

(** A failed read writes its marker and stops the loop. *)
Definition stop_with (st : ListState) (m : string) : outcome (Flow * ListState) :=
  Ret (Stop, emit st [Written (write_seq_marker m (l_any st))]).

(** The statements of one sequence. *)
Definition run_all (f : RStmt → ListState → outcome (Flow * ListState))
    : list RStmt → ListState → outcome (Flow * ListState) :=
  fix go l st := match l with
                 | [] => Ret (Next, st)
                 | s :: l =>
                     '(flow, st) ← f s st;
                     match flow with Next => go l st | Stop => Ret (Stop, st) end
                 end.

Definition eval_emit (target : Z) (st : ListState) : outcome (Flow * ListState) :=
  size ← ty_size b element;
  match ctx_read ctx target size with
  | Got element_bytes =>
      let before := write_seq_prefix pretty (prefix ctx) (depth ctx) (negb (l_any st)) in
      Ret (Next,
        mkList (l_vars st) true
          (l_out st ++ [Written before; Child element target element_bytes (S (depth ctx))]
           ++ if pretty then [Written ","] else []))
  | Marker m => stop_with st m
  end.

Fixpoint eval_stmt (s : RStmt) (st : ListState) : outcome (Flow * ListState) :=
  match s with
  | RSet var value =>
      match eval_expr ctx (l_vars st) bytes addr value with
      | Got v => Ret (Next, mkList (<[Z.to_nat var := v]> (l_vars st)) (l_any st) (l_out st))
      | Marker m => stop_with st m
      end
  | RIf cond then_ otherwise =>
      match eval_expr ctx (l_vars st) bytes addr cond with
      | Got v => if v =? 0 then run_all eval_stmt otherwise st else run_all eval_stmt then_ st
      | Marker m => stop_with st m
      end
  | RBreak cond =>
      match eval_expr ctx (l_vars st) bytes addr cond with
      | Got v => Ret (if v =? 0 then Next else Stop, st)
      | Marker m => stop_with st m
      end
  | REmit at_ =>
      match eval_expr ctx (l_vars st) bytes addr at_ with
      | Got target => eval_emit target st
      | Marker m => stop_with st m
      end
  end.

Definition eval_stmts (stmts : list RStmt) (st : ListState) : outcome (Flow * ListState) :=
  run_all eval_stmt stmts st.

Fixpoint list_loop (iters : nat) (condition : RExpr) (body : list RStmt) (st : ListState)
    : outcome ListState :=
  match iters with
  | O => Ret st
  | S iters =>
      match eval_expr ctx (l_vars st) bytes addr condition with
      | Got v =>
          if v =? 0 then Ret st
          else
            '(flow, st) ← eval_stmts body st;
            match flow with Next => list_loop iters condition body st | Stop => Ret st end
      | Marker m => Ret (emit st [Written (write_seq_marker m (l_any st))])
      end
  end.

(** The seeds, each evaluated with no variables. *)
Fixpoint eval_seeds (inits : list RExpr) : marked (list Z) :=
  match inits with
  | [] => Got []
  | e :: inits =>
      v ← eval_expr ctx [] bytes addr e; vs ← eval_seeds inits; Got (v :: vs)
  end.

Definition eval_custom_list (vars_init : list RExpr) (condition : RExpr) (body : list RStmt)
    : outcome (list Piece) :=
  match eval_seeds vars_init with
  | Marker m => Ret [Written m]
  | Got vars =>
      st ← list_loop MAX_CUSTOM_LIST_ITERS condition body (mkList vars false [Written "["]);
      Ret (l_out st ++
           [Written (write_seq_close pretty (prefix ctx) (depth ctx) (l_any st)); Written "]"])
  end.
End loop.

(** [DisplayNode::SlotCount]: how many of the low [count] bits are set. *)
Definition slot_count (bytes : list Byte.byte) (bitmap_offset bitmap_size count : Z) : Z :=
  let ready := default 0 (read_unsigned_at bytes bitmap_offset bitmap_size) in
  let mask := if 64 <=? count then W64 - 1 else Z.shiftl 1 count - 1 in
  Z.of_nat (length (filter (λ i, Z.testbit (Z.land ready mask) i = true) (seqZ 0 64))).
End eval.

Arguments RenderCtx : clear implicits.
