(* ===== verification/BundleCheckFacts.v ===== *)
(** Facts about the bundle's validation: what its traversals land on, which
    checks can panic, and the inductions the display programs are proved by. *)

From S2P Require Import Prelude Text StringTable Schema BundleCheck.

Local Open Scope Z_scope.

(** ** Results *)

Definition safe {A} (m : outcome A) : Prop := m ≠ Panic.

Lemma try_bind_pass {A B} (m : outcome (option A)) (f : A → outcome (option B)) r :
  try_bind m f = pass r ↔ ∃ a, m = pass a ∧ f a = pass r.
Proof. unfold pass. destruct m as [[a|]|]; naive_solver. Qed.

Lemma safe_Ret {A} (a : A) : safe (Ret a).
Proof. done. Qed.

Lemma safe_pass {A} (a : A) : safe (pass a).
Proof. done. Qed.

Lemma safe_corrupt {A} : safe (@corrupt A).
Proof. done. Qed.

Lemma pass_inj {A} (a c : A) : pass a = pass c → a = c.
Proof. by intros [=]. Qed.

Lemma safe_try {A B} (m : outcome (option A)) (f : A → outcome (option B)) :
  safe m → (∀ a, m = pass a → safe (f a)) → safe (try_bind m f).
Proof. unfold safe, pass. destruct m as [[a|]|]; naive_solver. Qed.

Lemma safe_bind {A B} (m : outcome A) (f : A → outcome B) :
  safe m → (∀ a, m = Ret a → safe (f a)) → safe (a ← m; f a).
Proof. unfold safe. destruct m as [a|]; naive_solver. Qed.

Lemma fail_if_pass c : fail_if c = pass () ↔ c = false.
Proof. by destruct c. Qed.

Lemma safe_fail_if c : safe (fail_if c).
Proof. by destruct c. Qed.

Lemma try_all_pass {A} (f : A → outcome (option ())) l :
  try_all f l = pass () ↔ ∀ a, a ∈ l → f a = pass ().
Proof.
  induction l as [|a l IH]; cbn [try_all]; [split; [intros _ x []%elem_of_nil|done]|].
  rewrite try_bind_pass. setoid_rewrite elem_of_cons. split.
  - intros ([] & Ha & Hl). fold (try_all f) in Hl. rewrite IH in Hl. naive_solver.
  - intros H. exists (). split; [apply H; by left|]. fold (try_all f). apply IH. eauto.
Qed.

Lemma safe_try_all {A} (f : A → outcome (option ())) l :
  (∀ a, a ∈ l → safe (f a)) → safe (try_all f l).
Proof.
  induction l as [|a l IH]; intros H; cbn [try_all]; [done|].
  apply safe_try; [apply H; by left|]. intros _ _. apply IH. intros; apply H; by right.
Qed.

Lemma try_concat_pass {A B} (f : A → outcome (option (list B))) l bs :
  try_concat f l = pass bs ↔ ∃ parts, Forall2 (λ a p, f a = pass p) l parts ∧ bs = mjoin parts.
Proof.
  revert bs. induction l as [|a l IH]; intros bs; cbn [try_concat].
  - split; [intros [= <-]; exists []; by split; [constructor|]|].
    intros (parts & H%Forall2_nil_inv_l & ->). by subst.
  - rewrite try_bind_pass. setoid_rewrite try_bind_pass. fold (try_concat f). split.
    + intros (p & Hp & rest & (parts & Hparts & ->)%IH & [= <-]).
      exists (p :: parts). by split; [constructor|].
    + intros (parts & (p & rest & Hp & Hrest & ->)%Forall2_cons_inv_l & ->).
      exists p. split; [done|]. exists (mjoin rest). split; [apply IH; eauto|done].
Qed.

Lemma safe_try_concat {A B} (f : A → outcome (option (list B))) l :
  (∀ a, a ∈ l → safe (f a)) → safe (try_concat f l).
Proof.
  induction l as [|a l IH]; intros H; cbn [try_concat]; [done|].
  apply safe_try; [apply H; by left|]. intros ? _.
  apply safe_try; [apply IH; intros; apply H; by right|done].
Qed.

Create HintDb safe_db.
#[export] Hint Resolve safe_Ret safe_pass safe_corrupt safe_fail_if : safe_db.

(** Peels the binds of a goal [safe _]. *)
Ltac safe_step :=
  match goal with
  | |- safe (try_bind _ _) => apply safe_try
  | |- safe (mbind _ _) => apply safe_bind
  | |- safe (try_all _ _) => apply safe_try_all
  | |- safe (if ?c then _ else _) => destruct c
  end.

Ltac safe_go := repeat (safe_step; [solve [auto with safe_db]|intros ? _]).

(** Inverts hypotheses that say a chain of checks passed. *)
Ltac passed :=
  repeat match goal with
    | H : try_bind _ _ = pass _ |- _ =>
        apply try_bind_pass in H; destruct H as (? & ? & ?)
    | H : Ret ?o = pass _ |- _ => injection H as H
    | H : pass _ = pass _ |- _ => apply pass_inj in H
    | H : fail_if _ = pass _ |- _ => apply fail_if_pass in H
    | H : corrupt = pass _ |- _ => discriminate H
    | u : () |- _ => destruct u
    end.

(** ** Types and references *)

Definition in_table (t : TypeTable) (id : BundleTypeId) : Prop := (id < length (types t))%nat.

Lemma ty_get_Some t id : in_table t id ↔ ∃ def, ty_get t id = Some def.
Proof. unfold in_table, ty_get. rewrite <- lookup_lt_is_Some. done. Qed.

Lemma ty_get_in t id def : ty_get t id = Some def → in_table t id.
Proof. intros H. apply ty_get_Some. eauto. Qed.
#[export] Hint Resolve ty_get_in : safe_db.

(** The type ids a definition refers to. *)
Definition def_refs (def : TypeDef) : list BundleTypeId :=
  match def with
  | TBase _ _ _ | TOpaque _ _ => []
  | TPointer _ target => [target]
  | TArray elem _ => [elem]
  | TStruct _ _ members | TUnion _ _ members => m_ty <$> members
  | TEnum _ _ sh =>
      match discr sh with Some d => [d_ty d] | None => [] end
      ++ ((λ v, m_ty (v_payload v)) <$> variants sh)
  | TCEnum _ _ repr _ => [repr]
  end.

(** Every id a type of the table mentions is in the table. *)
Definition refs_closed (t : TypeTable) : Prop :=
  ∀ id def ref, ty_get t id = Some def → ref ∈ def_refs def → in_table t ref.

Lemma get_safe t r : safe (get t r).
Proof. destruct (get_total t r) as [o ->]. done. Qed.
#[export] Hint Resolve get_safe : safe_db.

Lemma check_ref_safe b r : safe (check_ref b r).
Proof. unfold check_ref. safe_step; [auto with safe_db|]. by intros [] _. Qed.
#[export] Hint Resolve check_ref_safe : safe_db.

Lemma check_ty_pass t id : check_ty t id = pass () ↔ in_table t id.
Proof. unfold check_ty, in_table. rewrite fail_if_pass, Nat.leb_gt. done. Qed.

Lemma check_type_def_refs b def :
  check_type_def b def = pass () → Forall (in_table (b_types b)) (def_refs def).
Proof.
  assert (Hms : ∀ ms, try_all (check_member b) ms = pass () →
    Forall (in_table (b_types b)) (m_ty <$> ms)).
  { intros ms H. rewrite try_all_pass in H. apply Forall_fmap, Forall_forall. intros m Hm.
    specialize (H m Hm). unfold check_member in H. passed. by apply check_ty_pass. }
  destruct def; cbn [check_type_def def_refs]; intros H; passed; try by constructor.
  - constructor; [by apply check_ty_pass|constructor].
  - constructor; [by apply check_ty_pass|constructor].
  - auto.
  - auto.
  - apply Forall_app. split.
    + destruct (discr shape); [|constructor].
      constructor; [by apply check_ty_pass|constructor].
    + match goal with H : try_all _ _ = _ |- _ => rewrite try_all_pass in H; rename H into Hv end.
      apply Forall_fmap, Forall_forall. intros v Hin. specialize (Hv v Hin).
      unfold check_variant_def, check_member in Hv. passed. cbn. by apply check_ty_pass.
  - constructor; [by apply check_ty_pass|constructor].
Qed.

Lemma check_types_refs b :
  try_all (check_type_def b) (types (b_types b)) = pass () → refs_closed (b_types b).
Proof.
  intros H id def ref Hd Hr. rewrite try_all_pass in H.
  pose proof (check_type_def_refs b def (H def ltac:(by eapply list_elem_of_lookup_2))) as Hf.
  rewrite Forall_forall in Hf. auto.
Qed.

(** ** Members and variants *)

Lemma member_at_in ms at_ m : member_at ms at_ = Some m → m ∈ ms.
Proof.
  unfold member_at. destruct (member_ref_resolve _ _ _); [|done]. cbn.
  apply list_elem_of_lookup_2.
Qed.

Lemma variant_named_in sh nm v : variant_named sh nm = Some v → v ∈ variants sh.
Proof.
  unfold variant_named. destruct (filter _ _) as [|x [|]] eqn:E; intros [= <-].
  assert (x ∈ filter (λ v, v_name v = nm) (variants sh)) as Hx by (rewrite E; by left).
  by apply list_elem_of_filter in Hx as [_ ?].
Qed.

Lemma aggregate_refs def ms m : aggregate_members def = Some ms → m ∈ ms → m_ty m ∈ def_refs def.
Proof.
  destruct def; cbn; intros [= <-] Hm; by apply list_elem_of_fmap_2.
Qed.

Lemma variant_refs nm size sh v : v ∈ variants sh → m_ty (v_payload v) ∈ def_refs (TEnum nm size sh).
Proof.
  intros Hv. cbn. apply elem_of_app. right.
  by apply (list_elem_of_fmap_2 (λ v, m_ty (v_payload v))).
Qed.

(** ** Landings *)

Section landing.
Context (t : TypeTable).

Lemma selector_go_in sem sel : ∀ current def seen offset target o,
  ty_get t current = Some def →
  selector_go t sem sel current def seen offset = Some (target, o) → in_table t target.
Proof.
  induction sel as [|[at_| |nm|] sel IH]; intros current def seen offset target o Hc H;
    cbn [selector_go] in H.
  - simplify_eq. eauto with safe_db.
  - destruct (sem && _); [done|].
    apply bind_Some in H as (ms & _ & H). apply bind_Some in H as (m & _ & H).
    apply bind_Some in H as (o' & _ & H). case_bool_decide; [done|].
    apply bind_Some in H as (def' & ? & H). eauto.
  - destruct def; try done. apply bind_Some in H as (def' & ? & H). eauto.
  - destruct def; try done. apply bind_Some in H as (v & _ & H).
    apply bind_Some in H as (o' & _ & H). case_bool_decide; [done|].
    apply bind_Some in H as (def' & ? & H). eauto.
  - done.
Qed.

Lemma selector_target_in root sel sem target :
  selector_target_with_policy t root sel sem = Some target → in_table t target.
Proof.
  unfold selector_target_with_policy. destruct (ty_get t root) eqn:E; [|done]. cbn.
  destruct (selector_go _ _ _ _ _ _ _) as [[c o]|] eqn:Eg; [|done]. cbn.
  destruct (sem && _); intros [= <-]. by eapply selector_go_in.
Qed.

Lemma check_selector_spec root sel sh av target :
  check_selector t root sel sh av = Some target ↔
    sel ≠ [] ∧ forbid_variant_steps sel av = Some () ∧
    selector_target t root sel = Some target ∧ shape_matches t target sh = true.
Proof.
  unfold check_selector. case_bool_decide; [naive_solver|].
  destruct (forbid_variant_steps sel av) as [[]|]; [|naive_solver]. cbn.
  destruct (selector_target t root sel) as [x|]; [|naive_solver]. cbn.
  destruct (shape_matches t x sh) eqn:E; [naive_solver|].
  split; [done|]. intros (_ & _ & [= ->] & ?). congruence.
Qed.

Lemma walk_targets_safe steps : ∀ current seen,
  refs_closed t → in_table t current → safe (walk_targets t current steps seen).
Proof.
  induction steps as [|step steps IH]; intros current seen Hcl Hc; cbn [walk_targets]; [done|].
  apply ty_get_Some in Hc as [def Hd]. rewrite Hd. cbn [or_panic].
  apply safe_bind; [done|]. intros ? [= <-].
  assert (∀ ty, ty ∈ def_refs def → safe (if bool_decide (ty ∈ seen) then corrupt
            else walk_targets t ty steps (ty :: seen))) as Hdesc.
  { intros ty Hty. case_bool_decide; [done|]. eauto. }
  destruct step as [at_| |nm|].
  - apply safe_try; [done|]. intros ms [= Hms]. apply safe_try; [done|]. intros m [= Hm].
    apply Hdesc. eapply aggregate_refs, member_at_in; eauto.
  - destruct def; try done. apply IH; [done|]. eapply Hcl; [done|]. by left.
  - destruct def; try done. apply safe_try; [done|]. intros v [= Hv].
    apply Hdesc, variant_refs. by eapply variant_named_in.
  - destruct def as [| | | | |? ? sh| |]; try done.
    destruct (variants sh) as [|v0 vs] eqn:Evs; [done|].
    apply safe_try_concat. intros v Hv. apply Hdesc, variant_refs. by rewrite Evs.
Qed.

Lemma walk_targets_in steps : ∀ current seen targets,
  refs_closed t → in_table t current →
  walk_targets t current steps seen = pass targets → Forall (in_table t) targets.
Proof.
  induction steps as [|step steps IH]; intros current seen targets Hcl Hc H;
    cbn [walk_targets] in H.
  { injection H as <-. by repeat constructor. }
  apply ty_get_Some in Hc as [def Hd]. rewrite Hd, outcome_bind_eq in H. cbn [or_panic] in H.
  assert (∀ ty ts, ty ∈ def_refs def → (if bool_decide (ty ∈ seen) then corrupt
            else walk_targets t ty steps (ty :: seen)) = pass ts → Forall (in_table t) ts)
    as Hdesc.
  { intros ty ts Hty Ht. case_bool_decide; [done|]. eauto. }
  destruct step as [at_| |nm|].
  - passed. eapply Hdesc; [|eassumption]. eapply aggregate_refs, member_at_in; eauto.
  - destruct def; try done. eapply IH; [done| |done]. eapply Hcl; [done|]. by left.
  - destruct def; try done. passed. eapply Hdesc; [|eassumption].
    eapply variant_refs, variant_named_in; eauto.
  - destruct def as [| | | | |? ? sh| |]; try done.
    destruct (variants sh) as [|v0 vs] eqn:Evs; [done|].
    apply try_concat_pass in H as (parts & Hp & ->).
    apply Forall_forall. intros x (p & Hx & Hin)%list_elem_of_join.
    apply list_elem_of_lookup in Hin as [i Hi].
    destruct (Forall2_lookup_r _ _ _ _ _ Hp Hi) as (v & Hv & Hvp).
    eapply Hdesc in Hvp; [by rewrite Forall_forall in Hvp; apply Hvp|].
    eapply variant_refs. rewrite Evs. by eapply list_elem_of_lookup_2.
Qed.
End landing.

(** ** Programs *)

(** The nodes directly under a node. *)
Definition option_nodes (o : option DisplayNode) : list DisplayNode := opt_list id o.
Definition field_nodes (f : Field) : list DisplayNode :=
  match f with FMember _ n => option_nodes n | FSynth _ n => [n] end.
Definition arm_nodes (a : Arm) : list DisplayNode :=
  match a with mkArm _ _ n => option_nodes n end.

Definition subnodes (n : DisplayNode) : list DisplayNode :=
  match n with
  | NStruct fields => mjoin (field_nodes <$> fields)
  | NList _ _ n _ | NPointer _ _ n => [n]
  | NVariant _ arms d => mjoin (arm_nodes <$> arms) ++ option_nodes d
  | _ => []
  end.

(** Induction over a display program: a property of every node follows from
    its step from the nodes directly under one. *)
Section node_ind.
Context (P : DisplayNode → Prop) (H : ∀ n, Forall P (subnodes n) → P n).

Fixpoint node_ind' (n : DisplayNode) : P n :=
  H n
    match n as n return Forall P (subnodes n) with
    | NStruct fields =>
        (fix go (fs : list Field) : Forall P (mjoin (field_nodes <$> fs)) :=
           match fs with
           | [] => Forall_nil_2 _
           | f :: fs => Forall_app_2 _ _ _ (field_ind' f) (go fs)
           end) fields
    | NList _ _ n _ | NPointer _ _ n => Forall_cons_2 _ n [] (node_ind' n) (Forall_nil_2 _)
    | NVariant _ arms d =>
        Forall_app_2 _ _ _
          ((fix go (l : list Arm) : Forall P (mjoin (arm_nodes <$> l)) :=
              match l with
              | [] => Forall_nil_2 _
              | a :: l => Forall_app_2 _ _ _ (arm_ind' a) (go l)
              end) arms)
          match d as d return Forall P (option_nodes d) with
          | Some n => Forall_cons_2 _ n [] (node_ind' n) (Forall_nil_2 _)
          | None => Forall_nil_2 _
          end
    | _ => Forall_nil_2 _
    end
with field_ind' (f : Field) : Forall P (field_nodes f) :=
  match f with
  | FMember _ o =>
      match o with
      | Some n => Forall_cons_2 _ n [] (node_ind' n) (Forall_nil_2 _)
      | None => Forall_nil_2 _
      end
  | FSynth _ n => Forall_cons_2 _ n [] (node_ind' n) (Forall_nil_2 _)
  end
with arm_ind' (a : Arm) : Forall P (arm_nodes a) :=
  match a with
  | mkArm _ _ o =>
      match o with
      | Some n => Forall_cons_2 _ n [] (node_ind' n) (Forall_nil_2 _)
      | None => Forall_nil_2 _
      end
  end.
End node_ind.

(** The same for statements. *)
Definition substmts (s : Stmt) : list Stmt :=
  match s with If_ _ th el => th ++ el | _ => [] end.

Section stmt_ind.
Context (P : Stmt → Prop) (H : ∀ s, Forall P (substmts s) → P s).

Fixpoint stmt_ind' (s : Stmt) : P s :=
  let go := fix go (l : list Stmt) : Forall P l :=
    match l with
    | [] => Forall_nil_2 _
    | s :: l => Forall_cons_2 _ s l (stmt_ind' s) (go l)
    end in
  H s match s as s return Forall P (substmts s) with
      | If_ _ th el => Forall_app_2 _ _ _ (go th) (go el)
      | _ => Forall_nil_2 _
      end.
End stmt_ind.

(** ** Which checks can panic *)

Section safe.
Context (b : Bundle) (Hcl : refs_closed (b_types b)).

Lemma check_scalar_decode_safe d w : safe (check_scalar_decode b d w).
Proof.
  assert (∀ fs c, safe (check_fields_bits b w c fs)) as Hfs.
  { induction fs as [|f fs IH]; intros c; [done|]. cbn [check_fields_bits].
    safe_step; [|auto]. unfold check_field_bits.
    safe_go. safe_step; [|done].
    destruct (bf_render f); [|done]. apply safe_try_all. intros e _.
    safe_step; auto with safe_db. }
  destruct d as [| |[|f fs]]; [done..|]. apply Hfs.
Qed.

Lemma check_value_expr_safe scope e n :
  in_table (b_types b) scope → safe (check_value_expr (b_types b) scope e n).
Proof.
  intros Hs. induction e; cbn [check_value_expr]; auto with safe_db;
    try (safe_step; [assumption|intros ? _; assumption]).
  - safe_step; [auto with safe_db|intros ? _].
    safe_step; [by apply walk_targets_safe|intros targets _].
    apply safe_try_all. auto with safe_db.
  - safe_step; auto with safe_db.
Qed.

Lemma check_stmt_safe scope n s :
  in_table (b_types b) scope → safe (check_stmt (b_types b) scope n s).
Proof.
  intros Hs. induction s as [s IH] using stmt_ind'. rewrite Forall_forall in IH.
  destruct s; cbn [check_stmt substmts] in *; auto using check_value_expr_safe.
  - safe_step; auto using safe_fail_if, check_value_expr_safe.
  - safe_step; [by apply check_value_expr_safe|intros ? _].
    safe_step; [|intros ? _]; apply safe_try_all; intros s Hin; apply IH, elem_of_app; auto.
Qed.

Lemma dyn_tail_depth_safe fuel id seen : safe (dyn_tail_depth fuel b id seen).
Proof.
  revert id seen. induction fuel as [|fuel IH]; intros id seen; [done|]. cbn [dyn_tail_depth].
  safe_step; [done|]. safe_step; [done|intros def _].
  safe_step; [destruct def; auto with safe_db|intros nm _]. safe_step; [done|].
  destruct def; try done. safe_step; [done|intros ? _]. safe_step; [apply IH|done].
Qed.

Lemma pointer_or_panic_safe id :
  shape_matches (b_types b) id ShPointer = true → safe (pointer_or_panic (b_types b) id).
Proof. unfold pointer_or_panic. cbn. by destruct (ty_get _ _) as [[]|]. Qed.

Lemma array_or_panic_safe id :
  shape_matches (b_types b) id ShArray = true → safe (array_or_panic (b_types b) id).
Proof. unfold array_or_panic. cbn. by destruct (ty_get _ _) as [[]|]. Qed.

Lemma check_dyn_pointer_safe scope p v d s a tl :
  (∀ x, selector_target (b_types b) scope p = Some x →
     shape_matches (b_types b) x ShPointer = true) →
  (∀ x, selector_target (b_types b) scope v = Some x →
     shape_matches (b_types b) x ShPointer = true) →
  safe (check_dyn_pointer b scope p v d s a tl).
Proof.
  intros Hp Hv. unfold check_dyn_pointer.
  safe_step; [auto with safe_db|intros ? _]. safe_step; [done|intros x [= Hx]].
  safe_step; [by apply pointer_or_panic_safe, Hp|intros ? _].
  safe_step; [apply dyn_tail_depth_safe|intros ? _]. safe_step; [auto with safe_db|intros ? _].
  safe_step; [done|intros y [= Hy]].
  safe_step; [by apply pointer_or_panic_safe, Hv|intros ? _].
  safe_step; [by destruct (ty_get _ _) as [[]|]|intros [elem count] _].
  safe_step; [|intros ? _; safe_step; auto with safe_db].
  destruct (ty_get _ _) as [[? ? []| | | | | | |]|]; auto with safe_db; done.
Qed.

Lemma check_hash_entries_safe scope k v c bu ka va :
  safe (check_hash_entries (b_types b) scope k v c bu ka va).
Proof.
  unfold check_hash_entries. safe_step; [done|intros x [= Hx]].
  apply check_selector_spec in Hx as (_ & _ & _ & Hx).
  safe_step; [by apply pointer_or_panic_safe|intros ? _].
  safe_go.
  destruct v, va; try done. safe_step; auto with safe_db.
Qed.

Lemma find_variant_safe nm vs : safe (find_variant b nm vs).
Proof.
  induction vs as [|v vs IH]; [done|]. cbn [find_variant].
  safe_step; [auto with safe_db|intros ? _]. by safe_step.
Qed.

Lemma check_btree_entries_safe scope k v r rn h n l ll lk lv i id ie e :
  safe (check_btree_entries b scope k v r rn h n l ll lk lv i id ie e).
Proof.
  unfold check_btree_entries. safe_step; [done|intros root _].
  safe_step; [by destruct (ty_get _ _) as [[]|]|intros sh _].
  safe_step; [apply find_variant_safe|intros ? _].
  do 10 (safe_step; [solve [auto with safe_db]|intros ? _]).
  safe_step; [done|intros kt [= Hk]]. safe_step; [done|intros vt [= Hv]].
  apply check_selector_spec in Hk as (_ & _ & _ & Hk), Hv as (_ & _ & _ & Hv).
  safe_step; [by apply array_or_panic_safe|intros [ks kc] _].
  safe_step; [by apply array_or_panic_safe|intros [vs vc] _].
  do 2 (safe_step; [solve [auto with safe_db]|intros ? _]).
  safe_step; [solve [auto with safe_db]|intros ? _].
  safe_step; [done|intros et [= He]]. apply check_selector_spec in He as (_ & _ & _ & He).
  safe_step; [by apply array_or_panic_safe|intros [es ec] _].
  safe_go. auto with safe_db.
Qed.

Lemma check_map_entries_safe scope k v e : safe (check_map_entries b scope k v e).
Proof.
  destruct e, v; cbn [check_map_entries];
    auto using check_btree_entries_safe, check_hash_entries_safe; done.
Qed.

Lemma check_sized_safe id : safe (check_sized (b_types b) id).
Proof. unfold check_sized. safe_step; auto with safe_db. Qed.

(** What the shape table settled about one datum of a node. *)
Lemma addressed_target scope n a x :
  try_all (λ a, Ret (check_addressed (b_types b) scope a)) (addressed n) = pass () →
  a ∈ addressed n → root_allowed a = false →
  selector_target (b_types b) scope (ad_sel a) = Some x →
  shape_matches (b_types b) x (ad_shape a) = true.
Proof.
  rewrite try_all_pass. intros H Ha Hr Hx. specialize (H a Ha). injection H as H.
  unfold check_addressed in H. rewrite Hr, andb_false_r in H.
  apply bind_Some in H as (y & Hy & _). apply check_selector_spec in Hy as (_ & _ & Hy & ?).
  congruence.
Qed.

Lemma byte_array_safe id :
  shape_matches (b_types b) id ShArray = true → safe (byte_array (b_types b) id).
Proof.
  intros H. unfold byte_array. safe_step; [by apply array_or_panic_safe|intros [elem c] _].
  destruct (ty_get _ _) as [[? ? []| | | | | | |]|]; try done. safe_step; auto with safe_db.
Qed.

Lemma check_node_safe n : ∀ scope, in_table (b_types b) scope → safe (check_node b scope n).
Proof.
  induction n as [n IH] using node_ind'. intros scope Hs. rewrite Forall_forall in IH.
  assert (Hopt : ∀ o, (∀ n', n' ∈ option_nodes o → n' ∈ subnodes n) →
    safe (match o with Some n => check_node b scope n | None => pass () end)).
  { intros [n'|] Ho; [|done]. apply IH; [|done]. apply Ho. by left. }
  destruct n; cbn [check_node]; (safe_step; [apply safe_try_all; intros; done|intros [] Ha]);
    pose proof (λ a x, addressed_target scope _ a x Ha) as Hshape; cbn [subnodes] in *; try done.
  - safe_step; [done|intros x [= Hx]].
    specialize (Hshape (addressed_new at_ Word) x ltac:(by left) eq_refl Hx). cbn in Hshape.
    destruct (size_of _ x); [|done]. safe_step; [done|intros]. apply check_scalar_decode_safe.
  - safe_step; [by apply check_value_expr_safe|intros; apply check_scalar_decode_safe].
  - apply safe_try_all. intros f Hf.
    assert (∀ n', n' ∈ field_nodes f → n' ∈ mjoin (field_nodes <$> fields)).
    { intros n' Hn'. apply list_elem_of_join. exists (field_nodes f).
      split; [done|by apply list_elem_of_fmap_2]. }
    destruct f; cbn [check_field field_nodes] in *.
    + safe_step; [unfold check_member_field; safe_step; auto with safe_db|intros ? _]. auto.
    + safe_step; [auto with safe_db|intros ? _]. apply IH; [|done]. set_solver.
  - safe_step; [auto with safe_db|intros [] Hf%fail_if_pass]. apply bool_decide_eq_false in Hf.
    safe_step; [done|intros ? _]. apply IH; [by left|].
    apply ty_get_Some. by destruct (ty_get _ _); [eauto|].
  - safe_step; [auto with safe_db|intros; apply check_sized_safe].
  - safe_step; [done|intros x [= Hx]]. safe_step; [|auto with safe_db].
    apply byte_array_safe. by apply (Hshape (addressed_new at_ ShArray) x ltac:(by left)).
  - safe_step; [done|intros x [= Hx]]. safe_step; [|auto with safe_db].
    apply byte_array_safe. by apply (Hshape (addressed_new ip ShArray) x ltac:(by left)).
  - safe_step; [done|intros x [= Hx]]. safe_step.
    { apply pointer_or_panic_safe. by apply (Hshape (addressed_new at_ ShPointer) x ltac:(by left)). }
    intros pointee _. safe_step; [done|intros target [= Ht]]. apply IH; [by left|].
    apply check_selector_spec in Ht as (_ & _ & Ht & _). by eapply selector_target_in.
  - apply check_dyn_pointer_safe.
    + intros x Hx. by apply (Hshape (addressed_new pointer ShPointer) x ltac:(by left)).
    + intros x Hx. by apply (Hshape (addressed_new vtable ShPointer) x ltac:(right; by left)).
  - safe_step; [destruct entries; auto with safe_db|intros ? _].
    safe_step; [apply check_sized_safe|intros ? _].
    safe_step; [destruct value; [apply check_sized_safe|done]|intros ? _].
    apply check_map_entries_safe.
  - safe_step; [by apply check_value_expr_safe|intros ? _].
    safe_step; [|intros ? _; apply Hopt; intros ? ?; apply elem_of_app; by right].
    apply safe_try_all. intros [v l o] Hin. cbn [check_arm].
    safe_step; [destruct l; auto with safe_db|intros ? _].
    safe_step; [auto with safe_db|intros ? _]. apply Hopt. intros n' Hn'.
    apply elem_of_app. left. apply list_elem_of_join. exists (arm_nodes (mkArm v l o)).
    split; [done|by apply list_elem_of_fmap_2].
  - safe_step; [apply safe_try_all; intros; by apply check_value_expr_safe|intros ? _].
    safe_step; [by apply check_value_expr_safe|intros ? _].
    safe_step; [apply safe_try_all; intros; by apply check_stmt_safe|intros ? _].
    apply check_sized_safe.
Qed.
End safe.
