(* ===== verification/TypeSizes.v ===== *)
(** The size of a type: [TypeTable::size_of] against its definition as a
    relation, and the view's [BundleType::size], which computes it without a
    guard against an array that contains itself. *)

From S2P Require Import Prelude Text StringTable Schema BundleCheck TypeView BundleCheckFacts.

Local Open Scope Z_scope.

(** The size a definition states outright; an array's is its elements'. *)
Definition flat_size (def : TypeDef) : option Z :=
  match def with
  | TBase _ size _ | TStruct _ size _ | TUnion _ size _ | TEnum _ size _
  | TCEnum _ size _ _ => Some size
  | TPointer _ _ => Some POINTER_SIZE
  | TArray _ _ => None
  | TOpaque _ size => size
  end.

(** The bytes a type occupies: an array is its elements end to end, provided
    they fit a 64-bit address space. *)
Inductive sized (t : TypeTable) : BundleTypeId → Z → Prop :=
  | sized_flat id def n : ty_get t id = Some def → flat_size def = Some n → sized t id n
  | sized_array id elem count n :
      ty_get t id = Some (TArray elem count) → sized t elem n → n * count < W64 →
      sized t id (n * count).

(** The fields' machine types: every size, count and offset is a [u64]. *)
Definition member_u64 (m : MemberDef) : Prop := is_u64 (m_offset m).
Definition def_u64 (def : TypeDef) : Prop :=
  match def with
  | TBase _ size _ | TCEnum _ size _ _ => is_u64 size
  | TPointer _ _ => True
  | TArray _ count => is_u64 count
  | TStruct _ size ms | TUnion _ size ms => is_u64 size ∧ Forall member_u64 ms
  | TEnum _ size sh =>
      is_u64 size ∧ Forall (λ v, member_u64 (v_payload v)) (variants sh)
      ∧ match discr sh with Some d => is_u64 (d_offset d) | None => True end
  | TOpaque _ size => match size with Some n => is_u64 n | None => True end
  end.
Definition table_u64 (t : TypeTable) : Prop := ∀ id def, ty_get t id = Some def → def_u64 def.

Section sizes.
Context (t : TypeTable).

(** The same with the types passed on the way, in order. *)
Inductive sized_by : list BundleTypeId → BundleTypeId → Z → Prop :=
  | by_flat id def n : ty_get t id = Some def → flat_size def = Some n → sized_by [id] id n
  | by_array l id elem count n :
      ty_get t id = Some (TArray elem count) → sized_by l elem n → n * count < W64 →
      sized_by (id :: l) id (n * count).

Lemma sized_sized_by id n : sized t id n ↔ ∃ l, sized_by l id n.
Proof.
  split.
  - induction 1 as [id def n Hd Hf|id elem count n Hd _ [l Hl] Hn]; eauto using sized_by.
  - intros [l H]. induction H; eauto using sized.
Qed.

Lemma sized_by_det l id n l' n' : sized_by l id n → sized_by l' id n' → l = l' ∧ n = n'.
Proof.
  intros H. revert l' n'. induction H as [id def n Hd Hf|l id elem count n Hd Hl IH Hn];
    intros l' n' H'; inversion H'; simplify_eq/=; try done.
  match goal with H : sized_by _ elem _ |- _ => destruct (IH _ _ H) as [-> ->] end. done.
Qed.

Lemma sized_by_suffix l id n x :
  sized_by l id n → x ∈ l → ∃ l2 m, sized_by l2 x m ∧ (length l2 ≤ length l)%nat.
Proof.
  induction 1 as [id def n Hd Hf|l id elem count n Hd Hl IH Hn]; intros Hx.
  - apply list_elem_of_singleton in Hx as ->. eauto using sized_by.
  - apply elem_of_cons in Hx as [->|Hx]; [eauto using sized_by|].
    destruct (IH Hx) as (l2 & m & ? & ?). exists l2, m. simpl. split; [done|lia].
Qed.

Lemma sized_by_NoDup l id n : sized_by l id n → NoDup l.
Proof.
  induction 1 as [id def n Hd Hf|l id elem count n Hd Hl IH Hn]; [apply NoDup_singleton|].
  constructor; [|done]. intros Hin. destruct (sized_by_suffix _ _ _ _ Hl Hin) as (l2 & m & H2 & ?).
  destruct (sized_by_det _ _ _ _ _ H2 (by_array _ _ _ _ _ Hd Hl Hn)) as [-> _]. simpl in *. lia.
Qed.

Lemma sized_by_in_table l id n : sized_by l id n → Forall (in_table t) l.
Proof. induction 1; constructor; eauto with safe_db. Qed.

Lemma in_table_length l : NoDup l → Forall (in_table t) l → (length l ≤ length (types t))%nat.
Proof.
  intros Hnd Hf. rewrite <- (length_seq (length (types t)) 0).
  apply submseteq_length, NoDup_submseteq; [done|].
  intros x Hx. apply elem_of_seq. rewrite Forall_forall in Hf. specialize (Hf x Hx).
  unfold in_table in Hf. lia.
Qed.

Lemma sized_by_go l id n fuel seen :
  sized_by l id n → (∀ x, x ∈ l → x ∉ seen) → (length l ≤ fuel)%nat →
  size_of_go fuel t id seen = Some n.
Proof.
  intros H. revert fuel seen. induction H as [id def n Hd Hf|l id elem count n Hd Hl IH Hn];
    intros [|fuel] seen Hs Hfuel; simpl in Hfuel; try lia; cbn [size_of_go];
    rewrite bool_decide_eq_false_2 by (apply Hs; by left); rewrite Hd; cbn [mbind option_bind].
  - by destruct def.
  - pose proof (sized_by_NoDup _ _ _ (by_array _ _ _ _ _ Hd Hl Hn)) as [Hni _]%NoDup_cons.
    rewrite IH; [| |lia].
    2:{ intros x Hx. rewrite not_elem_of_cons. split; [by intros ->|apply Hs; by right]. }
    cbn. unfold checked_mul. by rewrite (proj2 (Z.ltb_lt _ _)).
Qed.

Lemma go_sized fuel id seen n : size_of_go fuel t id seen = Some n → sized t id n.
Proof.
  revert id seen n. induction fuel as [|fuel IH]; intros id seen n H; [done|].
  cbn [size_of_go] in H. case_bool_decide; [done|].
  apply bind_Some in H as (def & Hd & H).
  destruct def; try (eapply sized_flat; [done|exact H]).
  apply bind_Some in H as (m & Hm & H). unfold checked_mul in H.
  destruct (_ <? _) eqn:E; [|done]. simplify_eq. zb. eapply sized_array; eauto.
Qed.

(** [size_of] computes exactly the sizes there are. *)
Lemma size_of_sized id n : size_of t id = Some n ↔ sized t id n.
Proof.
  split; [apply go_sized|]. intros [l Hl]%sized_sized_by.
  eapply sized_by_go; [done|set_solver|].
  pose proof (in_table_length l (sized_by_NoDup _ _ _ Hl) (sized_by_in_table _ _ _ Hl)). lia.
Qed.

Lemma sized_u64 id n : table_u64 t → sized t id n → is_u64 n.
Proof.
  intros Hu. induction 1 as [id def n Hd Hf|id elem count n Hd _ IH Hn]; specialize (Hu _ _ Hd).
  - destruct def; simplify_eq/=; try tauto; by vm_compute.
  - unfold is_u64 in *. simpl in Hu. unfold is_u64 in Hu. nia.
Qed.
End sizes.

Section view.
Context (b : Bundle).
Abbreviation t := (b_types b).

Lemma ty_size_go_mono fuel fuel' id n :
  (fuel ≤ fuel')%nat → ty_size_go fuel b id = Ret n → ty_size_go fuel' b id = Ret n.
Proof.
  revert fuel' id n. induction fuel as [|fuel IH]; intros [|fuel'] id n Hle H; try done; [lia|].
  cbn [ty_size_go] in *. destruct (ty_def b id) as [def|]; [|done].
  rewrite outcome_bind_eq in *. destruct def; try done.
  apply outcome_bind_Ret in H as (m & Hm & <-). by rewrite (IH fuel' _ m) by (done || lia).
Qed.

(** The types passed on the way down an array, ending at one that states its
    size. *)
Inductive chain : list BundleTypeId → BundleTypeId → Prop :=
  | chain_end id def : ty_get t id = Some def →
      (∀ elem count, def ≠ TArray elem count) → chain [id] id
  | chain_elem l id elem count : ty_get t id = Some (TArray elem count) → chain l elem →
      chain (id :: l) id.

Lemma go_chain fuel id n : ty_size_go fuel b id = Ret n → ∃ l, chain l id.
Proof.
  revert id n. induction fuel as [|fuel IH]; intros id n H; [done|]. cbn [ty_size_go] in H.
  unfold ty_def in H. destruct (ty_get t id) as [def|] eqn:Hd; [|done].
  cbn [or_panic] in H. rewrite outcome_bind_eq in H.
  destruct def; try (eexists; eapply chain_end; done).
  apply outcome_bind_Ret in H as (m & Hm & _). destruct (IH _ _ Hm). eauto using chain.
Qed.

Lemma chain_det l l' id : chain l id → chain l' id → l = l'.
Proof.
  intros H. revert l'. induction H; intros l' H'; inversion H'; simplify_eq; try done.
  all: try (exfalso; naive_solver). f_equal. auto.
Qed.

Lemma chain_suffix l id x : chain l id → x ∈ l → ∃ l2, chain l2 x ∧ (length l2 ≤ length l)%nat.
Proof.
  induction 1 as [id def Hd Hf|l id elem count Hd Hl IH]; intros Hx.
  - apply list_elem_of_singleton in Hx as ->. eauto using chain.
  - apply elem_of_cons in Hx as [->|Hx]; [eauto using chain|].
    destruct (IH Hx) as (l2 & ? & ?). exists l2. simpl. split; [done|lia].
Qed.

Lemma chain_short l id : chain l id → (length l ≤ length (types t))%nat.
Proof.
  intros H. apply in_table_length.
  - induction H as [|l id elem count Hd Hl IH]; [apply NoDup_singleton|].
    constructor; [|done]. intros Hin. destruct (chain_suffix _ _ _ Hl Hin) as (l2 & H2 & ?).
    rewrite (chain_det _ _ _ H2 (chain_elem _ _ _ _ Hd Hl)) in *. simpl in *. lia.
  - induction H; constructor; eauto with safe_db.
Qed.

Lemma chain_go l id fuel : chain l id → (length l ≤ fuel)%nat → ∃ n, ty_size_go fuel b id = Ret n.
Proof.
  intros H. revert fuel. induction H as [id def Hd Hf|l id elem count Hd Hl IH];
    intros [|fuel] Hle; simpl in Hle; try lia; cbn [ty_size_go]; unfold ty_def;
    rewrite Hd; cbn [or_panic]; rewrite outcome_bind_eq.
  - destruct def; try by eexists. by edestruct Hf.
  - destruct (IH fuel) as [n ->]; [lia|]. by eexists.
Qed.

(** The fuel of [ty_size] is enough: a size any fuel finds, it finds. *)
Lemma ty_size_enough fuel id n : ty_size_go fuel b id = Ret n → ty_size b id = Ret n.
Proof.
  intros H. destruct (go_chain _ _ _ H) as [l Hl]. pose proof (chain_short _ _ Hl).
  destruct (chain_go _ _ (S (length (types t))) Hl ltac:(lia)) as [m Hm].
  unfold ty_size. rewrite Hm. destruct (Nat.le_ge_cases fuel (S (length (types t)))) as [Hle|Hle].
  - pose proof (ty_size_go_mono _ _ _ _ Hle H). congruence.
  - pose proof (ty_size_go_mono _ _ _ _ Hle Hm). congruence.
Qed.

Lemma sized_ty_size id n : table_u64 t → sized t id n → ty_size b id = Ret n.
Proof.
  intros Hu H. enough (∃ fuel, ty_size_go fuel b id = Ret n) as [fuel Hf]
    by (by eapply ty_size_enough).
  induction H as [id def n Hd Hf|id elem count n Hd Hs [fuel IH] Hn].
  - exists 1%nat. cbn [ty_size_go]. unfold ty_def. rewrite Hd. cbn [or_panic].
    rewrite outcome_bind_eq. by destruct def; simplify_eq/=.
  - exists (S fuel). cbn [ty_size_go]. unfold ty_def. rewrite Hd. cbn [or_panic].
    rewrite outcome_bind_eq, IH, outcome_bind_eq. f_equal. unfold u64_mul.
    apply Z.mod_small. pose proof (sized_u64 _ _ _ Hu Hs) as Hn0. specialize (Hu _ _ Hd).
    unfold is_u64 in *. simpl in Hu. unfold is_u64 in Hu. nia.
Qed.
End view.
