(* ===== verification/BundleDemo.v ===== *)
(** A small bundle the witnesses evaluate: a queue whose nodes are linked by
    pointers, with an enum of two data-carrying variants, and a display program
    for it. *)

From S2P Require Import Prelude Text StringTable Schema BundleCheck TypeSizes.

Local Open Scope Z_scope.

Definition demo_names : list string :=
  ["u64"; "Node"; "next"; "value"; "Queue"; "head"; "state"; "State"; "Idle"; "Busy";
   "len"; "idle"; "busy"; "flags"; "Loop"; "u24"]%string.

Definition demo_strings : StringTable := table_of (bytes_of_string <$> demo_names).

(** [enum State { Idle(u64), Busy(u64) }], the first selected by a discriminant
    of zero and the second by any other. *)
Definition demo_state : VariantShape :=
  mkShape (Some (mkDiscr 0 0%nat))
    [mkVariant 8 (Some [DValue 0]) (mkMember 8 0%nat 8) None None;
     mkVariant 9 None (mkMember 9 0%nat 8) None None].

Definition demo_types : list TypeDef :=
  [TBase 0 8 Unsigned;                                              (* 0: u64 *)
   TStruct 1 16 [mkMember 2 2%nat 0; mkMember 3 0%nat 8];           (* 1: Node *)
   TPointer None 1%nat;                                             (* 2: *Node *)
   TStruct 4 32 [mkMember 5 2%nat 0; mkMember 6 4%nat 8; mkMember 10 0%nat 24];
                                                                    (* 3: Queue *)
   TEnum 7 16 demo_state;                                           (* 4: State *)
   TArray 0%nat 3].                                                 (* 5: [u64; 3] *)

(** The first node's value, through the head pointer. *)
Definition demo_path : Selector := [Member (Named 5); Deref; Member (Named 3)].

(** Whichever word the queue's state carries. *)
Definition demo_read : ValueExpr := Read [Member (Named 6); ActiveVariant].

Definition demo_flags : ScalarDecode :=
  Bits [mkBitField 11 0 (Some 1) RUint; mkBitField 12 1 (Some 3) (REnum [(1, 12); (2, 11)]);
        mkBitField 13 8 None RUint].

(** Each node from the head on: two variables, the node and how many are left. *)
Definition demo_list : DisplayNode :=
  NCustomList [Read [Member (Named 5)]; Read [Member (Named 10)]] (Var 1)
    [Emit (Var 0); Set_ 0 (Load (Var 0) 8); Set_ 1 (Sub (Var 1) (Const 1));
     Break (Lt (Var 0) (Const 1))]
    1%nat.

Definition demo_node : DisplayNode :=
  NStruct [FMember (Named 5) None; FSynth 13 (NComputed demo_read demo_flags);
           FSynth 2 demo_list].

Definition demo_walk : WalkBinding :=
  mkBinding [3%nat] [Member (Named 5); Deref; Member (Named 2)] (Bound 0 1 None).

Definition demo_bundle : Bundle :=
  mkBundle demo_strings (mkTypeTable demo_types [(3%nat, demo_node)]) [(0, demo_walk)].

Example demo_checked :
  validate_types demo_bundle = pass () ∧ check_walks demo_bundle = pass ().
Proof. split; reflexivity. Qed.

Lemma demo_table_u64 : table_u64 (b_types demo_bundle).
Proof.
  assert (Forall def_u64 (types (b_types demo_bundle))) as Hf.
  { repeat constructor; vm_compute; congruence. }
  intros id def Hd. rewrite Forall_forall in Hf. apply Hf. by eapply list_elem_of_lookup_2.
Qed.
