(* ===== verification/BundleTheorems.v ===== *)
(** What validation promises of a bundle: it never panics, its sizes are the
    types' sizes, and the paths it admits stay within the allocations they
    read. *)

From S2P Require Import Prelude Text StringTable Schema BundleCheck TypeView BundleCheckFacts TypeSizes BundleDemo.

Local Open Scope Z_scope.

Section selectors.
Context (t : TypeTable) (Hu : table_u64 t).

Lemma member_u64_in def ms at_ m id :
  ty_get t id = Some def → aggregate_members def = Some ms → member_at ms at_ = Some m →
  is_u64 (m_offset m).
Proof.
  intros Hd Ha Hm%member_at_in. specialize (Hu _ _ Hd).
  destruct def; simplify_eq/=; destruct Hu as [_ Hf]; rewrite Forall_forall in Hf; by apply Hf.
Qed.

Lemma variant_u64_in nm size sh vn v id :
  ty_get t id = Some (TEnum nm size sh) → variant_named sh vn = Some v →
  is_u64 (m_offset (v_payload v)).
Proof.
  intros Hd Hv%variant_named_in. specialize (Hu _ _ Hd). destruct Hu as (_ & Hf & _).
  rewrite Forall_forall in Hf. by apply Hf.
Qed.

(** Dropping the storage rules of a semantic path, the traversal still lands on
    the same type, whatever the offsets. *)
Lemma selector_go_weaken sel : ∀ current def seen offset offset' target o,
  selector_go t true sel current def seen offset = Some (target, o) →
  ∃ o', selector_go t false sel current def seen offset' = Some (target, o').
Proof.
  induction sel as [|[at_| |nm|] sel IH]; intros current def seen offset offset' target o H;
    cbn [selector_go] in *.
  - simplify_eq. eauto.
  - destruct (true && _); [done|]. cbn [andb].
    apply bind_Some in H as (ms & -> & H). apply bind_Some in H as (m & Hm & H).
    apply bind_Some in H as (o' & _ & H). cbn [mbind option_bind]. rewrite Hm.
    cbn [mbind option_bind]. case_bool_decide; [done|].
    apply bind_Some in H as (def' & -> & H). cbn [mbind option_bind]. eauto.
  - destruct def; try done. apply bind_Some in H as (def' & -> & H). eauto.
  - destruct def; try done. apply bind_Some in H as (v & -> & H).
    apply bind_Some in H as (o' & _ & H). cbn [mbind option_bind] in *.
    case_bool_decide; [done|]. apply bind_Some in H as (def' & -> & H). cbn. eauto.
  - done.
Qed.

(** The legs of a path: a traversal up to and over a pointer, then the rest from
    the pointee. *)
Lemma selector_go_deref sem pre : ∀ current def seen offset c nm target d o post,
  ty_get t target = Some d →
  selector_go t sem pre current def seen offset = Some (c, o) →
  ty_get t current = Some def → ty_get t c = Some (TPointer nm target) →
  selector_go t sem (pre ++ Deref :: post) current def seen offset =
  selector_go t sem post target d [target] 0.
Proof.
  induction pre as [|[at_| |vn|] pre IH]; intros current def seen offset c nm target d o post
    Hd H Hc Hp; cbn [selector_go app] in *.
  - simplify_eq. by rewrite Hd.
  - destruct (sem && _); [done|].
    apply bind_Some in H as (ms & -> & H). apply bind_Some in H as (m & Hm & H).
    apply bind_Some in H as (o' & Ho & H). cbn [mbind option_bind]. rewrite Hm.
    cbn [mbind option_bind]. rewrite Ho. cbn [mbind option_bind]. case_bool_decide; [done|].
    apply bind_Some in H as (def' & E & H). rewrite E. cbn [mbind option_bind]. eauto.
  - destruct def; try done. apply bind_Some in H as (def' & E & H). rewrite E. cbn. eauto.
  - destruct def; try done. apply bind_Some in H as (v & Hv & H).
    apply bind_Some in H as (o' & Ho & H). rewrite Hv. cbn [mbind option_bind]. rewrite Ho.
    cbn [mbind option_bind]. case_bool_decide; [done|].
    apply bind_Some in H as (def' & E & H). rewrite E. cbn. eauto.
  - done.
Qed.

(** Where a datum lies in the allocation of [anchor]: at its start, or within
    its bytes. *)
Definition placed (anchor id : BundleTypeId) (offset : Z) : Prop :=
  (id = anchor ∧ offset = 0) ∨
  ∃ whole size, size_of t anchor = Some whole ∧ size_of t id = Some size ∧
    (0 <= offset) ∧ (offset + size <= whole).

Lemma inline_placed anchor current m offset offset' :
  is_u64 (m_offset m) → placed anchor current offset →
  inline t current m offset = Some offset' →
  placed anchor (m_ty m) offset' ∧ checked_add offset (m_offset m) = Some offset'.
Proof.
  intros Hm Hp H. unfold inline in H.
  apply bind_Some in H as (size & Hs & H). apply bind_Some in H as (psize & Hps & H).
  apply bind_Some in H as (end_ & He & H). destruct (end_ >? psize) eqn:Ee; [done|].
  rewrite Z.gtb_ltb in Ee. zb. apply bind_Some in H as (o & Ho & H).
  apply bind_Some in H as (? & _ & [= <-]). split; [|done].
  unfold checked_add in *. destruct (m_offset m + size <? W64); simplify_eq.
  destruct (offset + m_offset m <? W64); simplify_eq. unfold is_u64 in Hm.
  right. destruct Hp as [[-> ->]|(whole & sz & Hw & Hsz & ? & ?)].
  - exists psize, size. repeat (split; [done || lia|]). lia.
  - simplify_eq. exists whole, size. repeat (split; [done || lia|]). lia.
Qed.

(** A path that crosses no pointer stays in its allocation, at the offset
    [selector_offset] computes. *)
Lemma semantic_leg sel : ∀ anchor current def seen offset target o,
  Deref ∉ sel → ty_get t current = Some def → placed anchor current offset →
  selector_go t true sel current def seen offset = Some (target, o) →
  placed anchor target o ∧ selector_offset_go t sel def offset = Some o.
Proof.
  induction sel as [|step sel IH]; intros anchor current def seen offset target o Hn Hc Hp H;
    cbn [selector_go selector_offset_go] in *; [by simplify_eq|].
  apply not_elem_of_cons in Hn as [Hn1 Hn]. destruct step as [at_| |nm|]; [| done | |done].
  - destruct (true && _); [done|].
    apply bind_Some in H as (ms & Hms & H). apply bind_Some in H as (m & Hm & H).
    apply bind_Some in H as (o' & Ho & H). case_bool_decide; [done|].
    apply bind_Some in H as (def' & Hd & H). rewrite Hms. cbn [mbind option_bind].
    rewrite Hm. cbn [mbind option_bind].
    destruct (inline_placed anchor _ _ _ _ (member_u64_in _ _ _ _ _ Hc Hms Hm) Hp Ho) as [Hp' ->].
    cbn [mbind option_bind]. rewrite Hd. cbn [mbind option_bind]. eauto.
  - destruct def; try done. apply bind_Some in H as (v & Hv & H).
    apply bind_Some in H as (o' & Ho & H). case_bool_decide; [done|].
    apply bind_Some in H as (def' & Hd & H). rewrite Hv. cbn [mbind option_bind].
    destruct (inline_placed anchor _ _ _ _ (variant_u64_in _ _ _ _ _ _ Hc Hv) Hp Ho) as [Hp' ->].
    cbn [mbind option_bind]. rewrite Hd. cbn [mbind option_bind]. eauto.
Qed.

(** The last leg of a semantic path. *)
Lemma semantic_last_leg sel : ∀ current def seen offset target o,
  ty_get t current = Some def →
  selector_go t true sel current def seen offset = Some (target, o) →
  Deref ∉ sel ∨
  ∃ pre leg c co nm anchor d, (sel = pre ++ Deref :: leg) ∧ (Deref ∉ leg) ∧
    selector_go t true pre current def seen offset = Some (c, co) ∧
    ty_get t c = Some (TPointer nm anchor) ∧ ty_get t anchor = Some d ∧
    selector_go t true leg anchor d [anchor] 0 = Some (target, o).
Proof.
  induction sel as [|step sel IH]; intros current def seen offset target o Hc H.
  { left. apply not_elem_of_nil. }
  destruct step as [at_| |nm|]; cbn [selector_go] in H; [| | |done].
  - destruct (true && _) eqn:Eg; [done|].
    apply bind_Some in H as (ms & Hms & H). apply bind_Some in H as (m & Hm & H).
    apply bind_Some in H as (o' & Ho & H). case_bool_decide as Hs; [done|].
    apply bind_Some in H as (def' & Hd & H).
    destruct (IH _ _ _ _ _ _ Hd H) as [?|(pre & leg & c & co & nm & a & d & -> & ? & Hpre & ?)].
    { left. by apply not_elem_of_cons. }
    right. exists (Member at_ :: pre), leg, c, co, nm, a, d. split; [done|].
    split; [done|]. split; [|done]. cbn [selector_go]. rewrite Eg, Hms. cbn [mbind option_bind].
    rewrite Hm. cbn [mbind option_bind]. rewrite Ho. cbn [mbind option_bind].
    rewrite bool_decide_eq_false_2 by done. by rewrite Hd.
  - destruct def; try done. apply bind_Some in H as (def' & Hd & H).
    destruct (IH _ _ _ _ _ _ Hd H) as [?|(pre & leg & c & co & nm' & a & d & -> & ? & Hpre & ?)].
    + right. exists [], sel, current, offset. by do 3 eexists.
    + right. exists (Deref :: pre), leg, c, co, nm', a, d. split; [done|].
      split; [done|]. split; [|done]. cbn [selector_go]. by rewrite Hd.
  - destruct def; try done. apply bind_Some in H as (v & Hv & H).
    apply bind_Some in H as (o' & Ho & H). case_bool_decide as Hs; [done|].
    apply bind_Some in H as (def' & Hd & H).
    destruct (IH _ _ _ _ _ _ Hd H) as [?|(pre & leg & c & co & nm' & a & d & -> & ? & Hpre & ?)].
    { left. by apply not_elem_of_cons. }
    right. exists (Variant nm :: pre), leg, c, co, nm', a, d. split; [done|].
    split; [done|]. split; [|done]. cbn [selector_go]. rewrite Hv. cbn [mbind option_bind].
    rewrite Ho. cbn [mbind option_bind]. rewrite bool_decide_eq_false_2 by done. by rewrite Hd.
Qed.
End selectors.

(** C28: the checks of a bundle's strings, types and display programs, and those
    followed by the checks of its walk bindings, are total on untrusted input.
    Whatever a bundle read from a file holds (type ids out of range, types that
    contain themselves, selectors that lead nowhere, overlapping bit fields),
    they return a verdict: no [expect], [unreachable!] or index of theirs ever
    fires.  The other checks of [Bundle::validate], of the side tables and the
    semantics, are not part of the statement. *)
Theorem validation_never_panics (b : Bundle) :
  validate_types b ≠ Panic ∧ (_ ←? validate_types b; check_walks b) ≠ Panic.
Proof.
  assert (Hwf : ∃ wf, is_well_formed (b_strings b) = Ret wf)
    by (destruct (well_formed_alt (b_strings b)) as (wf & ? & _); eauto).
  assert (Hclosed : try_all (check_type_def b) (types (b_types b)) = pass () →
    refs_closed (b_types b)) by apply check_types_refs.
  assert (Hdefs : ∀ def, safe (check_type_def b def)).
  { assert (Hm : ∀ m, safe (check_member b m))
      by (intros m; unfold check_member, check_ty; safe_go; auto with safe_db).
    assert (Hms : ∀ ms, safe (try_all (check_member b) ms)) by (intros; by apply safe_try_all).
    assert (Hloc : ∀ l, safe (check_loc b l)) by (intros []; cbn; auto with safe_db).
    intros []; cbn [check_type_def]; unfold check_ty; safe_go; auto with safe_db.
    - safe_step; [destruct nm|]; auto with safe_db.
    - safe_step; [destruct (discr shape)|intros ? _; apply safe_try_all; intros v _];
        auto with safe_db. unfold check_variant_def. safe_go. auto.
    - apply safe_try_all. auto with safe_db. }
  destruct Hwf as [wf Hwf].
  assert (Hval : safe (validate_types b)).
  { unfold validate_types. rewrite Hwf, outcome_bind_eq. safe_step; [auto with safe_db|intros ? _].
    safe_step; [by apply safe_try_all|intros [] Ht%Hclosed]. apply safe_try_all. intros f _.
    safe_step; [unfold check_ty; auto with safe_db|intros [] Hin%check_ty_pass].
    by apply check_node_safe. }
  split; [done|]. change (safe (_ ←? validate_types b; check_walks b)).
  safe_step; [done|intros [] Hv].
  unfold validate_types in Hv. rewrite Hwf, outcome_bind_eq in Hv.
  apply try_bind_pass in Hv as ([] & _ & Hv). apply try_bind_pass in Hv as ([] & Ht%Hclosed & _).
  apply safe_try_all. intros [r w] _. unfold check_walk. cbn [snd].
  destruct (wb_outcome w); auto with safe_db. safe_go.
  apply safe_try_all. intros root _. safe_step; [auto with safe_db|intros [] Hr%fail_if_pass].
  apply bool_decide_eq_false in Hr. safe_step; [|auto with safe_db].
  apply walk_targets_safe; [done|]. apply ty_get_Some. by destruct (ty_get _ root); [eauto|].
Qed.

(** [TypeTable::size_of] is exact.  It gives a type the size [n] exactly
    when the type's definition, through its arrays' elements, amounts to [n]
    bytes that fit a 64-bit address space, and none otherwise, terminating on
    arrays that contain themselves; a size it gives is the one the view's
    unguarded [BundleType::size] computes without wrapping; and the stack that
    recursion is given is enough whenever any stack is. *)
Theorem type_size_exact (b : Bundle) :
  table_u64 (b_types b) →
  ∀ id,
    (∀ n, size_of (b_types b) id = Some n ↔ sized (b_types b) id n) ∧
    (∀ n, size_of (b_types b) id = Some n → ty_size b id = Ret n ∧ is_u64 n) ∧
    ∀ fuel n, ty_size_go fuel b id = Ret n → ty_size b id = Ret n.
Proof.
  intros Hu id. split; [intros n; apply size_of_sized|]. split.
  - intros n Hn%size_of_sized. split; [by apply sized_ty_size|by eapply sized_u64].
  - intros fuel n. apply ty_size_enough.
Qed.

(** A semantic path never leaves the allocations it reads.  Its last leg,
    from the value or from the last pointer it follows, crosses inline members
    only; it lands at the offset [selector_offset] computes, and the landed
    type's bytes lie within the bytes of the type the leg started in.  Dropping
    the storage rules, the same path resolves to the same type. *)
Theorem semantic_path_in_bounds (t : TypeTable) (root : BundleTypeId) (sel : Selector)
    (target : BundleTypeId) :
  table_u64 t → semantic_path_target t root sel = Some target →
  selector_target t root sel = Some target ∧
  ∃ pre leg anchor whole size offset,
    (sel = pre ++ leg) ∧ (Deref ∉ leg) ∧ (pre = [] ∨ last pre = Some Deref) ∧
    selector_target t root pre = Some anchor ∧
    selector_offset t anchor leg = Some offset ∧
    size_of t anchor = Some whole ∧ size_of t target = Some size ∧
    (0 <= offset) ∧ (offset + size <= whole).
Proof.
  intros Hu H. unfold semantic_path_target, selector_target, selector_target_with_policy in *.
  apply bind_Some in H as (def & Hd & H). apply bind_Some in H as ([c o] & Hg & H).
  cbn [andb] in H. case_bool_decide as Hs; [done|]. simplify_eq.
  destruct (selector_go_weaken t _ _ _ _ _ 0 _ _ Hg) as [o' Hw].
  rewrite Hd. cbn [mbind option_bind]. rewrite Hw. cbn [mbind option_bind andb]. split; [done|].
  assert (Hleg : ∀ anchor leg d, ty_get t anchor = Some d → Deref ∉ leg →
    selector_go t true leg anchor d [anchor] 0 = Some (target, o) →
    ∃ whole size offset, selector_offset t anchor leg = Some offset ∧
      size_of t anchor = Some whole ∧ size_of t target = Some size ∧
      (0 <= offset) ∧ (offset + size <= whole)).
  { intros anchor leg d Ha Hn Hl.
    destruct (semantic_leg t Hu leg anchor anchor d [anchor] 0 target o Hn Ha) as [Hp Ho];
      [by left|done|]. unfold selector_offset. rewrite Ha. cbn [mbind option_bind].
    destruct Hp as [[-> ->]|(whole & size & ? & ? & ? & ?)].
    - destruct (size_of t anchor) as [n|]; [|done]. exists n, n, 0. repeat (split; [done|]). lia.
    - exists whole, size, o. done. }
  destruct (semantic_last_leg t sel _ _ _ _ _ _ Hd Hg)
    as [Hn|(pre & leg & p & po & nm & anchor & d & -> & Hn & Hpre & Hp & Ha & Hl)].
  - destruct (Hleg _ _ _ Hd Hn Hg) as (whole & size & offset & ?).
    exists [], sel, root, whole, size, offset. split; [done|]. split; [done|].
    split; [by left|]. done.
  - destruct (Hleg _ _ _ Ha Hn Hl) as (whole & size & offset & ?).
    exists (pre ++ [Deref]), leg, anchor, whole, size, offset.
    split; [by rewrite <- app_assoc|]. split; [done|].
    split; [right; by rewrite last_snoc|]. split; [|done].
    destruct (selector_go_weaken t _ _ _ _ _ 0 _ _ Hpre) as [po' Hpw].
    rewrite (selector_go_deref t _ _ _ _ _ _ _ _ _ _ _ [] Ha Hpw Hd Hp). done.
Qed.

(** ** Witnesses *)

Lemma type_size_exact_witness :
  table_u64 (b_types demo_bundle) ∧ ty_size demo_bundle 5%nat = Ret 24.
Proof.
  split; [exact demo_table_u64|].
  apply (type_size_exact demo_bundle demo_table_u64 5%nat). reflexivity.
Defined.

Lemma semantic_path_in_bounds_witness :
  semantic_path_target (b_types demo_bundle) 3%nat demo_path = Some 0%nat ∧
  ∃ pre leg anchor whole size offset,
    (demo_path = pre ++ leg) ∧ selector_offset (b_types demo_bundle) anchor leg = Some offset ∧
    size_of (b_types demo_bundle) anchor = Some whole ∧ (offset + size <= whole).
Proof.
  split; [reflexivity|].
  destruct (semantic_path_in_bounds (b_types demo_bundle) 3%nat demo_path 0%nat demo_table_u64
              eq_refl) as (_ & pre & leg & anchor & whole & size & offset & ? & _ & _ & _ & ?
                           & ? & _ & _ & ?).
  exists pre, leg, anchor, whole, size, offset. done.
Defined.

(** A bundle that passes validation and whose view never finds the size: an
    array that is its own element. *)
Definition self_array : Bundle :=
  mkBundle demo_strings (mkTypeTable [TArray 0%nat 1] []) [].

Example self_array_overflows :
  validate_types self_array = pass () ∧ size_of (b_types self_array) 0%nat = None ∧
  ∀ fuel, ty_size_go fuel self_array 0%nat = Panic.
Proof.
  split; [reflexivity|]. split; [reflexivity|].
  induction fuel as [|fuel IH]; [done|].
  change (ty_size_go (S fuel) self_array 0%nat)
    with (size ← ty_size_go fuel self_array 0%nat; Ret (u64_mul size 1)).
  by rewrite IH.
Qed.
