(* ===== verification/ScalarFacts.v ===== *)
(** Facts about scalar decodes: which bits of a word a field shows, and what the
    check of a decode table settles. *)

From S2P Require Import Prelude Text StringTable Schema BundleCheck TypeView DisplayResolve DisplayEval BundleCheckFacts.

Local Open Scope Z_scope.

(** ** Bits *)

Lemma testbit_mod64 z k : 0 <= k → Z.testbit (z `mod` W64) k = (k <? 64) && Z.testbit z k.
Proof.
  intros Hk. change W64 with (2 ^ 64). destruct (k <? 64) eqn:E; zb.
  - by rewrite Z.mod_pow2_bits_low by lia.
  - by rewrite Z.mod_pow2_bits_high by lia.
Qed.

Lemma testbit_above word k : 0 <= word < W64 → 64 <= k → Z.testbit word k = false.
Proof.
  intros Hw Hk. rewrite <- (Z.mod_small word W64) by done. rewrite testbit_mod64 by lia.
  by rewrite (proj2 (Z.ltb_ge k 64)).
Qed.

Lemma width_mask_ones w : 0 <= w → width_mask w = Z.ones (Z.min w 64).
Proof.
  intros Hw. unfold width_mask. case_match; zb.
  - by rewrite Z.min_r by lia.
  - rewrite Z.min_l by lia. by rewrite Z.ones_equiv, Z.shiftl_1_l, Z.sub_1_r.
Qed.

Lemma testbit_ones n k : 0 <= n → 0 <= k → Z.testbit (Z.ones n) k = (k <? n).
Proof. intros Hn Hk. rewrite Z.testbit_ones by done. by rewrite (proj2 (Z.leb_le 0 k)). Qed.

(** The mask of [n] bits from bit [s] on, in a 64-bit word. *)
Lemma testbit_mask n s k :
  0 <= n → 0 <= s → 0 <= k →
  Z.testbit (Z.shiftl (Z.ones n) s `mod` W64) k = (k <? 64) && (s <=? k) && (k <? s + n).
Proof.
  intros Hn Hs Hk. rewrite testbit_mod64, Z.shiftl_spec by done.
  destruct (k <? 64) eqn:E; [|done]. cbn [andb]. destruct (s <=? k) eqn:Es; zb; cbn [andb].
  - rewrite testbit_ones by lia. apply Bool.eq_iff_eq_true. rewrite !Z.ltb_lt. lia.
  - apply Z.testbit_neg_r. lia.
Qed.

Lemma testbit_u64_not x k :
  0 <= x < W64 → 0 <= k → Z.testbit (u64_not x) k = (k <? 64) && negb (Z.testbit x k).
Proof.
  intros Hx Hk. unfold u64_not. change W64 with (2 ^ 64) in *.
  replace (2 ^ 64 - 1 - x) with (Z.lnot x `mod` 2 ^ 64).
  - destruct (k <? 64) eqn:E; zb; cbn [andb].
    + rewrite Z.mod_pow2_bits_low by lia. by rewrite Z.lnot_spec.
    + by rewrite Z.mod_pow2_bits_high by lia.
  - unfold Z.lnot. symmetry. apply (Z.mod_unique_pos _ _ (-1)); lia.
Qed.

(** ** Fields *)

(** How many bits of a word a field shows. *)
Definition field_width (f : RBitField) : Z :=
  match rf_width f with Some w => Z.min w 64 | None => 64 - rf_shift f end.

(** The fields' machine types, and a shift within the word. *)
Definition field_ok (f : RBitField) : Prop :=
  0 <= rf_shift f < 64 ∧ match rf_width f with Some w => 0 <= w | None => True end.

Section field.
Context (f : RBitField) (Hf : field_ok f).

Lemma field_width_nonneg : 0 <= field_width f.
Proof. destruct Hf as [Hs Hw]. unfold field_width. destruct (rf_width f); lia. Qed.

Lemma value_mask_ones : value_mask f = Z.ones (field_width f).
Proof.
  destruct Hf as [Hs Hw]. unfold value_mask, field_width. destruct (rf_width f) as [w|].
  - by apply width_mask_ones.
  - rewrite Z.mod_small by lia. change (W64 - 1) with (Z.ones 64).
    apply Z.bits_inj'. intros k Hk. rewrite Z.shiftr_spec, !testbit_ones by lia.
    apply Bool.eq_iff_eq_true. rewrite !Z.ltb_lt. lia.
Qed.

Lemma testbit_field_bits k :
  0 <= k → Z.testbit (field_bits f) k =
    (k <? 64) && (rf_shift f <=? k) && (k <? rf_shift f + field_width f).
Proof.
  intros Hk. pose proof field_width_nonneg. destruct Hf as [Hs _]. unfold field_bits.
  rewrite value_mask_ones, (Z.mod_small (rf_shift f)) by lia. apply testbit_mask; lia.
Qed.

(** The field's value, put back where it was. *)
Lemma testbit_field_value word k :
  0 <= k → 0 <= word < W64 →
  Z.testbit (Z.shiftl (field_value f word) (rf_shift f)) k =
    Z.testbit (field_bits f) k && Z.testbit word k.
Proof.
  intros Hk Hw. rewrite testbit_field_bits, Z.shiftl_spec by done.
  pose proof field_width_nonneg. destruct Hf as [Hs _].
  destruct (rf_shift f <=? k) eqn:E; zb; rewrite ?andb_false_r; cbn [andb].
  - unfold field_value. rewrite Z.land_spec, value_mask_ones, testbit_ones, Z.shiftr_spec by lia.
    rewrite (Z.mod_small (rf_shift f)) by lia. replace (k - rf_shift f + rf_shift f) with k by lia.
    destruct (k <? 64) eqn:Ek; zb; cbn [andb].
    + rewrite andb_comm. f_equal. apply Bool.eq_iff_eq_true. rewrite !Z.ltb_lt. lia.
    + by rewrite testbit_above.
  - rewrite Z.testbit_neg_r by lia. done.
Qed.

Lemma field_bits_u64 : 0 <= field_bits f < W64.
Proof. unfold field_bits. by apply Z.mod_pos_bound. Qed.
End field.

(** ** Words *)

(** A word from the values its fields show. *)
Definition fields_word (fields : list RBitField) (word : Z) : Z :=
  foldr (λ f w, Z.lor (Z.shiftl (field_value f word) (rf_shift f)) w) 0 fields.

Lemma lor_u64 a c : 0 <= a < W64 → 0 <= c < W64 → 0 <= Z.lor a c < W64.
Proof.
  intros Ha Hc. split; [apply Z.lor_nonneg; lia|]. change W64 with (2 ^ 64) in *.
  destruct (decide (Z.lor a c = 0)) as [->|Hn]; [done|].
  assert (0 <= Z.lor a c) by (apply Z.lor_nonneg; lia).
  apply Z.log2_lt_pow2; [lia|]. rewrite Z.log2_lor by lia.
  apply Z.max_lub_lt.
  - destruct (decide (a = 0)) as [->|]; [done|]. apply Z.log2_lt_pow2; lia.
  - destruct (decide (c = 0)) as [->|]; [done|]. apply Z.log2_lt_pow2; lia.
Qed.

Lemma covered_bits_from fields c k :
  Forall field_ok fields → 0 <= c < W64 → 0 <= k →
  0 <= foldl (λ c f, Z.lor c (field_bits f)) c fields < W64 ∧
  Z.testbit (foldl (λ c f, Z.lor c (field_bits f)) c fields) k =
    Z.testbit c k || existsb (λ f, Z.testbit (field_bits f) k) fields.
Proof.
  intros Hf Hc Hk. revert c Hc. induction Hf as [|f fields Hff Hf IH]; intros c Hc.
  - by rewrite orb_false_r.
  - cbn [foldl existsb]. destruct (IH (Z.lor c (field_bits f))) as [Hb ->].
    { apply lor_u64; [done|by apply field_bits_u64]. }
    split; [done|]. rewrite Z.lor_spec. by rewrite orb_assoc.
Qed.

Lemma testbit_covered fields k :
  Forall field_ok fields → 0 <= k →
  Z.testbit (covered_bits fields) k = existsb (λ f, Z.testbit (field_bits f) k) fields.
Proof.
  intros Hf Hk. unfold covered_bits.
  destruct (covered_bits_from fields 0 k Hf) as [_ ->]; [lia|done|]. by rewrite Z.bits_0.
Qed.

Lemma covered_u64 fields : Forall field_ok fields → 0 <= covered_bits fields < W64.
Proof. intros Hf. by destruct (covered_bits_from fields 0 0 Hf) as [? _]; [lia..|]. Qed.

Lemma testbit_fields_word fields word k :
  Forall field_ok fields → 0 <= word < W64 → 0 <= k →
  Z.testbit (fields_word fields word) k =
    existsb (λ f, Z.testbit (field_bits f) k) fields && Z.testbit word k.
Proof.
  intros Hf Hw Hk. induction Hf as [|f fields Hff Hf IH]; cbn [fields_word foldr existsb].
  { by rewrite Z.bits_0. }
  fold (fields_word fields word). rewrite Z.lor_spec, IH, testbit_field_value by done.
  by rewrite andb_orb_distrib_l.
Qed.

(** Nothing of a word is dropped: the fields' values and the leftover bits are
    the word. *)
Lemma word_rebuilt fields word :
  Forall field_ok fields → 0 <= word < W64 →
  word = Z.lor (fields_word fields word) (leftover_bits fields word).
Proof.
  intros Hf Hw. apply Z.bits_inj'. intros k Hk.
  rewrite Z.lor_spec, testbit_fields_word by done. unfold leftover_bits.
  rewrite Z.land_spec, testbit_u64_not by (try apply covered_u64; done).
  rewrite testbit_covered by done. destruct (existsb _ _); cbn [negb andb orb].
  - by rewrite !andb_false_r, orb_false_r.
  - rewrite andb_true_r. destruct (k <? 64) eqn:E; zb; [by rewrite andb_true_r|].
    rewrite andb_false_r. by apply testbit_above.
Qed.

(** ** The check *)

(** The fields of a decode are [u8]s. *)
Definition bit_field_u8 (f : BitField) : Prop :=
  0 <= bf_shift f < 256 ∧ match bf_width f with Some w => 0 < w < 256 | None => True end.

Section check.
Context (b : Bundle) (word_bits : Z) (Hwb : 0 < word_bits <= 64).

Definition checked_width (f : BitField) : Z := default (word_bits - bf_shift f) (bf_width f).

(** The bits the check counts a field to cover. *)
Definition checked_mask (f : BitField) : Z :=
  Z.shiftl (width_mask (checked_width f)) (bf_shift f) `mod` W64.

Definition field_fits (f : BitField) : Prop :=
  bf_shift f < word_bits ∧ bf_shift f + checked_width f <= word_bits ∧
  match bf_render f with
  | REnum table => ∀ e, e ∈ table → Z.land e.1 (u64_not (width_mask (checked_width f))) = 0
  | RUint => True
  end.

Lemma check_field_bits_pass c f c' :
  check_field_bits b word_bits c f = pass c' →
  field_fits f ∧ Z.land c (checked_mask f) = 0 ∧ c' = Z.lor c (checked_mask f).
Proof.
  unfold check_field_bits. fold (checked_width f). fold (checked_mask f). intros H. passed.
  repeat match goal with H : (_ >=? _) = false |- _ => rewrite Z.geb_leb in H
                       | H : (_ >? _) = false |- _ => rewrite Z.gtb_ltb in H end.
  zb. split; [|done]. split; [done|]. split; [lia|].
  destruct (bf_render f) as [table|]; [|done]. intros e He.
  match goal with H : try_all _ table = _ |- _ => rewrite try_all_pass in H; specialize (H e He) end.
  passed. by zb.
Qed.

Definition disjoint (x y : Z) : Prop := Z.land x y = 0.

Lemma check_fields_bits_pass fields : ∀ c,
  check_fields_bits b word_bits c fields = pass () →
  Forall field_fits fields ∧ Forall (λ f, disjoint c (checked_mask f)) fields ∧
  StronglySorted (λ f g, disjoint (checked_mask f) (checked_mask g)) fields.
Proof.
  induction fields as [|f fields IH]; intros c H; [repeat constructor|].
  cbn [check_fields_bits] in H. passed.
  match goal with H : check_field_bits _ _ _ _ = _ |- _ =>
    apply check_field_bits_pass in H as (Hf & Hc & ->) end.
  match goal with H : check_fields_bits _ _ _ _ = _ |- _ =>
    apply IH in H as (Hfs & Hcs & Hss) end.
  rewrite Forall_forall in Hcs.
  assert (∀ g, g ∈ fields → disjoint c (checked_mask g) ∧
    disjoint (checked_mask f) (checked_mask g)) as Hboth.
  { intros g Hg. specialize (Hcs g Hg). unfold disjoint in *. rewrite Z.land_lor_distr_l in Hcs.
    by apply Z.lor_eq_0_iff in Hcs. }
  split; [by constructor|]. split; constructor; try done.
  - apply Forall_forall. intros g Hg. by apply Hboth.
  - apply Forall_forall. intros g Hg. by apply Hboth.
Qed.

Lemma testbit_checked_mask f k :
  bit_field_u8 f → field_fits f → 0 <= k →
  Z.testbit (checked_mask f) k = (bf_shift f <=? k) && (k <? bf_shift f + checked_width f).
Proof.
  intros [Hs Hw] (Hlt & Hle & _) Hk. unfold checked_mask.
  assert (0 <= checked_width f <= 64) as Hcw.
  { unfold checked_width in *. destruct (bf_width f); cbn [from_option id] in *; lia. }
  rewrite width_mask_ones by lia. rewrite Z.min_l by lia. rewrite testbit_mask by lia.
  destruct (k <? 64) eqn:E; [done|]. zb. cbn [andb].
  destruct (bf_shift f <=? k) eqn:E1; [|done]. cbn [andb]. symmetry. zb. lia.
Qed.

(** A resolved field and the field it came from. *)
Definition resolves_to (f : BitField) (r : RBitField) : Prop :=
  rf_shift r = bf_shift f ∧ rf_width r = bf_width f ∧
  match bf_render f, rf_render r with
  | REnum table, Some table' => table.*1 = table'.*1
  | RUint, None => True
  | _, _ => False
  end.

Lemma resolve_field_bits_spec f r : resolve_field_bits b f = Ret r → resolves_to f r.
Proof.
  unfold resolve_field_bits. intros H.
  apply outcome_bind_Ret in H as (nm & _ & H). apply outcome_bind_Ret in H as (render & Hr & H).
  injection H as <-. unfold resolves_to. cbn. split; [done|]. split; [done|].
  destruct (bf_render f) as [table|]; [|by injection Hr as <-].
  apply outcome_bind_Ret in Hr as (t & Ht & [= <-]). apply mapM_out_Ret in Ht.
  clear -Ht. induction Ht as [|e e' l l' He Hl IH]; [done|]. cbn. rewrite IH. f_equal.
  unfold resolve_label in He. apply outcome_bind_Ret in He as (? & _ & [= <-]). done.
Qed.

Lemma resolves_ok f r : bit_field_u8 f → field_fits f → resolves_to f r → field_ok r.
Proof.
  intros [Hs Hw] (Hlt & _ & _) (Hrs & Hrw & _). unfold field_ok. rewrite Hrs, Hrw.
  split; [lia|]. destruct (bf_width f); [lia|done].
Qed.

(** Two fields the check found disjoint show no bit twice. *)
Lemma resolved_disjoint f g r s :
  bit_field_u8 f → bit_field_u8 g → field_fits f → field_fits g →
  resolves_to f r → resolves_to g s → disjoint (checked_mask f) (checked_mask g) →
  disjoint (field_bits r) (field_bits s).
Proof.
  intros Hf Hg Hff Hgf Hr Hs Hd. pose proof (resolves_ok _ _ Hf Hff Hr) as Hro.
  pose proof (resolves_ok _ _ Hg Hgf Hs) as Hso.
  assert (Hno : ∀ k, 0 <= k →
    ¬ (bf_shift f <= k < bf_shift f + checked_width f ∧
       bf_shift g <= k < bf_shift g + checked_width g)).
  { intros k Hk [H1 H2].
    assert (Z.testbit (Z.land (checked_mask f) (checked_mask g)) k = true) as Ht.
    { rewrite Z.land_spec, !testbit_checked_mask by done. zb; lia. }
    unfold disjoint in Hd. by rewrite Hd, Z.bits_0 in Ht. }
  unfold disjoint. apply Z.bits_inj'. intros k Hk. rewrite Z.bits_0, Z.land_spec.
  rewrite !testbit_field_bits by done. apply not_true_is_false. intros Ht. zb.
  destruct Hr as (Hrs & Hrw & _), Hs as (Hss & Hsw & _). destruct Hf as [Hf1 Hf2], Hg as [Hg1 Hg2].
  destruct Hff as (Hff1 & Hff2 & _), Hgf as (Hgf1 & Hgf2 & _).
  unfold field_width, checked_width in *. rewrite Hrs, Hss, Hrw, Hsw in *.
  specialize (Hno (Z.min k (word_bits - 1)) ltac:(lia)).
  destruct (bf_width f), (bf_width g); cbn [from_option id] in *; lia.
Qed.

(** A table's value is one the field can show. *)
Lemma table_value_shown f r table e :
  bit_field_u8 f → field_fits f → resolves_to f r → rf_render r = Some table →
  e ∈ table → 0 <= e.1 < W64 → field_value r (Z.shiftl e.1 (rf_shift r)) = e.1 ∨ rf_width r = None.
Proof.
  intros Hf Hff Hr Ht He Hu. destruct (rf_width r) as [w|] eqn:Ew; [left|by right].
  pose proof (resolves_ok _ _ Hf Hff Hr) as Hro. pose proof (value_mask_ones r Hro) as Hvm.
  destruct Hr as (Hrs & Hrw & Hre), Hff as (Hff1 & Hff2 & Hff3).
  rewrite Ht in Hre. destruct (bf_render f) as [table'|]; [|done].
  assert (∃ e', e' ∈ table' ∧ e'.1 = e.1) as (e' & He' & Heq).
  { apply (list_elem_of_fmap_2 fst) in He. rewrite <- Hre in He.
    apply list_elem_of_fmap in He as (e' & ? & ?). eauto. }
  specialize (Hff3 e' He'). rewrite Heq in Hff3. destruct Hro as [Hs _].
  unfold checked_width in *. rewrite <- Hrw, Ew in *. cbn [from_option id] in *.
  unfold field_value. rewrite (Z.mod_small (rf_shift r)) by lia.
  rewrite Z.shiftr_shiftl_l, Z.sub_diag, Z.shiftl_0_r by lia.
  apply Z.bits_inj'. intros k Hk. rewrite Z.land_spec.
  assert (Z.testbit (Z.land e.1 (u64_not (width_mask w))) k = false) as Hb
    by (by rewrite Hff3, Z.bits_0).
  rewrite Z.land_spec, testbit_u64_not in Hb.
  2:{ unfold width_mask. destruct Hf as [_ Hf]. rewrite <- Hrw in Hf.
      case_match; zb; [lia|]. rewrite Z.shiftl_1_l.
      pose proof (Z.pow_lt_mono_r 2 w 64). change (2 ^ 64) with W64 in *. lia. }
  2:{ done. }
  unfold value_mask. rewrite Ew. destruct (Z.testbit e.1 k) eqn:Ek; [|done]. cbn [andb] in *.
  destruct (k <? 64) eqn:E; cbn [andb] in Hb; [by apply negb_false_iff in Hb|].
  zb. by rewrite testbit_above in Ek.
Qed.
End check.
