(* ===== verification/EvalFacts.v ===== *)
(** Facts about the evaluation of display programs: the words a read yields, the
    markers it can degrade to, and what a checked program keeps true. *)

From S2P Require Import Prelude Text StringTable Target Schema BundleCheck TypeView DisplayResolve DisplayEval BundleCheckFacts TypeSizes ScalarFacts.

Local Open Scope Z_scope.

(** ** Resolution keeps checked programs well formed *)

(** The machine types of an expression: constants are [u64]s, variables and load
    sizes [u32]s. *)
Fixpoint expr_typed (e : ValueExpr) : Prop :=
  match e with
  | Read _ => True
  | Const v => is_u64 v
  | Var i => 0 <= i
  | Load a _ | Not a => expr_typed a
  | And a b | Ne a b | Add a b | Sub a b | Mul a b | Lt a b | Shl a b =>
      expr_typed a ∧ expr_typed b
  end.

Definition stmt_exprs (s : Stmt) : list ValueExpr :=
  match s with Set_ _ e | If_ e _ _ | Emit e | Break e => [e] end.

Fixpoint stmt_typed (s : Stmt) : Prop :=
  Forall expr_typed (stmt_exprs s) ∧
  match s with
  | Set_ var _ => 0 <= var
  | If_ _ th el =>
      let all := fix go l := match l with [] => True | s :: l => stmt_typed s ∧ go l end in
      all th ∧ all el
  | _ => True
  end.

(** A resolved expression over [n] variables. *)
Fixpoint rexpr_wf (n : nat) (e : RExpr) : Prop :=
  match e with
  | RRead _ => True
  | RConst v => is_u64 v
  | RVar i => (Z.to_nat i < n)%nat
  | RLoad a size => size ∈ [1; 2; 4; 8] ∧ rexpr_wf n a
  | RNot a => rexpr_wf n a
  | RAnd a b | RNe a b | RAdd a b | RSub a b | RMul a b | RLt a b | RShl a b =>
      rexpr_wf n a ∧ rexpr_wf n b
  end.

Fixpoint rstmt_wf (n : nat) (s : RStmt) : Prop :=
  let all := fix go l := match l with [] => True | s :: l => rstmt_wf n s ∧ go l end in
  match s with
  | RSet var e => (Z.to_nat var < n)%nat ∧ rexpr_wf n e
  | RIf c th el => rexpr_wf n c ∧ all th ∧ all el
  | REmit e | RBreak e => rexpr_wf n e
  end.

(** How many elements one run of a statement can emit. *)
Fixpoint emits (s : RStmt) : nat :=
  let sum := fix go l := match l with [] => O | s :: l => (emits s + go l)%nat end in
  match s with
  | REmit _ => 1
  | RIf _ th el => sum th + sum el
  | RSet _ _ | RBreak _ => 0
  end.
Definition emits_all (l : list RStmt) : nat := sum_list_with emits l.

Definition rsubstmts (s : RStmt) : list RStmt :=
  match s with RIf _ th el => th ++ el | _ => [] end.

Section rstmt_ind.
Context (P : RStmt → Prop) (H : ∀ s, Forall P (rsubstmts s) → P s).

Fixpoint rstmt_ind' (s : RStmt) : P s :=
  let go := fix go (l : list RStmt) : Forall P l :=
    match l with
    | [] => Forall_nil_2 _
    | s :: l => Forall_cons_2 _ s l (rstmt_ind' s) (go l)
    end in
  H s match s as s return Forall P (rsubstmts s) with
      | RIf _ th el => Forall_app_2 _ _ _ (go th) (go el)
      | _ => Forall_nil_2 _
      end.
End rstmt_ind.

Lemma try_map_pass {A B} (f : A → outcome (option B)) l bs :
  try_map f l = pass bs ↔ Forall2 (λ a c, f a = pass c) l bs.
Proof.
  revert bs. induction l as [|a l IH]; intros bs; cbn [try_map].
  - split; [intros [= <-]; constructor|by intros ->%Forall2_nil_inv_l].
  - rewrite try_bind_pass. setoid_rewrite try_bind_pass. fold (try_map f). split.
    + intros (c & Hc & cs & Hcs%IH & [= <-]). by constructor.
    + intros (c & cs & Hc & Hcs & ->)%Forall2_cons_inv_l. exists c. split; [done|].
      exists cs. split; [by apply IH|done].
Qed.

Lemma all_Forall {A} (P : A → Prop) l :
  (fix go (l : list A) : Prop := match l with [] => True | s :: l => P s ∧ go l end) l ↔ Forall P l.
Proof. induction l as [|a l IH]; [by split|]. by rewrite IH, Forall_cons. Qed.

Section resolve.
Context (b : Bundle) (scope : BundleTypeId) (n : nat).
Abbreviation num_vars := (Z.of_nat n).

Lemma resolved_expr_wf e r :
  check_value_expr (b_types b) scope e num_vars = pass () → expr_typed e →
  resolve_value_expr b scope e = pass r → rexpr_wf n r.
Proof.
  revert r. induction e; intros r Hc Ht Hr; cbn [check_value_expr expr_typed resolve_value_expr] in *;
    passed; subst; cbn [rexpr_wf]; try (split; naive_solver); auto.
  - lia.
  - split; [|auto]. match goal with H : negb _ = false |- _ => apply negb_false_iff in H end.
    by eapply bool_decide_eq_true.
Qed.

Lemma resolved_stmts_wf l rs :
  Forall (λ s, ∀ r, check_stmt (b_types b) scope num_vars s = pass () → stmt_typed s →
    resolve_stmt b scope s = pass r → rstmt_wf n r) l →
  try_all (check_stmt (b_types b) scope num_vars) l = pass () → Forall stmt_typed l →
  try_map (resolve_stmt b scope) l = pass rs → Forall (rstmt_wf n) rs.
Proof.
  rewrite try_all_pass, try_map_pass. intros Hl Hc Ht Hr. induction Hr as [|s r l rs Hr Hrs IH];
    constructor; apply Forall_cons in Hl as [Hs Hl], Ht as [Ht1 Ht].
  - apply Hs; [|done|done]. apply Hc. by left.
  - apply IH; [done| |done]. intros a Ha. apply Hc. by right.
Qed.

Lemma resolved_stmt_wf s : ∀ r,
  check_stmt (b_types b) scope num_vars s = pass () → stmt_typed s →
  resolve_stmt b scope s = pass r → rstmt_wf n r.
Proof.
  induction s as [s IH] using stmt_ind'. intros r Hc Ht Hr.
  destruct s; cbn [check_stmt stmt_typed stmt_exprs resolve_stmt rstmt_wf substmts] in *;
    passed; subst; cbn [rstmt_wf]; rewrite ?Forall_singleton, ?all_Forall in *;
    destruct_and?; try (by eapply resolved_expr_wf).
  - split; [lia|by eapply resolved_expr_wf].
  - apply Forall_app in IH as [IH1 IH2].
    split; [by eapply resolved_expr_wf|]. split; [by eapply (resolved_stmts_wf then_)|by eapply (resolved_stmts_wf otherwise)].
Qed.
End resolve.

(** ** Reads *)

Lemma byte_range_length bytes offset size bs :
  byte_range bytes offset size = Some bs → 0 <= offset → 0 <= size → Z.of_nat (length bs) = size.
Proof.
  unfold byte_range, bytes_get, checked_add. intros H Ho Hs.
  destruct (offset + size <? W64); [|done]. cbn [mbind option_bind] in H.
  unfold slice in H. destruct (_ && _ && _) eqn:E; [|done]. zb. injection H as <-.
  rewrite length_take, length_drop. lia.
Qed.

Lemma read_unsigned_at_u64 bytes offset size w :
  read_unsigned_at bytes offset size = Some w → 0 <= offset → is_u64 w.
Proof.
  unfold read_unsigned_at. intros H Ho. apply bind_Some in H as (bs & Hbs & H).
  case_bool_decide as Hs; [|done]. injection H as <-.
  assert (0 <= size <= 8) by (rewrite !elem_of_cons, elem_of_nil in Hs; lia).
  apply byte_range_length in Hbs; [|lia..]. pose proof (from_le_bytes_range bs) as Hr.
  unfold is_u64. split; [lia|]. eapply Z.lt_le_trans; [apply Hr|].
  change W64 with (256 ^ 8). apply Z.pow_le_mono_r; lia.
Qed.

(** The markers an evaluation can degrade to; an unbound variable is not one. *)
Definition degradations : list string :=
  ["<target unavailable>"%string; "<freed>"%string; UNREADABLE; TRUNCATED; INACTIVE;
   INVALID_ADDRESS; NULL].

Lemma invalid_var_no_degradation : INVALID_VAR ∉ degradations.
Proof. apply (bool_decide_unpack _). by vm_compute. Qed.

(** A read that yields a value of [P] or one of the markers. *)
Definition degrades {A} (P : A → Prop) (m : marked A) : Prop :=
  match m with Got a => P a | Marker s => s ∈ degradations end.

Lemma degrades_bind {A B} (P : A → Prop) (Q : B → Prop) (m : marked A) (f : A → marked B) :
  degrades P m → (∀ a, P a → degrades Q (f a)) → degrades Q (m ≫= f).
Proof. destruct m; simpl; auto. Qed.

Lemma degrades_ok_or {A} (P : A → Prop) (o : option A) s :
  s ∈ degradations → (∀ a, o = Some a → P a) → degrades P (ok_or o s).
Proof. destruct o; simpl; auto. Qed.

Lemma degrades_mono {A} (P Q : A → Prop) m :
  degrades P m → (∀ a, P a → Q a) → degrades Q m.
Proof. destruct m; simpl; auto. Qed.

(** Membership in a concrete list of strings. *)
Ltac in_markers := unfold degrades; apply (bool_decide_unpack _); by vm_compute.

Section eval.
Context {T : Type} `{!Target T} (ctx : RenderCtx T).

Lemma ctx_read_degrades addr size :
  degrades (λ bs, Z.of_nat (length bs) = size) (ctx_read ctx addr size).
Proof.
  unfold ctx_read. apply (degrades_bind (λ _, True)); [by apply degrades_ok_or; [in_markers|]|].
  intros p _. destruct (freed ctx addr); [in_markers|].
  destruct (read_bytes p addr size) as [bs|] eqn:E; [by eapply read_bytes_len|].
  in_markers.
Qed.

Lemma check_guards_degrades base bytes gs : degrades (λ _, True) (check_guards ctx base bytes gs).
Proof.
  induction gs as [|g gs IH]; [done|]. cbn [check_guards].
  apply (degrades_bind (λ _, True)); [|done]. unfold check_guard.
  apply (degrades_bind (λ _, True)).
  - destruct base.
    + apply (degrades_bind (λ _, True)); [apply degrades_ok_or; [|done]; in_markers|].
      intros at_ _. eapply degrades_mono; [apply ctx_read_degrades|done].
    + apply degrades_ok_or; [in_markers|done].
  - intros raw _. destruct (selects _ _); [done|]. in_markers.
Qed.

Lemma follow_hops_degrades p bytes hops : ∀ pointer segment,
  degrades (λ _, True) (follow_hops ctx p bytes pointer segment hops).
Proof.
  induction hops as [|hop hops IH]; intros pointer segment; [done|]. cbn [follow_hops].
  destruct (pointer =? 0); [in_markers|].
  apply (degrades_bind (λ _, True)); [apply check_guards_degrades|intros _ _].
  apply (degrades_bind (λ _, True)); [apply degrades_ok_or; [in_markers|done]|intros a _].
  apply (degrades_bind (λ _, True)); [eapply degrades_mono; [apply ctx_read_degrades|done]|].
  intros w _. apply (degrades_bind (λ _, True)); [apply degrades_ok_or; [in_markers|done]|].
  intros w' _. apply IH.
Qed.

Lemma read_place_bytes_degrades p bytes addr size :
  degrades (λ _, True) (read_place_bytes ctx p bytes addr size).
Proof.
  unfold read_place_bytes.
  apply (degrades_bind (λ _, True)); [apply check_guards_degrades|intros _ _].
  destruct (last (hops p)).
  - apply (degrades_bind (λ _, True)); [apply degrades_ok_or; [in_markers|done]|].
    intros pointer _. apply (degrades_bind (λ _, True)); [apply follow_hops_degrades|].
    intros [pointer' segment] _. destruct (pointer' =? 0); [in_markers|].
    apply (degrades_bind (λ _, True)); [apply check_guards_degrades|intros _ _].
    apply (degrades_bind (λ _, True)); [apply degrades_ok_or; [in_markers|done]|].
    intros target _. apply (degrades_bind (λ _, True)); [|done].
    destruct (size =? 0); [done|]. eapply degrades_mono; [apply ctx_read_degrades|done].
  - apply (degrades_bind (λ _, True)); [apply degrades_ok_or; [in_markers|done]|done].
Qed.

Lemma read_candidates_degrades bytes addr cs : degrades is_u64 (read_candidates ctx bytes addr cs).
Proof.
  induction cs as [|[p size] cs IH]; cbn [read_candidates]; [in_markers|].
  pose proof (read_place_bytes_degrades p bytes addr size) as Hp.
  destruct (read_place_bytes ctx p bytes addr size) as [[a w]|m].
  - apply degrades_ok_or; [in_markers|]. intros v Hv. by eapply read_unsigned_at_u64.
  - by destruct (String.eqb m INACTIVE).
Qed.

Lemma shl_or_zero_u64 x y : is_u64 (shl_or_zero x y).
Proof. unfold shl_or_zero, is_u64. case_match; [by apply Z.mod_pos_bound|lia]. Qed.

Lemma land_u64 x y : is_u64 x → is_u64 y → is_u64 (Z.land x y).
Proof.
  unfold is_u64. intros Hx Hy. replace (Z.land x y) with (Z.land x y `mod` W64);
    [by apply Z.mod_pos_bound|].
  apply Z.bits_inj'. intros k Hk. rewrite testbit_mod64, Z.land_spec by done.
  destruct (k <? 64) eqn:E; [done|]. zb. by rewrite testbit_above by done.
Qed.

(** A well-formed expression over as many variables as there are yields a word
    or a degradation, and never an unbound variable. *)
Lemma eval_expr_degrades vars bytes addr e :
  rexpr_wf (length vars) e → Forall is_u64 vars →
  degrades is_u64 (eval_expr ctx vars bytes addr e).
Proof.
  intros He Hv. assert (Hbool : ∀ c, is_u64 (b2u c)) by (intros []; unfold is_u64, b2u; lia).
  assert (Hmod : ∀ z, is_u64 (z `mod` W64)) by (intros; unfold is_u64; by apply Z.mod_pos_bound).
  induction e; cbn [eval_expr rexpr_wf] in *; destruct_and?; try done;
    try (apply (degrades_bind is_u64); [by auto|intros x Hx]);
    try (apply (degrades_bind is_u64); [by auto|intros y Hy]);
    cbn [degrades]; unfold u64_add, u64_sub, u64_mul; auto using land_u64, shl_or_zero_u64.
  - apply read_candidates_degrades.
  - unfold u64_not, is_u64 in *. lia.
  - destruct (lookup_lt_is_Some_2 vars (Z.to_nat i)) as [v Hi]; [done|]. rewrite Hi. cbn.
    rewrite Forall_forall in Hv. apply Hv. by eapply list_elem_of_lookup_2.
  - apply (degrades_bind (λ _, True)); [eapply degrades_mono; [apply ctx_read_degrades|done]|].
    intros w _. apply degrades_ok_or; [in_markers|]. intros v Hw.
    by eapply read_unsigned_at_u64.
Qed.
End eval.

(** ** Custom lists *)

Definition is_child (p : Piece) : bool := match p with Child _ _ _ _ => true | _ => false end.
Definition children (ps : list Piece) : nat := length (filter (λ p, is_child p = true) ps).

Lemma children_app ps qs : children (ps ++ qs) = (children ps + children qs)%nat.
Proof. unfold children. by rewrite filter_app, length_app. Qed.

Lemma children_cons p ps :
  children (p :: ps) = ((if is_child p then 1 else 0) + children ps)%nat.
Proof.
  unfold children. rewrite filter_cons. destruct (is_child p); case_decide; try done.
Qed.

Lemma children_nil : children [] = 0%nat.
Proof. done. Qed.

Ltac count_children := cbn [l_out emit app]; rewrite ?children_app, ?children_cons, ?children_nil;
  cbn [is_child]; lia.

Section custom_list.
Context {T : Type} `{!Target T} (b : Bundle) (element : BundleTypeId) (bytes : list Byte.byte)
  (addr : Z) (ctx : RenderCtx T) (pretty : bool) (n : nat) (size : Z)
  (Hsize : ty_size b element = Ret size).

(** The punctuation of a sequence. *)
Definition punctuation : list string :=
  ["["; "]"; ","; write_seq_prefix pretty (prefix ctx) (depth ctx) true;
   write_seq_prefix pretty (prefix ctx) (depth ctx) false;
   write_seq_close pretty (prefix ctx) (depth ctx) true;
   write_seq_close pretty (prefix ctx) (depth ctx) false]%string.

(** What a custom list may write: punctuation, a degradation marker, or a whole
    element, one level deeper. *)
Definition piece_ok (p : Piece) : Prop :=
  match p with
  | Written s => s ∈ punctuation ∨ ∃ m any, m ∈ degradations ∧ s = write_seq_marker m any
  | Child ty _ bs d => ty = element ∧ Z.of_nat (length bs) = size ∧ d = S (depth ctx)
  | Nested _ _ _ _ _ => False
  end.

Definition list_ok (st : ListState) : Prop :=
  length (l_vars st) = n ∧ Forall is_u64 (l_vars st) ∧ Forall piece_ok (l_out st).

(** One run from a state: another state in order, with at most [k] elements
    more. *)
Definition runs_ok (k : nat) (st : ListState) (m : outcome (Flow * ListState)) : Prop :=
  ∃ flow st', m = Ret (flow, st') ∧ list_ok st' ∧
    (children (l_out st') ≤ children (l_out st) + k)%nat.

Lemma stop_ok k st m : m ∈ degradations → list_ok st → runs_ok k st (stop_with st m).
Proof.
  intros Hm (Hl & Hv & Ho). exists Stop, (emit st [Written (write_seq_marker m (l_any st))]).
  split; [done|]. split; [split; [done|split; [done|]]|].
  - apply Forall_app. split; [done|]. constructor; [|done]. right. eauto.
  - count_children.
Qed.

Lemma eval_emit_ok st target :
  list_ok st → runs_ok 1 st (eval_emit b element ctx pretty target st).
Proof.
  intros Hst. unfold eval_emit. rewrite Hsize, outcome_bind_eq.
  pose proof (ctx_read_degrades ctx target size) as Hr.
  destruct (ctx_read ctx target size) as [bs|m]; [|by apply stop_ok].
  destruct Hst as (Hl & Hv & Ho). do 2 eexists. split; [done|].
  split; [split; [done|split; [done|]]|]; cbn [l_out].
  - apply Forall_app. split; [done|]. constructor.
    + left. unfold punctuation. destruct (l_any st); cbn [negb]; set_solver.
    + constructor; [by split|]. cbn [app]. destruct pretty; [|done].
      constructor; [|done]. left. unfold punctuation. set_solver.
  - destruct pretty; count_children.
Qed.

Lemma run_all_ok l f st :
  (∀ s, s ∈ l → ∀ st, list_ok st → runs_ok (emits s) st (f s st)) → list_ok st →
  runs_ok (emits_all l) st (run_all f l st).
Proof.
  revert st. induction l as [|s l IH]; intros st Hf Hst; cbn [run_all].
  { exists Next, st. split; [done|]. split; [done|]. lia. }
  destruct (Hf s ltac:(by left) st Hst) as (flow & st1 & -> & Hst1 & H1).
  rewrite outcome_bind_eq. cbn [emits_all sum_list_with]. fold (emits_all l).
  destruct flow.
  - destruct (IH st1) as (fl & st2 & E & Hst2 & H2); [intros; apply Hf; [by right|done]|done|].
    fold (run_all f). rewrite E. exists fl, st2. split; [done|]. split; [done|]. lia.
  - exists Stop, st1. split; [done|]. split; [done|]. lia.
Qed.

Lemma emits_if c th el : emits (RIf c th el) = (emits_all th + emits_all el)%nat.
Proof. done. Qed.

Lemma runs_mono k k' st m : runs_ok k st m → (k ≤ k')%nat → runs_ok k' st m.
Proof. intros (fl & st' & ? & ? & ?) Hk. exists fl, st'. split; [done|]. split; [done|lia]. Qed.

Lemma eval_stmt_ok s : rstmt_wf n s → ∀ st, list_ok st →
  runs_ok (emits s) st (eval_stmt b element bytes addr ctx pretty s st).
Proof.
  induction s as [s IH] using rstmt_ind'. intros Hwf st Hst. rewrite Forall_forall in IH.
  assert (He : ∀ e, rexpr_wf n e → degrades is_u64 (eval_expr ctx (l_vars st) bytes addr e)).
  { intros e He. destruct Hst as (Hl & Hv & _). apply eval_expr_degrades; by rewrite ?Hl. }
  destruct s as [var e|c th el|e|e]; cbn [eval_stmt rstmt_wf rsubstmts] in *;
    rewrite ?all_Forall in *.
  - destruct Hwf as [Hvar Hwf]. specialize (He e Hwf). destruct (eval_expr _ _ _ _ e) as [v|m];
      [|by apply stop_ok]. destruct Hst as (Hl & Hv & Ho). do 2 eexists. split; [done|].
    split; [|count_children]. split; [cbn [l_vars]; by rewrite length_insert|]. split; [|done].
    by apply Forall_insert.
  - destruct Hwf as (Hc & Hth & Hel). rewrite Forall_forall in Hth, Hel. specialize (He c Hc).
    rewrite emits_if. destruct (eval_expr _ _ _ _ c) as [v|m]; [|by apply stop_ok].
    destruct (v =? 0).
    + eapply runs_mono; [apply run_all_ok; [|done]|lia]. intros s Hs. apply IH; [|auto].
      apply elem_of_app. auto.
    + eapply runs_mono; [apply run_all_ok; [|done]|lia]. intros s Hs. apply IH; [|auto].
      apply elem_of_app. auto.
  - specialize (He e Hwf). destruct (eval_expr _ _ _ _ e) as [v|m]; [|by apply stop_ok].
    by apply eval_emit_ok.
  - specialize (He e Hwf). destruct (eval_expr _ _ _ _ e) as [v|m]; [|by apply stop_ok].
    exists (if v =? 0 then Next else Stop), st. split; [done|]. split; [done|lia].
Qed.

Lemma list_loop_ok iters c body : ∀ st,
  rexpr_wf n c → Forall (rstmt_wf n) body → list_ok st →
  ∃ st', list_loop b element bytes addr ctx pretty iters c body st = Ret st' ∧ list_ok st' ∧
    (children (l_out st') ≤ children (l_out st) + iters * emits_all body)%nat.
Proof.
  induction iters as [|iters IH]; intros st Hc Hb Hst; cbn [list_loop].
  { exists st. split; [done|]. split; [done|lia]. }
  pose proof Hst as (Hl & Hv & Ho).
  pose proof (eval_expr_degrades ctx (l_vars st) bytes addr c ltac:(by rewrite Hl) Hv) as He.
  destruct (eval_expr _ _ _ _ c) as [v|m].
  - destruct (v =? 0); [exists st; split; [done|]; split; [done|lia]|].
    rewrite Forall_forall in Hb.
    destruct (run_all_ok body (eval_stmt b element bytes addr ctx pretty) st)
      as (flow & st1 & E & Hst1 & H1); [intros s Hs; apply eval_stmt_ok; auto|done|].
    unfold eval_stmts. rewrite E, outcome_bind_eq. destruct flow.
    + destruct (IH st1) as (st2 & -> & Hst2 & H2); [done|by apply Forall_forall|done|].
      exists st2. split; [done|]. split; [done|lia].
    + exists st1. split; [done|]. split; [done|lia].
  - eexists. split; [done|]. split; [split; [done|split; [done|]]|].
    + apply Forall_app. split; [done|]. constructor; [|done]. right. eauto.
    + count_children.
Qed.

Lemma eval_seeds_ok inits :
  Forall (rexpr_wf 0) inits →
  degrades (λ vs, length vs = length inits ∧ Forall is_u64 vs) (eval_seeds bytes addr ctx inits).
Proof.
  induction 1 as [|e inits He Hi IH]; [by split|]. cbn [eval_seeds].
  apply (degrades_bind is_u64); [by apply eval_expr_degrades|intros v Hv].
  apply (degrades_bind (λ vs, length vs = length inits ∧ Forall is_u64 vs)); [done|].
  intros vs [Hvl Hvs]. cbn. rewrite Hvl. split; [done|by constructor].
Qed.
End custom_list.
