(* ===== verification/DisplayTheorems.v ===== *)
(** What a display program shows: a bit-field decode drops nothing of its word,
    a custom list is bounded and degrades in place, and a read of whichever
    variant is live agrees with the decode of the enum. *)

From S2P Require Import Prelude Text StringTable Target Snapshot SnapshotFacts Schema BundleCheck TypeView DisplayResolve DisplayEval BundleCheckFacts TypeSizes ScalarFacts EvalFacts BundleDemo.

Local Open Scope Z_scope.

(** ** Guards *)

Lemma discr_range_matches dv raw :
  discr_matches dv raw = in_ranges (discr_range <$> dv) raw.
Proof.
  unfold discr_matches, in_ranges. induction dv as [|[x|lo hi] dv IH]; [done|..];
    cbn [fmap list_fmap existsb discr_range fst snd]; f_equal; try done.
  apply Bool.eq_iff_eq_true. rewrite andb_true_iff, Z.eqb_eq, !Z.leb_le. lia.
Qed.

Lemma in_ranges_of raw v : in_ranges (ranges_of v) raw = explicit_match raw v.
Proof.
  unfold ranges_of, explicit_match. destruct (v_discr_values v) as [dv|]; [|done].
  symmetry. apply discr_range_matches.
Qed.

Lemma in_ranges_join raw vs :
  in_ranges (mjoin (ranges_of <$> vs)) raw = existsb (explicit_match raw) vs.
Proof.
  induction vs as [|v vs IH]; [done|]. cbn [fmap list_fmap mjoin list_join existsb].
  rewrite <- in_ranges_of, <- IH. unfold in_ranges. by rewrite existsb_app.
Qed.

Lemma selects_expect sh v raw :
  selects (expect_of sh v) raw =
    if is_default v then negb (existsb (explicit_match raw) (variants sh))
    else explicit_match raw v.
Proof.
  unfold expect_of, is_default. destruct (v_discr_values v) eqn:E; cbn [selects is_none].
  - apply in_ranges_of.
  - by rewrite in_ranges_join.
Qed.

(** The first candidate whose guard selects is the variant the discriminant
    decodes to. *)
Lemma first_live_is_selected sh raw :
  find_first (λ v, selects (expect_of sh v) raw) (variants sh) = select_variant sh raw.
Proof.
  unfold select_variant. destruct (existsb (explicit_match raw) (variants sh)) eqn:Ex.
  - rewrite (find_first_ext _ (explicit_match raw)).
    2:{ intros v _. rewrite selects_expect, Ex. unfold is_default, explicit_match.
        by destruct (v_discr_values v). }
    destruct (find_first (explicit_match raw) (variants sh)) eqn:E; [done|].
    apply find_first_existsb in E. congruence.
  - rewrite (proj2 (find_first_existsb _ _) Ex). apply find_first_ext. intros v Hv.
    rewrite selects_expect, Ex. destruct (is_default v) eqn:Ed; [done|].
    apply not_true_is_false. intros H. revert Ex. apply not_false_iff_true.
    apply existsb_exists. exists v. split; [by apply list_elem_of_In|done].
Qed.

Lemma Forall2_compose {A B C} (P : A → B → Prop) (Q : B → C → Prop) (R : A → C → Prop) l k m :
  (∀ a b c, P a b → Q b c → R a c) → Forall2 P l k → Forall2 Q k m → Forall2 R l m.
Proof.
  intros H HP. revert m. induction HP as [|a b l k Hab _ IH]; intros m Hm.
  - by apply Forall2_nil_inv_l in Hm as ->.
  - apply Forall2_cons_inv_l in Hm as (c & m' & ? & ? & ->). constructor; eauto.
Qed.

(** ** Paths of members *)

Definition is_member_step (s : Step) : bool := match s with Member _ => true | _ => false end.
Definition members_only (sel : Selector) : Prop := forallb is_member_step sel = true.

(** The members of a path, and the offset past them. *)
Fixpoint walk_members (b : Bundle) (sel : Selector) (ty : BundleTypeId) (offset : Z)
    : outcome (option (BundleTypeId * Z)) :=
  match sel with
  | Member at_ :: sel =>
      m ←? view_member_at b ty at_;
      offset ←? Ret (checked_add offset (m_offset m));
      walk_members b sel (m_ty m) offset
  | _ => pass (ty, offset)
  end.

Section places.
Context (b : Bundle).

Lemma places_go_members pre post : ∀ ty offset seg p first,
  members_only pre →
  places_go b (pre ++ post) ty offset seg p first =
  ('(ty, offset) ←? walk_members b pre ty offset; places_go b post ty offset seg p first).
Proof.
  induction pre as [|[at_| | |] pre IH]; intros ty offset seg p first Hpre; try done.
  cbn [app places_go walk_members].
  destruct (view_member_at b ty at_) as [[m|]|]; [|done..]. cbn [try_bind].
  destruct (checked_add offset (m_offset m)); [|done]. cbn [try_bind]. by apply IH.
Qed.

Lemma resolve_selector_members sel ty :
  members_only sel → resolve_selector b ty sel = walk_members b sel ty 0.
Proof.
  intros Hs. unfold resolve_selector, resolve_place, resolve_places.
  pose proof (places_go_members sel [] ty 0 0%nat (mkPlace 0 [] []) true Hs) as H.
  rewrite app_nil_r in H. rewrite H. clear H.
  destruct (walk_members b sel ty 0) as [[[ty' o]|]|]; done.
Qed.

Lemma view_member_u64 ty at_ m :
  table_u64 (b_types b) → view_member_at b ty at_ = pass m → is_u64 (m_offset m).
Proof.
  intros Hu. unfold view_member_at, members, ty_def. intros H.
  destruct (ty_get (b_types b) ty) as [def|] eqn:E; [|done].
  cbn [or_panic] in H. rewrite !outcome_bind_eq in H. injection H as H.
  apply member_at_in in H. specialize (Hu _ _ E).
  destruct def; cbn in H; try (by apply elem_of_nil in H); destruct Hu as [_ Hf];
    rewrite Forall_forall in Hf; by apply Hf.
Qed.

(** Members add up from any offset: a walk moved down by [k] lands [k] lower. *)
Lemma walk_members_shift sel : ∀ ty s ty' e k,
  table_u64 (b_types b) → members_only sel → 0 <= k →
  walk_members b sel ty s = pass (ty', e) →
  s <= e ∧ walk_members b sel ty (s - k) = pass (ty', e - k).
Proof.
  induction sel as [|[at_| | |] sel IH]; intros ty s ty' e k Hu Hs Hk Hw; try done.
  - cbn in Hw. apply pass_inj in Hw. injection Hw as <- <-. split; [lia|done].
  - cbn [walk_members] in *. apply try_bind_pass in Hw as (m & Hm & Hw).
    apply try_bind_pass in Hw as (o & Ho & Hw). injection Ho as [-> Hlt]%checked_add_Some.
    pose proof (view_member_u64 _ _ _ Hu Hm) as [Hm0 _].
    destruct (IH (m_ty m) (s + m_offset m) ty' e k Hu Hs Hk Hw) as [? Hw'].
    split; [lia|]. rewrite Hm. cbn [try_bind pass].
    assert (Ha : checked_add (s - k) (m_offset m) = Some (s - k + m_offset m))
      by (apply checked_add_Some; split; [done|lia]). rewrite Ha.
    cbn [try_bind]. by replace (s - k + m_offset m) with (s + m_offset m - k) by lia.
Qed.

(** The candidates of an enum's variants. *)
Definition guarded_variant (sh : VariantShape) (segment : nat) (at_ size : Z) (v : VariantDef)
    : Candidate :=
  ((m_ty (v_payload v), m_offset (v_payload v)), Some (mkGuard segment at_ size (expect_of sh v))).

Lemma resolve_active_variants_spec ty sh seg offset cs :
  variant_shape b ty = pass sh → resolve_active_variants b ty seg offset = pass cs →
  match discr sh with
  | Some d => ∃ size, ty_size b (d_ty d) = Ret size ∧ size ∈ [1; 2; 4; 8; 16] ∧
      offset + d_offset d < W64 ∧
      cs = guarded_variant sh seg (offset + d_offset d) size <$> variants sh
  | None => ∃ v, variants sh = [v] ∧ cs = [((m_ty (v_payload v), m_offset (v_payload v)), None)]
  end.
Proof.
  intros Hsh. unfold resolve_active_variants. rewrite Hsh. cbn [try_bind pass].
  destruct (length (variants sh) =? 0)%nat eqn:En; [done|]. apply Nat.eqb_neq in En.
  rewrite try_map_pass. intros Hcs. unfold variant_candidate in Hcs. rewrite Hsh in Hcs.
  cbn [try_bind pass] in Hcs. destruct (discr sh) as [d|].
  - destruct (variants sh) as [|v0 vs] eqn:Evs; [done|].
    assert (∃ size, ty_size b (d_ty d) = Ret size ∧ size ∈ [1; 2; 4; 8; 16] ∧
      offset + d_offset d < W64) as (size & Hsize & Hin & Hlt).
    { destruct cs as [|c cs]; [by inversion Hcs|]. cbn [length seq] in Hcs.
      apply Forall2_cons in Hcs as [Hc _]. cbn [lookup list_lookup try_bind] in Hc.
      apply outcome_bind_Ret in Hc as (size & Hsize & Hc). exists size. split; [done|].
      case_bool_decide; [|done]. cbn [negb] in Hc. destruct (checked_add _ _) eqn:Ha; [|done].
      by apply checked_add_Some in Ha as [_ ?]. }
    exists size. repeat (split; [done|]). rewrite Hsize in Hcs.
    apply list_eq_Forall2. apply Forall2_fmap_r.
    apply Forall2_same_length_lookup_2.
    { pose proof (Forall2_length _ _ _ Hcs) as Hlen. by rewrite length_seq in Hlen. }
    intros i c v Hc Hv.
    destruct (Forall2_lookup_r _ _ _ _ _ Hcs Hc) as (j & Hj & Hjc).
    apply lookup_seq in Hj as [-> _]. rewrite Nat.add_0_l, Hv in Hjc. cbn [try_bind] in Hjc.
    rewrite outcome_bind_eq, bool_decide_eq_true_2 in Hjc by done. cbn [negb] in Hjc.
    rewrite (proj2 (checked_add_Some offset (d_offset d) _) (conj eq_refl Hlt)) in Hjc.
    cbn [try_bind] in Hjc. apply pass_inj in Hjc. subst c. unfold guarded_variant.
    assert (as_u32 size = size) as ->; [|done]. unfold as_u32. apply Z.mod_small.
    rewrite !elem_of_cons, elem_of_nil in Hin. lia.
  - destruct (variants sh) as [|v [|]] eqn:Evs; [done|..].
    + exists v. split; [done|]. cbn [length seq] in Hcs.
      apply Forall2_cons_inv_l in Hcs as (c & cs' & Hc & Hcs' & ->).
      apply Forall2_nil_inv_l in Hcs' as ->. cbn in Hc. by apply pass_inj in Hc as <-.
    + cbn [length seq] in Hcs. apply Forall2_cons_inv_l in Hcs as (c & cs' & Hc & _ & _). done.
Qed.

(** One place per live candidate: the path continues into its payload. *)
Lemma places_go_active post ty offset place ps :
  members_only post →
  places_go b (ActiveVariant :: post) ty offset 0 place true = pass ps →
  ∃ cs, resolve_active_variants b ty 0 offset = pass cs ∧
    Forall2 (λ c p, offset + c.1.2 < W64 ∧ ∃ e,
      walk_members b post c.1.1 (offset + c.1.2) = pass (p.1, e) ∧
      p.2 = stash true (push_guard place c.2) e) cs ps.
Proof.
  intros Hpost H. cbn [places_go] in H. apply try_bind_pass in H as (cs & Hcs & H).
  exists cs. split; [done|]. apply try_concat_pass in H as (parts & Hp & ->). clear Hcs.
  induction Hp as [|c part cs parts Hc _ IH]; [constructor|].
  destruct (checked_add offset c.1.2) as [o|] eqn:Eo; [|done]. cbn [try_bind] in Hc.
  apply checked_add_Some in Eo as [-> Hlt].
  pose proof (places_go_members post [] c.1.1 (offset + c.1.2) 0%nat (push_guard place c.2) true Hpost)
    as Hm. rewrite app_nil_r, Hc in Hm. symmetry in Hm. apply try_bind_pass in Hm as ([t e] & He & Hm).
  apply pass_inj in Hm as <-. cbn [mjoin list_join app]. constructor; [|done].
  split; [done|]. exists e. done.
Qed.

(** Where a payload's word is, relative to its enum, and how wide. *)
Definition payload_word (post : Selector) (offset : Z) (v : VariantDef) (c : Z * Z) : Prop :=
  ∃ word at_ size,
    walk_members b post (m_ty (v_payload v)) (m_offset (v_payload v)) = pass (word, at_) ∧
    ty_size b word = Ret size ∧ c = (offset + at_, as_u32 size).

Lemma candidate_word post offset v g p c :
  table_u64 (b_types b) → members_only post → 0 <= offset →
  (offset + m_offset (v_payload v) < W64 ∧ ∃ e,
     walk_members b post (m_ty (v_payload v)) (offset + m_offset (v_payload v)) = pass (p.1, e) ∧
     p.2 = stash true (push_guard (mkPlace 0 [] []) g) e) →
  sized_place b p = pass c →
  ∃ e, c.1 = mkPlace e [] (option_list g) ∧ payload_word post offset v (e, c.2).
Proof.
  intros Hu Hpost Ho (_ & e & Hw & Hp) Hc. unfold sized_place in Hc.
  apply outcome_bind_Ret in Hc as (size & Hs & Hc). apply pass_inj in Hc as <-. exists e.
  split; [by rewrite Hp; destruct g|].
  apply (walk_members_shift post _ _ _ _ offset) in Hw as [_ Hw]; [|done..].
  replace (offset + m_offset (v_payload v) - offset) with (m_offset (v_payload v)) in Hw by lia.
  exists p.1, (e - offset), size. split; [done|]. split; [done|]. cbn [snd]. f_equal. lia.
Qed.
End places.

(** ** Reads *)

(** A word of the payload, read from the value's bytes. *)
Definition inline_word (bytes : list Byte.byte) (at_ size : Z) : marked Z :=
  slice ← ok_or (byte_range bytes at_ size) TRUNCATED;
  ok_or (read_unsigned_at slice 0 size) UNREADABLE.

(** A discriminant past the members of a prefix is the discriminant of the
    bytes from there. *)
Lemma byte_range_drop bytes offset d size :
  0 <= offset → 0 <= d → 0 < size < W32 → offset + d < W64 → Z.of_nat (length bytes) < W64 →
  byte_range bytes (offset + d) size =
    bytes_get (drop (Z.to_nat offset) bytes) d (u64_add d size).
Proof.
  intros Ho Hd Hs Hlt Hlen. unfold byte_range, bytes_get, slice, checked_add, u64_add.
  rewrite length_drop, drop_drop.
  assert (Hw : (d + size) `mod` W64 = d + size ∨ ((d + size) `mod` W64 = d + size - W64 ∧
    W64 <= d + size)).
  { destruct (Z.ltb_spec (d + size) W64); [left; apply Z.mod_small; lia|right; split; [|done]].
    symmetry. apply (Z.mod_unique_pos _ _ 1); lia. }
  destruct (Z.ltb_spec (offset + d + size) W64); cbn [mbind option_bind].
  - destruct Hw as [->|[_ ?]]; [|lia].
    replace (offset + d + size - (offset + d)) with size by lia.
    replace (d + size - d) with size by lia.
    replace (Z.to_nat offset + Z.to_nat d)%nat with (Z.to_nat (offset + d)) by lia.
    assert (((0 <=? offset + d) && (0 <=? size) && (offset + d + size <=? Z.of_nat (length bytes)))
      = ((0 <=? d) && (0 <=? size) &&
         (d + size <=? Z.of_nat (length bytes - Z.to_nat offset)))) as ->; [|done].
    apply Bool.eq_iff_eq_true. rewrite !andb_true_iff, !Z.leb_le. lia.
  - symmetry. case_match; [|done]. zb. destruct Hw as [Hw|[Hw ?]]; rewrite Hw in *; lia.
Qed.

Section read.
Context {T : Type} `{!Target T} (ctx : RenderCtx T) (bytes : list Byte.byte) (addr : Z).

Lemma read_inline e size :
  read_place_bytes ctx (mkPlace e [] []) bytes addr size =
    (slice ← ok_or (byte_range bytes e size) TRUNCATED; Got (u64_add addr e, slice)).
Proof. done. Qed.

Lemma read_guarded e size at_ w expect :
  read_place_bytes ctx (mkPlace e [] [mkGuard 0 at_ w expect]) bytes addr size =
    (raw ← ok_or (byte_range bytes at_ w) TRUNCATED;
     if selects expect (u128_from_le raw)
     then slice ← ok_or (byte_range bytes e size) TRUNCATED; Got (u64_add addr e, slice)
     else Marker INACTIVE).
Proof.
  unfold read_place_bytes, check_place_guards. cbn [guards hops last root_offset].
  change (filter _ _) with [mkGuard 0 at_ w expect]. cbn [check_guards].
  unfold check_guard. cbn [g_at g_size g_expect].
  destruct (byte_range bytes at_ w) as [raw|]; cbn [ok_or mbind marked_bind]; [|done].
  by destruct (selects expect _).
Qed.

Lemma read_one_inline p e size :
  read_place_bytes ctx p bytes addr size =
    (slice ← ok_or (byte_range bytes e size) TRUNCATED; Got (u64_add addr e, slice)) →
  ∀ cs, read_candidates ctx bytes addr ((p, size) :: cs) = inline_word bytes e size.
Proof.
  intros Hp cs. cbn [read_candidates]. rewrite Hp. unfold inline_word.
  by destruct (byte_range bytes e size).
Qed.

(** The guarded candidates of an enum: all read the one discriminant, and the
    first it selects is read. *)
Lemma read_guarded_candidates {A} (expect : A → GuardExpect) (at_ w : Z) (vs : list A)
    (cs : list (Place * Z)) (loc : A → Z * Z → Prop) :
  Forall2 (λ v c, ∃ e, c.1 = mkPlace e [] [mkGuard 0 at_ w (expect v)] ∧ loc v (e, c.2)) vs cs →
  match byte_range bytes at_ w with
  | None => vs ≠ [] → read_candidates ctx bytes addr cs = Marker TRUNCATED
  | Some raw =>
      match find_first (λ v, selects (expect v) (u128_from_le raw)) vs with
      | None => read_candidates ctx bytes addr cs = Marker INACTIVE
      | Some v => ∃ e size, loc v (e, size) ∧ read_candidates ctx bytes addr cs = inline_word bytes e size
      end
  end.
Proof.
  intros H. destruct (byte_range bytes at_ w) as [raw|] eqn:Er.
  - induction H as [|v [p size] vs cs (e & Hp & Hl) _ IH]; [done|]. cbn [fst snd] in Hp, Hl. subst p.
    pose proof (read_guarded e size at_ w (expect v)) as Hg. rewrite Er in Hg.
    cbn [ok_or mbind marked_bind] in Hg. cbn [find_first].
    destruct (selects (expect v) (u128_from_le raw)).
    + exists e, size. split; [done|]. by apply read_one_inline.
    + cbn [read_candidates]. rewrite Hg. exact IH.
  - destruct H as [|v [p size] vs cs (e & Hp & Hl) _]; [done|]. intros _. cbn [fst] in Hp. subst p.
    cbn [read_candidates]. rewrite read_guarded, Er. done.
Qed.
End read.

(** ** Scalars *)

(** C34: a bit-field decode that passes validation is lossless.  Resolved, its
    fields read disjoint parts of the word, and the values they show, put back
    at their shifts, together with the leftover that is printed as unknown
    bits, are the word: two words that show alike are the same word. *)
Theorem scalar_decode_lossless (b : Bundle) (word_bits : Z) (fields : list BitField)
    (decode : RScalarDecode) :
  0 < word_bits <= 64 → Forall bit_field_u8 fields →
  check_scalar_decode b (Bits fields) word_bits = pass () →
  resolve_decode b (Bits fields) = Ret decode →
  ∃ rs, decode = RBits rs ∧ length rs = length fields ∧
    (∀ i j r s, rs !! i = Some r → rs !! j = Some s → i ≠ j →
       Z.land (field_bits r) (field_bits s) = 0) ∧
    (∀ word, is_u64 word → word = Z.lor (fields_word rs word) (leftover_bits rs word)) ∧
    ∀ word word', is_u64 word → is_u64 word' →
      (∀ r, r ∈ rs → field_value r word = field_value r word') →
      leftover_bits rs word = leftover_bits rs word' → word = word'.
Proof.
  intros Hwb Hu Hc Hr. cbn [resolve_decode] in Hr.
  apply outcome_bind_Ret in Hr as (rs & Hrs & [= <-]). apply mapM_out_Ret in Hrs.
  assert (check_fields_bits b word_bits 0 fields = pass ()) as Hf by (by destruct fields).
  apply check_fields_bits_pass in Hf as (Hfit & _ & Hd).
  assert (Hres : ∀ i r, rs !! i = Some r → ∃ f, fields !! i = Some f ∧ bit_field_u8 f ∧
    field_fits word_bits f ∧ resolves_to f r).
  { intros i r Hi. destruct (Forall2_lookup_r _ _ _ _ _ Hrs Hi) as (f & Hl & Hfr).
    exists f. split; [done|]. rewrite Forall_lookup in Hu, Hfit.
    split; [by eapply Hu|]. split; [by eapply Hfit|by eapply resolve_field_bits_spec]. }
  assert (Hok : Forall field_ok rs).
  { apply Forall_lookup. intros i r Hi. destruct (Hres i r Hi) as (f & _ & ? & ? & ?).
    by eapply resolves_ok. }
  assert (Hlt : ∀ i j r s, (i < j)%nat → rs !! i = Some r → rs !! j = Some s →
    Z.land (field_bits r) (field_bits s) = 0).
  { intros i j r s Hij Hi Hj. destruct (Hres i r Hi) as (f & Hfi & ? & ? & ?).
    destruct (Hres j s Hj) as (g & Hgj & ? & ? & ?).
    eapply (resolved_disjoint word_bits Hwb f g); [done..|].
    exact (StronglySorted_lookup _ _ _ _ _ _ Hd Hfi Hgj Hij). }
  exists rs. split; [done|]. split; [symmetry; by eapply Forall2_length|]. split; [|split].
  - intros i j r s Hi Hj Hne. destruct (Nat.lt_total i j) as [?|[?|?]]; [by eapply Hlt|done|].
    rewrite Z.land_comm. by eapply Hlt.
  - intros word Hw. by apply word_rebuilt.
  - intros word word' Hw Hw' Hv Hl.
    rewrite (word_rebuilt rs word), (word_rebuilt rs word'), Hl by done. f_equal.
    clear -Hv. unfold fields_word. induction rs as [|r rs IH]; [done|]. cbn [foldr].
    rewrite Hv by (by left). f_equal. apply IH. intros r' Hr'. apply Hv. by right.
Qed.

(** ** Custom lists *)

(** C33: a custom list that passes validation is rendered within bounds.  On any
    value, target and allocator, its evaluation terminates without panicking;
    what it writes is punctuation, degradation markers and whole elements of
    the declared type, one level deeper, each with exactly the bytes of that
    type; no variable is ever out of range (the [<invalid var>] marker is never
    written); and a corrupt chain stops after 1000 runs of the body. *)
Theorem custom_list_sound {T} `{!Target T} (b : Bundle) (scope : BundleTypeId)
    (vars : list ValueExpr) (condition : ValueExpr) (body : list Stmt) (element : BundleTypeId)
    (rvars : list RExpr) (rcond : RExpr) (rbody : list RStmt)
    (bytes : list Byte.byte) (addr : Z) (ctx : RenderCtx T) (pretty : bool) :
  table_u64 (b_types b) →
  Z.of_nat (length vars) < W32 →
  Forall expr_typed vars → expr_typed condition → Forall stmt_typed body →
  check_node b scope (NCustomList vars condition body element) = pass () →
  resolve_node b scope (NCustomList vars condition body element) =
    pass (RCustomList rvars rcond rbody element) →
  ∃ size ps,
    size_of (b_types b) element = Some size ∧
    eval_custom_list b element bytes addr ctx pretty rvars rcond rbody = Ret ps ∧
    Forall (piece_ok element ctx pretty size) ps ∧
    (children ps ≤ 1000 * emits_all rbody)%nat.
Proof.
  intros Hu Hlen Htv Htc Htb Hcheck Hres. cbn [check_node addressed resolve_node] in *.
  unfold check_sized in Hcheck. passed.
  match goal with H : RCustomList _ _ _ _ = _ |- _ => injection H as <- <- <- end.
  repeat match goal with H : try_all _ _ = _ |- _ => rewrite try_all_pass in H
                       | H : bool_decide _ = false |- _ => apply bool_decide_eq_false in H end.
  destruct (size_of (b_types b) element) as [size|] eqn:Esz; [|done].
  assert (Hn : as_u32 (Z.of_nat (length vars)) = Z.of_nat (length vars))
    by (apply Z.mod_small; lia). rewrite Hn in *.
  assert (Hts : ty_size b element = Ret size) by (apply sized_ty_size, size_of_sized; done).
  match goal with H : try_map _ vars = pass ?v, H' : try_map _ body = pass ?bd,
      H'' : resolve_value_expr _ _ condition = pass ?c |- _ =>
    rename H into Hv, H' into Hb, H'' into Hc, v into rvars, bd into rbody, c into rcond end.
  pose proof (proj1 (try_map_pass _ _ _) Hv) as Hvs. pose proof (Forall2_length _ _ _ Hvs) as Hlv.
  assert (Hwv : Forall (rexpr_wf 0) rvars).
  { apply Forall_lookup. intros i r Hi.
    destruct (Forall2_lookup_r _ _ _ _ _ Hvs Hi) as (e & He & Her).
    rewrite Forall_lookup in Htv. eapply (resolved_expr_wf b scope 0); [|by eapply Htv|done].
    match goal with H : ∀ a, a ∈ vars → _ |- _ => apply H end. by eapply list_elem_of_lookup_2. }
  assert (Hwc : rexpr_wf (length rvars) rcond).
  { rewrite <- Hlv. by eapply resolved_expr_wf. }
  assert (Hwb : Forall (rstmt_wf (length rvars)) rbody).
  { rewrite <- Hlv. eapply resolved_stmts_wf; [|done..].
    apply Forall_forall. intros s _ r. apply resolved_stmt_wf. }
  pose proof (eval_seeds_ok bytes addr ctx rvars Hwv) as Hseeds.
  exists size. unfold eval_custom_list. destruct (eval_seeds _ _ _ _) as [vs|m].
  - destruct Hseeds as [Hl Hvu].
    destruct (list_loop_ok b element bytes addr ctx pretty (length rvars) size Hts
      MAX_CUSTOM_LIST_ITERS rcond rbody (mkList vs false [Written "["%string]))
      as (st & -> & (_ & _ & Ho) & Hch); [done..| |].
    { split; [done|]. split; [done|]. constructor; [|done]. left. by left. }
    rewrite outcome_bind_eq. eexists. split; [done|]. split; [done|]. split.
    + apply Forall_app. split; [done|].
      constructor; [|constructor; [|done]]; left; destruct (l_any st); unfold punctuation;
        set_solver.
    + rewrite children_app. cbn [l_out] in Hch. change MAX_CUSTOM_LIST_ITERS with 1000%nat in Hch.
      rewrite !children_cons, children_nil in *. cbn [is_child] in *. lia.
  - exists [Written m]. split; [done|]. split; [done|].
    split; [|rewrite children_cons, children_nil; cbn [is_child]; lia].
    constructor; [|done]. right. exists m, false. done.
Qed.

(** ** Live variants *)

Lemma discr_offset_u64 b ty sh d :
  table_u64 (b_types b) → variant_shape b ty = pass sh → discr sh = Some d → 0 <= d_offset d.
Proof.
  intros Hu Hsh Hd. unfold variant_shape, ty_def in Hsh.
  destruct (ty_get (b_types b) ty) as [def|] eqn:E; [|done]. specialize (Hu _ _ E).
  destruct def; try done. injection Hsh as ->. destruct Hu as (_ & _ & Hu). rewrite Hd in Hu.
  apply Hu.
Qed.

(** C27: a read of whichever variant is live agrees with the decode of the enum.
    For a path of members to an enum, the live variant and members of its
    payload, the expression resolved once for the type gives, on any value: the
    payload word of the variant [decode_variant] selects on the enum's bytes,
    at the offset its members add up to; [<inactive variant>] exactly where no
    variant matches the discriminant; and [<truncated>] where the value is too
    short to hold it. *)
Theorem active_variant_read_exact {T} `{!Target T} (b : Bundle) (scope : BundleTypeId)
    (pre post : Selector) (cs : list (Place * Z)) (ctx : RenderCtx T) (vars : list Z)
    (bytes : list Byte.byte) (addr : Z) :
  table_u64 (b_types b) → members_only pre → members_only post →
  Z.of_nat (length bytes) < W64 →
  resolve_value_expr b scope (Read (pre ++ ActiveVariant :: post)) = pass (RRead cs) →
  ∃ ty off sh r,
    walk_members b pre scope 0 = pass (ty, off) ∧ variant_shape b ty = pass sh ∧
    decode_selected b sh (drop (Z.to_nat off) bytes) = Ret r ∧
    match r with
    | inl v =>
        ∃ word at_ size,
          walk_members b post (m_ty (v_payload v)) (m_offset (v_payload v)) = pass (word, at_) ∧
          ty_size b word = Ret size ∧
          eval_expr ctx vars bytes addr (RRead cs) = inline_word bytes (off + at_) (as_u32 size)
    | inr (NoVariantMatch _) => eval_expr ctx vars bytes addr (RRead cs) = Marker INACTIVE
    | inr (ShortBuffer _ _) => eval_expr ctx vars bytes addr (RRead cs) = Marker TRUNCATED
    | inr _ => False
    end.
Proof.
  intros Hu Hpre Hpost Hlen Hres. cbn [resolve_value_expr] in Hres.
  unfold resolve_places in Hres. rewrite (places_go_members b pre) in Hres by done.
  apply try_bind_pass in Hres as (ps & Hps & Hres). apply try_bind_pass in Hps as (ps' & Hps & Hne).
  apply try_bind_pass in Hps as ([ty off] & Hpr & Hps).
  assert (ps = ps') as -> by (destruct ps'; [done|]; by apply pass_inj in Hne). clear Hne.
  apply try_bind_pass in Hres as (cs' & Hcs & [= ->]). apply try_map_pass in Hcs.
  apply places_go_active in Hps as (cands & Hcands & Hps); [|done].
  assert (∃ sh, variant_shape b ty = pass sh) as (sh & Hsh).
  { unfold resolve_active_variants in Hcands. apply try_bind_pass in Hcands as (sh & ? & _). eauto. }
  exists ty, off, sh. pose proof (resolve_active_variants_spec b ty sh 0 off cands Hsh Hcands) as Hspec.
  pose proof (walk_members_shift b pre scope 0 ty off 0 Hu Hpre ltac:(lia) Hpr) as [Hoff _].
  cbn [eval_expr]. unfold decode_selected. destruct (discr sh) as [d|] eqn:Ed.
  - destruct Hspec as (size & Hsize & Hin & Hlt & ->). rewrite Hsize, outcome_bind_eq.
    rewrite bool_decide_eq_true_2 by done. cbn [negb].
    apply Forall2_fmap_l in Hps.
    pose proof (Forall2_compose _ _ _ _ _ _ (λ v p c H1 H2, candidate_word b post off v
      (Some (mkGuard 0 (off + d_offset d) size (expect_of sh v))) p c Hu Hpost Hoff H1 H2)
      Hps Hcs) as Hall.
    apply (read_guarded_candidates ctx bytes addr) in Hall.
    rewrite byte_range_drop in Hall.
    2-6: rewrite !elem_of_cons, elem_of_nil in Hin; try lia; eapply discr_offset_u64; eauto.
    destruct (bytes_get _ _ _) as [raw|].
    + rewrite first_live_is_selected in Hall. change (u128_from_le raw) with (u128_le 0 0 raw) in Hall.
      destruct (select_variant sh _) as [v|].
      * eexists. do 3 (split; [done|]). destruct Hall as (e & sz & (word & at_ & size' & ? & ? & [= -> ->]) & ?).
        exists word, at_, size'. done.
      * eexists. do 3 (split; [done|]). done.
    + eexists. do 3 (split; [done|]). cbn. apply Hall.
      unfold resolve_active_variants in Hcands. rewrite Hsh in Hcands.
      cbn [try_bind pass] in Hcands. intros E. by rewrite E in Hcands.
  - destruct Hspec as (v & Hv & ->). rewrite Hv. eexists. do 3 (split; [done|]).
    apply Forall2_cons_inv_l in Hps as (p & ps & Hp & ->%Forall2_nil_inv_l & ->).
    apply Forall2_cons_inv_l in Hcs as (c & cs' & Hc & ->%Forall2_nil_inv_l & ->).
    destruct (candidate_word b post off v None p c Hu Hpost Hoff Hp Hc)
      as (e & Hce & word & at_ & size & ? & ? & [= -> Hsz]).
    exists word, at_, size. split; [done|]. split; [done|]. destruct c as [place sz].
    cbn [fst snd] in *. subst. by apply read_one_inline.
Qed.

(** ** Witnesses *)

Definition demo_ctx : RenderCtx Snapshot := mkCtx None None 0 EmptyString.

Definition demo_bits : list BitField :=
  match demo_flags with Bits fields => fields | _ => [] end.

Definition demo_decode : RScalarDecode :=
  match resolve_decode demo_bundle demo_flags with Ret d => d | Panic => RRaw end.

Lemma scalar_decode_lossless_witness :
  apply demo_decode 0x2b05 = "idle=1, busy=idle, flags=43"%string ∧
  ∃ rs, demo_decode = RBits rs ∧ length rs = 3%nat ∧
    0x2b05 = Z.lor (fields_word rs 0x2b05) (leftover_bits rs 0x2b05).
Proof.
  split; [vm_compute; reflexivity|].
  destruct (scalar_decode_lossless demo_bundle 64 demo_bits demo_decode) as (rs & H & Hl & _ & Hw & _).
  - lia.
  - repeat constructor; simpl; lia.
  - reflexivity.
  - vm_compute; reflexivity.
  - exists rs. split; [exact H|]. split; [exact Hl|]. apply Hw. split; reflexivity || lia.
Defined.

Definition demo_cs : list (Place * Z) :=
  match resolve_value_expr demo_bundle 3%nat demo_read with
  | Ret (Some (RRead cs)) => cs
  | _ => []
  end.

(** A busy queue of one node, at address 64. *)
Definition demo_queue : list Byte.byte := mjoin (to_le_bytes 8 <$> [64; 7; 42; 1]).

Lemma active_variant_read_exact_witness :
  eval_expr demo_ctx [] demo_queue 0 (RRead demo_cs) = Got 42 ∧
  ∃ ty off sh r, walk_members demo_bundle [Member (Named 6)] 3%nat 0 = pass (ty, off) ∧
    variant_shape demo_bundle ty = pass sh ∧
    decode_selected demo_bundle sh (drop (Z.to_nat off) demo_queue) = Ret r.
Proof.
  split; [vm_compute; reflexivity|].
  destruct (active_variant_read_exact demo_bundle 3%nat [Member (Named 6)] [] demo_cs demo_ctx []
    demo_queue 0 demo_table_u64) as (ty & off & sh & r & H1 & H2 & H3 & _).
  - reflexivity.
  - reflexivity.
  - reflexivity.
  - vm_compute; reflexivity.
  - exists ty, off, sh, r. split; [exact H1|]. split; [exact H2|exact H3].
Defined.

Definition demo_program : list RExpr * RExpr * list RStmt :=
  match resolve_node demo_bundle 3%nat demo_list with
  | Ret (Some (RCustomList vars condition body _)) => (vars, condition, body)
  | _ => ([], RConst 0, [])
  end.

Lemma custom_list_sound_witness :
  eval_custom_list demo_bundle 1%nat [] 0 demo_ctx false demo_program.1.1 demo_program.1.2
    demo_program.2 = Ret [Written "<truncated>"] ∧
  ∃ size ps, size_of (b_types demo_bundle) 1%nat = Some size ∧
    eval_custom_list demo_bundle 1%nat demo_queue 0 demo_ctx false demo_program.1.1
      demo_program.1.2 demo_program.2 = Ret ps ∧
    (children ps ≤ 1000 * emits_all demo_program.2)%nat.
Proof.
  split; [vm_compute; reflexivity|].
  destruct (custom_list_sound demo_bundle 3%nat [Read [Member (Named 5)]; Read [Member (Named 10)]]
    (Var 1) [Emit (Var 0); Set_ 0 (Load (Var 0) 8); Set_ 1 (Sub (Var 1) (Const 1));
     Break (Lt (Var 0) (Const 1))] 1%nat demo_program.1.1 demo_program.1.2 demo_program.2
     demo_queue 0 demo_ctx false demo_table_u64)
    as (size & ps & H1 & H2 & _ & H4).
  - simpl; lia.
  - repeat constructor.
  - simpl; lia.
  - repeat constructor; simpl; lia.
  - vm_compute; reflexivity.
  - vm_compute; reflexivity.
  - exists size, ps. split; [exact H1|]. split; [exact H2|exact H4].
Defined.
