(* ===== verification/Unwind.v ===== *)
(** The stack unwinder ([unwind/src/lib.rs]): loading the mapped objects'
    unwind tables through a target, popping a frame by its CFI or by its frame
    pointer, and the walk of a whole stack.

    gimli and goblin, which parse ELF headers and DWARF and step its expressions,
    are the class [Gimli]: its types, its operations, and nothing assumed of
    them.  Names of its data types are gimli's. *)

From S2P Require Import Prelude Text Target.

Local Open Scope Z_scope.

(** ** Errors and panics

    What a fallible function of the unwinder does: return, fail with an
    [anyhow::Error] (kept as what [{:#}] prints of its chain), or panic.
    [MFuel] is not the program's: the fuel of an expression's evaluation ran
    out. *)
Inductive M (A : Type) :=
  | MOk (a : A)
  | MErr (e : string)
  | MPanic
  | MFuel.
Arguments MOk {_} _.
Arguments MErr {_} _.
Arguments MPanic {_}.
Arguments MFuel {_}.

#[global] Instance M_ret : MRet M := λ A, MOk.
#[global] Instance M_bind : MBind M := λ A B f m,
  match m with MOk a => f a | MErr e => MErr e | MPanic => MPanic | MFuel => MFuel end.

Definition of_outcome {A} (o : outcome A) : M A :=
  match o with Ret a => MOk a | Panic => MPanic end.

(** [Display] of a target's error, and the chain [anyhow] prints of one: the
    variants made [#[from]] another error print it again as their source. *)
Definition display_error (e : ErrorKind) : string :=
  match e with
  | BadCore what => "malformed core file: " +:+ what
  | BadPath _ => "could not convert path to C string"
  | GrabFailed what => "failed to grab process: " +:+ what
  | LgrabFailed what => "failed to grab thread: " +:+ what
  | LwpIterFailed => "failed to iterate over lwps"
  | MapIterFailed => "failed to iterate over mappings"
  | NoExecName => "failed to get exec name"
  | NoLwpName => "failed to get lwp name"
  | NoNul _ => "no nul byte in C string"
  | NotThreadLocal name ty =>
      name +:+ " is not a thread-local symbol (ELF type " +:+ dec ty +:+
      "), so it names no per-thread storage"
  | ReadIo e => "error: " +:+ e
  | SymbolIterFailed => "failed to iterate over symbols"
  | TlsKeyOutOfRange key =>
      "pthread key " +:+ dec key +:+
      " is outside the fast-TSD range; slow TSD is unsupported"
  | TlsNotRecorded name fsbase =>
      "the capture recorded no address for thread-local " +:+ name +:+
      " in the thread at " +:+ hex fsbase
  | UnexpectedEof => "failed to fill whole buffer"
  | Unmapped addr len =>
      "address range " +:+ hex addr +:+ "..+" +:+ hex len +:+
      " is not mapped in the target"
  end.

Definition chain_error (e : ErrorKind) : string :=
  match e with
  | BadPath s | NoNul s | ReadIo s => display_error e +:+ ": " +:+ s
  | _ => display_error e
  end.

(** A fallible operation of a library, its error as it prints. *)
Inductive Fallible (A : Type) :=
  | FOk (a : A)
  | FErr (e : string).
Arguments FOk {_} _.
Arguments FErr {_} _.
Definition of_fallible {A} (r : Fallible A) : M A :=
  match r with FOk a => MOk a | FErr e => MErr e end.

(** The [?] of a target's read. *)
Definition lift {A} (r : Result A) : M A :=
  match r with Ok a => MOk a | Err e => MErr (chain_error e) end.

(** [.context(..)]. *)
Definition context {A} (c : string) (m : M A) : M A :=
  match m with MErr e => MErr (c +:+ ": " +:+ e) | m => m end.

(** ** What gimli and goblin provide *)

Inductive Value := Generic (v : Z) | NonGeneric.

Inductive Location :=
  | Address (address : Z)
  | LValue (value : Value)
  | OtherLocation.

Inductive EvaluationResult :=
  | Complete
  | RequiresMemory (address size : Z)
  | RequiresRegister (register : Z)
  | RequiresFrameBase
  | RequiresCallFrameCfa
  | RequiresRelocatedAddress (addr : Z)
  | OtherRequest (debug : string).

Inductive RegisterRule (E : Type) :=
  | Undefined
  | SameValue
  | Offset (offset : Z)
  | ValOffset (offset : Z)
  | Register (register : Z)
  | RExpression (expr : E)
  | ValExpression (expr : E)
  | OtherRule (debug : string).
Arguments Undefined {_}.
Arguments SameValue {_}.
Arguments Offset {_} _.
Arguments ValOffset {_} _.
Arguments Register {_} _.
Arguments RExpression {_} _.
Arguments ValExpression {_} _.
Arguments OtherRule {_} _.

Inductive CfaRule (E : Type) :=
  | RegisterAndOffset (register offset : Z)
  | CfaExpression (expr : E).
Arguments RegisterAndOffset {_} _ _.
Arguments CfaExpression {_} _.

Inductive FdeFound (F : Type) :=
  | FdeOk (fde : F)
  | NoUnwindInfoForAddress
  | FdeErr (e : string).
Arguments FdeOk {_} _.
Arguments NoUnwindInfoForAddress {_}.
Arguments FdeErr {_} _.

Record ProgramHeader := mkProgramHeader {
  p_type : Z;
  p_offset : Z;
  p_vaddr : Z;
  p_memsz : Z
}.

Class Gimli := {
  ParsedEhFrameHdr : Type;
  EhFrame : Type;
  BaseAddresses : Type;
  FrameDescriptionEntry : Type;
  UnwindTableRow : Type;
  Encoding : Type;
  UnwindExpression : Type;
  Expression : Type;
  Evaluation : Type;
  Header : Type;
  Ctx : Type;
  (* the lookup of a pc *)
  has_table : ParsedEhFrameHdr → bool;
  fde_for_address : ParsedEhFrameHdr → EhFrame → BaseAddresses → Z →
    FdeFound FrameDescriptionEntry;
  unwind_info_for_address : FrameDescriptionEntry → EhFrame → BaseAddresses → Z →
    Fallible UnwindTableRow;
  cie_encoding : FrameDescriptionEntry → Encoding;
  is_signal_trampoline : FrameDescriptionEntry → bool;
  row_cfa : UnwindTableRow → CfaRule UnwindExpression;
  row_register : UnwindTableRow → Z → option (RegisterRule UnwindExpression);
  (* expressions *)
  expr_get : UnwindExpression → EhFrame → Fallible Expression;
  evaluation : Expression → Encoding → Evaluation;
  evaluate : Evaluation → Fallible (EvaluationResult * Evaluation);
  resume_with_register : Evaluation → Value → Fallible (EvaluationResult * Evaluation);
  resume_with_memory : Evaluation → Value → Fallible (EvaluationResult * Evaluation);
  resume_with_relocated_address : Evaluation → Z → Fallible (EvaluationResult * Evaluation);
  resume_with_call_frame_cfa : Evaluation → Z → Fallible (EvaluationResult * Evaluation);
  eval_result : Evaluation → list Location;
  debug_pieces : list Location → string;
  (* an object's headers *)
  parse_header : list Byte.byte → Fallible Header;
  e_class : Header → Z;
  is_little : Header → Fallible bool;
  container_ctx : Header → Fallible Ctx;
  e_phoff : Header → Z;
  e_phnum : Header → Z;
  parse_program_headers : list Byte.byte → Z → Z → Ctx → Fallible (list ProgramHeader);
  bases_default : BaseAddresses;
  set_eh_frame_hdr : BaseAddresses → Z → BaseAddresses;
  set_eh_frame : BaseAddresses → Z → BaseAddresses;
  hdr_parse : list Byte.byte → BaseAddresses → Z → Fallible ParsedEhFrameHdr;
  eh_frame_pointer : ParsedEhFrameHdr → Z;
  eh_frame_new : list Byte.byte → EhFrame
}.

(** [rustc_demangle]'s name without the hash is the parameter [demangle] of
    [stack_trace]. *)

(** ** Frames *)

Record Frame := mkFrame {
  pc : Z;
  fregs : Regs;
  symbol : option SymbolBuf;
  heuristic : bool;
  interrupted : bool;
  trampoline : bool
}.

Record Backtrace := mkBacktrace {
  frames : list Frame;
  truncated : option string
}.

Definition backtrace_new (l : list Frame) : Backtrace := mkBacktrace l None.

Definition SIGNAL_HANDLER_CALLED : string := "<signal handler called>".

(** [{:#018x}]. *)
Definition hex018 (z : Z) : string :=
  let digits := hex_digits 16 z EmptyString in
  "0x" +:+ String.concat EmptyString (replicate (16 - String.length digits) "0"%string)
    +:+ digits.

Definition stack_trace (demangle : string → string) (bt : Backtrace) (max_frames : nat)
    : list string :=
  (λ frame,
     let name :=
       if trampoline frame then SIGNAL_HANDLER_CALLED
       else demangle (default EmptyString (name <$> symbol frame)) in
     hex018 (rip (fregs frame)) +:+ "  " +:+ name) <$> take max_frames (frames bt).

Definition lookup_pc (pc : Z) (interrupted : bool) : Z :=
  if interrupted then pc else u64_sub pc 1.

Definition frame_lookup_pc (f : Frame) : Z := lookup_pc (pc f) (interrupted f).

Record MissingCfi := mkMissing {
  miss_range : range;
  miss_path : string;
  why : string
}.

(** What popping one frame produced. *)
Inductive Pop :=
  | PFrame (f : Frame)
  | End
  | Lost (why : string).

(** [Display] of a register. *)
Definition display_reg (r : Reg) : string :=
  default "<unknown_register>"
    (["rax"; "rdx"; "rcx"; "rbx"; "rsi"; "rdi"; "rbp"; "rsp"; "r8"; "r9"; "r10";
      "r11"; "r12"; "r13"; "r14"; "r15"; "rip"]%string !! Z.to_nat r).

(** [(a as i64 + offset) as u64], on a two's-complement machine. *)
Definition offset_u64 (a offset : Z) : Z := (as_i64 a + offset) `mod` W64.

(** [&bytes[a..b]]. *)
Definition slice_range {A} (l : list A) (a b : Z) : outcome (list A) :=
  if (a <=? b) && (b <=? Z.of_nat (length l))
  then Ret (take (Z.to_nat (b - a)) (drop (Z.to_nat a) l))
  else Panic.

Section gimli.
Context `{Gimli}.

Record ObjectInfo := mkObjectInfo {
  oi_range : range;
  eh_frame_hdr : ParsedEhFrameHdr;
  eh_frame : EhFrame;
  bases : BaseAddresses
}.

Definition PT_SUNW_UNWIND : Z := 1684333904.
Definition PT_GNU_EH_FRAME : Z := 1685382480.
Definition PT_LOAD : Z := 1.
Definition ELFCLASS64 : Z := 2.

Definition ok_or {A} (o : option A) (e : string) : M A :=
  match o with Some a => MOk a | None => MErr e end.

(** [ObjectInfo::parse]: the headers of the text and of the unwind tables. *)
Definition parse_headers (bytes : list Byte.byte) : M (ProgramHeader * ProgramHeader) :=
  header ← context "failed to parse the ELF header" (of_fallible (parse_header bytes));
  if negb (e_class header =? ELFCLASS64) then MErr "only ELF64 is supported" else
  little ← context "failed to read the ELF endianness" (of_fallible (is_little header));
  if negb little then MErr "only little-endian files are supported" else
  ctx ← context "failed to read the ELF class" (of_fallible (container_ctx header));
  program_headers ← context "failed to parse the program headers"
    (of_fallible (parse_program_headers bytes (e_phoff header) (e_phnum header) ctx));
  text_phdr ← ok_or
    (find_first (λ ph, (p_type ph =? PT_LOAD) && (p_offset ph =? 0)) program_headers)
    "no PT_LOAD program header";
  eh_phdr ← ok_or
    (find_first (λ ph, (p_type ph =? PT_SUNW_UNWIND) || (p_type ph =? PT_GNU_EH_FRAME))
       program_headers)
    "no unwind-table program header";
  MOk (text_phdr, eh_phdr).

(** And the tables they lead to. *)
Definition parse_tables (bytes : list Byte.byte) (rng : range)
    (text_phdr eh_phdr : ProgramHeader) : M ObjectInfo :=
  let map_addr := r_start rng in
  let len := Z.of_nat (length bytes) in
  let vaddr := p_vaddr text_phdr in
  let load_bias := u64_sub map_addr vaddr in
  let eh_frame_hdr_vaddr := u64_add (p_vaddr eh_phdr) load_bias in
  let bases := set_eh_frame_hdr bases_default eh_frame_hdr_vaddr in
  let eh_frame_hdr_offset := u64_sub (p_vaddr eh_phdr) vaddr in
  if len <? u64_add eh_frame_hdr_offset (p_memsz eh_phdr) then
    MErr (".eh_frame_hdr at offset " +:+ hex (p_vaddr eh_phdr) +:+ " and size " +:+
          hex (p_memsz eh_phdr) +:+ " extends outside the mapping with size " +:+ hex len)
  else
  eh_frame_hdr_slice ← of_outcome
    (slice_range bytes eh_frame_hdr_offset (u64_add eh_frame_hdr_offset (p_memsz eh_phdr)));
  eh_frame_hdr ← of_fallible (hdr_parse eh_frame_hdr_slice bases 8);
  if negb (has_table eh_frame_hdr) then MErr "no CFI table in .eh_frame_hdr" else
  let eh_frame_addr := eh_frame_pointer eh_frame_hdr in
  let bases := set_eh_frame bases eh_frame_addr in
  let eh_frame_offset := u64_sub eh_frame_addr map_addr in
  if len <=? eh_frame_offset then
    MErr (".eh_frame offset " +:+ hex eh_frame_offset +:+
          " outside the mapping with size " +:+ hex len)
  else
  eh_frame_slice ← of_outcome (slice_range bytes eh_frame_offset len);
  MOk (mkObjectInfo rng eh_frame_hdr (eh_frame_new eh_frame_slice) bases).

Definition parse (bytes : list Byte.byte) (rng : range) : M ObjectInfo :=
  '(text_phdr, eh_phdr) ← parse_headers bytes;
  parse_tables bytes rng text_phdr eh_phdr.

(** ** Popping a frame *)

Section target.
Context `{Target T} (target : T).

(** The memory an expression asks for. *)
Definition read_sized (address size : Z) : M Z :=
  if size =? 8 then lift (read_u64 target address)
  else if size =? 4 then lift (read_u32 target address)
  else if size =? 2 then lift (read_u16 target address)
  else if size =? 1 then lift (read_u8 target address)
  else MErr ("CFI expression had unexpected read size of " +:+ dec size).

(** The loop of [evaluate], a turn at a time. *)
Fixpoint eval_loop (fuel : nat) (rg : Regs) (cfa : option Z)
    (result : EvaluationResult) (eval : Evaluation) : M Evaluation :=
  match fuel with
  | O => MFuel
  | S fuel =>
      match result with
      | Complete => MOk eval
      | RequiresRegister register =>
          val ← of_outcome (Regs_index rg register);
          '(result, eval) ← context "failed to resume with a register"
            (of_fallible (resume_with_register eval (Generic val)));
          eval_loop fuel rg cfa result eval
      | RequiresMemory address size =>
          val ← read_sized address size;
          '(result, eval) ← context "failed to resume with a memory read"
            (of_fallible (resume_with_memory eval (Generic val)));
          eval_loop fuel rg cfa result eval
      | RequiresRelocatedAddress addr =>
          '(result, eval) ← context "failed to resume with a relocated address"
            (of_fallible (resume_with_relocated_address eval addr));
          eval_loop fuel rg cfa result eval
      | RequiresCallFrameCfa =>
          match cfa with
          | None => MErr "CFA expression requires CFA (circular dependency)"
          | Some cfa' =>
              '(result, eval) ← context "failed to resume with the CFA"
                (of_fallible (resume_with_call_frame_cfa eval cfa'));
              eval_loop fuel rg cfa result eval
          end
      | RequiresFrameBase => MErr "CFI expression requires FrameBase"
      | OtherRequest r => MErr ("Unsupported DWARF Op in CFI expression: " +:+ r)
      end
  end.

Definition evaluate_expr (fuel : nat) (expr : UnwindExpression) (encoding : Encoding)
    (rg : Regs) (cfa : option Z) (object : ObjectInfo) : M Z :=
  expression ← of_fallible (expr_get expr (eh_frame object));
  '(result, eval) ← context "initial CFI expression evaluation failed"
    (of_fallible (evaluate (evaluation expression encoding)));
  eval ← eval_loop fuel rg cfa result eval;
  let final_results := eval_result eval in
  match final_results with
  | Address address :: _ => MOk address
  | LValue (Generic v) :: _ => MOk v
  | LValue NonGeneric :: _ => MErr "CFI expression resolved to non-generic value"
  | _ => MErr ("CFI expression " +:+ debug_pieces final_results +:+
               " did not resolve to a single address/value")
  end.

Definition evaluate_cfa (fuel : nat) (rg : Regs) (cfa_rule : CfaRule UnwindExpression)
    (encoding : Encoding) (object : ObjectInfo) : M Z :=
  match cfa_rule with
  | RegisterAndOffset register offset =>
      reg_val ← of_outcome (Regs_index rg register);
      MOk (offset_u64 reg_val offset)
  | CfaExpression expr => evaluate_expr fuel expr encoding rg None object
  end.

Definition restore_register (fuel : nat) (reg : Reg) (rg : Regs) (cfa : Z)
    (row : UnwindTableRow) (encoding : Encoding) (object : ObjectInfo) : M (option Z) :=
  match default Undefined (row_register row reg) with
  | Undefined =>
      if is_callee_saved reg then v ← of_outcome (Regs_index rg reg); MOk (Some v)
      else MOk None
  | SameValue => v ← of_outcome (Regs_index rg reg); MOk (Some v)
  | Offset offset => v ← lift (read_u64 target (offset_u64 cfa offset)); MOk (Some v)
  | Register other_reg => v ← of_outcome (Regs_index rg other_reg); MOk (Some v)
  | ValOffset offset => MOk (Some (offset_u64 cfa offset))
  | RExpression expr =>
      addr ← evaluate_expr fuel expr encoding rg (Some cfa) object;
      v ← lift (read_u64 target addr); MOk (Some v)
  | ValExpression expr =>
      v ← evaluate_expr fuel expr encoding rg (Some cfa) object; MOk (Some v)
  | OtherRule e =>
      MErr ("Unsupported register rule " +:+ e +:+ " for " +:+ display_reg reg)
  end.

(** The registers of [REGS] a row restores, written into [prev]. *)
Fixpoint restore_all (fuel : nat) (l : list Reg) (rg : Regs) (cfa : Z)
    (row : UnwindTableRow) (encoding : Encoding) (object : ObjectInfo) (prev : Regs)
    : M Regs :=
  match l with
  | [] => MOk prev
  | reg :: l =>
      value ← restore_register fuel reg rg cfa row encoding object;
      prev ← match value with
             | Some v => of_outcome (Regs_index_mut prev reg v)
             | None => MOk prev
             end;
      restore_all fuel l rg cfa row encoding object prev
  end.

Definition symbol_at (pc : Z) (interrupted : bool) : option SymbolBuf :=
  lookup_symbol_by_addr target (lookup_pc pc interrupted).

(** [Unwinder], whose [target] is the section's. *)
Record Unwinder := mkUnwinder {
  objects : list ObjectInfo;
  u_mappings : Mappings;
  missing : list MissingCfi
}.

Section unwinder.
Context (u : Unwinder).

Definition object_at (pc : Z) : option ObjectInfo :=
  find_first (λ o, range_contains (oi_range o) pc) (objects u).

Definition u_is_text (addr : Z) : bool :=
  match mappings_get (u_mappings u) addr with Some m => is_text m | None => false end.

Fixpoint zero_caller_saved (l : list Reg) (rg : Regs) : outcome Regs :=
  match l with
  | [] => Ret rg
  | reg :: l =>
      rg ← (if negb (is_callee_saved reg) then Regs_index_mut rg reg 0 else Ret rg);
      zero_caller_saved l rg
  end.

Definition pop_frame_with_frame_pointer (initial_regs : Regs) : outcome (option Regs) :=
  if rip initial_regs =? 0 then Ret None else
  rg ← zero_caller_saved REGS initial_regs;
  match ok (read_u64 target (u64_add (rbp initial_regs) 8)) with
  | None => Ret None
  | Some ret =>
      match ok (read_u64 target (rbp initial_regs)) with
      | None => Ret None
      | Some saved =>
          Ret (Some (set_rsp (set_rbp (set_rip rg ret) saved)
                       (u64_add (rbp initial_regs) 16)))
      end
  end.

Definition lost_at (pc : Z) : string :=
  match find_first (λ m, range_contains (miss_range m) pc) (missing u) with
  | Some m =>
      "no CFI for " +:+ miss_path m +:+ " (" +:+ why m +:+
      "); the frame-pointer walk found nothing below " +:+ hex pc
  | None =>
      "no CFI covers " +:+ hex pc +:+ "; the frame-pointer walk found nothing below it"
  end.

Definition pop_frame_without_cfi (pc : Z) (rg : Regs) : outcome Pop :=
  popped ← pop_frame_with_frame_pointer rg;
  Ret match popped with
      | Some prev_regs =>
          if u_is_text (rip prev_regs) then
            PFrame (mkFrame (rip prev_regs) prev_regs (symbol_at (rip prev_regs) false)
                      true false false)
          else Lost (lost_at pc)
      | None => Lost (lost_at pc)
      end.

Definition unwind_frame_with_cfi (fuel : nat) (pc : Z) (rg : Regs)
    (object : option ObjectInfo) : M Pop :=
  match object with
  | None => of_outcome (pop_frame_without_cfi pc rg)
  | Some object =>
      if negb (has_table (eh_frame_hdr object)) then MPanic else
      match fde_for_address (eh_frame_hdr object) (eh_frame object) (bases object) pc with
      | NoUnwindInfoForAddress => of_outcome (pop_frame_without_cfi pc rg)
      | FdeErr e => MErr e
      | FdeOk fde =>
          row ← of_fallible (unwind_info_for_address fde (eh_frame object) (bases object) pc);
          let encoding := cie_encoding fde in
          let interrupted := is_signal_trampoline fde in
          cfa ← evaluate_cfa fuel rg (row_cfa row) encoding object;
          prev_regs ← restore_all fuel REGS rg cfa row encoding object Regs_default;
          prev_pc ← restore_register fuel RIP rg cfa row encoding object;
          match prev_pc with
          | None => MOk End
          | Some prev_pc =>
              let prev_regs := set_rip (set_rsp prev_regs cfa) prev_pc in
              MOk (PFrame (mkFrame prev_pc prev_regs
                             (symbol_at (rip prev_regs) interrupted)
                             false interrupted false))
          end
      end
  end.

(** ** The walk *)

(** The frame a trampoline's restore was popped through. *)
Definition mark_trampoline (f : Frame) : Frame :=
  mkFrame (pc f) (fregs f) (lookup_symbol_by_addr target (pc f)) (heuristic f) true true.

(** [frames.last_mut()]. *)
Definition update_last (g : Frame → Frame) (l : list Frame) : list Frame :=
  alter g (length l - 1)%nat l.

(** The frames before the CFI walk: the innermost, and the frame that called
    through a bad pointer. *)
Definition initial_frames (initial_regs : Regs) : list Frame * Regs :=
  let initial_frame :=
    mkFrame (rip initial_regs) initial_regs
      (lookup_symbol_by_addr target (rip initial_regs)) false true false in
  if negb (contains_addr (u_mappings u) (rip initial_regs)) then
    match read_u64 target (rsp initial_regs) with
    | Ok ret =>
        if u_is_text ret then
          let rg := set_rsp (set_rip initial_regs ret) (u64_add (rsp initial_regs) 8) in
          ([initial_frame; mkFrame ret rg (symbol_at ret false) false false false], rg)
        else ([initial_frame], initial_regs)
    | Err _ => ([initial_frame], initial_regs)
    end
  else ([initial_frame], initial_regs).

Fixpoint unwind_loop (n : nat) (fuel : nat) (l : list Frame) (rg : Regs) : M Backtrace :=
  match n with
  | O => MOk (mkBacktrace l None)
  | S n =>
      if negb (contains_addr (u_mappings u) (rip rg)) then MOk (mkBacktrace l None) else
      frame ← of_outcome (or_panic (last l));
      let pc := frame_lookup_pc frame in
      let object := object_at pc in
      match unwind_frame_with_cfi fuel pc rg object with
      | MOk (PFrame prev_frame) =>
          let l := if interrupted prev_frame then update_last mark_trampoline l else l in
          unwind_loop n fuel (l ++ [prev_frame]) (fregs prev_frame)
      | MOk End => MOk (mkBacktrace l None)
      | MOk (Lost why) => MOk (mkBacktrace l (Some why))
      | MErr e => MOk (mkBacktrace l (Some e))
      | MPanic => MPanic
      | MFuel => MFuel
      end
  end.

Definition unwind_stack (fuel : nat) (initial_regs : Regs) (max_frames : nat)
    : M Backtrace :=
  let (l, rg) := initial_frames initial_regs in
  unwind_loop max_frames fuel l rg.
End unwinder.

(** ** Loading the images *)

Record Image := mkImage {
  im_range : range;
  im_path : string;
  im_bytes : list Byte.byte
}.

(** [paths.sort_unstable(); paths.dedup()]: a string's order is its bytes'. *)
Definition object_paths (m : Mappings) : list string :=
  dedup_by String.eqb (sort_by String.leb (omap path m)).

(** [vec![0u8; len]], which an allocation of more than [isize::MAX] panics. *)
Definition zeroed (len : Z) : outcome (list Byte.byte) :=
  if len <? 9223372036854775808 then Ret (replicate (Z.to_nat len) Byte.x00) else Panic.

(** [bytes[at..at + chunk.len()].copy_from_slice(chunk)]. *)
Definition copy_at (bytes : list Byte.byte) (at_ : Z) (chunk : list Byte.byte)
    : outcome (list Byte.byte) :=
  let end_ := u64_add at_ (Z.of_nat (length chunk)) in
  if (at_ <=? end_) && (end_ <=? Z.of_nat (length bytes)) then
    Ret (take (Z.to_nat at_) bytes ++ chunk ++ drop (Z.to_nat end_) bytes)
  else Panic.

(** The readable runs of one part, copied into the image. *)
Fixpoint load_runs (base : Z) (runs : list (Z * Z)) (bytes : list Byte.byte) (any : bool)
    : outcome (list Byte.byte * bool) :=
  match runs with
  | [] => Ret (bytes, any)
  | (addr, run) :: runs =>
      match read_bytes target addr run with
      | Ok chunk =>
          bytes ← copy_at bytes (u64_sub addr base) chunk;
          load_runs base runs bytes true
      | Err _ => load_runs base runs bytes any
      end
  end.

Fixpoint load_parts (base : Z) (parts : list LoadedObjectWithPath)
    (bytes : list Byte.byte) (any : bool) : M (list Byte.byte * bool) :=
  match parts with
  | [] => MOk (bytes, any)
  | part :: parts =>
      match readable_runs (vaddr part) (size part) (readable_len target) with
      | None => MFuel
      | Some runs =>
          '(bytes, any) ← of_outcome (load_runs base runs bytes any);
          load_parts base parts bytes any
      end
  end.

Definition min_list (l : list Z) : option Z :=
  match l with [] => None | x :: l => Some (foldl Z.min x l) end.
Definition max_list (l : list Z) : option Z :=
  match l with [] => None | x :: l => Some (foldl Z.max x l) end.

(** One path's turn of [load_images]: an image, the reason there is none, or
    neither. *)
Definition load_image (m : Mappings) (p : string) : M (option (Image + MissingCfi)) :=
  let parts := filter (λ o, path o = Some p) m in
  match min_list (vaddr <$> parts), max_list ((λ o, r_end (obj_range o)) <$> parts) with
  | Some base, Some end_ =>
      let len := u64_sub end_ base in
      bytes ← of_outcome (zeroed len);
      '(bytes, any) ← load_parts base parts bytes false;
      MOk (Some
        (if any : bool then inl (mkImage (Range base end_) p bytes)
         else
           let problem := default "the backing file is not on this machine"
                            (backing_file_problem target p) in
           inr (mkMissing (Range base end_) p
                  ("none of its pages are in the core, and " +:+ problem))))
  | _, _ => MOk None
  end.

Fixpoint load_images_from (m : Mappings) (paths : list string)
    : M (list Image * list MissingCfi) :=
  match paths with
  | [] => MOk ([], [])
  | p :: paths =>
      loaded ← load_image m p;
      '(images, missing) ← load_images_from m paths;
      MOk match loaded with
          | Some (inl image) => (image :: images, missing)
          | Some (inr miss) => (images, miss :: missing)
          | None => (images, missing)
          end
  end.

Definition load_images (m : Mappings) : M (list Image * list MissingCfi) :=
  load_images_from m (object_paths m).

(** ** Every stack *)

Record Unwound := mkUnwound {
  stacks : gmap Z Backtrace;
  un_missing : list MissingCfi
}.

Definition parse_failure (image : Image) (e : string) : MissingCfi :=
  mkMissing (im_range image) (im_path image)
    match backing_file_problem target (im_path image) with
    | Some problem => problem +:+ "; what the core holds of it does not parse: " +:+ e
    | None => e
    end.

Fixpoint parse_images (images : list Image) (objects : list ObjectInfo)
    (missing : list MissingCfi) : M (list ObjectInfo * list MissingCfi) :=
  match images with
  | [] => MOk (objects, missing)
  | image :: images =>
      match parse (im_bytes image) (im_range image) with
      | MOk object => parse_images images (objects ++ [object]) missing
      | MErr e => parse_images images objects (missing ++ [parse_failure image e])
      | MPanic => MPanic
      | MFuel => MFuel
      end
  end.

Fixpoint unwind_lwps (fuel : nat) (u : Unwinder) (l : list LwpInfo)
    (stacks : gmap Z Backtrace) : M (gmap Z Backtrace) :=
  match l with
  | [] => MOk stacks
  | lwp :: l =>
      backtrace ← unwind_stack u fuel (regs lwp) 64;
      unwind_lwps fuel u l (<[tid lwp := backtrace]> stacks)
  end.

Definition load_frames (fuel : nat) : M Unwound :=
  m ← context "failed to retrieve memory mappings from the target" (lift (mappings target));
  '(images, missing) ← load_images m;
  '(objects, missing) ← parse_images images [] missing;
  let unwinder := mkUnwinder objects m missing in
  l ← lift (lwps target);
  stacks ← unwind_lwps fuel unwinder l ∅;
  MOk (mkUnwound stacks missing).
End target.
End gimli.
