(* ===== verification/UnwindFacts.v ===== *)
(** The unwinder's walk: how many frames it gives and what is true of each, what
    a frame-pointer pop and a CFI pop restore, and that a walk returns. *)

From S2P Require Import Prelude Text Target Snapshot Unwind.

Local Open Scope Z_scope.

(** ** Lemmas: the monad *)

Lemma M_bind_eq {A B} (f : A → M B) m :
  m ≫= f = match m with MOk a => f a | MErr e => MErr e | MPanic => MPanic
                      | MFuel => MFuel end.
Proof. done. Qed.

Lemma M_bind_MOk {A B} (f : A → M B) m b :
  m ≫= f = MOk b ↔ ∃ a, m = MOk a ∧ f a = MOk b.
Proof. rewrite M_bind_eq. destruct m; naive_solver. Qed.

(** A computation that returns, with a value or an error. *)
Definition returns {A} (m : M A) : Prop :=
  match m with MOk _ | MErr _ => True | MPanic | MFuel => False end.

Lemma returns_bind {A B} (f : A → M B) m :
  returns m → (∀ a, m = MOk a → returns (f a)) → returns (m ≫= f).
Proof. rewrite M_bind_eq. destruct m; simpl; auto. Qed.

Lemma returns_lift {A} (r : Result A) : returns (lift r).
Proof. by destruct r. Qed.
Lemma returns_fallible {A} (r : Fallible A) : returns (of_fallible r).
Proof. by destruct r. Qed.
Lemma returns_context {A} c (m : M A) : returns m → returns (context c m).
Proof. by destruct m. Qed.

Create HintDb unwind.
#[export] Hint Resolve returns_lift returns_fallible returns_context : unwind.

(** ** Lemmas: registers *)

Lemma Regs_index_ok rg reg : 0 <= reg <= 15 → ∃ v, Regs_index rg reg = Ret v.
Proof.
  intros Hr. assert (reg ∈ z_range 0 16) as Hin by (apply elem_of_z_range; lia).
  repeat (apply elem_of_cons in Hin as [->|Hin]; [by eexists|]). by apply elem_of_nil in Hin.
Qed.

Lemma Regs_index_mut_ok rg reg v : 0 <= reg <= 15 → ∃ rg', Regs_index_mut rg reg v = Ret rg'.
Proof.
  intros Hr. unfold Regs_index_mut.
  rewrite (proj2 (Z.leb_le 0 reg)), (proj2 (Z.leb_le reg 15)) by lia. by eexists.
Qed.

(** One write leaves the other registers alone. *)
Lemma Regs_index_mut_eq rg rg' reg other v :
  Regs_index_mut rg reg v = Ret rg' →
  Regs_index rg' other = (if other =? reg then Ret v else Regs_index rg other).
Proof.
  unfold Regs_index_mut. destruct (_ && _) eqn:E; [|done]. zb. intros [= <-].
  destruct (other =? reg) eqn:Eo; zb.
  - subst. assert (reg ∈ z_range 0 16) as Hin by (apply elem_of_z_range; lia).
    repeat (apply elem_of_cons in Hin as [->|Hin]; [done|]). by apply elem_of_nil in Hin.
  - assert (∀ k old, k = other → (if reg =? k then v else old) = old) as Hsel.
    { intros k old ->. rewrite (proj2 (Z.eqb_neq _ _)); [done|congruence]. }
    unfold Regs_index.
    repeat (case_match; simpl; try (rewrite Hsel by done); try done).
Qed.

Lemma Regs_index_set_rip rg v reg : Regs_index (set_rip rg v) reg = Regs_index rg reg.
Proof. unfold Regs_index. by repeat case_match. Qed.

Lemma Regs_index_set_rsp rg v reg :
  Regs_index (set_rsp rg v) reg = if reg =? RSP then Ret v else Regs_index rg reg.
Proof. unfold Regs_index, RSP. by repeat case_match. Qed.

(** ** Parsing an object *)

Section parse.
Context `{Gimli}.

Lemma context_MOk {A} c (m : M A) a : context c m = MOk a → m = MOk a.
Proof. by destruct m. Qed.
Lemma of_fallible_MOk {A} (m : Fallible A) a : of_fallible m = MOk a → m = FOk a.
Proof. destruct m; simpl; congruence. Qed.

Lemma parse_headers_returns bytes : returns (parse_headers bytes).
Proof.
  unfold parse_headers, ok_or.
  repeat first [ apply returns_bind; [solve [auto with unwind | by case_match]|intros ? _]
               | case_match | done ].
Qed.

Lemma slice_range_Panic {A} (l : list A) a b :
  slice_range l a b = Panic ↔ b < a ∨ Z.of_nat (length l) < b.
Proof.
  unfold slice_range. destruct (Z.leb_spec a b), (Z.leb_spec b (Z.of_nat (length l)));
    simpl; split; (done || lia || (intros [?|?]; lia) || auto).
Qed.

(** The offset of the unwind header in the image, and whether adding its size
    wraps back inside the image. *)
Definition header_offset (text eh : ProgramHeader) : Z := u64_sub (p_vaddr eh) (p_vaddr text).

Lemma parse_tables_panic bytes rng text eh :
  0 <= p_memsz eh < W64 →
  parse_tables bytes rng text eh = MPanic ↔
  W64 <= header_offset text eh + p_memsz eh <= W64 + Z.of_nat (length bytes).
Proof.
  intros Hm. unfold parse_tables. cbv zeta. fold (header_offset text eh).
  set (off := header_offset text eh). set (len := Z.of_nat (length bytes)).
  assert (0 <= off < W64) as Hoff by (apply Z.mod_pos_bound; done).
  set (sum := u64_add off (p_memsz eh)).
  assert (sum = if decide (off + p_memsz eh < W64) then off + p_memsz eh
                else off + p_memsz eh - W64) as Hsum.
  { unfold sum, u64_add. case_decide; [by rewrite Z.mod_small by lia|].
    rewrite <- (Z_mod_plus_full _ (-1)). rewrite Z.mod_small; lia. }
  case_decide as Hd.
  - split; [|lia]. destruct (Z.ltb_spec len sum); [done|].
    destruct (slice_range bytes off sum) as [s|] eqn:E; [|apply slice_range_Panic in E; lia].
    simpl of_outcome. rewrite M_bind_eq. cbv beta iota.
    match goal with |- context [hdr_parse s ?b 8] => destruct (hdr_parse s b 8) as [h|]; [|done] end.
    simpl of_fallible. rewrite M_bind_eq. cbv beta iota. destruct (negb (has_table h)); [done|].
    destruct (Z.leb_spec len (u64_sub (eh_frame_pointer h) (r_start rng))); [done|].
    destruct (slice_range bytes (u64_sub (eh_frame_pointer h) (r_start rng)) len) eqn:E'; [done|].
    apply slice_range_Panic in E'. lia.
  - destruct (Z.ltb_spec len sum); [split; [done|lia]|].
    assert (slice_range bytes off sum = Panic) as -> by (apply slice_range_Panic; lia).
    split; [lia|done].
Qed.

Lemma parse_has_table bytes rng o :
  parse bytes rng = MOk o → has_table (eh_frame_hdr o) = true.
Proof.
  unfold parse. intros ([text eh] & _ & Hp)%M_bind_MOk. unfold parse_tables in Hp.
  cbv zeta in Hp. destruct (_ <? _); [done|]. apply M_bind_MOk in Hp as (s & _ & Hp).
  apply M_bind_MOk in Hp as (h & _ & Hp). destruct (has_table h) eqn:E; [|done].
  simpl in Hp. destruct (_ <=? _); [done|]. apply M_bind_MOk in Hp as (e & _ & [= <-]). done.
Qed.
End parse.

Section unwind.
Context `{Gimli} `{Target T} (target : T) (u : Unwinder).

(** ** The frame pointer *)

(** [g] is the caller's registers the frame pointer of [f] leads to: the return
    address and the saved frame pointer are the words it points at, the
    callee-saved registers are kept and the rest forgotten. *)
Record fp_caller (f g : Regs) : Prop := {
  fp_live : rip f ≠ 0;
  fp_rip : read_u64 target (u64_add (rbp f) 8) = Ok (rip g);
  fp_rbp : read_u64 target (rbp f) = Ok (rbp g);
  fp_rsp : rsp g = u64_add (rbp f) 16;
  fp_kept : rbx g = rbx f ∧ r12 g = r12 f ∧ r13 g = r13 f ∧ r14 g = r14 f ∧ r15 g = r15 f;
  fp_zeroed : ∀ reg, reg ∈ REGS → reg ≠ RSP → is_callee_saved reg = false →
    Regs_index g reg = Ret 0
}.

Definition callee_saved_only (f : Regs) : Regs :=
  {| r15 := r15 f; r14 := r14 f; r13 := r13 f; r12 := r12 f; r11 := 0; r10 := 0;
     r9 := 0; r8 := 0; rdi := 0; rsi := 0; rbp := rbp f; rbx := rbx f; rdx := 0;
     rcx := 0; rax := 0; trapno := trapno f; err := err f; rip := rip f; cs := cs f;
     rfl := rfl f; rsp := 0; ss := ss f; fs := fs f; gs := gs f; es := es f; ds := ds f;
     fsbase := fsbase f; gsbase := gsbase f |}.

Lemma zero_caller_saved_REGS f : zero_caller_saved REGS f = Ret (callee_saved_only f).
Proof. destruct f. vm_compute. reflexivity. Qed.

Lemma ok_Some {A} (r : Result A) a : ok r = Some a → r = Ok a.
Proof. destruct r; simpl; congruence. Qed.

Lemma pop_frame_with_frame_pointer_ok f :
  ∃ o, pop_frame_with_frame_pointer target f = Ret o ∧
    (∀ g, o = Some g → fp_caller f g).
Proof.
  unfold pop_frame_with_frame_pointer. destruct (Z.eqb_spec (rip f) 0); [by eexists|].
  rewrite zero_caller_saved_REGS, outcome_bind_eq.
  destruct (ok (read_u64 target (u64_add (rbp f) 8))) as [ret|] eqn:E1; [|by eexists].
  destruct (ok (read_u64 target (rbp f))) as [saved|] eqn:E2; [|by eexists].
  apply ok_Some in E1, E2. eexists. split; [reflexivity|]. intros g [= <-].
  split; cbn [rip rbp rsp rbx r12 r13 r14 r15 set_rsp set_rbp set_rip callee_saved_only];
    auto. intros reg Hreg Hne Hcs.
  rewrite Regs_index_set_rsp, (proj2 (Z.eqb_neq _ _)) by done.
  repeat (apply elem_of_cons in Hreg as [->|Hreg]; [done|]). by apply elem_of_nil in Hreg.
Qed.

(** What popping a frame without CFI gives. *)
Lemma pop_frame_without_cfi_ok pc f :
  ∃ p, pop_frame_without_cfi target u pc f = Ret p ∧
    match p with
    | PFrame g => heuristic g = true ∧ interrupted g = false ∧ trampoline g = false ∧
        Unwind.pc g = rip (fregs g) ∧ u_is_text u (Unwind.pc g) = true ∧
        symbol g = symbol_at target (Unwind.pc g) false ∧ fp_caller f (fregs g)
    | End => False
    | Lost why => why = lost_at u pc
    end.
Proof.
  unfold pop_frame_without_cfi.
  destruct (pop_frame_with_frame_pointer_ok f) as (o & -> & Ho). rewrite outcome_bind_eq.
  eexists. split; [reflexivity|]. destruct o as [g|]; [|done].
  destruct (u_is_text u (rip g)) eqn:E; [|done]. simpl. auto 10.
Qed.

(** ** CFI *)

Lemma restore_all_spec fuel l rg cfa row enc o prev next :
  NoDup l → restore_all target fuel l rg cfa row enc o prev = MOk next →
  rip next = rip prev ∧
  (∀ reg, reg ∉ l → Regs_index next reg = Regs_index prev reg) ∧
  (∀ reg, reg ∈ l → ∃ v, restore_register target fuel reg rg cfa row enc o = MOk v ∧
     Regs_index next reg = match v with Some v => Ret v | None => Regs_index prev reg end).
Proof.
  intros Hnd. revert prev. induction Hnd as [|reg l Hni _ IH]; intros prev; cbn [restore_all].
  { intros [= <-]. split_and!; [done..|]. by intros reg ?%elem_of_nil. }
  intros (v & Hv & (prev' & Hp & Hrest)%M_bind_MOk)%M_bind_MOk.
  destruct (IH _ Hrest) as (Hrip & Hout & Hin). clear IH.
  assert (rip prev' = rip prev ∧ ∀ other, Regs_index prev' other =
    if other =? reg then match v with Some v => Ret v | None => Regs_index prev reg end
    else Regs_index prev other) as [Hrip' Hprev'].
  { destruct v as [v|].
    - destruct (Regs_index_mut prev reg v) as [p|] eqn:E; [|done]. injection Hp as <-.
      split; [|intros other; by eapply Regs_index_mut_eq].
      unfold Regs_index_mut in E. destruct (_ && _); [|done]. by injection E as <-.
    - injection Hp as <-. split; [done|]. intros other. by destruct (Z.eqb_spec other reg) as [->|]. }
  split; [congruence|]. split.
  - intros other Ho. rewrite Hout by set_solver. rewrite Hprev'.
    rewrite (proj2 (Z.eqb_neq _ _)); [done|set_solver].
  - intros other [->|Ho]%elem_of_cons.
    + exists v. split; [done|]. rewrite Hout, Hprev', Z.eqb_refl by done. done.
    + destruct (Hin other Ho) as (w & Hw & ->). exists w. split; [done|].
      destruct w; [done|]. rewrite Hprev', (proj2 (Z.eqb_neq _ _)); [done|]. by intros ->.
Qed.

Lemma offset_u64_eq a off : offset_u64 a off = (a + off) `mod` W64.
Proof.
  unfold offset_u64, as_i64. destruct (a <? _); [done|].
  rewrite <- (Z_mod_plus_full (a - W64 + off) 1). f_equal. lia.
Qed.

Lemma restore_offset fuel reg rg cfa row enc o v off :
  row_register row reg = Some (Offset off) →
  restore_register target fuel reg rg cfa row enc o = MOk (Some v) →
  read_u64 target ((cfa + off) `mod` W64) = Ok v.
Proof.
  intros Hoff. unfold restore_register. rewrite Hoff. simpl. rewrite offset_u64_eq.
  destruct (read_u64 target _); [|done]. by intros [= <-].
Qed.

Lemma REGS_NoDup : NoDup REGS.
Proof. apply (bool_decide_unpack _). vm_compute. done. Qed.

(** [g] is the frame the CFI of [pc] pops a frame with registers [f] to. *)
Record cfi_caller (fuel : nat) (pc : Z) (f : Regs) (o : ObjectInfo) (g : Frame) : Prop := {
  cc_pc : Unwind.pc g = rip (fregs g);
  cc_found : ∃ fde row cfa,
    fde_for_address (eh_frame_hdr o) (eh_frame o) (bases o) pc = FdeOk fde ∧
    unwind_info_for_address fde (eh_frame o) (bases o) pc = FOk row ∧
    evaluate_cfa target fuel f (row_cfa row) (cie_encoding fde) o = MOk cfa ∧
    interrupted g = is_signal_trampoline fde ∧
    rsp (fregs g) = cfa ∧
    restore_register target fuel RIP f cfa row (cie_encoding fde) o
      = MOk (Some (rip (fregs g))) ∧
    ∀ reg, reg ∈ REGS → reg ≠ RSP →
      ∃ v, restore_register target fuel reg f cfa row (cie_encoding fde) o = MOk v ∧
        Regs_index (fregs g) reg = Ret (default 0 v)
}.

Lemma unwind_frame_with_cfi_PFrame fuel pc f object g :
  unwind_frame_with_cfi target u fuel pc f object = MOk (PFrame g) →
  trampoline g = false ∧ symbol g = symbol_at target (Unwind.pc g) (interrupted g) ∧
  Unwind.pc g = rip (fregs g) ∧
  if heuristic g then
    interrupted g = false ∧ u_is_text u (Unwind.pc g) = true ∧ fp_caller f (fregs g)
  else ∃ o, object = Some o ∧ cfi_caller fuel pc f o g.
Proof.
  unfold unwind_frame_with_cfi.
  assert (of_outcome (pop_frame_without_cfi target u pc f) = MOk (PFrame g) →
    trampoline g = false ∧ symbol g = symbol_at target (Unwind.pc g) (interrupted g) ∧
    Unwind.pc g = rip (fregs g) ∧ if heuristic g then
    interrupted g = false ∧ u_is_text u (Unwind.pc g) = true ∧ fp_caller f (fregs g)
    else ∃ o, object = Some o ∧ cfi_caller fuel pc f o g) as Hfp.
  { destruct (pop_frame_without_cfi_ok pc f) as (p & -> & Hp). intros [= ->].
    destruct Hp as (Hh & Hi & Ht & Hpc & Htx & Hs & Hc). rewrite Hh, Hi.
    split_and!; done. }
  destruct object as [o|]; [|exact Hfp]. destruct (negb _); [done|].
  destruct (fde_for_address _ _ _ _) as [fde| |e] eqn:Ef; [|exact Hfp|done]. clear Hfp.
  rewrite M_bind_MOk. intros (row & Hrow & Hr). cbv zeta in Hr.
  apply M_bind_MOk in Hr as (cfa & Hcfa & Hr). apply M_bind_MOk in Hr as (prev & Hprev & Hr).
  apply M_bind_MOk in Hr as (ret & Hret & Hr).
  destruct (unwind_info_for_address _ _ _ _) as [row'|] eqn:Erow; [|done].
  injection Hrow as ->.
  destruct ret as [ret|]; [|done]. injection Hr as <-.
  cbn [trampoline symbol Unwind.pc interrupted heuristic fregs].
  split; [done|]. split; [done|]. split; [done|]. exists o. split; [done|].
  split; [done|]. exists fde, row, cfa. split_and!; try done.
  intros reg Hreg Hne. apply restore_all_spec in Hprev as (_ & _ & Hin); [|apply REGS_NoDup].
  destruct (Hin reg Hreg) as (v & Hv & Hix). exists v. split; [done|]. cbn [fregs].
  rewrite Regs_index_set_rip, Regs_index_set_rsp, (proj2 (Z.eqb_neq _ _)), Hix by done.
  destruct v; [done|].
  repeat (apply elem_of_cons in Hreg as [->|Hreg]; [done|]). by apply elem_of_nil in Hreg.
Qed.

(** ** The walk *)

Definition adjacent {A} (R : A → A → Prop) (l : list A) : Prop :=
  ∀ i x y, l !! i = Some x → l !! S i = Some y → R x y.

Lemma adjacent_snoc {A} (R : A → A → Prop) l x y :
  adjacent R (l ++ [x]) → R x y → adjacent R ((l ++ [x]) ++ [y]).
Proof.
  intros Hl Hxy i a b Ha Hb. pose proof (lookup_lt_Some _ _ _ Hb) as Hlt.
  rewrite !length_app in Hlt. simpl in Hlt. destruct (decide (S i = length l + 1)%nat) as [E|].
  - rewrite lookup_app_l, lookup_app_r in Ha by (rewrite ?length_app; simpl; lia).
    rewrite lookup_app_r in Hb by (rewrite length_app; simpl; lia).
    rewrite length_app in Hb. simpl in Hb. replace (S i - (length l + 1))%nat with 0%nat in Hb by lia.
    replace (i - length l)%nat with 0%nat in Ha by lia. simpl in *. congruence.
  - rewrite lookup_app_l in Ha, Hb by (rewrite length_app; simpl; lia). by eapply Hl.
Qed.

Lemma adjacent_last {A} (R : A → A → Prop) l x x' :
  adjacent R (l ++ [x]) → (∀ w, R w x → R w x') → adjacent R (l ++ [x']).
Proof.
  intros Hl Hx i a b Ha Hb. pose proof (lookup_lt_Some _ _ _ Hb) as Hlt.
  rewrite length_app in Hlt. simpl in Hlt. rewrite lookup_app_l in Ha by lia.
  assert ((l ++ [x]) !! i = Some a) as Ha' by (by rewrite lookup_app_l by lia).
  destruct (decide (S i = length l)) as [E|].
  - rewrite lookup_app_r, E, Nat.sub_diag in Hb by lia. injection Hb as <-. apply Hx.
    eapply (Hl i); [done|]. by rewrite lookup_app_r, E, Nat.sub_diag by lia.
  - rewrite lookup_app_l in Hb by lia. eapply (Hl i); [done|]. by rewrite lookup_app_l by lia.
Qed.

Definition sane_frame (f : Frame) : Prop :=
  Unwind.pc f = rip (fregs f) ∧
  symbol f = lookup_symbol_by_addr target (frame_lookup_pc f).

(** What a frame [f] and its caller [g] are to each other. *)
Definition link (f g : Frame) : Prop :=
  interrupted g = trampoline f || trampoline g ∧
  (heuristic g = true → u_is_text u (Unwind.pc g) = true ∧ fp_caller (fregs f) (fregs g)).

(** The frames of a walk of [rg0] so far, ending in a frame with registers
    [rg]. *)
Record walked (rg0 : Regs) (l : list Frame) (rg : Regs) : Prop := {
  w_last : ∃ l0 f, l = l0 ++ [f] ∧ trampoline f = false ∧ fregs f = rg;
  w_sane : Forall sane_frame l;
  w_linked : adjacent link l;
  w_head : ∃ f0, head l = Some f0 ∧ interrupted f0 = true ∧ heuristic f0 = false ∧
    fregs f0 = rg0
}.

Lemma update_last_snoc g l f : update_last g (l ++ [f]) = l ++ [g f].
Proof.
  unfold update_last. rewrite length_app. simpl.
  replace (length l + 1 - 1)%nat with (length l + 0)%nat by lia.
  by rewrite alter_app_r.
Qed.

Lemma walked_push rg0 l rg g :
  walked rg0 l rg →
  trampoline g = false → symbol g = symbol_at target (Unwind.pc g) (interrupted g) →
  Unwind.pc g = rip (fregs g) →
  (heuristic g = true → u_is_text u (Unwind.pc g) = true ∧ fp_caller rg (fregs g)) →
  walked rg0 ((if interrupted g then update_last (mark_trampoline target) l else l) ++ [g])
    (fregs g).
Proof.
  intros [(l0 & f & -> & Ht & <-) Hs Hl (f0 & Hhd & Hi0 & Hh0 & Hr0)] Hg Hsym Hpc Hheur.
  assert (sane_frame g) as Hsg by (split; done).
  destruct (interrupted g) eqn:Hi.
  - rewrite update_last_snoc. apply Forall_app in Hs as [Hs0 [Hf _]%Forall_cons]. split.
    + eexists _, g. done.
    + rewrite !Forall_app, !Forall_singleton. split_and!; [done| |done].
      destruct Hf as [Hp _]. split; [done|]. reflexivity.
    + apply adjacent_snoc; [|split; [by rewrite Hi|exact Hheur]].
      eapply adjacent_last; [done|]. intros w [Hw1 Hw2]. split; [|exact Hw2].
      simpl. by rewrite orb_true_r.
    + destruct l0 as [|x l0]; simpl in *; simplify_eq; eexists; (split; [reflexivity|]); auto.
  - split.
    + eexists _, g. done.
    + by apply Forall_app, conj; [|apply Forall_singleton].
    + apply adjacent_snoc; [done|]. split; [|exact Hheur]. by rewrite Ht, Hg, Hi.
    + exists f0. destruct l0; simpl in *; simplify_eq; auto.
Qed.

Lemma walked_initial rg0 :
  let '(l, rg) := initial_frames target u rg0 in
  walked rg0 l rg ∧ (length l <= 2)%nat.
Proof.
  unfold initial_frames. set (f0 := mkFrame _ _ _ _ _ _).
  assert (walked rg0 [f0] rg0) as Hw0.
  { split; [by exists [], f0| | |by exists f0].
    - by apply Forall_singleton.
    - intros [|i] x y Hx Hy; done. }
  destruct (negb _); [|split; [done|simpl; lia]].
  destruct (read_u64 target (rsp rg0)) as [ret|]; [|split; [done|simpl; lia]].
  destruct (u_is_text u ret); [|split; [done|simpl; lia]]. split; [|simpl; lia].
  set (rg := set_rsp _ _). set (f1 := mkFrame ret _ _ _ _ _).
  apply (walked_push rg0 [f0] rg0 f1 Hw0); done.
Qed.

(** Why a walk ended where it did. *)
Inductive stopped (fuel : nat) (l : list Frame) : option string → Prop :=
  | stopped_unmapped f :
      last l = Some f → contains_addr (u_mappings u) (Unwind.pc f) = false →
      stopped fuel l None
  | stopped_bottom f :
      last l = Some f →
      unwind_frame_with_cfi target u fuel (frame_lookup_pc f) (fregs f)
        (object_at u (frame_lookup_pc f)) = MOk End →
      stopped fuel l None
  | stopped_lost f why :
      last l = Some f →
      unwind_frame_with_cfi target u fuel (frame_lookup_pc f) (fregs f)
        (object_at u (frame_lookup_pc f)) = MOk (Lost why) →
      stopped fuel l (Some why)
  | stopped_error f e :
      last l = Some f →
      unwind_frame_with_cfi target u fuel (frame_lookup_pc f) (fregs f)
        (object_at u (frame_lookup_pc f)) = MErr e →
      stopped fuel l (Some e).

Lemma unwind_loop_walked rg0 n fuel l rg bt :
  walked rg0 l rg → unwind_loop target u n fuel l rg = MOk bt →
  (∃ rg', walked rg0 (frames bt) rg') ∧
  (length l <= length (frames bt) <= length l + n)%nat ∧
  (stopped fuel (frames bt) (truncated bt) ∨
   truncated bt = None ∧ length (frames bt) = (length l + n)%nat).
Proof.
  revert l rg. induction n as [|n IH]; intros l rg Hw; cbn [unwind_loop].
  { intros [= <-]. simpl. split; [eauto|]. split; [lia|]. right. split; [done|lia]. }
  destruct (w_last _ _ _ Hw) as (l0 & f & Hl & Ht & Hrg).
  assert (last l = Some f) as Hlast by (rewrite Hl; apply last_snoc).
  assert (Unwind.pc f = rip rg) as Hpc.
  { pose proof (w_sane _ _ _ Hw) as Hs. rewrite Hl in Hs.
    apply Forall_app in Hs as [_ [[Hp _] _]%Forall_cons]. congruence. }
  destruct (contains_addr (u_mappings u) (rip rg)) eqn:Hc; simpl negb; cbn iota.
  2:{ intros [= <-]. simpl. split; [eauto|]. split; [lia|]. left.
      eapply stopped_unmapped; [done|]. by rewrite Hpc. }
  rewrite Hlast. simpl or_panic. simpl of_outcome. rewrite M_bind_eq.
  destruct (unwind_frame_with_cfi _ _ _ _ _ _) as [[g| |why]|e| |] eqn:E; intros Hr; try done.
  - pose proof (unwind_frame_with_cfi_PFrame _ _ _ _ _ E) as (Hg & Hsym & Hgpc & Hh).
    assert (heuristic g = true → u_is_text u (Unwind.pc g) = true ∧ fp_caller rg (fregs g))
      as Hheur. { intros Hh'. rewrite Hh' in Hh. tauto. }
    destruct (IH _ _ (walked_push rg0 l rg g Hw Hg Hsym Hgpc Hheur) Hr) as (Hw' & Hlen & Hst).
    assert (length ((if interrupted g then update_last (mark_trampoline target) l else l) ++ [g])
              = S (length l)) as El.
    { rewrite length_app. unfold update_last. destruct (interrupted g);
        rewrite ?length_alter; simpl; lia. }
    rewrite El in Hlen, Hst. split; [done|]. split; [lia|].
    destruct Hst as [?|[? ?]]; [by left|right; split; [done|lia]].
  - injection Hr as <-. simpl. split; [eauto|]. split; [lia|]. left.
    eapply stopped_bottom; [done|]. by rewrite Hrg.
  - injection Hr as <-. simpl. split; [eauto|]. split; [lia|]. left.
    eapply stopped_lost; [done|]. by rewrite Hrg.
  - injection Hr as <-. simpl. split; [eauto|]. split; [lia|]. left.
    eapply stopped_error; [done|]. by rewrite Hrg.
Qed.

Lemma unwind_stack_walked fuel rg0 n bt :
  unwind_stack target u fuel rg0 n = MOk bt →
  (∃ rg, walked rg0 (frames bt) rg) ∧
  (1 <= length (frames bt) <= n + 2)%nat ∧
  (stopped fuel (frames bt) (truncated bt) ∨
   truncated bt = None ∧ (n < length (frames bt))%nat).
Proof.
  unfold unwind_stack. pose proof (walked_initial rg0) as Hi.
  destruct (initial_frames target u rg0) as [l rg]. destruct Hi as [Hw Hlen].
  intros Hr. destruct (unwind_loop_walked _ _ _ _ _ _ Hw Hr) as (H1 & H2 & H3).
  assert (1 <= length l)%nat.
  { destruct (w_last _ _ _ Hw) as (l0 & f & -> & _). rewrite length_app. simpl. lia. }
  split; [done|]. split; [lia|]. destruct H3 as [?|[? ?]]; [by left|right; split; [done|lia]].
Qed.

(** ** Returning

    What the expressions and rows of a target's CFI are for a walk to return:
    every conversation with the evaluator ends within [fuel] turns (an
    expression without a loop), and no rule names a register past r15 as a
    source, or the return address as the same value. *)
Definition asks_known (r : EvaluationResult) : Prop :=
  match r with RequiresRegister reg => 0 <= reg <= 15 | _ => True end.

Record plain_cfi (turns : Evaluation → nat) (fuel : nat) : Prop := {
  pl_start : ∀ e enc r ev, evaluate (evaluation e enc) = FOk (r, ev) →
    asks_known r ∧ (turns ev < fuel)%nat;
  pl_register : ∀ ev v r ev', resume_with_register ev v = FOk (r, ev') →
    asks_known r ∧ (turns ev' < turns ev)%nat;
  pl_memory : ∀ ev v r ev', resume_with_memory ev v = FOk (r, ev') →
    asks_known r ∧ (turns ev' < turns ev)%nat;
  pl_relocated : ∀ ev a r ev', resume_with_relocated_address ev a = FOk (r, ev') →
    asks_known r ∧ (turns ev' < turns ev)%nat;
  pl_cfa : ∀ ev a r ev', resume_with_call_frame_cfa ev a = FOk (r, ev') →
    asks_known r ∧ (turns ev' < turns ev)%nat;
  pl_rows : ∀ fde sec b pc row, unwind_info_for_address fde sec b pc = FOk row →
    (∀ reg off, row_cfa row = RegisterAndOffset reg off → 0 <= reg <= 15) ∧
    (∀ reg other, row_register row reg = Some (Register other) → 0 <= other <= 15) ∧
    row_register row RIP ≠ Some SameValue
}.

Section returning.
Context (turns : Evaluation → nat) (fuel : nat) (Hplain : plain_cfi turns fuel).

Lemma returns_read_sized a n : returns (read_sized target a n).
Proof. unfold read_sized. repeat case_match; auto with unwind; done. Qed.

Lemma returns_index rg reg : 0 <= reg <= 15 → returns (of_outcome (Regs_index rg reg)).
Proof. intros Hr. by destruct (Regs_index_ok rg reg Hr) as [v ->]. Qed.
#[local] Hint Resolve returns_read_sized returns_index : unwind.

(** One resume of the evaluator, and the rest of the loop. *)
Lemma returns_resume c (m : Fallible (EvaluationResult * Evaluation)) k rg cfa n :
  (∀ r ev, asks_known r → (turns ev < n)%nat → returns (eval_loop target n rg cfa r ev)) →
  (∀ r ev, m = FOk (r, ev) → asks_known r ∧ (turns ev < k)%nat) → (k <= n)%nat →
  returns ('(r, ev) ← context c (of_fallible m); eval_loop target n rg cfa r ev).
Proof.
  intros IH Hm Hk. apply returns_bind; [auto with unwind|].
  intros [r ev] [= ->%context_MOk%of_fallible_MOk]. cbv beta iota.
  destruct (Hm r ev eq_refl). apply IH; [done|lia].
Qed.

Lemma eval_loop_returns n rg cfa r ev :
  asks_known r → (turns ev < n)%nat → returns (eval_loop target n rg cfa r ev).
Proof.
  revert r ev. induction n as [|n IH]; intros r ev Hr Hlt; [lia|]. cbn [eval_loop].
  destruct r as [|address size|register| | |addr|debug]; try done.
  - apply returns_bind; [auto with unwind|]. intros v _.
    eapply returns_resume; [exact IH|apply (pl_memory _ _ Hplain)|lia].
  - apply returns_bind; [auto with unwind|]. intros v _.
    eapply returns_resume; [exact IH|apply (pl_register _ _ Hplain)|lia].
  - destruct cfa as [cfa|]; [|done].
    eapply returns_resume; [exact IH|apply (pl_cfa _ _ Hplain)|lia].
  - eapply returns_resume; [exact IH|apply (pl_relocated _ _ Hplain)|lia].
Qed.

Lemma evaluate_expr_returns e enc rg cfa o : returns (evaluate_expr target fuel e enc rg cfa o).
Proof.
  unfold evaluate_expr. apply returns_bind; [auto with unwind|]. intros ex _.
  apply returns_bind; [auto with unwind|].
  intros [r ev] [= Hr%context_MOk%of_fallible_MOk]. cbv beta iota.
  apply (pl_start _ _ Hplain) in Hr as [Hr Hlt].
  apply returns_bind; [by apply eval_loop_returns|]. intros ev' _.
  by repeat case_match.
Qed.
#[local] Hint Resolve evaluate_expr_returns : unwind.

Section row.
Context (fde : FrameDescriptionEntry) (sec : EhFrame) (b : BaseAddresses) (at_ : Z)
  (row : UnwindTableRow) (Hrow : unwind_info_for_address fde sec b at_ = FOk row).

Lemma restore_register_returns reg rg cfa enc o :
  0 <= reg <= 16 → returns (restore_register target fuel reg rg cfa row enc o).
Proof.
  intros Hreg. destruct (pl_rows _ _ Hplain _ _ _ _ _ Hrow) as (_ & Hother & Hrip).
  unfold restore_register. destruct (row_register row reg) as [rule|] eqn:E; simpl.
  2:{ destruct (is_callee_saved reg) eqn:Ecs; [|done].
      apply returns_bind; [|done]. apply returns_index.
      unfold is_callee_saved in Ecs. zb. lia. }
  destruct rule as [| |off|off|other|e|e|s]; try done.
  - destruct (is_callee_saved reg) eqn:Ecs; [|done].
    apply returns_bind; [|done]. apply returns_index. unfold is_callee_saved in Ecs. zb. lia.
  - apply returns_bind; [|done]. apply returns_index.
    destruct (decide (reg = 16)) as [->|]; [done|lia].
  - apply returns_bind; [auto with unwind|done].
  - apply returns_bind; [|done]. apply returns_index. by eapply Hother.
  - apply returns_bind; [auto with unwind|]. intros a _.
    apply returns_bind; [auto with unwind|done].
  - apply returns_bind; [auto with unwind|done].
Qed.

Lemma restore_all_returns l rg cfa enc o prev :
  Forall (λ reg, 0 <= reg <= 15) l →
  returns (restore_all target fuel l rg cfa row enc o prev).
Proof.
  intros Hl. revert prev. induction Hl as [|reg l Hreg _ IH]; intros prev; [done|].
  cbn [restore_all]. apply returns_bind; [apply restore_register_returns; lia|].
  intros v _. apply returns_bind; [|intros ? _; apply IH].
  destruct v as [v|]; [|done]. by destruct (Regs_index_mut_ok prev reg v Hreg) as [? ->].
Qed.
End row.

Lemma REGS_range : Forall (λ reg, 0 <= reg <= 15) REGS.
Proof. repeat (constructor; [vm_compute; split; congruence|]). constructor. Qed.

Lemma unwind_frame_with_cfi_returns pc rg object :
  (∀ o, object = Some o → has_table (eh_frame_hdr o) = true) →
  returns (unwind_frame_with_cfi target u fuel pc rg object).
Proof.
  intros Ho. unfold unwind_frame_with_cfi.
  assert (returns (of_outcome (pop_frame_without_cfi target u pc rg))) as Hfp
    by (by destruct (pop_frame_without_cfi_ok pc rg) as (p & -> & _)).
  destruct object as [o|]; [|done]. rewrite (Ho o eq_refl). simpl negb. cbn iota.
  destruct (fde_for_address _ _ _ _) as [fde| |e]; [|done|done].
  apply returns_bind; [auto with unwind|]. intros row Hrow%of_fallible_MOk. cbv zeta.
  apply returns_bind.
  { destruct (pl_rows _ _ Hplain _ _ _ _ _ Hrow) as (Hcfa & _).
    destruct (row_cfa row) as [reg off|e] eqn:E; simpl; [|auto with unwind].
    apply returns_bind; [|done]. apply returns_index. by eapply Hcfa. }
  intros cfa _. apply returns_bind; [by eapply restore_all_returns, REGS_range|].
  intros prev _. apply returns_bind; [eapply restore_register_returns; [done|unfold RIP; lia]|].
  intros [ret|] _; done.
Qed.

Lemma unwind_loop_returns rg0 n l rg :
  (∀ o, o ∈ objects u → has_table (eh_frame_hdr o) = true) →
  walked rg0 l rg → ∃ bt, unwind_loop target u n fuel l rg = MOk bt.
Proof.
  intros Ho. revert l rg. induction n as [|n IH]; intros l rg Hw; cbn [unwind_loop]; [by eexists|].
  destruct (negb _); [by eexists|].
  destruct (w_last _ _ _ Hw) as (l0 & f & Hl & Ht & Hrg).
  assert (last l = Some f) as -> by (rewrite Hl; apply last_snoc).
  simpl or_panic. simpl of_outcome. rewrite M_bind_eq.
  pose proof (unwind_frame_with_cfi_returns (frame_lookup_pc f) rg
    (object_at u (frame_lookup_pc f))) as Hret.
  destruct (unwind_frame_with_cfi _ _ _ _ _ _) as [[g| |why]|e| |] eqn:E;
    [|by eexists|by eexists|by eexists|exfalso; apply Hret; intros o Ho';
     unfold object_at in Ho'; apply find_first_Some in Ho' as [? _]; auto..].
  apply unwind_frame_with_cfi_PFrame in E as (Hg & Hsym & Hgpc & Hh).
  apply (IH _ _ (walked_push rg0 l rg g Hw Hg Hsym Hgpc
    ltac:(intros Hh'; rewrite Hh' in Hh; tauto))).
Qed.

Lemma unwind_stack_returns rg0 n :
  (∀ o, o ∈ objects u → has_table (eh_frame_hdr o) = true) →
  ∃ bt, unwind_stack target u fuel rg0 n = MOk bt.
Proof.
  intros Ho. unfold unwind_stack. pose proof (walked_initial rg0) as Hi.
  destruct (initial_frames target u rg0) as [l rg]. destruct Hi as [Hw _].
  by eapply unwind_loop_returns.
Qed.
End returning.

(** ** Every thread *)

Lemma unwind_lwps_spec fuel l st st' :
  unwind_lwps target fuel u l st = MOk st' →
  (∀ t, is_Some (st' !! t) ↔ is_Some (st !! t) ∨ t ∈ tid <$> l) ∧
  ∀ t bt, st' !! t = Some bt → st !! t = Some bt ∨
    ∃ lwp, lwp ∈ l ∧ tid lwp = t ∧ unwind_stack target u fuel (regs lwp) 64 = MOk bt.
Proof.
  revert st. induction l as [|lwp l IH]; intros st; cbn [unwind_lwps].
  { intros [= <-]. split; [|by left]. intros t. rewrite fmap_nil, elem_of_nil. tauto. }
  intros (bt & Hbt & Hr)%M_bind_MOk. destruct (IH _ Hr) as [Hdom Hall]. split.
  - intros t. rewrite Hdom, lookup_insert_is_Some', fmap_cons, elem_of_cons. naive_solver.
  - intros t bt' Ht. destruct (Hall t bt' Ht) as [Hins|(lwp' & Hin & ? & ?)].
    + apply lookup_insert_Some in Hins as [[<- <-]|[_ ?]]; [|by left].
      right. exists lwp. split; [left|done].
    + right. exists lwp'. split; [by right|done].
Qed.
End unwind.
