(* ===== verification/UnwindTheorems.v ===== *)
(** The unwinder's properties and their witnesses, on a small process: a leaf
    called by a function with a frame pointer, below a signal trampoline, with a
    hand-written table in place of an ELF image. *)

From S2P Require Import Prelude Text Target Snapshot SnapshotFacts Unwind UnwindFacts.

Local Open Scope Z_scope.

(** ** Copying a chunk *)

Lemma copy_at_ok bytes at_ chunk :
  0 <= at_ → at_ + Z.of_nat (length chunk) <= Z.of_nat (length bytes) →
  Z.of_nat (length bytes) < W64 →
  ∃ bytes', copy_at bytes at_ chunk = Ret bytes' ∧ length bytes' = length bytes ∧
    ∀ k, bytes' !! k =
      if bool_decide (Z.to_nat at_ <= k < Z.to_nat at_ + length chunk)%nat
      then chunk !! (k - Z.to_nat at_)%nat else bytes !! k.
Proof.
  intros H0 H1 H2. unfold copy_at. rewrite u64_add_small by (unfold is_u64; lia).
  rewrite (proj2 (Z.leb_le at_ _)), (proj2 (Z.leb_le (at_ + _) _)) by lia. simpl.
  set (n := Z.to_nat at_). replace (Z.to_nat (at_ + Z.of_nat (length chunk)))
    with (n + length chunk)%nat by (unfold n; lia).
  assert (n + length chunk <= length bytes)%nat as Hn by (unfold n; lia).
  eexists. split; [reflexivity|].
  assert (length (take n bytes) = n) as Ht by (rewrite length_take; lia). split.
  - rewrite !length_app, Ht, length_drop. lia.
  - intros k. case_bool_decide as Hk.
    + rewrite lookup_app_r, Ht by lia. by rewrite lookup_app_l by lia.
    + destruct (decide (k < n)%nat).
      * rewrite lookup_app_l by lia. by apply lookup_take_lt.
      * rewrite lookup_app_r, Ht by lia. rewrite lookup_app_r by lia. rewrite lookup_drop.
        f_equal. lia.
Qed.

Section images.
Context `{Target T} (target : T).

(** The target's memory, as its reads show it. *)
Context (mem : Z → option Byte.byte).
Context (Hread : ∀ a n bs k b, read_bytes target a n = Ok bs → bs !! k = Some b →
  mem (a + Z.of_nat k) = Some b).
Context (Hserve : ∀ a m, 0 <= m → 0 <= readable_len target a m <= m).

Section image.
Context (base : Z).

Definition zero_or_mem (bytes : list Byte.byte) : Prop :=
  ∀ k b, bytes !! k = Some b → b = Byte.x00 ∨ mem (base + Z.of_nat k) = Some b.

Definition holds_mem (bytes : list Byte.byte) (a : Z) : Prop :=
  ∃ b, bytes !! Z.to_nat (a - base) = Some b ∧ mem a = Some b.

(** [bytes'] is [bytes] with more of the memory in it. *)
Record grows (bytes bytes' : list Byte.byte) : Prop := {
  gr_length : length bytes' = length bytes;
  gr_zero : zero_or_mem bytes → zero_or_mem bytes';
  gr_mem : ∀ a, base <= a → holds_mem bytes a → holds_mem bytes' a
}.

Lemma grows_refl bytes : grows bytes bytes.
Proof. by split. Qed.
Lemma grows_trans b1 b2 b3 : grows b1 b2 → grows b2 b3 → grows b1 b3.
Proof. intros [L1 Z1 M1] [L2 Z2 M2]. split; [congruence|auto|auto]. Qed.

Definition run_in (len : Z) (r : Z * Z) : Prop :=
  base <= r.1 ∧ 0 < r.2 ∧ r.1 + r.2 <= base + len.

(** A served run. *)
Definition run_served (r : Z * Z) : bool :=
  match read_bytes target r.1 r.2 with Ok _ => true | Err _ => false end.

Lemma copy_run bytes addr run chunk :
  run_in (Z.of_nat (length bytes)) (addr, run) → base + Z.of_nat (length bytes) <= W64 →
  Z.of_nat (length bytes) < W64 → read_bytes target addr run = Ok chunk →
  ∃ bytes', copy_at bytes (u64_sub addr base) chunk = Ret bytes' ∧ grows bytes bytes' ∧
    ∀ a, addr <= a < addr + run → holds_mem bytes' a.
Proof.
  intros (Hr1 & Hr2 & Hr3) HW HW' Hc. simpl in *. pose proof (read_bytes_len _ _ _ _ Hc) as Hl.
  rewrite u64_sub_small by (unfold is_u64; lia).
  destruct (copy_at_ok bytes (addr - base) chunk) as (bytes' & Hcp & Hlen & Hlk); [lia..|].
  exists bytes'. split; [done|].
  assert (∀ k b, chunk !! k = Some b → mem (addr + Z.of_nat k) = Some b) as Hm by eauto.
  split; [split; [done| |]|].
  - intros Hz k b. rewrite Hlk. case_bool_decide as Hk; [|apply Hz]. intros Hb%Hm. right.
    rewrite <- Hb. f_equal. lia.
  - intros a Ha (b & Hb & Hmem). unfold holds_mem. rewrite Hlk. case_bool_decide as Hk; [|by exists b].
    destruct (lookup_lt_is_Some_2 chunk (Z.to_nat (a - base) - Z.to_nat (addr - base))) as [c Hc'];
      [lia|]. exists c. split; [done|]. apply Hm in Hc'. rewrite <- Hc'. f_equal. lia.
  - intros a Ha. unfold holds_mem. rewrite Hlk, bool_decide_true by lia.
    destruct (lookup_lt_is_Some_2 chunk (Z.to_nat (a - base) - Z.to_nat (addr - base))) as [c Hc'];
      [lia|]. exists c. split; [done|]. apply Hm in Hc'. rewrite <- Hc'. f_equal. lia.
Qed.

Lemma load_runs_ok runs bytes any :
  Forall (run_in (Z.of_nat (length bytes))) runs → base + Z.of_nat (length bytes) <= W64 →
  Z.of_nat (length bytes) < W64 →
  ∃ bytes', load_runs target base runs bytes any = Ret (bytes', any || existsb run_served runs) ∧
    grows bytes bytes' ∧
    ∀ r a, r ∈ runs → run_served r = true → r.1 <= a < r.1 + r.2 → holds_mem bytes' a.
Proof.
  intros Hr HW HW'. revert bytes any Hr HW HW'.
  induction runs as [|[addr run] runs IH]; intros bytes any Hr HW HW'.
  { exists bytes. simpl. rewrite orb_false_r. split; [done|]. split; [apply grows_refl|].
    intros r a ?%elem_of_nil. done. }
  apply Forall_cons in Hr as [Hr0 Hr]. cbn [load_runs existsb].
  unfold run_served at 1. cbn [fst snd]. destruct (read_bytes target addr run) as [chunk|e] eqn:E.
  - destruct (copy_run bytes addr run chunk) as (b1 & -> & Hg & Hm); [done..|].
    rewrite outcome_bind_eq. destruct (IH b1 true) as (b2 & -> & Hg2 & Hm2).
    { eapply Forall_impl; [exact Hr|]. by rewrite (gr_length _ _ Hg). }
    { by rewrite (gr_length _ _ Hg). } { by rewrite (gr_length _ _ Hg). }
    exists b2. rewrite orb_true_r. split; [done|]. split; [by eapply grows_trans|].
    intros r a [->|Hin]%elem_of_cons Hs Ha; [|by eapply Hm2].
    simpl in Ha. apply (gr_mem _ _ Hg2); [destruct Hr0; simpl in *; lia|]. by apply Hm.
  - destruct (IH bytes any Hr HW HW') as (b2 & -> & Hg2 & Hm2).
    exists b2. split; [done|]. split; [done|].
    intros r a [->|Hin]%elem_of_cons Hs Ha; [|by eapply Hm2].
    unfold run_served in Hs. cbn [fst snd] in Hs. by rewrite E in Hs.
Qed.
End image.

(** ** One object *)

Definition runs_of (o : LoadedObjectWithPath) : list (Z * Z) :=
  default [] (readable_runs (vaddr o) (size o) (readable_len target)).

(** Whether any of a part's bytes can be read at all. *)
Definition any_served (o : LoadedObjectWithPath) : bool := existsb run_served (runs_of o).

(** A mapping a process can have: inside the address space with a page to
    spare. *)
Definition mapped (o : LoadedObjectWithPath) : Prop :=
  0 <= vaddr o ∧ 0 <= size o ∧ vaddr o + size o < W64 ∧ size o + 4096 <= W64.

Lemma runs_of_ok o :
  mapped o → readable_runs (vaddr o) (size o) (readable_len target) = Some (runs_of o) ∧
  Forall (λ r : Z * Z, vaddr o <= r.1 ∧ 0 < r.2 ∧ r.1 + r.2 <= vaddr o + size o) (runs_of o).
Proof.
  intros (H1 & H2 & H3 & H4). unfold runs_of, readable_runs.
  destruct (readable_runs_from_ends (vaddr o) (size o) (readable_len target)
    ltac:(lia) ltac:(lia) ltac:(lia) Hserve (S (Z.to_nat (size o))) 0
    ltac:(lia) ltac:(lia)) as [runs Hr].
  rewrite Hr. simpl. split; [done|].
  pose proof (readable_runs_from_bounds (vaddr o) (size o) (readable_len target)
    ltac:(lia) ltac:(lia) ltac:(lia) Hserve (S (Z.to_nat (size o))) 0 runs
    ltac:(lia) Hr) as [_ Hall].
  by rewrite Z.add_0_r in Hall.
Qed.

Lemma obj_range_end o : mapped o → r_end (obj_range o) = vaddr o + size o.
Proof. intros (? & ? & ? & ?). simpl. unfold saturating_add. lia. Qed.

Lemma load_parts_ok base parts bytes any :
  base + Z.of_nat (length bytes) <= W64 → Z.of_nat (length bytes) < W64 →
  Forall (λ o, mapped o ∧ base <= vaddr o ∧
               vaddr o + size o <= base + Z.of_nat (length bytes)) parts →
  ∃ bytes', load_parts target base parts bytes any
      = MOk (bytes', any || existsb any_served parts) ∧
    grows base bytes bytes' ∧
    ∀ o r a, o ∈ parts → r ∈ runs_of o → run_served r = true → r.1 <= a < r.1 + r.2 →
      holds_mem base bytes' a.
Proof.
  intros HW HW' Hp. revert bytes any HW HW' Hp.
  induction parts as [|o parts IH]; intros bytes any HW HW' Hp.
  { exists bytes. simpl. rewrite orb_false_r. split; [done|]. split; [apply grows_refl|].
    intros o r a ?%elem_of_nil. done. }
  apply Forall_cons in Hp as [(Ho & Hlo & Hhi) Hp]. cbn [load_parts existsb].
  destruct (runs_of_ok o Ho) as [-> Hruns].
  destruct (load_runs_ok base (runs_of o) bytes any) as (b1 & -> & Hg & Hm); [|done..|].
  { eapply Forall_impl; [exact Hruns|]. intros r (Hr1 & Hr2 & Hr3). unfold run_in. lia. }
  simpl of_outcome. rewrite M_bind_eq. cbv beta iota. fold (any_served o).
  destruct (IH b1 (any || any_served o)) as (b2 & -> & Hg2 & Hm2);
    [by rewrite (gr_length _ _ _ Hg)..| |].
  { eapply Forall_impl; [exact Hp|]. by rewrite (gr_length _ _ _ Hg). }
  exists b2. rewrite orb_assoc. split; [done|]. split; [by eapply grows_trans|].
  intros o' r a [->|Hin]%elem_of_cons Hr Hs Ha; [|by eapply Hm2].
  rewrite Forall_forall in Hruns. pose proof (Hruns r Hr).
  apply (gr_mem _ _ _ Hg2); [lia|]. by eapply Hm.
Qed.

(** ** The bounds of an object *)

Lemma foldl_min x l :
  (foldl Z.min x l = x ∨ foldl Z.min x l ∈ l) ∧ foldl Z.min x l <= x ∧
  ∀ y, y ∈ l → foldl Z.min x l <= y.
Proof.
  revert x. induction l as [|z l IH]; intros x; simpl.
  { split; [by left|]. split; [lia|]. by intros y ?%elem_of_nil. }
  destruct (IH (Z.min x z)) as (Hin & Hle & Hall). split; [|split; [lia|]].
  - destruct Hin as [->|Hin]; [|right; by right].
    destruct (Z.min_spec x z) as [[_ ->]|[_ ->]]; [by left|right; left].
  - intros y [->|Hy]%elem_of_cons; [lia|auto].
Qed.

Lemma foldl_max x l :
  (foldl Z.max x l = x ∨ foldl Z.max x l ∈ l) ∧ x <= foldl Z.max x l ∧
  ∀ y, y ∈ l → y <= foldl Z.max x l.
Proof.
  revert x. induction l as [|z l IH]; intros x; simpl.
  { split; [by left|]. split; [lia|]. by intros y ?%elem_of_nil. }
  destruct (IH (Z.max x z)) as (Hin & Hle & Hall). split; [|split; [lia|]].
  - destruct Hin as [->|Hin]; [|right; by right].
    destruct (Z.max_spec x z) as [[_ ->]|[_ ->]]; [right; left|by left].
  - intros y [->|Hy]%elem_of_cons; [lia|auto].
Qed.

Lemma min_list_spec l x : min_list l = Some x → x ∈ l ∧ ∀ y, y ∈ l → x <= y.
Proof.
  destruct l as [|z l]; [done|]. intros [= <-]. destruct (foldl_min z l) as (Hin & Hle & Hall).
  split; [destruct Hin as [->|]; [by left|by right]|]. by intros y [->|?]%elem_of_cons; [|auto].
Qed.

Lemma max_list_spec l x : max_list l = Some x → x ∈ l ∧ ∀ y, y ∈ l → y <= x.
Proof.
  destruct l as [|z l]; [done|]. intros [= <-]. destruct (foldl_max z l) as (Hin & Hle & Hall).
  split; [destruct Hin as [->|]; [by left|by right]|]. by intros y [->|?]%elem_of_cons; [|auto].
Qed.

Lemma elem_of_dedup_from same last l (x : string) :
  (∀ a b : string, same a b = true → a = b) →
  x ∈ l → x = last ∨ x ∈ dedup_from same last l.
Proof.
  intros Hs. revert last. induction l as [|y l IH]; intros last; [by intros ?%elem_of_nil|].
  simpl. intros [->|Hx]%elem_of_cons.
  - destruct (same y last) eqn:E; [left; by apply Hs|right; left].
  - destruct (same y last) eqn:E; [by apply IH|]. destruct (IH y Hx) as [->|?]; right; [left|by right].
Qed.

Lemma elem_of_object_paths m o p : o ∈ m → path o = Some p → p ∈ object_paths m.
Proof.
  intros Ho Hp. unfold object_paths, dedup_by.
  assert (p ∈ sort_by String.leb (omap path m)) as Hin.
  { rewrite sort_by_perm. apply list_elem_of_omap. eauto. }
  destruct (sort_by _ _) as [|x l]; [by apply elem_of_nil in Hin|].
  apply elem_of_cons in Hin as [->|Hin]; [left|].
  destruct (elem_of_dedup_from String.eqb x l p) as [->|?];
    [intros a b; by apply String.eqb_eq|done|left|by right].
Qed.

(** ** Every object *)

Definition parts_of (m : Mappings) (p : string) : list LoadedObjectWithPath :=
  filter (λ o, path o = Some p) m.

Context (m : Mappings).
Context (Hmapped : ∀ o, o ∈ m → mapped o).
Context (Hspan : ∀ o o' p, o ∈ m → o' ∈ m → path o = Some p → path o' = Some p →
  vaddr o' + size o' - vaddr o < 9223372036854775808).

(** What [load_image] makes of a path. *)
Definition image_ok (p : string) (im : Image) : Prop :=
  im_path im = p ∧
  Z.of_nat (length (im_bytes im)) = r_end (im_range im) - r_start (im_range im) ∧
  zero_or_mem (r_start (im_range im)) (im_bytes im) ∧
  ∀ o, o ∈ parts_of m p →
    r_start (im_range im) <= vaddr o ∧ vaddr o + size o <= r_end (im_range im) ∧
    ∀ r a, r ∈ runs_of o → run_served r = true → r.1 <= a < r.1 + r.2 →
      holds_mem (r_start (im_range im)) (im_bytes im) a.

Definition missing_ok (p : string) (ms : MissingCfi) : Prop :=
  miss_path ms = p ∧
  ∀ o, o ∈ parts_of m p →
    r_start (miss_range ms) <= vaddr o ∧ vaddr o + size o <= r_end (miss_range ms).

Definition loaded_ok (p : string) (o : option (Image + MissingCfi)) : Prop :=
  match o with
  | Some (inl im) => existsb any_served (parts_of m p) = true ∧ image_ok p im
  | Some (inr ms) => existsb any_served (parts_of m p) = false ∧ missing_ok p ms
  | None => parts_of m p = []
  end.

Lemma load_image_ok p : ∃ o, load_image target m p = MOk o ∧ loaded_ok p o.
Proof.
  unfold load_image. fold (parts_of m p).
  assert (∀ o, o ∈ parts_of m p → o ∈ m ∧ path o = Some p) as Hparts
    by (intros o; unfold parts_of; rewrite list_elem_of_filter; tauto).
  destruct (min_list _) as [base|] eqn:Emin;
    [|exists None; split; [done|]; simpl; by destruct (parts_of m p)].
  destruct (max_list _) as [end_|] eqn:Emax;
    [|exists None; split; [done|]; simpl; by destruct (parts_of m p)].
  apply min_list_spec in Emin as [(o1 & -> & Ho1)%list_elem_of_fmap Hmin].
  apply max_list_spec in Emax as [(o2 & -> & Ho2)%list_elem_of_fmap Hmax].
  destruct (Hparts _ Ho1) as [Hm1 Hp1], (Hparts _ Ho2) as [Hm2 Hp2].
  pose proof (Hmapped _ Hm1) as Hmap1. pose proof (Hmapped _ Hm2) as Hmap2.
  rewrite (obj_range_end o2 Hmap2). pose proof (Hspan o1 o2 p Hm1 Hm2 Hp1 Hp2) as Hsp.
  assert (∀ o, o ∈ parts_of m p → vaddr o1 <= vaddr o ∧ vaddr o + size o <= vaddr o2 + size o2)
    as Hin.
  { intros o Ho. destruct (Hparts _ Ho) as [Hm _]. split.
    - apply Hmin, list_elem_of_fmap. eauto.
    - rewrite <- (obj_range_end o2 Hmap2), <- (obj_range_end o) by auto.
      apply Hmax, list_elem_of_fmap. eauto. }
  pose proof (Hin _ Ho1) as Hin1. destruct Hmap1 as (Hv1 & Hs1 & _ & _), Hmap2 as (Hv2 & Hs2 & He2 & _).
  rewrite u64_sub_small by (unfold is_u64; lia). set (len := vaddr o2 + size o2 - vaddr o1) in *.
  unfold zeroed. rewrite (proj2 (Z.ltb_lt _ _)) by done. simpl of_outcome. rewrite M_bind_eq.
  cbv beta iota. set (bytes := replicate _ _).
  assert (Z.of_nat (length bytes) = len) as Hlen by (unfold bytes; rewrite length_replicate; lia).
  destruct (load_parts_ok (vaddr o1) (parts_of m p) bytes false) as (b & -> & Hg & Hm); [lia|lia| |].
  { apply Forall_forall. intros o Ho. destruct (Hparts _ Ho) as [Hom _].
    pose proof (Hin _ Ho). split; [auto|]. lia. }
  rewrite M_bind_eq. cbv beta iota. simpl orb. eexists. split; [reflexivity|].
  destruct (existsb any_served (parts_of m p)) eqn:E; simpl; rewrite E; [|by split].
  split; [done|]. split; [done|]. simpl. split; [rewrite (gr_length _ _ _ Hg); lia|].
  split; [apply (gr_zero _ _ _ Hg); intros k x [-> _]%lookup_replicate; by left|].
  intros o Ho. destruct (Hin o Ho). split; [done|]. split; [done|]. intros r a Hr. by eapply Hm.
Qed.

Lemma load_images_from_ok paths :
  ∃ images missing, load_images_from target m paths = MOk (images, missing) ∧
    (∀ im, im ∈ images → image_ok (im_path im) im) ∧
    ∀ p, p ∈ paths → parts_of m p ≠ [] →
      if existsb any_served (parts_of m p) then ∃ im, im ∈ images ∧ image_ok p im
      else ∃ ms, ms ∈ missing ∧ missing_ok p ms.
Proof.
  induction paths as [|p paths (images & missing & IH & Him & Hall)].
  { exists [], []. split; [done|]. split; [|by intros p ?%elem_of_nil]. by intros im ?%elem_of_nil. }
  cbn [load_images_from]. destruct (load_image_ok p) as (o & -> & Ho).
  rewrite M_bind_eq. cbv beta iota. rewrite IH, M_bind_eq. cbv beta iota.
  assert (∀ images' missing', images ⊆ images' → missing ⊆ missing' →
    ∀ p, p ∈ paths → parts_of m p ≠ [] →
      if existsb any_served (parts_of m p) then ∃ im, im ∈ images' ∧ image_ok p im
      else ∃ ms, ms ∈ missing' ∧ missing_ok p ms) as Hmono.
  { intros i' m' Hi Hm q Hq Hne. specialize (Hall q Hq Hne). case_match; naive_solver. }
  destruct o as [[im|ms]|]; simpl in Ho.
  - destruct Ho as [E Hok]. eexists _, _. split; [done|]. split.
    + intros im' [->|?]%elem_of_cons; [|auto]. destruct Hok as [<- Hok]. by split.
    + intros q [->|Hq]%elem_of_cons Hne; [|eapply Hmono; [set_solver..|done|done]].
      rewrite E. exists im. split; [left|done].
  - destruct Ho as [E Hok]. eexists _, _. split; [done|]. split; [done|].
    intros q [->|Hq]%elem_of_cons Hne; [|eapply Hmono; [set_solver..|done|done]].
    rewrite E. exists ms. split; [left|done].
  - eexists _, _. split; [done|]. split; [done|].
    intros q [->|Hq]%elem_of_cons Hne; [done|eapply Hmono; [set_solver..|done|done]].
Qed.
End images.

Section properties.
Context `{Gimli} `{Target T} (target : T).

(** C36: a walk of a thread gives its registers' frame first and at most two more
    frames than asked for; every frame's pc is its instruction pointer and its
    symbol the one its lookup address has; and a frame is stopped at an
    interrupted instruction exactly when it is the innermost, a signal
    trampoline, or the frame a trampoline restores. *)
Theorem walk_frames (u : Unwinder) (fuel n : nat) (rg : Regs) (bt : Backtrace) :
  unwind_stack target u fuel rg n = MOk bt →
  (1 <= length (frames bt) <= n + 2)%nat ∧
  (∃ f0, frames bt !! 0%nat = Some f0 ∧ fregs f0 = rg ∧ interrupted f0 = true ∧
    heuristic f0 = false) ∧
  (∀ f, f ∈ frames bt → pc f = rip (fregs f) ∧
    symbol f = lookup_symbol_by_addr target (frame_lookup_pc f)) ∧
  (∀ i f g, frames bt !! i = Some f → frames bt !! S i = Some g →
    interrupted g = trampoline f || trampoline g) ∧
  (∀ f, last (frames bt) = Some f → trampoline f = false).
Proof.
  intros ([rg' [(l0 & fl & El & Hfl & _) Hs Hl (f0 & Hhd & Hi & Hh & Hr)]] & Hlen & _)%unwind_stack_walked.
  split; [done|]. split.
  { exists f0. rewrite <- head_lookup. auto. }
  split; [|split].
  - intros f Hf. rewrite Forall_forall in Hs. by apply Hs.
  - intros i f g Hf Hg. by destruct (Hl i f g Hf Hg).
  - intros f. rewrite El, last_snoc. by intros [= <-].
Qed.

(** A frame the frame pointer guessed is never believed on its own: its pc
    lies in a readable executable mapping, it was read from the word above the
    frame pointer of the frame before it, whose callee-saved registers it keeps
    while it knows nothing of the others. *)
Theorem heuristic_frames (u : Unwinder) (fuel n i : nat) (rg : Regs) (bt : Backtrace)
    (f g : Frame) :
  unwind_stack target u fuel rg n = MOk bt →
  frames bt !! i = Some f → frames bt !! S i = Some g → heuristic g = true →
  (∃ m, mappings_get (u_mappings u) (pc g) = Some m ∧ is_text m = true) ∧
  read_u64 target (u64_add (rbp (fregs f)) 8) = Ok (pc g) ∧
  fp_caller target (fregs f) (fregs g).
Proof.
  intros ([rg' [_ Hs Hl _]] & _)%unwind_stack_walked Hf Hg Hh.
  destruct (Hl i f g Hf Hg) as [_ Hlink]. destruct (Hlink Hh) as [Ht Hc]. split; [|split; [|done]].
  - unfold u_is_text in Ht. destruct (mappings_get _ _) as [m|]; [|done]. eauto.
  - rewrite Forall_forall in Hs. destruct (Hs g) as [-> _]; [by eapply list_elem_of_lookup_2|].
    apply Hc.
Qed.

(** A walk stops for a reason it can name: its last frame is outside every
    mapping or at the bottom its CFI marks, and the walk is whole; or the pop of
    its last frame was lost or failed, and the walk says which; or it ran to the
    most frames it was asked for. *)
Theorem walk_stops (u : Unwinder) (fuel n : nat) (rg : Regs) (bt : Backtrace) :
  unwind_stack target u fuel rg n = MOk bt →
  stopped target u fuel (frames bt) (truncated bt) ∨
  truncated bt = None ∧ (n < length (frames bt))%nat.
Proof. by intros (_ & _ & ?)%unwind_stack_walked. Qed.

(** C16: a walk returns, whatever the stack holds: with CFI whose expressions end
    and whose rules name general-purpose registers, and objects that [parse]
    built, it neither panics nor runs on. *)
Theorem walk_returns (turns : Evaluation → nat) (u : Unwinder) (fuel n : nat) (rg : Regs) :
  plain_cfi turns fuel →
  (∀ o, o ∈ objects u → ∃ bytes, parse bytes (oi_range o) = MOk o) →
  ∃ bt, unwind_stack target u fuel rg n = MOk bt.
Proof.
  intros Hplain Ho. eapply unwind_stack_returns; [exact Hplain|]. intros o Hin.
  destruct (Ho o Hin) as [bytes Hb]. by eapply parse_has_table.
Qed.

(** Popping a frame by its CFI: the caller's stack pointer is the frame
    address the row computes, its pc the return address the row restores; a
    register the row says nothing of keeps its value when the callee saves it
    and is zero otherwise, and one saved at an offset is the word there. *)
Theorem cfi_pop (u : Unwinder) (fuel : nat) (at_ : Z) (f : Regs) (o : ObjectInfo)
    (g : Frame) :
  unwind_frame_with_cfi target u fuel at_ f (Some o) = MOk (PFrame g) →
  heuristic g = false →
  ∃ fde row cfa,
    fde_for_address (eh_frame_hdr o) (eh_frame o) (bases o) at_ = FdeOk fde ∧
    unwind_info_for_address fde (eh_frame o) (bases o) at_ = FOk row ∧
    evaluate_cfa target fuel f (row_cfa row) (cie_encoding fde) o = MOk cfa ∧
    interrupted g = is_signal_trampoline fde ∧
    rsp (fregs g) = cfa ∧
    (∀ off, row_register row RIP = Some (Offset off) →
      read_u64 target ((cfa + off) `mod` W64) = Ok (pc g)) ∧
    ∀ reg, reg ∈ REGS → reg ≠ RSP →
      (row_register row reg = None →
        Regs_index (fregs g) reg = if is_callee_saved reg then Regs_index f reg else Ret 0) ∧
      (∀ off, row_register row reg = Some (Offset off) →
        ∃ v, read_u64 target ((cfa + off) `mod` W64) = Ok v ∧ Regs_index (fregs g) reg = Ret v).
Proof.
  intros (_ & _ & Hpc & Hc)%unwind_frame_with_cfi_PFrame Hh. rewrite Hh in Hc.
  destruct Hc as (o' & [= <-] & [_ (fde & row & cfa & H1 & H2 & H3 & H4 & H5 & H6 & H7)]).
  exists fde, row, cfa. split_and!; try done.
  - intros off Hoff. apply (restore_offset target) with (1 := Hoff) in H6. by rewrite Hpc.
  - intros reg Hreg Hne. destruct (H7 reg Hreg Hne) as (v & Hv & ->). split.
    + intros Hnone. unfold restore_register in Hv. rewrite Hnone in Hv. simpl in Hv.
      destruct (is_callee_saved reg); [|by injection Hv as <-].
      destruct (Regs_index f reg); [|done]. by injection Hv as <-.
    + intros off Hoff. unfold restore_register in Hv. rewrite Hoff in Hv. simpl in Hv.
      rewrite offset_u64_eq in Hv. destruct (read_u64 target _) as [w|]; [|done].
      injection Hv as <-. by exists w.
Qed.

(** A rule that says the return address keeps its value, or is the
    instruction pointer's, is not an error the walk reports: the register file
    has no index for the instruction pointer, and the unwinder panics. *)
Theorem return_address_rule_panics (u : Unwinder) (fuel : nat) (at_ cfa : Z) (f prev : Regs)
    (o : ObjectInfo) (fde : FrameDescriptionEntry) (row : UnwindTableRow) :
  has_table (eh_frame_hdr o) = true →
  fde_for_address (eh_frame_hdr o) (eh_frame o) (bases o) at_ = FdeOk fde →
  unwind_info_for_address fde (eh_frame o) (bases o) at_ = FOk row →
  evaluate_cfa target fuel f (row_cfa row) (cie_encoding fde) o = MOk cfa →
  restore_all target fuel REGS f cfa row (cie_encoding fde) o Regs_default = MOk prev →
  row_register row RIP = Some SameValue ∨ row_register row RIP = Some (Register RIP) →
  unwind_frame_with_cfi target u fuel at_ f (Some o) = MPanic.
Proof.
  intros Ht H1 H2 H3 H4 Hrule. unfold unwind_frame_with_cfi. rewrite Ht, H1, H2.
  simpl negb. simpl of_fallible. rewrite M_bind_eq. cbv beta iota zeta.
  rewrite H3, M_bind_eq. cbv beta iota. rewrite H4, M_bind_eq. cbv beta iota.
  unfold restore_register. by destruct Hrule as [-> | ->].
Qed.

(** C39: reading an object's headers panics in exactly one case: an unwind
    segment whose offset from the text segment, plus its size, passes 2^64 and
    comes back inside the image. *)
Theorem parse_panics_exactly (bytes : list Byte.byte) (rng : range) :
  (∀ text eh, parse_headers bytes = MOk (text, eh) → 0 <= p_memsz eh < W64) →
  parse bytes rng = MPanic ↔
  ∃ text eh, parse_headers bytes = MOk (text, eh) ∧
    W64 <= header_offset text eh + p_memsz eh <= W64 + Z.of_nat (length bytes).
Proof.
  intros Hm. unfold parse. pose proof (parse_headers_returns bytes) as Hret.
  destruct (parse_headers bytes) as [[text eh]|e| |]; try done.
  - rewrite M_bind_eq. cbv beta iota. rewrite parse_tables_panic by (by eapply Hm).
    split; [eauto|]. intros (? & ? & [= <- <-] & ?). done.
  - simpl. split; [done|]. by intros (? & ? & ? & _).
Qed.

(** Reading the images never fails: of every mapped object, either some
    page is readable and its image is as long as its span, holds the target's
    byte at every address of a run that was served, and zero or the target's
    byte elsewhere; or nothing of it is readable and it is named as missing. *)
Theorem load_images_exact (mem : Z → option Byte.byte) (m : Mappings) :
  (∀ a n bs k b, read_bytes target a n = Ok bs → bs !! k = Some b →
    mem (a + Z.of_nat k) = Some b) →
  (∀ a k, 0 <= k → 0 <= readable_len target a k <= k) →
  (∀ o, o ∈ m → mapped o) →
  (∀ o o' p, o ∈ m → o' ∈ m → path o = Some p → path o' = Some p →
    vaddr o' + size o' - vaddr o < 9223372036854775808) →
  ∃ images missing, load_images target m = MOk (images, missing) ∧
    (∀ im, im ∈ images → image_ok target mem m (im_path im) im) ∧
    ∀ o p, o ∈ m → path o = Some p →
      if existsb (any_served target) (parts_of m p)
      then ∃ im, im ∈ images ∧ image_ok target mem m p im
      else ∃ ms, ms ∈ missing ∧ missing_ok m p ms.
Proof.
  intros Hread Hserve Hmapped Hspan.
  destruct (load_images_from_ok target mem Hread Hserve m Hmapped Hspan (object_paths m))
    as (images & missing & Hl & Him & Hall).
  exists images, missing. split; [exact Hl|]. split; [exact Him|]. intros o p Ho Hp.
  apply Hall; [by eapply elem_of_object_paths|]. intros Hnil.
  assert (o ∈ parts_of m p) as Hin by (by apply list_elem_of_filter).
  rewrite Hnil in Hin. by apply elem_of_nil in Hin.
Qed.

(** Loading the frames gives every thread a backtrace and no others: a
    stack under each thread id of the target, the walk of a thread with that id
    over one set of parsed objects, of at most sixty-six frames. *)
Theorem load_frames_threads (fuel : nat) (l : list LwpInfo) (un : Unwound) :
  lwps target = Ok l → load_frames target fuel = MOk un →
  ∃ u, (∀ t, is_Some (stacks un !! t) ↔ t ∈ tid <$> l) ∧
    ∀ t bt, stacks un !! t = Some bt →
      (∃ lwp, lwp ∈ l ∧ tid lwp = t ∧ unwind_stack target u fuel (regs lwp) 64 = MOk bt) ∧
      (1 <= length (frames bt) <= 66)%nat.
Proof.
  intros Hl Hf. unfold load_frames in Hf. apply M_bind_MOk in Hf as (m & _ & Hf).
  apply M_bind_MOk in Hf as ([images miss] & _ & Hf).
  apply M_bind_MOk in Hf as ([objs miss'] & _ & Hf). cbv zeta in Hf. rewrite Hl in Hf.
  simpl lift in Hf. rewrite M_bind_eq in Hf. apply M_bind_MOk in Hf as (st & Hst & [= <-]).
  exists (mkUnwinder objs m miss'). apply unwind_lwps_spec in Hst as [Hdom Hall]. split.
  - intros t. simpl. rewrite Hdom, lookup_empty. split; [intros [[? ?]|?]; done|auto].
  - intros t bt Hbt. destruct (Hall t bt Hbt) as [?|(lwp & Hin & Ht & Hw)].
    + by rewrite lookup_empty in *.
    + split; [by exists lwp|]. by apply unwind_stack_walked in Hw as (_ & ? & _).
Qed.
End properties.

(** ** A small process

    Text at 4096, a stack at 20000.  A function with a frame pointer calls from
    [FRAMED], the stack's bottom is [BOTTOM], a leaf is [LEAF], [TRAMP] is a
    signal trampoline (its table entry starts a byte early), and [WILD] says its
    return address keeps its value. *)

Definition FRAMED : Z := 4352.
Definition BOTTOM : Z := 4608.
Definition TRAMP : Z := 4864.
Definition LEAF : Z := 5120.
Definition WILD : Z := 5376.

(** An expression: the word at a register plus an offset. *)
Definition demo_expr : Type := Z * Z.

Inductive demo_eval :=
  | DStart (e : demo_expr)
  | DRegister (e : demo_expr)
  | DMemory
  | DDone (v : Z).

Definition demo_row (wild : bool) (fde : Z) : CfaRule demo_expr * list (Z * RegisterRule demo_expr) :=
  if fde =? FRAMED then
    (RegisterAndOffset RBP 16, [(RIP, Offset (-8)); (RBP, Offset (-16))])
  else if fde =? BOTTOM then (RegisterAndOffset RSP 8, [])
  else if fde =? TRAMP then (CfaExpression (RSP, 16), [(RIP, ValExpression (RSP, 24))])
  else if fde =? LEAF then (RegisterAndOffset RSP 8, [(RIP, Offset (-8))])
  else (RegisterAndOffset RSP 8, if wild then [(RIP, SameValue)] else []).

Definition demo_find (at_ : Z) : FdeFound Z :=
  match find_first (λ f, (f <=? at_) && (at_ <? f + 32))
          [FRAMED; BOTTOM; LEAF; WILD] with
  | Some f => FdeOk f
  | None => if (TRAMP - 1 <=? at_) && (at_ <? TRAMP + 32) then FdeOk TRAMP
            else NoUnwindInfoForAddress
  end.

Definition demo_headers (bytes : list Byte.byte) : Fallible (list ProgramHeader) :=
  match bytes with
  | Byte.x00 :: _ => FOk [mkProgramHeader 1 0 0 4096; mkProgramHeader PT_GNU_EH_FRAME 0 16 16]
  | Byte.x01 :: _ => FOk [mkProgramHeader 1 0 16 4096; mkProgramHeader PT_GNU_EH_FRAME 0 0 20]
  | _ => FErr "bad program headers"
  end.

Definition gimli_of (wild : bool) : Gimli := {|
  ParsedEhFrameHdr := bool;
  EhFrame := unit;
  BaseAddresses := unit;
  FrameDescriptionEntry := Z;
  UnwindTableRow := CfaRule demo_expr * list (Z * RegisterRule demo_expr);
  Encoding := unit;
  UnwindExpression := demo_expr;
  Expression := demo_expr;
  Evaluation := demo_eval;
  Header := unit;
  Ctx := unit;
  has_table h := h;
  fde_for_address _ _ _ := demo_find;
  unwind_info_for_address fde _ _ _ := FOk (demo_row wild fde);
  cie_encoding _ := tt;
  is_signal_trampoline fde := fde =? TRAMP;
  row_cfa := fst;
  row_register row reg := snd <$> find_first (λ r, fst r =? reg) (snd row);
  expr_get e _ := FOk e;
  evaluation e _ := DStart e;
  evaluate ev := match ev with
                 | DStart (reg, off) =>
                     if (0 <=? reg) && (reg <=? 15)
                     then FOk (RequiresRegister reg, DRegister (reg, off)) else FErr "register"
                 | _ => FErr "evaluation" end;
  resume_with_register ev v :=
    match ev, v with
    | DRegister (_, off), Generic v => FOk (RequiresMemory (v + off) 8, DMemory)
    | _, _ => FErr "register" end;
  resume_with_memory ev v :=
    match ev, v with DMemory, Generic v => FOk (Complete, DDone v) | _, _ => FErr "memory" end;
  resume_with_relocated_address _ _ := FErr "relocated";
  resume_with_call_frame_cfa _ _ := FErr "cfa";
  eval_result ev := match ev with DDone v => [LValue (Generic v)] | _ => [] end;
  debug_pieces _ := "[]";
  parse_header _ := FOk tt;
  e_class _ := 2;
  is_little _ := FOk true;
  container_ctx _ := FOk tt;
  e_phoff _ := 64;
  e_phnum _ := 2;
  parse_program_headers bytes _ _ _ := demo_headers bytes;
  bases_default := tt;
  set_eh_frame_hdr _ _ := tt;
  set_eh_frame _ _ := tt;
  hdr_parse _ _ _ := FOk true;
  eh_frame_pointer _ := 4128;
  eh_frame_new _ := tt
|}.

#[local] Instance demo_gimli : Gimli := gimli_of false.

Definition demo_turns (ev : demo_eval) : nat :=
  match ev with DStart _ => 3 | DRegister _ => 2 | DMemory => 1 | DDone _ => 0 end.

Lemma demo_row_rules fde :
  (∀ reg off, (demo_row false fde).1 = RegisterAndOffset reg off → 0 <= reg <= 15) ∧
  Forall (λ r : Z * RegisterRule demo_expr,
    match r.2 with SameValue | Register _ => False | _ => True end) (demo_row false fde).2.
Proof.
  unfold demo_row. repeat case_match; simpl;
    (split; [intros ? ? [=]; subst; unfold RBP, RSP; lia|repeat constructor]).
Qed.

Lemma demo_row_register fde reg rule :
  row_register (Gimli := demo_gimli) (demo_row false fde) reg = Some rule →
  match rule with SameValue | Register _ => False | _ => True end.
Proof.
  simpl. intros ([r rule'] & [Hin _]%find_first_Some & ->)%fmap_Some.
  destruct (demo_row_rules fde) as [_ Hall]. rewrite Forall_forall in Hall.
  exact (Hall _ Hin).
Qed.

Lemma demo_plain : plain_cfi (H := demo_gimli) demo_turns 4.
Proof.
  split; simpl.
  - intros [reg off] _ r ev. destruct (_ && _) eqn:E; [|done]. intros [= <- <-]. zb.
    simpl. split; lia.
  - intros [|[]| |] [] r ev' [=]; subst; simpl; split; (done || lia).
  - intros [|[]| |] [] r ev' [=]; subst; simpl; split; (done || lia).
  - done.
  - done.
  - intros fde _ _ _ row [= <-]. split; [apply demo_row_rules|]. split.
    + intros reg other Hr. by apply (demo_row_register fde reg) in Hr.
    + intros Hr. by apply (demo_row_register fde RIP) in Hr.
Qed.

Definition demo_word (a v : Z) : Segment := mkSegment a (to_le_bytes 8 v).

Definition demo_mappings : Mappings :=
  [mkObject (Some "app"%string) 4096 4096 5; mkObject None 20000 4096 6].

Definition demo_process : Snapshot :=
  mkSnapshot
    [demo_word 4096 0; demo_word 20000 TRAMP; demo_word 20024 20100;
     demo_word 20032 (FRAMED + 5); demo_word 20200 0; demo_word 20208 (BOTTOM + 8)]
    [] [] ∅ ∅ ∅ demo_mappings [] None Available None.

Definition demo_regs : Regs :=
  set_rbp (set_rsp (set_rip Regs_default (LEAF + 4)) 20000) 20200.

Definition demo_bytes (b : Byte.byte) : list Byte.byte := b :: replicate 63 Byte.x00.

Definition demo_object : ObjectInfo := mkObjectInfo (Range 4096 8192) true tt tt.

Definition demo_unwinder : Unwinder := mkUnwinder [demo_object] demo_mappings [].

Definition of_M {A} (d : A) (m : M A) : A := match m with MOk a => a | _ => d end.
Definition demo_walk : Backtrace :=
  Eval vm_compute in of_M (mkBacktrace [] None)
    (unwind_stack demo_process demo_unwinder 4 demo_regs 8).
Definition demo_fp_walk : Backtrace :=
  Eval vm_compute in of_M (mkBacktrace [] None)
    (unwind_stack demo_process (mkUnwinder [] demo_mappings []) 4
       (set_rip demo_regs FRAMED) 8).

Example demo_walk_pcs :
  pc <$> frames demo_walk = [LEAF + 4; TRAMP; FRAMED + 5; BOTTOM + 8] ∧
  trampoline <$> frames demo_walk = [false; true; false; false] ∧
  truncated demo_walk = None.
Proof. vm_compute. done. Qed.

(** ** Witnesses *)

Lemma demo_unwound : unwind_stack demo_process demo_unwinder 4 demo_regs 8 = MOk demo_walk.
Proof. vm_compute. reflexivity. Qed.

Lemma demo_fp_unwound :
  unwind_stack demo_process (mkUnwinder [] demo_mappings []) 4 (set_rip demo_regs FRAMED) 8
    = MOk demo_fp_walk.
Proof. vm_compute. reflexivity. Qed.

Lemma walk_frames_witness :
  (1 <= length (frames demo_walk) <= 10)%nat ∧
  ∀ f, f ∈ frames demo_walk → pc f = rip (fregs f).
Proof.
  destruct (walk_frames demo_process demo_unwinder 4 8 demo_regs demo_walk demo_unwound)
    as (Hl & _ & Hf & _).
  split; [exact Hl|]. intros f Hin. apply (Hf f Hin).
Defined.

Lemma heuristic_frames_witness :
  ∃ f g, frames demo_fp_walk = [f; g] ∧ heuristic g = true ∧
    read_u64 demo_process (u64_add (rbp (fregs f)) 8) = Ok (pc g).
Proof.
  eexists _, _. split; [reflexivity|]. split; [reflexivity|].
  apply (heuristic_frames demo_process (mkUnwinder [] demo_mappings []) 4 8 0
    (set_rip demo_regs FRAMED) demo_fp_walk _ _ demo_fp_unwound); reflexivity.
Defined.

Lemma walk_stops_witness :
  truncated demo_walk = None ∧
  (stopped demo_process demo_unwinder 4 (frames demo_walk) None ∨
   truncated demo_walk = None ∧ (8 < length (frames demo_walk))%nat).
Proof.
  split; [reflexivity|].
  exact (walk_stops demo_process demo_unwinder 4 8 demo_regs demo_walk demo_unwound).
Defined.

Lemma walk_returns_witness :
  ∃ bt, unwind_stack demo_process demo_unwinder 4 demo_regs 8 = MOk bt.
Proof.
  apply (walk_returns (H := demo_gimli) demo_process demo_turns demo_unwinder 4 8 demo_regs demo_plain).
  intros o Ho. exists (demo_bytes Byte.x00). simpl in Ho.
  apply list_elem_of_singleton in Ho as ->. vm_compute. reflexivity.
Defined.

Lemma cfi_pop_witness :
  ∃ g, unwind_frame_with_cfi demo_process demo_unwinder 4 (FRAMED + 5)
      (set_rip demo_regs (FRAMED + 5)) (Some demo_object) = MOk (PFrame g) ∧
    rsp (fregs g) = 20216 ∧ pc g = BOTTOM + 8 ∧
    ∃ fde row cfa, demo_find (FRAMED + 5) = FdeOk fde ∧ demo_row false fde = row ∧
      rsp (fregs g) = cfa.
Proof.
  eexists. split; [vm_compute; reflexivity|]. split; [reflexivity|]. split; [reflexivity|].
  edestruct (cfi_pop demo_process demo_unwinder 4 (FRAMED + 5)
    (set_rip demo_regs (FRAMED + 5)) demo_object) as (fde & row & cfa & H1 & H2 & _ & _ & H5 & _);
    [vm_compute; reflexivity|reflexivity|].
  exists fde, row, cfa. split; [exact H1|]. split; [by injection H2|exact H5].
Defined.

Lemma return_address_rule_panics_witness :
  @unwind_frame_with_cfi (gimli_of true) _ _ demo_process
    (@mkUnwinder (gimli_of true) [] demo_mappings []) 4 (WILD + 1) demo_regs
    (Some (@mkObjectInfo (gimli_of true) (Range 4096 8192) true tt tt)) = MPanic.
Proof.
  eapply (@return_address_rule_panics (gimli_of true) _ _ demo_process
    (@mkUnwinder (gimli_of true) [] demo_mappings []) 4 (WILD + 1) _ demo_regs);
    [reflexivity|vm_compute; reflexivity|reflexivity|vm_compute; reflexivity
    |vm_compute; reflexivity|left; reflexivity].
Defined.

Lemma parse_panics_exactly_witness :
  parse (demo_bytes Byte.x01) (Range 4096 8192) = MPanic.
Proof.
  apply (parse_panics_exactly (demo_bytes Byte.x01) (Range 4096 8192)).
  - intros text eh [= <- <-]. split; reflexivity || (vm_compute; congruence).
  - eexists _, _. split; [reflexivity|]. vm_compute. split; congruence.
Defined.

(** A target of one page of text, all of it readable. *)
Definition demo_text : Snapshot :=
  mkSnapshot [mkSegment 4096 (demo_bytes Byte.x00)] [] [] ∅ ∅ ∅
    [mkObject (Some "app"%string) 4096 64 5] [] None Available None.

Lemma demo_text_reads a n bs k b :
  read_bytes demo_text a n = Ok bs → bs !! k = Some b →
  mem_byte (memory demo_text) (a + Z.of_nat k) = Some b.
Proof.
  intros Hr Hk. pose proof (read_bytes_len _ _ _ _ Hr) as Hl. pose proof (lookup_lt_Some _ _ _ Hk).
  apply snapshot_read_bytes_spec in Hr as (_ & _ & Hb); [by rewrite Hb| | |lia].
  - split; repeat constructor; vm_compute; congruence.
  - repeat constructor; vm_compute; congruence.
Qed.

Lemma demo_text_serves a k : 0 <= k → 0 <= readable_len demo_text a k <= k.
Proof.
  intros Hk. simpl. unfold snapshot_readable_len. destruct (segment _ _) as [seg|]; [|lia].
  pose proof (Z.mod_pos_bound (seg_end seg - a) W64 ltac:(lia)). unfold u64_sub. lia.
Qed.

Lemma load_images_exact_witness :
  ∃ images missing, load_images demo_text (s_mappings demo_text) = MOk (images, missing) ∧
    ∃ im, im ∈ images ∧
      image_ok demo_text (mem_byte (memory demo_text)) (s_mappings demo_text) "app" im.
Proof.
  destruct (load_images_exact demo_text (mem_byte (memory demo_text)) (s_mappings demo_text)
    demo_text_reads demo_text_serves) as (images & missing & Hl & _ & Hall).
  - intros o Ho%list_elem_of_singleton. subst o. vm_compute. split_and!; congruence.
  - intros o o' p Ho%list_elem_of_singleton Ho'%list_elem_of_singleton _ _. by subst.
  - exists images, missing. split; [exact Hl|].
    apply (Hall (mkObject (Some "app"%string) 4096 64 5) "app"%string); [left|reflexivity].
Defined.

Definition demo_threads : Snapshot :=
  mkSnapshot (memory demo_process) [] [] ∅ ∅ ∅ demo_mappings
    [mkLwpInfo 7 demo_regs (Range 20000 24096) (Range 0 0) (mkTimespec 0 0);
     mkLwpInfo 9 (set_rip demo_regs (BOTTOM + 1)) (Range 20000 24096) (Range 0 0)
       (mkTimespec 0 0)] None Available None.

Definition demo_unwound_threads : Unwound :=
  Eval vm_compute in of_M (mkUnwound ∅ []) (load_frames demo_threads 4).

Lemma load_frames_threads_witness :
  load_frames demo_threads 4 = MOk demo_unwound_threads ∧
  is_Some (stacks demo_unwound_threads !! 9).
Proof.
  split; [vm_compute; reflexivity|].
  destruct (load_frames_threads demo_threads 4 (s_lwps demo_threads) demo_unwound_threads)
    as (u & Hdom & _); [reflexivity|vm_compute; reflexivity|].
  apply Hdom. right. left.
Defined.
