(* ===== verification/TaskGraph.v ===== *)
(** The task dependency graph: a task's state word
    ([hansei-runtime/src/tokio/mod.rs]), the waits and polling barriers of an
    analysis ([tokio/graph.rs]) and the index of every task-to-task relation
    ([hansei/src/relations.rs]).

    The analysis's data is modelled as the graph reads it: every variant of a
    wait's target, an assessment and a member's slot is kept, and of the fields
    those an edge is drawn from.  Indices into a task list are [nat]. *)

From S2P Require Import Prelude.

Local Open Scope Z_scope.

(** ** Task states *)

Abbreviation TaskAddr := Z (only parsing).
Abbreviation TaskState := Z (only parsing).

Definition RUNNING : Z := 1.
Definition COMPLETE : Z := 2.
Definition NOTIFIED : Z := 4.
Definition JOIN_INTEREST : Z := 8.
Definition JOIN_WAKER : Z := 16.
Definition CANCELLED : Z := 32.

Definition STATE_MASK : Z :=
  Z.lor RUNNING (Z.lor COMPLETE (Z.lor NOTIFIED
    (Z.lor JOIN_INTEREST (Z.lor JOIN_WAKER CANCELLED)))).
Definition REF_COUNT_MASK : Z := Z.lxor (W64 - 1) STATE_MASK.

(** [u64::count_zeros]. *)
Definition count_zeros (w : Z) : Z :=
  Z.of_nat (length (filter (λ i, Z.testbit w i = false) (z_range 0 64))).
Definition REF_COUNT_SHIFT : Z := count_zeros REF_COUNT_MASK.

Definition bit_set (s flag : Z) : bool := negb (Z.land s flag =? 0).
Definition is_running (s : TaskState) : bool := bit_set s RUNNING.
Definition is_complete (s : TaskState) : bool := bit_set s COMPLETE.
Definition is_notified (s : TaskState) : bool := bit_set s NOTIFIED.
Definition is_cancelled (s : TaskState) : bool := bit_set s CANCELLED.
Definition is_join_interested (s : TaskState) : bool := bit_set s JOIN_INTEREST.
Definition is_join_waker_set (s : TaskState) : bool := bit_set s JOIN_WAKER.

Definition ref_count (s : TaskState) : Z :=
  Z.shiftr (Z.land s REF_COUNT_MASK) REF_COUNT_SHIFT.

Inductive Lifecycle := Running | Queued | Idle | Complete.

Definition lifecycle (s : TaskState) : Lifecycle :=
  if is_complete s then Complete
  else if is_running s then Running
  else if is_notified s then Queued
  else Idle.

Definition display_lifecycle (l : Lifecycle) : string :=
  match l with
  | Running => "running"
  | Queued => "queued"
  | Idle => "idle"
  | Complete => "complete"
  end.

(** ** Tasks, waits and barriers *)

Record Task := mkTask {
  t_addr : TaskAddr;
  t_state : TaskState;
  t_id : option Z
}.

Record TaskRef := mkTaskRef { tr_addr : TaskAddr; tr_id : option Z }.

Inductive HttpCaller :=
  | CallerTask (task : TaskRef)
  | Gone
  | Unparked
  | NotATask (vtable : Z) (cell : option Z)
  | Unread.

Inductive WaitTarget :=
  | WTimer
  | WTask (addr : Z) (task_id : option Z)
  | WIo (addr : Z)
  | WSemaphore (addr : Z)
  | WChannel (addr : Z)
  | WNotify (addr : Z)
  | WOneshot (addr : Z)
  | WWatch (addr : Z)
  | WHttpConn (addr : Z) (caller : option HttpCaller).

Record VerifiedWait := mkVerified {
  target : WaitTarget;
  queue_position : option Z
}.

(** What a swept waker pair was attributed to: the join slot of a task's
    trailer, another registry's slot, or anything else. *)
Inductive RegistrySlot := SlotTimer | SlotIo | SlotSemaphore | SlotJoin (task : TaskRef).
Inductive Attribution := Registry (slot : RegistrySlot) | OtherAttribution.
Inductive SlotRef := Wheel | SlotRefIo | Protocol | Swept (attribution : Attribution).

Inductive WaitAssessment :=
  | NotWaiting
  | Runnable
  | Unresumed
  | ResourceReady
  | Waiting (verified : VerifiedWait)
  | Set_ (members : list WaitMember)
  | NeverReady
  | Unknown
with WaitMember :=
  | mkMember (assessment : option WaitAssessment) (armed : option SlotRef).

Definition m_assessment (m : WaitMember) : option WaitAssessment :=
  let 'mkMember a _ := m in a.
Definition m_armed (m : WaitMember) : option SlotRef := let 'mkMember _ s := m in s.

(** [WaitAssessment::verified]. *)
Definition verified_of (a : WaitAssessment) : option VerifiedWait :=
  match a with Waiting v => Some v | _ => None end.

(** [WaitSet::armed]. *)
Definition set_armed (members : list WaitMember) : list WaitMember :=
  filter (λ m, is_Some (m_armed m)) members.

Record TaskWait := mkTaskWait {
  tw_task : TaskRef;
  assessment : WaitAssessment
}.

Definition verified (w : TaskWait) : option VerifiedWait := verified_of (assessment w).

Record AcquireObservation := mkAcquire {
  aq_semaphore : Z;
  aq_needed : Z;
  aq_position : option Z
}.

Record PollingBarrier := mkBarrier {
  holder : TaskAddr;
  acquire : AcquireObservation
}.

Definition granted (b : PollingBarrier) : bool := aq_needed (acquire b) =? 0.

Inductive BarrierRelation := BReservation | BQueueOrder.

Record Behind := mkBehind {
  b_waiter : nat;
  b_barrier : nat;
  b_relation : BarrierRelation
}.

Record Analysis := mkAnalysis {
  waits : list TaskWait;
  barriers : list PollingBarrier
}.

(** The relation of one wait to one barrier, if any. *)
Definition behind_relation (held : PollingBarrier) (wait : TaskWait) : option BarrierRelation :=
  verified ← verified wait;
  match target verified with
  | WSemaphore addr =>
      if negb (addr =? aq_semaphore (acquire held)) then None
      else if granted held then Some BReservation
      else match aq_position (acquire held), queue_position verified with
           | Some ahead, Some behind => if ahead <? behind then Some BQueueOrder else None
           | _, _ => None
           end
  | _ => None
  end.

Fixpoint behind_waits (barrier : nat) (held : PollingBarrier) (waiter : nat)
    (l : list TaskWait) : list Behind :=
  match l with
  | [] => []
  | wait :: l =>
      match behind_relation held wait with
      | Some relation => mkBehind waiter barrier relation :: behind_waits barrier held (S waiter) l
      | None => behind_waits barrier held (S waiter) l
      end
  end.

Fixpoint behind_barriers (ws : list TaskWait) (barrier : nat) (l : list PollingBarrier)
    : list Behind :=
  match l with
  | [] => []
  | held :: l => behind_waits barrier held 0 ws ++ behind_barriers ws (S barrier) l
  end.

Definition behind (a : Analysis) : list Behind := behind_barriers (waits a) 0 (barriers a).

(** ** Relations *)

Inductive EdgeKind :=
  | EWaiting
  | WaitingOneOf
  | Response
  | Reservation
  | QueueOrder
  | EJoinSet
  | Handle.

(** The order of the declaration, which [derive(Ord)] takes. *)
Definition kind_rank (k : EdgeKind) : nat :=
  match k with
  | EWaiting => 0 | WaitingOneOf => 1 | Response => 2 | Reservation => 3
  | QueueOrder => 4 | EJoinSet => 5 | Handle => 6
  end.

Definition mark (k : EdgeKind) : string :=
  match k with
  | EWaiting => EmptyString
  | WaitingOneOf => " [one of the waits above]"
  | Response => " [its response awaited above]"
  | Reservation => " [holds permits awaited above]"
  | QueueOrder => " [queued ahead of the task above]"
  | EJoinSet => " [in the JoinSet above]"
  | Handle => " [its handle held above]"
  end.

Definition is_wait (k : EdgeKind) : bool :=
  match k with EWaiting => true | _ => false end.

Record Edge := mkEdge { to : nat; kind : EdgeKind }.

(** [derive(Ord)] of an edge: by task, then by kind. *)
Definition edge_leb (x y : Edge) : bool :=
  (to x <? to y)%nat ||
  ((to x =? to y)%nat && (kind_rank (kind x) <=? kind_rank (kind y))%nat).

(** [census::JoinSet] and [census::HeldFuture], as far as an edge reads them. *)
Record JoinSet := mkJoinSet {
  js_owner : nat;
  js_addr : Z;
  js_children : list Z
}.

Record HeldFuture := mkHeld {
  hf_owner : nat;
  (* the address of [WaitKind::Task], where its wait is one *)
  hf_wait_task : option Z
}.

Record Relations := mkRelations {
  edges : list (list Edge);
  waited_by : list (list nat);
  held_by : list (list nat);
  member_of : list (option (Z * nat))
}.

(** What the loops of [build] do to the vectors, in order. *)
Inductive Push :=
  | PushEdge (from : nat) (e : Edge)
  | PushWaitedBy (at_ from : nat)
  | PushHeldBy (at_ from : nat)
  | SetMember (at_ : nat) (addr : Z) (owner : nat).

(** [v[i].push(x)], an index out of range a panic. *)
Definition push_at {A} (i : nat) (x : A) (v : list (list A)) : outcome (list (list A)) :=
  if (i <? length v)%nat then Ret (alter (λ l, l ++ [x]) i v) else Panic.

(** [v[i].get_or_insert(x)]. *)
Definition get_or_insert {A} (i : nat) (x : A) (v : list (option A))
    : outcome (list (option A)) :=
  if (i <? length v)%nat
  then Ret (alter (λ o, match o with Some _ => o | None => Some x end) i v) else Panic.

Definition run_push (r : Relations) (p : Push) : outcome Relations :=
  match p with
  | PushEdge from e =>
      es ← push_at from e (edges r);
      Ret (mkRelations es (waited_by r) (held_by r) (member_of r))
  | PushWaitedBy at_ from =>
      ws ← push_at at_ from (waited_by r);
      Ret (mkRelations (edges r) ws (held_by r) (member_of r))
  | PushHeldBy at_ from =>
      hs ← push_at at_ from (held_by r);
      Ret (mkRelations (edges r) (waited_by r) hs (member_of r))
  | SetMember at_ addr owner =>
      ms ← get_or_insert at_ (addr, owner) (member_of r);
      Ret (mkRelations (edges r) (waited_by r) (held_by r) ms)
  end.

Fixpoint run_pushes (r : Relations) (l : list Push) : outcome Relations :=
  match l with
  | [] => Ret r
  | p :: l => r ← run_push r p; run_pushes r l
  end.

(** The index of a task's address: a later task of the same address replaces an
    earlier one, as collecting into a map does. *)
Fixpoint index_from (i : nat) (l : list Task) (m : gmap Z nat) : gmap Z nat :=
  match l with
  | [] => m
  | t :: l => index_from (S i) l (<[t_addr t := i]> m)
  end.
Definition resolve (tasks : list Task) (addr : Z) : option nat :=
  index_from 0 tasks ∅ !! addr.

(** The task a member of a wait set joins. *)
Definition member_joined (m : WaitMember) : option Z :=
  match m_assessment m, m_armed m with
  | Some (Waiting verified), _ =>
      match target verified with WTask addr _ => Some addr | _ => None end
  | _, Some (Swept (Registry (SlotJoin task))) => Some (tr_addr task)
  | _, _ => None
  end.

Definition waiting_pushes (resolve : Z → option nat) (from : nat) (wait : TaskWait)
    : list Push :=
  match target <$> verified wait with
  | Some (WTask addr _) =>
      match resolve addr with
      | Some to => [PushEdge from (mkEdge to EWaiting); PushWaitedBy to from]
      | None => []
      end
  | _ => []
  end.

Definition response_pushes (resolve : Z → option nat) (from : nat) (wait : TaskWait)
    : list Push :=
  match target <$> verified wait with
  | Some (WHttpConn _ (Some (CallerTask caller))) =>
      match resolve (tr_addr caller) with
      | Some from_caller => [PushEdge from_caller (mkEdge from Response)]
      | None => []
      end
  | _ => []
  end.

Definition member_pushes (resolve : Z → option nat) (from : nat) (m : WaitMember) : list Push :=
  match member_joined m ≫= resolve with
  | Some to => [PushEdge from (mkEdge to WaitingOneOf); PushWaitedBy to from]
  | None => []
  end.

Definition set_pushes (resolve : Z → option nat) (from : nat) (wait : TaskWait) : list Push :=
  match assessment wait with
  | Set_ members => set_armed members ≫= member_pushes resolve from
  | _ => []
  end.

Fixpoint wait_pushes (resolve : Z → option nat) (from : nat) (l : list TaskWait) : list Push :=
  match l with
  | [] => []
  | wait :: l =>
      waiting_pushes resolve from wait ++ response_pushes resolve from wait ++
      set_pushes resolve from wait ++ wait_pushes resolve (S from) l
  end.

(** [analysis.barriers[behind.barrier]] is in range by [behind]'s own loop; the
    index is checked as the source's is. *)
Fixpoint behind_pushes (resolve : Z → option nat) (bs : list PollingBarrier)
    (l : list Behind) : outcome (list Push) :=
  match l with
  | [] => Ret []
  | b :: l =>
      held ← or_panic (bs !! b_barrier b);
      rest ← behind_pushes resolve bs l;
      Ret (match resolve (holder held) with
           | Some to =>
               [PushEdge (b_waiter b) (mkEdge to
                  match b_relation b with
                  | BReservation => Reservation
                  | BQueueOrder => QueueOrder
                  end)]
           | None => []
           end ++ rest)
  end.

Definition join_set_pushes (resolve : Z → option nat) (set : JoinSet) : list Push :=
  js_children set ≫= λ child,
    match resolve child with
    | Some to => [PushEdge (js_owner set) (mkEdge to EJoinSet);
                  SetMember to (js_addr set) (js_owner set)]
    | None => []
    end.

Definition held_pushes (resolve : Z → option nat) (future : HeldFuture) : list Push :=
  match hf_wait_task future ≫= resolve with
  | Some to => [PushEdge (hf_owner future) (mkEdge to Handle);
                PushHeldBy to (hf_owner future)]
  | None => []
  end.

Definition finish_edges (l : list Edge) : list Edge :=
  dedup_by (λ e last, (to e =? to last)%nat) (sort_by edge_leb l).
Definition finish_list (l : list nat) : list nat :=
  dedup_by Nat.eqb (sort_by Nat.leb l).

(** [Relations::build]. *)
Definition build (tasks : list Task) (analysis : Analysis) (held : list HeldFuture)
    (join_sets : list JoinSet) : outcome Relations :=
  let resolve := resolve tasks in
  let n := length tasks in
  let empty := mkRelations (replicate n []) (replicate n []) (replicate n []) (replicate n None) in
  r ← run_pushes empty (wait_pushes resolve 0 (waits analysis));
  behind ← behind_pushes resolve (barriers analysis) (behind analysis);
  r ← run_pushes r behind;
  r ← run_pushes r (join_sets ≫= join_set_pushes resolve);
  r ← run_pushes r (held ≫= held_pushes resolve);
  Ret (mkRelations (finish_edges <$> edges r) (finish_list <$> waited_by r)
         (finish_list <$> held_by r) (member_of r)).

(** [Relations::joined]. *)
Definition joined (r : Relations) (index : nat) : outcome bool :=
  w ← or_panic (waited_by r !! index);
  h ← or_panic (held_by r !! index);
  m ← or_panic (member_of r !! index);
  Ret (negb (length w =? 0)%nat || negb (length h =? 0)%nat ||
       match m with Some _ => true | None => false end).
