(* ===== verification/TaskGraphFacts.v ===== *)
(** The relation index: what [build] makes of an analysis, in terms of the claims
    one task has on another. *)

From S2P Require Import Prelude TaskGraph.

Local Open Scope Z_scope.

(** ** Lemmas: sorting and removing repeats *)

Lemma kind_rank_inj k k' : kind_rank k = kind_rank k' → k = k'.
Proof. by destruct k, k'. Qed.

Lemma edge_leb_spec x y :
  edge_leb x y = true ↔
  (to x < to y)%nat ∨ to x = to y ∧ (kind_rank (kind x) <= kind_rank (kind y))%nat.
Proof.
  unfold edge_leb. rewrite orb_true_iff, andb_true_iff, Nat.ltb_lt, Nat.eqb_eq, Nat.leb_le. done.
Qed.

Lemma edge_leb_total x y : edge_leb x y = true ∨ edge_leb y x = true.
Proof. rewrite !edge_leb_spec. lia. Qed.
Lemma edge_leb_trans x y z : edge_leb x y = true → edge_leb y z = true → edge_leb x z = true.
Proof. rewrite !edge_leb_spec. lia. Qed.

(** The strongest claim on its task among [l]. *)
Definition strongest (e : Edge) (l : list Edge) : Prop :=
  e ∈ l ∧ ∀ e', e' ∈ l → to e' = to e → (kind_rank (kind e) <= kind_rank (kind e'))%nat.

Lemma dedup_edges last l :
  StronglySorted (λ a b, edge_leb a b = true) (last :: l) →
  let l' := last :: dedup_from (λ e last, (to e =? to last)%nat) last l in
  StronglySorted (λ a b, (to a < to b)%nat) l' ∧
  ∀ e, e ∈ l' ↔ strongest e (last :: l).
Proof.
  revert last. induction l as [|x l IH]; intros last Hs.
  { simpl. split; [repeat constructor|]. intros e. unfold strongest.
    rewrite list_elem_of_singleton. split; [|by intros [? _]].
    intros ->. split; [done|]. by intros e' ->%list_elem_of_singleton. }
  apply StronglySorted_cons in Hs as [Hlast Hs]. apply Forall_cons in Hlast as [Hlx Hl].
  rewrite edge_leb_spec in Hlx. cbn [dedup_from].
  destruct (Nat.eqb_spec (to x) (to last)) as [Heq|Hne].
  - destruct (IH last) as [Hsort Hin].
    { apply StronglySorted_cons. split; [done|]. by apply StronglySorted_cons in Hs as [_ ?]. }
    split; [done|]. intros e. rewrite Hin. unfold strongest. split.
    + intros [He Hmin]. split; [set_solver|]. intros e' He' Hto.
      apply elem_of_cons in He' as [->|[->|He']%elem_of_cons];
        [apply Hmin; [left|done]| |apply Hmin; [by right|done]].
      specialize (Hmin last ltac:(left) ltac:(congruence)). lia.
    + intros [He Hmin]. split; [|intros e' He'; apply Hmin; set_solver].
      apply elem_of_cons in He as [->|[->|He]%elem_of_cons]; [left| |by right].
      specialize (Hmin last ltac:(left) ltac:(congruence)).
      assert (x = last) as ->; [|left].
      destruct x as [tx kx], last as [tl kl]. simpl in *. f_equal; [done|].
      apply kind_rank_inj. lia.
  - destruct (IH x Hs) as [Hsort Hin].
    assert (∀ e, e ∈ x :: l → (to last < to e)%nat) as Hlt.
    { apply StronglySorted_cons in Hs as [Hx _]. rewrite Forall_forall in Hx.
      intros e [->|He]%elem_of_cons; [lia|]. specialize (Hx e He).
      rewrite edge_leb_spec in Hx. lia. }
    split.
    + constructor; [done|]. apply Forall_forall. intros e He. apply Hlt.
      by apply Hin in He as [? _].
    + intros e. rewrite elem_of_cons, Hin. unfold strongest. split.
      * intros [->|[He Hmin]].
        -- split; [left|]. intros e' [->|He']%elem_of_cons Hto; [done|].
           specialize (Hlt e' He'). lia.
        -- split; [by right|]. intros e' [->|He']%elem_of_cons Hto; [|by apply Hmin].
           specialize (Hlt e He). lia.
      * intros [[->|He]%elem_of_cons Hmin]; [by left|]. right. split; [done|].
        intros e' He'. apply Hmin. by right.
Qed.

Lemma finish_edges_spec l :
  StronglySorted (λ a b, (to a < to b)%nat) (finish_edges l) ∧
  ∀ e, e ∈ finish_edges l ↔ strongest e l.
Proof.
  pose proof (sort_by_sorted edge_leb edge_leb_total edge_leb_trans l) as Hs.
  pose proof (sort_by_perm edge_leb l) as Hp.
  assert (∀ e, strongest e (sort_by edge_leb l) ↔ strongest e l) as Hst
    by (intros e; unfold strongest; by setoid_rewrite Hp).
  unfold finish_edges. setoid_rewrite <- Hst. clear Hp Hst.
  destruct (sort_by edge_leb l) as [|x s]; [|by apply dedup_edges].
  simpl. split; [constructor|]. intros e. unfold strongest. rewrite elem_of_nil. tauto.
Qed.

Lemma dedup_nats last l :
  StronglySorted (λ a b, Nat.leb a b = true) (last :: l) →
  let l' := last :: dedup_from Nat.eqb last l in
  StronglySorted lt l' ∧ ∀ x, x ∈ l' ↔ x ∈ last :: l.
Proof.
  revert last. induction l as [|x l IH]; intros last Hs; [by split; [repeat constructor|]|].
  apply StronglySorted_cons in Hs as [Hlast Hs]. apply Forall_cons in Hlast as [Hlx Hl].
  apply Nat.leb_le in Hlx. cbn [dedup_from]. destruct (Nat.eqb_spec x last) as [->|Hne].
  - destruct (IH last Hs) as [Hsort Hin]. split; [done|]. intros y. rewrite Hin. set_solver.
  - destruct (IH x Hs) as [Hsort Hin]. split.
    + constructor; [done|]. apply Forall_forall. intros y Hy. apply Hin in Hy.
      apply StronglySorted_cons in Hs as [Hx _]. rewrite Forall_forall in Hx.
      apply elem_of_cons in Hy as [->|Hy]; [lia|]. specialize (Hx y Hy).
      apply Nat.leb_le in Hx. lia.
    + intros y. rewrite elem_of_cons, Hin, (elem_of_cons (x :: l)). done.
Qed.

Lemma finish_list_spec l :
  StronglySorted lt (finish_list l) ∧ ∀ x, x ∈ finish_list l ↔ x ∈ l.
Proof.
  assert (StronglySorted (λ a b, Nat.leb a b = true) (sort_by Nat.leb l)) as Hs.
  { apply sort_by_sorted.
    - intros x y. rewrite !Nat.leb_le. lia.
    - intros x y z. rewrite !Nat.leb_le. lia. }
  assert (∀ x, x ∈ sort_by Nat.leb l ↔ x ∈ l) as Hp by (intros x; by rewrite sort_by_perm).
  unfold finish_list. setoid_rewrite <- Hp.
  clear Hp. destruct (sort_by Nat.leb l) as [|x s]; [|by apply dedup_nats].
  simpl. by split; [constructor|].
Qed.

(** ** Lemmas: running the pushes *)

Definition edges_at (i : nat) (l : list Push) : list Edge :=
  omap (λ p, match p with
             | PushEdge f e => if decide (f = i) then Some e else None
             | _ => None end) l.
Definition waited_at (i : nat) (l : list Push) : list nat :=
  omap (λ p, match p with
             | PushWaitedBy a f => if decide (a = i) then Some f else None
             | _ => None end) l.
Definition held_at (i : nat) (l : list Push) : list nat :=
  omap (λ p, match p with
             | PushHeldBy a f => if decide (a = i) then Some f else None
             | _ => None end) l.
Definition members_at (i : nat) (l : list Push) : list (Z * nat) :=
  omap (λ p, match p with
             | SetMember a addr o => if decide (a = i) then Some (addr, o) else None
             | _ => None end) l.

(** A push in range of [n] tasks. *)
Definition push_in (n : nat) (p : Push) : Prop :=
  match p with
  | PushEdge i _ | PushWaitedBy i _ | PushHeldBy i _ | SetMember i _ _ => (i < n)%nat
  end.

Record sized (n : nat) (r : Relations) : Prop := {
  sz_edges : length (edges r) = n;
  sz_waited : length (waited_by r) = n;
  sz_held : length (held_by r) = n;
  sz_member : length (member_of r) = n
}.

Lemma push_at_ok {A} i (x : A) v n :
  length v = n → (i < n)%nat →
  push_at i x v = Ret (alter (λ l, l ++ [x]) i v).
Proof. intros <- Hi. unfold push_at. by rewrite (proj2 (Nat.ltb_lt _ _)). Qed.

Lemma lookup_alter_if {A} (f : A → A) i j (v : list A) :
  alter f i v !! j = (λ a, if decide (i = j) then f a else a) <$> v !! j.
Proof.
  destruct (decide (i = j)) as [->|Hne].
  - rewrite list_lookup_alter_eq. by destruct (v !! j).
  - rewrite list_lookup_alter_ne by done. by destruct (v !! j).
Qed.

Lemma run_pushes_spec n l r :
  sized n r → Forall (push_in n) l →
  ∃ r', run_pushes r l = Ret r' ∧ sized n r' ∧
    (∀ i, edges r' !! i = (λ es, es ++ edges_at i l) <$> edges r !! i) ∧
    (∀ i, waited_by r' !! i = (λ ws, ws ++ waited_at i l) <$> waited_by r !! i) ∧
    (∀ i, held_by r' !! i = (λ hs, hs ++ held_at i l) <$> held_by r !! i) ∧
    (∀ i, member_of r' !! i =
       (λ o, match o with Some _ => o | None => head (members_at i l) end) <$> member_of r !! i).
Proof.
  intros Hr Hl. revert r Hr. induction Hl as [|p l Hp _ IH]; intros r Hr.
  { exists r. split; [done|]. split; [done|]. split_and!; intros i.
    - destruct (edges r !! i); simpl; [by rewrite app_nil_r|done].
    - destruct (waited_by r !! i); simpl; [by rewrite app_nil_r|done].
    - destruct (held_by r !! i); simpl; [by rewrite app_nil_r|done].
    - by destruct (member_of r !! i) as [[?|]|]. }
  destruct Hr as [H1 H2 H3 H4]. cbn [run_pushes].
  destruct p as [f e|a f|a f|a ad o]; simpl in Hp; cbn [run_push].
  1-3: rewrite (push_at_ok _ _ _ n) by done.
  4: unfold get_or_insert; rewrite (proj2 (Nat.ltb_lt _ _)) by lia.
  all: rewrite outcome_bind_eq; cbv beta iota; rewrite outcome_bind_eq; cbv beta iota.
  all: match goal with |- context [run_pushes ?r0 _] =>
         destruct (IH r0) as (r' & -> & Hsz & He & Hw & Hh & Hm);
         [split; simpl; rewrite ?length_alter; done|] end.
  all: exists r'; split; [done|]; split; [done|].
  all: split_and!; intros i; rewrite ?He, ?Hw, ?Hh, ?Hm; simpl; try done.
  all: rewrite lookup_alter_if.
  - destruct (edges r !! i); simpl; [|done]. case_decide; simpl; [|done].
    by rewrite <- app_assoc.
  - destruct (waited_by r !! i); simpl; [|done]. case_decide; simpl; [|done].
    by rewrite <- app_assoc.
  - destruct (held_by r !! i); simpl; [|done]. case_decide; simpl; [|done].
    by rewrite <- app_assoc.
  - destruct (member_of r !! i) as [[]|]; simpl; [by case_decide| |done]. by case_decide.
Qed.

(** ** Claims

    Why one task is related to another, before the strongest is chosen. *)

Section claims.
Context (tasks : list Task) (analysis : Analysis) (held : list HeldFuture)
  (join_sets : list JoinSet).

Definition relation_kind (r : BarrierRelation) : EdgeKind :=
  match r with BReservation => Reservation | BQueueOrder => QueueOrder end.

Inductive claim : nat → nat → EdgeKind → Prop :=
  | claim_waiting i w v addr id t :
      waits analysis !! i = Some w → verified w = Some v → target v = WTask addr id →
      resolve tasks addr = Some t → claim i t EWaiting
  | claim_one_of i w ms m addr t :
      waits analysis !! i = Some w → assessment w = Set_ ms → m ∈ ms →
      is_Some (m_armed m) → member_joined m = Some addr →
      resolve tasks addr = Some t → claim i t WaitingOneOf
  | claim_response i w v a c f :
      waits analysis !! i = Some w → verified w = Some v →
      target v = WHttpConn a (Some (CallerTask c)) →
      resolve tasks (tr_addr c) = Some f → claim f i Response
  | claim_behind i w j b rel t :
      waits analysis !! i = Some w → barriers analysis !! j = Some b →
      behind_relation b w = Some rel → resolve tasks (holder b) = Some t →
      claim i t (relation_kind rel)
  | claim_join_set s c t :
      s ∈ join_sets → c ∈ js_children s → resolve tasks c = Some t →
      claim (js_owner s) t EJoinSet
  | claim_handle f a t :
      f ∈ held → hf_wait_task f = Some a → resolve tasks a = Some t →
      claim (hf_owner f) t Handle.

(** ** Lemmas: what each loop pushes *)

Lemma elem_of_wait_pushes p from l :
  p ∈ wait_pushes (resolve tasks) from l ↔
  ∃ i w, l !! i = Some w ∧
    (p ∈ waiting_pushes (resolve tasks) (from + i) w ∨
     p ∈ response_pushes (resolve tasks) (from + i) w ∨
     p ∈ set_pushes (resolve tasks) (from + i) w).
Proof.
  revert from. induction l as [|w l IH]; intros from; cbn [wait_pushes].
  { rewrite elem_of_nil. split; [done|]. intros (i & w & Hi & _). done. }
  rewrite !elem_of_app, IH. split.
  - intros [H|[H|[H|(i & w' & Hi & H)]]];
      [exists 0%nat, w; rewrite Nat.add_0_r; auto..|].
    exists (S i), w'. rewrite Nat.add_succ_r. auto.
  - intros ([|i] & w' & Hi & H); simpl in Hi.
    + injection Hi as <-. rewrite Nat.add_0_r in H. tauto.
    + rewrite Nat.add_succ_r in H. right. right. right. eauto.
Qed.

Lemma elem_of_behind_waits b barrier h waiter l :
  b ∈ behind_waits barrier h waiter l ↔
  ∃ i w, l !! i = Some w ∧ b_waiter b = (waiter + i)%nat ∧ b_barrier b = barrier ∧
    behind_relation h w = Some (b_relation b).
Proof.
  revert waiter. induction l as [|w l IH]; intros waiter; cbn [behind_waits].
  { rewrite elem_of_nil. split; [done|]. by intros (i & w & Hi & _). }
  assert (b ∈ behind_waits barrier h (S waiter) l ↔ ∃ i w', (w :: l) !! S i = Some w' ∧
    b_waiter b = (waiter + S i)%nat ∧ b_barrier b = barrier ∧
    behind_relation h w' = Some (b_relation b)) as IH'.
  { rewrite IH. setoid_rewrite Nat.add_succ_r. done. }
  destruct (behind_relation h w) as [rel|] eqn:E.
  - rewrite elem_of_cons, IH'. split.
    + intros [->|(i & w' & ?)]; [exists 0%nat, w; rewrite Nat.add_0_r; auto|eauto].
    + intros ([|i] & w' & Hi & Hw & Hb & Hr); [left|right; by exists i, w'].
      simpl in Hi. injection Hi as ->. rewrite E in Hr. destruct b; simpl in *.
      f_equal; [lia|done|congruence].
  - rewrite IH'. split; [intros (i & w' & ?); eauto|].
    intros ([|i] & w' & Hi & Hw & Hb & Hr); [simplify_eq/=; congruence|by exists i, w'].
Qed.

Lemma elem_of_behind_barriers b ws barrier l :
  b ∈ behind_barriers ws barrier l ↔
  ∃ j h w, l !! j = Some h ∧ b_barrier b = (barrier + j)%nat ∧
    ws !! b_waiter b = Some w ∧ behind_relation h w = Some (b_relation b).
Proof.
  revert barrier. induction l as [|h l IH]; intros barrier; cbn [behind_barriers].
  { rewrite elem_of_nil. split; [done|]. by intros (j & h & w & Hj & _). }
  rewrite elem_of_app, elem_of_behind_waits, IH. split.
  - intros [(i & w & Hi & Hw & Hb & Hr)|(j & h' & w & Hj & Hb & Hw & Hr)].
    + exists 0%nat, h, w. rewrite Nat.add_0_r, Hw. auto.
    + exists (S j), h', w. rewrite Nat.add_succ_r. auto.
  - intros ([|j] & h' & w & Hj & Hb & Hw & Hr); simpl in Hj.
    + injection Hj as <-. left. exists (b_waiter b), w. rewrite Nat.add_0_r in Hb. auto.
    + right. exists j, h', w. rewrite Nat.add_succ_r in Hb. auto.
Qed.

Lemma elem_of_behind b :
  b ∈ behind analysis ↔
  ∃ h w, barriers analysis !! b_barrier b = Some h ∧ waits analysis !! b_waiter b = Some w ∧
    behind_relation h w = Some (b_relation b).
Proof.
  unfold behind. rewrite elem_of_behind_barriers. split.
  - intros (j & h & w & Hj & -> & ?). eauto.
  - intros (h & w & Hh & Hw & Hr). by exists (b_barrier b), h, w.
Qed.

Lemma behind_pushes_spec l :
  (∀ b, b ∈ l → is_Some (barriers analysis !! b_barrier b)) →
  ∃ ps, behind_pushes (resolve tasks) (barriers analysis) l = Ret ps ∧
    ∀ p, p ∈ ps ↔ ∃ b h t, b ∈ l ∧ barriers analysis !! b_barrier b = Some h ∧
      resolve tasks (holder h) = Some t ∧
      p = PushEdge (b_waiter b) (mkEdge t (relation_kind (b_relation b))).
Proof.
  induction l as [|b l IH]; intros Hin; cbn [behind_pushes].
  { exists []. split; [done|]. intros p. rewrite elem_of_nil. split; [done|].
    by intros (b & h & t & Hb%elem_of_nil & _). }
  destruct (Hin b ltac:(left)) as [h Hh]. rewrite Hh. simpl or_panic.
  destruct IH as (ps & -> & Hps); [intros b' Hb'; apply Hin; by right|].
  rewrite !outcome_bind_eq. eexists. split; [reflexivity|]. intros p.
  rewrite elem_of_app, Hps. split.
  - intros [Hp|(b' & h' & t & Hb' & ?)]; [|exists b', h', t; split; [by right|done]].
    destruct (resolve tasks (holder h)) as [t|] eqn:E; [|by apply elem_of_nil in Hp].
    apply list_elem_of_singleton in Hp as ->. exists b, h, t. split; [left|auto].
  - intros (b' & h' & t & [->|Hb']%elem_of_cons & Hh' & Ht & ->); [left|right; eauto 10].
    rewrite Hh in Hh'. injection Hh' as <-. rewrite Ht. by apply list_elem_of_singleton.
Qed.

(** Every push of an analysis, in the order of the loops. *)
Definition is_push (p : Push) : Prop :=
  p ∈ wait_pushes (resolve tasks) 0 (waits analysis) ∨
  (∃ b h t, b ∈ behind analysis ∧ barriers analysis !! b_barrier b = Some h ∧
    resolve tasks (holder h) = Some t ∧
    p = PushEdge (b_waiter b) (mkEdge t (relation_kind (b_relation b)))) ∨
  p ∈ join_sets ≫= join_set_pushes (resolve tasks) ∨
  p ∈ held ≫= held_pushes (resolve tasks).

Lemma elem_of_waiting_pushes p i w :
  p ∈ waiting_pushes (resolve tasks) i w ↔
  ∃ v addr id t, verified w = Some v ∧ target v = WTask addr id ∧
    resolve tasks addr = Some t ∧
    (p = PushEdge i (mkEdge t EWaiting) ∨ p = PushWaitedBy t i).
Proof.
  unfold waiting_pushes. split.
  - destruct (verified w) as [v|]; [|intros ?%elem_of_nil; done]. simpl.
    destruct (target v) as [|addr id| | | | | | |] eqn:E; try (intros ?%elem_of_nil; done).
    destruct (resolve tasks addr) as [t|] eqn:Et; [|intros ?%elem_of_nil; done].
    intros Hp. exists v, addr, id, t. set_solver.
  - intros (v & addr & id & t & -> & E & Et & Hp). simpl. rewrite E, Et. set_solver.
Qed.

Lemma elem_of_response_pushes p i w :
  p ∈ response_pushes (resolve tasks) i w ↔
  ∃ v a c f, verified w = Some v ∧ target v = WHttpConn a (Some (CallerTask c)) ∧
    resolve tasks (tr_addr c) = Some f ∧ p = PushEdge f (mkEdge i Response).
Proof.
  unfold response_pushes. split.
  - destruct (verified w) as [v|]; [|intros ?%elem_of_nil; done]. simpl.
    destruct (target v) as [| | | | | | | |a [[c| | | |]|]] eqn:E;
      try (intros ?%elem_of_nil; done).
    destruct (resolve tasks (tr_addr c)) as [f|] eqn:Ef; [|intros ?%elem_of_nil; done].
    intros ->%list_elem_of_singleton. by exists v, a, c, f.
  - intros (v & a & c & f & -> & E & Ef & ->). simpl. rewrite E, Ef.
    by apply list_elem_of_singleton.
Qed.

Lemma elem_of_set_pushes p i w :
  p ∈ set_pushes (resolve tasks) i w ↔
  ∃ ms m addr t, assessment w = Set_ ms ∧ m ∈ ms ∧ is_Some (m_armed m) ∧
    member_joined m = Some addr ∧ resolve tasks addr = Some t ∧
    (p = PushEdge i (mkEdge t WaitingOneOf) ∨ p = PushWaitedBy t i).
Proof.
  unfold set_pushes. split.
  - destruct (assessment w) as [| | | | |ms| |]; try (intros ?%elem_of_nil; done).
    intros (m & Hp & [Ha Hm]%list_elem_of_filter)%list_elem_of_bind.
    unfold member_pushes in Hp. destruct (member_joined m) as [addr|] eqn:Em;
      [|by apply elem_of_nil in Hp]. simpl in Hp.
    destruct (resolve tasks addr) as [t|] eqn:Et; [|by apply elem_of_nil in Hp].
    exists ms, m, addr, t. set_solver.
  - intros (ms & m & addr & t & -> & Hm & Ha & Em & Et & Hp).
    apply list_elem_of_bind. exists m. split; [|by apply list_elem_of_filter].
    unfold member_pushes. rewrite Em. simpl. rewrite Et. set_solver.
Qed.

Lemma elem_of_join_set_pushes p :
  p ∈ join_sets ≫= join_set_pushes (resolve tasks) ↔
  ∃ s c t, s ∈ join_sets ∧ c ∈ js_children s ∧ resolve tasks c = Some t ∧
    (p = PushEdge (js_owner s) (mkEdge t EJoinSet) ∨
     p = SetMember t (js_addr s) (js_owner s)).
Proof.
  rewrite list_elem_of_bind. unfold join_set_pushes. split.
  - intros (s & (c & Hp & Hc)%list_elem_of_bind & Hs).
    destruct (resolve tasks c) as [t|] eqn:Et; [|by apply elem_of_nil in Hp].
    exists s, c, t. set_solver.
  - intros (s & c & t & Hs & Hc & Et & Hp). exists s. split; [|done].
    apply list_elem_of_bind. exists c. rewrite Et. split; [set_solver|done].
Qed.

Lemma elem_of_held_pushes p :
  p ∈ held ≫= held_pushes (resolve tasks) ↔
  ∃ f a t, f ∈ held ∧ hf_wait_task f = Some a ∧ resolve tasks a = Some t ∧
    (p = PushEdge (hf_owner f) (mkEdge t Handle) ∨ p = PushHeldBy t (hf_owner f)).
Proof.
  rewrite list_elem_of_bind. unfold held_pushes. split.
  - intros (f & Hp & Hf). destruct (hf_wait_task f) as [a|] eqn:Ea;
      [|by apply elem_of_nil in Hp]. simpl in Hp.
    destruct (resolve tasks a) as [t|] eqn:Et; [|by apply elem_of_nil in Hp].
    exists f, a, t. set_solver.
  - intros (f & a & t & Hf & Ea & Et & Hp). exists f. split; [|done].
    rewrite Ea. simpl. rewrite Et. set_solver.
Qed.

Lemma index_from_Some i l m a t :
  index_from i l m !! a = Some t →
  m !! a = Some t ∨ ∃ j task, l !! j = Some task ∧ t_addr task = a ∧ t = (i + j)%nat.
Proof.
  revert i m. induction l as [|x l IH]; intros i m; cbn [index_from]; [by left|].
  intros [Hm|(j & task & Hj & Ha & ->)]%IH.
  - apply lookup_insert_Some in Hm as [[<- <-]|[_ ?]]; [|by left].
    right. exists 0%nat, x. rewrite Nat.add_0_r. done.
  - right. exists (S j), task. rewrite Nat.add_succ_r. done.
Qed.

Lemma resolve_Some a t :
  resolve tasks a = Some t → ∃ task, tasks !! t = Some task ∧ t_addr task = a.
Proof.
  intros [H|(j & task & Hj & Ha & ->)]%index_from_Some; [by rewrite lookup_empty in H|].
  simpl. eauto.
Qed.

Lemma resolve_lt a t : resolve tasks a = Some t → (t < length tasks)%nat.
Proof. intros (task & Ht & _)%resolve_Some. by eapply lookup_lt_Some. Qed.

(** ** What is pushed, claim by claim *)

Lemma push_edge_claim i t k :
  is_push (PushEdge i (mkEdge t k)) ↔ claim i t k.
Proof.
  unfold is_push. rewrite elem_of_wait_pushes, elem_of_join_set_pushes, elem_of_held_pushes.
  setoid_rewrite elem_of_waiting_pushes. setoid_rewrite elem_of_response_pushes.
  setoid_rewrite elem_of_set_pushes. split.
  - intros [(j & w & Hw & [H|[H|H]])|[H|[H|H]]].
    + destruct H as (v & addr & id & t' & Hv & Ht & Hr & [[= -> -> ->]|?]); [|done].
      by eapply claim_waiting.
    + destruct H as (v & a & c & f & Hv & Ht & Hr & [= -> -> ->]). by eapply claim_response.
    + destruct H as (ms & m & addr & t' & Ha & Hm & Har & Hj & Hr & [[= -> -> ->]|?]); [|done].
      by eapply claim_one_of.
    + destruct H as (b & h & t' & Hb & Hh & Hr & [= -> -> ->]).
      apply elem_of_behind in Hb as (h' & w & Hh' & Hw & Hrel).
      assert (h' = h) as -> by congruence. by eapply claim_behind.
    + destruct H as (s & c & t' & Hs & Hc & Hr & [[= -> -> ->]|?]); [|done].
      by eapply claim_join_set.
    + destruct H as (f & a & t' & Hf & Ha & Hr & [[= -> -> ->]|?]); [|done].
      by eapply claim_handle.
  - destruct 1 as [i w v addr id t Hw Hv Ht Hr|i w ms m addr t Hw Ha Hm Har Hj Hr
      |i w v a c f Hw Hv Ht Hr|i w j b rel t Hw Hb Hrel Hr|s c t Hs Hc Hr|f a t Hf Ha Hr].
    + left. exists i, w. split; [done|]. left. exists v, addr, id, t. auto.
    + left. exists i, w. split; [done|]. right. right. exists ms, m, addr, t. auto 10.
    + left. exists i, w. split; [done|]. right. left. by exists v, a, c, f.
    + right. left. exists (mkBehind i j rel), b, t. split; [|auto].
      apply elem_of_behind. simpl. eauto.
    + right. right. left. exists s, c, t. auto.
    + right. right. right. exists f, a, t. auto.
Qed.

Lemma push_waited_claim t x :
  is_push (PushWaitedBy t x) ↔ claim x t EWaiting ∨ claim x t WaitingOneOf.
Proof.
  unfold is_push. rewrite elem_of_wait_pushes, elem_of_join_set_pushes, elem_of_held_pushes.
  setoid_rewrite elem_of_waiting_pushes. setoid_rewrite elem_of_response_pushes.
  setoid_rewrite elem_of_set_pushes. split.
  - intros [(j & w & Hw & [H|[H|H]])|[H|[H|H]]].
    + destruct H as (v & addr & id & t' & Hv & Ht & Hr & [?|[= -> ->]]); [done|].
      left. by eapply claim_waiting.
    + by destruct H as (v & a & c & f & Hv & Ht & Hr & ?).
    + destruct H as (ms & m & addr & t' & Ha & Hm & Har & Hj & Hr & [?|[= -> ->]]); [done|].
      right. by eapply claim_one_of.
    + by destruct H as (b & h & t' & Hb & Hh & Hr & ?).
    + by destruct H as (s & c & t' & Hs & Hc & Hr & [?|?]).
    + by destruct H as (f & a & t' & Hf & Ha & Hr & [?|?]).
  - intros [H|H]; inversion H as [i w v addr id t' Hw Hv Ht Hr|i w ms m addr t' Hw Ha Hm Har Hj Hr
      | |i w j b rel t' Hw Hb Hrel Hr Hk| |]; subst.
    + left. exists x, w. split; [done|]. left. exists v, addr, id, t. auto.
    + by destruct rel.
    + left. exists x, w. split; [done|]. right. right. exists ms, m, addr, t. auto 10.
    + by destruct rel.
Qed.

Lemma push_held_claim t x : is_push (PushHeldBy t x) ↔ claim x t Handle.
Proof.
  unfold is_push. rewrite elem_of_wait_pushes, elem_of_join_set_pushes, elem_of_held_pushes.
  setoid_rewrite elem_of_waiting_pushes. setoid_rewrite elem_of_response_pushes.
  setoid_rewrite elem_of_set_pushes. split.
  - intros [(j & w & Hw & [H|[H|H]])|[H|[H|H]]].
    + by destruct H as (v & addr & id & t' & Hv & Ht & Hr & [?|?]).
    + by destruct H as (v & a & c & f & Hv & Ht & Hr & ?).
    + by destruct H as (ms & m & addr & t' & Ha & Hm & Har & Hj & Hr & [?|?]).
    + by destruct H as (b & h & t' & Hb & Hh & Hr & ?).
    + by destruct H as (s & c & t' & Hs & Hc & Hr & [?|?]).
    + destruct H as (f & a & t' & Hf & Ha & Hr & [?|[= -> ->]]); [done|]. by eapply claim_handle.
  - intros H. inversion H as [| | |i w j b rel t' Hw Hb Hrel Hr Hk| |f a t' Hf Ha Hr]; subst;
      [by destruct rel|]. right. right. right. exists f, a, t. auto.
Qed.

Lemma push_member_claim t a o :
  is_push (SetMember t a o) ↔
  ∃ s c, s ∈ join_sets ∧ c ∈ js_children s ∧ resolve tasks c = Some t ∧
    js_addr s = a ∧ js_owner s = o.
Proof.
  unfold is_push. rewrite elem_of_wait_pushes, elem_of_join_set_pushes, elem_of_held_pushes.
  setoid_rewrite elem_of_waiting_pushes. setoid_rewrite elem_of_response_pushes.
  setoid_rewrite elem_of_set_pushes. split.
  - intros [(j & w & Hw & [H|[H|H]])|[H|[H|H]]].
    + by destruct H as (v & addr & id & t' & Hv & Ht & Hr & [?|?]).
    + by destruct H as (v & b & c & f & Hv & Ht & Hr & ?).
    + by destruct H as (ms & m & addr & t' & Ha & Hm & Har & Hj & Hr & [?|?]).
    + by destruct H as (b & h & t' & Hb & Hh & Hr & ?).
    + destruct H as (s & c & t' & Hs & Hc & Hr & [?|[= -> -> ->]]); [done|]. eauto 10.
    + by destruct H as (f & b & t' & Hf & Ha & Hr & [?|?]).
  - intros (s & c & Hs & Hc & Hr & <- & <-). right. right. left. exists s, c, t. auto.
Qed.

(** ** The build *)

(** The indices an analysis and a census name are of the list they were built
    from. *)
Record indexed : Prop := {
  ix_waits : (length (waits analysis) <= length tasks)%nat;
  ix_sets : ∀ s, s ∈ join_sets → (js_owner s < length tasks)%nat;
  ix_held : ∀ f, f ∈ held → (hf_owner f < length tasks)%nat
}.

Lemma claim_in i t k : indexed → claim i t k → (i < length tasks)%nat ∧ (t < length tasks)%nat.
Proof.
  intros [H1 H2 H3]. assert (∀ i w, waits analysis !! i = Some w → (i < length tasks)%nat) as Hi.
  { intros j w Hw%lookup_lt_Some. lia. }
  destruct 1; eauto using resolve_lt.
Qed.

Lemma is_push_in p : indexed → is_push p → push_in (length tasks) p.
Proof.
  intros Hix Hp. destruct p as [i [t k]|t x|t x|t a o]; simpl.
  - apply push_edge_claim in Hp. by apply claim_in in Hp as [? _].
  - apply push_waited_claim in Hp as [Hp|Hp]; by apply claim_in in Hp as [_ ?].
  - apply push_held_claim in Hp. by apply claim_in in Hp as [_ ?].
  - apply push_member_claim in Hp as (s & c & _ & _ & Hr & _). by eapply resolve_lt.
Qed.

Lemma run_pushes_app l l' r :
  run_pushes r (l ++ l') = (r ← run_pushes r l; run_pushes r l').
Proof.
  revert r. induction l as [|p l IH]; intros r; [done|]. cbn [run_pushes app].
  rewrite !outcome_bind_eq. destruct (run_push r p); [|done]. apply IH.
Qed.

(** The four loops are one run of every push. *)
Lemma build_pushes :
  ∃ all, (∀ p, p ∈ all ↔ is_push p) ∧
    build tasks analysis held join_sets =
      let n := length tasks in
      r ← run_pushes (mkRelations (replicate n []) (replicate n []) (replicate n [])
                        (replicate n None)) all;
      Ret (mkRelations (finish_edges <$> edges r) (finish_list <$> waited_by r)
             (finish_list <$> held_by r) (member_of r)).
Proof.
  destruct (behind_pushes_spec (behind analysis)) as (bs & Hbs & Hin).
  { intros b (h & w & Hh & _)%elem_of_behind. by eexists. }
  exists (wait_pushes (resolve tasks) 0 (waits analysis) ++ bs ++
     (join_sets ≫= join_set_pushes (resolve tasks)) ++ (held ≫= held_pushes (resolve tasks))).
  split; [intros p; rewrite !elem_of_app, Hin; unfold is_push; tauto|].
  unfold build. cbv zeta. rewrite run_pushes_app, !outcome_bind_eq.
  destruct (run_pushes _ (wait_pushes _ _ _)) as [r1|]; [|done]. rewrite Hbs.
  rewrite run_pushes_app, !outcome_bind_eq. destruct (run_pushes r1 bs) as [r2|]; [|done].
  rewrite run_pushes_app, !outcome_bind_eq. by destruct (run_pushes r2 _).
Qed.

Lemma elem_of_edges_at e i l : e ∈ edges_at i l ↔ PushEdge i e ∈ l.
Proof.
  unfold edges_at. rewrite list_elem_of_omap. split; [|intros H; eexists; split; [exact H|]].
  - intros ([f e'| | |] & Hp & He); try done. case_decide; [|done]. by simplify_eq.
  - simpl. by rewrite decide_True.
Qed.
Lemma elem_of_waited_at x i l : x ∈ waited_at i l ↔ PushWaitedBy i x ∈ l.
Proof.
  unfold waited_at. rewrite list_elem_of_omap. split; [|intros H; eexists; split; [exact H|]].
  - intros ([|a f| |] & Hp & He); try done. case_decide; [|done]. by simplify_eq.
  - simpl. by rewrite decide_True.
Qed.
Lemma elem_of_held_at x i l : x ∈ held_at i l ↔ PushHeldBy i x ∈ l.
Proof.
  unfold held_at. rewrite list_elem_of_omap. split; [|intros H; eexists; split; [exact H|]].
  - intros ([| |a f|] & Hp & He); try done. case_decide; [|done]. by simplify_eq.
  - simpl. by rewrite decide_True.
Qed.
Lemma elem_of_members_at a o i l : (a, o) ∈ members_at i l ↔ SetMember i a o ∈ l.
Proof.
  unfold members_at. rewrite list_elem_of_omap. split; [|intros H; eexists; split; [exact H|]].
  - intros ([| | |b ad f] & Hp & He); try done. case_decide; [|done]. by simplify_eq.
  - simpl. by rewrite decide_True.
Qed.

Lemma head_elem {A} (l : list A) : l ≠ [] ↔ ∃ x, x ∈ l ∧ head l = Some x.
Proof. destruct l; simpl; split; [done|by intros (? & _ & ?)|intros _; eexists; split; [left|done]|done]. Qed.

Lemma relations_build_spec :
  indexed →
  ∃ r, build tasks analysis held join_sets = Ret r ∧ sized (length tasks) r ∧
    (∀ i es, edges r !! i = Some es →
       StronglySorted (λ a b, (to a < to b)%nat) es ∧
       ∀ t k, mkEdge t k ∈ es ↔ claim i t k ∧
         ∀ k', claim i t k' → (kind_rank k <= kind_rank k')%nat) ∧
    (∀ t ws, waited_by r !! t = Some ws → StronglySorted lt ws ∧
       ∀ x, x ∈ ws ↔ claim x t EWaiting ∨ claim x t WaitingOneOf) ∧
    (∀ t hs, held_by r !! t = Some hs → StronglySorted lt hs ∧
       ∀ x, x ∈ hs ↔ claim x t Handle) ∧
    (∀ t o, member_of r !! t = Some o →
       match o with
       | Some (a, owner) => is_push (SetMember t a owner)
       | None => ∀ x, ¬ claim x t EJoinSet
       end).
Proof.
  intros Hix. destruct build_pushes as (all & Hall & ->). cbv zeta.
  set (r0 := mkRelations _ _ _ _).
  assert (sized (length tasks) r0) as Hr0 by (split; apply length_replicate).
  destruct (run_pushes_spec (length tasks) all r0 Hr0) as (r & -> & [L1 L2 L3 L4] & He & Hw & Hh & Hm).
  { apply Forall_forall. intros p Hp%Hall. by apply is_push_in. }
  rewrite outcome_bind_eq. eexists. split; [reflexivity|].
  split; [split; simpl; rewrite ?length_fmap; done|]. simpl. split; [|split; [|split]].
  - intros i es. rewrite list_lookup_fmap, He. simpl.
    intros (es' & (es0 & (-> & _)%lookup_replicate & ->)%fmap_Some & ->)%fmap_Some.
    destruct (finish_edges_spec ([] ++ edges_at i all)) as [Hs Hin]. split; [done|].
    intros t k. rewrite Hin. unfold strongest. simpl. rewrite elem_of_edges_at, Hall, push_edge_claim.
    split; intros [Hc Hmin]; (split; [done|]).
    + intros k' Hk'. apply (Hmin (mkEdge t k')); [|done].
      by apply elem_of_edges_at, Hall, push_edge_claim.
    + intros [t' k'] Hk'%elem_of_edges_at%Hall%push_edge_claim Ht. simpl in *. subst. auto.
  - intros t ws. rewrite list_lookup_fmap, Hw. simpl.
    intros (ws' & (ws0 & (-> & _)%lookup_replicate & ->)%fmap_Some & ->)%fmap_Some.
    destruct (finish_list_spec ([] ++ waited_at t all)) as [Hs Hin]. split; [done|].
    intros x. rewrite Hin. simpl. by rewrite elem_of_waited_at, Hall, push_waited_claim.
  - intros t hs. rewrite list_lookup_fmap, Hh. simpl.
    intros (hs' & (hs0 & (-> & _)%lookup_replicate & ->)%fmap_Some & ->)%fmap_Some.
    destruct (finish_list_spec ([] ++ held_at t all)) as [Hs Hin]. split; [done|].
    intros x. rewrite Hin. simpl. by rewrite elem_of_held_at, Hall, push_held_claim.
  - intros t o. rewrite Hm. simpl.
    intros (o0 & (-> & _)%lookup_replicate & ->)%fmap_Some.
    destruct (members_at t all) as [|[a ow] l] eqn:E; simpl.
    + intros x Hx. inversion Hx as [| | |i w j b rel t' _ _ _ _ Hk|s c t' Hs Hc Hr|]; subst;
        [by destruct rel|].
      assert ((js_addr s, js_owner s) ∈ members_at t all) as Hin.
      { apply elem_of_members_at, Hall, push_member_claim. eauto 10. }
      rewrite E in Hin. by apply elem_of_nil in Hin.
    + apply Hall, elem_of_members_at. rewrite E. left.
Qed.
End claims.

(** ** Properties *)

(** A task's state word splits into its flags and its count: any count and
    any flags put together read back, and the lifecycle is read from three of the
    flags alone, completion over running over being queued. *)
Theorem task_state_decode (refs : Z) (running complete notified interest waker cancelled : bool) :
  0 <= refs < 2 ^ 58 →
  let s := refs * 64 + Z.b2z running + 2 * Z.b2z complete + 4 * Z.b2z notified +
           8 * Z.b2z interest + 16 * Z.b2z waker + 32 * Z.b2z cancelled in
  ref_count s = refs ∧ is_running s = running ∧ is_complete s = complete ∧
  is_notified s = notified ∧ is_join_interested s = interest ∧
  is_join_waker_set s = waker ∧ is_cancelled s = cancelled ∧
  lifecycle s = (if complete then Complete else if running then Running
                 else if notified then Queued else Idle).
Proof.
  intros Hr s.
  set (f := Z.b2z running + 2 * Z.b2z complete + 4 * Z.b2z notified +
            8 * Z.b2z interest + 16 * Z.b2z waker + 32 * Z.b2z cancelled).
  assert (0 <= f < 64) as Hf by (unfold f; destruct running, complete, notified, interest,
    waker, cancelled; simpl; lia).
  assert (s = f + refs * 2 ^ 6) as Es by (unfold s, f; lia).
  assert (∀ n, 0 <= n < 6 → Z.testbit s n = Z.testbit f n) as Hlow.
  { intros n Hn. rewrite <- (Z.mod_pow2_bits_low s 6) by lia. rewrite Es, Z.mod_add by lia.
    by rewrite Z.mod_small by lia. }
  assert (∀ n, 0 <= n → bit_set s (2 ^ n) = Z.testbit s n) as Hbit.
  { intros n Hn. unfold bit_set. rewrite Z.land_comm.
    destruct (Z.testbit s n) eqn:E.
    - apply negb_true_iff, Z.eqb_neq. intros H. apply (f_equal (λ z, Z.testbit z n)) in H.
      rewrite Z.land_spec, Z.pow2_bits_true, E, Z.bits_0 in H by done. done.
    - apply negb_false_iff, Z.eqb_eq, Z.bits_inj'. intros m Hm.
      rewrite Z.land_spec, Z.bits_0, Z.pow2_bits_eqb by done.
      destruct (Z.eqb_spec n m) as [->|]; [by rewrite E|done]. }
  assert (is_running s = running ∧ is_complete s = complete ∧ is_notified s = notified ∧
    is_join_interested s = interest ∧ is_join_waker_set s = waker ∧
    is_cancelled s = cancelled) as (R1 & R2 & R3 & R4 & R5 & R6).
  { unfold is_running, is_complete, is_notified, is_join_interested, is_join_waker_set,
      is_cancelled, RUNNING, COMPLETE, NOTIFIED, JOIN_INTEREST, JOIN_WAKER, CANCELLED.
    change 1 with (2 ^ 0) at 1. change 2 with (2 ^ 1) at 2. change 4 with (2 ^ 2).
    change 8 with (2 ^ 3). change 16 with (2 ^ 4). change 32 with (2 ^ 5).
    rewrite !Hbit, !Hlow by lia. unfold f.
    by destruct running, complete, notified, interest, waker, cancelled. }
  split; [|unfold lifecycle; rewrite R1, R2, R3; auto 10].
  unfold ref_count. change REF_COUNT_SHIFT with 6. change REF_COUNT_MASK with (Z.shiftl (Z.ones 58) 6).
  rewrite Z.shiftr_land, Z.shiftr_shiftl_l, Z.shiftl_0_r, Z.land_ones by lia.
  rewrite Z.shiftr_div_pow2, Es, Z.div_add by lia. rewrite Z.div_small by lia.
  rewrite Z.add_0_l. apply Z.mod_small. lia.
Qed.

(** A verified semaphore wait is put behind a polling barrier exactly when
    they are of the same semaphore and the barrier's acquire either holds its
    permits, a reservation, or is queued at a smaller known position, a place in
    the queue; nothing else is related. *)
Theorem behind_exact (a : Analysis) (i j : nat) (rel : BarrierRelation) :
  mkBehind i j rel ∈ behind a ↔
  ∃ w v h, waits a !! i = Some w ∧ verified w = Some v ∧ barriers a !! j = Some h ∧
    target v = WSemaphore (aq_semaphore (acquire h)) ∧
    match rel with
    | BReservation => aq_needed (acquire h) = 0
    | BQueueOrder => aq_needed (acquire h) ≠ 0 ∧
        ∃ p q, aq_position (acquire h) = Some p ∧ queue_position v = Some q ∧ p < q
    end.
Proof.
  rewrite elem_of_behind. simpl. unfold behind_relation, granted. split.
  - intros (h & w & Hh & Hw & Hr). destruct (verified w) as [v|] eqn:Ev; [|done].
    simpl in Hr. destruct (target v) eqn:Et; try done.
    destruct (Z.eqb_spec addr (aq_semaphore (acquire h))) as [->|]; [|done]. simpl in Hr.
    exists w, v, h. split_and!; try done.
    destruct (Z.eqb_spec (aq_needed (acquire h)) 0); [by injection Hr as <-|].
    destruct (aq_position (acquire h)) as [p|], (queue_position v) as [q|]; try done.
    destruct (Z.ltb_spec p q); [|done]. injection Hr as <-. eauto 10.
  - intros (w & v & h & Hw & Hv & Hh & Ht & Hrel). exists h, w. split_and!; try done.
    rewrite Hv. simpl. rewrite Ht, Z.eqb_refl. simpl. destruct rel.
    + by rewrite Hrel.
    + destruct Hrel as (Hne & p & q & -> & -> & Hlt).
      rewrite (proj2 (Z.eqb_neq _ _)) by done. by rewrite (proj2 (Z.ltb_lt _ _)).
Qed.

(** C37: the relation index never indexes out of range, and its edges are, per
    task, in task order with one edge per task related: the strongest of the
    claims the analysis and the census make, a verified wait over a member of a
    wait set, over an awaited response, a reservation, a queue place, a set
    membership and a held handle.  The reverse indices hold exactly the tasks
    waiting to join a task, and the tasks holding its handle. *)
Theorem relations_exact (tasks : list Task) (analysis : Analysis) (held : list HeldFuture)
    (join_sets : list JoinSet) :
  indexed tasks analysis held join_sets →
  ∃ r, build tasks analysis held join_sets = Ret r ∧ sized (length tasks) r ∧
    (∀ i es, edges r !! i = Some es →
       StronglySorted (λ a b, (to a < to b)%nat) es ∧
       ∀ t k, mkEdge t k ∈ es ↔ claim tasks analysis held join_sets i t k ∧
         ∀ k', claim tasks analysis held join_sets i t k' → (kind_rank k <= kind_rank k')%nat) ∧
    (∀ t, (t < length tasks)%nat →
       ∃ b, joined r t = Ret b ∧
         (b = true ↔ ∃ x k, claim tasks analysis held join_sets x t k ∧
                       k ∈ [EWaiting; WaitingOneOf; EJoinSet; Handle])).
Proof.
  intros Hix. destruct (relations_build_spec tasks analysis held join_sets Hix)
    as (r & Hr & Hsz & He & Hw & Hh & Hm).
  exists r. split; [done|]. split; [done|]. split; [done|]. intros t Ht.
  destruct Hsz as [_ L2 L3 L4].
  destruct (lookup_lt_is_Some_2 (waited_by r) t) as [ws Ew]; [lia|].
  destruct (lookup_lt_is_Some_2 (held_by r) t) as [hs Eh]; [lia|].
  destruct (lookup_lt_is_Some_2 (member_of r) t) as [o Eo]; [lia|].
  unfold joined. rewrite Ew, Eh, Eo. eexists. split; [reflexivity|].
  destruct (Hw t ws Ew) as [_ Hws], (Hh t hs Eh) as [_ Hhs]. specialize (Hm t o Eo).
  assert (∀ l : list nat, negb (length l =? 0)%nat = true ↔ ∃ x, x ∈ l) as Hne.
  { intros [|x l]; simpl; split; try done; [by intros (x & ?%elem_of_nil)|by exists x; left]. }
  rewrite !orb_true_iff, !Hne. setoid_rewrite Hws. setoid_rewrite Hhs. split.
  - intros [[(x & [?|?])|(x & ?)]|Ho]; [exists x, EWaiting; set_solver|exists x, WaitingOneOf; set_solver
      |exists x, Handle; set_solver|].
    destruct o as [[a ow]|]; [|done]. apply push_member_claim in Hm as (s & c & Hs & Hc & Hr' & _ & _).
    exists (js_owner s), EJoinSet. split; [by eapply claim_join_set|set_solver].
  - intros (x & k & Hc & Hk). destruct o as [[a ow]|]; [by right|].
    repeat (apply elem_of_cons in Hk as [->|Hk]); [eauto..|by apply elem_of_nil in Hk].
    by apply Hm in Hc.
Qed.

(** ** Witnesses *)

Lemma task_state_decode_witness :
  ref_count 204 = 3 ∧ lifecycle 204 = Queued.
Proof.
  destruct (task_state_decode 3 false false true true false false ltac:(lia))
    as (H1 & _ & _ & _ & _ & _ & _ & H2).
  split; [exact H1|exact H2].
Defined.

(** Two tasks that join each other; the first also holds the handle of a third,
    which holds the handle of the second. *)
Definition demo_task (addr : Z) : Task := mkTask addr 128 (Some addr).
Definition demo_tasks : list Task := [demo_task 100; demo_task 200; demo_task 300].

Definition joins (me other : Z) : TaskWait :=
  mkTaskWait (mkTaskRef me (Some me)) (Waiting (mkVerified (WTask other None) None)).

Definition demo_analysis : Analysis :=
  mkAnalysis [joins 100 300; mkTaskWait (mkTaskRef 200 None) Unknown; joins 300 100] [].

Definition demo_held : list HeldFuture := [mkHeld 0 (Some 200); mkHeld 1 (Some 300)].

Lemma relations_exact_witness :
  ∃ r, build demo_tasks demo_analysis demo_held [] = Ret r ∧
    edges r = [[mkEdge 1 Handle; mkEdge 2 EWaiting]; [mkEdge 2 Handle]; [mkEdge 0 EWaiting]] ∧
    ∃ b, joined r 1 = Ret b.
Proof.
  destruct (relations_exact demo_tasks demo_analysis demo_held []) as (r & Hr & _ & _ & Hj).
  - split; [simpl; lia|intros s ?%elem_of_nil; done|].
    intros f Hf. repeat (apply elem_of_cons in Hf as [->|Hf]; [simpl; lia|]).
    by apply elem_of_nil in Hf.
  - exists r. split; [exact Hr|]. vm_compute in Hr. injection Hr as <-. split; [reflexivity|].
    destruct (Hj 1%nat) as (b & Hb & _); [simpl; lia|]. exists b. exact Hb.
Defined.
