(* ===== verification/GraphWalk.v ===== *)
(** The [graph] command's listing ([hansei/src/graph.rs]): the walk that gives
    every related task one row, nested under a task it is waited for by, and the
    cut a limit makes between trees.

    A row keeps what its three cells are made of; [row_cells] makes the cells.
    The wait column's text is the task table's [assessment_cell], which the walk
    takes as an argument, as it does the table it is printed through. *)

From S2P Require Import Prelude Text TaskGraph.

Local Open Scope Z_scope.

(** ** Rows *)

(** What a row says: the task spelled out, the row that closes a cycle of waits,
    or one referred back to. *)
Inductive RowMark := Full | Cycle | Above.

#[global] Instance RowMark_eq_dec : EqDecision RowMark.
Proof. solve_decision. Defined.

Record Row := mkRow {
  r_task : nat;
  r_prefix : string;
  r_last : option bool;
  r_kind : EdgeKind;
  r_mark : RowMark
}.

Definition glyph (last : option bool) : string :=
  match last with
  | None => EmptyString
  | Some true => "└─ "
  | Some false => "├─ "
  end.

Definition below_prefix (prefix : string) (last : option bool) : string :=
  match last with
  | None => prefix
  | Some true => prefix +:+ "   "
  | Some false => prefix +:+ "│  "
  end.

(** [task_id]: the id, or the address as [Debug] prints it. *)
Definition task_id (tasks : list Task) (index : nat) : outcome string :=
  t ← or_panic (tasks !! index);
  Ret match t_id t with
      | Some id => dec id
      | None => hex (t_addr t)
      end.

Definition row_cells (tasks : list Task) (ws : list TaskWait)
    (assessment_cell : TaskWait → string) (r : Row)
    : outcome (string * string * string) :=
  id ← task_id tasks (r_task r);
  t ← or_panic (tasks !! r_task r);
  let name := r_prefix r +:+ glyph (r_last r) +:+ id +:+ mark (r_kind r) in
  let state := display_lifecycle (lifecycle (t_state t)) in
  Ret match r_mark r with
      | Cycle => (name +:+ " ← cycle", state, EmptyString)
      | Above => (name +:+ " (above)", state, EmptyString)
      | Full =>
          (name, state,
           match ws !! r_task r with
           | Some wait => assessment_cell wait
           | None => "-"%string
           end)
      end.

(** ** The walk *)

Record GraphState := mkGraphState {
  printed : list bool;
  path : list (nat * EdgeKind);
  rows : list Row
}.

(** [self.path.iter().position(|(t, _)| *t == task)]. *)
Fixpoint position (task : nat) (l : list (nat * EdgeKind)) : option nat :=
  match l with
  | [] => None
  | (t, _) :: l => if (t =? task)%nat then Some O else S <$> position task l
  end.

Definition push_row (st : GraphState) (r : Row) : GraphState :=
  mkGraphState (printed st) (path st) (rows st ++ [r]).

(** The children of a task, each visited in turn. *)
Fixpoint visit_children (visit : GraphState → nat → string → option bool → EdgeKind →
      outcome (option GraphState)) (below : string) (n i : nat) (l : list Edge)
    (st : GraphState) : outcome (option GraphState) :=
  match l with
  | [] => Ret (Some st)
  | child :: l =>
      st ←? visit st (to child) below (Some (S i =? n)%nat) (kind child);
      visit_children visit below n (S i) l st
  end.

(** [GraphWalk::visit], with fuel for its recursion; [None] is fuel exhausted. *)
Fixpoint visit (fuel : nat) (tasks : list Task) (edges : list (list Edge))
    (st : GraphState) (task : nat) (prefix : string) (last : option bool)
    (kind : EdgeKind) : outcome (option GraphState) :=
  match fuel with
  | O => Ret None
  | S fuel =>
      _ ← or_panic (tasks !! task);
      let row := mkRow task prefix last kind in
      match position task (path st) with
      | Some start =>
          let closing := is_wait kind &&
            forallb (λ p, is_wait p.2) (drop (start + 1) (path st)) in
          Ret (Some (push_row st (row (if closing then Cycle else Above))))
      | None =>
          done ← or_panic (printed st !! task);
          if done : bool then Ret (Some (push_row st (row Above))) else
          let st := push_row st (row Full) in
          let st := mkGraphState (<[task := true]> (printed st)) (path st) (rows st) in
          let below := below_prefix prefix last in
          let st := mkGraphState (printed st) (path st ++ [(task, kind)]) (rows st) in
          children ← or_panic (edges !! task);
          st ←? visit_children (visit fuel tasks edges) below (length children) 0 children st;
          Ret (Some (mkGraphState (printed st) (removelast (path st)) (rows st)))
      end
  end.

(** ** The listing *)

(** [waited_for[edge.to] = true], edge by edge. *)
Fixpoint mark_waited (l : list Edge) (waited_for : list bool) : outcome (list bool) :=
  match l with
  | [] => Ret waited_for
  | e :: l =>
      if (to e <? length waited_for)%nat
      then mark_waited l (<[to e := true]> waited_for) else Panic
  end.

Definition alone (edges : list (list Edge)) (waited_for : list bool) (i : nat)
    : outcome bool :=
  es ← or_panic (edges !! i);
  match es with
  | [] => w ← or_panic (waited_for !! i); Ret (negb w)
  | _ => Ret false
  end.

(** One loop over the roots: the trees of the tasks [pick] takes, and where the
    rows of each begin. *)
Fixpoint walk_roots (fuel : nat) (tasks : list Task) (edges : list (list Edge))
    (pick : GraphState → nat → outcome bool) (l : list nat)
    (st : GraphState) (starts : list nat) : outcome (option (GraphState * list nat)) :=
  match l with
  | [] => Ret (Some (st, starts))
  | root :: l =>
      picked ← pick st root;
      if picked : bool then
        let starts := starts ++ [length (rows st)] in
        st ←? visit fuel tasks edges st root EmptyString None EWaiting;
        walk_roots fuel tasks edges pick l st starts
      else walk_roots fuel tasks edges pick l st starts
  end.

(** The tops of the trees: tasks nothing waits for. *)
Definition pick_root (edges : list (list Edge)) (waited_for : list bool)
    (_ : GraphState) (root : nat) : outcome bool :=
  waited ← or_panic (waited_for !! root);
  if waited : bool then Ret false
  else a ← alone edges waited_for root; Ret (negb a).

(** What is left over: tasks of a cycle no top leads into. *)
Definition pick_left (edges : list (list Edge)) (waited_for : list bool)
    (st : GraphState) (root : nat) : outcome bool :=
  done ← or_panic (printed st !! root);
  if done : bool then Ret false
  else a ← alone edges waited_for root; Ret (negb a).

(** The walk of [print_graph]: its rows and where each tree's begin. *)
Definition graph_rows (fuel : nat) (tasks : list Task) (edges : list (list Edge))
    : outcome (option (list Row * list nat)) :=
  let n := length tasks in
  waited_for ← mark_waited (concat edges) (replicate n false);
  let st := mkGraphState (replicate n false) [] [] in
  '(st, starts) ←? walk_roots fuel tasks edges (pick_root edges waited_for) (seq 0 n) st [];
  '(st, starts) ←? walk_roots fuel tasks edges (pick_left edges waited_for) (seq 0 n) st starts;
  Ret (Some (rows st, starts)).

(** The cut: how many trees are shown of how many, and the rows of those. *)
Definition limit_rows (limit : option nat) (rows : list Row) (starts : list nat)
    : nat * nat * list Row :=
  let roots := length starts in
  let shown := Nat.min (default roots limit) roots in
  let cut := default (length rows) (starts !! shown) in
  (shown, roots, take cut rows).

Definition print_graph (fuel : nat) (tasks : list Task) (edges : list (list Edge))
    (limit : option nat) : outcome (option (nat * nat * list Row)) :=
  '(rows, starts) ←? graph_rows fuel tasks edges;
  Ret (Some (limit_rows limit rows starts)).
