(* ===== verification/GraphWalkFacts.v ===== *)
(** The graph listing: that the walk ends, that every related task is spelled out
    once, what a cycle mark proves and what it misses, and that a limit cuts
    between trees. *)

From S2P Require Import Prelude Text TaskGraph TaskGraphFacts GraphWalk.

Local Open Scope Z_scope.

Lemma elem_of_concat {A} (x : A) ll : x ∈ concat ll ↔ ∃ l, x ∈ l ∧ l ∈ ll.
Proof.
  induction ll as [|l ll IH]; simpl.
  - rewrite elem_of_nil. split; [done|]. by intros (l & _ & ?%elem_of_nil).
  - rewrite elem_of_app, IH. setoid_rewrite elem_of_cons. naive_solver.
Qed.

Section walk.
Context (tasks : list Task) (edges : list (list Edge)).

(** Edges of a relation index over [tasks]. *)
Record edges_wf : Prop := {
  ew_length : length edges = length tasks;
  ew_in : ∀ i es e, edges !! i = Some es → e ∈ es → (to e < length tasks)%nat
}.
Context (Hwf : edges_wf).

Definition has_edge (a b : nat) (k : EdgeKind) : Prop :=
  ∃ es, edges !! a = Some es ∧ mkEdge b k ∈ es.

(** A verified wait of one task for another. *)
Definition waits_for (a b : nat) : Prop := has_edge a b EWaiting.

(** Some task is related to [b]. *)
Definition named (b : nat) : Prop := ∃ a k, has_edge a b k.

(** ** Chains of edges *)

Fixpoint chain (a : nat) (l : list (nat * EdgeKind)) : Prop :=
  match l with
  | [] => True
  | (b, k) :: l => has_edge a b k ∧ chain b l
  end.

Definition path_ok (l : list (nat * EdgeKind)) : Prop :=
  match l with [] => True | (t, _) :: l => chain t l end.

Definition end_of (a : nat) (l : list (nat * EdgeKind)) : nat := default a (fst <$> last l).

Lemma end_of_cons a p l : end_of a (p :: l) = end_of p.1 l.
Proof. unfold end_of. destruct l; simpl; [done|]. by destruct (last _) eqn:E; [|apply last_None in E]. Qed.

Lemma chain_snoc a l b k : chain a (l ++ [(b, k)]) ↔ chain a l ∧ has_edge (end_of a l) b k.
Proof.
  revert a. induction l as [|[c kc] l IH]; intros a; cbn [chain app].
  - unfold end_of. simpl. tauto.
  - rewrite IH, end_of_cons. simpl. tauto.
Qed.

Lemma chain_waits a l :
  chain a l → forallb (λ p, is_wait p.2) l = true → rtc waits_for a (end_of a l).
Proof.
  revert a. induction l as [|[b k] l IH]; intros a; [by constructor|].
  cbn [chain forallb]. intros [He Hc] [Hk Hl]%andb_true_iff. rewrite end_of_cons.
  eapply rtc_l; [|by apply IH]. by destruct k.
Qed.

Lemma chain_drop a l i b k : chain a l → l !! i = Some (b, k) → chain b (drop (S i) l).
Proof.
  revert a i. induction l as [|[c kc] l IH]; intros a i Hc Hi; [done|]. destruct Hc as [_ Hc].
  destruct i as [|i]; simpl in Hi; [by injection Hi as -> ->|]. by eapply IH.
Qed.

Lemma end_of_drop a l i b k : l !! i = Some (b, k) → end_of a l = end_of b (drop (S i) l).
Proof.
  revert a i. induction l as [|p l IH]; intros a i Hi; [done|]. rewrite end_of_cons.
  destruct i as [|i]; simpl in Hi; [by injection Hi as ->|]. rewrite (IH _ i Hi). done.
Qed.

Lemma position_Some task l i : position task l = Some i → ∃ k, l !! i = Some (task, k).
Proof.
  revert i. induction l as [|[t k] l IH]; intros i; simpl; [done|].
  destruct (Nat.eqb_spec t task) as [->|]; [intros [= <-]; by exists k|].
  intros (j & Hj & ->)%fmap_Some. by apply IH.
Qed.

Lemma position_None task l : position task l = None ↔ ∀ t k, (t, k) ∈ l → t ≠ task.
Proof.
  induction l as [|[t k] l IH]; simpl.
  { split; [|done]. by intros _ t k ?%elem_of_nil. }
  destruct (Nat.eqb_spec t task) as [->|Hne].
  - split; [done|]. intros H. by destruct (H task k ltac:(left)).
  - rewrite fmap_None, IH. split; [|intros H t' k' Hin; apply (H t' k'); by right].
    intros H t' k' [[= -> ->]|Hin]%elem_of_cons; [done|by eapply H].
Qed.

(** A row marked as closing a cycle closes one. *)
Lemma closing_cycle l task i kind :
  path_ok l → position task l = Some i → is_wait kind = true →
  forallb (λ p, is_wait p.2) (drop (i + 1) l) = true →
  has_edge (end_of task l) task kind → tc waits_for task task.
Proof.
  intros Hl (k & Hi)%position_Some Hk Hw He. destruct kind; try done.
  destruct l as [|[t0 k0] l]; [done|]. simpl in Hl. rewrite end_of_cons in He. simpl in He.
  rewrite Nat.add_1_r in Hw. cbn [drop] in Hw. destruct i as [|i].
  - simpl in Hi, Hw. injection Hi as -> ->. rewrite drop_0 in Hw.
    eapply tc_rtc_l; [by apply chain_waits|]. by apply tc_once.
  - cbn [lookup list_lookup] in Hi. pose proof (chain_drop _ _ _ _ _ Hl Hi) as Hc.
    pose proof (end_of_drop t0 l i task k Hi) as Hend.
    rewrite Hend in He. eapply tc_rtc_l; [by apply chain_waits|]. by apply tc_once.
Qed.

(** ** One visit *)

Definition unprinted (l : list bool) : nat := length (filter (λ b, b = false) l).

Lemma unprinted_insert l t :
  l !! t = Some false → unprinted l = S (unprinted (<[t := true]> l)).
Proof.
  intros Hl. unfold unprinted. rewrite <- (take_drop_middle l t false Hl) at 1.
  rewrite insert_take_drop by (by eapply lookup_lt_Some).
  rewrite !filter_app, !length_app, !filter_cons. simpl. lia.
Qed.

Definition full_tasks (rs : list Row) : list nat :=
  r_task <$> filter (λ r, r_mark r = Full) rs.

Lemma full_tasks_app rs rs' : full_tasks (rs ++ rs') = full_tasks rs ++ full_tasks rs'.
Proof. unfold full_tasks. by rewrite filter_app, fmap_app. Qed.

Record state_ok (st : GraphState) : Prop := {
  st_printed : length (printed st) = length tasks;
  st_path : path_ok (path st);
  st_path_printed : ∀ t k, (t, k) ∈ path st → printed st !! t = Some true
}.

(** The walk moved from [st] to [st'], adding the rows [new]. *)
Record step_ok (st st' : GraphState) (new : list Row) : Prop := {
  sp_path : path st' = path st;
  sp_rows : rows st' = rows st ++ new;
  sp_length : length (printed st') = length (printed st);
  sp_printed : ∀ t, printed st' !! t = Some true ↔
    printed st !! t = Some true ∨ t ∈ full_tasks new;
  sp_fresh : ∀ t, t ∈ full_tasks new → printed st !! t = Some false;
  sp_once : NoDup (full_tasks new);
  sp_cycle : ∀ r, r ∈ new → r_mark r = Cycle → tc waits_for (r_task r) (r_task r);
  sp_fewer : (unprinted (printed st') <= unprinted (printed st))%nat
}.

Lemma step_refl st : step_ok st st [].
Proof.
  split; try done; [by rewrite app_nil_r| |by intros t ?%elem_of_nil|constructor
    |by intros r ?%elem_of_nil].
  intros t. rewrite elem_of_nil. tauto.
Qed.

Lemma step_trans st1 st2 st3 n1 n2 :
  step_ok st1 st2 n1 → step_ok st2 st3 n2 → step_ok st1 st3 (n1 ++ n2).
Proof.
  intros [P1 R1 L1 Pr1 F1 O1 C1 U1] [P2 R2 L2 Pr2 F2 O2 C2 U2].
  split; try congruence; [by rewrite R2, R1, app_assoc|..].
  - intros t. rewrite Pr2, Pr1, full_tasks_app, elem_of_app. tauto.
  - intros t. rewrite full_tasks_app, elem_of_app. intros [Ht|Ht]; [auto|].
    apply F2 in Ht. pose proof (lookup_lt_Some _ _ _ Ht) as Hlt. rewrite L1 in Hlt.
    destruct (lookup_lt_is_Some_2 _ _ Hlt) as [[] E]; [|done].
    assert (printed st2 !! t = Some true) by (apply Pr1; by left). congruence.
  - rewrite full_tasks_app. apply NoDup_app. split; [done|]. split; [|done].
    intros t H1 H2. apply F2 in H2. assert (printed st2 !! t = Some true) by (apply Pr1; by right).
    congruence.
  - intros r [?|?]%elem_of_app; auto.
  - lia.
Qed.

Lemma state_ok_step st st' new : state_ok st → step_ok st st' new → state_ok st'.
Proof.
  intros [S1 S2 S3] [P R L Pr _ _ _ _]. split; [congruence|by rewrite P|].
  intros t k Ht. rewrite P in Ht. apply Pr. left. by eapply S3.
Qed.

(** A row that spells no task out changes nothing but the rows. *)
Lemma step_row st r :
  r_mark r ≠ Full → (r_mark r = Cycle → tc waits_for (r_task r) (r_task r)) →
  step_ok st (push_row st r) [r].
Proof.
  intros Hm Hc. assert (full_tasks [r] = []) as Hf.
  { unfold full_tasks. by rewrite filter_cons_False. }
  split; simpl; try done; rewrite ?Hf; [|by intros t ?%elem_of_nil|constructor|].
  - intros t. rewrite elem_of_nil. tauto.
  - by intros r' ->%list_elem_of_singleton.
Qed.

(** The edge the walk follows from the end of its path. *)
Definition from_path (l : list (nat * EdgeKind)) (task : nat) (kind : EdgeKind) : Prop :=
  l = [] ∨ has_edge (end_of task l) task kind.

Definition child_row (r : Row) : Prop := r_last r ≠ None ∧ named (r_task r).

(** What a visit gives: the task's row first, then rows below it. *)
Definition visit_gives (st : GraphState) (task : nat) (last : option bool)
    (o : outcome (option GraphState)) : Prop :=
  ∃ st' r rest, o = Ret (Some st') ∧ step_ok st st' (r :: rest) ∧
    r_task r = task ∧ r_last r = last ∧ Forall child_row rest ∧
    printed st' !! task = Some true.

Lemma visit_children_ok v below n i l st u :
  (∀ st task prefix last kind, state_ok st → (task < length tasks)%nat →
     from_path (path st) task kind → (unprinted (printed st) <= u)%nat →
     visit_gives st task last (v st task prefix last kind)) →
  state_ok st → path st ≠ [] → (unprinted (printed st) <= u)%nat →
  (∀ e, e ∈ l → has_edge (end_of 0 (path st)) (to e) (kind e)) →
  ∃ st' new, visit_children v below n i l st = Ret (Some st') ∧ step_ok st st' new ∧
    Forall child_row new.
Proof.
  intros Hv Hst Hne Hu Hl. revert i st Hst Hne Hu Hl.
  induction l as [|e l IH]; intros i st Hst Hne Hu Hl; cbn [visit_children].
  { exists st, []. split; [done|]. split; [apply step_refl|done]. }
  pose proof (Hl e ltac:(left)) as (es & He & Hin).
  destruct (Hv st (to e) below (Some (S i =? n)%nat) (kind e) Hst) as
    (st1 & r & rest & -> & Hs1 & Hr & Hlast & Hrest & _).
  { by eapply (ew_in Hwf _ _ _ He Hin). }
  { right. destruct (path st) as [|[t0 k0] p]; [done|].
    exists es. rewrite end_of_cons in *. done. }
  { done. }
  simpl try_bind. destruct (IH (S i) st1) as (st2 & new & -> & Hs2 & Hnew).
  { by eapply state_ok_step. }
  { by rewrite (sp_path _ _ _ Hs1). }
  { pose proof (sp_fewer _ _ _ Hs1). lia. }
  { intros e' He'. rewrite (sp_path _ _ _ Hs1). apply Hl. by right. }
  exists st2, ((r :: rest) ++ new). split; [done|]. split; [by eapply step_trans|].
  apply Forall_app. split; [|done]. constructor; [|done]. split; [by rewrite Hlast|].
  rewrite Hr. eexists _, _, es. destruct e; split; done.
Qed.

Lemma visit_ok fuel st task prefix last kind :
  state_ok st → (task < length tasks)%nat → from_path (path st) task kind →
  (unprinted (printed st) < fuel)%nat →
  visit_gives st task last (visit fuel tasks edges st task prefix last kind).
Proof.
  revert st task prefix last kind. induction fuel as [|fuel IH];
    intros st task prefix last kind Hst Ht Hfrom Hu; [lia|].
  cbn [visit]. destruct (lookup_lt_is_Some_2 tasks task Ht) as [tk ->].
  simpl or_panic. rewrite outcome_bind_eq. cbv beta iota zeta.
  destruct (position task (path st)) as [start|] eqn:Epos.
  - set (closing := _ && _). eexists _, _, []. split; [reflexivity|]. split; [apply step_row|].
    + by destruct closing.
    + simpl. destruct closing eqn:E; [|done]. intros _. unfold closing in E.
      apply andb_true_iff in E as [Hk Hw].
      eapply closing_cycle; [apply Hst|done|done|done|].
      destruct Hfrom as [Hnil|?]; [by rewrite Hnil in Epos|]. by destruct kind.
    + split; [done|]. split; [done|]. split; [done|]. simpl.
      apply position_Some in Epos as [k Hk]. eapply (st_path_printed _ Hst).
      by eapply list_elem_of_lookup_2.
  - destruct (lookup_lt_is_Some_2 (printed st) task) as [[|] Ep];
      [by rewrite (st_printed _ Hst)| |]; rewrite Ep; simpl or_panic;
      rewrite outcome_bind_eq; cbv beta iota zeta.
    { eexists _, _, []. split; [reflexivity|]. split; [by apply step_row|]. done. }
    destruct (lookup_lt_is_Some_2 edges task) as [es Hes]; [by rewrite (ew_length Hwf)|].
    rewrite Hes. simpl or_panic. rewrite outcome_bind_eq. cbv beta iota zeta.
    cbn [push_row printed path rows]. set (row := mkRow _ _ _ _ Full).
    set (st1 := mkGraphState (<[task := true]> (printed st)) (path st ++ [(task, kind)]) _).
    pose proof (unprinted_insert _ _ Ep) as Hun.
    assert (state_ok st1) as Hst1.
    { split; simpl; [by rewrite length_insert, (st_printed _ Hst)| |].
      - pose proof (st_path _ Hst) as Hp. destruct (path st) as [|[t0 k0] p] eqn:E; [done|].
        simpl in *. apply chain_snoc. split; [done|]. destruct Hfrom as [?|He]; [done|].
        by rewrite end_of_cons in He.
      - intros t k [Hin|[= -> ->]%list_elem_of_singleton]%elem_of_app.
        + destruct (decide (t = task)) as [->|]; [by apply list_lookup_insert_eq, lookup_lt_Some with false|].
          rewrite list_lookup_insert_ne by done. by eapply (st_path_printed _ Hst).
        + by eapply list_lookup_insert_eq, lookup_lt_Some. }
    destruct (visit_children_ok (visit fuel tasks edges) (below_prefix prefix last)
      (length es) 0 es st1 (unprinted (printed st1))) as (st2 & new & -> & Hs2 & Hnew).
    { intros. apply IH; [done..|]. simpl in *. lia. }
    { done. } { simpl. by destruct (path st). } { done. }
    { intros e He. exists es. simpl. unfold end_of. rewrite last_snoc. simpl. by destruct e. }
    simpl try_bind. destruct Hs2 as [P R L Pr F O C U]. simpl in *.
    assert (full_tasks (row :: new) = task :: full_tasks new) as Hfull.
    { unfold full_tasks. by rewrite filter_cons_True. }
    assert (∀ t, <[task := true]> (printed st) !! t = Some true ↔ t = task ∨ printed st !! t = Some true)
      as Hins.
    { intros t. destruct (decide (t = task)) as [->|].
      - rewrite list_lookup_insert_eq by (by eapply lookup_lt_Some). tauto.
      - rewrite list_lookup_insert_ne by done. naive_solver. }
    eexists _, row, new. split; [reflexivity|].
    split; [|split; [done|]; split; [done|]; split; [done|]; simpl; apply Pr; left; by apply Hins; left].
    split; simpl.
    + by rewrite P, removelast_last.
    + rewrite R. by rewrite <- app_assoc.
    + by rewrite L, length_insert.
    + intros t. rewrite Pr, Hins, Hfull, elem_of_cons. tauto.
    + intros t. rewrite Hfull. intros [->|Hin]%elem_of_cons; [done|]. apply F in Hin.
      destruct (decide (t = task)) as [->|]; [|by rewrite list_lookup_insert_ne in Hin].
      rewrite list_lookup_insert_eq in Hin by (by eapply lookup_lt_Some). done.
    + rewrite Hfull. constructor; [|done]. intros Hin%F.
      rewrite list_lookup_insert_eq in Hin by (by eapply lookup_lt_Some). done.
    + intros r [->|Hr]%elem_of_cons; [done|auto].
    + lia.
Qed.

(** ** The listing *)

(** A task of some graph: it names another or is named by one. *)
Definition related (t : nat) : Prop := (∃ b k, has_edge t b k) ∨ named t.

Lemma mark_waited_ok l w :
  (∀ e, e ∈ l → (to e < length w)%nat) →
  ∃ w', mark_waited l w = Ret w' ∧ length w' = length w ∧
    ∀ t, w' !! t = Some true ↔ w !! t = Some true ∨ ∃ e, e ∈ l ∧ to e = t.
Proof.
  revert w. induction l as [|e l IH]; intros w Hl; cbn [mark_waited].
  { exists w. split; [done|]. split; [done|]. intros t. split; [auto|].
    intros [?|(e & ?%elem_of_nil & _)]; done. }
  pose proof (Hl e ltac:(left)) as He. rewrite (proj2 (Nat.ltb_lt _ _)) by done.
  destruct (IH (<[to e := true]> w)) as (w' & Hw' & Hlen & Hin).
  { intros e' He'. rewrite length_insert. apply Hl. by right. }
  exists w'. split; [done|]. split; [by rewrite Hlen, length_insert|]. intros t.
  rewrite Hin. destruct (decide (t = to e)) as [->|Hne].
  - rewrite list_lookup_insert_eq by done. split; [intros _|auto]. right. exists e. split; [left|done].
  - rewrite list_lookup_insert_ne by done. split.
    + intros [?|(e' & ? & ?)]; [by left|]. right. exists e'. split; [by right|done].
    + intros [?|(e' & [->|?]%elem_of_cons & ?)]; [by left|done|]. right. by exists e'.
Qed.

(** What the walk keeps of the tasks waited for. *)
Record waited_ok (w : list bool) : Prop := {
  wo_length : length w = length tasks;
  wo_named : ∀ t, w !! t = Some true ↔ named t
}.

Lemma mark_waited_edges :
  ∃ w, mark_waited (concat edges) (replicate (length tasks) false) = Ret w ∧ waited_ok w.
Proof.
  destruct (mark_waited_ok (concat edges) (replicate (length tasks) false)) as (w & Hw & Hl & Hin).
  { intros e (es & He & Hes)%elem_of_concat. rewrite length_replicate.
    apply list_elem_of_lookup in Hes as [i Hi]. by eapply (ew_in Hwf). }
  exists w. split; [done|]. split; [by rewrite Hl, length_replicate|]. intros t. rewrite Hin. split.
  - intros [[? _]%lookup_replicate|(e & (es & He & Hes)%elem_of_concat & Ht)]; [done|].
    apply list_elem_of_lookup in Hes as [i Hi]. exists i, (kind e), es. split; [done|].
    destruct e. simpl in *. by subst.
  - intros (a & k & es & Hes & Hin'). right. exists (mkEdge t k). split; [|done].
    apply elem_of_concat. exists es. split; [done|]. by eapply list_elem_of_lookup_2.
Qed.

Lemma alone_ok w t :
  waited_ok w → (t < length tasks)%nat →
  ∃ b, alone edges w t = Ret b ∧ (b = false ↔ related t).
Proof.
  intros [Hlen Hn] Ht. unfold alone.
  destruct (lookup_lt_is_Some_2 edges t) as [es Hes]; [by rewrite (ew_length Hwf)|].
  rewrite Hes. simpl or_panic. rewrite outcome_bind_eq. cbv beta iota.
  destruct es as [|e es].
  - destruct (lookup_lt_is_Some_2 w t) as [b Hb]; [lia|]. rewrite Hb.
    exists (negb b). split; [done|]. unfold related. rewrite <- Hn, Hb. split.
    + intros Hf%negb_false_iff. rewrite Hf. by right.
    + intros [(c & k & es & Hes' & Hin)|[= ->]]; [|done]. rewrite Hes in Hes'.
      injection Hes' as <-. by apply elem_of_nil in Hin.
  - exists false. split; [done|]. split; [|done]. intros _. left. exists (to e), (kind e), (e :: es).
    split; [done|]. destruct e. left.
Qed.

(** A tree: a row at the margin and the rows under it. *)
Definition tree_ok (tree : list Row) : Prop :=
  ∃ r rest, tree = r :: rest ∧ r_last r = None ∧ Forall child_row rest ∧ related (r_task r).

(** Where trees begin when laid end to end. *)
Fixpoint offsets (off : nat) (trees : list (list Row)) : list nat :=
  match trees with
  | [] => []
  | t :: trees => off :: offsets (off + length t) trees
  end.

Lemma offsets_snoc off trees t :
  offsets off (trees ++ [t]) = offsets off trees ++ [(off + length (concat trees))%nat].
Proof.
  revert off. induction trees as [|x trees IH]; intros off; simpl; [by rewrite Nat.add_0_r|].
  rewrite IH, length_app. do 3 f_equal. apply eq_sym, Nat.add_assoc.
Qed.

Lemma length_offsets off trees : length (offsets off trees) = length trees.
Proof. revert off. induction trees; intros off; simpl; auto. Qed.

Lemma offsets_lookup off trees k :
  (k < length trees)%nat →
  offsets off trees !! k = Some (off + length (concat (take k trees)))%nat.
Proof.
  revert off k. induction trees as [|t trees IH]; intros off k Hk; simpl in Hk; [lia|].
  destruct k as [|k]; simpl; [by rewrite Nat.add_0_r|].
  rewrite IH by lia. rewrite length_app. f_equal. lia.
Qed.

(** The listing so far, from the walk's first state [st0]. *)
Record listing (st0 st : GraphState) (trees : list (list Row)) (starts : list nat) : Prop := {
  li_state : state_ok st;
  li_step : step_ok st0 st (concat trees);
  li_path : path st = [];
  li_rows : rows st = concat trees;
  li_starts : starts = offsets 0 trees;
  li_trees : Forall tree_ok trees
}.

Lemma visit_root fuel st0 st trees starts root :
  listing st0 st trees starts → (root < length tasks)%nat → related root →
  (length tasks < fuel)%nat →
  ∃ st' tree, visit fuel tasks edges st root EmptyString None EWaiting = Ret (Some st') ∧
    listing st0 st' (trees ++ [tree]) (starts ++ [length (rows st)]) ∧
    step_ok st st' tree ∧ printed st' !! root = Some true.
Proof.
  intros [Hst Hs Hp Hr Hstarts Htrees] Hroot Hrel Hf.
  destruct (visit_ok fuel st root EmptyString None EWaiting) as
    (st' & r & rest & Hv & Hs' & Ht & Hl & Hrest & Hpr); [done|done|by left| |].
  { unfold unprinted. pose proof (length_filter (λ b, b = false) (printed st)).
    rewrite (st_printed _ Hst) in *. lia. }
  exists st', (r :: rest). split; [done|]. split; [|done].
  assert (concat (trees ++ [r :: rest]) = concat trees ++ r :: rest) as Hc.
  { rewrite concat_app. simpl. by rewrite app_nil_r. }
  split.
  - by eapply state_ok_step.
  - rewrite Hc. by eapply step_trans.
  - by rewrite (sp_path _ _ _ Hs').
  - by rewrite (sp_rows _ _ _ Hs'), Hc, Hr.
  - by rewrite offsets_snoc, Hstarts, Hr.
  - apply Forall_app. split; [done|]. constructor; [|done]. exists r, rest. by rewrite Ht.
Qed.

Lemma walk_roots_ok fuel pick (Q : GraphState → nat → Prop) l st0 st trees starts :
  (length tasks < fuel)%nat →
  (∀ st root, state_ok st → (root < length tasks)%nat →
     ∃ b, pick st root = Ret b ∧ if b : bool then related root else Q st root) →
  (∀ st st' new t, step_ok st st' new → Q st t → Q st' t) →
  (∀ st t, printed st !! t = Some true → Q st t) →
  Forall (λ t, t < length tasks)%nat l → listing st0 st trees starts →
  ∃ st' trees' starts', walk_roots fuel tasks edges pick l st starts = Ret (Some (st', starts')) ∧
    listing st0 st' trees' starts' ∧ ∀ t, t ∈ l → Q st' t.
Proof.
  intros Hf Hpick Hmono Hpr Hl. revert st trees starts.
  assert (∀ l st trees starts, Forall (λ t, t < length tasks)%nat l → listing st0 st trees starts →
    ∃ st' trees' starts' new, walk_roots fuel tasks edges pick l st starts = Ret (Some (st', starts')) ∧
      listing st0 st' trees' starts' ∧ step_ok st st' new ∧ ∀ t, t ∈ l → Q st' t) as H.
  { clear l Hl. induction l as [|root l IH]; intros st trees starts Hl Hli; cbn [walk_roots].
    { exists st, trees, starts, []. split; [done|]. split; [done|]. split; [apply step_refl|].
      by intros t ?%elem_of_nil. }
    apply Forall_cons in Hl as [Hroot Hl].
    destruct (Hpick st root (li_state _ _ _ _ Hli) Hroot) as (b & -> & Hb).
    rewrite outcome_bind_eq. cbv beta iota. destruct b.
    - destruct (visit_root fuel _ _ _ _ root Hli Hroot Hb Hf) as (st1 & tree & Hv & Hli1 & Hs1 & Hp1).
      rewrite Hv. simpl try_bind.
      destruct (IH _ _ _ Hl Hli1) as (st2 & trees2 & starts2 & new & Hw & Hli2 & Hs2 & HQ).
      exists st2, trees2, starts2, (tree ++ new). split; [done|]. split; [done|].
      split; [by eapply step_trans|]. intros t [->|Ht]%elem_of_cons; [|auto].
      eapply Hmono; [exact Hs2|]. by apply Hpr.
    - destruct (IH _ _ _ Hl Hli) as (st2 & trees2 & starts2 & new & Hw & Hli2 & Hs2 & HQ).
      exists st2, trees2, starts2, new. split; [done|]. split; [done|]. split; [done|].
      intros t [->|Ht]%elem_of_cons; [|auto]. by eapply Hmono. }
  intros st trees starts Hli. destruct (H l st trees starts Hl Hli) as (st' & t' & s' & new & ?).
  exists st', t', s'. tauto.
Qed.

Lemma pick_root_ok w st root :
  waited_ok w → (root < length tasks)%nat →
  ∃ b, pick_root edges w st root = Ret b ∧ if b : bool then related root else True.
Proof.
  intros Hw Hroot. unfold pick_root.
  destruct (lookup_lt_is_Some_2 w root) as [b Hb]; [by rewrite (wo_length _ Hw)|].
  rewrite Hb. simpl or_panic. rewrite outcome_bind_eq. cbv beta iota.
  destruct b; [by exists false|]. destruct (alone_ok w root Hw Hroot) as (a & -> & Ha).
  rewrite outcome_bind_eq. exists (negb a). split; [done|]. destruct a; simpl; [done|by apply Ha].
Qed.

Lemma pick_left_ok w st root :
  waited_ok w → state_ok st → (root < length tasks)%nat →
  ∃ b, pick_left edges w st root = Ret b ∧
    if b : bool then related root else printed st !! root = Some true ∨ ¬ related root.
Proof.
  intros Hw Hst Hroot. unfold pick_left.
  destruct (lookup_lt_is_Some_2 (printed st) root) as [b Hb]; [by rewrite (st_printed _ Hst)|].
  rewrite Hb. simpl or_panic. rewrite outcome_bind_eq. cbv beta iota.
  destruct b; [exists false; split; [done|by left]|].
  destruct (alone_ok w root Hw Hroot) as (a & -> & Ha).
  rewrite outcome_bind_eq. exists (negb a). split; [done|]. destruct a; simpl; [|by apply Ha].
  right. intros Hr%Ha. done.
Qed.

Lemma related_lt t : related t → (t < length tasks)%nat.
Proof.
  intros [(b & k & es & Hes & _)|(a & k & es & Hes & Hin)].
  - rewrite <- (ew_length Hwf). by eapply lookup_lt_Some.
  - by apply (ew_in Hwf _ _ _ Hes Hin).
Qed.

Lemma tree_related tree r : tree_ok tree → r ∈ tree → related (r_task r).
Proof.
  intros (r0 & rest & -> & _ & Hrest & Hrel) [->|Hr]%elem_of_cons; [done|].
  rewrite Forall_forall in Hrest. right. by apply Hrest.
Qed.

Lemma graph_rows_ok fuel :
  (length tasks < fuel)%nat →
  ∃ trees, graph_rows fuel tasks edges = Ret (Some (concat trees, offsets 0 trees)) ∧
    Forall tree_ok trees ∧ NoDup (full_tasks (concat trees)) ∧
    (∀ t, t ∈ full_tasks (concat trees) ↔ related t) ∧
    ∀ r, r ∈ concat trees → r_mark r = Cycle → tc waits_for (r_task r) (r_task r).
Proof.
  intros Hf. unfold graph_rows. cbv zeta. destruct mark_waited_edges as (w & -> & Hw).
  rewrite outcome_bind_eq. cbv beta iota. set (st0 := mkGraphState _ [] []).
  assert (listing st0 st0 [] []) as Hli0.
  { split; try done; [|apply step_refl]. split; simpl; [apply length_replicate|done|].
    by intros t k ?%elem_of_nil. }
  assert (Forall (λ t, t < length tasks)%nat (seq 0 (length tasks))) as Hseq.
  { apply Forall_forall. intros t Ht%elem_of_seq. lia. }
  destruct (walk_roots_ok fuel (pick_root edges w) (λ _ _, True) (seq 0 (length tasks)) st0 st0 [] [])
    as (st1 & trees1 & starts1 & -> & Hli1 & _); [done| |done|done|done|done|].
  { intros st root _ Hroot. by apply pick_root_ok. }
  simpl try_bind.
  destruct (walk_roots_ok fuel (pick_left edges w)
    (λ st t, printed st !! t = Some true ∨ ¬ related t) (seq 0 (length tasks)) st0 st1 trees1 starts1)
    as (st2 & trees & starts & -> & Hli & HQ); [done| | | |done|done|].
  { intros st root Hst Hroot. by apply pick_left_ok. }
  { intros st st' new t Hs [Hp|?]; [left; by apply (sp_printed _ _ _ Hs); left|by right]. }
  { by left. }
  simpl try_bind. destruct Hli as [_ Hs _ Hr Hst Htr]. rewrite Hr, Hst. exists trees.
  split; [done|]. split; [done|]. split; [apply Hs|]. split; [|apply Hs]. intros t. split.
  - intros (r & -> & [_ Hin]%list_elem_of_filter)%list_elem_of_fmap.
    apply elem_of_concat in Hin as (tree & Hin & Ht). rewrite Forall_forall in Htr.
    by eapply tree_related; [apply Htr|].
  - intros Hrel. pose proof (related_lt t Hrel) as Hlt.
    destruct (HQ t) as [Hp|?]; [apply elem_of_seq; lia| |done].
    apply (sp_printed _ _ _ Hs) in Hp as [[? _]%lookup_replicate|?]; done.
Qed.
End walk.

(** ** Properties *)

(** The graph listing ends without indexing out of range, on any relation
    index, and spells every related task out exactly once: the tasks with a full
    row are, without repeats, those that name another task or are named by one;
    no other task has a row. *)
Theorem graph_lists_once (tasks : list Task) (edges : list (list Edge)) (fuel : nat) :
  edges_wf tasks edges → (length tasks < fuel)%nat →
  ∃ rows starts, graph_rows fuel tasks edges = Ret (Some (rows, starts)) ∧
    NoDup (full_tasks rows) ∧
    (∀ t, t ∈ full_tasks rows ↔ related edges t) ∧
    ∀ r, r ∈ rows → related edges (r_task r).
Proof.
  intros Hwf Hf. destruct (graph_rows_ok tasks edges Hwf fuel Hf) as (trees & Hr & Htr & Hnd & Hin & _).
  exists (concat trees), (offsets 0 trees). split_and!; try done.
  intros r (tree & Hr' & Ht)%elem_of_concat. rewrite Forall_forall in Htr.
  by eapply tree_related; [apply Htr|].
Qed.

(** A row marked as a cycle proves one: the task it names waits, through
    verified waits alone, for itself; no reservation, queue place, set membership
    or held handle on the way can put the mark there. *)
Theorem cycle_mark_sound (tasks : list Task) (edges : list (list Edge)) (fuel : nat)
    (rows : list Row) (starts : list nat) (r : Row) :
  edges_wf tasks edges → (length tasks < fuel)%nat →
  graph_rows fuel tasks edges = Ret (Some (rows, starts)) →
  r ∈ rows → r_mark r = Cycle → tc (waits_for edges) (r_task r) (r_task r).
Proof.
  intros Hwf Hf Hr. destruct (graph_rows_ok tasks edges Hwf fuel Hf) as (trees & Hr' & _ & _ & _ & Hc).
  rewrite Hr in Hr'. injection Hr' as -> _. apply Hc.
Qed.

(** The converse fails: there are relations, which [build] makes of an
    analysis, with two tasks each in a verified wait for the other, whose listing
    marks no row as a cycle, because a held handle led from one to the other
    first. *)
Theorem cycle_mark_incomplete :
  ∃ r rows starts,
    build demo_tasks demo_analysis demo_held [] = Ret r ∧
    graph_rows 4 demo_tasks (edges r) = Ret (Some (rows, starts)) ∧
    waits_for (edges r) 0 2 ∧ waits_for (edges r) 2 0 ∧
    (∀ x, x ∈ rows → r_mark x ≠ Cycle) ∧
    r_mark <$> rows = [Full; Full; Full; Above; Above].
Proof.
  eexists _, _, _. split; [vm_compute; reflexivity|]. split; [vm_compute; reflexivity|].
  split; [exists [mkEdge 1 Handle; mkEdge 2 EWaiting]; split; [done|right; left]|].
  split; [exists [mkEdge 0 EWaiting]; split; [done|left]|]. split; [|reflexivity].
  intros x Hx. repeat (apply elem_of_cons in Hx as [->|Hx]; [done|]). by apply elem_of_nil in Hx.
Qed.

(** A limit cuts the listing between trees: the rows are trees, each a row at
    the margin and the rows under it, and under any limit the rows printed are the
    whole trees of the first roots, as many as the limit and no more than there
    are. *)
Theorem limit_keeps_trees (tasks : list Task) (edges : list (list Edge)) (fuel : nat) :
  edges_wf tasks edges → (length tasks < fuel)%nat →
  ∃ trees starts, graph_rows fuel tasks edges = Ret (Some (concat trees, starts)) ∧
    Forall (tree_ok edges) trees ∧
    ∀ limit,
      let shown := Nat.min (default (length trees) limit) (length trees) in
      print_graph fuel tasks edges limit
        = Ret (Some (shown, length trees, concat (take shown trees))).
Proof.
  intros Hwf Hf. destruct (graph_rows_ok tasks edges Hwf fuel Hf) as (trees & Hr & Htr & _).
  exists trees, (offsets 0 trees). split; [done|]. split; [done|]. intros limit. cbv zeta.
  unfold print_graph. rewrite Hr. simpl try_bind.
  unfold limit_rows. rewrite length_offsets. set (shown := Nat.min _ _).
  assert (shown <= length trees)%nat as Hle by (unfold shown; lia). do 3 f_equal.
  destruct (decide (shown < length trees)%nat) as [Hlt|].
  - rewrite offsets_lookup by done. simpl.
    rewrite <- (take_drop shown trees) at 2. rewrite concat_app.
    apply take_app_length.
  - rewrite lookup_ge_None_2 by (rewrite length_offsets; lia). simpl.
    rewrite firstn_all. by rewrite take_ge by lia.
Qed.

(** ** Witnesses *)

Definition demo_edges : list (list Edge) := [[mkEdge 1 EWaiting]; [mkEdge 0 EWaiting]; []].

Lemma demo_edges_wf : edges_wf demo_tasks demo_edges.
Proof.
  split; [done|]. intros i es e Hi He.
  destruct i as [|[|[|i]]]; simpl in Hi; simplify_eq; set_unfold in He;
    repeat (destruct He as [->|He]); simpl; (lia || done).
Qed.

Lemma graph_lists_once_witness :
  ∃ rows starts, graph_rows 4 demo_tasks demo_edges = Ret (Some (rows, starts)) ∧
    full_tasks rows = [0; 1]%nat ∧ NoDup (full_tasks rows).
Proof.
  destruct (graph_lists_once demo_tasks demo_edges 4 demo_edges_wf ltac:(simpl; lia))
    as (rows & starts & Hr & Hnd & _).
  exists rows, starts. split; [exact Hr|]. split; [|exact Hnd]. vm_compute in Hr. by injection Hr as <- _.
Defined.

Lemma cycle_mark_sound_witness :
  ∃ r, r_mark r = Cycle ∧ tc (waits_for demo_edges) (r_task r) (r_task r).
Proof.
  eexists (mkRow 0 "   " (Some true) EWaiting Cycle). split; [reflexivity|].
  eapply (cycle_mark_sound demo_tasks demo_edges 4 _ _ _ demo_edges_wf ltac:(simpl; lia));
    [vm_compute; reflexivity|do 2 right; left|reflexivity].
Defined.

Lemma limit_keeps_trees_witness :
  ∃ trees starts, graph_rows 4 demo_tasks demo_edges = Ret (Some (concat trees, starts)) ∧
    print_graph 4 demo_tasks demo_edges (Some 0%nat)
      = Ret (Some (Nat.min 0 (length trees), length trees, [])).
Proof.
  destruct (limit_keeps_trees demo_tasks demo_edges 4 demo_edges_wf
    ltac:(simpl; lia)) as (trees & starts & Hr & _ & Hp).
  exists trees, starts. split; [exact Hr|]. exact (Hp (Some 0%nat)).
Defined.
