(* ===== verification/Discovery.v ===== *)
(** Task evidence reconciliation ([hansei-runtime/src/tokio/discovery.rs]): one
    record per task header, fed by every discovery route with what it observed.

    The store's address map is a [gmap]; a record id is its position.  An id past
    the records is an index panic. *)

From S2P Require Import Prelude Text TaskGraph Schema.

Local Open Scope Z_scope.
#[local] Set Warnings "-register-all".

(** ** Owners *)

Inductive RuntimeFlavor := MultiThread | CurrentThread.

Inductive OwnerKey :=
  | Runtime (flavor : RuntimeFlavor) (handle : Z)
  | LocalSet (shared : Z).

#[global] Instance flavor_eq_dec : EqDecision RuntimeFlavor.
Proof. solve_decision. Defined.
#[global] Instance owner_key_eq_dec : EqDecision OwnerKey.
Proof. solve_decision. Defined.

Definition flavor_rank (f : RuntimeFlavor) : Z :=
  match f with MultiThread => 0 | CurrentThread => 1 end.

(** An owner key as the tuple its derived order compares. *)
Definition owner_tuple (k : OwnerKey) : Z * Z * Z :=
  match k with
  | Runtime f h => (0, flavor_rank f, h)
  | LocalSet s => (1, s, 0)
  end.

Definition tuple_leb (a b : Z * Z * Z) : bool :=
  if a.1.1 <? b.1.1 then true
  else if b.1.1 <? a.1.1 then false
  else if a.1.2 <? b.1.2 then true
  else if b.1.2 <? a.1.2 then false
  else a.2 <=? b.2.

Definition owner_leb (a b : OwnerKey) : bool := tuple_leb (owner_tuple a) (owner_tuple b).

Inductive TaskKind := KUnknown | Async | Blocking | KConflict.

#[global] Instance task_kind_eq_dec : EqDecision TaskKind.
Proof. solve_decision. Defined.

Inductive OwnerResolution :=
  | OUnknown
  | Known (key : OwnerKey)
  | OConflict (owners : list OwnerKey).

#[global] Instance owner_resolution_eq_dec : EqDecision OwnerResolution.
Proof. solve_decision. Defined.

(** [OwnerResolution::known]. *)
Definition known (o : OwnerResolution) : option OwnerKey :=
  match o with Known key => Some key | OUnknown | OConflict _ => None end.

(** ** Evidence *)

Record ValueKey := mkValueKey { vk_addr : Z; vk_ty : BundleTypeId }.

#[global] Instance value_key_eq_dec : EqDecision ValueKey.
Proof. solve_decision. Defined.

Inductive OwnerEvidence :=
  | EOwnedList (head owner_id : Z)
  | CellScheduler (scheduler : ValueKey) (owner_id : Z)
  | EBlockingQueue (queue : ValueKey) (entry : Z).

Record OwnerClaim := mkClaim { c_owner : OwnerKey; evidence : OwnerEvidence }.

Inductive ReferenceSource :=
  | JoinHandle | SemaphoreWaker | TimerWaker | IoWaker | JoinTrailerWaker | JoinSetEntry
  | ChannelWaker | NotifyWaker | OneshotWaker.

Record TaskReference := mkReference {
  rf_target : TaskAddr;
  rf_source : ReferenceSource;
  rf_source_value : option ValueKey;
  rf_root_task : option TaskAddr;
  rf_path : list Schema.Step
}.

Inductive TaskSource :=
  | OwnedList (owner : OwnerKey) (head : Z)
  | Reference (r : TaskReference)
  | BlockingQueue (owner : OwnerKey) (queue : ValueKey) (entry : Z).

#[global] Instance owner_evidence_eq_dec : EqDecision OwnerEvidence.
Proof. solve_decision. Defined.
#[global] Instance owner_claim_eq_dec : EqDecision OwnerClaim.
Proof. solve_decision. Defined.
#[global] Instance reference_source_eq_dec : EqDecision ReferenceSource.
Proof. solve_decision. Defined.
#[global] Instance task_reference_eq_dec : EqDecision TaskReference.
Proof. solve_decision. Defined.
#[global] Instance task_source_eq_dec : EqDecision TaskSource.
Proof. solve_decision. Defined.

(** [TaskSource::kind] and [TaskSource::lists]. *)
Definition source_kind (s : TaskSource) : option TaskKind :=
  match s with
  | OwnedList _ _ => Some Async
  | BlockingQueue _ _ _ => Some Blocking
  | Reference _ => None
  end.

Definition is_reference (s : TaskSource) : bool :=
  match s with Reference _ => true | _ => false end.
Definition lists (s : TaskSource) : bool := negb (is_reference s).

Record Observation := mkObservation {
  source : TaskSource;
  o_kind : option TaskKind;
  o_claim : option OwnerClaim
}.

(** ** Headers *)

Record Location := mkLocation { filename : string; l_line : Z; l_col : Z }.

Inductive FutureKind := AsyncFn | AsyncBlock | Combinator | Manual.

Record KnownFuture := mkKnownFuture {
  kf_entry : Z;
  kf_future : BundleTypeId;
  kf_kind : FutureKind;
  kf_decl : option (string * Z);
  kf_symbol : string
}.

Inductive FutureInfo :=
  | FKnown (k : KnownFuture)
  | FUnknown (poll_symbol : option string)
  | Ambiguous (symbol : string) (candidates : list BundleTypeId).

Record DecodedTaskHeader := mkHeader {
  h_addr : TaskAddr;
  h_state : TaskState;
  h_owner_id : option Z;
  h_task_id : option Z;
  h_spawn_location : option Location;
  h_vtable_addr : Z;
  h_trailer_offset : Z;
  h_future : FutureInfo
}.

(** ** Diagnostics *)

Inductive WalkIssueKind :=
  | ReadFailed | IFreed | OutsideAllocation | InvalidLayout | InactiveStorage
  | UnknownInitialization | UnknownContinuation | UnknownDynamicType | AmbiguousDynamicType
  | UnsupportedArray | DepthLimit | HopLimit | VisitLimit | Cycle | CountMismatch.

Record WalkIssue := mkWalkIssue {
  wi_at : ValueKey;
  wi_kind : WalkIssueKind;
  wi_detail : option string
}.

Inductive DiscoveryIssue :=
  | HeaderConflict (addr : TaskAddr) (detail : string)
  | KindConflict (addr : TaskAddr)
  | OwnerConflict (addr : TaskAddr) (owners : list OwnerKey)
  | OwnerIdMismatch (addr : TaskAddr) (owner : OwnerKey) (expected : Z) (found : option Z)
  | Walk (issue : WalkIssue).

#[global] Instance walk_issue_kind_eq_dec : EqDecision WalkIssueKind.
Proof. solve_decision. Defined.
#[global] Instance walk_issue_eq_dec : EqDecision WalkIssue.
Proof. solve_decision. Defined.
#[global] Instance discovery_issue_eq_dec : EqDecision DiscoveryIssue.
Proof. solve_decision. Defined.

(** What an owned list's link to a task establishes. *)
Definition list_claim (owner : OwnerKey) (head : Z) (owned_id : option Z)
    (header : DecodedTaskHeader) : option OwnerClaim * option DiscoveryIssue :=
  let found := h_owner_id header in
  match owned_id with
  | Some id =>
      if bool_decide (found = Some id)
      then (Some (mkClaim owner (EOwnedList head id)), None)
      else (None, Some (OwnerIdMismatch (h_addr header) owner id found))
  | None => (None, None)
  end.

(** ** Records *)

Definition RETAINED_REFERENCES : nat := 8.

Record TaskRecord := mkRecord {
  header : DecodedTaskHeader;
  sources : list TaskSource;
  omitted_sources : Z;
  kinds : list TaskKind;
  owner_claims : list OwnerClaim;
  issues : list DiscoveryIssue;
  scanned : bool;
  in_scope : bool
}.

Definition record_new (h : DecodedTaskHeader) : TaskRecord :=
  mkRecord h [] 0 [] [] [] false true.

Definition record_addr (r : TaskRecord) : TaskAddr := h_addr (header r).

(** The kind, from all retained evidence. *)
Definition kind_of (ks : list TaskKind) : TaskKind :=
  match ks with [] => KUnknown | [kind] => kind | _ => KConflict end.
Definition record_kind (r : TaskRecord) : TaskKind := kind_of (kinds r).

(** [if !v.contains(&x) { v.push(x) }]. *)
Definition push_new {A} `{!EqDecision A} (l : list A) (x : A) : list A :=
  if bool_decide (x ∈ l) then l else l ++ [x].

(** The owner, from the distinct validated owner keys, a conflict in key
    order. *)
Definition record_owner (r : TaskRecord) : OwnerResolution :=
  let owners := foldl (λ owners c, push_new owners (c_owner c)) [] (owner_claims r) in
  match sort_by owner_leb owners with
  | [] => OUnknown
  | [owner] => Known owner
  | owners => OConflict owners
  end.

Definition resident (r : TaskRecord) : bool :=
  existsb lists (sources r)
  || (negb (bool_decide (sources r = []))
      && match lifecycle (h_state (header r)) with Complete => false | _ => true end).

Definition is_header_conflict (i : DiscoveryIssue) : bool :=
  match i with HeaderConflict _ _ => true | _ => false end.
Definition is_owner_conflict (i : DiscoveryIssue) : bool :=
  match i with OwnerConflict _ _ => true | _ => false end.

Definition header_conflict (r : TaskRecord) : bool := existsb is_header_conflict (issues r).

(** A listing row. *)
Record Task := mkTask {
  addr : TaskAddr;
  state : TaskState;
  owner_id : option Z;
  task_id : option Z;
  spawn_location : option Location;
  future : FutureInfo;
  kind : TaskKind;
  owner : OwnerResolution
}.

Definition record_task (r : TaskRecord) : Task :=
  let h := header r in
  mkTask (h_addr h) (h_state h) (h_owner_id h) (h_task_id h) (h_spawn_location h)
    (if header_conflict r then FUnknown None else h_future h) (record_kind r) (record_owner r).

Definition set_issues (r : TaskRecord) (is_ : list DiscoveryIssue) : TaskRecord :=
  mkRecord (header r) (sources r) (omitted_sources r) (kinds r) (owner_claims r) is_
    (scanned r) (in_scope r).

Definition add_kind (r : TaskRecord) (k : TaskKind) : TaskRecord :=
  mkRecord (header r) (sources r) (omitted_sources r) (push_new (kinds r) k) (owner_claims r)
    (issues r) (scanned r) (in_scope r).

Definition add_source (r : TaskRecord) (s : TaskSource) : TaskRecord :=
  if bool_decide (s ∈ sources r) then r
  else if is_reference s
          && (RETAINED_REFERENCES <=? length (filter (λ s, is_reference s = true) (sources r)))%nat
  then mkRecord (header r) (sources r) (omitted_sources r + 1) (kinds r) (owner_claims r)
         (issues r) (scanned r) (in_scope r)
  else mkRecord (header r) (sources r ++ [s]) (omitted_sources r) (kinds r) (owner_claims r)
         (issues r) (scanned r) (in_scope r).

Definition add_claim (r : TaskRecord) (c : OwnerClaim) : TaskRecord :=
  mkRecord (header r) (sources r) (omitted_sources r) (kinds r) (push_new (owner_claims r) c)
    (issues r) (scanned r) (in_scope r).

Definition add_issue (r : TaskRecord) (i : DiscoveryIssue) : TaskRecord :=
  set_issues r (push_new (issues r) i).

(** The standing conflict diagnostics, recomputed. *)
Definition reconcile (r : TaskRecord) : TaskRecord :=
  let addr := record_addr r in
  let r := match record_kind r with KConflict => add_issue r (KindConflict addr) | _ => r end in
  match record_owner r with
  | OConflict owners =>
      set_issues r (filter (λ i, is_owner_conflict i = false) (issues r)
                    ++ [OwnerConflict addr owners])
  | OUnknown | Known _ => r
  end.

(** ** The store *)

Abbreviation TaskRecordId := nat (only parsing).

Record MergeEffect := mkEffect {
  e_record : TaskRecordId;
  inserted : bool;
  owner_changed : bool;
  kind_changed : bool
}.

Record TaskStore := mkStore {
  by_addr : gmap Z TaskRecordId;
  records : list TaskRecord;
  scannable : list TaskRecordId
}.

Definition store_new : TaskStore := mkStore ∅ [] [].

Definition store_len (s : TaskStore) : nat := length (records s).
Definition lookup_addr (s : TaskStore) (a : Z) : option TaskRecordId := by_addr s !! a.
Definition record (s : TaskStore) (id : TaskRecordId) : outcome TaskRecord :=
  or_panic (records s !! id).
Definition record_at (s : TaskStore) (a : Z) : outcome (option TaskRecord) :=
  match lookup_addr s a with
  | Some id => r ← record s id; Ret (Some r)
  | None => Ret None
  end.

(** A change of one record. *)
Definition set_record (s : TaskStore) (id : TaskRecordId) (r : TaskRecord) : TaskStore :=
  mkStore (by_addr s) (<[id := r]> (records s)) (scannable s).

(** How two decodes of one header disagree, if they do. *)
Definition debug_option (o : option Z) : string :=
  match o with Some z => ("Some(" +:+ dec z +:+ ")")%string | None => "None" end.

Definition diff {A} `{!EqDecision A} (name : string) (show : A → string) (x y : A) : list string :=
  if bool_decide (x = y) then []
  else [(name +:+ " " +:+ show x +:+ " vs " +:+ show y)%string].

Definition identity_conflict (first second : DecodedTaskHeader) : option string :=
  let diffs :=
    diff "vtable" hex (h_vtable_addr first) (h_vtable_addr second)
    ++ diff "trailer offset" hex (h_trailer_offset first) (h_trailer_offset second)
    ++ diff "state word" hex (h_state first) (h_state second)
    ++ diff "task id" debug_option (h_task_id first) (h_task_id second)
    ++ diff "owner id" debug_option (h_owner_id first) (h_owner_id second) in
  match diffs with [] => None | _ => Some (String.concat ", " diffs) end.

(** What an observation adds to a record, before its conflicts are recomputed. *)
Definition merge (r : TaskRecord) (o : Observation) : TaskRecord :=
  let r := match source_kind (source o) with Some k => add_kind r k | None => r end in
  let r := match o_kind o with Some k => add_kind r k | None => r end in
  let r := add_source r (source o) in
  match o_claim o with Some c => add_claim r c | None => r end.

Definition observe_at (s : TaskStore) (id : TaskRecordId) (o : Observation)
    : outcome (MergeEffect * TaskStore) :=
  r ← record s id;
  let r' := reconcile (merge r o) in
  let s := set_record s id r' in
  let s := if negb (resident r) && resident r' && negb (scanned r')
           then mkStore (by_addr s) (records s) (scannable s ++ [id]) else s in
  Ret (mkEffect id false (negb (bool_decide (record_owner r' = record_owner r)))
         (negb (bool_decide (record_kind r' = record_kind r))), s).

Definition observe (s : TaskStore) (h : DecodedTaskHeader) (o : Observation)
    : outcome (MergeEffect * TaskStore) :=
  match lookup_addr s (h_addr h) with
  | Some id =>
      r ← record s id;
      let s := match identity_conflict (header r) h with
               | Some detail => set_record s id (add_issue r (HeaderConflict (h_addr h) detail))
               | None => s
               end in
      observe_at s id o
  | None =>
      let id := length (records s) in
      let s := mkStore (<[h_addr h := id]> (by_addr s)) (records s ++ [record_new h])
                 (scannable s) in
      '(e, s) ← observe_at s id o;
      Ret (mkEffect (e_record e) true (owner_changed e) (kind_changed e), s)
  end.

Definition claim (s : TaskStore) (id : TaskRecordId) (c : OwnerClaim)
    : outcome (MergeEffect * TaskStore) :=
  r ← record s id;
  let r' := reconcile (add_claim r c) in
  Ret (mkEffect id false (negb (bool_decide (record_owner r' = record_owner r))) false,
       set_record s id r').

Definition issue (s : TaskStore) (id : TaskRecordId) (i : DiscoveryIssue) : outcome TaskStore :=
  r ← record s id; Ret (set_record s id (add_issue r i)).

Definition mark_scanned (s : TaskStore) (id : TaskRecordId) : outcome TaskStore :=
  r ← record s id;
  Ret (set_record s id
         (mkRecord (header r) (sources r) (omitted_sources r) (kinds r) (owner_claims r)
            (issues r) true (in_scope r))).

Definition take_scannable (s : TaskStore) : list TaskRecordId * TaskStore :=
  (scannable s, mkStore (by_addr s) (records s) []).

Definition with_scope (r : TaskRecord) (scope : bool) : TaskRecord :=
  mkRecord (header r) (sources r) (omitted_sources r) (kinds r) (owner_claims r) (issues r)
    (scanned r) scope.

Definition set_scope (s : TaskStore) (id : TaskRecordId) (scope : bool) : outcome TaskStore :=
  r ← record s id; Ret (set_record s id (with_scope r scope)).

(** [TaskStore::issues]. *)
Definition store_issues (s : TaskStore) : list DiscoveryIssue := mjoin (issues <$> records s).

(** A row's sort key: idless rows last, by address. *)
Definition row_tuple (t : Task) : Z * Z * Z :=
  match task_id t with
  | Some id => (0, id, addr t)
  | None => (1, 0, addr t)
  end.
Definition row_leb (a b : Task) : bool := tuple_leb (row_tuple a) (row_tuple b).

Definition selected (excluded : list Z) (t : Task) : bool :=
  match owner t with
  | Known (Runtime _ handle) => negb (bool_decide (handle ∈ excluded))
  | _ => true
  end.

Definition project (s : TaskStore) (excluded : list Z) : list Task :=
  sort_by row_leb
    (filter (λ t, selected excluded t = true)
       (record_task <$> filter (λ r, resident r && in_scope r = true) (records s))).

(** ** Group numbers *)

Record OwnerIndex := mkOwnerIndex {
  oi_keys : list OwnerKey;
  oi_runtimes : nat
}.

(** The map of the keys to their positions, the last of equal keys winning. *)
Fixpoint last_position (keys : list OwnerKey) (i : nat) (key : OwnerKey) : option nat :=
  match keys with
  | [] => None
  | k :: keys =>
      match last_position keys (S i) key with
      | Some j => Some j
      | None => if bool_decide (k = key) then Some i else None
      end
  end.

Definition group_of_key (ix : OwnerIndex) (key : OwnerKey) : option nat :=
  last_position (oi_keys ix) 0 key.
Definition group_of (ix : OwnerIndex) (t : Task) : option nat :=
  key ← known (owner t); group_of_key ix key.
Definition key (ix : OwnerIndex) (group : nat) : option OwnerKey := oi_keys ix !! group.
