(* ===== verification/Work.v ===== *)
(** The discovery sweep: one queue of finite work items run to a fixed point,
    and the scope a selection is projected through
    ([hansei-runtime/src/tokio/work.rs]).

    The source's [DiscoveryWorld] trait is the class of the same name.  The item
    counters stay below the item cap, a [u64], so they are numbers.  The two
    loops run on fuel, the sweep on its item cap and the scope on a count of what
    it can queue; running out is [Panic], which the theorems exclude. *)

From S2P Require Import Prelude Text TaskGraph Schema Discovery.

Local Open Scope Z_scope.
#[local] Set Warnings "-register-all".

(** ** Work *)

Inductive DiscoveryRoute :=
  | WorkerContext | Wheel | RIo | Tls | RBlockingQueue
  | Scanned (source : ReferenceSource).

(** A find: a reference some storage or registry held, or a pool queue's entry. *)
Inductive Candidate :=
  | CReference (reference : TaskReference) (route : DiscoveryRoute)
  | Queued (addr : Z) (owner : OwnerKey) (queue : ValueKey) (entry : Z).

Definition candidate_addr (c : Candidate) : Z :=
  match c with CReference r _ => rf_target r | Queued addr _ _ _ => addr end.

Inductive Origin :=
  | OTask (id : TaskRecordId)
  | OOwner (owner : OwnerKey).

#[global] Instance origin_eq_dec : EqDecision Origin.
Proof. solve_decision. Defined.

Inductive DiscoveryWork :=
  | EnumerateRuntime (owner : OwnerKey)
  | EnumerateLocalSet (owner : OwnerKey)
  | ScanTask (id : TaskRecordId)
  | HarvestTimers (owner : OwnerKey)
  | HarvestIo (owner : OwnerKey)
  | HarvestBlockingQueue (owner : OwnerKey)
  | Validate (candidate : Candidate) (from : Origin).

Inductive Registry := Timers | Io | RegBlockingQueue.

(** The limits and the run-wide counters of a scan. *)
Record ScanLimits := mkLimits {
  max_depth : Z;
  max_future_nesting : Z;
  max_chain_depth : Z;
  max_children : Z;
  max_inline_visits : Z;
  max_referent_expansions : Z;
  max_work_items : Z
}.

Record ScanBudget := mkBudget {
  limits : ScanLimits;
  inline_visits : Z;
  referent_expansions : Z
}.

Definition budget_new (l : ScanLimits) : ScanBudget := mkBudget l 0 0.

Definition charge_visit (b : ScanBudget) : bool * ScanBudget :=
  if max_inline_visits (limits b) <=? inline_visits b then (false, b)
  else (true, mkBudget (limits b) (inline_visits b + 1) (referent_expansions b)).

Definition charge_referent (b : ScanBudget) : bool * ScanBudget :=
  if max_referent_expansions (limits b) <=? referent_expansions b then (false, b)
  else (true, mkBudget (limits b) (inline_visits b) (referent_expansions b + 1)).

Record TaskList := mkTaskList {
  tasks : list Task;
  errors : list string;
  tl_records : TaskStore
}.

Definition with_records (l : TaskList) (s : TaskStore) : TaskList :=
  mkTaskList (tasks l) (errors l) s.

(** [TaskList::contains] and [TaskList::reproject]. *)
Definition contains (l : TaskList) (a : Z) : bool := existsb (λ t, addr t =? a) (tasks l).
Definition reproject (l : TaskList) (excluded : list Z) : TaskList :=
  mkTaskList (project (tl_records l) excluded) (errors l) (tl_records l).

(** What the sweep asks of the target. *)
Class DiscoveryWorld (W : Type) := {
  enumerate : OwnerKey → W → TaskList → outcome (W * TaskList);
  scan : TaskRecordId → W → TaskList → ScanBudget →
    outcome (list Candidate * (W * TaskList * ScanBudget));
  harvest : OwnerKey → Registry → W → TaskList → outcome (list Candidate * (W * TaskList));
  validate : Candidate → W → TaskList → outcome (list OwnerKey * (W * TaskList))
}.

Record Roots := mkRoots {
  root_runtimes : list OwnerKey;
  root_sets : list OwnerKey
}.

Record WorkTally := mkTally {
  runtimes : Z; sets : Z; scans : Z; timers : Z; io : Z; queues : Z; validations : Z
}.

Definition tally_zero : WorkTally := mkTally 0 0 0 0 0 0 0.

Definition total (t : WorkTally) : Z :=
  runtimes t + sets t + scans t + timers t + io t + queues t + validations t.

Definition tally_is_empty (t : WorkTally) : bool := total t =? 0.

(** One item counted. *)
Definition tally_add (t : WorkTally) (w : DiscoveryWork) : WorkTally :=
  let 'mkTally r s c ti i q v := t in
  match w with
  | EnumerateRuntime _ => mkTally (r + 1) s c ti i q v
  | EnumerateLocalSet _ => mkTally r (s + 1) c ti i q v
  | ScanTask _ => mkTally r s (c + 1) ti i q v
  | HarvestTimers _ => mkTally r s c (ti + 1) i q v
  | HarvestIo _ => mkTally r s c ti (i + 1) q v
  | HarvestBlockingQueue _ => mkTally r s c ti i (q + 1) v
  | Validate _ _ => mkTally r s c ti i q (v + 1)
  end.

(** [Display for WorkTally]. *)
Definition tally_display (t : WorkTally) : string :=
  let kinds :=
    [(runtimes t, "runtime", "runtimes", "to enumerate");
     (sets t, "local set", "local sets", "to enumerate");
     (scans t, "task", "tasks", "to scan");
     (validations t, "find", "finds", "to validate");
     (timers t, "timer wheel", "timer wheels", "to harvest");
     (io t, "io driver", "io drivers", "to harvest");
     (queues t, "blocking queue", "blocking queues", "to harvest")]%string in
  let parts :=
    (λ '(count, one, many, verb),
       (dec count +:+ " " +:+ (if (count =? 1)%Z then one else many) +:+ " " +:+ verb)%string)
    <$> filter (λ '(count, _, _, _), negb (count =? 0) = true) kinds in
  match parts with [] => "nothing"%string | _ => String.concat ", " parts end.

Record Queue := mkQueue {
  q_validations : list (Candidate * Origin);
  q_runtimes : list OwnerKey;
  q_sets : list OwnerKey;
  q_scans : list TaskRecordId;
  q_timers : list OwnerKey;
  q_io : list OwnerKey;
  q_queues : list OwnerKey
}.

Definition queue_default : Queue := mkQueue [] [] [] [] [] [] [].

Definition pop (q : Queue) : option (DiscoveryWork * Queue) :=
  let 'mkQueue v r s c t i b := q in
  match v with
  | (candidate, from) :: v => Some (Validate candidate from, mkQueue v r s c t i b)
  | [] => match r with
  | owner :: r => Some (EnumerateRuntime owner, mkQueue v r s c t i b)
  | [] => match s with
  | owner :: s => Some (EnumerateLocalSet owner, mkQueue v r s c t i b)
  | [] => match c with
  | id :: c => Some (ScanTask id, mkQueue v r s c t i b)
  | [] => match t with
  | owner :: t => Some (HarvestTimers owner, mkQueue v r s c t i b)
  | [] => match i with
  | owner :: i => Some (HarvestIo owner, mkQueue v r s c t i b)
  | [] => match b with
  | owner :: b => Some (HarvestBlockingQueue owner, mkQueue v r s c t i b)
  | [] => None
  end end end end end end end.

Definition tally (q : Queue) : WorkTally :=
  let n {A} (l : list A) := Z.of_nat (length l) in
  mkTally (n (q_runtimes q)) (n (q_sets q)) (n (q_scans q)) (n (q_timers q)) (n (q_io q))
    (n (q_queues q)) (n (q_validations q)).

Definition push_validations (q : Queue) (from : Origin) (cs : list Candidate) : Queue :=
  mkQueue (q_validations q ++ ((λ c, (c, from)) <$> cs)) (q_runtimes q) (q_sets q) (q_scans q)
    (q_timers q) (q_io q) (q_queues q).

Definition push_scans (q : Queue) (ids : list TaskRecordId) : Queue :=
  mkQueue (q_validations q) (q_runtimes q) (q_sets q) (q_scans q ++ ids) (q_timers q) (q_io q)
    (q_queues q).

(** ** Selection *)

Definition is_excluded (owner : OwnerKey) (excluded : list Z) : bool :=
  match owner with
  | Runtime _ handle => bool_decide (handle ∈ excluded)
  | LocalSet _ => false
  end.

Definition excluded_owned (owner : OwnerResolution) (excluded : list Z) : bool :=
  match known owner with Some key => is_excluded key excluded | None => false end.

(** ** The sweep *)

Section sweep.
Context {W : Type} `{!DiscoveryWorld W} (excluded : list Z).

(** The closure [schedule_owner] over the queue and the scheduled set. *)
Definition schedule_owner (owner : OwnerKey) (enumerate : bool)
    (st : Queue * list OwnerKey) : Queue * list OwnerKey :=
  let '(mkQueue v r s c t i b as queue, scheduled) := st in
  if is_excluded owner excluded || bool_decide (owner ∈ scheduled) then (queue, scheduled)
  else
    (match owner with
     | Runtime _ _ =>
         mkQueue v (if enumerate then r ++ [owner] else r) s c (t ++ [owner]) (i ++ [owner])
           (b ++ [owner])
     | LocalSet _ => mkQueue v r (s ++ [owner]) c t i b
     end, owner :: scheduled).

Definition schedule_all (enumerate : bool) (owners : list OwnerKey) (st : Queue * list OwnerKey)
    : Queue * list OwnerKey :=
  foldl (λ st owner, schedule_owner owner enumerate st) st owners.

(** The loop's variables. *)
Record SweepState := mkSweep {
  s_world : W;
  s_list : TaskList;
  s_queue : Queue;
  s_scheduled : list OwnerKey;
  s_budget : ScanBudget;
  s_processed : WorkTally;
  s_found_from : list (Origin * TaskRecordId);
  s_unscanned : Z
}.

(** [queue.scans.extend(list.records.take_scannable())]. *)
Definition take_scans (q : Queue) (l : TaskList) : Queue * TaskList :=
  let '(ids, s) := take_scannable (tl_records l) in (push_scans q ids, with_records l s).

Definition harvested (st : SweepState) (owner : OwnerKey) (registry : Registry)
    : outcome SweepState :=
  '(cs, (w, l)) ← harvest owner registry (s_world st) (s_list st);
  Ret (mkSweep w l (push_validations (s_queue st) (OOwner owner) cs) (s_scheduled st)
         (s_budget st) (s_processed st) (s_found_from st) (s_unscanned st)).

Definition enumerated (st : SweepState) (owner : OwnerKey) : outcome SweepState :=
  '(w, l) ← enumerate owner (s_world st) (s_list st);
  let '(q, l) := take_scans (s_queue st) l in
  Ret (mkSweep w l q (s_scheduled st) (s_budget st) (s_processed st) (s_found_from st)
         (s_unscanned st)).

Definition validated (st : SweepState) (candidate : Candidate) (from : Origin)
    : outcome SweepState :=
  let addr := candidate_addr candidate in
  '(admitted, (w, l)) ← validate candidate (s_world st) (s_list st);
  let found := match lookup_addr (tl_records l) addr with
               | Some id => s_found_from st ++ [(from, id)]
               | None => s_found_from st
               end in
  let '(q, scheduled) := schedule_all true admitted (s_queue st, s_scheduled st) in
  let '(q, l) := take_scans q l in
  Ret (mkSweep w l q scheduled (s_budget st) (s_processed st) found (s_unscanned st)).

Definition scanned_task (st : SweepState) (id : TaskRecordId) : outcome SweepState :=
  r ← record (tl_records (s_list st)) id;
  if excluded_owned (record_owner r) excluded then
    Ret (mkSweep (s_world st) (s_list st) (s_queue st) (s_scheduled st) (s_budget st)
           (s_processed st) (s_found_from st) (s_unscanned st + 1))
  else
    '(cs, (w, l, budget)) ← scan id (s_world st) (s_list st) (s_budget st);
    Ret (mkSweep w l (push_validations (s_queue st) (OTask id) cs) (s_scheduled st) budget
           (s_processed st) (s_found_from st) (s_unscanned st)).

(** One item, popped from the queue and counted. *)
Definition process (st : SweepState) (item : DiscoveryWork) : outcome SweepState :=
  match item with
  | Validate candidate from => validated st candidate from
  | EnumerateRuntime owner | EnumerateLocalSet owner => enumerated st owner
  | ScanTask id => scanned_task st id
  | HarvestTimers owner => harvested st owner Timers
  | HarvestIo owner => harvested st owner Io
  | HarvestBlockingQueue owner => harvested st owner RegBlockingQueue
  end.

(** The item taken from the state's queue, and the state it is processed in. *)
Definition take_item (st : SweepState) (item : DiscoveryWork) (q : Queue) : SweepState :=
  mkSweep (s_world st) (s_list st) q (s_scheduled st) (s_budget st)
    (tally_add (s_processed st) item) (s_found_from st) (s_unscanned st).

Fixpoint sweep_loop (fuel : nat) (max : Z) (st : SweepState) : outcome (SweepState * bool) :=
  match fuel with
  | O => Panic
  | S fuel =>
      if max <=? total (s_processed st) then
        Ret (st, negb (tally_is_empty (tally (s_queue st))))
      else
        match pop (s_queue st) with
        | None => Ret (st, false)
        | Some (item, q) =>
            st ← process (take_item st item q) item;
            sweep_loop fuel max st
        end
  end.

(** ** The scope *)

(** The values of a key, in the order they were pushed. *)
Definition links {K A} `{!EqDecision K} (k : K) (l : list (K * A)) : list A :=
  snd <$> filter (λ p, p.1 = k) l.

(** The owners whose list or queue carries a record. *)
Definition source_owner (s : TaskSource) : option OwnerKey :=
  match s with
  | OwnedList owner _ | BlockingQueue owner _ _ => Some owner
  | Reference _ => None
  end.

Definition record_links (id : TaskRecordId) (r : TaskRecord) : list (OwnerKey * TaskRecordId) :=
  (λ o, (o, id)) <$> omap source_owner (sources r).

Definition origin_owner (f : Origin * TaskRecordId) : option (OwnerKey * TaskRecordId) :=
  match f.1 with OOwner owner => Some (owner, f.2) | OTask _ => None end.
Definition origin_task (f : Origin * TaskRecordId) : option (TaskRecordId * TaskRecordId) :=
  match f.1 with OTask id => Some (id, f.2) | OOwner _ => None end.

Definition owner_tasks (s : TaskStore) (found_from : list (Origin * TaskRecordId))
    : list (OwnerKey * TaskRecordId) :=
  mjoin (imap record_links (records s)) ++ omap origin_owner found_from.
Definition task_tasks (found_from : list (Origin * TaskRecordId))
    : list (TaskRecordId * TaskRecordId) :=
  omap origin_task found_from.

(** The scope's variables; [seen_owners] holds what [reached_owners] does. *)
Record Scope := mkScope {
  reached_owners : list OwnerKey;
  reached_tasks : list bool;
  work : list Origin
}.

Definition reach_owner (st : Scope) (owner : OwnerKey) : Scope :=
  if is_excluded owner excluded || bool_decide (owner ∈ reached_owners st) then st
  else mkScope (reached_owners st ++ [owner]) (reached_tasks st) (work st ++ [OOwner owner]).

Definition reach_task (st : outcome Scope) (id : TaskRecordId) : outcome Scope :=
  st ← st;
  reached ← or_panic (A := bool) (reached_tasks st !! id);
  if (reached : bool) then Ret st
  else Ret (mkScope (reached_owners st) (<[id := true]> (reached_tasks st))
              (work st ++ [OTask id])).

(** The owners a record's cell was validated against. *)
Definition cell_owner (c : OwnerClaim) : option OwnerKey :=
  match evidence c with CellScheduler _ _ => Some (c_owner c) | _ => None end.

Definition scope_step (s : TaskStore) (found_from : list (Origin * TaskRecordId))
    (node : Origin) (st : Scope) : outcome Scope :=
  match node with
  | OOwner owner => foldl reach_task (Ret st) (links owner (owner_tasks s found_from))
  | OTask id =>
      r ← record s id;
      if excluded_owned (record_owner r) excluded then Ret st
      else
        st ← foldl reach_task (Ret st) (links id (task_tasks found_from));
        Ret (foldl reach_owner st (omap cell_owner (owner_claims r)))
  end.

Fixpoint scope_loop (fuel : nat) (s : TaskStore) (found_from : list (Origin * TaskRecordId))
    (st : Scope) : outcome Scope :=
  match work st with
  | [] => Ret st
  | node :: rest =>
      match fuel with
      | O => Panic
      | S fuel =>
          st ← scope_step s found_from node (mkScope (reached_owners st) (reached_tasks st) rest);
          scope_loop fuel s found_from st
      end
  end.

(** Every owner a root or a claim names, and every record, at most once. *)
Definition scope_fuel (s : TaskStore) (roots : Roots) : nat :=
  length (root_runtimes roots) + length (root_sets roots)
  + sum_list_with (λ r, length (owner_claims r)) (records s) + length (records s).

Definition set_scopes (s : TaskStore) (reached : list bool) : outcome TaskStore :=
  foldl (λ (s : outcome TaskStore) (p : TaskRecordId * bool), s ← s; set_scope s p.1 p.2)
    (Ret s) (imap pair reached).

Definition apply_scope (l : TaskList) (roots : Roots)
    (found_from : list (Origin * TaskRecordId)) : outcome (list OwnerKey * TaskList) :=
  let s := tl_records l in
  let st := foldl reach_owner (mkScope [] (replicate (length (records s)) false) [])
              (root_runtimes roots ++ root_sets roots) in
  st ← scope_loop (scope_fuel s roots) s found_from st;
  s ← set_scopes s (reached_tasks st);
  Ret (reached_owners st, with_records l s).

Record SweepOutcome := mkOutcome {
  processed : WorkTally;
  remaining : WorkTally;
  capped : bool;
  budget : ScanBudget;
  reached : list OwnerKey;
  unscanned_excluded : Z
}.

(** The state the loop starts in: the root runtimes' lists are enumerated
    already. *)
Definition sweep_start (world : W) (l : TaskList) (roots : Roots) (lim : ScanLimits)
    : SweepState :=
  let st := schedule_all false (root_runtimes roots) (queue_default, []) in
  let '(q, scheduled) := schedule_all true (root_sets roots) st in
  let '(q, l) := take_scans q l in
  mkSweep world l q scheduled (budget_new lim) tally_zero [] 0.

Definition sweep (world : W) (l : TaskList) (roots : Roots) (lim : ScanLimits)
    : outcome (SweepOutcome * (W * TaskList)) :=
  '(st, capped) ← sweep_loop (S (Z.to_nat (max_work_items lim))) (max_work_items lim)
                    (sweep_start world l roots lim);
  let remaining := tally (s_queue st) in
  '(reached, l) ← apply_scope (s_list st) roots (s_found_from st);
  Ret (mkOutcome (s_processed st) remaining capped (s_budget st) reached (s_unscanned st),
       (s_world st, l)).
End sweep.

Arguments SweepState : clear implicits.
