(* ===== verification/DiscoveryFacts.v ===== *)
(** Facts about task records: what the evidence filed on a record makes of it,
    whatever order it arrived in, and what the store keeps of its records. *)

From S2P Require Import Prelude Text TaskGraph Schema Discovery.

Local Open Scope Z_scope.

(** ** Pushing what is new *)

Lemma elem_of_push_new {A} `{!EqDecision A} (l : list A) x y : y ∈ push_new l x ↔ y ∈ l ∨ y = x.
Proof. unfold push_new. case_bool_decide; set_solver. Qed.

Lemma NoDup_push_new {A} `{!EqDecision A} (l : list A) x : NoDup l → NoDup (push_new l x).
Proof.
  unfold push_new. case_bool_decide as E; [done|]. intros H. apply NoDup_app.
  split; [done|]. split; [set_solver|]. apply NoDup_singleton.
Qed.

Lemma foldl_push_new {A B} `{!EqDecision A} (f : B → A) (bs : list B) : ∀ l : list A,
  NoDup l →
  NoDup (foldl (λ l c, push_new l (f c)) l bs) ∧
  ∀ y, y ∈ foldl (λ l c, push_new l (f c)) l bs ↔ y ∈ l ∨ y ∈ f <$> bs.
Proof.
  induction bs as [|c bs IH]; intros l Hl; [split; [done|set_solver]|]. cbn [foldl fmap list_fmap].
  destruct (IH (push_new l (f c)) (NoDup_push_new _ _ Hl)) as [Hn He]. split; [done|].
  intros y. rewrite He, elem_of_push_new, elem_of_cons. tauto.
Qed.

(** ** Owner keys *)

Lemma tuple_leb_total a b : tuple_leb a b = true ∨ tuple_leb b a = true.
Proof. unfold tuple_leb. repeat case_match; zb; auto; lia. Qed.

Lemma tuple_leb_trans a b c : tuple_leb a b = true → tuple_leb b c = true → tuple_leb a c = true.
Proof. unfold tuple_leb. repeat case_match; zb; try done; try lia; intros; zb; lia. Qed.

Lemma tuple_leb_antisym a b : tuple_leb a b = true → tuple_leb b a = true → a = b.
Proof.
  destruct a as [[a1 a2] a3], b as [[b1 b2] b3]. unfold tuple_leb. cbn.
  repeat case_match; zb; try done; try lia. intros; zb. f_equal; [f_equal|]; lia.
Qed.

Lemma owner_tuple_inj a b : owner_tuple a = owner_tuple b → a = b.
Proof. destruct a as [[]|], b as [[]|]; cbn; intros [=]; subst; done. Qed.

Lemma owner_leb_total a b : owner_leb a b = true ∨ owner_leb b a = true.
Proof. apply tuple_leb_total. Qed.
Lemma owner_leb_trans a b c : owner_leb a b = true → owner_leb b c = true → owner_leb a c = true.
Proof. apply tuple_leb_trans. Qed.

(** ** Owners and kinds of the evidence *)

(** What a set of claimed owners resolves to. *)
Definition resolves (os : list OwnerKey) (o : OwnerResolution) : Prop :=
  match o with
  | OUnknown => os = []
  | Known k => os ≠ [] ∧ ∀ x, x ∈ os → x = k
  | OConflict ks =>
      (2 ≤ length ks)%nat ∧ NoDup ks ∧ StronglySorted (λ a b, owner_leb a b = true) ks ∧
      ∀ k, k ∈ ks ↔ k ∈ os
  end.

Lemma record_owner_resolves r : resolves (c_owner <$> owner_claims r) (record_owner r).
Proof.
  unfold record_owner.
  destruct (foldl_push_new c_owner (owner_claims r) [] (NoDup_nil_2)) as [Hn He].
  pose proof (sort_by_perm owner_leb (foldl (λ owners c, push_new owners (c_owner c)) []
    (owner_claims r))) as Hp.
  pose proof (sort_by_sorted owner_leb owner_leb_total owner_leb_trans
    (foldl (λ owners c, push_new owners (c_owner c)) [] (owner_claims r))) as Hs.
  revert Hp Hs Hn He. generalize (foldl (λ owners c, push_new owners (c_owner c)) [] (owner_claims r)).
  intros os Hp Hs Hn He.
  assert (Hks : ∀ k, k ∈ sort_by owner_leb os ↔ k ∈ c_owner <$> owner_claims r).
  { intros k. rewrite Hp, He. set_solver. }
  rewrite <- Hp in Hn. destruct (sort_by owner_leb os) as [|k [|k' ks]]; cbn [resolves].
  - destruct (c_owner <$> owner_claims r) as [|x l]; [done|]. specialize (Hks x). set_solver.
  - split.
    + intros E. rewrite E in Hks. specialize (Hks k). set_solver.
    + intros x Hx. specialize (Hks x). set_solver.
  - split; [cbn; lia|]. done.
Qed.

Lemma resolves_ext os os' o : (∀ k, k ∈ os ↔ k ∈ os') → resolves os o → resolves os' o.
Proof.
  intros H. destruct o as [|k|ks]; cbn.
  - intros ->. destruct os' as [|x l]; [done|]. specialize (H x). set_solver.
  - intros [Hn Hk]. split.
    + intros ->. destruct os as [|x l]; [done|]. specialize (H x). set_solver.
    + intros x Hx. by apply Hk, H.
  - intros (Hl & Hn & Hs & Hk). repeat (split; [done|]). intros k. by rewrite Hk.
Qed.

(** What a collection of kinds amounts to. *)
Definition amounts (ks : list TaskKind) (k : TaskKind) : Prop :=
  (ks = [] ∧ k = KUnknown) ∨
  (k ∈ ks ∧ ∀ x, x ∈ ks → x = k) ∨
  (∃ x y, x ∈ ks ∧ y ∈ ks ∧ (x ≠ y) ∧ k = KConflict).

Lemma kind_of_amounts ks l :
  NoDup l → (∀ y, y ∈ l ↔ y ∈ ks) → amounts ks (kind_of l).
Proof.
  intros Hn He. destruct l as [|k [|k' l]]; cbn.
  - left. split; [|done]. destruct ks as [|x ks]; [done|]. specialize (He x). set_solver.
  - right. left. split; [apply He; by left|]. intros x Hx%He. set_solver.
  - right. right. exists k, k'. split; [apply He; by left|]. split; [apply He; right; by left|].
    split; [|done]. apply NoDup_cons in Hn as [Hn _]. set_solver.
Qed.

(** ** One record's evidence *)

(** The kinds and claims a run of observations carries. *)
Definition evidence_kinds (os : list Observation) : list TaskKind :=
  mjoin ((λ o, option_list (source_kind (source o)) ++ option_list (o_kind o)) <$> os).
Definition evidence_claims (os : list Observation) : list OwnerClaim := omap o_claim os.

Lemma evidence_kinds_snoc os o :
  evidence_kinds (os ++ [o]) =
    evidence_kinds os ++ option_list (source_kind (source o)) ++ option_list (o_kind o).
Proof.
  unfold evidence_kinds. rewrite fmap_app, join_app. cbn. by rewrite app_nil_r.
Qed.

Lemma evidence_claims_snoc os o :
  evidence_claims (os ++ [o]) = evidence_claims os ++ option_list (o_claim o).
Proof. unfold evidence_claims. rewrite omap_app. cbn. by destruct (o_claim o). Qed.

(** What a record holds of the header it was first decoded from, the headers
    decoded since and the observations filed on it. *)
Record holds (r : TaskRecord) (h : DecodedTaskHeader) (hs : list DecodedTaskHeader)
    (os : list Observation) : Prop := mkHolds {
  holds_header : header r = h;
  holds_kinds_nodup : NoDup (kinds r);
  holds_kinds : ∀ k, k ∈ kinds r ↔ k ∈ evidence_kinds os;
  holds_claims_nodup : NoDup (owner_claims r);
  holds_claims : ∀ c, c ∈ owner_claims r ↔ c ∈ evidence_claims os;
  holds_sources_nodup : NoDup (sources r);
  holds_sources : ∀ s, s ∈ sources r → s ∈ source <$> os;
  holds_lists : ∀ s, lists s = true → s ∈ source <$> os → s ∈ sources r;
  holds_some : os ≠ [] → sources r ≠ [];
  holds_references :
    (length (filter (λ s, is_reference s = true) (sources r)) ≤ RETAINED_REFERENCES)%nat;
  holds_header_conflict :
    header_conflict r = true ↔ ∃ h', h' ∈ hs ∧ identity_conflict h h' ≠ None;
  holds_kind_conflict : KindConflict (h_addr h) ∈ issues r ↔ record_kind r = KConflict;
  holds_owner_conflict : ∀ a ks,
    OwnerConflict a ks ∈ issues r ↔ a = h_addr h ∧ record_owner r = OConflict ks
}.

Lemma holds_kind r h hs os : holds r h hs os → amounts (evidence_kinds os) (record_kind r).
Proof. intros H. apply kind_of_amounts; apply H. Qed.

Lemma holds_owner r h hs os :
  holds r h hs os → resolves (c_owner <$> evidence_claims os) (record_owner r).
Proof.
  intros H. eapply resolves_ext; [|apply record_owner_resolves].
  intros k. rewrite !list_elem_of_fmap. by setoid_rewrite (holds_claims _ _ _ _ H).
Qed.

Lemma holds_resident r h hs os :
  holds r h hs os → os ≠ [] →
  resident r = existsb lists (source <$> os)
    || match lifecycle (h_state h) with Complete => false | _ => true end.
Proof.
  intros H Ho. unfold resident. rewrite (holds_header _ _ _ _ H).
  rewrite bool_decide_eq_false_2 by by apply (holds_some _ _ _ _ H). cbn [negb andb].
  f_equal. apply Bool.eq_iff_eq_true. rewrite !existsb_exists.
  split; intros (s & Hs & Hl); exists s; (split; [|done]); apply list_elem_of_In in Hs;
    apply list_elem_of_In; [by eapply holds_sources|by eapply holds_lists].
Qed.

(** ** Filing *)

Lemma merge_fields r o :
  header (merge r o) = header r ∧ issues (merge r o) = issues r ∧
  scanned (merge r o) = scanned r ∧ in_scope (merge r o) = in_scope r ∧
  kinds (merge r o) =
    foldl push_new (kinds r) (option_list (source_kind (source o)) ++ option_list (o_kind o)) ∧
  sources (merge r o) = sources (add_source r (source o)) ∧
  owner_claims (merge r o) = foldl push_new (owner_claims r) (option_list (o_claim o)).
Proof.
  unfold merge, add_source, add_kind, add_claim.
  destruct (source_kind (source o)), (o_kind o), (o_claim o); cbn; repeat case_match; done.
Qed.

Lemma reconcile_fields r :
  header (reconcile r) = header r ∧ kinds (reconcile r) = kinds r ∧
  sources (reconcile r) = sources r ∧ owner_claims (reconcile r) = owner_claims r ∧
  omitted_sources (reconcile r) = omitted_sources r ∧
  scanned (reconcile r) = scanned r ∧ in_scope (reconcile r) = in_scope r.
Proof.
  unfold reconcile. repeat case_match; cbn; done.
Qed.

Lemma resident_fields r r' :
  header r = header r' → sources r = sources r' → resident r = resident r'.
Proof. intros Hh Hs. unfold resident. by rewrite Hh, Hs. Qed.

Lemma record_kind_fields r r' : kinds r = kinds r' → record_kind r = record_kind r'.
Proof. unfold record_kind. by intros ->. Qed.

Lemma record_owner_fields r r' : owner_claims r = owner_claims r' → record_owner r = record_owner r'.
Proof. unfold record_owner. by intros ->. Qed.

(** The issues a reconciliation leaves. *)
Lemma reconcile_issues r i :
  i ∈ issues (reconcile r) ↔
    (i ∈ issues r ∧ (∀ ks, record_owner r = OConflict ks → is_owner_conflict i = false)) ∨
    (i = KindConflict (record_addr r) ∧ record_kind r = KConflict) ∨
    (∃ ks, i = OwnerConflict (record_addr r) ks ∧ record_owner r = OConflict ks).
Proof.
  unfold reconcile. destruct (record_owner r) eqn:Eo, (record_kind r) eqn:Ek;
    cbn [set_issues add_issue record_owner]; rewrite ?Eo.
  all: try (rewrite (record_owner_fields _ r) by done); rewrite ?Eo; cbn [issues add_issue set_issues].
  all: rewrite ?elem_of_app, ?list_elem_of_filter, ?elem_of_push_new, ?list_elem_of_singleton.
  all: split; [intros H|intros H]; destruct_or?; destruct_and?; subst;
    try (by left); try naive_solver.
Qed.

Lemma foldl_push_list {A} `{!EqDecision A} (l xs : list A) :
  NoDup l → NoDup (foldl push_new l xs) ∧ ∀ y, y ∈ foldl push_new l xs ↔ y ∈ l ∨ y ∈ xs.
Proof.
  intros Hl. destruct (foldl_push_new (λ x : A, x) xs l Hl) as [Hn He].
  split; [done|]. intros y. rewrite He. by rewrite list_fmap_id.
Qed.

(** A source filed: new listings are kept, references up to the cap. *)
Lemma add_source_spec r s :
  NoDup (sources r) →
  (length (filter (λ s, is_reference s = true) (sources r)) ≤ RETAINED_REFERENCES)%nat →
  let l := sources (add_source r s) in
  NoDup l ∧ (∀ x, x ∈ sources r → x ∈ l) ∧ (∀ x, x ∈ l → x ∈ sources r ∨ x = s) ∧
  (lists s = true → s ∈ l) ∧ l ≠ [] ∧
  (length (filter (λ s, is_reference s = true) l) ≤ RETAINED_REFERENCES)%nat.
Proof.
  intros Hn Hr.
  assert (Hpush : s ∉ sources r → NoDup (sources r ++ [s])).
  { intros Hs. apply NoDup_app. split; [done|]. split; [set_solver|apply NoDup_singleton]. }
  unfold add_source. case_bool_decide as Hin.
  { cbn. repeat split; auto. intros E. rewrite E in Hin. set_solver. }
  unfold lists. destruct (is_reference s) eqn:Es; cbn [andb negb].
  - destruct (RETAINED_REFERENCES <=? _)%nat eqn:Ec; cbn [sources].
    + apply Nat.leb_le in Ec. repeat split; auto; try done.
      intros E. rewrite E in Ec. cbn in Ec. unfold RETAINED_REFERENCES in Ec. lia.
    + apply Nat.leb_gt in Ec. repeat split; try done; auto; try set_solver.
      * by destruct (sources r).
      * rewrite filter_app, length_app, filter_cons_True by done.
        rewrite filter_nil. cbn [length]. lia.
  - cbn [sources]. repeat split; try done; auto; try set_solver.
    + by destruct (sources r).
    + rewrite filter_app, length_app, filter_cons_False by (by rewrite Es).
      rewrite filter_nil. cbn [length]. lia.
Qed.

Lemma record_holds_new h : holds (record_new h) h [] [].
Proof.
  split; cbn; try done; try constructor; try (set_solver || lia).
Qed.

Lemma identity_conflict_self h : identity_conflict h h = None.
Proof. unfold identity_conflict, diff. by rewrite !bool_decide_eq_true_2 by done. Qed.

Lemma header_conflict_push r i :
  header_conflict (add_issue r i) = header_conflict r || is_header_conflict i.
Proof.
  unfold header_conflict, add_issue, push_new. cbn. case_bool_decide as E.
  - destruct (is_header_conflict i) eqn:Ei; [|by rewrite orb_false_r].
    rewrite orb_true_r. apply existsb_exists. exists i. split; [by apply list_elem_of_In|done].
  - rewrite existsb_app. cbn. by rewrite orb_false_r.
Qed.

(** A second decode of the header. *)
Definition redecode (r : TaskRecord) (h : DecodedTaskHeader) : TaskRecord :=
  match identity_conflict (header r) h with
  | Some detail => add_issue r (HeaderConflict (h_addr h) detail)
  | None => r
  end.

Lemma holds_redecode r h hs os h' :
  holds r h hs os → holds (redecode r h') h (hs ++ [h']) os.
Proof.
  intros H. unfold redecode. destruct (identity_conflict (header r) h') as [d|] eqn:E.
  - destruct H as [Hh]. subst h. split; try done.
    + rewrite header_conflict_push, orb_true_r. split; [|done]. intros _. exists h'.
      split; [set_solver|by rewrite E].
    + cbn. rewrite elem_of_push_new.
      rewrite (record_kind_fields (add_issue r _) r) by done. rewrite <- holds_kind_conflict0.
      naive_solver.
    + intros a ks. cbn. rewrite elem_of_push_new.
      rewrite (record_owner_fields (add_issue r _) r) by done. rewrite <- holds_owner_conflict0.
      naive_solver.
  - destruct H as [Hh]. subst h. split; try done. rewrite holds_header_conflict0.
    split; intros (x & Hx & Hc); exists x; [set_solver|].
    apply elem_of_app in Hx as [Hx|Hx%list_elem_of_singleton]; [done|]. by subst x.
Qed.

(** Evidence only grows: a conflict stays one. *)
Lemma kind_conflict_grows ks ks' :
  NoDup ks → kind_of ks = KConflict → (∀ k, k ∈ ks → k ∈ ks') → kind_of ks' = KConflict.
Proof.
  intros Hn Hk Hs. destruct ks as [|x [|y l]]; [done|..]; cbn in Hk.
  - subst x. destruct ks' as [|a [|a' l']]; [specialize (Hs KConflict); set_solver| |done].
    cbn. specialize (Hs KConflict). set_solver.
  - apply NoDup_cons in Hn as [Hn _]. pose proof (Hs x) as Hx. pose proof (Hs y) as Hy.
    destruct ks' as [|a [|a' l']]; [set_solver| |done]. cbn. assert (x = y) by set_solver.
    set_solver.
Qed.

Lemma owner_conflict_grows r r' ks :
  record_owner r = OConflict ks → (∀ c, c ∈ owner_claims r → c ∈ owner_claims r') →
  ∃ ks', record_owner r' = OConflict ks'.
Proof.
  intros Ho Hs. pose proof (record_owner_resolves r) as Hr. rewrite Ho in Hr.
  destruct Hr as (Hl & Hn & _ & Hk). pose proof (record_owner_resolves r') as Hr'.
  assert (Hin : ∀ k, k ∈ ks → k ∈ c_owner <$> owner_claims r').
  { intros k Hin%Hk. apply list_elem_of_fmap in Hin as (c & -> & Hc).
    apply list_elem_of_fmap. eauto. }
  destruct ks as [|x [|y l]]; cbn in Hl; [lia..|]. apply NoDup_cons in Hn as [Hn _].
  pose proof (Hin x ltac:(by left)) as Hx. pose proof (Hin y ltac:(right; by left)) as Hy.
  destruct (record_owner r') as [|k|ks']; cbn in Hr'; [|exfalso|by eexists].
  - rewrite Hr' in Hx. set_solver.
  - destruct Hr' as [_ Hr']. rewrite (Hr' _ Hx), <- (Hr' _ Hy) in Hn. set_solver.
Qed.

Lemma holds_merge r h hs os o :
  holds r h hs os → holds (reconcile (merge r o)) h hs (os ++ [o]).
Proof.
  intros H.
  destruct (merge_fields r o) as (Mh & Mi & _ & _ & Mk & Ms & Mc).
  destruct (reconcile_fields (merge r o)) as (Rh & Rk & Rs & Rc & _ & _ & _).
  destruct (add_source_spec r (source o) (holds_sources_nodup _ _ _ _ H) (holds_references _ _ _ _ H))
    as (S1 & S2 & S3 & S4 & S5 & S6). cbn in S1, S2, S3, S4, S5, S6.
  destruct (foldl_push_list (kinds r)
    (option_list (source_kind (source o)) ++ option_list (o_kind o)) (holds_kinds_nodup _ _ _ _ H))
    as [K1 K2].
  destruct (foldl_push_list (owner_claims r) (option_list (o_claim o))
    (holds_claims_nodup _ _ _ _ H)) as [C1 C2].
  assert (Ha : record_addr (merge r o) = h_addr h).
  { unfold record_addr. by rewrite Mh, (holds_header _ _ _ _ H). }
  split.
  - by rewrite Rh, Mh, (holds_header _ _ _ _ H).
  - by rewrite Rk, Mk.
  - intros k. rewrite Rk, Mk, K2, evidence_kinds_snoc, !elem_of_app.
    by rewrite (holds_kinds _ _ _ _ H).
  - by rewrite Rc, Mc.
  - intros c. rewrite Rc, Mc, C2, evidence_claims_snoc, elem_of_app.
    by rewrite (holds_claims _ _ _ _ H).
  - by rewrite Rs, Ms.
  - intros s Hs. rewrite Rs, Ms in Hs. rewrite fmap_app. apply elem_of_app.
    apply S3 in Hs as [Hs| ->]; [left; by apply (holds_sources _ _ _ _ H)|right; by left].
  - intros s Hl Hs. rewrite Rs, Ms. rewrite fmap_app in Hs.
    apply elem_of_app in Hs as [Hs|Hs%list_elem_of_singleton].
    + by apply S2, (holds_lists _ _ _ _ H).
    + subst s. by apply S4.
  - intros _. by rewrite Rs, Ms.
  - by rewrite Rs, Ms.
  - rewrite <- (holds_header_conflict _ _ _ _ H). unfold header_conflict. rewrite !existsb_exists.
    setoid_rewrite <- list_elem_of_In. setoid_rewrite reconcile_issues. rewrite Mi.
    split; [intros (i & Hi & Hc); exists i; naive_solver|].
    intros (i & Hi & Hc). exists i. split; [|done]. left. split; [done|]. by destruct i.
  - rewrite reconcile_issues, Mi, Ha.
    rewrite (record_kind_fields (reconcile (merge r o)) (merge r o)) by done.
    split; [|naive_solver]. intros [[Hi _]|[[_ Hk]|(ks & [= ] & _)]]; [|done].
    apply (holds_kind_conflict _ _ _ _ H) in Hi. unfold record_kind in *. rewrite Mk.
    eapply kind_conflict_grows; [apply (holds_kinds_nodup _ _ _ _ H)|done|].
    intros k Hk. apply K2. by left.
  - intros a ks. rewrite reconcile_issues, Mi, Ha.
    rewrite (record_owner_fields (reconcile (merge r o)) (merge r o)) by done.
    split; [|naive_solver]. intros [[Hi Hno]|[[Hc _]|(ks' & Hc & Hk)]]; [|discriminate Hc|].
    2:{ by injection Hc as -> ->. }
    exfalso. apply (holds_owner_conflict _ _ _ _ H) in Hi as [-> Ho].
    destruct (owner_conflict_grows r (merge r o) ks Ho) as (ks' & Hks').
    { intros c Hc. rewrite Mc. apply C2. by left. }
    by specialize (Hno ks' Hks').
Qed.

(** ** The store *)

(** The address map and the records name each other. *)
Definition store_wf (s : TaskStore) : Prop :=
  ∀ a id, by_addr s !! a = Some id ↔ ∃ r, records s !! id = Some r ∧ record_addr r = a.

Lemma store_wf_new : store_wf store_new.
Proof. intros a id. cbn. rewrite lookup_empty. split; [done|]. by intros (r & ? & _). Qed.

Definition became (r r' : TaskRecord) : bool := negb (resident r) && resident r' && negb (scanned r').

(** A record replaced, and listed for the scan when [listed]. *)
Definition updated (s : TaskStore) (id : TaskRecordId) (r : TaskRecord) (listed : bool) : TaskStore :=
  mkStore (by_addr s) (<[id := r]> (records s)) (scannable s ++ if listed then [id] else []).

Lemma store_wf_updated s id r r' listed :
  store_wf s → records s !! id = Some r → record_addr r' = record_addr r →
  store_wf (updated s id r' listed).
Proof.
  intros Hwf Hr Ha a j. cbn. rewrite (Hwf a j).
  destruct (decide (j = id)) as [->|Hne].
  - rewrite Hr, list_lookup_insert_eq by by eapply lookup_lt_Some.
    split; intros (x & [= <-] & <-); eauto.
  - by rewrite list_lookup_insert_ne.
Qed.

Lemma observe_at_spec s id o r :
  records s !! id = Some r →
  ∃ e, observe_at s id o =
    Ret (e, updated s id (reconcile (merge r o)) (became r (reconcile (merge r o)))).
Proof.
  intros Hr. unfold observe_at, record, updated, became, set_record. rewrite Hr. cbn [or_panic].
  rewrite outcome_bind_eq. cbn [by_addr records scannable]. eexists. f_equal. f_equal.
  destruct (_ && _); by rewrite ?app_nil_r.
Qed.

Lemma claim_spec s id c r :
  records s !! id = Some r →
  ∃ e, claim s id c = Ret (e, updated s id (reconcile (add_claim r c)) false).
Proof.
  intros Hr. unfold claim, record, updated, set_record. rewrite Hr, app_nil_r. by eexists.
Qed.

Lemma issue_spec s id i r :
  records s !! id = Some r → issue s id i = Ret (updated s id (add_issue r i) false).
Proof. intros Hr. unfold issue, record, updated, set_record. by rewrite Hr, app_nil_r. Qed.

(** The store a decoded header goes to: the same, or one record longer. *)
Definition placed (s : TaskStore) (h : DecodedTaskHeader) : TaskStore * TaskRecordId * TaskRecord :=
  match lookup_addr s (h_addr h) with
  | Some id => (s, id, default (record_new h) (records s !! id))
  | None => (mkStore (<[h_addr h := length (records s)]> (by_addr s))
               (records s ++ [record_new h]) (scannable s), length (records s), record_new h)
  end.

Lemma placed_wf s h s' id r :
  store_wf s → placed s h = (s', id, r) →
  store_wf s' ∧ records s' !! id = Some r ∧ record_addr r = h_addr h ∧
  by_addr s' = <[h_addr h := id]> (by_addr s) ∧
  (∀ j, j ≠ id → records s' !! j = records s !! j) ∧ scannable s' = scannable s ∧
  match lookup_addr s (h_addr h) with
  | Some id' => id' = id ∧ records s !! id = Some r
  | None => r = record_new h
  end.
Proof.
  intros Hwf. unfold placed. destruct (lookup_addr s (h_addr h)) as [id'|] eqn:E;
    unfold lookup_addr in E.
  - pose proof (proj1 (Hwf _ _) E) as (r' & Hr' & Ha). rewrite Hr'. simpl.
    intros [= <- <- <-]. repeat (split; [done|]). split; [by rewrite insert_id|done].
  - intros [= <- <- <-]. cbn. split; [|split; [|split; [done|split; [done|split; [|done]]]]].
    + intros a j. cbn. destruct (decide (a = h_addr h)) as [->|Hne].
      * rewrite lookup_insert_eq. split.
        -- intros [= <-]. exists (record_new h). by rewrite list_lookup_middle.
        -- intros (r & Hr & Ha). apply lookup_app_Some in Hr as [Hr|[Hl Hr]].
           ++ exfalso. assert (by_addr s !! h_addr h = Some j) by (apply Hwf; eauto). congruence.
           ++ apply list_lookup_singleton_Some in Hr as [Hj _]. f_equal. lia.
      * rewrite lookup_insert_ne by done. rewrite (Hwf a j). split.
        -- intros (r & Hr & Ha). exists r. split; [by apply lookup_app_l_Some|done].
        -- intros (r & Hr & Ha). apply lookup_app_Some in Hr as [Hr|[Hl Hr]]; [eauto|].
           apply list_lookup_singleton_Some in Hr as [_ <-]. by destruct Hne.
    + by rewrite list_lookup_middle.
    + intros j Hj. destruct (decide (j < length (records s))%nat).
      * by rewrite lookup_app_l.
      * rewrite lookup_ge_None_2 by (rewrite length_app; cbn; lia).
        by rewrite lookup_ge_None_2 by lia.
Qed.

Lemma redecode_fields r h :
  header (redecode r h) = header r ∧ sources (redecode r h) = sources r ∧
  scanned (redecode r h) = scanned r ∧ owner_claims (redecode r h) = owner_claims r.
Proof. unfold redecode. by destruct (identity_conflict _ _). Qed.

Lemma observe_spec s h o s' id r :
  store_wf s → placed s h = (s', id, r) →
  let r' := reconcile (merge (redecode r h) o) in
  ∃ e, observe s h o = Ret (e, updated s' id r' (became r r')).
Proof.
  intros Hwf Hp. pose proof (placed_wf _ _ _ _ _ Hwf Hp) as (_ & Hr & _ & _ & _ & _ & Hcase).
  assert (Hb : ∀ r', became (redecode r h) r' = became r r').
  { intros r'. destruct (redecode_fields r h) as (Hh & Hs & _ & _). unfold became.
    by rewrite (resident_fields (redecode r h) r). }
  unfold observe. unfold placed in Hp. destruct (lookup_addr s (h_addr h)) as [id'|] eqn:E.
  - destruct Hcase as [-> Hrs]. rewrite Hrs in Hp. cbn in Hp. injection Hp as <-.
    unfold record. rewrite Hrs. cbn [or_panic]. rewrite outcome_bind_eq. cbn.
    set (s1 := match identity_conflict (header r) h with Some _ => _ | None => _ end).
    assert (s1 = set_record s id (redecode r h)) as ->.
    { unfold s1, redecode, set_record. destruct (identity_conflict _ _); [done|].
      rewrite list_insert_id by done. by destruct s. }
    destruct (observe_at_spec (set_record s id (redecode r h)) id o (redecode r h)) as [e He].
    { cbn. by rewrite list_lookup_insert_eq by by eapply lookup_lt_Some. }
    exists e. rewrite He. unfold updated, set_record. cbn. by rewrite list_insert_insert_eq, Hb.
  - injection Hp as <- <- <-. cbn in Hr |- *.
    assert (redecode (record_new h) h = record_new h) as Hre.
    { unfold redecode. cbn. by rewrite identity_conflict_self. }
    rewrite Hre in *.
    destruct (observe_at_spec (mkStore (<[h_addr h := length (records s)]> (by_addr s))
      (records s ++ [record_new h]) (scannable s)) (length (records s)) o (record_new h) Hr) as [e He].
    rewrite He. eexists. rewrite outcome_bind_eq. reflexivity.
Qed.

(** ** Observations in a row *)

Abbreviation Filing := (DecodedTaskHeader * Observation)%type (only parsing).

Definition file_all (s : TaskStore) (l : list Filing) : outcome TaskStore :=
  foldl (λ s p, s ← s; '(_, s) ← observe s p.1 p.2; Ret s) (Ret s) l.

Definition at_addr (a : Z) (l : list Filing) : list Filing := filter (λ p, h_addr p.1 = a) l.

(** Every record holds what was filed on its address, in order. *)
Definition store_holds (s : TaskStore) (l : list Filing) : Prop :=
  ∀ a, match at_addr a l with
       | [] => by_addr s !! a = None
       | ((h, _) :: _) as es =>
           ∃ id r, by_addr s !! a = Some id ∧ records s !! id = Some r ∧
             holds r h es.*1 es.*2
       end.

Lemma holds_snoc r h hs os h' o :
  holds r h hs os → holds (reconcile (merge (redecode r h') o)) h (hs ++ [h']) (os ++ [o]).
Proof. intros H. by apply holds_merge, holds_redecode. Qed.

Lemma store_holds_snoc s l h o e s' :
  store_wf s → store_holds s l → observe s h o = Ret (e, s') →
  store_wf s' ∧ store_holds s' (l ++ [(h, o)]).
Proof.
  intros Hwf Hs Ho. destruct (placed s h) as [[s1 id] r] eqn:Hp.
  destruct (placed_wf _ _ _ _ _ Hwf Hp) as (Hwf1 & Hr & Ha & Hby & Hother & _ & Hcase).
  destruct (observe_spec s h o s1 id r Hwf Hp) as [e' He]. rewrite He in Ho. injection Ho as _ <-.
  set (r' := reconcile (merge (redecode r h) o)).
  assert (Ha' : record_addr r' = record_addr r).
  { unfold record_addr, r'. rewrite (proj1 (reconcile_fields _)), (proj1 (merge_fields _ _)).
    by rewrite (proj1 (redecode_fields _ _)). }
  split; [by eapply store_wf_updated|]. intros a. unfold at_addr. rewrite filter_app.
  destruct (decide (h_addr h = a)) as [<-|Hne].
  - rewrite filter_cons_True, filter_nil by done. specialize (Hs (h_addr h)). unfold at_addr in Hs.
    unfold lookup_addr in Hcase.
    assert (by_addr (updated s1 id r' (became r r')) !! h_addr h = Some id ∧
      records (updated s1 id r' (became r r')) !! id = Some r') as [H1 H2].
    { cbn. rewrite Hby, lookup_insert_eq. split; [done|]. apply list_lookup_insert_eq.
      by eapply lookup_lt_Some. }
    destruct (filter _ l) as [|[h0 o0] es]; cbn [app].
    + rewrite Hs in Hcase. exists id, r'. split; [done|]. split; [done|]. subst r.
      by apply (holds_snoc _ _ [] []), record_holds_new.
    + destruct Hs as (id0 & r0 & E0 & Hr0 & Hh). rewrite E0 in Hcase.
      destruct Hcase as [-> Hrs]. rewrite Hr0 in Hrs. injection Hrs as ->.
      exists id, r'. split; [done|]. split; [done|]. rewrite !fmap_cons, !fmap_app.
      by apply (holds_snoc _ _ (h0 :: es.*1) (o0 :: es.*2)).
  - rewrite filter_cons_False, filter_nil, app_nil_r by done. specialize (Hs a).
    unfold at_addr in Hs. cbn [updated by_addr records]. rewrite Hby, lookup_insert_ne by done.
    destruct (filter _ l) as [|[h0 o0] es]; [done|]. destruct Hs as (id0 & r0 & E0 & Hr0 & Hh).
    exists id0, r0. split; [done|]. split; [|done].
    assert (id0 ≠ id).
    { intros ->. destruct (proj1 (Hwf1 a id)) as (r2 & Hr2 & Ha2);
        [by rewrite Hby, lookup_insert_ne by done|]. rewrite Hr in Hr2. injection Hr2 as <-.
      by rewrite Ha in Ha2. }
    rewrite list_lookup_insert_ne by done. by rewrite Hother.
Qed.

Lemma file_all_holds l : ∀ s l0,
  store_wf s → store_holds s l0 →
  ∃ s', file_all s l = Ret s' ∧ store_wf s' ∧ store_holds s' (l0 ++ l).
Proof.
  unfold file_all. induction l as [|[h o] l IH]; intros s l0 Hwf Hs.
  - exists s. rewrite app_nil_r. done.
  - cbn [foldl fst snd]. rewrite outcome_bind_eq.
    destruct (placed s h) as [[s1 id] r] eqn:Hp.
    destruct (observe_spec s h o s1 id r Hwf Hp) as [e He]. rewrite He.
    destruct (store_holds_snoc _ _ _ _ _ _ Hwf Hs He) as [Hwf' Hs'].
    rewrite outcome_bind_eq.
    destruct (IH _ (l0 ++ [(h, o)]) Hwf' Hs') as (s' & Hf & ? & ?). exists s'.
    split; [exact Hf|]. split; [done|]. by rewrite <- app_assoc in *.
Qed.

Lemma store_holds_nil s : by_addr s = ∅ → store_holds s [].
Proof. intros E a. cbn. rewrite E. apply lookup_empty. Qed.

(** ** Arrival order *)

Lemma owner_leb_antisym a b : owner_leb a b = true → owner_leb b a = true → a = b.
Proof. intros H1 H2. by apply owner_tuple_inj, tuple_leb_antisym. Qed.

Lemma resolves_unique os o o' : resolves os o → resolves os o' → o = o'.
Proof.
  destruct o as [|k|ks], o' as [|k'|ks']; cbn; intros H H'; try done.
  - by subst; destruct H' as [? _].
  - destruct H' as (Hl & _ & _ & Hk). subst os. destruct ks' as [|x ks']; [cbn in Hl; lia|].
    specialize (Hk x). set_solver.
  - by subst; destruct H as [? _].
  - destruct H as [Hn H], H' as [_ H']. destruct os as [|x os]; [done|].
    f_equal. rewrite <- (H x), <- (H' x); [done|by left..].
  - destruct H as [_ H], H' as (Hl & Hn & _ & Hk). exfalso.
    destruct ks' as [|x [|y l]]; cbn in Hl; [lia..|].
    pose proof (H x (proj1 (Hk x) ltac:(by left))).
    pose proof (H y (proj1 (Hk y) ltac:(right; by left))). subst. apply NoDup_cons in Hn. set_solver.
  - destruct H as (Hl & _ & _ & Hk). subst os. destruct ks as [|x ks]; [cbn in Hl; lia|].
    specialize (Hk x). set_solver.
  - destruct H' as [_ H'], H as (Hl & Hn & _ & Hk). exfalso.
    destruct ks as [|x [|y l]]; cbn in Hl; [lia..|].
    pose proof (H' x (proj1 (Hk x) ltac:(by left))).
    pose proof (H' y (proj1 (Hk y) ltac:(right; by left))). subst. apply NoDup_cons in Hn. set_solver.
  - destruct H as (_ & Hn & Hs & Hk), H' as (_ & Hn' & Hs' & Hk'). f_equal.
    assert (AntiSymm (=) (λ a b, owner_leb a b = true)) by (intros a b; apply owner_leb_antisym).
    eapply (StronglySorted_unique (λ a b, owner_leb a b = true)); [done|done|].
    apply NoDup_Permutation; [done..|]. intros k. by rewrite Hk, Hk'.
Qed.

Lemma amounts_unique ks k k' : amounts ks k → amounts ks k' → k = k'.
Proof.
  intros [[-> ->]|[[H1 H2]|(x & y & Hx & Hy & Hn & ->)]]
         [[E ->]|[[H1' H2']|(x' & y' & Hx' & Hy' & Hn' & ->)]]; try done; try set_solver.
  - destruct Hn'. by rewrite (H2 x'), (H2 y').
  - destruct Hn. by rewrite (H2' x), (H2' y).
Qed.

Lemma amounts_ext ks ks' k : (∀ x, x ∈ ks ↔ x ∈ ks') → amounts ks k → amounts ks' k.
Proof.
  intros H [[-> ->]|[[H1 H2]|(x & y & Hx & Hy & Hn & ->)]].
  - left. split; [|done]. destruct ks' as [|x l]; [done|]. specialize (H x). set_solver.
  - right. left. split; [by apply H|]. intros x Hx%H. by apply H2.
  - right. right. exists x, y. by rewrite <- !H.
Qed.

(** A decode of a task that has not completed. *)
Definition unfinished (h : DecodedTaskHeader) : bool :=
  match lifecycle (h_state h) with Complete => false | _ => true end.

Lemma holds_same_evidence r h hs os r' h' hs' os' :
  holds r h hs os → holds r' h' hs' os' → os ≡ₚ os' → os ≠ [] →
  record_kind r' = record_kind r ∧ record_owner r' = record_owner r ∧
  ((∃ o, o ∈ os ∧ lists (source o) = true) ∨ unfinished h = unfinished h' → resident r' = resident r).
Proof.
  intros H H' Hp Hne. split; [|split].
  - eapply amounts_unique; [by eapply holds_kind|]. eapply amounts_ext; [|by eapply holds_kind].
    intros x. unfold evidence_kinds. by rewrite Hp.
  - eapply resolves_unique; [by eapply holds_owner|]. eapply resolves_ext; [|by eapply holds_owner].
    intros x. unfold evidence_claims. by rewrite Hp.
  - intros Hd. rewrite (holds_resident _ _ _ _ H) by done. rewrite (holds_resident _ _ _ _ H').
    2:{ intros ->. by apply Permutation_nil_r in Hp. }
    assert (existsb lists (source <$> os') = existsb lists (source <$> os)) as ->.
    { apply Bool.eq_iff_eq_true. rewrite !existsb_exists. setoid_rewrite <- list_elem_of_In.
      by setoid_rewrite Hp. }
    destruct Hd as [(o & Ho & Hl)|Hu]; [|unfold unfinished in Hu; by rewrite Hu].
    enough (existsb lists (source <$> os) = true) as -> by done.
    apply existsb_exists. exists (source o). split; [|done].
    apply list_elem_of_In, list_elem_of_fmap. eauto.
Qed.

(** C29: reconciliation is exact.  Filing any observations into a
    new store never panics and leaves one record per header address, headed by
    the first decode; its kind and owner are what the evidence filed on that
    address amounts to (nothing is unknown, agreement selects, disagreement is a
    conflict naming every claimed owner in key order), it is a row exactly when
    a list or queue carried it or the first decode had not completed, and its conflict
    diagnostics stand exactly while the evidence, or a second decode, disagrees.
    Filed in any other order the same evidence gives the same kinds and owners; the
    same rows where a list or queue carried the task or the decodes agree on whether
    it had completed; and the same headers where the decodes are equal. *)
Theorem reconciliation_exact (l l' : list Filing) :
  l ≡ₚ l' →
  ∃ s s', file_all store_new l = Ret s ∧ file_all store_new l' = Ret s' ∧
  ∀ a, match at_addr a l with
       | [] => by_addr s !! a = None ∧ by_addr s' !! a = None
       | ((h, _) :: _) as es =>
           ∃ id r id' r',
             by_addr s !! a = Some id ∧ records s !! id = Some r ∧ header r = h ∧
             amounts (evidence_kinds es.*2) (record_kind r) ∧
             resolves (c_owner <$> evidence_claims es.*2) (record_owner r) ∧
             resident r = existsb lists (source <$> es.*2) || unfinished h ∧
             (header_conflict r = true ↔ ∃ h', h' ∈ es.*1 ∧ identity_conflict h h' ≠ None) ∧
             (KindConflict (h_addr h) ∈ issues r ↔ record_kind r = KConflict) ∧
             (∀ ks, OwnerConflict (h_addr h) ks ∈ issues r ↔ record_owner r = OConflict ks) ∧
             by_addr s' !! a = Some id' ∧ records s' !! id' = Some r' ∧
             record_kind r' = record_kind r ∧ record_owner r' = record_owner r ∧
             ((∃ p, p ∈ es ∧ lists (source p.2) = true) ∨
                (∀ p q, p ∈ es → q ∈ es → unfinished p.1 = unfinished q.1) → resident r' = resident r) ∧
             ((∀ p q, p ∈ es → q ∈ es → p.1 = q.1) → header r' = header r)
       end.
Proof.
  intros Hp.
  destruct (file_all_holds l store_new [] store_wf_new (store_holds_nil store_new eq_refl))
    as (s & Hf & Hwf & Hs).
  destruct (file_all_holds l' store_new [] store_wf_new (store_holds_nil store_new eq_refl))
    as (s' & Hf' & Hwf' & Hs').
  exists s, s'. split; [done|]. split; [done|]. intros a.
  specialize (Hs a). specialize (Hs' a). cbn [app] in Hs, Hs'. unfold at_addr in *.
  assert (Hpa : filter (λ p : Filing, h_addr p.1 = a) l ≡ₚ filter (λ p, h_addr p.1 = a) l')
    by by rewrite Hp.
  destruct (filter _ l) as [|[h o] es] eqn:E.
  { apply Permutation_nil_l in Hpa. rewrite <- Hpa in Hs'. done. }
  destruct (filter _ l') as [|[h' o'] es'] eqn:E'; [by apply Permutation_nil_r in Hpa|].
  destruct Hs as (id & r & Hid & Hr & Hh), Hs' as (id' & r' & Hid' & Hr' & Hh').
  assert (Hos : ((h, o) :: es).*2 ≡ₚ ((h', o') :: es').*2) by by rewrite Hpa.
  exists id, r, id', r'. repeat (split; [first [done | by apply Hh]|]).
  split; [by eapply holds_kind|]. split; [by eapply holds_owner|].
  split; [by rewrite (holds_resident _ _ _ _ Hh)|]. split; [apply Hh|]. split; [apply Hh|].
  split; [intros ks; rewrite (holds_owner_conflict _ _ _ _ Hh); naive_solver|].
  do 2 (split; [done|]).
  destruct (holds_same_evidence _ _ _ _ _ _ _ _ Hh Hh' Hos ltac:(done)) as (Hk & Ho & Hres).
  split; [done|]. split; [done|].
  assert ((h', o') ∈ (h, o) :: es) as Hin by (rewrite Hpa; by left). split.
  - intros [(p & Hp' & Hl)|Hu]; apply Hres; [left|right; apply (Hu (h, o) (h', o')); [by left|done]].
    exists p.2. split; [|done]. by apply list_elem_of_fmap_2.
  - intros Heq. rewrite (holds_header _ _ _ _ Hh), (holds_header _ _ _ _ Hh').
    symmetry. apply (Heq (h, o) (h', o')); [by left|done].
Qed.

(** ** A task two routes met

    The runtime's own list links it and claims it; a join handle elsewhere names
    it. *)

Definition demo_runtime : OwnerKey := Runtime MultiThread 4096.

Definition demo_header (a : Z) : DecodedTaskHeader :=
  mkHeader a 4 (Some 7) (Some 1) None 8192 64 (FUnknown None).

Definition demo_listed (a : Z) : Filing :=
  (demo_header a,
   mkObservation (OwnedList demo_runtime a) None
     (Some (mkClaim demo_runtime (EOwnedList a 7)))).

Definition demo_reference (a root : Z) : Filing :=
  (demo_header a,
   mkObservation (Reference (mkReference a JoinHandle None (Some root) [])) None None).

Definition demo_filed : list Filing :=
  [demo_reference 64 32; demo_listed 32; demo_listed 64].

Lemma reconciliation_exact_witness :
  ∃ s s', file_all store_new demo_filed = Ret s ∧
    file_all store_new (reverse demo_filed) = Ret s' ∧
    ∃ id r id' r', by_addr s !! 64 = Some id ∧ records s !! id = Some r ∧
      by_addr s' !! 64 = Some id' ∧ records s' !! id' = Some r' ∧
      record_owner r' = record_owner r ∧ resolves [demo_runtime] (record_owner r).
Proof.
  destruct (reconciliation_exact demo_filed (reverse demo_filed)) as (s & s' & H1 & H2 & H3).
  { symmetry. apply reverse_Permutation. }
  exists s, s'. split; [exact H1|]. split; [exact H2|]. specialize (H3 64).
  change (at_addr 64 demo_filed) with [demo_reference 64 32; demo_listed 64] in H3.
  destruct H3 as (id & r & id' & r' & E1 & E2 & _ & _ & E3 & _ & _ & _ & _ & E4 & E5 & _ & E6 & _).
  exists id, r, id', r'. repeat (split; [assumption|]). exact E3.
Defined.

(** Two references, one met while the task ran and one once it had completed: the
    decode filed first is the record's, so the order says whether the task is a row. *)
Definition demo_decodes : list Filing :=
  [demo_reference 64 32;
   (mkHeader 64 2 (Some 7) (Some 1) None 8192 64 (FUnknown None),
    mkObservation (Reference (mkReference 64 JoinHandle None (Some 32) [])) None None)].

Example first_decode_decides :
  match file_all store_new demo_decodes, file_all store_new (reverse demo_decodes) with
  | Ret s, Ret s' => (resident <$> records s, resident <$> records s') = ([true], [false])
  | _, _ => False
  end.
Proof. vm_compute. reflexivity. Qed.

(** A reference past the retained ones is counted again each time it is met. *)
Definition demo_many : list Filing :=
  (demo_reference 64 <$> z_range 1 8) ++ [demo_reference 64 9; demo_reference 64 9].

Example omitted_counts_repeats :
  match file_all store_new demo_many with
  | Ret s => omitted_sources <$> records s = [2]
  | Panic => False
  end.
Proof. vm_compute. reflexivity. Qed.
