(* ===== verification/WorkFacts.v ===== *)
(** Facts about the discovery sweep: what its world may do to the records, and
    the invariants of the loop. *)

From S2P Require Import Prelude Text TaskGraph Schema Discovery Work DiscoveryFacts.

Local Open Scope Z_scope.

(** ** What a world may do to the records *)

(** One filing through the store's own operations. *)
Inductive files : TaskStore → TaskStore → Prop :=
  | files_observe s h o e s' : observe s h o = Ret (e, s') → files s s'
  | files_observe_at s id o e s' : observe_at s id o = Ret (e, s') → files s s'
  | files_claim s id c e s' : claim s id c = Ret (e, s') → files s s'
  | files_issue s id i s' : issue s id i = Ret s' → files s s'.

Definition filed : TaskStore → TaskStore → Prop := rtc files.

(** A world that leaves the store's shape alone: what returns has filed through the
    store's operations, a scan has only marked the record it scans, and a harvest
    has left the records as they were. *)
Class LawfulWorld (W : Type) `{!DiscoveryWorld W} : Prop := {
  enumerate_files o w l w' l' : store_wf (tl_records l) →
    enumerate o w l = Ret (w', l') → filed (tl_records l) (tl_records l');
  scan_files id w l b cs w' l' b' : store_wf (tl_records l) → is_Some (records (tl_records l) !! id) →
    scan id w l b = Ret (cs, (w', l', b')) → mark_scanned (tl_records l) id = Ret (tl_records l');
  harvest_files o g w l cs w' l' : store_wf (tl_records l) →
    harvest o g w l = Ret (cs, (w', l')) → tl_records l' = tl_records l;
  validate_files c w l os w' l' : store_wf (tl_records l) →
    validate c w l = Ret (os, (w', l')) → filed (tl_records l) (tl_records l')
}.

(** What holds of a result, or why it does not come. *)
Definition returns {A} (why : Prop) (m : outcome A) (P : A → Prop) : Prop :=
  match m with Ret a => P a | Panic => why end.

(** ** The records through a sweep *)

Lemma resident_header_sources r r' :
  header r' = header r → (∀ s, s ∈ sources r → s ∈ sources r') →
  resident r = true → resident r' = true.
Proof.
  intros Hh Hs. unfold resident. rewrite Hh, !orb_true_iff, !andb_true_iff, !negb_true_iff,
    !bool_decide_eq_false, !existsb_exists.
  intros [(s & Hin & Hl)|[Hne Hc]].
  - left. exists s. split; [|done]. apply list_elem_of_In, Hs. by apply list_elem_of_In.
  - right. split; [|done]. destruct (sources r) as [|s l]; [done|]. intros E.
    specialize (Hs s ltac:(by left)). rewrite E in Hs. set_solver.
Qed.

(** What the queue owes: every resident record is scanned, queued or listed for
    the scan, once. *)
Definition owes (s : TaskStore) (pending : list TaskRecordId) : Prop :=
  NoDup (pending ++ scannable s) ∧
  (∀ id, id ∈ pending ++ scannable s ↔ ∃ r, records s !! id = Some r ∧ resident r = true) ∧
  ∀ id r, records s !! id = Some r → scanned r = true → id ∈ pending.

Lemma owes_updated s id r r' pending :
  owes s pending → records s !! id = Some r → scanned r' = scanned r →
  (resident r = true → resident r' = true) →
  owes (updated s id r' (became r r')) pending.
Proof.
  intros (Hn & Hm & Hsc) Hr Hs Hmono.
  assert (Hid : (id < length (records s))%nat) by by eapply lookup_lt_Some.
  assert (Hin : id ∈ pending ++ scannable s ↔ resident r = true).
  { rewrite Hm. split; [intros (x & Hx & ?); by simplify_eq|eauto]. }
  assert (Hbec : became r r' = negb (resident r) && resident r').
  { unfold became. destruct (resident r) eqn:Er; [done|]. cbn [negb andb].
    destruct (scanned r') eqn:E; [|by rewrite andb_true_r]. exfalso.
    assert (id ∈ pending) as Hpen by (apply (Hsc id r Hr); congruence).
    assert (false = true) by (apply Hin, elem_of_app; by left). done. }
  rewrite Hbec. unfold owes. cbn [updated records scannable]. rewrite app_assoc.
  split; [|split].
  - apply NoDup_app. split; [done|]. destruct (negb (resident r) && resident r') eqn:E.
    + split; [|apply NoDup_singleton]. intros x Hx. rewrite list_elem_of_singleton. intros ->.
      apply Hin in Hx. by rewrite Hx in E.
    + split; [set_solver|constructor].
  - intros j. rewrite elem_of_app. destruct (decide (j = id)) as [->|Hne].
    + rewrite list_lookup_insert_eq by done. rewrite Hin.
      destruct (resident r) eqn:Er, (resident r') eqn:Er'; cbn [negb andb].
      * split; eauto.
      * by specialize (Hmono eq_refl).
      * split; [eauto|]. right. by left.
      * split; [intros [?|?]; [done|set_solver]|]. intros (x & [= <-] & ?). congruence.
    + rewrite list_lookup_insert_ne by done. rewrite Hm. split; [|by left].
      intros [?|Hj]; [done|]. destruct (_ && _); set_solver.
  - intros j x Hj Hx. destruct (decide (j = id)) as [->|Hne].
    + rewrite list_lookup_insert_eq in Hj by done. injection Hj as <-. apply (Hsc id r); congruence.
    + rewrite list_lookup_insert_ne in Hj by done. by eapply Hsc.
Qed.

Lemma owes_placed s h s' id r pending :
  store_wf s → placed s h = (s', id, r) → owes s pending → owes s' pending.
Proof.
  intros Hwf Hp Ho. unfold placed in Hp. destruct (lookup_addr s (h_addr h)) as [i|] eqn:E.
  - by injection Hp as <- _ _.
  - injection Hp as <- _ _. destruct Ho as (Hn & Hm & Hsc). split; [done|]. cbn. split.
    + intros j. rewrite Hm. split; intros (x & Hx & Hres); exists x; (split; [|done]).
      * by apply lookup_app_l_Some.
      * apply lookup_app_Some in Hx as [Hx|[_ Hx]]; [done|].
        apply list_lookup_singleton_Some in Hx as [_ <-]. done.
    + intros j x Hx. apply lookup_app_Some in Hx as [Hx|[_ Hx]]; [by eapply Hsc|].
      apply list_lookup_singleton_Some in Hx as [_ <-]. done.
Qed.

Lemma merge_keeps r o :
  let r' := reconcile (merge r o) in
  record_addr r' = record_addr r ∧ scanned r' = scanned r ∧ in_scope r' = in_scope r ∧
  (resident r = true → resident r' = true).
Proof.
  destruct (merge_fields r o) as (Mh & _ & Msc & Msp & _ & Ms & _).
  destruct (reconcile_fields (merge r o)) as (Rh & _ & Rs & _ & _ & Rsc & Rsp).
  cbn. unfold record_addr. rewrite Rh, Mh, Rsc, Msc, Rsp, Msp. repeat (split; [done|]).
  apply resident_header_sources; [congruence|]. intros s Hs. rewrite Rs, Ms.
  unfold add_source. repeat case_match; cbn; set_solver.
Qed.

(** What a filing keeps: the store's shape, what the queue owes, and the scope
    and presence of every record. *)
Definition keeps (s s' : TaskStore) : Prop :=
  store_wf s' ∧ (∀ pending, owes s pending → owes s' pending) ∧
  ∀ id r, records s !! id = Some r → ∃ r', records s' !! id = Some r' ∧ record_addr r' = record_addr r.

Lemma keeps_refl s : store_wf s → keeps s s.
Proof. intros H. split; [done|]. split; [done|]. eauto. Qed.

Lemma keeps_trans s1 s2 s3 : keeps s1 s2 → keeps s2 s3 → keeps s1 s3.
Proof.
  intros (_ & H1 & H1') (Hwf & H2 & H2'). split; [done|]. split; [auto|].
  intros id r Hr. destruct (H1' _ _ Hr) as (r' & Hr' & <-). destruct (H2' _ _ Hr') as (r2 & ? & <-).
  eauto.
Qed.

Lemma keeps_updated s id r r' :
  store_wf s → records s !! id = Some r → record_addr r' = record_addr r →
  scanned r' = scanned r → (resident r = true → resident r' = true) →
  keeps s (updated s id r' (became r r')).
Proof.
  intros Hwf Hr Ha Hs Hres. split; [by eapply store_wf_updated|].
  split; [intros p Hp; by apply owes_updated|].
  intros j x Hj. cbn. destruct (decide (j = id)) as [->|Hne].
  - exists r'. rewrite list_lookup_insert_eq by by eapply lookup_lt_Some. by simplify_eq.
  - exists x. by rewrite list_lookup_insert_ne.
Qed.

Lemma same_residence_became r r' : resident r' = resident r → became r r' = false.
Proof. unfold became. intros ->. by destruct (resident r). Qed.

Lemma files_keeps s s' : store_wf s → files s s' → keeps s s'.
Proof.
  intros Hwf H. destruct H as [s h o e s' H|s id o e s' H|s id c e s' H|s id i s' H].
  - destruct (placed s h) as [[s1 id] r] eqn:Hp.
    destruct (placed_wf _ _ _ _ _ Hwf Hp) as (Hwf1 & Hr & Ha & _ & Hoth & _ & Hcase).
    destruct (observe_spec s h o s1 id r Hwf Hp) as [e' He]. rewrite He in H. injection H as _ <-.
    destruct (redecode_fields r h) as (Dh & Ds & Dsc & _).
    destruct (merge_keeps (redecode r h) o) as (Ma & Msc & _ & Mres).
    eapply (keeps_trans _ s1).
    + split; [done|]. split; [intros p; by eapply owes_placed|].
      intros j x Hj. destruct (decide (j = id)) as [->|Hne]; [|rewrite Hoth by done; eauto].
      exists r. split; [done|]. destruct (lookup_addr s (h_addr h)) as [i|] eqn:E.
      * destruct Hcase as [-> Hc]. by simplify_eq.
      * unfold placed in Hp. rewrite E in Hp. injection Hp as _ <- _.
        apply lookup_lt_Some in Hj. lia.
    + apply keeps_updated; [done..| | |].
      * rewrite Ma. unfold record_addr. by rewrite Dh.
      * by rewrite Msc.
      * intros Hres. apply Mres. by rewrite (resident_fields _ r).
  - pose proof H as H'. unfold observe_at, record in H'.
    apply outcome_bind_Ret in H' as (r & Hr%or_panic_Ret & _).
    destruct (observe_at_spec s id o r Hr) as [e' He]. rewrite He in H. injection H as _ <-.
    destruct (merge_keeps r o) as (Ma & Msc & _ & Mres). by apply keeps_updated.
  - pose proof H as H'. unfold claim, record in H'.
    apply outcome_bind_Ret in H' as (r & Hr%or_panic_Ret & _).
    destruct (claim_spec s id c r Hr) as [e' He]. rewrite He in H. injection H as _ <-.
    destruct (reconcile_fields (add_claim r c)) as (Rh & _ & Rs & _ & _ & Rsc & _).
    assert (Hres : resident (reconcile (add_claim r c)) = resident r)
      by by apply resident_fields.
    rewrite <- (same_residence_became _ _ Hres).
    apply keeps_updated; [done..| |by rewrite Rsc|by rewrite Hres]. unfold record_addr. by rewrite Rh.
  - pose proof H as H'. unfold issue, record in H'.
    apply outcome_bind_Ret in H' as (r & Hr%or_panic_Ret & _).
    rewrite (issue_spec s id i r Hr) in H. injection H as <-.
    assert (Hres : resident (add_issue r i) = resident r) by by apply resident_fields.
    rewrite <- (same_residence_became _ _ Hres). apply keeps_updated; [done..|by rewrite Hres].
Qed.

Lemma filed_keeps s s' : store_wf s → filed s s' → keeps s s'.
Proof.
  intros Hwf H. revert Hwf. induction H as [s|s1 s2 s3 H12 _ IH]; intros Hwf.
  - by apply keeps_refl.
  - pose proof (files_keeps _ _ Hwf H12) as Hk. eapply keeps_trans; [done|]. apply IH, Hk.
Qed.

(** The records a scan has marked. *)
Definition is_scanned (s : TaskStore) (id : TaskRecordId) : bool :=
  match records s !! id with Some r => scanned r | None => false end.

Lemma is_scanned_updated s id r r' b j :
  records s !! id = Some r → scanned r' = scanned r → is_scanned (updated s id r' b) j = is_scanned s j.
Proof.
  intros Hr Hs. unfold is_scanned. cbn. destruct (decide (j = id)) as [->|Hne].
  - by rewrite list_lookup_insert_eq, Hr by by eapply lookup_lt_Some.
  - by rewrite list_lookup_insert_ne.
Qed.

(** A filing marks nothing. *)
Lemma files_scanned s s' j : store_wf s → files s s' → is_scanned s' j = is_scanned s j.
Proof.
  intros Hwf H. destruct H as [s h o e s' H|s id o e s' H|s id c e s' H|s id i s' H].
  - destruct (placed s h) as [[s1 id] r] eqn:Hp.
    destruct (placed_wf _ _ _ _ _ Hwf Hp) as (_ & Hr & _).
    destruct (observe_spec s h o s1 id r Hwf Hp) as [e' He]. rewrite He in H. injection H as _ <-.
    destruct (redecode_fields r h) as (_ & _ & Dsc & _).
    destruct (merge_keeps (redecode r h) o) as (_ & Msc & _).
    rewrite (is_scanned_updated _ _ r) by (try done; by rewrite Msc).
    unfold placed in Hp. destruct (lookup_addr s (h_addr h)); injection Hp as <- _ _; [done|].
    unfold is_scanned. cbn. destruct (records s !! j) as [x|] eqn:Ej.
    + by rewrite (lookup_app_l_Some _ _ _ _ Ej).
    + destruct ((records s ++ _) !! j) as [x|] eqn:Ex; [|done].
      apply lookup_app_Some in Ex as [Ex|[_ Ex]]; [congruence|].
      apply list_lookup_singleton_Some in Ex as [_ <-]. done.
  - pose proof H as H'. unfold observe_at, record in H'.
    apply outcome_bind_Ret in H' as (r & Hr%or_panic_Ret & _).
    destruct (observe_at_spec s id o r Hr) as [e' He]. rewrite He in H. injection H as _ <-.
    destruct (merge_keeps r o) as (_ & Msc & _). by apply (is_scanned_updated _ _ r).
  - pose proof H as H'. unfold claim, record in H'.
    apply outcome_bind_Ret in H' as (r & Hr%or_panic_Ret & _).
    destruct (claim_spec s id c r Hr) as [e' He]. rewrite He in H. injection H as _ <-.
    destruct (reconcile_fields (add_claim r c)) as (_ & _ & _ & _ & _ & Rsc & _).
    by apply (is_scanned_updated _ _ r); [|rewrite Rsc].
  - pose proof H as H'. unfold issue, record in H'.
    apply outcome_bind_Ret in H' as (r & Hr%or_panic_Ret & _).
    rewrite (issue_spec s id i r Hr) in H. injection H as <-. by apply (is_scanned_updated _ _ r).
Qed.

Lemma filed_scanned s s' j : store_wf s → filed s s' → is_scanned s' j = is_scanned s j.
Proof.
  intros Hwf H. revert Hwf. induction H as [s|s1 s2 s3 H12 _ IH]; intros Hwf; [done|].
  rewrite IH by by apply (files_keeps _ _ Hwf H12). by apply files_scanned.
Qed.

Lemma mark_scanned_scanned s id s' j :
  mark_scanned s id = Ret s' → is_scanned s' j = bool_decide (j = id) || is_scanned s j.
Proof.
  unfold mark_scanned, record. intros (r & Hr%or_panic_Ret & [= <-])%outcome_bind_Ret.
  unfold is_scanned. cbn. case_bool_decide as Hj.
  - subst j. by rewrite list_lookup_insert_eq by by eapply lookup_lt_Some.
  - by rewrite list_lookup_insert_ne.
Qed.

Lemma owes_new : owes store_new [].
Proof.
  split; [constructor|]. split; [|done]. intros id. cbn. split; [set_solver|].
  by intros (r & ? & _).
Qed.

(** A scan marked: the record scanned is one the queue already had. *)
Lemma mark_scanned_keeps s id s' :
  store_wf s → mark_scanned s id = Ret s' →
  store_wf s' ∧ (∀ pending, id ∈ pending → owes s pending → owes s' pending) ∧
  ∀ j r, records s !! j = Some r → ∃ r', records s' !! j = Some r' ∧ record_addr r' = record_addr r.
Proof.
  intros Hwf H. unfold mark_scanned, record in H.
  apply outcome_bind_Ret in H as (r & Hr%or_panic_Ret & [= <-]). set (r' := mkRecord _ _ _ _ _ _ _ _).
  assert (set_record s id r' = updated s id r' false) as ->.
  { unfold updated, set_record. by rewrite app_nil_r. }
  split; [by eapply store_wf_updated|]. split.
  - intros pending Hin (Hn & Hm & Hsc). unfold owes. cbn [updated records scannable].
    rewrite app_nil_r. split; [done|]. split.
    + intros j. rewrite Hm. destruct (decide (j = id)) as [->|Hne];
        [|by rewrite list_lookup_insert_ne].
      rewrite list_lookup_insert_eq by by eapply lookup_lt_Some.
      split; intros (x & Hx & Hres); simplify_eq; eauto.
    + intros j x Hx Hs. destruct (decide (j = id)) as [->|Hne]; [done|].
      cbn in Hx. rewrite list_lookup_insert_ne in Hx by done. by eapply Hsc.
  - intros j x Hj. cbn. destruct (decide (j = id)) as [->|Hne].
    + exists r'. rewrite list_lookup_insert_eq by by eapply lookup_lt_Some. by simplify_eq.
    + exists x. by rewrite list_lookup_insert_ne.
Qed.

(** ** The queue's account

    Everything a queue ever held: what was popped, and what it still holds. *)

Definition w_validation (i : DiscoveryWork) : option (Candidate * Origin) :=
  match i with Validate c from => Some (c, from) | _ => None end.
Definition w_runtime (i : DiscoveryWork) : option OwnerKey :=
  match i with EnumerateRuntime o => Some o | _ => None end.
Definition w_set (i : DiscoveryWork) : option OwnerKey :=
  match i with EnumerateLocalSet o => Some o | _ => None end.
Definition w_scan (i : DiscoveryWork) : option TaskRecordId :=
  match i with ScanTask id => Some id | _ => None end.
Definition w_timers (i : DiscoveryWork) : option OwnerKey :=
  match i with HarvestTimers o => Some o | _ => None end.
Definition w_io (i : DiscoveryWork) : option OwnerKey :=
  match i with HarvestIo o => Some o | _ => None end.
Definition w_queue (i : DiscoveryWork) : option OwnerKey :=
  match i with HarvestBlockingQueue o => Some o | _ => None end.

Definition accounted (items : list DiscoveryWork) (q : Queue) : Queue :=
  mkQueue (omap w_validation items ++ q_validations q) (omap w_runtime items ++ q_runtimes q)
    (omap w_set items ++ q_sets q) (omap w_scan items ++ q_scans q)
    (omap w_timers items ++ q_timers q) (omap w_io items ++ q_io q)
    (omap w_queue items ++ q_queues q).

Lemma pop_accounted items q item q' :
  pop q = Some (item, q') → accounted (items ++ [item]) q' = accounted items q.
Proof.
  unfold pop, accounted. destruct q as [v r s c t i b]. rewrite !omap_app. intros H.
  repeat case_match; simplify_eq; cbn [q_validations q_runtimes q_sets q_scans q_timers q_io q_queues];
    cbn [omap list_omap w_validation w_runtime w_set w_scan w_timers w_io w_queue];
    rewrite ?app_nil_r, <- ?app_assoc; done.
Qed.

Lemma accounted_validations items q from cs :
  accounted items (push_validations q from cs) = push_validations (accounted items q) from cs.
Proof. unfold accounted, push_validations. cbn. by rewrite app_assoc. Qed.

Lemma accounted_scans items q ids :
  accounted items (push_scans q ids) = push_scans (accounted items q) ids.
Proof. unfold accounted, push_scans. cbn. by rewrite app_assoc. Qed.

Lemma accounted_schedule excluded items o e q sch :
  let '(q1, sch1) := schedule_owner excluded o e (q, sch) in
  schedule_owner excluded o e (accounted items q, sch) = (accounted items q1, sch1).
Proof.
  unfold schedule_owner, accounted. destruct q as [v r s c t i b]. cbn.
  destruct (_ || _); [done|]. destruct o, e; cbn; by rewrite ?app_assoc.
Qed.

Lemma accounted_schedule_all excluded items e os : ∀ q sch,
  let '(q1, sch1) := schedule_all excluded e os (q, sch) in
  schedule_all excluded e os (accounted items q, sch) = (accounted items q1, sch1).
Proof.
  unfold schedule_all. induction os as [|o os IH]; intros q sch; [done|]. cbn [foldl].
  pose proof (accounted_schedule excluded items o e q sch) as H.
  destruct (schedule_owner excluded o e (q, sch)) as [q1 sch1]. rewrite H. apply IH.
Qed.

(** ** What scheduling keeps *)

Definition is_rt (o : OwnerKey) : bool := match o with Runtime _ _ => true | LocalSet _ => false end.

(** The owners scheduled, once each, with the work each gets: every registry of
    a runtime, the list of a local set, and the list of a runtime that is no
    root. *)
Record sched_ok (rts : list OwnerKey) (q : Queue) (sch : list OwnerKey) : Prop := mkSched {
  sched_nodup : NoDup sch;
  sched_timers : q_timers q ≡ₚ filter (λ o, is_rt o = true) sch;
  sched_io : q_io q ≡ₚ filter (λ o, is_rt o = true) sch;
  sched_queues : q_queues q ≡ₚ filter (λ o, is_rt o = true) sch;
  sched_sets : q_sets q ≡ₚ filter (λ o, is_rt o = false) sch;
  sched_runtimes : q_runtimes q ≡ₚ filter (λ o, is_rt o = true ∧ o ∉ rts) sch
}.

Lemma snoc_perm {A} (l k : list A) x : l ≡ₚ k → l ++ [x] ≡ₚ x :: k.
Proof. intros ->. by rewrite Permutation_app_comm. Qed.

Lemma schedule_owner_ok excluded rts o e q sch q' sch' :
  sched_ok rts q sch →
  (if (e : bool) then (o ∈ rts → is_excluded o excluded = false → o ∈ sch) else o ∈ rts) →
  schedule_owner excluded o e (q, sch) = (q', sch') →
  sched_ok rts q' sch' ∧ q_validations q' = q_validations q ∧ q_scans q' = q_scans q ∧
  ∀ x, x ∈ sch' ↔ x ∈ sch ∨ (x = o ∧ is_excluded o excluded = false).
Proof.
  intros [Hn Ht Hi Hq Hs Hr] He H. destruct q as [v r s c t i b]. unfold schedule_owner in H.
  cbn in Ht, Hi, Hq, Hs, Hr. destruct (is_excluded o excluded) eqn:Ex; cbn [orb] in H.
  { injection H as <- <-. split; [done|]. split; [done|]. split; [done|]. naive_solver. }
  case_bool_decide as Hin.
  { injection H as <- <-. split; [done|]. split; [done|]. split; [done|]. naive_solver. }
  injection H as <- <-. split; [|split; [by destruct o|split; [by destruct o|set_solver]]].
  assert (He' : if e then o ∉ rts else o ∈ rts) by (destruct e; [intros ?; auto|done]).
  destruct o as [f h|sh]; split; cbn [q_timers q_io q_queues q_sets q_runtimes].
  all: try (by apply NoDup_cons).
  all: rewrite ?filter_cons_True by (cbn; done); rewrite ?filter_cons_False by (cbn; naive_solver).
  all: try (by apply snoc_perm); try done.
  destruct e.
  - rewrite filter_cons_True by done. by apply snoc_perm.
  - rewrite filter_cons_False by naive_solver. done.
Qed.

Lemma schedule_all_ok excluded rts e os : ∀ q sch q' sch',
  sched_ok rts q sch →
  (if (e : bool) then (∀ o, o ∈ rts → is_excluded o excluded = false → o ∈ sch)
   else ∀ o, o ∈ os → o ∈ rts) →
  schedule_all excluded e os (q, sch) = (q', sch') →
  sched_ok rts q' sch' ∧ q_validations q' = q_validations q ∧ q_scans q' = q_scans q ∧
  ∀ x, x ∈ sch' ↔ x ∈ sch ∨ (x ∈ os ∧ is_excluded x excluded = false).
Proof.
  unfold schedule_all. induction os as [|o os IH]; intros q sch q' sch' Hok He H.
  - injection H as <- <-. split; [done|]. split; [done|]. split; [done|]. set_solver.
  - cbn [foldl] in H. destruct (schedule_owner excluded o e (q, sch)) as [q1 sch1] eqn:E1.
    destruct (schedule_owner_ok excluded rts o e q sch q1 sch1 Hok) as (Hok1 & Hv1 & Hs1 & H1);
      [destruct e; [auto|apply He; by left]|done|].
    destruct (IH q1 sch1 q' sch' Hok1) as (Hok' & Hv' & Hs' & H'); [|done|].
    { destruct e; [intros x Hx Hex; apply H1; left; auto|intros x Hx; apply He; by right]. }
    split; [done|]. split; [congruence|]. split; [congruence|].
    intros x. rewrite H', H1, elem_of_cons. naive_solver.
Qed.

(** What is scheduled was, or is one of the owners scheduled now. *)
Lemma schedule_all_only excluded e os : ∀ q sch,
  let '(_, sch') := schedule_all excluded e os (q, sch) in ∀ o, o ∈ sch' → o ∈ sch ∨ o ∈ os.
Proof.
  unfold schedule_all. induction os as [|o os IH]; intros q sch; cbn [foldl]; [by left|].
  unfold schedule_owner at 2. destruct q as [v r s c t i b].
  destruct (is_excluded o excluded || bool_decide (o ∈ sch)).
  - specialize (IH (mkQueue v r s c t i b) sch). destruct (foldl _ _ _). set_solver.
  - match goal with |- context [foldl _ (?q, _)] => specialize (IH q (o :: sch)) end.
    destruct (foldl _ _ _). set_solver.
Qed.

Lemma sched_ok_scans rts q sch ids : sched_ok rts q sch → sched_ok rts (push_scans q ids) sch.
Proof. by intros []. Qed.

Lemma sched_ok_validations rts q sch from cs :
  sched_ok rts q sch → sched_ok rts (push_validations q from cs) sch.
Proof. by intros []. Qed.

(** ** The sweep's steps *)

Section sweep.
Context {W : Type} `{!DiscoveryWorld W} (excluded : list Z).
Implicit Types st : SweepState W.

(** What an item finds and admits. *)
Definition found (from : Origin) {A} (m : outcome (list Candidate * A)) : list (Candidate * Origin) :=
  match m with Ret (cs, _) => (λ c, (c, from)) <$> cs | Panic => [] end.

Definition finds st (item : DiscoveryWork) : list (Candidate * Origin) :=
  match item with
  | ScanTask id =>
      match records (tl_records (s_list st)) !! id with
      | Some r => if excluded_owned (record_owner r) excluded then []
                  else found (OTask id) (scan id (s_world st) (s_list st) (s_budget st))
      | None => []
      end
  | HarvestTimers o => found (OOwner o) (harvest o Timers (s_world st) (s_list st))
  | HarvestIo o => found (OOwner o) (harvest o Io (s_world st) (s_list st))
  | HarvestBlockingQueue o => found (OOwner o) (harvest o RegBlockingQueue (s_world st) (s_list st))
  | EnumerateRuntime _ | EnumerateLocalSet _ | Validate _ _ => []
  end.

Definition admits st (item : DiscoveryWork) : list OwnerKey :=
  match item with
  | Validate c _ => match validate c (s_world st) (s_list st) with Ret (os, _) => os | Panic => [] end
  | _ => []
  end.

(** A run of the sweep's loop: the items processed, what they found and whom
    they admitted, and the state they left. *)
Inductive runs (st0 : SweepState W) : list DiscoveryWork → list (Candidate * Origin) →
    list OwnerKey → SweepState W → Prop :=
  | runs_start : runs st0 [] [] [] st0
  | runs_step items fs os st item q st' :
      runs st0 items fs os st → pop (s_queue st) = Some (item, q) →
      process excluded (take_item st item q) item = Ret st' →
      runs st0 (items ++ [item]) (fs ++ finds (take_item st item q) item)
        (os ++ admits (take_item st item q) item) st'.

(** The operation an item runs panics. *)
Definition op_panics st (item : DiscoveryWork) : Prop :=
  match item with
  | EnumerateRuntime o | EnumerateLocalSet o => enumerate o (s_world st) (s_list st) = Panic
  | ScanTask id =>
      match records (tl_records (s_list st)) !! id with
      | Some r => excluded_owned (record_owner r) excluded = false ∧
                  scan id (s_world st) (s_list st) (s_budget st) = Panic
      | None => False
      end
  | HarvestTimers o => harvest o Timers (s_world st) (s_list st) = Panic
  | HarvestIo o => harvest o Io (s_world st) (s_list st) = Panic
  | HarvestBlockingQueue o => harvest o RegBlockingQueue (s_world st) (s_list st) = Panic
  | Validate c _ => validate c (s_world st) (s_list st) = Panic
  end.

(** A run within the cap whose next item's operation panics. *)
Definition run_panics (max : Z) (st0 : SweepState W) : Prop :=
  ∃ items fs os st item q, runs st0 items fs os st ∧ Z.of_nat (length items) < max ∧
    pop (s_queue st) = Some (item, q) ∧ op_panics (take_item st item q) item.

(** A record scanned: its turn came in the run, when its owner was not known to be
    an excluded one. *)
Definition scanned_in (st0 : SweepState W) (items : list DiscoveryWork) (id : TaskRecordId) : Prop :=
  ∃ items1 fs1 os1 st1 q r, runs st0 items1 fs1 os1 st1 ∧ (items1 ++ [ScanTask id]) `prefix_of` items ∧
    pop (s_queue st1) = Some (ScanTask id, q) ∧ records (tl_records (s_list st1)) !! id = Some r ∧
    excluded_owned (record_owner r) excluded = false.

Lemma op_panics_process st item : op_panics st item → process excluded st item = Panic.
Proof.
  destruct item; cbn [op_panics process]; unfold enumerated, scanned_task, harvested, validated, record.
  3: destruct (records (tl_records (s_list st)) !! _) as [r|] eqn:Er; [|done]; intros [He Hs];
     cbn [or_panic]; rewrite outcome_bind_eq, He, Hs; done.
  all: intros ->; done.
Qed.

(** The items of a run say all of it. *)
Lemma runs_det st0 items fs os st fs' os' st' :
  runs st0 items fs os st → runs st0 items fs' os' st' → fs = fs' ∧ os = os' ∧ st = st'.
Proof.
  intros H. revert fs' os' st'. induction H as [|items fs os st item q st1 _ IH Hp Hs]; intros fs' os' st' H'.
  - remember [] as l eqn:El. destruct H' as [|items1]; [done|by destruct items1].
  - remember (items ++ [item]) as l eqn:El. destruct H' as [|items1 fs1 os1 s1 item1 q1 s1' Hr Hp1 Hs1].
    { by destruct items. }
    apply app_inj_tail in El as [-> ->]. destruct (IH _ _ _ Hr) as (<- & <- & <-).
    rewrite Hp in Hp1. injection Hp1 as <-. rewrite Hs in Hs1. by injection Hs1 as <-.
Qed.

Context `{!LawfulWorld W} (rts : list OwnerKey) (roots : list OwnerKey).

Record sweep_inv (items : list DiscoveryWork) (fs : list (Candidate * Origin))
    (os : list OwnerKey) (st : SweepState W) : Prop := mkInv {
  inv_wf : store_wf (tl_records (s_list st));
  inv_taken : scannable (tl_records (s_list st)) = [];
  inv_owes : owes (tl_records (s_list st)) (q_scans (accounted items (s_queue st)));
  inv_finds : q_validations (accounted items (s_queue st)) = fs;
  inv_sched : sched_ok rts (accounted items (s_queue st)) (s_scheduled st);
  inv_scheduled : ∀ o, o ∈ s_scheduled st ↔ (o ∈ roots ∨ o ∈ os) ∧ is_excluded o excluded = false;
  inv_roots : ∀ o, o ∈ rts → o ∈ roots;
  inv_processed : s_processed st = foldl tally_add tally_zero items;
  inv_found : ∀ f, f ∈ s_found_from st → is_Some (records (tl_records (s_list st)) !! f.2)
}.

(** The invariant of a state whose item has been popped and counted: the queue's
    account is as it was. *)
Definition popped_inv items fs os item st : Prop := sweep_inv (items ++ [item]) fs os st.

Lemma take_item_inv items fs os st item q :
  sweep_inv items fs os st → pop (s_queue st) = Some (item, q) →
  popped_inv items fs os item (take_item st item q).
Proof.
  intros [] Hp. pose proof (pop_accounted items _ _ _ Hp) as Ha.
  split; cbn [take_item s_list s_queue s_scheduled s_processed s_found_from]; rewrite ?Ha; try done.
  by rewrite foldl_app, inv_processed0.
Qed.

Lemma owes_taken s pending :
  owes s pending → owes (mkStore (by_addr s) (records s) []) (pending ++ scannable s).
Proof.
  intros (Hn & Hm & Hsc). split; [by rewrite app_nil_r|]. cbn. split.
  - intros id. by rewrite app_nil_r.
  - intros id r Hr Hs. apply elem_of_app. left. by eapply Hsc.
Qed.

Lemma keeps_found s s' (f : list (Origin * TaskRecordId)) :
  keeps s s' → (∀ x, x ∈ f → is_Some (records s !! x.2)) → ∀ x, x ∈ f → is_Some (records s' !! x.2).
Proof.
  intros (_ & _ & Hk) Hf x Hx. destruct (Hf x Hx) as [r Hr].
  destruct (Hk _ _ Hr) as (r' & ? & _). eauto.
Qed.
(** Filing, then taking what became scannable, keeps the invariant. *)
Lemma filed_taken_inv items fs os st w l q :
  sweep_inv items fs os st → filed (tl_records (s_list st)) (tl_records l) →
  q_validations (accounted items q) = fs →
  q_scans (accounted items q) = q_scans (accounted items (s_queue st)) →
  ∀ sch os' found_from,
  sched_ok rts (accounted items q) sch →
  (∀ o, o ∈ sch ↔ (o ∈ roots ∨ o ∈ os') ∧ is_excluded o excluded = false) →
  (∀ f, f ∈ found_from → is_Some (records (tl_records l) !! f.2)) →
  let '(q', l') := take_scans q l in
  sweep_inv items fs os'
    (mkSweep w l' q' sch (s_budget st) (s_processed st) found_from (s_unscanned st)).
Proof.
  intros [] Hf Hv Hs sch os' ff Hsched Hscheduled Hff. unfold take_scans. cbn.
  pose proof (filed_keeps _ _ inv_wf0 Hf) as (Hwf & Ho & _).
  split; cbn [s_list tl_records scannable s_queue s_scheduled s_processed s_found_from]; try done.
  - rewrite accounted_scans. cbn [push_scans q_scans]. rewrite Hs. by apply owes_taken, Ho.
  - rewrite accounted_scans. by apply sched_ok_scans.
Qed.

Lemma enumerated_inv items fs os st o :
  sweep_inv items fs os st → returns (enumerate o (s_world st) (s_list st) = Panic) (enumerated st o) (sweep_inv items fs os).
Proof.
  intros Hinv. unfold enumerated, returns.
  destruct (enumerate o (s_world st) (s_list st)) as [[w l]|] eqn:E; rewrite outcome_bind_eq; [|done].
  apply enumerate_files in E as Hf; [|apply (inv_wf _ _ _ _ Hinv)].
  pose proof (filed_keeps _ _ (inv_wf _ _ _ _ Hinv) Hf) as Hk.
  pose proof (filed_taken_inv items fs os st w l (s_queue st) Hinv Hf (inv_finds _ _ _ _ Hinv)
    eq_refl (s_scheduled st) os (s_found_from st) (inv_sched _ _ _ _ Hinv)
    (inv_scheduled _ _ _ _ Hinv) (keeps_found _ _ _ Hk (inv_found _ _ _ _ Hinv))) as H.
  by destruct (take_scans (s_queue st) l) as [q' l'].
Qed.

Lemma validated_inv items fs os st c from :
  sweep_inv items fs os st →
  returns (validate c (s_world st) (s_list st) = Panic) (validated excluded st c from)
    (sweep_inv items fs (os ++ admits st (Validate c from))).
Proof.
  intros Hinv. unfold validated, admits, returns.
  destruct (validate c (s_world st) (s_list st)) as [[adm [w l]]|] eqn:E; rewrite outcome_bind_eq; [|done].
  apply validate_files in E as Hf; [|apply (inv_wf _ _ _ _ Hinv)].
  pose proof (filed_keeps _ _ (inv_wf _ _ _ _ Hinv) Hf) as Hk.
  pose proof (accounted_schedule_all excluded items true adm (s_queue st) (s_scheduled st)) as Hacc.
  destruct (schedule_all excluded true adm (s_queue st, s_scheduled st)) as [q sch] eqn:Esch.
  destruct (schedule_all_ok excluded rts true adm _ _ _ _ (inv_sched _ _ _ _ Hinv)
    ltac:(intros o Ho Hex; apply (inv_scheduled _ _ _ _ Hinv); split; [left; by eapply inv_roots|done])
    Hacc) as (Hok & Hv & Hs & Hin).
  set (ff := match lookup_addr (tl_records l) (candidate_addr c) with Some _ => _ | None => _ end).
  assert (Hff : ∀ f, f ∈ ff → is_Some (records (tl_records l) !! f.2)).
  { unfold ff. destruct (lookup_addr _ _) as [id|] eqn:El;
      [|by apply (keeps_found _ _ _ Hk (inv_found _ _ _ _ Hinv))].
    intros f [Hf'|Hf']%elem_of_app; [by apply (keeps_found _ _ _ Hk (inv_found _ _ _ _ Hinv))|].
    apply list_elem_of_singleton in Hf' as ->. destruct Hk as (Hwf & _ & _).
    apply (Hwf (candidate_addr c) id) in El as (r & Hr & _). by eexists. }
  pose proof (filed_taken_inv items fs os st w l q Hinv Hf
    ltac:(by rewrite Hv, (inv_finds _ _ _ _ Hinv)) Hs sch (os ++ adm) ff Hok
    ltac:(intros o; rewrite Hin, (inv_scheduled _ _ _ _ Hinv), elem_of_app; naive_solver) Hff) as H.
  by destruct (take_scans q l) as [q' l'].
Qed.

Lemma found_inv items fs os st w l b from cs :
  sweep_inv items fs os st →
  store_wf (tl_records l) → scannable (tl_records l) = [] →
  owes (tl_records l) (q_scans (accounted items (s_queue st))) →
  (∀ f, f ∈ s_found_from st → is_Some (records (tl_records l) !! f.2)) →
  sweep_inv items (fs ++ ((λ c, (c, from)) <$> cs)) os
    (mkSweep w l (push_validations (s_queue st) from cs) (s_scheduled st) b (s_processed st)
       (s_found_from st) (s_unscanned st)).
Proof.
  intros [] Hwf Hsc Ho Hf.
  split; cbn [s_list s_queue s_scheduled s_processed s_found_from]; try done;
    rewrite accounted_validations; cbn [push_validations q_scans q_validations]; try done.
  - by rewrite inv_finds0.
  - by apply sched_ok_validations.
Qed.

Lemma harvested_inv items fs os st o g :
  sweep_inv items fs os st →
  returns (harvest o g (s_world st) (s_list st) = Panic) (harvested st o g)
    (sweep_inv items (fs ++ found (OOwner o) (harvest o g (s_world st) (s_list st))) os).
Proof.
  intros Hinv. unfold harvested, returns.
  destruct (harvest o g (s_world st) (s_list st)) as [[cs [w l]]|] eqn:E; rewrite outcome_bind_eq; [|done].
  apply harvest_files in E as Hl; [|apply (inv_wf _ _ _ _ Hinv)].
  cbn [found]. destruct Hinv; apply found_inv; rewrite ?Hl; done.
Qed.

Lemma scanned_task_inv items fs os st id :
  sweep_inv items fs os st → id ∈ q_scans (accounted items (s_queue st)) →
  returns (op_panics st (ScanTask id)) (scanned_task excluded st id)
    (sweep_inv items (fs ++ finds st (ScanTask id)) os).
Proof.
  intros Hinv Hid. destruct (inv_owes _ _ _ _ Hinv) as (_ & Hm & _).
  destruct (proj1 (Hm id)) as (r & Hr & _); [by rewrite (inv_taken _ _ _ _ Hinv), app_nil_r|].
  unfold scanned_task, record, finds, returns, op_panics. rewrite Hr. cbn [or_panic].
  rewrite outcome_bind_eq. destruct (excluded_owned (record_owner r) excluded).
  { rewrite app_nil_r. by destruct Hinv. }
  destruct (scan id (s_world st) (s_list st) (s_budget st)) as [[cs [[w l] b]]|] eqn:E;
    rewrite outcome_bind_eq; [|done].
  apply scan_files in E as Hmk; [|apply (inv_wf _ _ _ _ Hinv)|by eexists]. cbn [found].
  destruct (mark_scanned_keeps _ _ _ (inv_wf _ _ _ _ Hinv) Hmk) as (Hwf & Ho & Hk).
  assert (Hsc : scannable (tl_records l) = []).
  { unfold mark_scanned, record in Hmk. rewrite Hr in Hmk. injection Hmk as Hmk.
    rewrite <- Hmk. by apply (inv_taken _ _ _ _ Hinv). }
  apply found_inv; [done..| |].
  - apply Ho; [done|]. by apply (inv_owes _ _ _ _ Hinv).
  - intros f Hf. destruct (inv_found _ _ _ _ Hinv f Hf) as [x Hx].
    destruct (Hk _ _ Hx) as (r' & ? & _). eauto.
Qed.

(** Every step keeps the invariant, unless the item's operation panics. *)
Lemma process_inv items fs os st item q :
  sweep_inv items fs os st → pop (s_queue st) = Some (item, q) →
  returns (op_panics (take_item st item q) item) (process excluded (take_item st item q) item)
    (sweep_inv (items ++ [item]) (fs ++ finds (take_item st item q) item)
      (os ++ admits (take_item st item q) item)).
Proof.
  intros Hinv Hp. pose proof (take_item_inv _ _ _ _ _ _ Hinv Hp) as Hst. unfold popped_inv in Hst.
  destruct item; cbn [process finds admits]; rewrite ?app_nil_r; unfold op_panics.
  - by apply enumerated_inv.
  - by apply enumerated_inv.
  - apply scanned_task_inv; [done|]. cbn. rewrite omap_app. cbn. set_solver.
  - by apply harvested_inv.
  - by apply harvested_inv.
  - by apply harvested_inv.
  - by apply validated_inv.
Qed.

Lemma runs_inv st0 items fs os st :
  sweep_inv [] [] [] st0 → runs st0 items fs os st → sweep_inv items fs os st.
Proof.
  intros H0. induction 1 as [|items fs os st item q st' _ IH Hp Hs]; [done|].
  pose proof (process_inv _ _ _ _ _ _ IH Hp) as Hinv. unfold returns in Hinv. by rewrite Hs in Hinv.
Qed.

Lemma total_tally items : total (foldl tally_add tally_zero items) = Z.of_nat (length items).
Proof.
  enough (∀ t, total (foldl tally_add t items) = total t + Z.of_nat (length items)) as H
    by by rewrite H.
  induction items as [|i items IH]; intros t; [cbn; lia|]. cbn [foldl length]. rewrite IH.
  unfold total, tally_add. destruct t, i; cbn; lia.
Qed.

Lemma tally_empty_pop q : tally_is_empty (tally q) = bool_decide (pop q = None).
Proof.
  destruct q as [v r s c t i b]. unfold tally_is_empty, tally, total, pop. cbn.
  repeat case_match; cbn [length]; try (rewrite bool_decide_eq_false_2 by done; apply Z.eqb_neq; lia).
  done.
Qed.

(** The loop runs to an empty queue or to its cap, within its fuel. *)
Lemma sweep_loop_runs max st0 : 0 <= max → sweep_inv [] [] [] st0 → ∀ fuel items fs os st,
  runs st0 items fs os st → max < Z.of_nat (length items) + Z.of_nat fuel →
  Z.of_nat (length items) <= max →
  returns (run_panics max st0) (sweep_loop excluded fuel max st) (λ r, ∃ items' fs' os',
    runs st0 items' fs' os' r.1 ∧ Z.of_nat (length items') <= max ∧
    (r.2 = false → pop (s_queue r.1) = None) ∧
    (r.2 = true → max <= Z.of_nat (length items') ∧ pop (s_queue r.1) ≠ None)).
Proof.
  intros Hmax H0. induction fuel as [|fuel IH]; intros items fs os st Hr Hf Hle; [lia|].
  cbn [sweep_loop]. pose proof (runs_inv _ _ _ _ _ H0 Hr) as Hinv.
  rewrite (inv_processed _ _ _ _ Hinv), total_tally, tally_empty_pop.
  destruct (max <=? Z.of_nat (length items)) eqn:E; zb.
  - exists items, fs, os. split; [done|]. split; [done|].
    split; [by intros ?%negb_false_iff%bool_decide_eq_true|].
    intros ?%negb_true_iff%bool_decide_eq_false. done.
  - destruct (pop (s_queue st)) as [[item q]|] eqn:Ep.
    + pose proof (process_inv _ _ _ _ _ _ Hinv Ep) as Hst.
      destruct (process excluded (take_item st item q) item) as [st'|] eqn:Es;
        [|by exists items, fs, os, st, item, q].
      rewrite outcome_bind_eq. apply (IH (items ++ [item]) _ _ _ (runs_step _ _ _ _ _ _ _ _ Hr Ep Es));
        rewrite length_app; cbn [length]; lia.
    + by exists items, fs, os.
Qed.

(** The loop goes where a run within its cap has been. *)
Lemma sweep_loop_follows max st0 items fs os st :
  sweep_inv [] [] [] st0 → runs st0 items fs os st → ∀ fuel, Z.of_nat (length items) <= max →
  sweep_loop excluded (length items + fuel) max st0 = sweep_loop excluded fuel max st.
Proof.
  intros H0. induction 1 as [|items fs os st item q st' Hr IH Hp Hs]; intros fuel Hle; [done|].
  rewrite length_app in *. cbn [length] in *. rewrite <- Nat.add_assoc, IH by lia. cbn [Nat.add sweep_loop].
  rewrite (inv_processed _ _ _ _ (runs_inv _ _ _ _ _ H0 Hr)), total_tally.
  destruct (max <=? Z.of_nat (length items)) eqn:E; zb; [lia|]. by rewrite Hp, Hs.
Qed.

Lemma run_panics_loop max st0 :
  sweep_inv [] [] [] st0 → run_panics max st0 → sweep_loop excluded (S (Z.to_nat max)) max st0 = Panic.
Proof.
  intros H0 (items & fs & os & st & item & q & Hr & Hlt & Hp & Ho).
  replace (S (Z.to_nat max)) with (length items + S (Z.to_nat max - length items))%nat by lia.
  rewrite (sweep_loop_follows _ _ _ _ _ _ H0 Hr) by lia. cbn [sweep_loop].
  rewrite (inv_processed _ _ _ _ (runs_inv _ _ _ _ _ H0 Hr)), total_tally.
  destruct (max <=? Z.of_nat (length items)) eqn:E; zb; [lia|].
  by rewrite Hp, (op_panics_process _ _ Ho).
Qed.

(** ** The records scanned *)

Lemma filter_iff_in {A} (P Q : A → Prop) `{!∀ x, Decision (P x), !∀ x, Decision (Q x)} (l : list A) :
  (∀ x, x ∈ l → P x ↔ Q x) → filter P l = filter Q l.
Proof.
  induction l as [|x l IH]; intros Hl; [done|]. rewrite !filter_cons, IH by (intros; apply Hl; by right).
  destruct (Hl x ltac:(by left)). repeat case_decide; tauto.
Qed.

(** What a step does to the marks: the scan of a record whose owner is not known to
    be excluded marks it, and nothing else marks any. *)
Lemma process_scanned st item st' j :
  store_wf (tl_records (s_list st)) → process excluded st item = Ret st' →
  (is_scanned (tl_records (s_list st')) j = true ↔
   is_scanned (tl_records (s_list st)) j = true ∨
   item = ScanTask j ∧ ∃ r, records (tl_records (s_list st)) !! j = Some r ∧
     excluded_owned (record_owner r) excluded = false) ∧
  s_unscanned st' = s_unscanned st +
    match item with
    | ScanTask id => match records (tl_records (s_list st)) !! id with
                     | Some r => if excluded_owned (record_owner r) excluded then 1 else 0
                     | None => 0
                     end
    | _ => 0
    end.
Proof.
  intros Hwf Hs.
  assert (∀ (l : TaskList) q, filed (tl_records (s_list st)) (tl_records l) →
    is_scanned (tl_records (take_scans q l).2) j = is_scanned (tl_records (s_list st)) j) as Htake.
  { intros l q Hf. by rewrite <- (filed_scanned _ _ j Hwf Hf). }
  destruct item; cbn [process] in Hs; unfold enumerated, scanned_task, harvested, validated in Hs.
  1-2: apply outcome_bind_Ret in Hs as ([w l] & Hf%enumerate_files & Hs); [|done];
    specialize (Htake l (s_queue st) Hf); destruct (take_scans _ _); injection Hs as <-; cbn in *;
    rewrite Htake, Z.add_0_r; naive_solver.
  2-4: apply outcome_bind_Ret in Hs as ([cs [w l]] & Hl%harvest_files & [= <-]); [|done]; cbn;
    rewrite Hl, Z.add_0_r; naive_solver.
  2: apply outcome_bind_Ret in Hs as ([os [w l]] & Hf%validate_files & Hs); [|done];
    destruct (schedule_all _ _ _ _) as [q sch]; specialize (Htake l q Hf);
    destruct (take_scans _ _); injection Hs as <-; cbn in *; rewrite Htake, Z.add_0_r; naive_solver.
  apply outcome_bind_Ret in Hs as (r & Hr%or_panic_Ret & Hs). rewrite Hr.
  destruct (excluded_owned (record_owner r) excluded) eqn:Ex.
  - injection Hs as <-. cbn. split; [|done]. split; [by left|].
    intros [?|(E & r' & Hr' & Hx)]; [done|]. injection E as ->. congruence.
  - apply outcome_bind_Ret in Hs as ([cs [[w l] b]] & Hm%scan_files & [= <-]); [|done|by eexists].
    cbn. split; [|lia]. rewrite (mark_scanned_scanned _ _ _ j Hm), orb_true_iff, bool_decide_eq_true.
    split; [intros [->|?]; [right; eauto|by left]|]. intros [?|(E & _)]; [by right|left].
    by injection E.
Qed.

Lemma scanned_in_snoc st0 items fs os st item q id :
  runs st0 items fs os st → pop (s_queue st) = Some (item, q) →
  scanned_in st0 (items ++ [item]) id ↔ scanned_in st0 items id ∨
    item = ScanTask id ∧ ∃ r, records (tl_records (s_list st)) !! id = Some r ∧
      excluded_owned (record_owner r) excluded = false.
Proof.
  intros Hr Hp. split.
  - intros (i1 & f1 & o1 & s1 & q1 & r & H1 & [k Hk] & Hpop & Hrec & Hex).
    destruct k as [|x k _] using rev_ind.
    + rewrite app_nil_r in Hk. apply app_inj_tail in Hk as [<- ->].
      destruct (runs_det _ _ _ _ _ _ _ _ Hr H1) as (_ & _ & <-). right. eauto.
    + rewrite app_assoc in Hk. apply app_inj_tail in Hk as [-> _]. left.
      exists i1, f1, o1, s1, q1, r. split; [done|]. split; [by apply prefix_app_r|done].
  - intros [(i1 & f1 & o1 & s1 & q1 & r & H1 & Hpre & H2)|(-> & r & Hrec & Hex)].
    + exists i1, f1, o1, s1, q1, r. split; [done|]. split; [|done]. by apply prefix_app_r.
    + by exists items, fs, os, st, q, r.
Qed.

(** The records scanned are the ones whose turn came while they were not known to be
    excluded, and the others are counted. *)
Lemma runs_scanned st0 items fs os st :
  sweep_inv [] [] [] st0 → (∀ id, is_scanned (tl_records (s_list st0)) id = false) → s_unscanned st0 = 0 →
  runs st0 items fs os st →
  (∀ id, is_scanned (tl_records (s_list st)) id = true ↔ scanned_in st0 items id) ∧
  s_unscanned st = Z.of_nat (length
    (filter (λ id, is_scanned (tl_records (s_list st)) id = false) (omap w_scan items))).
Proof.
  intros H0 Hnone Hzero. induction 1 as [|items fs os st item q st' Hr [IHs IHu] Hp Hs].
  { split; [|done]. intros id. rewrite Hnone. split; [done|].
    intros (items1 & ? & ? & ? & ? & ? & _ & Hpre & _). by apply prefix_nil_inv, app_eq_nil in Hpre as [_ ?]. }
  pose proof (runs_inv _ _ _ _ _ H0 Hr) as Hinv.
  pose proof (take_item_inv _ _ _ _ _ _ Hinv Hp) as Htake.
  pose proof (process_scanned (take_item st item q) item st') as Hps.
  cbn [take_item s_list s_unscanned] in Hps.
  split.
  { intros id. by rewrite (proj1 (Hps id (inv_wf _ _ _ _ Hinv) Hs)), IHs, (scanned_in_snoc _ _ _ _ _ _ _ _ Hr Hp). }
  rewrite (proj2 (Hps 0%nat (inv_wf _ _ _ _ Hinv) Hs)), IHu, omap_app, filter_app, length_app.
  assert (Hsame : ∀ id, item ≠ ScanTask id →
    (is_scanned (tl_records (s_list st')) id = false ↔ is_scanned (tl_records (s_list st)) id = false)).
  { intros id Hne. rewrite <- !not_true_iff_false, (proj1 (Hps id (inv_wf _ _ _ _ Hinv) Hs)). naive_solver. }
  assert (Hnew : ∀ id, item = ScanTask id → id ∉ omap w_scan items).
  { intros id -> Hin. destruct (inv_owes _ _ _ _ Htake) as (Hn & _).
    cbn [take_item s_queue accounted q_scans] in Hn. rewrite omap_app in Hn. cbn in Hn.
    rewrite <- !app_assoc in Hn. apply NoDup_app in Hn as (_ & Hn & _). apply (Hn id Hin). by left. }
  rewrite (filter_iff_in (λ id, is_scanned (tl_records (s_list st')) id = false)
    (λ id, is_scanned (tl_records (s_list st)) id = false) (omap w_scan items)).
  2: { intros x Hx. apply Hsame. intros ->. by apply (Hnew x). }
  destruct item as [o|o|id|o|o|o|c from]; cbn [omap list_omap w_scan];
    try (rewrite filter_nil; cbn [length]; lia).
  rewrite filter_cons, filter_nil.
  destruct (inv_owes _ _ _ _ Htake) as (_ & Hm & _).
  destruct (proj1 (Hm id)) as (r & Hrec & _).
  { rewrite (inv_taken _ _ _ _ Htake), app_nil_r. cbn. rewrite omap_app. cbn. set_solver. }
  cbn [take_item s_list] in Hrec. rewrite Hrec.
  assert (Hno : is_scanned (tl_records (s_list st)) id ≠ true).
  { rewrite IHs. intros (i1 & ? & ? & ? & ? & ? & _ & [k ->] & _). apply (Hnew id eq_refl).
    rewrite !omap_app. cbn. set_solver. }
  pose proof (proj1 (Hps id (inv_wf _ _ _ _ Hinv) Hs)) as Hid.
  destruct (excluded_owned (record_owner r) excluded) eqn:Ex; case_decide as Hd; cbn [length]; try lia.
  - exfalso. apply Hd, not_true_iff_false. rewrite Hid. naive_solver.
  - exfalso. apply not_true_iff_false in Hd. apply Hd, Hid. right. eauto.
Qed.
End sweep.
