(* ===== verification/WorkTheorems.v ===== *)
(** What the discovery sweep promises: it ends having given every item of work its turn
    once, and the scope it leaves is what the roots reach. *)

From S2P Require Import Prelude Text TaskGraph Schema Discovery Work DiscoveryFacts WorkFacts.

Local Open Scope Z_scope.

Lemma filter_length_le {A} (P Q : A → Prop) `{!∀ x, Decision (P x), !∀ x, Decision (Q x)} l :
  (∀ y, Q y → P y) → (length (filter Q l) ≤ length (filter P l))%nat.
Proof.
  intros Himp. induction l as [|y l IH]; [done|]. rewrite !filter_cons.
  destruct (decide (Q y)), (decide (P y)); cbn [length]; try lia. naive_solver.
Qed.

Lemma filter_length_lt {A} (P Q : A → Prop) `{!∀ x, Decision (P x), !∀ x, Decision (Q x)} l x :
  (∀ y, Q y → P y) → x ∈ l → P x → ¬ Q x → (length (filter Q l) < length (filter P l))%nat.
Proof.
  intros Himp Hx HP HQ. apply list_elem_of_split in Hx as (l1 & l2 & ->).
  rewrite !filter_app, !length_app, filter_cons_False, filter_cons_True by done. cbn [length].
  pose proof (filter_length_le P Q l1 Himp). pose proof (filter_length_le P Q l2 Himp). lia.
Qed.

Section scope.
Context (excluded : list Z) (s : TaskStore) (roots : Roots)
  (found_from : list (Origin * TaskRecordId)).

(** ** Reachability *)

Definition root_owners : list OwnerKey := root_runtimes roots ++ root_sets roots.

(** Who an owner's lists, queues and registries name, and whom an unexcluded
    task's storage and cell do. *)
Inductive names : Origin → Origin → Prop :=
  | names_source o id r src :
      records s !! id = Some r → src ∈ sources r → source_owner src = Some o →
      names (OOwner o) (OTask id)
  | names_registry o id : (OOwner o, id) ∈ found_from → names (OOwner o) (OTask id)
  | names_storage id r next :
      records s !! id = Some r → excluded_owned (record_owner r) excluded = false →
      (OTask id, next) ∈ found_from → names (OTask id) (OTask next)
  | names_cell id r c o :
      records s !! id = Some r → excluded_owned (record_owner r) excluded = false →
      c ∈ owner_claims r → cell_owner c = Some o → is_excluded o excluded = false →
      names (OTask id) (OOwner o).

Inductive reaches : Origin → Prop :=
  | reaches_root o : o ∈ root_owners → is_excluded o excluded = false → reaches (OOwner o)
  | reaches_next n m : reaches n → names n m → reaches m.

Lemma elem_of_links {K A} `{!EqDecision K} (k : K) (a : A) l : a ∈ links k l ↔ (k, a) ∈ l.
Proof.
  unfold links. rewrite list_elem_of_fmap. split.
  - intros ([k' a'] & -> & H). apply list_elem_of_filter in H as [Hk H]. cbn in *. by subst.
  - intros H. exists (k, a). split; [done|]. by apply list_elem_of_filter.
Qed.

Lemma elem_of_owner_tasks o id :
  (o, id) ∈ owner_tasks s found_from ↔ names (OOwner o) (OTask id).
Proof.
  unfold owner_tasks. rewrite elem_of_app, list_elem_of_join, list_elem_of_omap. split.
  - intros [(l & Hin & Hl)|([from id'] & Hin & Ho)].
    + apply list_elem_of_lookup_1 in Hl as [j Hj]. rewrite list_lookup_imap in Hj.
      destruct (records s !! j) as [r|] eqn:Er; [|done]. injection Hj as <-.
      unfold record_links in Hin. apply list_elem_of_fmap in Hin as (o' & [= -> ->] & Ho).
      apply list_elem_of_omap in Ho as (src & ? & ?). by eapply names_source.
    + unfold origin_owner in Ho. cbn in Ho. destruct from; simplify_eq. by apply names_registry.
  - intros H. inversion H as [? ? r src Hr Hs Ho|? ? Hin| |]; subst.
    + left. exists (record_links id r). split.
      * apply list_elem_of_fmap. exists o. split; [done|]. apply list_elem_of_omap. eauto.
      * apply list_elem_of_lookup. exists id. by rewrite list_lookup_imap, Hr.
    + right. by exists (OOwner o, id).
Qed.

Lemma elem_of_task_tasks id next : (id, next) ∈ task_tasks found_from ↔ (OTask id, next) ∈ found_from.
Proof.
  unfold task_tasks. rewrite list_elem_of_omap. split.
  - intros ([from x] & Hin & H). unfold origin_task in H. cbn in H. destruct from; by simplify_eq.
  - intros H. by exists (OTask id, next).
Qed.

(** ** The walk *)

Definition visited (st : Scope) (n : Origin) : Prop :=
  match n with
  | OOwner o => o ∈ reached_owners st
  | OTask id => reached_tasks st !! id = Some true
  end.

(** Every owner the walk can reach. *)
Definition candidates : list OwnerKey :=
  root_owners ++ mjoin ((λ r, c_owner <$> owner_claims r) <$> records s).

(** What the walk has left: nodes it has not seen and nodes it has queued. *)
Definition left_to_do (st : Scope) : nat :=
  length (filter (λ b, b = false) (reached_tasks st))
  + length (filter (λ o, o ∉ reached_owners st) candidates) + length (work st).

(** The nodes [ns] reached from [st]: seen, and queued where they are new. *)
Record adds (st st' : Scope) (ns : list Origin) : Prop := mkAdds {
  adds_visited : ∀ n, visited st' n ↔ visited st n ∨ n ∈ ns;
  adds_work : ∀ n, n ∈ work st' ↔ n ∈ work st ∨ (n ∈ ns ∧ ¬ visited st n);
  adds_length : length (reached_tasks st') = length (reached_tasks st);
  adds_nodup : NoDup (reached_owners st) → NoDup (reached_owners st');
  adds_left : (left_to_do st' ≤ left_to_do st)%nat
}.

Lemma adds_refl st : adds st st [].
Proof. split; try done; set_solver. Qed.

Lemma visited_dec st n : Decision (visited st n).
Proof. destruct n; cbn; apply _. Qed.

Lemma adds_trans st1 st2 st3 ns ms : adds st1 st2 ns → adds st2 st3 ms → adds st1 st3 (ns ++ ms).
Proof.
  intros [V1 W1 L1 N1 M1] [V2 W2 L2 N2 M2]. split; [| |congruence|auto|lia].
  - intros n. rewrite V2, V1, elem_of_app. tauto.
  - intros n. rewrite W2, W1, V1, elem_of_app. destruct (visited_dec st1 n); [tauto|].
    split; [tauto|]. intros [?|[[?|?] ?]]; [tauto..|].
    destruct (decide (n ∈ ns)); tauto.
Qed.

Lemma adds_owner st o :
  o ∈ candidates → adds st (reach_owner excluded st o) (if is_excluded o excluded then [] else [OOwner o]).
Proof.
  intros Hc. unfold reach_owner. destruct (is_excluded o excluded); cbn [orb]; [apply adds_refl|].
  case_bool_decide as Hin.
  - split; try done; intros n; rewrite list_elem_of_singleton.
    + split; [tauto|]. intros [?|Hn]; [done|]. by subst n.
    + split; [tauto|]. intros [?|[Hn Hv]]; [done|]. subst n. by destruct Hv.
  - split; cbn [reached_owners reached_tasks work].
    + intros n. rewrite list_elem_of_singleton. destruct n as [id|o']; cbn; [naive_solver|].
      rewrite elem_of_app, list_elem_of_singleton. naive_solver.
    + intros n. rewrite elem_of_app, !list_elem_of_singleton. split; [|tauto].
      intros [?|Hn]; [by left|]. right. subst n. done.
    + done.
    + intros Hn. apply NoDup_app. split; [done|]. split; [set_solver|apply NoDup_singleton].
    + unfold left_to_do. cbn [reached_owners reached_tasks work]. rewrite length_app. cbn [length].
      pose proof (filter_length_lt (λ x, x ∉ reached_owners st)
        (λ x, x ∉ reached_owners st ++ [o]) candidates o) as Hlt.
      enough (length (filter (λ x, x ∉ reached_owners st ++ [o]) candidates)
              < length (filter (λ x, x ∉ reached_owners st) candidates))%nat by lia.
      apply Hlt; [set_solver..|]. intros Hno. apply Hno. set_solver.
Qed.

Lemma adds_task st id :
  (id < length (reached_tasks st))%nat →
  ∃ st', reach_task (Ret st) id = Ret st' ∧ adds st st' [OTask id].
Proof.
  intros Hid. unfold reach_task. rewrite outcome_bind_eq.
  destruct (lookup_lt_is_Some_2 (reached_tasks st) id Hid) as [[] Hb]; rewrite Hb; cbn [or_panic];
    rewrite outcome_bind_eq.
  - exists st. split; [done|]. split; try done; intros n; rewrite list_elem_of_singleton.
    + split; [tauto|]. intros [?|Hn]; [done|]. by subst n.
    + split; [tauto|]. intros [?|[Hn Hv]]; [done|]. subst n. by destruct Hv.
  - eexists. split; [done|]. split; cbn [reached_owners reached_tasks work].
    + intros n. rewrite list_elem_of_singleton. destruct n as [j|o]; cbn; [|naive_solver].
      destruct (decide (j = id)) as [->|Hne].
      * rewrite list_lookup_insert_eq by done. tauto.
      * rewrite list_lookup_insert_ne by done. naive_solver.
    + intros n. rewrite elem_of_app, !list_elem_of_singleton. split; [|tauto].
      intros [?|Hn]; [by left|]. right. subst n. split; [done|]. cbn. by rewrite Hb.
    + by rewrite length_insert.
    + done.
    + unfold left_to_do. cbn [reached_owners reached_tasks work]. rewrite length_app. cbn [length].
      enough (length (filter (λ b, b = false) (<[id:=true]> (reached_tasks st)))
              < length (filter (λ b, b = false) (reached_tasks st)))%nat by lia.
      rewrite (insert_take_drop _ _ _ Hid).
      assert (length (filter (λ b, b = false) (reached_tasks st))
        = length (filter (λ b, b = false)
            (take id (reached_tasks st) ++ false :: drop (S id) (reached_tasks st)))) as ->
        by by rewrite (take_drop_middle _ _ _ Hb).
      rewrite !filter_app, !length_app, filter_cons_False, filter_cons_True by done. cbn [length]. lia.
Qed.

Lemma adds_tasks ids : ∀ st,
  (∀ id, id ∈ ids → (id < length (reached_tasks st))%nat) →
  ∃ st', foldl reach_task (Ret st) ids = Ret st' ∧ adds st st' (OTask <$> ids).
Proof.
  induction ids as [|id ids IH]; intros st Hids.
  - exists st. split; [done|apply adds_refl].
  - cbn [foldl]. destruct (adds_task st id) as (st1 & -> & H1); [apply Hids; by left|].
    destruct (IH st1) as (st2 & -> & H2).
    { intros x Hx. rewrite (adds_length _ _ _ H1). apply Hids. by right. }
    exists st2. split; [done|]. by apply (adds_trans _ _ _ _ _ H1 H2).
Qed.

Definition open_owners (os : list OwnerKey) : list Origin :=
  OOwner <$> filter (λ o, is_excluded o excluded = false) os.

Lemma adds_owners os : ∀ st,
  (∀ o, o ∈ os → o ∈ candidates) → adds st (foldl (reach_owner excluded) st os) (open_owners os).
Proof.
  induction os as [|o os IH]; intros st Hos; [apply adds_refl|]. cbn [foldl].
  pose proof (adds_owner st o (Hos o ltac:(by left))) as H1.
  pose proof (IH (reach_owner excluded st o) ltac:(intros x Hx; apply Hos; by right)) as H2.
  pose proof (adds_trans _ _ _ _ _ H1 H2) as H. unfold open_owners. rewrite filter_cons.
  destruct (is_excluded o excluded); case_decide; done.
Qed.

Lemma elem_of_open_owners o os :
  OOwner o ∈ open_owners os ↔ o ∈ os ∧ is_excluded o excluded = false.
Proof.
  unfold open_owners. rewrite list_elem_of_fmap. setoid_rewrite list_elem_of_filter. naive_solver.
Qed.

(** ** One step *)

(** The found records are the store's. *)
Context (Hfound : ∀ f, f ∈ found_from → is_Some (records s !! f.2)).

Lemma names_task_lt n id : names n (OTask id) → (id < length (records s))%nat.
Proof.
  intros H. inversion H; subst; try by eapply lookup_lt_Some.
  - eapply lookup_lt_is_Some. by apply (Hfound (OOwner o, id)).
  - eapply lookup_lt_is_Some. by apply (Hfound (OTask id0, id)).
Qed.

Lemma cell_owner_candidate id r c o :
  records s !! id = Some r → c ∈ owner_claims r → cell_owner c = Some o → o ∈ candidates.
Proof.
  intros Hr Hc Ho. apply elem_of_app. right. apply list_elem_of_join.
  exists (c_owner <$> owner_claims r). split.
  - apply list_elem_of_fmap. exists c. split; [|done]. unfold cell_owner in Ho.
    destruct (evidence c); by simplify_eq.
  - apply list_elem_of_fmap. exists r. split; [done|]. by eapply list_elem_of_lookup_2.
Qed.

Lemma scope_step_adds node st :
  length (reached_tasks st) = length (records s) →
  (∀ id, node = OTask id → is_Some (records s !! id)) →
  ∃ st' ns, scope_step excluded s found_from node st = Ret st' ∧ adds st st' ns ∧
    ∀ n, n ∈ ns ↔ names node n.
Proof.
  intros Hlen Hnode. destruct node as [id|o]; cbn [scope_step].
  - destruct (Hnode id eq_refl) as [r Hr]. unfold record. rewrite Hr. cbn [or_panic].
    rewrite outcome_bind_eq. destruct (excluded_owned (record_owner r) excluded) eqn:Ex.
    + exists st, []. split; [done|]. split; [apply adds_refl|].
      intros n. split; [set_solver|]. intros H. inversion H; subst; simplify_eq; congruence.
    + destruct (adds_tasks (links id (task_tasks found_from)) st) as (st1 & -> & H1).
      { intros x Hx%elem_of_links%elem_of_task_tasks. rewrite Hlen.
        eapply names_task_lt. by eapply names_storage. }
      rewrite outcome_bind_eq.
      pose proof (adds_owners (omap cell_owner (owner_claims r)) st1) as H2.
      eexists. exists ((OTask <$> links id (task_tasks found_from))
        ++ open_owners (omap cell_owner (owner_claims r))). split; [done|]. split.
      * apply (adds_trans _ _ _ _ _ H1), H2. intros o Ho.
        apply list_elem_of_omap in Ho as (c & ? & ?). by eapply cell_owner_candidate.
      * intros n. rewrite elem_of_app. split.
        -- intros [Hn|Hn].
           ++ apply list_elem_of_fmap in Hn as (x & -> & Hx%elem_of_links%elem_of_task_tasks).
              by eapply names_storage.
           ++ pose proof Hn as Hn'. apply list_elem_of_fmap in Hn' as (o & -> & _).
              apply elem_of_open_owners in Hn as [Ho ?].
              apply list_elem_of_omap in Ho as (c & ? & ?). by eapply names_cell.
        -- intros H. inversion H as [| |? ? next Hr' _ Hin|? ? c o Hr' _ Hc Ho He]; simplify_eq.
           ++ left. apply list_elem_of_fmap. exists next. split; [done|].
              by apply elem_of_links, elem_of_task_tasks.
           ++ right. apply elem_of_open_owners. split; [|done]. apply list_elem_of_omap. eauto.
  - destruct (adds_tasks (links o (owner_tasks s found_from)) st) as (st1 & -> & H1).
    { intros x Hx%elem_of_links%elem_of_owner_tasks. rewrite Hlen. by eapply names_task_lt. }
    exists st1, (OTask <$> links o (owner_tasks s found_from)). split; [done|]. split; [done|].
    intros n. split.
    + intros Hn. apply list_elem_of_fmap in Hn as (x & -> & Hx%elem_of_links).
      by apply elem_of_owner_tasks.
    + intros H. destruct n as [x|o']; [|by inversion H]. apply list_elem_of_fmap.
      exists x. split; [done|]. by apply elem_of_links, elem_of_owner_tasks.
Qed.

(** ** The walk's invariant *)

Record scope_inv (st : Scope) : Prop := mkScopeInv {
  si_length : length (reached_tasks st) = length (records s);
  si_nodup : NoDup (reached_owners st);
  si_sound : ∀ n, visited st n → reaches n;
  si_roots : ∀ o, o ∈ root_owners → is_excluded o excluded = false → visited st (OOwner o);
  si_work : ∀ n, n ∈ work st → visited st n;
  si_closed : ∀ n m, visited st n → n ∉ work st → names n m → visited st m
}.

(** What the walk starts from. *)
Definition scope_start : Scope :=
  foldl (reach_owner excluded) (mkScope [] (replicate (length (records s)) false) []) root_owners.

Lemma scope_start_adds :
  adds (mkScope [] (replicate (length (records s)) false) []) scope_start
    (open_owners root_owners).
Proof. apply adds_owners. intros o Ho. apply elem_of_app. by left. Qed.

Lemma scope_start_inv : scope_inv scope_start.
Proof.
  destruct scope_start_adds as [V Wk L N _].
  set (st0 := mkScope [] (replicate (length (records s)) false) []) in *.
  assert (Hnone : ∀ n, ¬ visited st0 n).
  { intros [id|o]; cbn; [|set_solver]. intros H.
    apply lookup_replicate in H as [? _]. done. }
  split.
  - by rewrite L; cbn; rewrite length_replicate.
  - apply N. constructor.
  - intros n Hn. apply V in Hn as [Hn|Hn]; [by apply Hnone in Hn|].
    pose proof Hn as Hn'. apply list_elem_of_fmap in Hn' as (o & -> & _).
    apply elem_of_open_owners in Hn as [? ?]. by apply reaches_root.
  - intros o Ho He. apply V. right. by apply elem_of_open_owners.
  - intros n Hn. apply V. apply Wk in Hn as [Hn|[Hn _]]; [set_solver|by right].
  - intros n m Hn Hw. destruct Hw. apply Wk. apply V in Hn as [Hn|Hn]; [by apply Hnone in Hn|].
    right. split; [done|]. apply Hnone.
Qed.

Lemma scope_start_left : (left_to_do scope_start ≤ scope_fuel s roots)%nat.
Proof.
  etransitivity; [apply scope_start_adds|]. unfold left_to_do, scope_fuel, candidates, root_owners.
  cbn [reached_tasks reached_owners work length].
  assert (∀ A (P : A → Prop) `{!∀ x, Decision (P x)} l, (length (filter P l) ≤ length l)%nat)
    as Hle by (intros; apply length_filter).
  etransitivity; [apply Nat.add_le_mono_r, Nat.add_le_mono; apply Hle|].
  rewrite length_replicate, !length_app, length_join.
  enough (sum_list (length <$> ((λ r, c_owner <$> owner_claims r) <$> records s))
          = sum_list_with (λ r, length (owner_claims r)) (records s)) as -> by lia.
  clear. induction (records s) as [|r l IH]; [done|]. simpl. rewrite length_fmap. f_equal. apply IH.
Qed.

Lemma scope_step_inv node rest st :
  scope_inv st → work st = node :: rest →
  ∃ st', scope_step excluded s found_from node
           (mkScope (reached_owners st) (reached_tasks st) rest) = Ret st' ∧
    scope_inv st' ∧ (left_to_do st' < left_to_do st)%nat.
Proof.
  intros [Hlen Hnd Hsound Hroots Hwork Hclosed] Ew.
  set (st1 := mkScope _ _ rest). assert (Hv : ∀ n, visited st1 n ↔ visited st n) by by intros [].
  assert (Hnode : visited st node) by (apply Hwork; rewrite Ew; by left).
  destruct (scope_step_adds node st1) as (st' & ns & Hs & [V Wk L N M] & Hns); [done| |].
  { intros id ->. cbn in Hnode. apply lookup_lt_is_Some. rewrite <- Hlen.
    by eapply lookup_lt_Some. }
  exists st'. split; [done|]. split; [split|].
  - by rewrite L.
  - by apply N.
  - intros n Hn. apply V in Hn as [Hn%Hv|Hn%Hns]; [auto|]. by apply (reaches_next node); auto.
  - intros o Ho He. apply V. left. by apply Hv, Hroots.
  - intros n Hn. apply V. apply Wk in Hn as [Hn|[Hn _]]; [|by right]. left. apply Hv, Hwork.
    rewrite Ew. by right.
  - intros n m Hn Hw Hnm. apply V. destruct (visited_dec st1 n) as [H1|H1].
    + destruct (decide (n = node)) as [->|Hne]; [right; by apply Hns|]. left. apply Hv.
      apply Hv in H1. apply (Hclosed n m H1); [|done]. rewrite Ew, elem_of_cons.
      intros [?|Hr]; [done|]. apply Hw, Wk. by left.
    + destruct Hw. apply Wk. right. split; [|done]. by apply V in Hn as [?|?].
  - assert (left_to_do st = S (left_to_do st1)) as ->; [|lia].
    unfold left_to_do. rewrite Ew. cbn. lia.
Qed.

(** The walk ends, having seen exactly what the roots reach. *)
Lemma scope_loop_exact fuel : ∀ st,
  scope_inv st → (left_to_do st ≤ fuel)%nat →
  ∃ st', scope_loop excluded fuel s found_from st = Ret st' ∧
    length (reached_tasks st') = length (records s) ∧ NoDup (reached_owners st') ∧
    ∀ n, visited st' n ↔ reaches n.
Proof.
  induction fuel as [|fuel IH]; intros st Hst Hf; cbn [scope_loop];
    destruct (work st) as [|node rest] eqn:Ew.
  2: { exfalso. unfold left_to_do in Hf. rewrite Ew in Hf. cbn in Hf. lia. }
  3: { destruct (scope_step_inv node rest st Hst Ew) as (st' & -> & Hst' & Hlt).
       rewrite outcome_bind_eq. apply IH; [done|lia]. }
  all: exists st; destruct Hst as [Hlen Hnd Hsound Hroots Hwork Hclosed];
    do 3 (split; [done|]); intros n; (split; [apply Hsound|]);
    induction 1 as [o|n m _ IHn Hnm]; [by apply Hroots|apply (Hclosed n m); [done| |done]];
    rewrite Ew; set_solver.
Qed.
End scope.

(** ** The scopes set *)

Definition set_scope_step (s : outcome TaskStore) (p : TaskRecordId * bool) : outcome TaskStore :=
  s ← s; set_scope s p.1 p.2.

Lemma set_scopes_tail reached : ∀ s front todo,
  records s = front ++ todo → length todo = length reached →
  foldl set_scope_step (Ret s) (imap (λ i, pair (length front + i)%nat) reached)
  = Ret (mkStore (by_addr s) (front ++ zip_with with_scope todo reached) (scannable s)).
Proof.
  induction reached as [|b reached IH]; intros s front todo Hs Hl.
  - destruct todo; [|done]. cbn. by destruct s; cbn in *; subst.
  - destruct todo as [|r todo]; [done|]. injection Hl as Hl. cbn [imap foldl].
    unfold set_scope_step at 2. rewrite outcome_bind_eq. unfold set_scope, record. cbn [fst snd].
    rewrite Nat.add_0_r, Hs, list_lookup_middle by done. cbn [or_panic]. rewrite outcome_bind_eq.
    specialize (IH (set_record s (length front) (with_scope r b)) (front ++ [with_scope r b]) todo).
    rewrite length_app in IH. cbn [length] in IH.
    erewrite imap_ext; [rewrite IH|]; cbn [set_record records by_addr scannable zip_with]; try done.
    + by rewrite <- app_assoc.
    + rewrite Hs, insert_app_r_alt, Nat.sub_diag by lia. cbn. by rewrite <- app_assoc.
    + intros i x _. cbn. f_equal. lia.
Qed.

Lemma set_scopes_spec s reached :
  length reached = length (records s) →
  set_scopes s reached
  = Ret (mkStore (by_addr s) (zip_with with_scope (records s) reached) (scannable s)).
Proof. intros H. by apply (set_scopes_tail reached s [] (records s)). Qed.

(** ** The scope *)

Lemma elem_of_project s excluded t :
  t ∈ project s excluded ↔
  ∃ r, r ∈ records s ∧ resident r = true ∧ in_scope r = true ∧ t = record_task r ∧
    selected excluded t = true.
Proof.
  unfold project. rewrite (sort_by_perm _ _), list_elem_of_filter, list_elem_of_fmap.
  setoid_rewrite list_elem_of_filter. setoid_rewrite andb_true_iff. naive_solver.
Qed.

(** The rows of records scoped by what is reached. *)
Lemma project_scoped excluded s s' (reached : TaskRecordId → Prop) :
  length (records s') = length (records s) →
  (∀ id r, records s !! id = Some r →
     ∃ b, records s' !! id = Some (with_scope r b) ∧ (b = true ↔ reached id)) →
  ∀ t, t ∈ project s' excluded ↔
    ∃ id r, records s !! id = Some r ∧ resident r = true ∧ reached id ∧
      t = record_task r ∧ selected excluded t = true.
Proof.
  intros Hlen Hrec t. rewrite elem_of_project. split.
  - intros (x & Hx & Hres & Hsc & -> & Hsel). apply list_elem_of_lookup_1 in Hx as [id Hx].
    destruct (lookup_lt_is_Some_2 (records s) id) as [r Hr].
    { rewrite <- Hlen. by eapply lookup_lt_Some. }
    destruct (Hrec id r Hr) as (b & Hx' & Hb). rewrite Hx in Hx'. injection Hx' as ->.
    exists id, r. split; [done|]. split; [done|]. split; [by apply Hb|]. done.
  - intros (id & r & Hr & Hres & Hreach & -> & Hsel).
    destruct (Hrec id r Hr) as (b & Hx & Hb). apply Hb in Hreach as ->.
    exists (with_scope r true). split; [by eapply list_elem_of_lookup_2|]. done.
Qed.

(** The walk over a list's records returns, and marks what it reached. *)
Lemma apply_scope_returns (excluded : list Z) (l : TaskList) (roots : Roots)
    (found_from : list (Origin * TaskRecordId)) :
  (∀ f, f ∈ found_from → is_Some (records (tl_records l) !! f.2)) →
  ∃ os s', apply_scope excluded l roots found_from = Ret (os, with_records l s') ∧
    let reaches := reaches excluded (tl_records l) roots found_from in
    NoDup os ∧ (∀ o, o ∈ os ↔ reaches (OOwner o)) ∧
    by_addr s' = by_addr (tl_records l) ∧ length (records s') = length (records (tl_records l)) ∧
    ∀ id r, records (tl_records l) !! id = Some r →
      ∃ b, records s' !! id = Some (with_scope r b) ∧ (b = true ↔ reaches (OTask id)).
Proof.
  intros Hf. unfold apply_scope.
  destruct (scope_loop_exact excluded _ roots found_from Hf (scope_fuel (tl_records l) roots)
    (scope_start excluded (tl_records l) roots)) as (st & E & Hlen & Hnd & Hv).
  { by apply scope_start_inv. }
  { by apply scope_start_left. }
  unfold scope_start, root_owners in E. rewrite E, outcome_bind_eq, set_scopes_spec by done.
  rewrite outcome_bind_eq. eexists _, _. split; [done|]. cbn [records by_addr]. split; [done|].
  split; [intros o; exact (Hv (OOwner o))|]. split; [done|].
  split; [rewrite length_zip_with; lia|].
  intros id r Hr. destruct (lookup_lt_is_Some_2 (reached_tasks st) id) as [b Hb].
  { rewrite Hlen. by eapply lookup_lt_Some. }
  exists b. rewrite lookup_zip_with, Hr, Hb. split; [done|]. rewrite <- Hv. cbn. rewrite Hb.
  naive_solver.
Qed.

(** C24: the scope of a selection is reachability.  From the roots, an owner names
    every record its list or queue carries and its registries found, and a task
    no excluded runtime owns names what its storage found and the unexcluded
    owners its cell was validated against.  Over any records the walk ends
    without a panic; it returns each reached owner once, marks a record in scope
    exactly when it is reached, changes nothing else, and the rows then shown are
    the resident records reached, less those an excluded runtime owns. *)
Theorem scope_exact (excluded : list Z) (l : TaskList) (roots : Roots)
    (found_from : list (Origin * TaskRecordId)) :
  (∀ f, f ∈ found_from → is_Some (records (tl_records l) !! f.2)) →
  ∃ os s', apply_scope excluded l roots found_from = Ret (os, with_records l s') ∧
    let reaches := reaches excluded (tl_records l) roots found_from in
    NoDup os ∧ (∀ o, o ∈ os ↔ reaches (OOwner o)) ∧
    by_addr s' = by_addr (tl_records l) ∧ length (records s') = length (records (tl_records l)) ∧
    (∀ id r, records (tl_records l) !! id = Some r →
       ∃ b, records s' !! id = Some (with_scope r b) ∧ (b = true ↔ reaches (OTask id))) ∧
    ∀ t, t ∈ project s' excluded ↔
      ∃ id r, records (tl_records l) !! id = Some r ∧ resident r = true ∧ reaches (OTask id) ∧
        t = record_task r ∧ selected excluded t = true.
Proof.
  intros Hf. destruct (apply_scope_returns excluded l roots found_from Hf)
    as (os & s' & E & Hnd & Hos & Hby & Hlen & Hrec).
  exists os, s'. repeat (split; [done|]). intros t. by apply project_scoped.
Qed.

(** ** The sweep *)

Lemma sched_ok_start rts : sched_ok rts queue_default [].
Proof. split; by try constructor. Qed.

Lemma sweep_start_inv {W} `{!DiscoveryWorld W} excluded (w : W) l roots lim :
  filed store_new (tl_records l) →
  sweep_inv excluded (root_runtimes roots) (root_runtimes roots ++ root_sets roots) [] [] []
    (sweep_start excluded w l roots lim).
Proof.
  intros Hf. destruct (filed_keeps _ _ store_wf_new Hf) as (Hwf & Ho & _).
  unfold sweep_start, take_scans.
  destruct (schedule_all excluded false (root_runtimes roots) (queue_default, [])) as [q1 sch1] eqn:E1.
  destruct (schedule_all_ok excluded (root_runtimes roots) false (root_runtimes roots) _ _ _ _
    (sched_ok_start _) (λ o Ho, Ho) E1) as (Hok1 & Hv1 & Hs1 & H1).
  destruct (schedule_all excluded true (root_sets roots) (q1, sch1)) as [q2 sch2] eqn:E2.
  destruct (schedule_all_ok excluded (root_runtimes roots) true (root_sets roots) _ _ _ _ Hok1
    ltac:(intros o ??; apply H1; by right) E2) as (Hok2 & Hv2 & Hs2 & H2).
  cbn in Hs1, Hv1. cbn. split; cbn; try done.
  - rewrite Hs2, Hs1. by apply (owes_taken _ []), Ho, owes_new.
  - by rewrite Hv2, Hv1.
  - destruct Hok2. by split.
  - intros o. rewrite H2, H1, elem_of_app, !elem_of_nil. tauto.
  - set_solver.
  - set_solver.
Qed.

Lemma pop_None q : pop q = None → q = queue_default.
Proof. destruct q as [v r s c t i b]. unfold pop. repeat case_match; simplify_eq; done. Qed.

Lemma accounted_done items q :
  pop q = None →
  accounted items q =
  mkQueue (omap w_validation items) (omap w_runtime items) (omap w_set items) (omap w_scan items)
    (omap w_timers items) (omap w_io items) (omap w_queue items).
Proof. intros ->%pop_None. unfold accounted. cbn. by rewrite !app_nil_r. Qed.

(** The work of a sweep that ran out of it: every item had its turn, once.  What a scan's
    turn did is [sw_scanned]. *)
Record exhausted (excluded : list Z) (roots : Roots) (items : list DiscoveryWork)
    (fs : list (Candidate * Origin)) (os : list OwnerKey) (s : TaskStore) : Prop := mkExhausted {
  (** The owners are the roots and the owners a find admitted, less the excluded
      ones. *)
  ex_owners : ∃ owners, NoDup owners ∧
    (∀ o, o ∈ owners ↔
       (o ∈ root_runtimes roots ++ root_sets roots ∨ o ∈ os) ∧ is_excluded o excluded = false) ∧
    omap w_timers items ≡ₚ filter (λ o, is_rt o = true) owners ∧
    omap w_io items ≡ₚ filter (λ o, is_rt o = true) owners ∧
    omap w_queue items ≡ₚ filter (λ o, is_rt o = true) owners ∧
    omap w_set items ≡ₚ filter (λ o, is_rt o = false) owners ∧
    omap w_runtime items ≡ₚ filter (λ o, is_rt o = true ∧ o ∉ root_runtimes roots) owners;
  ex_scans_once : NoDup (omap w_scan items);
  ex_scans : ∀ id, id ∈ omap w_scan items ↔ ∃ r, records s !! id = Some r ∧ resident r = true;
  ex_validations : omap w_validation items = fs
}.

Lemma sweep_inv_exhausted {W} `{!DiscoveryWorld W} excluded roots items fs os (st : SweepState W) :
  sweep_inv excluded (root_runtimes roots) (root_runtimes roots ++ root_sets roots) items fs os st →
  pop (s_queue st) = None →
  exhausted excluded roots items fs os (tl_records (s_list st)).
Proof.
  intros [_ Ht (Hn & Hm & _) Hv [] Hsch _ _ _] Hp.
  rewrite (accounted_done _ _ Hp) in *. rewrite Ht, app_nil_r in *. cbn in *.
  split; [|done..]. exists (s_scheduled st). do 2 (split; [done|]). done.
Qed.

(** A sweep that returned: a run of the queue's items within the cap, whose scope is
    applied, and which either stopped at the cap with work left or left none. *)
Record swept {W} `{!DiscoveryWorld W} (excluded : list Z) (w : W) (l : TaskList) (roots : Roots)
    (lim : ScanLimits) (out : SweepOutcome) (w' : W) (l' : TaskList) (items : list DiscoveryWork)
    (fs : list (Candidate * Origin)) (os : list OwnerKey) (st : SweepState W) : Prop := mkSwept {
  sw_world : w' = s_world st;
  sw_runs : runs excluded (sweep_start excluded w l roots lim) items fs os st;
  sw_total : total (processed out) = Z.of_nat (length items);
  sw_processed : processed out = foldl tally_add tally_zero items;
  sw_cap : total (processed out) <= max_work_items lim;
  sw_remaining : remaining out = tally (s_queue st);
  (** The records scanned are the ones whose turn came while no excluded runtime was
      known to own them; the turns of the others are counted. *)
  sw_scanned id : is_scanned (tl_records (s_list st)) id = true ↔
    scanned_in excluded (sweep_start excluded w l roots lim) items id;
  sw_unscanned : unscanned_excluded out = Z.of_nat (length
    (filter (λ id, is_scanned (tl_records (s_list st)) id = false) (omap w_scan items)));
  sw_scope : apply_scope excluded (s_list st) roots (s_found_from st) = Ret (reached out, l');
  sw_end : if capped out then total (processed out) = max_work_items lim ∧ total (remaining out) ≠ 0
    else total (remaining out) = 0 ∧ exhausted excluded roots items fs os (tl_records (s_list st))
}.

(** The operation whose panic the sweep's is. *)
Definition sweep_panics {W} `{!DiscoveryWorld W} (excluded : list Z) (w : W) (l : TaskList)
    (roots : Roots) (lim : ScanLimits) : Prop :=
  run_panics excluded (max_work_items lim) (sweep_start excluded w l roots lim).

Lemma sweep_start_unscanned {W} `{!DiscoveryWorld W} excluded (w : W) l roots lim :
  filed store_new (tl_records l) →
  (∀ id, is_scanned (tl_records (s_list (sweep_start excluded w l roots lim))) id = false) ∧
  s_unscanned (sweep_start excluded w l roots lim) = 0.
Proof.
  intros Hf. unfold sweep_start, take_scans. cbn.
  destruct (schedule_all _ _ _ _) as [q sch]. split; [|done]. intros id. exact (filed_scanned _ _ id store_wf_new Hf).
Qed.

Lemma sweep_returns {W} `{!DiscoveryWorld W, !LawfulWorld W} (excluded : list Z)
    (w : W) (l : TaskList) (roots : Roots) (lim : ScanLimits) :
  filed store_new (tl_records l) → 0 <= max_work_items lim →
  returns (sweep_panics excluded w l roots lim) (sweep excluded w l roots lim) (λ r, ∃ items fs os st,
    swept excluded w l roots lim r.1 r.2.1 r.2.2 items fs os st).
Proof.
  intros Hf Hmax. pose proof (sweep_start_inv excluded w l roots lim Hf) as H0.
  pose proof (sweep_loop_runs excluded (root_runtimes roots) (root_runtimes roots ++ root_sets roots)
    (max_work_items lim) (sweep_start excluded w l roots lim) Hmax H0
    (S (Z.to_nat (max_work_items lim))) [] [] [] _ (runs_start _ _) ltac:(cbn; lia) ltac:(cbn; lia)) as Hl.
  unfold sweep. destruct (sweep_loop _ _ _ _) as [[st c]|] eqn:E; [|done]. rewrite outcome_bind_eq.
  destruct Hl as (items & fs & os & Hr & Hle & Hdone & Hcap). cbn in Hr, Hdone, Hcap.
  pose proof (runs_inv _ _ _ _ _ _ _ _ H0 Hr) as Hinv.
  destruct (apply_scope_returns excluded (s_list st) roots (s_found_from st) (inv_found _ _ _ _ _ _ _ Hinv))
    as (reached & s' & Es & _).
  pose proof (inv_processed _ _ _ _ _ _ _ Hinv) as Hproc.
  pose proof (tally_empty_pop (s_queue st)) as Hte. unfold tally_is_empty in Hte.
  destruct (sweep_start_unscanned excluded w l roots lim Hf) as [Hnone Hzero].
  destruct (runs_scanned excluded _ _ _ _ _ _ _ H0 Hnone Hzero Hr) as [Hscan Hun].
  rewrite Es, outcome_bind_eq. exists items, fs, os, st.
  split; cbn [processed remaining capped Work.reached fst snd]; rewrite ?Hproc, ?total_tally; try done.
  destruct c.
  - destruct (Hcap eq_refl) as [Hge Hne]. split; [lia|].
    rewrite bool_decide_eq_false_2 in Hte by done. by apply Z.eqb_neq.
  - specialize (Hdone eq_refl). rewrite bool_decide_eq_true_2 in Hte by done.
    split; [by apply Z.eqb_eq|]. by apply sweep_inv_exhausted.
Qed.

Lemma sweep_panics_panic {W} `{!DiscoveryWorld W, !LawfulWorld W} (excluded : list Z)
    (w : W) (l : TaskList) (roots : Roots) (lim : ScanLimits) :
  filed store_new (tl_records l) → sweep_panics excluded w l roots lim →
  sweep excluded w l roots lim = Panic.
Proof.
  intros Hf Hp. unfold sweep.
  by rewrite (run_panics_loop _ _ _ _ _ (sweep_start_inv excluded w l roots lim Hf) Hp).
Qed.

(** C4: the sweep always ends and leaves nothing undone.  Over any world that files
    through the store, from records so filed, the sweep panics exactly where a run of
    its own items, within the cap, comes to an item whose operation of the world
    panics in the state reached.  Otherwise it returns, a run of the queue's items
    whose number is what the outcome counts and is within the item cap.  The records
    scanned are exactly the ones whose scan's turn came while no excluded runtime was
    known to own them, and the scans whose record was left unscanned are the ones
    the outcome counts.  When the sweep stops at the cap, it did exactly that many items
    and says what is left; otherwise the scan of every resident record had its turn once,
    every find was validated once, in the order found, and every root or admitted owner
    that is not excluded had its list enumerated (a root runtime's was before) and its
    registries harvested once. *)
Theorem sweep_exhaustive {W} `{!DiscoveryWorld W, !LawfulWorld W} (excluded : list Z)
    (w : W) (l : TaskList) (roots : Roots) (lim : ScanLimits) :
  filed store_new (tl_records l) → 0 <= max_work_items lim →
  match sweep excluded w l roots lim with
  | Panic => sweep_panics excluded w l roots lim
  | Ret (out, (w', l')) => ¬ sweep_panics excluded w l roots lim ∧
      ∃ items fs os st, swept excluded w l roots lim out w' l' items fs os st
  end.
Proof.
  intros Hf Hmax. pose proof (sweep_returns excluded w l roots lim Hf Hmax) as H. unfold returns in H.
  destruct (sweep excluded w l roots lim) as [[out [w' l']]|] eqn:E; [|done]. split; [|done].
  intros Hp. by rewrite (sweep_panics_panic _ _ _ _ _ Hf Hp) in E.
Qed.

(** ** A world of three tasks

    A runtime's list holds the task at 32, whose storage names the task at 64,
    whose cell names a local set, whose list holds the task at 96. *)

Definition small_runtime : OwnerKey := Runtime MultiThread 4096.
Definition small_set : OwnerKey := LocalSet 512.

Definition small_header (a : Z) : DecodedTaskHeader :=
  mkHeader a 4 (Some 7) (Some a) None 8192 64 (FUnknown None).

Definition small_reference (a root : Z) : TaskReference :=
  mkReference a JoinHandle None (Some root) [].

(** The store after an observation, or as it was. *)
Definition small_file (l : TaskList) (a : Z) (o : Observation) : TaskList :=
  match observe (tl_records l) (small_header a) o with
  | Ret (_, s) => with_records l s
  | Panic => l
  end.

Lemma small_file_filed l a o : filed (tl_records l) (tl_records (small_file l a o)).
Proof.
  unfold small_file. destruct (observe _ _ _) as [[e s]|] eqn:E; [|by constructor].
  apply rtc_once. by eapply files_observe.
Qed.

Definition listed_in (owner : OwnerKey) (a : Z) : Observation :=
  mkObservation (OwnedList owner a) None (Some (mkClaim owner (EOwnedList a 7))).

#[global] Instance small_world : DiscoveryWorld unit := {
  enumerate o w l :=
    Ret (w, if bool_decide (o = small_set) then small_file l 96 (listed_in small_set 96) else l);
  scan id w l b :=
    r ← record (tl_records l) id;
    s ← mark_scanned (tl_records l) id;
    Ret (if record_addr r =? 32 then [CReference (small_reference 64 32) (Scanned JoinHandle)]
         else [], (w, with_records l s, b));
  harvest _ _ w l := Ret ([], (w, l));
  validate c w l :=
    let a := candidate_addr c in
    Ret (if a =? 64 then [small_set] else [],
         (w, small_file l a (mkObservation (Reference (small_reference a 32)) None
               (Some (mkClaim small_set (CellScheduler (mkValueKey a 0) 7))))))
}.

Lemma small_world_lawful : LawfulWorld unit.
Proof.
  split.
  - intros o w l w' l' _ [= <- <-]. case_bool_decide; [apply small_file_filed|constructor].
  - intros id w l b cs w' l' b' _ [r Hr]. cbn [scan small_world]. unfold mark_scanned, record. rewrite Hr.
    cbn [or_panic]. rewrite !outcome_bind_eq. by intros [= _ _ <- _].
  - by intros o g w l cs w' l' _ [= _ _ <-].
  - intros c w l os w' l' _ [= _ _ <-]. apply small_file_filed.
Qed.

Definition small_list : TaskList :=
  small_file (mkTaskList [] [] store_new) 32 (listed_in small_runtime 32).
Definition small_roots : Roots := mkRoots [small_runtime] [].
Definition small_limits (items : Z) : ScanLimits := mkLimits 8 8 8 8 100 100 items.

Definition small_result (excluded : list Z) (items : Z) : option (list OwnerKey * bool * list Z * Z) :=
  match sweep excluded tt small_list small_roots (small_limits items) with
  | Ret (out, (_, l)) =>
      Some (reached out, capped out, addr <$> project (tl_records l) excluded, total (processed out))
  | Panic => None
  end.

Example small_sweep : small_result [] 100 = Some ([small_runtime; small_set], false, [32; 64; 96], 8).
Proof. vm_compute. reflexivity. Qed.

Example small_capped : small_result [] 2 = Some ([small_runtime; small_set], true, [32; 64], 2).
Proof. vm_compute. reflexivity. Qed.

(** A resident record of an excluded runtime has its turn and is not scanned. *)
Definition small_marks (excluded : list Z) : option (list bool * list bool * Z) :=
  match sweep excluded tt small_list small_roots (small_limits 100) with
  | Ret (out, (_, l)) => Some (resident <$> records (tl_records l), scanned <$> records (tl_records l),
                               unscanned_excluded out)
  | Panic => None
  end.

Example small_scans : small_marks [] = Some ([true; true; true], [true; true; true], 0).
Proof. vm_compute. reflexivity. Qed.

Example small_excluded : small_marks [4096] = Some ([true], [false], 1).
Proof. vm_compute. reflexivity. Qed.

Lemma sweep_exhaustive_witness :
  filed store_new (tl_records small_list) ∧ 0 <= 100 ∧
  match sweep [] tt small_list small_roots (small_limits 100) with
  | Panic => False
  | Ret (out, (w', l')) => capped out = false ∧ ∃ items fs os st,
      total (processed out) = Z.of_nat (length items) ∧
      exhausted [] small_roots items fs os (tl_records (s_list (W := unit) st))
  end.
Proof.
  assert (Hf : filed store_new (tl_records small_list))
    by exact (small_file_filed (mkTaskList [] [] store_new) _ _).
  split; [exact Hf|]. split; [lia|].
  pose proof (@sweep_exhaustive unit small_world small_world_lawful [] tt small_list small_roots
    (small_limits 100) Hf ltac:(cbn; lia)) as Hs.
  assert (Ec : match sweep [] tt small_list small_roots (small_limits 100) with
               | Ret (out, _) => capped out | Panic => true end = false)
    by (vm_compute; reflexivity).
  destruct (sweep _ _ _ _ _) as [[out [w' l']]|]; [|done]. split; [exact Ec|].
  destruct Hs as (_ & items & fs & os & st & [_ _ Ht _ _ _ _ _ _ Hc]). rewrite Ec in Hc. destruct Hc as [_ Hex].
  exists items, fs, os, st. split; [exact Ht|exact Hex].
Defined.

(** The scope when the runtime that owns the middle task is excluded. *)
Definition small_found : list (Origin * TaskRecordId) := [(OTask 0%nat, 1%nat)].

Lemma scope_exact_witness :
  let l := small_file small_list 64 (mkObservation (Reference (small_reference 64 32)) None None) in
  (∀ f, f ∈ small_found → is_Some (records (tl_records l) !! f.2)) ∧
  ∃ os s', apply_scope [] l small_roots small_found = Ret (os, with_records l s') ∧
    small_runtime ∈ os ∧
    reaches [] (tl_records l) small_roots small_found (OTask 1%nat).
Proof.
  intros l.
  assert (Hf : ∀ f, f ∈ small_found → is_Some (records (tl_records l) !! f.2)).
  { intros f Hf. apply list_elem_of_singleton in Hf as ->. by eexists. }
  split; [exact Hf|].
  destruct (scope_exact [] l small_roots small_found Hf) as (os & s' & E & _ & Hos & _ & _ & Hrec & _).
  exists os, s'. split; [exact E|]. split.
  - apply Hos. by apply reaches_root; [left|].
  - destruct (records (tl_records l) !! 1%nat) as [r|] eqn:Hr; [|done].
    destruct (Hrec _ _ Hr) as (b & Hb & Hreach). apply Hreach.
    assert (Es : match apply_scope [] l small_roots small_found with
                 | Ret (_, l) => option_map in_scope (records (tl_records l) !! 1%nat)
                 | Panic => None end = Some true) by (vm_compute; reflexivity).
    rewrite E in Es. cbn [with_records tl_records] in Es. rewrite Hb in Es. by injection Es as ->.
Defined.
