(* ===== verification/Value.v ===== *)
(** Typed views over the bytes of a value, their navigation, and the parse of
    numbers and options out of them ([reify/src/value.rs], [error.rs],
    [parse.rs] and [target.rs]).

    A value's type is an id of the bundle the section is over.  A failure is an
    [Error] kept with its source; a text assembled of the type's [Debug] form is
    kept as that form's parts. *)

From S2P Require Import Prelude Text StringTable Target Schema BundleCheck TypeView DisplayResolve DisplayEval.

Local Open Scope Z_scope.

(** ** Errors *)

(** What an unexpected type is called: its name, or its name with its [Debug]
    form. *)
Inductive TypeText :=
  | TextName (nm : str)
  | TextDebug (nm : str) (id : BundleTypeId).

Inductive RErrorKind :=
  | InvalidDiscriminantValue (ty : str) (discrim : Z)
  | InvalidMemberRange (start end_ len : Z)
  | NoVariant (ty nm : str)
  | NoMember (ty nm : str)
  | InvalidAddr (addr : Z)
  | ParseType (what : TypeText + (str * VariantError))
  | UnexpectedLen (actual expected : Z)
  | UnexpectedType (actual expected : TypeKind) (nm : TypeText)
  | UnexpectedVariant (expected : str)
  | NotAnEnum (ty : str)
  | NotASequence (ty : str)
  | InvalidSequence (ty : str) (why : string)
  | ShortSequence (ty : str) (claimed got : Z)
  | PathSyntax (path why : str)
  | NoMemberOf (ty nm : str) (members : list str)
  | InactiveVariant (nm active : str)
  | NotAVariant (ty nm active : str)
  | IndexPastEnd (ty : str) (index len : Z)
  | RangePastEnd (ty : str) (bound len : Z)
  | EntryStep (step : str).

Inductive Error :=
  | mkError (ek : RErrorKind) (source : option Source)
with Source :=
  | FromReify (e : Error)
  | FromTarget (e : ErrorKind).

Definition error (k : RErrorKind) : Error := mkError k None.
Definition with_source (e : Error) (s : Source) : Error :=
  match e with mkError k _ => mkError k (Some s) end.

(** A fallible computation that may panic: the [?] of a function that returns a
    [Result]. *)
Definition fallible (E A : Type) : Type := outcome (A + E).

Definition fbind {E A B} (m : fallible E A) (f : A → fallible E B) : fallible E B :=
  match m with
  | Ret (inl a) => f a
  | Ret (inr e) => Ret (inr e)
  | Panic => Panic
  end.

Notation "x ←! m ; k" := (fbind m (λ x, k))
  (at level 20, m at level 100, k at level 200, only parsing) : stdpp_scope.
Notation "' x ←! m ; k" := (fbind m (λ x : _, k))
  (at level 20, x pattern, m at level 100, k at level 200, only parsing) : stdpp_scope.

Definition succeed {E A} (a : A) : fallible E A := Ret (inl a).
Definition throw {E A} (e : E) : fallible E A := Ret (inr e).
Definition infallible {E A} (m : outcome A) : fallible E A := a ← m; Ret (inl a).
Definition ok_or_else {E A} (o : option A) (e : E) : fallible E A :=
  match o with Some a => succeed a | None => throw e end.
(** [map_err]. *)
Definition map_err {E F A} (f : E → F) (m : fallible E A) : fallible F A :=
  match m with Ret (inl a) => Ret (inl a) | Ret (inr e) => Ret (inr (f e)) | Panic => Panic end.

(** ** Values *)

Record Value := mkValue {
  val_ty : BundleTypeId;
  val_addr : Z;
  val_bytes : list Byte.byte
}.

Section values.
Context (b : Bundle) {T : Type} `{!Target T}.
Implicit Types v : Value.

(** [target::read_bytes]. *)
Definition target_read (p : T) (addr len : Z) : fallible Error (list Byte.byte) :=
  match read_bytes p addr len with
  | Ok bytes => succeed bytes
  | Err e => throw (with_source (error (InvalidAddr addr)) (FromTarget e))
  end.

(** [Value::read]. *)
Definition value_read (p : T) (ty : BundleTypeId) (addr : Z) : fallible Error Value :=
  size ←! infallible (ty_size b ty);
  bytes ←! target_read p addr size;
  succeed (mkValue ty addr bytes).

Definition view_at v (offset : Z) (ty : BundleTypeId) : fallible Error Value :=
  size ←! infallible (ty_size b ty);
  match (end_ ← checked_add offset size; bytes_get (val_bytes v) offset end_) with
  | Some bytes => succeed (mkValue ty (u64_add (val_addr v) offset) bytes)
  | None => throw (error (InvalidMemberRange offset (saturating_add offset size)
                            (Z.of_nat (length (val_bytes v)))))
  end.

(** ** Peeling *)

(** The next member with a size, and the members after it. *)
Fixpoint next_sized (ms : list MemberDef) : outcome (option (MemberDef * list MemberDef)) :=
  match ms with
  | [] => Ret None
  | m :: ms =>
      size ← ty_size b (m_ty m);
      if 0 <? size then Ret (Some (m, ms)) else next_sized ms
  end.

(** The one member with a size. *)
Definition sole_sized (ms : list MemberDef) : outcome (option MemberDef) :=
  '(m, rest) ←? next_sized ms;
  more ← next_sized rest;
  Ret match more with None => Some m | Some _ => None end.

(** One turn of [peel]'s loop: the value inside, or [None] where it breaks. *)
Definition peel_step v : outcome (option Value) :=
  leaf ← is_display_leaf b (val_ty v);
  if (leaf : bool) then Ret None
  else
    k ← kind b (val_ty v);
    match k with
    | KStruct =>
        ms ← members b (val_ty v);
        m ←? sole_sized ms;
        size ← ty_size b (m_ty m);
        let start := m_offset m in
        let end_ := u64_add start size in
        Ret (bytes ← bytes_get (val_bytes v) start end_;
             Some (mkValue (m_ty m) (u64_add (val_addr v) start) bytes))
    | _ => Ret None
    end.

(** The loop.  A chain of sole members that repeats no type is no longer than
    the table; on one that repeats a type the source never returns, which running
    out of fuel stands for. *)
Fixpoint peel_go (fuel : nat) v : outcome Value :=
  match fuel with
  | O => Panic
  | S fuel =>
      inner ← peel_step v;
      match inner with
      | Some v => peel_go fuel v
      | None => Ret v
      end
  end.

Definition peel v : outcome Value := peel_go (S (length (types (b_types b)))) v.

(** ** Members *)

Definition try_member_raw v (nm : str) : fallible Error (option Value) :=
  m ←! infallible (member b (val_ty v) nm);
  match m with
  | None => succeed None
  | Some m => w ←! view_at v (m_offset m) (m_ty m); succeed (Some w)
  end.

Definition try_member v (nm : str) : fallible Error (option Value) :=
  w ←! try_member_raw v nm;
  match w with
  | None => succeed None
  | Some w => w ←! infallible (peel w); succeed (Some w)
  end.

Definition no_member v (nm : str) : fallible Error Error :=
  ty ←! infallible (ty_name b (val_ty v)); succeed (error (NoMember ty nm)).

(** [Value::member_raw] and [Value::member]. *)
Definition member_raw v (nm : str) : fallible Error Value :=
  w ←! try_member_raw v nm;
  match w with Some w => succeed w | None => e ←! no_member v nm; throw e end.

Definition value_member v (nm : str) : fallible Error Value :=
  w ←! try_member v nm;
  match w with Some w => succeed w | None => e ←! no_member v nm; throw e end.

(** The pointer word is read of the value's own bytes, its type of the peeled
    view. *)
Definition deref_ptr (p : T) v : fallible Error Value :=
  peeled ←! infallible (peel v);
  target ←! infallible (pointer_target b (val_ty peeled));
  match target with
  | None =>
      k ←! infallible (kind b (val_ty v));
      nm ←! infallible (ty_name b (val_ty v));
      throw (error (UnexpectedType k KPointer (TextDebug nm (val_ty v))))
  | Some target =>
      match slice (val_bytes v) 0 8 with
      | None => throw (error (UnexpectedLen (as_u32 (Z.of_nat (length (val_bytes v)))) 8))
      | Some word =>
          w ←! value_read p target (from_le_bytes word);
          infallible (peel w)
      end
  end.

(** ** Variants *)

Definition bundle_variant_error (ty : BundleTypeId) (e : VariantError) : fallible Error Error :=
  nm ←! infallible (ty_name b ty);
  succeed match e with
          | ShortBuffer needed len => error (UnexpectedLen (as_u32 len) (as_u32 needed))
          | NoVariantMatch raw => error (InvalidDiscriminantValue nm (as_i64 (raw `mod` W64)))
          | other => error (ParseType (inr (nm, other)))
          end.

Definition not_an_enum {A} v : fallible Error A :=
  nm ←! infallible (ty_name b (val_ty v)); throw (error (NotAnEnum nm)).

Definition try_select_variant_raw v (nm : str) : fallible Error (option Value) :=
  r ←! infallible (check_variant b (val_ty v) (val_bytes v) nm);
  match r with
  | None => not_an_enum v
  | Some (inr NoSuchVariant) =>
      ty ←! infallible (ty_name b (val_ty v)); throw (error (NoVariant ty nm))
  | Some (inr other) => e ←! bundle_variant_error (val_ty v) other; throw e
  | Some (inl None) => succeed None
  | Some (inl (Some (var_ty, offset))) => w ←! view_at v offset var_ty; succeed (Some w)
  end.

Definition try_select_variant v (nm : str) : fallible Error (option Value) :=
  w ←! try_select_variant_raw v nm;
  match w with
  | None => succeed None
  | Some w => w ←! infallible (peel w); succeed (Some w)
  end.

(** [Value::select_variant]. *)
Definition value_select_variant v (nm : str) : fallible Error Value :=
  w ←! try_select_variant v nm;
  ok_or_else w (error (UnexpectedVariant nm)).

Definition active_variant_raw v : fallible Error (str * Value) :=
  r ←! infallible (active_variant b (val_ty v) (val_bytes v));
  match r with
  | None => not_an_enum v
  | Some (inr e) => e ←! bundle_variant_error (val_ty v) e; throw e
  | Some (inl active) =>
      w ←! view_at v (bv_offset active) (bv_ty active); succeed (bv_name active, w)
  end.

(** [Value::active_variant]. *)
Definition value_active_variant v : fallible Error (str * Value) :=
  '(nm, payload) ←! active_variant_raw v;
  payload ←! infallible (peel payload);
  succeed (nm, payload).

(** ** Parsing *)

(** [ParseWithDbgInfo::parse_with_dbg] of a type, at a value. *)
Definition Parser (V : Type) : Type := T → Value → fallible Error V.

(** [Value::parse]. *)
Definition parse {V} (parser : Parser V) (p : T) v : fallible Error V :=
  match parser p v with
  | Ret (inl x) => succeed x
  | Ret (inr e) =>
      nm ←! infallible (ty_name b (val_ty v));
      throw (with_source (error (ParseType (inl (TextName nm)))) (FromReify e))
  | Panic => Panic
  end.

(** The unsigned numbers, by their size. *)
Definition parse_unsigned (size : Z) : Parser Z := λ _ v,
  if negb (Z.of_nat (length (val_bytes v)) =? size)
  then throw (error (UnexpectedLen (as_u32 (Z.of_nat (length (val_bytes v)))) size))
  else succeed (from_le_bytes (val_bytes v)).

Definition parse_bool : Parser bool := λ p v,
  w ←! parse_unsigned 1 p v; succeed (w =? 1).

Definition NONE_NAME : str := bytes_of_string "None".

Definition parse_option {V} (parser : Parser V) : Parser (option V) := λ p v,
  '(nm, payload) ←! value_active_variant v;
  if bool_decide (nm = SOME_NAME) then x ←! parser p payload; succeed (Some x)
  else if bool_decide (nm = NONE_NAME) then succeed None
  else ty ←! infallible (ty_name b (val_ty v)); throw (error (NoVariant ty nm)).
End values.
