(* ===== verification/Elements.v ===== *)
(** Reading the elements of a sequence-shaped value: a vector, a boxed or
    borrowed slice, a ring, an array, a string ([reify/src/elements.rs], the
    [buffer] of [value.rs] and the sequences of [parse.rs]).

    The gates that fire at an allocator ([Heap::note]) are the output a read
    leaves beside its result. *)

From S2P Require Import Prelude Text StringTable Target Schema BundleCheck TypeView DisplayResolve DisplayEval Value.

Local Open Scope Z_scope.

Definition MAX_ZST_ELEMENTS : Z := 64 * 1024 * 1024.

Inductive Shortfall := Unreadable | PastAllocation | PastCap.

#[global] Instance shortfall_eq_dec : EqDecision Shortfall.
Proof. solve_decision. Defined.

Definition shortfall_default : Shortfall := Unreadable.

(** ** The allocator's say *)

Inductive Gate := GateFreed | GateClipped | GateBaseMismatch.

(** [reify::Heap], but for [note]. *)
Record Heap := mkHeap {
  heap_locate : Z → Liveness;
  heap_owns : Z → option bool
}.

Record HeapGate := mkHeapGate {
  gate_heap : option Heap;
  owning : bool
}.

Definition for_header (heap : option Heap) (header : FatHeader) : HeapGate :=
  mkHeapGate heap (bool_decide (is_Some (fh_capacity header))).
Definition gate_none : HeapGate := mkHeapGate None false.

(** ** Errors *)

Inductive SeqError :=
  | SeqInvalid (why : string)
  | SeqUnreadable (e : Error)
  | SeqFreed
  | SeqNoTarget.

(** [SeqError::into_error]. *)
Definition into_error (ty : str) (e : SeqError) : Error :=
  match e with
  | SeqInvalid why => error (InvalidSequence ty why)
  | SeqUnreadable e => e
  | SeqFreed => error (InvalidSequence ty "its buffer has been freed")
  | SeqNoTarget => error (InvalidSequence ty "no target to read through")
  end.

(** A read: the gates that fired, and its result. *)
Definition gated (A : Type) : Type := outcome (list Gate * (A + SeqError)).

Definition gbind {A B} (m : gated A) (f : A → gated B) : gated B :=
  match m with
  | Ret (gates, inl a) =>
      match f a with Ret (more, r) => Ret (gates ++ more, r) | Panic => Panic end
  | Ret (gates, inr e) => Ret (gates, inr e)
  | Panic => Panic
  end.

Notation "x ←@ m ; k" := (gbind m (λ x, k))
  (at level 20, m at level 100, k at level 200, only parsing) : stdpp_scope.
Notation "' x ←@ m ; k" := (gbind m (λ x : _, k))
  (at level 20, x pattern, m at level 100, k at level 200, only parsing) : stdpp_scope.

Definition gret {A} (a : A) : gated A := Ret ([], inl a).
Definition gfail {A} (e : SeqError) : gated A := Ret ([], inr e).
Definition note (gate : Gate) : gated () := Ret ([gate], inl ()).
(** A step that asks no allocator. *)
Definition ungated {A} (r : A + SeqError) : gated A := Ret ([], r).

(** A step that may only panic. *)
Definition unfailing {A} (m : outcome A) : gated A := a ← m; Ret ([], inl a).

(** The result of a read, without the gates. *)
Definition result_of {A} (m : gated A) : fallible SeqError A := '(_, r) ← m; Ret r.

(** ** Headers *)

Record Ring := mkRing { ring_head : Z; slots : Z }.

Definition req {A} (o : option A) (why : string) : A + SeqError :=
  match o with Some a => inl a | None => inr (SeqInvalid why) end.

(** The ring of a header whose capacity has been read. *)
Definition decode_ring (bytes : list Byte.byte) (header : FatHeader) (capacity : Z)
    : option Ring + SeqError :=
  match fh_head header with
  | None => inl None
  | Some (offset, size) =>
      match req (read_unsigned_at bytes offset size) "the ring head does not fit the value" with
      | inr e => inr e
      | inl head =>
          if negb (head =? 0) && (capacity <=? head)
          then inr (SeqInvalid "the ring head lies past the capacity")
          else inl (Some (mkRing head capacity))
      end
  end.

Definition decode_capacity (bytes : list Byte.byte) (header : FatHeader) (stride count : Z)
    : option Ring + SeqError :=
  match fh_capacity header with
  | None => inl None
  | Some (offset, size) =>
      match req (read_unsigned_at bytes offset size) "the capacity does not fit the value" with
      | inr e => inr e
      | inl capacity =>
          if negb (stride =? 0) && (capacity <? count)
          then inr (SeqInvalid "the length exceeds the capacity")
          else decode_ring bytes header capacity
      end
  end.

(** The first slot's address, the count claimed, and a ring's place. *)
Definition decode_header (bytes : list Byte.byte) (header : FatHeader) (stride : Z)
    : Z * Z * option Ring + SeqError :=
  match req (read_unsigned_at bytes (fh_length_offset header) (fh_length_size header))
          "the length does not fit the value" with
  | inr e => inr e
  | inl count =>
      match decode_capacity bytes header stride count with
      | inr e => inr e
      | inl ring =>
          match req (read_u64_at bytes (fh_pointer_offset header))
                  "the data pointer does not fit the value" with
          | inr e => inr e
          | inl base =>
              if base =? 0 then inl (0, count, ring)
              else match checked_add base (fh_data_offset header) with
                   | Some base => inl (base, count, ring)
                   | None => inr (SeqInvalid "the data offset overflows the pointer")
                   end
          end
      end
  end.

(** ** Buffers *)

Record Buffer := mkBuffer {
  buf_bytes : list Byte.byte;
  buf_count : Z;
  buf_claimed : option Z;
  buf_shortfall : Shortfall
}.

(** What [want] bytes at [base] come to in the allocation that holds [base]. *)
Definition bound_to_allocation (gate : HeapGate) (base want : Z) : gated (Z * Shortfall) :=
  match gate_heap gate with
  | None => gret (want, shortfall_default)
  | Some heap =>
      match heap_locate heap base with
      | Freed => _ ←@ note GateFreed; gfail SeqFreed
      | Live block =>
          _ ←@ (if owning gate && bool_decide (heap_owns heap base = Some false)
                then note GateBaseMismatch else gret ());
          if u64_sub (r_end block) base <? want
          then _ ←@ note GateClipped; gret (u64_sub (r_end block) base, PastAllocation)
          else gret (want, shortfall_default)
      | Unknown => gret (want, shortfall_default)
      end
  end.

Definition gate_shortfall (allocation : Shortfall) (capped : bool) : Shortfall :=
  match allocation, capped with
  | PastAllocation, _ => PastAllocation
  | _, true => PastCap
  | _, false => shortfall_default
  end.

Section elements.
Context (b : Bundle) {T : Type} `{!Target T}.
Implicit Types (p : T) (v : Value).

(** The read of a buffer whose extent is settled: [want] bytes asked for, of the
    [count] claimed. *)
Definition read_served p (base stride count want : Z) (shortfall : Shortfall) : gated Buffer :=
  let servable := readable_len p base want in
  partial ←@ unfailing (rem_u64 servable stride);
  let served := u64_sub servable partial in
  let short_read := served <? want in
  if served =? 0 then
    gret (mkBuffer [] 0 (Some count) (if want =? 0 then shortfall else Unreadable))
  else
    match target_read p base served with
    | Panic => Panic
    | Ret (inr e) => gfail (SeqUnreadable e)
    | Ret (inl bytes) =>
        got ←@ unfailing (div_u64 served stride);
        gret (mkBuffer bytes got (if got <? count then Some count else None)
                (if short_read then Unreadable else shortfall))
    end.

Definition read_buffer (proc : option T) (base stride count : Z) (gate : HeapGate)
    (cap : option Z) : gated Buffer :=
  if count =? 0 then gret (mkBuffer [] 0 None shortfall_default)
  else if base =? 0 then gfail (SeqInvalid "the data pointer is null")
  else if stride =? 0 then
    gret (if MAX_ZST_ELEMENTS <? count
          then mkBuffer [] MAX_ZST_ELEMENTS (Some count) shortfall_default
          else mkBuffer [] count None shortfall_default)
  else
    want ←@ ungated (req (checked_mul count stride) "the buffer size overflows");
    _ ←@ ungated (req (checked_add base want) "the buffer wraps the address space");
    p ←@ ungated (match proc with Some p => inl p | None => inr SeqNoTarget end);
    let '(want, capped) :=
      match cap with
      | Some cap => if cap <? count then (u64_mul cap stride, true) else (want, false)
      | None => (want, false)
      end in
    '(want, allocation) ←@ bound_to_allocation gate base want;
    read_served p base stride count want (gate_shortfall allocation capped).

(** ** Elements *)

(** The second run of a ring whose elements wrap. *)
Record Wrapped := mkWrapped {
  split : Z;
  w_base : Z;
  w_bytes : list Byte.byte
}.

Record Elements := mkElements {
  el_element : BundleTypeId;
  el_base : Z;
  el_stride : Z;
  el_count : Z;
  el_claimed : option Z;
  el_shortfall : Shortfall;
  el_bytes : list Byte.byte;
  el_wrapped : option Wrapped
}.

(** [Elements::get]. *)
Definition el_get (es : Elements) (index : Z) : Value :=
  let '(base, bytes, index) :=
    match el_wrapped es with
    | Some run =>
        if split run <=? index then (w_base run, w_bytes run, u64_sub index (split run))
        else (el_base es, el_bytes es, index)
    | None => (el_base es, el_bytes es, index)
    end in
  let offset := u64_mul index (el_stride es) in
  mkValue (el_element es) (u64_add base offset)
    (default [] (bytes_get bytes offset (u64_add offset (el_stride es)))).

(** [Elements::iter]. *)
Definition el_iter (es : Elements) : list Value :=
  el_get es <$> z_range 0 (Z.to_nat (el_count es)).

Definition over (buffer : Buffer) (element : BundleTypeId) (base stride : Z) : Elements :=
  mkElements element base stride (buf_count buffer) (buf_claimed buffer) (buf_shortfall buffer)
    (buf_bytes buffer) None.

Definition read_ring (ring : Ring) (element : BundleTypeId) (base stride count : Z)
    (proc : option T) (gate : HeapGate) (cap : option Z) : gated Elements :=
  if base =? 0 then gfail (SeqInvalid "the data pointer is null")
  else
    start ←@ ungated (req (offset ← checked_mul (ring_head ring) stride; checked_add base offset)
                        "the ring head wraps the address space");
    let split_at := Z.min count (u64_sub (slots ring) (ring_head ring)) in
    let front_gate := mkHeapGate (gate_heap gate) (owning gate && (ring_head ring =? 0)) in
    front ←@ read_buffer proc start stride split_at front_gate cap;
    let es := over front element start stride in
    if el_count es <? split_at then
      gret (mkElements element start stride (el_count es) (Some count) (el_shortfall es)
              (el_bytes es) None)
    else if split_at =? count then gret es
    else
      back ←@ read_buffer proc base stride (u64_sub count split_at) gate
                ((λ cap, Z.max 0 (cap - split_at)) <$> cap);
      gret (mkElements element start stride (u64_add split_at (buf_count back))
              ((λ _, count) <$> buf_claimed back) (buf_shortfall back) (el_bytes es)
              (Some (mkWrapped split_at base (buf_bytes back)))).

Definition read_fat (header : FatHeader) (element : BundleTypeId) (stride : Z)
    (bytes : list Byte.byte) (proc : option T) (gate : HeapGate) (cap : option Z)
    : gated Elements :=
  '(base, count, ring) ←@ ungated (decode_header bytes header stride);
  match ring with
  | Some ring =>
      if negb (stride =? 0) && negb (count =? 0)
      then read_ring ring element base stride count proc gate cap
      else buffer ←@ read_buffer proc base stride count gate cap;
           gret (over buffer element base stride)
  | None =>
      buffer ←@ read_buffer proc base stride count gate cap;
      gret (over buffer element base stride)
  end.

(** ** Values as sequences *)

Definition named_error {A} v (m : fallible SeqError A) : fallible Error A :=
  match m with
  | Ret (inl a) => succeed a
  | Ret (inr e) => nm ←! infallible (ty_name b (val_ty v)); throw (into_error nm e)
  | Panic => Panic
  end.

Definition DATA_PTR : str := bytes_of_string "data_ptr".
Definition LENGTH : str := bytes_of_string "length".

Definition bare_fat_pointer p v : fallible Error (Value * Z * Z) :=
  pointer ←! try_member b v DATA_PTR;
  length ←! try_member b v LENGTH;
  match pointer, length with
  | Some pointer, Some length =>
      count ←! parse b (parse_unsigned 8) p length;
      base ←! parse b (parse_unsigned 8) p pointer;
      succeed (pointer, base, count)
  | _, _ => nm ←! infallible (ty_name b (val_ty v)); throw (error (NotASequence nm))
  end.

(** The fallback of a value no display program describes. *)
Definition elements_bare p v : fallible Error Elements :=
  '(pointer, base, count) ←! bare_fat_pointer p v;
  element ←! infallible (pointer_target b (val_ty pointer));
  match element with
  | None =>
      k ←! infallible (kind b (val_ty pointer));
      nm ←! infallible (ty_name b (val_ty v));
      throw (error (UnexpectedType k KPointer (TextName nm)))
  | Some element =>
      stride ←! infallible (ty_size b element);
      buffer ←! named_error v (result_of (read_buffer (Some p) base stride count gate_none None));
      succeed (over buffer element base stride)
  end.

(** [Elements::of]. *)
Definition elements p v : fallible Error Elements :=
  node ←! infallible (resolve b (val_ty v));
  match node with
  | Some (RSlice header element element_size) =>
      named_error v (result_of (read_fat header element element_size (val_bytes v) (Some p)
                                  gate_none None))
  | _ =>
      array ←! infallible (array_info b (val_ty v));
      match array with
      | Some (element, count) =>
          stride ←! infallible (ty_size b element);
          succeed (mkElements element (val_addr v) stride count None shortfall_default
                     (val_bytes v) None)
      | None => elements_bare p v
      end
  end.

Definition utf8_buffer (header : FatHeader) (nul_terminated : bool) (bytes : list Byte.byte)
    (proc : option T) (gate : HeapGate) (cap : option Z) : gated Buffer :=
  '(base, length, _) ←@ ungated (decode_header bytes header 1);
  length ←@ ungated
    (if nul_terminated
     then req (checked_sub length 1) "the length cannot hold the terminator"
     else inl length);
  read_buffer proc base 1 length gate cap.

Definition utf8 p v : fallible Error Buffer :=
  node ←! infallible (resolve b (val_ty v));
  match node with
  | Some (RStr header nul_terminated) =>
      named_error v (result_of (utf8_buffer header nul_terminated (val_bytes v) (Some p)
                                  gate_none None))
  | _ =>
      '(_, base, length) ←! bare_fat_pointer p v;
      named_error v (result_of (read_buffer (Some p) base 1 length gate_none None))
  end.

(** [Value::buffer]: where a value's contents are, from its header alone. *)
Definition extent_of (header : FatHeader) (stride : Z) (bytes : list Byte.byte)
    : Z * Z + SeqError :=
  match decode_header bytes header stride with
  | inr e => inr e
  | inl (base, count, ring) =>
      match req (checked_mul count stride) "the length overflows a u64" with
      | inr e => inr e
      | inl len =>
          match ring with
          | Some ring =>
              if negb (stride =? 0) && negb (count =? 0) then
                if u64_sub (slots ring) (ring_head ring) <? count
                then inr (SeqInvalid "its elements wrap past the end of its buffer")
                else match req (offset ← checked_mul (ring_head ring) stride;
                                checked_add base offset)
                               "the ring head wraps the address space" with
                     | inl start => inl (start, len)
                     | inr e => inr e
                     end
              else inl (base, len)
          | None => inl (base, len)
          end
      end
  end.

Definition buffer v : outcome (option (Z * Z + Error)) :=
  node ← resolve b (val_ty v);
  match node with
  | Some (RSlice header _ stride) =>
      r ← named_error v (Ret (extent_of header stride (val_bytes v))); Ret (Some r)
  | Some (RStr header _) =>
      r ← named_error v (Ret (extent_of header 1 (val_bytes v))); Ret (Some r)
  | _ => Ret None
  end.

(** ** Parsing sequences *)

Fixpoint parse_all {V} (parser : Parser V) p (vs : list Value) : fallible Error (list V) :=
  match vs with
  | [] => succeed []
  | v :: vs => x ←! parser p v; xs ←! parse_all parser p vs; succeed (x :: xs)
  end.

Definition parse_vec {V} (parser : Parser V) : Parser (list V) := λ p v,
  es ←! elements p v;
  match el_claimed es with
  | Some claimed =>
      nm ←! infallible (ty_name b (val_ty v));
      throw (error (ShortSequence nm claimed (el_count es)))
  | None => parse_all parser p (el_iter es)
  end.

Definition parse_array {V} (parser : Parser V) (n : Z) : Parser (list V) := λ p v,
  items ←! parse_vec parser p v;
  let len := Z.of_nat (length items) in
  if len =? n then succeed items else throw (error (UnexpectedLen (as_u32 len) (as_u32 n))).

Definition parse_string : Parser string := λ p v,
  text ←! utf8 p v;
  match buf_claimed text with
  | Some claimed =>
      nm ←! infallible (ty_name b (val_ty v));
      throw (error (ShortSequence nm claimed (buf_count text)))
  | None => succeed (from_utf8_lossy (buf_bytes text))
  end.
End elements.
