(* ===== verification/Par.v ===== *)
(** Fanning a collection's entries out across worker threads
    ([reify/src/render/par.rs]): contiguous chunks rendered apart and stitched
    back in order, whatever order they finish in.

    The text a worker writes is a list of pieces.  The order chunks arrive in is
    the schedule's, so it is an argument. *)

From S2P Require Import Prelude.

Local Open Scope nat_scope.

Definition MIN_PARALLEL_ITEMS : Z := 64.

(** [usize::div_ceil]. *)
Definition div_ceil (a b : nat) : nat := if a mod b =? 0 then a / b else a / b + 1.

(** An eighth of a worker's even share, and how many such chunks there are. *)
Definition chunk_size (total threads : nat) : nat := Nat.max (div_ceil total (threads * 8)) 1.
Definition chunk_count (total threads : nat) : nat := div_ceil total (chunk_size total threads).

Section stitch.
Context {A : Type}.

(** The chunk to write next, those held until their turn, and what was
    written. *)
Record Stitch := mkStitch {
  next : nat;
  held : gmap nat (list A);
  written : list A
}.

(** [while let Some(buf) = held.remove(&next)]: no more turns than held
    chunks. *)
Fixpoint drain (fuel : nat) (st : Stitch) : Stitch :=
  match fuel with
  | O => st
  | S fuel =>
      match held st !! next st with
      | Some buf => drain fuel (mkStitch (S (next st)) (delete (next st) (held st))
                                  (written st ++ buf))
      | None => st
      end
  end.

(** One chunk received. *)
Definition receive (st : Stitch) (message : nat * list A) : Stitch :=
  let held := <[message.1 := message.2]> (held st) in
  drain (size held) (mkStitch (next st) held (written st)).

Definition stitch (messages : list (nat * list A)) : list A :=
  written (foldl receive (mkStitch 0 ∅ []) messages).

(** What the worker of a chunk sends. *)
Definition chunk_message (total chunk : nat) (render : nat → nat → list A) (index : nat)
    : nat * list A :=
  let start := index * chunk in
  (index, render start (Nat.min total (start + chunk))).

Definition render_chunked (total threads : nat) (render : nat → nat → list A)
    (arrivals : list nat) : list A :=
  stitch (chunk_message total (chunk_size total threads) render <$> arrivals).
End stitch.

Arguments Stitch : clear implicits.

Local Open Scope nat_scope.

(** ** Chunks *)

Lemma div_ceil_spec a b : b ≠ 0 → a ≤ div_ceil a b * b < a + b.
Proof.
  intros Hb. unfold div_ceil. pose proof (Nat.div_mod a b Hb). pose proof (Nat.mod_upper_bound a b Hb).
  destruct (Nat.eqb_spec (a mod b) 0); nia.
Qed.

Lemma chunk_size_pos total threads : 0 < chunk_size total threads.
Proof. unfold chunk_size. lia. Qed.

(** The items of chunks of [c], one chunk after another. *)
Lemma chunks_cover {A} (item : nat → list A) total c n :
  mjoin ((λ i, mjoin (item <$> seq (i * c) (Nat.min total (i * c + c) - i * c))) <$> seq 0 n)
  = mjoin (item <$> seq 0 (Nat.min total (n * c))).
Proof.
  induction n as [|n IH]; [by rewrite Nat.min_0_r|].
  rewrite seq_S, fmap_app, join_app, IH. cbn [fmap list_fmap mjoin list_join Nat.add].
  rewrite app_nil_r, <- join_app, <- fmap_app. do 2 f_equal.
  replace (Nat.min total (S n * c)) with (Nat.min total (n * c) + (Nat.min total (n * c + c) - n * c))
    by lia.
  destruct (Nat.le_gt_cases (n * c) total) as [H|H].
  - rewrite seq_app. by rewrite (Nat.min_r total (n * c)) by lia.
  - replace (Nat.min total (n * c + c) - n * c) with 0 by lia. cbn. by rewrite Nat.add_0_r, app_nil_r.
Qed.

(** ** The stitch *)

Section stitch.
Context {A : Type} (buf : nat → list A).

(** What was received, and what of it is written: the chunks before the next
    one, in order; the others are held. *)
Record stitched (received : list nat) (st : Stitch A) : Prop := mkStitched {
  st_written : written st = mjoin (buf <$> seq 0 (next st));
  st_held : ∀ i, held st !! i = if decide (i ∈ received ∧ next st ≤ i) then Some (buf i) else None;
  st_before : ∀ i, i < next st → i ∈ received
}.

Lemma drain_stitched received fuel : ∀ st,
  stitched received st → size (held st) ≤ fuel →
  stitched received (drain fuel st) ∧ next (drain fuel st) ∉ received.
Proof.
  induction fuel as [|fuel IH]; intros st Hst Hf; cbn [drain].
  - split; [done|]. intros Hin. destruct Hst as [_ Hh _]. specialize (Hh (next st)).
    rewrite decide_True in Hh by (split; [done|lia]).
    assert (held st = ∅) as He by (apply map_size_empty_inv; lia). by rewrite He in Hh.
  - destruct (held st !! next st) as [c|] eqn:E.
    + assert (Hin : next st ∈ received ∧ c = buf (next st)).
      { destruct Hst as [_ Hh _]. rewrite Hh in E. case_decide; naive_solver. }
      apply IH.
      * destruct Hst as [Hw Hh Hb]. split; cbn [written next held].
        -- rewrite Hw, seq_S, fmap_app, join_app. cbn. rewrite app_nil_r. by destruct Hin as [_ ->].
        -- intros i. destruct (decide (i = next st)) as [->|Hne].
           ++ rewrite lookup_delete_eq. rewrite decide_False; [done|]. intros [_ ?]. lia.
           ++ rewrite lookup_delete_ne by done. rewrite Hh. apply decide_ext. split; intros [? ?]; (split; [done|lia]).
        -- intros i Hi. destruct (decide (i = next st)) as [->|?]; [apply Hin|apply Hb; lia].
      * cbn. rewrite map_size_delete_Some by (by eexists). lia.
    + split; [done|]. intros Hin. destruct Hst as [_ Hh _]. rewrite Hh in E.
      rewrite decide_True in E by (split; [done|lia]). done.
Qed.

Lemma receive_stitched received st i :
  stitched received st → i ∉ received →
  stitched (i :: received) (receive st (i, buf i)) ∧ next (receive st (i, buf i)) ∉ i :: received.
Proof.
  intros [Hw Hh Hb] Hi. apply drain_stitched; [|done]. split; cbn [written next held fst snd].
  - done.
  - intros j. destruct (decide (j = i)) as [->|Hne].
    + rewrite lookup_insert_eq, decide_True; [done|]. split; [by left|].
      destruct (decide (next st ≤ i)); [done|]. exfalso. apply Hi, Hb. lia.
    + rewrite lookup_insert_ne by done. rewrite Hh. apply decide_ext. rewrite elem_of_cons. naive_solver.
  - intros j Hj. right. by apply Hb.
Qed.

Lemma foldl_stitched order : ∀ received st,
  stitched received st → next st ∉ received → NoDup (order ++ received) →
  let st' := foldl receive st ((λ i, (i, buf i)) <$> order) in
  stitched (reverse order ++ received) st' ∧ next st' ∉ reverse order ++ received.
Proof.
  induction order as [|i order IH]; intros received st Hst Hn Hnd; [done|].
  cbn [fmap list_fmap foldl]. rewrite reverse_cons, <- app_assoc. cbn [app].
  cbn [app] in Hnd. apply NoDup_cons in Hnd as [Hi Hnd].
  destruct (receive_stitched received st i Hst) as [H1 H2]; [set_solver|].
  apply IH; [done|done|]. apply NoDup_app in Hnd as (Ho & Hd & Hr). apply NoDup_app.
  split; [done|]. split; [|apply NoDup_cons; set_solver]. intros x Hx. rewrite elem_of_cons.
  intros [->|?]; [set_solver|by eapply Hd].
Qed.

(** Chunks stitched in any order of arrival are the chunks in order. *)
Lemma stitch_ordered order n :
  order ≡ₚ seq 0 n →
  stitch ((λ i, (i, buf i)) <$> order) = mjoin (buf <$> seq 0 n).
Proof.
  intros Ho. unfold stitch.
  assert (Hnd : NoDup (order ++ [])) by (rewrite app_nil_r, Ho; apply NoDup_seq).
  destruct (foldl_stitched order [] (mkStitch 0 ∅ [])) as [[Hw Hh Hb] Hn]; [|set_solver|done|].
  { split; cbn; [done| |lia]. intros i. rewrite decide_False by set_solver. apply lookup_empty. }
  rewrite Hw. do 2 f_equal. rewrite app_nil_r in *.
  set (st' := foldl receive _ _) in *.
  assert (Hin : ∀ i, i ∈ reverse order ↔ i < n).
  { intros i. rewrite elem_of_reverse, Ho, elem_of_seq. lia. }
  f_equal. destruct (Nat.lt_total (next st') n) as [Hlt|[->|Hgt]]; [|done|].
  - exfalso. apply Hn. by apply Hin.
  - exfalso. specialize (Hb n Hgt). apply Hin in Hb. lia.
Qed.
End stitch.

(** The fan-out writes the items in order, whatever the number of threads and the
    order chunks arrive in. *)
Lemma render_chunked_items {A} (item : nat → list A) total threads arrivals
    (render : nat → nat → list A) :
  0 < threads → arrivals ≡ₚ seq 0 (chunk_count total threads) →
  (∀ s e, s ≤ e ≤ total → render s e = mjoin (item <$> seq s (e - s))) →
  render_chunked total threads render arrivals = mjoin (item <$> seq 0 total).
Proof.
  intros Ht Ha Hr. unfold render_chunked. set (c := chunk_size total threads).
  assert (Hc : c ≠ 0) by (pose proof (chunk_size_pos total threads); lia).
  pose proof (div_ceil_spec total c Hc) as Hd.
  assert (Hm : chunk_message total c render <$> arrivals
    = (λ i, (i, mjoin (item <$> seq (i * c) (Nat.min total (i * c + c) - i * c)))) <$> arrivals).
  { apply list_fmap_ext. intros j i Hi. unfold chunk_message. f_equal. apply Hr.
    assert (i ∈ seq 0 (chunk_count total threads)) as Hin
      by (rewrite <- Ha; by eapply list_elem_of_lookup_2).
    apply elem_of_seq in Hin. unfold chunk_count in Hin. fold c in Hin. nia. }
  rewrite Hm, (stitch_ordered (λ i, mjoin (item <$> seq (i * c) (Nat.min total (i * c + c) - i * c)))
    arrivals (chunk_count total threads) Ha), chunks_cover.
  unfold chunk_count. fold c. by rewrite Nat.min_l by lia.
Qed.
