(* ===== verification/Collections.v ===== *)
(** The renderers of sequences and maps and the walks of their storage
    ([reify/src/render/collections.rs]): slices, linked lists, B-trees and hash
    tables.

    A walk hands each entry to a callback over a state of its caller's, as the
    source's closures do over what they capture.  The tally of gates an allocator
    keeps is left out here, as in the evaluator, and so is the type name a nested
    value is told not to repeat. *)

From S2P Require Import Prelude Text StringTable Target Schema BundleCheck TypeView DisplayResolve DisplayEval Value Elements Par.

Local Open Scope Z_scope.

Inductive MapWalkError :=
  | WalkInvalid (why : string)
  | WalkMarker (m : string).

(** A walk over a caller's state. *)
Definition walk (St A : Type) : Type := St → outcome (St * (A + MapWalkError)).

Section monad.
Context {St : Type}.

Definition wret {A} (a : A) : walk St A := λ st, Ret (st, inl a).
Definition wfail {A} (e : MapWalkError) : walk St A := λ st, Ret (st, inr e).
Definition wbind {A B} (m : walk St A) (f : A → walk St B) : walk St B := λ st,
  match m st with
  | Ret (st, inl a) => f a st
  | Ret (st, inr e) => Ret (st, inr e)
  | Panic => Panic
  end.
Definition wlift {A} (m : outcome A) : walk St A := λ st, a ← m; Ret (st, inl a).
Definition wreq {A} (o : option A) (e : MapWalkError) : walk St A :=
  match o with Some a => wret a | None => wfail e end.
End monad.

Notation "x ←$ m ; k" := (wbind m (λ x, k))
  (at level 20, m at level 100, k at level 200, only parsing) : stdpp_scope.

Record BTreeNodeLayout := mkLayout {
  lay_key : BundleTypeId;
  lay_value : BundleTypeId;
  lay_leaf : BundleTypeId;
  lay_leaf_len : BundleTypeId;
  lay_leaf_len_offset : Z;
  lay_keys_offset : Z;
  lay_key_slots : Z;
  lay_values_offset : Z;
  lay_internal : BundleTypeId;
  lay_edges_offset : Z;
  lay_edge : BundleTypeId;
  lay_edge_pointer_offset : Z
}.

Definition MAX_HASH_BUCKETS : Z := Z.shiftl 1 32.

(** Above this a tree is not believed. *)
Definition MAX_HEIGHT : Z := 64.

Section walks.
Context (b : Bundle) {T : Type} `{!Target T} (ctx : RenderCtx T) {St : Type}
  (emit : Value → option Value → walk St ()).

(** ** B-trees *)

Definition OVERFLOW_EDGE : MapWalkError := WalkInvalid "edge offset overflow".

(** [offset + index * size], refused where it does not fit a word. *)
Definition slot_offset (offset index size : Z) (why : string) : walk St Z :=
  step ←$ wreq (checked_mul index size) (WalkInvalid why);
  wreq (checked_add offset step) (WalkInvalid why).

Definition btree_edge_address (bytes : list Byte.byte) (lay : BTreeNodeLayout) (index : Z)
    : walk St Z :=
  size ←$ wlift (ty_size b (lay_edge lay));
  step ←$ wreq (checked_mul index size) OVERFLOW_EDGE;
  offset ←$ wreq (offset ← checked_add (lay_edges_offset lay) step;
                  checked_add offset (lay_edge_pointer_offset lay)) OVERFLOW_EDGE;
  wreq (read_u64_at bytes offset) (WalkInvalid "truncated edge slot").

(** One initialized slot of a node. *)
Definition btree_entry (bytes : list Byte.byte) (lay : BTreeNodeLayout) (address index : Z)
    : walk St () :=
  key_size ←$ wlift (ty_size b (lay_key lay));
  key_start ←$ slot_offset (lay_keys_offset lay) index key_size "key offset overflow";
  value_size ←$ wlift (ty_size b (lay_value lay));
  value_start ←$ slot_offset (lay_values_offset lay) index value_size "value offset overflow";
  key_bytes ←$ wreq (byte_range bytes key_start key_size) (WalkInvalid "truncated key slot");
  value_bytes ←$ wreq (byte_range bytes value_start value_size)
                   (WalkInvalid "truncated value slot");
  key_addr ←$ wreq (checked_add address key_start) (WalkInvalid "key address overflow");
  value_addr ←$ wreq (checked_add address value_start) (WalkInvalid "value address overflow");
  emit (mkValue (lay_key lay) key_addr key_bytes)
    (Some (mkValue (lay_value lay) value_addr value_bytes)).

(** The loop over a node's slots, [descend] walking the child before each. *)
Fixpoint btree_slots (descend : Z → walk St ()) (bytes : list Byte.byte)
    (lay : BTreeNodeLayout) (address : Z) (internal : bool) (indices : list Z) : walk St () :=
  match indices with
  | [] => wret ()
  | index :: indices =>
      _ ←$ (if internal then
              child ←$ btree_edge_address bytes lay index; descend child
            else wret ());
      _ ←$ btree_entry bytes lay address index;
      btree_slots descend bytes lay address internal indices
  end.

(** The body of the closure: the node read and walked. *)
Definition btree_node (descend : Z → walk St ()) (lay : BTreeNodeLayout) (address height : Z)
    : walk St () :=
  let node_type := if height =? 0 then lay_leaf lay else lay_internal lay in
  size ←$ wlift (ty_size b node_type);
  bytes ←$ match ctx_read ctx address size with
           | Got bytes => wret bytes
           | Marker m => wfail (if bool_decide (m = "<freed>"%string) then WalkMarker "<freed node>"
                                else WalkInvalid "unreadable node")
           end;
  len_size ←$ wlift (ty_size b (lay_leaf_len lay));
  len ←$ wreq (read_unsigned_at bytes (lay_leaf_len_offset lay) len_size)
           (WalkInvalid "truncated node length");
  if lay_key_slots lay <? len then wfail (WalkInvalid "node length exceeds capacity")
  else
    _ ←$ btree_slots descend bytes lay address (0 <? height) (z_range 0 (Z.to_nat len));
    if 0 <? height then child ←$ btree_edge_address bytes lay len; descend child
    else wret ().

(** [visited] holds the nodes between the root and this one: a node is taken out
    of it when its walk returns.  The height falls with each level, from a height
    no more than [MAX_HEIGHT]. *)
Fixpoint walk_btree_node (fuel : nat) (lay : BTreeNodeLayout) (visited : list Z)
    (address height : Z) : walk St () :=
  match fuel with
  | O => λ _, Panic
  | S fuel =>
      if address =? 0 then wfail (WalkInvalid "null node pointer")
      else if MAX_HEIGHT <? height then wfail (WalkInvalid "implausible tree height")
      else if bool_decide (address ∈ visited) then wfail (WalkInvalid "node cycle")
      else
        btree_node (λ child, walk_btree_node fuel lay (address :: visited) child (height - 1))
          lay address height
  end.

(** ** Hash tables *)

(** Reads of the table a marker refuses. *)
Definition table_read (addr size : Z) (what : string) : walk St (list Byte.byte) :=
  match ctx_read ctx addr size with
  | Got bytes => wret bytes
  | Marker m =>
      wfail (if bool_decide (m = "<freed>"%string) then WalkMarker "<freed table>"
             else if bool_decide (m = "<target unavailable>"%string)
             then WalkMarker "<target unavailable>"
             else WalkInvalid what)
  end.

Definition is_full (control : Byte.byte) : bool := Z.land (byte_Z control) 128 =? 0.

Definition hash_entry (table : list Byte.byte) (base start : Z) (ty : BundleTypeId) (offset : Z)
    (what : string) : walk St Value :=
  let at_ := u64_add start offset in
  size ←$ wlift (ty_size b ty);
  bytes ←$ wreq (byte_range table at_ size) (WalkInvalid what);
  wret (mkValue ty (u64_add base at_) bytes).

(** The loop over the control bytes; bucket [index] ends [index] buckets below
    them. *)
Fixpoint hash_buckets (table : list Byte.byte) (base buckets stride : Z) (key : BundleTypeId)
    (key_offset : Z) (value : option (BundleTypeId * Z)) (index : Z)
    (control : list Byte.byte) : walk St () :=
  match control with
  | [] => wret ()
  | c :: control =>
      _ ←$ (if is_full c then
              let start := u64_mul (u64_sub (u64_sub buckets 1) index) stride in
              key ←$ hash_entry table base start key key_offset "truncated key slot";
              value ←$ match value with
                       | Some (value, offset) =>
                           v ←$ hash_entry table base start value offset "truncated value slot";
                           wret (Some v)
                       | None => wret None
                       end;
              emit key value
            else wret ());
      hash_buckets table base buckets stride key key_offset value (index + 1) control
  end.

(** A live block at the buckets that ends before the control bytes do. *)
Definition past_allocation (base ctrl buckets : Z) : bool :=
  match heap ctx with
  | Some locate =>
      match locate base with
      | Live block => r_end block <? saturating_add ctrl buckets
      | _ => false
      end
  | None => false
  end.

Definition walk_hash_entries (bytes : list Byte.byte) (key : BundleTypeId)
    (value : option BundleTypeId) (entries : RMapEntries) : walk St () :=
  match entries with
  | RBTree _ _ _ _ _ _ _ _ _ _ _ _ _ _ _ _ _ =>
      wfail (WalkInvalid "storage does not match the map's value")
  | RHash bucket_mask_offset ctrl_offset bucket key_offset value_offset =>
      mask ←$ wreq (read_u64_at bytes bucket_mask_offset) (WalkMarker "<truncated bucket mask>");
      ctrl ←$ wreq (read_u64_at bytes ctrl_offset) (WalkMarker "<truncated control pointer>");
      buckets ←$ wreq (buckets ← checked_add mask 1;
                       if is_power_of_two buckets then Some buckets else None)
                   (WalkInvalid "bucket mask is not a power of two less one");
      if MAX_HASH_BUCKETS <? buckets then wfail (WalkInvalid "implausible bucket count")
      else if ctrl =? 0 then wfail (WalkInvalid "null control pointer")
      else
        stride ←$ wlift (ty_size b bucket);
        span ←$ wreq (checked_mul buckets stride) (WalkInvalid "table size overflow");
        base ←$ wreq (checked_sub ctrl span) (WalkInvalid "buckets start below address zero");
        control ←$ table_read ctrl buckets "unreadable control bytes";
        if forallb (λ c, negb (is_full c)) control then wret ()
        else if past_allocation base ctrl buckets then
          wfail (WalkInvalid "table runs past its allocation")
        else
          table ←$ table_read base span "unreadable buckets";
          hash_buckets table base buckets stride key key_offset
            (match value, value_offset with
             | Some value, Some offset => Some (value, offset)
             | _, _ => None
             end) 0 control
  end.

(** ** Maps *)

Definition walk_map_entries (bytes : list Byte.byte) (key : BundleTypeId)
    (value : option BundleTypeId) (entries : RMapEntries) : walk St () :=
  match entries, value with
  | RBTree root root_offset root_node root_node_offset height height_offset node_offset leaf
      leaf_len leaf_len_offset keys_offset key_slots values_offset internal edges_offset edge
      edge_pointer_offset, Some value =>
      root_size ←$ wlift (ty_size b root);
      root_bytes ←$ wreq (byte_range bytes root_offset root_size) (WalkMarker "<truncated root>");
      some ←$ wlift (check_variant b root root_bytes SOME_NAME);
      match some with
      | Some (inl (Some _)) =>
          root_node_size ←$ wlift (ty_size b root_node);
          root_node_bytes ←$ wreq (byte_range bytes root_node_offset root_node_size)
                               (WalkMarker "<truncated root node>");
          height_size ←$ wlift (ty_size b height);
          height ←$ wreq (read_unsigned_at root_node_bytes height_offset height_size)
                      (WalkMarker "<truncated height>");
          root_address ←$ wreq (read_u64_at root_node_bytes node_offset)
                            (WalkMarker "<truncated node pointer>");
          walk_btree_node (S (S (Z.to_nat MAX_HEIGHT)))
            (mkLayout key value leaf leaf_len leaf_len_offset keys_offset key_slots values_offset
               internal edges_offset edge edge_pointer_offset) [] root_address height
      | _ => wfail (WalkMarker "<invalid missing root>")
      end
  | _, _ => walk_hash_entries bytes key value entries
  end.
End walks.

Definition write_field_prefix (pretty : bool) (prefix : string) (depth : nat) (first : bool)
    : string :=
  if pretty then (newline +:+ write_indent prefix (S depth))%string
  else if first then " "%string else ", "%string.

Definition write_record_close (pretty : bool) (prefix : string) (depth : nat) : string :=
  if pretty then (newline +:+ write_indent prefix depth)%string else " "%string.

Section render.
Context (b : Bundle) {T : Type} `{!Target T} (ctx : RenderCtx T) (pretty : bool).

Definition child_piece (v : Value) : Piece :=
  Child (val_ty v) (val_addr v) (val_bytes v) (S (depth ctx)).

Definition comma : list Piece := if pretty then [Written ","] else [].

Definition field_prefix (first : bool) : Piece :=
  Written (write_field_prefix pretty (prefix ctx) (depth ctx) first).
Definition seq_prefix (first : bool) : Piece :=
  Written (write_seq_prefix pretty (prefix ctx) (depth ctx) first).

(** ** Maps *)

Definition TOO_MANY : MapWalkError := WalkInvalid "map contains more entries than length".

(** The key, the value unless the map is a set, and the comma. *)
Definition entry_pieces (key : Value) (value : option Value) : list Piece :=
  child_piece key
  :: match value with Some value => [Written ": "; child_piece value] | None => [] end ++ comma.

(** The closure of the streaming render, over its count and what it wrote. *)
Definition stream_entry (map_length : Z) (key : Value) (value : option Value)
    : walk (Z * list Piece) () := λ '(emitted, out),
  if emitted =? map_length then Ret ((emitted, out), inr TOO_MANY)
  else Ret ((emitted + 1, out ++ field_prefix (emitted =? 0) :: entry_pieces key value), inl ()).

(** The closure of the collecting pass, over the addresses it collects. *)
Definition collect_entry (map_length : Z) (key : Value) (value : option Value)
    : walk (list (Z * option Z)) () := λ collected,
  if Z.of_nat (length collected) =? map_length then Ret (collected, inr TOO_MANY)
  else Ret (collected ++ [(val_addr key, val_addr <$> value)], inl ()).

Definition write_map_tail (walked : () + MapWalkError) (emitted map_length : Z) : list Piece :=
  match walked with
  | inl _ =>
      if emitted =? map_length then []
      else [field_prefix (emitted =? 0);
            Written "<invalid: map contains fewer entries than length>"]
  | inr (WalkInvalid reason) =>
      [field_prefix (emitted =? 0); Written ("<invalid: " +:+ reason +:+ ">")%string]
  | inr (WalkMarker marker) => [field_prefix (emitted =? 0); Written marker]
  end ++ [Written (write_record_close pretty (prefix ctx) (depth ctx)); Written "}"].

(** One entry rendered from the addresses collected. *)
Definition write_map_entry (key : BundleTypeId) (key_addr : Z)
    (value : option (BundleTypeId * Z)) : outcome (list Piece) :=
  let read ty addr :=
    size ← ty_size b ty;
    Ret match ctx_read ctx addr size with
        | Got bytes => Got (mkValue ty addr bytes)
        | Marker m => Marker m
        end in
  key ← read key key_addr;
  value ← match value with
          | Some (ty, addr) => v ← read ty addr; Ret (Some v)
          | None => Ret None
          end;
  Ret match key, value with
      | Got key, None => entry_pieces key None
      | Got key, Some (Got value) => entry_pieces key (Some value)
      | Marker m, _ | _, Some (Marker m) => [Written m]
      end.

(** The pieces of each item of a range, or the panic one ends in. *)
Fixpoint render_items {A} (item : nat → outcome (list A)) (indices : list nat)
    : outcome (list A) :=
  match indices with
  | [] => Ret []
  | i :: indices => ps ← item i; rest ← render_items item indices; Ret (ps ++ rest)
  end.

Definition collected_item (key : BundleTypeId) (value : option BundleTypeId)
    (collected : list (Z * option Z)) (index : nat) : outcome (list Piece) :=
  '(key_addr, value_addr) ← or_panic (collected !! index);
  ps ← write_map_entry key key_addr
         (match value, value_addr with Some ty, Some addr => Some (ty, addr) | _, _ => None end);
  Ret (field_prefix (Nat.eqb index 0) :: ps).

(** The worker threads and the order their chunks arrive in, given how many there
    are. *)
Context (threads : nat) (arrivals : nat → list nat).

(** [render_chunked] of items that may panic: a worker's panic is the scope's. *)
Definition render_fanned {A} (item : nat → outcome (list A)) (total : nat) : outcome (list A) :=
  _ ← render_items item (seq 0 total);
  Ret (render_chunked total threads
         (λ start end_, match render_items item (seq start (end_ - start)) with
                        | Ret ps => ps
                        | Panic => []
                        end)
         (arrivals (chunk_count total threads))).

Definition eval_map_parallel (bytes : list Byte.byte) (map_length : Z) (key : BundleTypeId)
    (value : option BundleTypeId) (entries : RMapEntries) : outcome (list Piece) :=
  '(collected, walked) ←
    walk_map_entries b ctx (collect_entry map_length) bytes key value entries [];
  body ← render_fanned (collected_item key value collected) (length collected);
  Ret (body ++ write_map_tail walked (Z.of_nat (length collected)) map_length).

Definition eval_map_streaming (bytes : list Byte.byte) (map_length : Z) (key : BundleTypeId)
    (value : option BundleTypeId) (entries : RMapEntries) : outcome (list Piece) :=
  '((emitted, out), walked) ←
    walk_map_entries b ctx (stream_entry map_length) bytes key value entries (0, []);
  Ret (out ++ write_map_tail walked emitted map_length).

Definition eval_map (parallel : bool) (ty : BundleTypeId) (bytes : list Byte.byte)
    (length_offset length_size : Z) (key : BundleTypeId) (value : option BundleTypeId)
    (entries : RMapEntries) : outcome (list Piece) :=
  match read_unsigned_at bytes length_offset length_size with
  | None => Ret [Written TRUNCATED]
  | Some map_length =>
      nm ← ty_name b ty;
      let opened := [Written (string_of_bytes nm); Written " {"] in
      if map_length =? 0 then Ret (opened ++ [Written "}"])
      else
        body ← (if parallel && (MIN_PARALLEL_ITEMS <=? map_length)
                then eval_map_parallel bytes map_length key value entries
                else eval_map_streaming bytes map_length key value entries);
        Ret (opened ++ body)
  end.

(** ** Slices *)

(** The allocator and the two display budgets the context carries for them. *)
Context (allocator : option Heap) (max_str_len max_array_len : option Z).

Definition slice_item (es : Elements) (index : nat) : list Piece :=
  seq_prefix (Nat.eqb index 0) :: child_piece (el_get es (Z.of_nat index)) :: comma.

Definition shortfall_text (more : Z) (s : Shortfall) : string :=
  match s with
  | PastAllocation => ("<" +:+ dec more +:+ " more past its allocation>")%string
  | PastCap => ("<" +:+ dec more +:+ " more not shown>")%string
  | Unreadable => ("<" +:+ dec more +:+ " more unreadable>")%string
  end.

Definition eval_elements (parallel : bool) (es : Elements) : outcome (list Piece) :=
  if el_count es =? 0 then
    Ret [Written (match el_claimed es, el_shortfall es with
                  | Some _, PastAllocation => "<slice buffer overruns its allocation>"
                  | Some _, _ => "<unreadable slice buffer>"
                  | None, _ => "[]"
                  end)]
  else
    let len := Z.to_nat (el_count es) in
    body ← (if parallel && (MIN_PARALLEL_ITEMS <=? el_count es)
            then render_fanned (λ i, Ret (slice_item es i)) len
            else render_items (λ i, Ret (slice_item es i)) (seq 0 len));
    Ret (Written "[" :: body
         ++ match el_claimed es with
            | Some claimed =>
                [seq_prefix false;
                 Written (shortfall_text (u64_sub claimed (el_count es)) (el_shortfall es))]
            | None => []
            end
         ++ [Written (write_seq_close pretty (prefix ctx) (depth ctx) true); Written "]"]).

Definition eval_slice (parallel : bool) (header : FatHeader) (element : BundleTypeId)
    (element_size : Z) (bytes : list Byte.byte) : outcome (list Piece) :=
  let cap := if element_size =? 1 then max_str_len else max_array_len in
  '(_, r) ← read_fat header element element_size bytes (proc ctx) (for_header allocator header)
              cap;
  match r with
  | inl es => eval_elements parallel es
  | inr (SeqInvalid why) => Ret [Written ("<invalid slice: " +:+ why +:+ ">")%string]
  | inr (SeqUnreadable _) => Ret [Written "<unreadable slice buffer>"]
  | inr SeqFreed => Ret [Written "<freed slice buffer>"]
  | inr SeqNoTarget => Ret [Written "<target unavailable>"]
  end.

(** ** Linked lists *)

Definition LIST_GUARD : nat := 4096.

(** The loop: the nodes seen, and whether one was written. *)
Fixpoint list_walk (guard : nat) (next_offset : Z) (node : RNode) (node_ty : BundleTypeId)
    (node_size : Z) (cur : Z) (seen : list Z) (any : bool) : list Piece * bool :=
  match guard with
  | O => ([], any)
  | S guard =>
      if cur =? 0 then ([], any)
      else if bool_decide (cur ∈ seen) then ([], any)
      else
        match ctx_read ctx cur node_size with
        | Marker m => ([Written (write_seq_marker m any)], any)
        | Got node_bytes =>
            let here := seq_prefix (negb any)
              :: Nested node node_ty cur node_bytes (S (depth ctx)) :: comma in
            match read_u64_at node_bytes next_offset with
            | Some next =>
                let '(rest, any) := list_walk guard next_offset node node_ty node_size next
                                      (cur :: seen) true in
                (here ++ rest, any)
            | None => (here, true)
            end
        end
  end.

Definition eval_list (head_offset next_offset : Z) (node : RNode) (node_ty : BundleTypeId)
    (node_size : Z) (bytes : list Byte.byte) : list Piece :=
  match read_u64_at bytes head_offset with
  | None => [Written TRUNCATED]
  | Some head =>
      if head =? 0 then [Written "[]"]
      else if negb (bool_decide (is_Some (proc ctx))) then [Written "<target unavailable>"]
      else
        let '(items, any) := list_walk LIST_GUARD next_offset node node_ty node_size head [] false in
        Written "[" :: items
        ++ [Written (write_seq_close pretty (prefix ctx) (depth ctx) any); Written "]"]
  end.
End render.
