(* ===== verification/ElementsFacts.v ===== *)
(** Facts about sequence reads: what a header decodes to, what a buffer read
    serves, and where the elements of a ring are. *)

From S2P Require Import Prelude Text StringTable Target Schema BundleCheck TypeView DisplayResolve DisplayEval EvalFacts Value Elements.

Local Open Scope Z_scope.

(** ** Headers *)

Lemma req_inl {A} (o : option A) why a : req o why = inl a → o = Some a.
Proof. destruct o; naive_solver. Qed.

Lemma gbind_ungated {A B} (a : A) (f : A → gated B) : gbind (ungated (inl a)) f = f a.
Proof. unfold gbind, ungated. by destruct (f a) as [[]|]. Qed.

Lemma byte_range_bounds bytes offset size bs :
  byte_range bytes offset size = Some bs →
  Z.of_nat (length bs) = size ∧ 0 <= offset ∧ 0 <= size ∧ offset + size <= Z.of_nat (length bytes).
Proof.
  unfold byte_range, bytes_get, checked_add. intros H.
  destruct (offset + size <? W64); [|done]. cbn [mbind option_bind] in H.
  pose proof (length_slice _ _ _ _ H) as Hl. unfold slice in H.
  destruct (_ && _ && _) eqn:E; [|done]. zb. lia.
Qed.

Lemma read_u64_at_u64 bytes offset w : read_u64_at bytes offset = Some w → is_u64 w.
Proof.
  unfold read_u64_at. intros (bs & Hb & ->)%fmap_Some. apply byte_range_bounds in Hb as [Hb _].
  pose proof (from_le_bytes_range bs) as Hr. rewrite Hb in Hr. exact Hr.
Qed.

Lemma read_unsigned_at_word bytes offset size w :
  read_unsigned_at bytes offset size = Some w → is_u64 w.
Proof.
  intros H. pose proof H as H'. unfold read_unsigned_at in H'. apply bind_Some in H' as (bs & Hb & _).
  apply byte_range_bounds in Hb. eapply read_unsigned_at_u64; [done|lia].
Qed.

(** A decoded header: words, a ring whose head is a slot, and a count its slots
    hold. *)
Lemma decode_header_spec bytes header stride base count ring :
  decode_header bytes header stride = inl (base, count, ring) →
  0 <= fh_data_offset header →
  is_u64 base ∧ is_u64 count ∧
  ∀ r, ring = Some r →
    is_u64 (slots r) ∧ 0 <= ring_head r ∧ (ring_head r = 0 ∨ ring_head r < slots r) ∧
    (stride ≠ 0 → count <= slots r).
Proof.
  unfold decode_header. intros H Hd.
  destruct (req _ "the length does not fit the value") as [n|] eqn:En; [|done].
  apply req_inl, read_unsigned_at_word in En.
  destruct (decode_capacity bytes header stride n) as [r|] eqn:Er; [|done].
  destruct (req _ "the data pointer does not fit the value") as [p|] eqn:Ep; [|done].
  apply req_inl, read_u64_at_u64 in Ep.
  assert (Hbase : is_u64 base ∧ n = count ∧ r = ring).
  { destruct (p =? 0); [by simplify_eq|]. destruct (checked_add _ _) as [x|] eqn:Ea; [|done].
    apply checked_add_Some in Ea as [-> ?]. unfold is_u64 in *. simplify_eq. split; [lia|done]. }
  destruct Hbase as (Hbase & -> & ->). split; [done|]. split; [done|]. intros r ->.
  unfold decode_capacity in Er. destruct (fh_capacity header) as [[co cs]|]; [|done].
  destruct (req _ "the capacity does not fit the value") as [cap|] eqn:Ec; [|done].
  apply req_inl, read_unsigned_at_word in Ec.
  destruct (_ && _) eqn:E1 in Er; [done|]. unfold decode_ring in Er.
  destruct (fh_head header) as [[ho hs]|]; [|done].
  destruct (req _ "the ring head does not fit the value") as [hd|] eqn:Eh; [|done].
  apply req_inl, read_unsigned_at_word in Eh.
  destruct (_ && _) eqn:E2 in Er; [done|]. injection Er as <-. cbn. unfold is_u64 in *.
  apply andb_false_iff in E1, E2. rewrite !negb_false_iff, !Z.eqb_eq in *. rewrite Z.ltb_ge in E1.
  rewrite Z.leb_gt in E2. split; [done|]. split; [lia|]. split; [lia|]. intros Hs. by destruct E1.
Qed.

(** ** Memory *)

(** The bytes at a run of addresses. *)
Definition window (mem : Z → Byte.byte) (a n : Z) : list Byte.byte := mem <$> z_range a (Z.to_nat n).

Lemma length_window mem a n : length (window mem a n) = Z.to_nat n.
Proof. unfold window. by rewrite length_fmap, length_z_range. Qed.

Lemma window_slice mem a n i m :
  0 <= i → 0 <= m → i + m <= n → bytes_get (window mem a n) i (i + m) = Some (window mem (a + i) m).
Proof.
  intros Hi Hm Hn. unfold bytes_get, slice. rewrite length_window.
  replace (i + m - i) with m by lia.
  replace ((0 <=? i) && (0 <=? m) && (i + m <=? Z.of_nat (Z.to_nat n))) with true
    by (symmetry; zb; lia).
  f_equal. unfold window.
  replace (Z.to_nat n) with (Z.to_nat i + (Z.to_nat m + Z.to_nat (n - i - m)))%nat by lia.
  rewrite z_range_app, fmap_app, drop_app_length' by by rewrite length_fmap, length_z_range.
  rewrite z_range_app, fmap_app, take_app_length' by by rewrite length_fmap, length_z_range.
  by rewrite Z2Nat.id by done.
Qed.

Section reads.
Context (b : Bundle) {T : Type} `{!Target T} (p : T) (mem : Z → Byte.byte) (gate : HeapGate).

(** What the read relies on of the target and the allocator: memory is what it
    is, a readable length is of the run asked about, and a live block holds the
    address it is the answer for. *)
Record sound_reads : Prop := mkSoundReads {
  reads_window : ∀ a n bs, read_bytes p a n = Ok bs → bs = window mem a n;
  readable_most : ∀ a n, 0 <= n → 0 <= readable_len p a n <= n;
  block_holds : ∀ heap a block, gate_heap gate = Some heap → heap_locate heap a = Live block →
    a <= r_end block < W64
}.

(** Whether the allocator grants [n] bytes at [a] of one of its blocks. *)
Definition in_block (g : HeapGate) (a n : Z) : Prop :=
  match gate_heap g with
  | None => True
  | Some heap =>
      match heap_locate heap a with
      | Live block => a + n <= r_end block
      | Freed => False
      | Unknown => True
      end
  end.

Definition refused_freed (a : Z) : Prop :=
  ∃ heap, gate_heap gate = Some heap ∧ heap_locate heap a = Freed.

(** A target that has every byte, and no allocator to ask. *)
Definition plentiful : Prop := gate_heap gate = None ∧ ∀ a n, readable_len p a n = n.

(** The units of a run a display cap leaves. *)
Definition capped (cap : option Z) (count : Z) : Z :=
  match cap with Some c => Z.min c count | None => count end.

Hypothesis Hreads : sound_reads.

Lemma bound_spec g base want :
  gate_heap g = gate_heap gate → is_u64 base → 0 <= want →
  ∃ gates r, bound_to_allocation g base want = Ret (gates, r) ∧
    match r with
    | inl (w, s) => 0 <= w <= want ∧ in_block gate base w ∧ (gate_heap gate = None → w = want)
    | inr e => e = SeqFreed ∧ refused_freed base
    end.
Proof.
  intros Hg Hb Hw. unfold bound_to_allocation, in_block, refused_freed. rewrite Hg.
  destruct (gate_heap gate) as [heap|] eqn:Eh.
  2: { eexists _, _. split; [done|]. repeat split; try lia. }
  destruct (heap_locate heap base) as [block| |] eqn:El.
  - pose proof (block_holds Hreads heap base block Eh El) as Hblk. unfold is_u64 in Hb.
    rewrite u64_sub_small by (unfold is_u64; lia).
    destruct (owning g && _), (r_end block - base <? want) eqn:E; zb; cbn;
      eexists _, _; (split; [done|]); repeat split; try lia; done.
  - eexists _, _. split; [done|]. split; [done|]. eauto.
  - eexists _, _. split; [done|]. repeat split; lia.
Qed.

(** What a read of [count] units at [base] gives: the leading ones, believed only
    as far as the target and the allocator go, with the claim kept when it is not
    met. *)
Definition serves (base stride count : Z) (cap : option Z) (buf : Buffer) : Prop :=
  0 <= buf_count buf <= count ∧
  buf_claimed buf = (if buf_count buf <? count then Some count else None) ∧
  buf_bytes buf = window mem base (buf_count buf * stride) ∧
  (0 < buf_count buf → base + count * stride < W64 ∧ in_block gate base (buf_count buf * stride)) ∧
  (∀ c, cap = Some c → buf_count buf <= c) ∧
  (plentiful → buf_count buf = capped cap count).

Lemma read_served_spec base stride count want s cap :
  0 < stride → 0 <= want <= count * stride → base + count * stride < W64 → 0 <= base → 0 < count →
  in_block gate base want → (∀ c, cap = Some c → 0 <= c ∧ want <= c * stride) →
  (plentiful → want = capped cap count * stride) →
  ∃ gates r, read_served p base stride count want s = Ret (gates, r) ∧
    match r with
    | inl buf => serves base stride count cap buf
    | inr e => ∃ n e', e = SeqUnreadable e' ∧ ∀ bs, read_bytes p base n ≠ Ok bs
    end.
Proof.
  intros Hs Hw Hend Hb Hc Hgr Hcap Hall. unfold read_served, unfailing, rem_u64, div_u64.
  rewrite (proj2 (Z.eqb_neq stride 0)) by lia. cbn [gbind]. rewrite !outcome_bind_eq. cbn [gbind].
  pose proof (readable_most Hreads base want ltac:(lia)) as Hrl.
  assert (Hk : plentiful → readable_len p base want / stride = capped cap count).
  { intros Hp. rewrite (proj2 Hp), (Hall Hp). by apply Z.div_mul, not_eq_sym, Z.lt_neq. }
  set (n := readable_len p base want) in *.
  pose proof (Z.mod_pos_bound n stride Hs) as Hm. pose proof (Z.div_mod n stride ltac:(lia)) as Hdm.
  assert (0 <= n / stride) by (apply Z.div_pos; lia).
  rewrite u64_sub_small by (unfold is_u64; nia).
  replace (n - n mod stride) with (n / stride * stride) by lia. set (k := n / stride) in *.
  destruct (k * stride =? 0) eqn:Ek; zb.
  - eexists _, _. split; [done|]. unfold serves. cbn.
    assert (k = 0) as Hk0 by nia. split; [lia|]. rewrite (proj2 (Z.ltb_lt 0 count)) by lia.
    split; [done|]. split; [done|]. split; [lia|]. split; [intros c Hcc; by apply Hcap|].
    intros Hp. rewrite <- (Hk Hp). lia.
  - unfold target_read. destruct (read_bytes p base (k * stride)) as [bs|e] eqn:Er.
    + cbn [succeed]. rewrite Z.div_mul by lia. cbn. eexists _, _. split; [done|].
      unfold serves. cbn. assert (0 < k) by nia. split; [nia|]. split; [done|].
      split; [by apply (reads_window Hreads)|]. split.
      * intros _. split; [done|]. unfold in_block in *.
        destruct (gate_heap gate) as [h|]; [|done]. destruct (heap_locate h base); try done. nia.
      * split; [|done]. intros c Hcc. destruct (Hcap c Hcc). nia.
    + cbn. eexists _, _. split; [done|]. eexists _, _. split; [done|]. by rewrite Er.
Qed.

(** Why a read is refused. *)
Definition refusal (base stride count : Z) (e : SeqError) : Prop :=
  match e with
  | SeqInvalid _ => base = 0 ∨ W64 <= base + count * stride
  | SeqUnreadable _ => ∃ n, ∀ bs, read_bytes p base n ≠ Ok bs
  | SeqFreed => refused_freed base
  | SeqNoTarget => False
  end.

(** A read of a sequence refused: a run of no more of its units is. *)
Definition refused (base stride count : Z) (e : SeqError) : Prop :=
  0 < count ∧ (base = 0 ∨ ∃ run n, n <= count ∧ refusal run stride n e).

Lemma read_buffer_spec g base stride count cap :
  gate_heap g = gate_heap gate → 0 < stride → is_u64 base → is_u64 count →
  (∀ c, cap = Some c → 0 <= c) →
  ∃ gates r, read_buffer (Some p) base stride count g cap = Ret (gates, r) ∧
    match r with
    | inl buf => serves base stride count cap buf
    | inr e => 0 < count ∧ refusal base stride count e
    end.
Proof.
  intros Hg Hs Hb Hc Hcap. unfold is_u64 in *. unfold read_buffer.
  destruct (count =? 0) eqn:E0; zb.
  { eexists _, _. split; [done|]. subst count. repeat split; cbn; try done; try lia.
    unfold capped. destruct cap as [c|]; [specialize (Hcap c eq_refl); lia|done]. }
  destruct (base =? 0) eqn:E1; zb.
  { eexists _, _. split; [done|]. split; [lia|]. by left. }
  rewrite (proj2 (Z.eqb_neq stride 0)) by lia.
  destruct (checked_mul count stride) as [want|] eqn:Ew.
  2: { eexists _, _. split; [done|]. split; [lia|]. right. unfold checked_mul in Ew.
       destruct (Z.ltb_spec (count * stride) W64); [done|lia]. }
  apply checked_mul_Some in Ew as [-> Hw]. cbn [req ungated gbind].
  destruct (checked_add base (count * stride)) as [x|] eqn:Ea.
  2: { eexists _, _. split; [done|]. split; [lia|]. right. unfold checked_add in Ea.
       destruct (Z.ltb_spec (base + count * stride) W64); [done|lia]. }
  apply checked_add_Some in Ea as [-> Hend]. cbn [req ungated gbind app].
  set (wc := match cap with Some _ => _ | None => _ end).
  assert (Hwc : 0 <= wc.1 <= count * stride ∧ (∀ c, cap = Some c → 0 <= c ∧ wc.1 <= c * stride) ∧
    wc.1 = capped cap count * stride).
  { unfold wc, capped. destruct cap as [c|]; [|split; [cbn; nia|done]].
    specialize (Hcap c eq_refl). destruct (c <? count) eqn:Ecc; zb; cbn.
    - rewrite u64_mul_small by (unfold is_u64; nia). split; [nia|]. split; [intros c' [= <-]; lia|].
      by rewrite Z.min_l by lia.
    - split; [nia|]. split; [intros c' [= <-]; nia|]. by rewrite Z.min_r by lia. }
  destruct wc as [want is_capped]. cbn [fst] in Hwc. destruct Hwc as (Hwant & Hc' & Hall).
  destruct (bound_spec g base want Hg ltac:(done) ltac:(lia)) as (gs & r & -> & Hr).
  cbn [gbind]. destruct r as [[w s]|e].
  2: { eexists _, _. split; [done|]. destruct Hr as [-> Hr]. split; [lia|done]. }
  destruct Hr as (Hw' & Hgr & Hnone).
  destruct (read_served_spec base stride count w (gate_shortfall s is_capped) cap Hs ltac:(lia) Hend
    ltac:(lia) ltac:(lia) Hgr) as (gs2 & r2 & -> & Hr2).
  { intros c Hcc. destruct (Hc' c Hcc). lia. }
  { intros [Hg' _]. by rewrite (Hnone Hg'). }
  eexists _, _. split; [done|]. destruct r2 as [buf|e]; [done|].
  split; [lia|]. destruct Hr2 as (n & e' & -> & Hn). by exists n.
Qed.

Lemma read_buffer_zst g base count cap :
  is_u64 count →
  ∃ r, read_buffer (Some p) base 0 count g cap = Ret ([], r) ∧
    match r with
    | inl buf => 0 <= buf_count buf <= count ∧ buf_bytes buf = [] ∧
        buf_claimed buf = (if buf_count buf <? count then Some count else None)
    | inr e => 0 < count ∧ refusal base 0 count e
    end.
Proof.
  unfold is_u64, read_buffer. intros Hc. destruct (count =? 0) eqn:E0; zb.
  { eexists _. split; [done|]. subst. repeat split; cbn; try done; lia. }
  destruct (base =? 0) eqn:E1; zb.
  { eexists _. split; [done|]. split; [lia|]. by left. }
  eexists _. split; [done|]. destruct (MAX_ZST_ELEMENTS <? count) eqn:E2; cbn; rewrite ?E2; zb;
    unfold MAX_ZST_ELEMENTS in *; repeat split; try lia.
  rewrite (proj2 (Z.ltb_ge count count)) by lia. done.
Qed.

(** ** Elements *)

Definition slot_of (ring : option Ring) (i : Z) : Z :=
  match ring with Some r => (ring_head r + i) `mod` slots r | None => i end.

(** The address of an element. *)
Definition slot_addr (ring : option Ring) (base stride i : Z) : Z := base + slot_of ring i * stride.

(** The elements of a sequence of [count] claimed, as far as they go: each a
    window of memory at its slot, in a run an allocation grants. *)
Definition elements_ok (element : BundleTypeId) (base stride count : Z) (ring : option Ring)
    (cap : option Z) (es : Elements) : Prop :=
  0 <= el_count es <= count ∧
  el_claimed es = (if el_count es <? count then Some count else None) ∧
  (stride ≠ 0 → (∀ c, cap = Some c → el_count es <= c) ∧
     (plentiful → el_count es = capped cap count)) ∧
  ∀ i, 0 <= i < el_count es →
    let a := slot_addr ring base stride i in
    el_get es i = mkValue element a (window mem a stride) ∧
    (stride ≠ 0 → a + stride < W64 ∧
       ∃ run, base <= run <= a ∧ in_block gate run (a + stride - run)).

Lemma in_block_weaken a n m : m <= n → in_block gate a n → in_block gate a m.
Proof.
  unfold in_block. intros. destruct (gate_heap gate); [|done]. destruct (heap_locate _ _); try done. lia.
Qed.

(** One unit of a run served. *)
Lemma served_unit base stride count cap buf i :
  0 < stride → 0 <= base → serves base stride count cap buf → 0 <= i < buf_count buf →
  bytes_get (buf_bytes buf) (u64_mul i stride) (u64_add (u64_mul i stride) stride)
    = Some (window mem (base + i * stride) stride) ∧
  u64_add base (u64_mul i stride) = base + i * stride ∧ base + i * stride + stride < W64 ∧
  in_block gate base (i * stride + stride).
Proof.
  intros Hs Hb (Hc & _ & Hbs & Hgr & _ & _) Hi. destruct Hgr as [Hend Hgr]; [lia|].
  rewrite u64_mul_small by (unfold is_u64; nia). rewrite !u64_add_small by (unfold is_u64; nia).
  split; [rewrite Hbs; apply window_slice; nia|]. split; [done|]. split; [nia|].
  eapply in_block_weaken; [|done]. nia.
Qed.

Lemma over_ok element base stride count cap buf :
  0 < stride → 0 <= base → serves base stride count cap buf →
  elements_ok element base stride count None cap (over buf element base stride).
Proof.
  intros Hs Hb Hok. pose proof Hok as (Hc & Hcl & _ & _ & Hcap). split; [done|]. split; [done|].
  split; [by intros _|]. intros i Hi. cbn [over el_count] in Hi. unfold slot_addr, slot_of.
  destruct (served_unit base stride count cap buf i Hs Hb Hok Hi) as (Hg & Ha & He & Hgr).
  unfold el_get. cbn [over el_wrapped el_base el_bytes el_stride el_element].
  rewrite Hg, Ha. split; [done|]. intros _. split; [done|]. exists base. split; [nia|].
  by replace (base + i * stride + stride - base) with (i * stride + stride) by lia.
Qed.

Lemma zst_ok element base count cap buf ring :
  is_u64 base → 0 <= buf_count buf <= count → count < W64 →
  buf_claimed buf = (if buf_count buf <? count then Some count else None) → buf_bytes buf = [] →
  elements_ok element base 0 count ring cap (over buf element base 0).
Proof.
  unfold is_u64. intros Hb Hc Hc64 Hcl Hbs. split; [done|]. split; [done|]. split; [done|].
  intros i Hi. unfold slot_addr. rewrite Z.mul_0_r, Z.add_0_r. split; [|done].
  unfold el_get. cbn [over el_wrapped el_base el_bytes el_stride el_element]. rewrite Hbs.
  unfold u64_mul. rewrite Z.mul_0_r, Z.mod_0_l by done. rewrite !u64_add_small, Z.add_0_r
    by (unfold is_u64; lia). done.
Qed.

(** A slot of a ring's front run, and of its back run. *)
Lemma slot_front r i : 0 <= ring_head r → 0 <= i → ring_head r + i < slots r →
  slot_of (Some r) i = ring_head r + i.
Proof. intros. apply Z.mod_small. lia. Qed.

Lemma slot_back r i : ring_head r < slots r → slots r <= ring_head r + i → i < slots r →
  slot_of (Some r) i = i - (slots r - ring_head r).
Proof.
  intros. unfold slot_of. symmetry. apply (Z.mod_unique_pos _ _ 1); lia.
Qed.

Lemma read_ring_spec r element base stride count cap :
  0 < stride → is_u64 base → 0 < count → is_u64 (slots r) → 0 <= ring_head r →
  ring_head r < slots r → count <= slots r → (∀ c, cap = Some c → 0 <= c) →
  ∃ gates res, read_ring r element base stride count (Some p) gate cap = Ret (gates, res) ∧
    match res with
    | inl es => elements_ok element base stride count (Some r) cap es
    | inr e => ∃ run n, (run = base ∨ run = base + ring_head r * stride) ∧ n <= count ∧
        (base = 0 ∨ refusal run stride n e)
    end.
Proof.
  unfold is_u64. intros Hs Hb Hc Hsl Hh0 Hh Hcs Hcap. unfold read_ring.
  assert (Hhs : 0 <= ring_head r * stride) by (apply Z.mul_nonneg_nonneg; lia).
  destruct (base =? 0) eqn:E0; zb.
  { eexists _, _. split; [done|]. exists base, 0. split; [by left|]. split; [lia|]. by left. }
  destruct (checked_mul (ring_head r) stride) as [off|] eqn:Em; cbn [mbind option_bind].
  2: { eexists _, _. split; [done|]. exists (base + ring_head r * stride), 0. split; [by right|].
       split; [lia|]. right. right. unfold checked_mul in Em.
       destruct (Z.ltb_spec (ring_head r * stride) W64); [done|lia]. }
  apply checked_mul_Some in Em as [-> Hm].
  destruct (checked_add base (ring_head r * stride)) as [start|] eqn:Ea.
  2: { eexists _, _. split; [done|]. exists (base + ring_head r * stride), 0. split; [by right|].
       split; [lia|]. right. right. unfold checked_add in Ea.
       destruct (Z.ltb_spec (base + ring_head r * stride) W64); [done|lia]. }
  apply checked_add_Some in Ea as [-> Hst]. cbn [req ungated gbind app].
  rewrite u64_sub_small by (unfold is_u64; lia). set (k := Z.min count (slots r - ring_head r)).
  destruct (read_buffer_spec (mkHeapGate (gate_heap gate) (owning gate && (ring_head r =? 0)))
    (base + ring_head r * stride) stride k cap eq_refl Hs ltac:(unfold is_u64; nia)
    ltac:(unfold is_u64; lia) Hcap) as (gs & res & -> & Hf).
  destruct res as [front|e]; cbn [gbind].
  2: { eexists _, _. split; [done|]. exists (base + ring_head r * stride), k. split; [by right|].
       split; [lia|]. right. apply Hf. }
  pose proof Hf as ((Hk0 & Hk) & Hcl & _ & _ & Hfc & Hfp).
  assert (Hfront : ∀ i, 0 <= i < buf_count front →
    slot_addr (Some r) base stride i = base + ring_head r * stride + i * stride).
  { intros i Hi. unfold slot_addr. rewrite slot_front by lia. lia. }
  assert (Hunit : ∀ i, 0 <= i < buf_count front →
    let a := slot_addr (Some r) base stride i in
    bytes_get (buf_bytes front) (u64_mul i stride) (u64_add (u64_mul i stride) stride)
      = Some (window mem a stride) ∧
    u64_add (base + ring_head r * stride) (u64_mul i stride) = a ∧
    a + stride < W64 ∧ ∃ run, base <= run <= a ∧ in_block gate run (a + stride - run)).
  { intros i Hi. cbn. rewrite (Hfront i Hi).
    destruct (served_unit (base + ring_head r * stride) stride k cap front i Hs ltac:(lia) Hf Hi) as (H1 & H2 & H3 & H4).
    split; [done|]. split; [done|]. split; [done|]. exists (base + ring_head r * stride).
    assert (0 <= i * stride) by (apply Z.mul_nonneg_nonneg; lia). split; [lia|]. eapply in_block_weaken; [|exact H4]. lia. }
  cbn [over el_count el_claimed el_shortfall el_bytes].
  destruct (buf_count front <? k) eqn:Efs; zb.
  { eexists _, _. split; [done|]. split; [cbn; lia|]. cbn [el_count el_claimed].
    rewrite (proj2 (Z.ltb_lt (buf_count front) count)) by lia. split; [done|]. split.
    { intros _. split; [done|]. intros Hp. specialize (Hfp Hp). unfold capped in *. destruct cap; lia. }
    intros i Hi. cbn [el_count] in Hi. destruct (Hunit i Hi) as (H1 & H2 & H3 & H4).
    unfold el_get. cbn [el_wrapped el_base el_bytes el_stride el_element]. rewrite H1, H2. done. }
  assert (Hfk : buf_count front = k) by lia.
  destruct (k =? count) eqn:Ekc; zb.
  { eexists _, _. split; [done|]. split; [cbn; lia|]. cbn [over el_count el_claimed].
    split; [rewrite (proj2 (Z.ltb_ge (buf_count front) count)) by lia; exact Hcl|]. split.
    { intros _. split; [done|]. intros Hp. by rewrite <- Ekc, <- (Hfp Hp). }
    intros i Hi. cbn [over el_count] in Hi. destruct (Hunit i Hi) as (H1 & H2 & H3 & H4).
    unfold el_get. cbn [over el_wrapped el_base el_bytes el_stride el_element].
    rewrite H1, H2. done. }
  assert (Hksl : k = slots r - ring_head r) by lia.
  rewrite (u64_sub_small count k) by (unfold is_u64; lia).
  destruct (read_buffer_spec gate base stride (count - k) ((λ cap, Z.max 0 (cap - k)) <$> cap)
    eq_refl Hs Hb ltac:(unfold is_u64; lia)) as (gs2 & res2 & -> & Hbk).
  { intros c Hcc. destruct cap; [|done]. injection Hcc as <-. lia. }
  destruct res2 as [back|e]; cbn [gbind].
  2: { eexists _, _. split; [done|]. exists base, (count - k). split; [by left|].
       split; [lia|]. right. apply Hbk. }
  pose proof Hbk as ((Hb0 & Hbc) & Hbcl & _ & _ & Hbcap & Hbp).
  eexists _, _. split; [done|]. unfold elements_ok. cbn [el_count el_claimed].
  rewrite u64_add_small by (unfold is_u64; lia). split; [lia|]. split.
  { rewrite Hbcl. destruct (Z.ltb_spec (buf_count back) (count - k)),
      (Z.ltb_spec (k + buf_count back) count); try lia; done. }
  split.
  { intros _. split.
    - intros c ->. specialize (Hfc c eq_refl). specialize (Hbcap _ eq_refl). lia.
    - intros Hp. specialize (Hfp Hp). specialize (Hbp Hp). unfold capped in *. destruct cap; cbn in Hbp; lia. }
  intros i Hi. destruct (Z.lt_ge_cases i k) as [Hik|Hik].
  - destruct (Hunit i ltac:(lia)) as (H1 & H2 & H3 & H4).
    unfold el_get. cbn [el_wrapped el_base el_bytes el_stride el_element split].
    rewrite (proj2 (Z.leb_gt k i)) by lia. rewrite H1, H2. done.
  - assert (Ha : slot_addr (Some r) base stride i = base + (i - k) * stride).
    { unfold slot_addr. rewrite slot_back by lia. lia. }
    destruct (served_unit base stride (count - k) _ back (i - k) Hs ltac:(lia) Hbk ltac:(lia))
      as (H1 & H2 & H3 & H4).
    unfold el_get. cbn [el_wrapped el_base el_bytes el_stride el_element split w_base w_bytes].
    rewrite (proj2 (Z.leb_le k i)) by lia. rewrite (u64_sub_small i k) by (unfold is_u64; lia).
    rewrite H1, H2, Ha. split; [done|]. intros _. split; [done|]. exists base. split; [nia|].
    eapply in_block_weaken; [|exact H4]. lia.
Qed.

(** A buffer read in one run: a vector's, or a ring's with nothing to wrap. *)
Lemma read_flat_spec element base stride count ring cap :
  is_u64 stride → is_u64 base → is_u64 count → (∀ c, cap = Some c → 0 <= c) →
  ∃ gates r,
    gbind (read_buffer (Some p) base stride count gate cap)
      (λ buffer, gret (over buffer element base stride)) = Ret (gates, r) ∧
    match r with
    | inl es => (stride = 0 ∨ ring = None ∨ count = 0) → elements_ok element base stride count ring cap es
    | inr e => refused base stride count e
    end.
Proof.
  unfold is_u64. intros Hs Hb Hc Hcap. destruct (Z.eq_dec stride 0) as [->|Hs0].
  - destruct (read_buffer_zst gate base count cap Hc) as (r & -> & Hz). cbn [gbind].
    destruct r as [buf|e]; eexists _, _; (split; [done|]).
    2: { destruct Hz. split; [done|]. right. by exists base, count. }
    intros _. destruct Hz as (H1 & H2 & H3). apply zst_ok; try done; lia.
  - destruct (read_buffer_spec gate base stride count cap eq_refl ltac:(lia) Hb Hc Hcap)
      as (gs & r & -> & Hz). cbn [gbind].
    destruct r as [buf|e]; eexists _, _; (split; [done|]).
    2: { destruct Hz. split; [done|]. right. by exists base, count. }
    pose proof (over_ok element base stride count cap buf ltac:(lia) ltac:(lia) Hz) as Ho.
    intros [?|[->|Hc0]]; [done|done|]. destruct Ho as (H1 & H2 & H3 & H4).
    split; [done|]. split; [done|]. split; [done|]. intros i Hi. lia.
Qed.
End reads.
