(* ===== verification/MapFacts.v ===== *)
(** Facts about the walks of a map's storage: two walks that differ in what they
    do with an entry run alike, and an entry's key and value can be read again
    where the walk says they are. *)

From S2P Require Import Prelude Text StringTable Target Schema BundleCheck TypeView DisplayResolve DisplayEval EvalFacts Value Elements ElementsFacts Par Collections.

Local Open Scope Z_scope.

(** ** Simulation *)

Section sim.
Context {St1 St2 : Type} (R : St1 → St2 → Prop).

(** Two walks that keep their states related and end alike. *)
Definition wsim {A} (m1 : walk St1 A) (m2 : walk St2 A) : Prop :=
  ∀ s1 s2, R s1 s2 →
    match m1 s1, m2 s2 with
    | Ret (s1', r1), Ret (s2', r2) => R s1' s2' ∧ r1 = r2
    | Panic, Panic => True
    | _, _ => False
    end.

Lemma wsim_ret {A} (a : A) : wsim (wret a) (wret a).
Proof. by intros s1 s2 H. Qed.
Lemma wsim_fail {A} e : wsim (A := A) (wfail e) (wfail e).
Proof. by intros s1 s2 H. Qed.
Lemma wsim_panic {A} : wsim (A := A) (λ _, Panic) (λ _, Panic).
Proof. by intros s1 s2 H. Qed.

Lemma wsim_bind {A B} (m1 : walk St1 A) (m2 : walk St2 A) (f1 : A → walk St1 B) f2 :
  wsim m1 m2 → (∀ a, wsim (f1 a) (f2 a)) → wsim (wbind m1 f1) (wbind m2 f2).
Proof.
  intros Hm Hf s1 s2 H. specialize (Hm s1 s2 H). unfold wbind.
  destruct (m1 s1) as [[s1' [a|e]]|], (m2 s2) as [[s2' [a'|e']]|]; try done.
  - destruct Hm as [H' [= ->]]. by apply Hf.
  - by destruct Hm.
  - by destruct Hm.
  - destruct Hm as [H' [= ->]]. done.
Qed.

Lemma wsim_ret_bind {A B} (a : A) (f1 : A → walk St1 B) f2 :
  wsim (f1 a) (f2 a) → wsim (wbind (wret a) f1) (wbind (wret a) f2).
Proof. done. Qed.

Lemma wbind_assoc {St A B C} (m : walk St A) (g : A → walk St B) (f : B → walk St C) s :
  wbind (wbind m g) f s = wbind m (λ a, wbind (g a) f) s.
Proof. unfold wbind. by destruct (m s) as [[s' [a|e]]|]. Qed.

Lemma wsim_assoc {A B C} (m1 : walk St1 A) (m2 : walk St2 A) (g1 : A → walk St1 B)
    (g2 : A → walk St2 B) (f1 : B → walk St1 C) (f2 : B → walk St2 C) :
  wsim (wbind m1 (λ a, wbind (g1 a) f1)) (wbind m2 (λ a, wbind (g2 a) f2)) →
  wsim (wbind (wbind m1 g1) f1) (wbind (wbind m2 g2) f2).
Proof. intros H s1 s2 Hs. rewrite !wbind_assoc. by apply H. Qed.

Lemma wsim_req {A B} (o : option A) e (f1 : A → walk St1 B) f2 :
  (∀ a, o = Some a → wsim (f1 a) (f2 a)) → wsim (wbind (wreq o e) f1) (wbind (wreq o e) f2).
Proof. intros Hf s1 s2 H. destruct o as [a|]; [|done]. by apply (Hf a). Qed.

Lemma wsim_lift {A B} (m : outcome A) (f1 : A → walk St1 B) f2 :
  (∀ a, m = Ret a → wsim (f1 a) (f2 a)) → wsim (wbind (wlift m) f1) (wbind (wlift m) f2).
Proof. intros Hf s1 s2 H. destruct m as [a|]; [|done]. by apply (Hf a). Qed.

Lemma wsim_slot_offset {B} offset index size why (f1 : Z → walk St1 B) f2 :
  (∀ a, a = offset + index * size → wsim (f1 a) (f2 a)) →
  wsim (wbind (slot_offset offset index size why) f1) (wbind (slot_offset offset index size why) f2).
Proof.
  intros Hf s1 s2 H. unfold slot_offset, wbind, wreq.
  destruct (checked_mul index size) as [st|] eqn:E1; [|done]. cbn.
  destruct (checked_add offset st) as [a|] eqn:E2; [|done]. cbn.
  apply checked_mul_Some in E1 as [-> _]. apply checked_add_Some in E2 as [-> _]. by apply (Hf _ eq_refl).
Qed.
End sim.

(** ** Entries *)

Section maps.
Context (b : Bundle) {T : Type} `{!Target T} (ctx : RenderCtx T).

(** A read inside what was read gives the same bytes: memory does not change
    under the render, and what the allocator calls live it calls live throughout.
    An empty read past the last byte asks the allocator about somebody else's
    block, and is left out when there is one. *)
Record steady : Prop := mkSteady {
  got_length : ∀ a n bs, ctx_read ctx a n = Got bs → Z.of_nat (length bs) = n;
  got_inside : ∀ a n bs i m sub, ctx_read ctx a n = Got bs → bytes_get bs i (i + m) = Some sub →
    (m = 0 → heap ctx = None) → ctx_read ctx (a + i) m = Got sub
}.

(** The value is what a read at its address gives. *)
Definition reread (v : Value) : Prop :=
  ∃ size, ty_size b (val_ty v) = Ret size ∧ ctx_read ctx (val_addr v) size = Got (val_bytes v).

Definition entry_steady (key : BundleTypeId) (value : option BundleTypeId) (k : Value)
    (v : option Value) : Prop :=
  val_ty k = key ∧ reread k ∧
  match v with Some v => value = Some (val_ty v) ∧ reread v | None => True end.

(** The type has bytes to read, or there is no allocator to ask. *)
Definition has_bytes (ty : BundleTypeId) : Prop := ty_size b ty = Ret 0 → heap ctx = None.

Context (Hsteady : steady).

Lemma reread_inside ty a n bs at_ size sub :
  ctx_read ctx a n = Got bs → ty_size b ty = Ret size → has_bytes ty →
  byte_range bs at_ size = Some sub → reread (mkValue ty (a + at_) sub).
Proof.
  intros Hr Hs Hb Hsub. exists size. split; [done|]. cbn [val_addr val_bytes].
  unfold byte_range in Hsub. apply bind_Some in Hsub as (e & Ha & Hg).
  apply checked_add_Some in Ha as [-> _]. eapply got_inside; [done..|]. intros ->. by apply Hb.
Qed.

Context {St1 St2 : Type} (R : St1 → St2 → Prop) (emit1 : Value → option Value → walk St1 ())
  (emit2 : Value → option Value → walk St2 ()) (key : BundleTypeId) (value : option BundleTypeId).
Hypothesis Hemit : ∀ k v, entry_steady key value k v → wsim R (emit1 k v) (emit2 k v).
Hypothesis Hkey : has_bytes key.
Hypothesis Hvalue : ∀ ty, value = Some ty → has_bytes ty.

(** *** B-trees *)

Lemma btree_edge_sim {B} bytes lay index (f1 : Z → walk St1 B) f2 :
  (∀ a, wsim R (f1 a) (f2 a)) →
  wsim R (wbind (btree_edge_address b bytes lay index) f1)
    (wbind (btree_edge_address b bytes lay index) f2).
Proof.
  intros Hf. apply wsim_bind; [|done]. unfold btree_edge_address.
  apply wsim_lift. intros s _. apply wsim_req. intros st _. apply wsim_req. intros o _.
  destruct (read_u64_at bytes o); [apply wsim_ret|apply wsim_fail].
Qed.

Lemma btree_entry_sim bytes lay address index n :
  lay_key lay = key → value = Some (lay_value lay) → ctx_read ctx address n = Got bytes →
  wsim R (btree_entry b emit1 bytes lay address index) (btree_entry b emit2 bytes lay address index).
Proof.
  intros Hk Hv Hr. unfold btree_entry.
  apply wsim_lift. intros ks Hks. apply wsim_slot_offset. intros ko _.
  apply wsim_lift. intros vs Hvs. apply wsim_slot_offset. intros vo _.
  apply wsim_req. intros kb Hkb. apply wsim_req. intros vb Hvb.
  apply wsim_req. intros ka [-> _]%checked_add_Some. apply wsim_req. intros va [-> _]%checked_add_Some.
  apply Hemit. split; [done|]. split.
  - eapply reread_inside; [done..| |done]. by rewrite Hk.
  - cbn [val_ty]. split; [done|]. eapply reread_inside; [done..| |done]. by apply Hvalue.
Qed.

Lemma btree_slots_sim d1 d2 bytes lay address internal n :
  lay_key lay = key → value = Some (lay_value lay) → ctx_read ctx address n = Got bytes →
  (∀ c, wsim R (d1 c) (d2 c)) → ∀ indices,
  wsim R (btree_slots b emit1 d1 bytes lay address internal indices)
    (btree_slots b emit2 d2 bytes lay address internal indices).
Proof.
  intros Hk Hv Hr Hd. induction indices as [|i indices IH]; [apply wsim_ret|]. cbn [btree_slots].
  apply wsim_bind; [|intros _; apply wsim_bind; [by eapply btree_entry_sim|by intros _]].
  destruct internal; [|apply wsim_ret]. apply btree_edge_sim. done.
Qed.

Lemma walk_btree_sim lay : lay_key lay = key → value = Some (lay_value lay) →
  ∀ fuel visited address height,
  wsim R (walk_btree_node b ctx emit1 fuel lay visited address height)
    (walk_btree_node b ctx emit2 fuel lay visited address height).
Proof.
  intros Hk Hv. induction fuel as [|fuel IH]; intros visited address height; [apply wsim_panic|].
  cbn [walk_btree_node]. destruct (address =? 0); [apply wsim_fail|].
  destruct (MAX_HEIGHT <? height); [apply wsim_fail|]. case_bool_decide; [apply wsim_fail|].
  unfold btree_node. cbv zeta. apply wsim_lift. intros size _.
  destruct (ctx_read ctx address size) as [bytes|m] eqn:Er; [|intros s1 s2 Hs; done].
  apply wsim_ret_bind, wsim_lift. intros ls _. apply wsim_req. intros len _.
  destruct (lay_key_slots lay <? len); [apply wsim_fail|].
  apply wsim_bind; [eapply btree_slots_sim; [done..|]; intros c; apply IH|]. intros _.
  destruct (0 <? height); [|apply wsim_ret]. apply btree_edge_sim. intros c. apply IH.
Qed.

(** *** Hash tables *)

Lemma hash_entry_sim {B} table base start ty offset what (f1 : Value → walk St1 B) f2 :
  is_u64 base → base + Z.of_nat (length table) < W64 →
  (∀ v, val_ty v = ty →
    (∃ at_ size, ty_size b ty = Ret size ∧ byte_range table at_ size = Some (val_bytes v) ∧
       val_addr v = base + at_) → wsim R (f1 v) (f2 v)) →
  wsim R (wbind (hash_entry b table base start ty offset what) f1)
    (wbind (hash_entry b table base start ty offset what) f2).
Proof.
  unfold is_u64. intros Hb Ht Hf. unfold hash_entry. cbv zeta.
  apply wsim_assoc, wsim_lift. intros size Es. apply wsim_assoc, wsim_req. intros bytes Eb.
  pose proof (byte_range_bounds _ _ _ _ Eb) as (? & ? & ? & ?).
  apply wsim_ret_bind, Hf; [done|]. exists (u64_add start offset), size. split; [done|]. split; [done|].
  cbn [val_addr]. rewrite u64_add_small; [done|]. unfold is_u64. lia.
Qed.

Lemma hash_buckets_sim table base buckets stride key_offset v n :
  ctx_read ctx base n = Got table → is_u64 base → base + n < W64 →
  (∀ ty o, v = Some (ty, o) → value = Some ty) →
  ∀ control index,
  wsim R (hash_buckets b emit1 table base buckets stride key key_offset v index control)
    (hash_buckets b emit2 table base buckets stride key key_offset v index control).
Proof.
  intros Hr Hb Hn Hv. pose proof (got_length Hsteady _ _ _ Hr) as Hl.
  assert (Hre : ∀ w, has_bytes (val_ty w) →
    (∃ at_ size, ty_size b (val_ty w) = Ret size ∧ byte_range table at_ size = Some (val_bytes w) ∧
       val_addr w = base + at_) → reread w).
  { intros [ty a bs] Hh (at_ & size & Hs & Hbs & Ha). cbn in *. subst a.
    by eapply reread_inside. }
  induction control as [|c control IH]; intros index; [apply wsim_ret|]. cbn [hash_buckets].
  apply wsim_bind; [|intros _; apply IH]. destruct (is_full c); [|apply wsim_ret]. cbv zeta.
  apply hash_entry_sim; [done|lia|]. intros k Hkt Hk. rewrite <- Hkt in Hk.
  apply Hre in Hk; [|by rewrite Hkt]. destruct v as [[ty o]|].
  - specialize (Hv ty o eq_refl). apply wsim_assoc, hash_entry_sim; [done|lia|].
    intros w Hwt Hw. rewrite <- Hwt in Hw. apply Hre in Hw; [|rewrite Hwt; by apply Hvalue].
    apply wsim_ret_bind, Hemit. split; [done|]. split; [done|]. by rewrite Hwt.
  - apply wsim_ret_bind, Hemit. done.
Qed.

Lemma table_read_sim {B} addr size what (f1 : list Byte.byte → walk St1 B) f2 :
  (∀ bs, ctx_read ctx addr size = Got bs → wsim R (f1 bs) (f2 bs)) →
  wsim R (wbind (table_read ctx addr size what) f1) (wbind (table_read ctx addr size what) f2).
Proof.
  intros Hf. unfold table_read. destruct (ctx_read ctx addr size) as [bs|m].
  - by apply wsim_ret_bind, Hf.
  - intros s1 s2 H. done.
Qed.

Lemma walk_hash_sim bytes entries :
  wsim R (walk_hash_entries b ctx emit1 bytes key value entries)
    (walk_hash_entries b ctx emit2 bytes key value entries).
Proof.
  destruct entries as [| mask_at ctrl_at bucket key_offset value_offset]; [apply wsim_fail|].
  unfold walk_hash_entries. apply wsim_req. intros mask _. apply wsim_req. intros ctrl Hc.
  apply read_u64_at_u64 in Hc. unfold is_u64 in Hc. apply wsim_req. intros buckets _.
  destruct (MAX_HASH_BUCKETS <? buckets); [apply wsim_fail|]. destruct (ctrl =? 0); [apply wsim_fail|].
  apply wsim_lift. intros stride _. apply wsim_req. intros span [-> ?]%checked_mul_Some.
  apply wsim_req. intros base [-> ?]%checked_sub_Some. apply table_read_sim. intros control _.
  destruct (forallb _ control); [apply wsim_ret|].
  destruct (past_allocation _ _ _ _); [apply wsim_fail|]. apply table_read_sim. intros table Ht.
  pose proof (got_length Hsteady _ _ _ Ht).
  eapply hash_buckets_sim; [exact Ht|unfold is_u64; lia|lia|].
  intros ty o. destruct value, value_offset; naive_solver.
Qed.

Lemma walk_map_sim bytes entries o : o = value →
  wsim R (walk_map_entries b ctx emit1 bytes key o entries)
    (walk_map_entries b ctx emit2 bytes key o entries).
Proof.
  intros Ho. unfold walk_map_entries. destruct entries as [root root_at node node_at hty h_at|].
  2: { destruct o; rewrite Ho; apply walk_hash_sim. }
  destruct o as [v|]; [|rewrite Ho; apply walk_hash_sim].
  apply wsim_lift. intros rs _. apply wsim_req. intros rb _. apply wsim_lift. intros some _.
  destruct some as [[[place|]|e]|]; [|by apply wsim_fail..].
  apply wsim_lift. intros ns _. apply wsim_req. intros nb _. apply wsim_lift. intros hs _.
  apply wsim_req. intros h _. apply wsim_req. intros r _. by apply walk_btree_sim.
Qed.
End maps.

(** ** Fanned renders *)

Section fanned.
Context {A : Type} (item : nat → outcome (list A)).

Definition pieces_of (m : outcome (list A)) : list A := match m with Ret ps => ps | Panic => [] end.

Lemma render_items_Ret indices out :
  render_items item indices = Ret out ↔
  out = mjoin ((λ i, pieces_of (item i)) <$> indices) ∧ ∀ i, i ∈ indices → item i ≠ Panic.
Proof.
  revert out. induction indices as [|i indices IH]; intros out; cbn [render_items].
  - split; [intros [= <-]; split; [done|set_solver]|by intros [-> _]].
  - rewrite outcome_bind_Ret. setoid_rewrite outcome_bind_Ret. setoid_rewrite IH.
    cbn [fmap list_fmap mjoin list_join]. split.
    + intros (ps & Hi & rest & [-> Hall] & [= <-]). rewrite Hi. split; [done|].
      intros j [->|Hj]%elem_of_cons; [by rewrite Hi|by apply Hall].
    + intros [-> Hall]. destruct (item i) as [ps|] eqn:Ei; [|by destruct (Hall i); [left|]].
      exists ps. split; [done|]. eexists. split; [split; [done|]|done].
      intros j Hj. apply Hall. by right.
Qed.

(** Fanned out or not, the items are written in order. *)
Lemma render_fanned_items threads arrivals total :
  (0 < threads)%nat → (∀ n, arrivals n ≡ₚ seq 0 n) →
  render_fanned threads arrivals item total = render_items item (seq 0 total).
Proof.
  intros Ht Ha. unfold render_fanned.
  destruct (render_items item (seq 0 total)) as [out|] eqn:E; [|done]. cbn. f_equal.
  apply render_items_Ret in E as [-> Hall].
  apply render_chunked_items; [done|by rewrite Ha|]. intros s e Hse.
  destruct (render_items item (seq s (e - s))) as [ps|] eqn:Es; [by apply render_items_Ret in Es as [-> _]|].
  exfalso. assert (Hs : render_items item (seq s (e - s))
    = Ret (mjoin ((λ i, pieces_of (item i)) <$> seq s (e - s)))); [|congruence].
  apply render_items_Ret. split; [done|]. intros i Hi. apply Hall. apply elem_of_seq in Hi.
  apply elem_of_seq. lia.
Qed.
End fanned.

Section renders.
Context (b : Bundle) {T : Type} `{!Target T} (ctx : RenderCtx T) (pretty : bool)
  (key : BundleTypeId) (value : option BundleTypeId).

(** What a streaming render wrote is what the entries collected so far render
    to. *)
Definition same_entries (st : Z * list Piece) (cs : list (Z * option Z)) : Prop :=
  st.1 = Z.of_nat (length cs) ∧
  render_items (collected_item b ctx pretty key value cs) (seq 0 (length cs)) = Ret st.2.

Lemma write_map_entry_reread k v : entry_steady b ctx key value k v →
  write_map_entry b ctx pretty key (val_addr k)
    (match value, val_addr <$> v with Some ty, Some addr => Some (ty, addr) | _, _ => None end)
  = Ret (entry_pieces ctx pretty k v).
Proof.
  intros (Hk & (ks & Hks & Hkr) & Hv). unfold write_map_entry. rewrite <- Hk, Hks. cbn. rewrite Hkr.
  destruct k as [kt ka kb], v as [[vt va vb]|]; cbn in *.
  - destruct Hv as (-> & vs & Hvs & Hvr). cbn in *. rewrite Hvs. cbn. by rewrite Hvr.
  - by destruct value.
Qed.

Lemma emit_sim map_length k v : entry_steady b ctx key value k v →
  wsim same_entries (stream_entry ctx pretty map_length k v) (collect_entry map_length k v).
Proof.
  intros Hs [emitted out] cs [He Hr]. cbn in He, Hr. unfold stream_entry, collect_entry. rewrite He.
  destruct (Z.of_nat (length cs) =? map_length); [done|]. split; [|done]. split; cbn [fst snd].
  - rewrite length_app. cbn. lia.
  - apply render_items_Ret in Hr as [-> Hall]. apply render_items_Ret.
    assert (Hold : ∀ i, i ∈ seq 0 (length cs) →
      collected_item b ctx pretty key value (cs ++ [(val_addr k, val_addr <$> v)]) i
      = collected_item b ctx pretty key value cs i).
    { intros i Hi%elem_of_seq. unfold collected_item. by rewrite lookup_app_l by lia. }
    assert (Hnew : collected_item b ctx pretty key value (cs ++ [(val_addr k, val_addr <$> v)]) (length cs)
      = Ret (field_prefix ctx pretty (Z.of_nat (length cs) =? 0) :: entry_pieces ctx pretty k v)).
    { unfold collected_item. rewrite list_lookup_middle by done. cbn [or_panic].
      rewrite outcome_bind_eq, write_map_entry_reread by done. cbn.
      replace (length cs =? 0)%nat with (Z.of_nat (length cs) =? 0); [done|].
      destruct (Nat.eqb_spec (length cs) 0), (Z.eqb_spec (Z.of_nat (length cs)) 0); try done; lia. }
    rewrite length_app, seq_app, fmap_app, join_app. cbn [length seq Nat.add]. split.
    + f_equal.
      * f_equal. apply list_fmap_ext. intros j i Hi. by rewrite Hold by by eapply list_elem_of_lookup_2.
      * cbn [fmap list_fmap mjoin list_join]. rewrite Hnew. cbn. by rewrite app_nil_r.
    + intros i [Hi|Hi%list_elem_of_singleton]%elem_of_app; [rewrite Hold by done; by apply Hall|].
      by rewrite Hi, Hnew.
Qed.

Lemma map_bodies_same threads arrivals bytes map_length entries :
  steady ctx → has_bytes b ctx key → (∀ ty, value = Some ty → has_bytes b ctx ty) →
  (0 < threads)%nat → (∀ n, arrivals n ≡ₚ seq 0 n) →
  eval_map_parallel b ctx pretty threads arrivals bytes map_length key value entries
  = eval_map_streaming b ctx pretty bytes map_length key value entries.
Proof.
  intros Hst Hk Hv Ht Ha. unfold eval_map_parallel, eval_map_streaming.
  pose proof (walk_map_sim b ctx Hst same_entries _ _ key value
    (emit_sim map_length) Hk Hv bytes entries value eq_refl (0, []) [] (conj eq_refl eq_refl)) as Hsim.
  destruct (walk_map_entries b ctx (stream_entry ctx pretty map_length) bytes key value entries (0, []))
    as [[[emitted out] r]|],
    (walk_map_entries b ctx (collect_entry map_length) bytes key value entries [])
    as [[cs r']|]; try done.
  destruct Hsim as [[He Hr] <-]. cbn in He, Hr. cbn. rewrite render_fanned_items by done.
  rewrite Hr. cbn. by rewrite He.
Qed.
End renders.
