(* ===== verification/MemoryDemo.v ===== *)
(** A target of one run of bytes and a few symbols, which the witnesses read
    through. *)

From S2P Require Import Prelude Text StringTable Target SnapshotFacts Schema BundleCheck TypeView DisplayResolve DisplayEval Value Elements ElementsFacts Par Collections MapFacts.

Local Open Scope Z_scope.

Record Flat := mkLabelled {
  f_base : Z;
  f_bytes : list Byte.byte;
  f_symbols : list (Z * string)
}.

Definition mkFlat (base : Z) (bytes : list Byte.byte) : Flat := mkLabelled base bytes [].

Definition flat_entry (e : Z * string) : SymbolBuf := mkSymbol e.2 0 0 0 0 e.1 0.
Definition flat_symbol (f : Flat) (addr : Z) : option SymbolBuf :=
  flat_entry <$> find_first (λ e, e.1 =? addr) (f_symbols f).
Definition flat_named (f : Flat) (name : string) : option SymbolBuf :=
  flat_entry <$> find_first (λ e, String.eqb e.2 name) (f_symbols f).

Definition flat_read (f : Flat) (addr len : Z) : Result (list Byte.byte) :=
  match slice (f_bytes f) (addr - f_base f) len with
  | Some bytes => Ok bytes
  | None => Err (Unmapped addr len)
  end.

Definition flat_readable (f : Flat) (addr len : Z) : Z :=
  if (f_base f <=? addr) && (0 <=? len)
  then Z.max 0 (Z.min len (f_base f + Z.of_nat (length (f_bytes f)) - addr)) else 0.

#[global] Instance flat_target : Target Flat.
Proof.
  refine {| read_bytes := flat_read;
    readable_len := flat_readable;
    lookup_symbol_by_addr := flat_symbol;
    lookup_symbol_by_name := flat_named;
    symbols := λ _, Ok [];
    object_symbols := λ _, Ok [];
    fatal_signal := λ _, None;
    lwp_name := λ _ _, None;
    agent_lwp := λ _, None;
    process_facts := λ _, None;
    exec_path := λ _, None;
    build_ids := λ _, None;
    backing_file_problem := λ _ _, None;
    recorded_heap_evidence := λ _, None;
    mappings := λ _, Err LwpIterFailed;
    captured_runs := λ _, None;
    lwps := λ _, Ok [];
    tls_var_addr := λ _ _ _, Ok None;
    exec_bias := λ _, None |}.
  intros f a n bs. unfold flat_read. destruct (slice _ _ _) eqn:E; [|done].
  intros [= <-]. by eapply length_slice.
Defined.

(** The byte at an address of the run. *)
Definition flat_mem (f : Flat) (a : Z) : Byte.byte :=
  default Byte.x00 (f_bytes f !! Z.to_nat (a - f_base f)).

Lemma flat_sound f : sound_reads f (flat_mem f) gate_none.
Proof.
  split; [|intros a n Hn; cbn; unfold flat_readable; destruct (_ && _); lia|done].
  intros a n bs. cbn. unfold flat_read. destruct (slice _ _ _) as [bs'|] eqn:E; [|done].
  intros [= <-]. pose proof (length_slice _ _ _ _ E) as Hl.
  pose proof E as E'. unfold slice in E'. destruct (_ && _) eqn:Eb in E'; [|done]. zb. clear E'.
  apply list_eq_same_length with (n := length bs'); [by rewrite length_window; lia|done|].
  intros i x y Hi Hx Hy. rewrite (slice_lookup _ _ _ _ i E Hi) in Hx.
  unfold window in Hy. rewrite list_lookup_fmap, z_range_lookup in Hy by lia. cbn in Hy.
  injection Hy as <-. unfold flat_mem.
  replace (Z.to_nat (a + Z.of_nat i - f_base f)) with (Z.to_nat (a - f_base f) + i)%nat by lia.
  by rewrite Hx.
Qed.

Definition flat_ctx (f : Flat) : RenderCtx Flat := mkCtx (Some f) None 0 EmptyString.

(** A read of the run inside what a read gave. *)
Lemma flat_read_inside f a n bs i m sub :
  flat_read f a n = Ok bs → bytes_get bs i (i + m) = Some sub →
  flat_read f (a + i) m = Ok sub ∧
  (0 < m → f_base f <= a + i < f_base f + Z.of_nat (length (f_bytes f))).
Proof.
  unfold flat_read, bytes_get.
  destruct (slice (f_bytes f) _ n) as [bs'|] eqn:E; [|done]. intros [= <-] Hs.
  replace (i + m - i) with m in Hs by lia. pose proof (length_slice _ _ _ _ E) as Hl.
  unfold slice in *. destruct (_ && _) eqn:Eb in E; [|done]. injection E as <-.
  destruct (_ && _) eqn:Ec in Hs; [|done]. injection Hs as <-. zb. split; [|lia].
  replace (_ && _) with true by (symmetry; zb; lia). f_equal.
  rewrite skipn_firstn_comm, drop_drop, take_take. f_equal; [lia|]. f_equal. lia.
Qed.

Lemma flat_read_length f a n bs : flat_read f a n = Ok bs → Z.of_nat (length bs) = n.
Proof.
  unfold flat_read. destruct (slice _ _ _) eqn:E; [|done]. intros [= <-]. by eapply length_slice.
Qed.

Lemma flat_steady f : steady (flat_ctx f).
Proof.
  split; intros a n bs; unfold ctx_read; cbn; destruct (flat_read f a n) as [bs'|] eqn:E; try done.
  - intros [= <-]. by eapply flat_read_length.
  - intros i m sub; cbn. intros [= <-] Hs _. by destruct (flat_read_inside _ _ _ _ _ _ _ E Hs) as [-> _].
Qed.

(** An allocator that calls no byte of the run freed leaves it as it is. *)
Lemma flat_steady_heap f locate :
  (∀ a, f_base f <= a < f_base f + Z.of_nat (length (f_bytes f)) →
     match locate a with Freed => False | _ => True end) →
  steady (mkCtx (Some f) (Some locate) 0 EmptyString).
Proof.
  intros Hl. split; intros a n bs; unfold ctx_read, freed; cbn.
  - destruct (locate a); try done; destruct (flat_read f a n) as [bs'|] eqn:E; try done;
      intros [= <-]; by eapply flat_read_length.
  - intros i m sub Hr Hs Hm.
    assert (flat_read f a n = Ok bs) as E.
    { destruct (locate a); try done; destruct (flat_read f a n); try done; by injection Hr as ->. }
    destruct (flat_read_inside _ _ _ _ _ _ _ E Hs) as [-> Hin].
    destruct (decide (m = 0)) as [H0|H0]; [by specialize (Hm H0)|].
    assert (0 <= m) as Hpos.
    { unfold bytes_get, slice in Hs. destruct (_ && _) eqn:Ec in Hs; [|done]. zb. lia. }
    specialize (Hl (a + i) (Hin ltac:(lia))). by destruct (locate (a + i)).
Qed.

Lemma flat_window f a n bs : ctx_read (flat_ctx f) a n = Got bs → bs = window (flat_mem f) a n.
Proof.
  unfold ctx_read. cbn. destruct (flat_read f a n) as [bs'|] eqn:E; [|done]. intros [= <-].
  by apply (reads_window _ _ _ (flat_sound f)).
Qed.
