(* ===== verification/SequenceTheorems.v ===== *)
(** What a sequence reads as, what of fanning a render out cannot be seen, and that the walks
    of maps give every entry once. *)

From S2P Require Import Prelude Text StringTable Target SnapshotFacts Schema BundleCheck TypeView TypeSizes DisplayResolve DisplayEval EvalFacts BundleDemo Value Elements ElementsFacts Par Collections MapFacts MemoryDemo.

Local Open Scope Z_scope.

(** C14: reading a fat header through a target never panics, and gives a prefix
    of the sequence the header claims: element [i] is the window of memory at
    slot [i] - of a ring, at its head plus [i] modulo its slots - inside the
    address space and inside the allocation its run starts in; the claim is
    carried exactly when fewer elements are served; a target that has every byte
    gives all of them, up to the display cap.  A refusal has one of the stated
    causes. *)
Theorem sequence_read_exact {T} `{!Target T} (p : T) mem gate bytes header element stride cap
    base count ring :
  sound_reads p mem gate →
  is_u64 stride → 0 <= fh_data_offset header → (∀ c, cap = Some c → 0 <= c) →
  decode_header bytes header stride = inl (base, count, ring) →
  ∃ gates r, read_fat header element stride bytes (Some p) gate cap = Ret (gates, r) ∧
    match r with
    | inl es => elements_ok p mem gate element base stride count ring cap es
    | inr e => refused p gate base stride count e
    end.
Proof.
  intros Hr Hs Hd Hcap Hh. pose proof (decode_header_spec _ _ _ _ _ _ Hh Hd) as (Hb & Hc & Hring).
  unfold read_fat. rewrite Hh, gbind_ungated.
  destruct (read_flat_spec p mem gate Hr element base stride count ring cap Hs Hb Hc Hcap)
    as (gs & r & Hfl & Hfr).
  destruct ring as [ring|]; [|exists gs, r; split; [done|]; destruct r; [apply Hfr; auto|done]].
  destruct (negb (stride =? 0) && negb (count =? 0)) eqn:E.
  2: { exists gs, r. split; [done|]. apply andb_false_iff in E.
       rewrite !negb_false_iff, !Z.eqb_eq in E. destruct r; [apply Hfr; tauto|done]. }
  apply andb_true_iff in E as [E1 E2]. rewrite negb_true_iff, Z.eqb_neq in E1, E2.
  destruct (Hring ring eq_refl) as (H1 & H2 & H3 & H4). unfold is_u64 in *. specialize (H4 E1).
  destruct (read_ring_spec p mem gate Hr ring element base stride count cap) as (gs2 & r2 & H & Hr2);
    try done; try (unfold is_u64; lia).
  exists gs2, r2. split; [done|]. destruct r2 as [es|e]; [done|]. split; [lia|].
  destruct Hr2 as (run & n & _ & Hn & Hrest). destruct Hrest as [?|Hrest]; [by left|].
  right. by exists run, n.
Qed.

(** C25: fanning a map or a slice out over worker threads writes what rendering it
    does.  However many threads there are and in whatever order their chunks arrive, a
    map fanned out writes the same pieces, and a slice writes what rendered in place it
    does.  A map fanned out reads each entry a second time, at the address its walk
    collected; it writes what it does in place, from the bytes the walk read, while a read
    inside what was read gives those bytes again - memory stays as it was, and the
    allocator calls no part of a block it served freed - and its keys and values have
    bytes to read, where there is an allocator to ask. *)
Theorem fan_out_unobservable {T} `{!Target T} (b : Bundle) (ctx : RenderCtx T) (pretty : bool)
    threads arrivals threads' arrivals' ty bytes length_at length_size key value entries :
  (0 < threads)%nat → (∀ n, arrivals n ≡ₚ seq 0 n) → (0 < threads')%nat → (∀ n, arrivals' n ≡ₚ seq 0 n) →
  eval_map b ctx pretty threads arrivals true ty bytes length_at length_size key value entries
    = eval_map b ctx pretty threads' arrivals' true ty bytes length_at length_size key value entries ∧
  (steady ctx → has_bytes b ctx key → (∀ ty, value = Some ty → has_bytes b ctx ty) →
   eval_map b ctx pretty threads arrivals true ty bytes length_at length_size key value entries
     = eval_map b ctx pretty threads arrivals false ty bytes length_at length_size key value entries) ∧
  ∀ allocator str_cap array_cap header element size slice_bytes,
    eval_slice ctx pretty threads arrivals allocator str_cap array_cap true header element size slice_bytes
      = eval_slice ctx pretty threads' arrivals' allocator str_cap array_cap false header element size
          slice_bytes.
Proof.
  intros Ht Ha Ht' Ha'. split; [|split].
  - unfold eval_map, eval_map_parallel. destruct (read_unsigned_at bytes length_at length_size) as [n|]; [|done].
    destruct (ty_name b ty); [|done]. cbn. destruct (n =? 0); [done|].
    destruct (MIN_PARALLEL_ITEMS <=? n); [|done].
    destruct (walk_map_entries _ _ _ _ _ _ _ _) as [[collected walked]|]; [|done].
    cbn. by rewrite !render_fanned_items.
  - intros Hst Hk Hv. unfold eval_map. destruct (read_unsigned_at bytes length_at length_size) as [n|]; [|done].
    destruct (ty_name b ty); [|done]. cbn. destruct (n =? 0); [done|].
    destruct (MIN_PARALLEL_ITEMS <=? n); [|done]. by rewrite map_bodies_same.
  - intros. unfold eval_slice, eval_elements. destruct (read_fat _ _ _ _ _ _ _) as [[g [es|e]]|]; [|done..].
    cbn [outcome_bind]. rewrite !outcome_bind_eq. destruct (el_count es =? 0); [done|]. cbn [andb].
    destruct (MIN_PARALLEL_ITEMS <=? el_count es); [|done]. by rewrite render_fanned_items.
Qed.

(** ** Witnesses *)

(** Four slots at 4096, and the header of a ring of two elements whose first is
    in the last slot. *)
Definition demo_slots : Flat := mkFlat 4096 (mjoin (to_le_bytes 8 <$> [20; 0; 0; 10])).
Definition demo_ring : FatHeader := mkFatHeader 0 8 8 (Some (16, 8)) (Some (24, 8)) 0.
Definition demo_ring_bytes : list Byte.byte := mjoin (to_le_bytes 8 <$> [4096; 2; 4; 3]).

Lemma sequence_read_exact_witness :
  ∃ es, read_fat demo_ring 0%nat 8 demo_ring_bytes (Some demo_slots) gate_none None = Ret ([], inl es) ∧
    (λ v, (val_addr v, from_le_bytes (val_bytes v))) <$> el_iter es = [(4120, 10); (4096, 20)] ∧
    elements_ok demo_slots (flat_mem demo_slots) gate_none 0%nat 4096 8 2 (Some (mkRing 3 4)) None es.
Proof.
  eexists. split; [vm_compute; reflexivity|]. split; [vm_compute; reflexivity|].
  destruct (sequence_read_exact demo_slots (flat_mem demo_slots) gate_none demo_ring_bytes demo_ring
    0%nat 8 None 4096 2 (Some (mkRing 3 4)) (flat_sound demo_slots)) as (gs & r & Hr & Hok).
  - split; reflexivity || discriminate.
  - discriminate.
  - discriminate.
  - reflexivity.
  - vm_compute in Hr. injection Hr as <- <-. exact Hok.
Defined.

(** A set of 128 full buckets of a word each, rendered by three workers whose
    chunks arrive last first. *)
Definition demo_table : Flat := mkFlat 4096 (repeat Byte.x00 1152).
Definition demo_set_bytes : list Byte.byte := mjoin (to_le_bytes 8 <$> [127; 5120; 128]).

(** The allocator: the table is one block, live, but for the addresses it calls freed. *)
Definition demo_allocator (freed : list Z) (a : Z) : Liveness :=
  if bool_decide (a ∈ freed) then Freed
  else if (4096 <=? a) && (a <? 5248) then Live (Range 4096 5248) else Unknown.
Definition demo_heap_ctx (freed : list Z) : RenderCtx Flat :=
  mkCtx (Some demo_table) (Some (demo_allocator freed)) 0 EmptyString.

Definition demo_render (freed : list Z) (threads : nat) (parallel : bool) : outcome (list Piece) :=
  eval_map demo_bundle (demo_heap_ctx freed) true threads (λ n, reverse (seq 0 n)) parallel 1%nat
    demo_set_bytes 16 8 0%nat None (RHash 0 8 0%nat 0 None).

Lemma fan_out_unobservable_witness :
  length <$> (match demo_render [] 3 true with Ret ps => Some ps | Panic => None end) = Some 388%nat ∧
  demo_render [] 3 true = demo_render [] 5 true ∧ demo_render [] 3 true = demo_render [] 3 false.
Proof.
  split; [vm_compute; reflexivity|].
  assert (Ha : ∀ n, reverse (seq 0 n) ≡ₚ seq 0 n) by (intros n; apply reverse_Permutation).
  destruct (fan_out_unobservable demo_bundle (demo_heap_ctx []) true 3 (λ n, reverse (seq 0 n)) 5
    (λ n, reverse (seq 0 n)) 1%nat demo_set_bytes 16 8 0%nat None (RHash 0 8 0%nat 0 None)) as (H1 & H2 & _).
  - lia.
  - exact Ha.
  - lia.
  - exact Ha.
  - split; [exact H1|]. apply H2.
    + apply flat_steady_heap. intros a Ha'. unfold demo_allocator. cbn. by destruct (_ && _).
    + by intros [=].
    + discriminate.
Defined.

(** An allocator that calls one bucket of a table it served freed: fanned out, the second
    read of that bucket is refused, and the map rendered in place shows it. *)
Example freed_bucket_observed :
  (λ m : outcome (list Piece), match m with Ret ps => length ps | Panic => 0%nat end)
    <$> [demo_render [4104] 3 true; demo_render [4104] 3 false] = [387; 388]%nat.
Proof. vm_compute. reflexivity. Qed.

(** ** Two corners *)

(** A block that ends inside an element: the cut is the allocation's, the target
    serves every byte asked for, and yet the shortfall is called unreadable - the
    bytes asked for are not rounded down to whole elements before the bytes served
    are compared with them. *)
Example partial_clip_is_unreadable :
  read_buffer (Some demo_slots) 4096 8 2
    (mkHeapGate (Some (mkHeap (λ _, Live (Range 4096 4108)) (λ _, None))) false) None
  = Ret ([GateClipped], inl (mkBuffer (to_le_bytes 8 20) 1 (Some 2) Unreadable)).
Proof. vm_compute. reflexivity. Qed.

(** The elements of a zero-sized sequence are not held to the display cap. *)
Example zero_sized_ignore_the_cap :
  read_buffer (Some demo_slots) 4096 0 5 gate_none (Some 2) = Ret ([], inl (mkBuffer [] 5 None Unreadable)).
Proof. reflexivity. Qed.

(** ** Walks that succeed *)

Section success.
Context {St : Type}.
Implicit Types s : St.

Lemma wbind_inl {A B} (m : walk St A) (f : A → walk St B) s s' r :
  wbind m f s = Ret (s', inl r) ↔ ∃ s1 a, m s = Ret (s1, inl a) ∧ f a s1 = Ret (s', inl r).
Proof.
  unfold wbind. destruct (m s) as [[s1 [a|e]]|].
  - split; [by exists s1, a|]. by intros (? & ? & [= <- <-] & H).
  - split; [done|]. by intros (? & ? & H & _).
  - split; [done|]. by intros (? & ? & H & _).
Qed.
Lemma wreq_inl {A} (o : option A) e s s' a :
  wreq o e s = Ret (s', inl a) ↔ s' = s ∧ o = Some a.
Proof. destruct o; cbn; unfold wret, wfail; split; intros; destruct_and?; by simplify_eq. Qed.
Lemma wlift_inl {A} (m : outcome A) s s' a : wlift m s = Ret (s', inl a) ↔ s' = s ∧ m = Ret a.
Proof. unfold wlift. destruct m; cbn; split; intros; destruct_and?; by simplify_eq. Qed.
Lemma wret_inl {A} (x : A) s s' a : wret x s = Ret (s', inl a) ↔ s' = s ∧ x = a.
Proof. unfold wret. split; intros; destruct_and?; by simplify_eq. Qed.

(** A step that only reads its argument. *)
Lemma wbind_req_inl {A B} (o : option A) e (f : A → walk St B) s s' r :
  wbind (wreq o e) f s = Ret (s', inl r) ↔ ∃ a, o = Some a ∧ f a s = Ret (s', inl r).
Proof. rewrite wbind_inl. setoid_rewrite wreq_inl. naive_solver. Qed.
Lemma wbind_lift_inl {A B} (m : outcome A) (f : A → walk St B) s s' r :
  wbind (wlift m) f s = Ret (s', inl r) ↔ ∃ a, m = Ret a ∧ f a s = Ret (s', inl r).
Proof. rewrite wbind_inl. setoid_rewrite wlift_inl. naive_solver. Qed.

Lemma slot_offset_inl offset index size why s s' o :
  slot_offset offset index size why s = Ret (s', inl o) ↔
  s' = s ∧ o = offset + index * size ∧ index * size < W64 ∧ offset + index * size < W64.
Proof.
  unfold slot_offset. rewrite wbind_req_inl. setoid_rewrite wreq_inl.
  setoid_rewrite checked_mul_Some. setoid_rewrite checked_add_Some. naive_solver.
Qed.

Lemma checked_add2_Some x y z o :
  (w ← checked_add x y; checked_add w z) = Some o ↔ o = x + y + z ∧ x + y < W64 ∧ x + y + z < W64.
Proof.
  rewrite bind_Some. setoid_rewrite checked_add_Some. split.
  - intros (w & [-> ?] & -> & ?). done.
  - intros (-> & ? & ?). by exists (x + y).
Qed.

(** A walk that ends without a panic, whatever the state it starts from. *)
Definition ends {A} (m : walk St A) : Prop := ∀ s, m s ≠ Panic.

Lemma ends_ret {A} (a : A) : ends (wret a).
Proof. done. Qed.
Lemma ends_fail {A} e : ends (A := A) (wfail e).
Proof. done. Qed.
Lemma ends_req {A} (o : option A) e : ends (wreq o e).
Proof. by destruct o. Qed.
Lemma ends_lift {A} (m : outcome A) : m ≠ Panic → ends (wlift m).
Proof. by destruct m. Qed.
Lemma ends_bind {A B} (m : walk St A) (f : A → walk St B) :
  ends m → (∀ a, ends (f a)) → ends (wbind m f).
Proof.
  intros Hm Hf s. unfold wbind. specialize (Hm s). destruct (m s) as [[s1 [a|e]]|]; [|done..]. apply Hf.
Qed.
End success.

Create HintDb walks.
#[export] Hint Resolve ends_ret ends_fail ends_req ends_lift : walks.
#[export] Hint Extern 2 (ends (wbind _ _)) => apply ends_bind; [|intros ?] : walks.

(** ** Bytes in place *)

Section places.
Context (mem : Z → Byte.byte).

(** The number a run of bytes is, read little-endian. *)
Definition number_at (a n : Z) : Z := from_le_bytes (window mem a n).

Lemma byte_range_window a n o m sub : 0 <= o → 0 <= m → is_u64 n →
  byte_range (window mem a n) o m = Some sub ↔ o + m <= n ∧ sub = window mem (a + o) m.
Proof.
  unfold is_u64. intros Ho Hm Hn. split.
  - intros H. pose proof (byte_range_bounds _ _ _ _ H) as (_ & _ & _ & Hle).
    rewrite length_window, Z2Nat.id in Hle by lia. split; [done|].
    unfold byte_range in H. apply bind_Some in H as (e & [-> _]%checked_add_Some & H).
    rewrite window_slice in H by lia. congruence.
  - intros [Hle ->]. unfold byte_range, checked_add.
    replace (o + m <? W64) with true by (symmetry; zb; lia). cbn. apply window_slice; lia.
Qed.

Lemma read_u64_window a n o w : 0 <= o → is_u64 n →
  read_u64_at (window mem a n) o = Some w ↔ o + 8 <= n ∧ w = number_at (a + o) 8.
Proof.
  intros Ho Hn. unfold read_u64_at. rewrite fmap_Some. setoid_rewrite byte_range_window; [|lia..|done].
  unfold number_at. naive_solver.
Qed.

Lemma read_unsigned_window a n o m w : 0 <= o → 0 <= m → is_u64 n →
  read_unsigned_at (window mem a n) o m = Some w ↔
  o + m <= n ∧ m ∈ [1; 2; 4; 8] ∧ w = number_at (a + o) m.
Proof.
  intros Ho Hm Hn. unfold read_unsigned_at. rewrite bind_Some.
  setoid_rewrite byte_range_window; [|done..]. unfold number_at. case_bool_decide; naive_solver.
Qed.
End places.

(** ** Sizes *)

Lemma ty_size_u64 b id n : table_u64 (b_types b) → ty_size b id = Ret n → is_u64 n.
Proof.
  intros Hu. unfold ty_size. generalize (S (length (types (b_types b)))). intros fuel. revert id n.
  induction fuel as [|fuel IH]; intros id n H; [done|]. cbn [ty_size_go] in H. unfold ty_def in H.
  destruct (ty_get (b_types b) id) as [def|] eqn:Hd; [|done]. apply Hu in Hd.
  cbn [or_panic] in H. rewrite outcome_bind_eq in H. destruct def; cbn in Hd; simplify_eq; try tauto.
  - by vm_compute.
  - apply outcome_bind_Ret in H as (m & _ & [= <-]). apply u64_mul_range.
  - destruct size as [m|]; [done|]. by vm_compute.
Qed.

(** ** Trees *)

(** The entries of a walk, collected. *)
Definition Entry : Type := Value * option Value.
Definition collect (k : Value) (v : option Value) : walk (list Entry) () := λ out, Ret (out ++ [(k, v)], inl ()).

Section trees.
Context (b : Bundle) {T : Type} `{!Target T} (ctx : RenderCtx T) (mem : Z → Byte.byte)
  (lay : BTreeNodeLayout).

(** A node that can be read, of the bytes its kind has. *)
Definition node_at (internal : bool) (a size : Z) : Prop :=
  ty_size b (if internal then lay_internal lay else lay_leaf lay) = Ret size ∧
  ∃ bs, ctx_read ctx a size = Got bs.

(** Its length word, believed up to the slots there are. *)
Definition len_at (a size : Z) (n : nat) : Prop :=
  ∃ ls, ty_size b (lay_leaf_len lay) = Ret ls ∧ ls ∈ [1; 2; 4; 8] ∧ lay_leaf_len_offset lay + ls <= size ∧
    Z.of_nat n = number_at mem (a + lay_leaf_len_offset lay) ls ∧ Z.of_nat n <= lay_key_slots lay.

(** The key and the value of a slot, both inside the node. *)
Definition entry_at (a size i : Z) (e : Entry) : Prop :=
  ∃ ks vs, ty_size b (lay_key lay) = Ret ks ∧ ty_size b (lay_value lay) = Ret vs ∧
    let ko := lay_keys_offset lay + i * ks in
    let vo := lay_values_offset lay + i * vs in
    ko + ks <= size ∧ vo + vs <= size ∧ a + ko < W64 ∧ a + vo < W64 ∧
    e = (mkValue (lay_key lay) (a + ko) (window mem (a + ko) ks),
         Some (mkValue (lay_value lay) (a + vo) (window mem (a + vo) vs))).

(** The child an edge slot points to. *)
Definition edge_at (a size i c : Z) : Prop :=
  ∃ es, ty_size b (lay_edge lay) = Ret es ∧
    let o := lay_edges_offset lay + i * es + lay_edge_pointer_offset lay in
    o + 8 <= size ∧ c = number_at mem (a + o) 8.

(** A tree of a height at an address, and its entries in order; [above] are the
    nodes on the way to it, which it is none of. *)
Inductive tree_at : nat → list Z → Z → list Entry → Prop :=
  | tree_leaf above a size n es :
      a ≠ 0 → a ∉ above → node_at false a size → len_at a size n →
      entries_at a size 0 n es → tree_at O above a es
  | tree_internal h above a size n es :
      a ≠ 0 → a ∉ above → node_at true a size → len_at a size n →
      children_at h (a :: above) a size 0 n es → tree_at (S h) above a es
(** The entries of [n] slots from slot [i] on. *)
with entries_at : Z → Z → Z → nat → list Entry → Prop :=
  | entries_none a size i : entries_at a size i O []
  | entries_more a size i n e es :
      entry_at a size i e → entries_at a size (i + 1) n es → entries_at a size i (S n) (e :: es)
(** The entries of [n] slots from slot [i] on, each after those of the child
    before it, and of the last child. *)
with children_at : nat → list Z → Z → Z → Z → nat → list Entry → Prop :=
  | children_last h above a size i c es :
      edge_at a size i c → tree_at h above c es → children_at h above a size i O es
  | children_more h above a size i n c sub e es :
      edge_at a size i c → tree_at h above c sub → entry_at a size i e →
      children_at h above a size (i + 1) n es →
      children_at h above a size i (S n) (sub ++ e :: es).

(** What the walk relies on: the layout and the sizes are words, memory is what it
    is. *)
Record walkable : Prop := mkWalkable {
  size_u64 : ∀ ty n, ty_size b ty = Ret n → is_u64 n;
  layout_words : Forall is_u64 [lay_leaf_len_offset lay; lay_keys_offset lay; lay_values_offset lay;
    lay_edges_offset lay; lay_edge_pointer_offset lay];
  got_window : ∀ a n bs, ctx_read ctx a n = Got bs → bs = window mem a n
}.
Hypothesis Hok : walkable.

Ltac words := pose proof (layout_words Hok) as Hwords; rewrite !Forall_cons in Hwords;
  destruct Hwords as (Hlo & Hko & Hvo & Heo & Hpo & _); unfold is_u64 in Hlo, Hko, Hvo, Heo, Hpo.

Lemma btree_edge_inl a size i s s' c : is_u64 size → 0 <= i →
  btree_edge_address b (window mem a size) lay i s = Ret (s', inl c) ↔
  s' = (s : list Entry) ∧ edge_at a size i c.
Proof.
  intros Hs Hi. words. unfold btree_edge_address, edge_at. unfold is_u64 in Hs.
  rewrite wbind_lift_inl. setoid_rewrite wbind_req_inl. setoid_rewrite wbind_req_inl.
  setoid_rewrite wreq_inl. setoid_rewrite checked_mul_Some.
  setoid_rewrite checked_add2_Some. split.
  - intros (es & He & st & [-> ?] & o & (-> & ? & ?) & -> & Hr).
    pose proof (size_u64 Hok _ _ He) as Hes. unfold is_u64 in Hes.
    apply read_u64_window in Hr; [|nia|unfold is_u64; lia]. split; [done|]. by exists es.
  - intros (-> & es & He & Hle & ->). pose proof (size_u64 Hok _ _ He) as Hes. unfold is_u64 in Hes.
    exists es. split; [done|]. assert (0 <= i * es) by nia.
    eexists. split; [split; [done|lia]|]. eexists. split; [split; [done|lia]|].
    split; [done|]. apply read_u64_window; [lia|unfold is_u64; lia|done].
Qed.

Lemma btree_entry_inl a size i s s' : is_u64 size → 0 <= i →
  btree_entry b collect (window mem a size) lay a i s = Ret (s', inl ()) ↔
  ∃ e, s' = s ++ [e] ∧ entry_at a size i e.
Proof.
  intros Hs Hi. words. unfold btree_entry, entry_at. unfold is_u64 in Hs.
  rewrite wbind_lift_inl. split.
  - intros (ks & Hks & W). apply wbind_inl in W as (s1 & ko & W1 & W).
    apply slot_offset_inl in W1 as (-> & -> & Hk1 & Hk2). apply wbind_lift_inl in W as (vs & Hvs & W).
    apply wbind_inl in W as (s2 & vo & W1 & W). apply slot_offset_inl in W1 as (-> & -> & Hv1 & Hv2).
    apply wbind_req_inl in W as (kb & Hkb & W). apply wbind_req_inl in W as (vb & Hvb & W).
    apply wbind_req_inl in W as (ka & [-> Hka]%checked_add_Some & W).
    apply wbind_req_inl in W as (va & [-> Hva]%checked_add_Some & W). injection W as <-.
    pose proof (size_u64 Hok _ _ Hks). pose proof (size_u64 Hok _ _ Hvs). unfold is_u64 in *.
    apply byte_range_window in Hkb as [? ->]; [|nia|lia|done].
    apply byte_range_window in Hvb as [? ->]; [|nia|lia|done].
    eexists. split; [done|]. exists ks, vs. done.
  - intros (e & -> & ks & vs & Hks & Hvs & Hk & Hv & Hka & Hva & ->).
    pose proof (size_u64 Hok _ _ Hks). pose proof (size_u64 Hok _ _ Hvs). unfold is_u64 in *.
    assert (0 <= i * ks) by nia. assert (0 <= i * vs) by nia.
    exists ks. split; [done|]. apply wbind_inl.
    eexists _, _. split; [apply slot_offset_inl; split; [done|]; split; [done|lia]|].
    rewrite wbind_lift_inl. exists vs. split; [done|]. rewrite wbind_inl.
    eexists _, _. split; [apply slot_offset_inl; split; [done|]; split; [done|lia]|].
    rewrite wbind_req_inl. eexists. split; [rewrite byte_range_window by (unfold is_u64; lia); done|].
    rewrite wbind_req_inl. eexists. split; [rewrite byte_range_window by (unfold is_u64; lia); done|].
    rewrite wbind_req_inl. eexists. split; [apply checked_add_Some; done|].
    rewrite wbind_req_inl. eexists. split; [apply checked_add_Some; done|]. done.
Qed.

Lemma leaf_slots_inl descend a size : is_u64 size → ∀ n i s s', 0 <= i →
  btree_slots b collect descend (window mem a size) lay a false (z_range i n) s = Ret (s', inl ()) ↔
  ∃ es, s' = s ++ es ∧ entries_at a size i n es.
Proof.
  intros Hs. induction n as [|n IH]; intros i s s' Hi; cbn [z_range btree_slots].
  - rewrite wret_inl. split.
    + intros [-> _]. exists []. rewrite app_nil_r. split; [done|constructor].
    + intros (es & -> & He). inversion He; subst. by rewrite app_nil_r.
  - rewrite wbind_inl. split.
    + intros (s1 & [] & [-> _]%wret_inl & W). apply wbind_inl in W as (s2 & [] & W1 & W).
      apply btree_entry_inl in W1 as (e & -> & He); [|done..]. apply IH in W as (es & -> & Hes); [|lia].
      exists (e :: es). rewrite <- app_assoc. split; [done|]. by constructor.
    + intros (es & -> & He). inversion He as [|? ? ? ? e es' Hent Hrest]; subst.
      exists s, (). split; [done|]. apply wbind_inl. exists (s ++ [e]), (). split.
      * apply btree_entry_inl; [done..|]. by exists e.
      * apply IH; [lia|]. exists es'. by rewrite <- app_assoc.
Qed.

Lemma internal_slots_inl descend h above a size : is_u64 size →
  (∀ c s s', descend c s = Ret (s', inl ()) ↔ ∃ es, s' = s ++ es ∧ tree_at h above c es) →
  ∀ n i s s', 0 <= i →
  wbind (btree_slots b collect descend (window mem a size) lay a true (z_range i n))
    (λ _, wbind (btree_edge_address b (window mem a size) lay (i + Z.of_nat n)) descend) s
    = Ret (s', inl ()) ↔
  ∃ es, s' = s ++ es ∧ children_at h above a size i n es.
Proof.
  intros Hs Hd. induction n as [|n IH]; intros i s s' Hi; cbn [z_range btree_slots].
  - rewrite wbind_inl, Z.add_0_r. split.
    + intros (s1 & [] & [-> _]%wret_inl & W). apply wbind_inl in W as (s2 & c & W1 & W).
      apply btree_edge_inl in W1 as [-> Hc]; [|done..]. apply Hd in W as (es & -> & Ht).
      exists es. split; [done|]. by econstructor.
    + intros (es & -> & He). inversion He as [? ? ? ? ? c es' Hc Ht|]; subst.
      exists s, (). split; [done|]. apply wbind_inl. exists s, c.
      split; [by apply btree_edge_inl|]. apply Hd. by exists es.
  - rewrite wbind_assoc, wbind_inl.
    replace (i + Z.of_nat (S n)) with (i + 1 + Z.of_nat n) by lia. split.
    + intros (s1 & [] & W1 & W). apply wbind_inl in W1 as (s2 & c & W1 & W2).
      apply btree_edge_inl in W1 as [-> Hc]; [|done..]. apply Hd in W2 as (sub & -> & Ht).
      rewrite wbind_assoc in W. apply wbind_inl in W as (s3 & [] & W1 & W).
      apply btree_entry_inl in W1 as (e & -> & He); [|done..]. apply IH in W as (es & -> & Hes); [|lia].
      exists (sub ++ e :: es). rewrite <- !app_assoc. split; [done|]. by econstructor.
    + intros (es & -> & He). inversion He as [|? ? ? ? ? ? c sub e es' Hc Ht Hent Hrest]; subst.
      exists (s ++ sub), (). split.
      * apply wbind_inl. exists s, c. split; [by apply btree_edge_inl|]. apply Hd. by exists sub.
      * rewrite wbind_assoc. apply wbind_inl. exists ((s ++ sub) ++ [e]), (). split.
        -- apply btree_entry_inl; [done..|]. by exists e.
        -- apply IH; [lia|]. exists es'. by rewrite <- !app_assoc.
Qed.

(** The reads a node starts with, before its slots. *)
Lemma btree_node_inl descend a h s s' :
  btree_node b ctx collect descend lay a (Z.of_nat h) s = Ret (s', inl ()) ↔
  ∃ size n, is_u64 size ∧ node_at (0 <? Z.of_nat h) a size ∧ len_at a size n ∧
    wbind (btree_slots b collect descend (window mem a size) lay a (0 <? Z.of_nat h) (z_range 0 n))
      (λ _, if 0 <? Z.of_nat h
            then wbind (btree_edge_address b (window mem a size) lay (0 + Z.of_nat n)) descend
            else wret ()) s = Ret (s', inl ()).
Proof.
  words. unfold btree_node, node_at, len_at. cbv zeta.
  replace (Z.of_nat h =? 0) with (negb (0 <? Z.of_nat h))
    by (destruct (Z.ltb_spec 0 (Z.of_nat h)), (Z.eqb_spec (Z.of_nat h) 0); try done; lia).
  set (internal := 0 <? Z.of_nat h).
  replace (if negb internal then lay_leaf lay else lay_internal lay)
    with (if internal then lay_internal lay else lay_leaf lay) by by destruct internal.
  rewrite wbind_lift_inl. split.
  - intros (size & Hs & W). apply wbind_inl in W as (s1 & bs & W1 & W).
    destruct (ctx_read ctx a size) as [bs'|m] eqn:Er; [|done].
    apply wret_inl in W1 as [-> ->]. pose proof (got_window Hok _ _ _ Er) as ->.
    pose proof (size_u64 Hok _ _ Hs) as Hsz.
    apply wbind_lift_inl in W as (ls & Hls & W). apply wbind_req_inl in W as (len & Hlen & W).
    pose proof (size_u64 Hok _ _ Hls) as Hlsz. unfold is_u64 in Hlsz.
    destruct (lay_key_slots lay <? len) eqn:El; [done|]. zb.
    apply read_unsigned_window in Hlen as (H1 & H2 & ->); [|lia..|done].
    pose proof (from_le_bytes_range (window mem (a + lay_leaf_len_offset lay) ls)) as Hr.
    unfold number_at in *. set (len := from_le_bytes _) in *.
    exists size, (Z.to_nat len). split; [done|]. split; [by eauto|]. split.
    + exists ls. rewrite Z2Nat.id by lia. done.
    + by rewrite Z2Nat.id by lia.
  - intros (size & n & Hsz & [Hs [bs Hr]] & (ls & Hls & Hin & Hle & Hn & Hslots) & W).
    exists size. split; [done|]. apply wbind_inl. exists s, bs. rewrite Hr. split; [done|].
    pose proof (got_window Hok _ _ _ Hr) as ->. pose proof (size_u64 Hok _ _ Hls) as Hlsz.
    unfold is_u64 in Hlsz. apply wbind_lift_inl. exists ls. split; [done|].
    apply wbind_req_inl. exists (Z.of_nat n). split; [by apply read_unsigned_window; [lia..| |]|].
    rewrite (proj2 (Z.ltb_ge _ _)) by done. by rewrite Nat2Z.id.
Qed.

(** The walk collects the entries of a tree, in order, and fails on what is not
    one. *)
Lemma walk_btree_inl h : ∀ fuel above a s s', (h < fuel)%nat → Z.of_nat h <= MAX_HEIGHT →
  walk_btree_node b ctx collect fuel lay above a (Z.of_nat h) s = Ret (s', inl ()) ↔
  ∃ es, s' = s ++ es ∧ tree_at h above a es.
Proof.
  induction h as [|h IH]; intros [|fuel] above a s s' Hf Hh; try lia; cbn [walk_btree_node];
    (destruct (a =? 0) eqn:Ea; zb;
     [split; [done|]; intros (es & _ & Ht); by inversion Ht|]);
    rewrite (proj2 (Z.ltb_ge MAX_HEIGHT _)) by done;
    (case_bool_decide as Hv; [split; [done|]; intros (es & _ & Ht); by inversion Ht|]);
    rewrite btree_node_inl.
  - split.
    + intros (size & n & Hsz & Hn & Hl & W). apply wbind_inl in W as (s1 & [] & W1 & W).
      apply leaf_slots_inl in W1 as (es & -> & He); [|done..]. injection W as <-.
      exists es. split; [done|]. by econstructor.
    + intros (es & -> & Ht). inversion Ht as [? ? size n ? _ _ Hn Hl He|]; subst.
      pose proof (size_u64 Hok _ _ (proj1 Hn)). exists size, n. do 3 (split; [done|]).
      apply wbind_inl. exists (s ++ es), (). split; [|done]. apply leaf_slots_inl; [done..|]. by exists es.
  - replace (0 <? Z.of_nat (S h)) with true by (symmetry; zb; lia).
    assert (Hd : ∀ c s s', walk_btree_node b ctx collect fuel lay (a :: above) c (Z.of_nat (S h) - 1) s
      = Ret (s', inl ()) ↔ ∃ es, s' = s ++ es ∧ tree_at h (a :: above) c es).
    { intros c s1 s1'. replace (Z.of_nat (S h) - 1) with (Z.of_nat h) by lia. apply IH; lia. }
    split.
    + intros (size & n & Hsz & Hn & Hl & W). apply (internal_slots_inl _ h (a :: above)) in W; [|done..].
      destruct W as (es & -> & He). exists es. split; [done|]. by econstructor.
    + intros (es & -> & Ht). inversion Ht as [|? ? ? size n ? _ _ Hn Hl He]; subst.
      pose proof (size_u64 Hok _ _ (proj1 Hn)). exists size, n. do 3 (split; [done|]).
      apply (internal_slots_inl _ h (a :: above)); [done..|]. by exists es.
Qed.
End trees.

(** ** Termination *)

Section ends.
Context (b : Bundle) {T : Type} `{!Target T} (ctx : RenderCtx T) {St : Type}
  (emit : Value → option Value → walk St ()) (lay : BTreeNodeLayout).
Hypothesis Hemit : ∀ k v, ends (emit k v).

(** Every type the layout names has a size. *)
Definition sized_layout : Prop :=
  Forall (λ ty, ty_size b ty ≠ Panic) [lay_key lay; lay_value lay; lay_leaf lay; lay_leaf_len lay;
    lay_internal lay; lay_edge lay].
Hypothesis Hsized : sized_layout.

Lemma btree_edge_ends bytes index : ends (St := St) (btree_edge_address b bytes lay index).
Proof.
  unfold sized_layout in Hsized. rewrite !Forall_cons in Hsized. destruct_and!.
  unfold btree_edge_address. auto 10 with walks.
Qed.

Lemma btree_entry_ends bytes address index : ends (btree_entry b emit bytes lay address index).
Proof.
  unfold sized_layout in Hsized. rewrite !Forall_cons in Hsized. destruct_and!.
  unfold btree_entry, slot_offset. auto 20 with walks.
Qed.

Lemma btree_slots_ends descend bytes address internal indices :
  (internal = true → ∀ c, ends (descend c)) →
  ends (btree_slots b emit descend bytes lay address internal indices).
Proof.
  intros Hd. induction indices as [|i indices IH]; cbn [btree_slots]; [apply ends_ret|].
  apply ends_bind; [destruct internal|intros _; apply ends_bind; [apply btree_entry_ends|by intros _]].
  - apply ends_bind; [apply btree_edge_ends|by apply Hd].
  - apply ends_ret.
Qed.

(** The height falls with every level, so no cycle of nodes holds the walk. *)
Lemma walk_btree_ends fuel : ∀ above address height,
  (0 < fuel)%nat → (height <= MAX_HEIGHT → (Z.to_nat height < fuel)%nat) →
  ends (walk_btree_node b ctx emit fuel lay above address height).
Proof.
  induction fuel as [|fuel IH]; intros above address height Hf Hh; [lia|]. cbn [walk_btree_node].
  destruct (address =? 0); [apply ends_fail|]. destruct (MAX_HEIGHT <? height) eqn:Eh; [apply ends_fail|].
  case_bool_decide; [apply ends_fail|]. zb. specialize (Hh Eh).
  assert (Hd : 0 < height → ∀ c, ends (walk_btree_node b ctx emit fuel lay (address :: above) c (height - 1))).
  { intros Hp c. apply IH; lia. }
  pose proof Hsized as Hall. unfold sized_layout in Hall. rewrite !Forall_cons in Hall. destruct_and!.
  unfold btree_node. cbv zeta. apply ends_bind; [destruct (height =? 0); auto with walks|]. intros size.
  apply ends_bind; [destruct (ctx_read ctx address size); auto with walks|]. intros bytes.
  apply ends_bind; [auto with walks|]. intros ls. apply ends_bind; [auto with walks|]. intros len.
  destruct (lay_key_slots lay <? len); [apply ends_fail|]. apply ends_bind.
  - apply btree_slots_ends. intros E. zb. by apply Hd.
  - intros _. destruct (0 <? height) eqn:E; [zb|apply ends_ret].
    apply ends_bind; [apply btree_edge_ends|by apply Hd].
Qed.
End ends.

(** ** Tables *)

Section tables.
Context (b : Bundle) {T : Type} `{!Target T} (ctx : RenderCtx T) (mem : Z → Byte.byte)
  (key : BundleTypeId) (ks key_offset : Z) (value : option (BundleTypeId * Z)) (vs : Z)
  (ctrl buckets stride : Z).

(** The entry of a bucket: its key and value at the offsets the bucket type gives
    them, the bucket ending [index] buckets below the control bytes. *)
Definition bucket_start (index : Z) : Z := ctrl - (index + 1) * stride.
Definition bucket_entry (index : Z) : Entry :=
  let at_ ty size offset :=
    mkValue ty (bucket_start index + offset) (window mem (bucket_start index + offset) size) in
  (at_ key ks key_offset,
   match value with Some (ty, offset) => Some (at_ ty vs offset) | None => None end).

Definition full (index : Z) : Prop := is_full (mem (ctrl + index)) = true.

#[global] Instance full_dec index : Decision (full index).
Proof. unfold full. apply _. Defined.

(** The sizes the key and the value have, and that they lie in the bucket. *)
Record bucket_holds : Prop := mkBucketHolds {
  key_sized : ty_size b key = Ret ks;
  key_inside : 0 <= ks ∧ 0 <= key_offset ∧ key_offset + ks <= stride;
  value_inside : ∀ ty offset, value = Some (ty, offset) →
    ty_size b ty = Ret vs ∧ 0 <= vs ∧ 0 <= offset ∧ offset + vs <= stride
}.
(** No full control byte, no entry. *)
Lemma full_none n : ∀ index,
  forallb (λ c, negb (is_full c)) (window mem (ctrl + index) (Z.of_nat n)) = true →
  filter full (z_range index n) = [].
Proof.
  unfold window. rewrite Nat2Z.id. induction n as [|n IH]; intros index; [done|].
  cbn [z_range fmap list_fmap forallb]. rewrite andb_true_iff, negb_true_iff, <- Z.add_assoc.
  intros [Hf Hn]. rewrite filter_cons_False; [by apply IH|]. unfold full. by rewrite Hf.
Qed.

Hypothesis Hholds : bucket_holds.
Hypothesis Htable : 0 <= buckets * stride <= ctrl.
Hypothesis Hctrl : ctrl < W64.
Hypothesis Hbuckets : 0 <= buckets < W64.

Lemma hash_entry_Ret index ty size offset what s :
  0 <= index < buckets → ty_size b ty = Ret size → 0 <= size → 0 <= offset → offset + size <= stride →
  hash_entry (St := list Entry) b (window mem (ctrl - buckets * stride) (buckets * stride))
    (ctrl - buckets * stride) (u64_mul (u64_sub (u64_sub buckets 1) index) stride) ty offset what s
  = Ret (s, inl (mkValue ty (bucket_start index + offset) (window mem (bucket_start index + offset) size))).
Proof.
  intros Hi Hs H0 Ho Hle. unfold hash_entry. cbv zeta.
  assert (Hstart : u64_mul (u64_sub (u64_sub buckets 1) index) stride = (buckets - 1 - index) * stride).
  { rewrite (u64_sub_small buckets 1) by (unfold is_u64; lia).
    rewrite u64_sub_small by (unfold is_u64; lia). by rewrite u64_mul_small by (unfold is_u64; nia). }
  rewrite Hstart. assert (0 <= (buckets - 1 - index) * stride) by nia.
  rewrite u64_add_small by (unfold is_u64; nia). unfold wbind, wlift. rewrite Hs. cbn.
  unfold byte_range, checked_add.
  replace (_ <? W64) with true by (symmetry; zb; nia). cbn. rewrite window_slice by nia. cbn.
  rewrite u64_add_small by (unfold is_u64; nia).
  by replace (ctrl - buckets * stride + ((buckets - 1 - index) * stride + offset))
    with (bucket_start index + offset) by (unfold bucket_start; lia).
Qed.

(** The reads a full bucket's turn makes. *)
Lemma hash_bucket_Ret index s : 0 <= index < buckets →
  let table := window mem (ctrl - buckets * stride) (buckets * stride) in
  let start := u64_mul (u64_sub (u64_sub buckets 1) index) stride in
  wbind (hash_entry b table (ctrl - buckets * stride) start key key_offset "truncated key slot")
    (λ key, wbind match value with
       | Some (value, offset) =>
           wbind (hash_entry b table (ctrl - buckets * stride) start value offset "truncated value slot")
             (λ v, wret (Some v))
       | None => wret None
       end (collect key)) s = Ret (s ++ [bucket_entry index], inl ()).
Proof.
  intros Hi table start. unfold table, start. pose proof (key_sized Hholds) as Hks.
  destruct (key_inside Hholds) as (Hk0 & Hko & Hkl).
  unfold wbind at 1. rewrite (hash_entry_Ret index key ks) by (done || lia).
  unfold bucket_entry. destruct value as [[ty offset]|] eqn:Ev; [|done].
  destruct (value_inside Hholds ty offset Ev) as (Hv & Hv0 & Hvo & Hvl).
  rewrite wbind_assoc. unfold wbind at 1. by rewrite (hash_entry_Ret index ty vs) by (done || lia).
Qed.

Lemma window_S a n : window mem a (Z.of_nat (S n)) = mem a :: window mem (a + 1) (Z.of_nat n).
Proof. unfold window. by rewrite !Nat2Z.id. Qed.

Lemma hash_buckets_Ret n : ∀ index s, 0 <= index → index + Z.of_nat n <= buckets →
  hash_buckets b collect (window mem (ctrl - buckets * stride) (buckets * stride))
    (ctrl - buckets * stride) buckets stride key key_offset value index
    (window mem (ctrl + index) (Z.of_nat n)) s
  = Ret (s ++ (bucket_entry <$> filter full (z_range index n)), inl ()).
Proof.
  induction n as [|n IH]; intros index s H0 Hn; [cbn; by rewrite app_nil_r|].
  rewrite window_S, <- Z.add_assoc. cbn [z_range hash_buckets]. unfold wbind at 1.
  destruct (decide (full index)) as [Hf|Hf].
  - rewrite filter_cons_True by done. unfold full in Hf. rewrite Hf. cbv zeta.
    rewrite hash_bucket_Ret, IH by lia. cbn [fmap list_fmap]. by rewrite <- app_assoc.
  - rewrite filter_cons_False by done. unfold full in Hf. apply not_true_is_false in Hf. rewrite Hf.
    cbn [wret]. apply IH; lia.
Qed.
End tables.

(** C13: the walk of a B-tree, started as a map's walk starts it, returns whatever
    memory holds; and it succeeds on exactly the addresses that are a tree of that
    height - no higher than the limit, every node readable, no node its own
    ancestor, no more entries in a node than slots - giving the tree's entries in
    order, each with the address and the bytes it has. *)
Theorem btree_walk_exact {T} `{!Target T} (b : Bundle) (ctx : RenderCtx T) mem lay root height :
  walkable b ctx mem lay → sized_layout b lay → 0 <= height →
  let walk := walk_btree_node b ctx collect (S (S (Z.to_nat MAX_HEIGHT))) lay [] root height in
  walk [] ≠ Panic ∧
  ∀ es, walk [] = Ret (es, inl ()) ↔
    height <= MAX_HEIGHT ∧ tree_at b ctx mem lay (Z.to_nat height) [] root es.
Proof.
  intros Hw Hs Hh walk. split.
  { apply walk_btree_ends; [done|done|lia|]. unfold MAX_HEIGHT. lia. }
  intros es. unfold walk. destruct (Z.le_gt_cases height MAX_HEIGHT) as [Hle|Hgt].
  - pose proof (walk_btree_inl b ctx mem lay Hw (Z.to_nat height) (S (S (Z.to_nat MAX_HEIGHT))) [] root
      [] es) as Hi. rewrite Z2Nat.id in Hi by done. rewrite Hi by (unfold MAX_HEIGHT in *; lia).
    cbn [app]. split; [intros (es' & -> & Ht); done|intros [_ Ht]; by exists es].
  - split; [|lia]. cbn [walk_btree_node]. destruct (root =? 0); [done|].
    by rewrite (proj2 (Z.ltb_lt _ _)) by done.
Qed.

(** C26: the walk of a hash table whose control bytes and buckets can be read
    collects one entry for every full control byte and none for the others, in
    their order, the entry of byte [i] being the bucket that ends [i] buckets below
    the control bytes. *)
Theorem hash_walk_exact {T} `{!Target T} (b : Bundle) (ctx : RenderCtx T) mem bytes mask_at ctrl_at
    bucket stride key ks key_offset value value_offset vs ctrl buckets :
  let base := ctrl - buckets * stride in
  let slot := match value, value_offset with Some ty, Some o => Some (ty, o) | _, _ => None end in
  (∀ a n bs, ctx_read ctx a n = Got bs → bs = window mem a n) →
  read_u64_at bytes mask_at = Some (buckets - 1) → read_u64_at bytes ctrl_at = Some ctrl → ctrl ≠ 0 →
  is_power_of_two buckets = true → 0 < buckets <= MAX_HASH_BUCKETS →
  ty_size b bucket = Ret stride → 0 <= buckets * stride <= ctrl →
  bucket_holds b key ks key_offset slot vs stride →
  (∃ bs, ctx_read ctx ctrl buckets = Got bs) →
  past_allocation ctx base ctrl buckets = false →
  (∃ bs, ctx_read ctx base (buckets * stride) = Got bs) →
  walk_hash_entries b ctx collect bytes key value (RHash mask_at ctrl_at bucket key_offset value_offset) []
  = Ret (bucket_entry mem key ks key_offset slot vs ctrl stride
           <$> filter (full mem ctrl) (z_range 0 (Z.to_nat buckets)), inl ()).
Proof.
  intros base slot Hwin Hmask Hctrl Hc0 Hp2 Hbk Hst Hspan Hholds [cb Hcb] Hpast [tb Htb].
  pose proof (read_u64_at_u64 _ _ _ Hctrl) as Hcw. unfold is_u64 in Hcw.
  assert (MAX_HASH_BUCKETS < W64) as Hmb by reflexivity.
  unfold walk_hash_entries. unfold wbind at 1. rewrite Hmask. cbn [wreq wret].
  unfold wbind at 1. rewrite Hctrl. cbn [wreq wret]. unfold wbind at 1, checked_add.
  replace (buckets - 1 + 1 <? W64) with true by (symmetry; zb; lia). cbn [mbind option_bind].
  replace (buckets - 1 + 1) with buckets by lia. rewrite Hp2. cbn [wreq wret].
  rewrite (proj2 (Z.ltb_ge MAX_HASH_BUCKETS buckets)), (proj2 (Z.eqb_neq ctrl 0)) by lia.
  unfold wbind at 1, wlift. rewrite Hst. cbn [outcome_bind]. rewrite outcome_bind_eq.
  unfold wbind at 1, checked_mul. replace (buckets * stride <? W64) with true by (symmetry; zb; lia).
  cbn [wreq wret]. unfold wbind at 1, checked_sub.
  replace (buckets * stride <=? ctrl) with true by (symmetry; zb; lia). cbn [wreq wret].
  unfold wbind at 1, table_read. rewrite Hcb. pose proof (Hwin _ _ _ Hcb) as ->. cbn [wret].
  pose proof (hash_buckets_Ret b mem key ks key_offset slot vs ctrl buckets stride Hholds Hspan
    ltac:(lia) ltac:(lia) (Z.to_nat buckets) 0 [] ltac:(lia) ltac:(lia)) as Hrun.
  rewrite Z.add_0_r, Z2Nat.id in Hrun by lia. cbn [app] in Hrun. rewrite <- Hrun.
  destruct (forallb _ (window mem ctrl buckets)) eqn:Ef.
  - rewrite Hrun, full_none; [done|]. by rewrite Z.add_0_r, Z2Nat.id by lia.
  - fold base. rewrite Hpast. unfold wbind at 1. rewrite Htb.
    rewrite (Hwin _ _ _ Htb). unfold slot, wret. by destruct value, value_offset.
Qed.

(** ** Witnesses *)

(** A root of one entry, its length at 8 and its two edges at 16, over leaves of
    one entry each; a slot's word is both its key and its value. *)
Definition demo_lay : BTreeNodeLayout := mkLayout 0%nat 0%nat 1%nat 0%nat 8 0 1 0 3%nat 16 2%nat 0.
Definition demo_tree : Flat :=
  mkFlat 4096 (mjoin (to_le_bytes 8 <$> [5; 1; 4128; 4144; 3; 1; 9; 1])).

Lemma demo_walkable f lay :
  Forall is_u64 [lay_leaf_len_offset lay; lay_keys_offset lay; lay_values_offset lay;
    lay_edges_offset lay; lay_edge_pointer_offset lay] →
  walkable demo_bundle (flat_ctx f) (flat_mem f) lay.
Proof.
  intros Hl. split; [|done|apply flat_window]. intros ty n. apply ty_size_u64, demo_table_u64.
Qed.

Lemma btree_walk_exact_witness :
  ∃ es, (λ e, (val_addr e.1, from_le_bytes (val_bytes e.1))) <$> es = [(4128, 3); (4096, 5); (4144, 9)] ∧
    tree_at demo_bundle (flat_ctx demo_tree) (flat_mem demo_tree) demo_lay 1 [] 4096 es.
Proof.
  destruct (walk_btree_node demo_bundle (flat_ctx demo_tree) collect (S (S (Z.to_nat MAX_HEIGHT)))
    demo_lay [] 4096 1 []) as [[es [[]|e]]|] eqn:E; [|vm_compute in E; discriminate..].
  exists es. split; [vm_compute in E; injection E as <-; reflexivity|].
  apply (btree_walk_exact demo_bundle (flat_ctx demo_tree) (flat_mem demo_tree) demo_lay 4096 1).
  - apply demo_walkable. repeat constructor; discriminate.
  - repeat constructor; discriminate.
  - discriminate.
  - exact E.
Defined.

(** Two of four buckets full; the set's keys are words. *)
Definition demo_buckets : Flat :=
  mkFlat 4096 (mjoin (to_le_bytes 8 <$> [40; 30; 20; 10]) ++ [Byte.xff; Byte.x11; Byte.x80; Byte.x7f]).
Definition demo_set : list Byte.byte := mjoin (to_le_bytes 8 <$> [3; 4128; 2]).

Lemma hash_walk_exact_witness :
  (λ e : Entry, (val_addr e.1, from_le_bytes (val_bytes e.1))) <$>
    (bucket_entry (flat_mem demo_buckets) 0%nat 8 0 None 0 4128 8
       <$> filter (full (flat_mem demo_buckets) 4128) (z_range 0 4)) = [(4112, 20); (4096, 40)] ∧
  walk_hash_entries demo_bundle (flat_ctx demo_buckets) collect demo_set 0%nat None
    (RHash 0 8 0%nat 0 None) []
  = Ret (bucket_entry (flat_mem demo_buckets) 0%nat 8 0 None 0 4128 8
           <$> filter (full (flat_mem demo_buckets) 4128) (z_range 0 4), inl ()).
Proof.
  split; [vm_compute; reflexivity|].
  apply (hash_walk_exact demo_bundle (flat_ctx demo_buckets) (flat_mem demo_buckets) demo_set 0 8 0%nat 8
    0%nat 8 0 None None 0 4128 4).
  - apply flat_window.
  - reflexivity.
  - reflexivity.
  - discriminate.
  - reflexivity.
  - split; [reflexivity|discriminate].
  - reflexivity.
  - split; discriminate.
  - split; [reflexivity|split; [discriminate|split; discriminate]|discriminate].
  - eexists. vm_compute. reflexivity.
  - reflexivity.
  - eexists. vm_compute. reflexivity.
Defined.
