(* ===== verification/Symbols.v ===== *)
(** Symbol and type names as join keys ([hansei-bundle/src/symbols.rs], with the
    suffix stripping of [schema.rs]): the keys a target's symbols are looked up
    under, the type a vtable function's symbol names, and the spelling of a type
    name that two formatters agree on.

    A [str] is its bytes; its characters are runs of them.  The demangler is the
    rustc-demangle crate's, an interface. *)

From S2P Require Import Prelude Text StringTable TypeView.

Local Open Scope Z_scope.

(** ** Splitting *)

(** [starts_with], [strip_prefix] and [strip_suffix]. *)
Definition starts_with (pat s : str) : bool := bool_decide (take (length pat) s = pat).
Definition strip_prefix (pat s : str) : option str :=
  if starts_with pat s then Some (drop (length pat) s) else None.
Definition strip_suffix (pat s : str) : option str :=
  let k := (length s - length pat)%nat in
  if bool_decide (drop k s = pat) then Some (take k s) else None.

(** [split_once]: the text before the first occurrence, and the text after it. *)
Fixpoint split_first (pat s : str) : option (str * str) :=
  if starts_with pat s then Some ([], drop (length pat) s)
  else match s with
       | [] => None
       | c :: s' => '(before, after) ← split_first pat s'; Some (c :: before, after)
       end.

(** [rsplit_once], [rfind]: the text before the last occurrence, and the text
    after it. *)
Fixpoint rsplit (pat s : str) : option (str * str) :=
  match s with
  | [] => None
  | c :: s' =>
      match rsplit pat s' with
      | Some (before, after) => Some (c :: before, after)
      | None => if starts_with pat s then Some ([], drop (length pat) s) else None
      end
  end.

(** [contains] of a text. *)
Definition contains_text (pat s : str) : bool :=
  match split_first pat s with Some _ => true | None => false end.

(** ** Keys *)

Definition LLVM_SUFFIX : str := bytes_of_string ".llvm.".

Definition strip_llvm_suffix (symbol : str) : str :=
  match rsplit LLVM_SUFFIX symbol with
  | Some (before, after) =>
      if forallb is_digit_byte after && negb (bool_decide (after = [])) then before else symbol
  | None => symbol
  end.

(** [rustc_demangle::try_demangle], a name it reads formatted plainly and in the
    alternate form, which leaves the crate hashes out. *)
Record Demangled := mkDemangled { full : str; alternate : str }.
Class Demangler := { try_demangle : str → option Demangled }.

Definition normalized_v0_key `{Demangler} (symbol : str) : option str :=
  let symbol := strip_llvm_suffix symbol in
  if starts_with (bytes_of_string "_R") symbol || starts_with (bytes_of_string "__R") symbol
     || starts_with (bytes_of_string "R") symbol
  then alternate <$> try_demangle symbol
  else None.

(** A map from keys to the ids collected under them, ascending. *)
Abbreviation CandidateIndex := (gmap str (list nat)) (only parsing).

(** [BTreeSet::insert]. *)
Fixpoint set_insert (v : nat) (l : list nat) : list nat :=
  match l with
  | [] => [v]
  | x :: l' => if Nat.ltb v x then v :: l else if Nat.eqb v x then l else x :: set_insert v l'
  end.

(** [entry(key).or_default().insert(value)]. *)
Definition index_insert (index : CandidateIndex) (key : str) (v : nat) : CandidateIndex :=
  <[key := set_insert v (default [] (index !! key))]> index.

Definition symbol_candidate_index (symbols : list (str * nat)) : CandidateIndex :=
  foldl (λ index e, index_insert index (strip_llvm_suffix e.1) e.2) ∅ symbols.

(** One symbol's candidates, under its normalized key. *)
Definition normalized_insert `{Demangler} (index : CandidateIndex) (e : str * list nat)
    : CandidateIndex :=
  match normalized_v0_key e.1 with
  | Some key => <[key := foldl (λ l v, set_insert v l) (default [] (index !! key)) e.2]> index
  | None => index
  end.

Definition normalized_candidate_index `{Demangler} (symbols : CandidateIndex) : CandidateIndex :=
  foldl normalized_insert ∅ (map_to_list symbols).

(** ** Paths *)

(** The segments of a path, split on the [::] at bracket depth zero.  [start] is
    the segment at hand. *)
Fixpoint path_segments (depth : nat) (start path : str) : list str :=
  match path with
  | [] => [start]
  | c :: path' =>
      match c, path' with
      | Byte.x3c, _ => path_segments (S depth) (start ++ [c]) path'
      | Byte.x3e, _ => path_segments (pred depth) (start ++ [c]) path'
      | Byte.x3a, Byte.x3a :: path'' =>
          match depth with
          | O => start :: path_segments 0 [] path''
          | S _ => path_segments depth (start ++ [c]) path'
          end
      | _, _ => path_segments depth (start ++ [c]) path'
      end
  end.

Definition opens_bracket (item : str) : bool :=
  match item with Byte.x3c :: _ => true | _ => false end.

Definition path_items (path : str) : list str :=
  filter (λ item, negb (bool_decide (item = [])) && negb (opens_bracket item) = true)
    (path_segments 0 [] path).

Definition ends_in_brace_item (symbol : str) : bool :=
  match last (path_items symbol) with
  | Some (Byte.x7b :: _) => true
  | _ => false
  end.

Definition AS : str := bytes_of_string " as ".

(** The depth after a character. *)
Definition bracket (c : Byte.byte) (depth : nat) : nat :=
  match c with Byte.x3c => S depth | Byte.x3e => pred depth | _ => depth end.

(** The loop of [trait_object_pair]: [seen] is the text read so far and [split]
    the part of it before the first [ as ] at depth one.  The result is the two
    halves and the rest. *)
Fixpoint pair_go (depth : nat) (split : option str) (seen rest : str) : option (str * str * str) :=
  match rest with
  | [] => None
  | c :: rest' =>
      let depth := bracket c depth in
      let split :=
        match split with
        | None => if Nat.eqb depth 1 && starts_with AS rest then Some seen else None
        | Some s => Some s
        end in
      match depth with
      | O =>
          concrete ← split;
          trait ← (if (length concrete + length AS <=? length seen)%nat
                   then Some (drop (length concrete + length AS) seen) else None);
          Some (concrete, trait, rest')
      | S _ => pair_go depth split (seen ++ [c]) rest'
      end
  end.

Definition trait_object_pair (symbol : str) : option (str * str) :=
  rest ← strip_prefix [Byte.x3c] symbol;
  '(concrete, trait, tail) ← pair_go 1 None [] rest;
  if (1 <? length (path_items tail))%nat then None else Some (concrete, trait).

Definition GLUE_MARKERS : list str :=
  [bytes_of_string "core::ptr::drop_glue::<"; bytes_of_string "core::ptr::drop_in_place::<"].

(** The type of a glue symbol, of the first marker it has. *)
Fixpoint glue_type (markers : list str) (symbol : str) : option str :=
  match markers with
  | [] => None
  | marker :: markers =>
      match (rest ← strip_prefix marker symbol; strip_suffix [Byte.x3e] rest) with
      | Some rest => Some rest
      | None => glue_type markers symbol
      end
  end.

Definition concrete_type_from_vtable_symbol (symbol : str) : option str :=
  match glue_type GLUE_MARKERS symbol with
  | Some rest => Some rest
  | None =>
      if ends_in_brace_item symbol then Some symbol
      else fst <$> trait_object_pair symbol
  end.

(** ** Type names *)

Definition is_continuation (b : Byte.byte) : bool := (128 <=? byte_Z b) && (byte_Z b <? 192).

(** [str::chars], each character the bytes that spell it. *)
Fixpoint chars (s : str) : list str :=
  match s with
  | [] => []
  | b :: s' =>
      let cs := chars s' in
      match s', cs with
      | b' :: _, c :: cs => if is_continuation b' then (b :: c) :: cs else [b] :: c :: cs
      | _, _ => [b] :: cs
      end
  end.

(** [char::is_whitespace]: the characters with the White_Space property. *)
Definition is_whitespace (c : str) : bool :=
  match byte_Z <$> c with
  | [a] => (9 <=? a) && (a <=? 13) || (a =? 32)
  | [194; b] => (b =? 133) || (b =? 160)
  | [225; 154; 128] => true
  | [226; 128; d] => (128 <=? d) && (d <=? 138) || (d =? 168) || (d =? 169) || (d =? 175)
  | [226; 129; 159] => true
  | [227; 128; 128] => true
  | _ => false
  end.

Definition GLOBAL_ELISION : str := bytes_of_string ",alloc::alloc::Global>".
Definition COMMA : str := bytes_of_string ",".
Definition CLOSE : str := bytes_of_string ">".

(** [Normalized::elision_end]: how many characters an elision written here takes. *)
Fixpoint elision_end (want cs : list str) (n : nat) : option nat :=
  match want with
  | [] => Some n
  | w :: want' =>
      (fix next (cs : list str) (n : nat) {struct cs} : option nat :=
        match cs with
        | [] => None
        | c :: cs' =>
            if is_whitespace c then next cs' (S n)
            else if bool_decide (c = w) then elision_end want' cs' (S n) else None
        end) cs n
  end.

(** The iterator [Normalized], [skip] characters of an elision still to pass. *)
Fixpoint normalized_go (skip : nat) (cs : list str) : list str :=
  match cs with
  | [] => []
  | c :: cs' =>
      match skip with
      | S skip => normalized_go skip cs'
      | O =>
          if is_whitespace c then normalized_go 0 cs'
          else if bool_decide (c = COMMA) then
            match elision_end (chars GLOBAL_ELISION) cs 0 with
            | Some n => CLOSE :: normalized_go (n - 1) cs'
            | None => c :: normalized_go 0 cs'
            end
          else c :: normalized_go 0 cs'
      end
  end.

Definition normalized_chars (nm : str) : list str := normalized_go 0 (chars nm).

Definition rust_type_names_equal (left right : str) : bool :=
  bool_decide (normalized_chars left = normalized_chars right).

Definition normalized_rust_type_name (nm : str) : str :=
  if existsb is_whitespace (chars nm) || contains_text GLOBAL_ELISION nm
  then mjoin (normalized_chars nm) else nm.

(** ** Examples *)

Example keys : strip_llvm_suffix (bytes_of_string "a.llvm.b.llvm.12") = bytes_of_string "a.llvm.b" ∧
  strip_llvm_suffix (bytes_of_string "a.llvm.") = bytes_of_string "a.llvm.".
Proof. by vm_compute. Qed.

Example pairs :
  trait_object_pair (bytes_of_string "<a::B<<c as d::E>::F> as core::fmt::Display>::fmt")
    = Some (bytes_of_string "a::B<<c as d::E>::F>", bytes_of_string "core::fmt::Display") ∧
  concrete_type_from_vtable_symbol (bytes_of_string "<a as T>::m::{closure#0}")
    = Some (bytes_of_string "<a as T>::m::{closure#0}") ∧
  concrete_type_from_vtable_symbol (bytes_of_string "core::ptr::drop_glue::<a::B>")
    = Some (bytes_of_string "a::B").
Proof. by vm_compute. Qed.

Example normal_form :
  normalized_rust_type_name (bytes_of_string "Vec<u8, alloc::alloc::Global>")
    = bytes_of_string "Vec<u8>" ∧
  rust_type_names_equal (bytes_of_string "Vec<(A, B),alloc::alloc::Global>")
    (bytes_of_string "Vec<(A,B)>") = true.
Proof. by vm_compute. Qed.
