(* ===== verification/Semantics.v ===== *)
(** The semantic table of a bundle as the await-chain walk reads it
    ([hansei-bundle/src/semantics.rs], the symbol joins of [schema.rs], the index
    of [hansei-runtime/src/tokio/semantics.rs] and the states of [view.rs]).

    A type's record keeps here what the walk of its continuation and the scan of its
    storage read: its poll program, the coroutine layout of its states, the route of its
    referent, the word of its lock, how its storage is laid out, and the resource, the
    container and the table it is.  The words of an HTTP connection are a resource's
    only as far as that they are bound. *)

From S2P Require Import Prelude Text StringTable Target Symbols Schema BundleCheck TypeView Value.

Local Open Scope Z_scope.

(** ** Poll programs *)

Inductive SemanticIssueKind :=
  | NoRule | UnsupportedOrigin | MissingLayout | AmbiguousLayout | UnsupportedState
  | MultipleChildren | PossiblyUninitialized.

Record SemanticIssue := mkIssue { si_kind : SemanticIssueKind; si_detail : option StrRef }.

Record TypedPath := mkPath { tp_steps : list Step; tp_target : BundleTypeId }.

Record DynFutureLayout := mkDynLayout {
  abi : Z;
  dl_data : TypedPath;
  dl_vtable : TypedPath;
  trait_ty : BundleTypeId;
  drop_slot : Z;
  size_slot : Z;
  align_slot : Z;
  poll_slot : option Z
}.

Inductive FutureTarget :=
  | FTValue (path : TypedPath)
  | FTDynamic (pointer : TypedPath) (layout : DynFutureLayout).

Inductive PollAction :=
  | Delegate (target : FutureTarget) (exclusive : bool)
  | APrimitive | AUnresumed | AReturned | APanicked | ANeverReady
  | AUnknown (issue : SemanticIssue).

Record PollCase := mkCase { pc_variant : StrRef; pc_action : PollAction }.

Inductive PollProgram :=
  | PDirect (action : PollAction)
  | PMatchVariant (state : TypedPath) (cases : list PollCase).

Inductive Continuation :=
  | CtUnknown (issue : SemanticIssue)
  | CtBound (rule : Z) (program : PollProgram).

Inductive CoroutinePhase := PhUnresumed | PhSuspended | PhReturned | PhPanicked | PhUnknown.

#[global] Instance coroutine_phase_eq_dec : EqDecision CoroutinePhase.
Proof. solve_decision. Defined.

Record CoroutineState := mkState {
  cs_variant : StrRef;
  cs_stage : CoroutinePhase;
  cs_locals : list StrRef;
  cs_uncertain_locals : list StrRef
}.

(** ** Locks *)

(** The word a lock keeps, in itself or in a block it points to. *)
Record LockBox := mkLockBox { lb_pointer : Z; lb_size : Z }.
Record LockWord := mkLockWord {
  boxed : option LockBox;
  lw_offset : Z;
  lw_size : Z;
  locked_mask : Z
}.

(** [bytes.get(start..start.checked_add(size)?)]. *)
Definition word_at (bytes : list Byte.byte) (start size : Z) : option (list Byte.byte) :=
  end_ ← checked_add start size; bytes_get bytes start end_.

Definition box_address (lb : LockBox) (bytes : list Byte.byte) : option Z :=
  from_le_bytes <$> word_at bytes (lb_pointer lb) 8.

(** A word of more than eight bytes does not fit the buffer it is copied to. *)
Definition held (w : LockWord) (bytes : list Byte.byte) : option bool :=
  word ← word_at bytes (lw_offset w) (lw_size w);
  if (8 <? length word)%nat then None
  else Some (negb (Z.land (from_le_bytes word) (locked_mask w) =? 0)).

(** ** Storage, resources and containers *)

Inductive StoragePolicy :=
  | DeclaredMembers
  | CoroutineStates
  | Unavailable (issue : SemanticIssue).

Inductive IoOperationKind :=
  | IoRead | IoReadExact | IoReadBuf | IoWrite | IoWriteAll | IoWriteBuf | IoFlush | IoShutdown
  | IoReadiness | IoHandshake.

(** A resource's kind; an HTTP connection's says whether its words are bound. *)
Inductive ResourceKind :=
  | RSleep | RJoinHandle | RSemaphoreAcquire
  | RIoOperation (operation : IoOperationKind)
  | RMpscRecv | RNotified | ROneshotRecv
  | RHttpConn (bound : bool).

Inductive ContainerKind := CkJoinSet | CkFuturesUnordered | CkStreamMap.

Inductive ContainerWakers := WkOwn | WkForwarded.

(** [ContainerKind::wakers]. *)
Definition container_wakers (k : ContainerKind) : ContainerWakers :=
  match k with CkJoinSet | CkFuturesUnordered => WkOwn | CkStreamMap => WkForwarded end.

(** A hash table's words, and what its buckets hold. *)
Record HashTableBinding := mkTable {
  tb_bucket_mask : TypedPath;
  tb_ctrl : TypedPath;
  tb_items : TypedPath;
  tb_bucket : BundleTypeId
}.

(** How a value reaches the future it holds, and the resource it is: whether a protocol
    of its state was reviewed, and whether the resource polls nothing else while it
    waits. *)
Inductive AccessKind := AkOwned | AkBorrowed.
Record AccessBinding := mkAccess { ab_kind : AccessKind; ab_target : FutureTarget }.
Record ResourceBinding := mkBound {
  rb_kind : ResourceKind;
  rb_state_rule : option Z;
  rb_exclusive_pending : bool
}.

Record TypeSemantics := mkSemantics {
  ts_ty : BundleTypeId;
  ts_storage : StoragePolicy;
  ts_future : option Continuation;
  ts_coroutine : option (list CoroutineState);
  ts_access : option AccessBinding;
  ts_resource : option ResourceBinding;
  ts_container : option ContainerKind;
  ts_table : option HashTableBinding;
  ts_lock : option LockWord;
  ts_acquires_for : option StrRef
}.

(** ** The index by type *)

(** [SemanticIndex]: a position per type. *)
Definition SemanticIndex : Type := list Z.

Definition NO_RECORD : Z := W32 - 1.

(** One record's turn of the loop; [None] is the refusal. *)
Definition index_record (acc : option SemanticIndex) (r : Z * TypeSemantics)
    : option SemanticIndex :=
  positions ← acc;
  slot ← positions !! ts_ty r.2;
  if slot =? NO_RECORD then Some (<[ts_ty r.2 := as_u32 r.1]> positions) else None.

Definition semantic_index (type_count : nat) (records : list TypeSemantics)
    : option SemanticIndex :=
  if W32 <=? Z.of_nat type_count then None
  else if W32 <=? Z.of_nat (length records) then None
  else foldl index_record (Some (replicate type_count NO_RECORD))
         (zip (z_range 0 (length records)) records).

Definition index_get (index : SemanticIndex) (ty : BundleTypeId) : option Z :=
  position ← index !! ty;
  if position =? NO_RECORD then None else Some position.

(** [Context::type_semantics]; a position past the records is an index panic. *)
Definition type_semantics (index : SemanticIndex) (records : list TypeSemantics)
    (ty : BundleTypeId) : outcome (option TypeSemantics) :=
  match index_get index ty with
  | None => Ret None
  | Some position => r ← or_panic (records !! Z.to_nat position); Ret (Some r)
  end.

(** ** Symbol joins *)

Inductive SymbolLookup (A : Type) :=
  | Missing
  | Unique (a : A)
  | SAmbiguous (l : list A).
Arguments Missing {_}.
Arguments Unique {_} _.
Arguments SAmbiguous {_} _.

Definition from_candidates {A} (ids : list A) : SymbolLookup A :=
  match ids with [] => Missing | [id] => Unique id | ids => SAmbiguous ids end.

(** A symbol table of a bundle: the ids under each linkage name, its suffix
    stripped, and under each normalized key. *)
Record SymbolTable (A : Type) := mkSymbols {
  by_symbol : gmap str (list A);
  by_normalized_symbol : gmap str (list A)
}.
Arguments mkSymbols {_} _ _.
Arguments by_symbol {_} _.
Arguments by_normalized_symbol {_} _.

Section symbols.
Context `{Demangler}.

Definition lookup_symbol_candidates {A} (t : SymbolTable A) (symbol : str) : list A :=
  let symbol := strip_llvm_suffix symbol in
  match by_symbol t !! symbol with
  | Some ids => ids
  | None =>
      match normalized_v0_key symbol with
      | None => []
      | Some key => default [] (by_normalized_symbol t !! key)
      end
  end.

Definition lookup_id {A} (t : SymbolTable A) (symbol : str) : SymbolLookup A :=
  from_candidates (lookup_symbol_candidates t symbol).
End symbols.

(** ** States *)

(** [rsplit("::").next()]: what follows the last separator. *)
Definition last_path_segment (nm : str) : str :=
  match rsplit (bytes_of_string "::") nm with Some (_, after) => after | None => nm end.

(** [view::variant_name]. *)
Definition variant_name (b : Bundle) (member : str) (payload : BundleTypeId) : outcome str :=
  if negb (bool_decide (member = [])) && negb (forallb is_digit_byte member) then Ret member
  else
    nm ← ty_name b payload;
    let seg := last_path_segment nm in
    Ret (if negb (bool_decide (seg = [])) && negb (bool_decide (seg = ANON)) then seg else member).

(** [BundleVariant::phase] and [await_loc], of the record of the variant's enum. *)
Definition phase (record : option TypeSemantics) (v : BundleVariant) : option CoroutinePhase :=
  record ← record;
  states ← ts_coroutine record;
  cs_stage <$> find_first (λ s, bool_decide (cs_variant s = bv_key v)) states.

Definition await_loc (record : option TypeSemantics) (v : BundleVariant) : option (str * Z) :=
  if bool_decide (phase record v = Some PhSuspended) then
    match bv_await_site v with Some loc => Some loc | None => bv_decl v end
  else None.

(** [BundleType::semantics]: a binary search of records in the order of their
    types. *)
Definition view_semantics (records : list TypeSemantics) (ty : BundleTypeId)
    : option TypeSemantics :=
  find_first (λ r, bool_decide (ts_ty r = ty)) records.

(** [BundleType::lock_word]. *)
Definition lock_word (records : list TypeSemantics) (ty : BundleTypeId) : option LockWord :=
  record ← view_semantics records ty; ts_lock record.

(** [BundleType::acquires_for]: the primitive a future of the type acquires for. *)
Definition acquires_for (b : Bundle) (records : list TypeSemantics) (ty : BundleTypeId)
    : outcome (option str) :=
  match r ← view_semantics records ty; ts_acquires_for r with
  | None => Ret None
  | Some primitive => nm ← resolve_str b primitive; Ret (Some nm)
  end.
