(* ===== verification/SymbolTheorems.v ===== *)
(** The keys of mangled names and the tables they join by: what a symbol joins, and
    what names say. *)

From S2P Require Import Prelude Text StringTable Target TypeView Symbols Schema BundleCheck Value Semantics.

Local Open Scope Z_scope.

(** ** Splitting *)

Lemma starts_with_spec pat s : starts_with pat s = true ↔ ∃ rest, s = pat ++ rest.
Proof.
  unfold starts_with. rewrite bool_decide_eq_true. split.
  - intros H. exists (drop (length pat) s). by rewrite <- H at 1; rewrite take_drop.
  - intros (rest & ->). by rewrite take_app_length.
Qed.
Lemma starts_with_app pat rest : starts_with pat (pat ++ rest) = true.
Proof. apply starts_with_spec. by exists rest. Qed.

Lemma split_first_Some pat s :
  (∃ before after, s = before ++ pat ++ after) ↔ ∃ p, split_first pat s = Some p.
Proof.
  induction s as [|c s IH]; cbn [split_first].
  - destruct (starts_with pat []) eqn:E.
    + split; [by eexists|]. intros _. apply starts_with_spec in E as (rest & ->). by exists [], rest.
    + split; [|by intros []]. intros (before & after & H). destruct before; [|done].
      cbn in H. rewrite H, starts_with_app in E. done.
  - destruct (starts_with pat (c :: s)) eqn:E.
    + split; [by eexists|]. intros _. apply starts_with_spec in E as (rest & ->). by exists [], rest.
    + split.
      * intros (before & after & H). destruct before as [|d before].
        { cbn in H. rewrite H, starts_with_app in E. done. }
        injection H as <- H. destruct (proj1 IH) as ([b' a'] & ->); [by exists before, after|]. by eexists.
      * intros (p & H). apply bind_Some in H as ([b' a'] & H & _).
        destruct (proj2 IH) as (before & after & ->); [by eexists|]. by exists (c :: before), after.
Qed.

Lemma contains_text_spec pat s : contains_text pat s = true ↔ ∃ before after, s = before ++ pat ++ after.
Proof.
  rewrite split_first_Some. unfold contains_text. destruct (split_first pat s); [|by split; [|intros []]].
  split; [by eexists|done].
Qed.

(** ** Type names *)

Lemma chars_join s : mjoin (chars s) = s.
Proof.
  induction s as [|b s IH]; [done|]. cbn [chars]. destruct s as [|b' s']; [done|].
  destruct (chars (b' :: s')) as [|c cs] eqn:E; [done|].
  change (mjoin (c :: cs)) with (c ++ mjoin cs) in IH. rewrite <- IH.
  by destruct (is_continuation b').
Qed.

Lemma mjoin_app' (a b : list str) : mjoin (a ++ b) = mjoin a ++ mjoin b.
Proof.
  induction a as [|x a IH]; [done|]. change (mjoin (x :: a)) with (x ++ mjoin a).
  change (mjoin ((x :: a) ++ b)) with (x ++ mjoin (a ++ b)). by rewrite IH, app_assoc.
Qed.

(** With no white space in it, an elision is written out. *)
Lemma elision_end_text want : ∀ cs n m, existsb is_whitespace cs = false →
  elision_end want cs n = Some m → ∃ rest, cs = want ++ rest.
Proof.
  induction want as [|w want IH]; intros cs n m Hw He; [by exists cs|]. cbn in He.
  destruct cs as [|c cs]; [done|]. cbn in Hw. apply orb_false_iff in Hw as [Hc Hw].
  rewrite Hc in He. case_bool_decide; [|done]. subst c.
  destruct (IH cs (S n) m Hw He) as (rest & ->). by exists rest.
Qed.

Lemma normalized_go_id cs : existsb is_whitespace cs = false →
  contains_text GLOBAL_ELISION (mjoin cs) = false → normalized_go 0 cs = cs.
Proof.
  induction cs as [|c cs IH]; [done|]. intros Hw Hn. pose proof Hw as Hwc. cbn in Hw.
  apply orb_false_iff in Hw as [Hc Hw]. cbn [normalized_go]. rewrite Hc.
  assert (normalized_go 0 cs = cs) as E.
  { apply IH; [done|]. apply not_true_iff_false. rewrite contains_text_spec. intros (x & y & H).
    apply not_true_iff_false in Hn. apply Hn, contains_text_spec. exists (c ++ x), y.
    change (mjoin (c :: cs)) with (c ++ mjoin cs). by rewrite H, app_assoc. }
  rewrite E. case_bool_decide; [|done]. destruct (elision_end _ _ _) eqn:Ee; [|done]. exfalso.
  destruct (elision_end_text _ _ _ _ Hwc Ee) as (rest & Hr).
  apply not_true_iff_false in Hn. apply Hn, contains_text_spec. exists [], (mjoin rest).
  rewrite Hr, mjoin_app', chars_join. done.
Qed.

(** The borrowing fast path gives the key the iterator spells. *)
Lemma normalized_name_chars nm : normalized_rust_type_name nm = mjoin (normalized_chars nm).
Proof.
  unfold normalized_rust_type_name. destruct (existsb _ _ || _) eqn:E; [done|].
  apply orb_false_iff in E as [Hw Hn]. unfold normalized_chars.
  rewrite normalized_go_id; [by rewrite chars_join|done|by rewrite chars_join].
Qed.

(** ** Trait impls *)

(** The depth after a text whose brackets never close more than is open. *)
Fixpoint bracket_depth (depth : nat) (s : str) : option nat :=
  match s with
  | [] => Some depth
  | c :: s =>
      if bool_decide (c = Byte.x3e ∧ depth = 0%nat) then None else bracket_depth (bracket c depth) s
  end.

(** A type name: its brackets match. *)
Definition balanced (s : str) : Prop := bracket_depth 0 s = Some 0%nat.

Lemma bracket_close d : bracket Byte.x3e d = pred d.
Proof. done. Qed.
Lemma bracket_S c d : ¬ (c = Byte.x3e ∧ d = 0%nat) → bracket c (S d) = S (bracket c d).
Proof.
  intros H. destruct (decide (c = Byte.x3e)) as [->|H2].
  - destruct d; [by destruct H|done].
  - unfold bracket. by destruct c.
Qed.

Lemma bracket_depth_app s t d e : bracket_depth d s = Some e → bracket_depth d (s ++ t) = bracket_depth e t.
Proof.
  revert d. induction s as [|c s IH]; intros d H; cbn in *; [by injection H as <-|].
  case_bool_decide; [done|]. by apply IH.
Qed.

(** Whether [ as ] is written in a text, outside its brackets, when [tail] follows. *)
Fixpoint as_outside (depth : nat) (s tail : str) : bool :=
  match s with
  | [] => false
  | c :: s' =>
      Nat.eqb (bracket c depth) 0 && starts_with AS (s ++ tail) || as_outside (bracket c depth) s' tail
  end.

Lemma AS_length : length AS = 4%nat.
Proof. done. Qed.

Lemma starts_with_long pat s rest : (length pat <= length s)%nat →
  starts_with pat (s ++ rest) = starts_with pat s.
Proof. intros H. unfold starts_with. by rewrite take_app_le. Qed.

(** The loop over a text, before and after the split is found. *)
Lemma pair_go_concrete s rest : ∀ d e seen, bracket_depth d s = Some e → as_outside d s AS = false →
  pair_go (S d) None seen (s ++ AS ++ rest) = pair_go (S e) None (seen ++ s) (AS ++ rest).
Proof.
  induction s as [|c s IH]; intros d e seen Hd Ha; cbn [bracket_depth as_outside] in *.
  { injection Hd as ->. by rewrite app_nil_r. }
  case_bool_decide as E; [done|]. apply orb_false_iff in Ha as [Ha Has].
  change ((c :: s) ++ AS ++ rest) with (c :: (s ++ AS ++ rest)). cbn [pair_go].
  rewrite bracket_S by done.
  assert (starts_with AS (c :: (s ++ AS ++ rest)) = starts_with AS ((c :: s) ++ AS)) as ->.
  { change (c :: (s ++ AS ++ rest)) with ((c :: s) ++ (AS ++ rest)). rewrite (app_assoc (c :: s)).
    apply starts_with_long. rewrite length_app, AS_length. cbn [length]. lia. }
  change (Nat.eqb (S (bracket c d)) 1) with (Nat.eqb (bracket c d) 0). rewrite Ha.
  rewrite (IH _ e) by done. by rewrite <- app_assoc.
Qed.

Lemma pair_go_trait s rest : ∀ d e split seen, bracket_depth d s = Some e →
  pair_go (S d) (Some split) seen (s ++ rest) = pair_go (S e) (Some split) (seen ++ s) rest.
Proof.
  induction s as [|c s IH]; intros d e split seen Hd; cbn [bracket_depth] in Hd.
  { injection Hd as ->. by rewrite app_nil_r. }
  case_bool_decide as E; [done|]. cbn [app pair_go].
  rewrite bracket_S by done.
  rewrite (IH _ e) by done. by rewrite <- app_assoc.
Qed.

Lemma trait_pair_reads concrete trait tail :
  balanced concrete → balanced trait → as_outside 0 concrete AS = false →
  (length (path_items tail) <= 1)%nat →
  trait_object_pair ([Byte.x3c] ++ concrete ++ AS ++ trait ++ [Byte.x3e] ++ tail) = Some (concrete, trait).
Proof.
  intros Hc Ht Ha Hp. unfold trait_object_pair, strip_prefix. rewrite starts_with_app.
  cbn [mbind option_bind]. rewrite drop_app_length.
  rewrite (pair_go_concrete concrete _ 0 0 [] Hc Ha). cbn [app].
  change (AS ++ trait ++ Byte.x3e :: tail) with ([Byte.x20] ++ (bytes_of_string "as " ++ trait ++ Byte.x3e :: tail)).
  cbn [app pair_go]. change (bracket Byte.x20 1) with 1%nat.
  change (Byte.x20 :: bytes_of_string "as " ++ trait ++ Byte.x3e :: tail) with (AS ++ (trait ++ Byte.x3e :: tail)).
  rewrite starts_with_app. cbn [Nat.eqb andb].
  rewrite app_assoc. rewrite (pair_go_trait (bytes_of_string "as " ++ trait) _ 0 0).
  2: { rewrite (bracket_depth_app (bytes_of_string "as ") trait 0 0); [done|]. by vm_compute. }
  cbn [pair_go]. change (bracket Byte.x3e 1) with 0%nat. cbn [mbind option_bind].
  rewrite !length_app. cbn [length].
  change (length (bytes_of_string "as ")) with 3%nat. rewrite AS_length.
  rewrite (proj2 (Nat.leb_le _ _)) by lia. cbn [mbind option_bind].
  rewrite (proj2 (Nat.ltb_ge _ _)) by lia. f_equal. f_equal.
  replace ((concrete ++ [Byte.x20]) ++ bytes_of_string "as " ++ trait) with ((concrete ++ AS) ++ trait)
    by by rewrite <- !app_assoc.
  apply drop_app_length'. by rewrite length_app, AS_length.
Qed.

(** ** Candidates *)

Lemma set_insert_elem v l x : x ∈ set_insert v l ↔ x = v ∨ x ∈ l.
Proof.
  induction l as [|y l IH]; cbn [set_insert].
  - by rewrite list_elem_of_singleton, elem_of_nil; intuition.
  - destruct (Nat.ltb_spec v y); [by rewrite elem_of_cons|].
    destruct (Nat.eqb_spec v y) as [->|]; rewrite !elem_of_cons; [tauto|]. rewrite IH. tauto.
Qed.

Lemma set_insert_sorted v l : StronglySorted lt l → StronglySorted lt (set_insert v l).
Proof.
  induction 1 as [|y l Hs IH Hy]; cbn [set_insert]; [by repeat constructor|].
  destruct (Nat.ltb_spec v y).
  { constructor; [by constructor|]. constructor; [done|]. eapply Forall_impl; [done|]. cbn. lia. }
  destruct (Nat.eqb_spec v y); [by constructor|]. constructor; [done|].
  rewrite Forall_forall in *. intros x Hx. apply set_insert_elem in Hx as [->|Hx]; [lia|by apply Hy].
Qed.

Lemma set_insert_all_elem vs : ∀ l x, x ∈ foldl (λ l v, set_insert v l) l vs ↔ x ∈ vs ∨ x ∈ l.
Proof.
  induction vs as [|v vs IH]; intros l x; cbn [foldl]; [by rewrite elem_of_nil; intuition|].
  rewrite IH, set_insert_elem, elem_of_cons. tauto.
Qed.
Lemma set_insert_all_sorted vs : ∀ l, StronglySorted lt l →
  StronglySorted lt (foldl (λ l v, set_insert v l) l vs).
Proof. induction vs; intros l H; cbn [foldl]; [done|]. by apply IHvs, set_insert_sorted. Qed.

(** An index that holds, under each key, the ascending ids some evidence names. *)
Definition indexes (index : CandidateIndex) (named : str → nat → Prop) : Prop :=
  ∀ key, StronglySorted lt (default [] (index !! key)) ∧
    (∀ v, v ∈ default [] (index !! key) ↔ named key v) ∧ index !! key ≠ Some [].

Lemma indexes_insert index named key vs :
  vs ≠ [] → indexes index named →
  indexes (<[key := foldl (λ l v, set_insert v l) (default [] (index !! key)) vs]> index)
    (λ k v, (k = key ∧ v ∈ vs) ∨ named k v).
Proof.
  intros Hne Hi k. destruct (Hi k) as (Hs & He & Hn). destruct (decide (k = key)) as [->|Hk].
  - rewrite lookup_insert_eq. cbn. split; [by apply set_insert_all_sorted|]. split.
    + intros v. rewrite set_insert_all_elem, He. tauto.
    + intros [= H]. destruct vs as [|v vs]; [done|].
      assert (v ∈ foldl (λ l v, set_insert v l) (default [] (index !! key)) (v :: vs)) as Hv
        by (apply set_insert_all_elem; left; by left).
      rewrite H in Hv. by apply elem_of_nil in Hv.
  - rewrite lookup_insert_ne by done. split; [done|]. split; [|done]. intros v. rewrite He. tauto.
Qed.

Lemma indexes_ext index named named' : (∀ k v, named k v ↔ named' k v) → indexes index named → indexes index named'.
Proof. intros H Hi k. destruct (Hi k) as (? & He & ?). split; [done|]. split; [|done]. intros v. by rewrite He. Qed.

Lemma indexes_empty : indexes ∅ (λ _ _, False).
Proof.
  intros k. rewrite lookup_empty. cbn. split; [constructor|]. split; [|done].
  intros v. by rewrite elem_of_nil.
Qed.

Lemma symbol_index_exact symbols :
  indexes (symbol_candidate_index symbols) (λ key v, ∃ s, (s, v) ∈ symbols ∧ strip_llvm_suffix s = key).
Proof.
  unfold symbol_candidate_index.
  enough (∀ index named, indexes index named →
    indexes (foldl (λ index e, index_insert index (strip_llvm_suffix e.1) e.2) index symbols)
      (λ key v, (∃ s, (s, v) ∈ symbols ∧ strip_llvm_suffix s = key) ∨ named key v)) as H.
  { eapply indexes_ext; [|apply (H _ _ indexes_empty)]. cbn. tauto. }
  induction symbols as [|[s v] symbols IH]; intros index named Hi; cbn [foldl].
  - eapply indexes_ext; [|done]. intros k x. split; [tauto|]. intros [(s & Hs & _)|]; [|done].
    by apply elem_of_nil in Hs.
  - eapply indexes_ext; [|apply IH, (indexes_insert index named (strip_llvm_suffix s) [v]); [done|exact Hi]].
    intros k x. cbn. setoid_rewrite elem_of_cons. split.
    + intros [(s' & Hs' & Hk)|[[-> [->|Hx%elem_of_nil]]|Hx]]; [|by left; exists s; split; [left|]|done|by right].
      left. exists s'. split; [by right|done].
    + intros [(s' & [[= -> ->]|Hs'] & Hk)|Hx]; [|left; by exists s'|by right; right].
      right. left. split; [done|by left].
Qed.

Lemma normalized_index_exact `{Demangler} (index : CandidateIndex) :
  (∀ key, index !! key ≠ Some []) →
  indexes (normalized_candidate_index index)
    (λ key v, ∃ s ids, index !! s = Some ids ∧ v ∈ ids ∧ normalized_v0_key s = Some key).
Proof.
  intros Hne. unfold normalized_candidate_index.
  assert (Hl : ∀ e, e ∈ map_to_list index → index !! e.1 = Some e.2).
  { intros [s ids] He. by apply elem_of_map_to_list. }
  enough (∀ l acc named, (∀ e, e ∈ l → e.2 ≠ []) → indexes acc named →
    indexes (foldl normalized_insert acc l)
      (λ key v, (∃ e : str * list nat, e ∈ l ∧ v ∈ e.2 ∧ normalized_v0_key e.1 = Some key) ∨ named key v)) as Hf.
  { eapply indexes_ext; [|apply (Hf (map_to_list index) ∅ (λ _ _, False))]; [|
      intros e He E; apply (Hne e.1); rewrite (Hl e He); by f_equal|apply indexes_empty].
    intros k v. split.
    - intros [([s ids] & He & Hv & Hk)|[]]. exists s, ids. split; [by apply (Hl _ He)|done].
    - intros (s & ids & He & Hv & Hk). left. exists (s, ids). split; [by apply elem_of_map_to_list|done]. }
  induction l as [|[s ids] l IH]; intros acc named Hnl Hi; cbn [foldl].
  - eapply indexes_ext; [|done]. intros k x. split; [tauto|]. intros [(e & He & _)|]; [|done].
    by apply elem_of_nil in He.
  - unfold normalized_insert at 2. cbn [fst snd]. destruct (normalized_v0_key s) as [key|] eqn:Ek.
    + eapply indexes_ext; [|apply IH, (indexes_insert acc named key ids); [|by apply (Hnl (s, ids)); left|exact Hi]].
      2: { intros e He. apply Hnl. by right. }
      intros k x. split.
      * intros [(e & He & Hx)|[[-> Hx]|Hx]]; [left; exists e; split; [by right|done]| |by right].
        left. exists (s, ids). split; [by left|done].
      * intros [(e & He & Hx & Hk)|Hx]; [|by right; right]. apply elem_of_cons in He as [->|He].
        -- cbn in *. right. left. split; [congruence|done].
        -- left. by exists e.
    + eapply indexes_ext; [|apply IH; [|exact Hi]]. 2: { intros e He. apply Hnl. by right. }
      intros k x. split.
      * intros [(e & He & Hx)|Hx]; [left; exists e; split; [by right|done]|by right].
      * intros [(e & He & Hx & Hk)|Hx]; [|by right]. apply elem_of_cons in He as [->|He]; [cbn in *; congruence|].
        left. by exists e.
Qed.

(** C23: the tables built from evidence answer a symbol with exactly the ids the
    evidence has for it, ascending, each once: those under its own name, LLVM's
    suffix aside, where there are any, and otherwise those under names with its
    normalized key.  One id is believed, several are reported together, and none is
    a miss. *)
Theorem symbol_join_exact `{Demangler} (evidence : list (str * nat)) symbol :
  let exact := symbol_candidate_index evidence in
  let t := mkSymbols exact (normalized_candidate_index exact) in
  let named v := ∃ s, (s, v) ∈ evidence ∧ strip_llvm_suffix s = strip_llvm_suffix symbol in
  let alike v := ∃ s key, (s, v) ∈ evidence ∧ normalized_v0_key (strip_llvm_suffix s) = Some key ∧
    normalized_v0_key (strip_llvm_suffix symbol) = Some key in
  let ids := lookup_symbol_candidates t symbol in
  StronglySorted lt ids ∧
  (∀ v, v ∈ ids ↔ named v ∨ (∀ v', ¬ named v') ∧ alike v) ∧
  match lookup_id t symbol with
  | Unique v => ids = [v]
  | SAmbiguous vs => ids = vs ∧ (2 <= length vs)%nat
  | Missing => ids = []
  end.
Proof.
  cbv zeta. set (exact := symbol_candidate_index evidence).
  pose proof (symbol_index_exact evidence) as He. fold exact in He.
  assert (∀ key, exact !! key ≠ Some []) as Hne by (intros key; apply He).
  pose proof (normalized_index_exact exact Hne) as Hn.
  unfold lookup_id. set (ids := lookup_symbol_candidates _ symbol).
  assert (Hids : StronglySorted lt ids ∧ ∀ v, v ∈ ids ↔
    (∃ s, (s, v) ∈ evidence ∧ strip_llvm_suffix s = strip_llvm_suffix symbol) ∨
    (∀ v', ¬ ∃ s, (s, v') ∈ evidence ∧ strip_llvm_suffix s = strip_llvm_suffix symbol) ∧
    ∃ s key, (s, v) ∈ evidence ∧ normalized_v0_key (strip_llvm_suffix s) = Some key ∧
      normalized_v0_key (strip_llvm_suffix symbol) = Some key).
  { unfold ids, lookup_symbol_candidates. cbn [by_symbol by_normalized_symbol].
    destruct (He (strip_llvm_suffix symbol)) as (Hs & Hv & _).
    destruct (exact !! strip_llvm_suffix symbol) as [l|] eqn:El; cbn [default] in Hs, Hv.
    - split; [done|]. intros v. rewrite Hv. split; [by left|]. intros [?|[Hno _]]; [done|].
      destruct l as [|x l]; [by destruct (Hne _ El)|]. destruct (Hno x). apply Hv. by left.
    - assert (Hno : ∀ v, ¬ ∃ s, (s, v) ∈ evidence ∧ strip_llvm_suffix s = strip_llvm_suffix symbol).
      { intros v Hx. apply Hv in Hx. by apply elem_of_nil in Hx. }
      destruct (normalized_v0_key (strip_llvm_suffix symbol)) as [key|].
      + destruct (Hn key) as (Hsn & Hvn & _). split; [done|]. intros v. rewrite Hvn. split.
        * intros (s & l & Hl & Hin & Hk). right. split; [done|].
          destruct (He s) as (_ & Hv' & _). rewrite Hl in Hv'. apply Hv' in Hin as (s' & Hs' & <-).
          by exists s', key.
        * intros [Hx|[_ (s & key' & Hin & Hk & [= <-])]]; [by apply Hno in Hx|].
          destruct (He (strip_llvm_suffix s)) as (_ & Hv' & _).
          assert (v ∈ default [] (exact !! strip_llvm_suffix s)) as Hin' by (apply Hv'; by exists s).
          destruct (exact !! strip_llvm_suffix s) as [l|] eqn:E; [|by apply elem_of_nil in Hin'].
          by exists (strip_llvm_suffix s), l.
      + split; [constructor|]. intros v. split; [by intros ?%elem_of_nil|].
        intros [Hx|[_ (s & key & _ & _ & ?)]]; [by apply Hno in Hx|done]. }
  destruct Hids as [Hs Hv]. split; [done|]. split; [done|].
  destruct ids as [|x [|y l]]; cbn; [done|done|]. split; [done|lia].
Qed.

(** A type's key is the same by the fast path and by the slow one, so two names
    compared equal have one key. *)
Theorem type_keys_agree left right :
  normalized_rust_type_name left = mjoin (normalized_chars left) ∧
  (rust_type_names_equal left right = true →
   normalized_rust_type_name left = normalized_rust_type_name right).
Proof.
  split; [apply normalized_name_chars|]. intros H%bool_decide_eq_true.
  by rewrite !normalized_name_chars, H.
Qed.

(** The symbol of a trait impl's method names the concrete type and the trait
    it was written with, whatever brackets and [ as ] their arguments have. *)
Theorem trait_pair_read concrete trait tail :
  balanced concrete → balanced trait → as_outside 0 concrete AS = false →
  (length (path_items tail) <= 1)%nat →
  trait_object_pair ([Byte.x3c] ++ concrete ++ AS ++ trait ++ [Byte.x3e] ++ tail) = Some (concrete, trait).
Proof. apply trait_pair_reads. Qed.

Lemma trait_pair_read_witness :
  trait_object_pair (bytes_of_string "<a::B<<c as d::E>::F> as core::fmt::Display>::fmt")
    = Some (bytes_of_string "a::B<<c as d::E>::F>", bytes_of_string "core::fmt::Display").
Proof.
  apply (trait_pair_read (bytes_of_string "a::B<<c as d::E>::F>") (bytes_of_string "core::fmt::Display")
    (bytes_of_string "::fmt")); (vm_compute; first [reflexivity|lia]).
Defined.
