(* ===== verification/Pairing.v ===== *)
(** Which release of a crate each of a target's crate hashes is
    ([hansei-runtime/src/tokio/pairing.rs]).

    The maps and sets of strings are [gmap] and [gset]: the results do not depend
    on the order they are walked in, except where the walk of types is cut short,
    which keeps the source's stack. *)

From S2P Require Import Prelude Text StringTable Target Schema BundleCheck TypeView Symbols.

Local Open Scope Z_scope.

(** ** Tables *)

Record ReleaseSize := mkReleaseSize {
  rs_package : StrRef;
  rs_name : StrRef;
  rs_sizes : list (StrRef * Z)
}.
Record CrateLabel := mkLabel { cl_package : StrRef; cl_versions : list StrRef }.

(** The tables of the bundle the pairing reads. *)
Record ReleaseTables := mkTables {
  release_sizes : list ReleaseSize;
  crate_labels : gmap BundleTypeId CrateLabel;
  generic_args : gmap BundleTypeId (list BundleTypeId)
}.

(** [Pairing]: the release of a crate's hash. *)
Abbreviation Pairing := (gmap (str * str) str) (only parsing).

(** [Pairing::release]. *)
Definition release (p : Pairing) (krate hash : str) : option str := p !! (krate, hash).

(** [strings.get(r).unwrap_or("")]. *)
Definition text (strings : StringTable) (r : StrRef) : outcome str :=
  s ← get strings r; Ret (default [] s).

(** [crate_of]. *)
Definition crate_of (package : str) : str :=
  (λ c, if bool_decide (c = Byte.x2d) then Byte.x5f else c) <$> package.

(** ** Demangled names *)

Definition is_ident_byte (c : Byte.byte) : bool :=
  let z := byte_Z c in
  (48 <=? z) && (z <=? 57) || (65 <=? z) && (z <=? 90) || (97 <=? z) && (z <=? 122) || (z =? 95).
Definition is_hexdigit (c : Byte.byte) : bool :=
  let z := byte_Z c in
  (48 <=? z) && (z <=? 57) || (65 <=? z) && (z <=? 70) || (97 <=? z) && (z <=? 102).

(** The run of identifier bytes a reversed text starts with, and what is before
    it. *)
Fixpoint ident_run (before : str) : str * str :=
  match before with
  | c :: before' =>
      if is_ident_byte c then let '(run, rest) := ident_run before' in (run ++ [c], rest)
      else ([], before)
  | [] => ([], [])
  end.

Definition names_hash (krate hash : str) : bool :=
  negb (bool_decide (krate = [])) && negb (bool_decide (hash = []))
  && forallb is_hexdigit hash
  && match krate with c :: _ => negb (is_digit_byte c) | [] => false end.

(** The loop of [crate_hashes], [before] the text already passed, reversed.  The
    crate starts one byte after the last character that is none of its own; in the
    middle of that character, when it takes several bytes, the slice panics. *)
Fixpoint crate_hashes_go (before rest : str) (out : list (str * str)) : outcome (list (str * str)) :=
  match rest with
  | [] => Ret out
  | c :: rest' =>
      if bool_decide (c = Byte.x5b) then
        match split_first [Byte.x5d] rest' with
        | None => Ret out
        | Some (hash, _) =>
            let '(krate, passed) := ident_run before in
            if match passed with b :: _ => 128 <=? byte_Z b | [] => false end then Panic
            else
              crate_hashes_go (c :: before) rest'
                (if names_hash krate hash && negb (bool_decide ((krate, hash) ∈ out))
                 then out ++ [(krate, hash)] else out)
        end
      else crate_hashes_go (c :: before) rest' out
  end.

Definition crate_hashes (demangled : str) : outcome (list (str * str)) :=
  crate_hashes_go [] demangled [].

(** ** Evidence *)

Record Evidence := mkReleases {
  by_name : gmap str ReleaseSize;
  releases : gmap str (gset str)
}.

(** A fold that may panic. *)
Fixpoint fold_out {A B} (f : B → A → outcome B) (l : list A) (acc : B) : outcome B :=
  match l with
  | [] => Ret acc
  | a :: l => acc ← f acc a; fold_out f l acc
  end.

Definition evidence_entry (strings : StringTable) (ev : Evidence) (entry : ReleaseSize)
    : outcome Evidence :=
  nm ← text strings (rs_name entry);
  package ← text strings (rs_package entry);
  known ← fold_out (λ s r, t ← text strings r.1; Ret ({[t]} ∪ s)) (rs_sizes entry)
            (default ∅ (releases ev !! crate_of package));
  Ret (mkReleases (<[nm := entry]> (by_name ev)) (<[crate_of package := known]> (releases ev))).

Definition evidence_new (strings : StringTable) (entries : list ReleaseSize) : outcome Evidence :=
  fold_out (evidence_entry strings) entries (mkReleases ∅ ∅).

(** What a glue symbol names: the crate, its hash there, and the type's entry. *)
Record Glue := mkGlue { g_crate : str; g_hash : str; g_entry : ReleaseSize }.

(** [Observation]. *)
Record VtableObservation := mkVtableObservation { ob_glue : Glue; ob_size : Z }.

Definition GLUE_PREFIX : str := bytes_of_string "core::ptr::drop_glue::<".

(** [format!("{}{k}", k.len())]. *)
Definition needle (krate : str) : str :=
  bytes_of_string (dec (Z.of_nat (length krate))) ++ krate.

Section pairing.
Context `{Demangler} (strings : StringTable).

(** The hashes of a crate a symbol writes, each once. *)
Definition own_hashes (krate : str) (tokens : list (str * str)) : list str :=
  elements (list_to_set (snd <$> filter (λ t, t.1 = krate) tokens) : gset str).

(** Every hash of an evidence crate a symbol writes. *)
Definition note_hashes (ev : Evidence) (tokens : list (str * str)) (hashes : gmap str (gset str))
    : gmap str (gset str) :=
  foldl (λ hashes t, if bool_decide (is_Some (releases ev !! t.1))
                     then <[t.1 := {[t.2]} ∪ default ∅ (hashes !! t.1)]> hashes else hashes)
    hashes tokens.

(** The glue a demangled symbol is, if it is an evidence type's under one hash of
    its crate. *)
Definition glue_of (ev : Evidence) (plain : str) (tokens : list (str * str)) : outcome (option Glue) :=
  match (rest ← strip_prefix GLUE_PREFIX plain; strip_suffix [Byte.x3e] rest) with
  | None => Ret None
  | Some inner =>
      match by_name ev !! normalized_rust_type_name inner with
      | None => Ret None
      | Some entry =>
          package ← text strings (rs_package entry);
          Ret match own_hashes (crate_of package) tokens with
              | [hash] => Some (mkGlue (crate_of package) hash entry)
              | _ => None
              end
      end
  end.

(** One symbol's turn of [Evidence::glue]. *)
Definition glue_symbol (ev : Evidence) (acc : gmap Z Glue * gmap str (gset str)) (s : Z * str)
    : outcome (gmap Z Glue * gmap str (gset str)) :=
  let '(glue, hashes) := acc in
  let mangled := strip_llvm_suffix s.2 in
  if negb (starts_with (bytes_of_string "_R") mangled)
     || negb (existsb (λ k, contains_text (needle k) mangled) (map_to_list (releases ev)).*1)
  then Ret acc
  else
    match try_demangle mangled with
    | None => Ret acc
    | Some d =>
        tokens ← crate_hashes (full d);
        let hashes := note_hashes ev tokens hashes in
        g ← glue_of ev (alternate d) tokens;
        Ret (match g with Some g => <[s.1 := g]> glue | None => glue end, hashes)
    end.

Definition glue (ev : Evidence) (symbols : list (Z * str))
    : outcome (gmap Z Glue * gmap str (gset str)) :=
  fold_out (glue_symbol ev) symbols (∅, ∅).
End pairing.

(** ** Vtables *)

Definition vt_word (bytes : list Byte.byte) : Z := from_le_bytes (take 8 bytes).

(** The scan, eight bytes at a time; [at + 24] is compared before it can wrap. *)
Fixpoint vtables_go (fuel : nat) (bytes : list Byte.byte) (glue : gmap Z Glue)
    : list VtableObservation :=
  match fuel with
  | O => []
  | S fuel =>
      if (length bytes <? 24)%nat then []
      else
        let found :=
          match glue !! vt_word bytes with
          | Some g =>
              let size := vt_word (drop 8 bytes) in
              let align := vt_word (drop 16 bytes) in
              if is_power_of_two align && negb (align =? 0) && (align <=? 4096)
              then [mkVtableObservation g size] else []
          | None => []
          end in
        found ++ vtables_go fuel (drop 8 bytes) glue
  end.

Definition vtables (bytes : list Byte.byte) (glue : gmap Z Glue) : list VtableObservation :=
  vtables_go (length bytes) bytes glue.

(** ** The decision *)

(** The releases a vtable's size names. *)
Definition named_releases (strings : StringTable) (ob : VtableObservation) : outcome (list str) :=
  fold_out (λ out r, t ← text strings r.1; Ret (out ++ [t])) 
    (filter (λ r, r.2 = ob_size ob) (rs_sizes (g_entry (ob_glue ob)))) [].

(** What the vtables said of a hash: the releases named, and whether one named
    none. *)
Abbreviation Said := (gmap (str * str) (gset str * bool)) (only parsing).

Definition said_add (said : Said) (key : str * str) (named : list str) : Said :=
  let '(rs, stray) := default (∅, false) (said !! key) in
  <[key := match named with
           | [release] => ({[release]} ∪ rs, stray)
           | _ => (rs, true)
           end]> said.

Definition said_of (strings : StringTable) (obs : list VtableObservation) : outcome Said :=
  fold_out (λ said ob,
    named ← named_releases strings ob;
    Ret (said_add said (g_crate (ob_glue ob), g_hash (ob_glue ob)) named)) obs ∅.

(** The one release a hash's vtables agree on. *)
Definition agreed (s : gset str * bool) : option str :=
  if s.2 then None else match elements s.1 with [release] => Some release | _ => None end.

Definition settled (said : Said) : Pairing := omap agreed said.
Definition disputed (said : Said) : gset str :=
  set_map fst (dom (filter (λ e, agreed e.2 = None) said)).

(** How many hashes of a crate claim a release. *)
Definition claims (paired : Pairing) (krate r : str) : nat :=
  base.size (filter (λ e, e.1.1 = krate ∧ e.2 = r) paired).

Definition doubled (paired : Pairing) (key : str * str) (r : str) : bool :=
  (1 <? claims paired key.1 r)%nat.

Definition retained (paired : Pairing) : Pairing :=
  filter (λ e, doubled paired e.1 e.2 = false) paired.
Definition doubly_claimed (paired : Pairing) : gset str :=
  set_map fst (dom (filter (λ e, doubled paired e.1 e.2 = true) paired)).

(** The last hash of a crate. *)
Definition last_hash (contradicted : gset str) (hashes : gmap str (gset str)) (paired : Pairing)
    (entry : str * gset str) : Pairing :=
  let '(krate, releases) := entry in
  if bool_decide (krate ∈ contradicted) then paired
  else
    match hashes !! krate with
    | None => paired
    | Some target =>
        if negb (Nat.eqb (base.size target) (base.size releases)) then paired
        else
          let open := filter (λ h, paired !! (krate, h) = None) target in
          let claimed : gset str :=
            list_to_set (snd <$> filter (λ e, e.1.1 = krate) (map_to_list paired)) in
          match elements open, elements (releases ∖ claimed) with
          | [hash], [r] => <[(krate, hash) := r]> paired
          | _, _ => paired
          end
    end.

Definition decide_said (evidence : Evidence) (said : Said) (hashes : gmap str (gset str)) : Pairing :=
  let paired := settled said in
  foldl (last_hash (disputed said ∪ doubly_claimed paired) hashes) (retained paired)
    (map_to_list (releases evidence)).

Definition decide_pairs (strings : StringTable) (evidence : Evidence) (obs : list VtableObservation)
    (hashes : gmap str (gset str)) : outcome Pairing :=
  said ← said_of strings obs; Ret (decide_said evidence said hashes).

Definition pair_in `{Demangler} (strings : StringTable) (entries : list ReleaseSize)
    (symbols : list (Z * str)) (regions : list (list Byte.byte)) : outcome Pairing :=
  evidence ← evidence_new strings entries;
  if bool_decide (by_name evidence = ∅) then Ret ∅
  else
    '(glue, hashes) ← glue strings evidence symbols;
    decide_pairs strings evidence
      (if bool_decide (glue = ∅) then [] else mjoin ((λ bytes, vtables bytes glue) <$> regions))
      hashes.

Definition holds_vtables (region : LoadedObjectWithPath) : bool :=
  negb (is_exec (flags region)) && match path region with Some _ => true | None => false end.

Definition pair `{Demangler} {T} `{!Target T} (strings : StringTable) (tables : ReleaseTables)
    (proc : T) (mappings : Mappings) : outcome Pairing :=
  match symbols proc with
  | Err _ => Ret ∅
  | Ok syms =>
      pair_in strings (release_sizes tables) ((λ s, (st_value s, bytes_of_string (name s))) <$> syms)
        (omap (λ region, match read_bytes proc (vaddr region) (size region) with
                         | Ok bytes => Some bytes
                         | Err _ => None
                         end) (filter (λ region, holds_vtables region = true) mappings))
  end.

(** ** Selection *)

Definition MAX_TIE_WALK : nat := Z.to_nat 20000.

(** The types a type is built from, in the order the walk pushes them. *)
Definition built_from (b : Bundle) (tables : ReleaseTables) (ty : BundleTypeId) : list BundleTypeId :=
  default [] (generic_args tables !! ty)
  ++ match ty_get (b_types b) ty with
     | Some (TStruct _ _ ms | TUnion _ _ ms) => m_ty <$> ms
     | Some (TEnum _ _ sh) => (λ v, m_ty (v_payload v)) <$> variants sh
     | Some (TPointer _ target) => [target]
     | Some (TArray elem _) => [elem]
     | _ => []
     end.

(** The label of a type, when it is of the package. *)
Definition label_of (b : Bundle) (tables : ReleaseTables) (package : str) (ty : BundleTypeId)
    : outcome (option CrateLabel) :=
  match crate_labels tables !! ty with
  | None => Ret None
  | Some label =>
      p ← get (b_strings b) (cl_package label);
      Ret (if bool_decide (p = Some package) then Some label else None)
  end.

(** The walk, [budget] types short of its bound; the top of [stack] is its head. *)
Fixpoint tie_walk (b : Bundle) (tables : ReleaseTables) (package : str) (budget : nat)
    : list BundleTypeId → gset BundleTypeId → gset str → outcome (gset str) :=
  fix go (stack : list BundleTypeId) (seen : gset BundleTypeId) (out : gset str) : outcome (gset str) :=
    match stack with
    | [] => Ret out
    | ty :: stack =>
        if bool_decide (ty ∈ seen) then go stack seen out
        else
          match budget with
          | O => Ret ∅
          | S budget =>
              label ← label_of b tables package ty;
              match label with
              | Some label =>
                  match cl_versions label with
                  | [v] => t ← text (b_strings b) v;
                           tie_walk b tables package budget stack ({[ty]} ∪ seen) ({[t]} ∪ out)
                  | _ => tie_walk b tables package budget stack ({[ty]} ∪ seen) out
                  end
              | None =>
                  tie_walk b tables package budget (rev (built_from b tables ty) ++ stack)
                    ({[ty]} ∪ seen) out
              end
          end
    end.

Definition releases_of (b : Bundle) (tables : ReleaseTables) (ty : BundleTypeId) (package : str)
    : outcome (gset str) :=
  tie_walk b tables package MAX_TIE_WALK [ty] ∅ ∅.

(** Each evidence crate and its package; a later entry replaces an earlier one. *)
Definition known_crates (strings : StringTable) (entries : list ReleaseSize)
    : outcome (gmap str str) :=
  fold_out (λ known e,
    p ← get strings (rs_package e);
    Ret match p with Some p => <[crate_of p := p]> known | None => known end) entries ∅.

(** What a symbol's crates ask of a candidate; [None] when a hash is not paired. *)
Fixpoint wanted_of (known : gmap str str) (pairing : Pairing) (tokens : list (str * str))
    : option (list (str * str)) :=
  match tokens with
  | [] => Some []
  | (krate, hash) :: tokens =>
      match known !! krate with
      | None => wanted_of known pairing tokens
      | Some package =>
          r ← release pairing krate hash;
          rest ← wanted_of known pairing tokens;
          Some ((package, r) :: rest)
      end
  end.

(** Whether a candidate is tied to every release wanted, and no other. *)
Fixpoint matches_wanted (b : Bundle) (tables : ReleaseTables) (wanted : list (str * str))
    (c : BundleTypeId) : outcome bool :=
  match wanted with
  | [] => Ret true
  | (package, r) :: wanted =>
      releases ← releases_of b tables c package;
      if Nat.eqb (base.size releases) 1 && bool_decide (r ∈ releases)
      then matches_wanted b tables wanted c else Ret false
  end.

Definition matching (b : Bundle) (tables : ReleaseTables) (wanted : list (str * str))
    (candidates : list BundleTypeId) : outcome (list BundleTypeId) :=
  fold_out (λ out c, m ← matches_wanted b tables wanted c; Ret (if (m : bool) then out ++ [c] else out))
    candidates [].

Definition select `{Demangler} (b : Bundle) (tables : ReleaseTables) (pairing : Pairing) (symbol : str)
    (candidates : list BundleTypeId) : outcome (option BundleTypeId) :=
  match try_demangle (strip_llvm_suffix symbol) with
  | None => Ret None
  | Some d =>
      known ← known_crates (b_strings b) (release_sizes tables);
      tokens ← crate_hashes (full d);
      match wanted_of known pairing tokens with
      | None | Some [] => Ret None
      | Some wanted =>
          l ← matching b tables wanted candidates;
          Ret match l with [one] => Some one | _ => None end
      end
  end.
