(* ===== verification/PairingTheorems.v ===== *)
(** What a pairing of crate hashes and a selection by it may be believed. *)

From S2P Require Import Prelude Text StringTable Target Schema BundleCheck TypeView Symbols Pairing BundleDemo.

Local Open Scope Z_scope.

(** ** Folds that may panic *)

Lemma fold_out_cons {A B} (f : B → A → outcome B) a l acc r :
  fold_out f (a :: l) acc = Ret r ↔ ∃ acc', f acc a = Ret acc' ∧ fold_out f l acc' = Ret r.
Proof. cbn [fold_out]. apply outcome_bind_Ret. Qed.

(** ** What the vtables said *)

Section said.
Context (strings : StringTable).
Implicit Types (obs : list VtableObservation) (said : gmap (str * str) (gset str * bool)).

Definition ob_key (ob : VtableObservation) : str * str := (g_crate (ob_glue ob), g_hash (ob_glue ob)).

(** A vtable of a hash names these releases. *)
Definition told obs (key : str * str) (named : list str) : Prop :=
  ∃ ob, ob ∈ obs ∧ ob_key ob = key ∧ named_releases strings ob = Ret named.

(** A hash has vtables, and each names one release, this one. *)
Definition speaks obs (key : str * str) (r : str) : Prop :=
  (∃ named, told obs key named) ∧ ∀ named, told obs key named → named = [r].

(** What is kept of the vtables of a hash. *)
Definition said_entry obs (key : str * str) (e : option (gset str * bool)) : Prop :=
  match e with
  | None => ∀ named, ¬ told obs key named
  | Some (rs, stray) =>
      (∃ named, told obs key named) ∧ (∀ r, r ∈ rs ↔ told obs key [r]) ∧
      (stray = true ↔ ∃ named, told obs key named ∧ ∀ r, named ≠ [r])
  end.

Lemma told_snoc obs ob key named n : named_releases strings ob = Ret n →
  told (obs ++ [ob]) key named ↔ told obs key named ∨ (key = ob_key ob ∧ named = n).
Proof.
  intros Hn. unfold told. split.
  - intros (o & Ho & Hk & Ho'). apply elem_of_app in Ho as [Ho|Ho]; [by left; exists o|].
    apply list_elem_of_singleton in Ho as ->. right. split; [done|congruence].
  - intros [(o & Ho & Hr)|[-> ->]]; [exists o|exists ob]; rewrite elem_of_app.
    + split; [by left|done].
    + split; [right; by apply list_elem_of_singleton|done].
Qed.

Lemma said_add_entry obs ob n e : named_releases strings ob = Ret n →
  said_entry obs (ob_key ob) e →
  said_entry (obs ++ [ob]) (ob_key ob)
    (Some (match n with
           | [r] => ({[r]} ∪ (default (∅, false) e).1, (default (∅, false) e).2)
           | _ => ((default (∅, false) e).1, true)
           end)).
Proof.
  intros Hn He. set (rs := (default (∅, false) e).1). set (stray := (default (∅, false) e).2).
  assert (Hrs : ∀ r, r ∈ rs ↔ told obs (ob_key ob) [r]).
  { intros r. destruct e as [[rs' st]|]; [apply He|]. cbn. split; [set_solver|]. by intros ?%He. }
  assert (Hst : stray = true ↔ ∃ named, told obs (ob_key ob) named ∧ ∀ r, named ≠ [r]).
  { destruct e as [[rs' st]|]; [apply He|]. cbn. split; [done|]. by intros (? & ?%He & _). }
  assert (Ht : ∀ named, told (obs ++ [ob]) (ob_key ob) named ↔ told obs (ob_key ob) named ∨ named = n).
  { intros named. rewrite told_snoc by done. tauto. }
  assert (Hx : ∃ named, told (obs ++ [ob]) (ob_key ob) named) by (exists n; rewrite Ht; by right).
  assert (Hmany : (∀ r, n ≠ [r]) → said_entry (obs ++ [ob]) (ob_key ob) (Some (rs, true))).
  { intros Hs. split; [done|]. split.
    - intros r. rewrite Ht, Hrs. split; [by left|]. intros [?|E]; [done|]. by destruct (Hs r).
    - split; [|done]. intros _. exists n. rewrite Ht. by split; [right|]. }
  destruct n as [|r [|r' n]]; [by apply Hmany| |by apply Hmany].
  split; [done|]. split.
  - intros r'. rewrite elem_of_union, elem_of_singleton, Hrs, Ht. split.
    + intros [->|?]; [by right|by left].
    + intros [?|[= ->]]; [by right|by left].
  - rewrite Hst. split.
    + intros (named & Hnm & Hne). exists named. rewrite Ht. by split; [left|].
    + intros (named & [Hnm|Hnm]%Ht & Hne); [by exists named|]. by destruct (Hne r).
Qed.

Lemma said_of_exact obs : ∀ said, said_of strings obs = Ret said → ∀ key, said_entry obs key (said !! key).
Proof.
  unfold said_of.
  enough (∀ done_ said0 said, (∀ key, said_entry done_ key (said0 !! key)) →
    fold_out (λ said ob, named ← named_releases strings ob;
      Ret (said_add said (g_crate (ob_glue ob), g_hash (ob_glue ob)) named)) obs said0 = Ret said →
    ∀ key, said_entry (done_ ++ obs) key (said !! key)) as H.
  { intros said Hs. apply (H [] ∅ said); [|done]. intros key. rewrite lookup_empty.
    intros named (ob & Hob & _). by apply elem_of_nil in Hob. }
  induction obs as [|ob obs IH]; intros done_ said0 said H0 Hf.
  { injection Hf as <-. by rewrite app_nil_r. }
  apply fold_out_cons in Hf as (said1 & Hs & Hf). apply outcome_bind_Ret in Hs as (n & Hn & [= <-]).
  rewrite (cons_middle ob done_ obs), app_assoc. refine (IH (done_ ++ [ob]) _ said _ Hf). clear IH Hf said.
  intros key. specialize (H0 key). fold (ob_key ob). destruct (decide (key = ob_key ob)) as [->|Hk].
  - pose proof (said_add_entry done_ ob n _ Hn H0) as He. unfold said_add.
    destruct (default (∅, false) (said0 !! ob_key ob)) as [rs stray]. by rewrite lookup_insert_eq.
  - unfold said_add. destruct (default (∅, false) (said0 !! ob_key ob)) as [rs stray].
    rewrite lookup_insert_ne by done.
    assert (Ht : ∀ named, told (done_ ++ [ob]) key named ↔ told done_ key named).
    { intros named. rewrite told_snoc by done. split; [intros [?|[? _]]; done|by left]. }
    unfold said_entry in *. destruct (said0 !! key) as [[rs' st]|].
    + by setoid_rewrite Ht.
    + by setoid_rewrite Ht.
Qed.

(** A hash's vtables are kept as agreeing exactly when they speak of one release. *)
Lemma agreed_speaks obs key e r : said_entry obs key e →
  (e ≫= agreed = Some r ↔ speaks obs key r).
Proof.
  intros He. destruct e as [[rs stray]|]; cbn.
  2: { split; [done|]. by intros [(n & ?%He) _]. }
  destruct He as (Hex & Hrs & Hst). unfold agreed. cbn. split.
  - destruct stray; [done|]. destruct (elements rs) as [|x [|y l]] eqn:E; try done. intros [= ->].
    split; [done|]. intros named Hn. assert (Hin : ∀ r', r' ∈ rs ↔ r' = r).
    { intros r'. rewrite <- elem_of_elements, E, list_elem_of_singleton. done. }
    destruct named as [|r' [|r'' named]].
    + assert (false = true) by (apply Hst; by exists []). done.
    + f_equal. by apply Hin, Hrs.
    + assert (false = true) by (apply Hst; by exists (r' :: r'' :: named)). done.
  - intros [_ Hall]. destruct stray.
    { destruct (proj1 Hst eq_refl) as (named & Hn & Hne). by destruct (Hne r (Hall _ Hn)). }
    assert (rs = {[r]}) as ->; [|by rewrite elements_singleton].
    apply set_eq. intros r'. rewrite elem_of_singleton, Hrs. split; [by intros [= ->]%Hall|].
    intros ->. destruct Hex as (n & Hn). by rewrite (Hall n Hn) in Hn.
Qed.
End said.

(** ** The hashes settled *)

Section decision.
Implicit Types (said : gmap (str * str) (gset str * bool)) (paired : gmap (str * str) str).

Lemma settled_lookup said key : settled said !! key = said !! key ≫= agreed.
Proof. apply lookup_omap. Qed.

Lemma disputed_elem said k : k ∈ disputed said ↔ ∃ h e, said !! (k, h) = Some e ∧ agreed e = None.
Proof.
  unfold disputed. rewrite elem_of_map. split.
  - intros ([k' h] & -> & [e He]%elem_of_dom). apply map_lookup_filter_Some in He. by exists h, e.
  - intros (h & e & He & Ha). exists (k, h). split; [done|]. apply elem_of_dom. exists e.
    by apply map_lookup_filter_Some.
Qed.

(** A release two hashes of a crate claim. *)
Lemma doubled_spec paired k h r : paired !! (k, h) = Some r →
  doubled paired (k, h) r = false ↔ ∀ h', paired !! (k, h') = Some r → h' = h.
Proof.
  intros Hp. unfold doubled, claims. cbn [fst]. set (m := filter _ paired).
  assert (Hm : ∀ h', m !! (k, h') = Some r ↔ paired !! (k, h') = Some r).
  { intros h'. unfold m. rewrite map_lookup_filter_Some. cbn. tauto. }
  rewrite Nat.ltb_ge. split.
  - intros Hs h' Hh'. destruct (decide (h' = h)) as [|Hne]; [done|]. exfalso.
    assert (m !! (k, h) = Some r) as Hk by by apply Hm.
    assert (base.size (delete (k, h) m) = pred (base.size m)) as Hd by (apply map_size_delete_Some; by exists r).
    assert (base.size (delete (k, h) m) = 0%nat) as H0%map_size_empty_inv by lia.
    assert (delete (k, h) m !! (k, h') = Some r) as Hl; [|by rewrite H0, lookup_empty in Hl].
    rewrite lookup_delete_ne by congruence. by apply Hm.
  - intros Hu. assert (m = {[(k, h) := r]}) as ->; [|by rewrite map_size_singleton].
    apply map_eq. intros [k' h']. destruct (decide ((k', h') = (k, h))) as [[= -> ->]|Hne].
    + rewrite lookup_singleton_eq. by apply Hm.
    + rewrite lookup_singleton_ne by congruence. apply eq_None_not_Some. intros [r' Hr'].
      apply map_lookup_filter_Some in Hr' as [Hl [Hk Hr]]. cbn in Hk, Hr. subst. by rewrite (Hu h' Hl) in Hne.
Qed.

Lemma retained_lookup paired k h r :
  retained paired !! (k, h) = Some r ↔
  paired !! (k, h) = Some r ∧ ∀ h', paired !! (k, h') = Some r → h' = h.
Proof.
  unfold retained. rewrite map_lookup_filter_Some. cbn. split; intros [Hp Hd]; (split; [done|]);
    by eapply doubled_spec.
Qed.

Lemma doubly_claimed_elem paired k : k ∈ doubly_claimed paired ↔
  ∃ h r, paired !! (k, h) = Some r ∧ retained paired !! (k, h) = None.
Proof.
  unfold doubly_claimed. rewrite elem_of_map. split.
  - intros ([k' h] & -> & [r Hr]%elem_of_dom). apply map_lookup_filter_Some in Hr as [Hr Hd].
    exists h, r. split; [done|]. unfold retained. apply map_lookup_filter_None. right.
    intros r' Hr' Hf. cbn in *. rewrite Hr in Hr'. injection Hr' as <-. congruence.
  - intros (h & r & Hr & Hn). exists (k, h). split; [done|]. apply elem_of_dom. exists r.
    apply map_lookup_filter_Some. split; [done|]. cbn. unfold retained in Hn.
    destruct (doubled paired (k, h) r) eqn:E; [done|].
    assert (filter (λ e, doubled paired e.1 e.2 = false) paired !! (k, h) = Some r) as Hs
      by by apply map_lookup_filter_Some.
    congruence.
Qed.

(** ** The last hash *)

(** A hash is the last of its crate, and a release the last of its. *)
Record last_pair paired (hashes : gmap str (gset str)) (k : str) (rels : gset str) (h r : str) : Prop := {
  lp_target : ∃ target, hashes !! k = Some target ∧ base.size target = base.size rels ∧ h ∈ target ∧
    ∀ h', h' ∈ target → h' ≠ h → is_Some (paired !! (k, h'));
  lp_open : paired !! (k, h) = None;
  lp_known : r ∈ rels;
  lp_unclaimed : ∀ h', paired !! (k, h') ≠ Some r;
  lp_claimed : ∀ r', r' ∈ rels → r' ≠ r → ∃ h', paired !! (k, h') = Some r'
}.

Lemma last_pair_ext paired paired' hashes k rels h r :
  (∀ h', paired !! (k, h') = paired' !! (k, h')) →
  last_pair paired hashes k rels h r → last_pair paired' hashes k rels h r.
Proof.
  intros He [Ht Ho Hk Hu Hc]. split; [|by rewrite <- He|done|intros h'; by rewrite <- He|].
  - destruct Ht as (t & ? & ? & ? & Ha). exists t. repeat (split; [done|]). intros h'. rewrite <- He. apply Ha.
  - intros r' Hr Hn. destruct (Hc r' Hr Hn) as (h' & Hh'). exists h'. by rewrite <- He.
Qed.

Lemma elements_one (X : gset str) x : elements X = [x] → ∀ y, y ∈ X ↔ y = x.
Proof. intros H y. by rewrite <- elem_of_elements, H, list_elem_of_singleton. Qed.

Lemma last_hash_cases contradicted hashes paired k rels :
  last_hash contradicted hashes paired (k, rels) = paired ∨
  ∃ h r, last_hash contradicted hashes paired (k, rels) = <[(k, h) := r]> paired ∧
    (k ∉ contradicted) ∧ last_pair paired hashes k rels h r.
Proof.
  unfold last_hash. case_bool_decide as Hc; [by left|]. destruct (hashes !! k) as [target|] eqn:Ht; [|by left].
  destruct (Nat.eqb_spec (base.size target) (base.size rels)) as [Es|]; cbn [negb]; [|by left].
  set (claimed := list_to_set _). set (open := filter _ target).
  destruct (elements open) as [|h [|]] eqn:Eo; [by left| |by left].
  destruct (elements (rels ∖ claimed)) as [|r [|]] eqn:Er; [by left| |by left].
  right. exists h, r. split; [done|]. split; [done|].
  pose proof (elements_one _ _ Eo) as Ho. pose proof (elements_one _ _ Er) as Hr.
  assert (Hcl : ∀ r', r' ∈ claimed ↔ ∃ h', paired !! (k, h') = Some r').
  { intros r'. unfold claimed. rewrite elem_of_list_to_set, list_elem_of_fmap. split.
    - intros ([[k' h'] r''] & -> & He). apply list_elem_of_filter in He as [Hk He]. cbn in Hk. subst k'.
      exists h'. by apply elem_of_map_to_list.
    - intros (h' & Hh'). exists (k, h', r'). split; [done|]. apply list_elem_of_filter. split; [done|].
      by apply elem_of_map_to_list. }
  unfold open in Ho. setoid_rewrite elem_of_filter in Ho. setoid_rewrite elem_of_difference in Hr.
  destruct (proj2 (Ho h) eq_refl) as [Hn Hin]. destruct (proj2 (Hr r) eq_refl) as [Hrin Hrc]. split.
  - exists target. repeat (split; [done|]). intros h' Hh' Hne. apply not_eq_None_Some. intros Hnone.
    by apply Hne, Ho.
  - done.
  - done.
  - intros h' Hh'. apply Hrc, Hcl. by exists h'.
  - intros r' Hr' Hne. apply Hcl. destruct (decide (r' ∈ claimed)) as [|Hn']; [done|]. exfalso. by apply Hne, Hr.
Qed.

Lemma last_hashes contradicted hashes l : ∀ paired, NoDup l.*1 →
  let p := foldl (last_hash contradicted hashes) paired l in
  (∀ k h r, paired !! (k, h) = Some r → p !! (k, h) = Some r) ∧
  (∀ k h r, p !! (k, h) = Some r → paired !! (k, h) = Some r ∨
     ∃ rels, (k, rels) ∈ l ∧ (k ∉ contradicted) ∧ last_pair paired hashes k rels h r) ∧
  (∀ k h h' r, p !! (k, h) = Some r → p !! (k, h') = Some r →
     (∀ h h' r, paired !! (k, h) = Some r → paired !! (k, h') = Some r → h = h') → h = h').
Proof.
  induction l as [|[k0 rels] l IH]; intros paired Hnd; cbn [foldl].
  { split; [done|]. split; [by left|]. intros k h h' r H1 H2 Hi. by eapply Hi. }
  cbn in Hnd. apply NoDup_cons in Hnd as [Hk0 Hnd].
  destruct (IH (last_hash contradicted hashes paired (k0, rels)) Hnd) as (H1 & H2 & H3). clear IH.
  destruct (last_hash_cases contradicted hashes paired k0 rels) as [E|(h0 & r0 & E & Hc & Hlp)]; rewrite E in H1, H2, H3 |- *; clear E.
  { split; [done|]. split; [|done]. intros k h r Hr. destruct (H2 k h r Hr) as [?|(rels' & Hin & ?)]; [by left|].
    right. exists rels'. split; [by right|done]. }
  assert (Hne : ∀ k rels', (k, rels') ∈ l → k ≠ k0).
  { intros k rels' Hin ->. apply Hk0, list_elem_of_fmap. by exists (k0, rels'). }
  split; [|split].
  - intros k h r Hr. apply H1. rewrite lookup_insert_ne; [done|]. intros [= <- <-].
    rewrite (lp_open _ _ _ _ _ _ Hlp) in Hr. done.
  - intros k h r Hr. destruct (H2 k h r Hr) as [Hp|(rels' & Hin & Hck & Hl)].
    + destruct (decide ((k0, h0) = (k, h))) as [[= <- <-]|Hkh].
      * rewrite lookup_insert_eq in Hp. injection Hp as <-. right. exists rels. split; [by left|done].
      * rewrite lookup_insert_ne in Hp by done. by left.
    + right. exists rels'. split; [by right|]. split; [done|]. eapply last_pair_ext; [|exact Hl].
      intros h'. apply lookup_insert_ne. specialize (Hne k rels' Hin). congruence.
  - intros k h h' r Hh Hh' Hi. eapply H3; [done..|]. intros g g' q Hg Hg'.
    destruct (decide ((k0, h0) = (k, g))) as [Ea|Hkg], (decide ((k0, h0) = (k, g'))) as [Eb|Hkg'].
    + congruence.
    + injection Ea as <- <-. rewrite lookup_insert_eq in Hg. rewrite lookup_insert_ne in Hg' by done.
      injection Hg as <-. by destruct (lp_unclaimed _ _ _ _ _ _ Hlp g').
    + injection Eb as <- <-. rewrite lookup_insert_eq in Hg'. rewrite lookup_insert_ne in Hg by done.
      injection Hg' as <-. by destruct (lp_unclaimed _ _ _ _ _ _ Hlp g).
    + rewrite lookup_insert_ne in Hg, Hg' by done. by eapply Hi.
Qed.
End decision.

(** ** The walk of types *)

Section ties.
Context (b : Bundle) (tables : ReleaseTables) (package : str).
Implicit Types (ty t : BundleTypeId) (stack : list BundleTypeId) (seen : gset BundleTypeId) (out : gset str).

(** One type a type with no label of the package is built from. *)
Definition built (t t' : BundleTypeId) : Prop :=
  label_of b tables package t = Ret None ∧ t' ∈ built_from b tables t.

(** The one release a labelled type's declarations name. *)
Definition declares (t : BundleTypeId) (v : str) : Prop :=
  ∃ label r, label_of b tables package t = Ret (Some label) ∧ cl_versions label = [r] ∧
    text (b_strings b) r = Ret v.

Lemma tie_walk_cons budget ty stack seen out :
  tie_walk b tables package budget (ty :: stack) seen out =
  if bool_decide (ty ∈ seen) then tie_walk b tables package budget stack seen out
  else
    match budget with
    | O => Ret ∅
    | S budget =>
        label ← label_of b tables package ty;
        match label with
        | Some label =>
            match cl_versions label with
            | [v] => t ← text (b_strings b) v;
                     tie_walk b tables package budget stack ({[ty]} ∪ seen) ({[t]} ∪ out)
            | _ => tie_walk b tables package budget stack ({[ty]} ∪ seen) out
            end
        | None =>
            tie_walk b tables package budget (rev (built_from b tables ty) ++ stack) ({[ty]} ∪ seen) out
        end
    end.
Proof. by destruct budget. Qed.
Lemma tie_walk_nil budget seen out : tie_walk b tables package budget [] seen out = Ret out.
Proof. by destruct budget. Qed.

(** What the walk has found so far, and still has to look at. *)
Record walked stack seen out : Prop := {
  wk_closed : ∀ t t', t ∈ seen → built t t' → t' ∈ seen ∨ t' ∈ stack;
  wk_found : ∀ v, v ∈ out ↔ ∃ t, t ∈ seen ∧ declares t v
}.

Definition from_stack stack t : Prop := ∃ t0, t0 ∈ stack ∧ rtc built t0 t.

(** What a walk may answer: what every type it reaches declares, or nothing, when
    there are more of them than it has budget for. *)
Definition tied (budget : nat) stack seen (s : gset str) : Prop :=
  (∃ all : gset BundleTypeId, walked [] all s ∧ seen ⊆ all ∧ (∀ t, t ∈ stack → t ∈ all) ∧
     (base.size all <= base.size seen + budget)%nat ∧ ∀ t, t ∈ all → t ∈ seen ∨ from_stack stack t) ∨
  (s = ∅ ∧ ∃ many : gset BundleTypeId, base.size many = S (base.size seen + budget) ∧
     ∀ t, t ∈ many → t ∈ seen ∨ from_stack stack t).

Lemma tied_done budget seen out : walked [] seen out → tied budget [] seen out.
Proof.
  intros Hw. left. exists seen. split; [done|]. split; [done|]. split; [by intros t ?%elem_of_nil|].
  split; [lia|by left].
Qed.

Lemma tied_seen budget ty stack seen s : ty ∈ seen → tied budget stack seen s → tied budget (ty :: stack) seen s.
Proof.
  intros Hin. assert (Hfrom : ∀ t, t ∈ seen ∨ from_stack stack t → t ∈ seen ∨ from_stack (ty :: stack) t).
  { intros t [?|(t0 & ? & ?)]; [by left|]. right. exists t0. split; [by right|done]. }
  intros [(all & H1 & H2 & H3 & H4 & H5)|(-> & many & H1 & H2)]; [left|right].
  - exists all. split; [done|]. split; [done|]. split; [|by eauto].
    intros t [->|Ht]%elem_of_cons; [by apply H2|by apply H3].
  - split; [done|]. exists many. by eauto.
Qed.

Lemma walked_seen ty stack seen out : ty ∈ seen → walked (ty :: stack) seen out → walked stack seen out.
Proof.
  intros Hin [Hc Hf]. split; [|done]. intros t t' Ht Hb.
  destruct (Hc t t' Ht Hb) as [?|[->|?]%elem_of_cons]; by auto.
Qed.

Lemma size_add (ty : BundleTypeId) seen : ty ∉ seen → base.size ({[ty]} ∪ seen) = S (base.size seen).
Proof. intros H. rewrite size_union, size_singleton by set_solver. lia. Qed.

Lemma tied_bound ty stack seen : ty ∉ seen → tied 0 (ty :: stack) seen ∅.
Proof.
  intros H. right. split; [done|]. exists ({[ty]} ∪ seen). split; [rewrite size_add by done; lia|].
  intros t [->%elem_of_singleton|?]%elem_of_union; [|by left]. right. exists ty. split; [by left|done].
Qed.

(** One type taken off the stack, and those it is built from put on. *)
Lemma tied_step budget ty stack stack' seen s : ty ∉ seen →
  (∀ t, t ∈ stack' → t ∈ stack ∨ built ty t) → (∀ t, t ∈ stack → t ∈ stack') →
  tied budget stack' ({[ty]} ∪ seen) s → tied (S budget) (ty :: stack) seen s.
Proof.
  intros Hin Hst Hst' Ht.
  assert (Hfrom : ∀ t, t ∈ {[ty]} ∪ seen ∨ from_stack stack' t → t ∈ seen ∨ from_stack (ty :: stack) t).
  { intros t [[->%elem_of_singleton|?]%elem_of_union|(t0 & Ht0 & Hr0)]; [|by left|].
    - right. exists ty. split; [by left|done].
    - right. destruct (Hst t0 Ht0) as [?|Hb]; [exists t0; split; [by right|done]|].
      exists ty. split; [by left|]. by eapply rtc_l. }
  unfold tied in *. rewrite size_add in Ht by done.
  destruct Ht as [(all & H1 & H2 & H3 & H4 & H5)|(-> & many & H1 & H2)]; [left|right].
  - exists all. split; [done|]. split; [set_solver|]. split; [|split; [lia|by eauto]].
    intros t [->|Ht]%elem_of_cons; [set_solver|by apply H3, Hst'].
  - split; [done|]. exists many. split; [lia|by eauto].
Qed.

(** A labelled type is built from nothing. *)
Lemma walked_label ty lab stack seen out out' : label_of b tables package ty = Ret (Some lab) →
  (∀ v, v ∈ out' ↔ v ∈ out ∨ declares ty v) →
  walked (ty :: stack) seen out → walked stack ({[ty]} ∪ seen) out'.
Proof.
  intros Hl Ho [Hc Hf]. split.
  - intros t t' [->%elem_of_singleton|Ht]%elem_of_union Hb; [destruct Hb; congruence|].
    destruct (Hc t t' Ht Hb) as [?|[->|?]%elem_of_cons]; [set_solver..|by right].
  - intros v. rewrite Ho, Hf. split.
    + intros [(t & Ht & Hd)|Hd]; [exists t|exists ty]; (split; [set_solver|done]).
    + intros (t & [->%elem_of_singleton|Ht]%elem_of_union & Hd); [by right|left; by exists t].
Qed.

Lemma walked_built ty stack seen out : label_of b tables package ty = Ret None →
  walked (ty :: stack) seen out → walked (rev (built_from b tables ty) ++ stack) ({[ty]} ∪ seen) out.
Proof.
  intros Hl [Hc Hf]. split.
  - intros t t' [->%elem_of_singleton|Ht]%elem_of_union Hb; rewrite elem_of_app.
    + right. left. destruct Hb as [_ Hb]. by apply list_elem_of_In, in_rev; rewrite rev_involutive; apply list_elem_of_In.
    + destruct (Hc t t' Ht Hb) as [?|[->|?]%elem_of_cons]; [set_solver..|by right; right].
  - intros v. rewrite Hf. split.
    + intros (t & Ht & Hd). exists t. split; [set_solver|done].
    + intros (t & [->%elem_of_singleton|Ht]%elem_of_union & Hd); [|by exists t].
      destruct Hd as (lab & r & Hl' & _). congruence.
Qed.

Lemma declares_label ty lab v : label_of b tables package ty = Ret (Some lab) →
  declares ty v ↔ ∃ r, cl_versions lab = [r] ∧ text (b_strings b) r = Ret v.
Proof.
  intros Hl. split.
  - intros (lab' & r & Hl' & H). rewrite Hl in Hl'. injection Hl' as <-. by exists r.
  - intros (r & H). by exists lab, r.
Qed.

Lemma tie_walk_ok budget : ∀ stack seen out s, walked stack seen out →
  tie_walk b tables package budget stack seen out = Ret s → tied budget stack seen s.
Proof.
  induction budget as [|budget IH]; intros stack; induction stack as [|ty stack IHs]; intros seen out s Hw Hr.
  1,3: rewrite tie_walk_nil in Hr; injection Hr as <-; by apply tied_done.
  all: rewrite tie_walk_cons in Hr; case_bool_decide as Hin.
  1,3: apply tied_seen; [done|]; eapply IHs; [by eapply walked_seen|done].
  { injection Hr as <-. by apply tied_bound. }
  apply outcome_bind_Ret in Hr as ([lab|] & Hl & Hr).
  - assert (Hsame : tie_walk b tables package budget stack ({[ty]} ∪ seen) out = Ret s →
      (∀ r, cl_versions lab ≠ [r]) → tied (S budget) (ty :: stack) seen s).
    { intros Hr' Hne. apply (tied_step _ _ _ stack); [done|by auto|done|]. eapply IH; [|done].
      eapply walked_label; [done| |done]. intros v. rewrite (declares_label _ _ _ Hl).
      split; [by left|]. by intros [?|(r & ? & _)]; [|destruct (Hne r)]. }
    destruct (cl_versions lab) as [|r [|r' rs]] eqn:Ev; [by apply Hsame| |by apply Hsame].
    apply outcome_bind_Ret in Hr as (v0 & Hv0 & Hr).
    apply (tied_step _ _ _ stack); [done|by auto|done|]. eapply IH; [|done].
    eapply walked_label; [done| |done]. intros v. rewrite (declares_label _ _ _ Hl), Ev.
    rewrite elem_of_union, elem_of_singleton. split.
    + intros [->|?]; [right; by exists r|by left].
    + intros [?|(r' & [= <-] & Hr')]; [by right|left; congruence].
  - eapply tied_step; [done| | |eapply IH; [by apply walked_built|exact Hr]].
    + intros t [Ht|Ht]%elem_of_app; [right; split; [done|]|by left].
      by apply list_elem_of_In, in_rev, list_elem_of_In in Ht.
    + intros t Ht. apply elem_of_app. by right.
Qed.

(** The walk panics only where a string does. *)
Lemma tie_walk_total budget : (∀ r, get (b_strings b) r ≠ Panic) → ∀ stack seen out,
  tie_walk b tables package budget stack seen out ≠ Panic.
Proof.
  intros Hg. induction budget as [|budget IH]; intros stack; induction stack as [|ty stack IHs]; intros seen out.
  1,3: by rewrite tie_walk_nil.
  all: rewrite tie_walk_cons; case_bool_decide; try done.
  assert (label_of b tables package ty ≠ Panic) as Hl.
  { unfold label_of. destruct (crate_labels tables !! ty) as [lab|]; [|done].
    specialize (Hg (cl_package lab)). by destruct (get _ _). }
  destruct (label_of b tables package ty) as [[lab|]|]; [|apply IH|done]. cbn.
  destruct (cl_versions lab) as [|r [|? ?]]; [apply IH| |apply IH].
  unfold text. specialize (Hg r). destruct (get _ r); [apply IH|done].
Qed.
End ties.

(** ** Selection *)

Section selection.
Context `{Demangler} (b : Bundle) (tables : ReleaseTables).

(** A candidate is tied to exactly the release wanted of each package. *)
Definition fits (wanted : list (str * str)) (c : BundleTypeId) : Prop :=
  ∀ package r, (package, r) ∈ wanted → releases_of b tables c package = Ret {[r]}.

Lemma singleton_set (s : gset str) r :
  Nat.eqb (base.size s) 1 && bool_decide (r ∈ s) = true ↔ s = {[r]}.
Proof.
  rewrite andb_true_iff, Nat.eqb_eq, bool_decide_eq_true. split.
  - intros [Hs Hr]. apply set_eq. intros x. rewrite elem_of_singleton. split; [|by intros ->].
    intros Hx. by eapply (size_singleton_inv s).
  - intros ->. rewrite size_singleton. set_solver.
Qed.

Lemma matches_wanted_spec wanted c m :
  matches_wanted b tables wanted c = Ret m → (m = true ↔ fits wanted c).
Proof.
  induction wanted as [|[package r] wanted IH]; cbn [matches_wanted].
  { intros [= <-]. split; [|done]. intros _ ? ? Hin. by apply elem_of_nil in Hin. }
  intros Hm. apply outcome_bind_Ret in Hm as (s & Hs & Hm).
  destruct (_ && _) eqn:E; [apply singleton_set in E as ->|].
  - rewrite (IH Hm). split.
    + intros Hf p q [[= -> ->]|Hin]%elem_of_cons; [done|by apply Hf].
    + intros Hf p q Hin. apply Hf. by right.
  - injection Hm as <-. split; [done|]. intros Hf. specialize (Hf package r ltac:(by left)).
    rewrite Hs in Hf. injection Hf as ->. exfalso. apply not_true_iff_false in E. by apply E, singleton_set.
Qed.

Lemma matching_spec wanted candidates : ∀ out l,
  fold_out (λ out c, m ← matches_wanted b tables wanted c; Ret (if (m : bool) then out ++ [c] else out))
    candidates out = Ret l →
  ∃ sel, l = out ++ sel ∧ sel `sublist_of` candidates ∧ ∀ c, c ∈ sel ↔ c ∈ candidates ∧ fits wanted c.
Proof.
  induction candidates as [|c candidates IH]; intros out l Hf.
  { injection Hf as <-. exists []. rewrite app_nil_r. split; [done|]. split; [done|]. intros c.
    rewrite elem_of_nil. naive_solver. }
  apply fold_out_cons in Hf as (out' & Hm & Hf). apply outcome_bind_Ret in Hm as (m & Hm & [= <-]).
  apply matches_wanted_spec in Hm. destruct (IH _ _ Hf) as (sel & -> & Hsub & Hsel). destruct m.
  - exists (c :: sel). rewrite <- app_assoc. split; [done|]. split; [by apply sublist_skip|].
    intros x. rewrite !elem_of_cons, Hsel. split; [|tauto].
    intros [->|?]; [|tauto]. split; [by left|by apply Hm].
  - exists sel. split; [done|]. split; [by apply sublist_cons|]. intros x. rewrite elem_of_cons, Hsel.
    split; [tauto|]. intros [[->|?] Hx]; [|done]. by apply Hm in Hx.
Qed.

(** What is selected, and what it was asked to fit. *)
Lemma select_spec pairing symbol candidates c :
  select b tables pairing symbol candidates = Ret (Some c) →
  ∃ d known tokens wanted, try_demangle (strip_llvm_suffix symbol) = Some d ∧
    known_crates (b_strings b) (release_sizes tables) = Ret known ∧ crate_hashes (full d) = Ret tokens ∧
    wanted_of known pairing tokens = Some wanted ∧ wanted ≠ [] ∧
    c ∈ candidates ∧ fits wanted c ∧ ∀ c', c' ∈ candidates → fits wanted c' → c' = c.
Proof.
  unfold select. destruct (try_demangle _) as [d|]; [|done]. intros Hr.
  apply outcome_bind_Ret in Hr as (known & Hk & Hr). apply outcome_bind_Ret in Hr as (tokens & Ht & Hr).
  destruct (wanted_of known pairing tokens) as [[|w wanted]|] eqn:Ew; [done| |done].
  apply outcome_bind_Ret in Hr as (l & Hl & Hr). unfold matching in Hl.
  destruct (matching_spec _ _ _ _ Hl) as (sel & -> & _ & Hsel). cbn [app] in Hr.
  destruct sel as [|x [|y sel]]; [done| |done]. injection Hr as ->.
  exists d, known, tokens, (w :: wanted). repeat (split; [done|]).
  destruct (proj1 (Hsel c) ltac:(by left)) as [Hc Hf]. split; [done|]. split; [done|].
  intros c' Hc' Hf'. by apply list_elem_of_singleton, Hsel.
Qed.

Lemma wanted_of_spec known pairing tokens wanted : wanted_of known pairing tokens = Some wanted →
  ∀ package r, (package, r) ∈ wanted ↔
    ∃ krate hash, (krate, hash) ∈ tokens ∧ known !! krate = Some package ∧ release pairing krate hash = Some r.
Proof.
  revert wanted. induction tokens as [|[krate hash] tokens IH]; intros wanted; cbn [wanted_of].
  { intros [= <-] p r. setoid_rewrite elem_of_nil. naive_solver. }
  destruct (known !! krate) as [package|] eqn:Ek.
  - intros Hw. apply bind_Some in Hw as (r & Hr & Hw). apply bind_Some in Hw as (rest & Hrest & [= <-]).
    intros p q. rewrite elem_of_cons, (IH rest Hrest). split.
    + intros [[= -> ->]|(k & h & Hin & ?)]; [exists krate, hash; split; [by left|done]|].
      exists k, h. split; [by right|done].
    + intros (k & h & [[= -> ->]|Hin]%elem_of_cons & Hk & Hq); [left; congruence|right; by exists k, h].
  - intros Hw p q. rewrite (IH wanted Hw). split; intros (k & h & Hin & Hk & Hq).
    + exists k, h. split; [by right|done].
    + apply elem_of_cons in Hin as [[= -> ->]|Hin]; [congruence|by exists k, h].
Qed.

Lemma wanted_of_paired known pairing tokens wanted krate hash package :
  wanted_of known pairing tokens = Some wanted → (krate, hash) ∈ tokens → known !! krate = Some package →
  ∃ r, release pairing krate hash = Some r.
Proof.
  revert wanted. induction tokens as [|[k h] tokens IH]; intros wanted Hw Hin Hk; [by apply elem_of_nil in Hin|].
  cbn [wanted_of] in Hw. apply elem_of_cons in Hin as [[= <- <-]|Hin].
  - rewrite Hk in Hw. apply bind_Some in Hw as (r & Hr & _). by exists r.
  - destruct (known !! k) as [p|]; [|by eapply IH].
    apply bind_Some in Hw as (r & _ & Hw). apply bind_Some in Hw as (rest & Hrest & _). by eapply IH.
Qed.
End selection.

(** A hash is the last of its crate's: its vtables say nothing, every other hash of
    the crate in the target is settled by its own, the target has as many hashes as
    the bundle knows releases, every other release is some hash's, and no vtable of
    the crate is contradicted. *)
Definition eliminated (strings : StringTable) (ev : Evidence) (obs : list VtableObservation)
    (hashes : gmap str (gset str)) (k h r : str) : Prop :=
  (∀ named, ¬ told strings obs (k, h) named) ∧
  (∀ h' named, told strings obs (k, h') named → ∃ r', speaks strings obs (k, h') r') ∧
  ∃ target rels, hashes !! k = Some target ∧ releases ev !! k = Some rels ∧
    base.size target = base.size rels ∧ h ∈ target ∧ r ∈ rels ∧
    (∀ h', h' ∈ target → h' ≠ h → ∃ r', speaks strings obs (k, h') r') ∧
    (∀ r', r' ∈ rels → r' ≠ r → ∃ h', speaks strings obs (k, h') r').

(** C21: a crate hash is paired with a release only on evidence that is whole: every
    vtable that names the hash names that release and no other hash's vtables all
    do, or it is the one hash of its crate left when everything else about the crate
    is settled.  Two hashes of a crate never have one release, and a hash whose
    vtables agree, alone in its claim, is paired. *)
Theorem pairing_sound strings ev obs hashes p :
  decide_pairs strings ev obs hashes = Ret p →
  (∀ k h r, p !! (k, h) = Some r →
     (speaks strings obs (k, h) r ∧ ∀ h', speaks strings obs (k, h') r → h' = h) ∨
     eliminated strings ev obs hashes k h r) ∧
  (∀ k h h' r, p !! (k, h) = Some r → p !! (k, h') = Some r → h = h') ∧
  (∀ k h r, speaks strings obs (k, h) r → (∀ h', speaks strings obs (k, h') r → h' = h) →
     p !! (k, h) = Some r).
Proof.
  intros Hd. apply outcome_bind_Ret in Hd as (said & Hs & [= <-]).
  pose proof (said_of_exact strings obs said Hs) as He.
  assert (Hp : ∀ k h r, settled said !! (k, h) = Some r ↔ speaks strings obs (k, h) r).
  { intros k h r. rewrite settled_lookup. by apply agreed_speaks. }
  assert (Hr : ∀ k h r, retained (settled said) !! (k, h) = Some r ↔
    speaks strings obs (k, h) r ∧ ∀ h', speaks strings obs (k, h') r → h' = h).
  { intros k h r. rewrite retained_lookup. by setoid_rewrite Hp. }
  unfold decide_said.
  destruct (last_hashes (disputed said ∪ doubly_claimed (settled said)) hashes (map_to_list (releases ev))
    (retained (settled said)) (NoDup_fst_map_to_list _)) as (H1 & H2 & H3).
  split; [|split].
  - intros k h r Hk. destruct (H2 k h r Hk) as [Hk'|(rels & Hin & Hc & Hl)]; [left; by apply Hr|right].
    rewrite not_elem_of_union, disputed_elem, doubly_claimed_elem in Hc. destruct Hc as [Hdis Hdbl].
    assert (Hset : ∀ h' named, told strings obs (k, h') named → ∃ r', speaks strings obs (k, h') r').
    { intros h' named Ht. specialize (He (k, h')). destruct (said !! (k, h')) as [e|] eqn:Ee.
      - destruct (agreed e) as [r'|] eqn:Ea; [exists r'; apply (agreed_speaks strings obs _ (Some e)); done|].
        destruct Hdis. by exists h', e.
      - by apply He in Ht. }
    assert (Hkept : ∀ h' r', speaks strings obs (k, h') r' → retained (settled said) !! (k, h') ≠ None).
    { intros h' r' Hsp%Hp Hn. apply Hdbl. by exists h', r'. }
    destruct Hl as [(target & Ht & Hsz & Hh & Hoth) Ho Hkn Hun Hcl].
    split; [|split; [done|]].
    + intros named Ht'. destruct (Hset h named Ht') as (r' & Hsp). by apply Hkept in Hsp.
    + exists target, rels. repeat (split; [done|]). split; [by apply elem_of_map_to_list|].
      repeat (split; [done|]). split.
      * intros h' Hh' Hne. destruct (Hoth h' Hh' Hne) as (r' & Hr'). exists r'. by apply Hr in Hr' as [? _].
      * intros r' Hr' Hne. destruct (Hcl r' Hr' Hne) as (h' & Hh'). exists h'. by apply Hr in Hh' as [? _].
  - intros k h h' r Hh Hh'. eapply H3; [done..|]. intros g g' q [_ Hg]%Hr [Hg' _]%Hr. symmetry. by apply Hg.
  - intros k h r Hsp Hu. apply H1, Hr. done.
Qed.

(** C22: the releases of a package a type is tied to are those declared by the types
    it is built from, reached without looking past a labelled one, when no more than
    the bound are reached; otherwise it is tied to none.  The walk always ends. *)
Theorem ties_exact b tables ty package :
  (∀ r, get (b_strings b) r ≠ Panic) →
  ∃ s, releases_of b tables ty package = Ret s ∧
    ((∃ all : gset BundleTypeId, (∀ t, t ∈ all ↔ rtc (built b tables package) ty t) ∧
        (base.size all <= MAX_TIE_WALK)%nat ∧
        ∀ v, v ∈ s ↔ ∃ t, t ∈ all ∧ declares b tables package t v) ∨
     (s = ∅ ∧ ∃ many : gset BundleTypeId, base.size many = S MAX_TIE_WALK ∧
        ∀ t, t ∈ many → rtc (built b tables package) ty t)).
Proof.
  intros Hg. unfold releases_of. generalize MAX_TIE_WALK. intros bound.
  destruct (tie_walk b tables package bound [ty] ∅ ∅) as [s|] eqn:E;
    [|by apply tie_walk_total in E].
  exists s. split; [done|].
  assert (Hfrom : ∀ t, t ∈ (∅ : gset BundleTypeId) ∨ from_stack b tables package [ty] t →
    rtc (built b tables package) ty t).
  { intros t [?%elem_of_empty|(t0 & ->%list_elem_of_singleton & ?)]; done. }
  apply tie_walk_ok in E; [|split; [by intros ?? ?%elem_of_empty|intros v; set_solver]].
  unfold tied in E. rewrite size_empty in E.
  destruct E as [(all & [Hc Hf] & _ & Hty & Hs & Hall)|(-> & many & Hs & Hmany)]; [left|right].
  - exists all. split; [|split; [done|done]]. intros t. split; [by eauto|].
    intros Hr. assert (ty ∈ all) as Hin by (apply Hty; by left). clear -Hr Hin Hc.
    induction Hr as [|x y z Hxy _ IH]; [done|]. apply IH.
    destruct (Hc x y Hin Hxy) as [?|Hn]; [done|by apply elem_of_nil in Hn].
  - split; [done|]. exists many. by eauto.
Qed.

(** A selection fits everything asked of it, and nothing else offered does.  The
    symbol names at least one crate the bundle has evidence of, each under a hash
    that is paired, and the candidate is tied to exactly the release each is paired
    with. *)
Theorem selection_unique `{Demangler} b tables pairing symbol candidates c :
  select b tables pairing symbol candidates = Ret (Some c) →
  ∃ d tokens known, try_demangle (strip_llvm_suffix symbol) = Some d ∧ crate_hashes (full d) = Ret tokens ∧
    known_crates (b_strings b) (release_sizes tables) = Ret known ∧
    let asked c := ∀ krate hash package, (krate, hash) ∈ tokens → known !! krate = Some package →
      ∃ r, release pairing krate hash = Some r ∧ releases_of b tables c package = Ret {[r]} in
    (∃ krate hash, (krate, hash) ∈ tokens ∧ is_Some (known !! krate)) ∧
    c ∈ candidates ∧ asked c ∧ ∀ c', c' ∈ candidates → asked c' → c' = c.
Proof.
  intros (d & known & tokens & wanted & Hd & Hk & Ht & Hw & Hne & Hc & Hf & Hu)%select_spec.
  exists d, tokens, known. repeat (split; [done|]). cbv zeta.
  pose proof (wanted_of_spec _ _ _ _ Hw) as Hspec.
  assert (Hasked : ∀ x, fits b tables wanted x ↔ ∀ krate hash package, (krate, hash) ∈ tokens →
    known !! krate = Some package →
    ∃ r, release pairing krate hash = Some r ∧ releases_of b tables x package = Ret {[r]}).
  { intros x. split.
    - intros Hx krate hash package Hin Hp. destruct (wanted_of_paired _ _ _ _ _ _ _ Hw Hin Hp) as (r & Hr).
      exists r. split; [done|]. apply Hx, Hspec. by exists krate, hash.
    - intros Hx package r (krate & hash & Hin & Hp & Hr)%Hspec.
      destruct (Hx krate hash package Hin Hp) as (r' & Hr' & ?). by simplify_eq. }
  split.
  - destruct wanted as [|[package r] wanted]; [done|].
    destruct (proj1 (Hspec package r) ltac:(by left)) as (krate & hash & ? & ? & _). by exists krate, hash.
  - split; [done|]. split; [by apply Hasked|]. intros c' Hc' Ha. by apply Hu; [|apply Hasked].
Qed.

(** ** Witnesses *)

(** Two releases of a crate, which lay a type out in eight and in sixteen bytes; one
    hash has a vtable of eight, and another none. *)
Definition two_releases : ReleaseSize := mkReleaseSize 1 2 [(11, 8); (12, 16)].
Definition krate : str := bytes_of_string "Node".
Definition seen_hash : str := bytes_of_string "a1".
Definition other_hash : str := bytes_of_string "b2".
Definition two_evidence : Evidence :=
  mkReleases {[bytes_of_string "next" := two_releases]}
    {[krate := {[bytes_of_string "idle"; bytes_of_string "busy"]}]}.
Definition one_vtable : list VtableObservation :=
  [mkVtableObservation (mkGlue krate seen_hash two_releases) 8].
Definition two_hashes : gmap str (gset str) := {[krate := {[seen_hash; other_hash]}]}.

Lemma pairing_sound_witness : ∃ p,
  decide_pairs demo_strings two_evidence one_vtable two_hashes = Ret p ∧
  p !! (krate, seen_hash) = Some (bytes_of_string "idle") ∧
  eliminated demo_strings two_evidence one_vtable two_hashes krate other_hash (bytes_of_string "busy").
Proof.
  assert (match decide_pairs demo_strings two_evidence one_vtable two_hashes with
          | Ret p => (p !! (krate, seen_hash), p !! (krate, other_hash))
          | Panic => (None, None)
          end = (Some (bytes_of_string "idle"), Some (bytes_of_string "busy"))) as Hp by (vm_compute; reflexivity).
  destruct (decide_pairs demo_strings two_evidence one_vtable two_hashes) as [p|] eqn:E; [|done].
  injection Hp as Hp1 Hp2. exists p. split; [done|]. split; [done|].
  destruct (pairing_sound demo_strings two_evidence one_vtable two_hashes p E) as (H1 & _).
  destruct (H1 _ _ _ Hp2) as [[[(named & ob & Hob & Hk & _) _] _]|He]; [|done].
  apply list_elem_of_singleton in Hob as ->. discriminate Hk.
Defined.

Lemma get_demo_total r : get demo_strings r ≠ Panic.
Proof.
  assert (get demo_strings r = get demo_strings (Z.max 0 r)) as ->.
  { unfold get, index. by replace (Z.to_nat (Z.max 0 r)) with (Z.to_nat r) by lia. }
  unfold demo_strings. rewrite get_table_of; [done|repeat constructor|lia].
Qed.

(** A node is tied to the release its pointee's word declares. *)
Definition tied_tables : ReleaseTables :=
  mkTables [two_releases] (list_to_map [(0%nat, mkLabel 1 [11]); (4%nat, mkLabel 1 [12])]) ∅.

Lemma ties_exact_witness : ∃ s, releases_of demo_bundle tied_tables 1%nat krate = Ret s ∧ s ≠ ∅ ∧
  ∃ t v, rtc (built demo_bundle tied_tables krate) 1%nat t ∧ declares demo_bundle tied_tables krate t v.
Proof.
  assert (∀ r, get (b_strings demo_bundle) r ≠ Panic) as Hg.
  { intros r. cbn [demo_bundle b_strings]. apply get_demo_total. }
  assert (match releases_of demo_bundle tied_tables 1%nat krate with
          | Ret s => elements s | Panic => [] end = [bytes_of_string "idle"]) as Hs by (vm_compute; reflexivity).
  destruct (ties_exact demo_bundle tied_tables 1%nat krate Hg) as (s & E & H).
  rewrite E in Hs. exists s. split; [done|].
  assert (bytes_of_string "idle" ∈ s) as Hin by (apply elem_of_elements; rewrite Hs; by left).
  split; [set_solver|]. destruct H as [(all & Hall & _ & Hv)|(-> & _)]; [|set_solver].
  apply Hv in Hin as (t & Ht & Hd). exists t, (bytes_of_string "idle"). split; [by apply Hall|done].
Defined.

(** The first type is tied to the paired release, and the second to the other. *)
#[local] Instance node_demangler : Demangler :=
  {| try_demangle := λ s, if bool_decide (s = bytes_of_string "poll")
       then Some (mkDemangled (bytes_of_string "Node[a1]::poll") (bytes_of_string "Node::poll")) else None |}.

Lemma selection_unique_witness :
  select demo_bundle tied_tables {[(krate, seen_hash) := bytes_of_string "idle"]} (bytes_of_string "poll")
    [1; 4]%nat = Ret (Some 1%nat) ∧
  releases_of demo_bundle tied_tables 1%nat krate = Ret {[bytes_of_string "idle"]}.
Proof.
  assert (select demo_bundle tied_tables {[(krate, seen_hash) := bytes_of_string "idle"]}
    (bytes_of_string "poll") [1; 4]%nat = Ret (Some 1%nat)) as E by (vm_compute; reflexivity).
  split; [done|].
  destruct (selection_unique _ _ _ _ _ _ E) as (d & tokens & known & Hd & Ht & Hk & _ & _ & Ha & _).
  assert (d = mkDemangled (bytes_of_string "Node[a1]::poll") (bytes_of_string "Node::poll")) as ->.
  { apply (f_equal (default d)) in Hd. cbn in Hd. by rewrite <- Hd. }
  assert (tokens = [(krate, seen_hash)]) as ->.
  { assert (crate_hashes (bytes_of_string "Node[a1]::poll") = Ret [(krate, seen_hash)]) as Ht'
      by (vm_compute; reflexivity). cbn [full] in Ht. rewrite Ht' in Ht. by injection Ht. }
  assert (known !! krate = Some krate) as Hn.
  { assert (match known_crates (b_strings demo_bundle) (release_sizes tied_tables) with
            | Ret k => k !! krate | Panic => None end = Some krate) as Hn by (vm_compute; reflexivity).
    by rewrite Hk in Hn. }
  destruct (Ha krate seen_hash krate) as (r & Hr & Hrel); [by left|done|].
  rewrite Hrel. f_equal. f_equal.
  assert (release {[(krate, seen_hash) := bytes_of_string "idle"]} krate seen_hash = Some (bytes_of_string "idle"))
    as Hr' by (vm_compute; reflexivity).
  rewrite Hr' in Hr. by injection Hr as ->.
Defined.

(** A crate name after a character of several bytes: the slice starts inside it. *)
Example hash_after_wide_character :
  crate_hashes (bytes_of_string "<x>" ++ [Byte.xc3; Byte.xa9] ++ bytes_of_string "[a1]") = Panic.
Proof. reflexivity. Qed.

Example pairing_scans_vtables :
  match pair_in (H := {| try_demangle := λ s,
                     if bool_decide (s = bytes_of_string "_RNode4Node")
                     then Some (mkDemangled (bytes_of_string "core[cc]::drop_glue::<Node[a1]::next>")
                            (bytes_of_string "core::ptr::drop_glue::<next>")) else None |})
          demo_strings [two_releases] [(8192, bytes_of_string "_RNode4Node")]
          [mjoin (to_le_bytes 8 <$> [0; 8192; 16; 8])] with
  | Ret p => map_to_list p | Panic => []
  end = [(krate, seen_hash, bytes_of_string "busy")].
Proof. vm_compute. reflexivity. Qed.
