(* ===== verification/Contract.v ===== *)
(** The walk over a bundle's recorded bindings
    ([hansei-runtime/src/tokio/contract.rs], with the [ReadContext] of
    [observe.rs]): one executor of recorded steps over target memory, the
    bindings it is run for, and the policy that refuses an attach.

    Steps are literal: a member or a variant descends the level it names, a
    dereference reads exactly the pointee, and nothing is peeled.  An error keeps
    the parts its message is made of. *)

From S2P Require Import Prelude Text StringTable Target Schema BundleCheck TypeView DisplayResolve DisplayEval Value.

Local Open Scope Z_scope.

(** ** What a read relies on *)

(** Why the allocator's evidence refuses a typed read. *)
Inductive Refusal :=
  | RefusedFreed (addr : Z)
  | RefusedOutside (addr size : Z) (block : range).

(** [ReadContext]: the allocator, where there is one. *)
Abbreviation ReadContext := (option (Z → Liveness)) (only parsing).

(** [ReadContext::taken_back] and [refusal]. *)
Definition taken_back (read : ReadContext) (addr : Z) : bool :=
  match read with
  | Some locate => match locate addr with Freed => true | _ => false end
  | None => false
  end.

Definition refusal (read : ReadContext) (addr size : Z) : option Refusal :=
  locate ← read;
  match locate addr with
  | Freed => Some (RefusedFreed addr)
  | Live block =>
      end_ ← checked_add addr size;
      if r_end block <? end_ then Some (RefusedOutside addr size block) else None
  | Unknown => None
  end.

(** ** Steps *)

Inductive Walked :=
  | At (v : Value)
  | Inactive (nm : str)
  | Null.

(** [Walked::optional]. *)
Definition walked_optional (w : Walked) : option Value :=
  match w with At v => Some v | Inactive _ | Null => None end.

Inductive StepError :=
  | SeNoMember (ty nm : str) (has : list str)
  | SeNoMemberAt (index : Z) (ty : str)
  | SeOffsetOverflow (offset size : Z) (ty : str)
  | SeDoesNotFit (offset end_ len : Z) (ty : str)
  | SeAddrOverflow (addr offset : Z)
  | SeBadVariantName (ty : str)
  | SeNotEnum (ty : str)
  | SeVariant (nm ty : str) (e : VariantError)
  | SeDecoding (ty : str) (e : VariantError)
  | SeNotPointer (ty : str)
  | SePointerBytes (ty : str) (len : Z)
  | SeRefused (ty : str) (r : Refusal)
  | SeDereferencing (ty : str) (e : Error).

Definition BAD_STRREF : str := bytes_of_string "<bad strref>".

Section walk.
Context (b : Bundle) {T : Type} `{!Target T} (p : T) (read : ReadContext).
Implicit Types cur : Value.

(** The member a step addresses, of the members a type has. *)
Definition contract_member_at (ty : BundleTypeId) (at_ : MemberRef) : outcome (option MemberDef) :=
  ms ← members b ty;
  Ret (member_at ms at_).

Definition fail_named {A} cur (e : str → StepError) : fallible StepError A :=
  nm ←! infallible (ty_name b (val_ty cur)); throw (e nm).

(** [members().map(name)]. *)
Fixpoint member_names (ms : list MemberDef) : outcome (list str) :=
  match ms with
  | [] => Ret []
  | m :: ms => nm ← resolve_str b (m_name m); rest ← member_names ms; Ret (nm :: rest)
  end.

Definition no_such_member {A} cur (at_ : MemberRef) : fallible StepError A :=
  match at_ with
  | Named r =>
      nm ←! infallible (get (b_strings b) r);
      ms ←! infallible (members b (val_ty cur));
      has ←! infallible (member_names ms);
      fail_named cur (λ ty, SeNoMember ty (default BAD_STRREF nm) has)
  | Index index => fail_named cur (SeNoMemberAt index)
  end.

(** The bytes of a part of a value, the arithmetic checked first. *)
Definition step_slice cur (offset size : Z) : fallible StepError (list Byte.byte) :=
  match checked_add offset size with
  | None => fail_named cur (SeOffsetOverflow offset size)
  | Some end_ =>
      match bytes_get (val_bytes cur) offset end_ with
      | Some bytes => succeed bytes
      | None =>
          fail_named cur (SeDoesNotFit offset (saturating_add offset size)
                            (Z.of_nat (length (val_bytes cur))))
      end
  end.

(** The part of a value at an offset, as a type. *)
Definition step_into cur (ty : BundleTypeId) (offset : Z) : fallible StepError Value :=
  size ←! infallible (ty_size b ty);
  bytes ←! step_slice cur offset size;
  match checked_add (val_addr cur) offset with
  | Some addr => succeed (mkValue ty addr bytes)
  | None => throw (SeAddrOverflow (val_addr cur) offset)
  end.

(** The pointee of a pointer; [None] for a null one. *)
Definition step_deref cur : fallible StepError (option Value) :=
  target ←! infallible (pointer_target b (val_ty cur));
  match target with
  | None => fail_named cur SeNotPointer
  | Some target =>
      match slice (val_bytes cur) 0 8 with
      | None => fail_named cur (λ ty, SePointerBytes ty (Z.of_nat (length (val_bytes cur))))
      | Some word =>
          let addr := from_le_bytes word in
          if addr =? 0 then succeed None
          else
            size ←! infallible (ty_size b target);
            match refusal read addr size with
            | Some r => fail_named cur (λ ty, SeRefused ty r)
            | None =>
                match value_read b p target addr with
                | Ret (inl v) => succeed (Some v)
                | Ret (inr e) => fail_named cur (λ ty, SeDereferencing ty e)
                | Panic => Panic
                end
            end
      end
  end.

Fixpoint execute_steps (steps : list Step) cur : fallible StepError Walked :=
  match steps with
  | [] => succeed (At cur)
  | Member at_ :: rest =>
      m ←! infallible (contract_member_at (val_ty cur) at_);
      match m with
      | None => no_such_member cur at_
      | Some m => next ←! step_into cur (m_ty m) (m_offset m); execute_steps rest next
      end
  | Variant r :: rest =>
      nm ←! infallible (get (b_strings b) r);
      match nm with
      | None => fail_named cur SeBadVariantName
      | Some nm =>
          selected ←! infallible (check_variant b (val_ty cur) (val_bytes cur) nm);
          match selected with
          | None => fail_named cur SeNotEnum
          | Some (inr e) => fail_named cur (λ ty, SeVariant nm ty e)
          | Some (inl None) => succeed (Inactive nm)
          | Some (inl (Some (payload, offset))) =>
              next ←! step_into cur payload offset; execute_steps rest next
          end
      end
  | ActiveVariant :: rest =>
      active ←! infallible (active_variant b (val_ty cur) (val_bytes cur));
      match active with
      | None => fail_named cur SeNotEnum
      | Some (inr e) => fail_named cur (λ ty, SeDecoding ty e)
      | Some (inl active) =>
          next ←! step_into cur (bv_ty active) (bv_offset active); execute_steps rest next
      end
  | Deref :: rest =>
      pointee ←! step_deref cur;
      match pointee with
      | None => succeed Null
      | Some pointee => execute_steps rest pointee
      end
  end.

(** ** Bindings *)

(** Why a role's walk failed: its binding, its steps, or an outcome its steps do
    not admit. *)
Inductive RoleError :=
  | ReNoBinding (role : WalkRole)
  | ReAbsent (role : WalkRole) (reason : string)
  | ReBroken (role : WalkRole) (errors : list string)
  | ReSteps (role : WalkRole) (e : StepError)
  | ReInactive (role : WalkRole) (nm : str)
  | ReNull (role : WalkRole)
  | ReParse (role : WalkRole) (e : Error).

(** [Bound::steps]. *)
Definition bound_steps (role : WalkRole) : list Step + RoleError :=
  match find_first (λ e, e.1 =? role) (b_walks b) with
  | None => inr (ReNoBinding role)
  | Some (_, binding) =>
      match wb_outcome binding with
      | Bound _ _ _ => inl (BundleCheck.steps binding)
      | Absent reason => inr (ReAbsent role reason)
      | Broken errors => inr (ReBroken role errors)
      end
  end.

(** [Bound::walk_with]. *)
Definition walk_with (role : WalkRole) (root : Value) : fallible RoleError Walked :=
  match bound_steps role with
  | inl steps => map_err (ReSteps role) (execute_steps steps root)
  | inr e => throw e
  end.

Definition try_walk_with (role : WalkRole) (root : Value) : fallible RoleError (option Walked) :=
  match bound_steps role with
  | inl steps => w ←! map_err (ReSteps role) (execute_steps steps root); succeed (Some w)
  | inr _ => succeed None
  end.

(** [Walked::at]. *)
Definition walked_at (role : WalkRole) (w : Walked) : fallible RoleError Value :=
  match w with
  | At v => succeed v
  | Inactive nm => throw (ReInactive role nm)
  | Null => throw (ReNull role)
  end.

(** [Bound::walk_at_with], [read_with] and [try_read]. *)
Definition walk_at_with (role : WalkRole) (root : Value) : fallible RoleError Value :=
  w ←! walk_with role root; walked_at role w.

Definition read_with {V} (parser : Parser V) (role : WalkRole) (root : Value)
    : fallible RoleError V :=
  v ←! walk_at_with role root; map_err (ReParse role) (parse b parser p v).

Definition try_read_with {V} (parser : Parser V) (role : WalkRole) (root : Value)
    : fallible RoleError (option V) :=
  w ←! try_walk_with role root;
  match w with
  | None => succeed None
  | Some w =>
      v ←! walked_at role w;
      x ←! map_err (ReParse role) (parse b parser p v);
      succeed (Some x)
  end.

(** The byte offset member steps reach: [Bound::member_offset]. *)
Fixpoint member_offset_go (steps : list Step) (ty : BundleTypeId) (offset : Z)
    : outcome (option Z) :=
  match steps with
  | [] => Ret (Some offset)
  | Member at_ :: steps =>
      m ←? contract_member_at ty at_;
      member_offset_go steps (m_ty m) (u64_add offset (m_offset m))
  | _ => Ret None
  end.

Definition member_offset (role : WalkRole) (root : BundleTypeId) : outcome (option Z) :=
  match bound_steps role with
  | inl steps => member_offset_go steps root 0
  | inr _ => Ret None
  end.
End walk.

(** ** The report *)

Inductive Class_ := Required | Optional_.
Inductive WalkPolicy := Strict | BestEffort.

Record ContractEntry := mkEntry { ce_name : string; ce_class : Class_; ce_outcome : WalkOutcome }.

(** [ContractEntry::is_broken]. *)
Definition is_broken (e : ContractEntry) : bool :=
  match ce_outcome e with Broken _ => true | _ => false end.
Definition is_required (e : ContractEntry) : bool :=
  match ce_class e with Required => true | Optional_ => false end.

(** [ContractReport::is_clean] and [degraded]. *)
Definition is_clean (entries : list ContractEntry) : bool := negb (existsb is_broken entries).

Definition degraded (policy : WalkPolicy) (entries : list ContractEntry) : list ContractEntry :=
  match policy with
  | Strict => []
  | BestEffort => filter (λ e, is_broken e && negb (is_required e) = true) entries
  end.

(** [ContractReport::check]: the entries that refuse the attach. *)
Definition fatal (policy : WalkPolicy) (entries : list ContractEntry) : list ContractEntry :=
  filter (λ e, is_broken e
            && (is_required e || match policy with Strict => true | BestEffort => false end) = true)
    entries.

Definition contract_check (policy : WalkPolicy) (entries : list ContractEntry)
    : () + list ContractEntry :=
  match fatal policy entries with [] => inl () | l => inr l end.
