(* ===== verification/Chain.v ===== *)
(** The explicit continuation engine
    ([hansei-runtime/src/tokio/chain.rs], with the chain of [model.rs] and the
    lookups of [bundle.rs] it calls): a future's await chain, walked by the poll
    programs the bundle carries.

    [Context]'s memo tables of symbols cache pure lookups and are not seen.  The
    memo of paired candidates is: it is keyed by the symbol alone, so it is state
    the walk reads and writes.  The pairing of crate hashes is a field, the content
    of the context's cell once it is set; the observation of the primitive a chain
    ends in is an argument. *)

From S2P Require Import Prelude Text StringTable Target Symbols Schema BundleCheck TypeView DisplayResolve DisplayEval TaskGraph Discovery Value Pairing Semantics Contract.

Local Open Scope Z_scope.

(** ** Chains *)

Definition MAX_AWAIT_DEPTH : nat := 64.

Record FrameState := mkFrameState {
  fs_name : str;
  fs_phase : option CoroutinePhase;
  fs_await_loc : option (str * Z);
  fs_payload : Value
}.

Record AwaitFrame := mkFrame {
  af_future : Value;
  af_state : option FrameState;
  af_dyn_symbol : option string
}.

Definition value_key (v : Value) : ValueKey := mkValueKey (val_addr v) (val_ty v).

Record ChainEdge := mkChainEdge {
  ce_from : Z;
  ce_to : Z;
  ce_selected : FutureTarget;
  ce_exclusive : bool;
  ce_source : ValueKey;
  ce_target : ValueKey
}.

(** Why a hop failed. *)
Inductive ChainError :=
  | CeSteps (e : StepError)
  | CeInactiveOnRoute (nm ty : str)
  | CeNullOnRoute (ty : str)
  | CeStatePath (e : ChainError)
  | CeStateLanded (ty landed : str)
  | CeStateNotEnum (ty : str)
  | CeStateDecode (ty : str) (addr : Z) (e : VariantError)
  | CePayload (start end_ len : Z) (ty : str)
  | CeDelegateLanded (ty landed : str)
  | CeDelegating (ty : str) (e : ChainError)
  | CeDelegatingDyn (ty : str) (e : ChainError)
  | CeWideLanded (landed : str)
  | CeWord (what : string) (e : ChainError)
  | CeWordBytes (what : string) (len : Z)
  | CeVtableUnmapped (vtable : Z)
  | CeDataNull
  | CeSlotOverflow (slot vtable : Z)
  | CeSlotRead (slot vtable : Z) (e : ErrorKind)
  | CeAlignment (vtable align : Z)
  | CeMisaligned (data align : Z)
  | CeNullPoll (vtable : Z)
  | CeNoType (id : BundleTypeId)
  | CeSizeMismatch (vtable size : Z) (ty : str) (ty_size : Z)
  | CeDataOverflow (data size : Z)
  | CeDataUnmapped (data end_ : Z)
  | CeRefusedFuture (ty : str) (r : Refusal)
  | CeReadFuture (ty : str) (data : Z) (e : Error).

Inductive ChainEnd :=
  | EndPrimitive
  | EndUnresumed
  | EndReturned
  | EndPanicked
  | EndNeverReady
  | EndUnknownContinuation (at_ : ValueKey) (reason : SemanticIssueKind)
  | EndActivePoll
  | EndUnknownDyn (pointee : BundleTypeId) (poll_symbol : option string)
  | EndAmbiguousDyn (pointee : BundleTypeId) (symbol : string) (candidates : list BundleTypeId)
  | EndDepthLimit
  | EndCycle (addr : Z)
  | EndError (e : ChainError).

Record AwaitChain := mkChain {
  frames : list AwaitFrame;
  chain_edges : list ChainEdge;
  chain_end : ChainEnd
}.

(** [AwaitChain::primitive_leaf], [all_exclusive] and [referents]. *)
Definition primitive_leaf (c : AwaitChain) : option Value :=
  match chain_end c with
  | EndPrimitive => af_future <$> last (frames c)
  | _ => None
  end.
Definition all_exclusive (c : AwaitChain) : bool := forallb ce_exclusive (chain_edges c).
Definition referents (c : AwaitChain) : list ValueKey := value_key ∘ af_future <$> frames c.

Inductive NextFuture :=
  | NxNext (future : Value) (selected : FutureTarget) (exclusive : bool)
      (dynamic_symbol : option string)
  | NxEnd (end_ : ChainEnd).

Inductive InspectionMode :=
  | MTask (lifecycle : Lifecycle)
  | MHeld.

Inductive TaskStage :=
  | StRunning (v : Value)
  | StFinished (v : Value)
  | StConsumed.

(** ** The evidence of a vtable *)

Inductive Slot := POLL | DROP.

#[global] Instance slot_eq_dec : EqDecision Slot.
Proof. solve_decision. Defined.

Record SlotEvidence := mkEvidence {
  which : Slot;
  se_symbol : string;
  se_lookup : SymbolLookup BundleTypeId
}.

(** [SlotEvidence::admits]. *)
Definition admits (e : SlotEvidence) (id : BundleTypeId) : bool :=
  match se_lookup e with
  | Unique other => Nat.eqb other id
  | SAmbiguous ids => bool_decide (id ∈ ids)
  | Missing => true
  end.

Inductive Dyn :=
  | DResolved (future : Value) (symbol : string)
  | DUnknown (poll_symbol : option string)
  | DAmbiguous (symbol : string) (candidates : list BundleTypeId).

(** ** The context *)

Inductive SchedulerClass := CMultiThread | CCurrentThread | CLocalSet | CBlocking.

Record TaskFutureEntry := mkTaskEntry {
  te_future : BundleTypeId;
  te_cell : BundleTypeId;
  te_scheduler : option SchedulerClass
}.

(** [InfraTypes] and [Provenance], as far as the reads of tasks use them. *)
Record InfraTypes := mkInfra {
  if_header : BundleTypeId;
  if_vtable : BundleTypeId;
  if_trailer : BundleTypeId;
  if_context : BundleTypeId;
  if_location : BundleTypeId
}.
Record Provenance := mkProvenance { pv_decl : option SourceLoc; pv_kind : FutureKind }.

Record ChainCtx (T : Type) := mkChainCtx {
  cc_bundle : Bundle;
  cc_records : list TypeSemantics;
  cc_index : SemanticIndex;
  cc_infra : InfraTypes;
  cc_entries : list TaskFutureEntry;
  cc_provenance : list Provenance;
  cc_tasks : SymbolTable Z;
  cc_dyn_futures : SymbolTable BundleTypeId;
  cc_mappings : Mappings;
  cc_proc : T;
  cc_tables : ReleaseTables;
  cc_pairing : gmap (str * str) str
}.
Arguments mkChainCtx {_} _ _ _ _ _ _ _ _ _ _ _ _.
Arguments cc_bundle {_} _.
Arguments cc_records {_} _.
Arguments cc_index {_} _.
Arguments cc_infra {_} _.
Arguments cc_entries {_} _.
Arguments cc_provenance {_} _.
Arguments cc_tasks {_} _.
Arguments cc_dyn_futures {_} _.
Arguments cc_mappings {_} _.
Arguments cc_proc {_} _.
Arguments cc_tables {_} _.
Arguments cc_pairing {_} _.

(** What [paired_candidate] remembers of each symbol. *)
Abbreviation Paired := (gmap string (option BundleTypeId)) (only parsing).

(** A hop: the memo threaded through, and a panic or a result. *)
Definition hop (A : Type) : Type := Paired → outcome (Paired * (A + ChainError)).

Definition hop_pure {A} (m : fallible ChainError A) : hop A := λ memo, r ← m; Ret (memo, r).
Definition hop_bind {A B} (m : hop A) (f : A → hop B) : hop B := λ memo,
  match m memo with
  | Ret (memo, inl a) => f a memo
  | Ret (memo, inr e) => Ret (memo, inr e)
  | Panic => Panic
  end.
(** [map_err] of a hop. *)
Definition hop_context {A} (f : ChainError → ChainError) (m : hop A) : hop A := λ memo,
  '(memo, r) ← m memo;
  Ret (memo, match r with inl a => inl a | inr e => inr (f e) end).

Notation "x ←^ m ; k" := (hop_bind m (λ x, k))
  (at level 20, m at level 100, k at level 200, only parsing) : stdpp_scope.

(** [ensure!]. *)
Definition ensure {E} (c : bool) (e : E) : fallible E () := if c then succeed () else throw e.

Section chain.
Context `{Demangler} {T : Type} `{!Target T} (cx : ChainCtx T) (read : ReadContext).
Abbreviation b := (cc_bundle cx).
Abbreviation proc := (cc_proc cx).

Definition semantics_of (ty : BundleTypeId) : outcome (option TypeSemantics) :=
  type_semantics (cc_index cx) (cc_records cx) ty.

Definition named (ty : BundleTypeId) {A} (e : str → ChainError) : fallible ChainError A :=
  nm ←! infallible (ty_name b ty); throw (e nm).

(** ** Routes *)

Definition route (from : Value) (steps : list Step) : fallible ChainError Value :=
  w ←! map_err CeSteps (execute_steps b proc read steps from);
  match w with
  | At v => succeed v
  | Inactive nm => named (val_ty from) (CeInactiveOnRoute nm)
  | Null => named (val_ty from) CeNullOnRoute
  end.

(** ** Trait objects *)

(** One word of the wide pointer. *)
Definition wide_word (wide : Value) (path : TypedPath) (what : string) : fallible ChainError Z :=
  field ←! map_err (CeWord what) (route wide (tp_steps path));
  let len := Z.of_nat (length (val_bytes field)) in
  if len =? 8 then succeed (from_le_bytes (val_bytes field)) else throw (CeWordBytes what len).

Definition vtable_word (vtable slot : Z) : fallible ChainError Z :=
  match checked_add vtable (slot * 8) with
  | None => throw (CeSlotOverflow slot vtable)
  | Some addr =>
      match read_u64 proc addr with
      | Ok w => succeed w
      | Err e => throw (CeSlotRead slot vtable e)
      end
  end.

Definition symbol_at (addr : Z) : option string := name <$> lookup_symbol_by_addr proc addr.

(** The table a task entry's id indexes. *)
Definition task_entry (id : Z) : outcome TaskFutureEntry :=
  or_panic (cc_entries cx !! Z.to_nat id).

Fixpoint task_futures (ids : list Z) : outcome (list BundleTypeId) :=
  match ids with
  | [] => Ret []
  | id :: ids => e ← task_entry id; rest ← task_futures ids; Ret (te_future e :: rest)
  end.

(** The future a poll symbol of a task entry names. *)
Definition task_lookup (symbol : str) : outcome (SymbolLookup BundleTypeId) :=
  match lookup_id (cc_tasks cx) symbol with
  | Unique id => e ← task_entry id; Ret (Unique (te_future e))
  | SAmbiguous ids =>
      futures ← task_futures ids;
      match dedup_by Nat.eqb (sort_by Nat.leb futures) with
      | [one] => Ret (Unique one)
      | futures => Ret (SAmbiguous futures)
      end
  | Missing => Ret Missing
  end.

(** What a slot's symbol joins: the dyn-future table, and for the poll slot the
    task table where that one has nothing. *)
Definition slot_lookup (which : Slot) (symbol : string) : outcome (SymbolLookup BundleTypeId) :=
  match which, lookup_id (cc_dyn_futures cx) (bytes_of_string symbol) with
  | POLL, Missing => task_lookup (bytes_of_string symbol)
  | _, lookup => Ret lookup
  end.

(** The loop over the slots: the evidence collected and the poll symbol seen. *)
Fixpoint collect_evidence (vtable : Z) (slots : list (Slot * Z)) (evidence : list SlotEvidence)
    (poll_symbol : option string)
    : fallible ChainError (list SlotEvidence * option string) :=
  match slots with
  | [] => succeed (evidence, poll_symbol)
  | (which, index) :: slots =>
      fn_addr ←! vtable_word vtable index;
      if fn_addr =? 0 then
        _ ←! ensure (bool_decide (which = DROP)) (CeNullPoll vtable);
        collect_evidence vtable slots evidence poll_symbol
      else
        match symbol_at fn_addr with
        | None => collect_evidence vtable slots evidence poll_symbol
        | Some symbol =>
            lookup ←! infallible (slot_lookup which symbol);
            let poll_symbol := if bool_decide (which = POLL) then Some symbol else poll_symbol in
            collect_evidence vtable slots
              match lookup with
              | Missing => evidence
              | lookup => evidence ++ [mkEvidence which symbol lookup]
              end poll_symbol
        end
  end.

(** [Context::paired_candidate]: [Memo::get_or] on the symbol. *)
Definition paired_candidate (symbol : string) (candidates : list BundleTypeId)
    (memo : Paired) : outcome (Paired * option BundleTypeId) :=
  match memo !! symbol with
  | Some hit => Ret (memo, hit)
  | None =>
      value ← select b (cc_tables cx) (cc_pairing cx) (bytes_of_string symbol) candidates;
      Ret (<[symbol := value]> memo, value)
  end.

(** The evidence but the one at a position. *)
Definition trailing (lead : nat) (evidence : list SlotEvidence) : list SlotEvidence :=
  take lead evidence ++ drop (S lead) evidence.

(** The type the leading evidence names, narrowed by the rest. *)
Inductive Chosen :=
  | Named_ (id : BundleTypeId)
  | Several (candidates : list BundleTypeId).

Definition lead_position (evidence : list SlotEvidence) : option nat :=
  match find_first (λ e, bool_decide (which e.2 = POLL)) (zip (seq 0 (length evidence)) evidence) with
  | Some (i, _) => Some i
  | None => match evidence with [] => None | _ => Some 0%nat end
  end.

Definition narrowed (lead : nat) (evidence : list SlotEvidence) (ids : list BundleTypeId)
    : list BundleTypeId :=
  filter (λ id, forallb (λ e, admits e id) (trailing lead evidence) = true) ids.

Definition choose (lead : nat) (evidence : list SlotEvidence) (e : SlotEvidence)
    (memo : Paired) : outcome (Paired * Chosen) :=
  match se_lookup e with
  | Unique id => Ret (memo, Named_ id)
  | SAmbiguous ids =>
      let left := narrowed lead evidence ids in
      '(memo, paired) ←
        match left with
        | _ :: _ :: _ => paired_candidate (se_symbol e) left memo
        | _ => Ret (memo, None)
        end;
      Ret (memo, match left, paired with
                 | [one], _ => Named_ one
                 | _, Some chosen => Named_ chosen
                 | _, None =>
                     Several (filter (λ id, is_Some (ty_get (b_types b) id)) ids)
                 end)
  | Missing => Panic
  end.

(** The referent read whole, as the type the evidence names. *)
Definition read_dyn (data vtable size : Z) (id : BundleTypeId) (symbol : string)
    : fallible ChainError Dyn :=
  _ ←! ensure (bool_decide (is_Some (ty_get (b_types b) id))) (CeNoType id);
  layout ←! infallible (ty_size b id);
  if negb (layout =? size) then named id (λ nm, CeSizeMismatch vtable size nm layout)
  else if size =? 0 then succeed (DResolved (mkValue id data []) symbol)
  else
    match checked_add data size with
    | None => throw (CeDataOverflow data size)
    | Some end_ =>
        _ ←! ensure (contains_addr (cc_mappings cx) data
                     && contains_addr (cc_mappings cx) (u64_sub end_ 1)) (CeDataUnmapped data end_);
        match refusal read data size with
        | Some r => named id (λ nm, CeRefusedFuture nm r)
        | None =>
            match value_read b proc id data with
            | Ret (inl v) => succeed (DResolved v symbol)
            | Ret (inr e) => named id (λ nm, CeReadFuture nm data e)
            | Panic => Panic
            end
        end
    end.

Definition resolve_dynamic (data vtable : Z) (layout : DynFutureLayout) : hop Dyn :=
  _ ←^ hop_pure (ensure (negb (vtable =? 0) && contains_addr (cc_mappings cx) vtable)
                   (CeVtableUnmapped vtable));
  _ ←^ hop_pure (ensure (negb (data =? 0)) CeDataNull);
  size ←^ hop_pure (vtable_word vtable (size_slot layout));
  align ←^ hop_pure (vtable_word vtable (align_slot layout));
  _ ←^ hop_pure (ensure (negb (align =? 0) && is_power_of_two align) (CeAlignment vtable align));
  _ ←^ hop_pure (ensure (data `mod` align =? 0) (CeMisaligned data align));
  collected ←^ hop_pure (collect_evidence vtable
    (match poll_slot layout with Some index => [(POLL, index)] | None => [] end
     ++ [(DROP, drop_slot layout)]) [] None);
  let '(evidence, poll_symbol) := collected in
  match lead_position evidence with
  | None => hop_pure (succeed (DUnknown poll_symbol))
  | Some lead =>
      match evidence !! lead with
      | None => λ _, Panic
      | Some e => λ memo,
          '(memo, chosen) ← choose lead evidence e memo;
          match chosen with
          | Named_ id => hop_pure (read_dyn data vtable size id (se_symbol e)) memo
          | Several candidates => Ret (memo, inl (DAmbiguous (se_symbol e) candidates))
          end
      end
  end.

Definition dynamic (value : Value) (pointer : TypedPath) (layout : DynFutureLayout) : hop Dyn :=
  wide ←^ hop_pure (route value (tp_steps pointer));
  if negb (Nat.eqb (val_ty wide) (tp_target pointer)) then hop_pure (named (val_ty wide) CeWideLanded)
  else
    data ←^ hop_pure (wide_word wide (dl_data layout) "data");
    vtable ←^ hop_pure (wide_word wide (dl_vtable layout) "vtable");
    resolve_dynamic data vtable layout.

(** ** Delegation *)

(** One step of the chain; its failures end the chain. *)
Definition step (A : Type) : Type := Paired → outcome (Paired * A).

Definition delegate (value : Value) (target : FutureTarget) (exclusive : bool)
    : step NextFuture := λ memo,
  match target with
  | FTValue path =>
      r ← route value (tp_steps path);
      match r with
      | inl landed =>
          if Nat.eqb (val_ty landed) (tp_target path)
          then Ret (memo, NxNext landed target exclusive None)
          else
            from ← ty_name b (val_ty value);
            to ← ty_name b (val_ty landed);
            Ret (memo, NxEnd (EndError (CeDelegateLanded from to)))
      | inr e =>
          from ← ty_name b (val_ty value);
          Ret (memo, NxEnd (EndError (CeDelegating from e)))
      end
  | FTDynamic pointer layout =>
      '(memo, r) ← dynamic value pointer layout memo;
      match r with
      | inl (DResolved future symbol) => Ret (memo, NxNext future target exclusive (Some symbol))
      | inl (DUnknown poll_symbol) => Ret (memo, NxEnd (EndUnknownDyn (trait_ty layout) poll_symbol))
      | inl (DAmbiguous symbol candidates) =>
          Ret (memo, NxEnd (EndAmbiguousDyn (trait_ty layout) symbol candidates))
      | inr e =>
          from ← ty_name b (val_ty value);
          Ret (memo, NxEnd (EndError (CeDelegatingDyn from e)))
      end
  end.

(** [Context::access_referent]. *)
Definition access_referent (value : Value) : Paired → outcome (Paired * option NextFuture) :=
  λ memo,
  record ← semantics_of (val_ty value);
  match r ← record; ts_access r with
  | None => Ret (memo, None)
  | Some access => '(memo, next) ← delegate value (ab_target access) false memo; Ret (memo, Some next)
  end.

Definition run_action (at_ : ValueKey) (value : Value) (action : PollAction) : step NextFuture :=
  λ memo,
  match action with
  | Delegate target exclusive => delegate value target exclusive memo
  | APrimitive => Ret (memo, NxEnd EndPrimitive)
  | AUnresumed => Ret (memo, NxEnd EndUnresumed)
  | AReturned => Ret (memo, NxEnd EndReturned)
  | APanicked => Ret (memo, NxEnd EndPanicked)
  | ANeverReady => Ret (memo, NxEnd EndNeverReady)
  | AUnknown issue => Ret (memo, NxEnd (EndUnknownContinuation at_ (si_kind issue)))
  end.

(** ** States *)

(** The state a variant-matched program dispatches on. *)
Definition state_value (value : Value) (state : TypedPath) : fallible ChainError Value :=
  v ←! map_err CeStatePath (route value (tp_steps state));
  if Nat.eqb (val_ty v) (tp_target state) then succeed v
  else
    ty ←! infallible (ty_name b (val_ty value));
    named (val_ty v) (CeStateLanded ty).

Definition decode_state (v : Value) : fallible ChainError BundleVariant :=
  active ←! infallible (active_variant b (val_ty v) (val_bytes v));
  match active with
  | None => named (val_ty v) CeStateNotEnum
  | Some (inr e) => named (val_ty v) (λ nm, CeStateDecode nm (val_addr v) e)
  | Some (inl active) => succeed active
  end.

(** The variant's payload, sliced without peeling. *)
Definition frame_state (v : Value) (active : BundleVariant) : fallible ChainError FrameState :=
  let start := bv_offset active in
  size ←! infallible (ty_size b (bv_ty active));
  match (end_ ← checked_add start size; bytes_get (val_bytes v) start end_) with
  | None =>
      named (val_ty v)
        (CePayload start (saturating_add start size) (Z.of_nat (length (val_bytes v))))
  | Some bytes =>
      nm ←! infallible (variant_name b (bv_name active) (bv_ty active));
      let record := view_semantics (cc_records cx) (bv_owner active) in
      succeed (mkFrameState nm (phase record active) (await_loc record active)
                 (mkValue (bv_ty active) (u64_add (val_addr v) start) bytes))
  end.

Fixpoint find_case (cases : list PollCase) (nm : str) : outcome (option PollCase) :=
  match cases with
  | [] => Ret None
  | c :: cases =>
      s ← get (b_strings b) (pc_variant c);
      if bool_decide (s = Some nm) then Ret (Some c) else find_case cases nm
  end.

Definition match_state (value : Value) (state : TypedPath)
    : fallible ChainError (BundleVariant * FrameState) :=
  v ←! state_value value state;
  active ←! decode_state v;
  fs ←! frame_state v active;
  succeed (active, fs).

(** [Context::continuation]. *)
Definition continuation (value : Value) : step (option FrameState * NextFuture) := λ memo,
  let at_ := value_key value in
  let unknown reason := NxEnd (EndUnknownContinuation at_ reason) in
  record ← semantics_of (val_ty value);
  match record with
  | None => Ret (memo, (None, unknown NoRule))
  | Some record =>
      match ts_future record with
      | None =>
          match ts_access record with
          | Some access =>
              '(memo, next) ← delegate value (ab_target access) true memo; Ret (memo, (None, next))
          | None => Ret (memo, (None, unknown NoRule))
          end
      | Some (CtUnknown issue) => Ret (memo, (None, unknown (si_kind issue)))
      | Some (CtBound _ (PDirect action)) =>
          '(memo, next) ← run_action at_ value action memo; Ret (memo, (None, next))
      | Some (CtBound _ (PMatchVariant state cases)) =>
          r ← match_state value state;
          match r with
          | inr e => Ret (memo, (None, NxEnd (EndError e)))
          | inl (active, fs) =>
              c ← find_case cases (bv_name active);
              match c with
              | None => Ret (memo, (Some fs, unknown UnsupportedState))
              | Some c =>
                  '(memo, next) ← run_action at_ value (pc_action c) memo; Ret (memo, (Some fs, next))
              end
          end
      end
  end.

(** ** The walk *)

Definition is_active_poll (mode : InspectionMode) : bool :=
  match mode with MTask Running => true | _ => false end.

(** The loop, [depth] frames short of the limit.  [pending] is the edge to the
    value at hand, kept once that is a frame. *)
Fixpoint inspect_loop (depth : nat) (mode : InspectionMode) (fs : list AwaitFrame)
    (es : list ChainEdge) (visited : list ValueKey) (cur : Value) (dyn_symbol : option string)
    (pending : option ChainEdge) : step AwaitChain := λ memo,
  match depth with
  | O => Ret (memo, mkChain fs es EndDepthLimit)
  | S depth =>
      if bool_decide (value_key cur ∈ visited)
      then Ret (memo, mkChain fs es (EndCycle (val_addr cur)))
      else
        let es := es ++ match pending with Some e => [e] | None => [] end in
        let index := as_u32 (Z.of_nat (length fs)) in
        if is_active_poll mode
        then Ret (memo, mkChain (fs ++ [mkFrame cur None dyn_symbol]) es EndActivePoll)
        else
          '(memo, (state, next)) ← continuation cur memo;
          let fs := fs ++ [mkFrame cur state dyn_symbol] in
          match next with
          | NxEnd end_ => Ret (memo, mkChain fs es end_)
          | NxNext future selected exclusive dynamic_symbol =>
              inspect_loop depth mode fs es (value_key cur :: visited) future dynamic_symbol
                (Some (mkChainEdge index (as_u32 (index + 1)) selected exclusive (value_key cur)
                         (value_key future))) memo
          end
  end.

Definition inspect_chain (root : Value) (mode : InspectionMode) : step AwaitChain :=
  inspect_loop MAX_AWAIT_DEPTH mode [] [] [] root None None.

(** The observation of the primitive a chain ends in ([observe_resource]), and
    that of a chain that ends in none. *)
Context {O : Type} (observe_resource : Value → O) (observed_none : O).

Definition inspect_future (root : Value) (mode : InspectionMode) : step (AwaitChain * O) :=
  λ memo,
  '(memo, chain) ← inspect_chain root mode memo;
  Ret (memo, (chain, match primitive_leaf chain with
                     | Some leaf => observe_resource leaf
                     | None => observed_none
                     end)).

(** ** Tasks *)

Inductive InfraError := InNoEntry (id : BundleTypeId) | InOpaque (id : BundleTypeId).

Inductive TaskRootError :=
  | TeUnknown (poll_symbol : option string)
  | TeAmbiguous (symbol : string) (candidates : list BundleTypeId)
  | TeInfra (e : InfraError)
  | TeCell (addr : Z) (e : Error)
  | TeRole (e : RoleError)
  | TeStageNotEnum
  | TeStageDecode (e : VariantError)
  | TeLanded (landed : str)
  | TeStageVariant (nm : str).

(** [WalkRole]s, by their place in the declaration order. *)
Definition CellStage : Z := 38.
Definition CellStageRunning : Z := 39.
Definition CellStageFinished : Z := 40.

Definition STAGE_RUNNING : str := bytes_of_string "Running".
Definition STAGE_FINISHED : str := bytes_of_string "Finished".
Definition STAGE_CONSUMED : str := bytes_of_string "Consumed".

(** [Context::infra_ty]. *)
Definition infra_ty (id : BundleTypeId) : fallible InfraError BundleTypeId :=
  match ty_get (b_types b) id with
  | None => throw (InNoEntry id)
  | Some (TOpaque _ _) => throw (InOpaque id)
  | Some _ => succeed id
  end.

Definition role_at (role : Z) (root : Value) : fallible TaskRootError Value :=
  map_err TeRole (walk_at_with b proc read role root).

Definition stage_of (entry : TaskFutureEntry) (cell : Value) (nm : str)
    : fallible TaskRootError TaskStage :=
  if bool_decide (nm = STAGE_RUNNING) then
    future ←! role_at CellStageRunning cell;
    if Nat.eqb (val_ty future) (te_future entry) then succeed (StRunning future)
    else landed ←! infallible (ty_name b (val_ty future)); throw (TeLanded landed)
  else if bool_decide (nm = STAGE_FINISHED) then
    v ←! role_at CellStageFinished cell; succeed (StFinished v)
  else if bool_decide (nm = STAGE_CONSUMED) then succeed StConsumed
  else throw (TeStageVariant nm).

Definition task_root (task : Task) : fallible TaskRootError TaskStage :=
  match future task with
  | FUnknown poll_symbol => throw (TeUnknown poll_symbol)
  | Ambiguous symbol candidates => throw (TeAmbiguous symbol candidates)
  | FKnown known =>
      entry ←! infallible (task_entry (kf_entry known));
      cell_ty ←! map_err TeInfra (infra_ty (te_cell entry));
      cell ←! map_err (TeCell (addr task)) (value_read b proc cell_ty (addr task));
      stage ←! role_at CellStage cell;
      active ←! infallible (active_variant b (val_ty stage) (val_bytes stage));
      match active with
      | None => throw TeStageNotEnum
      | Some (inr e) => throw (TeStageDecode e)
      | Some (inl active) => stage_of entry cell (bv_name active)
      end
  end.

(** [Context::inspect_task]. *)
Definition inspect_task (task : Task)
    : Paired → outcome (Paired * (option (AwaitChain * O) + TaskRootError)) := λ memo,
  stage ← task_root task;
  match stage with
  | inr e => Ret (memo, inr e)
  | inl (StRunning root) =>
      '(memo, inspection) ← inspect_future root (MTask (lifecycle (state task))) memo;
      Ret (memo, inl (Some inspection))
  | inl _ => Ret (memo, inl None)
  end.
End chain.
