(* ===== verification/ContractFacts.v ===== *)
(** Facts about the step executor: a route a bundle's validation resolved lands on
    the type it was resolved to, on the bytes of memory at its address, inside the
    value it started from or inside a pointee the allocator did not refuse. *)

From S2P Require Import Prelude Text StringTable Target Schema BundleCheck TypeView TypeSizes DisplayResolve DisplayEval BundleCheckFacts EvalFacts Value Elements ElementsFacts Contract.

Local Open Scope Z_scope.

(** ** The error monad *)

Lemma fbind_inl {E A B} (m : fallible E A) (f : A → fallible E B) r :
  fbind m f = Ret (inl r) ↔ ∃ a, m = Ret (inl a) ∧ f a = Ret (inl r).
Proof.
  destruct m as [[a|e]|]; cbn.
  - split; [by exists a|]. by intros (? & [= <-] & ?).
  - split; [done|]. by intros (? & ? & ?).
  - split; [done|]. by intros (? & ? & ?).
Qed.
Lemma infallible_inl {E A} (m : outcome A) (a : A) : @infallible E A m = Ret (inl a) → m = Ret a.
Proof. unfold infallible. destruct m; cbn; intros; by simplify_eq. Qed.
Lemma map_err_inl {E F A} (f : E → F) (m : fallible E A) a : map_err f m = Ret (inl a) → m = Ret (inl a).
Proof. destruct m as [[]|]; cbn; intros; by simplify_eq. Qed.

Section routes.
Context (b : Bundle) {T : Type} `{!Target T} (p : T) (read : ReadContext) (mem : Z → Byte.byte).

Lemma fail_named_inl {A} cur e (a : A) : fail_named b cur e ≠ Ret (inl a).
Proof. unfold fail_named. by destruct (ty_name b (val_ty cur)). Qed.

(** A value whose bytes are those of its type at its address. *)
Definition view_ok (v : Value) : Prop :=
  ∃ size, ty_size b (val_ty v) = Ret size ∧ 0 <= size ∧ val_bytes v = window mem (val_addr v) size.

(** Where a value is: in the value a route started from, or in a pointee the
    allocator permitted. *)
Definition placed (root v : Value) : Prop :=
  ∃ a n, (a = val_addr root ∧ n = Z.of_nat (length (val_bytes root)) ∨ a ≠ 0 ∧ refusal read a n = None) ∧
    a <= val_addr v ∧ val_addr v + Z.of_nat (length (val_bytes v)) <= a + n.

Hypothesis Hmem : ∀ a n bs, read_bytes p a n = Ok bs → bs = window mem a n.

Lemma view_ok_length v : view_ok v → ∃ size, ty_size b (val_ty v) = Ret size ∧ 0 <= size ∧
  Z.of_nat (length (val_bytes v)) = size ∧ val_bytes v = window mem (val_addr v) size.
Proof.
  intros (size & Hs & H0 & Hb). exists size. repeat (split; [done|]). split; [|done].
  rewrite Hb, length_window. lia.
Qed.

Lemma step_into_ok root cur ty offset v :
  view_ok cur → placed root cur → step_into b cur ty offset = Ret (inl v) →
  val_ty v = ty ∧ view_ok v ∧ placed root v.
Proof.
  intros Hcur Hpl H. apply view_ok_length in Hcur as (n & Hn & Hn0 & Hl & Hbytes).
  unfold step_into in H. apply fbind_inl in H as (size & Hs%infallible_inl & H).
  apply fbind_inl in H as (bs & Hbs & H). destruct (checked_add (val_addr cur) offset) as [a|] eqn:Ea; [|done].
  apply checked_add_Some in Ea as [-> _]. injection H as <-. cbn. split; [done|].
  unfold step_slice in Hbs. destruct (checked_add offset size) as [e|] eqn:Ee;
    [|by apply fail_named_inl in Hbs]. apply checked_add_Some in Ee as [-> _].
  destruct (bytes_get (val_bytes cur) offset (offset + size)) as [bs'|] eqn:Eg;
    [|by apply fail_named_inl in Hbs]. injection Hbs as <-.
  pose proof Eg as Hlen. unfold bytes_get in Hlen. apply length_slice in Hlen.
  assert (0 <= offset ∧ 0 <= size ∧ offset + size <= n) as (Ho & Hs0 & Hle).
  { unfold bytes_get, slice in Eg. destruct (_ && _) eqn:E in Eg; [|done]. zb. lia. }
  rewrite Hbytes, window_slice in Eg by lia. injection Eg as <-. split.
  - by exists size.
  - destruct Hpl as (a & m & Ha & H1 & H2). exists a, m. split; [done|]. cbn. lia.
Qed.

Lemma step_deref_ok root cur v :
  step_deref b p read cur = Ret (inl (Some v)) →
  pointer_target b (val_ty cur) = Ret (Some (val_ty v)) ∧ view_ok v ∧ placed root v.
Proof.
  unfold step_deref. intros H. apply fbind_inl in H as (target & Ht%infallible_inl & H).
  destruct target as [target|]; [|by apply fail_named_inl in H].
  destruct (slice (val_bytes cur) 0 8) as [word|]; [|by apply fail_named_inl in H].
  destruct (from_le_bytes word =? 0) eqn:E0; [done|]. zb.
  apply fbind_inl in H as (size & Hs%infallible_inl & H).
  destruct (refusal read _ size) eqn:Er; [by apply fail_named_inl in H|].
  destruct (value_read b p target (from_le_bytes word)) as [[w|e]|] eqn:Ev; [|by apply fail_named_inl in H|done].
  injection H as <-. unfold value_read in Ev.
  apply fbind_inl in Ev as (size' & Hs'%infallible_inl & Ev). rewrite Hs in Hs'. injection Hs' as <-.
  apply fbind_inl in Ev as (bs & Hbs & [= <-]). cbn. split; [done|].
  unfold target_read in Hbs. destruct (read_bytes p _ size) as [bs'|] eqn:Eb; [|done]. injection Hbs as <-.
  pose proof (read_bytes_len _ _ _ _ Eb) as Hl. split.
  - exists size. split; [done|]. split; [lia|]. by apply Hmem.
  - eexists _, size. split; [by right|]. cbn. lia.
Qed.

(** No two references of the string table are one string, and every variant's name
    is one. *)
Record names_distinct : Prop := mkNamesDistinct {
  strings_distinct : ∀ r r' s, 0 <= r → 0 <= r' →
    get (b_strings b) r = Ret (Some s) → get (b_strings b) r' = Ret (Some s) → r = r';
  variants_named : ∀ id nm size sh v, ty_get (b_types b) id = Some (TEnum nm size sh) →
    v ∈ variants sh → 0 <= v_name v ∧ get (b_strings b) (v_name v) ≠ Ret None
}.
Hypothesis Hnames : names_distinct.

Lemma find_named_In {A} (nm_of : A → StrRef) nm l a :
  find_named b nm_of nm l = Ret (Some a) → a ∈ l ∧ resolve_str b (nm_of a) = Ret nm.
Proof.
  induction l as [|x l IH]; cbn [find_named]; [done|]. rewrite outcome_bind_Ret.
  intros (s & Hs & H). case_bool_decide as E.
  - injection H as <-. subst. split; [by left|done].
  - destruct (IH H) as [? ?]. split; [by right|done].
Qed.

(** The variant a shape's decode selects, by the name it is asked for under. *)
Lemma check_variant_selected ty bytes nm payload offset :
  check_variant b ty bytes nm = Ret (Some (inl (Some (payload, offset)))) →
  ∃ sh v, variant_shape b ty = Ret (Some sh) ∧ v ∈ variants sh ∧ resolve_str b (v_name v) = Ret nm ∧
    payload = m_ty (v_payload v) ∧ offset = m_offset (v_payload v).
Proof.
  unfold check_variant, pass. intros H. apply outcome_bind_Ret in H as ([sh|] & Hsh & H); [|done].
  apply outcome_bind_Ret in H as ([known|] & _ & H); [|done].
  apply outcome_bind_Ret in H as (r & Hr & H). destruct r as [active|e]; [|done].
  case_bool_decide as En; [|done]. injection H as <- <-. unfold decode_variant in Hr.
  apply outcome_bind_Ret in Hr as ([v|e] & Hv & Hr); [|done].
  apply outcome_bind_Ret in Hr as (bv & Hbv & [= <-]). unfold variant_of in Hbv.
  apply outcome_bind_Ret in Hbv as (vn & Hvn & Hbv). apply outcome_bind_Ret in Hbv as (d & _ & Hbv).
  apply outcome_bind_Ret in Hbv as (w & _ & [= <-]). cbn in *. subst nm.
  exists sh, v. split; [done|]. split; [|done]. unfold decode_selected in Hv.
  destruct (discr sh) as [d'|].
  - apply outcome_bind_Ret in Hv as (size & _ & Hv). destruct (negb _); [done|].
    destruct (bytes_get _ _ _); [|done]. injection Hv as Hv. destruct (select_variant sh _) eqn:Es; [|done].
    injection Hv as <-. unfold select_variant in Es.
    destruct (find_first _ (variants sh)) eqn:E1; [simplify_eq; by apply find_first_Some in E1 as [? _]|].
    by apply find_first_Some in Es as [? _].
  - injection Hv as Hv. destruct (variants sh) as [|x [|y l]]; try done. injection Hv as <-. by left.
Qed.

Lemma execute_validated root sel : ∀ cur def seen offset target o v semantic,
  ty_get (b_types b) (val_ty cur) = Some def → view_ok cur → placed root cur →
  selector_go (b_types b) semantic sel (val_ty cur) def seen offset = Some (target, o) →
  execute_steps b p read sel cur = Ret (inl (At v)) →
  val_ty v = target ∧ view_ok v ∧ placed root v.
Proof.
  induction sel as [|st sel IH]; intros cur def seen offset target o v semantic Hd Hok Hpl Hsel Hex.
  { cbn in Hsel, Hex. injection Hex as <-. injection Hsel as <- _. done. }
  destruct st as [at_| |r|]; cbn [execute_steps selector_go] in *; [| | |done].
  - destruct (semantic && _); [done|]. apply bind_Some in Hsel as (ms & Hms & Hsel).
    apply bind_Some in Hsel as (m & Hm & Hsel). apply bind_Some in Hsel as (off & _ & Hsel).
    case_bool_decide; [done|]. apply bind_Some in Hsel as (d' & Hd' & Hsel).
    apply fbind_inl in Hex as (m' & Hm'%infallible_inl & Hex).
    unfold contract_member_at, members, ty_def in Hm'. rewrite Hd in Hm'. cbn in Hm'. rewrite Hms in Hm'.
    cbn in Hm'. rewrite Hm in Hm'. injection Hm' as <-.
    apply fbind_inl in Hex as (next & Hn & Hex).
    destruct (step_into_ok root cur _ _ next Hok Hpl Hn) as (Ht & Hok' & Hpl').
    rewrite <- Ht in Hsel, Hd'. eapply IH; done.
  - destruct def; try done. apply bind_Some in Hsel as (d' & Hd' & Hsel).
    apply fbind_inl in Hex as ([pointee|] & Hp & Hex); [|done].
    destruct (step_deref_ok root cur pointee Hp) as (Ht & Hok' & Hpl').
    unfold pointer_target, ty_def in Ht. rewrite Hd in Ht. injection Ht as Ht.
    rewrite Ht in Hsel, Hd'. eapply IH; done.
  - destruct def as [| | | | |nm size sh| |]; try done.
    apply bind_Some in Hsel as (vd & Hvd & Hsel). apply bind_Some in Hsel as (off & _ & Hsel).
    case_bool_decide; [done|]. apply bind_Some in Hsel as (d' & Hd' & Hsel).
    apply fbind_inl in Hex as ([s|] & Hs%infallible_inl & Hex); [|by apply fail_named_inl in Hex].
    apply fbind_inl in Hex as (selected & Hc%infallible_inl & Hex).
    destruct selected as [[[[payload po]|]|e]|]; try done; try (by apply fail_named_inl in Hex).
    apply fbind_inl in Hex as (next & Hn & Hex).
    destruct (step_into_ok root cur _ _ next Hok Hpl Hn) as (Ht & Hok' & Hpl').
    apply check_variant_selected in Hc as (sh' & v' & Hsh & Hin & Hnm & -> & ->).
    unfold variant_shape, ty_def in Hsh. rewrite Hd in Hsh. injection Hsh as <-.
    assert (v' = vd) as ->.
    { unfold variant_named in Hvd.
      assert (vd ∈ filter (λ v, v_name v = r) (variants sh)) as [Hvr Hvin]%list_elem_of_filter.
      { destruct (filter _ (variants sh)) as [|x [|y l]]; try done. simplify_eq. by left. }
      assert (v_name v' = r) as Hr.
      { destruct (variants_named Hnames _ _ _ _ _ Hd Hin) as [H0 Hne].
        destruct (variants_named Hnames _ _ _ _ _ Hd Hvin) as [H0' _]. rewrite Hvr in H0'.
        unfold resolve_str in Hnm. apply outcome_bind_Ret in Hnm as (os & Hos & [= Ho]).
        destruct os as [s'|]; cbn in Ho; subst s; [by eapply strings_distinct|done]. }
      assert (v' ∈ filter (λ v, v_name v = r) (variants sh)) as Hf by (by apply list_elem_of_filter).
      destruct (filter _ (variants sh)) as [|x [|y l]]; try done. simplify_eq.
      by apply list_elem_of_singleton in Hf. }
    rewrite <- Ht in Hsel, Hd'. eapply IH; done.
Qed.
End routes.
