(* ===== verification/ChainTheorems.v ===== *)
(** What an await chain is, and what its hops may be believed to reach. *)

From S2P Require Import Prelude Text StringTable Target Symbols Schema BundleCheck TypeView TypeSizes DisplayResolve DisplayEval TaskGraph Discovery BundleDemo Value Elements ElementsFacts Pairing PairingTheorems Semantics Contract ContractFacts Chain MemoryDemo.

Local Open Scope Z_scope.

Section loop.
Context `{Demangler} {T : Type} `{!Target T} (cx : ChainCtx T) (read : ReadContext)
  (mode : InspectionMode).

(** The hop from a frame to the next, with its edge: the first future's
    continuation, run, is the second. *)
Definition hop_ok (i : nat) (f g : AwaitFrame) (e : ChainEdge) : Prop :=
  (∃ memo memo', continuation cx read (af_future f) memo
     = Ret (memo', (af_state f, NxNext (af_future g) (ce_selected e) (ce_exclusive e) (af_dyn_symbol g)))) ∧
  e = mkChainEdge (Z.of_nat i) (Z.of_nat i + 1) (ce_selected e) (ce_exclusive e)
        (value_key (af_future f)) (value_key (af_future g)).

(** Frames one hop apart, with no future met twice. *)
Record linked (root : Value) (fs : list AwaitFrame) (es : list ChainEdge) : Prop := mkLinked {
  ln_first : af_future <$> head fs = Some root;
  ln_nodup : NoDup (value_key ∘ af_future <$> fs);
  ln_edges : length fs = S (length es);
  ln_hops : ∀ i f g, fs !! i = Some f → fs !! S i = Some g → ∃ e, es !! i = Some e ∧ hop_ok i f g e
}.

(** Why the last frame is the last. *)
Definition ended (fs : list AwaitFrame) (f : AwaitFrame) (end_ : ChainEnd) : Prop :=
  if is_active_poll mode then end_ = EndActivePoll ∧ af_state f = None ∧ length fs = 1%nat
  else ∃ memo memo' next, continuation cx read (af_future f) memo = Ret (memo', (af_state f, next)) ∧
    match next with
    | NxEnd e => end_ = e
    | NxNext v _ _ _ =>
        if (length fs =? MAX_AWAIT_DEPTH)%nat then end_ = EndDepthLimit
        else value_key v ∈ (value_key ∘ af_future <$> fs) ∧ end_ = EndCycle (val_addr v)
    end.

Lemma linked_snoc root fs es f g e :
  linked root fs es → last fs = Some f → hop_ok (length es) f g e →
  value_key (af_future g) ∉ (value_key ∘ af_future <$> fs) → linked root (fs ++ [g]) (es ++ [e]).
Proof.
  intros [Hr Hn Hl Hh] Hf He Hg. split.
  - by destruct fs.
  - rewrite fmap_app. apply NoDup_app. split; [done|]. split; [|apply NoDup_singleton].
    intros x Hx Hx'. cbn in Hx'. apply list_elem_of_singleton in Hx'. by subst x.
  - rewrite !length_app. cbn. lia.
  - intros i a c Ha Hc. destruct (decide (S i = length fs)) as [E|E].
    + rewrite list_lookup_middle in Hc by done. injection Hc as <-.
      rewrite lookup_app_l in Ha by lia. rewrite last_lookup in Hf. rewrite <- E in Hf. cbn in Hf.
      rewrite Ha in Hf. injection Hf as ->. exists e.
      assert (i = length es) as -> by lia. by rewrite list_lookup_middle by done.
    + assert (S i < length fs)%nat by (apply lookup_lt_Some in Hc; rewrite length_app in Hc; cbn in Hc; lia).
      rewrite lookup_app_l in Ha, Hc by lia. destruct (Hh i a c Ha Hc) as (e' & He' & Hok).
      exists e'. rewrite lookup_app_l by (apply lookup_lt_Some in He'; lia). done.
Qed.

(** The chain of a loop that stopped. *)
Definition chain_ok (root : Value) (c : AwaitChain) : Prop :=
  (length (frames c) <= MAX_AWAIT_DEPTH)%nat ∧ linked root (frames c) (chain_edges c) ∧
  ∃ f, last (frames c) = Some f ∧ ended (frames c) f (chain_end c).

(** What the loop has when it comes to a value: nothing, or frames whose last one
    continues at it. *)
Definition reached (root : Value) (fs : list AwaitFrame) (es : list ChainEdge) (cur : Value)
    (dyn_symbol : option string) (pending : option ChainEdge) : Prop :=
  (fs = [] ∧ es = [] ∧ cur = root ∧ pending = None) ∨
  (is_active_poll mode = false ∧ linked root fs es ∧
   ∃ f e, last fs = Some f ∧ pending = Some e ∧ hop_ok (length es) f (mkFrame cur None dyn_symbol) e).

Lemma reached_frame root fs es cur dyn_symbol pending st :
  reached root fs es cur dyn_symbol pending → value_key cur ∉ (value_key ∘ af_future <$> fs) →
  linked root (fs ++ [mkFrame cur st dyn_symbol])
    (es ++ match pending with Some e => [e] | None => [] end).
Proof.
  intros [(-> & -> & -> & ->)|(_ & Hl & f & e & Hf & -> & Hh)] Hn.
  - split; cbn; [done|apply NoDup_singleton|done|]. intros [|i] a c Ha Hc; done.
  - by apply (linked_snoc root fs es f (mkFrame cur st dyn_symbol) e).
Qed.

Lemma inspect_loop_ok root depth : ∀ fs es visited cur dyn_symbol pending memo memo' c,
  (length fs + depth = MAX_AWAIT_DEPTH)%nat → (depth ≠ 0%nat ∨ fs ≠ []) →
  (∀ k, k ∈ visited ↔ k ∈ (value_key ∘ af_future <$> fs)) →
  reached root fs es cur dyn_symbol pending →
  inspect_loop cx read depth mode fs es visited cur dyn_symbol pending memo = Ret (memo', c) →
  chain_ok root c.
Proof.
  induction depth as [|depth IH]; intros fs es visited cur dyn_symbol pending memo memo' c Hd Hne Hv Hr Hc.
  - cbn in Hc. injection Hc as <- <-. destruct Hr as [(-> & _)|(Ha & Hl & f & e & Hf & -> & [Hh _])];
      [by destruct Hne|]. split; [cbn; lia|]. split; [done|]. exists f. split; [done|].
    unfold ended. rewrite Ha. destruct Hh as (m & m' & Hh). exists m, m'. eexists. split; [done|]. cbn.
    by rewrite (proj2 (Nat.eqb_eq _ _)) by lia.
  - cbn [inspect_loop] in Hc. case_bool_decide as Hin.
    { injection Hc as <- <-. apply Hv in Hin.
      destruct Hr as [(-> & _)|(Ha & Hl & f & e & Hf & -> & [Hh _])]; [by apply elem_of_nil in Hin|].
      split; [cbn; lia|]. split; [done|]. exists f. split; [done|]. unfold ended. rewrite Ha.
      destruct Hh as (m & m' & Hh). exists m, m'. eexists. split; [done|]. cbn.
      by rewrite (proj2 (Nat.eqb_neq _ _)) by lia. }
    assert (value_key cur ∉ (value_key ∘ af_future <$> fs)) as Hnew by (by rewrite <- Hv).
    destruct (is_active_poll mode) eqn:Ea.
    { injection Hc as <- <-. destruct Hr as [Hr|(Ha & _)]; [|congruence].
      split; [cbn [frames]; rewrite length_app; cbn; lia|]. split; [by eapply reached_frame; [left|]|].
      eexists. split; [apply last_snoc|]. unfold ended. rewrite Ea. by destruct Hr as [-> _]. }
    apply outcome_bind_Ret in Hc as ([m1 [st next]] & Hct & Hc).
    pose proof (reached_frame root fs es cur dyn_symbol pending st Hr Hnew) as Hl.
    destruct next as [v sel ex sym|end_].
    + refine (IH _ _ _ _ _ _ _ _ _ _ _ _ _ Hc).
      * rewrite length_app. cbn. lia.
      * right. by destruct fs.
      * intros k. rewrite fmap_app, elem_of_app, elem_of_cons, Hv. cbn.
        rewrite list_elem_of_singleton. tauto.
      * right. split; [done|]. split; [done|]. eexists _, _. split; [apply last_snoc|]. split; [done|].
        pose proof (ln_edges _ _ _ Hl) as Hlen. rewrite length_app in Hlen. cbn in Hlen.
        unfold MAX_AWAIT_DEPTH in Hd. assert (length fs = length (es ++ match pending with Some e => [e] | None => [] end))
          as Hfe by lia. split; cbn.
        -- exists memo, m1. exact Hct.
        -- rewrite <- Hfe. unfold as_u32.
           rewrite (Z.mod_small (Z.of_nat (length fs))) by lia.
           by rewrite Z.mod_small by lia.
    + injection Hc as <- <-. split; [cbn [frames]; rewrite length_app; cbn; lia|]. split; [done|].
      eexists. split; [apply last_snoc|]. unfold ended. rewrite Ea. exists memo, m1, (NxEnd end_).
      split; [exact Hct|done].
Qed.

(** The loop is bounded by its depth: it panics only where a continuation does. *)
Lemma inspect_loop_total depth : (∀ v memo, continuation cx read v memo ≠ Panic) →
  ∀ fs es visited cur dyn_symbol pending memo,
  inspect_loop cx read depth mode fs es visited cur dyn_symbol pending memo ≠ Panic.
Proof.
  intros Hc. induction depth as [|depth IH]; intros; cbn [inspect_loop]; [done|].
  case_bool_decide; [done|]. destruct (is_active_poll mode); [done|].
  specialize (Hc cur memo). destruct (continuation cx read cur memo) as [[m [st [v sel ex sym|e]]]|]; [|done|done].
  apply IH.
Qed.
End loop.

(** ** Hops *)

Lemma hop_bind_inl {A B} (m : hop A) (f : A → hop B) memo memo' r :
  hop_bind m f memo = Ret (memo', inl r) ↔
  ∃ m1 a, m memo = Ret (m1, inl a) ∧ f a m1 = Ret (memo', inl r).
Proof.
  unfold hop_bind. destruct (m memo) as [[m1 [a|e]]|].
  - split; [by exists m1, a|]. by intros (? & ? & [= <- <-] & ?).
  - split; [done|]. by intros (? & ? & ? & _).
  - split; [done|]. by intros (? & ? & ? & _).
Qed.
Lemma hop_pure_inl {A} (m : fallible ChainError A) memo memo' a :
  hop_pure m memo = Ret (memo', inl a) ↔ memo' = memo ∧ m = Ret (inl a).
Proof. unfold hop_pure. destruct m; cbn; split; intros; destruct_and?; by simplify_eq. Qed.
Lemma hop_pure_bind_inl {A B} (m : fallible ChainError A) (f : A → hop B) memo memo' r :
  hop_bind (hop_pure m) f memo = Ret (memo', inl r) ↔ ∃ a, m = Ret (inl a) ∧ f a memo = Ret (memo', inl r).
Proof. rewrite hop_bind_inl. setoid_rewrite hop_pure_inl. naive_solver. Qed.
Lemma ensure_inl {E} (c : bool) (e : E) u : ensure c e = Ret (inl u) ↔ c = true.
Proof. unfold ensure. destruct c, u; split; done. Qed.

Section dynamic.
Context `{Demangler} {T : Type} `{!Target T} (cx : ChainCtx T) (read : ReadContext).

(** One slot's evidence: the function its word points to, by the symbol there and
    what that joins. *)
Definition slot_says (vtable : Z) (slots : list (Slot * Z)) (e : SlotEvidence) : Prop :=
  ∃ index fn, (which e, index) ∈ slots ∧ vtable_word cx vtable index = Ret (inl fn) ∧ fn ≠ 0 ∧
    symbol_at cx fn = Some (se_symbol e) ∧ slot_lookup cx (which e) (se_symbol e) = Ret (se_lookup e) ∧
    se_lookup e ≠ Missing.

Lemma slot_says_weaken vtable s slots e : slot_says vtable slots e → slot_says vtable (s :: slots) e.
Proof. intros (i & fn & Hin & Hr). exists i, fn. split; [by right|done]. Qed.

Lemma collect_evidence_says vtable slots : ∀ evidence ps evidence' ps',
  collect_evidence cx vtable slots evidence ps = Ret (inl (evidence', ps')) →
  ∃ new, evidence' = evidence ++ new ∧ Forall (slot_says vtable slots) new.
Proof.
  induction slots as [|[w index] slots IH]; intros evidence ps evidence' ps' Hc; cbn [collect_evidence] in Hc.
  { injection Hc as <- <-. exists []. by rewrite app_nil_r. }
  apply fbind_inl in Hc as (fn & Hfn & Hc).
  assert (Hrest : ∀ ev q, collect_evidence cx vtable slots ev q = Ret (inl (evidence', ps')) →
    ∃ new, evidence' = ev ++ new ∧ Forall (slot_says vtable ((w, index) :: slots)) new).
  { intros ev q Hq. destruct (IH ev q evidence' ps' Hq) as (new & -> & Hn). exists new. split; [done|].
    eapply Forall_impl; [done|]. intros e. apply slot_says_weaken. }
  destruct (fn =? 0) eqn:E0; zb.
  { apply fbind_inl in Hc as (u & _ & Hc). by eapply Hrest. }
  destruct (symbol_at cx fn) as [s|] eqn:Es; [|by eapply Hrest].
  apply fbind_inl in Hc as (lookup & Hl%infallible_inl & Hc).
  destruct lookup as [|id|ids]; [by eapply Hrest| |].
  1,2: apply Hrest in Hc as (new & -> & Hn); rewrite <- app_assoc; cbn [app];
    eexists; split; [done|]; constructor; [|done];
    exists index, fn; split; [by left|done].
Qed.

(** The slot that leads: the poll's where there is its evidence. *)
Lemma lead_position_spec evidence lead e :
  lead_position evidence = Some lead → evidence !! lead = Some e →
  which e = POLL ∨ ∀ e', e' ∈ evidence → which e' = DROP.
Proof.
  unfold lead_position. destruct (find_first _ _) as [[i e']|] eqn:Ef.
  - intros [= <-] He. apply find_first_Some in Ef as [Hin Hp]. cbn in Hp. case_bool_decide; [|done].
    left. apply list_elem_of_lookup in Hin as (k & Hk). apply lookup_zip_Some in Hk as [Hk1 Hk2].
    apply lookup_seq in Hk1 as [-> _]. cbn in He. congruence.
  - intros Hl He. right. intros e' Hin. rewrite find_first_None in Ef.
    apply list_elem_of_lookup in Hin as (k & Hk). specialize (Ef (k, e')). cbn in Ef.
    destruct (which e') eqn:Ew; [|done]. exfalso. enough (bool_decide (POLL = POLL) = false) by done.
    apply Ef. apply list_elem_of_lookup. exists k. apply lookup_zip_Some. split; [|done].
    apply lookup_seq. split; [done|]. by apply lookup_lt_Some in Hk.
Qed.

Lemma read_dyn_resolved data vtable size id symbol v s :
  read_dyn cx read data vtable size id symbol = Ret (inl (DResolved v s)) →
  s = symbol ∧ val_ty v = id ∧ val_addr v = data ∧ ty_size (cc_bundle cx) id = Ret size ∧
  Z.of_nat (length (val_bytes v)) = size ∧
  (size ≠ 0 → refusal read data size = None ∧ read_bytes (cc_proc cx) data size = Ok (val_bytes v)).
Proof.
  unfold read_dyn. intros Hr. apply fbind_inl in Hr as (u & _ & Hr).
  apply fbind_inl in Hr as (layout & Hl%infallible_inl & Hr).
  assert (Hnamed : ∀ f : str → ChainError, named cx id f ≠ Ret (inl (DResolved v s))).
  { intros f. unfold named. by destruct (ty_name _ id). }
  destruct (layout =? size) eqn:El; cbn [negb] in Hr; [zb; subst layout|by apply Hnamed in Hr].
  destruct (size =? 0) eqn:E0; zb.
  { injection Hr as <- <-. subst size. done. }
  destruct (checked_add data size); [|done]. apply fbind_inl in Hr as (u' & _ & Hr).
  destruct (refusal read data size) eqn:Er; [by apply Hnamed in Hr|].
  destruct (value_read (cc_bundle cx) (cc_proc cx) id data) as [[w|e]|] eqn:Ev;
    [|by apply Hnamed in Hr|done].
  injection Hr as <- <-. unfold value_read in Ev. apply fbind_inl in Ev as (sz & Hsz%infallible_inl & Ev).
  rewrite Hl in Hsz. injection Hsz as <-. apply fbind_inl in Ev as (bs & Hbs & [= <-]). cbn.
  unfold target_read in Hbs. destruct (read_bytes _ data size) as [bs'|] eqn:Eb; [|done].
  injection Hbs as <-. pose proof (read_bytes_len _ _ _ _ Eb). done.
Qed.

(** Of the candidates a slot names, in order, the ones every other slot admits. *)
Definition narrows (lead : nat) (evidence : list SlotEvidence) (ids left : list BundleTypeId) : Prop :=
  left `sublist_of` ids ∧
  ∀ id, id ∈ left ↔ id ∈ ids ∧ ∀ e', e' ∈ trailing lead evidence → admits e' id = true.

(** The type resolved, of the leading slot's answer: the one it names outright; the one
    left of several; or, of several left, the one the pairing of crate hashes picks
    among them, which is remembered under the symbol alone, or, where a pick is
    remembered under it already, that one. *)
Inductive chosen_type (lead : nat) (evidence : list SlotEvidence) (e : SlotEvidence) (memo : Paired)
    : Paired → BundleTypeId → Prop :=
  | ct_unique id : se_lookup e = Unique id → chosen_type lead evidence e memo memo id
  | ct_one ids id : se_lookup e = SAmbiguous ids → narrows lead evidence ids [id] →
      chosen_type lead evidence e memo memo id
  | ct_picked ids left id : se_lookup e = SAmbiguous ids → narrows lead evidence ids left →
      (1 < length left)%nat → memo !! se_symbol e = None → id ∈ left →
      select (cc_bundle cx) (cc_tables cx) (cc_pairing cx) (bytes_of_string (se_symbol e)) left = Ret (Some id) →
      chosen_type lead evidence e memo (<[se_symbol e := Some id]> memo) id
  | ct_remembered ids left id : se_lookup e = SAmbiguous ids → narrows lead evidence ids left →
      (1 < length left)%nat → memo !! se_symbol e = Some (Some id) →
      chosen_type lead evidence e memo memo id.

Lemma narrowed_narrows lead evidence ids : narrows lead evidence ids (narrowed lead evidence ids).
Proof.
  split; [apply sublist_filter|]. intros id. unfold narrowed. rewrite list_elem_of_filter, forallb_forall.
  setoid_rewrite list_elem_of_In. tauto.
Qed.

Lemma choose_named lead evidence e memo memo' id :
  choose cx lead evidence e memo = Ret (memo', Named_ id) → chosen_type lead evidence e memo memo' id.
Proof.
  unfold choose. destruct (se_lookup e) as [|u|ids] eqn:El; [done|by intros [= <- ->]; apply ct_unique|].
  pose proof (narrowed_narrows lead evidence ids) as Hn. revert Hn.
  destruct (narrowed lead evidence ids) as [|x [|y l]]; intros Hn ([m paired] & Hp & [= -> Hc])%outcome_bind_Ret.
  - by injection Hp as _ <-.
  - injection Hp as <- _. subst x. by eapply ct_one.
  - destruct paired as [ch|]; [|done]. injection Hc as ->. unfold paired_candidate in Hp.
    destruct (memo !! se_symbol e) as [hit|] eqn:Em.
    + injection Hp as <- ->. eapply ct_remembered; [done..|cbn; lia|done].
    + apply outcome_bind_Ret in Hp as (v & Hs & [= <- ->]).
      eapply ct_picked; [done..|cbn; lia|done| |done].
      by apply select_spec in Hs as (d & k & t & w & _ & _ & _ & _ & _ & ? & _).
Qed.
End dynamic.

(** C17: an inspection ends, whatever the chain: it panics only where a
    continuation does.  Its chain starts at the root, has at most the depth limit of
    frames, and meets no future twice; each frame after the first is what the
    continuation of the one before it gave, and its edge names the two; and the end
    is the last frame's own - the poll in progress of a running task, whose root
    alone is kept, the end its continuation gave, a future already met, or the
    limit. *)
Theorem inspection_exact `{Demangler} {T} `{!Target T} (cx : ChainCtx T) read root mode memo :
  (∀ v m, continuation cx read v m ≠ Panic) →
  ∃ memo' c, inspect_chain cx read root mode memo = Ret (memo', c) ∧
    (0 < length (frames c) <= MAX_AWAIT_DEPTH)%nat ∧
    af_future <$> head (frames c) = Some root ∧ NoDup (referents c) ∧
    length (frames c) = S (length (chain_edges c)) ∧
    (∀ i f g, frames c !! i = Some f → frames c !! S i = Some g →
       ∃ e, chain_edges c !! i = Some e ∧ hop_ok cx read i f g e) ∧
    ∃ f, last (frames c) = Some f ∧ ended cx read mode (frames c) f (chain_end c).
Proof.
  intros Hc. destruct (inspect_chain cx read root mode memo) as [[memo' c]|] eqn:E.
  2: { exfalso. by eapply (inspect_loop_total cx read mode MAX_AWAIT_DEPTH Hc). }
  exists memo', c. split; [done|].
  destruct (inspect_loop_ok cx read mode root MAX_AWAIT_DEPTH [] [] [] root None None memo memo' c)
    as (Hlen & [H1 H2 H3 H4] & He); [done|by left|done|by left|done|].
  split; [|done]. split; [|done]. lia.
Qed.

(** C19: a trait object is resolved by what its vtable says.  The data pointer is
    aligned as the vtable's alignment word says and the type has the size its size
    word says, at that address, read whole unless it has no bytes; every piece of
    evidence is a slot's function symbol and what that joins; and the type is one
    the leading slot names - the poll's, where it says anything - outright, or the one
    candidate it names that every other slot admits; where several are left, it is the one
    of those that the pairing of crate hashes picks among them, which is then remembered
    under the leading symbol, or, where a pick is remembered under that symbol already,
    that pick, whatever candidates it was made among. *)
Theorem dynamic_ranked `{Demangler} {T} `{!Target T} (cx : ChainCtx T) read data vtable layout memo
    memo' v s :
  resolve_dynamic cx read data vtable layout memo = Ret (memo', inl (DResolved v s)) →
  let slots := match poll_slot layout with Some index => [(POLL, index)] | None => [] end
               ++ [(DROP, drop_slot layout)] in
  ∃ size align evidence lead e,
    vtable_word cx vtable (size_slot layout) = Ret (inl size) ∧
    vtable_word cx vtable (align_slot layout) = Ret (inl align) ∧
    is_power_of_two align = true ∧ data `mod` align = 0 ∧ data ≠ 0 ∧
    val_addr v = data ∧ ty_size (cc_bundle cx) (val_ty v) = Ret size ∧
    Z.of_nat (length (val_bytes v)) = size ∧
    (size ≠ 0 → refusal read data size = None ∧ read_bytes (cc_proc cx) data size = Ok (val_bytes v)) ∧
    Forall (slot_says cx vtable slots) evidence ∧ evidence !! lead = Some e ∧ se_symbol e = s ∧
    (which e = POLL ∨ ∀ e', e' ∈ evidence → which e' = DROP) ∧
    chosen_type cx lead evidence e memo memo' (val_ty v).
Proof.
  intros Hr slots. unfold resolve_dynamic in Hr.
  apply hop_pure_bind_inl in Hr as (u1 & _ & Hr).
  apply hop_pure_bind_inl in Hr as (u2 & Hd%ensure_inl & Hr).
  apply hop_pure_bind_inl in Hr as (size & Hsize & Hr).
  apply hop_pure_bind_inl in Hr as (align & Halign & Hr).
  apply hop_pure_bind_inl in Hr as (u3 & Hp%ensure_inl & Hr).
  apply hop_pure_bind_inl in Hr as (u4 & Hm%ensure_inl & Hr).
  apply hop_pure_bind_inl in Hr as ([evidence ps] & Hev & Hr). fold slots in Hev.
  apply collect_evidence_says in Hev as (new & Hnew & Hall). cbn [app] in Hnew. subst new.
  destruct (lead_position evidence) as [lead|] eqn:El.
  2: { apply hop_pure_inl in Hr as [_ Hr]. done. }
  destruct (evidence !! lead) as [e|] eqn:Ee; [|done].
  apply outcome_bind_Ret in Hr as ([m1 chosen] & Hch & Hr).
  destruct chosen as [id|candidates]; [|done]. apply hop_pure_inl in Hr as [-> Hr].
  apply read_dyn_resolved in Hr as (-> & <- & Haddr & Hsz & Hlen & Hread).
  exists size, align, evidence, lead, e. apply andb_true_iff in Hp as [_ Hp]. zb.
  repeat (split; [done|]). split; [by eapply lead_position_spec|].
  by apply choose_named.
Qed.

(** C20: a delegation whose path the validation of the bundle resolved never lands
    on another type than the one recorded: it reads the future at an address inside
    the value, or inside a pointee the allocator does not refuse, with the bytes
    memory holds there, or it ends the chain with the failure of its route. *)
Theorem validated_delegation_lands `{Demangler} {T} `{!Target T} (cx : ChainCtx T) read mem value path
    exclusive memo memo' next :
  (∀ a n bs, read_bytes (cc_proc cx) a n = Ok bs → bs = window mem a n) →
  names_distinct (cc_bundle cx) → view_ok (cc_bundle cx) mem value →
  selector_target (b_types (cc_bundle cx)) (val_ty value) (tp_steps path) = Some (tp_target path) →
  delegate cx read value (FTValue path) exclusive memo = Ret (memo', next) →
  memo' = memo ∧
  ((∃ v, next = NxNext v (FTValue path) exclusive None ∧ val_ty v = tp_target path ∧
      view_ok (cc_bundle cx) mem v ∧ placed read value v) ∨
   ∃ ty e, next = NxEnd (EndError (CeDelegating ty e)) ∧
     route cx read value (tp_steps path) = Ret (inr e)).
Proof.
  intros Hmem Hn Hv Hp Hd. unfold delegate in Hd. apply outcome_bind_Ret in Hd as (r & Hr & Hd).
  destruct r as [landed|e].
  - assert (val_ty landed = tp_target path ∧ view_ok (cc_bundle cx) mem landed ∧ placed read value landed)
      as (Ht & Hok & Hpl).
    { unfold route in Hr. apply fbind_inl in Hr as (w & Hw%map_err_inl & Hr).
      destruct w as [v|nm|]; [injection Hr as ->|unfold named in Hr; by destruct (ty_name _ (val_ty value))..].
      unfold selector_target, selector_target_with_policy in Hp.
      apply bind_Some in Hp as (def & Hdef & Hp). apply bind_Some in Hp as ([t o] & Hgo & Hp).
      cbn in Hp. injection Hp as <-.
      eapply execute_validated; [done|done|done|done| |done|done]. destruct Hv as (n & Hs & H0 & Hb).
      exists (val_addr value), (Z.of_nat (length (val_bytes value))). split; [by left|lia]. }
    rewrite (proj2 (Nat.eqb_eq _ _) Ht) in Hd. injection Hd as <- <-. split; [done|]. left. by exists landed.
  - apply outcome_bind_Ret in Hd as (nm & _ & [= <- <-]). split; [done|]. right. by exists nm, e.
Qed.

(** ** Witnesses *)

(** The crate [Node] in two releases, as the string table spells them: two types
    are declared by one and a third by the other, and the target's hash of it is
    paired with the first. *)
Definition demo_tables : ReleaseTables :=
  mkTables [mkReleaseSize 1 2 [(11, 8); (12, 16)]]
    (list_to_map [(0%nat, mkLabel 1 [11]); (2%nat, mkLabel 1 [11]); (5%nat, mkLabel 1 [12])]) ∅.
Definition demo_pairing : gmap (str * str) str :=
  {[(bytes_of_string "Node", bytes_of_string "a1") := bytes_of_string "idle"]}.
#[local] Instance demo_demangler : Demangler :=
  {| try_demangle := λ s, if bool_decide (s = bytes_of_string "poll")
       then Some (mkDemangled (bytes_of_string "Node[a1]::Fut::poll") (bytes_of_string "Node::Fut::poll"))
       else None |}.

(** Two nodes, each polled through the other's pointer. *)
Definition demo_ring_nodes : Flat := mkFlat 4096 (mjoin (to_le_bytes 8 <$> [4112; 1; 4096; 2])).
Definition demo_next : TypedPath := mkPath [Member (Named 2); Deref] 1%nat.
Definition demo_records : list TypeSemantics :=
  [mkSemantics 1%nat DeclaredMembers (Some (CtBound 0 (PDirect (Delegate (FTValue demo_next) true)))) None
     None None None None None None].
Definition demo_index : SemanticIndex := default [] (semantic_index 6 demo_records).
Definition demo_mappings : Mappings := [mkObject (Some "a.out"%string) 4096 4096 6].

Definition demo_cx (f : Flat) (dyn : SymbolTable BundleTypeId) : ChainCtx Flat :=
  mkChainCtx demo_bundle demo_records demo_index (mkInfra 0 0 0 0 0)%nat [] [] (mkSymbols ∅ ∅) dyn demo_mappings f
    demo_tables demo_pairing.

Definition demo_node_at (a : Z) (words : list Z) : Value := mkValue 1%nat a (mjoin (to_le_bytes 8 <$> words)).

Definition chain_demo : ChainCtx Flat := demo_cx demo_ring_nodes (mkSymbols ∅ ∅).
Example chain_demo_ends :
  (λ r : gmap string (option BundleTypeId) * AwaitChain, (referents r.2, chain_edges r.2, chain_end r.2)) <$>
    match inspect_chain chain_demo None (demo_node_at 4096 [4112; 1]) MHeld ∅ with
    | Ret r => Some r | Panic => None end
  = Some ([mkValueKey 4096 1%nat; mkValueKey 4112 1%nat],
          [mkChainEdge 0 1 (FTValue demo_next) true (mkValueKey 4096 1%nat) (mkValueKey 4112 1%nat)],
          EndCycle 4096).
Proof. vm_compute. reflexivity. Qed.

(** The demo's types are all named and sized. *)
Lemma demo_step_into_total f dyn cur ty size offset :
  ty_size (cc_bundle (demo_cx f dyn)) ty = Ret size → val_ty cur = 1%nat →
  step_into (cc_bundle (demo_cx f dyn)) cur ty offset ≠ Panic.
Proof.
  intros Hs Ht. unfold step_into. rewrite Hs. cbn [infallible fbind outcome_bind mbind].
  unfold step_slice, fail_named. rewrite Ht.
  destruct (checked_add offset size); [|done]. destruct (bytes_get _ _ _); [|done].
  cbn. by destruct (checked_add _ _).
Qed.

Lemma demo_deref_total f dyn cur : val_ty cur = 2%nat →
  step_deref (cc_bundle (demo_cx f dyn)) f None cur ≠ Panic.
Proof.
  intros Ht. unfold step_deref, fail_named, value_read, target_read. rewrite Ht. cbn.
  destruct (slice _ 0 8); [|done]. destruct (_ =? 0); [done|]. cbn.
  by destruct (flat_read f _ 16).
Qed.

Lemma fbind_total {E A B} (m : fallible E A) (f : A → fallible E B) :
  m ≠ Panic → (∀ a, m = Ret (inl a) → f a ≠ Panic) → fbind m f ≠ Panic.
Proof. destruct m as [[a|e]|]; cbn; intros; [by apply H0|done..]. Qed.

Lemma demo_route_total f dyn a bs :
  route (demo_cx f dyn) None (mkValue 1%nat a bs) (tp_steps demo_next) ≠ Panic.
Proof.
  unfold route. apply fbind_total; [|by intros [] _].
  enough (execute_steps (cc_bundle (demo_cx f dyn)) f None (tp_steps demo_next) (mkValue 1%nat a bs) ≠ Panic)
    as Hn by (revert Hn; cbn [cc_proc demo_cx]; by destruct (execute_steps _ _ _ _ _) as [[]|]).
  cbn [tp_steps demo_next execute_steps val_ty]. apply fbind_total; [done|].
  intros m [= <-]. apply fbind_total; [by apply (demo_step_into_total f dyn _ 2%nat 8)|].
  intros next Hn. apply fbind_total; [|by intros []].
  apply demo_deref_total. unfold step_into in Hn. apply fbind_inl in Hn as (? & _ & Hn).
  apply fbind_inl in Hn as (? & _ & Hn). destruct (checked_add _ _); [|done]. by injection Hn as <-.
Qed.

Lemma demo_route_lands f dyn a bs v :
  route (demo_cx f dyn) None (mkValue 1%nat a bs) (tp_steps demo_next) = Ret (inl v) → val_ty v = 1%nat.
Proof.
  unfold route. intros H. apply fbind_inl in H as (w & Hw%map_err_inl & H).
  cbn [tp_steps demo_next execute_steps val_ty] in Hw.
  apply fbind_inl in Hw as (o & [= <-] & Hw). apply fbind_inl in Hw as (next & Hn & Hw).
  apply fbind_inl in Hw as (p & Hp & Hw). destruct p as [p|]; injection Hw as <-; [|done].
  injection H as <-. unfold step_into in Hn. apply fbind_inl in Hn as (? & _ & Hn).
  apply fbind_inl in Hn as (? & _ & Hn). destruct (checked_add _ _); [|done]. injection Hn as <-.
  unfold step_deref, fail_named in Hp. cbn in Hp. destruct (slice _ 0 8); [|done].
  destruct (_ =? 0); [done|]. unfold value_read, target_read in Hp. cbn in Hp.
  destruct (flat_read f _ 16); [|done]. by injection Hp as <-.
Qed.

Lemma demo_continuation_total f dyn v m : continuation (demo_cx f dyn) None v m ≠ Panic.
Proof.
  destruct v as [ty a bs]. destruct ty as [|[|[|[|[|[|ty]]]]]]; try done.
  unfold continuation. set (r := semantics_of _ _). vm_compute in r. subst r.
  cbn [val_ty mbind outcome_bind ts_future run_action delegate].
  change [Member (Named 2%Z); Deref] with (tp_steps demo_next).
  pose proof (demo_route_total f dyn a bs) as Hr. pose proof (demo_route_lands f dyn a bs) as Hl.
  destruct (route _ _ _ _) as [[landed|e]|]; [|done|done]. cbn. by rewrite (Hl landed eq_refl).
Qed.

Lemma inspection_exact_witness :
  (∀ v m, continuation chain_demo None v m ≠ Panic) ∧
  ∃ memo' c, inspect_chain chain_demo None (demo_node_at 4096 [4112; 1]) MHeld ∅ = Ret (memo', c) ∧
    af_future <$> head (frames c) = Some (demo_node_at 4096 [4112; 1]) ∧ NoDup (referents c).
Proof.
  split; [apply demo_continuation_total|].
  destruct (inspection_exact chain_demo None (demo_node_at 4096 [4112; 1]) MHeld ∅)
    as (memo' & c & Hc & _ & Hh & Hn & _); [apply demo_continuation_total|].
  exists memo', c. done.
Defined.

Lemma demo_names_distinct : names_distinct demo_bundle.
Proof.
  assert (Forall is_str (bytes_of_string <$> demo_names)) as Hs by (repeat constructor).
  split.
  - intros r r' s H0 H0' Hr Hr'. cbn [demo_bundle b_strings] in *. unfold demo_strings in *.
    rewrite get_table_of in Hr, Hr' by done. injection Hr as Hr. injection Hr' as Hr'.
    assert (NoDup (bytes_of_string <$> demo_names)) as Hn.
    { apply (bool_decide_unpack _). vm_compute. exact I. }
    pose proof (NoDup_lookup _ _ _ _ Hn Hr Hr'). lia.
  - intros [|[|[|[|[|[|id]]]]]] nm size sh v; try done. intros [= <- <- <-] Hv.
    cbn in Hv. rewrite !elem_of_cons in Hv. destruct Hv as [->|[->|Hv%elem_of_nil]]; done.
Qed.

Lemma flat_reads_window f a n bs : read_bytes f a n = Ok bs → bs = window (flat_mem f) a n.
Proof. apply (reads_window _ _ _ (flat_sound f)). Qed.

Lemma validated_delegation_lands_witness :
  selector_target (b_types demo_bundle) 1%nat (tp_steps demo_next) = Some 1%nat ∧
  ∃ v, delegate chain_demo None (demo_node_at 4096 [4112; 1]) (FTValue demo_next) true ∅
         = Ret (∅, NxNext v (FTValue demo_next) true None) ∧ val_ty v = 1%nat ∧
    view_ok demo_bundle (flat_mem demo_ring_nodes) v.
Proof.
  split; [reflexivity|].
  destruct (delegate chain_demo None (demo_node_at 4096 [4112; 1]) (FTValue demo_next) true ∅)
    as [[memo' next]|] eqn:E; [|by vm_compute in E].
  destruct (validated_delegation_lands chain_demo None (flat_mem demo_ring_nodes) (demo_node_at 4096 [4112; 1])
    demo_next true ∅ memo' next) as [-> [(v & -> & Ht & Hok & _)|(ty & e & -> & _)]];
    [apply flat_reads_window|apply demo_names_distinct| |reflexivity|exact E| |].
  - exists 16. repeat split. by vm_compute.
  - by exists v.
  - by vm_compute in E.
Defined.

(** One poll function folded from three futures, and two vtables whose drop glue
    tells which two it may be. *)
Definition fold_words : list Z := [8192; 8; 8; 8200; 8208; 8; 8; 8200; 7; 9].
Definition fold_target : Flat :=
  mkLabelled 4096 (mjoin (to_le_bytes 8 <$> fold_words))
    [(8192, "drop_ac"); (8208, "drop_bc"); (8200, "poll")]%string.
Definition fold_table : SymbolTable BundleTypeId :=
  mkSymbols (list_to_map [(bytes_of_string "poll", [0; 2; 5]%nat); (bytes_of_string "drop_ac", [0; 5]%nat);
             (bytes_of_string "drop_bc", [2; 5]%nat)]) ∅.
Definition fold_layout : DynFutureLayout := mkDynLayout 0 demo_next demo_next 3%nat 0 1 2 (Some 3).
Definition fold_cx : ChainCtx Flat := demo_cx fold_target fold_table.

Definition resolved (r : outcome (gmap string (option BundleTypeId) * (Dyn + ChainError)))
    : option (gmap string (option BundleTypeId) * BundleTypeId) :=
  match r with Ret (memo, inl (DResolved v _)) => Some (memo, val_ty v) | _ => None end.

Example fold_first : resolved (resolve_dynamic fold_cx None 4160 4096 fold_layout ∅)
  = Some ({["poll"%string := Some 0%nat]}, 0%nat).
Proof. vm_compute. reflexivity. Qed.

Lemma dynamic_ranked_witness :
  ∃ v memo', resolve_dynamic fold_cx None 4160 4096 fold_layout ∅ = Ret (memo', inl (DResolved v "poll")) ∧
    val_addr v = 4160 ∧ read_bytes fold_target 4160 8 = Ok (val_bytes v).
Proof.
  destruct (resolve_dynamic fold_cx None 4160 4096 fold_layout ∅) as [[memo' [[v s| |]|]]|] eqn:E;
    try by vm_compute in E.
  pose proof E as Es. vm_compute in Es. injection Es as _ Ev Es.
  destruct (dynamic_ranked fold_cx None 4160 4096 fold_layout ∅ memo' v s)
    as (size & align & evidence & lead & e & Hsz & _ & _ & _ & _ & Ha & _ & _ & Hr & _);
    [exact E|].
  vm_compute in Hsz. injection Hsz as <-.
  exists v, memo'. rewrite <- Es. split; [done|]. split; [done|]. by apply Hr.
Defined.

(** The memo of paired candidates answers for other candidates than those it
    picked among.  It is keyed by the poll symbol, but picks among the candidates
    the drop glue of one vtable leaves: a second vtable of the same poll function,
    whose drop glue rules the first one's type out, is resolved to that type, which
    the memo remembers - and to another one with no memo. *)
Theorem pair_memo_unsound : ∃ (H : Demangler) (cx : ChainCtx Flat) layout data vtable data' vtable' memo first second symbol ids,
  resolved (resolve_dynamic cx None data vtable layout ∅) = Some (memo, first) ∧
  snd <$> resolved (resolve_dynamic cx None data' vtable' layout memo) = Some first ∧
  snd <$> resolved (resolve_dynamic cx None data' vtable' layout ∅) = Some second ∧
  first ≠ second ∧
  (∃ fn, vtable_word cx vtable' (drop_slot layout) = Ret (inl fn) ∧ symbol_at cx fn = Some symbol) ∧
  slot_lookup cx DROP symbol = Ret (SAmbiguous ids) ∧ second ∈ ids ∧ first ∉ ids.
Proof.
  exists demo_demangler, fold_cx, fold_layout, 4160, 4096, 4168, 4128, {["poll"%string := Some 0%nat]}, 0%nat, 2%nat,
    "drop_bc"%string, [2; 5]%nat.
  split; [vm_compute; reflexivity|]. split; [vm_compute; reflexivity|]. split; [vm_compute; reflexivity|].
  split; [done|]. split; [exists 8208; split; vm_compute; reflexivity|].
  split; [vm_compute; reflexivity|]. split; [by left|]. intros Hin.
  rewrite !elem_of_cons in Hin. destruct Hin as [?|[?|?%elem_of_nil]]; done.
Qed.
