(* ===== verification/TaskHeader.v ===== *)
(** A task's header, read out of the target ([Context] of
    [hansei-runtime/src/tokio/bundle.rs]): its words and the vtable they name, the
    future the vtable's functions join, the offsets held against the bundle's own
    layout, and the links of the list it is on.

    [Context] is the record of the await chains.  Its memo of vtables caches a pure
    read and is not seen.  An error keeps the parts its message is made of. *)

From S2P Require Import Prelude Text StringTable Target Symbols Schema BundleCheck TypeView DisplayResolve DisplayEval TaskGraph Discovery Value Elements Pairing Semantics Contract Chain.

Local Open Scope Z_scope.

(** ** Roles, by their place in the declaration order *)

Definition CurrentTaskId : Z := 0.
Definition WorkerHandle : Z := 2.
Definition CtWorkerHandle : Z := 3.
Definition HandleShared : Z := 9.
Definition OwnedLists : Z := 19.
Definition SchedulerOwnedId : Z := 20.
Definition ShardHead : Z := 21.
Definition HeaderState : Z := 22.
Definition HeaderOwnerId : Z := 23.
Definition HeaderVtable : Z := 24.
Definition TrailerNext : Z := 25.
Definition VtablePoll : Z := 26.
Definition VtableTrailerOffset : Z := 27.
Definition VtableIdOffset : Z := 28.
Definition VtableDealloc : Z := 29.
Definition VtableTryReadOutput : Z := 30.
Definition VtableDropJoinHandleSlow : Z := 31.
Definition VtableDropAbortHandle : Z := 32.
Definition VtableShutdown : Z := 33.
Definition VtableSpawnLocationOffset : Z := 34.
Definition LocationFile : Z := 35.
Definition LocationLine : Z := 36.
Definition LocationCol : Z := 37.
Definition CellTrailer : Z := 42.
Definition CellTaskId : Z := 43.
Definition LocalOwnedId : Z := 70.
Definition LocalOwnedHead : Z := 71.
Definition LocalSetOwner : Z := 72.

(** ** Source paths *)

Definition first_rest (sep s : str) : option str := snd <$> split_first sep s.

Definition SLASH : str := bytes_of_string "/".

(** The path inside a git checkout, [rest] what follows the checkouts directory. *)
Definition checkout_path (rest : str) : str :=
  match ('(checkout, tail) ← split_first SLASH rest;
         '(name, hash) ← rsplit (bytes_of_string "-") checkout;
         if Nat.eqb (length hash) 16 && forallb is_hexdigit hash
         then Some (name ++ SLASH ++ tail) else None) with
  | Some p => p
  | None => rest
  end.

(** The rules tried in order, each on the whole path. *)
Definition strip_build_prefix (path : str) : str :=
  if negb (starts_with SLASH path) then path
  else
    match (rest ← first_rest (bytes_of_string "/registry/src/") path; first_rest SLASH rest) with
    | Some rest => rest
    | None =>
    match first_rest (bytes_of_string "/git/checkouts/") path with
    | Some rest => checkout_path rest
    | None =>
    match (rest ← strip_prefix (bytes_of_string "/rustc/") path; first_rest SLASH rest) with
    | Some rest => rest
    | None =>
    match first_rest (bytes_of_string "/lib/rustlib/src/rust/") path with
    | Some rest => rest
    | None => default path (strip_prefix (bytes_of_string "/rust/deps/") path)
    end end end end.

(** ** Errors *)

Inductive TaskError :=
  | TkUnmappedHeader (addr : Z)
  | TkInfra (e : InfraError)
  | TkRefused (addr : Z) (r : Refusal)
  | TkRead (addr : Z) (e : Error)
  | TkRole (e : RoleError)
  | TkVtable (vtable : Z) (e : TaskError)
  | TkIdOverflow (addr id_offset : Z)
  | TkIdRead (addr id_offset : Z) (e : ErrorKind)
  | TkSpawnPointer (e : ErrorKind)
  | TkTrailerMismatch (future : BundleTypeId) (recorded found : Z)
  | TkIdMismatch (future : BundleTypeId) (recorded found : Z)
  | TkParse (e : Error)
  | TkUnmappedTask (addr : Z)
  | TkCycle (addr : Z)
  | TkLinks (e : TaskError).

Record TaskVtable := mkVtable {
  vt_poll : Z;
  vt_dealloc : option Z;
  vt_try_read_output : option Z;
  vt_drop_join_handle_slow : option Z;
  vt_drop_abort_handle : option Z;
  vt_shutdown : option Z;
  vt_trailer_offset : Z;
  vt_id_offset : Z;
  vt_spawn_location_offset : option Z
}.

Record HeaderIdentity := mkIdentity {
  id_state : TaskState;
  id_owner_id : option Z;
  id_task_id : option Z;
  id_vtable_addr : Z;
  id_vtable : TaskVtable
}.

Section header.
Context `{Demangler} {T : Type} `{!Target T} (cx : ChainCtx T).
Abbreviation b := (cc_bundle cx).
Abbreviation proc := (cc_proc cx).

(** [Bound::read], [try_read], [walk] and [walk_at], held to no allocator. *)
Definition role_read {V} (parser : Parser V) (role : WalkRole) (root : Value) : fallible TaskError V :=
  map_err TkRole (read_with b proc None parser role root).
Definition role_try_read {V} (parser : Parser V) (role : WalkRole) (root : Value)
    : fallible TaskError (option V) :=
  map_err TkRole (try_read_with b proc None parser role root).
Definition role_walk (role : WalkRole) (root : Value) : fallible TaskError Walked :=
  map_err TkRole (walk_with b proc None role root).
Definition role_walk_at (role : WalkRole) (root : Value) : fallible TaskError Value :=
  map_err TkRole (walk_at_with b proc None role root).

(** An infrastructure type's value at an address. *)
Definition infra_read (id : BundleTypeId) (addr : Z) : fallible TaskError Value :=
  ty ←! map_err TkInfra (infra_ty cx id);
  map_err (TkRead addr) (value_read b proc ty addr).

(** ** The vtable *)

Definition task_vtable (vtable_addr : Z) : fallible TaskError TaskVtable :=
  info ←! infra_read (if_vtable (cc_infra cx)) vtable_addr;
  poll ←! role_read (parse_unsigned 8) VtablePoll info;
  dealloc ←! role_try_read (parse_unsigned 8) VtableDealloc info;
  try_read_output ←! role_try_read (parse_unsigned 8) VtableTryReadOutput info;
  drop_join_handle_slow ←! role_try_read (parse_unsigned 8) VtableDropJoinHandleSlow info;
  drop_abort_handle ←! role_try_read (parse_unsigned 8) VtableDropAbortHandle info;
  shutdown ←! role_try_read (parse_unsigned 8) VtableShutdown info;
  trailer_offset ←! role_read (parse_unsigned 8) VtableTrailerOffset info;
  id_offset ←! role_read (parse_unsigned 8) VtableIdOffset info;
  spawn_location_offset ←! role_try_read (parse_unsigned 8) VtableSpawnLocationOffset info;
  succeed (mkVtable poll dealloc try_read_output drop_join_handle_slow drop_abort_handle shutdown
             trailer_offset id_offset spawn_location_offset).

(** ** The header *)

Definition header_identity (addr : Z) (read : ReadContext) : fallible TaskError HeaderIdentity :=
  _ ←! ensure (contains_addr (cc_mappings cx) addr) (TkUnmappedHeader addr);
  ty ←! map_err TkInfra (infra_ty cx (if_header (cc_infra cx)));
  size ←! infallible (ty_size b ty);
  match refusal read addr size with
  | Some r => throw (TkRefused addr r)
  | None =>
      header ←! map_err (TkRead addr) (value_read b proc ty addr);
      state ←! role_read (parse_unsigned 8) HeaderState header;
      owner_id ←! role_read (parse_option b (parse_unsigned 8)) HeaderOwnerId header;
      vtable_addr ←! role_read (parse_unsigned 8) HeaderVtable header;
      vtable ←! map_err (TkVtable vtable_addr) (task_vtable vtable_addr);
      match checked_add addr (vt_id_offset vtable) with
      | None => throw (TkIdOverflow addr (vt_id_offset vtable))
      | Some id_addr =>
          match read_u64 proc id_addr with
          | Err e => throw (TkIdRead addr (vt_id_offset vtable) e)
          | Ok raw_id =>
              succeed (mkIdentity state owner_id (if raw_id =? 0 then None else Some raw_id)
                         vtable_addr vtable)
          end
      end
  end.

(** ** The future *)

(** [BundleView::provenance], the place cut out of it. *)
Definition provenance_decl (id : Z) : outcome (option (string * Z)) :=
  match cc_provenance cx !! Z.to_nat id with
  | Some (mkProvenance (Some loc) _) =>
      file ← get (b_strings b) (loc_file loc);
      Ret match file with Some f => Some (string_of_bytes f, loc_line loc) | None => None end
  | _ => Ret None
  end.

(** An entry's future, under the symbol that named it. *)
Definition known_future (id : Z) (symbol : string) : outcome KnownFuture :=
  entry ← task_entry cx id;
  decl ← provenance_decl id;
  Ret (mkKnownFuture id (te_future entry)
         (match cc_provenance cx !! Z.to_nat id with Some p => pv_kind p | None => Manual end)
         decl symbol).

(** The futures of the entries a symbol names that the table has. *)
Definition entry_futures (ids : list Z) : list BundleTypeId :=
  omap (λ id, te_future <$> cc_entries cx !! Z.to_nat id) ids.

(** The loop over the vtable's functions, with the first ambiguity met. *)
Fixpoint resolve_loop (addrs : list Z) (ambiguous : option (string * list BundleTypeId))
    : outcome (option KnownFuture * option (string * list BundleTypeId)) :=
  match addrs with
  | [] => Ret (None, ambiguous)
  | addr :: addrs =>
      match symbol_at cx addr with
      | None => resolve_loop addrs ambiguous
      | Some symbol =>
          match lookup_id (cc_tasks cx) (bytes_of_string symbol) with
          | Unique id => k ← known_future id symbol; Ret (Some k, ambiguous)
          | SAmbiguous ids =>
              resolve_loop addrs
                (Some (match ambiguous with Some a => a | None => (symbol, entry_futures ids) end))
          | Missing => resolve_loop addrs ambiguous
          end
      end
  end.

(** The functions looked up, in order. *)
Definition vtable_functions (vt : TaskVtable) : list Z :=
  omap id [Some (vt_poll vt); vt_dealloc vt; vt_try_read_output vt; vt_drop_join_handle_slow vt;
           vt_drop_abort_handle vt; vt_shutdown vt].

Definition resolve_future (vt : TaskVtable) : outcome FutureInfo :=
  '(found, ambiguous) ← resolve_loop (vtable_functions vt) None;
  Ret match found, ambiguous with
      | Some k, _ => FKnown k
      | None, Some (symbol, candidates) => Ambiguous symbol candidates
      | None, None => FUnknown (symbol_at cx (vt_poll vt))
      end.

(** The offsets the bundle's own cell layout records, against the vtable's. *)
Definition cross_check_offsets (vt : TaskVtable) (known : KnownFuture) : fallible TaskError () :=
  entry ←! infallible (task_entry cx (kf_entry known));
  match ty_get (b_types b) (te_cell entry) with
  | None => succeed ()
  | Some _ =>
      trailer ←! infallible (member_offset b CellTrailer (te_cell entry));
      match trailer with
      | None => succeed ()
      | Some trailer =>
          _ ←! ensure (trailer =? vt_trailer_offset vt)
                 (TkTrailerMismatch (kf_future known) trailer (vt_trailer_offset vt));
          id ←! infallible (member_offset b CellTaskId (te_cell entry));
          match id with
          | None => succeed ()
          | Some id =>
              ensure (id =? vt_id_offset vt) (TkIdMismatch (kf_future known) id (vt_id_offset vt))
          end
      end
  end.

(** ** The spawn location *)

Definition read_location (loc_ptr : Z) : fallible TaskError Location :=
  info ←! infra_read (if_location (cc_infra cx)) loc_ptr;
  filename ←! role_read (parse_string b) LocationFile info;
  line ←! role_read (parse_unsigned 4) LocationLine info;
  col ←! role_read (parse_unsigned 4) LocationCol info;
  succeed (mkLocation (string_of_bytes (strip_build_prefix (bytes_of_string filename))) line col).

Definition spawn_location_of (addr : Z) (vt : TaskVtable) : fallible TaskError (option Location) :=
  match vt_spawn_location_offset vt with
  | None => succeed None
  | Some off =>
      match read_u64 proc (u64_add addr off) with
      | Err e => throw (TkSpawnPointer e)
      | Ok loc_ptr => loc ←! read_location loc_ptr; succeed (Some loc)
      end
  end.

Definition read_task_header (addr : Z) (read : ReadContext) : fallible TaskError DecodedTaskHeader :=
  identity ←! header_identity addr read;
  let vt := id_vtable identity in
  spawn_location ←! spawn_location_of addr vt;
  future ←! infallible (resolve_future vt);
  _ ←! match future with FKnown known => cross_check_offsets vt known | _ => succeed () end;
  succeed (mkHeader addr (id_state identity) (id_owner_id identity) (id_task_id identity) spawn_location
             (id_vtable_addr identity) (vt_trailer_offset vt) future).

(** ** The list's links, and the kind *)

Definition owned_next (trailer_addr : Z) : fallible TaskError (option Z) :=
  info ←! infra_read (if_trailer (cc_infra cx)) trailer_addr;
  w ←! role_walk TrailerNext info;
  match walked_optional w with
  | None => succeed None
  | Some ptr => next ←! map_err TkParse (parse b (parse_unsigned 8) proc ptr); succeed (Some next)
  end.

Definition header_class (h : DecodedTaskHeader) : outcome (option SchedulerClass) :=
  match h_future h with
  | FKnown known => entry ← task_entry cx (kf_entry known); Ret (te_scheduler entry)
  | _ => Ret None
  end.

Definition class_kind (class : SchedulerClass) : TaskKind :=
  match class with CBlocking => Blocking | CMultiThread | CCurrentThread | CLocalSet => Async end.

Definition header_kind (h : DecodedTaskHeader) : outcome (option TaskKind) :=
  class ← header_class h; Ret (option_map class_kind class).

Inductive UnlistedTaskKind := ULocalSet | UBlocking | UOtherRuntime (flavor : RuntimeFlavor).

Definition unlisted_kind (class : SchedulerClass) : UnlistedTaskKind :=
  match class with
  | CLocalSet => ULocalSet
  | CBlocking => UBlocking
  | CMultiThread => UOtherRuntime MultiThread
  | CCurrentThread => UOtherRuntime CurrentThread
  end.

Definition header_unlisted_kind (addr : Z) : outcome (option UnlistedTaskKind) :=
  identity ← header_identity addr None;
  match identity with
  | inr _ => Ret None
  | inl identity =>
      future ← resolve_future (id_vtable identity);
      match future with
      | FKnown known => entry ← task_entry cx (kf_entry known); Ret (option_map unlisted_kind (te_scheduler entry))
      | _ => Ret None
      end
  end.
End header.

Example build_prefixes :
  strip_build_prefix (bytes_of_string "/home/u/.cargo/registry/src/index.crates.io-1/tokio-1.0/src/lib.rs")
    = bytes_of_string "tokio-1.0/src/lib.rs" ∧
  strip_build_prefix (bytes_of_string "/w/git/checkouts/dropshot-0123456789abcdef/9a8b/src/a.rs")
    = bytes_of_string "dropshot/9a8b/src/a.rs" ∧
  strip_build_prefix (bytes_of_string "/rustc/9fc6/library/core/src/x.rs") = bytes_of_string "library/core/src/x.rs" ∧
  strip_build_prefix (bytes_of_string "src/main.rs") = bytes_of_string "src/main.rs".
Proof. repeat split. Qed.
