(* ===== verification/OwnedLists.v ===== *)
(** The owned-task lists ([Context::enumerate_owned], [walk_owned_list] and
    [enumerate_local] of [hansei-runtime/src/tokio/bundle.rs]): intrusive lists in
    the target, walked from their heads and filed with the record store.

    The set of visited headers guards against cycles; every turn of the loop adds a
    mapped address to it, so one turn more than there are mapped bytes is enough
    fuel.  The listing's errors are texts, as [describe] words them. *)

From S2P Require Import Prelude Text StringTable Target Symbols Schema BundleCheck TypeView DisplayResolve DisplayEval TaskGraph Discovery Work Value Elements Pairing Semantics Contract Chain TaskHeader.

Local Open Scope Z_scope.

(** Which list a walk is in, by its number or its set. *)
Inductive ListName := NShard (index : nat) | NLocalSet (shared : Z).

(** What a listing's errors say. *)
Inductive ListError :=
  | LeNode (what : ListName) (addr : Z) (e : TaskError)
  | LeNoOwnedId (owner : OwnerKey).

(** Why an enumeration stopped. *)
Inductive EnumError :=
  | EeRole (e : TaskError)
  | EeShards (e : Error)
  | EeTruncated (claimed readable : Z)
  | EeHead (e : Error).

Record RuntimeRef := mkRuntimeRef {
  rr_flavor : RuntimeFlavor;
  rr_handle : Value;
  rr_owned_id : option Z;
  rr_worker_tids : list Z;
  rr_route : DiscoveryRoute
}.
Record LocalSetRef := mkLocalSetRef {
  ls_shared : Value;
  ls_owned_id : Z;
  ls_owner : option Z;
  ls_owner_tid : option Z;
  ls_route : DiscoveryRoute
}.

Definition runtime_key (r : RuntimeRef) : OwnerKey := Runtime (rr_flavor r) (val_addr (rr_handle r)).
Definition local_set_key (s : LocalSetRef) : OwnerKey := LocalSet (val_addr (ls_shared s)).

(** [list.errors.push]. *)
Definition push_error (l : TaskList) (e : string) : TaskList :=
  mkTaskList (tasks l) (errors l ++ [e]) (tl_records l).

(** The bytes a target maps. *)
Definition mapped_bytes (m : Mappings) : nat := foldr (λ o n, (Z.to_nat (Target.size o) + n)%nat) 0%nat m.

Section lists.
Context `{Demangler} {T : Type} `{!Target T} (cx : ChainCtx T) (describe : ListError → string).
Abbreviation b := (cc_bundle cx).
Abbreviation proc := (cc_proc cx).

(** ** One list *)

(** What a list's link to a task files: the observation, and the mismatch kept. *)
Definition listed (owner : OwnerKey) (head : Z) (owned_id : option Z) (h : DecodedTaskHeader)
    (kind : option TaskKind) : Observation :=
  mkObservation (OwnedList owner head) kind (list_claim owner head owned_id h).1.

Definition observe_listed (h : DecodedTaskHeader) (owner : OwnerKey) (head : Z) (owned_id : option Z)
    (l : TaskList) : outcome TaskList :=
  kind ← header_kind cx h;
  '(effect, s) ← observe (tl_records l) h (listed owner head owned_id h kind);
  match (list_claim owner head owned_id h).2 with
  | Some mismatch => s ← issue s (e_record effect) mismatch; Ret (with_records l s)
  | None => Ret (with_records l s)
  end.

(** One turn of the loop: the closure, which changes the visited set and the list. *)
Definition list_step (owner : OwnerKey) (head : Z) (owned_id : option Z) (addr : Z)
    (visited : gset Z) (l : TaskList) : outcome (gset Z * TaskList * (option Z + TaskError)) :=
  if negb (contains_addr (cc_mappings cx) addr) then Ret (visited, l, inr (TkUnmappedTask addr))
  else if bool_decide (addr ∈ visited) then Ret (visited, l, inr (TkCycle addr))
  else
    let visited := {[addr]} ∪ visited in
    h ← read_task_header cx addr None;
    match h with
    | inr e => Ret (visited, l, inr e)
    | inl h =>
        next ← owned_next cx (u64_add addr (h_trailer_offset h));
        match next with
        | inr e => Ret (visited, l, inr (TkLinks e))
        | inl next =>
            l ← observe_listed h owner head owned_id l;
            Ret (visited, l, inl next)
        end
    end.

Fixpoint walk_owned_loop (fuel : nat) (owner : OwnerKey) (head : Z) (owned_id : option Z)
    (what : ListName) (cur : option Z) (visited : gset Z) (l : TaskList)
    : outcome (gset Z * TaskList) :=
  match cur with
  | None => Ret (visited, l)
  | Some addr =>
      match fuel with
      | O => Panic
      | S fuel =>
          '(visited, l, step) ← list_step owner head owned_id addr visited l;
          match step with
          | inl next => walk_owned_loop fuel owner head owned_id what next visited l
          | inr e => Ret (visited, push_error l (describe (LeNode what addr e)))
          end
      end
  end.

Definition walk_owned_list (head : Z) (owner : OwnerKey) (owned_id : option Z) (visited : gset Z)
    (l : TaskList) (what : ListName) : outcome (gset Z * TaskList) :=
  walk_owned_loop (S (mapped_bytes (cc_mappings cx))) owner head owned_id what (Some head)
    visited l.

(** ** A runtime's shards *)

(** One shard: its head, or none where it is empty. *)
Definition shard_head (shard : Value) : fallible EnumError (option Z) :=
  w ←! map_err EeRole (role_walk cx ShardHead shard);
  match w with
  | At head => a ←! map_err EeHead (parse b (parse_unsigned 8) proc head); succeed (Some a)
  | Inactive _ | Null => succeed None
  end.

Fixpoint walk_shards (owner : OwnerKey) (owned_id : option Z) (index : nat) (shards : list Value)
    (visited : gset Z) (l : TaskList) : outcome (TaskList * (() + EnumError)) :=
  match shards with
  | [] => Ret (l, inl ())
  | shard :: shards =>
      head ← shard_head shard;
      match head with
      | inr e => Ret (l, inr e)
      | inl None => walk_shards owner owned_id (S index) shards visited l
      | inl (Some head) =>
          '(visited, l) ← walk_owned_list head owner owned_id visited l (NShard index);
          walk_shards owner owned_id (S index) shards visited l
      end
  end.

(** The shard array, whole. *)
Definition owned_shards (shared : Value) : fallible EnumError Value :=
  map_err EeRole (role_walk_at cx OwnedLists shared).
Definition shard_elements (lists : Value) : fallible EnumError Elements :=
  es ←! map_err EeShards (elements b proc lists);
  match el_claimed es with
  | Some claimed => throw (EeTruncated claimed (el_count es))
  | None => succeed es
  end.

Definition enumerate_owned (shared : Value) (owner : OwnerKey) (owned_id : option Z) (l : TaskList)
    : outcome (TaskList * (() + EnumError)) :=
  lists ← owned_shards shared;
  match lists with
  | inr e => Ret (l, inr e)
  | inl lists =>
      let l := match owned_id with
               | None => push_error l (describe (LeNoOwnedId owner))
               | Some _ => l
               end in
      es ← shard_elements lists;
      match es with
      | inr e => Ret (l, inr e)
      | inl es => walk_shards owner owned_id 0 (el_iter es) ∅ l
      end
  end.

Definition find_shared (r : RuntimeRef) : fallible EnumError Value :=
  map_err EeRole (role_walk_at cx HandleShared (rr_handle r)).

Fixpoint enumerate_runtimes (runtimes : list RuntimeRef) (l : TaskList)
    : outcome (TaskList * (() + EnumError)) :=
  match runtimes with
  | [] => Ret (l, inl ())
  | r :: runtimes =>
      shared ← find_shared r;
      match shared with
      | inr e => Ret (l, inr e)
      | inl shared =>
          '(l, done) ← enumerate_owned shared (runtime_key r) (rr_owned_id r) l;
          match done with
          | inr e => Ret (l, inr e)
          | inl _ => enumerate_runtimes runtimes l
          end
      end
  end.

Definition enumerate_all_tasks (runtimes : list RuntimeRef) : outcome (TaskList + EnumError) :=
  '(l, done) ← enumerate_runtimes runtimes (mkTaskList [] [] store_new);
  Ret match done with inl _ => inl (reproject l []) | inr e => inr e end.

(** ** A local set *)

Definition enumerate_local (set : LocalSetRef) (l : TaskList) : outcome (TaskList * (() + EnumError)) :=
  w ← role_walk cx LocalOwnedHead (ls_shared set);
  match w with
  | inr e => Ret (l, inr (EeRole e))
  | inl (At head) =>
      a ← parse b (parse_unsigned 8) proc head;
      match a with
      | inr e => Ret (l, inr (EeHead e))
      | inl a =>
          '(_, l) ← walk_owned_list a (local_set_key set) (Some (ls_owned_id set)) ∅ l
                      (NLocalSet (val_addr (ls_shared set)));
          Ret (l, inl ())
      end
  | inl (Inactive _ | Null) => Ret (l, inl ())
  end.

(** A [Shared] read as a set, by the route that found it. *)
Definition read_local_set (shared : Value) (tls_tid : option Z) (route : DiscoveryRoute)
    (thread_ids : list (Z * Z)) : fallible TaskError LocalSetRef :=
  owned_id ←! role_read cx (parse_unsigned 8) LocalOwnedId shared;
  owner ←! role_try_read cx (parse_unsigned 8) LocalSetOwner shared;
  let owner_tid :=
    match tls_tid with
    | Some tid => Some tid
    | None => o ← owner; snd <$> find_first (λ t, t.1 =? o) thread_ids
    end in
  succeed (mkLocalSetRef shared owned_id owner owner_tid route).

(** The claim of a task's cell on a set: the set is one already admitted, or is read
    and admitted when it claims the task back. *)
Definition local_set_claim (shared : Value) (owner_id : Z) (addr : Z) (route : DiscoveryRoute)
    (thread_ids : list (Z * Z)) (sets : list LocalSetRef)
    : fallible TaskError (list LocalSetRef * (OwnerKey + DiscoveryIssue)) :=
  let key := LocalSet (val_addr shared) in
  let mismatch expected := OwnerIdMismatch addr key expected (Some owner_id) in
  match find_first (λ set, val_addr (ls_shared set) =? val_addr shared) sets with
  | Some set =>
      succeed (sets, if ls_owned_id set =? owner_id then inl key else inr (mismatch (ls_owned_id set)))
  | None =>
      set ←! read_local_set shared None route thread_ids;
      if ls_owned_id set =? owner_id then succeed (sets ++ [set], inl key)
      else succeed (sets, inr (mismatch (ls_owned_id set)))
  end.
End lists.
