(* ===== verification/TaskDemo.v ===== *)
(** A runtime of two shards and three tasks, one list of which comes back on itself:
    what the witnesses of the task walks evaluate. *)

From S2P Require Import Prelude Text StringTable Target Symbols TaskGraph Discovery Work Schema BundleCheck TypeView DisplayResolve DisplayEval Value Elements Pairing Semantics Contract Chain TaskHeader OwnedLists MemoryDemo.

Local Open Scope Z_scope.

Definition task_names : list string :=
  ["u64"; "Option"; "Some"; "None"; "Header"; "state"; "owner"; "vtable"; "Vtable"; "poll"; "trailer"; "id";
   "Trailer"; "next"; "Shared"; "lists"; "Context"; "handle"; "Handle"; "shared"; "owned_id"; "task"]%string.
Definition task_strings : StringTable := table_of (bytes_of_string <$> task_names).

Definition task_types : list TypeDef :=
  [TBase 0 8 Unsigned;                                                                    (* 0: u64 *)
   TEnum 1 8 (mkShape (Some (mkDiscr 0 0%nat))
     [mkVariant 3 (Some [DValue 0]) (mkMember 3 0%nat 0) None None;
      mkVariant 2 None (mkMember 2 0%nat 0) None None]);                                  (* 1: Option *)
   TStruct 4 24 [mkMember 5 0%nat 0; mkMember 6 1%nat 8; mkMember 7 0%nat 16];            (* 2: Header *)
   TStruct 8 24 [mkMember 9 0%nat 0; mkMember 10 0%nat 8; mkMember 11 0%nat 16];          (* 3: Vtable *)
   TStruct 12 8 [mkMember 13 1%nat 0];                                                    (* 4: Trailer *)
   TArray 1%nat 2;                                                                        (* 5: [Option; 2] *)
   TStruct 14 24 [mkMember 15 5%nat 0; mkMember 20 0%nat 16];                             (* 6: Shared *)
   TStruct 16 16 [mkMember 17 8%nat 0; mkMember 21 1%nat 8];                              (* 7: Context *)
   TPointer None 9%nat;                                                                   (* 8: *Handle *)
   TStruct 18 24 [mkMember 19 6%nat 0]].                                                  (* 9: Handle *)

Definition task_walk (root : BundleTypeId) (steps : list Step) : WalkBinding :=
  mkBinding [root] steps (Bound 0 (Z.of_nat (length steps)) None).
Definition task_walks : list (Z * WalkBinding) :=
  [(CurrentTaskId, task_walk 7%nat [Member (Named 21)]);
   (WorkerHandle, task_walk 7%nat [Member (Named 17); Deref]);
   (HandleShared, task_walk 9%nat [Member (Named 19)]);
   (SchedulerOwnedId, task_walk 6%nat [Member (Named 20)]);
   (OwnedLists, task_walk 6%nat [Member (Named 15)]);
   (ShardHead, task_walk 1%nat [Variant 2]);
   (HeaderState, task_walk 2%nat [Member (Named 5)]);
   (HeaderOwnerId, task_walk 2%nat [Member (Named 6)]);
   (HeaderVtable, task_walk 2%nat [Member (Named 7)]);
   (TrailerNext, task_walk 4%nat [Member (Named 13); Variant 2]);
   (VtablePoll, task_walk 3%nat [Member (Named 9)]);
   (VtableTrailerOffset, task_walk 3%nat [Member (Named 10)]);
   (VtableIdOffset, task_walk 3%nat [Member (Named 11)])].

Definition task_bundle : Bundle := mkBundle task_strings (mkTypeTable task_types []) task_walks.

(** The shards' heads and their id, the vtable, then the tasks: the second links back
    to the first, and the third has another list's owner.  Last the contexts of three
    threads, two of which are in the runtime. *)
Definition task_memory : list Z :=
  [4144; 4224; 7;
   20480; 24; 32;
   204; 7; 4120; 4184; 1;
   204; 7; 4120; 4144; 2;
   204; 9; 4120; 0; 3;
   4096; 0;
   4096; 2;
   0; 0].
Definition task_proc : Flat := mkLabelled 4096 (mjoin (to_le_bytes 8 <$> task_memory)) [(20480, "poll_a"%string)].

Definition task_cx : ChainCtx Flat :=
  mkChainCtx task_bundle [] [] (mkInfra 2 3 4 7 0)%nat
    [mkTaskEntry 0 2 (Some CMultiThread)] [] (mkSymbols {[bytes_of_string "poll_a" := [0]]} ∅) (mkSymbols ∅ ∅)
    [mkObject (Some "a.out"%string) 4096 4096 6] task_proc (mkTables [] ∅ ∅) ∅.

Definition task_shared : Value := mkValue 6%nat 4096 (mjoin (to_le_bytes 8 <$> [4144; 4224; 7])).

#[export] Instance task_demangler : Demangler := {| try_demangle := λ _, None |}.

(** How the demo words a list's error. *)
Definition task_describe (e : ListError) : string :=
  match e with
  | LeNode _ _ (TkCycle _) => "cycle"
  | LeNode _ _ _ => "broken"
  | LeNoOwnedId _ => "no owned id"
  end%string.

Definition task_owner : OwnerKey := Runtime MultiThread 8192.
Definition task_empty : TaskList := mkTaskList [] [] store_new.
