(* ===== verification/OwnedListTheorems.v ===== *)
(** A runtime's shards swept: every link filed once, every broken list reported. *)

From S2P Require Import Prelude Text StringTable Target Symbols TaskGraph Discovery Work DiscoveryFacts WorkFacts Schema BundleCheck TypeView DisplayResolve DisplayEval Value Elements Pairing Semantics Contract ContractFacts Chain TaskHeader OwnedLists MemoryDemo TaskDemo.

Local Open Scope Z_scope.

(** ** Records *)

(** A diagnostic that is none of the standing conflicts changes nothing a record
    holds. *)
Lemma holds_issue r h hs os i :
  is_header_conflict i = false → is_owner_conflict i = false → (∀ a, i ≠ KindConflict a) →
  holds r h hs os → holds (add_issue r i) h hs os.
Proof.
  intros H1 H2 H3 [Hh Kn Kk Cn Cc Sn Ss Sl So Sr Hc Hk Ho]. split; try done.
  - rewrite <- Hc. unfold header_conflict, add_issue, push_new. cbn. case_bool_decide; [done|].
    rewrite existsb_app. cbn. by rewrite H1, !orb_false_r.
  - rewrite <- Hk. cbn. rewrite elem_of_push_new. split; [intros [?|E]; [done|by destruct (H3 (h_addr h))]|by left].
  - intros a ks. rewrite <- Ho. cbn. rewrite elem_of_push_new. split; [|by left].
    intros [?|E]; [done|]. by subst i.
Qed.

(** A record replaced by one that holds the same. *)
Lemma store_holds_updated s l id r r' :
  store_wf s → store_holds s l → records s !! id = Some r → record_addr r' = record_addr r →
  (∀ h hs os, holds r h hs os → holds r' h hs os) →
  store_wf (updated s id r' false) ∧ store_holds (updated s id r' false) l.
Proof.
  intros Hwf Hs Hr Ha Hh. split; [by eapply store_wf_updated|]. intros a. specialize (Hs a).
  destruct (at_addr a l) as [|[h o] es]; [done|]. destruct Hs as (id' & r0 & E & Hr0 & H0).
  destruct (decide (id' = id)) as [->|Hne].
  - rewrite Hr in Hr0. injection Hr0 as <-. exists id, r'. split; [done|]. split; [|by apply Hh].
    cbn. apply list_lookup_insert_eq. by eapply lookup_lt_Some.
  - exists id', r0. split; [done|]. split; [|done]. cbn. by rewrite list_lookup_insert_ne.
Qed.

Lemma observe_effect s h o e s' : store_wf s → observe s h o = Ret (e, s') → ∃ r, records s' !! e_record e = Some r.
Proof.
  intros Hwf Ho. assert (Hat : ∀ s0 id r e0 s1, records s0 !! id = Some r → observe_at s0 id o = Ret (e0, s1) →
    ∃ r', records s1 !! e_record e0 = Some r').
  { intros s0 id r e0 s1 Hr Hat. unfold observe_at, record in Hat. rewrite Hr in Hat. cbn [or_panic] in Hat.
    rewrite outcome_bind_eq in Hat. injection Hat as <- <-. cbn [e_record].
    assert (records (set_record s0 id (reconcile (merge r o))) !! id = Some (reconcile (merge r o))) as Hl.
    { cbn. apply list_lookup_insert_eq. by eapply lookup_lt_Some. }
    eexists. destruct (_ && _); exact Hl. }
  unfold observe in Ho. destruct (lookup_addr s (h_addr h)) as [id|] eqn:E.
  - apply Hwf in E as (r & Hr & _). unfold record in Ho. rewrite Hr in Ho. cbn [or_panic] in Ho.
    rewrite outcome_bind_eq in Ho.
    destruct (identity_conflict _ _) as [d|]; [|by eapply Hat].
    eapply (Hat _ _ (add_issue r (HeaderConflict (h_addr h) d))); [|done]. cbn.
    apply list_lookup_insert_eq. by eapply lookup_lt_Some.
  - apply outcome_bind_Ret in Ho as ([e0 s1] & Ho & [= <- <-]). cbn [e_record].
    eapply (Hat _ _ (record_new h)); [|done]. cbn. by rewrite list_lookup_middle.
Qed.

(** ** One link filed *)

Section walk.
Context `{Demangler} {T : Type} `{!Target T} (cx : ChainCtx T) (describe : ListError → string).
Context (owner : OwnerKey) (head : Z) (owned_id : option Z).

(** A header filed as the list's. *)
Definition filing (h : DecodedTaskHeader) (f : Filing) : Prop :=
  f.1 = h ∧ ∃ kind, header_kind cx h = Ret kind ∧ f.2 = listed owner head owned_id h kind.

Lemma observe_listed_ok l l0 h kind :
  store_wf (tl_records l) → store_holds (tl_records l) l0 → header_kind cx h = Ret kind →
  ∃ l', observe_listed cx h owner head owned_id l = Ret l' ∧ tasks l' = tasks l ∧ errors l' = errors l ∧
    store_wf (tl_records l') ∧ store_holds (tl_records l') (l0 ++ [(h, listed owner head owned_id h kind)]) ∧
    filed (tl_records l) (tl_records l').
Proof.
  intros Hwf Hs Hk. unfold observe_listed. rewrite Hk, outcome_bind_eq. cbn.
  set (o := listed owner head owned_id h kind).
  destruct (DiscoveryFacts.placed (tl_records l) h) as [[s1 id] r] eqn:Hp.
  destruct (observe_spec _ h o s1 id r Hwf Hp) as [e He].
  destruct (store_holds_snoc _ _ _ _ _ _ Hwf Hs He) as [Hwf' Hs']. rewrite He. cbn.
  set (s2 := updated s1 id _ _) in *.
  assert (filed (tl_records l) s2) as Hf by (apply rtc_once; by eapply files_observe).
  destruct ((list_claim owner head owned_id h).2) as [i|] eqn:Ei.
  2: { eexists. split; [done|]. repeat (split; [done|]). done. }
  destruct (observe_effect _ _ _ _ _ Hwf He) as (r2 & Hr2).
  rewrite (issue_spec _ _ i _ Hr2). cbn. eexists. split; [done|]. do 2 (split; [done|]). cbn [tl_records with_records].
  assert (∃ a k n f, i = OwnerIdMismatch a k n f) as (a & k & n & f & ->).
  { unfold list_claim in Ei. destruct owned_id; [|done]. case_bool_decide; [done|]. injection Ei as <-.
    by eexists _, _, _, _. }
  destruct (store_holds_updated s2 (l0 ++ [(h, o)]) (e_record e) r2
    (add_issue r2 (OwnerIdMismatch a k n f)) Hwf' Hs' Hr2 eq_refl) as [Hwf3 Hs3].
  { intros. by apply holds_issue. }
  split; [done|]. split; [done|]. eapply rtc_r; [exact Hf|]. eapply files_issue. by apply issue_spec.
Qed.

(** ** One walk *)

(** A header read off a link, and the link after it. *)
Record node (visited : gset Z) (addr : Z) (h : DecodedTaskHeader) (next : option Z) : Prop := {
  nd_mapped : contains_addr (cc_mappings cx) addr = true;
  nd_new : addr ∉ visited;
  nd_header : read_task_header cx addr None = Ret (inl h);
  nd_next : owned_next cx (u64_add addr (h_trailer_offset h)) = Ret (inl next)
}.

(** Why a link is not followed, and what the walk has visited then. *)
Inductive broken (visited : gset Z) (addr : Z) : TaskError → gset Z → Prop :=
  | br_unmapped : contains_addr (cc_mappings cx) addr = false →
      broken visited addr (TkUnmappedTask addr) visited
  | br_cycle : contains_addr (cc_mappings cx) addr = true → addr ∈ visited → broken visited addr (TkCycle addr) visited
  | br_header e : contains_addr (cc_mappings cx) addr = true → addr ∉ visited → read_task_header cx addr None = Ret (inr e) →
      broken visited addr e ({[addr]} ∪ visited)
  | br_links h e : contains_addr (cc_mappings cx) addr = true → addr ∉ visited → read_task_header cx addr None = Ret (inl h) →
      owned_next cx (u64_add addr (h_trailer_offset h)) = Ret (inr e) →
      broken visited addr (TkLinks e) ({[addr]} ∪ visited).

(** The links of a list, in order, to its end or to one that is not followed. *)
Inductive owned_run : gset Z → option Z → list DecodedTaskHeader → option (Z * TaskError) → gset Z → Prop :=
  | run_end visited : owned_run visited None [] None visited
  | run_node visited addr h next hs stop visited' :
      node visited addr h next → owned_run ({[addr]} ∪ visited) next hs stop visited' →
      owned_run visited (Some addr) (h :: hs) stop visited'
  | run_broken visited addr e visited' :
      broken visited addr e visited' → owned_run visited (Some addr) [] (Some (addr, e)) visited'.

Lemma read_header_addr addr h : read_task_header cx addr None = Ret (inl h) → h_addr h = addr.
Proof.
  unfold read_task_header. intros (i & _ & Hr)%fbind_inl. apply fbind_inl in Hr as (sp & _ & Hr).
  apply fbind_inl in Hr as (f & _ & Hr). apply fbind_inl in Hr as (u & _ & [= <-]). done.
Qed.

(** A future the vtable names is an entry of the table, so its kind is read. *)
Lemma known_future_entry id symbol k : known_future cx id symbol = Ret k →
  kf_entry k = id ∧ ∃ e, task_entry cx id = Ret e.
Proof.
  unfold known_future. intros (e & He & Hk)%outcome_bind_Ret. apply outcome_bind_Ret in Hk as (d & _ & [= <-]).
  split; [done|]. by exists e.
Qed.
Lemma resolve_loop_entry addrs : ∀ amb k amb', resolve_loop cx addrs amb = Ret (Some k, amb') →
  ∃ e, task_entry cx (kf_entry k) = Ret e.
Proof.
  induction addrs as [|a addrs IH]; intros amb k amb' Hr; cbn [resolve_loop] in Hr; [done|].
  destruct (symbol_at cx a) as [symbol|]; [|by eapply IH].
  destruct (lookup_id _ _) as [|id|ids]; [by eapply IH| |by eapply IH].
  apply outcome_bind_Ret in Hr as (k' & Hk & [= -> _]). by apply known_future_entry in Hk as [-> He].
Qed.
Lemma read_header_kind addr h : read_task_header cx addr None = Ret (inl h) →
  ∃ kind, header_kind cx h = Ret kind.
Proof.
  unfold read_task_header. intros (i & _ & Hr)%fbind_inl. apply fbind_inl in Hr as (sp & _ & Hr).
  apply fbind_inl in Hr as (f & Hf%infallible_inl & Hr). apply fbind_inl in Hr as (u & _ & [= <-]).
  unfold header_kind, header_class. cbn [h_future]. destruct f as [k|ps|sym cs]; [|by eexists..].
  unfold resolve_future in Hf. apply outcome_bind_Ret in Hf as ([found amb] & Hl & [= Hf]).
  destruct found as [k'|]; [|by destruct amb as [[]|]]. injection Hf as ->.
  apply resolve_loop_entry in Hl as (e & ->). by eexists.
Qed.

(** The headers of a run are at distinct mapped addresses, none visited before. *)
Lemma owned_run_fresh visited cur hs stop visited' : owned_run visited cur hs stop visited' →
  NoDup (h_addr <$> hs) ∧ visited ⊆ visited' ∧
  ∀ h, h ∈ hs → contains_addr (cc_mappings cx) (h_addr h) = true ∧ (h_addr h ∉ visited) ∧ h_addr h ∈ visited'.
Proof.
  induction 1 as [visited|visited addr h next hs stop visited' [Hm Hn Hh Ho] Hr (IHn & IHs & IH)|visited addr e visited' Hb].
  - split; [constructor|]. split; [done|]. intros h Hin. by apply elem_of_nil in Hin.
  - apply read_header_addr in Hh as Ha. cbn. rewrite Ha. split; [|split; [set_solver|]].
    + apply NoDup_cons. split; [|done]. intros (h' & E & Hin)%list_elem_of_fmap.
      destruct (IH h' Hin) as (_ & Hv & _). rewrite <- E in Hv. set_solver.
    + intros h' [->|Hin]%elem_of_cons; [rewrite Ha; repeat (split; [done|]); set_solver|].
      destruct (IH h' Hin) as (? & ? & ?). repeat split; [done|set_solver|done].
  - split; [constructor|]. split; [destruct Hb; set_solver|]. intros h Hin. by apply elem_of_nil in Hin.
Qed.

(** ** Termination *)

Definition mapped_set (m : Mappings) : gset Z :=
  list_to_set (mjoin ((λ o, seqZ (vaddr o) (Target.size o)) <$> m)).

Lemma contains_mapped m a : contains_addr m a = true → a ∈ mapped_set m.
Proof.
  unfold contains_addr, mappings_get. destruct (find_first _ m) as [o|] eqn:E; [|done]. intros _.
  apply find_first_Some in E as [Hin Hr]. apply range_contains_spec in Hr. cbn in Hr.
  unfold saturating_add in Hr. apply elem_of_list_to_set, list_elem_of_join.
  exists (seqZ (vaddr o) (Target.size o)). split; [apply elem_of_seqZ; lia|].
  apply list_elem_of_fmap. by exists o.
Qed.

Lemma mapped_size m : (base.size (mapped_set m) <= mapped_bytes m)%nat.
Proof.
  unfold mapped_set, mapped_bytes. induction m as [|o m IH]; [done|]. cbn [fmap list_fmap foldr].
  change (mjoin (?x :: ?y)) with (x ++ mjoin y). rewrite list_to_set_app_L.
  set (X := list_to_set (seqZ _ _) : gset Z). set (Y := list_to_set (mjoin _) : gset Z) in *.
  assert (base.size X = Z.to_nat (Target.size o)) as HX
    by (unfold X; rewrite size_list_to_set by apply NoDup_seqZ; by rewrite length_seqZ).
  assert (base.size (Y ∖ X) <= base.size Y)%nat by (apply subseteq_size; set_solver).
  rewrite size_union_alt. lia.
Qed.

Lemma mapped_less m (visited : gset Z) a : a ∈ mapped_set m → a ∉ visited →
  (base.size (mapped_set m ∖ ({[a]} ∪ visited)) < base.size (mapped_set m ∖ visited))%nat.
Proof. intros Hm Hv. apply subset_size. set_solver. Qed.

(** ** The walk *)

(** A link whose header or next link is not read: a string or a table the bundle lacks. *)
Definition panicking (addr : Z) : Prop :=
  read_task_header cx addr None = Panic ∨
  ∃ h, read_task_header cx addr None = Ret (inl h) ∧
    owned_next cx (u64_add addr (h_trailer_offset h)) = Panic.

(** What a walk leaves in a listing. *)
Record walk_filed (what : ListName) (l : TaskList) (l0 : list Filing) (hs : list DecodedTaskHeader)
    (stop : option (Z * TaskError)) (l' : TaskList) (fs : list Filing) : Prop := {
  wf_filings : Forall2 filing hs fs;
  wf_tasks : tasks l' = tasks l;
  wf_errors : errors l' = errors l ++
    match stop with None => [] | Some (a, e) => [describe (LeNode what a e)] end;
  wf_store : store_wf (tl_records l');
  wf_holds : store_holds (tl_records l') (l0 ++ fs);
  wf_filed : filed (tl_records l) (tl_records l')
}.

Lemma list_step_cases addr visited l :
  (∃ e v, broken visited addr e v ∧ list_step cx owner head owned_id addr visited l = Ret (v, l, inr e)) ∨
  (∃ h next, node visited addr h next ∧
     list_step cx owner head owned_id addr visited l =
       (l' ← observe_listed cx h owner head owned_id l; Ret ({[addr]} ∪ visited, l', inl next))) ∨
  (panicking addr ∧ list_step cx owner head owned_id addr visited l = Panic).
Proof.
  unfold list_step, panicking. destruct (contains_addr (cc_mappings cx) addr) eqn:Hc; cbn [negb].
  2: { left. eexists _, _. split; [by constructor|done]. }
  case_bool_decide as Hv; [left; eexists _, _; split; [by apply br_cycle|done]|].
  destruct (read_task_header cx addr None) as [[h|e]|] eqn:Eh; [| |by right; right; split; [left|]].
  2: { left. eexists _, _. split; [by apply br_header|done]. }
  rewrite outcome_bind_eq.
  destruct (owned_next cx _) as [[next|e]|] eqn:En; [| |right; right; split; [right; by exists h|done]].
  2: { left. eexists _, _. split; [by eapply br_links|done]. }
  right; left. exists h, next. done.
Qed.

Lemma walk_owned_loop_ok what fuel : ∀ cur visited l l0,
  (base.size (mapped_set (cc_mappings cx) ∖ visited) < fuel)%nat →
  store_wf (tl_records l) → store_holds (tl_records l) l0 →
  match walk_owned_loop cx describe fuel owner head owned_id what cur visited l with
  | Panic => ∃ addr, panicking addr
  | Ret (visited', l') =>
      ∃ hs stop fs, owned_run visited cur hs stop visited' ∧ walk_filed what l l0 hs stop l' fs
  end.
Proof.
  induction fuel as [|fuel IH]; intros cur visited l l0 Hm Hwf Hs; [lia|].
  destruct cur as [addr|]; cbn [walk_owned_loop].
  2: { exists [], None, []. split; [constructor|].
       split; rewrite ?app_nil_r; first [done|by constructor|apply rtc_refl]. }
  destruct (list_step_cases addr visited l) as [(e & v & Hb & ->)|[(h & next & Hnd & ->)|(Hp & ->)]]; [| |by exists addr].
  { cbn. exists [], (Some (addr, e)), []. split; [by constructor|].
    split; rewrite ?app_nil_r; first [done|by constructor|apply rtc_refl]. }
  destruct (read_header_kind addr h (nd_header _ _ _ _ Hnd)) as (kind & Hk).
  destruct (observe_listed_ok l l0 h kind Hwf Hs Hk) as (l1 & -> & Ht1 & He1 & Hwf1 & Hs1 & Hf1).
  rewrite !outcome_bind_eq.
  assert (base.size (mapped_set (cc_mappings cx) ∖ ({[addr]} ∪ visited)) < fuel)%nat as Hm1.
  { pose proof (mapped_less _ visited addr (contains_mapped _ _ (nd_mapped _ _ _ _ Hnd)) (nd_new _ _ _ _ Hnd)). lia. }
  specialize (IH next ({[addr]} ∪ visited) l1 _ Hm1 Hwf1 Hs1).
  destruct (walk_owned_loop _ _ _ _ _ _ _ _ _ _) as [[v' l']|]; [|done].
  destruct IH as (hs & stop & fs & Hr & [W1 W2 W3 W4 W5 W6]).
  exists (h :: hs), stop, ((h, listed owner head owned_id h kind) :: fs).
  split; [by econstructor|]. split; [|by rewrite W2|by rewrite W3, He1|done| |by etransitivity].
  - constructor; [|done]. split; [done|]. by exists kind.
  - by rewrite <- app_assoc in W5.
Qed.

Lemma walk_owned_list_ok what visited l l0 :
  store_wf (tl_records l) → store_holds (tl_records l) l0 →
  match walk_owned_list cx describe head owner owned_id visited l what with
  | Panic => ∃ addr, panicking addr
  | Ret (visited', l') =>
      ∃ hs stop fs, owned_run visited (Some head) hs stop visited' ∧ walk_filed what l l0 hs stop l' fs
  end.
Proof.
  intros Hwf Hs. apply walk_owned_loop_ok; [|done..].
  pose proof (mapped_size (cc_mappings cx)).
  assert (base.size (mapped_set (cc_mappings cx) ∖ visited) <= base.size (mapped_set (cc_mappings cx)))%nat
    by (apply subseteq_size; set_solver).
  lia.
Qed.
End walk.

Section shards.
Context `{Demangler} {T : Type} `{!Target T} (cx : ChainCtx T) (describe : ListError → string).
Context (owner : OwnerKey) (owned_id : option Z).

(** What one shard's list gave: its index and head, the headers read off its links,
    and the link it broke at. *)
Record Swept := mkSwept {
  sw_index : nat;
  sw_head : Z;
  sw_headers : list DecodedTaskHeader;
  sw_stop : option (Z * TaskError)
}.

(** The shards in order, each walked with what the ones before it visited, to the end
    or to a shard whose head is refused. *)
Inductive shards_run : nat → gset Z → list Value → list Swept → option EnumError → Prop :=
  | sr_end index visited : shards_run index visited [] [] None
  | sr_empty index visited shard shards sw stop :
      shard_head cx shard = Ret (inl None) → shards_run (S index) visited shards sw stop →
      shards_run index visited (shard :: shards) sw stop
  | sr_list index visited shard shards head hs broke visited' sw stop :
      shard_head cx shard = Ret (inl (Some head)) →
      owned_run cx visited (Some head) hs broke visited' →
      shards_run (S index) visited' shards sw stop →
      shards_run index visited (shard :: shards) (mkSwept index head hs broke :: sw) stop
  | sr_refused index visited shard shards e :
      shard_head cx shard = Ret (inr e) → shards_run index visited (shard :: shards) [] (Some e).

(** The headers of a sweep, in the order they are filed. *)
Definition swept_headers (sw : list Swept) : list DecodedTaskHeader := sw ≫= sw_headers.

(** The filings of a sweep: each header as its own list's. *)
Definition swept_filings (sw : list Swept) (fs : list Filing) : Prop :=
  ∃ fss, fs = mjoin fss ∧
    Forall2 (λ s fs, Forall2 (filing cx owner (sw_head s) owned_id) (sw_headers s) fs) sw fss.

(** The errors of a sweep: one for each broken list. *)
Definition swept_errors (sw : list Swept) : list string :=
  omap (λ s, (λ p : Z * TaskError, describe (LeNode (NShard (sw_index s)) p.1 p.2)) <$> sw_stop s) sw.

Lemma shards_run_fresh index visited shards sw stop : shards_run index visited shards sw stop →
  NoDup (h_addr <$> swept_headers sw) ∧
  ∀ h, h ∈ swept_headers sw → contains_addr (cc_mappings cx) (h_addr h) = true ∧ h_addr h ∉ visited.
Proof.
  induction 1 as [| |index visited shard shards head hs broke visited' sw stop Hh Hr Hs (IHn & IH)|].
  - split; [constructor|]. intros h Hin. by apply elem_of_nil in Hin.
  - done.
  - unfold swept_headers in *. cbn. destruct (owned_run_fresh _ _ _ _ _ _ Hr) as (Hn & Hsub & Hf).
    rewrite fmap_app. split.
    + apply NoDup_app. split; [done|]. split; [|done].
      intros a (h & -> & Hin)%list_elem_of_fmap (h' & E & Hin')%list_elem_of_fmap.
      destruct (Hf h Hin) as (_ & _ & Hv). destruct (IH h' Hin') as [_ Hv']. congruence.
    + intros h [Hin|Hin]%elem_of_app; [by destruct (Hf h Hin) as (? & ? & _)|].
      destruct (IH h Hin) as [? ?]. split; [done|set_solver].
  - split; [constructor|]. intros h Hin. by apply elem_of_nil in Hin.
Qed.

(** A listing after a sweep. *)
Record swept_into (l : TaskList) (l0 : list Filing) (sw : list Swept) (l' : TaskList) (fs : list Filing)
    : Prop := {
  si_filings : swept_filings sw fs;
  si_tasks : tasks l' = tasks l;
  si_errors : errors l' = errors l ++ swept_errors sw;
  si_wf : store_wf (tl_records l');
  si_holds : store_holds (tl_records l') (l0 ++ fs)
}.

Lemma swept_into_nil l l0 : store_wf (tl_records l) → store_holds (tl_records l) l0 →
  swept_into l l0 [] l [].
Proof. intros. split; rewrite ?app_nil_r; try done. by exists []. Qed.

Lemma walk_shards_ok shards : ∀ index visited l l0,
  store_wf (tl_records l) → store_holds (tl_records l) l0 →
  match walk_shards cx describe owner owned_id index shards visited l with
  | Panic => (∃ addr, panicking cx addr) ∨ ∃ shard, shard ∈ shards ∧ shard_head cx shard = Panic
  | Ret (l', done) => ∃ sw stop fs, shards_run index visited shards sw stop ∧
      done = match stop with None => inl () | Some e => inr e end ∧ swept_into l l0 sw l' fs
  end.
Proof.
  induction shards as [|shard shards IH]; intros index visited l l0 Hwf Hs; cbn [walk_shards].
  { exists [], None, []. split; [constructor|]. split; [done|by apply swept_into_nil]. }
  destruct (shard_head cx shard) as [[[head|]|e]|] eqn:Eh; [| | |right; exists shard; split; [left|done]].
  - rewrite outcome_bind_eq.
    pose proof (walk_owned_list_ok cx describe owner head owned_id (NShard index) visited l l0 Hwf Hs) as Hw.
    destruct (walk_owned_list _ _ _ _ _ _ _ _) as [[visited' l1]|]; [|by left]. rewrite outcome_bind_eq.
    destruct Hw as (hs & broke & fs & Hr & [W1 W2 W3 W4 W5 W6]).
    specialize (IH (S index) visited' l1 (l0 ++ fs) W4 W5).
    destruct (walk_shards _ _ _ _ _ _ _ _) as [[l' d]|].
    2: { destruct IH as [?|(sh & ? & ?)]; [by left|right]. exists sh. split; [by right|done]. }
    destruct IH as (sw & stop & fs' & Hrun & -> & [(fss & -> & HF) S2 S3 S4 S5]).
    eexists (mkSwept index head hs broke :: sw), stop, (fs ++ mjoin fss).
    split; [by econstructor|]. split; [done|]. split; [|by rewrite S2| |done|by rewrite app_assoc].
    + exists (fs :: fss). split; [done|]. by constructor.
    + rewrite S3, W3, <- app_assoc. f_equal. unfold swept_errors. cbn. by destruct broke as [[]|].
  - rewrite outcome_bind_eq. specialize (IH (S index) visited l l0 Hwf Hs).
    destruct (walk_shards _ _ _ _ _ _ _ _) as [[l' d]|].
    2: { destruct IH as [?|(sh & ? & ?)]; [by left|right]. exists sh. split; [by right|done]. }
    destruct IH as (sw & stop & fs & Hrun & -> & Hi). exists sw, stop, fs. split; [by constructor|done].
  - exists [], (Some e), []. split; [by constructor|]. split; [done|by apply swept_into_nil].
Qed.

(** Why a sweep panics: a read of the bundle's tables or of a value does. *)
Inductive sweep_panics (shared : Value) : Prop :=
  | sp_shards : owned_shards cx shared = Panic → sweep_panics shared
  | sp_elements lists : owned_shards cx shared = Ret (inl lists) → shard_elements cx lists = Panic → sweep_panics shared
  | sp_head lists es shard : owned_shards cx shared = Ret (inl lists) → shard_elements cx lists = Ret (inl es) →
      shard ∈ el_iter es → shard_head cx shard = Panic → sweep_panics shared
  | sp_link addr : panicking cx addr → sweep_panics shared.
End shards.

(** C10: the sweep of a runtime's owned lists ends, and what it leaves is exactly the
    lists' links: the shards are walked in order, each to its end or to its first link
    that is unmapped, visited before or unreadable; every header read is filed once,
    under its own list, with the claim its owner id makes; a broken list is reported
    once and ends only its own walk; only a refused shard ends the sweep; and a record
    listing that held the earlier filings holds these too. *)
Theorem owned_lists_exact `{Demangler} {T} `{!Target T} (cx : ChainCtx T) describe shared owner owned_id l l0 :
  store_wf (tl_records l) → store_holds (tl_records l) l0 →
  match enumerate_owned cx describe shared owner owned_id l with
  | Panic => sweep_panics cx shared
  | Ret (l', d) =>
      let l1 := match owned_id with None => push_error l (describe (LeNoOwnedId owner)) | Some _ => l end in
      (∃ e, owned_shards cx shared = Ret (inr e) ∧ l' = l ∧ d = inr e) ∨
      ∃ lists, owned_shards cx shared = Ret (inl lists) ∧
      ((∃ e, shard_elements cx lists = Ret (inr e) ∧ l' = l1 ∧ d = inr e) ∨
       ∃ es sw stop fs, shard_elements cx lists = Ret (inl es) ∧
         shards_run cx 0 ∅ (el_iter es) sw stop ∧
         d = match stop with None => inl () | Some e => inr e end ∧
         NoDup (h_addr <$> swept_headers sw) ∧ swept_into cx describe owner owned_id l1 l0 sw l' fs)
  end.
Proof.
  intros Hwf Hs. unfold enumerate_owned.
  destruct (owned_shards cx shared) as [[lists|e]|] eqn:El; [| |by apply sp_shards];
    rewrite outcome_bind_eq; [|left; by exists e].
  set (l1 := match owned_id with None => _ | Some _ => _ end).
  assert (store_wf (tl_records l1) ∧ store_holds (tl_records l1) l0) as [Hwf1 Hs1] by (by destruct owned_id).
  destruct (shard_elements cx lists) as [[es|e]|] eqn:Ee; [| |by eapply sp_elements];
    rewrite outcome_bind_eq.
  2: { right. exists lists. split; [done|]. left. by exists e. }
  pose proof (walk_shards_ok cx describe owner owned_id (el_iter es) 0 ∅ l1 l0 Hwf1 Hs1) as Hw.
  destruct (walk_shards _ _ _ _ _ _ _ _) as [[l' d]|].
  2: { destruct Hw as [[a Ha]|(sh & Hin & Hp)]; [by eapply sp_link|by eapply sp_head]. }
  destruct Hw as (sw & stop & fs & Hr & -> & Hi). right. exists lists. split; [done|]. right.
  exists es, sw, stop, fs. repeat (split; [done|]). split; [|done].
  by apply (shards_run_fresh cx) in Hr as [Hn _].
Qed.

(** ** A sweep of two lists *)

(** The first list comes back to its head; the second ends, its task another list's. *)
Example task_lists_swept :
  match enumerate_owned task_cx task_describe task_shared task_owner (Some 7) task_empty with
  | Ret (l, inl ()) =>
      errors l = ["cycle"%string] ∧ record_addr <$> records (tl_records l) = [4144; 4184; 4224] ∧
      issues <$> records (tl_records l) = [[]; []; [OwnerIdMismatch 4224 task_owner 7 (Some 9)]]
  | _ => False
  end.
Proof. vm_compute. repeat split. Qed.

Lemma owned_lists_exact_witness :
  match enumerate_owned task_cx task_describe task_shared task_owner (Some 7) task_empty with
  | Ret (l, inl ()) => ∃ sw fs,
      NoDup (h_addr <$> swept_headers sw) ∧ swept_into task_cx task_describe task_owner (Some 7) task_empty [] sw l fs
  | _ => False
  end.
Proof.
  assert (match enumerate_owned task_cx task_describe task_shared task_owner (Some 7) task_empty with
          | Ret (_, inl ()) => True | _ => False end) as Hr by (vm_compute; exact I).
  pose proof (owned_lists_exact task_cx task_describe task_shared task_owner (Some 7) task_empty []
    store_wf_new (store_holds_nil store_new eq_refl)) as Ht.
  destruct (enumerate_owned _ _ _ _ _ _) as [[l [[]|e]]|]; [|done..].
  destruct Ht as [(e & _ & _ & [=])|(lists & _ & [(e & _ & _ & [=])|(es & sw & stop & fs & _ & _ & _ & Hn & Hi)])].
  exists sw, fs. by split.
Defined.
