(* ===== verification/Runtimes.v ===== *)
(** The runtimes of a target ([hansei-runtime/src/tokio/bundle.rs]): the statics its
    symbol table locates, the threads that hold a context, the runtimes their contexts
    reach, and what a runtime says of its workers and its blocking pool.

    A memo of the source answers what it would compute again, the target being
    immutable, and is left out. *)

From S2P Require Import Prelude Text StringTable Target Symbols TaskGraph Discovery Work Schema BundleCheck TypeView DisplayResolve DisplayEval Value Elements Pairing Semantics Contract Chain TaskHeader OwnedLists.

Local Open Scope Z_scope.

(** ** The roles it walks by *)

Definition ContextThreadId : Z := 1.
Definition RoleWorkerContext : Z := 4.
Definition CtWorkerContext : Z := 5.
Definition WorkerIndex : Z := 6.
Definition CtWorkerCore : Z := 7.
Definition CtCoreDriver : Z := 8.
Definition SharedRemotes : Z := 10.
Definition RemoteUnpark : Z := 11.
Definition ParkerState : Z := 12.
Definition ParkerDriverLock : Z := 13.
Definition CtSharedWoken : Z := 14.
Definition BlockingMetrics : Z := 15.
Definition BlockingThreads : Z := 16.
Definition BlockingIdle : Z := 17.
Definition BlockingQueueDepth : Z := 18.
Definition LocalTlsCtx : Z := 73.
Definition LocalCtxShared : Z := 74.

(** ** Statics *)

Inductive StaticRole := TlsContextKey | TaskWakerVtable | TlsLocalSetKey | TlsThreadId.

#[global] Instance static_role_eq_dec : EqDecision StaticRole.
Proof. solve_decision. Defined.

Record StaticDef := mkStatic { sd_symbol : string; sd_display : string }.

Record Worker := mkWorker {
  wk_tid : Z;
  wk_context : Z;
  wk_task : option Z
}.

Record Fingerprint := mkFingerprint { fp_total : nat; fp_matched : nat; fp_missing : list string }.

Definition is_complete (f : Fingerprint) : bool := bool_decide (fp_missing f = []).

Inductive RuntimeError :=
  | RtNoStatic (role : StaticRole)
  | RtSymbols (e : ErrorKind)
  | RtAmbiguous (nm : string) (addrs : list Z)
  | RtNoSymbol (def : StaticDef)
  | RtTls (e : ErrorKind)
  | RtContext (tid : Z) (e : TaskError)
  | RtNoContext (tid : Z) (e : ErrorKind)
  | RtNoRuntime
  | RtRemotes (claimed readable : Z)
  | RtPark (e : TaskError)
  | RtAnchor (tid : Z) (e : TaskError)
  | RtTask (e : TaskError).

(** ** Park states *)

Inductive ParkState := Awake | Condvar | Driver | PNotified | UnknownPark (word : Z).

Definition park_from_word (word : Z) : ParkState :=
  if word =? 0 then Awake
  else if word =? 1 then Condvar
  else if word =? 2 then Driver
  else if word =? 3 then PNotified
  else UnknownPark word.

Record ParkStates := mkParkStates { ps_workers : list ParkState; driver_held : bool }.

Inductive CtActivity :=
  | CtParked | PollingBlockOn | PollingTask (id : Z) | BetweenPolls | DroppingTask (id : Z).

Record CtParkState := mkCtPark { woken : bool; activity : CtActivity }.

Record BlockingPool := mkPool { bp_threads : Z; bp_idle : Z; bp_queued : Z }.

(** ** Symbols by address *)

(** [BTreeMap::insert] of a symbol under its address: a later one replaces. *)
Fixpoint addr_insert (s : SymbolBuf) (l : list SymbolBuf) : list SymbolBuf :=
  match l with
  | [] => [s]
  | x :: l' =>
      if st_value s <? st_value x then s :: l
      else if st_value s =? st_value x then s :: l'
      else x :: addr_insert s l'
  end.

Definition by_address (symbols : list SymbolBuf) : list SymbolBuf :=
  foldl (λ l s, addr_insert s l) [] symbols.

Section runtimes.
Context `{Demangler} {T : Type} `{!Target T} (cx : ChainCtx T) (statics : list (StaticRole * StaticDef)).
Abbreviation b := (cc_bundle cx).
Abbreviation proc := (cc_proc cx).

Definition static_def (role : StaticRole) : option StaticDef :=
  snd <$> find_first (λ e, bool_decide (e.1 = role)) statics.

(** The symbols indexed under a normalized key, in the order they are indexed. *)
Definition key_of (s : SymbolBuf) : option str := normalized_v0_key (bytes_of_string (name s)).
Definition candidates_of (key : str) (symbols : list SymbolBuf) : list SymbolBuf :=
  filter (λ s, key_of s = Some key) symbols.

(** [Context::object_symbol]: the exact name first, then its normalized key. *)
Definition object_symbol (nm : string) : fallible RuntimeError (option SymbolBuf) :=
  match lookup_symbol_by_name proc nm with
  | Some symbol => succeed (Some symbol)
  | None =>
      match normalized_v0_key (bytes_of_string nm) with
      | None => succeed None
      | Some key =>
          match object_symbols proc with
          | Err e => throw (RtSymbols e)
          | Ok symbols =>
              match by_address (candidates_of key symbols) with
              | [] => succeed None
              | [symbol] => succeed (Some symbol)
              | symbols => throw (RtAmbiguous nm (st_value <$> symbols))
              end
          end
      end
  end.

(** [Context::object_symbol_addrs]: every address, sorted. *)
Definition object_symbol_addrs (nm : string) : fallible RuntimeError (list Z) :=
  match lookup_symbol_by_name proc nm with
  | Some symbol => succeed [st_value symbol]
  | None =>
      match normalized_v0_key (bytes_of_string nm) with
      | None => succeed []
      | Some key =>
          match object_symbols proc with
          | Err e => throw (RtSymbols e)
          | Ok symbols =>
              succeed (dedup_by Z.eqb (sort_by Z.leb (st_value <$> candidates_of key symbols)))
          end
      end
  end.

(** ** The fingerprint *)

(** The keys of a table; the chunks it is computed over make no difference to the set. *)
Definition normalized_key_set (symbols : list SymbolBuf) : gset str :=
  list_to_set (omap key_of symbols).

(** A symbol the target has under no spelling. *)
Definition key_missing (keys : gset str) (s : string) : bool :=
  match normalized_v0_key (bytes_of_string s) with
  | None => true
  | Some key => negb (bool_decide (key ∈ keys))
  end.

Definition validate_fingerprint (syms : list string) : Fingerprint :=
  let missing := filter (λ s, lookup_symbol_by_name proc s = None) syms in
  let missing :=
    if bool_decide (missing = []) then missing
    else
      match symbols proc with
      | Err _ => missing
      | Ok all =>
          let stripped : gset str :=
            list_to_set ((λ s, strip_llvm_suffix (bytes_of_string (name s))) <$> all) in
          let missing := filter (λ s, bytes_of_string s ∉ stripped) missing in
          if bool_decide (missing = []) then missing
          else filter (λ s, key_missing (normalized_key_set all) s = true) missing
      end in
  mkFingerprint (length syms) (length syms - length missing) missing.

(** ** Contexts *)

Definition tls_context_symbol : fallible RuntimeError SymbolBuf :=
  match static_def TlsContextKey with
  | None => throw (RtNoStatic TlsContextKey)
  | Some def =>
      symbol ←! object_symbol (sd_symbol def);
      ok_or_else symbol (RtNoSymbol def)
  end.

Definition context_info (addr : Z) : fallible TaskError Value :=
  infra_read cx (if_context (cc_infra cx)) addr.

Definition worker_at (tid context_addr : Z) : fallible TaskError Worker :=
  info ←! context_info context_addr;
  task ←! role_read cx (parse_option b (parse_unsigned 8)) CurrentTaskId info;
  succeed (mkWorker tid context_addr task).

(** The loop over the threads, with the first failure to resolve one. *)
Fixpoint worker_loop (sym : SymbolBuf) (lwps : list LwpInfo) (workers : list Worker)
    (failure : option (Z * ErrorKind)) : fallible RuntimeError (list Worker * option (Z * ErrorKind)) :=
  match lwps with
  | [] => succeed (workers, failure)
  | lwp :: lwps =>
      match tls_var_addr proc (regs lwp) sym with
      | Ok None => worker_loop sym lwps workers failure
      | Err e =>
          worker_loop sym lwps workers (match failure with Some f => Some f | None => Some (tid lwp, e) end)
      | Ok (Some addr) =>
          if negb (contains_addr (cc_mappings cx) addr) then worker_loop sym lwps workers failure
          else
            worker ←! map_err (RtContext (tid lwp)) (worker_at (tid lwp) addr);
            worker_loop sym lwps (workers ++ [worker]) failure
      end
  end.

(** The threads probed: every one but the agent. *)
Definition probed (lwps : list LwpInfo) : list LwpInfo :=
  filter (λ lwp, Some (tid lwp) ≠ agent_lwp proc) lwps.

Definition find_workers (lwps : list LwpInfo) : fallible RuntimeError (list Worker) :=
  sym ←! tls_context_symbol;
  '(workers, failure) ←! worker_loop sym (probed lwps) [] None;
  match workers, failure with
  | [], Some (tid, e) => throw (RtNoContext tid e)
  | _, _ => succeed workers
  end.

(** ** Runtimes *)

Definition role_try_walk (role : WalkRole) (root : Value) : fallible TaskError (option Walked) :=
  map_err TkRole (try_walk_with b proc None role root).

(** [try_walk(..)?.and_then(Walked::optional)]. *)
Definition role_try_at (role : WalkRole) (root : Value) : fallible TaskError (option Value) :=
  w ←! role_try_walk role root;
  succeed (w ← w; walked_optional w).

Definition flavor_handle (info : Value) : fallible TaskError (option (RuntimeFlavor * Value)) :=
  mt ←! role_try_walk WorkerHandle info;
  match mt with
  | Some (At handle) => succeed (Some (MultiThread, handle))
  | Some (Inactive _ | Null) | None =>
      ct ←! role_try_walk CtWorkerHandle info;
      match ct with
      | Some (At handle) => succeed (Some (CurrentThread, handle))
      | Some (Inactive _ | Null) | None => succeed None
      end
  end.

Definition owned_list_id (handle : Value) : fallible TaskError (option Z) :=
  shared ←! role_walk_at cx HandleShared handle;
  role_try_read cx (parse_unsigned 8) SchedulerOwnedId shared.

(** The position of the runtime a handle is of. *)
Definition runtime_at (runtimes : list RuntimeRef) (handle : Value) : option nat :=
  fst <$> list_find (λ r, val_addr (rr_handle r) = val_addr handle) runtimes.

Definition with_worker (r : RuntimeRef) (tid : Z) : RuntimeRef :=
  mkRuntimeRef (rr_flavor r) (rr_handle r) (rr_owned_id r) (rr_worker_tids r ++ [tid]) (rr_route r).

(** One worker's turn. *)
Definition runtime_step (runtimes : list RuntimeRef) (worker : Worker)
    : fallible TaskError (list RuntimeRef) :=
  info ←! context_info (wk_context worker);
  found ←! flavor_handle info;
  match found with
  | None => succeed runtimes
  | Some (flavor, handle) =>
      match runtime_at runtimes handle with
      | Some i => succeed (alter (λ r, with_worker r (wk_tid worker)) i runtimes)
      | None =>
          owned_id ←! owned_list_id handle;
          succeed (runtimes ++ [mkRuntimeRef flavor handle owned_id [wk_tid worker] WorkerContext])
      end
  end.

Fixpoint runtime_loop (workers : list Worker) (runtimes : list RuntimeRef)
    : fallible TaskError (list RuntimeRef) :=
  match workers with
  | [] => succeed runtimes
  | worker :: workers => runtimes ←! runtime_step runtimes worker; runtime_loop workers runtimes
  end.

Definition find_runtimes (workers : list Worker) : fallible RuntimeError (list RuntimeRef) :=
  runtimes ←! map_err RtTask (runtime_loop workers []);
  match runtimes with [] => throw RtNoRuntime | _ => succeed runtimes end.

Definition has_runtime_handle (worker : Worker) : fallible TaskError bool :=
  info ←! context_info (wk_context worker);
  found ←! flavor_handle info;
  succeed (match found with Some _ => true | None => false end).

(** ** Schedulers *)

Definition worker_context (worker : Worker) : fallible TaskError (option Value) :=
  info ←! context_info (wk_context worker); role_try_at RoleWorkerContext info.
Definition worker_index (worker_ctx : Value) : fallible TaskError Z :=
  role_read cx (parse_unsigned 8) WorkerIndex worker_ctx.
Definition ct_worker_context (worker : Worker) : fallible TaskError (option Value) :=
  info ←! context_info (wk_context worker); role_try_at CtWorkerContext info.

Definition ct_activity (core driver : option Value) (current_task_id : option Z) : CtActivity :=
  match core, driver, current_task_id with
  | None, _, None => BetweenPolls
  | None, _, Some id => DroppingTask id
  | Some _, Some _, None => PollingBlockOn
  | Some _, Some _, Some id => PollingTask id
  | Some _, None, _ => CtParked
  end.

Definition ct_park_state (handle ct_ctx : Value) (current_task_id : option Z) : fallible TaskError CtParkState :=
  woken ←! role_read cx parse_bool CtSharedWoken handle;
  w ←! role_walk cx CtWorkerCore ct_ctx;
  match walked_optional w with
  | None => succeed (mkCtPark woken (ct_activity None None current_task_id))
  | Some core =>
      d ←! role_walk cx CtCoreDriver core;
      succeed (mkCtPark woken (ct_activity (Some core) (walked_optional d) current_task_id))
  end.

(** The workers' parkers; the driver's lock is read of the first. *)
Fixpoint park_loop (remotes : list Value) (held : option bool)
    : fallible TaskError (list ParkState * option bool) :=
  match remotes with
  | [] => succeed ([], held)
  | remote :: remotes =>
      inner ←! role_walk_at cx RemoteUnpark remote;
      held ←! match held with
              | Some h => succeed (Some h)
              | None => h ←! role_read cx parse_bool ParkerDriverLock inner; succeed (Some h)
              end;
      state ←! role_read cx (parse_unsigned 8) ParkerState inner;
      '(states, held) ←! park_loop remotes held;
      succeed (park_from_word state :: states, held)
  end.

Definition park_states (handle : Value) : fallible RuntimeError ParkStates :=
  remotes ←! map_err RtTask (role_walk_at cx SharedRemotes handle);
  remotes ←! map_err (λ e, RtTask (TkParse e)) (elements b proc remotes);
  match el_claimed remotes with
  | Some claimed => throw (RtRemotes claimed (el_count remotes))
  | None =>
      '(workers, held) ←! map_err RtPark (park_loop (el_iter remotes) None);
      succeed (mkParkStates workers (default false held))
  end.

Definition blocking_pool (handle : Value) : fallible TaskError BlockingPool :=
  metrics ←! role_walk_at cx BlockingMetrics handle;
  threads ←! role_read cx (parse_unsigned 8) BlockingThreads metrics;
  idle ←! role_read cx (parse_unsigned 8) BlockingIdle metrics;
  queued ←! role_read cx (parse_unsigned 8) BlockingQueueDepth metrics;
  succeed (mkPool threads idle queued).

(** ** Thread ids and the local-set anchor *)

Definition worker_thread_id (worker : Worker) : fallible TaskError (option Z) :=
  info ←! context_info (wk_context worker);
  id ←! role_try_read cx (parse_option b (parse_unsigned 8)) ContextThreadId info;
  succeed (mjoin id).

Definition std_thread_id (lwp : LwpInfo) : fallible RuntimeError (option Z) :=
  match static_def TlsThreadId with
  | None => throw (RtNoStatic TlsThreadId)
  | Some def =>
      symbol ←! object_symbol (sd_symbol def);
      sym ←! ok_or_else symbol (RtNoSymbol def);
      match tls_word proc (regs lwp) sym with
      | Ok word => succeed word
      | Err e => throw (RtTls e)
      end
  end.

(** [Context::walk_root_ty]: the first root of a bound role that is in the table. *)
Definition walk_root_ty (role : WalkRole) : option BundleTypeId :=
  '(_, binding) ← find_first (λ e, e.1 =? role) (b_walks b);
  match wb_outcome binding with
  | Bound _ _ _ =>
      root ← head (roots binding);
      _ ← ty_get (b_types b) root;
      Some root
  | Absent _ | Broken _ => None
  end.

(** One thread's anchor: the set it is in the middle of polling. *)
Definition anchor_at (local_data_ty : BundleTypeId) (addr : Z) : fallible TaskError (option Value) :=
  data ←! map_err TkParse (value_read b proc local_data_ty addr);
  ptr ←! role_try_at LocalTlsCtx data;
  match ptr with
  | None => succeed None
  | Some ptr =>
      inner ←! map_err TkParse (deref_ptr b proc ptr);
      shared ←! role_walk_at cx LocalCtxShared inner;
      succeed (Some shared)
  end.

Fixpoint anchor_loop (ty : BundleTypeId) (sym : SymbolBuf) (lwps : list LwpInfo)
    : fallible RuntimeError (list (Z * Value)) :=
  match lwps with
  | [] => succeed []
  | lwp :: lwps =>
      match tls_var_addr proc (regs lwp) sym with
      | Ok (Some addr) =>
          if negb (contains_addr (cc_mappings cx) addr) then anchor_loop ty sym lwps
          else
            shared ←! map_err (RtAnchor (tid lwp)) (anchor_at ty addr);
            found ←! anchor_loop ty sym lwps;
            succeed (match shared with Some s => (tid lwp, s) :: found | None => found end)
      | Ok None | Err _ => anchor_loop ty sym lwps
      end
  end.

Definition local_tls_probe (lwps : list LwpInfo) : fallible RuntimeError (list (Z * Value)) :=
  match static_def TlsLocalSetKey with
  | None => succeed []
  | Some def =>
      match walk_root_ty LocalTlsCtx with
      | None => succeed []
      | Some ty =>
          sym ←! object_symbol (sd_symbol def);
          match sym with
          | None => succeed []
          | Some sym => anchor_loop ty sym lwps
          end
      end
  end.
End runtimes.
