(* ===== verification/RuntimeTheorems.v ===== *)
(** What the discovery of runtimes finds. *)

From S2P Require Import Prelude Text StringTable Target Symbols TaskGraph Discovery Work Schema BundleCheck TypeView DisplayResolve DisplayEval Value Elements Pairing Semantics Contract ContractFacts Chain TaskHeader OwnedLists Runtimes MemoryDemo TaskDemo.

Local Open Scope Z_scope.

(** ** Symbols by address *)

Lemma addr_insert_sorted s l :
  StronglySorted Z.lt (st_value <$> l) →
  StronglySorted Z.lt (st_value <$> addr_insert s l) ∧
  ∀ x, x ∈ addr_insert s l ↔ x = s ∨ x ∈ l ∧ st_value x ≠ st_value s.
Proof.
  induction l as [|y l IH]; cbn [addr_insert fmap list_fmap]; intros Hs.
  - split; [repeat constructor|]. intros x. rewrite list_elem_of_singleton. set_solver.
  - apply StronglySorted_inv in Hs as [Hs Hy]. rewrite Forall_forall in Hy.
    assert (Hlt : ∀ x, x ∈ l → st_value y < st_value x).
    { intros x Hx. apply Hy. by apply list_elem_of_fmap_2. }
    destruct (Z.ltb_spec (st_value s) (st_value y)) as [H1|H1]; cbn [fmap list_fmap].
    { split.
      - constructor; [by constructor; [|rewrite Forall_forall]|].
        rewrite Forall_forall. intros a [->|Ha]%elem_of_cons; [done|]. specialize (Hy a Ha). lia.
      - intros x. rewrite !elem_of_cons. split; [|tauto]. intros [->|[->|Hx]]; [by left|right..].
        + split; [by left|lia].
        + split; [by right|]. specialize (Hlt x Hx). lia. }
    destruct (Z.eqb_spec (st_value s) (st_value y)) as [E|E]; cbn [fmap list_fmap].
    { split.
      - constructor; [done|]. rewrite E. by rewrite Forall_forall.
      - intros x. rewrite !elem_of_cons. split.
        + intros [->|Hx]; [by left|right]. split; [by right|]. specialize (Hlt x Hx). lia.
        + intros [->|[[->|Hx] Hne]]; [by left|done|by right]. }
    destruct (IH Hs) as [IHs IHx]. split.
    + constructor; [done|]. rewrite Forall_forall. intros a (x & -> & [->|[Hx _]]%IHx)%list_elem_of_fmap; [lia|by apply Hlt].
    + intros x. rewrite !elem_of_cons, IHx. split; [|tauto]. intros [->|[->|?]]; [|tauto..].
      right. split; [by left|done].
Qed.

(** Each address once, ascending, with the last symbol at it. *)
Lemma by_address_exact symbols :
  StronglySorted Z.lt (st_value <$> by_address symbols) ∧
  ∀ s, s ∈ by_address symbols ↔ last (filter (λ x, st_value x = st_value s) symbols) = Some s.
Proof.
  unfold by_address. induction symbols as [|s l [IHs IH]] using rev_ind; cbn.
  { split; [constructor|]. intros s. rewrite elem_of_nil. split; [done|by intros]. }
  rewrite foldl_app. cbn [foldl].
  destruct (addr_insert_sorted s _ IHs) as [Hs Hx]. split; [done|]. intros x. rewrite Hx, IH, filter_app.
  destruct (decide (st_value s = st_value x)) as [E|E].
  - rewrite filter_cons_True by done. cbn. rewrite last_app. cbn.
    split; [intros [->|[_ ?]]; congruence|]. intros [= ->]. by left.
  - rewrite filter_cons_False by done. cbn. rewrite app_nil_r. split; [intros [->|[? _]]; done|].
    intros ?. right. split; [done|congruence].
Qed.

Section runtimes.
Context `{Demangler} {T : Type} `{!Target T} (cx : ChainCtx T) (statics : list (StaticRole * StaticDef)).
Abbreviation proc := (cc_proc cx).

(** What a worker's context reaches. *)
Definition reached (w : Worker) : fallible TaskError (option (RuntimeFlavor * Value)) :=
  info ←! context_info cx (wk_context w); flavor_handle cx info.

(** The workers that reach the handle at an address, and the handles they reach. *)
Definition at_handle (a : Z) (p : Worker * option (RuntimeFlavor * Value)) : option (Z * (RuntimeFlavor * Value)) :=
  match p.2 with
  | Some (f, h) => if val_addr h =? a then Some (wk_tid p.1, (f, h)) else None
  | None => None
  end.

Definition handle_addr (r : RuntimeRef) : Z := val_addr (rr_handle r).

(** Runtimes that are the workers', by the handles they reach: one per address, in the
    form the first worker reached it in, with the threads of all. *)
Record grouped (ps : list (Worker * option (RuntimeFlavor * Value))) (rs : list RuntimeRef) : Prop := {
  gr_distinct : NoDup (handle_addr <$> rs);
  gr_rows r : r ∈ rs → rr_route r = WorkerContext ∧ owned_list_id cx (rr_handle r) = Ret (inl (rr_owned_id r)) ∧
    ∃ tid rest, omap (at_handle (handle_addr r)) ps = (tid, (rr_flavor r, rr_handle r)) :: rest ∧
      rr_worker_tids r = tid :: rest.*1;
  gr_all p f h : p ∈ ps → p.2 = Some (f, h) → val_addr h ∈ handle_addr <$> rs
}.

Lemma runtime_at_Some rs h i : runtime_at rs h = Some i →
  ∃ r, rs !! i = Some r ∧ handle_addr r = val_addr h.
Proof.
  unfold runtime_at. intros ([j r] & (Hr & Hh & _)%list_find_Some & ->)%fmap_Some. by exists r.
Qed.
Lemma runtime_at_None rs h : runtime_at rs h = None → val_addr h ∉ handle_addr <$> rs.
Proof.
  unfold runtime_at. intros Hn%fmap_None%list_find_None. rewrite Forall_forall in Hn.
  intros (r & Hr & Hin)%list_elem_of_fmap. by apply (Hn r Hin).
Qed.

Lemma grouped_miss ps rs w : grouped ps rs → grouped (ps ++ [(w, None)]) rs.
Proof.
  intros [Hd Hr Ha]. split; [done| |].
  - intros r Hin. destruct (Hr r Hin) as (? & ? & tid & rest & Ho & ?). do 2 (split; [done|]).
    exists tid, rest. split; [|done]. rewrite omap_app, Ho. cbn. by rewrite app_nil_r.
  - intros p f h [Hp| ->%list_elem_of_singleton]%elem_of_app; [by eapply Ha|done].
Qed.

Lemma grouped_new ps rs w f h id :
  grouped ps rs → val_addr h ∉ handle_addr <$> rs → owned_list_id cx h = Ret (inl id) →
  grouped (ps ++ [(w, Some (f, h))]) (rs ++ [mkRuntimeRef f h id [wk_tid w] WorkerContext]).
Proof.
  intros [Hd Hr Ha] Hn Hid.
  assert (Hnone : omap (at_handle (val_addr h)) ps = []).
  { assert (∀ qs, (∀ p, p ∈ qs → p ∈ ps) → omap (at_handle (val_addr h)) qs = []) as Hq; [|by apply Hq].
    induction qs as [|p qs IH]; intros Hq; [done|]. cbn [omap list_omap]. unfold at_handle at 1.
    destruct p as [w' [[f' h']|]]; cbn [snd].
    2: { apply IH. intros p Hp. apply Hq. by right. }
    destruct (Z.eqb_spec (val_addr h') (val_addr h)) as [E|].
    { destruct Hn. rewrite <- E. eapply (Ha (w', Some (f', h'))); [apply Hq; by left|done]. }
    apply IH. intros p Hp. apply Hq. by right. }
  split.
  - rewrite fmap_app. apply NoDup_app. split; [done|]. split; [|apply NoDup_singleton].
    intros a Hin ->%list_elem_of_singleton. done.
  - intros r [Hin| ->%list_elem_of_singleton]%elem_of_app.
    + destruct (Hr r Hin) as (? & ? & tid & rest & Ho & ?). do 2 (split; [done|]). exists tid, rest.
      split; [|done]. rewrite omap_app, Ho. cbn.
      destruct (Z.eqb_spec (val_addr h) (handle_addr r)) as [E|]; [|by rewrite app_nil_r].
      destruct Hn. rewrite E. by apply list_elem_of_fmap_2.
    + do 2 (split; [done|]). exists (wk_tid w), []. split; [|done]. rewrite omap_app.
      unfold handle_addr. cbn [rr_handle]. rewrite Hnone. cbn. unfold at_handle. cbn. by rewrite Z.eqb_refl.
  - intros p f' h' [Hp| ->%list_elem_of_singleton]%elem_of_app E; rewrite fmap_app, elem_of_app.
    + left. by eapply Ha.
    + right. cbn in E. injection E as <- <-. by left.
Qed.

Lemma grouped_joined ps rs w f h i r :
  grouped ps rs → rs !! i = Some r → handle_addr r = val_addr h →
  grouped (ps ++ [(w, Some (f, h))]) (alter (λ r, with_worker r (wk_tid w)) i rs).
Proof.
  intros [Hd Hr Ha] Hi Hh.
  assert (Hf : handle_addr <$> alter (λ r, with_worker r (wk_tid w)) i rs = handle_addr <$> rs).
  { apply list_eq. intros j. rewrite !list_lookup_fmap. destruct (decide (i = j)) as [<-|?].
    - rewrite list_lookup_alter_eq, Hi. done.
    - by rewrite list_lookup_alter_ne. }
  split; rewrite ?Hf; [done| |].
  - intros x [j Hj]%list_elem_of_lookup.
    assert (∃ y, rs !! j = Some y ∧ x = if decide (i = j) then with_worker y (wk_tid w) else y) as (y & Hy & ->).
    { destruct (decide (i = j)) as [<-|Hne].
      - rewrite list_lookup_alter_eq, Hi in Hj. injection Hj as <-. by exists r.
      - rewrite list_lookup_alter_ne in Hj by done. by exists x. }
    destruct (Hr y) as (Hrt & Hid & tid & rest & Ho & Ht); [by eapply list_elem_of_lookup_2|].
    destruct (decide (i = j)) as [<-|Hne].
    + rewrite Hi in Hy. injection Hy as <-. do 2 (split; [done|]). exists tid, (rest ++ [(wk_tid w, (f, h))]).
      unfold handle_addr, with_worker in *. cbn [rr_handle rr_flavor rr_worker_tids].
      rewrite omap_app, Ho, Ht, fmap_app. cbn. unfold at_handle. cbn. rewrite Hh, Z.eqb_refl. done.
    + do 2 (split; [done|]). exists tid, rest. split; [|done]. rewrite omap_app, Ho. cbn.
      destruct (Z.eqb_spec (val_addr h) (handle_addr y)) as [E|]; [|by rewrite app_nil_r].
      destruct Hne. eapply (NoDup_lookup (handle_addr <$> rs)); [done| |].
      * by rewrite list_lookup_fmap, Hi.
      * rewrite list_lookup_fmap, Hy. cbn. by rewrite <- E, Hh.
  - intros p f' h' [Hp| ->%list_elem_of_singleton]%elem_of_app E; [by eapply Ha|].
    cbn in E. injection E as <- <-. rewrite <- Hh. apply list_elem_of_fmap_2. by eapply list_elem_of_lookup_2.
Qed.

Lemma runtime_step_grouped ps rs w rs' :
  grouped ps rs → runtime_step cx rs w = Ret (inl rs') →
  ∃ h, reached w = Ret (inl h) ∧ grouped (ps ++ [(w, h)]) rs'.
Proof.
  intros Hg. unfold runtime_step, reached. intros (info & -> & Hs)%fbind_inl.
  apply fbind_inl in Hs as (found & Hf & Hs). exists found. split; [done|].
  destruct found as [[f h]|].
  2: { injection Hs as <-. by apply grouped_miss. }
  destruct (runtime_at rs h) as [i|] eqn:E.
  - injection Hs as <-. apply runtime_at_Some in E as (r & Hr & Hh). by eapply grouped_joined.
  - apply fbind_inl in Hs as (id & Hid & [= <-]). apply runtime_at_None in E. by apply grouped_new.
Qed.

Lemma runtime_loop_grouped ws : ∀ ps rs rs',
  grouped ps rs → runtime_loop cx ws rs = Ret (inl rs') →
  ∃ hs, Forall2 (λ w h, reached w = Ret (inl h)) ws hs ∧ grouped (ps ++ zip ws hs) rs'.
Proof.
  induction ws as [|w ws IH]; intros ps rs rs' Hg Hl; cbn [runtime_loop] in Hl.
  { injection Hl as <-. exists []. split; [constructor|]. by rewrite app_nil_r. }
  apply fbind_inl in Hl as (rs1 & Hs & Hl). apply runtime_step_grouped with (ps := ps) in Hs as (h & Hh & Hg'); [|done].
  destruct (IH _ _ _ Hg' Hl) as (hs & Hhs & Hg2). exists (h :: hs). split; [by constructor|].
  by rewrite <- app_assoc in Hg2.
Qed.

(** ** Workers *)

(** Where a thread's context is, when its symbol resolves to mapped memory. *)
Definition context_of (sym : SymbolBuf) (lwp : LwpInfo) : option (Z * Z) :=
  match tls_var_addr proc (regs lwp) sym with
  | Ok (Some addr) => if contains_addr (cc_mappings cx) addr then Some (tid lwp, addr) else None
  | Ok None | Err _ => None
  end.
(** The error a thread's symbol resolves to. *)
Definition unresolved (sym : SymbolBuf) (lwp : LwpInfo) : option (Z * ErrorKind) :=
  match tls_var_addr proc (regs lwp) sym with Err e => Some (tid lwp, e) | Ok _ => None end.

Lemma worker_loop_spec sym lwps : ∀ workers failure,
  match worker_loop cx sym lwps workers failure with
  | Ret (inl (ws, f)) => ∃ ws', ws = workers ++ ws' ∧
      Forall2 (λ p w, worker_at cx p.1 p.2 = Ret (inl w)) (omap (context_of sym) lwps) ws' ∧
      f = match failure with Some e => Some e | None => head (omap (unresolved sym) lwps) end
  | Ret (inr e) => ∃ p e', p ∈ omap (context_of sym) lwps ∧ worker_at cx p.1 p.2 = Ret (inr e') ∧ e = RtContext p.1 e'
  | Panic => ∃ p, p ∈ omap (context_of sym) lwps ∧ worker_at cx p.1 p.2 = Panic
  end.
Proof.
  induction lwps as [|lwp lwps IH]; intros workers failure; cbn [worker_loop].
  { exists []. split; [by rewrite app_nil_r|]. split; [constructor|by destruct failure]. }
  cbn [omap list_omap].
  destruct (tls_var_addr proc (regs lwp) sym) as [[addr|]|e] eqn:Et.
  2: { replace (context_of sym lwp) with (@None (Z * Z)) by (unfold context_of; by rewrite Et).
       replace (unresolved sym lwp) with (@None (Z * ErrorKind)) by (unfold unresolved; by rewrite Et).
       by apply IH. }
  2: { replace (context_of sym lwp) with (@None (Z * Z)) by (unfold context_of; by rewrite Et).
       replace (unresolved sym lwp) with (Some (tid lwp, e)) by (unfold unresolved; by rewrite Et).
       specialize (IH workers (match failure with Some f => Some f | None => Some (tid lwp, e) end)).
       destruct (worker_loop _ _ _ _ _) as [[[ws f]|]|]; [|done..].
       destruct IH as (ws' & ? & ? & ->). exists ws'. by destruct failure. }
  replace (unresolved sym lwp) with (@None (Z * ErrorKind)) by (unfold unresolved; by rewrite Et).
  replace (context_of sym lwp) with (if contains_addr (cc_mappings cx) addr then Some (tid lwp, addr) else None)
    by (unfold context_of; by rewrite Et).
  destruct (contains_addr (cc_mappings cx) addr); cbn [negb]; [|by apply IH].
  destruct (worker_at cx (tid lwp) addr) as [[w|e]|] eqn:Ew; cbn [fbind map_err].
  - specialize (IH (workers ++ [w]) failure). destruct (worker_loop _ _ _ _ _) as [[[ws f]|e]|].
    + destruct IH as (ws' & -> & Hf & ->). exists (w :: ws'). rewrite <- app_assoc. split; [done|].
      split; [by constructor|done].
    + destruct IH as (p & e' & ? & ? & ->). exists p, e'. split; [by right|done].
    + destruct IH as (p & ? & ?). exists p. split; [by right|done].
  - exists (tid lwp, addr), e. split; [by left|done].
  - exists (tid lwp, addr). split; [by left|done].
Qed.
End runtimes.

(** The threads found to be in a runtime are exactly the threads probed, the agent
    aside, whose context is mapped, in order, each with the task its context names; one
    that does not parse is an error, and so is a failure to resolve any when none holds
    a context. *)
Theorem workers_exact `{Demangler} {T} `{!Target T} (cx : ChainCtx T) statics lwps sym :
  tls_context_symbol cx statics = Ret (inl sym) →
  let held := omap (context_of cx sym) (probed cx lwps) in
  match find_workers cx statics lwps with
  | Ret (inl ws) => Forall2 (λ p w, worker_at cx p.1 p.2 = Ret (inl w)) held ws ∧
      (held = [] → omap (unresolved cx sym) (probed cx lwps) = [])
  | Ret (inr (RtNoContext tid e)) => held = [] ∧ head (omap (unresolved cx sym) (probed cx lwps)) = Some (tid, e)
  | Ret (inr e) => ∃ p e', p ∈ held ∧ worker_at cx p.1 p.2 = Ret (inr e') ∧ e = RtContext p.1 e'
  | Panic => ∃ p, p ∈ held ∧ worker_at cx p.1 p.2 = Panic
  end.
Proof.
  intros Hsym. cbv zeta. unfold find_workers. rewrite Hsym. cbn [fbind].
  pose proof (worker_loop_spec cx sym (probed cx lwps) [] None) as Hl.
  destruct (worker_loop _ _ _ _ _) as [[[ws f]|e]|]; cbn [fbind]; [| |done].
  - destruct Hl as (ws' & -> & Hf & ->). cbn [app].
    destruct (omap (unresolved cx sym) (probed cx lwps)) as [|[tid e] us]; cbn [head].
    + by destruct ws'.
    + destruct ws'; [by apply Forall2_nil_inv_r in Hf as ->|].
      split; [done|]. intros E. rewrite E in Hf. by apply Forall2_nil_inv_l in Hf.
  - destruct Hl as (p & e' & ? & ? & ->). by exists p, e'.
Qed.

(** C11: the runtimes found are the ones the workers' contexts reach, each once: no two
    have one handle, every handle reached is a runtime's, and a runtime has the flavor
    and handle the first worker reached it by, its list's own id, and exactly the
    threads that reach it, in order. *)
Theorem runtimes_grouped `{Demangler} {T} `{!Target T} (cx : ChainCtx T) ws rs :
  find_runtimes cx ws = Ret (inl rs) →
  rs ≠ [] ∧ ∃ hs, Forall2 (λ w h, reached cx w = Ret (inl h)) ws hs ∧ grouped cx (zip ws hs) rs.
Proof.
  unfold find_runtimes. intros (rs' & Hl & Hr)%fbind_inl. apply map_err_inl in Hl.
  destruct rs' as [|r rs']; [done|]. injection Hr as <-. split; [done|].
  apply (runtime_loop_grouped cx ws [] []); [|done].
  split; [constructor| |]; by intros ? ?%elem_of_nil || (intros ? ? ? ?%elem_of_nil).
Qed.

(** A named static is the exact name's symbol, or else the one every symbol of its
    normalized key sits with; several addresses are refused, and are all reported. *)
Theorem named_static_exact `{Demangler} {T} `{!Target T} (cx : ChainCtx T) nm symbols :
  object_symbols (cc_proc cx) = Ok symbols →
  match object_symbol cx nm with
  | Ret (inl (Some s)) => lookup_symbol_by_name (cc_proc cx) nm = Some s ∨
      lookup_symbol_by_name (cc_proc cx) nm = None ∧ ∃ key, normalized_v0_key (bytes_of_string nm) = Some key ∧
        last (candidates_of key symbols) = Some s ∧ ∀ x, x ∈ candidates_of key symbols → st_value x = st_value s
  | Ret (inl None) => lookup_symbol_by_name (cc_proc cx) nm = None ∧
      ∀ key, normalized_v0_key (bytes_of_string nm) = Some key → candidates_of key symbols = []
  | Ret (inr e) => lookup_symbol_by_name (cc_proc cx) nm = None ∧ ∃ key addrs,
      normalized_v0_key (bytes_of_string nm) = Some key ∧ e = RtAmbiguous nm addrs ∧ (2 <= length addrs)%nat ∧
      StronglySorted Z.lt addrs ∧ ∀ a, a ∈ addrs ↔ ∃ x, x ∈ candidates_of key symbols ∧ st_value x = a
  | Panic => False
  end.
Proof.
  intros Hs. unfold object_symbol. destruct (lookup_symbol_by_name _ nm) as [s|]; [by left|].
  destruct (normalized_v0_key (bytes_of_string nm)) as [key|]; [|by split].
  rewrite Hs. destruct (by_address_exact (candidates_of key symbols)) as [Hsort Hb].
  set (cs := candidates_of key symbols) in *.
  assert (Hval : ∀ a, a ∈ st_value <$> by_address cs ↔ ∃ x, x ∈ cs ∧ st_value x = a).
  { intros a. rewrite list_elem_of_fmap. split.
    - intros (s & -> & Hx%Hb). exists s. split; [|done].
      apply last_Some in Hx as (l & Hx). assert (s ∈ filter (λ x, st_value x = st_value s) cs) as Hin
        by (rewrite Hx; apply elem_of_app; right; by left).
      by apply list_elem_of_filter in Hin as [_ ?].
    - intros (x & Hx & <-).
      destruct (last (filter (λ y, st_value y = st_value x) cs)) as [s|] eqn:El.
      + assert (st_value s = st_value x) as E.
        { apply last_Some in El as (l & El).
          assert (s ∈ filter (λ y, st_value y = st_value x) cs) as Hin by (rewrite El; apply elem_of_app; right; by left).
          by apply list_elem_of_filter in Hin as [? _]. }
        exists s. split; [done|]. apply Hb. by rewrite E.
      + apply last_None in El. assert (x ∈ filter (λ y, st_value y = st_value x) cs) as Hin
          by by apply list_elem_of_filter. rewrite El in Hin. by apply elem_of_nil in Hin. }
  destruct (by_address cs) as [|s [|s' rest]] eqn:Eb.
  - split; [done|]. intros key' [= <-]. fold cs. destruct cs as [|x cs']; [done|].
    assert (st_value x ∈ st_value <$> ([] : list SymbolBuf)) as Hx by (apply Hval; exists x; split; [by left|done]).
    by apply elem_of_nil in Hx.
  - right. split; [done|]. exists key. split; [done|].
    assert (Hall : ∀ x, x ∈ cs → st_value x = st_value s).
    { intros x Hx. assert (st_value x ∈ st_value <$> [s]) as Hin by (apply Hval; by exists x).
      by apply list_elem_of_singleton in Hin. }
    split; [|done]. assert (s ∈ [s]) as Hin by by left. apply Hb in Hin.
    rewrite filter_all in Hin; done.
  - split; [done|]. exists key, (st_value <$> s :: s' :: rest). do 2 (split; [done|]). split; [cbn; lia|]. done.
Qed.

(** ** Two threads in a runtime and one in none *)

Definition demo_workers : list Worker := [mkWorker 11 4264 None; mkWorker 12 4296 None; mkWorker 13 4280 (Some 2)].

Lemma runtimes_grouped_witness : ∃ rs, find_runtimes task_cx demo_workers = Ret (inl rs) ∧
  (∀ r, r ∈ rs → rr_owned_id r = Some 7 ∧ rr_worker_tids r = [11; 13]) ∧ length rs = 1%nat ∧
  ∃ hs, grouped task_cx (zip demo_workers hs) rs.
Proof.
  assert (match find_runtimes task_cx demo_workers with
          | Ret (inl rs) => Forall (λ r, rr_owned_id r = Some 7 ∧ rr_worker_tids r = [11; 13]) rs ∧ length rs = 1%nat
          | _ => False end) as Hc by (vm_compute; repeat constructor).
  destruct (find_runtimes task_cx demo_workers) as [[rs|e]|] eqn:E; [|done..].
  destruct Hc as [Hf Hn]. exists rs. split; [done|]. split; [by rewrite Forall_forall in Hf|]. split; [done|].
  destruct (runtimes_grouped task_cx demo_workers rs E) as (_ & hs & _ & Hg). by exists hs.
Defined.

Example demo_workers_parse :
  worker_at task_cx 13 4280 = Ret (inl (mkWorker 13 4280 (Some 2))) ∧ park_from_word 2 = Driver ∧
  ct_activity (Some task_shared) None (Some 3) = CtParked.
Proof. vm_compute. repeat split. Qed.
