(* ===== verification/Effects.v ===== *)
(** Computations over a state that may fail or panic: what a [Result]-returning method
    that takes [&mut] arguments does.  A failure keeps the state it left. *)

From S2P Require Import Prelude Value.

Definition eff (S E A : Type) : Type := S → outcome (S * (A + E)).

Section eff.
Context {S E : Type}.

Definition eff_ret {A} (a : A) : eff S E A := λ s, Ret (s, inl a).
Definition eff_throw {A} (e : E) : eff S E A := λ s, Ret (s, inr e).
Definition eff_lift {A} (m : fallible E A) : eff S E A := λ s, r ← m; Ret (s, r).
Definition eff_modify (f : S → S) : eff S E () := λ s, Ret (f s, inl ()).
Definition eff_get {A} (f : S → A) : eff S E A := λ s, Ret (s, inl (f s)).

Definition eff_bind {A B} (m : eff S E A) (f : A → eff S E B) : eff S E B := λ s,
  match m s with
  | Ret (s, inl a) => f a s
  | Ret (s, inr e) => Ret (s, inr e)
  | Panic => Panic
  end.

(** [ensure!]. *)
Definition eff_ensure (c : bool) (e : E) : eff S E () := if c then eff_ret () else eff_throw e.

(** What a call left, its failure a value. *)
Definition eff_try {A} (m : eff S E A) : eff S E (A + E) := λ s,
  '(s, r) ← m s; Ret (s, inl r).

Fixpoint eff_each {A} (f : A → eff S E ()) (l : list A) : eff S E () :=
  match l with
  | [] => eff_ret ()
  | a :: l => eff_bind (f a) (λ _, eff_each f l)
  end.

(** A walk from address to address. *)
Fixpoint eff_chain (fuel : nat) (step : Z → eff S E (option Z)) (cur : option Z) : eff S E () :=
  match cur with
  | None => eff_ret ()
  | Some addr =>
      match fuel with
      | O => λ _, Panic
      | Datatypes.S fuel => eff_bind (step addr) (eff_chain fuel step)
      end
  end.
End eff.

(** [map_err] of a computation. *)
Definition eff_context {S E F A} (f : E → F) (m : eff S E A) : eff S F A := λ s,
  '(s, r) ← m s; Ret (s, match r with inl a => inl a | inr e => inr (f e) end).

Notation "x ←% m ; k" := (eff_bind m (λ x, k))
  (at level 20, m at level 100, k at level 200, only parsing) : stdpp_scope.
Notation "' x ←% m ; k" := (eff_bind m (λ x : _, k))
  (at level 20, x pattern, m at level 100, k at level 200, only parsing) : stdpp_scope.

(** ** What a computation that returns did *)

Section inversion.
Context {S E : Type}.
Implicit Types s : S.

Lemma eff_ret_Ret {A} (a : A) s s' (r : A + E) : eff_ret a s = Ret (s', r) → s' = s ∧ r = inl a.
Proof. by intros [= <- <-]. Qed.
Lemma eff_throw_Ret {A} (e : E) s s' (r : A + E) : eff_throw e s = Ret (s', r) → s' = s ∧ r = inr e.
Proof. by intros [= <- <-]. Qed.
Lemma eff_get_Ret {A} (f : S → A) s s' (r : A + E) : eff_get f s = Ret (s', r) → s' = s ∧ r = inl (f s).
Proof. by intros [= <- <-]. Qed.
Lemma eff_modify_Ret f s s' (r : () + E) : eff_modify f s = Ret (s', r) → s' = f s ∧ r = inl ().
Proof. by intros [= <- <-]. Qed.
Lemma eff_lift_Ret {A} (m : fallible E A) s s' r : eff_lift m s = Ret (s', r) → s' = s ∧ m = Ret r.
Proof. unfold eff_lift. destruct m; [by intros [= <- <-]|done]. Qed.
Lemma eff_ensure_Ret c e s s' (r : () + E) : eff_ensure c e s = Ret (s', r) →
  s' = s ∧ ((c = true ∧ r = inl ()) ∨ (c = false ∧ r = inr e)).
Proof. destruct c; intros [= <- <-]; tauto. Qed.
Lemma eff_bind_Ret {A B} (m : eff S E A) (f : A → eff S E B) s s' r : eff_bind m f s = Ret (s', r) →
  (∃ s1 a, m s = Ret (s1, inl a) ∧ f a s1 = Ret (s', r)) ∨ ∃ e, m s = Ret (s', inr e) ∧ r = inr e.
Proof.
  unfold eff_bind. destruct (m s) as [[s1 [a|e]]|]; [eauto| |done]. intros [= <- <-]. eauto.
Qed.
Lemma eff_try_Ret {A} (m : eff S E A) s s' (r : (A + E) + E) : eff_try m s = Ret (s', r) →
  ∃ x, m s = Ret (s', x) ∧ r = inl x.
Proof. unfold eff_try. destruct (m s) as [[s1 x]|]; [|done]. intros [= <- <-]. by exists x. Qed.
End inversion.

(** ** What computations keep *)

(** Whatever a computation returns, with a value or a failure, is related to where it
    started by [R]. *)
Definition keeps_rel {S E A} (R : S → S → Prop) (m : eff S E A) : Prop :=
  ∀ s s' r, m s = Ret (s', r) → R s s'.

Section keeps.
Context {S E : Type} (R : S → S → Prop) `{!PreOrder R}.

Lemma keeps_ret {A} (a : A) : keeps_rel R (eff_ret (E := E) a).
Proof. intros s s' r [= <- _]. done. Qed.
Lemma keeps_throw {A} (e : E) : keeps_rel R (eff_throw (A := A) e).
Proof. intros s s' r [= <- _]. done. Qed.
Lemma keeps_get {A} (f : S → A) : keeps_rel R (eff_get (E := E) f).
Proof. intros s s' r [= <- _]. done. Qed.
Lemma keeps_modify f : (∀ s, R s (f s)) → keeps_rel R (eff_modify (E := E) f).
Proof. intros Hf s s' r [= <- _]. done. Qed.
Lemma keeps_lift {A} (m : fallible E A) : keeps_rel R (eff_lift m).
Proof. intros s s' r. unfold eff_lift. destruct m; [by intros [= <- _]|done]. Qed.
Lemma keeps_ensure c (e : E) : keeps_rel R (eff_ensure c e).
Proof. destruct c; [apply keeps_ret|apply keeps_throw]. Qed.
Lemma keeps_bind {A B} (m : eff S E A) (f : A → eff S E B) :
  keeps_rel R m → (∀ a, keeps_rel R (f a)) → keeps_rel R (eff_bind m f).
Proof.
  intros Hm Hf s s' r. unfold eff_bind. destruct (m s) as [[s1 [a|e]]|] eqn:E1; [| |done].
  - intros E2. etransitivity; [by eapply Hm|by eapply Hf].
  - intros [= <- _]. by eapply Hm.
Qed.
Lemma keeps_try {A} (m : eff S E A) : keeps_rel R m → keeps_rel R (eff_try m).
Proof.
  intros Hm s s' r. unfold eff_try. destruct (m s) as [[s1 x]|] eqn:E1; [|done].
  intros [= <- _]. by eapply Hm.
Qed.
Lemma keeps_each {A} (f : A → eff S E ()) l : (∀ a, keeps_rel R (f a)) → keeps_rel R (eff_each f l).
Proof. intros Hf. induction l as [|a l IH]; [apply keeps_ret|]. by apply keeps_bind. Qed.
Lemma keeps_chain (step : Z → eff S E (option Z)) fuel :
  (∀ a, keeps_rel R (step a)) → ∀ cur, keeps_rel R (eff_chain fuel step cur).
Proof.
  intros Hs. induction fuel as [|fuel IH]; intros [addr|]; cbn [eff_chain]; try apply keeps_ret.
  - by intros s s' r.
  - by apply keeps_bind.
Qed.
End keeps.

Lemma keeps_context {S E F A} (R : S → S → Prop) (f : E → F) (m : eff S E A) :
  keeps_rel R m → keeps_rel R (eff_context f m).
Proof.
  intros Hm s s' r. unfold eff_context. destruct (m s) as [[s1 x]|] eqn:E1; [|done].
  intros [= <- _]. by eapply Hm.
Qed.

(** What a computation keeps, by its shape; the calls it makes are hints. *)
Create HintDb keeps.
Ltac keeps :=
  lazymatch goal with
  | |- ∀ _, _ => intros ?; keeps
  | |- keeps_rel _ (match ?x with _ => _ end) => destruct x; keeps
  | |- keeps_rel _ (eff_bind _ _) => apply keeps_bind; [typeclasses eauto| |]; keeps
  | |- keeps_rel _ (eff_try _) => apply keeps_try; keeps
  | |- keeps_rel _ (eff_each _ _) => apply keeps_each; [typeclasses eauto|]; keeps
  | |- keeps_rel _ (eff_chain _ _ _) => apply keeps_chain; [typeclasses eauto|]; keeps
  | |- keeps_rel _ (eff_context _ _) => apply keeps_context; keeps
  | |- _ => eauto with keeps typeclass_instances
  end.
#[export] Hint Resolve keeps_ret keeps_throw keeps_get keeps_lift keeps_ensure : keeps.

(** ** A chain's walk *)

Section chain.
Context {S E : Type} (step : Z → eff S E (option Z)).

(** The addresses a walk steps on, to where it ends or fails. *)
Inductive chain_run : option Z → S → list Z → S → option E → Prop :=
  | cr_end s : chain_run None s [] s None
  | cr_step a s s1 next l s' e : step a s = Ret (s1, inl next) → chain_run next s1 l s' e →
      chain_run (Some a) s (a :: l) s' e
  | cr_fail a s s1 e : step a s = Ret (s1, inr e) → chain_run (Some a) s [a] s1 (Some e).

(** A measure every step that goes on lowers. *)
Context (μ : S → nat).
Hypothesis Hμ : ∀ a s s' next, step a s = Ret (s', inl next) → (μ s' < μ s)%nat.

Lemma eff_chain_run fuel : ∀ cur s, (μ s < fuel)%nat →
  match eff_chain fuel step cur s with
  | Ret (s', r) => ∃ l, chain_run cur s l s' (match r with inl _ => None | inr e => Some e end)
  | Panic => ∃ a s, step a s = Panic
  end.
Proof.
  induction fuel as [|fuel IH]; intros cur s Hs; [lia|].
  destruct cur as [a|]; cbn [eff_chain]; [|by exists []; constructor].
  unfold eff_bind. destruct (step a s) as [[s1 [next|e]]|] eqn:E1; [| |by eauto].
  - specialize (IH next s1). destruct (eff_chain fuel step next s1) as [[s' r]|] eqn:E2.
    + destruct IH as [l Hl]; [by apply Hμ in E1; lia|]. exists (a :: l). by econstructor.
    + apply IH. apply Hμ in E1. lia.
  - exists [a]. by constructor.
Qed.
End chain.
