(* ===== verification/Registries.v ===== *)
(** The registries of parked tasks ([hansei-runtime/src/tokio/bundle.rs], route 2 of
    the discovery, and [observe.rs]'s lock): the timer wheel, the io driver's
    registrations, and the blocking pool's queue.

    The harvests of a registry change what they are handed as they walk: the addresses
    visited, the finds, the entries kept, and the errors, all of which stay when a walk
    fails. *)

From S2P Require Import Prelude Text StringTable Target Symbols TaskGraph Discovery Work Schema BundleCheck TypeView DisplayResolve DisplayEval Value Elements Pairing Semantics Contract Chain TaskHeader OwnedLists Runtimes Effects.

Local Open Scope Z_scope.

(** ** The roles it walks by *)

Definition DeadlineTvSec : Z := 46.
Definition DeadlineTvNsec : Z := 47.
Definition WakerData : Z := 59.
Definition WakerVtable : Z := 60.
Definition WheelLevels : Z := 75.
Definition LevelSlots : Z := 76.
Definition SlotHead : Z := 77.
Definition TimerSharedNext : Z := 78.
Definition TimerSharedWaker : Z := 79.
Definition IoRegistrations : Z := 80.
Definition ScheduledIoNext : Z := 81.
Definition ScheduledIoWaiters : Z := 82.
Definition IoWaiterHead : Z := 83.
Definition IoReaderWaker : Z := 84.
Definition IoWriterWaker : Z := 85.
Definition IoWaiterNext : Z := 86.
Definition IoWaiterWaker : Z := 87.
Definition TimerSharedState : Z := 88.
Definition TimeSourceStart : Z := 89.
Definition ScheduledIoReadiness : Z := 90.
Definition IoWaiterInterest : Z := 91.
Definition RoleBlockingQueue : Z := 104.
Definition BlockingQueueShards : Z := 105.
Definition BlockingShardQueue : Z := 106.
Definition BlockingQueueHead : Z := 107.
Definition BlockingQueueLen : Z := 108.
Definition BlockingQueueBuf : Z := 109.
Definition BlockingQueueCap : Z := 110.
Definition BlockingTaskHeader : Z := 111.
Definition ReadinessWaiterReady : Z := 121.
Definition ScheduledIoLock : Z := 129.

(** ** What is kept *)

Record RawInstant := mkInstant { ri_sec : Z; ri_nsec : Z }.

Inductive QueuedWaker :=
  | WTask (addr : Z) (task_id : option Z)
  | WOther (vtable : Z)
  | WUnarmed.

Inductive Consistency := Quiescent | Mutating | CUnknown.

Record TimerEntryInfo := mkTimerEntry {
  ti_entry : Z;
  ti_state : option Z;
  ti_task : option Z;
  ti_waker_at : option Z;
  ti_deadline : option RawInstant
}.

Inductive IoSlot := Reader | Writer | Listed (interest : option Z).

Record IoWaiterInfo := mkIoWaiter {
  iw_slot : IoSlot;
  iw_task : option Z;
  iw_waker_at : option Z;
  iw_node : option Z;
  iw_ready : option bool
}.

Record IoResourceInfo := mkIoResource {
  io_addr : Z;
  io_readiness : option Z;
  io_consistency : Consistency;
  io_waiters : list IoWaiterInfo
}.

Record Registries := mkRegistries {
  rg_timers : list TimerEntryInfo;
  rg_io : list IoResourceInfo;
  rg_stopped : option RawInstant
}.

Inductive HarvestError :=
  | HvTask (e : TaskError)
  | HvStatics (e : RuntimeError)
  | HvUnmapped (addr : Z)
  | HvCycle (addr : Z)
  | HvNotPointer (ty : BundleTypeId)
  | HvRead (addr : Z) (e : Error)
  | HvSlot (addr : Z) (e : HarvestError)
  | HvWheel (handle : Z) (e : HarvestError)
  | HvWaiters (addr : Z) (e : HarvestError)
  | HvDriver (handle : Z) (e : HarvestError)
  | HvShards (e : Error)
  | HvTruncated (claimed readable : Z)
  | HvRing (len cap : Z)
  | HvNoLayout
  | HvRingUnmapped (cap buf : Z)
  | HvEntry (slot : Z) (e : HarvestError)
  | HvQueue (handle : Z) (e : HarvestError).

(** What a harvest changes; the waiters are those of the resource in hand. *)
Record Harvest := mkHarvest {
  hv_visited : gset Z;
  hv_found : list Work.Candidate;
  hv_errors : list HarvestError;
  hv_waiters : list IoWaiterInfo;
  hv_registries : Registries
}.

Definition harvesting := eff Harvest HarvestError.

Definition visited_insert (a : Z) (s : Harvest) : Harvest :=
  mkHarvest ({[a]} ∪ hv_visited s) (hv_found s) (hv_errors s) (hv_waiters s) (hv_registries s).
Definition found_push (c : Work.Candidate) (s : Harvest) : Harvest :=
  mkHarvest (hv_visited s) (hv_found s ++ [c]) (hv_errors s) (hv_waiters s) (hv_registries s).
Definition errors_push (e : HarvestError) (s : Harvest) : Harvest :=
  mkHarvest (hv_visited s) (hv_found s) (hv_errors s ++ [e]) (hv_waiters s) (hv_registries s).
Definition set_waiters (f : list IoWaiterInfo → list IoWaiterInfo) (s : Harvest) : Harvest :=
  mkHarvest (hv_visited s) (hv_found s) (hv_errors s) (f (hv_waiters s)) (hv_registries s).
Definition with_registries (f : Registries → Registries) (s : Harvest) : Harvest :=
  mkHarvest (hv_visited s) (hv_found s) (hv_errors s) (hv_waiters s) (f (hv_registries s)).
Definition waiters_push (w : IoWaiterInfo) : Harvest → Harvest := set_waiters (λ l, l ++ [w]).
Definition timers_push (t : TimerEntryInfo) : Harvest → Harvest :=
  with_registries (λ r, mkRegistries (rg_timers r ++ [t]) (rg_io r) (rg_stopped r)).
Definition io_push (i : IoResourceInfo) : Harvest → Harvest :=
  with_registries (λ r, mkRegistries (rg_timers r) (rg_io r ++ [i]) (rg_stopped r)).
Definition set_stopped (t : option RawInstant) : Harvest → Harvest :=
  with_registries (λ r, mkRegistries (rg_timers r) (rg_io r) t).

(** ** Instants *)

Definition NSEC_PER_SEC : Z := 1000000000.

(** [RawInstant::try_from] a process timestamp; the seconds are reread as unsigned. *)
Definition raw_instant (t : Timespec) : option RawInstant :=
  if (tv_nsec t <? 0) || (NSEC_PER_SEC <=? tv_nsec t) then None
  else Some (mkInstant (tv_sec t `mod` W64) (tv_nsec t `mod` W32)).

Definition timespec_leb (a b : Timespec) : bool :=
  (tv_sec a <? tv_sec b) || ((tv_sec a =? tv_sec b) && (tv_nsec a <=? tv_nsec b)).

(** The latest stamp that is not zero; of equal ones, the last. *)
Definition latest (l : list LwpInfo) : option Timespec :=
  foldl (λ acc lwp,
    let t := tstamp lwp in
    if (tv_sec t =? 0) && (tv_nsec t =? 0) then acc
    else match acc with
         | Some m => Some (if timespec_leb m t then t else m)
         | None => Some t
         end) None l.

Definition STATE_DEREGISTERED : Z := W64 - 1.
Definition STATE_PENDING_FIRE : Z := STATE_DEREGISTERED - 1.

(** [TimerEntryInfo::wheel_deadline]. *)
Definition wheel_deadline (start : RawInstant) (state : Z) : option RawInstant :=
  if (state =? STATE_DEREGISTERED) || (state =? STATE_PENDING_FIRE) then None
  else
    ms ← checked_mul state 1000000;
    let ns := ms + ri_nsec start in
    if W64 <=? ns / NSEC_PER_SEC then None
    else
      sec ← checked_add (ri_sec start) (ns / NSEC_PER_SEC);
      Some (mkInstant sec (ns `mod` NSEC_PER_SEC)).

Inductive WheelState := Registered | PendingFire | Deregistered.

Definition wheel_state (t : TimerEntryInfo) : option WheelState :=
  state ← ti_state t;
  Some (if state =? STATE_DEREGISTERED then Deregistered
        else if state =? STATE_PENDING_FIRE then PendingFire
        else Registered).

(** ** The joins by task *)

Definition timers_of (r : Registries) (task : Z) : list TimerEntryInfo :=
  filter (λ t, ti_task t = Some task) (rg_timers r).
Definition io_of (r : Registries) (task : Z) : list (IoResourceInfo * IoWaiterInfo) :=
  mjoin ((λ res, (λ w, (res, w)) <$> filter (λ w, iw_task w = Some task) (io_waiters res)) <$> rg_io r).

Section registries.
Context `{Demangler} {T : Type} `{!Target T} (cx : ChainCtx T) (statics : list (StaticRole * StaticDef)).
Abbreviation b := (cc_bundle cx).
Abbreviation proc := (cc_proc cx).

(** [Context::stopped_at]. *)
Definition stopped_at : option RawInstant :=
  match lwps proc with
  | Ok l => t ← latest l; raw_instant t
  | Err _ => None
  end.

(** ** Locks *)

(** [lock_consistency]. *)
Definition lock_held (read : ReadContext) (lock : Value) : option bool :=
  word ← lock_word (cc_records cx) (val_ty lock);
  match boxed word with
  | None => held word (val_bytes lock)
  | Some bx =>
      addr ← box_address bx (val_bytes lock);
      if addr =? 0 then Some false
      else if taken_back read addr then None
      else match read_bytes proc addr (lb_size bx) with
           | Ok bytes => held word bytes
           | Err _ => None
           end
  end.
Definition lock_consistency (read : ReadContext) (lock : Value) : Consistency :=
  match lock_held read lock with
  | Some true => Mutating
  | Some false => Quiescent
  | None => CUnknown
  end.

(** What a call that may fail gives where its failure costs only its value: [.ok()]. *)
Definition ok_of {E A} (m : fallible E A) : outcome (option A) :=
  r ← m; Ret (match r with inl a => Some a | inr _ => None end).

Definition io_guard (registration : Value) (read : ReadContext) : outcome Consistency :=
  w ← ok_of (try_walk_with b proc read ScheduledIoLock registration);
  Ret (match w with Some (Some (At lock)) => lock_consistency read lock | _ => CUnknown end).

(** ** Wakers *)

Definition header_task_ref (addr : Z) : fallible TaskError (option Z * TaskState) :=
  identity ←! header_identity cx addr None;
  succeed (id_task_id identity, id_state identity).

Definition task_waker_vtables : fallible RuntimeError (list Z) :=
  match static_def statics TaskWakerVtable with
  | None => throw (RtNoStatic TaskWakerVtable)
  | Some def => object_symbol_addrs cx (sd_symbol def)
  end.

Definition task_waker (data vtable : Z) : fallible HarvestError QueuedWaker :=
  vtables ←! map_err HvStatics task_waker_vtables;
  if negb (bool_decide (vtable ∈ vtables)) then succeed (WOther vtable)
  else '(task_id, _) ←! map_err HvTask (header_task_ref data); succeed (WTask data task_id).

Definition raw_waker (raw : Value) : fallible HarvestError QueuedWaker :=
  data ←! map_err HvTask (role_read cx (parse_unsigned 8) WakerData raw);
  vtable ←! map_err HvTask (role_read cx (parse_unsigned 8) WakerVtable raw);
  task_waker data vtable.

Definition registry_waker (raw holder : Value) (source : ReferenceSource) (route : DiscoveryRoute)
    : harvesting (option Z) :=
  waker ←% eff_lift (raw_waker raw);
  match waker with
  | WTask addr _ =>
      _ ←% eff_modify (found_push
             (CReference (mkReference addr source (Some (value_key holder)) None []) route));
      eff_ret (Some addr)
  | WOther _ | WUnarmed => eff_ret None
  end.

(** ** Nodes *)

Definition hv_task {A} (m : fallible TaskError A) : harvesting A := eff_lift (map_err HvTask m).

(** The guards of a list's node and its read. *)
Definition node_at (ty : BundleTypeId) (addr : Z) : harvesting Value :=
  _ ←% eff_ensure (contains_addr (cc_mappings cx) addr) (HvUnmapped addr);
  visited ←% eff_get hv_visited;
  _ ←% eff_ensure (negb (bool_decide (addr ∈ visited))) (HvCycle addr);
  _ ←% eff_modify (visited_insert addr);
  eff_lift (map_err (HvRead addr) (value_read b proc ty addr)).

(** [walk(role).walk(node)?.optional().map(parse).transpose()?]. *)
Definition next_of (role : WalkRole) (node : Value) : harvesting (option Z) :=
  w ←% hv_task (role_walk cx role node);
  match walked_optional w with
  | None => eff_ret None
  | Some ptr => next ←% eff_lift (map_err (λ e, HvTask (TkParse e)) (parse b (parse_unsigned 8) proc ptr));
                eff_ret (Some next)
  end.

(** A list's head: its node's type and its address. *)
Definition head_of (head : Value) : harvesting (BundleTypeId * Z) :=
  ty ←% eff_lift (infallible (pointer_target b (val_ty head)));
  match ty with
  | None => eff_throw (HvNotPointer (val_ty head))
  | Some ty =>
      addr ←% eff_lift (map_err (λ e, HvTask (TkParse e)) (parse b (parse_unsigned 8) proc head));
      eff_ret (ty, addr)
  end.

Definition walk_fuel : nat := S (mapped_bytes (cc_mappings cx)).

(** A word beside a harvest: [try_read(..).ok().flatten()]. *)
Definition beside {V} (parser : Parser V) (role : WalkRole) (node : Value) : harvesting (option V) :=
  v ←% eff_lift (infallible (ok_of (role_try_read cx parser role node)));
  eff_ret (mjoin v).

Definition parse_addr (v : Value) : harvesting Z :=
  eff_lift (map_err (λ e, HvTask (TkParse e)) (parse b (parse_unsigned 8) proc v)).
Definition hv_elements (v : Value) : harvesting Elements :=
  eff_lift (map_err (λ e, HvTask (TkParse e)) (elements b proc v)).

(** ** The wheel *)

Definition timespec (ts : Value) (read : ReadContext) : fallible RoleError RawInstant :=
  sec ←! read_with b proc read (parse_unsigned 8) DeadlineTvSec ts;
  nsec ←! read_with b proc read (parse_unsigned 4) DeadlineTvNsec ts;
  succeed (mkInstant sec nsec).

(** One entry of a slot: filed, and the one after it. *)
Definition wheel_node (entry_ty : BundleTypeId) (start : option RawInstant) (addr : Z)
    : harvesting (option Z) :=
  entry ←% node_at entry_ty addr;
  w ←% hv_task (role_walk cx TimerSharedWaker entry);
  '(task, waker_at) ←%
    match walked_optional w with
    | Some raw => task ←% registry_waker raw entry TimerWaker Wheel; eff_ret (task, Some (val_addr raw))
    | None => eff_ret (None, None)
    end;
  state ←% beside (parse_unsigned 8) TimerSharedState entry;
  _ ←% eff_modify (timers_push (mkTimerEntry addr state task waker_at
         (start ← start; state ← state; wheel_deadline start state)));
  next_of TimerSharedNext entry.

Definition walk_wheel_slot (head : Z) (entry_ty : BundleTypeId) (start : option RawInstant)
    : harvesting () :=
  eff_chain walk_fuel (wheel_node entry_ty start) (Some head).

Definition wheel_slot (start : option RawInstant) (slot : Value) : harvesting () :=
  w ←% hv_task (role_walk cx SlotHead slot);
  match walked_optional w with
  | None => eff_ret ()
  | Some head =>
      addr ←% parse_addr head;
      ty ←% eff_lift (infallible (pointer_target b (val_ty head)));
      match ty with
      | None => eff_throw (HvNotPointer (val_ty head))
      | Some entry_ty =>
          r ←% eff_try (walk_wheel_slot addr entry_ty start);
          match r with inl _ => eff_ret () | inr e => eff_modify (errors_push (HvSlot addr e)) end
      end
  end.

Definition wheel_level (start : option RawInstant) (level : Value) : harvesting () :=
  slots ←% hv_task (role_walk_at cx LevelSlots level);
  slots ←% hv_elements slots;
  eff_each (wheel_slot start) (el_iter slots).

(** The driver's epoch, where it is bound and reads. *)
Definition wheel_start (handle : Value) : outcome (option RawInstant) :=
  w ← ok_of (role_try_at cx TimeSourceStart handle);
  match mjoin w with
  | Some start => ok_of (timespec start None)
  | None => Ret None
  end.

Definition harvest_wheel (runtime : RuntimeRef) : harvesting () :=
  levels ←% hv_task (role_try_at cx WheelLevels (rr_handle runtime));
  match levels with
  | None => eff_ret ()
  | Some levels =>
      start ←% eff_lift (infallible (wheel_start (rr_handle runtime)));
      _ ←% eff_modify (set_stopped stopped_at);
      levels ←% hv_elements levels;
      eff_each (wheel_level start) (el_iter levels)
  end.

(** One runtime's turn: its failure is kept. *)
Definition harvest_one (f : RuntimeRef → harvesting ()) (e : Z → HarvestError → HarvestError)
    (runtime : RuntimeRef) : harvesting () :=
  r ←% eff_try (f runtime);
  match r with
  | inl _ => eff_ret ()
  | inr err => eff_modify (errors_push (e (val_addr (rr_handle runtime)) err))
  end.

Definition wheel_task_pointers (runtimes : list RuntimeRef) : harvesting () :=
  eff_each (harvest_one harvest_wheel HvWheel) runtimes.

(** ** The io driver *)

(** One direction slot's waker. *)
Definition io_slot (registration waiters : Value) (e : WalkRole * IoSlot) : harvesting () :=
  w ←% hv_task (role_walk cx e.1 waiters);
  match walked_optional w with
  | None => eff_ret ()
  | Some raw =>
      task ←% registry_waker raw registration IoWaker RIo;
      eff_modify (waiters_push (mkIoWaiter e.2 task (Some (val_addr raw)) None None))
  end.

(** One node of a readiness list, and the one after it. *)
Definition io_node (node_ty : BundleTypeId) (addr : Z) : harvesting (option Z) :=
  node ←% node_at node_ty addr;
  w ←% hv_task (role_walk cx IoWaiterWaker node);
  _ ←% match walked_optional w with
       | None => eff_ret ()
       | Some raw =>
           task ←% registry_waker raw node IoWaker RIo;
           interest ←% beside (parse_unsigned 8) IoWaiterInterest node;
           ready ←% beside parse_bool ReadinessWaiterReady node;
           eff_modify (waiters_push
             (mkIoWaiter (Listed interest) task (Some (val_addr raw)) (Some addr) ready))
       end;
  next_of IoWaiterNext node.

Definition harvest_io_waiters (registration : Value) : harvesting () :=
  waiters ←% hv_task (role_walk_at cx ScheduledIoWaiters registration);
  _ ←% eff_each (io_slot registration waiters) [(IoReaderWaker, Reader); (IoWriterWaker, Writer)];
  w ←% hv_task (role_walk cx IoWaiterHead waiters);
  match walked_optional w with
  | None => eff_ret ()
  | Some head =>
      '(node_ty, addr) ←% head_of head;
      eff_chain walk_fuel (io_node node_ty) (Some addr)
  end.

(** One registration, whatever its waiters gave, and the one after it. *)
Definition registration_node (io_ty : BundleTypeId) (addr : Z) : harvesting (option Z) :=
  registration ←% node_at io_ty addr;
  readiness ←% beside (parse_unsigned 8) ScheduledIoReadiness registration;
  consistency ←% eff_lift (infallible (io_guard registration None));
  _ ←% eff_modify (set_waiters (λ _, []));
  r ←% eff_try (harvest_io_waiters registration);
  _ ←% match r with
       | inl _ => eff_ret ()
       | inr e => eff_modify (errors_push (HvWaiters addr e))
       end;
  waiters ←% eff_get hv_waiters;
  _ ←% eff_modify (io_push (mkIoResource addr readiness consistency waiters));
  next_of ScheduledIoNext registration.

Definition harvest_io (runtime : RuntimeRef) : harvesting () :=
  head ←% hv_task (role_try_at cx IoRegistrations (rr_handle runtime));
  match head with
  | None => eff_ret ()
  | Some head =>
      '(io_ty, addr) ←% head_of head;
      eff_chain walk_fuel (registration_node io_ty) (Some addr)
  end.

Definition io_task_pointers (runtimes : list RuntimeRef) : harvesting () :=
  eff_each (harvest_one harvest_io HvDriver) runtimes.

(** ** The blocking queue *)

(** One slot of the ring: its cell, or an error that costs the slot alone. *)
Definition queue_slot (owner : OwnerKey) (queue : Value) (elem : BundleTypeId) (size head cap buf i : Z)
    : harvesting () :=
  let slot := u64_add head i `mod` cap in
  let addr := u64_add buf (u64_mul slot size) in
  r ←% eff_try (
    _ ←% eff_ensure (contains_addr (cc_mappings cx) addr) (HvUnmapped addr);
    value ←% eff_lift (map_err (HvRead addr) (value_read b proc elem addr));
    hv_task (role_read cx (parse_unsigned 8) BlockingTaskHeader value));
  match r with
  | inl header => eff_modify (found_push (Queued header owner (value_key queue) addr))
  | inr e => eff_modify (errors_push (HvEntry slot e))
  end.

(** The last byte of a ring of [cap] elements. *)
Definition ring_last (buf cap size : Z) : option Z :=
  bytes ← checked_mul cap size;
  past ← checked_sub bytes 1;
  checked_add buf past.

Definition ring_mapped (buf cap size : Z) : bool :=
  contains_addr (cc_mappings cx) buf &&
  match ring_last buf cap size with Some a => contains_addr (cc_mappings cx) a | None => false end.

Definition queued_in (runtime : RuntimeRef) (queue : Value) : harvesting () :=
  len ←% hv_task (role_read cx (parse_unsigned 8) BlockingQueueLen queue);
  if len =? 0 then eff_ret ()
  else
    head ←% hv_task (role_read cx (parse_unsigned 8) BlockingQueueHead queue);
    cap ←% hv_task (role_read cx (parse_unsigned 8) BlockingQueueCap queue);
    buf ←% hv_task (role_read cx (parse_unsigned 8) BlockingQueueBuf queue);
    _ ←% eff_ensure ((0 <? cap) && (len <=? cap)) (HvRing len cap);
    match walk_root_ty cx BlockingTaskHeader with
    | None => eff_throw HvNoLayout
    | Some elem =>
        size ←% eff_lift (infallible (ty_size b elem));
        _ ←% eff_ensure (ring_mapped buf cap size) (HvRingUnmapped cap buf);
        eff_each (queue_slot (runtime_key runtime) queue elem size head cap buf) (z_range 0 (Z.to_nat len))
    end.

(** The queues of a pool: its one, and its shards'. *)
Definition blocking_queues (handle : Value) : fallible HarvestError (list Value) :=
  queue ←! map_err HvTask (role_try_at cx RoleBlockingQueue handle);
  shards ←! map_err HvTask (role_try_at cx BlockingQueueShards handle);
  let one := match queue with Some q => [q] | None => [] end in
  match shards with
  | None => succeed one
  | Some shards =>
      es ←! map_err HvShards (elements b proc shards);
      match el_claimed es with
      | Some claimed => throw (HvTruncated claimed (el_count es))
      | None =>
          queues ←! map_err HvTask ((fix go (shards : list Value) : fallible TaskError (list Value) :=
            match shards with
            | [] => succeed []
            | shard :: shards =>
                q ←! role_walk_at cx BlockingShardQueue shard; qs ←! go shards; succeed (q :: qs)
            end) (el_iter es));
          succeed (one ++ queues)
      end
  end.

Definition queued_blocking (runtime : RuntimeRef) : harvesting () :=
  queues ←% eff_lift (blocking_queues (rr_handle runtime));
  eff_each (queued_in runtime) queues.
End registries.
