(* ===== verification/RegistryFacts.v ===== *)
(** The harvests: what a walk of a registry keeps, that it ends, and what a walk of a
    timer wheel's slot gives: every entry linked, once, and a report of the first link
    it cannot follow. *)

From S2P Require Import Prelude Text StringTable Target Symbols TaskGraph Discovery Schema BundleCheck TypeView DisplayResolve DisplayEval Value Elements Pairing Semantics Contract ContractFacts Chain TaskHeader OwnedLists OwnedListTheorems Runtimes Effects Registries Work MemoryDemo TaskDemo.

Local Open Scope Z_scope.

(** ** Preorders on what a harvest changes *)

(** The visited set only grows. *)
Definition grows (s s' : Harvest) : Prop := hv_visited s ⊆ hv_visited s'.

#[global] Instance grows_preorder : PreOrder grows.
Proof. split; [intros s|intros s1 s2 s3]; unfold grows; set_solver. Qed.

(** Entries filed by a walk: each at a mapped address of its own, new to the walk, with
    the finds their tasks make. *)
Record filed_timers (m : Mappings) (s s' : Harvest) (ts : list TimerEntryInfo) (cs : list Candidate) : Prop := {
  ft_timers : rg_timers (hv_registries s') = rg_timers (hv_registries s) ++ ts;
  ft_io : rg_io (hv_registries s') = rg_io (hv_registries s);
  ft_found : hv_found s' = hv_found s ++ cs;
  ft_tasks : candidate_addr <$> cs = omap ti_task ts;
  ft_distinct : NoDup (ti_entry <$> ts);
  ft_new t : t ∈ ts → contains_addr m (ti_entry t) = true ∧ (ti_entry t ∉ hv_visited s) ∧ ti_entry t ∈ hv_visited s';
  ft_grows : hv_visited s ⊆ hv_visited s'
}.
Definition timers_filed (m : Mappings) (s s' : Harvest) : Prop := ∃ ts cs, filed_timers m s s' ts cs.

Lemma filed_timers_trans m s1 s2 s3 ts cs ts' cs' :
  filed_timers m s1 s2 ts cs → filed_timers m s2 s3 ts' cs' → filed_timers m s1 s3 (ts ++ ts') (cs ++ cs').
Proof.
  intros [A1 A2 A3 A4 A5 A6 A7] [B1 B2 B3 B4 B5 B6 B7]. split.
  - by rewrite B1, A1, app_assoc.
  - by rewrite B2.
  - by rewrite B3, A3, app_assoc.
  - by rewrite fmap_app, omap_app, A4, B4.
  - rewrite fmap_app. apply NoDup_app. split; [done|]. split; [|done].
    intros a (t & -> & Ht)%list_elem_of_fmap (t' & E & Ht')%list_elem_of_fmap.
    destruct (A6 t Ht) as (_ & _ & ?), (B6 t' Ht') as (_ & ? & _). congruence.
  - intros t [Ht|Ht]%elem_of_app; [destruct (A6 t Ht) as (? & ? & ?)|destruct (B6 t Ht) as (? & ? & ?)];
      (split; [done|]); split; set_solver.
  - set_solver.
Qed.

#[global] Instance timers_filed_preorder m : PreOrder (timers_filed m).
Proof.
  split.
  - intros s. exists [], []. split; rewrite ?app_nil_r; try done; [constructor|].
    intros t Ht. by apply elem_of_nil in Ht.
  - intros s1 s2 s3 (ts & cs & A) (ts' & cs' & B). exists (ts ++ ts'), (cs ++ cs').
    by eapply filed_timers_trans.
Qed.

(** Waiters of the resource in hand, with the finds their tasks make. *)
Record filed_waiters (s s' : Harvest) (ws : list IoWaiterInfo) (cs : list Candidate) : Prop := {
  fw_waiters : hv_waiters s' = hv_waiters s ++ ws;
  fw_registries : hv_registries s' = hv_registries s;
  fw_found : hv_found s' = hv_found s ++ cs;
  fw_tasks : candidate_addr <$> cs = omap iw_task ws;
  fw_grows : hv_visited s ⊆ hv_visited s'
}.
Definition waiters_filed (s s' : Harvest) : Prop := ∃ ws cs, filed_waiters s s' ws cs.

#[global] Instance waiters_filed_preorder : PreOrder waiters_filed.
Proof.
  split.
  - intros s. exists [], []. split; rewrite ?app_nil_r; done.
  - intros s1 s2 s3 (ws & cs & [A1 A2 A3 A4 A5]) (ws' & cs' & [B1 B2 B3 B4 B5]).
    exists (ws ++ ws'), (cs ++ cs'). split.
    + by rewrite B1, A1, app_assoc.
    + by rewrite B2.
    + by rewrite B3, A3, app_assoc.
    + by rewrite fmap_app, omap_app, A4, B4.
    + set_solver.
Qed.

(** Resources filed by a walk, as the entries of a wheel are. *)
Record filed_io (m : Mappings) (s s' : Harvest) (rs : list IoResourceInfo) (cs : list Candidate) : Prop := {
  fi_io : rg_io (hv_registries s') = rg_io (hv_registries s) ++ rs;
  fi_timers : rg_timers (hv_registries s') = rg_timers (hv_registries s);
  fi_found : hv_found s' = hv_found s ++ cs;
  fi_tasks : candidate_addr <$> cs = omap iw_task (rs ≫= io_waiters);
  fi_distinct : NoDup (io_addr <$> rs);
  fi_new r : r ∈ rs → contains_addr m (io_addr r) = true ∧ (io_addr r ∉ hv_visited s) ∧ io_addr r ∈ hv_visited s';
  fi_grows : hv_visited s ⊆ hv_visited s'
}.
Definition io_filed (m : Mappings) (s s' : Harvest) : Prop := ∃ rs cs, filed_io m s s' rs cs.

#[global] Instance io_filed_preorder m : PreOrder (io_filed m).
Proof.
  split.
  - intros s. exists [], []. split; rewrite ?app_nil_r; try done; [constructor|].
    intros t Ht. by apply elem_of_nil in Ht.
  - intros s1 s2 s3 (ts & cs & [A1 A2 A3 A4 A5 A6 A7]) (ts' & cs' & [B1 B2 B3 B4 B5 B6 B7]).
    exists (ts ++ ts'), (cs ++ cs'). split.
    + by rewrite B1, A1, app_assoc.
    + by rewrite B2.
    + by rewrite B3, A3, app_assoc.
    + by rewrite fmap_app, bind_app, omap_app, A4, B4.
    + rewrite fmap_app. apply NoDup_app. split; [done|]. split; [|done].
      intros a (t & -> & Ht)%list_elem_of_fmap (t' & E & Ht')%list_elem_of_fmap.
      destruct (A6 t Ht) as (_ & _ & ?), (B6 t' Ht') as (_ & ? & _). congruence.
    + intros t [Ht|Ht]%elem_of_app; [destruct (A6 t Ht) as (? & ? & ?)|destruct (B6 t Ht) as (? & ? & ?)];
        (split; [done|]); split; set_solver.
    + set_solver.
Qed.

Section registries.
Context `{Demangler} {T : Type} `{!Target T} (cx : ChainCtx T) (statics : list (StaticRole * StaticDef)).
Abbreviation m := (cc_mappings cx).

(** ** Nodes and wakers *)

Lemma node_at_Ret ty addr s s' r : node_at cx ty addr s = Ret (s', r) →
  (s' = s ∧ ∃ e, r = inr e) ∨
  (contains_addr m addr = true ∧ (addr ∉ hv_visited s) ∧ s' = visited_insert addr s).
Proof.
  unfold node_at. intros [(s1 & [] & [-> Hc]%eff_ensure_Ret & Hn)|(e & [-> _]%eff_ensure_Ret & ->)]%eff_bind_Ret; [|eauto].
  destruct Hc as [[Hc _]|[_ [=]]].
  apply eff_bind_Ret in Hn as [(s1 & v & [-> [= ->]]%eff_get_Ret & Hn)|(e & [-> [=]]%eff_get_Ret & _)].
  apply eff_bind_Ret in Hn as [(s1 & [] & [-> Hv]%eff_ensure_Ret & Hn)|(e & [-> _]%eff_ensure_Ret & ->)]; [|eauto].
  destruct Hv as [[Hv%negb_true_iff%bool_decide_eq_false _]|[_ [=]]].
  apply eff_bind_Ret in Hn as [(s1 & [] & [-> _]%eff_modify_Ret & Hn)|(e & [-> [=]]%eff_modify_Ret & _)].
  apply eff_lift_Ret in Hn as [-> _]. by right.
Qed.

(** A waker's find is the task it names. *)
Lemma registry_waker_Ret raw holder source route s s' r :
  registry_waker cx statics raw holder source route s = Ret (s', r) →
  (s' = s ∧ ((∃ e, r = inr e) ∨ r = inl None)) ∨
  ∃ a c, r = inl (Some a) ∧ candidate_addr c = a ∧ s' = found_push c s.
Proof.
  unfold registry_waker. intros [(s1 & w & [-> _]%eff_lift_Ret & Hn)|(e & [-> _]%eff_lift_Ret & ->)]%eff_bind_Ret; [|eauto].
  destruct w as [a id| |]; [|apply eff_ret_Ret in Hn as [-> ->]; eauto..].
  apply eff_bind_Ret in Hn as [(s1 & [] & [-> _]%eff_modify_Ret & Hn)|(e & [-> [=]]%eff_modify_Ret & _)].
  apply eff_ret_Ret in Hn as [-> ->]. right. eexists a, _. split; [done|]. split; [|reflexivity]. done.
Qed.

Lemma next_of_keeps (R : Harvest → Harvest → Prop) `{!PreOrder R} role node : keeps_rel R (next_of cx role node).
Proof. unfold next_of, hv_task. keeps. Qed.
Lemma beside_keeps (R : Harvest → Harvest → Prop) `{!PreOrder R} {V} (parser : Parser V) role node :
  keeps_rel R (beside cx parser role node).
Proof. unfold beside. keeps. Qed.

Lemma next_of_state role node s s' r : next_of cx role node s = Ret (s', r) → s' = s.
Proof. intros Hn. symmetry. by eapply (next_of_keeps eq). Qed.
Lemma beside_state {V} (parser : Parser V) role node s s' r : beside cx parser role node s = Ret (s', r) →
  s' = s ∧ ∃ v, r = inl v.
Proof.
  intros Hn. split; [symmetry; by eapply (beside_keeps eq)|]. revert Hn. unfold beside.
  intros [(s1 & v & _ & [_ ->]%eff_ret_Ret)|(e & [_ He]%eff_lift_Ret & _)]%eff_bind_Ret; [eauto|].
  unfold infallible in He. by destruct (ok_of _).
Qed.

(** ** The wheel *)

Lemma timers_filed_visit addr s :
  contains_addr m addr = true → addr ∉ hv_visited s → filed_timers m s (visited_insert addr s) [] [].
Proof.
  intros Hc Hv. split; rewrite ?app_nil_r; try done; [constructor| |cbn; set_solver].
  intros t Ht. by apply elem_of_nil in Ht.
Qed.

(** The task a waker of the wheel names, and where the waker is. *)
Lemma wheel_waker_Ret w entry s s' r :
  (match walked_optional w with
   | Some raw => task ←% registry_waker cx statics raw entry TimerWaker Wheel; eff_ret (task, Some (val_addr raw))
   | None => eff_ret (None, None)
   end) s = Ret (s', r) →
  (s' = s ∧ ((∃ e, r = inr e) ∨ ∃ at_, r = inl (None, at_))) ∨
  ∃ a c at_, r = inl (Some a, at_) ∧ candidate_addr c = a ∧ s' = found_push c s.
Proof.
  destruct (walked_optional w) as [raw|]; [|intros [-> ->]%eff_ret_Ret; left; eauto].
  intros [(s1 & t & Hw & [-> ->]%eff_ret_Ret)|(e & Hw & ->)]%eff_bind_Ret; apply registry_waker_Ret in Hw.
  - destruct Hw as [[-> [(? & [=])|[= ->]]]|(a & c & [= ->] & Hc & ->)]; [left; eauto|right; by eauto 6].
  - destruct Hw as [[-> _]|(? & ? & [=] & _)]. left. eauto.
Qed.

Lemma timers_filed_push addr task state at_ deadline s s1 cs :
  contains_addr m addr = true → addr ∉ hv_visited s →
  s1 = visited_insert addr s ∧ task = None ∧ cs = [] ∨
    (∃ a c, s1 = found_push c (visited_insert addr s) ∧ task = Some a ∧ candidate_addr c = a ∧ cs = [c]) →
  filed_timers m s (timers_push (mkTimerEntry addr state task at_ deadline) s1)
    [mkTimerEntry addr state task at_ deadline] cs.
Proof.
  intros Hc Hv Hs.
  destruct Hs as [(-> & -> & ->)|(a & c & -> & -> & Ha & ->)]; (split; [done|done| |by cbn; rewrite ?Ha|apply NoDup_singleton| |cbn; set_solver]).
  1, 3: by cbn; rewrite ?app_nil_r.
  all: intros t ->%list_elem_of_singleton; cbn; set_solver.
Qed.

(** The entries of a slot's walk, with the deadline each state names. *)
Definition entry_at (start : option RawInstant) (a : Z) (t : TimerEntryInfo) : Prop :=
  ti_entry t = a ∧ ti_deadline t = (start ← start; state ← ti_state t; wheel_deadline start state).

(** A link files its own entry, or none where it fails before it is read. *)
Lemma wheel_node_entry entry_ty start addr s s' r :
  wheel_node cx statics entry_ty start addr s = Ret (s', r) →
  ∃ ts cs, filed_timers m s s' ts cs ∧ Forall (entry_at start addr) ts ∧
    (length ts = 1%nat ∨ ts = [] ∧ ∃ e, r = inr e).
Proof.
  assert (Hnone : ∀ e, contains_addr m addr = true → addr ∉ hv_visited s →
    ∃ ts cs, filed_timers m s (visited_insert addr s) ts cs ∧ Forall (entry_at start addr) ts ∧
    (length ts = 1%nat ∨ ts = [] ∧ ∃ e', @inr (option Z) HarvestError e = inr e')).
  { intros e Hc Hv. exists [], []. split; [by apply timers_filed_visit|]. split; [constructor|]. right. eauto. }
  unfold wheel_node.
  intros [(s1 & entry & Hn & Hr)|(e & Hn & ->)]%eff_bind_Ret; apply node_at_Ret in Hn;
    destruct Hn as [[-> Hne]|(Hc & Hv & ->)].
  { by destruct Hne as [? [=]]. }
  2: { exists [], []. split; [|split; [constructor|right; eauto]].
       split; rewrite ?app_nil_r; try done; [constructor|]. intros t Ht. by apply elem_of_nil in Ht. }
  2: by apply Hnone.
  apply eff_bind_Ret in Hr as [(s1 & w & [-> _]%eff_lift_Ret & Hr)|(e & [-> _]%eff_lift_Ret & ->)];
    [|by apply Hnone].
  apply eff_bind_Ret in Hr as [(s1 & [task at_] & Hw & Hr)|(e & Hw & ->)]; apply wheel_waker_Ret in Hw.
  2: { destruct Hw as [[-> _]|(? & ? & ? & [=] & _)]. by apply Hnone. }
  assert (∃ cs, s1 = visited_insert addr s ∧ task = None ∧ cs = [] ∨
    (∃ a c, s1 = found_push c (visited_insert addr s) ∧ task = Some a ∧ candidate_addr c = a ∧ cs = [c]))
    as (cs & Hs1).
  { destruct Hw as [[-> [(? & [=])|(? & [= -> _])]]|(a & c & ? & [= -> _] & Ha & ->)];
      [exists []; by left|exists [c]; right; by exists a, c]. }
  apply eff_bind_Ret in Hr as [(s2 & state & [-> _]%beside_state & Hr)|(e & [_ [? [=]]]%beside_state & _)].
  apply eff_bind_Ret in Hr as [(s2 & [] & [-> _]%eff_modify_Ret & Hr)|(e & [_ [=]]%eff_modify_Ret & _)].
  apply next_of_state in Hr as ->. eexists [_], cs. split; [by eapply timers_filed_push|].
  split; [|by left]. apply Forall_singleton. done.
Qed.

Lemma wheel_node_filed entry_ty start addr :
  keeps_rel (timers_filed m) (wheel_node cx statics entry_ty start addr).
Proof. intros s s' r (ts & cs & Hf & _)%wheel_node_entry. by exists ts, cs. Qed.

Lemma harvest_wheel_filed runtime : keeps_rel (timers_filed m) (harvest_wheel cx statics runtime).
Proof.
  assert (He : ∀ e, keeps_rel (timers_filed m) (eff_modify (E := HarvestError) (errors_push e))).
  { intros e. apply keeps_modify. intros s. exists [], [].
    split; rewrite ?app_nil_r; try done; [constructor|]. intros t Ht. by apply elem_of_nil in Ht. }
  assert (Ht : ∀ t, keeps_rel (timers_filed m) (eff_modify (E := HarvestError) (set_stopped t))).
  { intros e. apply keeps_modify. intros s. exists [], [].
    split; rewrite ?app_nil_r; try done; [constructor|]. intros t Ht. by apply elem_of_nil in Ht. }
  unfold harvest_wheel, wheel_level, wheel_slot, walk_wheel_slot, hv_task, hv_elements, parse_addr.
  keeps; apply wheel_node_filed.
Qed.

(** ** The io driver *)

Lemma waiters_filed_push slot task at_ node ready s s1 cs :
  s1 = s ∧ task = None ∧ cs = [] ∨
    (∃ a c, s1 = found_push c s ∧ task = Some a ∧ candidate_addr c = a ∧ cs = [c]) →
  waiters_filed s (waiters_push (mkIoWaiter slot task at_ node ready) s1).
Proof.
  intros Hs. exists [mkIoWaiter slot task at_ node ready], cs.
  destruct Hs as [(-> & -> & ->)|(a & c & -> & -> & Ha & ->)]; split; cbn; rewrite ?app_nil_r, ?Ha; done.
Qed.

(** A registry's waker, as a waiter's task. *)
Lemma registry_waker_task raw holder source route s s1 task :
  registry_waker cx statics raw holder source route s = Ret (s1, inl task) →
  ∃ cs, s1 = s ∧ task = None ∧ cs = [] ∨
    (∃ a c, s1 = found_push c s ∧ task = Some a ∧ candidate_addr c = a ∧ cs = [c]).
Proof.
  intros [[-> [(? & [=])|[= ->]]]|(a & c & [= ->] & Ha & ->)]%registry_waker_Ret;
    [exists []; by left|exists [c]; right; by exists a, c].
Qed.
Lemma registry_waker_failed raw holder source route s s1 e :
  registry_waker cx statics raw holder source route s = Ret (s1, inr e) → s1 = s.
Proof. by intros [[-> _]|(? & ? & [=] & _)]%registry_waker_Ret. Qed.

Lemma io_slot_filed registration waiters e : keeps_rel waiters_filed (io_slot cx statics registration waiters e).
Proof.
  unfold io_slot, hv_task. apply keeps_bind; [typeclasses eauto|keeps|]. intros w.
  destruct (walked_optional w) as [raw|]; [|keeps].
  intros s s' r [(s1 & task & Hw & [-> _]%eff_modify_Ret)|(e' & Hw & _)]%eff_bind_Ret.
  - apply registry_waker_task in Hw as [cs Hw]. by eapply waiters_filed_push.
  - by apply registry_waker_failed in Hw as ->.
Qed.

Lemma io_node_filed node_ty addr : keeps_rel waiters_filed (io_node cx statics node_ty addr).
Proof.
  unfold io_node, hv_task. apply keeps_bind; [typeclasses eauto| |intros node].
  { intros s s' r [[-> _]|(_ & _ & ->)]%node_at_Ret; [done|]. exists [], [].
    split; rewrite ?app_nil_r; try done. cbn. set_solver. }
  apply keeps_bind; [typeclasses eauto|keeps|intros w].
  apply keeps_bind; [typeclasses eauto| |intros _; by apply (next_of_keeps waiters_filed)].
  destruct (walked_optional w) as [raw|]; [|keeps].
  intros s s' r [(s1 & task & Hw & Hr)|(e' & Hw & _)]%eff_bind_Ret.
  2: by apply registry_waker_failed in Hw as ->.
  apply registry_waker_task in Hw as [cs Hw].
  apply eff_bind_Ret in Hr as [(s2 & interest & [-> _]%beside_state & Hr)|(e & [_ [? [=]]]%beside_state & _)].
  apply eff_bind_Ret in Hr as [(s2 & ready & [-> _]%beside_state & Hr)|(e & [_ [? [=]]]%beside_state & _)].
  apply eff_modify_Ret in Hr as [-> _]. by eapply waiters_filed_push.
Qed.

Lemma harvest_io_waiters_filed registration : keeps_rel waiters_filed (harvest_io_waiters cx statics registration).
Proof.
  unfold harvest_io_waiters, head_of, hv_task. keeps; [apply io_slot_filed|apply io_node_filed].
Qed.

Lemma io_filed_same s s1 :
  hv_registries s1 = hv_registries s → hv_found s1 = hv_found s → hv_visited s ⊆ hv_visited s1 → io_filed m s s1.
Proof.
  intros Hr Hf Hv. exists [], []. split; rewrite ?app_nil_r, ?Hr; try done; [constructor|].
  intros t Ht. by apply elem_of_nil in Ht.
Qed.

Lemma registration_node_filed io_ty addr : keeps_rel (io_filed m) (registration_node cx statics io_ty addr).
Proof.
  intros s s' r. unfold registration_node.
  intros [(s1 & reg & Hn & Hr)|(e & Hn & ->)]%eff_bind_Ret; apply node_at_Ret in Hn;
    destruct Hn as [[-> Hne]|(Hc & Hv & ->)].
  { by destruct Hne as [? [=]]. }
  2: done.
  2: { apply io_filed_same; [done..|cbn; set_solver]. }
  apply eff_bind_Ret in Hr as [(s2 & readiness & [-> _]%beside_state & Hr)|(e & [_ [? [=]]]%beside_state & _)].
  apply eff_bind_Ret in Hr as [(s2 & guard & [-> _]%eff_lift_Ret & Hr)|(e & [-> _]%eff_lift_Ret & ->)].
  2: { apply io_filed_same; [done..|cbn; set_solver]. }
  apply eff_bind_Ret in Hr as [(s2 & [] & [-> _]%eff_modify_Ret & Hr)|(e & [_ [=]]%eff_modify_Ret & _)].
  apply eff_bind_Ret in Hr as [(s2 & res & (x & Hw & [= <-])%eff_try_Ret & Hr)|(e & (x & _ & [=])%eff_try_Ret & _)].
  apply harvest_io_waiters_filed in Hw as (ws & cs & [W1 W2 W3 W4 W5]). cbn in W1, W2, W3, W5.
  assert (∃ s3, hv_waiters s3 = ws ∧ hv_registries s3 = hv_registries s ∧ hv_found s3 = hv_found s ++ cs ∧
    {[addr]} ∪ hv_visited s ⊆ hv_visited s3 ∧
    (waiters ←% eff_get hv_waiters;
     _ ←% eff_modify (io_push (mkIoResource addr readiness guard waiters));
     next_of cx ScheduledIoNext reg) s3 = Ret (s', r)) as (s3 & E1 & E2 & E3 & E4 & Hr').
  { destruct res as [[]|e].
    - apply eff_bind_Ret in Hr as [(s3 & [] & [-> _]%eff_ret_Ret & Hr)|(e & [_ [=]]%eff_ret_Ret & _)]. by exists s2.
    - apply eff_bind_Ret in Hr as [(s3 & [] & [-> _]%eff_modify_Ret & Hr)|(e' & [_ [=]]%eff_modify_Ret & _)].
      by exists (errors_push (HvWaiters addr e) s2). }
  clear Hr. apply eff_bind_Ret in Hr' as [(s4 & waiters & [-> [= ->]]%eff_get_Ret & Hr)|(e & [_ [=]]%eff_get_Ret & _)].
  apply eff_bind_Ret in Hr as [(s4 & [] & [-> _]%eff_modify_Ret & Hr)|(e & [_ [=]]%eff_modify_Ret & _)].
  apply next_of_state in Hr as ->. exists [mkIoResource addr readiness guard (hv_waiters s3)], cs.
  split; cbn; rewrite ?E1, ?E2, ?E3; try done.
  - by rewrite app_nil_r.
  - apply NoDup_singleton.
  - intros x ->%list_elem_of_singleton. cbn. split; [done|]. split; [done|]. apply E4. set_solver.
  - etransitivity; [|done]. set_solver.
Qed.

Lemma harvest_io_filed runtime : keeps_rel (io_filed m) (harvest_io cx statics runtime).
Proof. unfold harvest_io, head_of, hv_task. keeps. apply registration_node_filed. Qed.

(** ** Termination *)

Definition unvisited (s : Harvest) : nat := base.size (mapped_set m ∖ hv_visited s).

(** A step that goes on has visited an address more. *)
Lemma visited_less addr s s' :
  contains_addr m addr = true → addr ∉ hv_visited s → {[addr]} ∪ hv_visited s ⊆ hv_visited s' →
  (unvisited s' < unvisited s)%nat.
Proof.
  intros Hc Hv Hs. unfold unvisited. pose proof (mapped_less m (hv_visited s) addr (contains_mapped _ _ Hc) Hv).
  assert (base.size (mapped_set m ∖ hv_visited s') <= base.size (mapped_set m ∖ ({[addr]} ∪ hv_visited s)))%nat
    by (apply subseteq_size; set_solver).
  lia.
Qed.

Lemma unvisited_fuel s : (unvisited s < walk_fuel cx)%nat.
Proof.
  unfold unvisited, walk_fuel. pose proof (mapped_size m).
  assert (base.size (mapped_set m ∖ hv_visited s) <= base.size (mapped_set m))%nat by (apply subseteq_size; set_solver).
  lia.
Qed.

Lemma node_step {A} ty addr (k : Value → harvesting A) s s' next :
  (∀ node, keeps_rel grows (k node)) →
  (node ←% node_at cx ty addr; k node) s = Ret (s', inl next) → (unvisited s' < unvisited s)%nat.
Proof.
  intros Hk [(s1 & node & Hn & Hr)|(e & _ & [=])]%eff_bind_Ret.
  apply node_at_Ret in Hn as [[_ [? [=]]]|(Hc & Hv & ->)]. apply Hk in Hr. by eapply visited_less.
Qed.

Lemma keeps_grows f : (∀ s, hv_visited (f s) = hv_visited s) → keeps_rel grows (eff_modify (E := HarvestError) f).
Proof. intros Hf. apply keeps_modify. intros s. unfold grows. by rewrite Hf. Qed.
Lemma registry_waker_grows raw holder source route :
  keeps_rel grows (registry_waker cx statics raw holder source route).
Proof. unfold registry_waker. keeps. by apply keeps_grows. Qed.
Lemma node_at_grows ty addr : keeps_rel grows (node_at cx ty addr).
Proof. intros s s' r [[-> _]|(_ & _ & ->)]%node_at_Ret; [done|]. unfold grows. cbn. set_solver. Qed.

Lemma wheel_node_less entry_ty start a s s' next :
  wheel_node cx statics entry_ty start a s = Ret (s', inl next) → (unvisited s' < unvisited s)%nat.
Proof.
  apply node_step. intros node. unfold hv_task. keeps; try apply registry_waker_grows; try apply beside_keeps;
    try apply next_of_keeps; try typeclasses eauto; by apply keeps_grows.
Qed.
Lemma io_node_less node_ty a s s' next :
  io_node cx statics node_ty a s = Ret (s', inl next) → (unvisited s' < unvisited s)%nat.
Proof.
  apply node_step. intros node. unfold hv_task. keeps; try apply registry_waker_grows; try apply beside_keeps;
    try apply next_of_keeps; try typeclasses eauto; by apply keeps_grows.
Qed.
Lemma registration_node_less io_ty a s s' next :
  registration_node cx statics io_ty a s = Ret (s', inl next) → (unvisited s' < unvisited s)%nat.
Proof.
  apply node_step. intros node. keeps; try apply beside_keeps; try apply next_of_keeps; try typeclasses eauto.
  1, 3, 4: by apply keeps_grows.
  intros s1 s2 r1 (ws & cs & [_ _ _ _ ?])%harvest_io_waiters_filed. done.
Qed.

(** A walk over nodes ends: it panics only where a node's read does. *)
Lemma chain_ends (step : Z → harvesting (option Z)) cur s :
  (∀ a s s' next, step a s = Ret (s', inl next) → (unvisited s' < unvisited s)%nat) →
  match eff_chain (walk_fuel cx) step cur s with
  | Ret (s', r) => ∃ l, chain_run step cur s l s' (match r with inl _ => None | inr e => Some e end)
  | Panic => ∃ a s, step a s = Panic
  end.
Proof. intros Hs. apply (eff_chain_run step unvisited Hs), unvisited_fuel. Qed.

(** ** The blocking queue *)

(** Cells filed from queues: each a slot's, of the runtime. *)
Definition queued_filed (owner : OwnerKey) (s s' : Harvest) : Prop :=
  hv_visited s' = hv_visited s ∧ hv_registries s' = hv_registries s ∧
  ∃ cs, hv_found s' = hv_found s ++ cs ∧ ∀ c, c ∈ cs → ∃ a queue entry, c = Queued a owner queue entry.

#[global] Instance queued_filed_preorder owner : PreOrder (queued_filed owner).
Proof.
  split.
  - intros s. do 2 (split; [done|]). exists []. rewrite app_nil_r. split; [done|].
    intros c Hc. by apply elem_of_nil in Hc.
  - intros s1 s2 s3 (A1 & A2 & cs & A3 & A4) (B1 & B2 & cs' & B3 & B4).
    split; [congruence|]. split; [congruence|]. exists (cs ++ cs'). rewrite B3, A3, app_assoc. split; [done|]. intros c [Hc|Hc]%elem_of_app; eauto.
Qed.

Lemma queued_blocking_filed runtime : keeps_rel (queued_filed (runtime_key runtime)) (queued_blocking cx runtime).
Proof.
  set (R := queued_filed (runtime_key runtime)).
  assert (He : ∀ e, keeps_rel R (eff_modify (E := HarvestError) (errors_push e))).
  { intros e. apply keeps_modify. intros s. do 2 (split; [done|]). exists []. rewrite app_nil_r. split; [done|].
    intros c Hc. by apply elem_of_nil in Hc. }
  assert (Hf : ∀ a queue entry, keeps_rel R (eff_modify (E := HarvestError) (found_push (Queued a (runtime_key runtime) queue entry)))).
  { intros a queue entry. apply keeps_modify. intros s. do 2 (split; [done|]). eexists [_]. split; [done|].
    intros c ->%list_elem_of_singleton. eauto. }
  unfold queued_blocking, queued_in, queue_slot, hv_task. keeps.
Qed.
End registries.

Section wheel.
Context `{Demangler} {T : Type} `{!Target T} (cx : ChainCtx T) (statics : list (StaticRole * StaticDef)).
Abbreviation m := (cc_mappings cx).

(** The links a walk followed, each an entry filed, the last of which it may not have
    got to file. *)
Lemma wheel_chain_entries entry_ty start cur s l s' e :
  chain_run (wheel_node cx statics entry_ty start) cur s l s' e →
  ∃ ts cs, filed_timers m s s' ts cs ∧
    ∃ filed, Forall2 (entry_at start) filed ts ∧
      (l = filed ∨ e ≠ None ∧ ∃ a, l = filed ++ [a]).
Proof.
  induction 1 as [s|a s s1 next l s' e Hs _ (ts & cs & Hf & d & Hd & Hl)|a s s1 e Hs].
  - exists [], []. split; [|exists []; split; [constructor|by left]].
    split; rewrite ?app_nil_r; try done; [constructor|]. intros t Ht. by apply elem_of_nil in Ht.
  - apply wheel_node_entry in Hs as (ts1 & cs1 & Hf1 & Ht & [Hn|(_ & ? & [=])]).
    destruct ts1 as [|t [|]]; try done. pose proof (proj1 (Forall_singleton _ _) Ht) as Ht1.
    exists ([t] ++ ts), (cs1 ++ cs). split; [by eapply filed_timers_trans|].
    exists (a :: d). split; [by constructor|].
    destruct Hl as [->|(He & a' & ->)]; [by left|right]. split; [done|]. by exists a'.
  - apply wheel_node_entry in Hs as (ts & cs & Hf & Ht & Hn). exists ts, cs. split; [done|].
    destruct Hn as [Hn|[-> _]]; [|exists []; split; [constructor|right; split; [done|by exists a]]].
    destruct ts as [|t [|]]; try done. pose proof (proj1 (Forall_singleton _ _) Ht) as Ht1.
    exists [a]. split; [constructor; [done|constructor]|by left].
Qed.
End wheel.

(** C12: a walk of a wheel's slot ends and is exact.  It panics only where the read of an
    entry does; otherwise it followed the links from the head, filing for each link, in
    order, one entry at the link's own address, new to the harvests before it, with the
    deadline its state names from the driver's epoch; the finds it adds are the tasks of
    those entries' wakers, in order; and where it fails the one link it failed on alone
    may be missing. *)
Theorem wheel_slot_exact `{Demangler} {T} `{!Target T} (cx : ChainCtx T) statics head entry_ty start s :
  let node := wheel_node cx statics entry_ty start in
  match walk_wheel_slot cx statics head entry_ty start s with
  | Panic => ∃ a s1, node a s1 = Panic
  | Ret (s', r) => ∃ l ts cs filed,
      chain_run node (Some head) s l s' (match r with inl _ => None | inr e => Some e end) ∧
      filed_timers (cc_mappings cx) s s' ts cs ∧ Forall2 (entry_at start) filed ts ∧
      (l = filed ∨ r ≠ inl () ∧ ∃ a, l = filed ++ [a])
  end.
Proof.
  cbv zeta. unfold walk_wheel_slot.
  pose proof (chain_ends cx (wheel_node cx statics entry_ty start) (Some head) s) as Hc.
  specialize (Hc ltac:(intros; by eapply wheel_node_less)).
  destruct (eff_chain _ _ _ _) as [[s' r]|]; [|done]. destruct Hc as [l Hl].
  destruct (wheel_chain_entries _ _ _ _ _ _ _ _ _ Hl) as (ts & cs & Hf & d & Hd & Hld).
  exists l, ts, cs, d. repeat (split; [done|]).
  destruct Hld as [->|(He & a & ->)]; [by left|right]. split; [by destruct r|by exists a].
Qed.

(** ** A slot of two entries

    The first entry's waker is the first task's, the second's is not a task's; the
    second links back to the first. *)

Definition wheel_bundle : Bundle :=
  mkBundle (table_of (bytes_of_string <$> task_names ++ ["Entry"; "Waker"; "data"; "vtbl"; "waker"]%string))
    (mkTypeTable (task_types ++
       [TStruct 23 16 [mkMember 24 0%nat 0; mkMember 25 0%nat 8];
        TStruct 22 32 [mkMember 13 1%nat 0; mkMember 5 0%nat 8; mkMember 26 10%nat 16]]) [])
    (task_walks ++
       [(WakerData, task_walk 10%nat [Member (Named 24)]);
        (WakerVtable, task_walk 10%nat [Member (Named 25)]);
        (TimerSharedNext, task_walk 11%nat [Member (Named 13); Variant 2]);
        (TimerSharedWaker, task_walk 11%nat [Member (Named 26)]);
        (TimerSharedState, task_walk 11%nat [Member (Named 5)])]).

Definition wheel_proc : Flat :=
  mkLabelled 4096 (mjoin (to_le_bytes 8 <$> task_memory ++ [4344; 5; 4144; 20992; 4312; W64 - 1; 4184; 111]))
    [(20480, "poll_a"%string); (20992, "WAKER"%string)].

Definition wheel_cx : ChainCtx Flat :=
  mkChainCtx wheel_bundle [] [] (mkInfra 2 3 4 7 0)%nat
    [mkTaskEntry 0 2 (Some CMultiThread)] [] (mkSymbols {[bytes_of_string "poll_a" := [0]]} ∅) (mkSymbols ∅ ∅)
    [mkObject (Some "a.out"%string) 4096 4096 6] wheel_proc (mkTables [] ∅ ∅) ∅.

Definition wheel_statics : list (StaticRole * StaticDef) := [(TaskWakerVtable, mkStatic "WAKER" "WAKER")].

Example wheel_slot_walked :
  match walk_wheel_slot wheel_cx wheel_statics 4312 11%nat (Some (mkInstant 10 0))
          (mkHarvest ∅ [] [] [] (mkRegistries [] [] None)) with
  | Ret (s, inr (HvCycle 4312)) =>
      rg_timers (hv_registries s) =
        [mkTimerEntry 4312 (Some 5) (Some 4144) (Some 4328) (Some (mkInstant 10 5000000));
         mkTimerEntry 4344 (Some (W64 - 1)) None (Some 4360) None] ∧
      candidate_addr <$> hv_found s = [4144]
  | _ => False
  end.
Proof. vm_compute. repeat split. Qed.
