(* ===== verification/Containers.v ===== *)
(** The walks over the containers of futures and tasks
    ([hansei-runtime/src/tokio/census.rs], the container node walks): the node list of a
    [FuturesUnordered], the entries of a [StreamMap], the full buckets of a hash table, and
    the two lists of a [JoinSet].

    A walk hands each node to its caller's visit, which threads a state of its own and may
    stop the walk; whatever the visits made of the nodes before a failure is kept. *)

From S2P Require Import Prelude Text StringTable Target Symbols Schema BundleCheck TypeView DisplayResolve DisplayEval Discovery Value Elements Pairing Semantics Contract Chain TaskHeader OwnedLists Runtimes Effects Registries.

Local Open Scope Z_scope.

Definition SetHeadAll : Z := 61.
Definition SetNodeFuture : Z := 62.
Definition SetNodeNext : Z := 63.
Definition JoinSetLength : Z := 64.
Definition JoinSetLists : Z := 65.
Definition JoinSetNotifiedHead : Z := 66.
Definition JoinSetIdleHead : Z := 67.
Definition JoinSetEntryValue : Z := 68.
Definition JoinSetEntryNext : Z := 69.
Definition StreamMapEntries : Z := 166.
Definition StreamMapEntryStream : Z := 167.

(** ** Failures *)

(** The error of a read on the way to a value: what it was made of. *)
Inductive AnyError :=
  | AeSteps (e : StepError)
  | AeRole (e : RoleError)
  | AeParse (e : Error)
  | AeWaker (e : HarvestError)
  | AeChain (e : ChainError)
  | AeRead (what : string) (addr : Z) (e : Error)
  | AeEntries (addr : Z) (e : Error)
  | AeControl (ctrl : Z) (e : ErrorKind)
  | AeNotPointer (what : string)
  | AeNull (what : string)
  | AeNotOption (addr : Z)
  | AeHoldsNothing (addr : Z)
  | AeNotBound (what : string) (addr : Z)
  | AeMask (addr mask : Z)
  | AeItems (addr items buckets : Z)
  | AeNoType (id : BundleTypeId)
  | AeBelowZero (addr : Z)
  | AeNotHandle (addr : Z) (ty : str)
  | AeUnmapped (addr : Z) (ty : str)
  | AeRefused (ty : str) (r : Refusal)
  | AeKeyed (ty : str) (addr : Z) (e : Error)
  | AeTimerFlavor (variant : str)
  | AeNoStateRead (ty : str)
  | AeStateLanded (ty : str)
  | AeChosenVersion (ty active : str).

(** Why a node walk stopped short of the list's end. *)
Inductive NodeStop :=
  | NsUnmapped (what : string) (addr : Z)
  | NsRefused (what : string) (addr : Z) (r : Refusal)
  | NsCycle (what : string) (addr : Z)
  | NsCapped (unit_ : string) (max : Z)
  | NsFailed (e : AnyError).

(** ** The guards of a node *)

Record NodeWalk := mkNodeWalk {
  nw_what : string;
  nw_unit : string;
  nw_max : Z;
  nw_visited : gset Z;
  nw_count : Z
}.

(** [NodeWalk::new]. *)
Definition node_walk_new (what unit_ : string) (max : Z) : NodeWalk := mkNodeWalk what unit_ max ∅ 0.

(** A count of words, checked. *)
Definition table_base (buckets stride ctrl : Z) : option Z :=
  span ← checked_mul buckets stride; checked_sub ctrl span.

Record TableCount := mkTableCount { tc_items : Z; tc_full : Z }.

Section containers.
Context `{Demangler} {T : Type} `{!Target T} (cx : ChainCtx T) (read : ReadContext).
Abbreviation b := (cc_bundle cx).
Abbreviation proc := (cc_proc cx).

(** [NodeWalk::admit]. *)
Definition admit_node (w : NodeWalk) (addr size : Z) : NodeWalk + NodeStop :=
  let what := nw_what w in
  if negb (contains_addr (cc_mappings cx) addr) then inr (NsUnmapped what addr)
  else match refusal read addr size with
       | Some r => inr (NsRefused what addr r)
       | None =>
           if bool_decide (addr ∈ nw_visited w) then inr (NsCycle what addr)
           else if nw_max w <=? nw_count w then inr (NsCapped (nw_unit w) (nw_max w))
           else inl (mkNodeWalk what (nw_unit w) (nw_max w) ({[addr]} ∪ nw_visited w) (nw_count w + 1))
       end.

(** The [?] of an [anyhow] result in a walk. *)
Definition failing {A E} (f : E → AnyError) (m : fallible E A) : fallible NodeStop A :=
  map_err (NsFailed ∘ f) m.

Definition role_at_node (role : Z) (root : Value) : fallible NodeStop Value :=
  failing AeRole (walk_at_with b proc read role root).
Definition role_read_node {V} (parser : Parser V) (role : Z) (root : Value) : fallible NodeStop V :=
  failing AeRole (read_with b proc read parser role root).
Definition parse_word (v : Value) : fallible AnyError Z :=
  map_err AeParse (parse b (parse_unsigned 8) proc v).

(** What a pointer points to, by its type. *)
Definition pointee_type (what : string) (v : Value) : fallible AnyError BundleTypeId :=
  ty ←! infallible (pointer_target b (val_ty v)); ok_or_else ty (AeNotPointer what).

(** A list's next link: [walk(role).walk_with(..)?.optional().map(parse).transpose()?]. *)
Definition next_link (role : Z) (node : Value) : fallible AnyError (option Z) :=
  w ←! map_err AeRole (walk_with b proc read role node);
  match walked_optional w with
  | None => succeed None
  | Some ptr => a ←! parse_word ptr; succeed (Some a)
  end.

Section visits.
Context {S : Type}.
Abbreviation visiting := (eff S NodeStop).

(** A node admitted and read whole. *)
Definition enter_node (what : string) (w : NodeWalk) (ty : BundleTypeId) (addr : Z)
    : fallible NodeStop (NodeWalk * Value) :=
  size ←! infallible (ty_size b ty);
  match admit_node w addr size with
  | inr stop => throw stop
  | inl w => node ←! failing (AeRead what addr) (value_read b proc ty addr); succeed (w, node)
  end.

(** ** A set's nodes *)

(** The list from a node, its null link the end.  Admission refuses a node past the cap,
    so one turn more than the cap is every turn. *)
Fixpoint set_loop (fuel : nat) (ty : BundleTypeId) (visit : Z → Value → visiting ()) (w : NodeWalk)
    (cur : Z) : visiting () :=
  if cur =? 0 then eff_ret ()
  else match fuel with
       | O => λ _, Panic
       | Datatypes.S fuel =>
           '(w, node) ←% eff_lift (enter_node "set node" w ty cur);
           _ ←% visit cur node;
           next ←% eff_lift (role_read_node (parse_unsigned 8) SetNodeNext node);
           set_loop fuel ty visit w next
       end.

Definition walk_set_nodes (set : Value) (max : Z) (visit : Z → Value → visiting ()) : visiting () :=
  head_member ←% eff_lift (role_at_node SetHeadAll set);
  head ←% eff_lift (failing id (parse_word head_member));
  node_ty ←% eff_lift (failing id (pointee_type "head_all" head_member));
  set_loop (Datatypes.S (Z.to_nat max)) node_ty visit (node_walk_new "set node" "nodes" max) head.

(** ** A map's entries *)

Fixpoint fanout_loop (index : Z) (entries : list Value) (visit : Z → Value → Value → visiting ())
    : visiting () :=
  match entries with
  | [] => eff_ret ()
  | entry :: entries =>
      stream ←% eff_lift (role_at_node StreamMapEntryStream entry);
      _ ←% visit index entry stream;
      fanout_loop (index + 1) entries visit
  end.

(** The entries' buffer, held to the mappings and to the allocator. *)
Definition fanout_buffer (es : Elements) : fallible NodeStop () :=
  match el_iter es with
  | [] => succeed ()
  | first :: _ =>
      size ←! infallible (ty_size b (el_element es));
      if negb (contains_addr (cc_mappings cx) (val_addr first))
      then throw (NsUnmapped "StreamMap entries" (val_addr first))
      else match refusal read (val_addr first) (u64_mul (el_count es) size) with
           | Some r => throw (NsRefused "StreamMap entries" (val_addr first) r)
           | None => succeed ()
           end
  end.

Definition walk_fanout_entries (map : Value) (max : Z) (visit : Z → Value → Value → visiting ())
    : visiting Z :=
  entries ←% eff_lift (role_at_node StreamMapEntries map);
  es ←% eff_lift (failing (AeEntries (val_addr map)) (elements b proc entries));
  _ ←% eff_lift (fanout_buffer es);
  _ ←% fanout_loop 0 (take (Z.to_nat max) (el_iter es)) visit;
  if max <? el_count es then eff_throw (NsCapped "entries" max) else eff_ret (el_count es).

(** ** A table's buckets *)

(** One word of the table, where its binding says. *)
Definition table_word (map : Value) (path : TypedPath) (what : string) : fallible NodeStop Z :=
  w ←! failing AeSteps (execute_steps b proc read (tp_steps path) map);
  match walked_optional w with
  | Some landed =>
      if Nat.eqb (val_ty landed) (tp_target path) then failing id (parse_word landed)
      else throw (NsFailed (AeNotBound what (val_addr map)))
  | None => throw (NsFailed (AeNotBound what (val_addr map)))
  end.

(** A byte with its top bit clear marks a full bucket. *)
Definition is_full (c : Byte.byte) : bool := Z.land (byte_Z c) 128 =? 0.

Fixpoint table_loop (bucket : BundleTypeId) (stride ctrl max : Z) (visit : Z → Value → visiting ())
    (index : Z) (control : list Byte.byte) (full : Z) : visiting Z :=
  match control with
  | [] => eff_ret full
  | c :: control =>
      if negb (is_full c) then table_loop bucket stride ctrl max visit (index + 1) control full
      else if full =? max then eff_throw (NsCapped "buckets" max)
      else
        let addr := u64_sub ctrl (u64_mul (index + 1) stride) in
        v ←% eff_lift (failing (AeRead "bucket" addr) (value_read b proc bucket addr));
        _ ←% visit full v;
        table_loop bucket stride ctrl max visit (index + 1) control (full + 1)
  end.

(** The table's block: mapped at both ends and permitted, and its control bytes. *)
Definition table_control (base ctrl buckets : Z) : fallible NodeStop (list Byte.byte) :=
  match find_first (λ addr, negb (contains_addr (cc_mappings cx) addr)) [base; ctrl] with
  | Some addr => throw (NsUnmapped "hash table" addr)
  | None =>
      match refusal read base (u64_add (u64_sub ctrl base) buckets) with
      | Some r => throw (NsRefused "hash table" base r)
      | None =>
          match read_bytes proc ctrl buckets with
          | Ok bytes => succeed bytes
          | Err e => throw (NsFailed (AeControl ctrl e))
          end
      end
  end.

(** A table's shape from its words: its buckets and what one of them is. *)
Definition table_shape (map : Value) (table : HashTableBinding) (items : Z)
    : fallible NodeStop (Z * Z * Z) :=
  mask ←! table_word map (tb_bucket_mask table) "bucket mask";
  ctrl ←! table_word map (tb_ctrl table) "control pointer";
  buckets ←! ok_or_else (n ← checked_add mask 1; if is_power_of_two n then Some n else None)
    (NsFailed (AeMask (val_addr map) mask));
  if buckets <? items then throw (NsFailed (AeItems (val_addr map) items buckets))
  else
    _ ←! ok_or_else (ty_get (b_types b) (tb_bucket table)) (NsFailed (AeNoType (tb_bucket table)));
    stride ←! infallible (ty_size b (tb_bucket table));
    succeed (buckets, ctrl, stride).

Definition walk_table_buckets (map : Value) (table : HashTableBinding) (max : Z)
    (visit : Z → Value → visiting ()) : visiting TableCount :=
  items ←% eff_lift (table_word map (tb_items table) "item count");
  if items =? 0 then eff_ret (mkTableCount items 0)
  else
    '(buckets, ctrl, stride) ←% eff_lift (table_shape map table items);
    if stride =? 0 then eff_ret (mkTableCount items 0)
    else
      base ←% eff_lift (ok_or_else (table_base buckets stride ctrl) (NsFailed (AeBelowZero (val_addr map))));
      control ←% eff_lift (table_control base ctrl buckets);
      full ←% table_loop (tb_bucket table) stride ctrl max visit 0 control 0;
      eff_ret (mkTableCount items full).

(** ** A join set's entries *)

Fixpoint join_loop (fuel : nat) (ty : BundleTypeId) (visit : Z → Value → visiting ()) (w : NodeWalk)
    (cur : option Z) : visiting NodeWalk :=
  match cur with
  | None => eff_ret w
  | Some addr =>
      match fuel with
      | O => λ _, Panic
      | Datatypes.S fuel =>
          '(w, entry) ←% eff_lift (enter_node "join set entry" w ty addr);
          _ ←% visit addr entry;
          next ←% eff_lift (failing id (next_link JoinSetEntryNext entry));
          join_loop fuel ty visit w next
      end
  end.

(** One of the two lists; an absent head is an empty list. *)
Definition join_queue (lists : Value) (visit : Z → Value → visiting ()) (max : Z) (w : NodeWalk)
    (queue : Z) : visiting NodeWalk :=
  head ←% eff_lift (failing AeRole (walk_with b proc read queue lists));
  match walked_optional head with
  | None => eff_ret w
  | Some head =>
      entry_ty ←% eff_lift (failing id (pointee_type "list head" head));
      cur ←% eff_lift (failing id (parse_word head));
      join_loop (Datatypes.S (Z.to_nat max)) entry_ty visit w (Some cur)
  end.

(** [length] is where the caller keeps the set's own count. *)
Definition walk_join_set_entries (set : Value) (max : Z) (length : Z → S → S)
    (visit : Z → Value → visiting ()) : visiting () :=
  n ←% eff_lift (role_read_node (parse_unsigned 8) JoinSetLength set);
  _ ←% eff_modify (length n);
  lists ←% eff_lift (role_at_node JoinSetLists set);
  w ←% join_queue lists visit max (node_walk_new "join set entry" "entries" max) JoinSetNotifiedHead;
  _ ←% join_queue lists visit max w JoinSetIdleHead;
  eff_ret ().
End visits.

(** [join_set_entry_task]: the pointer a handle peels to, read without the allocator. *)
Definition join_set_entry_task (entry : Value) : fallible AnyError Z :=
  handle ←! map_err AeRole (walk_at_with b proc None JoinSetEntryValue entry);
  target ←! infallible (pointer_target b (val_ty handle));
  match target with
  | None => ty ←! infallible (ty_name b (val_ty handle)); throw (AeNotHandle (val_addr entry) ty)
  | Some _ => parse_word handle
  end.
End containers.
