(* ===== verification/Observe.v ===== *)
(** The raw observers of a waited-on resource ([hansei-runtime/src/tokio/bundle.rs], with
    the observations and issues of [observe.rs]): what a resource's own storage says, and
    the queues, channels and registrations it names, read on demand.

    Every failure is an issue at the value it is of.  A queue is walked node by node, each
    node charged to the budget, and a walk that stops keeps the nodes it reached.  The io
    operations and the HTTP connections of a bundle are read through routes of their own,
    which are an interface here. *)

From stdpp Require Import countable.
From S2P Require Import Prelude Text StringTable Target Symbols TaskGraph Schema BundleCheck TypeView DisplayResolve DisplayEval Discovery Work Value Elements Pairing Semantics Contract Chain TaskHeader OwnedLists Runtimes Effects Registries Containers.

Local Open Scope Z_scope.

Definition SleepDeadline : Z := 45.
Definition JoinHandleRaw : Z := 48.
Definition AcquireSemaphore : Z := 49.
Definition AcquireNumPermits : Z := 50.
Definition AcquireNode : Z := 51.
Definition AcquireNeeded : Z := 52.
Definition AcquireQueued : Z := 53.
Definition SemaphorePermits : Z := 54.
Definition SemaphoreQueueHead : Z := 55.
Definition WaiterNeeded : Z := 56.
Definition WaiterNext : Z := 57.
Definition WaiterWaker : Z := 58.
Definition SemaphoreClosed : Z := 122.
Definition SemaphoreLock : Z := 123.
Definition SleepTimerState : Z := 128.
Definition MpscRecvRx : Z := 130.
Definition MpscRecvChan : Z := 131.
Definition ChanTxCount : Z := 133.
Definition ChanTailPosition : Z := 134.
Definition ChanRxIndex : Z := 135.
Definition ChanRxHead : Z := 136.
Definition ChanRxClosed : Z := 137.
Definition ChanRxWakerState : Z := 138.
Definition ChanRxWaker : Z := 139.
Definition ChanSemaphorePermits : Z := 140.
Definition ChanSemaphoreBound : Z := 141.
Definition BlockStartIndex : Z := 142.
Definition BlockNext : Z := 143.
Definition BlockReadySlots : Z := 144.
Definition NotifiedNotify : Z := 145.
Definition RoleNotifiedState : Z := 146.
Definition NotifiedCalls : Z := 147.
Definition NotifiedWaiter : Z := 148.
Definition NotifyStateWord : Z := 149.
Definition NotifyLock : Z := 150.
Definition NotifyQueueHead : Z := 151.
Definition NotifyWaiterNext : Z := 152.
Definition NotifyWaiterWaker : Z := 153.
Definition NotifyWaiterNotification : Z := 154.
Definition OneshotInner : Z := 155.
Definition OneshotSenderInner : Z := 156.
Definition OneshotStateWord : Z := 157.
Definition OneshotRxTask : Z := 158.
Definition OneshotTxTask : Z := 159.
Definition OneshotValue : Z := 160.

(** ** Issues *)

#[global] Instance value_key_countable : Countable ValueKey.
Proof.
  by refine (inj_countable' (λ k, (vk_addr k, vk_ty k)) (λ p, mkValueKey p.1 p.2) _); intros [].
Defined.

Inductive WalkIssueKind :=
  | IkReadFailed | IkFreed | IkOutsideAllocation | IkInvalidLayout | IkInactiveStorage
  | IkUnknownInitialization | IkUnknownContinuation | IkUnknownDynamicType
  | IkAmbiguousDynamicType | IkUnsupportedArray | IkDepthLimit | IkHopLimit | IkVisitLimit
  | IkCycle | IkCountMismatch.

#[global] Instance walk_issue_kind_eq_dec : EqDecision WalkIssueKind.
Proof. solve_decision. Defined.

(** What an issue's message is made of. *)
Inductive Detail :=
  | DtError (e : AnyError)
  | DtStop (s : NodeStop)
  | DtReferents (max : Z)
  | DtNodes (max : Z)
  | DtCycle (what : string) (addr : Z)
  | DtNotPointer (what : string)
  | DtVisits (max : Z)
  | DtBytes (len size : Z) (ty : str)
  | DtDepth (max : Z)
  | DtChainDepth (max : Z)
  | DtNesting (max : Z)
  | DtUnreadable (kind : SemanticIssueKind) (ty : str)
  | DtVariant (ty : str) (e : Error)
  | DtState (ty : str) (e : VariantError)
  | DtNoEnum (ty : str)
  | DtStateNotRecorded (nm ty : str)
  | DtStateUnknown (nm ty : str)
  | DtUncertain (local nm ty : str)
  | DtUnknownDyn (pointee : BundleTypeId)
  | DtAmbiguousDyn (pointee : BundleTypeId)
  | DtArray (ty : str)
  | DtTableCount (items full : Z)
  | DtJoinCount (walked length : Z).

Record WalkIssue := mkIssueAt { wi_at : ValueKey; wi_kind : WalkIssueKind; wi_detail : option Detail }.

(** [WalkIssue::new] and [bare]. *)
Definition issue_new (at_ : ValueKey) (kind : WalkIssueKind) (detail : Detail) : WalkIssue :=
  mkIssueAt at_ kind (Some detail).
Definition issue_bare (at_ : ValueKey) (kind : WalkIssueKind) : WalkIssue := mkIssueAt at_ kind None.

(** [Refusal::kind]. *)
Definition refusal_kind (r : Refusal) : WalkIssueKind :=
  match r with RefusedFreed _ => IkFreed | RefusedOutside _ _ _ => IkOutsideAllocation end.

(** The refusal in an error's chain, where one is its source. *)
Definition steps_refusal (e : StepError) : option Refusal :=
  match e with SeRefused _ r => Some r | _ => None end.
Definition role_refusal (e : RoleError) : option Refusal :=
  match e with ReSteps _ e => steps_refusal e | _ => None end.
Fixpoint chain_refusal (e : ChainError) : option Refusal :=
  match e with
  | CeSteps e => steps_refusal e
  | CeStatePath e | CeDelegating _ e | CeDelegatingDyn _ e | CeWord _ e => chain_refusal e
  | CeRefusedFuture _ r => Some r
  | _ => None
  end.
Definition refusal_of (e : AnyError) : option Refusal :=
  match e with
  | AeSteps e => steps_refusal e
  | AeRole e => role_refusal e
  | AeChain e => chain_refusal e
  | AeRefused _ r => Some r
  | _ => None
  end.

(** [issue_of]. *)
Definition issue_of (at_ : ValueKey) (e : AnyError) : WalkIssue :=
  issue_new at_ (match refusal_of e with Some r => refusal_kind r | None => IkReadFailed end) (DtError e).

(** The issue of a spent referent budget. *)
Definition spent (at_ : ValueKey) (bg : ScanBudget) : WalkIssue :=
  issue_new at_ IkVisitLimit (DtReferents (max_referent_expansions (limits bg))).

(** ** Observations *)

Record Observed (A : Type) := mkObserved { ob_value : option A; ob_issues : list WalkIssue }.
Arguments mkObserved {_} _ _.
Arguments ob_value {_} _.
Arguments ob_issues {_} _.

Definition observed_none {A} : Observed A := mkObserved None [].
Definition observed_of {A} (a : A) : Observed A := mkObserved (Some a) [].
Definition observed_failed {A} (i : WalkIssue) : Observed A := mkObserved None [i].

Record JoinObservation := mkJoin { jo_handle : ValueKey; jo_header : Z }.

Record AcquireObservation := mkAcquire {
  aq_future : ValueKey;
  aq_semaphore : ValueKey;
  aq_node : Z;
  aq_requested : Z;
  aq_needed : Z;
  aq_queued : bool;
  aq_queue_position : option Z
}.

Inductive TimerRegistrationState :=
  | TmNotRegistered | TmRegistered (tick : Z) | TmPendingFire | TmDeregistered | TmUnknown.

Record TimerObservation := mkTimer {
  tm_future : ValueKey;
  tm_deadline : option RawInstant;
  tm_state : TimerRegistrationState
}.

Record RecvObservation := mkRecv { rc_future : ValueKey; rc_chan : ValueKey }.

Inductive NotifiedState := NtInit | NtWaiting | NtDone | NtUnknown (word : Z).

Record NotifiedObservation := mkNotified {
  nt_future : ValueKey;
  nt_notify : ValueKey;
  nt_state : NotifiedState;
  nt_node : Z;
  nt_notification : Z;
  nt_calls : Z
}.

Record OneshotState := mkOneshotState { os_word : Z; os_value_present : option bool }.

Definition RX_TASK_SET : Z := 1.
Definition VALUE_SENT : Z := 2.
Definition ONESHOT_CLOSED : Z := 4.
Definition TX_TASK_SET : Z := 8.

(** [OneshotState::rx_task_set], [tx_task_set], [complete] and [closed]. *)
Definition flag (word bit : Z) : bool := negb (Z.land word bit =? 0).
Definition rx_task_set (s : OneshotState) : bool := flag (os_word s) RX_TASK_SET.
Definition tx_task_set (s : OneshotState) : bool := flag (os_word s) TX_TASK_SET.
Definition oneshot_complete (s : OneshotState) : bool := flag (os_word s) VALUE_SENT.
Definition oneshot_closed (s : OneshotState) : bool := flag (os_word s) ONESHOT_CLOSED.

Record OneshotObservation := mkOneshot {
  os_future : ValueKey;
  os_arc : ValueKey;
  os_inner : Z;
  os_state : OneshotState;
  os_rx_waker : option QueuedWaker;
  os_tx_waker : option QueuedWaker;
  os_rx_task_at : option Z;
  os_tx_task_at : option Z
}.

(** A TLS connection's words, as a stream's route crossed it. *)
Record TlsReading := mkTls {
  tl_side : string;
  tl_version : option string;
  tl_failed : bool;
  tl_may_send_application_data : bool;
  tl_may_receive_application_data : bool;
  tl_has_sent_close_notify : option bool;
  tl_has_received_close_notify : bool;
  tl_has_seen_eof : bool;
  tl_sent_fatal_alert : bool;
  tl_read_seq : Z;
  tl_write_seq : Z;
  tl_unsent : Z * Z;
  tl_stream_state : string;
  tl_received : option (Z * Z);
  tl_handshake_kind : option string;
  tl_suite : option string;
  tl_alpn : option string;
  tl_peer_certificates : option Z
}.

Inductive IoSocket := TcpStream | UnixStream.
Inductive IoFutureState := IfInit | IfWaiting | IfDone | IfUnknown (word : Z).

Record IoObservation := mkIo {
  io_future : ValueKey;
  io_operation : IoOperationKind;
  scheduled_io : ValueKey;
  io_interest : Z;
  io_waiter_node : option Z;
  io_remaining : option Z;
  io_readiness_state : option IoFutureState;
  io_waiter_ready : option bool;
  io_route : list ValueKey;
  io_fd : option Z;
  io_tls : option (TlsReading + string);
  io_tls_stream : option ValueKey;
  io_socket : option IoSocket;
  io_peer : option (string + string);
  io_peer_stream : option ValueKey
}.

(** ** HTTP connections *)

Inductive KeepAlive := KaIdle | KaBusy | KaDisabled | KaUnknown (word : string).

Inductive BodyFraming := BfLength (remaining : Z) | BfChunked | BfCloseDelimited.

Inductive HttpReading :=
  | HrInit | HrContinue (framing : option BodyFraming) | HrBody (framing : option BodyFraming)
  | HrKeepAlive | HrClosed | HrUnknown (word : string).
Inductive HttpWriting :=
  | HwInit | HwBody (framing : option BodyFraming) | HwKeepAlive | HwClosed | HwUnknown (word : string).

Inductive HttpRole := HttpClient | HttpServer.

Inductive HttpRequestTarget := HtUrl | HtPathAndQuery.
Record HttpRequestObservation := mkHttpRequest {
  hq_at : ValueKey;
  hq_method : option string;
  hq_target : HttpRequestTarget;
  hq_text : option string
}.

Record HttpClientObservation := mkHttpClient {
  hc_callback : option OneshotObservation;
  hc_rx : option ValueKey;
  hc_want : option Z
}.
Record HttpServerObservation := mkHttpServer {
  hs_in_flight : bool;
  hs_header_read_timer_running : bool;
  hs_header_read_timeout : option (Z * Z);
  hs_header_read_timer : option Z;
  hs_peer : option string;
  hs_context : option string;
  hs_local_addr : option string;
  hs_tls : option bool;
  hs_request : option HttpRequestObservation
}.

(** The socket a connection's stream reaches. *)
Record SocketReading := mkSocketReading {
  sr_streams : list ValueKey;
  sr_scheduled_io : ValueKey;
  sr_fd : option Z;
  sr_socket : IoSocket;
  sr_tls : option (TlsReading + string);
  sr_tls_stream : option ValueKey;
  sr_peer : option (string + string);
  sr_peer_stream : option ValueKey
}.

Record HttpConnObservation := mkHttpConn {
  hc_dispatcher : ValueKey;
  hc_conn : Z;
  hc_role : HttpRole;
  hc_keep_alive : KeepAlive;
  hc_reading : HttpReading;
  hc_writing : HttpWriting;
  hc_method : option string;
  hc_is_closing : bool;
  hc_client : option HttpClientObservation;
  hc_server : option HttpServerObservation;
  hc_stream : option (SocketReading + string)
}.

(** [HttpConnObservation::tls] and [fd]. *)
Definition http_tls (h : HttpConnObservation) : option (TlsReading + string) :=
  match hc_stream h with Some (inl s) => sr_tls s | _ => None end.
Definition http_fd (h : HttpConnObservation) : option Z :=
  match hc_stream h with Some (inl s) => sr_fd s | _ => None end.

Inductive ResourceObservation :=
  | RoJoin (o : JoinObservation)
  | RoAcquire (o : AcquireObservation)
  | RoTimer (o : TimerObservation)
  | RoIo (o : IoObservation)
  | RoRecv (o : RecvObservation)
  | RoNotified (o : NotifiedObservation)
  | RoOneshot (o : OneshotObservation)
  | RoHttpConn (o : HttpConnObservation)
  | RoHttpNegotiating (wrapper : ValueKey).

(** [QueuedWaker::task]. *)
Definition waker_task (w : QueuedWaker) : option Z :=
  match w with WTask addr _ => Some addr | WOther _ | WUnarmed => None end.

Record SemaphoreWaiter := mkSemWaiter {
  sw_addr : Z;
  sw_needed : Z;
  sw_waker : QueuedWaker;
  sw_waker_at : option Z
}.

Record NotifyWaiter := mkNotifyWaiter { nw_addr : Z; nw_notification : Z; nw_waker : QueuedWaker }.

Record QueueObservation := mkQueue {
  qo_semaphore : ValueKey;
  qo_waiters : list SemaphoreWaiter;
  qo_complete : bool;
  qo_consistency : Consistency;
  qo_closed : option bool;
  qo_queue_closed : option bool;
  qo_available : option Z;
  qo_issues : list WalkIssue
}.

Record NotifyObservation := mkNotifyObs {
  no_notify : ValueKey;
  no_state : option Z;
  no_waiters : list NotifyWaiter;
  no_complete : bool;
  no_consistency : Consistency;
  no_issues : list WalkIssue
}.

(** [established], [position] and [contains]: only a complete walk of a queue nobody
    holds says who is not in it, and in what order. *)
Definition is_quiescent (c : Consistency) : bool := match c with Quiescent => true | _ => false end.
Definition queue_established (q : QueueObservation) : bool := qo_complete q && is_quiescent (qo_consistency q).
Definition queue_position (q : QueueObservation) (node : Z) : option nat :=
  if queue_established q then fst <$> list_find (λ w, sw_addr w = node) (qo_waiters q) else None.
Definition queue_contains (q : QueueObservation) (node : Z) : option bool :=
  if existsb (λ w, sw_addr w =? node) (qo_waiters q) then Some true
  else if queue_established q then Some false else None.
Definition notify_established (o : NotifyObservation) : bool := no_complete o && is_quiescent (no_consistency o).
Definition notify_position (o : NotifyObservation) (node : Z) : option nat :=
  if notify_established o then fst <$> list_find (λ w, nw_addr w = node) (no_waiters o) else None.

Inductive SlotState := SlValue | SlClosed | SlEmpty | SlNoBlock | SlUnknown.

Record ChannelObservation := mkChannel {
  ch_chan : ValueKey;
  ch_senders : option Z;
  ch_tail_position : option Z;
  ch_index : option Z;
  ch_rx_closed : option bool;
  ch_slot : SlotState;
  ch_capacity : option Z;
  ch_available : option Z;
  ch_semaphore_closed : option bool;
  ch_waker_state : option Z;
  ch_waker : option QueuedWaker;
  ch_issues : list WalkIssue
}.

(** The readers behind routes of their own: an io operation's, and an HTTP connection's. *)
Class StreamObservers := {
  observe_io : ReadContext → Value → IoOperationKind → fallible AnyError IoObservation;
  observe_http_conn : ReadContext → Value → fallible AnyError HttpConnObservation
}.

(** The walk of a list of waiters: the budget it spends, and what it has read. *)
Record Nodes (N : Type) := mkNodes {
  nl_budget : ScanBudget;
  nl_nodes : list N;
  nl_issues : list WalkIssue
}.
Arguments mkNodes {_} _ _ _.
Arguments nl_budget {_} _.
Arguments nl_nodes {_} _.
Arguments nl_issues {_} _.

Definition node_push {N} (n : N) (s : Nodes N) : Nodes N :=
  mkNodes (nl_budget s) (nl_nodes s ++ [n]) (nl_issues s).
Definition node_issue {N} (i : WalkIssue) (s : Nodes N) : Nodes N :=
  mkNodes (nl_budget s) (nl_nodes s) (nl_issues s ++ [i]).

(** A referent charged to the budget before it is read. *)
Definition charge_at (key : ValueKey) : eff ScanBudget WalkIssue () := λ bg,
  let '(ok, bg') := charge_referent bg in
  if ok then Ret (bg', inl ()) else Ret (bg', inr (spent key bg)).
Definition charge_node {N} (key : ValueKey) : eff (Nodes N) WalkIssue () := λ s,
  '(bg, r) ← charge_at key (nl_budget s); Ret (mkNodes bg (nl_nodes s) (nl_issues s), r).

(** A list's cap on its nodes, reported where it is met. *)
Definition under_cap {N} (capped : Nodes N → bool) (key : ValueKey) : eff (Nodes N) WalkIssue () :=
  over ←% eff_get capped;
  max ←% eff_get (λ s, max_children (limits (nl_budget s)));
  eff_ensure (negb over) (issue_new key IkVisitLimit (DtNodes max)).

(** The mpsc block list and the semaphore's permits. *)
Definition BLOCK_CAP : Z := 32.
Definition BLOCK_MASK : Z := W64 - BLOCK_CAP.
Definition SLOT_MASK : Z := BLOCK_CAP - 1.
Definition RELEASED : Z := Z.shiftl 1 BLOCK_CAP.
Definition TX_CLOSED : Z := Z.shiftl RELEASED 1.
Definition SEMAPHORE_CLOSED : Z := 1.
Definition PERMIT_SHIFT : Z := 1.

Definition INIT_NAME : str := bytes_of_string "Init".
Definition WAITING_NAME : str := bytes_of_string "Waiting".
Definition DONE_NAME : str := bytes_of_string "Done".

(** [word_of]: what fits a word. *)
Definition word_of (bytes : list Byte.byte) : Z := from_le_bytes (take 8 bytes).

(** The tasks each [Notify]'s list named when it was first walked. *)
Abbreviation NotifyMemo := (gmap ValueKey (list Z)) (only parsing).

Section observe.
Context `{Demangler} `{StreamObservers} {T : Type} `{!Target T}.
Context (cx : ChainCtx T) (statics : list (StaticRole * StaticDef)) (read : ReadContext).
Abbreviation b := (cc_bundle cx).
Abbreviation proc := (cc_proc cx).

Definition o_at (role : Z) (root : Value) : fallible AnyError Value :=
  map_err AeRole (walk_at_with b proc read role root).
Definition o_walk (role : Z) (root : Value) : fallible AnyError Walked :=
  map_err AeRole (walk_with b proc read role root).
Definition o_read {V} (parser : Parser V) (role : Z) (root : Value) : fallible AnyError V :=
  map_err AeRole (read_with b proc read parser role root).
Definition o_word (role : Z) (root : Value) : fallible AnyError Z := o_read (parse_unsigned 8) role root.
Definition o_waker (raw : Value) : fallible AnyError QueuedWaker := map_err AeWaker (raw_waker cx statics raw).

Definition not_null (what : string) (addr : Z) : fallible AnyError () := ensure (negb (addr =? 0)) (AeNull what).

(** [Context::read_keyed]. *)
Definition read_keyed (key : ValueKey) : fallible AnyError Value :=
  match ty_get (b_types b) (vk_ty key) with
  | None => throw (AeNoType (vk_ty key))
  | Some _ =>
      nm ←! infallible (ty_name b (vk_ty key));
      if negb (contains_addr (cc_mappings cx) (vk_addr key)) then throw (AeUnmapped (vk_addr key) nm)
      else
        size ←! infallible (ty_size b (vk_ty key));
        match refusal read (vk_addr key) size with
        | Some r => throw (AeRefused nm r)
        | None => map_err (AeKeyed nm (vk_addr key)) (value_read b proc (vk_ty key) (vk_addr key))
        end
  end.

(** A pointer that is not null: what it points to, read. *)
Definition keyed_pointee (what : string) (ptr : Value) : fallible AnyError ValueKey :=
  ty ←! pointee_type cx what ptr;
  addr ←! parse_word cx ptr;
  _ ←! not_null what addr;
  succeed (mkValueKey addr ty).

(** ** What a resource's own storage says *)

Definition observe_join (handle : Value) : fallible AnyError JoinObservation :=
  addr ←! o_word JoinHandleRaw handle;
  _ ←! not_null "JoinHandle" addr;
  succeed (mkJoin (value_key handle) addr).

Definition observe_acquire (acquire : Value) : fallible AnyError AcquireObservation :=
  semaphore ←! o_at AcquireSemaphore acquire;
  sem_ty ←! pointee_type cx "Acquire.semaphore" semaphore;
  sem_addr ←! parse_word cx semaphore;
  node ←! o_at AcquireNode acquire;
  requested ←! o_word AcquireNumPermits acquire;
  needed ←! o_word AcquireNeeded acquire;
  queued ←! o_read parse_bool AcquireQueued acquire;
  succeed (mkAcquire (value_key acquire) (mkValueKey sem_addr sem_ty) (val_addr node) requested needed
             queued None).

Definition observe_recv (poll_fn : Value) : fallible AnyError RecvObservation :=
  rx ←! o_at MpscRecvRx poll_fn;
  key ←! keyed_pointee "Rx" rx;
  rx ←! read_keyed key;
  chan ←! o_at MpscRecvChan rx;
  succeed (mkRecv (value_key poll_fn) (value_key chan)).

Definition notified_state (v : Value) : outcome NotifiedState :=
  nm ← enumerator_name b (val_ty v) (val_bytes v);
  Ret (if bool_decide (nm = Some INIT_NAME) then NtInit
       else if bool_decide (nm = Some WAITING_NAME) then NtWaiting
       else if bool_decide (nm = Some DONE_NAME) then NtDone
       else NtUnknown (word_of (val_bytes v))).

Definition observe_notified (notified : Value) : fallible AnyError NotifiedObservation :=
  notify ←! o_at NotifiedNotify notified;
  key ←! keyed_pointee "Notify" notify;
  state ←! o_at RoleNotifiedState notified;
  state ←! infallible (notified_state state);
  node ←! o_at NotifiedWaiter notified;
  notification ←! o_word NotifyWaiterNotification node;
  calls ←! o_word NotifiedCalls notified;
  succeed (mkNotified (value_key notified) key state (val_addr node) notification calls).

(** [option_present]. *)
Definition option_present (v : Value) : outcome (option bool) :=
  active ← active_variant b (val_ty v) (val_bytes v);
  Ret match active with
      | Some (inl active) =>
          if bool_decide (bv_name active = SOME_NAME) then Some true
          else if bool_decide (bv_name active = NONE_NAME) then Some false else None
      | _ => None
      end.

Definition value_present (arc : Value) : outcome (option bool) :=
  w ← try_walk_with b proc read OneshotValue arc;
  match w with inl (Some (At v)) => option_present v | _ => Ret None end.

(** A task cell: its waker, where the state says one is stored, and its address. *)
Definition oneshot_cell (arc : Value) (role : Z) (set : bool)
    : fallible AnyError (option QueuedWaker * option Z) :=
  w ←! infallible (E := AnyError) (o_walk role arc : outcome (Walked + AnyError));
  match w, set with
  | inl (At raw), true => waker ←! o_waker raw; succeed (Some waker, Some (val_addr raw))
  | inl (At raw), false => succeed (None, Some (val_addr raw))
  | inl _, _ | inr _, false => succeed (None, None)
  | inr e, true => throw e
  end.

Definition observe_oneshot_inner (future : ValueKey) (arc : Value) : fallible AnyError OneshotObservation :=
  word ←! o_word OneshotStateWord arc;
  data ←! infallible (member b (val_ty arc) (bytes_of_string "data"));
  let inner := u64_add (val_addr arc) (default 0 (m_offset <$> data)) in
  present ←! infallible (value_present arc);
  let state := mkOneshotState word present in
  rx ←! oneshot_cell arc OneshotRxTask (rx_task_set state);
  tx ←! oneshot_cell arc OneshotTxTask (tx_task_set state);
  succeed (mkOneshot future (value_key arc) inner state rx.1 tx.1 rx.2 tx.2).

Definition oneshot_behind (role : Z) (what : string) (handle : Value) : fallible AnyError OneshotObservation :=
  ptr ←! o_at role handle;
  key ←! keyed_pointee what ptr;
  arc ←! read_keyed key;
  observe_oneshot_inner (value_key handle) arc.

(** [observe_oneshot] and [observe_oneshot_sender]. *)
Definition observe_oneshot (receiver : Value) : fallible AnyError OneshotObservation :=
  oneshot_behind OneshotInner "oneshot::Receiver.inner" receiver.
Definition observe_oneshot_sender (sender : Value) : fallible AnyError OneshotObservation :=
  oneshot_behind OneshotSenderInner "oneshot::Sender.inner" sender.

(** ** Timers *)

Definition sleep_deadline (sleep : Value) : fallible AnyError (option RawInstant) :=
  w ←! o_walk SleepDeadline sleep;
  match walked_optional w with
  | None => succeed None
  | Some ts => t ←! map_err AeRole (timespec cx ts read); succeed (Some t)
  end.

Definition timer_state (sleep : Value) : fallible AnyError TimerRegistrationState :=
  w ←! o_walk SleepTimerState sleep;
  match w with
  | At word =>
      raw ←! parse_word cx word;
      succeed (if raw =? STATE_DEREGISTERED then TmDeregistered
               else if raw =? STATE_PENDING_FIRE then TmPendingFire
               else TmRegistered raw)
  | Inactive nm => if bool_decide (nm = SOME_NAME) then succeed TmNotRegistered else throw (AeTimerFlavor nm)
  | Null => throw (AeNull "timer entry")
  end.

(** A reading whose failure costs only itself: its value, and the issue of its failure. *)
Definition reading {A} (key : ValueKey) (m : fallible AnyError A) : outcome (option A * list WalkIssue) :=
  r ← m; Ret match r with inl a => (Some a, []) | inr e => (None, [issue_of key e]) end.

(** A reading of what may not be there: nothing where it is not, or where it failed. *)
Definition reading_option {A} (key : ValueKey) (m : fallible AnyError (option A))
    : outcome (option A * list WalkIssue) :=
  r ← m; Ret match r with inl a => (a, []) | inr e => (None, [issue_of key e]) end.

Definition observe_timer (sleep : Value) : outcome (Observed ResourceObservation) :=
  let key := value_key sleep in
  '(deadline, i1) ← reading_option key (sleep_deadline sleep);
  '(state, i2) ← reading key (timer_state sleep);
  Ret (mkObserved (Some (RoTimer (mkTimer key deadline (default TmUnknown state)))) (i1 ++ i2)).

(** ** Any resource *)

(** The names of the states a program marks the primitive. *)
Fixpoint is_primitive_case (cases : list PollCase) (active : str) : outcome bool :=
  match cases with
  | [] => Ret false
  | c :: cases =>
      nm ← (match pc_action c with APrimitive => get (b_strings b) (pc_variant c) | _ => Ret None end);
      if bool_decide (nm = Some active) then Ret true else is_primitive_case cases active
  end.

Definition observe_http_negotiating (record : TypeSemantics) (wrapper : Value) : fallible AnyError ValueKey :=
  nm ←! infallible (ty_name b (val_ty wrapper));
  match ts_future record with
  | Some (CtBound _ (PMatchVariant state cases)) =>
      v ←! map_err AeChain (route cx read wrapper (tp_steps state));
      landed ←! infallible (ty_name b (val_ty v));
      _ ←! ensure (Nat.eqb (val_ty v) (tp_target state)) (AeStateLanded landed);
      '(active, _) ←! map_err AeParse (active_variant_raw b v);
      negotiating ←! infallible (is_primitive_case cases active);
      _ ←! ensure negotiating (AeChosenVersion nm active);
      succeed (value_key wrapper)
  | _ => throw (AeNoStateRead nm)
  end.

(** The observation a call gives, its failure an issue at the value. *)
Definition observation {A} (v : Value) (f : A → ResourceObservation) (m : fallible AnyError A)
    : outcome (Observed ResourceObservation) :=
  r ← m;
  Ret match r with inl o => observed_of (f o) | inr e => observed_failed (issue_of (value_key v) e) end.

(** [Context::observe_resource]. *)
Definition observe_resource (v : Value) : outcome (Observed ResourceObservation) :=
  record ← semantics_of cx (val_ty v);
  match (r ← record; k ← ts_resource r; Some (r, rb_kind k)) with
  | None => Ret observed_none
  | Some (record, kind) =>
      match kind with
      | RJoinHandle => observation v RoJoin (observe_join v)
      | RSemaphoreAcquire => observation v RoAcquire (observe_acquire v)
      | RSleep => observe_timer v
      | RIoOperation operation => observation v RoIo (observe_io read v operation)
      | RMpscRecv => observation v RoRecv (observe_recv v)
      | RNotified => observation v RoNotified (observe_notified v)
      | ROneshotRecv => observation v RoOneshot (observe_oneshot v)
      | RHttpConn true => observation v RoHttpConn (observe_http_conn read v)
      | RHttpConn false => observation v RoHttpNegotiating (observe_http_negotiating record v)
      end
  end.

(** ** Lists of waiters *)

(** The list from a node, each node in turn: not met before, under the cap, charged, read,
    and taken.  The referent budget bounds the walk. *)
Fixpoint list_loop {N} (fuel : nat) (what : string) (ty : BundleTypeId) (next : Z)
    (capped : gset Z → Nodes N → bool) (take_node : ValueKey → Value → eff (Nodes N) WalkIssue ())
    (visited : gset Z) (cur : option Z) : eff (Nodes N) WalkIssue () :=
  match cur with
  | None => eff_ret ()
  | Some addr =>
      match fuel with
      | O => λ _, Panic
      | S fuel =>
          let key := mkValueKey addr ty in
          _ ←% eff_ensure (negb (bool_decide (addr ∈ visited))) (issue_new key IkCycle (DtCycle what addr));
          let visited := {[addr]} ∪ visited in
          _ ←% under_cap (capped visited) key;
          _ ←% charge_node key;
          node ←% eff_lift (map_err (issue_of key) (read_keyed key));
          _ ←% take_node key node;
          link ←% eff_lift (map_err (issue_of key) (next_link cx read next node));
          list_loop fuel what ty next capped take_node visited link
      end
  end.

(** What is left of the referent budget, and one turn more. *)
Definition referent_fuel (bg : ScanBudget) : nat :=
  S (Z.to_nat (max_referent_expansions (limits bg) - referent_expansions bg)).

(** The list a holder's head begins, an absent head the empty list. *)
Definition list_from {N} (holder : Value) (head : Z) (what : string) (next : Z)
    (capped : gset Z → Nodes N → bool) (take_node : ValueKey → Value → eff (Nodes N) WalkIssue ())
    : eff (Nodes N) WalkIssue () :=
  let at_ := value_key holder in
  w ←% eff_lift (map_err (issue_of at_) (o_walk head holder));
  match walked_optional w with
  | None => eff_ret ()
  | Some head =>
      ty ←% eff_lift (infallible (pointer_target b (val_ty head)));
      match ty with
      | None => eff_throw (issue_new at_ IkInvalidLayout (DtNotPointer what))
      | Some ty =>
          cur ←% eff_lift (map_err (issue_of at_) (parse_word cx head));
          bg ←% eff_get nl_budget;
          list_loop (referent_fuel bg) what ty next capped take_node ∅ (Some cur)
      end
  end.

(** The cap on the nodes kept, and that on the nodes met. *)
Definition kept_cap {N} (_ : gset Z) (s : Nodes N) : bool :=
  max_children (limits (nl_budget s)) <=? Z.of_nat (length (nl_nodes s)).
Definition met_cap {N} (visited : gset Z) (s : Nodes N) : bool :=
  max_children (limits (nl_budget s)) <? Z.of_nat (base.size visited).

(** A node decoded and kept. *)
Definition take_decoded {N} (decode : Value → fallible AnyError N) (key : ValueKey) (node : Value)
    : eff (Nodes N) WalkIssue () :=
  n ←% eff_lift (map_err (issue_of key) (decode node)); eff_modify (node_push n).

(** ** Semaphores *)

Definition read_queued_waker (node : Value) : fallible AnyError (QueuedWaker * option Z) :=
  w ←! o_walk WaiterWaker node;
  match walked_optional w with
  | None => succeed (WUnarmed, None)
  | Some raw => waker ←! o_waker raw; succeed (waker, Some (val_addr raw))
  end.

Definition queue_node (node : Value) : fallible AnyError SemaphoreWaiter :=
  '(waker, waker_at) ←! read_queued_waker node;
  needed ←! o_word WaiterNeeded node;
  succeed (mkSemWaiter (val_addr node) needed waker waker_at).

Definition observe_queue_nodes (sem : Value) : eff (Nodes SemaphoreWaiter) WalkIssue () :=
  list_from sem SemaphoreQueueHead "wait-queue" WaiterNext kept_cap (take_decoded queue_node).

(** A guard a recorded walk may reach: its consistency, and the issue of a failed walk. *)
Definition guard_reading (key : ValueKey) (role : Z) (holder : Value) : outcome (Consistency * list WalkIssue) :=
  w ← try_walk_with b proc read role holder;
  Ret match w with
      | inl (Some (At lock)) => (lock_consistency cx read lock, [])
      | inl _ => (CUnknown, [])
      | inr e => (CUnknown, [issue_of key (AeRole e)])
      end.

(** The wait list's own closed flag, where its walk is bound. *)
Definition closed_reading (key : ValueKey) (sem : Value) : outcome (option bool * list WalkIssue) :=
  reading_option key (
    w ←! map_err AeRole (try_walk_with b proc read SemaphoreClosed sem);
    match w with
    | None => succeed None
    | Some w =>
        v ←! map_err AeRole (walked_at SemaphoreClosed w);
        x ←! map_err AeParse (parse b parse_bool proc v);
        succeed (Some x)
    end).

Definition queue_unread (semaphore : ValueKey) (i : WalkIssue) : QueueObservation :=
  mkQueue semaphore [] false CUnknown None None None [i].

(** What a list's walk left: its nodes, reversed into wake order only where it reached
    the end, whether it did, and its issues. *)
Definition listed {N} (s : Nodes N) (r : () + WalkIssue) : list N * bool * list WalkIssue :=
  match r with
  | inl _ => (reverse (nl_nodes s), true, [])
  | inr i => (nl_nodes s, false, [i])
  end.

Definition observe_semaphore_queue (semaphore : ValueKey) (bg : ScanBudget)
    : outcome (ScanBudget * QueueObservation) :=
  '(bg, r) ← charge_at semaphore bg;
  match r with
  | inr i => Ret (bg, queue_unread semaphore i)
  | inl _ =>
      sem ← read_keyed semaphore;
      match sem with
      | inr e => Ret (bg, queue_unread semaphore (issue_of semaphore e))
      | inl sem =>
          '(raw, i1) ← reading semaphore (o_word SemaphorePermits sem);
          '(queue_closed, i2) ← closed_reading semaphore sem;
          '(consistency, i3) ← guard_reading semaphore SemaphoreLock sem;
          '(s, r) ← observe_queue_nodes sem (mkNodes bg [] []);
          let '(waiters, complete, i4) := listed s r in
          Ret (nl_budget s,
               mkQueue semaphore waiters complete consistency
                 ((λ raw, flag raw SEMAPHORE_CLOSED) <$> raw) queue_closed
                 ((λ raw, Z.shiftr raw PERMIT_SHIFT) <$> raw) (i1 ++ i2 ++ i3 ++ i4))
      end
  end.

(** ** Channels *)

Definition channel_unread (chan : ValueKey) (i : WalkIssue) : ChannelObservation :=
  mkChannel chan None None None None SlUnknown None None None None None [i].

(** The block list from a block to the one that starts where the index's does. *)
Fixpoint slot_loop (fuel : nat) (block_ty : BundleTypeId) (index : Z) (visited : gset Z) (cur : Z)
    : eff ScanBudget WalkIssue SlotState :=
  if cur =? 0 then eff_ret SlNoBlock
  else match fuel with
       | O => λ _, Panic
       | S fuel =>
           let key := mkValueKey cur block_ty in
           _ ←% eff_ensure (negb (bool_decide (cur ∈ visited))) (issue_new key IkCycle (DtCycle "block-list" cur));
           _ ←% charge_at key;
           block ←% eff_lift (map_err (issue_of key) (read_keyed key));
           start ←% eff_lift (map_err (issue_of key) (o_word BlockStartIndex block));
           if start =? Z.land index BLOCK_MASK then
             ready ←% eff_lift (map_err (issue_of key) (o_word BlockReadySlots block));
             eff_ret (if flag ready (Z.shiftl 1 (Z.land index SLOT_MASK)) then SlValue
                      else if flag ready TX_CLOSED then SlClosed else SlEmpty)
           else
             next ←% eff_lift (map_err (issue_of key) (o_word BlockNext block));
             slot_loop fuel block_ty index ({[cur]} ∪ visited) next
       end.

Definition observe_slot (chan : Value) (index : Z) : eff ScanBudget WalkIssue SlotState :=
  let at_ := value_key chan in
  head ←% eff_lift (map_err (issue_of at_) (o_at ChanRxHead chan));
  ty ←% eff_lift (infallible (pointer_target b (val_ty head)));
  match ty with
  | None => eff_throw (issue_new at_ IkInvalidLayout (DtNotPointer "the list head"))
  | Some ty =>
      cur ←% eff_lift (map_err (issue_of at_) (parse_word cx head));
      fuel ←% eff_get referent_fuel;
      slot_loop fuel ty index ∅ cur
  end.

(** A word a walk without the allocator may reach. *)
Definition try_word (role : Z) (root : Value) : fallible AnyError (option Z) :=
  map_err AeRole (try_read_with b proc None (parse_unsigned 8) role root).

(** The waker a walk reaches, or none where its storage is inactive. *)
Definition waker_reading (key : ValueKey) (role : Z) (root : Value)
    : outcome (option QueuedWaker * list WalkIssue) :=
  reading key (
    w ←! o_walk role root;
    match walked_optional w with Some raw => o_waker raw | None => succeed WUnarmed end).

(** What a pop at the index would find, the index unread nothing. *)
Definition slot_reading (value : Value) (index : option Z) (bg : ScanBudget)
    : outcome (ScanBudget * (SlotState * list WalkIssue)) :=
  match index with
  | None => Ret (bg, (SlUnknown, []))
  | Some index =>
      '(bg, r) ← observe_slot value index bg;
      Ret (bg, match r with inl slot => (slot, []) | inr i => (SlUnknown, [i]) end)
  end.

Definition observe_channel (chan : ValueKey) (bg : ScanBudget) : outcome (ScanBudget * ChannelObservation) :=
  '(bg, r) ← charge_at chan bg;
  match r with
  | inr i => Ret (bg, channel_unread chan i)
  | inl _ =>
      value ← read_keyed chan;
      match value with
      | inr e => Ret (bg, channel_unread chan (issue_of chan e))
      | inl value =>
          '(senders, i1) ← reading chan (o_word ChanTxCount value);
          '(tail, i2) ← reading chan (o_word ChanTailPosition value);
          '(index, i3) ← reading chan (o_word ChanRxIndex value);
          '(waker_state, i4) ← reading chan (o_word ChanRxWakerState value);
          '(rx_closed, i5) ← reading chan (o_read parse_bool ChanRxClosed value);
          '(bound, i6) ← reading_option chan (try_word ChanSemaphoreBound value);
          '(permits, i7) ← reading_option chan (try_word ChanSemaphorePermits value);
          '(waker, i8) ← waker_reading chan ChanRxWaker value;
          '(bg, (slot, i9)) ← slot_reading value index bg;
          Ret (bg, mkChannel chan senders tail index rx_closed slot bound
                     ((λ raw, Z.shiftr raw PERMIT_SHIFT) <$> permits)
                     ((λ raw, flag raw SEMAPHORE_CLOSED) <$> permits) waker_state waker
                     (i1 ++ i2 ++ i3 ++ i4 ++ i5 ++ i6 ++ i7 ++ i8 ++ i9))
      end
  end.

(** ** Notifies *)

Definition notify_node (node : Value) : fallible AnyError NotifyWaiter :=
  w ←! o_walk NotifyWaiterWaker node;
  waker ←! match walked_optional w with Some raw => o_waker raw | None => succeed WUnarmed end;
  notification ←! o_word NotifyWaiterNotification node;
  succeed (mkNotifyWaiter (val_addr node) notification waker).

Definition observe_notify_nodes (notify : Value) : eff (Nodes NotifyWaiter) WalkIssue () :=
  list_from notify NotifyQueueHead "wait-list" NotifyWaiterNext kept_cap (take_decoded notify_node).

(** [Context::notify_state]. *)
Definition notify_state (notify : ValueKey) : outcome (option Z) :=
  value ← read_keyed notify;
  match value with
  | inr _ => Ret None
  | inl value => ok_of (o_word NotifyStateWord value)
  end.

Definition notify_unread (notify : ValueKey) (i : WalkIssue) : NotifyObservation :=
  mkNotifyObs notify None [] false CUnknown [i].

Definition observe_notify (notify : ValueKey) (bg : ScanBudget) : outcome (ScanBudget * NotifyObservation) :=
  '(bg, r) ← charge_at notify bg;
  match r with
  | inr i => Ret (bg, notify_unread notify i)
  | inl _ =>
      value ← read_keyed notify;
      match value with
      | inr e => Ret (bg, notify_unread notify (issue_of notify e))
      | inl value =>
          '(state, i1) ← reading notify (o_word NotifyStateWord value);
          '(consistency, i2) ← guard_reading notify NotifyLock value;
          '(s, r) ← observe_notify_nodes value (mkNodes bg [] []);
          let '(waiters, complete, i3) := listed s r in
          Ret (nl_budget s, mkNotifyObs notify state waiters complete consistency (i1 ++ i2 ++ i3))
      end
  end.

(** [Context::notify_waiter_tasks]: the issues go to the first to ask. *)
Definition notify_waiter_tasks (notify : ValueKey) (memo : NotifyMemo) (bg : ScanBudget)
    : outcome (NotifyMemo * ScanBudget * (list Z * list WalkIssue)) :=
  match memo !! notify with
  | Some tasks => Ret (memo, bg, (tasks, []))
  | None =>
      '(bg, o) ← observe_notify notify bg;
      let tasks := omap (waker_task ∘ nw_waker) (no_waiters o) in
      Ret (<[notify := tasks]> memo, bg, (tasks, no_issues o))
  end.

(** ** Registrations *)

(** A direction slot: its waker, where one is parked. *)
Definition direction_reading (key : ValueKey) (waiters : Value) (role : Z) (slot : IoSlot)
    : outcome (list IoWaiterInfo * list WalkIssue) :=
  '(o, issues) ← reading_option key (
    w ←! o_walk role waiters;
    match walked_optional w with
    | None => succeed None
    | Some raw =>
        waker ←! o_waker raw;
        succeed (Some (mkIoWaiter slot (waker_task waker) (Some (val_addr raw)) None None))
    end);
  Ret (option_list o, issues).

(** A node's waker, a failure of it an issue beside the node. *)
Definition io_node_waker (key : ValueKey) (node : Value) : eff (Nodes IoWaiterInfo) WalkIssue (option Z * option Z) :=
  r ←% eff_lift (infallible (
    w ←! o_walk IoWaiterWaker node;
    match walked_optional w with
    | None => succeed (None, None)
    | Some raw => waker ←! o_waker raw; succeed (waker_task waker, Some (val_addr raw))
    end : outcome ((option Z * option Z) + AnyError)));
  match r with
  | inl found => eff_ret found
  | inr e => _ ←% eff_modify (node_issue (issue_of key e)); eff_ret (None, None)
  end.

Definition take_io_node (key : ValueKey) (node : Value) : eff (Nodes IoWaiterInfo) WalkIssue () :=
  '(task, waker_at) ←% io_node_waker key node;
  interest ←% eff_lift (infallible (ok_of (try_read_with b proc None (parse_unsigned 8) IoWaiterInterest node)));
  ready ←% eff_lift (infallible (ok_of (try_read_with b proc None parse_bool ReadinessWaiterReady node)));
  eff_modify (node_push (mkIoWaiter (Listed (mjoin interest)) task waker_at (Some (vk_addr key)) (mjoin ready))).

Definition observe_io_waiter_list (waiters : Value) : eff (Nodes IoWaiterInfo) WalkIssue () :=
  list_from waiters IoWaiterHead "io waiter list" IoWaiterNext met_cap take_io_node.

Definition observe_io_registration (registration : ValueKey) (bg : ScanBudget)
    : outcome (ScanBudget * Observed IoResourceInfo) :=
  '(bg, r) ← charge_at registration bg;
  match r with
  | inr i => Ret (bg, observed_failed i)
  | inl _ =>
      io ← read_keyed registration;
      match io with
      | inr e => Ret (bg, observed_failed (issue_of registration e))
      | inl io =>
          readiness ← ok_of (try_read_with b proc None (parse_unsigned 8) ScheduledIoReadiness io);
          consistency ← io_guard cx io read;
          let resource := mkIoResource (vk_addr registration) (mjoin readiness) consistency in
          waiters ← o_at ScheduledIoWaiters io;
          match waiters with
          | inr e => Ret (bg, mkObserved (Some (resource [])) [issue_of registration e])
          | inl waiters =>
              '(rd, i1) ← direction_reading registration waiters IoReaderWaker Reader;
              '(wr, i2) ← direction_reading registration waiters IoWriterWaker Writer;
              '(s, r) ← observe_io_waiter_list waiters (mkNodes bg [] []);
              let i4 := match r with inl _ => [] | inr i => [i] end in
              Ret (nl_budget s,
                   mkObserved (Some (resource (rd ++ wr ++ nl_nodes s))) (i1 ++ i2 ++ nl_issues s ++ i4))
          end
      end
  end.
End observe.
