(* ===== verification/Assess.v ===== *)
(** The assessor ([hansei-runtime/src/tokio/assess.rs], with the targets of [model.rs] and
    the joins of [bundle.rs] it calls): what a chain and the observation of the resource
    it ends in mean as a wait, and the polling barriers an exclusive chain establishes.

    The words a decline prints are a [Note], with the values its message is made of.  An
    assessment that returns early is the failure of a computation whose value is the
    verified wait. *)

From stdpp Require Import countable.
From S2P Require Import Prelude Text StringTable Target Symbols TaskGraph Schema BundleCheck TypeView DisplayResolve DisplayEval Discovery Work Value Elements Pairing Semantics Contract Chain TaskHeader OwnedLists Runtimes Effects Registries Containers Observe.

Local Open Scope Z_scope.

(** ** Roles, by their place in the declaration order *)

Definition TcpStreamShared : Z := 92.
Definition TcpStreamFd : Z := 93.
Definition TcpListenerShared : Z := 94.
Definition TcpListenerFd : Z := 95.
Definition UdpSocketShared : Z := 96.
Definition UdpSocketFd : Z := 97.
Definition UnixStreamShared : Z := 98.
Definition UnixStreamFd : Z := 99.
Definition UnixListenerShared : Z := 100.
Definition UnixListenerFd : Z := 101.
Definition UnixDatagramShared : Z := 102.
Definition UnixDatagramFd : Z := 103.
Definition TrailerWaker : Z := 115.
Definition WatchReceiverShared : Z := 161.
Definition WatchSharedState : Z := 162.
Definition WatchSharedRxCount : Z := 163.
Definition WatchSharedTxCount : Z := 164.
Definition WatchSharedNotifyRx : Z := 165.

Definition IO_RESOURCES : list (Z * Z) :=
  [(TcpStreamShared, TcpStreamFd); (TcpListenerShared, TcpListenerFd); (UdpSocketShared, UdpSocketFd);
   (UnixStreamShared, UnixStreamFd); (UnixListenerShared, UnixListenerFd);
   (UnixDatagramShared, UnixDatagramFd)].

(** ** Words *)

(** [AtomicWaker], [Notify] and [watch]. *)
Definition ATOMIC_WAITING : Z := 0.
Definition REGISTERING : Z := 1.

Definition NOTIFY_EMPTY : Z := 0.
Definition NOTIFY_WAITING : Z := 1.
Definition NOTIFY_NOTIFIED : Z := 2.
Definition NOTIFY_STATE_MASK : Z := 3.
Definition CALLS_SHIFT : Z := 2.
Definition NOTIFICATION_NONE : Z := 0.
Definition NOTIFICATION_ONE : Z := 1.
Definition NOTIFICATION_LAST : Z := 5.
Definition NOTIFICATION_ALL : Z := 2.

Definition WATCH_CLOSED : Z := 1.
Definition VERSION_SHIFT : Z := 1.

(** [Interest] and [Ready]. *)
Definition READABLE : Z := 1.
Definition WRITABLE : Z := 2.
Definition READ_CLOSED : Z := 4.
Definition WRITE_CLOSED : Z := 8.
Definition READY_MASK : Z := 65535.
Definition SHUTDOWN : Z := Z.shiftl 1 31.

Definition interest_union (a b : Z) : Z := Z.lor a b.

(** [IoSlot::interest]. *)
Definition slot_interest (s : IoSlot) : option Z :=
  match s with
  | Reader => Some READABLE
  | Writer => Some WRITABLE
  | Listed interest => interest
  end.

Definition direction_mask (interest : Z) : Z :=
  let mask := interest in
  let mask := if flag interest READABLE then Z.lor mask READ_CLOSED else mask in
  if flag interest WRITABLE then Z.lor mask WRITE_CLOSED else mask.

(** [IoOperationKind::writes]. *)
Definition operation_writes (k : IoOperationKind) : option bool :=
  match k with
  | IoRead | IoReadExact | IoReadBuf => Some false
  | IoWrite | IoWriteAll | IoWriteBuf | IoFlush | IoShutdown => Some true
  | IoReadiness | IoHandshake => None
  end.

(** ** What is waited on *)

Inductive OneshotSide := Rx | Tx.

Inductive HttpVersion := Http1.

Inductive HttpPhase :=
  | PhIdle | PhAwaitingResponse
  | PhSendingBody (framing : option BodyFraming)
  | PhReceivingBody (framing : option BodyFraming)
  | PhClosing | PhNegotiating | PhHandlingRequest.

Inductive WaitTarget :=
  | WtTimer (deadline : RawInstant) (stopped : option RawInstant)
  | WtTask (addr : Z) (task_id : option Z) (state : TaskState) (listed : bool) (kind : option UnlistedTaskKind)
  | WtIo (addr : Z) (fd : option Z) (interest : option Z) (handshake : bool)
      (tls : option (TlsReading + string))
  | WtSemaphore (addr : Z) (owner : option str) (num_permits available : Z) (closed : bool)
      (waiters : list SemaphoreWaiter)
  | WtChannel (addr senders : Z) (capacity : option Z) (unread : Z)
  | WtNotify (addr : Z) (state : option Z) (waiters : option Z)
  | WtOneshot (addr : Z) (state : OneshotState) (side : OneshotSide)
  | WtWatch (addr version : Z) (closed : bool) (receivers senders : Z)
  | WtHttpConn (addr : Z) (role : HttpRole) (version : option HttpVersion) (phase : HttpPhase)
      (method : option string) (keep_alive header_read_timer : bool) (via : option WaitTarget)
      (caller : option HttpCaller) (tls : option (TlsReading + string)) (fd : option Z).

Inductive NotWaitingReason := NwComplete | NwReturned | NwPanicked.
Inductive RunnableReason := RnScheduled | RnActivePoll.
Inductive ReadyReason :=
  | RdJoinComplete | RdPermitsGranted | RdSemaphoreClosed | RdIoReady | RdIoShutdown | RdIoNotified
  | RdTimerFired | RdTimerPendingFire | RdMessageReady | RdChannelClosed | RdNotified
  | RdOneshotComplete | RdOneshotClosed.
Inductive WaitUnknownReason :=
  | UkContinuation | UkResourceUnreadable | UkResourceStateUnproven | UkLifecycle | UkTaskKind
  | UkConflictingEvidence.

Record VerifiedWait := mkWait {
  vw_target : WaitTarget;
  vw_primitive : ValueKey;
  vw_queue_position : option nat
}.

(** A wait set over its members ([waitset.rs]). *)
Record WaitSet (M : Type) := mkWaitSet {
  ws_at : option ValueKey;
  ws_reason : option SemanticIssueKind;
  ws_members : list M;
  ws_capped : Z
}.
Arguments mkWaitSet {_} _ _ _ _.
Arguments ws_at {_} _.
Arguments ws_reason {_} _.
Arguments ws_members {_} _.
Arguments ws_capped {_} _.

Inductive WaitAssessment (M : Type) :=
  | NotWaiting (r : NotWaitingReason)
  | Runnable (r : RunnableReason)
  | Unresumed
  | ResourceReady (r : ReadyReason)
  | Waiting (w : VerifiedWait)
  | InSet (s : WaitSet M)
  | NeverReady (members : list M) (capped : Z)
  | Unknown (r : WaitUnknownReason).
Arguments NotWaiting {_} _.
Arguments Runnable {_} _.
Arguments Unresumed {_}.
Arguments ResourceReady {_} _.
Arguments Waiting {_} _.
Arguments InSet {_} _.
Arguments NeverReady {_} _ _.
Arguments Unknown {_} _.

(** [WaitAssessment::verified]. *)
Definition verified {M} (a : WaitAssessment M) : option VerifiedWait :=
  match a with Waiting w => Some w | _ => None end.

(** ** What is said *)

(** Why a list is no snapshot to order waiters by. *)
Inductive Unsettled := UsLocked | UsGuard | UsStopped (issues : list WalkIssue).

Inductive Note :=
  | SayKindConflict
  | SayMidPoll
  | SayIncomplete (e : ChainEnd)
  | SayNoPrimitive
  | SayObservedNothing
  | SayIssue (i : WalkIssue)
  | SayNoProtocol (ty : str)
  | SayWordsUnread (what : string) (issues : list WalkIssue)
  | SayIndexPastTail (index tail : Z)
  | SayBlockUnreached (issues : list WalkIssue)
  | SayPermitsUnread
  | SayWakerState (what : string) (state : Z)
  | SayWakerStateUnread (what : string) (issues : list WalkIssue)
  | SayOtherTask (cell : string) (addr : Z)
  | SayNotATask (cell : string) (vtable : Z)
  | SayNoWaker (cell : string)
  | SayWakerUnread (cell : string) (issues : list WalkIssue)
  | SayNoSender
  | SayNoWakerStored
  | SayNeverPolled (what : string)
  | SayNoState (what : string) (word : Z)
  | SayNotification (word : Z)
  | SayUnread (what : string)
  | SayNotifyState (state : Z)
  | SayNotifiedSince (calls : Z)
  | SayUnsettled (what : string) (why : Unsettled)
  | SayAbsent (node : Z) (list : string)
  | SayTwice (list : string)
  | SayHeaderUnread (e : TaskError)
  | SayNoJoinInterest
  | SayNoJoinWaker
  | SayTrailerUnread (e : HarvestError)
  | SayNeedsMore (needed requested : Z)
  | SayNeverQueued
  | SayNeedsApart (waiter acquire : Z)
  | SayPermitsFree (available : Z)
  | SayExhaustedWrite
  | SayRegistrationUnsettled (c : Consistency)
  | SayNoDirection
  | SaySlotEmpty (slot : IoSlot)
  | SaySlotHolds (slot : option IoSlot) (addr : Z)
  | SaySlotNotATask (slot : option IoSlot)
  | SayInterestApart (listed await : Z)
  | SayWordOutside (word : string)
  | SayKeepAlive (word : string)
  | SayNotProduced (role : HttpRole) (reading : HttpReading) (writing : HttpWriting) (in_flight : bool)
  | SayDispatchUnbound (role : HttpRole)
  | SayNoCallbackWatched.

Record Assessed (M : Type) := mkAssessed { as_assessment : WaitAssessment M; as_notes : list Note }.
Arguments mkAssessed {_} _ _.
Arguments as_assessment {_} _.
Arguments as_notes {_} _.

(** [Assessed::unknown] and [of]. *)
Definition assessed_unknown {M} (r : WaitUnknownReason) (note : Note) : Assessed M :=
  mkAssessed (Unknown r) [note].
Definition assessed_of {M} (a : WaitAssessment M) : Assessed M := mkAssessed a [].
Definition ready {M} (r : ReadyReason) : Assessed M := assessed_of (ResourceReady r).

(** The assessed task's own facts. *)
Record TaskFacts := mkFacts {
  tf_addr : TaskAddr;
  tf_task_id : option Z;
  tf_state : TaskState;
  tf_kind : TaskKind
}.
Definition facts_of (t : Discovery.Task) : TaskFacts :=
  mkFacts (addr t) (task_id t) (state t) (kind t).

(** A chain's end as a task row keeps it. *)
Inductive IncompleteReason := IrUnknownDyn | IrAmbiguousDyn | IrDepthLimit | IrCycle | IrError | IrNoRoot.
Inductive ContinuationStatus :=
  | CsPrimitive | CsUnresumed | CsReturned | CsPanicked | CsNeverReady | CsActivePoll
  | CsUnknown (at_ : ValueKey) (reason : SemanticIssueKind)
  | CsIncomplete (reason : IncompleteReason) (detail : option ChainError).

Definition status_of (e : ChainEnd) : ContinuationStatus :=
  match e with
  | EndPrimitive => CsPrimitive
  | EndUnresumed => CsUnresumed
  | EndReturned => CsReturned
  | EndPanicked => CsPanicked
  | EndNeverReady => CsNeverReady
  | EndActivePoll => CsActivePoll
  | EndUnknownContinuation at_ reason => CsUnknown at_ reason
  | EndUnknownDyn _ _ => CsIncomplete IrUnknownDyn None
  | EndAmbiguousDyn _ _ _ => CsIncomplete IrAmbiguousDyn None
  | EndDepthLimit => CsIncomplete IrDepthLimit None
  | EndCycle _ => CsIncomplete IrCycle None
  | EndError e => CsIncomplete IrError (Some e)
  end.

Record FutureInspection := mkInspection {
  fi_chain : AwaitChain;
  fi_primitive : Observed ResourceObservation
}.

(** [TaskList::contains]. *)
Definition list_contains (l : TaskList) (a : Z) : bool := existsb (λ t, addr t =? a) (tasks l).

(** [contains]: whether an address lies in a value's storage. *)
Definition value_contains (v : Value) (a : Z) : bool :=
  (val_addr v <=? a) && (a - val_addr v <? Z.of_nat (length (val_bytes v))).

(** [payloads]. *)
Definition payloads (c : AwaitChain) : list Value :=
  (λ f, match af_state f with Some st => fs_payload st | None => af_future f end) <$> frames c.

(** ** What the frames name *)

(** [.ok().flatten()]. *)
Definition ok_flat {E A} (m : fallible E (option A)) : outcome (option A) :=
  r ← m; Ret match r with inl o => o | inr _ => None end.

Section joins.
Context `{Demangler} {T : Type} `{!Target T} (cx : ChainCtx T) (statics : list (StaticRole * StaticDef)).
Abbreviation b := (cc_bundle cx).
Abbreviation proc := (cc_proc cx).

(** [BundleView::walk_roots]. *)
Definition walk_roots (role : Z) : list BundleTypeId :=
  match find_first (λ e, e.1 =? role) (b_walks b) with
  | Some (_, binding) => match wb_outcome binding with Bound _ _ _ => roots binding | _ => [] end
  | None => []
  end.

(** What a reference member points to, where that is of an accepted type. *)
Definition accepted_pointee (accept : BundleTypeId → bool) (v : Value) : outcome (option Value) :=
  target ←? pointer_target b (val_ty v);
  if negb (accept target) then Ret None
  else
    ptr ←? ok_of (parse b (parse_unsigned 8) proc v);
    if contains_addr (cc_mappings cx) ptr then ok_of (value_read b proc target ptr) else Ret None.

(** One member of a frame: the value accepted, or what it refers to. *)
Definition frame_member (accept : BundleTypeId → bool) (frame : Value) (m : MemberDef) : outcome (option Value) :=
  size ← ty_size b (m_ty m);
  if size =? 0 then Ret None
  else
    match bytes_get (val_bytes frame) (m_offset m) (u64_add (m_offset m) size) with
    | None => Ret None
    | Some bytes =>
        let v := mkValue (m_ty m) (u64_add (val_addr frame) (m_offset m)) bytes in
        if accept (val_ty v) then Ret (Some v) else accepted_pointee accept v
    end.

(** The values a partial function gives of a list, in order. *)
Fixpoint collect_some {A B} (f : A → outcome (option B)) (l : list A) : outcome (list B) :=
  match l with
  | [] => Ret []
  | a :: l => o ← f a; rest ← collect_some f l; Ret (option_list o ++ rest)
  end.

Fixpoint frame_members (accept : BundleTypeId → bool) (fs : list Value) : outcome (list Value) :=
  match fs with
  | [] => Ret []
  | f :: fs =>
      ms ← members b (val_ty f);
      found ← collect_some (frame_member accept f) ms;
      rest ← frame_members accept fs;
      Ret (found ++ rest)
  end.

(** The first a partial function gives, with its value. *)
Fixpoint find_some {A B} (f : A → outcome (option B)) (l : list A) : outcome (option B) :=
  match l with
  | [] => Ret None
  | a :: l => o ← f a; match o with Some x => Ret (Some x) | None => find_some f l end
  end.

(** The value a role's walk reaches, whatever else it comes to nothing. *)
Definition walk_reaches (role : Z) (v : Value) : outcome (option Value) :=
  w ← try_walk_with b proc None role v;
  Ret match w with inl (Some (At found)) => Some found | _ => None end.

(** ** Descriptors *)

Definition resource_of (ty : BundleTypeId) : option (Z * Z) :=
  find_first (λ e, bool_decide (ty ∈ walk_roots e.1)) IO_RESOURCES.

Definition parse_i32 : Parser (T := T) Z := λ p v, w ←! parse_unsigned 4 p v; succeed (as_i32 w).

(** The descriptor of a resource, once it is the registration's; the inner option is what
    its own walk gave. *)
Definition resource_fd (scheduled : Z) (v : Value) : outcome (option (option Z)) :=
  match resource_of (val_ty v) with
  | None => Ret None
  | Some (shared, fd) =>
      owned ←? walk_reaches shared v;
      if negb (val_addr owned =? scheduled) then Ret None
      else found ← ok_flat (try_read_with b proc None parse_i32 fd v); Ret (Some found)
  end.

Definition io_resource_fd (fs : list Value) (scheduled : Z) : outcome (option Z) :=
  vs ← frame_members (λ ty, bool_decide (is_Some (resource_of ty))) fs;
  found ← find_some (resource_fd scheduled) vs;
  Ret (default None found).

(** ** Watch channels *)

Record WatchWords := mkWatch {
  ww_addr : Z;
  ww_version : Z;
  ww_closed : bool;
  ww_receivers : Z;
  ww_senders : Z
}.

Definition watch_words_of (arc : Value) (notify : Z) (at_ : Z → outcome (option Value))
    (word : Z → outcome (option Z)) : outcome (option WatchWords) :=
  rx ←? at_ WatchSharedNotifyRx;
  if negb (value_contains rx notify) then Ret None
  else
    state ←? word WatchSharedState;
    data ← member b (val_ty arc) (bytes_of_string "data");
    receivers ←? word WatchSharedRxCount;
    senders ←? word WatchSharedTxCount;
    Ret (Some (mkWatch (u64_add (val_addr arc) (default 0 (m_offset <$> data)))
                 (Z.shiftr state VERSION_SHIFT) (flag state WATCH_CLOSED) receivers senders)).

Definition watch_shared_target (arc : Value) (notify : Z) : outcome (option WaitTarget) :=
  words ←? watch_words_of arc notify (λ role, walk_reaches role arc)
             (λ role, ok_flat (try_read_with b proc None (parse_unsigned 8) role arc));
  Ret (Some (WtWatch (ww_addr words) (ww_version words) (ww_closed words) (ww_receivers words)
               (ww_senders words))).

(** A receiver's channel, through the pointer it keeps. *)
Definition receiver_target (notify : Z) (receiver : Value) : outcome (option WaitTarget) :=
  ptr ←? walk_reaches WatchReceiverShared receiver;
  arc_ty ←? pointer_target b (val_ty ptr);
  a ←? ok_of (parse b (parse_unsigned 8) proc ptr);
  if negb (contains_addr (cc_mappings cx) a) then Ret None
  else arc ←? ok_of (value_read b proc arc_ty a); watch_shared_target arc notify.

(** The allocations a channel's state is in, with where each keeps the state. *)
Definition watch_arcs : outcome (list (BundleTypeId * MemberDef)) :=
  collect_some (λ root,
    if bool_decide (is_Some (ty_get (b_types b) root)) then
      data ←? member b root (bytes_of_string "data"); Ret (Some (root, data))
    else Ret None) (walk_roots WatchSharedState).

(** A channel's state, its allocation found around it. *)
Definition shared_target (arcs : list (BundleTypeId * MemberDef)) (notify : Z) (shared : Value)
    : outcome (option WaitTarget) :=
  find_some (λ e : BundleTypeId * MemberDef,
    if negb (Nat.eqb (m_ty e.2) (val_ty shared)) then Ret None
    else match checked_sub (val_addr shared) (m_offset e.2) with
         | None => Ret None
         | Some a => arc ←? ok_of (value_read b proc e.1 a); watch_shared_target arc notify
         end) arcs.

Definition watch_target (fs : list Value) (notify : Z) : outcome (option WaitTarget) :=
  receivers ← frame_members (λ ty, bool_decide (ty ∈ walk_roots WatchReceiverShared)) fs;
  found ← find_some (receiver_target notify) receivers;
  match found with
  | Some t => Ret (Some t)
  | None =>
      arcs ← watch_arcs;
      shareds ← frame_members (λ ty, existsb (λ e : BundleTypeId * MemberDef, Nat.eqb (m_ty e.2) ty) arcs) fs;
      find_some (shared_target arcs notify) shareds
  end.

(** ** Owners and trailers *)

(** [semaphore_owner]: the nearest frame above the leaf that acquires for a primitive. *)
Definition semaphore_owner (c : AwaitChain) : outcome (option str) :=
  find_some (λ f, acquires_for b (cc_records cx) (val_ty (af_future f))) (drop 1 (reverse (frames c))).

(** [Context::trailer_waker_slot] and [trailer_waker]. *)
Definition trailer_waker_slot (task : Z) : fallible HarvestError (QueuedWaker * option Z) :=
  header ←! map_err HvTask (infra_read cx (if_header (cc_infra cx)) task);
  vtable_addr ←! map_err HvTask (role_read cx (parse_unsigned 8) HeaderVtable header);
  vtable ←! map_err (HvTask ∘ TkVtable vtable_addr) (task_vtable cx vtable_addr);
  trailer ←! map_err HvTask (infra_read cx (if_trailer (cc_infra cx))
                               (u64_add task (vt_trailer_offset vtable)));
  w ←! map_err HvTask (role_walk cx TrailerWaker trailer);
  match walked_optional w with
  | None => succeed (WUnarmed, None)
  | Some raw => waker ←! raw_waker cx statics raw; succeed (waker, Some (val_addr raw))
  end.
Definition trailer_waker (task : Z) : fallible HarvestError QueuedWaker :=
  '(waker, _) ←! trailer_waker_slot task; succeed waker.
End joins.

(** ** The pass *)

(** What one analysis shares: each queue, registration, channel and [Notify] read once. *)
Record AssessmentPass := mkPass {
  ps_queues : gmap ValueKey QueueObservation;
  ps_registrations : gmap ValueKey (Observed IoResourceInfo);
  ps_channels : gmap ValueKey ChannelObservation;
  ps_notifies : gmap ValueKey NotifyObservation;
  ps_budget : ScanBudget
}.

(** [AssessmentPass::new]. *)
Definition pass_new (bg : ScanBudget) : AssessmentPass := mkPass ∅ ∅ ∅ ∅ bg.

Section pass.
Context `{Demangler} {T : Type} `{!Target T} (cx : ChainCtx T) (statics : list (StaticRole * StaticDef))
  (read : ReadContext).
Implicit Types p : AssessmentPass.

Definition pass_queue (semaphore : ValueKey) p : outcome (AssessmentPass * QueueObservation) :=
  match ps_queues p !! semaphore with
  | Some o => Ret (p, o)
  | None =>
      '(bg, o) ← observe_semaphore_queue cx statics read semaphore (ps_budget p);
      Ret (mkPass (<[semaphore := o]> (ps_queues p)) (ps_registrations p) (ps_channels p) (ps_notifies p) bg, o)
  end.

Definition pass_registration (io : ValueKey) p : outcome (AssessmentPass * Observed IoResourceInfo) :=
  match ps_registrations p !! io with
  | Some o => Ret (p, o)
  | None =>
      '(bg, o) ← observe_io_registration cx statics read io (ps_budget p);
      Ret (mkPass (ps_queues p) (<[io := o]> (ps_registrations p)) (ps_channels p) (ps_notifies p) bg, o)
  end.

Definition pass_channel (chan : ValueKey) p : outcome (AssessmentPass * ChannelObservation) :=
  match ps_channels p !! chan with
  | Some o => Ret (p, o)
  | None =>
      '(bg, o) ← observe_channel cx statics read chan (ps_budget p);
      Ret (mkPass (ps_queues p) (ps_registrations p) (<[chan := o]> (ps_channels p)) (ps_notifies p) bg, o)
  end.

Definition pass_notify (notify : ValueKey) p : outcome (AssessmentPass * NotifyObservation) :=
  match ps_notifies p !! notify with
  | Some o => Ret (p, o)
  | None =>
      '(bg, o) ← observe_notify cx statics read notify (ps_budget p);
      Ret (mkPass (ps_queues p) (ps_registrations p) (ps_channels p) (<[notify := o]> (ps_notifies p)) bg, o)
  end.
End pass.

(** ** The protocols

    Each is what it makes of its resource: the wait, or the assessment it declines with. *)

Section protocols.
Context {M : Type}.
Abbreviation deciding := (fallible (Assessed M)) (only parsing).

Definition decline {A} (r : WaitUnknownReason) (note : Note) : deciding A := throw (assessed_unknown r note).
Definition is_ready {A} (r : ReadyReason) : deciding A := throw (ready r).

(** A word that must have been read. *)
Definition needed {A} (o : option A) (r : WaitUnknownReason) (note : Note) : deciding A :=
  match o with Some a => succeed a | None => decline r note end.

(** A waker that must be the task's own: another task's is conflicting evidence, one that
    is not a task's unproven, an empty cell what the caller says. *)
Definition own_waker (task : TaskAddr) (cell : string) (w : QueuedWaker)
    (empty : deciding ()) : deciding () :=
  match w with
  | WTask a _ => if a =? task then succeed () else decline UkConflictingEvidence (SayOtherTask cell a)
  | WOther vtable => decline UkResourceStateUnproven (SayNotATask cell vtable)
  | WUnarmed => empty
  end.

(** *** Receivers *)

Definition recv_wait (channel : ChannelObservation) (chan : ValueKey) (task : TaskFacts) (primitive : ValueKey)
    : deciding VerifiedWait :=
  let issues := ch_issues channel in
  let unread := SayWordsUnread "the channel" issues in
  senders ←! needed (ch_senders channel) UkResourceUnreadable unread;
  index ←! needed (ch_index channel) UkResourceUnreadable unread;
  tail ←! needed (ch_tail_position channel) UkResourceUnreadable unread;
  rx_closed ←! needed (ch_rx_closed channel) UkResourceUnreadable unread;
  if tail <? index then decline UkConflictingEvidence (SayIndexPastTail index tail)
  else
    _ ←! match ch_slot channel with
         | SlValue => is_ready RdMessageReady
         | SlClosed => is_ready RdChannelClosed
         | SlEmpty | SlNoBlock => succeed ()
         | SlUnknown => decline UkResourceUnreadable (SayBlockUnreached issues)
         end;
    _ ←! (if (rx_closed : bool) then
            match ch_available channel, ch_capacity channel with
            | Some available, Some capacity =>
                if available =? capacity then is_ready RdChannelClosed else succeed ()
            | _, _ => decline UkResourceStateUnproven SayPermitsUnread
            end
          else succeed ());
    _ ←! match ch_waker_state channel with
         | Some state =>
             if state =? ATOMIC_WAITING then succeed ()
             else decline UkResourceStateUnproven (SayWakerState "the receiver" state)
         | None => decline UkResourceUnreadable (SayWakerStateUnread "the receiver" issues)
         end;
    _ ←! match ch_waker channel with
         | Some w =>
             own_waker (tf_addr task) "the receiver's waker" w
               (decline UkConflictingEvidence (SayNoWaker "the receiver"))
         | None => decline UkResourceUnreadable (SayWakerUnread "the receiver's waker" issues)
         end;
    if senders =? 0 then decline UkConflictingEvidence SayNoSender
    else
      succeed (mkWait (WtChannel (vk_addr chan) senders (ch_capacity channel) (tail - index)) primitive None).

(** *** Oneshots *)

Definition oneshot_wait (o : OneshotObservation) (task : TaskFacts) (primitive : ValueKey)
    : deciding VerifiedWait :=
  let state := os_state o in
  let unread := decline UkResourceUnreadable (SayUnread "the receiver's waker") in
  if oneshot_complete state then is_ready RdOneshotComplete
  else if oneshot_closed state then is_ready RdOneshotClosed
  else if negb (rx_task_set state) then decline UkConflictingEvidence SayNoWakerStored
  else
    _ ←! match os_rx_waker o with
         | Some w => own_waker (tf_addr task) "the receiver's waker" w unread
         | None => unread
         end;
    succeed (mkWait (WtOneshot (os_inner o) state Rx) primitive None).

(** *** Notifies *)

(** Why a list's order is not known: [None] where it is. *)
Definition unsettled (c : Consistency) (issues : list WalkIssue) : Unsettled :=
  match c with
  | Mutating => UsLocked
  | CUnknown => UsGuard
  | Quiescent => UsStopped issues
  end.

(** What the node's own storage says, before its [Notify] is read. *)
Definition notified_parked (n : NotifiedObservation) : deciding () :=
  _ ←! match nt_state n with
       | NtDone => is_ready RdNotified
       | NtInit => decline UkConflictingEvidence (SayNeverPolled "Notified")
       | NtUnknown word => decline UkResourceStateUnproven (SayNoState "Notified" word)
       | NtWaiting => succeed ()
       end;
  let word := nt_notification n in
  if word =? NOTIFICATION_NONE then succeed ()
  else if (word =? NOTIFICATION_ONE) || (word =? NOTIFICATION_LAST) || (word =? NOTIFICATION_ALL)
  then is_ready RdNotified
  else decline UkConflictingEvidence (SayNotification word).

Definition notified_wait (list : NotifyObservation) (n : NotifiedObservation) (task : TaskFacts)
    (primitive : ValueKey) : deciding VerifiedWait :=
  state ←! needed (no_state list) UkResourceUnreadable (SayUnread "the Notify's state word");
  let low := Z.land state NOTIFY_STATE_MASK in
  _ ←! (if low =? NOTIFY_WAITING then succeed ()
        else if (low =? NOTIFY_EMPTY) || (low =? NOTIFY_NOTIFIED)
        then decline UkConflictingEvidence (SayNotifyState low)
        else decline UkResourceStateUnproven (SayNotifyState low));
  let calls := Z.shiftr state CALLS_SHIFT in
  if negb (calls =? nt_calls n)
  then decline UkConflictingEvidence (SayNotifiedSince (u64_sub calls (nt_calls n)))
  else if negb (notify_established list)
  then decline UkResourceStateUnproven
         (SayUnsettled "the wait list" (unsettled (no_consistency list) (no_issues list)))
  else
    match filter (λ w, nw_addr w = nt_node n) (no_waiters list) with
    | [] => decline UkConflictingEvidence (SayAbsent (nt_node n) "the Notify's wait list")
    | _ :: _ :: _ => decline UkConflictingEvidence (SayTwice "the wait list")
    | [node] =>
        _ ←! own_waker (tf_addr task) "the node's waker" (nw_waker node)
              (decline UkConflictingEvidence (SayNoWaker "the queued node"));
        succeed (mkWait (WtNotify (vk_addr (nt_notify n)) (Some state)
                           (Some (Z.of_nat (length (no_waiters list)))))
                   primitive (notify_position list (nt_node n)))
    end.

(** *** Semaphores *)

Definition acquire_wait (queue : QueueObservation) (a : AcquireObservation) (owner : outcome (option str))
    (task : TaskFacts) (primitive : ValueKey) : deciding VerifiedWait :=
  if bool_decide (qo_closed queue = Some true) || bool_decide (qo_queue_closed queue = Some true)
  then is_ready RdSemaphoreClosed
  else if aq_needed a =? 0 then is_ready RdPermitsGranted
  else if negb (aq_queued a) then decline UkConflictingEvidence SayNeverQueued
  else
    _ ←! needed (qo_closed queue) UkResourceUnreadable (SayUnread "the semaphore's permit word");
    available ←! needed (qo_available queue) UkResourceUnreadable (SayUnread "the semaphore's permit word");
    if negb (queue_established queue)
    then decline UkResourceStateUnproven
           (SayUnsettled "the wait queue" (unsettled (qo_consistency queue) (qo_issues queue)))
    else if negb (bool_decide (queue_contains queue (aq_node a) = Some true))
    then decline UkConflictingEvidence (SayAbsent (aq_node a) "the semaphore's queue")
    else if negb (length (filter (λ w, sw_addr w = aq_node a) (qo_waiters queue)) =? 1)%nat
    then decline UkConflictingEvidence (SayTwice "the queue")
    else
      waiter ←! infallible (or_panic (find_first (λ w, sw_addr w =? aq_node a) (qo_waiters queue)));
      if negb (sw_needed waiter =? aq_needed a)
      then decline UkConflictingEvidence (SayNeedsApart (sw_needed waiter) (aq_needed a))
      else
        _ ←! own_waker (tf_addr task) "the node's waker" (sw_waker waiter)
              (decline UkConflictingEvidence (SayNoWaker "the queued node"));
        if 0 <? available then decline UkConflictingEvidence (SayPermitsFree available)
        else
          owner ←! infallible owner;
          succeed (mkWait (WtSemaphore (vk_addr (aq_semaphore a)) owner (aq_requested a) available false
                             (qo_waiters queue))
                     primitive (queue_position queue (aq_node a))).

(** *** Operations *)

(** What an operation's own storage says, before its registration is read. *)
Definition io_parked (o : IoObservation) : deciding () :=
  match io_operation o, io_remaining o with
  | IoWriteAll, Some 0 => decline UkConflictingEvidence SayExhaustedWrite
  | _, _ =>
      _ ←! match io_operation o, io_readiness_state o with
           | IoReadiness, Some IfInit => decline UkConflictingEvidence (SayNeverPolled "readiness await")
           | IoReadiness, Some IfDone => is_ready RdIoNotified
           | IoReadiness, Some (IfUnknown word) =>
               decline UkResourceStateUnproven (SayNoState "readiness await" word)
           | IoReadiness, None => decline UkResourceUnreadable (SayUnread "the readiness await's state")
           | _, _ => succeed ()
           end;
      if bool_decide (io_waiter_ready o = Some true) then is_ready RdIoNotified else succeed ()
  end.

Definition is_handshake (k : IoOperationKind) : bool := match k with IoHandshake => true | _ => false end.
Definition is_direction (s : IoSlot) : bool := match s with Reader | Writer => true | Listed _ => false end.
Definition slot_eqb (a b : IoSlot) : bool :=
  match a, b with
  | Reader, Reader | Writer, Writer => true
  | Listed x, Listed y => bool_decide (x = y)
  | _, _ => false
  end.

(** The directions whose slots hold the task's waker. *)
Definition parked_interest (r : IoResourceInfo) (task : TaskAddr) : option Z :=
  match omap (λ w, slot_interest (iw_slot w))
          (filter (λ w, bool_decide (iw_task w = Some task) && is_direction (iw_slot w) = true)
             (io_waiters r)) with
  | [] => None
  | i :: is_ => Some (foldl interest_union i is_)
  end.

(** The task a slot or a node holds, held to the one assessed. *)
Definition own_slot (task : TaskAddr) (slot : option IoSlot) (w : IoWaiterInfo) : deciding () :=
  match iw_task w with
  | Some a => if a =? task then succeed () else decline UkConflictingEvidence (SaySlotHolds slot a)
  | None => decline UkResourceStateUnproven (SaySlotNotATask slot)
  end.

(** Where an operation's waker must be, by its kind. *)
Definition io_slot_held (r : IoResourceInfo) (o : IoObservation) (task : TaskAddr) : deciding () :=
  match operation_writes (io_operation o) with
  | Some writes =>
      let slot := if (writes : bool) then Writer else Reader in
      match find_first (λ w, slot_eqb (iw_slot w) slot) (io_waiters r) with
      | None => decline UkConflictingEvidence (SaySlotEmpty slot)
      | Some w => own_slot task (Some slot) w
      end
  | None =>
      if is_handshake (io_operation o) then succeed ()
      else
        node ←! needed (io_waiter_node o) UkResourceUnreadable (SayUnread "the readiness await's node");
        match find_first (λ w, bool_decide (iw_node w = Some node)) (io_waiters r) with
        | None => decline UkConflictingEvidence (SayAbsent node "the registration's list")
        | Some w =>
            if bool_decide (iw_ready w = Some true) then is_ready RdIoNotified
            else
              _ ←! match iw_slot w with
                   | Listed (Some interest) =>
                       if interest =? io_interest o then succeed ()
                       else decline UkConflictingEvidence (SayInterestApart interest (io_interest o))
                   | _ => succeed ()
                   end;
              own_slot task None w
        end
  end.

Definition io_wait (registration : Observed IoResourceInfo) (o : IoObservation)
    (fd : outcome (option Z)) (task : TaskFacts) (primitive : ValueKey) : deciding VerifiedWait :=
  r ←! needed (ob_value registration) UkResourceUnreadable (SayUnread "the registration");
  word ←! needed (io_readiness r) UkResourceUnreadable (SayUnread "the registration's readiness word");
  if flag word SHUTDOWN then is_ready RdIoShutdown
  else
    let settled := match io_consistency r with
                   | Quiescent => succeed ()
                   | c => decline UkResourceStateUnproven (SayRegistrationUnsettled c)
                   end in
    let handshake := is_handshake (io_operation o) in
    interest ←! (if handshake then
                   _ ←! settled;
                   needed (parked_interest r (tf_addr task)) UkConflictingEvidence SayNoDirection
                 else succeed (io_interest o));
    if flag (Z.land word READY_MASK) (direction_mask interest) then is_ready RdIoReady
    else
      _ ←! settled;
      fd ←! match io_fd o with Some fd => succeed (Some fd) | None => infallible fd end;
      _ ←! io_slot_held r o (tf_addr task);
      succeed (mkWait (WtIo (vk_addr (scheduled_io o)) fd (Some interest) handshake (io_tls o)) primitive None).

(** *** Timers *)

Definition timer_wait (stopped : option RawInstant) (t : TimerObservation) (primitive : ValueKey)
    : deciding VerifiedWait :=
  match tm_state t with
  | TmRegistered _ =>
      deadline ←! needed (tm_deadline t) UkResourceUnreadable (SayUnread "the sleep's deadline");
      succeed (mkWait (WtTimer deadline stopped) primitive None)
  | TmPendingFire => is_ready RdTimerPendingFire
  | TmDeregistered => is_ready RdTimerFired
  | TmNotRegistered => decline UkConflictingEvidence (SayNeverPolled "sleep")
  | TmUnknown => decline UkResourceStateUnproven (SayUnread "the sleep's entry state")
  end.

(** *** HTTP connections *)

Definition keep_alive_on (k : KeepAlive) : bool + Note :=
  match k with
  | KaIdle | KaBusy => inl true
  | KaDisabled => inl false
  | KaUnknown word => inr (SayKeepAlive word)
  end.

(** Whether a connection's dispatch has an exchange in flight. *)
Definition callback_held (h : HttpConnObservation) : bool :=
  match hc_client h with Some c => bool_decide (is_Some (hc_callback c)) | None => false end.
Definition handler_running (h : HttpConnObservation) : bool :=
  match hc_server h with Some s => hs_in_flight s | None => false end.

(** The rows both roles share: a word outside the range, a close, a body arriving; what is
    left is the role's own. *)
Definition phase_rows (h : HttpConnObservation) (own : HttpPhase + Note) : HttpPhase + Note :=
  match hc_reading h, hc_writing h with
  | HrUnknown word, _ => inr (SayWordOutside word)
  | _, HwUnknown word => inr (SayWordOutside word)
  | reading, writing =>
      if hc_is_closing h then inl PhClosing
      else match reading, writing with
           | HrClosed, _ | _, HwClosed => inl PhClosing
           | (HrBody framing | HrContinue framing), _ => inl (PhReceivingBody framing)
           | _, _ => own
           end
  end.

Definition with_keep_alive (h : HttpConnObservation) (phase : HttpPhase + Note) : (HttpPhase * bool) + Note :=
  match keep_alive_on (hc_keep_alive h) with
  | inr note => inr note
  | inl keep_alive => match phase with inl ph => inl (ph, keep_alive) | inr note => inr note end
  end.

Definition client_phase (h : HttpConnObservation) : (HttpPhase * bool) + Note :=
  let in_flight := callback_held h in
  with_keep_alive h (phase_rows h
    match hc_reading h, hc_writing h, in_flight with
    | HrInit, HwBody framing, true => inl (PhSendingBody framing)
    | HrInit, (HwKeepAlive | HwInit), true => inl PhAwaitingResponse
    | HrInit, HwInit, false => inl PhIdle
    | reading, writing, _ => inr (SayNotProduced HttpClient reading writing in_flight)
    end).

Definition server_phase (h : HttpConnObservation) : (HttpPhase * bool) + Note :=
  with_keep_alive h (phase_rows h
    (if handler_running h then inl PhHandlingRequest
     else match hc_reading h, hc_writing h with
          | (HrInit | HrKeepAlive), HwBody framing => inl (PhSendingBody framing)
          | HrInit, HwInit => inl PhIdle
          | reading, writing => inr (SayNotProduced HttpServer reading writing false)
          end)).

(** [http_caller] and [in_flight_caller]. *)
Definition http_caller (o : OneshotObservation) : HttpCaller :=
  if oneshot_closed (os_state o) then Gone
  else if negb (rx_task_set (os_state o)) then Unparked
  else match os_rx_waker o with
       | Some (WTask a id) => CallerTask (mkTaskRef a id)
       | Some (WOther vtable) => NotATask vtable (os_rx_task_at o)
       | Some WUnarmed | None => Unread
       end.
Definition in_flight_caller (phase : HttpPhase) (c : HttpClientObservation) : option HttpCaller :=
  match phase with
  | PhAwaitingResponse | PhSendingBody _ => http_caller <$> hc_callback c
  | _ => None
  end.

(** [waker_decline]. *)
Definition connection_waker (task : TaskAddr) (cell : string) (w : option QueuedWaker) : deciding () :=
  match w with
  | Some w => own_waker task cell w (decline UkConflictingEvidence (SayNoWaker cell))
  | None => decline UkResourceUnreadable (SayUnread cell)
  end.

(** The connection as a target, at its phase and through its primitive. *)
Definition client_target (h : HttpConnObservation) (phase : HttpPhase) (keep_alive : bool)
    (via : option WaitTarget) (client : HttpClientObservation) : WaitTarget :=
  WtHttpConn (hc_conn h) HttpClient (Some Http1) phase (hc_method h) keep_alive false via
    (in_flight_caller phase client) (http_tls h) (http_fd h).
Definition server_target (h : HttpConnObservation) (phase : HttpPhase) (keep_alive : bool)
    (server : HttpServerObservation) : WaitTarget :=
  WtHttpConn (hc_conn h) HttpServer (Some Http1) phase (hc_method h) keep_alive
    (hs_header_read_timer_running server) None None (http_tls h) (http_fd h).
Definition negotiating_target (wrapper : ValueKey) : WaitTarget :=
  WtHttpConn (vk_addr wrapper) HttpServer None PhNegotiating None true false None None None None.

(** What an idle connection is parked on: its request channel. *)
Definition idle_via (channel : ChannelObservation) (chan : ValueKey) (task : TaskFacts) : deciding WaitTarget :=
  let cell := "request receiver's waker"%string in
  _ ←! match ch_waker_state channel with
       | Some state =>
           if state =? ATOMIC_WAITING then succeed ()
           else decline UkResourceStateUnproven (SayWakerState "the request receiver" state)
       | None => decline UkResourceUnreadable (SayUnread "the request receiver's waker state")
       end;
  _ ←! connection_waker (tf_addr task) cell (ch_waker channel);
  let unread := SayUnread "the request channel's words" in
  senders ←! needed (ch_senders channel) UkResourceUnreadable unread;
  index ←! needed (ch_index channel) UkResourceUnreadable unread;
  tail ←! needed (ch_tail_position channel) UkResourceUnreadable unread;
  succeed (WtChannel (vk_addr chan) senders (ch_capacity channel) (Z.max 0 (tail - index))).

(** And one with a request in flight: its response callback. *)
Definition callback_via (client : HttpClientObservation) (task : TaskFacts) : deciding WaitTarget :=
  callback ←! needed (hc_callback client) UkResourceUnreadable (SayUnread "the response callback's oneshot");
  if negb (tx_task_set (os_state callback)) then decline UkConflictingEvidence SayNoCallbackWatched
  else
    _ ←! connection_waker (tf_addr task) "response callback's sender cell" (os_tx_waker callback);
    succeed (WtOneshot (os_inner callback) (os_state callback) Tx).

Definition server_wait (h : HttpConnObservation) (primitive : ValueKey) : deciding VerifiedWait :=
  match server_phase h with
  | inr note => decline UkResourceStateUnproven note
  | inl (phase, keep_alive) =>
      server ←! needed (hc_server h) UkResourceStateUnproven (SayDispatchUnbound HttpServer);
      succeed (mkWait (server_target h phase keep_alive server) primitive None)
  end.
End protocols.

(** ** Assessments *)

Section assess.
Context `{Demangler} `{StreamObservers} {T : Type} `{!Target T} (cx : ChainCtx T)
  (statics : list (StaticRole * StaticDef)) (read : ReadContext).
Context {M : Type}.
Abbreviation b := (cc_bundle cx).
Abbreviation proc := (cc_proc cx).
Abbreviation deciding := (fallible (Assessed M)) (only parsing).
Implicit Types p : AssessmentPass.

(** What a protocol decided. *)
Definition settle (m : deciding VerifiedWait) : outcome (Assessed M) :=
  r ← m; Ret match r with inl w => assessed_of (Waiting w) | inr a => a end.

Definition assess_recv p (recv : RecvObservation) (task : TaskFacts) (primitive : ValueKey)
    : outcome (AssessmentPass * Assessed M) :=
  '(p, channel) ← pass_channel cx statics read (rc_chan recv) p;
  a ← settle (recv_wait channel (rc_chan recv) task primitive);
  Ret (p, a).

Definition assess_oneshot (o : OneshotObservation) (task : TaskFacts) (primitive : ValueKey)
    : outcome (Assessed M) := settle (oneshot_wait o task primitive).

(** The primitive a client connection is parked on, by its phase; a server's phase is
    unreachable. *)
Definition client_via p (phase : HttpPhase) (client : HttpClientObservation) (task : TaskFacts)
    : outcome (AssessmentPass * (option WaitTarget + Assessed M)) :=
  match phase with
  | PhIdle =>
      match hc_rx client with
      | None => Ret (p, inr (assessed_unknown UkResourceUnreadable (SayUnread "the request receiver's channel")))
      | Some chan =>
          '(p, channel) ← pass_channel cx statics read chan p;
          via ← (via ←! idle_via channel chan task; succeed (Some via));
          Ret (p, via)
      end
  | PhAwaitingResponse | PhSendingBody _ =>
      via ← (via ←! callback_via client task; succeed (Some via)); Ret (p, via)
  | PhReceivingBody _ | PhClosing => Ret (p, inl None)
  | PhNegotiating | PhHandlingRequest => Panic
  end.

Definition assess_http_client p (h : HttpConnObservation) (task : TaskFacts) (primitive : ValueKey)
    : outcome (AssessmentPass * Assessed M) :=
  match client_phase h with
  | inr note => Ret (p, assessed_unknown UkResourceStateUnproven note)
  | inl (phase, keep_alive) =>
      match hc_client h with
      | None => Ret (p, assessed_unknown UkResourceStateUnproven (SayDispatchUnbound HttpClient))
      | Some client =>
          '(p, via) ← client_via p phase client task;
          Ret (p, match via with
                  | inl via => assessed_of (Waiting (mkWait (client_target h phase keep_alive via client) primitive None))
                  | inr a => a
                  end)
      end
  end.

Definition assess_http_conn p (h : HttpConnObservation) (task : TaskFacts) (primitive : ValueKey)
    : outcome (AssessmentPass * Assessed M) :=
  match hc_role h with
  | HttpClient => assess_http_client p h task primitive
  | HttpServer => a ← settle (server_wait h primitive); Ret (p, a)
  end.

Definition assess_notified p (n : NotifiedObservation) (task : TaskFacts) (primitive : ValueKey)
    : outcome (AssessmentPass * Assessed M) :=
  parked ← notified_parked (M := M) n;
  match parked with
  | inr a => Ret (p, a)
  | inl _ =>
      '(p, list) ← pass_notify cx statics read (nt_notify n) p;
      a ← settle (notified_wait list n task primitive);
      Ret (p, a)
  end.

(** The joined task as a target, its kind read only where no listing shows it. *)
Definition task_target (h : DecodedTaskHeader) (a : Z) (l : TaskList) : outcome WaitTarget :=
  let listed := list_contains l a in
  kind ← (if listed then Ret None else header_unlisted_kind cx a);
  Ret (WtTask a (h_task_id h) (h_state h) listed kind).

Definition join_wait (join : JoinObservation) (task : TaskFacts) (l : TaskList) (primitive : ValueKey)
    : deciding VerifiedWait :=
  let a := jo_header join in
  header ←! map_err (assessed_unknown UkResourceUnreadable ∘ SayHeaderUnread) (read_task_header cx a read);
  let state := h_state header in
  if TaskGraph.is_complete state then is_ready RdJoinComplete
  else if negb (is_join_interested state) then decline UkConflictingEvidence SayNoJoinInterest
  else if negb (is_join_waker_set state) then decline UkResourceStateUnproven SayNoJoinWaker
  else
    target ←! infallible (task_target header a l);
    waker ←! map_err (assessed_unknown UkResourceUnreadable ∘ SayTrailerUnread) (trailer_waker cx statics a);
    _ ←! own_waker (tf_addr task) "the joined task's waker" waker
           (decline UkResourceStateUnproven (SayNoWaker "the joined task's waker slot"));
    succeed (mkWait target primitive None).

Definition assess_acquire p (a : AcquireObservation) (task : TaskFacts) (c : AwaitChain) (primitive : ValueKey)
    : outcome (AssessmentPass * Assessed M) :=
  if aq_requested a <? aq_needed a
  then Ret (p, assessed_unknown UkConflictingEvidence (SayNeedsMore (aq_needed a) (aq_requested a)))
  else
    '(p, queue) ← pass_queue cx statics read (aq_semaphore a) p;
    r ← settle (acquire_wait queue a (semaphore_owner cx c) task primitive);
    Ret (p, r).

Definition assess_io p (o : IoObservation) (task : TaskFacts) (c : AwaitChain) (primitive : ValueKey)
    : outcome (AssessmentPass * Assessed M) :=
  parked ← io_parked (M := M) o;
  match parked with
  | inr a => Ret (p, a)
  | inl _ =>
      '(p, registration) ← pass_registration cx statics read (scheduled_io o) p;
      a ← settle (io_wait registration o (io_resource_fd cx (payloads c) (vk_addr (scheduled_io o))) task primitive);
      Ret (p, a)
  end.

(** A wait on one of a watch channel's [Notify]s reads as the channel's. *)
Definition as_watch (c : AwaitChain) (a : Assessed M) : outcome (Assessed M) :=
  match as_assessment a with
  | Waiting (mkWait (WtNotify addr _ _) primitive position) =>
      watch ← watch_target cx (payloads c) addr;
      Ret match watch with
          | Some watch => mkAssessed (Waiting (mkWait watch primitive position)) (as_notes a)
          | None => a
          end
  | _ => Ret a
  end.

Definition assess_resource p (o : ResourceObservation) (task : TaskFacts) (l : TaskList) (c : AwaitChain)
    (primitive : ValueKey) : outcome (AssessmentPass * Assessed M) :=
  match o with
  | RoJoin join => a ← settle (join_wait join task l primitive); Ret (p, a)
  | RoAcquire acquire => assess_acquire p acquire task c primitive
  | RoIo io => assess_io p io task c primitive
  | RoTimer timer => a ← settle (timer_wait (stopped_at cx) timer primitive); Ret (p, a)
  | RoRecv recv => assess_recv p recv task primitive
  | RoOneshot oneshot => a ← assess_oneshot oneshot task primitive; Ret (p, a)
  | RoHttpConn http => assess_http_conn p http task primitive
  | RoHttpNegotiating wrapper =>
      Ret (p, assessed_of (Waiting (mkWait (negotiating_target wrapper) primitive None)))
  | RoNotified notified =>
      '(p, a) ← assess_notified p notified task primitive;
      a ← as_watch c a;
      Ret (p, a)
  end.

(** What the state word decides, and then the chain's end. *)
Definition state_verdict (task : TaskFacts) : option (Assessed M) :=
  match lifecycle (tf_state task) with
  | Complete => Some (assessed_of (NotWaiting NwComplete))
  | Running => Some (assessed_of (Runnable RnActivePoll))
  | TaskGraph.Queued => Some (assessed_of (Runnable RnScheduled))
  | Idle =>
      match tf_kind task with
      | KConflict => Some (assessed_unknown UkTaskKind SayKindConflict)
      | _ => None
      end
  end.

Definition end_verdict (e : ChainEnd) : option (Assessed M) :=
  match e with
  | EndReturned => Some (assessed_of (NotWaiting NwReturned))
  | EndPanicked => Some (assessed_of (NotWaiting NwPanicked))
  | EndUnresumed => Some (assessed_of Unresumed)
  | EndNeverReady => Some (assessed_of (NeverReady [] 0))
  | EndActivePoll => Some (assessed_unknown UkLifecycle SayMidPoll)
  | EndPrimitive => None
  | EndUnknownContinuation _ _ => Some (assessed_of (Unknown UkContinuation))
  | _ => Some (assessed_unknown UkContinuation (SayIncomplete e))
  end.

(** Whether a type's resource has a reviewed protocol of its state. *)
Definition state_reviewed (ty : BundleTypeId) : outcome bool :=
  record ← semantics_of cx ty;
  Ret match r ← record; ts_resource r with
      | Some binding => bool_decide (is_Some (rb_state_rule binding))
      | None => false
      end.

Definition assess_wait p (inspection : FutureInspection) (task : TaskFacts) (l : TaskList)
    : outcome (AssessmentPass * Assessed M) :=
  match state_verdict task with
  | Some a => Ret (p, a)
  | None =>
      let c := fi_chain inspection in
      match end_verdict (chain_end c) with
      | Some a => Ret (p, a)
      | None =>
          match primitive_leaf c, ob_value (fi_primitive inspection) with
          | None, _ => Ret (p, assessed_unknown UkContinuation SayNoPrimitive)
          | Some _, None =>
              Ret (p, mkAssessed (Unknown UkResourceUnreadable)
                        (SayObservedNothing :: (SayIssue <$> ob_issues (fi_primitive inspection))))
          | Some leaf, Some o =>
              reviewed ← state_reviewed (val_ty leaf);
              if (reviewed : bool) then assess_resource p o task l c (value_key leaf)
              else
                nm ← ty_name b (val_ty leaf);
                Ret (p, assessed_unknown UkResourceStateUnproven (SayNoProtocol nm))
          end
      end
  end.

(** ** The target an observation names, under no protocol *)

(** A channel as a target, where its words read. *)
Definition channel_target (chan : ValueKey) (channel : ChannelObservation) : option WaitTarget :=
  senders ← ch_senders channel;
  tail ← ch_tail_position channel;
  index ← ch_index channel;
  Some (WtChannel (vk_addr chan) senders (ch_capacity channel) (Z.max 0 (tail - index))).

Definition observed_via p (phase : HttpPhase) (client : HttpClientObservation)
    : outcome (AssessmentPass * option (option WaitTarget)) :=
  match phase with
  | PhIdle =>
      match hc_rx client with
      | None => Ret (p, None)
      | Some chan =>
          '(p, channel) ← pass_channel cx statics read chan p;
          Ret (p, t ← channel_target chan channel; Some (Some t))
      end
  | PhAwaitingResponse | PhSendingBody _ =>
      Ret (p, cb ← hc_callback client; Some (Some (WtOneshot (os_inner cb) (os_state cb) Tx)))
  | _ => Ret (p, Some None)
  end.

Definition observed_http p (h : HttpConnObservation) : outcome (AssessmentPass * option WaitTarget) :=
  match hc_role h with
  | HttpClient =>
      match client_phase h, hc_client h with
      | inl (phase, keep_alive), Some client =>
          '(p, via) ← observed_via p phase client;
          Ret (p, via ← via; Some (client_target h phase keep_alive via client))
      | _, _ => Ret (p, None)
      end
  | HttpServer =>
      Ret (p, match server_phase h, hc_server h with
              | inl (phase, keep_alive), Some server => Some (server_target h phase keep_alive server)
              | _, _ => None
              end)
  end.

(** A semaphore's queue prints only where its order is established. *)
Definition observed_semaphore (queue : QueueObservation) (a : AcquireObservation) (owner : option str)
    : option WaitTarget :=
  available ← qo_available queue;
  closed ← qo_closed queue;
  Some (WtSemaphore (vk_addr (aq_semaphore a)) owner (aq_requested a) available closed
          (if queue_established queue then qo_waiters queue else [])).

Definition observed_target p (o : ResourceObservation) (c : AwaitChain) (l : TaskList)
    : outcome (AssessmentPass * option WaitTarget) :=
  match o with
  | RoJoin join =>
      header ← read_task_header cx (jo_header join) read;
      match header with
      | inr _ => Ret (p, None)
      | inl header => target ← task_target header (jo_header join) l; Ret (p, Some target)
      end
  | RoAcquire a =>
      '(p, queue) ← pass_queue cx statics read (aq_semaphore a) p;
      owner ← semaphore_owner cx c;
      Ret (p, observed_semaphore queue a owner)
  | RoIo o =>
      fd ← match io_fd o with
           | Some fd => Ret (Some fd)
           | None => io_resource_fd cx (payloads c) (vk_addr (scheduled_io o))
           end;
      Ret (p, Some (WtIo (vk_addr (scheduled_io o)) fd (Some (io_interest o)) (is_handshake (io_operation o))
                      (io_tls o)))
  | RoTimer t => Ret (p, deadline ← tm_deadline t; Some (WtTimer deadline (stopped_at cx)))
  | RoRecv recv =>
      '(p, channel) ← pass_channel cx statics read (rc_chan recv) p;
      Ret (p, channel_target (rc_chan recv) channel)
  | RoNotified n =>
      watch ← watch_target cx (payloads c) (vk_addr (nt_notify n));
      match watch with
      | Some watch => Ret (p, Some watch)
      | None =>
          state ← notify_state cx read (nt_notify n);
          Ret (p, Some (WtNotify (vk_addr (nt_notify n)) state None))
      end
  | RoOneshot o => Ret (p, Some (WtOneshot (os_inner o) (os_state o) Rx))
  | RoHttpConn h => observed_http p h
  | RoHttpNegotiating wrapper => Ret (p, Some (negotiating_target wrapper))
  end.

(** ** Polling barriers *)

Record BarrierEdge := mkBarrierEdge {
  be_from : Z;
  be_to : Z;
  be_exclusive : bool;
  be_source : ValueKey;
  be_target : ValueKey;
  be_selected : FutureTarget
}.
Definition barrier_edge (e : ChainEdge) : BarrierEdge :=
  mkBarrierEdge (ce_from e) (ce_to e) (ce_exclusive e) (ce_source e) (ce_target e) (ce_selected e).

Record PollingBarrier := mkBarrier {
  pb_holder : TaskAddr;
  pb_holder_id : option Z;
  pb_frame : nat;
  pb_frame_type : BundleTypeId;
  pb_state : str;
  pb_await_loc : option (str * Z);
  pb_local : str;
  pb_candidate : ValueKey;
  pb_future : BundleTypeId;
  pb_owner : option str;
  pb_acquire : AcquireObservation;
  pb_primitive : ValueKey;
  pb_terminal : BundleTypeId;
  pb_edges : list BarrierEdge
}.

(** [PollingBarrier::granted]. *)
Definition barrier_granted (pb : PollingBarrier) : bool := aq_needed (pb_acquire pb) =? 0.

Definition exclusive_pending (ty : BundleTypeId) : outcome bool :=
  record ← semantics_of cx ty;
  Ret match r ← record; ts_resource r with
      | Some binding => bool_decide (is_Some (rb_state_rule binding)) && rb_exclusive_pending binding
      | None => false
      end.

(** The access a type's record gives, and that the type is a future. *)
Definition access_kind (ty : BundleTypeId) : outcome (option AccessKind) :=
  record ← semantics_of cx ty; Ret (ab_kind <$> (r ← record; ts_access r)).
Definition is_future (ty : BundleTypeId) : outcome bool :=
  record ← semantics_of cx ty; Ret (bool_decide (is_Some (r ← record; ts_future r))).

(** Some edge's source reaches its target through a borrow. *)
Fixpoint borrows (es : list ChainEdge) : outcome bool :=
  match es with
  | [] => Ret false
  | e :: es =>
      kind ← access_kind (vk_ty (ce_source e));
      match kind with Some AkBorrowed => Ret true | _ => borrows es end
  end.

(** The first frame past the adapters. *)
Definition unadapted (fs : list AwaitFrame) : outcome BundleTypeId :=
  found ← find_some (λ f, kind ← access_kind (val_ty (af_future f));
                         Ret match kind with None => Some (val_ty (af_future f)) | Some _ => None end) fs;
  first ← or_panic (head fs);
  Ret (default (val_ty (af_future first)) found).

(** The recorded state of a coroutine whose variant has a name. *)
Definition state_named (nm : str) (states : list CoroutineState) : outcome (option CoroutineState) :=
  find_some (λ s, v ← get (b_strings b) (cs_variant s);
                  Ret (if bool_decide (v = Some nm) then Some s else None)) states.

(** What a barrier of a frame's local is made of: the task, the chain and its terminal. *)
Record BarrierSite := mkSite {
  bs_task : TaskFacts;
  bs_chain : AwaitChain;
  bs_terminal : Value
}.

(** A future held off a chain, inspected: nothing of it on the chain, nothing borrowed, and
    what it ends in an acquire that was queued. *)
Definition held_acquire (c : AwaitChain) (held : FutureInspection) : outcome (option AcquireObservation) :=
  let ch := fi_chain held in
  match chain_end ch with
  | EndPrimitive =>
      if existsb (λ k, bool_decide (k ∈ referents c)) (referents ch) then Ret None
      else
        borrowed ← borrows (chain_edges ch);
        if (borrowed : bool) then Ret None
        else Ret match ob_value (fi_primitive held) with
                 | Some (RoAcquire a) => if aq_queued a then Some a else None
                 | _ => None
                 end
  | _ => Ret None
  end.

(** [Context::inspect_future], with the observation its chain ends in. *)
Definition inspect_held (root : Value) (memo : gmap string (option BundleTypeId))
    : outcome (gmap string (option BundleTypeId) * FutureInspection) :=
  '(memo, (c, observed)) ← inspect_future cx read (observe_resource cx statics read) (Ret observed_none)
                              root MHeld memo;
  o ← observed;
  Ret (memo, mkInspection c o).

Definition with_position (a : AcquireObservation) (queue : QueueObservation) : AcquireObservation :=
  if queue_established queue
  then mkAcquire (aq_future a) (aq_semaphore a) (aq_node a) (aq_requested a) (aq_needed a) (aq_queued a)
         (Z.of_nat <$> queue_position queue (aq_node a))
  else a.

(** What one pass over the locals carries. *)
Record BarrierState := mkBarrierState {
  br_memo : gmap string (option BundleTypeId);
  br_pass : AssessmentPass
}.

(** The barrier of one local of a frame's state, if it is one. *)
Definition local_barrier (site : BarrierSite) (index : nat) (frame : AwaitFrame) (fs : FrameState)
    (cs : CoroutineState) (nm : StrRef) (s : BarrierState) : outcome (BarrierState * option PollingBarrier) :=
  let c := bs_chain site in
  w ← execute_steps b proc read [Variant (cs_variant cs); Member (Named nm)] (af_future frame);
  match w with
  | inl (At local) =>
      if bool_decide (value_key local ∈ referents c) then Ret (s, None)
      else
        future ← is_future (val_ty local);
        if negb future then Ret (s, None)
        else
          '(memo, held) ← inspect_held local (br_memo s);
          let s := mkBarrierState memo (br_pass s) in
          acquire ← held_acquire c held;
          match acquire with
          | None => Ret (s, None)
          | Some a =>
              '(p, queue) ← pass_queue cx statics read (aq_semaphore a) (br_pass s);
              future ← unadapted (frames (fi_chain held));
              local_name ← get (b_strings b) nm;
              owner ← semaphore_owner cx (fi_chain held);
              Ret (mkBarrierState memo p,
                   Some (mkBarrier (tf_addr (bs_task site)) (tf_task_id (bs_task site)) index
                           (val_ty (af_future frame)) (fs_name fs) (fs_await_loc fs)
                           (default BAD_STRREF local_name) (value_key local) future owner
                           (with_position a queue) (value_key (bs_terminal site)) (val_ty (bs_terminal site))
                           (barrier_edge <$> chain_edges c)))
          end
  | _ => Ret (s, None)
  end.

Fixpoint local_barriers (site : BarrierSite) (index : nat) (frame : AwaitFrame) (fs : FrameState)
    (cs : CoroutineState) (names : list StrRef) (s : BarrierState)
    : outcome (BarrierState * list PollingBarrier) :=
  match names with
  | [] => Ret (s, [])
  | nm :: names =>
      '(s, found) ← local_barrier site index frame fs cs nm s;
      '(s, rest) ← local_barriers site index frame fs cs names s;
      Ret (s, option_list found ++ rest)
  end.

(** The state a frame is in, as its coroutine's layout records it. *)
Definition frame_coroutine (frame : AwaitFrame) : outcome (option (FrameState * CoroutineState)) :=
  match af_state frame with
  | None => Ret None
  | Some fs =>
      let v := af_future frame in
      record ← semantics_of cx (val_ty v);
      match r ← record; ts_coroutine r with
      | None => Ret None
      | Some states =>
          active ← active_variant b (val_ty v) (val_bytes v);
          match active with
          | Some (inl active) => cs ←? state_named (bv_name active) states; Ret (Some (fs, cs))
          | _ => Ret None
          end
      end
  end.

Fixpoint frame_barriers (site : BarrierSite) (index : nat) (fs : list AwaitFrame) (s : BarrierState)
    : outcome (BarrierState * list PollingBarrier) :=
  match fs with
  | [] => Ret (s, [])
  | frame :: rest =>
      found ← frame_coroutine frame;
      '(s, here) ← match found with
                   | None => Ret (s, [])
                   | Some (st, cs) => local_barriers site index frame st cs (cs_locals cs) s
                   end;
      '(s, later) ← frame_barriers site (S index) rest s;
      Ret (s, here ++ later)
  end.

Definition polling_barriers (inspection : FutureInspection) (task : TaskFacts) (s : BarrierState)
    : outcome (BarrierState * list PollingBarrier) :=
  let c := fi_chain inspection in
  match lifecycle (tf_state task), all_exclusive c, primitive_leaf c with
  | Idle, true, Some terminal =>
      exclusive ← exclusive_pending (val_ty terminal);
      if (exclusive : bool) then frame_barriers (mkSite task c terminal) 0 (frames c) s else Ret (s, [])
  | _, _, _ => Ret (s, [])
  end.
End assess.
