(* ===== verification/AssessFacts.v ===== *)
(** What a verified wait means, and that the assessor decides it: the specification of
    each protocol over the readings a pass remembers, the pass's memory as an invariant
    that only grows, and for each family of resources that its assessor answers waiting
    exactly where its specification holds.  [AssessTheorems] draws the properties. *)

From S2P Require Import Prelude Text StringTable Target Symbols TaskGraph Schema BundleCheck TypeView DisplayResolve DisplayEval Discovery Work Value Elements Pairing Semantics Contract ContractFacts Chain TaskHeader OwnedLists Runtimes Effects Registries Containers Observe Assess.

Local Open Scope Z_scope.

(** ** The waits a protocol admits

    What must have been read of the resource for the assessor to call a task waiting on
    it, of what the pass remembers. *)

Section spec.
Context `{Demangler} `{StreamObservers} {T : Type} `{!Target T} (cx : ChainCtx T)
  (statics : list (StaticRole * StaticDef)) (read : ReadContext).

(** A waker that is the task's. *)
Definition wakes (t : TaskFacts) (w : QueuedWaker) : Prop := ∃ id, w = WTask (tf_addr t) id.

(** A channel nothing can be taken from yet, its receiver parked. *)
Record channel_waits (ch : ChannelObservation) (t : TaskFacts) (senders unread : Z) : Prop := {
  cw_senders : ch_senders ch = Some senders ∧ senders ≠ 0;
  cw_index index tail : ch_index ch = Some index → ch_tail_position ch = Some tail → index <= tail ∧ unread = tail - index;
  cw_read : is_Some (ch_index ch) ∧ is_Some (ch_tail_position ch);
  cw_slot : ch_slot ch = SlEmpty ∨ ch_slot ch = SlNoBlock;
  cw_closed : ch_rx_closed ch = Some false ∨
    ∃ available capacity, ch_rx_closed ch = Some true ∧ ch_available ch = Some available ∧
      ch_capacity ch = Some capacity ∧ available ≠ capacity;
  cw_rest : ch_waker_state ch = Some ATOMIC_WAITING;
  cw_waker : ∃ w, ch_waker ch = Some w ∧ wakes t w
}.

(** A oneshot neither side of which is done, its receiver parked. *)
Record oneshot_waits (o : OneshotObservation) (t : TaskFacts) : Prop := {
  ow_open : oneshot_complete (os_state o) = false ∧ oneshot_closed (os_state o) = false;
  ow_set : rx_task_set (os_state o) = true;
  ow_waker : ∃ w, os_rx_waker o = Some w ∧ wakes t w
}.

(** A node once in an established list, with the task's waker on it. *)
Definition queued_once {N} (addr_of : N → Z) (waker_of : N → QueuedWaker) (l : list N) (node : Z) (n : N)
    (t : TaskFacts) : Prop :=
  filter (λ n, addr_of n = node) l = [n] ∧ wakes t (waker_of n).

Record notified_waits (list : NotifyObservation) (n : NotifiedObservation) (t : TaskFacts) (state : Z) : Prop := {
  nw_parked : nt_state n = NtWaiting ∧ nt_notification n = NOTIFICATION_NONE;
  nw_state : no_state list = Some state ∧ Z.land state NOTIFY_STATE_MASK = NOTIFY_WAITING;
  nw_calls : Z.shiftr state CALLS_SHIFT = nt_calls n;
  nw_established : notify_established list = true;
  nw_queued : ∃ w, queued_once nw_addr nw_waker (no_waiters list) (nt_node n) w t
}.

Record acquire_waits (queue : QueueObservation) (a : AcquireObservation) (t : TaskFacts) (available : Z) : Prop := {
  aw_needed : 0 ≠ aq_needed a ∧ aq_needed a <= aq_requested a;
  aw_queued : aq_queued a = true;
  aw_open : qo_closed queue = Some false ∧ qo_queue_closed queue ≠ Some true;
  aw_none_free : qo_available queue = Some available ∧ available <= 0;
  aw_established : queue_established queue = true;
  aw_node : ∃ w, queued_once sw_addr sw_waker (qo_waiters queue) (aq_node a) w t ∧ sw_needed w = aq_needed a
}.

(** Where an operation's waker is: in a direction's slot, or on the await's own node. *)
Definition slot_held (r : IoResourceInfo) (o : IoObservation) (t : TaskFacts) : Prop :=
  match operation_writes (io_operation o) with
  | Some writes => ∃ w, find_first (λ w, slot_eqb (iw_slot w) (if writes then Writer else Reader)) (io_waiters r) = Some w ∧
      iw_task w = Some (tf_addr t)
  | None =>
      io_operation o = IoHandshake ∨
      ∃ node w, io_waiter_node o = Some node ∧
        find_first (λ w, bool_decide (iw_node w = Some node)) (io_waiters r) = Some w ∧
        iw_task w = Some (tf_addr t) ∧ iw_ready w ≠ Some true ∧
        (∀ i, iw_slot w = Listed (Some i) → i = io_interest o)
  end.

Record io_waits (r : IoResourceInfo) (o : IoObservation) (t : TaskFacts) (interest : Z) : Prop := {
  iw_unfinished : io_operation o = IoWriteAll → io_remaining o ≠ Some 0;
  iw_waiting : io_operation o = IoReadiness → io_readiness_state o = Some IfWaiting;
  iw_unready : io_waiter_ready o ≠ Some true;
  iw_word : ∃ word, io_readiness r = Some word ∧ flag word SHUTDOWN = false ∧
    flag (Z.land word READY_MASK) (direction_mask interest) = false;
  iw_settled : io_consistency r = Quiescent;
  iw_interest : if is_handshake (io_operation o) then parked_interest r (tf_addr t) = Some interest
                else interest = io_interest o;
  iw_held : slot_held r o t
}.

Record join_waits (join : JoinObservation) (t : TaskFacts) (h : DecodedTaskHeader) : Prop := {
  jw_header : read_task_header cx (jo_header join) read = Ret (inl h);
  jw_state : TaskGraph.is_complete (h_state h) = false ∧ is_join_interested (h_state h) = true ∧
    is_join_waker_set (h_state h) = true;
  jw_waker : ∃ w, trailer_waker cx statics (jo_header join) = Ret (inl w) ∧ wakes t w
}.

(** The primitive a client connection is parked on in its phase. *)
Inductive via_waits (p : AssessmentPass) (t : TaskFacts) (client : HttpClientObservation)
    : HttpPhase → option WaitTarget → Prop :=
  | vw_idle chan ch senders index tail : hc_rx client = Some chan → ps_channels p !! chan = Some ch →
      ch_waker_state ch = Some ATOMIC_WAITING → (∃ w, ch_waker ch = Some w ∧ wakes t w) →
      ch_senders ch = Some senders → ch_index ch = Some index → ch_tail_position ch = Some tail →
      via_waits p t client PhIdle
        (Some (WtChannel (vk_addr chan) senders (ch_capacity ch) (Z.max 0 (tail - index))))
  | vw_callback phase cb w : phase = PhAwaitingResponse ∨ (∃ framing, phase = PhSendingBody framing) →
      hc_callback client = Some cb → tx_task_set (os_state cb) = true → os_tx_waker cb = Some w → wakes t w →
      via_waits p t client phase (Some (WtOneshot (os_inner cb) (os_state cb) Tx))
  | vw_words phase : (∃ framing, phase = PhReceivingBody framing) ∨ phase = PhClosing →
      via_waits p t client phase None.

(** The resources waited on, with what they are waited on as and the place in their queue. *)
Inductive waits (p : AssessmentPass) (t : TaskFacts) (l : TaskList) (c : AwaitChain)
    : ResourceObservation → WaitTarget → option nat → Prop :=
  | waits_join join h target : join_waits join t h → task_target cx h (jo_header join) l = Ret target →
      waits p t l c (RoJoin join) target None
  | waits_acquire a queue owner available : ps_queues p !! aq_semaphore a = Some queue →
      acquire_waits queue a t available → semaphore_owner cx c = Ret owner →
      waits p t l c (RoAcquire a)
        (WtSemaphore (vk_addr (aq_semaphore a)) owner (aq_requested a) available false (qo_waiters queue))
        (queue_position queue (aq_node a))
  | waits_io o registration r interest fd : ps_registrations p !! scheduled_io o = Some registration →
      ob_value registration = Some r → io_waits r o t interest →
      match io_fd o with Some d => Ret (Some d)
                       | None => io_resource_fd cx (payloads c) (vk_addr (scheduled_io o)) end = Ret fd →
      waits p t l c (RoIo o)
        (WtIo (vk_addr (scheduled_io o)) fd (Some interest) (is_handshake (io_operation o)) (io_tls o)) None
  | waits_timer o tick deadline : tm_state o = TmRegistered tick → tm_deadline o = Some deadline →
      waits p t l c (RoTimer o) (WtTimer deadline (stopped_at cx)) None
  | waits_recv r ch senders unread : ps_channels p !! rc_chan r = Some ch → channel_waits ch t senders unread →
      waits p t l c (RoRecv r) (WtChannel (vk_addr (rc_chan r)) senders (ch_capacity ch) unread) None
  | waits_oneshot o : oneshot_waits o t →
      waits p t l c (RoOneshot o) (WtOneshot (os_inner o) (os_state o) Rx) None
  | waits_notified n list state watch : ps_notifies p !! nt_notify n = Some list → notified_waits list n t state →
      watch_target cx (payloads c) (vk_addr (nt_notify n)) = Ret watch →
      waits p t l c (RoNotified n)
        (default (WtNotify (vk_addr (nt_notify n)) (Some state) (Some (Z.of_nat (length (no_waiters list))))) watch)
        (notify_position list (nt_node n))
  | waits_client h client phase keep_alive via : hc_role h = HttpClient → hc_client h = Some client →
      client_phase h = inl (phase, keep_alive) → via_waits p t client phase via →
      waits p t l c (RoHttpConn h) (client_target h phase keep_alive via client) None
  | waits_server h server phase keep_alive : hc_role h = HttpServer → hc_server h = Some server →
      server_phase h = inl (phase, keep_alive) →
      waits p t l c (RoHttpConn h) (server_target h phase keep_alive server) None
  | waits_negotiating wrapper : waits p t l c (RoHttpNegotiating wrapper) (negotiating_target wrapper) None.

(** A task that is waiting: idle, of one kind, its chain ending in a primitive whose
    protocol was reviewed, and that waited on. *)
Record awaits (p : AssessmentPass) (i : FutureInspection) (t : TaskFacts) (l : TaskList) (w : VerifiedWait) : Prop := {
  aws_idle : lifecycle (tf_state t) = Idle ∧ tf_kind t ≠ KConflict;
  aws_leaf : ∃ leaf, primitive_leaf (fi_chain i) = Some leaf ∧ vw_primitive w = value_key leaf ∧
    state_reviewed cx (val_ty leaf) = Ret true;
  aws_waits : ∃ o, ob_value (fi_primitive i) = Some o ∧
    waits p t l (fi_chain i) o (vw_target w) (vw_queue_position w)
}.

(** ** What a pass remembers *)

(** What the pass remembers of a resource is what reading it gave, under some budget. *)
Record pass_ok (p : AssessmentPass) : Prop := {
  ok_queues k o : ps_queues p !! k = Some o →
    ∃ bg bg', observe_semaphore_queue cx statics read k bg = Ret (bg', o);
  ok_registrations k o : ps_registrations p !! k = Some o →
    ∃ bg bg', observe_io_registration cx statics read k bg = Ret (bg', o);
  ok_channels k o : ps_channels p !! k = Some o →
    ∃ bg bg', observe_channel cx statics read k bg = Ret (bg', o);
  ok_notifies k o : ps_notifies p !! k = Some o →
    ∃ bg bg', observe_notify cx statics read k bg = Ret (bg', o)
}.

(** What a pass remembers, another still does. *)
Record extends (p p' : AssessmentPass) : Prop := {
  ex_queues : ps_queues p ⊆ ps_queues p';
  ex_registrations : ps_registrations p ⊆ ps_registrations p';
  ex_channels : ps_channels p ⊆ ps_channels p';
  ex_notifies : ps_notifies p ⊆ ps_notifies p'
}.

#[export] Instance extends_preorder : PreOrder extends.
Proof.
  split; [by intros p; constructor|]. intros p q r [] []. constructor; by etrans.
Qed.

Definition goes (p p' : AssessmentPass) : Prop := pass_ok p → pass_ok p' ∧ extends p p'.
#[export] Instance goes_preorder : PreOrder goes.
Proof.
  split; [by intros p Hp|]. intros p q r H1 H2 Hp. destruct (H1 Hp) as [Hq H3]. destruct (H2 Hq) as [Hr H4].
  split; [done|]. by etrans.
Qed.

Lemma pass_new_ok bg : pass_ok (pass_new bg).
Proof. constructor; intros k o; cbn; by rewrite lookup_empty. Qed.

Local Ltac remembers E :=
  case_match; [intros [= <- <-]; by split|];
  match goal with |- context [?m ≫= _] => destruct m as [[bg' o']|] eqn:E end; [|done];
  cbn; intros [= <- <-]; split; [intros [];
    split; [constructor; try done; cbn; intros k0 o0;
            try (rewrite lookup_insert_Some; intros [[<- <-]|[_ ?]]); eauto
           |constructor; try done; cbn; by apply insert_subseteq]
   |cbn; by rewrite lookup_insert_eq].

Lemma pass_queue_goes k p p' o : pass_queue cx statics read k p = Ret (p', o) →
  goes p p' ∧ ps_queues p' !! k = Some o.
Proof. unfold pass_queue. remembers E. Qed.
Lemma pass_registration_goes k p p' o : pass_registration cx statics read k p = Ret (p', o) →
  goes p p' ∧ ps_registrations p' !! k = Some o.
Proof. unfold pass_registration. remembers E. Qed.
Lemma pass_channel_goes k p p' o : pass_channel cx statics read k p = Ret (p', o) →
  goes p p' ∧ ps_channels p' !! k = Some o.
Proof. unfold pass_channel. remembers E. Qed.
Lemma pass_notify_goes k p p' o : pass_notify cx statics read k p = Ret (p', o) →
  goes p p' ∧ ps_notifies p' !! k = Some o.
Proof. unfold pass_notify. remembers E. Qed.
End spec.

(** ** The protocols, decided *)

Section protocols.
Context {M : Type}.
Abbreviation deciding := (fallible (Assessed M)) (only parsing).

Lemma decides_bind {A B} (m : deciding A) (f : A → deciding B) x :
  fbind m f = Ret (inl x) ↔ ∃ a, m = Ret (inl a) ∧ f a = Ret (inl x).
Proof. destruct m as [[a|e]|]; cbn; naive_solver. Qed.
Lemma decides_succeed {A} (a x : A) : (succeed a : deciding A) = Ret (inl x) ↔ a = x.
Proof. unfold succeed. naive_solver. Qed.
Lemma decides_decline {A} r note (x : A) : (decline r note : deciding A) = Ret (inl x) ↔ False.
Proof. unfold decline, throw. naive_solver. Qed.
Lemma decides_ready {A} r (x : A) : (is_ready r : deciding A) = Ret (inl x) ↔ False.
Proof. unfold is_ready, throw. naive_solver. Qed.
Lemma decides_needed {A} (o : option A) r note x : (needed o r note : deciding A) = Ret (inl x) ↔ o = Some x.
Proof. destruct o; cbn; [rewrite decides_succeed|rewrite decides_decline]; naive_solver. Qed.
Lemma decides_infallible {A} (m : outcome A) x : (infallible m : deciding A) = Ret (inl x) ↔ m = Ret x.
Proof. destruct m; cbn; naive_solver. Qed.
Lemma decides_if {A} (c : bool) (m n : deciding A) x :
  (if c then m else n) = Ret (inl x) ↔ (c = true ∧ m = Ret (inl x)) ∨ (c = false ∧ n = Ret (inl x)).
Proof. destruct c; naive_solver. Qed.
Lemma decides_map_err {E A} (f : E → Assessed M) (m : fallible E A) x :
  map_err f m = Ret (inl x) ↔ m = Ret (inl x).
Proof. destruct m as [[]|]; cbn; naive_solver. Qed.
Lemma decides_own (t : TaskFacts) cell w (empty : deciding ()) u : (∀ u, empty ≠ Ret (inl u)) →
  own_waker (tf_addr t) cell w empty = Ret (inl u) ↔ wakes t w.
Proof.
  intros He. destruct u. unfold wakes. destruct w as [a id|vtable|]; cbn.
  - destruct (Z.eqb_spec a (tf_addr t)) as [->|]; [by rewrite decides_succeed; naive_solver|].
    rewrite decides_decline. naive_solver.
  - rewrite decides_decline. naive_solver.
  - split; [by intros ?%He|]. by intros [? [=]].
Qed.

(** What a protocol declines with is never a wait. *)
Definition honest {A} (m : deciding A) : Prop := ∀ a, m = Ret (inr a) → verified (as_assessment a) = None.

Lemma honest_bind {A B} (m : deciding A) (f : A → deciding B) : honest m → (∀ a, honest (f a)) → honest (fbind m f).
Proof. intros Hm Hf a. destruct m as [[x|e]|]; cbn; [apply Hf| |done]. intros [= ->]. by apply Hm. Qed.
Lemma honest_succeed {A} (a : A) : honest (succeed a).
Proof. by intros x. Qed.
Lemma honest_decline {A} r note : honest (A := A) (decline r note).
Proof. by intros x [= <-]. Qed.
Lemma honest_ready {A} r : honest (A := A) (is_ready r).
Proof. by intros x [= <-]. Qed.
Lemma honest_needed {A} (o : option A) r note : honest (needed o r note).
Proof. destruct o; [apply honest_succeed|apply honest_decline]. Qed.
Lemma honest_infallible {A} (m : outcome A) : honest (infallible m).
Proof. by destruct m; intros x. Qed.
Lemma honest_own t cell w empty : honest empty → honest (own_waker t cell w empty).
Proof. intros He. destruct w; cbn; [case_match; [apply honest_succeed|]| |done]; apply honest_decline. Qed.
Lemma honest_unread {E A} r (f : E → Note) (m : fallible E A) : honest (map_err (assessed_unknown r ∘ f) m).
Proof. destruct m as [[]|]; intros x; cbn; [done|by intros [= <-]|done]. Qed.
End protocols.

Create HintDb honest.
#[export] Hint Resolve honest_succeed honest_decline honest_ready honest_needed honest_infallible honest_own
  honest_unread : honest.
Ltac honest :=
  lazymatch goal with
  | |- ∀ _, _ => intros ?; honest
  | |- honest (fbind _ _) => apply honest_bind; honest
  | |- honest (match ?x with _ => _ end) => destruct x; honest
  | |- honest (let _ := _ in _) => cbv zeta; honest
  | |- _ => auto with honest
  end.

(** The conditions under which a protocol decides, collected. *)
Ltac decided := repeat first
  [ setoid_rewrite decides_bind | setoid_rewrite decides_needed | setoid_rewrite decides_if
  | setoid_rewrite decides_decline | setoid_rewrite decides_ready | setoid_rewrite decides_succeed
  | setoid_rewrite decides_infallible ].

Section waits.
Context {M : Type}.
Abbreviation deciding := (fallible (Assessed M)) (only parsing).

Lemma recv_honest ch chan t k : honest (M := M) (recv_wait ch chan t k).
Proof. unfold recv_wait. honest. Qed.

Lemma recv_decides ch chan t k w : (recv_wait ch chan t k : deciding _) = Ret (inl w) ↔
  ∃ senders unread, channel_waits ch t senders unread ∧
    w = mkWait (WtChannel (vk_addr chan) senders (ch_capacity ch) unread) k None.
Proof.
  unfold recv_wait. cbv zeta. decided. split.
  - intros (senders & Hs & index & Hi & tail & Ht & rx & Hrx & [[_ []]|[Hle (? & Hslot & ? & Hcl & ? & Hst & ? & Hw & [[_ []]|[Hn <-]])]]).
    exists senders, (tail - index). split; [constructor|done].
    + split; [done|]. by apply Z.eqb_neq.
    + intros ? ?. rewrite Hi, Ht. intros [= <-] [= <-]. split; [by apply Z.ltb_ge|done].
    + rewrite Hi, Ht. eauto.
    + destruct (ch_slot ch); naive_solver.
    + destruct Hcl as [[-> Hcl]|[-> _]]; [|by left]. right.
      destruct (ch_available ch) as [av|], (ch_capacity ch) as [cap|]; try done.
      destruct (Z.eqb_spec av cap); [done|]. eauto 10.
    + destruct (ch_waker_state ch); [|done]. destruct (Z.eqb_spec z ATOMIC_WAITING); [by subst|done].
    + destruct (ch_waker ch) as [q|]; [|done]. apply decides_own in Hw; [by eauto|done].
  - intros (senders & unread & [[Hs Hn] Hu [[index Hi] [tail Ht]] Hslot Hcl Hst (q & Hq & Hw)] & ->).
    destruct (Hu _ _ Hi Ht) as [Hle ->]. exists senders. split; [done|]. exists index. split; [done|].
    exists tail. split; [done|]. rewrite Hst, Hq.
    destruct Hcl as [Hc|(av & cap & Hc & Ha & Hp & Hne)]; eexists; (split; [exact Hc|]); right; (split; [by apply Z.ltb_ge|]);
    exists (); (split; [by destruct Hslot as [-> | ->]|]); exists (). 
    + split; [by right|]. exists (). split; [done|]. exists (). split; [by apply decides_own|]. right.
      split; [by apply Z.eqb_neq|done].
    + rewrite Ha, Hp. rewrite (proj2 (Z.eqb_neq av cap)) by done. split; [by left|]. exists (). split; [done|].
      exists (). split; [by apply decides_own|]. right. split; [by apply Z.eqb_neq|done].
Qed.

Lemma oneshot_honest o t k : honest (M := M) (oneshot_wait o t k).
Proof. unfold oneshot_wait. honest. Qed.

Lemma oneshot_decides o t k w : (oneshot_wait o t k : deciding _) = Ret (inl w) ↔
  oneshot_waits o t ∧ w = mkWait (WtOneshot (os_inner o) (os_state o) Rx) k None.
Proof.
  unfold oneshot_wait. cbv zeta. decided. split.
  - intros [[_ []]|[Hc [[_ []]|[Hd [[_ []]|[Hs (? & Hw & <-)]]]]]]. split; [|done]. constructor; [done| |].
    + by apply negb_false_iff.
    + destruct (os_rx_waker o) as [q|]; [|done]. apply decides_own in Hw; [by eauto|done].
  - intros [[[Hc Hd] Hs (q & Hq & Hw)] ->]. right. split; [done|]. right. split; [done|]. right.
    split; [by rewrite Hs|]. exists (). rewrite Hq. split; [by apply decides_own|done].
Qed.

Lemma parked_honest n : honest (M := M) (notified_parked n).
Proof. unfold notified_parked. honest. Qed.
Lemma parked_decides n u : (notified_parked n : deciding _) = Ret (inl u) ↔
  nt_state n = NtWaiting ∧ nt_notification n = NOTIFICATION_NONE.
Proof.
  unfold notified_parked. cbv zeta. decided. destruct u. split.
  - intros (? & Hn & [[Hw _]|[_ [[_ []]|[_ []]]]]). split; [by destruct (nt_state n)|by apply Z.eqb_eq].
  - intros [-> ->]. exists (). split; [done|]. by left.
Qed.

Lemma notified_honest list n t k : honest (M := M) (notified_wait list n t k).
Proof. unfold notified_wait. honest. Qed.
Lemma notified_decides list n t k w : notified_parked (M := M) n = Ret (inl ()) →
  (notified_wait list n t k : deciding _) = Ret (inl w) ↔
  ∃ state, notified_waits list n t state ∧
    w = mkWait (WtNotify (vk_addr (nt_notify n)) (Some state) (Some (Z.of_nat (length (no_waiters list))))) k
          (notify_position list (nt_node n)).
Proof.
  intros Hp%parked_decides. unfold notified_wait, queued_once. cbv zeta. decided. split.
  - intros (state & Hs & ? & Hl & [[_ []]|[Hc [[_ []]|[He Hn]]]]).
    destruct (filter _ _) as [|node [|? ?]] eqn:Ef; [done| |done].
    apply decides_bind in Hn as (? & Hw & Hn). apply decides_own in Hw; [|done].
    exists state. split; [constructor; [done| | | |]|by injection Hn].
    + split; [done|]. destruct Hl as [[Hl _]|[_ [[_ []]|[_ []]]]]. by apply Z.eqb_eq.
    + by apply negb_false_iff, Z.eqb_eq in Hc.
    + by apply negb_false_iff.
    + exists node. by split.
  - intros (state & [_ [Hs Hl] Hc He (node & Hf & Hw)] & ->). exists state. split; [done|]. exists ().
    split; [left; split; [by apply Z.eqb_eq|done]|]. right. split; [by apply negb_false_iff, Z.eqb_eq|]. right.
    split; [by rewrite He|]. rewrite Hf. apply decides_bind. exists (). split; [by apply decides_own|done].
Qed.

Lemma acquire_honest queue a owner t k : honest (M := M) (acquire_wait queue a owner t k).
Proof. unfold acquire_wait. honest. Qed.

Lemma find_first_once {N} (addr_of : N → Z) node l :
  length (filter (λ n, addr_of n = node) l) = 1%nat →
  ∃ n, find_first (λ n, addr_of n =? node) l = Some n ∧ filter (λ n, addr_of n = node) l = [n].
Proof.
  induction l as [|n l IH]; [done|]. cbn [find_first]. rewrite filter_cons.
  destruct (decide (addr_of n = node)) as [He|He]; cbn [length].
  - intros [= Hl]. apply nil_length_inv in Hl. rewrite Hl. exists n. by rewrite (proj2 (Z.eqb_eq _ _) He).
  - intros Hl. by rewrite (proj2 (Z.eqb_neq _ _) He); apply IH.
Qed.

Lemma once_contained queue node w : filter (λ w, sw_addr w = node) (qo_waiters queue) = [w] →
  queue_contains queue node = Some true.
Proof.
  intros Hf. unfold queue_contains. replace (existsb _ _) with true; [done|]. symmetry. apply existsb_exists.
  assert (w ∈ filter (λ w, sw_addr w = node) (qo_waiters queue)) as [Hw Hin]%list_elem_of_filter by (rewrite Hf; set_solver).
  exists w. split; [by apply list_elem_of_In|by apply Z.eqb_eq].
Qed.

Lemma acquire_decides queue a owner t k w : aq_needed a <= aq_requested a →
  (acquire_wait queue a owner t k : deciding _) = Ret (inl w) ↔
  ∃ available o, acquire_waits queue a t available ∧ owner = Ret o ∧
    w = mkWait (WtSemaphore (vk_addr (aq_semaphore a)) o (aq_requested a) available false (qo_waiters queue)) k
          (queue_position queue (aq_node a)).
Proof.
  intros Hle. unfold acquire_wait, queued_once. decided. split.
  - intros [[_ []]|[Hc [[_ []]|[Hn [[_ []]|[Hq (closed & Hcl & available & Hav & Hx)]]]]]].
    destruct Hx as [[_ []]|[He [[_ []]|[_ [[_ []]|[Hone (waiter & Hf & Hy)]]]]]].
    destruct Hy as [[_ []]|[Hne (? & Hw & [[_ []]|[Hfree (o & -> & <-)]])]].
    exists available, o. split; [|done]. apply orb_false_iff in Hc as [Hc1%bool_decide_eq_false Hc2%bool_decide_eq_false].
    apply decides_own in Hw; [|done]. apply negb_false_iff, Nat.eqb_eq in Hone.
    destruct (find_first_once sw_addr (aq_node a) (qo_waiters queue) Hone) as (w' & Hf' & Hl).
    assert (waiter = w') as -> by (rewrite Hf' in Hf; by injection Hf). constructor.
    + split; [|done]. apply Z.eqb_neq in Hn. congruence.
    + by apply negb_false_iff.
    + split; [|done]. destruct closed; congruence.
    + split; [done|]. by apply Z.ltb_ge.
    + by apply negb_false_iff.
    + exists w'. split; [by split|]. by apply negb_false_iff, Z.eqb_eq in Hne.
  - intros (available & o & [[Hn _] Hq [Hc Hc'] [Hav Hfree] He (w' & [Hl Hw] & Hne)] & -> & ->).
    right. split; [by rewrite Hc, (bool_decide_eq_false_2 (qo_queue_closed queue = _))|].
    right. split; [by apply Z.eqb_neq|]. right. split; [by rewrite Hq|]. exists false. split; [done|].
    exists available. split; [done|]. right. split; [by rewrite He|]. right.
    split; [by rewrite (once_contained _ _ _ Hl)|]. right. split; [by rewrite Hl|].
    destruct (find_first_once sw_addr (aq_node a) (qo_waiters queue)) as (w'' & Hf & Hl'); [by rewrite Hl|].
    assert (w'' = w') as -> by congruence. exists w'. rewrite Hf. split; [done|]. right.
    split; [by apply negb_false_iff, Z.eqb_eq|]. exists (). split; [by apply decides_own|]. right.
    split; [by apply Z.ltb_ge|]. by exists o.
Qed.

Lemma io_parked_honest o : honest (M := M) (io_parked o).
Proof. unfold io_parked. honest. Qed.
Lemma io_parked_decides o u : (io_parked o : deciding _) = Ret (inl u) ↔
  (io_operation o = IoWriteAll → io_remaining o ≠ Some 0) ∧
  (io_operation o = IoReadiness → io_readiness_state o = Some IfWaiting) ∧ io_waiter_ready o ≠ Some true.
Proof.
  unfold io_parked. destruct u.
  destruct (io_operation o), (io_remaining o) as [[]|], (io_readiness_state o) as [[]|], (io_waiter_ready o) as [[]|];
    cbn; naive_solver.
Qed.

Lemma io_slot_honest r o t : honest (M := M) (io_slot_held r o t).
Proof. unfold io_slot_held, own_slot. honest. Qed.
Lemma own_slot_decides t slot x u : (own_slot (tf_addr t) slot x : deciding _) = Ret (inl u) ↔
  iw_task x = Some (tf_addr t).
Proof.
  unfold own_slot. destruct u, (iw_task x) as [a|]; [|rewrite decides_decline; naive_solver].
  destruct (Z.eqb_spec a (tf_addr t)) as [->|]; [by rewrite decides_succeed; naive_solver|].
  rewrite decides_decline. naive_solver.
Qed.
Lemma io_slot_decides r o t u : (io_slot_held r o (tf_addr t) : deciding _) = Ret (inl u) ↔ slot_held r o t.
Proof.
  unfold io_slot_held, slot_held. destruct (operation_writes _) as [writes|] eqn:Ew.
  - destruct (find_first _ _) as [x|]; [rewrite own_slot_decides|rewrite decides_decline]; naive_solver.
  - destruct (io_operation o) eqn:Eo; try done; cbn [is_handshake].
    + decided. destruct u. split; [|intros [[=]|(node & x & -> & Hf & Ht & Hr & Hi)]].
      * intros (node & Hn & Hm). right. exists node. destruct (find_first _ _) as [x|]; [|done].
        exists x. split_and!; try done; case_bool_decide as Hb; try done.
        -- apply decides_bind in Hm as (? & _ & Hm). by apply own_slot_decides in Hm.
        -- intros i Hi. rewrite Hi in Hm. apply decides_bind in Hm as (? & Hm & _).
           destruct (Z.eqb_spec i (io_interest o)); done.
      * exists node. split; [done|]. rewrite Hf, bool_decide_eq_false_2 by done. apply decides_bind. exists ().
        split; [|by apply own_slot_decides]. destruct (iw_slot x) as [| |[i|]]; try done.
        by rewrite (proj2 (Z.eqb_eq _ _) (Hi _ eq_refl)).
    + destruct u. split; [by left|done].
Qed.

Lemma io_honest g o fd t k : honest (M := M) (io_wait g o fd t k).
Proof. unfold io_wait. pose proof io_slot_honest. honest. Qed.

Lemma io_decides g o fd t k w : io_parked (M := M) o = Ret (inl ()) →
  (io_wait g o fd t k : deciding _) = Ret (inl w) ↔
  ∃ r interest d, ob_value g = Some r ∧ io_waits r o t interest ∧
    match io_fd o with Some d => Ret (Some d) | None => fd end = Ret d ∧
    w = mkWait (WtIo (vk_addr (scheduled_io o)) d (Some interest) (is_handshake (io_operation o)) (io_tls o)) k None.
Proof.
  intros Hp%io_parked_decides. unfold io_wait. cbv zeta. decided. split.
  - intros (r & Hr & word & Hword & [[_ []]|[Hs (interest & Hi & [[_ []]|[Hd (? & Hc & d & Hfd & ? & Hh & <-)]])]]).
    apply io_slot_decides in Hh. exists r, interest, d. split_and!; [done| | |done].
    + assert (io_consistency r = Quiescent) as Hq by (by destruct (io_consistency r)).
      destruct Hp as (? & ? & ?). constructor; try done; [by eauto|].
      destruct (is_handshake _).
      * destruct Hi as [[_ (? & _ & Hi)]|[[=] _]]. done.
      * by destruct Hi as [[[=] _]|[_ <-]].
    + destruct (io_fd o); [by injection Hfd as <-|]. by apply infallible_inl in Hfd.
  - intros (r & interest & d & Hr & [Hu1 Hu2 Hu3 (word & Hw & Hs & Hd) Hq Hi Hh] & Hfd & ->).
    exists r. split; [done|]. exists word. split; [done|]. right. split; [done|]. exists interest. rewrite Hq. split.
    { destruct (is_handshake _); [left|right]; (split; [done|]); [|done]. by exists (). }
    right. split; [done|]. exists (). split; [done|]. exists d. split.
    { destruct (io_fd o); [by injection Hfd as <-|]. by apply (decides_infallible (M := M)). }
    exists (). split; [by apply io_slot_decides|done].
Qed.

Lemma timer_honest stopped o k : honest (M := M) (timer_wait stopped o k).
Proof. unfold timer_wait. honest. Qed.
Lemma timer_decides stopped o k w : (timer_wait stopped o k : deciding _) = Ret (inl w) ↔
  ∃ tick deadline, tm_state o = TmRegistered tick ∧ tm_deadline o = Some deadline ∧
    w = mkWait (WtTimer deadline stopped) k None.
Proof.
  unfold timer_wait. destruct (tm_state o) as [|tick| | |] eqn:Es;
    try (rewrite ?decides_decline, ?decides_ready; naive_solver).
  decided. naive_solver.
Qed.

Lemma server_honest h k : honest (M := M) (server_wait h k).
Proof. unfold server_wait. honest. Qed.
Lemma server_decides h k w : (server_wait h k : deciding _) = Ret (inl w) ↔
  ∃ phase keep_alive server, server_phase h = inl (phase, keep_alive) ∧ hc_server h = Some server ∧
    w = mkWait (server_target h phase keep_alive server) k None.
Proof.
  unfold server_wait. destruct (server_phase h) as [[phase ka]|note]; [|rewrite decides_decline; naive_solver].
  decided. naive_solver.
Qed.

Lemma connection_decides t cell q u : (connection_waker (tf_addr t) cell q : deciding _) = Ret (inl u) ↔
  ∃ w, q = Some w ∧ wakes t w.
Proof.
  unfold connection_waker. destruct q as [w|]; [rewrite decides_own by done|rewrite decides_decline]; naive_solver.
Qed.
Lemma connection_honest t cell q : honest (M := M) (connection_waker t cell q).
Proof. unfold connection_waker. honest. Qed.
Lemma idle_honest ch chan t : honest (M := M) (idle_via ch chan t).
Proof. unfold idle_via. pose proof connection_honest. honest. Qed.
Lemma callback_honest client t : honest (M := M) (callback_via client t).
Proof. unfold callback_via. pose proof connection_honest. honest. Qed.
End waits.

(** ** The assessor *)

Section assess.
Context `{Demangler} `{StreamObservers} {T : Type} `{!Target T} (cx : ChainCtx T)
  (statics : list (StaticRole * StaticDef)) (read : ReadContext).
Context {M : Type}.
Abbreviation deciding := (fallible (Assessed M)) (only parsing).
Abbreviation goes := (goes cx statics read).

(** What an assessment of a resource is: told from what the pass then remembers. *)
Definition judges (p p' : AssessmentPass) (t : TaskFacts) (l : TaskList) (c : AwaitChain) (k : ValueKey)
    (o : ResourceObservation) (a : Assessed M) : Prop :=
  goes p p' ∧ ∀ w, as_assessment a = Waiting w ↔
    vw_primitive w = k ∧ waits cx statics read p' t l c o (vw_target w) (vw_queue_position w).

Lemma settle_waiting (m : deciding VerifiedWait) a w : honest m → settle m = Ret a →
  as_assessment a = Waiting w ↔ m = Ret (inl w).
Proof.
  intros Hm. unfold settle. destruct m as [[x|e]|]; [| |done]; cbn; intros [= <-].
  - cbn. naive_solver.
  - split; [|done]. intros Hw. specialize (Hm _ eq_refl). by rewrite Hw in Hm.
Qed.

(** A protocol that judges: what it decides is what is waited on. *)
Lemma settle_judges p p' t l c k o (m : deciding VerifiedWait) a : goes p p' → honest m → settle m = Ret a →
  (∀ w, m = Ret (inl w) ↔ vw_primitive w = k ∧ waits cx statics read p' t l c o (vw_target w) (vw_queue_position w)) →
  judges p p' t l c k o a.
Proof. intros Hg Hm Ha Hw. split; [done|]. intros w. by rewrite (settle_waiting m a w), Hw. Qed.

Lemma recv_judges p p' t l c k r a : assess_recv cx statics read p r t k = Ret (p', a) →
  judges p p' t l c k (RoRecv r) a.
Proof.
  unfold assess_recv. intros ([p1 ch] & [Hg Hch]%pass_channel_goes & E)%outcome_bind_Ret.
  apply outcome_bind_Ret in E as (a' & Ha & [= <- <-]).
  apply (settle_judges _ _ _ _ _ _ _ _ _ Hg (recv_honest _ _ _ _) Ha). intros [target q pos]. rewrite recv_decides. cbn. split.
  - intros (senders & unread & Hw & [= -> -> ->]). split; [done|]. by econstructor.
  - intros [-> Hw]. inversion Hw; simplify_eq. eauto.
Qed.

Lemma oneshot_judges p t l c k o a : assess_oneshot o t k = Ret a → judges p p t l c k (RoOneshot o) a.
Proof.
  intros Ha. eapply settle_judges; [done|apply oneshot_honest|done|]. intros [target q pos].
  rewrite oneshot_decides. cbn. split.
  - intros (Hw & [= -> -> ->]). split; [done|]. by constructor.
  - intros [-> Hw]. by inversion Hw; simplify_eq.
Qed.

Lemma timer_judges p t l c k o a : settle (timer_wait (stopped_at cx) o k) = Ret a →
  judges p p t l c k (RoTimer o) a.
Proof.
  intros Ha. eapply settle_judges; [done|apply timer_honest|done|]. intros [target q pos].
  rewrite timer_decides. cbn. split.
  - intros (tick & deadline & ? & ? & [= -> -> ->]). split; [done|]. by econstructor.
  - intros [-> Hw]. inversion Hw; simplify_eq. eauto.
Qed.

Lemma acquire_judges p p' t l c k a r : assess_acquire cx statics read p a t c k = Ret (p', r) →
  judges p p' t l c k (RoAcquire a) r.
Proof.
  unfold assess_acquire. case_match eqn:Hn.
  { intros [= <- <-]. split; [done|]. intros w. split; [done|]. intros [_ Hw]. inversion Hw; simplify_eq.
    apply Z.ltb_lt in Hn.
    match goal with Ha : acquire_waits _ _ _ _ |- _ => destruct (aw_needed _ _ _ _ Ha) end. lia. }
  intros ([p1 queue] & [Hg Hq]%pass_queue_goes & E)%outcome_bind_Ret.
  apply outcome_bind_Ret in E as (r' & Hr & [= <- <-]).
  eapply settle_judges; [done|apply acquire_honest|done|]. intros [target q pos].
  rewrite acquire_decides by (by apply Z.ltb_ge). cbn. split.
  - intros (available & o & Hw & Ho & [= -> -> ->]). split; [done|]. by econstructor.
  - intros [-> Hw]. inversion Hw; simplify_eq. eauto 10.
Qed.

Lemma io_judges p p' t l c k o a : assess_io cx statics read p o t c k = Ret (p', a) →
  judges p p' t l c k (RoIo o) a.
Proof.
  unfold assess_io. intros (parked & Hp & E)%outcome_bind_Ret. destruct parked as [[]|e].
  - apply outcome_bind_Ret in E as ([p1 g] & [Hg Hr]%pass_registration_goes & E).
    apply outcome_bind_Ret in E as (a' & Ha & [= <- <-]).
    eapply settle_judges; [done|apply io_honest|done|]. intros [target q pos].
    rewrite io_decides by done. cbn. split.
    + intros (r & interest & d & ? & ? & ? & [= -> -> ->]). split; [done|]. by econstructor.
    + intros [-> Hw]. inversion Hw; simplify_eq. eauto 10.
  - injection E as <- <-. split; [done|]. intros w. pose proof (io_parked_honest o _ Hp) as Hv. split.
    + intros Hw. by rewrite Hw in Hv.
    + intros [_ Hw]. inversion Hw; simplify_eq.
      match goal with Hi : io_waits _ _ _ _ |- _ => destruct Hi end.
      assert (io_parked (M := M) o = Ret (inl ())) as Hp' by (by apply io_parked_decides). congruence.
Qed.

Lemma join_honest join t l k : honest (M := M) (join_wait cx statics read join t l k).
Proof. unfold join_wait. cbv zeta. honest. Qed.
Lemma join_decides join t l k w : (join_wait cx statics read join t l k : deciding _) = Ret (inl w) ↔
  ∃ h target, join_waits cx statics read join t h ∧ task_target cx h (jo_header join) l = Ret target ∧
    w = mkWait target k None.
Proof.
  unfold join_wait. cbv zeta. decided. setoid_rewrite decides_map_err. split.
  - intros (h & Hh & [[_ []]|[Hc [[_ []]|[Hi [[_ []]|[Hs (target & Ht & waker & Hw & ? & Ho & <-)]]]]]]).
    apply decides_own in Ho; [|done]. exists h, target. split; [|done]. constructor; [done| |by eauto].
    split_and!; [done|by apply negb_false_iff..].
  - intros (h & target & [Hh (Hc & Hi & Hs) (waker & Hw & Ho)] & Ht & ->). exists h. split; [done|].
    right. split; [done|]. right. split; [by rewrite Hi|]. right. split; [by rewrite Hs|]. exists target.
    split; [done|]. exists waker. split; [done|]. exists (). split; [by apply decides_own|done].
Qed.
Lemma join_judges p t l c k join a : settle (join_wait cx statics read join t l k) = Ret a →
  judges p p t l c k (RoJoin join) a.
Proof.
  intros Ha. eapply settle_judges; [done|apply join_honest|done|]. intros [target q pos].
  rewrite join_decides. cbn. split.
  - intros (h & target' & ? & ? & [= -> -> ->]). split; [done|]. by econstructor.
  - intros [-> Hw]. inversion Hw; simplify_eq. eauto.
Qed.

(** An assessment that is not a wait judges what is not waited on. *)
Lemma declined_judges p p' t l c k o (a : Assessed M) : goes p p' → verified (as_assessment a) = None →
  (∀ target pos, ¬ waits cx statics read p' t l c o target pos) → judges p p' t l c k o a.
Proof.
  intros Hg Hv Hn. split; [done|]. intros w. split; [by intros Hw; rewrite Hw in Hv|]. by intros [_ ?%Hn].
Qed.

Lemma notified_judges p p' t l c k n a a' : assess_notified cx statics read p n t k = Ret (p', a) →
  as_watch cx c a = Ret a' → judges p p' t l c k (RoNotified n) a'.
Proof.
  unfold assess_notified. intros (parked & Hp & E)%outcome_bind_Ret Hwatch. destruct parked as [[]|e].
  - apply outcome_bind_Ret in E as ([p1 list] & [Hg Hl]%pass_notify_goes & E).
    apply outcome_bind_Ret in E as (x & Ha & [= <- <-]). split; [done|]. intros w.
    pose proof (λ w, settle_waiting _ _ w (notified_honest _ _ _ _) Ha) as Hx.
    setoid_rewrite (notified_decides list n t k _ Hp) in Hx. unfold as_watch in Hwatch. split.
    + intros Hw. destruct (as_assessment x) as [| | | |[target q pos]| | |] eqn:Ex;
        try (injection Hwatch as <-; by rewrite Ex in Hw).
      destruct (proj1 (Hx _) eq_refl) as (state & Hs & [= -> -> ->]).
      apply outcome_bind_Ret in Hwatch as (watch & Hwt & [= <-]).
      destruct watch as [watch|]; [injection Hw as <-|rewrite Ex in Hw; injection Hw as <-];
        (split; [done|]); by apply (waits_notified cx statics read p1 t l c n list state _ Hl Hs Hwt).
    + destruct w as [target q pos]. cbn. intros [-> Hw]. inversion Hw; simplify_eq.
      match goal with Hn : notified_waits _ _ _ _ |- _ =>
        rewrite (proj2 (Hx _) (ex_intro _ state (conj Hn eq_refl))) in Hwatch end.
      apply outcome_bind_Ret in Hwatch as (watch' & Hwt & [= <-]). assert (watch' = watch) as -> by congruence.
      destruct watch; [done|]. by apply Hx; eauto.
  - injection E as <- <-. pose proof (parked_honest n _ Hp) as Hv. unfold as_watch in Hwatch.
    destruct (as_assessment e) as [| | | |?| | |] eqn:Ee; try done; injection Hwatch as <-;
      (apply declined_judges; [done|by rewrite Ee|]); intros target pos Hw; inversion Hw; simplify_eq;
      match goal with Hn : notified_waits _ _ _ _ |- _ => pose proof (nw_parked _ _ _ _ Hn) as Hk end;
      by rewrite (proj2 (parked_decides (M := M) n ()) Hk) in Hp.
Qed.

(** ** Connections *)

(** A client's phases, and a server's. *)
Definition client_side (ph : HttpPhase) : Prop :=
  match ph with PhNegotiating | PhHandlingRequest => False | _ => True end.

Lemma client_phase_side h phase keep_alive : client_phase h = inl (phase, keep_alive) → client_side phase.
Proof.
  unfold client_phase, with_keep_alive, phase_rows.
  destruct (keep_alive_on _), (hc_reading h), (hc_writing h), (hc_is_closing h), (callback_held h);
    naive_solver.
Qed.

Lemma via_exact p p' phase client t via : client_via cx statics read p phase client t = Ret (p', via) →
  goes p p' ∧ (∀ v, via = inl v ↔ via_waits p' t client phase v) ∧
  ∀ a : Assessed M, via = inr a → verified (as_assessment a) = None.
Proof.
  assert (∀ (m : fallible (Assessed M) WaitTarget) (r : option WaitTarget + Assessed M) ph, honest m →
    (x ←! m; succeed (Some x)) = Ret r →
    (∀ v, m = Ret (inl v) ↔ via_waits p' t client ph (Some v)) → ¬ via_waits p' t client ph None →
    (∀ v, r = inl v ↔ via_waits p' t client ph v) ∧ (∀ a, r = inr a → verified (as_assessment a) = None)) as Hvia.
  { intros m r ph Hm Hr Hv Hno. destruct m as [[x|e]|]; [| |done]; cbn in Hr; injection Hr as <-.
    - split; [|done]. intros [v|]; [rewrite <-Hv; naive_solver|naive_solver].
    - split; [|intros a [= <-]; by apply Hm]. intros [v|]; [rewrite <-Hv; naive_solver|naive_solver]. }
  destruct phase as [| |f|f| | |]; cbn [client_via]; try done.
  - destruct (hc_rx client) as [chan|] eqn:Erx; [|intros [= <- <-]].
    + intros ([p1 ch] & [Hg Hch]%pass_channel_goes & E)%outcome_bind_Ret.
      apply outcome_bind_Ret in E as (r & Hr & [= <- <-]). split; [done|].
      eapply Hvia; [apply idle_honest|done| |].
      * intros v. unfold idle_via. cbv zeta. decided. split.
        -- intros (? & Hs & ? & [w Hw]%connection_decides & senders & ? & index & ? & tail & ? & <-).
           econstructor; eauto. destruct (ch_waker_state ch) as [z|]; [|done].
           destruct (Z.eqb_spec z ATOMIC_WAITING); [by subst|done].
        -- intros Hw. inversion Hw; simplify_eq; [|naive_solver]. exists (). split.
           { match goal with Hs : ch_waker_state _ = _ |- _ => by rewrite Hs end. }
           exists (). split; [by apply connection_decides|]. eauto 10.
      * intros Hw. inversion Hw. naive_solver.
    + split; [done|]. split; [|by intros a [= <-]]. intros v. split; [done|]. intros Hw. inversion Hw; naive_solver.
  - intros (r & Hr & [= <- <-])%outcome_bind_Ret. split; [done|]. eapply Hvia; [apply callback_honest|done| |].
    + intros v. unfold callback_via. decided. split.
      * intros (cb & ? & [[_ []]|[Hs (? & (w & Hw & ?)%connection_decides & <-)]]). econstructor; eauto.
        by apply negb_false_iff.
      * intros Hw. inversion Hw; simplify_eq. eexists. split; [done|]. right.
        split; [by apply negb_false_iff|]. exists (). split; [by apply connection_decides; eauto|done].
    + intros Hw. inversion Hw. naive_solver.
  - intros (r & Hr & [= <- <-])%outcome_bind_Ret. split; [done|]. eapply Hvia; [apply callback_honest|done| |].
    + intros v. unfold callback_via. decided. split.
      * intros (cb & ? & [[_ []]|[Hs (? & (w & Hw & ?)%connection_decides & <-)]]). econstructor; eauto.
        by apply negb_false_iff.
      * intros Hw. inversion Hw; simplify_eq. eexists. split; [done|]. right.
        split; [by apply negb_false_iff|]. exists (). split; [by apply connection_decides; eauto|done].
    + intros Hw. inversion Hw. naive_solver.
  - intros [= <- <-]. split; [done|]. split; [|done]. intros v. split.
    + intros [= <-]. constructor. eauto.
    + intros Hw. inversion Hw; simplify_eq; [naive_solver|done].
  - intros [= <- <-]. split; [done|]. split; [|done]. intros v. split.
    + intros [= <-]. constructor. eauto.
    + intros Hw. inversion Hw; simplify_eq; [naive_solver|done].
Qed.

Lemma http_judges p p' t l c k h a : assess_http_conn cx statics read p h t k = Ret (p', a) →
  judges p p' t l c k (RoHttpConn h) a.
Proof.
  unfold assess_http_conn. destruct (hc_role h) eqn:Er.
  - unfold assess_http_client. destruct (client_phase h) as [[phase ka]|note] eqn:Ep.
    + destruct (hc_client h) as [client|] eqn:Ec.
      * intros ([p1 via] & (Hg & Hv & Hd)%via_exact & [= <- <-])%outcome_bind_Ret.
        destruct via as [via|e].
        -- split; [done|]. intros [target q pos]. cbn. split.
           ++ intros [= <- <- <-]. split; [done|]. econstructor; try done. by apply Hv.
           ++ intros [-> Hw]. inversion Hw as [| | | | | | |? client' ph' ka' v' ? ? Hp' Hx'| |]; simplify_eq; [|congruence].
              rewrite Ep in Hp'. injection Hp' as <- <-. by apply Hv in Hx' as [= <-].
        -- apply declined_judges; [done|by apply Hd|]. intros target pos Hw.
           inversion Hw as [| | | | | | |? client' ph' ka' v' ? ? Hp' Hx'| |]; simplify_eq; [|congruence].
           rewrite Ep in Hp'. injection Hp' as <- <-. by apply Hv in Hx'.
      * intros [= <- <-]. apply declined_judges; [done..|]. intros target pos Hw. inversion Hw; simplify_eq; congruence.
    + intros [= <- <-]. apply declined_judges; [done..|]. intros target pos Hw. inversion Hw; simplify_eq; congruence.
  - intros (x & Ha & [= <- <-])%outcome_bind_Ret.
    eapply settle_judges; [done|apply server_honest|done|]. intros [target q pos]. rewrite server_decides. cbn. split.
    + intros (phase & ka & server & ? & ? & [= -> -> ->]). split; [done|]. by econstructor.
    + intros [-> Hw]. inversion Hw; simplify_eq; [congruence|eauto 10].
Qed.

(** ** Every resource *)

Lemma resource_judges p p' t l c k o a : assess_resource cx statics read p o t l c k = Ret (p', a) →
  judges p p' t l c k o a.
Proof.
  destruct o as [join|a0|tm|io|recv|n|os|http|wrapper]; cbn [assess_resource].
  - intros (x & Hx & [= <- <-])%outcome_bind_Ret. by apply join_judges.
  - apply acquire_judges.
  - intros (x & Hx & [= <- <-])%outcome_bind_Ret. by apply timer_judges.
  - apply io_judges.
  - apply recv_judges.
  - intros ([p1 x] & Hx & E)%outcome_bind_Ret. apply outcome_bind_Ret in E as (y & Hy & [= <- <-]).
    by eapply notified_judges.
  - intros (x & Hx & [= <- <-])%outcome_bind_Ret. by apply oneshot_judges.
  - apply http_judges.
  - intros [= <- <-]. split; [done|]. intros [target q pos]. cbn. split.
    + intros [= <- <- <-]. by split; [|constructor].
    + intros [-> Hw]. by inversion Hw.
Qed.


(** ** The assessor *)

Lemma state_verdict_none t : state_verdict (M := M) t = None ↔ lifecycle (tf_state t) = Idle ∧ tf_kind t ≠ KConflict.
Proof. unfold state_verdict. destruct (lifecycle _), (tf_kind t); naive_solver. Qed.
Lemma state_verdict_some t a : state_verdict (M := M) t = Some a → verified (as_assessment a) = None.
Proof. unfold state_verdict. destruct (lifecycle _), (tf_kind t); by intros [= <-]. Qed.
Lemma end_verdict_some e a : end_verdict (M := M) e = Some a → verified (as_assessment a) = None ∧ e ≠ EndPrimitive.
Proof. unfold end_verdict. destruct e; by intros [= <-]. Qed.

Lemma assess_wait_exact p i t l p' (a : Assessed M) : assess_wait cx statics read p i t l = Ret (p', a) →
  goes p p' ∧ ∀ w, as_assessment a = Waiting w ↔ awaits cx statics read p' i t l w.
Proof.
  assert (∀ x : Assessed M, verified (as_assessment x) = None → (∀ w, ¬ awaits cx statics read p i t l w) →
    Ret (p, x) = Ret (p', a) → goes p p' ∧ ∀ w, as_assessment a = Waiting w ↔ awaits cx statics read p' i t l w) as Hno.
  { intros x Hv Hn [= <- <-]. split; [done|]. intros w. split; [by intros Hw; rewrite Hw in Hv|by intros ?%Hn]. }
  unfold assess_wait. destruct (state_verdict t) as [x|] eqn:Es.
  { apply Hno; [by eapply state_verdict_some|]. intros w [Hi _ _]. by rewrite (proj2 (state_verdict_none t) Hi) in Es. }
  apply state_verdict_none in Es. destruct (end_verdict _) as [x|] eqn:Ee.
  { apply end_verdict_some in Ee as [Hv Hp]. apply Hno; [done|]. intros w [_ (leaf & Hl & _) _].
    unfold primitive_leaf in Hl. by destruct (chain_end _). }
  destruct (primitive_leaf _) as [leaf|] eqn:El.
  2:{ apply Hno; [done|]. intros w [_ (leaf & Hl & _) _]. congruence. }
  destruct (ob_value _) as [o|] eqn:Eo.
  2:{ apply Hno; [done|]. intros w [_ _ (o & Ho & _)]. congruence. }
  intros (reviewed & Hr & E)%outcome_bind_Ret. destruct reviewed.
  - apply resource_judges in E as [Hg Hw]. split; [done|]. intros w. rewrite Hw. split.
    + intros [Hk Hwt]. constructor; [done|by eauto|by eauto].
    + intros [_ (leaf' & Hl & Hk & _) (o' & Ho & Hwt)]. rewrite El in Hl. injection Hl as <-.
      rewrite Eo in Ho. injection Ho as <-. done.
  - apply outcome_bind_Ret in E as (nm & _ & E). revert E. apply Hno; [done|].
    intros w [_ (leaf' & Hl & _ & Hs) _]. rewrite El in Hl. injection Hl as <-. congruence.
Qed.

(** ** What two waits have in common *)

(** The one cell two observations share, and the queue. *)
Definition same_cell (o1 o2 : ResourceObservation) : Prop :=
  match o1, o2 with
  | RoJoin j1, RoJoin j2 => jo_header j1 = jo_header j2
  | RoRecv r1, RoRecv r2 => rc_chan r1 = rc_chan r2
  | _, _ => False
  end.
Definition same_queue (o1 o2 : ResourceObservation) : Prop :=
  match o1, o2 with
  | RoAcquire a1, RoAcquire a2 => aq_semaphore a1 = aq_semaphore a2
  | RoNotified n1, RoNotified n2 => nt_notify n1 = nt_notify n2
  | _, _ => False
  end.

Lemma wakes_same t1 t2 w : wakes t1 w → wakes t2 w → tf_addr t1 = tf_addr t2.
Proof. intros [i1 ->] [i2 [= ->]]. done. Qed.

Lemma cell_one p1 p2 t1 t2 l1 l2 c1 c2 o1 o2 g1 g2 q1 q2 : extends p1 p2 → same_cell o1 o2 →
  waits cx statics read p1 t1 l1 c1 o1 g1 q1 → waits cx statics read p2 t2 l2 c2 o2 g2 q2 → tf_addr t1 = tf_addr t2.
Proof.
  intros [_ _ Hx _] Hs Hw1 Hw2. inversion Hw1; subst; inversion Hw2; subst; try done; cbn in Hs.
  - match goal with Hj : join_waits _ _ _ _ t1 _ |- _ => destruct Hj as [_ _ (w1 & Hr1 & Ht1)] end.
    match goal with Hj : join_waits _ _ _ _ t2 _ |- _ => destruct Hj as [_ _ (w2 & Hr2 & Ht2)] end.
    rewrite Hs in Hr1. assert (w2 = w1) as -> by congruence. by eapply wakes_same.
  - match goal with Hj : channel_waits _ t1 _ _ |- _ => destruct Hj as [_ _ _ _ _ _ (w1 & Hc1 & Ht1)] end.
    match goal with Hj : channel_waits _ t2 _ _ |- _ => destruct Hj as [_ _ _ _ _ _ (w2 & Hc2 & Ht2)] end.
    rewrite Hs in *.
    match goal with Ha : ps_channels p1 !! _ = Some _ |- _ => apply (lookup_weaken _ _ _ _ Ha) in Hx end.
    simplify_eq. by eapply wakes_same.
Qed.

(** A place in a list is the node's. *)
Lemma position_node {N} (addr_of : N → Z) (l : list N) node n i :
  filter (λ n, addr_of n = node) l = [n] → fst <$> list_find (λ n, addr_of n = node) l = Some i → l !! i = Some n.
Proof.
  intros Hf ([j m] & Hi & ->)%fmap_Some. apply list_find_Some in Hi as (Hl & Hm & _). cbn.
  assert (m ∈ filter (λ n, addr_of n = node) l) as Hin by (apply list_elem_of_filter; split; [done|by eapply list_elem_of_lookup_2]).
  rewrite Hf in Hin. apply list_elem_of_singleton in Hin. by subst.
Qed.
Lemma position_some {N} (addr_of : N → Z) (l : list N) node n :
  filter (λ n, addr_of n = node) l = [n] → is_Some (fst <$> list_find (λ n, addr_of n = node) l).
Proof.
  intros Hf. assert (n ∈ filter (λ n, addr_of n = node) l) as [Hn Hin]%list_elem_of_filter by (rewrite Hf; set_solver).
  destruct (list_find_elem_of (λ n, addr_of n = node) l n) as [x Hx]; [done..|]. by rewrite Hx.
Qed.

Lemma queue_apart p1 p2 t1 t2 l1 l2 c1 c2 o1 o2 g1 g2 q1 q2 : extends p1 p2 → same_queue o1 o2 →
  waits cx statics read p1 t1 l1 c1 o1 g1 q1 → waits cx statics read p2 t2 l2 c2 o2 g2 q2 →
  is_Some q1 ∧ is_Some q2 ∧ (q1 = q2 → tf_addr t1 = tf_addr t2).
Proof.
  assert (∀ N (addr_of : N → Z) (waker_of : N → QueuedWaker) l n1 n2 x1 x2,
    queued_once addr_of waker_of l n1 x1 t1 → queued_once addr_of waker_of l n2 x2 t2 →
    let at_ n := fst <$> list_find (λ m, addr_of m = n) l in
    is_Some (at_ n1) ∧ is_Some (at_ n2) ∧ (at_ n1 = at_ n2 → tf_addr t1 = tf_addr t2)) as Hq.
  { intros N addr_of waker_of l n1 n2 x1 x2 [Hf1 Hw1] [Hf2 Hw2]. cbv zeta.
    destruct (position_some _ _ _ _ Hf1) as [i1 Hi1], (position_some _ _ _ _ Hf2) as [i2 Hi2].
    split_and!; [by eauto..|]. rewrite Hi1, Hi2. intros [= <-].
    pose proof (position_node _ _ _ _ _ Hf1 Hi1). pose proof (position_node _ _ _ _ _ Hf2 Hi2).
    simplify_eq. by eapply wakes_same. }
  intros [Hx _ _ Hy] Hs Hw1 Hw2. inversion Hw1; subst; inversion Hw2; subst; try done; cbn in Hs; rewrite Hs in *.
  - match goal with Ha : ps_queues p1 !! _ = Some _ |- _ => apply (lookup_weaken _ _ _ _ Ha) in Hx end. simplify_eq.
    match goal with Ha : acquire_waits _ _ t1 _ |- _ => destruct Ha as [_ _ _ _ He (w1 & Hq1 & _)] end.
    match goal with Ha : acquire_waits _ _ t2 _ |- _ => destruct Ha as [_ _ _ _ _ (w2 & Hq2 & _)] end.
    unfold queue_position. rewrite He. by eapply Hq.
  - match goal with Ha : ps_notifies p1 !! _ = Some _ |- _ => apply (lookup_weaken _ _ _ _ Ha) in Hy end. simplify_eq.
    match goal with Ha : notified_waits _ _ t1 _ |- _ => destruct Ha as [_ _ _ He (w1 & Hq1)] end.
    match goal with Ha : notified_waits _ _ t2 _ |- _ => destruct Ha as [_ _ _ _ (w2 & Hq2)] end.
    unfold notify_position. rewrite He. by eapply Hq.
Qed.


(** ** Polling barriers *)

(** What a barrier says: an idle task, every edge of its chain exclusive, a terminal
    nothing else is polled beside; and in the state of a frame on the chain a local off
    it, itself a future, whose own chain keeps off it too, borrows nothing and ends in an
    acquire that was queued. *)
Record barrier_holds (p : AssessmentPass) (i : FutureInspection) (t : TaskFacts) (pb : PollingBarrier) : Prop := {
  bh_idle : lifecycle (tf_state t) = Idle ∧ all_exclusive (fi_chain i) = true;
  bh_holder : pb_holder pb = tf_addr t ∧ pb_holder_id pb = tf_task_id t;
  bh_terminal : ∃ leaf, primitive_leaf (fi_chain i) = Some leaf ∧ pb_primitive pb = value_key leaf ∧
    pb_terminal pb = val_ty leaf ∧ exclusive_pending cx (val_ty leaf) = Ret true;
  bh_edges : pb_edges pb = barrier_edge <$> chain_edges (fi_chain i);
  bh_local : ∃ frame fs cs nm local, frames (fi_chain i) !! pb_frame pb = Some frame ∧
    frame_coroutine cx frame = Ret (Some (fs, cs)) ∧ pb_state pb = fs_name fs ∧ nm ∈ cs_locals cs ∧
    execute_steps (cc_bundle cx) (cc_proc cx) read [Variant (cs_variant cs); Member (Named nm)] (af_future frame) =
      Ret (inl (At local)) ∧
    pb_candidate pb = value_key local ∧ (value_key local ∉ referents (fi_chain i)) ∧ is_future cx (val_ty local) = Ret true ∧
    ∃ memo memo' held a queue, inspect_held cx statics read local memo = Ret (memo', held) ∧
      chain_end (fi_chain held) = EndPrimitive ∧
      (∀ k, k ∈ referents (fi_chain held) → k ∉ referents (fi_chain i)) ∧
      borrows cx (chain_edges (fi_chain held)) = Ret false ∧
      ob_value (fi_primitive held) = Some (RoAcquire a) ∧ aq_queued a = true ∧
      ps_queues p !! aq_semaphore a = Some queue ∧ pb_acquire pb = with_position a queue
}.

Lemma held_acquire_exact c held a : held_acquire cx c held = Ret (Some a) →
  chain_end (fi_chain held) = EndPrimitive ∧
  (∀ k, k ∈ referents (fi_chain held) → k ∉ referents c) ∧
  borrows cx (chain_edges (fi_chain held)) = Ret false ∧
  ob_value (fi_primitive held) = Some (RoAcquire a) ∧ aq_queued a = true.
Proof.
  unfold held_acquire. cbv zeta. destruct (chain_end _); try done.
  destruct (existsb _ _) eqn:Ex; [done|]. intros (borrowed & Hb & E)%outcome_bind_Ret.
  destruct borrowed; [done|]. destruct (ob_value _) as [[]|]; try done.
  destruct (aq_queued o) eqn:Eq; [|done]. injection E as <-. split_and!; try done.
  intros k Hk Hc. apply not_true_iff_false in Ex. apply Ex, existsb_exists. exists k.
  split; [by apply list_elem_of_In|by apply bool_decide_eq_true].
Qed.

(** The state of a pass over the locals, moving on. *)
Definition br_goes (s s' : BarrierState) : Prop := goes (br_pass s) (br_pass s').
#[local] Instance br_goes_preorder : PreOrder br_goes.
Proof.
  split; [by intros s; unfold br_goes|]. intros s1 s2 s3 H1 H2. unfold br_goes in *. by etrans.
Qed.

Lemma barrier_holds_extends p p' i t pb : extends p p' → barrier_holds p i t pb → barrier_holds p' i t pb.
Proof.
  intros Hx [? ? ? ? (frame & fs & cs & nm & local & ? & ? & ? & ? & ? & ? & ? & ? & memo & memo' & held & a & queue &
    ? & ? & ? & ? & ? & ? & Hq & ?)]. constructor; try done.
  exists frame, fs, cs, nm, local. do 8 (split; [done|]). exists memo, memo', held, a, queue. do 6 (split; [done|]).
  split; [|done]. eapply lookup_weaken; [done|apply Hx].
Qed.

Section site.
Context (i : FutureInspection) (t : TaskFacts) (leaf : Value).
Abbreviation site := (mkSite t (fi_chain i) leaf).
Hypothesis Hidle : lifecycle (tf_state t) = Idle.
Hypothesis Hexclusive : all_exclusive (fi_chain i) = true.
Hypothesis Hleaf : primitive_leaf (fi_chain i) = Some leaf.
Hypothesis Hpending : exclusive_pending cx (val_ty leaf) = Ret true.

Lemma local_barrier_sound index frame fs cs nm s s' o : frames (fi_chain i) !! index = Some frame →
  frame_coroutine cx frame = Ret (Some (fs, cs)) → nm ∈ cs_locals cs →
  local_barrier cx statics read site index frame fs cs nm s = Ret (s', o) →
  br_goes s s' ∧ ∀ pb, o = Some pb → barrier_holds (br_pass s') i t pb.
Proof.
  intros Hf Hc Hnm. unfold local_barrier. cbn [bs_chain bs_task bs_terminal].
  intros (w & Hw & E)%outcome_bind_Ret.
  assert (∀ s, Ret (s, None) = Ret (s', o) → br_goes s s' ∧ ∀ pb, o = Some pb → barrier_holds (br_pass s') i t pb) as Hno
    by (intros ? [= <- <-]; done).
  destruct w as [[local| |]|]; try by apply Hno. case_bool_decide as Hr; [by apply Hno|].
  apply outcome_bind_Ret in E as (future & Hfu & E). destruct future; cbn [negb] in E; [|by apply Hno].
  apply outcome_bind_Ret in E as ([memo held] & Hh & E). apply outcome_bind_Ret in E as (acquire & Ha & E).
  destruct acquire as [a|].
  2:{ injection E as <- <-. by split. }
  apply outcome_bind_Ret in E as ([p queue] & [Hg Hq]%pass_queue_goes & E).
  apply outcome_bind_Ret in E as (fty & _ & E). apply outcome_bind_Ret in E as (lnm & _ & E).
  apply outcome_bind_Ret in E as (owner & _ & E). injection E as <- <-. split; [done|]. intros pb [= <-].
  apply held_acquire_exact in Ha as (? & ? & ? & ? & ?). constructor; cbn; try done; [by eauto|].
  exists frame, fs, cs, nm, local. do 8 (split; [done|]). by exists (br_memo s), memo, held, a, queue.
Qed.

(** A part of the pass whose barriers hold. *)
Definition sound_part (s : BarrierState) (r : BarrierState * list PollingBarrier) : Prop :=
  br_goes s r.1 ∧ ∀ pb, pb ∈ r.2 → pass_ok cx statics read (br_pass s) → barrier_holds (br_pass r.1) i t pb.

Lemma sound_app s s1 s2 l1 l2 : sound_part s (s1, l1) → sound_part s1 (s2, l2) → sound_part s (s2, l1 ++ l2).
Proof.
  intros [Hg1 H1] [Hg2 H2]. split; [by etrans|]. intros pb [Hpb|Hpb]%elem_of_app Hok; cbn in *.
  - destruct (Hg1 Hok) as [Hok1 _]. destruct (Hg2 Hok1) as [_ Hx]. eapply barrier_holds_extends; [done|by apply H1].
  - apply H2; [done|]. by apply Hg1.
Qed.

Lemma local_barriers_sound index frame fs cs names : frames (fi_chain i) !! index = Some frame →
  frame_coroutine cx frame = Ret (Some (fs, cs)) → names ⊆ cs_locals cs → ∀ s r,
  local_barriers cx statics read site index frame fs cs names s = Ret r → sound_part s r.
Proof.
  intros Hf Hc. induction names as [|nm names IH]; intros Hsub s r; cbn [local_barriers].
  { intros [= <-]. split; [done|]. by intros pb ?%elem_of_nil. }
  intros ([s1 o] & Ho & E)%outcome_bind_Ret. apply outcome_bind_Ret in E as ([s2 rest] & Hrest & [= <-]).
  eapply sound_app; [|by apply IH; [set_solver|]].
  eapply local_barrier_sound in Ho as [Hg Hb]; [|done..|set_solver]. split; [done|]. intros pb Hpb _. cbn in *.
  apply Hb. destruct o; [|by apply elem_of_nil in Hpb]. by apply list_elem_of_singleton in Hpb as ->.
Qed.

Lemma frame_barriers_sound fs : ∀ index s r, (∀ j f, fs !! j = Some f → frames (fi_chain i) !! (index + j)%nat = Some f) →
  frame_barriers cx statics read site index fs s = Ret r → sound_part s r.
Proof.
  induction fs as [|frame fs IH]; intros index s r Hfs; cbn [frame_barriers].
  { intros [= <-]. split; [done|]. by intros pb ?%elem_of_nil. }
  intros (found & Hc & E)%outcome_bind_Ret. apply outcome_bind_Ret in E as ([s1 here] & Hh & E).
  apply outcome_bind_Ret in E as ([s2 later] & Hl & [= <-]). eapply sound_app.
  - destruct found as [[st cs]|].
    + eapply local_barriers_sound; [|done|done|done]. specialize (Hfs 0%nat frame eq_refl). by rewrite Nat.add_0_r in Hfs.
    + injection Hh as <- <-. split; [done|]. by intros pb ?%elem_of_nil.
  - eapply IH; [|done]. intros j f Hj. specialize (Hfs (S j) f Hj). by rewrite Nat.add_succ_r in Hfs.
Qed.
End site.

Lemma polling_barriers_sound i t s r : polling_barriers cx statics read i t s = Ret r → sound_part i t s r.
Proof.
  unfold polling_barriers. cbv zeta.
  assert (Ret (s, []) = Ret r → sound_part i t s r) as Hno.
  { intros [= <-]. split; [done|]. by intros pb ?%elem_of_nil. }
  destruct (lifecycle _) eqn:El; [apply Hno..| |apply Hno]. destruct (all_exclusive _) eqn:Ex; [|done].
  destruct (primitive_leaf _) as [leaf|] eqn:Ep; [|done]. intros (exclusive & He & E)%outcome_bind_Ret.
  destruct exclusive; [|by apply Hno]. eapply (frame_barriers_sound i t leaf El Ex Ep He); [|done]. by intros j f.
Qed.
End assess.

(** A client connection is never in a server's phase: only reading its channel can panic. *)
Lemma client_never_unreachable `{Demangler} `{StreamObservers} {T} `{!Target T} (cx : ChainCtx T) statics read {M} p h t k :
  assess_http_client (M := M) cx statics read p h t k = Panic →
  ∃ chan, pass_channel cx statics read chan p = Panic.
Proof.
  unfold assess_http_client. destruct (client_phase h) as [[phase ka]|] eqn:Ep; [|done].
  apply client_phase_side in Ep. destruct (hc_client h) as [client|]; [|done].
  destruct (client_via cx statics read p phase client t) as [[]|] eqn:Ev; [done|]. intros _. revert Ev.
  assert (∀ m : fallible (Assessed M) WaitTarget, m ≠ Panic → (x ←! m; succeed (Some x)) ≠ Panic) as Hm
    by (intros [[]|]; done).
  destruct phase; try done; cbn [client_via].
  - destruct (hc_rx client) as [chan|]; [|done].
    destruct (pass_channel cx statics read chan p) as [[p1 ch]|] eqn:Ec; [|by exists chan]. rewrite outcome_bind_eq.
    destruct (x ←! idle_via (M := M) ch chan t; succeed (Some x)) eqn:Ex; [done|].
    exfalso. revert Ex. apply Hm. unfold idle_via, connection_waker, own_waker. cbv zeta.
    destruct (ch_waker_state ch); cbn; [|done]. case_match; [|done]. cbn.
    destruct (ch_waker ch) as [[]|]; cbn; try done. case_match; [|done]. cbn.
    by destruct (ch_senders ch), (ch_index ch), (ch_tail_position ch).
  - destruct (x ←! callback_via (M := M) client t; succeed (Some x)) eqn:Ex; [done|].
    exfalso. revert Ex. apply Hm. unfold callback_via, connection_waker, own_waker.
    destruct (hc_callback client) as [cb|]; cbn; [|done]. case_match; [done|]. cbn.
    destruct (os_tx_waker cb) as [[]|]; cbn; try done. by case_match.
  - destruct (x ←! callback_via (M := M) client t; succeed (Some x)) eqn:Ex; [done|].
    exfalso. revert Ex. apply Hm. unfold callback_via, connection_waker, own_waker.
    destruct (hc_callback client) as [cb|]; cbn; [|done]. case_match; [done|]. cbn.
    destruct (os_tx_waker cb) as [[]|]; cbn; try done. by case_match.
Qed.
