(* ===== verification/AssessTheorems.v ===== *)
(** What an assessment decides: a wait is verified exactly when the resource's protocol
    holds of it and the task's own waker is where the protocol parks it; the waits of one
    pass are told from one reading of each resource; and a polling barrier is what its
    chain proves. *)

From S2P Require Import Prelude Text StringTable Target Symbols TaskGraph Schema BundleCheck TypeView DisplayResolve DisplayEval Discovery Work Value Elements Pairing Semantics Contract ContractFacts Chain TaskHeader OwnedLists MemoryDemo TaskDemo Runtimes Effects Registries Containers Observe Assess AssessFacts.

Local Open Scope Z_scope.

(** ** Theorems *)

(** C5: an assessment calls a task waiting exactly when it is: idle by its state word and
    of one kind, its chain ended in a primitive with a reviewed protocol, and that
    protocol holds of what the pass remembers of the resource - for a receiver, nothing
    to take, the waker at rest and its own; for a queued node, found once in a list
    established whole, with its own waker; for a socket, nothing delivered and its own
    waker in the slot; for a join, its own waker in the trailer.  The wait names that
    target and that place in the queue.  The pass goes on remembering what it did, and
    only what reading a resource gave. *)
Theorem assessment_exact `{Demangler} `{StreamObservers} {T} `{!Target T} (cx : ChainCtx T) statics read {M} p i t l p'
    (a : Assessed M) :
  pass_ok cx statics read p → assess_wait cx statics read p i t l = Ret (p', a) →
  (pass_ok cx statics read p' ∧ extends p p') ∧
  ∀ w, as_assessment a = Waiting w ↔ awaits cx statics read p' i t l w.
Proof. intros Hp [Hg Hw]%assess_wait_exact. split; [by apply Hg|done]. Qed.

(** C9: two waits told in one pass cannot both hold what only one can.  Two tasks told to
    wait on one joined task, or on one channel, are the same task; two told to wait in
    one semaphore's or one [Notify]'s queue each have a place in it, and at one place
    they are the same task. *)
Theorem waits_apart `{Demangler} `{StreamObservers} {T} `{!Target T} (cx : ChainCtx T) statics read {M}
    p p1 p2 p3 i1 i2 t1 t2 l1 l2 (a1 a2 : Assessed M) w1 w2 o1 o2 :
  pass_ok cx statics read p → assess_wait cx statics read p i1 t1 l1 = Ret (p1, a1) →
  pass_ok cx statics read p2 → extends p1 p2 → assess_wait cx statics read p2 i2 t2 l2 = Ret (p3, a2) →
  as_assessment a1 = Waiting w1 → as_assessment a2 = Waiting w2 →
  ob_value (fi_primitive i1) = Some o1 → ob_value (fi_primitive i2) = Some o2 →
  (same_cell o1 o2 → tf_addr t1 = tf_addr t2) ∧
  (same_queue o1 o2 → is_Some (vw_queue_position w1) ∧ is_Some (vw_queue_position w2) ∧
     (vw_queue_position w1 = vw_queue_position w2 → tf_addr t1 = tf_addr t2)).
Proof.
  intros Hp [Hg1 Hw1]%assess_wait_exact Hp2 Hx [Hg2 Hw2]%assess_wait_exact Ha1 Ha2 Ho1 Ho2.
  apply Hw1 in Ha1 as [_ _ (o1' & Ho1' & Ha1)]. apply Hw2 in Ha2 as [_ _ (o2' & Ho2' & Ha2)].
  assert (o1' = o1) as -> by congruence. assert (o2' = o2) as -> by congruence.
  assert (extends p1 p3) as Hx' by (etrans; [done|by apply Hg2]). split; intros Hs.
  - by eapply cell_one.
  - by eapply queue_apart.
Qed.

(** C8: a polling barrier is reported only where it holds: the task idle, its chain
    exclusive to a terminal that polls nothing else while it waits, the candidate a local
    of a state on the chain, off the chain and on no chain of it, reached through nothing
    borrowed, ending in an acquire that was queued, whose place is told only from a queue
    the pass remembers as established. *)
Theorem barriers_sound `{Demangler} `{StreamObservers} {T} `{!Target T} (cx : ChainCtx T) statics read i t s s' l :
  pass_ok cx statics read (br_pass s) → polling_barriers cx statics read i t s = Ret (s', l) →
  (pass_ok cx statics read (br_pass s') ∧ extends (br_pass s) (br_pass s')) ∧
  ∀ pb, pb ∈ l → barrier_holds cx statics read (br_pass s') i t pb.
Proof. intros Hs [Hg Hb]%polling_barriers_sound. split; [by apply Hg|]. intros pb Hpb. by apply Hb. Qed.


(** ** Witnesses

    Task B, at 4176, holds the handle of task A, at 4120, whose trailer keeps B's waker;
    and B's coroutine, at 4232, holds off its chain an acquire that was queued. *)

#[local] Instance join_streams : StreamObservers :=
  {| observe_io := λ _ _ _, throw (AeNotOption 0);
     observe_http_conn := λ _ _, throw (AeNotOption 0) |}.

Definition join_names : list string :=
  task_names ++
  ["Waker"; "data"; "vtbl"; "waker"; "JoinHandle"; "raw"; "Semaphore"; "permits"; "Acquire"; "sem"; "node";
   "requested"; "needed"; "queued"; "bool"; "Coroutine"; "Suspend0"; "State"; "permit"; "Mutex"; "lock"; "head";
   "Waiter"]%string.
Definition join_bundle : Bundle :=
  mkBundle (table_of (bytes_of_string <$> join_names))
    (mkTypeTable (task_types ++
       [TStruct 22 16 [mkMember 23 0%nat 0; mkMember 24 0%nat 8];                          (* 10: Waker *)
        TStruct 12 24 [mkMember 13 1%nat 0; mkMember 25 10%nat 8];                         (* 11: Trailer *)
        TStruct 26 8 [mkMember 27 0%nat 0];                                                (* 12: JoinHandle *)
        TStruct 28 24 [mkMember 29 0%nat 0; mkMember 42 19%nat 8; mkMember 43 20%nat 16];  (* 13: Semaphore *)
        TPointer None 13%nat;                                                              (* 14: *Semaphore *)
        TStruct 30 56 [mkMember 31 14%nat 0; mkMember 32 21%nat 8; mkMember 33 0%nat 40;
                       mkMember 35 16%nat 48];                                             (* 15: Acquire *)
        TBase 36 1 Unsigned;                                                               (* 16: bool *)
        TEnum 37 64 (mkShape (Some (mkDiscr 0 0%nat))
          [mkVariant 38 (Some [DValue 3]) (mkMember 38 18%nat 8) None None]);              (* 17: Coroutine *)
        TStruct 39 56 [mkMember 40 15%nat 0];                                              (* 18: State *)
        TStruct 41 8 [mkMember 5 0%nat 0];                                                 (* 19: Mutex *)
        TPointer None 21%nat;                                                              (* 20: *Waiter *)
        TStruct 44 32 [mkMember 34 0%nat 0; mkMember 13 1%nat 8; mkMember 25 10%nat 16]])  (* 21: Waiter *)
       [])
    (task_walks ++
       [(TrailerWaker, task_walk 11%nat [Member (Named 25)]);
        (WakerData, task_walk 10%nat [Member (Named 23)]);
        (WakerVtable, task_walk 10%nat [Member (Named 24)]);
        (AcquireSemaphore, task_walk 15%nat [Member (Named 31)]);
        (AcquireNode, task_walk 15%nat [Member (Named 32)]);
        (AcquireNumPermits, task_walk 15%nat [Member (Named 33)]);
        (AcquireNeeded, task_walk 15%nat [Member (Named 32); Member (Named 34)]);
        (AcquireQueued, task_walk 15%nat [Member (Named 35)]);
        (SemaphorePermits, task_walk 13%nat [Member (Named 29)]);
        (SemaphoreLock, task_walk 13%nat [Member (Named 42)]);
        (SemaphoreQueueHead, task_walk 13%nat [Member (Named 43)]);
        (WaiterNeeded, task_walk 21%nat [Member (Named 34)]);
        (WaiterNext, task_walk 21%nat [Member (Named 13); Variant 2]);
        (WaiterWaker, task_walk 21%nat [Member (Named 25)])]).

(** The vtable, tasks A and B, B's coroutine, the semaphore, and A's node in its queue. *)
Definition join_coroutine : list Z := [3; 4296; 1; 0; 4176; 20992; 2; 1].
Definition join_proc : Flat :=
  mkLabelled 4096 (mjoin (to_le_bytes 8 <$>
    [20480; 24; 48; 88; 7; 4096; 0; 4176; 20992; 1; 64; 7; 4096; 0; 0; 0; 2] ++ join_coroutine ++
    [0; 0; 4320; 1; 4248; 4120; 20992]))
    [(20480, "poll_a"%string); (20992, "WAKER"%string)].

Definition join_semantics (ty : BundleTypeId) (future : option Continuation) (states : option (list CoroutineState))
    (resource : option ResourceBinding) (lock : option LockWord) : TypeSemantics :=
  mkSemantics ty DeclaredMembers future states None resource None None lock None.
Definition join_primitive : option Continuation := Some (CtBound 0 (PDirect APrimitive)).
Definition join_records : list TypeSemantics :=
  [join_semantics 12%nat join_primitive None (Some (mkBound RJoinHandle (Some 0) true)) None;
   join_semantics 15%nat join_primitive None (Some (mkBound RSemaphoreAcquire (Some 1) true)) None;
   join_semantics 17%nat None (Some [mkState 38 PhSuspended [40] []]) None None;
   join_semantics 19%nat None None None (Some (mkLockWord None 0 8 1))].

Definition join_cx : ChainCtx Flat :=
  mkChainCtx join_bundle join_records (default [] (semantic_index 22 join_records)) (mkInfra 2 3 11 7 0)%nat
    [mkTaskEntry 0 2 (Some CMultiThread)] [] (mkSymbols {[bytes_of_string "poll_a" := [0]]} ∅) (mkSymbols ∅ ∅)
    [mkObject (Some "a.out"%string) 4096 4096 6] join_proc (mkTables [] ∅ ∅) ∅.
Definition join_statics : list (StaticRole * StaticDef) := [(TaskWakerVtable, mkStatic "WAKER" "WAKER")].

Definition join_leaf : Value := mkValue 12%nat 8192 (to_le_bytes 8 4120).
Definition join_observed : ResourceObservation := RoJoin (mkJoin (mkValueKey 8192 12%nat) 4120).
Definition join_state : FrameState :=
  mkFrameState (bytes_of_string "Suspend0") (Some PhSuspended) None join_leaf.
Definition join_frame : AwaitFrame :=
  mkFrame (mkValue 17%nat 4232 (mjoin (to_le_bytes 8 <$> join_coroutine))) (Some join_state) None.
Definition join_inspection : FutureInspection :=
  mkInspection
    (mkChain [join_frame; mkFrame join_leaf None None]
       [mkChainEdge 0 1 (FTValue (mkPath [] 12%nat)) true (mkValueKey 4232 17%nat) (mkValueKey 8192 12%nat)] EndPrimitive)
    (observed_of join_observed).
Definition join_facts : TaskFacts := mkFacts 4176 (Some 2) 64 Async.
Definition join_list : TaskList := mkTaskList [] [] store_new.
Definition join_pass : AssessmentPass := pass_new (budget_new (mkLimits 12 8 64 64 64 64 64)).
Definition join_answer : outcome (AssessmentPass * Assessed ()) :=
  assess_wait join_cx join_statics None join_pass join_inspection join_facts join_list.

(** The two tasks, each waiting on the semaphore's permits. *)
Definition acquire_leaf : Value := mkValue 15%nat 4240 (mjoin (to_le_bytes 8 <$> drop 1 join_coroutine)).
Definition acquire_inspection (node : Z) : FutureInspection :=
  mkInspection (mkChain [mkFrame acquire_leaf None None] [] EndPrimitive)
    (observed_of (RoAcquire (mkAcquire (value_key acquire_leaf) (mkValueKey 4296 13%nat) node 2 1 true None))).
Definition acquire_answer (p : AssessmentPass) (node a : Z) : outcome (AssessmentPass * Assessed ()) :=
  assess_wait join_cx join_statics None p (acquire_inspection node) (mkFacts a None 64 Async) join_list.
Definition barrier_answer : outcome (BarrierState * list PollingBarrier) :=
  polling_barriers join_cx join_statics None join_inspection join_facts (mkBarrierState ∅ join_pass).

Definition join_told : VerifiedWait :=
  mkWait (WtTask 4120 (Some 1) 88 false (Some (UOtherRuntime MultiThread))) (mkValueKey 8192 12%nat) None.

Lemma assessment_exact_witness :
  awaits join_cx join_statics None join_pass join_inspection join_facts join_list join_told.
Proof.
  assert (Ha : join_answer = Ret (join_pass, assessed_of (Waiting join_told))) by (vm_compute; reflexivity).
  unfold join_answer in Ha.
  destruct (assessment_exact join_cx join_statics None join_pass join_inspection join_facts join_list join_pass
              (assessed_of (Waiting join_told)) (pass_new_ok _ _ _ _) Ha) as [_ Hw].
  by apply (Hw join_told).
Defined.

(** The wait an answer tells. *)
Definition told (r : outcome (AssessmentPass * Assessed ())) : option (option nat) :=
  match r with Ret (_, a) => vw_queue_position <$> verified (as_assessment a) | Panic => None end.
Definition passed (r : outcome (AssessmentPass * Assessed ())) : AssessmentPass :=
  match r with Ret (p, _) => p | Panic => join_pass end.

Lemma waits_apart_witness :
  let first := acquire_answer join_pass 4248 4176 in
  let second := acquire_answer (passed first) 4320 4120 in
  told first = Some (Some 0%nat) ∧ told second = Some (Some 1%nat) ∧
  ∀ p1 a1 w1 p2 a2 w2, first = Ret (p1, a1) → as_assessment a1 = Waiting w1 →
    second = Ret (p2, a2) → as_assessment a2 = Waiting w2 →
    is_Some (vw_queue_position w1) ∧ is_Some (vw_queue_position w2) ∧ vw_queue_position w1 ≠ vw_queue_position w2.
Proof.
  cbv zeta. split_and!; [vm_compute; reflexivity..|].
  intros p1 a1 w1 p2 a2 w2 H1 Hw1 H2 Hw2. rewrite H1 in H2. cbn [passed] in H2.
  destruct (assess_wait_exact join_cx join_statics None _ _ _ _ _ _ H1) as [Hg _].
  destruct (Hg (pass_new_ok _ _ _ _)) as [Hp1 _].
  destruct (waits_apart join_cx join_statics None _ _ _ _ _ _ _ _ _ _ _ _ _ _ _ _
              (pass_new_ok _ _ _ _) H1 Hp1 (reflexivity p1) H2 Hw1 Hw2 eq_refl eq_refl) as [_ Hq].
  destruct (Hq eq_refl) as (Hs1 & Hs2 & Hne). split_and!; [done..|]. intros Heq. discriminate (Hne Heq).
Defined.

Lemma barriers_sound_witness :
  match barrier_answer with
  | Ret (s, [pb]) => barrier_holds join_cx join_statics None (br_pass s) join_inspection join_facts pb ∧
      aq_queue_position (pb_acquire pb) = Some 0
  | _ => False
  end.
Proof.
  assert (Hc : match barrier_answer with
               | Ret (s, [pb]) => aq_queue_position (pb_acquire pb) = Some 0
               | _ => False
               end) by (vm_compute; reflexivity).
  assert (Hs : ∀ s l, barrier_answer = Ret (s, l) →
            ∀ pb, pb ∈ l → barrier_holds join_cx join_statics None (br_pass s) join_inspection join_facts pb)
    by (intros s l E; apply (barriers_sound join_cx join_statics None _ _
                              (mkBarrierState ∅ join_pass) _ _ (pass_new_ok _ _ _ _) E)).
  revert Hc Hs. generalize barrier_answer. intros [[s [|pb [|]]]|] Hc Hs; try done.
  split; [|done]. apply (Hs s _ eq_refl). by left.
Defined.
