(* ===== verification/Scan.v ===== *)
(** The bounded scan of initialized storage for task references
    ([hansei-runtime/src/tokio/scan.rs], with the type search of [bundle.rs] that says
    which storage it need not visit).

    A scan is a computation over the scanner's own state: the budget, what the context
    remembers, what the sink was handed, the path, the origins and the queues already met.
    It recurses through [scan_value], which charges a visit before anything else, so the
    visits left bound it. *)

From stdpp Require Import countable.
From S2P Require Import Prelude Text StringTable Target Symbols TaskGraph Discovery Schema BundleCheck TypeView DisplayResolve DisplayEval Value Elements Pairing Semantics Contract Chain TaskHeader OwnedLists Runtimes Effects Registries Containers Observe Work.

Local Open Scope Z_scope.

Definition AWAITEE_NAME : str := bytes_of_string "__awaitee".
Definition SLOT_MEMBER : str := bytes_of_string "__0".

Definition W16 : Z := 65536.
Definition u16_inc (n : Z) : Z := (n + 1) `mod` W16.

(** ** The state *)

(** How far from the root the scan is: futures nested inside others' storage, and awaitees
    down a chain. *)
Record Frame := mkScanFrame { fr_nesting : Z; fr_chain : Z }.
Definition frame_default : Frame := mkScanFrame 0 0.

(** [Frame::nested] and [linked]. *)
Definition nested (f : Frame) : Frame := mkScanFrame (u16_inc (fr_nesting f)) (fr_chain f).
Definition linked (f : Frame) : Frame := mkScanFrame (fr_nesting f) (u16_inc (fr_chain f)).

(** What the context remembers across scans: the types found inert or not, the paired
    candidates of symbols, and the tasks behind a [Notify]. *)
Record Memos := mkMemos {
  mm_inert : gmap BundleTypeId bool;
  mm_paired : Paired;
  mm_notify : NotifyMemo
}.

(** What a sink is handed. *)
Inductive Sunk :=
  | SunkReference (r : TaskReference)
  | SunkIssue (i : WalkIssue).

Record Scanner := mkScanner {
  sc_budget : ScanBudget;
  sc_memos : Memos;
  sc_sink : list Sunk;
  sc_path : list Step;
  sc_seen : gset ValueKey;
  sc_queues : gset ValueKey;
  sc_complete : bool;
  sc_visits_spent : bool
}.

(** Nothing a scan does fails: what goes wrong is an issue. *)
Definition scanning (A : Type) : Type := eff Scanner Empty_set A.

Definition set_budget (bg : ScanBudget) (s : Scanner) : Scanner :=
  mkScanner bg (sc_memos s) (sc_sink s) (sc_path s) (sc_seen s) (sc_queues s) (sc_complete s)
    (sc_visits_spent s).
Definition set_memos (m : Memos) (s : Scanner) : Scanner :=
  mkScanner (sc_budget s) m (sc_sink s) (sc_path s) (sc_seen s) (sc_queues s) (sc_complete s)
    (sc_visits_spent s).
Definition sink (x : Sunk) (s : Scanner) : Scanner :=
  mkScanner (sc_budget s) (sc_memos s) (sc_sink s ++ [x]) (sc_path s) (sc_seen s) (sc_queues s)
    (sc_complete s) (sc_visits_spent s).
Definition set_path (f : list Step → list Step) (s : Scanner) : Scanner :=
  mkScanner (sc_budget s) (sc_memos s) (sc_sink s) (f (sc_path s)) (sc_seen s) (sc_queues s)
    (sc_complete s) (sc_visits_spent s).
Definition add_seen (k : ValueKey) (s : Scanner) : Scanner :=
  mkScanner (sc_budget s) (sc_memos s) (sc_sink s) (sc_path s) ({[k]} ∪ sc_seen s) (sc_queues s)
    (sc_complete s) (sc_visits_spent s).
Definition add_queue (k : ValueKey) (s : Scanner) : Scanner :=
  mkScanner (sc_budget s) (sc_memos s) (sc_sink s) (sc_path s) (sc_seen s) ({[k]} ∪ sc_queues s)
    (sc_complete s) (sc_visits_spent s).
Definition set_incomplete (s : Scanner) : Scanner :=
  mkScanner (sc_budget s) (sc_memos s) (sc_sink s) (sc_path s) (sc_seen s) (sc_queues s) false
    (sc_visits_spent s).
Definition set_visits_spent (s : Scanner) : Scanner :=
  mkScanner (sc_budget s) (sc_memos s) (sc_sink s) (sc_path s) (sc_seen s) (sc_queues s)
    (sc_complete s) true.

(** [Scanner::report]. *)
Definition report (i : WalkIssue) : scanning () := eff_modify (sink (SunkIssue i) ∘ set_incomplete).
Definition report_all (l : list WalkIssue) : scanning () := eff_each report l.

Definition push_path (st : Step) : scanning () := eff_modify (set_path (λ p, p ++ [st])).
Definition pop_path : scanning () := eff_modify (set_path (λ p, removelast p)).

(** A key entered once: whether this is the first time. *)
Definition enter_seen (k : ValueKey) : scanning bool :=
  seen ←% eff_get sc_seen;
  if bool_decide (k ∈ seen) then eff_ret false else _ ←% eff_modify (add_seen k); eff_ret true.
Definition enter_queue (k : ValueKey) : scanning bool :=
  queues ←% eff_get sc_queues;
  if bool_decide (k ∈ queues) then eff_ret false else _ ←% eff_modify (add_queue k); eff_ret true.

(** A call that spends the budget, and one that also reads the context's memory. *)
Definition on_budget {A} (m : ScanBudget → outcome (ScanBudget * A)) : scanning A := λ s,
  '(bg, a) ← m (sc_budget s); Ret (set_budget bg s, inl a).
Definition on_memos {A} (m : Memos → outcome (Memos * A)) : scanning A := λ s,
  '(memos, a) ← m (sc_memos s); Ret (set_memos memos s, inl a).
Definition lifted {A} (m : outcome A) : scanning A := eff_lift (infallible m).

Definition scan_limits : scanning ScanLimits := eff_get (λ s, limits (sc_budget s)).

(** ** How a value is stored *)

(** What a value's record says it is, the first that holds: a bound resource, a container,
    a hash table, a pointer adapter, or storage the bundle cannot vouch for. *)
Inductive Storage :=
  | StResource
  | StContainer (k : ContainerKind)
  | StTable (t : HashTableBinding)
  | StAdapter
  | StUnavailable (issue : SemanticIssue)
  | StPlain.

Definition storage_of (record : option TypeSemantics) : Storage :=
  match record with
  | None => StPlain
  | Some r =>
      match ts_resource r, ts_container r, ts_table r, ts_access r, ts_storage r with
      | Some _, _, _, _, _ => StResource
      | None, Some k, _, _, _ => StContainer k
      | None, None, Some t, _, _ => StTable t
      | None, None, None, Some _, _ => StAdapter
      | None, None, None, None, Unavailable issue => StUnavailable issue
      | None, None, None, None, _ => StPlain
      end
  end.

(** A record that keeps its type's storage from being skipped. *)
Definition binds (r : TypeSemantics) : bool :=
  match ts_resource r, ts_container r, ts_access r, ts_future r, ts_coroutine r, ts_storage r with
  | None, None, None, None, None, Unavailable _ => true
  | None, None, None, None, None, _ => false
  | _, _, _, _, _, _ => true
  end.

(** A referent charged before a container's node is visited, and the stop of a spent
    budget. *)
Definition referents_spent (bg : ScanBudget) : NodeStop :=
  NsCapped "referent expansions" (max_referent_expansions (limits bg)).
Definition charge_visit_node {A} : eff (ScanBudget * list A) NodeStop () := λ s,
  let '(ok, bg) := charge_referent s.1 in
  Ret ((bg, s.2), if ok then inl () else inr (referents_spent bg)).

(** What a node gives, kept. *)
Definition collect {A} (a : A) : eff (ScanBudget * list A) NodeStop () := eff_modify (λ s, (s.1, s.2 ++ [a])).

(** A walk run over the budget: what it kept, and how it ended. *)
Definition collected {A R} (m : eff (ScanBudget * list A) NodeStop R) (bg : ScanBudget)
    : outcome (ScanBudget * (list A * (R + NodeStop))) :=
  '(s, r) ← m (bg, []); Ret (s.1, (s.2, r)).

Section scan.
Context `{Demangler} `{StreamObservers} {T : Type} `{!Target T}.
Context (cx : ChainCtx T) (statics : list (StaticRole * StaticDef)) (read : ReadContext).
Abbreviation b := (cc_bundle cx).
Abbreviation proc := (cc_proc cx).

(** An issue whose message names the value's type. *)
Definition report_named (v : Value) (key : ValueKey) (kind : WalkIssueKind) (detail : str → Detail) : scanning () :=
  ty ←% lifted (ty_name b (val_ty v)); report (issue_new key kind (detail ty)).

(** ** Storage that can hold nothing *)

(** [holds_aggregates]. *)
Definition holds_aggregates (element : BundleTypeId) : outcome bool :=
  c ← classify b element;
  Ret match c with CStruct | CRustEnum | CUnion | CArray _ _ => true | _ => false end.

Fixpoint sized_types (ms : list MemberDef) : outcome (list BundleTypeId) :=
  match ms with
  | [] => Ret []
  | m :: ms =>
      size ← ty_size b (m_ty m);
      rest ← sized_types ms;
      Ret (if size =? 0 then rest else m_ty m :: rest)
  end.

(** The types a type's storage reaches by its class; [None] where it is an array of
    aggregates. *)
Definition class_types (ty : BundleTypeId) : outcome (option (list BundleTypeId)) :=
  c ← classify b ty;
  match c with
  | CStruct => ms ← members b ty; l ← sized_types ms; Ret (Some l)
  | CRustEnum =>
      sh ← variant_shape b ty;
      Ret (Some (match sh with Some sh => m_ty ∘ v_payload <$> variants sh | None => [] end))
  | CArray element _ => a ← holds_aggregates element; Ret (if a : bool then None else Some [])
  | _ => Ret (Some [])
  end.

(** The bucket type of the table a type keeps, where the bundle has it. *)
Definition bucket_types (record : option TypeSemantics) : list BundleTypeId :=
  match record with
  | Some r =>
      match ts_table r with
      | Some t => if bool_decide (is_Some (ty_get (b_types b) (tb_bucket t))) then [tb_bucket t] else []
      | None => []
      end
  | None => []
  end.

Definition is_bound (record : option TypeSemantics) : bool :=
  match record with Some r => binds r | None => false end.

(** One type of the search: [None] where it settles the question, and else the types it
    adds, a table's bucket first. *)
Definition inert_step (ty : BundleTypeId) : outcome (option (list BundleTypeId)) :=
  record ← semantics_of cx ty;
  if is_bound record then Ret None
  else
    next ← class_types ty;
    Ret match next with Some l => Some (bucket_types record ++ l) | None => None end.

(** The search from a stack, its top first: whether nothing reached settles it, and the
    types met.  Every turn that pushes meets a type of the bundle for the first time. *)
Fixpoint inert_loop (fuel : nat) (memo : gmap BundleTypeId bool) (stack : list BundleTypeId)
    (seen : gset BundleTypeId) : outcome (bool * gset BundleTypeId) :=
  let fix pop (stack : list BundleTypeId) (seen : gset BundleTypeId) :=
    match stack with
    | [] => Ret (true, seen)
    | ty :: stack =>
        if bool_decide (ty ∈ seen) then pop stack seen
        else
          let seen := {[ty]} ∪ seen in
          match memo !! ty with
          | Some true => pop stack seen
          | Some false => Ret (false, seen)
          | None =>
              next ← inert_step ty;
              match next with
              | None => Ret (false, seen)
              | Some l =>
                  match fuel with
                  | O => Panic
                  | S fuel => inert_loop fuel memo (rev l ++ stack) seen
                  end
              end
          end
    end in
  pop stack seen.

(** [Context::reference_inert]: remembered for every type met, or for the one asked. *)
Definition reference_inert (ty : BundleTypeId) (memo : gmap BundleTypeId bool)
    : outcome (gmap BundleTypeId bool * bool) :=
  match memo !! ty with
  | Some known => Ret (memo, known)
  | None =>
      '(inert, seen) ← inert_loop (length (types (b_types b))) memo [ty] ∅;
      Ret (if (inert : bool) then (set_fold (λ id m, <[id := true]> m) memo seen, true)
           else (<[ty := false]> memo, false))
  end.

(** [Context::recognized_future], [any_adapter], [storage_unavailable] and [container_kind]. *)
Definition of_record {A} (f : TypeSemantics → A) (none : A) (ty : BundleTypeId) : outcome A :=
  record ← semantics_of cx ty; Ret match record with Some r => f r | None => none end.
Definition recognized_future : BundleTypeId → outcome bool :=
  of_record (λ r, bool_decide (is_Some (ts_future r)) || bool_decide (is_Some (ts_resource r))) false.
Definition any_adapter : BundleTypeId → outcome bool :=
  of_record (λ r, negb (bool_decide (is_Some (ts_future r))) && negb (bool_decide (is_Some (ts_resource r)))
                  && bool_decide (is_Some (ts_access r))) false.
Definition storage_unavailable : BundleTypeId → outcome bool :=
  of_record (λ r, match ts_storage r with Unavailable _ => true | _ => false end) false.
Definition container_kind : BundleTypeId → outcome (option ContainerKind) := of_record ts_container None.

(** [Context::scanned_table]: the table of a type whose buckets could hold something. *)
Definition scanned_table (ty : BundleTypeId) (memo : gmap BundleTypeId bool)
    : outcome (gmap BundleTypeId bool * option HashTableBinding) :=
  table ← of_record ts_table None ty;
  match table with
  | None => Ret (memo, None)
  | Some t =>
      match ty_get (b_types b) (tb_bucket t) with
      | None => Ret (memo, None)
      | Some _ =>
          '(memo, inert) ← reference_inert (tb_bucket t) memo;
          Ret (memo, if (inert : bool) then None else Some t)
      end
  end.

Definition is_inert (ty : BundleTypeId) : scanning bool := on_memos (λ m,
  '(inert, r) ← reference_inert ty (mm_inert m); Ret (mkMemos inert (mm_paired m) (mm_notify m), r)).

(** ** References *)

Section emit.
Context (root_task : option TaskAddr).

(** [Scanner::reference]. *)
Definition reference (target : TaskAddr) (source : ReferenceSource) (from : ValueKey) : scanning () :=
  path ←% eff_get sc_path;
  eff_modify (sink (SunkReference (mkReference target source (Some from) root_task path))).
Definition references (tasks : list Z) (source : ReferenceSource) (from : ValueKey) : scanning () :=
  eff_each (λ task, reference task source from) tasks.

(** The channel a receiver waits on, met for the first time. *)
Definition channel_reference (chan key : ValueKey) : scanning () :=
  channel ←% on_budget (observe_channel cx statics read chan);
  _ ←% report_all (ch_issues channel);
  references (option_list (w ← ch_waker channel; waker_task w)) ChannelWaker key.

Definition waker_reference (waker : option QueuedWaker) (key : ValueKey) : scanning () :=
  references (option_list (w ← waker; waker_task w)) OneshotWaker key.

(** [Scanner::resource]. *)
Definition resource (v : Value) (key : ValueKey) : scanning () :=
  observed ←% lifted (observe_resource cx statics read v);
  _ ←% report_all (ob_issues observed);
  match ob_value observed with
  | Some (RoJoin join) => reference (jo_header join) JoinHandle key
  | Some (RoAcquire acquire) =>
      first ←% enter_queue (aq_semaphore acquire);
      if (first : bool) then
        queue ←% on_budget (observe_semaphore_queue cx statics read (aq_semaphore acquire));
        _ ←% report_all (qo_issues queue);
        references (omap (waker_task ∘ sw_waker) (qo_waiters queue)) SemaphoreWaker key
      else eff_ret ()
  | Some (RoIo io) =>
      first ←% enter_queue (scheduled_io io);
      if (first : bool) then
        registration ←% on_budget (observe_io_registration cx statics read (scheduled_io io));
        _ ←% report_all (ob_issues registration);
        references (omap iw_task (match ob_value registration with Some r => io_waiters r | None => [] end))
          IoWaker key
      else eff_ret ()
  | Some (RoRecv recv) =>
      first ←% enter_queue (rc_chan recv);
      if (first : bool) then channel_reference (rc_chan recv) key else eff_ret ()
  | Some (RoNotified notified) =>
      first ←% enter_queue (nt_notify notified);
      if (first : bool) then
        memos ←% eff_get sc_memos;
        '(memo, tasks, issues) ←% on_budget (λ bg,
          '(memo, bg, (tasks, issues)) ←
            notify_waiter_tasks cx statics read (nt_notify notified) (mm_notify memos) bg;
          Ret (bg, (memo, tasks, issues)));
        _ ←% eff_modify (set_memos (mkMemos (mm_inert memos) (mm_paired memos) memo));
        _ ←% report_all issues;
        references tasks NotifyWaker key
      else eff_ret ()
  | Some (RoOneshot oneshot) => waker_reference (os_rx_waker oneshot) key
  | Some (RoHttpConn http) =>
      match hc_client http with
      | None => eff_ret ()
      | Some client =>
          _ ←% match hc_rx client with
               | Some chan =>
                   first ←% enter_queue chan;
                   if (first : bool) then channel_reference chan key else eff_ret ()
               | None => eff_ret ()
               end;
          waker_reference (hc_callback client ≫= os_tx_waker) key
      end
  | Some (RoTimer _) | Some (RoHttpNegotiating _) | None => eff_ret ()
  end.

(** ** Containers *)

(** [Scanner::node_stop]. *)
Definition stop_issue (at_ : ValueKey) (stop : NodeStop) : WalkIssue :=
  let elsewhere addr := mkValueKey addr (vk_ty at_) in
  match stop with
  | NsUnmapped _ addr => issue_new (elsewhere addr) IkReadFailed (DtStop stop)
  | NsRefused _ addr r => issue_new (elsewhere addr) (refusal_kind r) (DtStop stop)
  | NsCycle _ addr => issue_new (elsewhere addr) IkCycle (DtStop stop)
  | NsCapped _ _ => issue_new at_ IkVisitLimit (DtStop stop)
  | NsFailed e => issue_of at_ e
  end.
Definition node_stop (at_ : ValueKey) (stop : NodeStop) : scanning () := report (stop_issue at_ stop).
Definition stopped {R} (at_ : ValueKey) (r : R + NodeStop) : scanning () :=
  match r with inl _ => eff_ret () | inr stop => node_stop at_ stop end.

(** A set's node's child, where its slot holds one: the [Some] payload's one member. *)
Definition set_node_child (cur : Z) (node : Value) : fallible NodeStop (option Value) :=
  slot ←! failing AeRole (walk_at_with b proc read SetNodeFuture node);
  some ←! infallible (variant_name_ref b (val_ty slot) SOME_NAME);
  some ←! ok_or_else some (NsFailed (AeNotOption cur));
  w ←! failing AeSteps (execute_steps b proc read [Variant some] slot);
  match w with
  | At payload =>
      m ←! infallible (member b (val_ty payload) SLOT_MEMBER);
      m ←! ok_or_else m (NsFailed (AeHoldsNothing cur));
      w ←! failing AeSteps (execute_steps b proc read [Member (Named (m_name m))] payload);
      succeed (match w with At child => Some child | _ => None end)
  | Inactive _ | Null => succeed None
  end.

Definition set_visit (cur : Z) (node : Value) : eff (ScanBudget * list Value) NodeStop () :=
  _ ←% charge_visit_node;
  child ←% eff_lift (set_node_child cur node);
  match child with Some child => collect child | None => eff_ret () end.
Definition set_children (set : Value) (max : Z) (bg : ScanBudget) :=
  collected (walk_set_nodes cx read set max set_visit) bg.

Definition fanout_visit (index : Z) (entry stream : Value) : eff (ScanBudget * list Value) NodeStop () :=
  _ ←% charge_visit_node; collect stream.
Definition fanout_children (map : Value) (max : Z) (bg : ScanBudget) :=
  collected (walk_fanout_entries cx read map max fanout_visit) bg.

Definition bucket_visit (index : Z) (bucket : Value) : eff (ScanBudget * list Value) NodeStop () :=
  _ ←% charge_visit_node; collect bucket.
Definition table_buckets (map : Value) (t : HashTableBinding) (max : Z) (bg : ScanBudget) :=
  collected (walk_table_buckets cx read map t max bucket_visit) bg.

(** The entries of a join set, with the set's own count once it is read. *)
Definition join_visit (addr : Z) (entry : Value) : eff (ScanBudget * list (Z * Z) * Z) NodeStop () := λ s,
  '(c, r) ← (_ ←% charge_visit_node;
             task ←% eff_lift (map_err NsFailed (join_set_entry_task cx entry));
             collect (addr, task)) s.1;
  Ret ((c, s.2), r).
Definition join_entries (set : Value) (max : Z) (bg : ScanBudget)
    : outcome (ScanBudget * (list (Z * Z) * Z * (() + NodeStop))) :=
  '(s, r) ← walk_join_set_entries cx read set max (λ n s, (s.1, n)) join_visit ((bg, []), 0);
  Ret (s.1.1, (s.1.2, s.2, r)).

(** [Scanner::join_set]. *)
Definition join_set (set : Value) (key : ValueKey) : scanning () :=
  lim ←% scan_limits;
  '(tasks, length_, r) ←% on_budget (join_entries set (max_children lim));
  let walked := Z.of_nat (length tasks) in
  _ ←% match r with
       | inl _ =>
           if walked =? length_ then eff_ret ()
           else report (issue_new key IkCountMismatch (DtJoinCount walked length_))
       | inr stop => node_stop key stop
       end;
  _ ←% push_path Deref;
  _ ←% eff_each (λ e, reference e.2 JoinSetEntry (mkValueKey e.1 (vk_ty key))) tasks;
  pop_path.

(** ** The descent *)

Section descent.
Context (scan : Value → Z → Frame → scanning ()).

(** [Scanner::root]. *)
Definition root (v : Value) (frame : Frame) : scanning () :=
  first ←% enter_seen (value_key v);
  if (first : bool) then scan v 0 frame else eff_ret ().

(** A part one literal step inside a value, scanned with the step on the path. *)
Definition step_part (at_ : Value) (st : Step) (depth : Z) (frame : Frame) : scanning () :=
  w ←% lifted (execute_steps b proc read [st] at_);
  match w with
  | inl (At child) =>
      _ ←% push_path st;
      _ ←% scan child (u16_inc depth) frame;
      pop_path
  | inl _ => eff_ret ()
  | inr e => report (issue_of (value_key at_) (AeSteps e))
  end.

(** [Scanner::members]. *)
Definition scan_member (v : Value) (depth : Z) (frame : Frame) (m : MemberDef) : scanning () :=
  size ←% lifted (ty_size b (m_ty m));
  if size =? 0 then eff_ret () else step_part v (Member (Named (m_name m))) depth frame.
Definition scan_members (v : Value) (depth : Z) (frame : Frame) : scanning () :=
  ms ←% lifted (members b (val_ty v));
  eff_each (scan_member v depth frame) ms.

(** The state a layout records for a variant's name. *)
Fixpoint find_state (states : list CoroutineState) (nm : str) : outcome (option CoroutineState) :=
  match states with
  | [] => Ret None
  | st :: states =>
      s ← get (b_strings b) (cs_variant st);
      if bool_decide (s = Some nm) then Ret (Some st) else find_state states nm
  end.

(** A capture that may not be initialized: reported, not read. *)
Definition report_uncertain (v payload : Value) (nm : str) (r : StrRef) : scanning () :=
  local ←% lifted (get (b_strings b) r);
  report_named v (value_key payload) IkUnknownInitialization (DtUncertain (default BAD_STRREF local) nm).

(** The locals of a state that has some. *)
Definition scan_locals (v : Value) (key : ValueKey) (st : CoroutineState) (nm : str) (depth : Z)
    (frame : Frame) : scanning () :=
  w ←% lifted (execute_steps b proc read [Variant (cs_variant st)] v);
  match w with
  | inl (At payload) =>
      _ ←% push_path (Variant (cs_variant st));
      _ ←% eff_each (report_uncertain v payload nm) (cs_uncertain_locals st);
      _ ←% eff_each (λ r, step_part payload (Member (Named r)) depth frame) (cs_locals st);
      pop_path
  | inl _ => eff_ret ()
  | inr e => report (issue_of key (AeSteps e))
  end.

(** [Scanner::coroutine]. *)
Definition coroutine (v : Value) (key : ValueKey) (states : list CoroutineState) (depth : Z)
    (frame : Frame) : scanning () :=
  active ←% lifted (active_variant b (val_ty v) (val_bytes v));
  match active with
  | Some (inr e) => report_named v key IkInvalidLayout (λ ty, DtState ty e)
  | None => report_named v key IkInvalidLayout DtNoEnum
  | Some (inl active) =>
      st ←% lifted (find_state states (bv_name active));
      match st with
      | None => report_named v key IkUnknownInitialization (DtStateNotRecorded (bv_name active))
      | Some st =>
          match cs_stage st with
          | PhReturned | PhPanicked => eff_ret ()
          | PhUnknown => report_named v key IkUnknownInitialization (DtStateUnknown (bv_name active))
          | PhUnresumed | PhSuspended => scan_locals v key st (bv_name active) depth frame
          end
      end
  end.

(** The steps a followed route adds to the path. *)
Definition selected_steps (t : FutureTarget) : list Step :=
  match t with
  | FTValue path => tp_steps path
  | FTDynamic pointer _ => tp_steps pointer ++ [Deref]
  end.

Definition access_memo (v : Value) : scanning (option NextFuture) := on_memos (λ m,
  '(paired, next) ← access_referent cx read v (mm_paired m);
  Ret (mkMemos (mm_inert m) paired (mm_notify m), next)).

(** The referent a route reached, with the route on the path. *)
Definition follow (future : Value) (selected : FutureTarget) (frame : Frame) : scanning () :=
  depth ←% eff_get (length ∘ sc_path);
  _ ←% eff_modify (set_path (λ p, p ++ selected_steps selected));
  _ ←% root future (linked frame);
  eff_modify (set_path (take depth)).

(** [Scanner::adapter]. *)
Definition adapter (v : Value) (key : ValueKey) (frame : Frame) : scanning () :=
  lim ←% scan_limits;
  if max_chain_depth lim <=? fr_chain frame
  then report (issue_new key IkDepthLimit (DtChainDepth (max_chain_depth lim)))
  else
    charged ←% on_budget (λ bg, let '(ok, bg) := charge_referent bg in Ret (bg, (ok, referents_spent bg)));
    if negb charged.1 then node_stop key charged.2
    else
      next ←% access_memo v;
      match next with
      | None => eff_ret ()
      | Some (NxNext future selected _ _) =>
          follow future selected frame
      | Some (NxEnd (EndError e)) => report (issue_of key (AeChain e))
      | Some (NxEnd (EndUnknownDyn pointee _)) =>
          report (issue_new key IkUnknownDynamicType (DtUnknownDyn pointee))
      | Some (NxEnd (EndAmbiguousDyn pointee _ _)) =>
          report (issue_new key IkAmbiguousDynamicType (DtAmbiguousDyn pointee))
      | Some (NxEnd _) => eff_ret ()
      end.

(** The children of a container, each a new origin one hop in. *)
Definition nested_roots (key : ValueKey) (children : list Value) (frame : Frame) : scanning () :=
  lim ←% scan_limits;
  if (max_future_nesting lim <=? fr_nesting frame) && negb (bool_decide (children = []))
  then report (issue_new key IkHopLimit (DtNesting (max_future_nesting lim)))
  else
    _ ←% push_path Deref;
    _ ←% eff_each (λ child, root child (nested frame)) children;
    pop_path.

(** [Scanner::set] and [fanout]. *)
Definition scan_set (set : Value) (key : ValueKey) (frame : Frame) : scanning () :=
  lim ←% scan_limits;
  '(children, r) ←% on_budget (set_children set (max_children lim));
  _ ←% stopped key r;
  nested_roots key children frame.
Definition fanout (map : Value) (key : ValueKey) (frame : Frame) : scanning () :=
  lim ←% scan_limits;
  '(children, r) ←% on_budget (fanout_children map (max_children lim));
  _ ←% stopped key r;
  nested_roots key children frame.

(** [Scanner::table]. *)
Definition scan_table (map : Value) (key : ValueKey) (t : HashTableBinding) (depth : Z) (frame : Frame)
    : scanning () :=
  lim ←% scan_limits;
  '(buckets, r) ←% on_budget (table_buckets map t (max_children lim));
  _ ←% match r with
       | inl count =>
           if tc_full count =? tc_items count then eff_ret ()
           else report (issue_new key IkCountMismatch (DtTableCount (tc_items count) (tc_full count)))
       | inr stop => node_stop key stop
       end;
  _ ←% push_path Deref;
  _ ←% eff_each (λ bucket, scan bucket (u16_inc depth) frame) buckets;
  pop_path.

(** A future met inside another value: the depth and frame to go on with, or [None]. *)
Definition future_origin (key : ValueKey) (is_future : bool) (depth : Z) (frame : Frame)
    : scanning (option (Z * Frame)) :=
  if negb (is_future && (0 <? depth)) then eff_ret (Some (depth, frame))
  else
    first ←% enter_seen key;
    if negb first then eff_ret None
    else
      lim ←% scan_limits;
      path ←% eff_get sc_path;
      awaitee ←% lifted (match last path with
                        | Some (Member (Named r)) =>
                            s ← get (b_strings b) r; Ret (bool_decide (s = Some AWAITEE_NAME))
                        | _ => Ret false
                        end);
      if (awaitee : bool) then
        if max_chain_depth lim <=? fr_chain frame
        then _ ←% report (issue_new key IkDepthLimit (DtChainDepth (max_chain_depth lim))); eff_ret None
        else eff_ret (Some (0, linked frame))
      else if max_future_nesting lim <=? fr_nesting frame
      then _ ←% report (issue_new key IkHopLimit (DtNesting (max_future_nesting lim))); eff_ret None
      else eff_ret (Some (0, nested frame)).

(** Declared members, an enum's active payload, and a stop at everything else. *)
Definition scan_class (v : Value) (key : ValueKey) (depth : Z) (frame : Frame) : scanning () :=
  c ←% lifted (classify b (val_ty v));
  match c with
  | CStruct => scan_members v depth frame
  | CRustEnum =>
      r ←% lifted (active_variant_raw b v);
      match r with
      | inl (_, payload) =>
          _ ←% push_path ActiveVariant;
          _ ←% scan_members payload depth frame;
          pop_path
      | inr e => report_named v key IkInvalidLayout (λ ty, DtVariant ty e)
      end
  | CArray element _ =>
      a ←% lifted (holds_aggregates element);
      if (a : bool)
      then report_named v key IkUnsupportedArray DtArray
      else eff_ret ()
  | CUnion | CPointer _ | CInteger _ _ _ _ | CFloat _ | CCEnum | COpaque => eff_ret ()
  end.

(** A resource or container met inside a value is entered once; an origin was already. *)
Definition once (key : ValueKey) (depth : Z) (k : scanning ()) : scanning () :=
  if depth =? 0 then k
  else first ←% enter_seen key; if (first : bool) then k else eff_ret ().

Definition is_some_future (record : option TypeSemantics) : bool :=
  match record ≫= ts_future with Some _ => true | None => false end.

(** What a visited value is scanned as, by its record. *)
Definition scan_storage (v : Value) (key : ValueKey) (record : option TypeSemantics) (depth : Z)
    (frame : Frame) : scanning () :=
  match storage_of record with
  | StResource => once key depth (resource v key)
  | StContainer CkFuturesUnordered => once key depth (scan_set v key frame)
  | StContainer CkJoinSet => once key depth (join_set v key)
  | StContainer CkStreamMap => once key depth (fanout v key frame)
  | StTable t => once key depth (scan_table v key t depth frame)
  | StAdapter => adapter v key frame
  | StUnavailable issue => report_named v key IkUnknownInitialization (DtUnreadable (si_kind issue))
  | StPlain =>
      origin ←% future_origin key (is_some_future record) depth frame;
      match origin with
      | None => eff_ret ()
      | Some (depth, frame) =>
          match record ≫= ts_coroutine with
          | Some states => coroutine v key states depth frame
          | None => scan_class v key depth frame
          end
      end
  end.

(** The first refused visit is said once. *)
Definition visit_refused (key : ValueKey) : scanning () :=
  lim ←% scan_limits;
  said ←% eff_get sc_visits_spent;
  _ ←% (if (said : bool) then eff_ret ()
        else _ ←% eff_modify set_visits_spent;
             report (issue_new key IkVisitLimit (DtVisits (max_inline_visits lim))));
  eff_modify set_incomplete.

(** [Scanner::scan]: one value, [depth] aggregate levels below its origin. *)
Definition scan_value (v : Value) (depth : Z) (frame : Frame) : scanning () :=
  inert ←% is_inert (val_ty v);
  if (inert : bool) then eff_ret ()
  else
    let key := value_key v in
    charged ←% on_budget (λ bg, let '(ok, bg) := charge_visit bg in Ret (bg, ok));
    if negb charged then visit_refused key
    else
      size ←% lifted (ty_size b (val_ty v));
      let len := Z.of_nat (length (val_bytes v)) in
      lim ←% scan_limits;
      if negb (len =? size) then report_named v key IkInvalidLayout (DtBytes len size)
      else if max_depth lim <? depth
      then report (issue_new key IkDepthLimit (DtDepth (max_depth lim)))
      else
        record ←% lifted (semantics_of cx (val_ty v));
        scan_storage v key record depth frame.
End descent.

(** The recursion, [fuel] visits deep at most; [exhausted] is what is never reached. *)
Fixpoint scan_within (exhausted : Value → Z → Frame → scanning ()) (fuel : nat)
    : Value → Z → Frame → scanning () :=
  match fuel with
  | O => exhausted
  | S fuel => scan_value (scan_within exhausted fuel)
  end.

Definition visit_fuel (bg : ScanBudget) : nat :=
  S (Z.to_nat (max_inline_visits (limits bg) - inline_visits bg)).

Definition scan_root (v : Value) (bg : ScanBudget) : scanning () :=
  root (scan_within (λ _ _ _ _, Panic) (visit_fuel bg)) v frame_default.
End emit.

(** ** A scan *)

Record ScanCompletion := mkCompletion {
  cp_complete : bool;
  cp_inline_visits : Z;
  cp_referent_expansions : Z
}.

Definition scanner_new (bg : ScanBudget) (memos : Memos) : Scanner :=
  mkScanner bg memos [] [] ∅ ∅ true false.

(** [Context::scan_references]: what the sink was handed, and what is left of the rest. *)
Definition scan_references (v : Value) (root_task : TaskAddr) (memos : Memos) (bg : ScanBudget)
    : outcome (Memos * ScanBudget * list Sunk * ScanCompletion) :=
  '(s, _) ← scan_root (Some root_task) v bg (scanner_new bg memos);
  let bg' := sc_budget s in
  Ret (sc_memos s, bg', sc_sink s,
       mkCompletion (sc_complete s) (u64_sub (inline_visits bg') (inline_visits bg))
         (u64_sub (referent_expansions bg') (referent_expansions bg))).
End scan.

(** The references of a sink, in order, and its issues. *)
Definition sunk_references (l : list Sunk) : list TaskReference :=
  omap (λ x, match x with SunkReference r => Some r | SunkIssue _ => None end) l.
Definition sunk_issues (l : list Sunk) : list WalkIssue :=
  omap (λ x, match x with SunkIssue i => Some i | SunkReference _ => None end) l.
