(* ===== verification/ScanFacts.v ===== *)
(** What a scan keeps: the budget it spends, the issues and references it hands over, the
    path it restores, and that its recursion is bounded by the visits left. *)

From S2P Require Import Prelude Text StringTable Target Symbols TaskGraph Discovery Schema BundleCheck TypeView DisplayResolve DisplayEval Value Elements Pairing Semantics Contract ContractFacts Chain TaskHeader OwnedLists Runtimes Effects Registries Containers Observe Scan Work.

Local Open Scope Z_scope.

(** ** What a budget is spent on *)

(** A counter moved on, never past its limit. *)
Definition counted (max n n' : Z) : Prop := n <= n' ∧ (n' <= max ∨ n' = n).

#[export] Instance counted_preorder max : PreOrder (counted max).
Proof.
  split; [intros n; unfold counted; lia|]. intros n1 n2 n3. unfold counted. lia.
Qed.

(** Referents charged, and nothing else. *)
Record charges (bg bg' : ScanBudget) : Prop := mkCharges {
  cg_limits : limits bg' = limits bg;
  cg_visits : inline_visits bg' = inline_visits bg;
  cg_referents : counted (max_referent_expansions (limits bg)) (referent_expansions bg) (referent_expansions bg')
}.

#[export] Instance charges_preorder : PreOrder charges.
Proof.
  split; [intros bg; by split|]. intros b1 b2 b3 [L1 V1 R1] [L2 V2 R2]. split; [congruence|congruence|].
  rewrite L1 in R2. by etransitivity.
Qed.

(** Visits and referents charged. *)
Record spends (bg bg' : ScanBudget) : Prop := mkSpends {
  sp_limits : limits bg' = limits bg;
  sp_visits : counted (max_inline_visits (limits bg)) (inline_visits bg) (inline_visits bg');
  sp_referents : counted (max_referent_expansions (limits bg)) (referent_expansions bg) (referent_expansions bg')
}.

#[export] Instance spends_preorder : PreOrder spends.
Proof.
  split; [intros bg; by split|]. intros b1 b2 b3 [L1 V1 R1] [L2 V2 R2].
  rewrite L1 in V2, R2. split; [congruence|by etransitivity|by etransitivity].
Qed.

Lemma charges_spends bg bg' : charges bg bg' → spends bg bg'.
Proof. intros [L V R]. split; [done| |done]. rewrite V. done. Qed.

Lemma charge_referent_charges bg : charges bg (charge_referent bg).2.
Proof.
  unfold charge_referent. destruct (Z.leb_spec (max_referent_expansions (limits bg)) (referent_expansions bg)); [done|].
  split; [done|done|]. unfold counted. cbn. lia.
Qed.
Lemma charge_visit_spends bg : spends bg (charge_visit bg).2.
Proof.
  unfold charge_visit. destruct (Z.leb_spec (max_inline_visits (limits bg)) (inline_visits bg)); [done|].
  split; [done| |done]. unfold counted. cbn. lia.
Qed.

(** What relates the budgets of two states. *)
Definition budgets {S} (f : S → ScanBudget) (s s' : S) : Prop := charges (f s) (f s').
#[export] Instance budgets_preorder {S} (f : S → ScanBudget) : PreOrder (budgets f).
Proof. split; [intros s; unfold budgets; done|]. intros s1 s2 s3. unfold budgets. by etransitivity. Qed.

Lemma keeps_budgets {S E} (f : S → ScanBudget) (g : S → S) :
  (∀ s, f (g s) = f s) → keeps_rel (budgets f) (eff_modify (E := E) g).
Proof. intros Hg. apply keeps_modify. intros s. unfold budgets. by rewrite Hg. Qed.

Lemma keeps_panic {S E A} (R : S → S → Prop) : keeps_rel R (λ _, Panic : outcome (S * (A + E))).
Proof. by intros s s' r. Qed.
#[export] Hint Resolve keeps_panic : keeps.

Lemma charge_at_charges key : keeps_rel charges (charge_at key).
Proof.
  intros bg bg' r. unfold charge_at. pose proof (charge_referent_charges bg) as Hc.
  destruct (charge_referent bg) as [[] bg1]; by intros [= <- _].
Qed.
Lemma charge_node_charges {N} key : keeps_rel (budgets nl_budget) (charge_node (N := N) key).
Proof.
  intros s s' r. unfold charge_node. destruct (charge_at key (nl_budget s)) as [[bg r']|] eqn:E; [|done].
  intros [= <- _]. by eapply charge_at_charges.
Qed.
#[export] Hint Resolve charge_at_charges charge_node_charges : keeps.

(** ** Observers *)

Section observers.
Context `{Demangler} `{StreamObservers} {T : Type} `{!Target T}.
Context (cx : ChainCtx T) (statics : list (StaticRole * StaticDef)) (read : ReadContext).

Lemma list_loop_charges {N} what ty next capped (tk : ValueKey → Value → eff (Nodes N) WalkIssue ()) fuel :
  (∀ k v, keeps_rel (budgets nl_budget) (tk k v)) →
  ∀ visited cur, keeps_rel (budgets nl_budget) (list_loop cx read fuel what ty next capped tk visited cur).
Proof.
  intros Ht. induction fuel as [|fuel IH]; intros visited [addr|]; cbn [list_loop]; unfold under_cap; keeps.
Qed.
Lemma list_from_charges {N} holder head what next capped (tk : ValueKey → Value → eff (Nodes N) WalkIssue ()) :
  (∀ k v, keeps_rel (budgets nl_budget) (tk k v)) →
  keeps_rel (budgets nl_budget) (list_from cx read holder head what next capped tk).
Proof. intros Ht. unfold list_from. keeps. by apply list_loop_charges. Qed.
Lemma take_decoded_charges {N} (decode : Value → fallible AnyError N) key node :
  keeps_rel (budgets nl_budget) (take_decoded decode key node).
Proof. unfold take_decoded. keeps. by apply keeps_budgets. Qed.
Lemma take_io_node_charges key node : keeps_rel (budgets nl_budget) (take_io_node cx statics read key node).
Proof. unfold take_io_node, io_node_waker. keeps; by apply keeps_budgets. Qed.

Lemma slot_loop_charges fuel ty index : ∀ visited cur,
  keeps_rel charges (slot_loop cx read fuel ty index visited cur).
Proof.
  induction fuel as [|fuel IH]; intros visited cur; cbn [slot_loop]; keeps.
Qed.
Lemma observe_slot_charges chan index : keeps_rel charges (observe_slot cx read chan index).
Proof. unfold observe_slot. keeps. apply slot_loop_charges. Qed.

(** An observer that charges the budget it is handed. *)
Definition charging {A} (m : ScanBudget → outcome (ScanBudget * A)) : Prop :=
  ∀ bg bg' a, m bg = Ret (bg', a) → charges bg bg'.

Lemma list_charging {N} (m : eff (Nodes N) WalkIssue ()) bg s r :
  keeps_rel (budgets nl_budget) m → m (mkNodes bg [] []) = Ret (s, r) → charges bg (nl_budget s).
Proof. intros Hm Hr. by apply Hm in Hr. Qed.

Ltac charged_first H :=
  apply outcome_bind_Ret in H as ([? [?|?]] & Hc & H); apply charge_at_charges in Hc;
  [|by injection H as <- _].
Ltac skip_reading H := apply outcome_bind_Ret in H as ([? ?] & _ & H).

Lemma semaphore_charging key : charging (observe_semaphore_queue cx statics read key).
Proof.
  intros bg bg' o Hr. unfold observe_semaphore_queue in Hr. charged_first Hr.
  apply outcome_bind_Ret in Hr as ([sem|e] & _ & Hr); [|by injection Hr as <- _].
  do 3 skip_reading Hr. apply outcome_bind_Ret in Hr as ([st res] & Hl & Hr).
  destruct (listed st res) as [[? ?] ?]. injection Hr as <- _. etransitivity; [exact Hc|].
  eapply list_charging; [|exact Hl]. apply list_from_charges. intros. apply take_decoded_charges.
Qed.
Lemma notify_charging key : charging (observe_notify cx statics read key).
Proof.
  intros bg bg' o Hr. unfold observe_notify in Hr. charged_first Hr.
  apply outcome_bind_Ret in Hr as ([sem|e] & _ & Hr); [|by injection Hr as <- _].
  do 2 skip_reading Hr. apply outcome_bind_Ret in Hr as ([st res] & Hl & Hr).
  destruct (listed st res) as [[? ?] ?]. injection Hr as <- _. etransitivity; [exact Hc|].
  eapply list_charging; [|exact Hl]. apply list_from_charges. intros. apply take_decoded_charges.
Qed.
Lemma registration_charging key : charging (observe_io_registration cx statics read key).
Proof.
  intros bg bg' o Hr. unfold observe_io_registration in Hr. charged_first Hr.
  apply outcome_bind_Ret in Hr as ([io|e] & _ & Hr); [|by injection Hr as <- _].
  apply outcome_bind_Ret in Hr as (? & _ & Hr). apply outcome_bind_Ret in Hr as (? & _ & Hr).
  apply outcome_bind_Ret in Hr as ([w|e] & _ & Hr); [|by injection Hr as <- _].
  do 2 skip_reading Hr. apply outcome_bind_Ret in Hr as ([st res] & Hl & [= <- _]).
  etransitivity; [exact Hc|]. eapply list_charging; [|exact Hl].
  apply list_from_charges. intros. apply take_io_node_charges.
Qed.
Lemma channel_charging key : charging (observe_channel cx statics read key).
Proof.
  intros bg bg' o Hr. unfold observe_channel in Hr. charged_first Hr.
  apply outcome_bind_Ret in Hr as ([v|e] & _ & Hr); [|by injection Hr as <- _].
  do 8 skip_reading Hr. apply outcome_bind_Ret in Hr as ([bg1 [sl iss]] & Hs & [= <- _]).
  etransitivity; [exact Hc|]. unfold slot_reading in Hs.
  match type of Hs with match ?i with _ => _ end = _ => destruct i as [index|] end; [|by injection Hs as <- _].
  apply outcome_bind_Ret in Hs as ([bg2 r] & Ho & Hs). apply observe_slot_charges in Ho.
  by destruct r; injection Hs as <- _ _.
Qed.
Lemma waiter_tasks_charging key memo bg memo' bg' r :
  notify_waiter_tasks cx statics read key memo bg = Ret (memo', bg', r) → charges bg bg'.
Proof.
  unfold notify_waiter_tasks. destruct (memo !! key); [by intros [= _ <- _]|].
  intros ([bg1 o] & Ho%notify_charging & [= _ <- _])%outcome_bind_Ret. done.
Qed.

(** ** Container walks *)

Section walks.
Context {S : Type} (R : S → S → Prop) `{!PreOrder R}.

Lemma set_loop_keeps ty visit fuel : (∀ a v, keeps_rel R (visit a v)) →
  ∀ w cur, keeps_rel R (set_loop cx read fuel ty visit w cur).
Proof. intros Hv. induction fuel as [|fuel IH]; intros w cur; cbn [set_loop]; keeps. Qed.
Lemma set_nodes_keeps set max visit : (∀ a v, keeps_rel R (visit a v)) →
  keeps_rel R (walk_set_nodes cx read set max visit).
Proof. intros Hv. unfold walk_set_nodes. keeps. by apply set_loop_keeps. Qed.
Lemma fanout_loop_keeps l visit : (∀ i e v, keeps_rel R (visit i e v)) →
  ∀ i, keeps_rel R (fanout_loop cx read i l visit).
Proof. intros Hv. induction l as [|e l IH]; intros i; cbn [fanout_loop]; keeps. Qed.
Lemma fanout_entries_keeps map max visit : (∀ i e v, keeps_rel R (visit i e v)) →
  keeps_rel R (walk_fanout_entries cx read map max visit).
Proof. intros Hv. unfold walk_fanout_entries. keeps. by apply fanout_loop_keeps. Qed.
Lemma table_loop_keeps ty stride ctrl max visit l : (∀ i v, keeps_rel R (visit i v)) →
  ∀ i full, keeps_rel R (table_loop cx ty stride ctrl max visit i l full).
Proof. intros Hv. induction l as [|c l IH]; intros i full; cbn [table_loop]; keeps. Qed.
Lemma table_buckets_keeps map t max visit : (∀ i v, keeps_rel R (visit i v)) →
  keeps_rel R (walk_table_buckets cx read map t max visit).
Proof. intros Hv. unfold walk_table_buckets. keeps. by apply table_loop_keeps. Qed.
Lemma join_loop_keeps ty visit fuel : (∀ a v, keeps_rel R (visit a v)) →
  ∀ w cur, keeps_rel R (join_loop cx read fuel ty visit w cur).
Proof. intros Hv. induction fuel as [|fuel IH]; intros w [a|]; cbn [join_loop]; keeps. Qed.
Lemma join_queue_keeps lists visit max w queue : (∀ a v, keeps_rel R (visit a v)) →
  keeps_rel R (join_queue cx read lists visit max w queue).
Proof. intros Hv. unfold join_queue. keeps. by apply join_loop_keeps. Qed.
Lemma join_set_keeps set max len visit : (∀ n s, R s (len n s)) → (∀ a v, keeps_rel R (visit a v)) →
  keeps_rel R (walk_join_set_entries cx read set max len visit).
Proof.
  intros Hl Hv. unfold walk_join_set_entries. keeps; try by apply join_queue_keeps.
  apply keeps_modify. intros s. apply Hl.
Qed.
End walks.
End observers.

(** ** A run that ends has seen all *)

(** Where the first computation succeeds, the second gives the same and keeps the same, or
    stops with part of it kept. *)
Definition outruns {S E A1 A2 X} (f : S → list X) (Q : A1 → A2 → Prop) (m1 : eff S E A1) (m2 : eff S E A2)
    : Prop := ∀ s1 s2 s1' s2' a1 r2, f s1 = f s2 → m1 s1 = Ret (s1', inl a1) → m2 s2 = Ret (s2', r2) →
  match r2 with inl a2 => Q a1 a2 ∧ f s1' = f s2' | inr _ => f s2' ⊆ f s1' end.

Section outruns.
Context {S E X : Type} (f : S → list X).
Definition keeping (s s' : S) : Prop := f s ⊆ f s'.
#[export] Instance keeping_preorder : PreOrder keeping.
Proof.
  split; [intros s; unfold keeping; reflexivity|]. intros s1 s2 s3 H1 H2. unfold keeping in *. by etransitivity.
Qed.

Lemma outruns_bind {A1 A2 B1 B2} Q Q' (m1 : eff S E A1) (m2 : eff S E A2) (k1 : A1 → eff S E B1) (k2 : A2 → eff S E B2) :
  outruns f Q m1 m2 → (∀ a1 a2, Q a1 a2 → outruns f Q' (k1 a1) (k2 a2)) → (∀ a, keeps_rel keeping (k1 a)) →
  outruns f Q' (eff_bind m1 k1) (eff_bind m2 k2).
Proof.
  intros Hm Hk Hg s1 s2 s1' s2' b1 r2 Hs H1 H2.
  apply eff_bind_Ret in H1 as [(t1 & a1 & H1 & K1)|(e & _ & [=])].
  apply eff_bind_Ret in H2 as [(t2 & a2 & H2 & K2)|(e & H2 & ->)].
  - destruct (Hm _ _ _ _ _ _ Hs H1 H2) as [HQ Ht]. by eapply Hk.
  - specialize (Hm _ _ _ _ _ _ Hs H1 H2). cbn in Hm. apply Hg in K1. unfold keeping in K1. by etransitivity.
Qed.
Lemma outruns_ret {A1 A2} (Q : A1 → A2 → Prop) a1 a2 : Q a1 a2 → outruns (E := E) f Q (eff_ret a1) (eff_ret a2).
Proof. by intros HQ s1 s2 s1' s2' a r Hs [= <- <-] [= <- <-]. Qed.
Lemma outruns_lift {A} (m : fallible E A) : outruns f eq (eff_lift m) (eff_lift m).
Proof.
  intros s1 s2 s1' s2' a r Hs. unfold eff_lift. destruct m as [[x|e]|]; [|done|done]. by intros [= <- <-] [= <- <-].
Qed.
Lemma outruns_lift_by {A1 A2} (Q : A1 → A2 → Prop) (m1 : fallible E A1) (m2 : fallible E A2) :
  (∀ a1 r2, m1 = Ret (inl a1) → m2 = Ret r2 → match r2 with inl a2 => Q a1 a2 | inr _ => True end) →
  outruns f Q (eff_lift m1) (eff_lift m2).
Proof.
  intros Hm s1 s2 s1' s2' a r Hs. unfold eff_lift. destruct m1 as [x|]; [|done]. destruct m2 as [y|]; [|done].
  intros [= <- ->] [= <- <-]. specialize (Hm _ _ eq_refl eq_refl). destruct y; [done|]. by rewrite Hs.
Qed.
Lemma outruns_ensure c (e : E) : outruns f eq (eff_ensure c e) (eff_ensure c e).
Proof. intros s1 s2 s1' s2' a r Hs. destruct c; [|done]. by intros [= <- <-] [= <- <-]. Qed.
Lemma outruns_throw {A1 A2} (Q : A1 → A2 → Prop) (m1 : eff S E A1) e :
  keeps_rel keeping m1 → outruns f Q m1 (eff_throw (A := A2) e).
Proof. intros Hk s1 s2 s1' s2' a r Hs H1%Hk [= <- <-]. cbn. by rewrite <- Hs. Qed.
Lemma outruns_modify (g : S → S) (h : list X → list X) : (∀ s, f (g s) = h (f s)) →
  outruns (E := E) f eq (eff_modify g) (eff_modify g).
Proof. intros Hg s1 s2 s1' s2' a r Hs [= <- <-] [= <- <-]. by rewrite !Hg, Hs. Qed.
Lemma outruns_panic {A1 A2} (Q : A1 → A2 → Prop) (m2 : eff S E A2) :
  outruns f Q (λ _, Panic : outcome (S * (A1 + E))) m2.
Proof. by intros s1 s2 s1' s2' a r _. Qed.
Lemma outruns_panic_r {A1 A2} (Q : A1 → A2 → Prop) (m1 : eff S E A1) :
  outruns f Q m1 (λ _, Panic : outcome (S * (A2 + E))).
Proof. by intros s1 s2 s1' s2' a r _ _. Qed.
Lemma outruns_more {A1 A2} (Q : A1 → A2 → Prop) (m1 : eff S E A1) (m2 : eff S E A2) s1 s2 s1' s2' a1 r2 :
  outruns f Q m1 m2 → f s1 = f s2 → m1 s1 = Ret (s1', inl a1) → m2 s2 = Ret (s2', r2) → f s2' ⊆ f s1'.
Proof.
  intros Hm Hs H1 H2. specialize (Hm _ _ _ _ _ _ Hs H1 H2). destruct r2; [|done]. by destruct Hm as [_ ->].
Qed.
End outruns.

Section seen_all.
Context `{Demangler} `{StreamObservers} {T : Type} `{!Target T}.
Context (cx : ChainCtx T) (statics : list (StaticRole * StaticDef)) (read : ReadContext).

Section lists.
Context {N : Type}.
Implicit Types tk : ValueKey → Value → eff (Nodes N) WalkIssue ().
Abbreviation nodes := (nl_nodes (N := N)).

(** A cap and a charge stop a walk or leave it alone. *)
Lemma outruns_cap c1 c2 key : outruns nodes eq (under_cap c1 key) (under_cap c2 key).
Proof.
  intros s1 s2 s1' s2' a r Hs. unfold under_cap, eff_ensure. cbn.
  destruct (c1 s1); cbn; [done|]. intros [= <- <-]. destruct (c2 s2); cbn; intros [= <- <-]; [by rewrite Hs|done].
Qed.
Lemma charge_nodes key s s' r : charge_node key s = Ret (s', r) → nodes s' = nodes s.
Proof. unfold charge_node. by intros ([bg r'] & _ & [= <- _])%outcome_bind_Ret. Qed.
Lemma outruns_charge key : outruns nodes eq (charge_node key) (charge_node key).
Proof.
  intros s1 s2 s1' s2' [] r Hs H1%charge_nodes H2%charge_nodes.
  destruct r as [[]|]; [split; [done|congruence]|]. by rewrite H1, H2, Hs.
Qed.

Lemma list_loop_outruns what ty next c1 c2 tk fuel1 : ∀ fuel2 visited cur,
  (∀ k v, outruns nodes eq (tk k v) (tk k v)) → (∀ k v, keeps_rel (keeping nodes) (tk k v)) →
  outruns nodes eq (list_loop cx read fuel1 what ty next c1 tk visited cur)
    (list_loop cx read fuel2 what ty next c2 tk visited cur).
Proof.
  induction fuel1 as [|fuel1 IH]; intros fuel2 visited [addr|] Ht Hk;
    [by destruct fuel2; apply outruns_panic|by destruct fuel2; apply outruns_ret| |by destruct fuel2; apply outruns_ret].
  destruct fuel2 as [|fuel2]; [apply outruns_panic_r|]. cbn [list_loop].
  assert (∀ fuel visited cur, keeps_rel (keeping nodes) (list_loop cx read fuel what ty next c1 tk visited cur)) as Hl.
  { clear -Hk. assert (∀ key, keeps_rel (keeping nodes) (charge_node key)).
    { intros key s s' r Hc%charge_nodes. unfold keeping. by rewrite Hc. }
    induction fuel as [|fuel IH]; intros visited [a|]; cbn [list_loop]; unfold under_cap; keeps. }
  assert (∀ key, keeps_rel (keeping nodes) (charge_node key)) as Hc.
  { intros key s s' r Hr%charge_nodes. unfold keeping. by rewrite Hr. }
  apply (outruns_bind _ eq); [apply outruns_ensure|intros ? ? <-|unfold under_cap; keeps].
  apply (outruns_bind _ eq); [apply outruns_cap|intros ? ? <-|keeps].
  apply (outruns_bind _ eq); [apply outruns_charge|intros ? ? <-|keeps].
  apply (outruns_bind _ eq); [apply outruns_lift|intros node ? <-|keeps].
  apply (outruns_bind _ eq); [apply Ht|intros ? ? <-|keeps].
  apply (outruns_bind _ eq); [apply outruns_lift|intros link ? <-|keeps].
  by apply IH.
Qed.

Lemma list_from_outruns holder head what next c1 c2 tk :
  (∀ k v, outruns nodes eq (tk k v) (tk k v)) → (∀ k v, keeps_rel (keeping nodes) (tk k v)) →
  outruns nodes eq (list_from cx read holder head what next c1 tk)
    (list_from cx read holder head what next c2 tk).
Proof.
  intros Ht Hk. assert (∀ fuel visited cur ty, keeps_rel (keeping nodes) (list_loop cx read fuel what ty next c1 tk visited cur)) as Hl.
  { assert (∀ key, keeps_rel (keeping nodes) (charge_node key)).
    { intros key s s' r Hc%charge_nodes. unfold keeping. by rewrite Hc. }
    intros fuel. induction fuel as [|fuel IH]; intros visited [a|] ty; cbn [list_loop]; unfold under_cap; keeps. }
  unfold list_from. apply (outruns_bind _ eq); [apply outruns_lift|intros w ? <-|keeps].
  destruct (walked_optional w) as [h|]; [|by apply outruns_ret].
  apply (outruns_bind _ eq); [apply outruns_lift|intros [ty|] ? <-|keeps].
  - apply (outruns_bind _ eq); [apply outruns_lift|intros cur ? <-|keeps].
    apply (outruns_bind _ (λ _ _, True)); [|intros bg1 bg2 _; by apply list_loop_outruns|keeps].
    intros s1 s2 s1' s2' a r Hs [= <- <-] [= <- <-]. done.
  - by intros s1 s2 s1' s2' a r Hs.
Qed.

Lemma node_push_outruns (n : N) : outruns (E := WalkIssue) nodes eq (eff_modify (node_push n)) (eff_modify (node_push n)).
Proof. by apply (outruns_modify _ _ (λ l, l ++ [n])). Qed.
Lemma node_push_keeping (n : N) : keeps_rel (keeping nodes) (eff_modify (E := WalkIssue) (node_push n)).
Proof. apply keeps_modify. intros s. unfold keeping. cbn. set_solver. Qed.
Lemma node_issue_keeping i : keeps_rel (keeping nodes) (eff_modify (E := WalkIssue) (node_issue i)).
Proof. apply keeps_modify. intros s. unfold keeping. reflexivity. Qed.

Lemma take_decoded_outruns (decode : Value → fallible AnyError N) key node :
  outruns nodes eq (take_decoded decode key node) (take_decoded decode key node).
Proof.
  unfold take_decoded. apply (outruns_bind _ eq); [apply outruns_lift| |intros; apply node_push_keeping].
  intros n ? <-. apply node_push_outruns.
Qed.
Lemma take_decoded_keeping (decode : Value → fallible AnyError N) key node :
  keeps_rel (keeping nodes) (take_decoded decode key node).
Proof. unfold take_decoded. keeps. apply node_push_keeping. Qed.
End lists.

Lemma take_io_keeping key node : keeps_rel (keeping nl_nodes) (take_io_node cx statics read key node).
Proof.
  unfold take_io_node, io_node_waker. keeps; [apply node_issue_keeping|apply node_push_keeping].
Qed.
Lemma take_io_outruns key node :
  outruns nl_nodes eq (take_io_node cx statics read key node) (take_io_node cx statics read key node).
Proof.
  unfold take_io_node. apply (outruns_bind _ eq); [|intros [t w] ? <-|keeps; apply node_push_keeping].
  - unfold io_node_waker. apply (outruns_bind _ eq); [apply outruns_lift| |keeps; apply node_issue_keeping].
    intros [found|e] ? <-; [by apply outruns_ret|].
    apply (outruns_bind _ eq); [by apply (outruns_modify _ _ id)|intros ? ? <-; by apply outruns_ret|keeps].
  - apply (outruns_bind _ eq); [apply outruns_lift|intros i ? <-|keeps; apply node_push_keeping].
    apply (outruns_bind _ eq); [apply outruns_lift|intros r ? <-; apply node_push_outruns|keeps; apply node_push_keeping].
Qed.

(** A list read to its end lists what any other reading of it does. *)
Lemma list_from_more {N} holder head what next c1 c2 (tk : ValueKey → Value → eff (Nodes N) WalkIssue ())
    bg1 bg2 s1 s2 u r :
  (∀ k v, outruns nl_nodes eq (tk k v) (tk k v)) → (∀ k v, keeps_rel (keeping nl_nodes) (tk k v)) →
  list_from cx read holder head what next c1 tk (mkNodes bg1 [] []) = Ret (s1, inl u) →
  list_from cx read holder head what next c2 tk (mkNodes bg2 [] []) = Ret (s2, r) → nl_nodes s2 ⊆ nl_nodes s1.
Proof. intros Ht Hk H1 H2. eapply outruns_more; [by apply list_from_outruns| |exact H1|exact H2]. done. Qed.

(** *** Containers *)

Lemma admit_same w1 w2 addr size w1' : nw_visited w1 = nw_visited w2 → nw_count w1 = nw_count w2 →
  admit_node cx read w1 addr size = inl w1' →
  match admit_node cx read w2 addr size with
  | inl w2' => nw_visited w1' = nw_visited w2' ∧ nw_count w1' = nw_count w2' | inr _ => True end.
Proof.
  unfold admit_node. intros Hv Hc. destruct (negb _); [done|]. destruct (refusal _ _ _); [done|].
  rewrite Hv. case_bool_decide; [done|]. destruct (nw_max w1 <=? nw_count w1); [done|]. intros [= <-].
  destruct (nw_max w2 <=? nw_count w2); cbn; [done|]. by rewrite Hc.
Qed.

(** Two walks at one node, whatever their caps. *)
Definition same_walk (w1 w2 : NodeWalk) : Prop := nw_visited w1 = nw_visited w2 ∧ nw_count w1 = nw_count w2.
Definition same_node (p1 p2 : NodeWalk * Value) : Prop := same_walk p1.1 p2.1 ∧ p1.2 = p2.2.

Section walks.
Context {S X : Type} (f : S → list X).

Lemma enter_outruns what w1 w2 ty addr : same_walk w1 w2 →
  outruns f same_node (eff_lift (enter_node cx read what w1 ty addr)) (eff_lift (enter_node cx read what w2 ty addr)).
Proof.
  intros [Hv Hc]. apply outruns_lift_by. intros [w1' n1] r2 H1 H2. unfold enter_node in *.
  apply fbind_inl in H1 as (size & Hs & H1). rewrite Hs in H2. cbn [fbind] in H2.
  destruct (admit_node cx read w1 addr size) as [w|] eqn:E1; [|done].
  pose proof (admit_same _ _ _ _ _ Hv Hc E1) as Ha.
  apply fbind_inl in H1 as (node & Hn & [= <- <-]).
  destruct (admit_node cx read w2 addr size) as [w'|]; [|by injection H2 as <-].
  rewrite Hn in H2. by injection H2 as <-.
Qed.

Section visits.
Context (v1 v2 : Z → Value → eff S NodeStop ()).
Hypothesis Hv : ∀ a v, outruns f eq (v1 a v) (v2 a v).
Hypothesis Hk : ∀ a v, keeps_rel (keeping f) (v1 a v).

Lemma set_loop_outruns ty fuel1 : ∀ fuel2 w1 w2 cur, same_walk w1 w2 →
  outruns f eq (set_loop cx read fuel1 ty v1 w1 cur) (set_loop cx read fuel2 ty v2 w2 cur).
Proof.
  induction fuel1 as [|fuel1 IH]; intros [|fuel2] w1 w2 cur Hw; cbn [set_loop];
    (destruct (cur =? 0); [by apply outruns_ret|]); try apply outruns_panic; [apply outruns_panic_r|].
  pose proof (λ fuel w cur, set_loop_keeps cx read (keeping f) ty v1 fuel Hk w cur) as Hl.
  apply (outruns_bind _ same_node); [by apply enter_outruns|intros [w1' n1] [w2' n2] [Hw' Hn]; cbn in *; subst n2|keeps].
  apply (outruns_bind _ eq); [apply Hv|intros ? ? <-|keeps].
  apply (outruns_bind _ eq); [apply outruns_lift|intros next ? <-; by apply IH|keeps].
Qed.
Lemma set_nodes_outruns set max1 max2 :
  outruns f eq (walk_set_nodes cx read set max1 v1) (walk_set_nodes cx read set max2 v2).
Proof.
  unfold walk_set_nodes. pose proof (λ fuel ty w cur, set_loop_keeps cx read (keeping f) ty v1 fuel Hk w cur) as Hl.
  apply (outruns_bind _ eq); [apply outruns_lift|intros ? ? <-|keeps].
  apply (outruns_bind _ eq); [apply outruns_lift|intros ? ? <-|keeps].
  apply (outruns_bind _ eq); [apply outruns_lift|intros ? ? <-|keeps]. by apply set_loop_outruns.
Qed.

Lemma table_loop_outruns ty stride ctrl max1 max2 l : ∀ i full,
  outruns f eq (table_loop cx ty stride ctrl max1 v1 i l full) (table_loop cx ty stride ctrl max2 v2 i l full).
Proof.
  pose proof (λ ty st c m l i full, table_loop_keeps cx (keeping f) ty st c m v1 l Hk i full) as Hl.
  induction l as [|c l IH]; intros i full; cbn [table_loop]; [by apply outruns_ret|].
  destruct (negb (is_full c)); [apply IH|]. destruct (full =? max1); [by intros s1 s2 s1' s2' a r Hs|].
  destruct (full =? max2); [apply outruns_throw; keeps|].
  apply (outruns_bind _ eq); [apply outruns_lift|intros ? ? <-|keeps].
  apply (outruns_bind _ eq); [apply Hv|intros ? ? <-; apply IH|keeps].
Qed.
Lemma table_buckets_outruns map t max1 max2 :
  outruns f eq (walk_table_buckets cx read map t max1 v1) (walk_table_buckets cx read map t max2 v2).
Proof.
  unfold walk_table_buckets. pose proof (λ ty st c m l i full, table_loop_keeps cx (keeping f) ty st c m v1 l Hk i full) as Hl.
  apply (outruns_bind _ eq); [apply outruns_lift|intros items ? <-|keeps].
  destruct (items =? 0); [by apply outruns_ret|].
  apply (outruns_bind _ eq); [apply outruns_lift|intros [[buckets ctrl] stride] ? <-|keeps].
  destruct (stride =? 0); [by apply outruns_ret|].
  apply (outruns_bind _ eq); [apply outruns_lift|intros ? ? <-|keeps].
  apply (outruns_bind _ eq); [apply outruns_lift|intros ? ? <-|keeps].
  apply (outruns_bind _ eq); [apply table_loop_outruns|intros ? ? <-; by apply outruns_ret|keeps].
Qed.

Lemma join_loop_outruns ty fuel1 : ∀ fuel2 w1 w2 cur, same_walk w1 w2 →
  outruns f same_walk (join_loop cx read fuel1 ty v1 w1 cur) (join_loop cx read fuel2 ty v2 w2 cur).
Proof.
  induction fuel1 as [|fuel1 IH]; intros [|fuel2] w1 w2 [cur|] Hw; cbn [join_loop];
    try apply outruns_panic; try (by apply outruns_ret); [apply outruns_panic_r|].
  pose proof (λ fuel w cur, join_loop_keeps cx read (keeping f) ty v1 fuel Hk w cur) as Hl.
  apply (outruns_bind _ same_node); [by apply enter_outruns|intros [w1' n1] [w2' n2] [Hw' Hn]; cbn in *; subst n2|keeps].
  apply (outruns_bind _ eq); [apply Hv|intros ? ? <-|keeps].
  apply (outruns_bind _ eq); [apply outruns_lift|intros next ? <-; by apply IH|keeps].
Qed.
Lemma join_queue_outruns lists max1 max2 w1 w2 queue : same_walk w1 w2 →
  outruns f same_walk (join_queue cx read lists v1 max1 w1 queue) (join_queue cx read lists v2 max2 w2 queue).
Proof.
  intros Hw. unfold join_queue. pose proof (λ fuel ty w cur, join_loop_keeps cx read (keeping f) ty v1 fuel Hk w cur) as Hl.
  apply (outruns_bind _ eq); [apply outruns_lift|intros h ? <-|keeps].
  destruct (walked_optional h); [|by apply outruns_ret].
  apply (outruns_bind _ eq); [apply outruns_lift|intros ? ? <-|keeps].
  apply (outruns_bind _ eq); [apply outruns_lift|intros ? ? <-; by apply join_loop_outruns|keeps].
Qed.
Lemma join_set_outruns set max1 max2 len : (∀ n s, f (len n s) = f s) →
  outruns f eq (walk_join_set_entries cx read set max1 len v1) (walk_join_set_entries cx read set max2 len v2).
Proof.
  intros Hlen. unfold walk_join_set_entries.
  pose proof (λ lists max w queue, join_queue_keeps cx read (keeping f) lists v1 max w queue Hk) as Hl.
  assert (∀ n, keeps_rel (keeping f) (eff_modify (E := NodeStop) (len n))).
  { intros n. apply keeps_modify. intros s. unfold keeping. by rewrite Hlen. }
  apply (outruns_bind _ eq); [apply outruns_lift|intros n ? <-|keeps].
  apply (outruns_bind _ eq); [apply (outruns_modify _ _ id); intros; apply Hlen|intros ? ? <-|keeps].
  apply (outruns_bind _ eq); [apply outruns_lift|intros lists ? <-|keeps].
  apply (outruns_bind _ same_walk); [by apply join_queue_outruns|intros w1 w2 Hw|keeps].
  apply (outruns_bind _ same_walk); [by apply join_queue_outruns|intros ? ? _; by apply outruns_ret|keeps].
Qed.
End visits.

Section entries.
Context (v1 v2 : Z → Value → Value → eff S NodeStop ()).
Hypothesis Hv : ∀ i e a, outruns f eq (v1 i e a) (v2 i e a).
Hypothesis Hk : ∀ i e a, keeps_rel (keeping f) (v1 i e a).

(** The second walk may be of the first entries alone. *)
Lemma fanout_loop_more rest l : ∀ i s1 s2 s1' s2' u r, f s1 = f s2 →
  fanout_loop cx read i (l ++ rest) v1 s1 = Ret (s1', inl u) → fanout_loop cx read i l v2 s2 = Ret (s2', r) → f s2' ⊆ f s1'.
Proof.
  pose proof (λ l i, fanout_loop_keeps cx read (keeping f) l v1 Hk i) as Hl.
  induction l as [|e l IH]; intros i s1 s2 s1' s2' u r Hs H1 H2; cbn [fanout_loop app] in *.
  { injection H2 as <- _. apply Hl in H1. unfold keeping in H1. by rewrite <- Hs. }
  apply eff_bind_Ret in H1 as [(t1 & a1 & L1 & K1)|(? & _ & [=])].
  apply eff_lift_Ret in L1 as [-> Hrole]. apply eff_bind_Ret in K1 as [(t1' & a1' & V1 & K1)|(? & _ & [=])].
  apply eff_bind_Ret in H2 as [(t2 & a2 & L2 & K2)|(x & L2 & ->)]; apply eff_lift_Ret in L2 as [-> Hrole2].
  2: { by rewrite Hrole in Hrole2. }
  rewrite Hrole in Hrole2. injection Hrole2 as <-.
  apply eff_bind_Ret in K2 as [(t2' & a2' & V2 & K2)|(x & V2 & ->)].
  - destruct (Hv _ _ _ _ _ _ _ _ _ Hs V1 V2) as [_ Ht]. by eapply IH.
  - pose proof (Hv _ _ _ _ _ _ _ _ _ Hs V1 V2) as Hm. cbn in Hm. apply Hl in K1. unfold keeping in K1. by etransitivity.
Qed.

Lemma fanout_entries_more map max1 max2 s1 s2 s1' s2' n r : f s1 = f s2 →
  walk_fanout_entries cx read map max1 v1 s1 = Ret (s1', inl n) →
  walk_fanout_entries cx read map max2 v2 s2 = Ret (s2', r) → f s2' ⊆ f s1'.
Proof.
  unfold walk_fanout_entries. intros Hs H1 H2.
  apply eff_bind_Ret in H1 as [(t1 & a & L1 & H1)|(? & _ & [=])]. apply eff_lift_Ret in L1 as [-> Ha].
  apply eff_bind_Ret in H1 as [(t1 & es & L1 & H1)|(? & _ & [=])]. apply eff_lift_Ret in L1 as [-> He].
  apply eff_bind_Ret in H1 as [(t1 & u & L1 & H1)|(? & _ & [=])]. apply eff_lift_Ret in L1 as [-> Hb].
  apply eff_bind_Ret in H1 as [(t1 & u' & F1 & H1)|(? & _ & [=])].
  destruct (Z.ltb_spec max1 (el_count es)) as [|Hmax]; [done|]. injection H1 as <- <-.
  assert (length (el_iter es) <= Z.to_nat max1)%nat as Hlen.
  { unfold el_iter. rewrite length_fmap, length_z_range. lia. }
  rewrite take_ge in F1 by done.
  assert (f s2 ⊆ f t1) as Hstart.
  { rewrite <- Hs. by eapply (fanout_loop_keeps cx read (keeping f)). }
  apply eff_bind_Ret in H2 as [(t2 & a2 & L2 & H2)|(? & L2 & ->)]; apply eff_lift_Ret in L2 as [-> Ha2]; [|done].
  rewrite Ha in Ha2. injection Ha2 as <-.
  apply eff_bind_Ret in H2 as [(t2 & es2 & L2 & H2)|(? & L2 & ->)]; apply eff_lift_Ret in L2 as [-> He2]; [|done].
  rewrite He in He2. injection He2 as <-.
  apply eff_bind_Ret in H2 as [(t2 & u2 & L2 & H2)|(? & L2 & ->)]; apply eff_lift_Ret in L2 as [-> Hb2]; [|done].
  rewrite <- (take_drop (Z.to_nat max2) (el_iter es)) in F1.
  apply eff_bind_Ret in H2 as [(t2 & u3 & F2 & H2)|(? & F2 & ->)].
  - assert (s2' = t2) as -> by (destruct (max2 <? el_count es); by injection H2).
    exact (fanout_loop_more _ _ _ _ _ _ _ _ _ Hs F1 F2).
  - exact (fanout_loop_more _ _ _ _ _ _ _ _ _ Hs F1 F2).
Qed.
End entries.
End walks.

(** *** Queues *)

Lemma listed_elem {N} (s : Nodes N) r x : x ∈ (listed s r).1.1 ↔ x ∈ nl_nodes s.
Proof. destruct r; cbn; [apply elem_of_reverse|done]. Qed.

Lemma listed_done {N} (s : Nodes N) r : (listed s r).2 = [] → ∃ u, r = inl u.
Proof. destruct r; [eauto|done]. Qed.

Ltac unread H :=
  apply outcome_bind_Ret in H as ([? [?|?]] & _ & H); [|injection H as <- <-; left; by eexists];
  apply outcome_bind_Ret in H as ([?|?] & ? & H); [|injection H as <- <-; left; by eexists].
Ltac past_reading H := apply outcome_bind_Ret in H as ([? ?] & ? & H).

(** What an observation of a queue listed, and what no issue says of its walk. *)
Lemma semaphore_inv key bg bg' q : observe_semaphore_queue cx statics read key bg = Ret (bg', q) →
  (∃ i, q = queue_unread key i) ∨
  ∃ sem bg1 s r, read_keyed cx read key = Ret (inl sem) ∧
    observe_queue_nodes cx statics read sem (mkNodes bg1 [] []) = Ret (s, r) ∧
    (∀ x, x ∈ qo_waiters q ↔ x ∈ nl_nodes s) ∧ (qo_issues q = [] → ∃ u, r = inl u).
Proof.
  unfold observe_semaphore_queue. intros Hr. unread Hr. do 4 past_reading Hr.
  destruct (listed _ _) as [[ws fin] i4] eqn:El. injection Hr as _ <-. right. do 4 eexists.
  split; [done|]. split; [done|]. cbn. split.
  - intros x. match type of El with listed ?s ?r = _ => rewrite <- (listed_elem s r), El end. done.
  - intros [_ [_ [_ ->]%app_nil]%app_nil]%app_nil. eapply listed_done. by rewrite El.
Qed.
Lemma notify_inv key bg bg' o : observe_notify cx statics read key bg = Ret (bg', o) →
  (∃ i, o = notify_unread key i) ∨
  ∃ v bg1 s r, read_keyed cx read key = Ret (inl v) ∧
    observe_notify_nodes cx statics read v (mkNodes bg1 [] []) = Ret (s, r) ∧
    (∀ x, x ∈ no_waiters o ↔ x ∈ nl_nodes s) ∧ (no_issues o = [] → ∃ u, r = inl u).
Proof.
  unfold observe_notify. intros Hr. unread Hr. do 3 past_reading Hr.
  destruct (listed _ _) as [[ws fin] i4] eqn:El. injection Hr as _ <-. right. do 4 eexists.
  split; [done|]. split; [done|]. cbn. split.
  - intros x. match type of El with listed ?s ?r = _ => rewrite <- (listed_elem s r), El end. done.
  - intros [_ [_ ->]%app_nil]%app_nil. eapply listed_done. by rewrite El.
Qed.

(** A queue observed without issue lists what any other observation of it does. *)
Lemma semaphore_more key bg1 bg2 bg1' bg2' q1 q2 :
  observe_semaphore_queue cx statics read key bg1 = Ret (bg1', q1) → qo_issues q1 = [] →
  observe_semaphore_queue cx statics read key bg2 = Ret (bg2', q2) → qo_waiters q2 ⊆ qo_waiters q1.
Proof.
  intros [(i & ->)|(v & b1 & s1 & r1 & V1 & N1 & X1 & I1)]%semaphore_inv Hi; [done|].
  intros [(i & ->)|(v2 & b2 & s2 & r2 & V2 & N2 & X2 & _)]%semaphore_inv; [apply list_subseteq_nil|].
  rewrite V1 in V2. injection V2 as <-. destruct (I1 Hi) as [u ->]. intros x. rewrite X1, X2.
  eapply list_from_more; [| |exact N1|exact N2]; [apply take_decoded_outruns|apply take_decoded_keeping].
Qed.
Lemma notify_more key bg1 bg2 bg1' bg2' o1 o2 :
  observe_notify cx statics read key bg1 = Ret (bg1', o1) → no_issues o1 = [] →
  observe_notify cx statics read key bg2 = Ret (bg2', o2) → no_waiters o2 ⊆ no_waiters o1.
Proof.
  intros [(i & ->)|(v & b1 & s1 & r1 & V1 & N1 & X1 & I1)]%notify_inv Hi; [done|].
  intros [(i & ->)|(v2 & b2 & s2 & r2 & V2 & N2 & X2 & _)]%notify_inv; [apply list_subseteq_nil|].
  rewrite V1 in V2. injection V2 as <-. destruct (I1 Hi) as [u ->]. intros x. rewrite X1, X2.
  eapply list_from_more; [| |exact N1|exact N2]; [apply take_decoded_outruns|apply take_decoded_keeping].
Qed.

(** The waiters of a registration's observation. *)
Definition parked (o : Observed IoResourceInfo) : list IoWaiterInfo :=
  match ob_value o with Some r => io_waiters r | None => [] end.

Lemma registration_inv key bg bg' o : observe_io_registration cx statics read key bg = Ret (bg', o) →
  (parked o = [] ∧ ob_issues o ≠ []) ∨
  ∃ io ws bg1 rd wr i1 i2 s r, read_keyed cx read key = Ret (inl io) ∧
    o_at cx read ScheduledIoWaiters io = Ret (inl ws) ∧
    direction_reading cx statics read key ws IoReaderWaker Reader = Ret (rd, i1) ∧
    direction_reading cx statics read key ws IoWriterWaker Writer = Ret (wr, i2) ∧
    observe_io_waiter_list cx statics read ws (mkNodes bg1 [] []) = Ret (s, r) ∧
    parked o = rd ++ wr ++ nl_nodes s ∧ (ob_issues o = [] → ∃ u, r = inl u).
Proof.
  unfold observe_io_registration. intros Hr.
  apply outcome_bind_Ret in Hr as ([? [?|?]] & _ & Hr); [|injection Hr as <- <-; by left].
  apply outcome_bind_Ret in Hr as ([io|?] & Hk & Hr); [|injection Hr as <- <-; by left].
  apply outcome_bind_Ret in Hr as (? & _ & Hr). apply outcome_bind_Ret in Hr as (? & _ & Hr).
  apply outcome_bind_Ret in Hr as ([ws|?] & Hw & Hr); [|injection Hr as <- <-; by left].
  apply outcome_bind_Ret in Hr as ([rd i1] & H1 & Hr). apply outcome_bind_Ret in Hr as ([wr i2] & H2 & Hr).
  apply outcome_bind_Ret in Hr as ([st r] & Hl & [= _ <-]). right. eexists io, ws, _, rd, wr, i1, i2, st, r.
  do 6 (split; [done|]). intros Hi. destruct r; [eauto|].
  exfalso. revert Hi. clear. destruct i1, i2, (nl_issues st); done.
Qed.
Lemma registration_more key bg1 bg2 bg1' bg2' o1 o2 :
  observe_io_registration cx statics read key bg1 = Ret (bg1', o1) → ob_issues o1 = [] →
  observe_io_registration cx statics read key bg2 = Ret (bg2', o2) → parked o2 ⊆ parked o1.
Proof.
  intros [(_ & Hn)|(v1 & w1 & b1 & rd1 & wr1 & i1 & j1 & s1 & r1 & V1 & O1 & R1 & W1 & N1 & -> & I1)]%registration_inv Hi; [done|].
  intros [(-> & _)|(v2 & w2 & b2 & rd2 & wr2 & i2 & j2 & s2 & r2 & V2 & O2 & R2 & W2 & N2 & -> & _)]%registration_inv;
    [apply list_subseteq_nil|].
  rewrite V1 in V2. injection V2 as <-. rewrite O1 in O2. injection O2 as <-. rewrite R1 in R2. injection R2 as <- <-.
  rewrite W1 in W2. injection W2 as <- <-. destruct (I1 Hi) as [u ->].
  assert (nl_nodes s2 ⊆ nl_nodes s1); [|set_solver].
  eapply list_from_more; [| |exact N1|exact N2]; [apply take_io_outruns|apply take_io_keeping].
Qed.

(** The waker a channel's observation found. *)
Definition channel_waiter (o : ChannelObservation) : option Z := w ← ch_waker o; waker_task w.

Lemma channel_inv key bg bg' o : observe_channel cx statics read key bg = Ret (bg', o) →
  (ch_waker o = None ∧ ch_issues o ≠ []) ∨
  ∃ v i, read_keyed cx read key = Ret (inl v) ∧
    waker_reading cx statics read key ChanRxWaker v = Ret (ch_waker o, i).
Proof.
  unfold observe_channel. intros Hr.
  apply outcome_bind_Ret in Hr as ([? [?|?]] & _ & Hr); [|injection Hr as <- <-; by left].
  apply outcome_bind_Ret in Hr as ([v|?] & Hk & Hr); [|injection Hr as <- <-; by left].
  do 8 past_reading Hr. apply outcome_bind_Ret in Hr as ([? [? ?]] & _ & [= _ <-]). right. by eauto.
Qed.
Lemma channel_more key bg1 bg2 bg1' bg2' o1 o2 t :
  observe_channel cx statics read key bg1 = Ret (bg1', o1) → ch_issues o1 = [] →
  observe_channel cx statics read key bg2 = Ret (bg2', o2) → channel_waiter o2 = Some t → channel_waiter o1 = Some t.
Proof.
  unfold channel_waiter.
  intros [[_ Hn]|(v1 & i1 & V1 & W1)]%channel_inv Hi; [done|].
  intros [[-> _]|(v2 & i2 & V2 & W2)]%channel_inv; [done|].
  rewrite V1 in V2. injection V2 as <-. rewrite W1 in W2. by injection W2 as <- _.
Qed.

(** *** What a scan collects *)

Section collecting.
Context {A : Type}.
Abbreviation items := (snd : ScanBudget * list A → list A).

Lemma visit_node_outruns : outruns items eq charge_visit_node charge_visit_node.
Proof.
  intros s1 s2 s1' s2' [] r Hs. unfold charge_visit_node. destruct (charge_referent s1.1) as [[] b1]; [|done].
  intros [= <-]. destruct (charge_referent s2.1) as [[] b2]; intros [= <- <-]; cbn; [done|by rewrite Hs].
Qed.
Lemma visit_node_keeping : keeps_rel (keeping items) (charge_visit_node (A := A)).
Proof.
  intros s s' r. unfold charge_visit_node, keeping. destruct (charge_referent s.1). intros [= <- _]. cbn. reflexivity.
Qed.
Lemma collect_outruns a : outruns items eq (collect a) (collect a).
Proof. by apply (outruns_modify _ _ (λ l, l ++ [a])). Qed.
Lemma collect_keeping a : keeps_rel (keeping items) (collect (A := A) a).
Proof. apply keeps_modify. intros s. unfold keeping. cbn. set_solver. Qed.

Lemma collected_more {R1 R2} (m1 : eff (ScanBudget * list A) NodeStop R1) (m2 : eff (ScanBudget * list A) NodeStop R2)
    Q bg1 bg2 bg1' bg2' l1 l2 a r :
  outruns items Q m1 m2 → collected m1 bg1 = Ret (bg1', (l1, inl a)) → collected m2 bg2 = Ret (bg2', (l2, r)) → l2 ⊆ l1.
Proof.
  intros Hm. unfold collected. intros ([s1 r1] & H1 & [= <- <- ->])%outcome_bind_Ret.
  intros ([s2 r2] & H2 & [= <- <- ->])%outcome_bind_Ret.
  exact (outruns_more _ _ _ _ (bg1, []) (bg2, []) _ _ _ _ Hm eq_refl H1 H2).
Qed.
End collecting.
#[local] Hint Resolve visit_node_keeping collect_keeping : keeps.

Lemma set_children_more set max1 max2 bg1 bg2 bg1' bg2' l1 l2 u r :
  set_children cx read set max1 bg1 = Ret (bg1', (l1, inl u)) →
  set_children cx read set max2 bg2 = Ret (bg2', (l2, r)) → l2 ⊆ l1.
Proof.
  apply (collected_more _ _ eq), set_nodes_outruns.
  - intros addr v. unfold set_visit. apply (outruns_bind _ eq); [apply visit_node_outruns|intros ? ? <-|keeps].
    apply (outruns_bind _ eq); [apply outruns_lift|intros [c|] ? <-|keeps]; [apply collect_outruns|by apply outruns_ret].
  - intros addr v. unfold set_visit. keeps.
Qed.
Lemma table_buckets_more map t max1 max2 bg1 bg2 bg1' bg2' l1 l2 u r :
  table_buckets cx read map t max1 bg1 = Ret (bg1', (l1, inl u)) →
  table_buckets cx read map t max2 bg2 = Ret (bg2', (l2, r)) → l2 ⊆ l1.
Proof.
  apply (collected_more _ _ eq), table_buckets_outruns.
  - intros i v. unfold bucket_visit. apply (outruns_bind _ eq); [apply visit_node_outruns|intros ? ? <-|keeps].
    apply collect_outruns.
  - intros i v. unfold bucket_visit. keeps.
Qed.
Lemma fanout_children_more map max1 max2 bg1 bg2 bg1' bg2' l1 l2 n r :
  fanout_children cx read map max1 bg1 = Ret (bg1', (l1, inl n)) →
  fanout_children cx read map max2 bg2 = Ret (bg2', (l2, r)) → l2 ⊆ l1.
Proof.
  unfold fanout_children, collected. intros ([s1 r1] & H1 & [= <- <- ->])%outcome_bind_Ret.
  intros ([s2 r2] & H2 & [= <- <- ->])%outcome_bind_Ret.
  eapply (fanout_entries_more snd); [| | |exact H1|exact H2].
  - intros i e v. unfold fanout_visit. apply (outruns_bind _ eq); [apply visit_node_outruns|intros ? ? <-|keeps].
    apply collect_outruns.
  - intros i e v. unfold fanout_visit. keeps.
  - done.
Qed.
Lemma join_entries_more set max1 max2 bg1 bg2 bg1' bg2' l1 l2 n1 n2 u r :
  join_entries cx read set max1 bg1 = Ret (bg1', (l1, n1, inl u)) →
  join_entries cx read set max2 bg2 = Ret (bg2', (l2, n2, r)) → l2 ⊆ l1.
Proof.
  unfold join_entries. intros ([s1 r1] & H1 & [= <- <- <- ->])%outcome_bind_Ret.
  intros ([s2 r2] & H2 & [= <- <- <- ->])%outcome_bind_Ret.
  set (f := λ s : ScanBudget * list (Z * Z) * Z, s.1.2).
  set (m := λ addr entry, (_ ←% charge_visit_node;
             task ←% eff_lift (map_err NsFailed (join_set_entry_task cx entry));
             collect (addr, task)) : eff (ScanBudget * list (Z * Z)) NodeStop ()).
  assert (∀ addr entry, keeps_rel (keeping snd) (m addr entry)) as Hm by (intros; unfold m; keeps).
  assert (∀ addr entry, outruns snd eq (m addr entry) (m addr entry)) as Ho.
  { intros addr entry. unfold m. apply (outruns_bind _ eq); [apply visit_node_outruns|intros ? ? <-|keeps].
    apply (outruns_bind _ eq); [apply outruns_lift|intros t ? <-; apply collect_outruns|keeps]. }
  eapply (outruns_more f); [apply join_set_outruns| |exact H1|exact H2]; [| |done|done].
  - intros addr entry t1 t2 t1' t2' a r' Ht. unfold join_visit. fold (m addr entry).
    intros ([c1 x1] & C1 & [= <- ->])%outcome_bind_Ret ([c2 x2] & C2 & [= <- ->])%outcome_bind_Ret.
    exact (Ho _ _ _ _ _ _ _ _ Ht C1 C2).
  - intros addr entry t t' r'. unfold join_visit. fold (m addr entry).
    intros ([c x] & C & [= <- _])%outcome_bind_Ret. by apply Hm in C.
Qed.
End seen_all.

(** ** What a scan leaves behind it *)

(** A spent visit budget has been reported. *)
Definition spent_said (s : Scanner) : Prop := sc_visits_spent s = true → sc_complete s = false.

(** The sink, the origins and the queues grow; the budget is spent within its limits; and a
    scan is complete exactly as long as no issue is handed over. *)
Record moves (s s' : Scanner) : Prop := mkMoves {
  mv_spends : spends (sc_budget s) (sc_budget s');
  mv_seen : sc_seen s ⊆ sc_seen s';
  mv_queues : sc_queues s ⊆ sc_queues s';
  mv_complete : sc_complete s' = true → sc_complete s = true;
  mv_sink : ∃ new, sc_sink s' = sc_sink s ++ new ∧
    (spent_said s → spent_said s' ∧ sc_complete s' = sc_complete s && bool_decide (sunk_issues new = []))
}.

Lemma sunk_issues_app l l' : sunk_issues (l ++ l') = sunk_issues l ++ sunk_issues l'.
Proof. apply omap_app. Qed.
Lemma sunk_references_app l l' : sunk_references (l ++ l') = sunk_references l ++ sunk_references l'.
Proof. apply omap_app. Qed.

#[export] Instance moves_preorder : PreOrder moves.
Proof.
  split.
  - intros s. split; [done..|]. exists []. rewrite app_nil_r. split; [done|]. intros Hs.
    split; [done|]. by rewrite andb_true_r.
  - intros s1 s2 s3 [B1 E1 Q1 K1 (n1 & S1 & C1)] [B2 E2 Q2 K2 (n2 & S2 & C2)].
    split; [by etransitivity|set_solver|set_solver|by auto|]. exists (n1 ++ n2).
    rewrite S2, S1, <- app_assoc. split; [done|]. intros Hs. destruct (C1 Hs) as [H1 Hc1].
    destruct (C2 H1) as [H2 Hc2]. split; [done|]. rewrite Hc2, Hc1, sunk_issues_app, <- andb_assoc. f_equal.
    by destruct (sunk_issues n1), (sunk_issues n2).
Qed.

(** A step that leaves the sink and its account alone. *)
Lemma moves_quiet s s' : spends (sc_budget s) (sc_budget s') → sc_seen s ⊆ sc_seen s' →
  sc_queues s ⊆ sc_queues s' → sc_sink s' = sc_sink s → sc_complete s' = sc_complete s →
  sc_visits_spent s' = sc_visits_spent s → moves s s'.
Proof.
  intros Hb Hs Hq Hk Hc Hv. split; [done..|congruence|]. exists []. rewrite app_nil_r. split; [done|].
  unfold spent_said. rewrite Hc, Hv, andb_true_r. done.
Qed.
Lemma keeps_quiet {E} g : (∀ s, spends (sc_budget s) (sc_budget (g s)) ∧ sc_seen s ⊆ sc_seen (g s) ∧
    sc_queues s ⊆ sc_queues (g s) ∧ sc_sink (g s) = sc_sink s ∧ sc_complete (g s) = sc_complete s ∧
    sc_visits_spent (g s) = sc_visits_spent s) →
  keeps_rel moves (eff_modify (E := E) g).
Proof. intros Hg. apply keeps_modify. intros s. destruct (Hg s) as (?&?&?&?&?&?). by apply moves_quiet. Qed.

Lemma report_moves i : keeps_rel moves (report i).
Proof.
  apply keeps_modify. intros s. split; [done..|]. exists [SunkIssue i]. split; [done|]. intros _.
  split; [done|]. cbn. by rewrite andb_false_r.
Qed.
Lemma emit_moves r : keeps_rel moves (eff_modify (E := Empty_set) (sink (SunkReference r))).
Proof.
  apply keeps_modify. intros s. split; [done..|]. exists [SunkReference r]. split; [done|]. intros Hs.
  split; [done|]. cbn. by rewrite andb_true_r.
Qed.
Lemma path_moves f : keeps_rel moves (eff_modify (E := Empty_set) (set_path f)).
Proof. apply keeps_quiet. done. Qed.
Lemma on_budget_moves {A} (m : ScanBudget → outcome (ScanBudget * A)) :
  (∀ bg bg' a, m bg = Ret (bg', a) → spends bg bg') → keeps_rel moves (on_budget m).
Proof.
  intros Hm s s' r. unfold on_budget. destruct (m (sc_budget s)) as [[bg a]|] eqn:E; [|done].
  intros [= <- _]. apply moves_quiet; try done. by eapply Hm.
Qed.
Lemma on_memos_moves {A} (m : Memos → outcome (Memos * A)) : keeps_rel moves (on_memos m).
Proof.
  intros s s' r. unfold on_memos. destruct (m (sc_memos s)) as [[memos a]|] eqn:E; [|done].
  intros [= <- _]. by apply moves_quiet.
Qed.
Lemma charging_moves {A} (m : ScanBudget → outcome (ScanBudget * A)) :
  charging m → keeps_rel moves (on_budget m).
Proof. intros Hm. apply on_budget_moves. intros. apply charges_spends. by eapply Hm. Qed.
Lemma lifted_moves {A} (m : outcome A) : keeps_rel moves (lifted m).
Proof. apply keeps_lift. typeclasses eauto. Qed.
Lemma scan_limits_moves : keeps_rel moves scan_limits.
Proof. apply keeps_get. typeclasses eauto. Qed.
Lemma enter_seen_moves k : keeps_rel moves (enter_seen k).
Proof. unfold enter_seen. keeps. apply keeps_quiet. set_solver. Qed.
Lemma enter_queue_moves k : keeps_rel moves (enter_queue k).
Proof. unfold enter_queue. keeps. apply keeps_quiet. set_solver. Qed.
Lemma visit_refused_moves key : keeps_rel moves (visit_refused key).
Proof.
  intros s s' r. unfold visit_refused. cbn. destruct (sc_visits_spent s) eqn:Ev; intros [= <- _].
  - split; [done..|]. exists []. rewrite app_nil_r. split; [done|]. intros Hs. rewrite (Hs Ev). done.
  - split; [done..|]. eexists [_]. split; [done|]. intros Hs. split; [done|]. by rewrite andb_false_r.
Qed.
#[export] Hint Resolve report_moves emit_moves path_moves on_memos_moves lifted_moves scan_limits_moves
  enter_seen_moves enter_queue_moves visit_refused_moves : keeps.

Lemma report_all_moves l : keeps_rel moves (report_all l).
Proof. unfold report_all. keeps. Qed.
#[export] Hint Resolve report_all_moves : keeps.

Section scanner.
Context `{Demangler} `{StreamObservers} {T : Type} `{!Target T}.
Context (cx : ChainCtx T) (statics : list (StaticRole * StaticDef)) (read : ReadContext) (rt : option TaskAddr).

Lemma visit_node_keeps {A} : keeps_rel (budgets fst) (charge_visit_node (A := A)).
Proof.
  intros s s' r. unfold charge_visit_node. pose proof (charge_referent_charges s.1) as Hc.
  destruct (charge_referent s.1) as [ok bg]. by intros [= <- _].
Qed.
Lemma collect_keeps {A} (a : A) : keeps_rel (budgets fst) (collect a).
Proof. by apply keeps_budgets. Qed.
#[local] Hint Resolve visit_node_keeps collect_keeps : keeps.

Lemma collected_charging {A R} (m : eff (ScanBudget * list A) NodeStop R) :
  keeps_rel (budgets fst) m → charging (collected m).
Proof.
  intros Hm bg bg' a. unfold collected. intros ([s r] & Hr & [= <- _])%outcome_bind_Ret. by apply Hm in Hr.
Qed.
Lemma set_children_charging set max : charging (set_children cx read set max).
Proof. apply collected_charging, set_nodes_keeps; [typeclasses eauto|]. intros. unfold set_visit. keeps. Qed.
Lemma fanout_children_charging map max : charging (fanout_children cx read map max).
Proof. apply collected_charging, fanout_entries_keeps; [typeclasses eauto|]. intros. unfold fanout_visit. keeps. Qed.
Lemma table_buckets_charging map t max : charging (table_buckets cx read map t max).
Proof. apply collected_charging, table_buckets_keeps; [typeclasses eauto|]. intros. unfold bucket_visit. keeps. Qed.
Lemma join_entries_charging set max : charging (join_entries cx read set max).
Proof.
  intros bg bg' a. unfold join_entries. intros ([s r] & Hr & [= <- _])%outcome_bind_Ret.
  apply (join_set_keeps cx read (budgets (λ s, s.1.1))) in Hr; [done| |].
  - intros n s1. unfold budgets. done.
  - intros addr entry s1 s1' r1. unfold join_visit.
    intros ([c r'] & Hc & [= <- _])%outcome_bind_Ret. cbn. eapply (_ : keeps_rel (budgets fst) _). exact Hc.
    Unshelve. keeps.
Qed.

Lemma is_inert_moves ty : keeps_rel moves (is_inert cx ty).
Proof. apply on_memos_moves. Qed.
Lemma report_named_moves v key kind detail : keeps_rel moves (report_named cx v key kind detail).
Proof. unfold report_named. keeps. Qed.
Lemma reference_moves target source from : keeps_rel moves (reference rt target source from).
Proof. unfold reference. keeps. Qed.
#[local] Hint Resolve is_inert_moves report_named_moves reference_moves : keeps.
Lemma references_moves tasks source from : keeps_rel moves (references rt tasks source from).
Proof. unfold references. keeps. Qed.
#[local] Hint Resolve references_moves : keeps.
Lemma channel_reference_moves chan key : keeps_rel moves (channel_reference cx statics read rt chan key).
Proof. unfold channel_reference. keeps. apply charging_moves, channel_charging. Qed.
Lemma waker_reference_moves w key : keeps_rel moves (waker_reference rt w key).
Proof. unfold waker_reference. keeps. Qed.
#[local] Hint Resolve channel_reference_moves waker_reference_moves : keeps.

Lemma memo_moves {E} m : keeps_rel moves (eff_modify (E := E) (set_memos m)).
Proof. by apply keeps_quiet. Qed.
#[local] Hint Resolve memo_moves : keeps.

Lemma resource_moves v key : keeps_rel moves (resource cx statics read rt v key).
Proof.
  unfold resource. keeps.
  - apply charging_moves, semaphore_charging.
  - apply charging_moves, registration_charging.
  - apply charging_moves. intros bg bg' x.
    intros ([[memo bg1] [tasks iss]] & Hw%waiter_tasks_charging & [= <- _])%outcome_bind_Ret. done.
Qed.

Lemma node_stop_moves at_ stop : keeps_rel moves (node_stop at_ stop).
Proof. unfold node_stop. keeps. Qed.
#[local] Hint Resolve node_stop_moves : keeps.
Lemma stopped_moves {R} at_ (r : R + NodeStop) : keeps_rel moves (stopped at_ r).
Proof. unfold stopped. keeps. Qed.
Lemma push_moves st : keeps_rel moves (push_path st).
Proof. unfold push_path. keeps. Qed.
Lemma pop_moves : keeps_rel moves pop_path.
Proof. unfold pop_path. keeps. Qed.
#[local] Hint Resolve stopped_moves push_moves pop_moves resource_moves : keeps.

Lemma join_set_moves set key : keeps_rel moves (join_set cx read rt set key).
Proof. unfold join_set. keeps. apply charging_moves, join_entries_charging. Qed.
#[local] Hint Resolve join_set_moves : keeps.

Section descent.
Context (scan : Value → Z → Frame → scanning ()).
Hypothesis Hscan : ∀ v depth frame, keeps_rel moves (scan v depth frame).
#[local] Hint Resolve Hscan : keeps.

Lemma root_moves v frame : keeps_rel moves (root scan v frame).
Proof. unfold root. keeps. Qed.
#[local] Hint Resolve root_moves : keeps.
Lemma step_part_moves at_ st depth frame : keeps_rel moves (step_part cx read scan at_ st depth frame).
Proof. unfold step_part. keeps. Qed.
#[local] Hint Resolve step_part_moves : keeps.
Lemma scan_members_moves v depth frame : keeps_rel moves (scan_members cx read scan v depth frame).
Proof. unfold scan_members, scan_member. keeps. Qed.
#[local] Hint Resolve scan_members_moves : keeps.
Lemma coroutine_moves v key states depth frame : keeps_rel moves (coroutine cx read scan v key states depth frame).
Proof. unfold coroutine, scan_locals, report_uncertain. keeps. Qed.
Lemma adapter_moves v key frame : keeps_rel moves (adapter cx read scan v key frame).
Proof.
  unfold adapter, access_memo, follow. keeps. apply on_budget_moves. intros bg bg' x.
  pose proof (charge_referent_charges bg) as Hc. destruct (charge_referent bg) as [ok bg1].
  intros [= <- _]. by apply charges_spends.
Qed.
Lemma nested_roots_moves key children frame : keeps_rel moves (nested_roots scan key children frame).
Proof. unfold nested_roots. keeps. Qed.
#[local] Hint Resolve coroutine_moves adapter_moves nested_roots_moves : keeps.
Lemma scan_set_moves set key frame : keeps_rel moves (scan_set cx read scan set key frame).
Proof. unfold scan_set. keeps. apply charging_moves, set_children_charging. Qed.
Lemma fanout_moves map key frame : keeps_rel moves (fanout cx read scan map key frame).
Proof. unfold fanout. keeps. apply charging_moves, fanout_children_charging. Qed.
Lemma scan_table_moves map key t depth frame : keeps_rel moves (scan_table cx read scan map key t depth frame).
Proof. unfold scan_table. keeps. apply charging_moves, table_buckets_charging. Qed.
Lemma future_origin_moves key f depth frame : keeps_rel moves (future_origin cx key f depth frame).
Proof. unfold future_origin. keeps. Qed.
Lemma scan_class_moves v key depth frame : keeps_rel moves (scan_class cx read scan v key depth frame).
Proof. unfold scan_class. keeps. Qed.
#[local] Hint Resolve scan_set_moves fanout_moves scan_table_moves future_origin_moves scan_class_moves : keeps.
Lemma once_moves key depth k : keeps_rel moves k → keeps_rel moves (once key depth k).
Proof. intros Hk. unfold once. keeps. Qed.
Lemma scan_storage_moves v key record depth frame :
  keeps_rel moves (scan_storage cx statics read rt scan v key record depth frame).
Proof.
  unfold scan_storage. destruct (storage_of record); [|destruct k| | | |];
    try (apply once_moves; by eauto with keeps); keeps.
Qed.
Lemma scan_value_moves v depth frame : keeps_rel moves (scan_value cx statics read rt scan v depth frame).
Proof.
  unfold scan_value. keeps; [|apply scan_storage_moves].
  apply on_budget_moves. intros bg bg' x. pose proof (charge_visit_spends bg) as Hc.
  destruct (charge_visit bg) as [ok bg1]. by intros [= <- _].
Qed.
End descent.

Lemma scan_within_moves ex fuel : (∀ v depth frame, keeps_rel moves (ex v depth frame)) →
  ∀ v depth frame, keeps_rel moves (scan_within cx statics read rt ex fuel v depth frame).
Proof.
  intros Hex. induction fuel as [|fuel IH]; cbn [scan_within]; [done|]. intros. by apply scan_value_moves.
Qed.
Lemma scan_root_moves v bg : keeps_rel moves (scan_root cx statics read rt v bg).
Proof. apply root_moves. intros. apply scan_within_moves. intros. apply keeps_panic. Qed.
End scanner.

(** ** The path *)

Definition same_path (s s' : Scanner) : Prop := sc_path s' = sc_path s.
#[export] Instance same_path_preorder : PreOrder same_path.
Proof. split; [done|]. intros s1 s2 s3 H1 H2. unfold same_path in *. congruence. Qed.

(** What takes the path's last step off. *)
Definition pops (m : scanning ()) : Prop := ∀ s s' r, m s = Ret (s', r) → sc_path s' = removelast (sc_path s).

Lemma pops_pop : pops pop_path.
Proof. by intros s s' r [= <- _]. Qed.
Lemma pops_bind {A} (m : scanning A) f : keeps_rel same_path m → (∀ a, pops (f a)) → pops (eff_bind m f).
Proof.
  intros Hm Hf s s' r Hr. apply eff_bind_Ret in Hr as [(s1 & a & H1 & H2)|([] & _)].
  apply Hm in H1. apply Hf in H2. by rewrite H2, H1.
Qed.
Lemma bracket_path st k : pops k → keeps_rel same_path (eff_bind (push_path st) (λ _, k)).
Proof.
  intros Hk s s' r Hr. apply eff_bind_Ret in Hr as [(s1 & a & [= <- <-] & H2)|([] & _)].
  apply Hk in H2. unfold same_path. rewrite H2. cbn. apply removelast_last.
Qed.

Lemma keeps_path {E} g : (∀ s, sc_path (g s) = sc_path s) → keeps_rel same_path (eff_modify (E := E) g).
Proof. intros Hg. apply keeps_modify. intros s. apply Hg. Qed.
Lemma on_budget_path {A} (m : ScanBudget → outcome (ScanBudget * A)) : keeps_rel same_path (on_budget m).
Proof. intros s s' r. unfold on_budget. destruct (m (sc_budget s)) as [[bg a]|]; [|done]. by intros [= <- _]. Qed.
Lemma on_memos_path {A} (m : Memos → outcome (Memos * A)) : keeps_rel same_path (on_memos m).
Proof. intros s s' r. unfold on_memos. destruct (m (sc_memos s)) as [[bg a]|]; [|done]. by intros [= <- _]. Qed.
Lemma lifted_path {A} (m : outcome A) : keeps_rel same_path (lifted m).
Proof. apply keeps_lift. typeclasses eauto. Qed.
Lemma report_path i : keeps_rel same_path (report i).
Proof. by apply keeps_path. Qed.

Section paths.
Context `{Demangler} `{StreamObservers} {T : Type} `{!Target T}.
Context (cx : ChainCtx T) (statics : list (StaticRole * StaticDef)) (read : ReadContext) (rt : option TaskAddr).
#[local] Hint Resolve on_budget_path on_memos_path lifted_path report_path pops_pop : keeps.
#[local] Hint Extern 2 (keeps_rel same_path (eff_modify _)) => by apply keeps_path : keeps.

Ltac paths :=
  lazymatch goal with
  | |- ∀ _, _ => intros ?; paths
  | |- keeps_rel same_path (eff_bind (push_path _) _) => apply bracket_path; paths
  | |- pops (eff_bind _ _) => apply pops_bind; paths
  | |- keeps_rel _ (match ?x with _ => _ end) => destruct x; paths
  | |- keeps_rel _ (eff_bind _ _) => apply keeps_bind; [typeclasses eauto| |]; paths
  | |- keeps_rel _ (eff_each _ _) => apply keeps_each; [typeclasses eauto|]; paths
  | |- _ => eauto with keeps typeclass_instances
  end.

Lemma resource_path v key : keeps_rel same_path (resource cx statics read rt v key).
Proof.
  unfold resource, channel_reference, waker_reference, references, reference, report_all, enter_queue. paths.
Qed.
Lemma join_set_path set key : keeps_rel same_path (join_set cx read rt set key).
Proof. unfold join_set, scan_limits, node_stop, reference. paths. Qed.

Section descent.
Context (scan : Value → Z → Frame → scanning ()).
Hypothesis Hscan : ∀ v depth frame, keeps_rel same_path (scan v depth frame).
#[local] Hint Resolve Hscan resource_path join_set_path : keeps.

Lemma root_path v frame : keeps_rel same_path (root scan v frame).
Proof. unfold root, enter_seen. paths. Qed.
#[local] Hint Resolve root_path : keeps.
Lemma step_part_path at_ st depth frame : keeps_rel same_path (step_part cx read scan at_ st depth frame).
Proof. unfold step_part. paths. Qed.
#[local] Hint Resolve step_part_path : keeps.
Lemma scan_members_path v depth frame : keeps_rel same_path (scan_members cx read scan v depth frame).
Proof. unfold scan_members, scan_member. paths. Qed.
#[local] Hint Resolve scan_members_path : keeps.
Lemma coroutine_path v key states depth frame : keeps_rel same_path (coroutine cx read scan v key states depth frame).
Proof. unfold coroutine, scan_locals, report_uncertain, report_named. paths. Qed.
Lemma follow_path future selected frame : keeps_rel same_path (follow scan future selected frame).
Proof.
  unfold follow. intros s s' r Hr. apply eff_bind_Ret in Hr as [(s1 & n & [= <- <-] & Hr)|([] & _)].
  apply eff_bind_Ret in Hr as [(s2 & u & [= <- <-] & Hr)|([] & _)].
  apply eff_bind_Ret in Hr as [(s3 & u' & Hr%root_path & [= <- _])|([] & _)].
  unfold same_path in *. cbn in *. rewrite Hr. apply take_app_length.
Qed.
#[local] Hint Resolve follow_path : keeps.
Lemma adapter_path v key frame : keeps_rel same_path (adapter cx read scan v key frame).
Proof. unfold adapter, access_memo, scan_limits, node_stop. paths. Qed.
Lemma nested_roots_path key children frame : keeps_rel same_path (nested_roots scan key children frame).
Proof. unfold nested_roots, scan_limits. paths. Qed.
#[local] Hint Resolve coroutine_path adapter_path nested_roots_path : keeps.
Lemma scan_class_path v key depth frame : keeps_rel same_path (scan_class cx read scan v key depth frame).
Proof. unfold scan_class, report_named. paths. Qed.
#[local] Hint Resolve scan_class_path : keeps.
Lemma scan_storage_path v key record depth frame :
  keeps_rel same_path (scan_storage cx statics read rt scan v key record depth frame).
Proof.
  unfold scan_storage, once, enter_seen, scan_set, fanout, scan_table, future_origin, report_named, stopped,
    node_stop, scan_limits, enter_seen. paths.
Qed.
Lemma scan_value_path v depth frame : keeps_rel same_path (scan_value cx statics read rt scan v depth frame).
Proof.
  unfold scan_value, is_inert, visit_refused, report_named, scan_limits. paths. apply scan_storage_path.
Qed.
End descent.

Lemma scan_root_path v bg : keeps_rel same_path (scan_root cx statics read rt v bg).
Proof.
  apply root_path. generalize (visit_fuel bg) as fuel.
  induction fuel as [|fuel IH]; intros; cbn [scan_within]; [apply keeps_panic|]. by apply scan_value_path.
Qed.
End paths.

(** ** The visits bound the recursion *)

Section bounded.
Context (max : Z).

(** Two computations the same on every state that has spent so many visits of a limit. *)
Definition same_from {A} (n : Z) (m m' : scanning A) : Prop := ∀ s,
  max_inline_visits (limits (sc_budget s)) = max → n <= inline_visits (sc_budget s) → m s = m' s.

Lemma same_from_refl {A} n (m : scanning A) : same_from n m m.
Proof. by intros s. Qed.
Lemma same_from_bind {A B} n (m m' : scanning A) (f f' : A → scanning B) :
  same_from n m m' → keeps_rel moves m' → (∀ a, same_from n (f a) (f' a)) → same_from n (eff_bind m f) (eff_bind m' f').
Proof.
  intros Hm Hk Hf s Hmax Hs. unfold eff_bind. rewrite (Hm s Hmax Hs).
  destruct (m' s) as [[s1 [a|[]]]|] eqn:E; [|done]. apply Hk in E as [[Hl Hv _] _ _ _ _].
  unfold counted in Hv. apply Hf; [congruence|lia].
Qed.
Lemma same_from_each {A} n (f f' : A → scanning ()) l : (∀ a, same_from n (f a) (f' a)) →
  (∀ a, keeps_rel moves (f' a)) → same_from n (eff_each f l) (eff_each f' l).
Proof.
  intros Hf Hk. induction l as [|a l IH]; cbn [eff_each]; [apply same_from_refl|]. by apply same_from_bind.
Qed.

Section same.
Context `{Demangler} `{StreamObservers} {T : Type} `{!Target T}.
Context (cx : ChainCtx T) (statics : list (StaticRole * StaticDef)) (read : ReadContext) (rt : option TaskAddr).
Context (n : Z) (scan scan' : Value → Z → Frame → scanning ()).
Hypothesis Hscan : ∀ v depth frame, keeps_rel moves (scan' v depth frame).
Hypothesis Hsame : ∀ v depth frame, same_from n (scan v depth frame) (scan' v depth frame).

#[local] Hint Resolve is_inert_moves report_named_moves reference_moves references_moves resource_moves
  node_stop_moves stopped_moves push_moves pop_moves join_set_moves : keeps.
#[local] Hint Resolve Hscan root_moves step_part_moves scan_members_moves coroutine_moves adapter_moves
  nested_roots_moves future_origin_moves scan_class_moves : keeps.
#[local] Hint Resolve charging_moves set_children_charging fanout_children_charging table_buckets_charging
  join_entries_charging : keeps.

Ltac same :=
  lazymatch goal with
  | |- ∀ _, _ => intros ?; same
  | |- same_from _ ?m ?m => apply same_from_refl
  | |- same_from _ (match ?x with _ => _ end) _ => destruct x; same
  | |- same_from _ (eff_bind _ _) _ => apply same_from_bind; [|keeps|]; same
  | |- same_from _ (eff_each _ _) _ => apply same_from_each; [|keeps]; same
  | |- _ => auto
  end.

Lemma root_same v frame : same_from n (root scan v frame) (root scan' v frame).
Proof. unfold root. same. Qed.
Hint Resolve root_same : core.
Lemma step_part_same at_ st depth frame :
  same_from n (step_part cx read scan at_ st depth frame) (step_part cx read scan' at_ st depth frame).
Proof. unfold step_part. same. Qed.
Hint Resolve step_part_same : core.
Lemma scan_members_same v depth frame :
  same_from n (scan_members cx read scan v depth frame) (scan_members cx read scan' v depth frame).
Proof. unfold scan_members, scan_member. same. Qed.
Hint Resolve scan_members_same : core.
Lemma coroutine_same v key states depth frame :
  same_from n (coroutine cx read scan v key states depth frame) (coroutine cx read scan' v key states depth frame).
Proof. unfold coroutine, scan_locals, report_uncertain. same. Qed.
Lemma follow_same future selected frame :
  same_from n (follow scan future selected frame) (follow scan' future selected frame).
Proof. unfold follow. same. Qed.
Hint Resolve coroutine_same follow_same : core.
Lemma adapter_same v key frame : same_from n (adapter cx read scan v key frame) (adapter cx read scan' v key frame).
Proof.
  unfold adapter, access_memo. same. apply on_budget_moves. intros bg bg' x.
  pose proof (charge_referent_charges bg) as Hc. destruct (charge_referent bg) as [ok bg1].
  intros [= <- _]. by apply charges_spends.
Qed.
Lemma nested_roots_same key children frame :
  same_from n (nested_roots scan key children frame) (nested_roots scan' key children frame).
Proof. unfold nested_roots. same. Qed.
Hint Resolve adapter_same nested_roots_same : core.
Lemma scan_class_same v key depth frame :
  same_from n (scan_class cx read scan v key depth frame) (scan_class cx read scan' v key depth frame).
Proof. unfold scan_class. same. Qed.
Hint Resolve scan_class_same : core.
Lemma scan_storage_same v key record depth frame :
  same_from n (scan_storage cx statics read rt scan v key record depth frame)
    (scan_storage cx statics read rt scan' v key record depth frame).
Proof. unfold scan_storage, once, scan_set, fanout, scan_table. same. Qed.
End same.

Section within.
Context `{Demangler} `{StreamObservers} {T : Type} `{!Target T}.
Context (cx : ChainCtx T) (statics : list (StaticRole * StaticDef)) (read : ReadContext) (rt : option TaskAddr).

(** A visit charged is one visit more before any recursion, and a refused one is none. *)
Lemma same_from_charge {B} n (f f' : bool → scanning B) :
  (n < max → same_from (n + 1) (f true) (f' true)) → same_from n (f false) (f' false) →
  same_from n (eff_bind (on_budget (λ bg, let '(ok, bg) := charge_visit bg in Ret (bg, ok))) f)
    (eff_bind (on_budget (λ bg, let '(ok, bg) := charge_visit bg in Ret (bg, ok))) f').
Proof.
  intros Ht Hf s Hmax Hn. unfold eff_bind, on_budget, charge_visit.
  destruct (Z.leb_spec (max_inline_visits (limits (sc_budget s))) (inline_visits (sc_budget s))); cbn.
  - by apply Hf.
  - apply Ht; cbn; [lia|done|lia].
Qed.

Lemma scan_value_same n scan scan' v depth frame :
  (∀ v depth frame, keeps_rel moves (scan' v depth frame)) →
  (n < max → ∀ v depth frame, same_from (n + 1) (scan v depth frame) (scan' v depth frame)) →
  same_from n (scan_value cx statics read rt scan v depth frame) (scan_value cx statics read rt scan' v depth frame).
Proof.
  intros Hk Hs. unfold scan_value. apply same_from_bind; [apply same_from_refl|apply is_inert_moves|].
  intros []; [apply same_from_refl|]. apply same_from_charge; [|apply same_from_refl]. intros Hlt.
  specialize (Hs Hlt). apply same_from_bind; [apply same_from_refl|apply lifted_moves|intros size].
  apply same_from_bind; [apply same_from_refl|apply scan_limits_moves|intros lim].
  destruct (negb _); [apply same_from_refl|]. destruct (_ <? _); [apply same_from_refl|].
  apply same_from_bind; [apply same_from_refl|apply lifted_moves|intros record]. by apply scan_storage_same.
Qed.

Lemma scan_within_same ex fuel : ∀ fuel' n, (Z.to_nat (max - n) < fuel)%nat → (Z.to_nat (max - n) < fuel')%nat →
  ∀ v depth frame, same_from n (scan_within cx statics read rt ex fuel v depth frame)
    (scan_within cx statics read rt (λ _ _ _ _, Panic) fuel' v depth frame).
Proof.
  induction fuel as [|fuel IH]; intros [|fuel'] n Hf Hf' v depth frame; cbn [scan_within]; [lia..|].
  apply scan_value_same; [intros; apply scan_within_moves; intros; apply keeps_panic|].
  intros Hlt. apply IH; lia.
Qed.

(** However the recursion would end past its fuel, it is not asked. *)
Lemma scan_root_same ex fuel v bg s : max = max_inline_visits (limits bg) → sc_budget s = bg →
  (visit_fuel bg <= fuel)%nat →
  root (scan_within cx statics read rt ex fuel) v frame_default s = scan_root cx statics read rt v bg s.
Proof.
  intros Hm Hb Hf. unfold scan_root, visit_fuel in *. rewrite <- Hm in *.
  assert (same_from (inline_visits bg) (root (scan_within cx statics read rt ex fuel) v frame_default)
    (root (scan_within cx statics read rt (λ _ _ _ _, Panic) (visit_fuel bg)) v frame_default)) as Hs.
  { apply root_same.
    intros v1 depth frame. apply scan_within_same; unfold visit_fuel; rewrite <- ?Hm; lia. }
  unfold visit_fuel in Hs. rewrite <- Hm in Hs. apply Hs; rewrite Hb; done.
Qed.
End within.
End bounded.
