(* ===== verification/ScanSpec.v ===== *)
(** What a scan of a value's storage is to find: what is inside the value, the references
    that names, and the types nothing is held in, with the search that finds those. *)

From S2P Require Import Prelude Text StringTable Target Symbols TaskGraph Discovery Schema BundleCheck TypeView DisplayResolve DisplayEval Value Elements Pairing Semantics Contract ContractFacts Chain TaskHeader OwnedLists Runtimes Effects Registries Containers Observe Scan ScanFacts Work.

Local Open Scope Z_scope.

(** ** What a value holds *)

Inductive QueueKind := QSemaphore | QRegistration | QChannel | QNotify.

#[global] Instance queue_kind_eq_dec : EqDecision QueueKind.
Proof. solve_decision. Defined.

(** What the wakers of a queue are called as references. *)
Definition queue_source (k : QueueKind) : ReferenceSource :=
  match k with
  | QSemaphore => SemaphoreWaker | QRegistration => IoWaker
  | QChannel => ChannelWaker | QNotify => NotifyWaker
  end.

Section holds.
Context `{Demangler} `{StreamObservers} {T : Type} `{!Target T}.
Context (cx : ChainCtx T) (statics : list (StaticRole * StaticDef)) (read : ReadContext).
Abbreviation b := (cc_bundle cx).
Abbreviation proc := (cc_proc cx).

(** The storage of a value by its record, and the record of one that has only members. *)
Definition stored (v : Value) (st : Storage) : Prop :=
  ∃ record, semantics_of cx (val_ty v) = Ret record ∧ storage_of record = st.
Definition plain (v : Value) (states : option (list CoroutineState)) : Prop :=
  ∃ record, semantics_of cx (val_ty v) = Ret record ∧ storage_of record = StPlain ∧
    record ≫= ts_coroutine = states.

(** A literal step inside a value, and a sized member of it. *)
Definition steps_to (v : Value) (st : Step) (c : Value) : Prop :=
  execute_steps b proc read [st] v = Ret (inl (At c)).
Definition member_part (v c : Value) : Prop :=
  ∃ ms m size, members b (val_ty v) = Ret ms ∧ m ∈ ms ∧ ty_size b (m_ty m) = Ret size ∧ size ≠ 0 ∧
    steps_to v (Member (Named (m_name m))) c.

(** The locals of a coroutine's active state, where its body is live. *)
Definition live_stage (p : CoroutinePhase) : bool :=
  match p with PhUnresumed | PhSuspended => true | _ => false end.
Definition local_part (v : Value) (states : list CoroutineState) (c : Value) : Prop :=
  ∃ active st payload r,
    active_variant b (val_ty v) (val_bytes v) = Ret (Some (inl active)) ∧
    find_state cx states (bv_name active) = Ret (Some st) ∧ live_stage (cs_stage st) = true ∧
    steps_to v (Variant (cs_variant st)) payload ∧ r ∈ cs_locals st ∧ steps_to payload (Member (Named r)) c.

(** What is one step inside a value: a member, a member of the active payload, a local, the
    referent of an adapter, a child of a container, or a bucket of a table.  Containers and
    adapters are what some walk of them finds. *)
Inductive part (v : Value) : Value → Prop :=
  | part_member c : plain v None → classify b (val_ty v) = Ret CStruct → member_part v c → part v c
  | part_payload nm payload c : plain v None → classify b (val_ty v) = Ret CRustEnum →
      active_variant_raw b v = Ret (inl (nm, payload)) → member_part payload c → part v c
  | part_local states c : plain v (Some states) → local_part v states c → part v c
  | part_referent memo memo' c sel e d : stored v StAdapter →
      access_referent cx read v memo = Ret (memo', Some (NxNext c sel e d)) → part v c
  | part_child max bg bg' cs r c : stored v (StContainer CkFuturesUnordered) →
      set_children cx read v max bg = Ret (bg', (cs, r)) → c ∈ cs → part v c
  | part_entry max bg bg' cs r c : stored v (StContainer CkStreamMap) →
      fanout_children cx read v max bg = Ret (bg', (cs, r)) → c ∈ cs → part v c
  | part_bucket t max bg bg' cs r c : stored v (StTable t) →
      table_buckets cx read v t max bg = Ret (bg', (cs, r)) → c ∈ cs → part v c.

(** What is anywhere inside a value. *)
Definition within : Value → Value → Prop := rtc part.

(** What a value is observed to be, and the queue its observation names. *)
Definition observed_as (v : Value) (o : ResourceObservation) : Prop :=
  stored v StResource ∧ ∃ iss, observe_resource cx statics read v = Ret (mkObserved (Some o) iss).

Inductive asks (v : Value) : QueueKind → ValueKey → Prop :=
  | asks_semaphore o : observed_as v (RoAcquire o) → asks v QSemaphore (aq_semaphore o)
  | asks_io o : observed_as v (RoIo o) → asks v QRegistration (scheduled_io o)
  | asks_recv o : observed_as v (RoRecv o) → asks v QChannel (rc_chan o)
  | asks_http o client chan : observed_as v (RoHttpConn o) → hc_client o = Some client →
      hc_rx client = Some chan → asks v QChannel chan
  | asks_notified o : observed_as v (RoNotified o) → asks v QNotify (nt_notify o).

(** The tasks a queue's wakers name, as some observation of it reads them. *)
Inductive queued : QueueKind → ValueKey → Z → Prop :=
  | queued_semaphore q bg bg' o w t : observe_semaphore_queue cx statics read q bg = Ret (bg', o) →
      w ∈ qo_waiters o → waker_task (sw_waker w) = Some t → queued QSemaphore q t
  | queued_io q bg bg' o w t : observe_io_registration cx statics read q bg = Ret (bg', o) →
      w ∈ parked o → iw_task w = Some t → queued QRegistration q t
  | queued_channel q bg bg' o t : observe_channel cx statics read q bg = Ret (bg', o) →
      channel_waiter o = Some t → queued QChannel q t
  | queued_notify q bg bg' o w t : observe_notify cx statics read q bg = Ret (bg', o) →
      w ∈ no_waiters o → waker_task (nw_waker w) = Some t → queued QNotify q t.

(** The references a value makes itself, with the value each is decoded from. *)
Inductive refers (v : Value) : ReferenceSource → Z → ValueKey → Prop :=
  | refers_join o : observed_as v (RoJoin o) → refers v JoinHandle (jo_header o) (value_key v)
  | refers_oneshot o w t : observed_as v (RoOneshot o) → os_rx_waker o = Some w → waker_task w = Some t →
      refers v OneshotWaker t (value_key v)
  | refers_http o client cb w t : observed_as v (RoHttpConn o) → hc_client o = Some client →
      hc_callback client = Some cb → os_tx_waker cb = Some w → waker_task w = Some t →
      refers v OneshotWaker t (value_key v)
  | refers_entry max bg bg' tasks n r entry t : stored v (StContainer CkJoinSet) →
      join_entries cx read v max bg = Ret (bg', (tasks, n, r)) → (entry, t) ∈ tasks →
      refers v JoinSetEntry t (mkValueKey entry (val_ty v)).

(** Every reference of a value: its own, and those of the queue it names. *)
Inductive names (v : Value) : ReferenceSource → Z → ValueKey → Prop :=
  | names_own source t from : refers v source t from → names v source t from
  | names_queued k q t : asks v k q → queued k q t → names v (queue_source k) t (value_key v).

(** What is inside a value, by types: a sized member, a variant's payload, a bucket of the
    table its record keeps where the bundle has the bucket's type. *)
Inductive inside_type (u : BundleTypeId) : BundleTypeId → Prop :=
  | inside_member ms m size : classify b u = Ret CStruct → members b u = Ret ms → m ∈ ms →
      ty_size b (m_ty m) = Ret size → size ≠ 0 → inside_type u (m_ty m)
  | inside_payload sh v : classify b u = Ret CRustEnum → variant_shape b u = Ret (Some sh) →
      v ∈ variants sh → inside_type u (m_ty (v_payload v))
  | inside_bucket r t : semantics_of cx u = Ret (Some r) → ts_table r = Some t →
      is_Some (ty_get (b_types b) (tb_bucket t)) → inside_type u (tb_bucket t).

(** A type whose values a scan reports something of: a bound resource, container, pointer
    adapter, future or coroutine, storage the bundle declares unreadable, or an array whose
    elements have parts. *)
Definition aggregate (c : TypeClass) : Prop :=
  match c with CStruct | CRustEnum | CUnion | CArray _ _ => True | _ => False end.
Inductive reportable (u : BundleTypeId) : Prop :=
  | reported_resource r x : semantics_of cx u = Ret (Some r) → ts_resource r = Some x → reportable u
  | reported_container r x : semantics_of cx u = Ret (Some r) → ts_container r = Some x → reportable u
  | reported_adapter r x : semantics_of cx u = Ret (Some r) → ts_access r = Some x → reportable u
  | reported_future r x : semantics_of cx u = Ret (Some r) → ts_future r = Some x → reportable u
  | reported_coroutine r x : semantics_of cx u = Ret (Some r) → ts_coroutine r = Some x → reportable u
  | reported_unavailable r x : semantics_of cx u = Ret (Some r) → ts_storage r = Unavailable x → reportable u
  | reported_array element n c : classify b u = Ret (CArray element n) → classify b element = Ret c →
      aggregate c → reportable u.

(** A type nothing reported is in the values of. *)
Definition inert_type (ty : BundleTypeId) : Prop := ∀ u, rtc inside_type ty u → ¬ reportable u.

(** What a visit of a value can say of its own storage alone: that a part of it does not
    read, that its variant does not decode, or how the walk of its table ended. *)
Inductive own_issue (v : Value) : WalkIssue → Prop :=
  | own_step st e : execute_steps b proc read [st] v = Ret (inr e) →
      own_issue v (issue_of (value_key v) (AeSteps e))
  | own_payload nm payload st e : active_variant_raw b v = Ret (inl (nm, payload)) →
      execute_steps b proc read [st] payload = Ret (inr e) →
      own_issue v (issue_of (value_key payload) (AeSteps e))
  | own_variant ty e : ty_name b (val_ty v) = Ret ty → active_variant_raw b v = Ret (inr e) →
      own_issue v (issue_new (value_key v) IkInvalidLayout (DtVariant ty e))
  | own_table t max bg bg' cs stop : stored v (StTable t) →
      table_buckets cx read v t max bg = Ret (bg', (cs, inr stop)) →
      own_issue v (stop_issue (value_key v) stop)
  | own_count t max bg bg' cs count : stored v (StTable t) →
      table_buckets cx read v t max bg = Ret (bg', (cs, inl count)) →
      own_issue v (issue_new (value_key v) IkCountMismatch (DtTableCount (tc_items count) (tc_full count))).

(** All a computation hands over. *)
Definition hands_only (P : Sunk → Prop) (s s' : Scanner) : Prop :=
  ∃ new, sc_sink s' = sc_sink s ++ new ∧ Forall P new.

(** What is remembered of types is right. *)
Definition inert_memo_ok (memo : gmap BundleTypeId bool) : Prop :=
  ∀ ty k, memo !! ty = Some k → (k = true ↔ inert_type ty).
End holds.

(** ** Types nothing is held in *)

Section inert.
Context `{Demangler} `{StreamObservers} {T : Type} `{!Target T} (cx : ChainCtx T).
Abbreviation b := (cc_bundle cx).
Implicit Types memo : gmap BundleTypeId bool.

(** A step of the search, and what it says of its type. *)
Definition step_type (u w : BundleTypeId) : Prop := ∃ l, inert_step cx u = Ret (Some l) ∧ w ∈ l.

Lemma bound_reportable u record :
  semantics_of cx u = Ret record → is_bound record = true → reportable cx u.
Proof.
  destruct record as [r|]; [|done]. cbn. unfold binds. intros Hr.
  destruct (ts_resource r) eqn:?; [by intros _; eapply reported_resource|].
  destruct (ts_container r) eqn:?; [by intros _; eapply reported_container|].
  destruct (ts_access r) eqn:?; [by intros _; eapply reported_adapter|].
  destruct (ts_future r) eqn:?; [by intros _; eapply reported_future|].
  destruct (ts_coroutine r) eqn:?; [by intros _; eapply reported_coroutine|].
  destruct (ts_storage r) eqn:?; try done. by intros _; eapply reported_unavailable.
Qed.
Lemma unbound_record u r : semantics_of cx u = Ret (Some r) → is_bound (Some r) = false →
  ts_resource r = None ∧ ts_container r = None ∧ ts_access r = None ∧ ts_future r = None ∧
  ts_coroutine r = None ∧ ∀ x, ts_storage r ≠ Unavailable x.
Proof. intros _. cbn. unfold binds. by repeat case_match. Qed.

Lemma inert_step_None u : inert_step cx u = Ret None → reportable cx u.
Proof.
  unfold inert_step. intros (record & Hr & Hi)%outcome_bind_Ret.
  destruct (is_bound record) eqn:Eb; [by eapply bound_reportable|].
  apply outcome_bind_Ret in Hi as ([l|] & Hc & Hi); [done|]. unfold class_types in Hc.
  apply outcome_bind_Ret in Hc as (c & Hcl & Hc). destruct c as [| | |element n| | | | |]; try done.
  - apply outcome_bind_Ret in Hc as (a & Ha & Hc). destruct a; [|done].
    unfold holds_aggregates in Ha. apply outcome_bind_Ret in Ha as (c & Hel & [= Ha]).
    eapply reported_array; [done..|]. by destruct c.
  - by apply outcome_bind_Ret in Hc as (ms & _ & (? & _ & [=])%outcome_bind_Ret).
  - by apply outcome_bind_Ret in Hc as (sh & _ & [=]).
Qed.

Lemma sized_types_elem ms : ∀ l, sized_types cx ms = Ret l →
  ∀ w, w ∈ l ↔ ∃ m size, m ∈ ms ∧ ty_size b (m_ty m) = Ret size ∧ size ≠ 0 ∧ w = m_ty m.
Proof.
  induction ms as [|m ms IH]; intros l Hl w; cbn [sized_types] in Hl.
  { injection Hl as <-. split; [by intros ?%elem_of_nil|]. by intros (m & size & ?%elem_of_nil & _). }
  apply outcome_bind_Ret in Hl as (size & Hs & Hl). apply outcome_bind_Ret in Hl as (rest & Hr & [= <-]).
  specialize (IH rest Hr w). destruct (size =? 0) eqn:E; zb.
  - rewrite IH. split; [intros (m' & n & ? & ?); exists m', n; split; [by right|done]|].
    intros (m' & n & [->|Hin]%elem_of_cons & Hn & Hne & ->); [congruence|by exists m', n].
  - rewrite elem_of_cons, IH. split.
    + intros [->|(m' & n & ? & ?)]; [exists m, size; split; [by left|done]|exists m', n; split; [by right|done]].
    + intros (m' & n & [->|Hin]%elem_of_cons & Hn & Hne & ->); [by left|right; by exists m', n].
Qed.

Lemma class_types_elem u l : class_types cx u = Ret (Some l) →
  (∀ element n c, classify b u = Ret (CArray element n) → classify b element = Ret c → ¬ aggregate c) ∧
  ∀ w, w ∈ l ↔
    (classify b u = Ret CStruct ∧ ∃ ms m size, members b u = Ret ms ∧ m ∈ ms ∧
       ty_size b (m_ty m) = Ret size ∧ size ≠ 0 ∧ w = m_ty m) ∨
    (classify b u = Ret CRustEnum ∧ ∃ sh v, variant_shape b u = Ret (Some sh) ∧ v ∈ variants sh ∧
       w = m_ty (v_payload v)).
Proof.
  unfold class_types. intros (c & Hcl & Hc)%outcome_bind_Ret. rewrite Hcl.
  destruct c as [| | |element n| | | | |];
    try (injection Hc as <-; split; [done|]; intros w; split; [by intros ?%elem_of_nil|by intros [[? _]|[? _]]]).
  - apply outcome_bind_Ret in Hc as (a & Ha & Hc). destruct a; [done|]. injection Hc as <-.
    unfold holds_aggregates in Ha. apply outcome_bind_Ret in Ha as (c & Hel & [= Ha]). split.
    + intros e n' c' [= <- <-] Hc'. rewrite Hel in Hc'. injection Hc' as E; subst c'. destruct c; by try intros [].
    + intros w. split; [by intros ?%elem_of_nil|by intros [[? _]|[? _]]].
  - apply outcome_bind_Ret in Hc as (ms & Hms & Hc). apply outcome_bind_Ret in Hc as (l' & Hl & [= <-]).
    split; [done|]. intros w. rewrite (sized_types_elem ms l' Hl w). split.
    + intros (m & size & ?). left. split; [done|]. by exists ms, m, size.
    + intros [[_ (ms' & m & size & Hms' & ?)]|[? _]]; [|done]. rewrite Hms in Hms'. injection Hms' as <-. by exists m, size.
  - apply outcome_bind_Ret in Hc as (sh & Hsh & [= <-]). split; [done|]. intros w. split.
    + destruct sh as [sh|]; [|by intros ?%elem_of_nil]. intros (v & -> & Hv)%list_elem_of_fmap.
      right. split; [done|]. by exists sh, v.
    + intros [[? _]|[_ (sh' & v & Hsh' & Hv & ->)]]; [done|]. rewrite Hsh in Hsh'. injection Hsh' as ->.
      apply list_elem_of_fmap. by exists v.
Qed.

Lemma bucket_types_elem u record w : semantics_of cx u = Ret record →
  w ∈ bucket_types cx record ↔ ∃ r t, record = Some r ∧ ts_table r = Some t ∧
    is_Some (ty_get (b_types b) (tb_bucket t)) ∧ w = tb_bucket t.
Proof.
  intros _. unfold bucket_types. destruct record as [r|]; [|split; [by intros ?%elem_of_nil|by intros (? & ? & ? & _)]].
  destruct (ts_table r) as [t|] eqn:Et.
  - case_bool_decide as Hs.
    + rewrite list_elem_of_singleton. split; [intros ->; by exists r, t|].
      intros (r' & t' & [= <-] & Ht & _ & ->). rewrite Et in Ht. by injection Ht as <-.
    + split; [by intros ?%elem_of_nil|]. intros (r' & t' & [= <-] & Ht & ? & _). rewrite Et in Ht.
      by injection Ht as <-.
  - split; [by intros ?%elem_of_nil|]. intros (r' & t' & [= <-] & Ht & _). congruence.
Qed.

Lemma inert_step_Some u l : inert_step cx u = Ret (Some l) →
  ¬ reportable cx u ∧ ∀ w, w ∈ l ↔ inside_type cx u w.
Proof.
  unfold inert_step. intros (record & Hr & Hi)%outcome_bind_Ret.
  destruct (is_bound record) eqn:Eb; [done|]. apply outcome_bind_Ret in Hi as ([ts|] & Hc & Hi); [|done].
  injection Hi as <-. apply class_types_elem in Hc as [Harr Hts]. split.
  - intros Hrep. destruct Hrep as [r x Hs Hx|r x Hs Hx|r x Hs Hx|r x Hs Hx|r x Hs Hx|r x Hs Hx|e n c Hcl He Ha];
      [..|by eapply Harr]; rewrite Hr in Hs; injection Hs as ->;
      destruct (unbound_record u r Hr Eb) as (? & ? & ? & ? & ? & Hna); congruence.
  - intros w. rewrite elem_of_app, (bucket_types_elem u record w Hr), Hts. split.
    + intros [(r & t & -> & Ht & Hs & ->)|[[Hcl (ms & m & size & ? & ? & ? & ? & ->)]|[Hcl (sh & v & ? & ? & ->)]]].
      * by eapply inside_bucket.
      * by eapply inside_member.
      * by eapply inside_payload.
    + intros Hin. destruct Hin as [ms m size|sh v|r t Hs Ht Hb].
      * right. left. split; [done|]. by exists ms, m, size.
      * right. right. split; [done|]. by exists sh, v.
      * left. rewrite Hr in Hs. injection Hs as ->. by exists r, t.
Qed.
Lemma step_inside u w : step_type u w → inside_type cx u w.
Proof. intros (l & Hl & Hw). by apply (proj2 (inert_step_Some u l Hl)). Qed.
Lemma steps_inside u w : rtc step_type u w → rtc (inside_type cx) u w.
Proof. apply rtc_subrel. intros x y. apply step_inside. Qed.

Lemma inert_loop_eq fuel memo stack seen : inert_loop cx fuel memo stack seen =
  match stack with
  | [] => Ret (true, seen)
  | ty :: stack =>
      if bool_decide (ty ∈ seen) then inert_loop cx fuel memo stack seen
      else match memo !! ty with
           | Some true => inert_loop cx fuel memo stack ({[ty]} ∪ seen)
           | Some false => Ret (false, {[ty]} ∪ seen)
           | None =>
               next ← inert_step cx ty;
               match next with
               | None => Ret (false, {[ty]} ∪ seen)
               | Some l =>
                   match fuel with
                   | O => Panic
                   | S fuel => inert_loop cx fuel memo (rev l ++ stack) ({[ty]} ∪ seen)
                   end
               end
           end
  end.
Proof. by destruct fuel, stack. Qed.

(** The types met, each remembered inert or with what it reaches met or still to be. *)
Definition search_ok memo (stack : list BundleTypeId) (seen : gset BundleTypeId) : Prop :=
  ∀ u, u ∈ seen → memo !! u = Some true ∨
    ∃ l, inert_step cx u = Ret (Some l) ∧ ∀ w, w ∈ l → w ∈ seen ∨ w ∈ stack.

(** A type that settles the question, or is remembered to. *)
Definition settles memo (u : BundleTypeId) : Prop := inert_step cx u = Ret None ∨ memo !! u = Some false.

Lemma elem_of_rev {A} (l : list A) x : x ∈ rev l ↔ x ∈ l.
Proof. rewrite !list_elem_of_In. symmetry. apply in_rev. Qed.

Lemma search_pop memo ty stack seen : search_ok memo (ty :: stack) seen → ty ∈ seen → search_ok memo stack seen.
Proof.
  intros Hok Hin u Hu. destruct (Hok u Hu) as [?|(l & El & Hl)]; [by left|right].
  exists l. split; [done|]. intros w Hw. destruct (Hl w Hw) as [?|[->|?]%elem_of_cons]; auto.
Qed.
Lemma search_add memo ty stack stack' seen : search_ok memo (ty :: stack) seen → stack ⊆ stack' →
  (memo !! ty = Some true ∨ ∃ l, inert_step cx ty = Ret (Some l) ∧ l ⊆ stack') →
  search_ok memo stack' ({[ty]} ∪ seen).
Proof.
  intros Hok Hs Hty u [->%elem_of_singleton|Hu]%elem_of_union.
  { destruct Hty as [?|(l & El & Hl)]; [by left|right]. exists l. split; [done|]. intros w Hw. right. by apply Hl. }
  destruct (Hok u Hu) as [?|(l & El & Hl)]; [by left|right]. exists l. split; [done|]. intros w Hw.
  destruct (Hl w Hw) as [?|[->|?]%elem_of_cons]; [left; set_solver|left; set_solver|right; by apply Hs].
Qed.

(** What a search from a stack finds. *)
Definition search_result memo (stack : list BundleTypeId) (seen : gset BundleTypeId) (r : bool)
    (seen' : gset BundleTypeId) : Prop :=
  if r then search_ok memo [] seen' ∧ seen ⊆ seen' ∧ ∀ u, u ∈ stack → u ∈ seen'
  else ∃ s u, s ∈ stack ∧ rtc step_type s u ∧ settles memo u.
Definition searches memo (fuel : nat) (stack : list BundleTypeId) : Prop := ∀ seen r seen',
  search_ok memo stack seen → inert_loop cx fuel memo stack seen = Ret (r, seen') → search_result memo stack seen r seen'.

Lemma search_result_cons memo ty stack seen seen1 r seen' : seen ⊆ seen1 → ty ∈ seen1 →
  search_result memo stack seen1 r seen' → search_result memo (ty :: stack) seen r seen'.
Proof.
  intros Hs Hin. destruct r; cbn.
  - intros (? & ? & Hst). split; [done|]. split; [set_solver|]. intros u [->|Hu]%elem_of_cons; [set_solver|by apply Hst].
  - intros (s & u & Hst & ?). exists s, u. split; [by right|done].
Qed.

Lemma searches_cons memo fuel ty stack : searches memo fuel stack →
  (∀ fuel' stack', fuel = S fuel' → searches memo fuel' stack') → searches memo fuel (ty :: stack).
Proof.
  intros Hpop Hpush seen r seen' Hok Hr. rewrite inert_loop_eq in Hr. case_bool_decide as Hin.
  { eapply search_result_cons; [reflexivity|exact Hin|]. eapply Hpop, Hr. by eapply search_pop. }
  destruct (memo !! ty) as [[]|] eqn:Em.
  - eapply (search_result_cons _ _ _ _ ({[ty]} ∪ seen)); [set_solver|set_solver|]. eapply Hpop, Hr.
    eapply search_add; [done|done|by left].
  - injection Hr as <- <-. exists ty, ty. split; [by left|]. split; [constructor|by right].
  - apply outcome_bind_Ret in Hr as ([l|] & Hl & Hr).
    + destruct fuel as [|fuel]; [done|]. apply (Hpush fuel _ eq_refl) in Hr.
      2: { eapply search_add; [done|set_solver|]. right. exists l. split; [done|]. intros w Hw.
           apply elem_of_app. left. by apply elem_of_rev. }
      destruct r; cbn in *.
      * destruct Hr as (? & ? & Hst). split; [done|]. split; [set_solver|].
        intros u [->|Hu]%elem_of_cons; [set_solver|]. apply Hst, elem_of_app. by right.
      * destruct Hr as (s & u & [Hs|Hs]%elem_of_app & Hp & Hu); [|by exists s, u; split; [right|]].
        exists ty, u. split; [by left|]. split; [|done]. eapply rtc_l; [|exact Hp]. exists l. split; [done|].
        by rewrite elem_of_rev in Hs.
    + injection Hr as <- <-. exists ty, ty. split; [by left|]. split; [constructor|by left].
Qed.
Lemma searches_all memo fuel : ∀ stack, searches memo fuel stack.
Proof.
  induction fuel as [|fuel IHf]; intros stack; induction stack as [|ty stack IH].
  1, 3: intros seen r seen' Hok Hr; rewrite inert_loop_eq in Hr; injection Hr as <- <-; split; [done|]; split; [done|];
    intros u Hu; by apply elem_of_nil in Hu.
  - by apply searches_cons.
  - apply searches_cons; [done|]. intros f st [= <-]. apply IHf.
Qed.

(** A search that ends with nothing settled met only inert types. *)
Lemma search_inert memo seen : inert_memo_ok cx memo → search_ok memo [] seen → ∀ u, u ∈ seen → inert_type cx u.
Proof.
  intros Hm Hok u Hu w Hw. revert Hu. induction Hw as [u|u v w Huv Hp IH]; intros Hu;
    (destruct (Hok u Hu) as [Ht|(l & El & Hl)]; [pose proof (proj1 (Hm u true Ht) eq_refl) as Hi|]).
  - by apply Hi.
  - apply (inert_step_Some u l El).
  - apply Hi. by eapply rtc_l.
  - apply IH. apply (proj2 (inert_step_Some u l El)) in Huv. by destruct (Hl v Huv) as [?|?%elem_of_nil].
Qed.

Lemma inert_trans u w : inert_type cx u → rtc (inside_type cx) u w → inert_type cx w.
Proof. intros Hu Hw x Hx. apply Hu. by etransitivity. Qed.

Lemma fold_memo memo (seen : gset BundleTypeId) ty :
  let m := set_fold (λ id m, <[id := true]> m) memo seen in
  (ty ∈ seen → m !! ty = Some true) ∧ (ty ∉ seen → m !! ty = memo !! ty).
Proof.
  cbn. apply (set_fold_ind_L (λ m X, (ty ∈ X → m !! ty = Some true) ∧ (ty ∉ X → m !! ty = memo !! ty))).
  - set_solver.
  - intros x X m Hx [IH1 IH2]. destruct (decide (x = ty)) as [->|Hn].
    + rewrite lookup_insert_eq. set_solver.
    + rewrite lookup_insert_ne by done. split; intros; [apply IH1; set_solver|apply IH2; set_solver].
Qed.

(** The search's answer is the type's, and what it remembers of the rest is right. *)
Lemma reference_inert_spec ty memo memo' r : inert_memo_ok cx memo →
  reference_inert cx ty memo = Ret (memo', r) → inert_memo_ok cx memo' ∧ (r = true ↔ inert_type cx ty).
Proof.
  intros Hm. unfold reference_inert. destruct (memo !! ty) as [known|] eqn:Ek.
  { intros [= <- <-]. split; [done|by apply Hm]. }
  intros ([[] seen] & Hl & [= <- <-])%outcome_bind_Ret;
    (apply searches_all in Hl; [|intros u Hu; set_solver]); cbn in Hl.
  - destruct Hl as (Hok & _ & Hst). pose proof (search_inert _ _ Hm Hok) as Hi. split.
    + intros u k. destruct (fold_memo memo seen u) as [H1 H2].
      destruct (decide (u ∈ seen)) as [Hu|Hu]; [|rewrite (H2 Hu); apply Hm].
      rewrite (H1 Hu). intros [= <-]. split; [|done]. by intros _; apply Hi.
    + split; [|done]. intros _. apply Hi, Hst. by left.
  - destruct Hl as (s & u & ->%list_elem_of_singleton & Hp & Hu).
    assert (¬ inert_type cx ty) as Hn.
    { intros Hi. apply steps_inside in Hp.
      destruct Hu as [Hu%inert_step_None|Hu]; [by apply (Hi u Hp)|].
      pose proof (proj2 (Hm u false Hu) (inert_trans _ _ Hi Hp)). done. }
    split; [|by split].
    intros u' k. destruct (decide (u' = ty)) as [->|Hne].
    + rewrite lookup_insert_eq. intros [= <-]. by split.
    + rewrite lookup_insert_ne by done. apply Hm.
Qed.

(** The search's turns are as many as the bundle's types: it panics only where the look-up
    of a type it reaches does. *)
Lemma inert_step_valid ty o : inert_step cx ty = Ret o → o ≠ None → (ty < length (types (b_types b)))%nat.
Proof.
  unfold inert_step. intros (record & _ & Hr)%outcome_bind_Ret Ho. destruct (is_bound record); [by injection Hr as <-|].
  apply outcome_bind_Ret in Hr as (next & Hc & _). unfold class_types in Hc.
  apply outcome_bind_Ret in Hc as (c & Hc & _). unfold classify in Hc.
  apply outcome_bind_Ret in Hc as (def & Hd & _). unfold ty_def, ty_get in Hd.
  destruct (types (b_types b) !! ty) eqn:E; [|done]. by apply lookup_lt_Some in E.
Qed.

Definition search_ends memo (fuel : nat) (stack : list BundleTypeId) : Prop := ∀ seen met : gset BundleTypeId,
  met ⊆ seen → (∀ u, u ∈ met → (u < length (types (b_types b)))%nat) →
  (length (types (b_types b)) <= fuel + base.size met)%nat →
  (∀ s u, s ∈ stack → rtc step_type s u → inert_step cx u ≠ Panic) →
  inert_loop cx fuel memo stack seen ≠ Panic.

Lemma below_size (n : nat) (met : gset nat) : (∀ u, u ∈ met → (u < n)%nat) → (base.size met <= n)%nat.
Proof.
  intros Hm. rewrite <- (length_seq n 0) at 1. transitivity (base.size (list_to_set (seq 0 n) : gset nat)).
  - apply subseteq_size. intros u Hu. apply elem_of_list_to_set, elem_of_seq. specialize (Hm u Hu). lia.
  - rewrite size_list_to_set by apply NoDup_seq. done.
Qed.

Lemma search_ends_cons memo fuel ty stack : search_ends memo fuel stack →
  (∀ fuel' stack', fuel = S fuel' → search_ends memo fuel' stack') → search_ends memo fuel (ty :: stack).
Proof.
  intros Hpop Hpush seen met Hd Hv Hf Hs. rewrite inert_loop_eq. case_bool_decide as Hin.
  { eapply Hpop; try done. intros s u Hst. apply Hs. by right. }
  destruct (memo !! ty) as [[]|]; [|done|].
  { eapply (Hpop _ met); [set_solver|done|done|]. intros s u Hst. apply Hs. by right. }
  destruct (inert_step cx ty) as [[l|]|] eqn:El; cbn; [|done|by destruct (Hs ty ty ltac:(by left) (rtc_refl _ _) El)].
  pose proof (inert_step_valid _ _ El ltac:(done)) as Hty.
  assert (base.size ({[ty]} ∪ met) = S (base.size met)) as Hsz.
  { rewrite size_union by set_solver. by rewrite size_singleton. }
  assert (∀ u, u ∈ {[ty]} ∪ met → (u < length (types (b_types b)))%nat) as Hv'.
  { intros u [->%elem_of_singleton|Hu]%elem_of_union; auto. }
  destruct fuel as [|fuel]; [apply below_size in Hv'; lia|].
  eapply (Hpush fuel _ eq_refl _ ({[ty]} ∪ met)); [set_solver|done|lia|].
  intros s u [Hst|Hst]%elem_of_app Hp; [|by apply (Hs s); [right|]].
  apply (Hs ty); [by left|]. eapply rtc_l; [|done]. exists l. by rewrite elem_of_rev in Hst.
Qed.
Lemma search_ends_all memo fuel : ∀ stack, search_ends memo fuel stack.
Proof.
  induction fuel as [|fuel IHf]; intros stack; induction stack as [|ty stack IH].
  1, 3: intros seen met _ _ _ _; by rewrite inert_loop_eq.
  - by apply search_ends_cons.
  - apply search_ends_cons; [done|]. intros f st [= <-]. apply IHf.
Qed.

Lemma reference_inert_ends ty memo : (∀ u, rtc step_type ty u → inert_step cx u ≠ Panic) →
  reference_inert cx ty memo ≠ Panic.
Proof.
  intros Hs. unfold reference_inert. destruct (memo !! ty); [done|].
  pose proof (search_ends_all memo (length (types (b_types b))) [ty] ∅ ∅) as He.
  destruct (inert_loop _ _ _ _ _) as [[]|]; [done|]. exfalso. apply He; try set_solver by lia.
Qed.

(** *** What a type says of its values *)

(** Payloads are structs, and a member is found by its name. *)
Record layout_plain : Prop := mkLayoutPlain {
  payloads_plain ty sh v : variant_shape b ty = Ret (Some sh) → v ∈ variants sh →
    classify b (m_ty (v_payload v)) = Ret CStruct;
  members_named ty ms m : members b ty = Ret ms → m ∈ ms → member_at ms (Named (m_name m)) = Some m
}.

Lemma step_into_ty cur ty offset c : step_into b cur ty offset = Ret (inl c) → val_ty c = ty.
Proof.
  unfold step_into. intros (size & _ & H1)%fbind_inl. apply fbind_inl in H1 as (bytes & _ & H1).
  destruct (checked_add _ _); [by injection H1 as <-|done].
Qed.
Lemma no_member_inl v r (w : Walked) : no_such_member b v (Named r) ≠ Ret (inl w).
Proof.
  unfold no_such_member. intros (nm & _ & Hn)%fbind_inl. apply fbind_inl in Hn as (ms & _ & Hn).
  apply fbind_inl in Hn as (has & _ & Hn). by apply fail_named_inl in Hn.
Qed.
Lemma steps_member_ty read v r c : steps_to cx read v (Member (Named r)) c →
  ∃ ms m, members b (val_ty v) = Ret ms ∧ member_at ms (Named r) = Some m ∧ val_ty c = m_ty m.
Proof.
  unfold steps_to. cbn [execute_steps]. intros (m & Hm%infallible_inl & Hr)%fbind_inl.
  unfold contract_member_at in Hm. apply outcome_bind_Ret in Hm as (ms & Hms & [= <-]). exists ms.
  destruct (member_at ms (Named r)) as [m|]; [|by apply no_member_inl in Hr].
  apply fbind_inl in Hr as (next & Hn%step_into_ty & [= <-]). by exists m.
Qed.

Lemma member_part_inside read v c : layout_plain → classify b (val_ty v) = Ret CStruct →
  member_part cx read v c → inside_type cx (val_ty v) (val_ty c).
Proof.
  intros [_ Hnamed] Hc (ms & m & size & Hms & Hm & Hs & Hn & Hst).
  apply steps_member_ty in Hst as (ms' & m' & Hms' & Hat & ->). rewrite Hms in Hms'. injection Hms' as <-.
  rewrite (Hnamed _ _ _ Hms Hm) in Hat. injection Hat as <-. by eapply inside_member.
Qed.

Lemma active_payload_ty v nm payload : active_variant_raw b v = Ret (inl (nm, payload)) →
  ∃ sh vd, variant_shape b (val_ty v) = Ret (Some sh) ∧ vd ∈ variants sh ∧ val_ty payload = m_ty (v_payload vd).
Proof.
  unfold active_variant_raw. intros (r & Hr%infallible_inl & H1)%fbind_inl. destruct r as [[active|e]|].
  2: { apply fbind_inl in H1 as (? & _ & [=]). }
  2: { unfold not_an_enum in H1. by apply fbind_inl in H1 as (? & _ & [=]). }
  apply fbind_inl in H1 as (w & Hw & [= _ <-]). unfold view_at in Hw. apply fbind_inl in Hw as (size & _ & Hw).
  match type of Hw with match ?o with _ => _ end = _ => destruct o; [|done] end. injection Hw as <-. cbn.
  unfold active_variant in Hr. apply outcome_bind_Ret in Hr as ([sh|] & Hsh & Hr); [|done].
  apply outcome_bind_Ret in Hr as (r & Hr & [= ->]). unfold decode_variant in Hr.
  apply outcome_bind_Ret in Hr as ([vd|e] & Hv & Hr); [|done]. apply outcome_bind_Ret in Hr as (bv & Hbv & [= <-]).
  unfold variant_of in Hbv. apply outcome_bind_Ret in Hbv as (vn & _ & Hbv).
  apply outcome_bind_Ret in Hbv as (dl & _ & Hbv). apply outcome_bind_Ret in Hbv as (w & _ & [= <-]). cbn.
  exists sh, vd. split; [done|]. split; [|done]. unfold decode_selected in Hv. destruct (discr sh) as [d'|].
  - apply outcome_bind_Ret in Hv as (sz & _ & Hv). destruct (negb _); [done|].
    destruct (bytes_get _ _ _); [|done]. injection Hv as Hv. destruct (select_variant sh _) eqn:Es; [|done].
    injection Hv as <-. unfold select_variant in Es.
    destruct (find_first _ (variants sh)) eqn:E1; [simplify_eq; by apply find_first_Some in E1 as [? _]|].
    by apply find_first_Some in Es as [? _].
  - injection Hv as Hv. destruct (variants sh) as [|x [|y ys]]; try done. injection Hv as <-. by left.
Qed.

(** The buckets a table's walk visits are of the type its binding says. *)
Lemma table_loop_types ty stride ctrl max l : ∀ i full s s' r,
  Forall (λ v, val_ty v = ty) s.2 →
  table_loop cx ty stride ctrl max bucket_visit i l full s = Ret (s', r) → Forall (λ v, val_ty v = ty) s'.2.
Proof.
  induction l as [|c l IH]; intros i full s s' r Hs Hr; cbn [table_loop] in Hr; [by injection Hr as <- _|].
  destruct (negb (is_full c)); [by eapply IH|]. destruct (full =? max); [by injection Hr as <- _|].
  apply eff_bind_Ret in Hr as [(s1 & v & L & Hr)|(e & L & _)]; apply eff_lift_Ret in L as [-> Hv]; [|done].
  assert (val_ty v = ty) as Hty.
  { unfold failing in Hv. apply map_err_inl in Hv. unfold value_read in Hv. apply fbind_inl in Hv as (? & _ & Hv).
    by apply fbind_inl in Hv as (? & _ & [= <-]). }
  assert (∀ s1 r1, bucket_visit full v s = Ret (s1, r1) → Forall (λ v, val_ty v = ty) s1.2) as Hvisit.
  { intros s1 r1. unfold bucket_visit, eff_bind, charge_visit_node. destruct (charge_referent s.1) as [[] bg]; intros [= <- _].
    - cbn. apply Forall_app. split; [done|]. by constructor.
    - done. }
  apply eff_bind_Ret in Hr as [(s2 & u & Hb & Hr)|(e & Hb & _)]; [|by eapply Hvisit].
  eapply IH; [|done]. by eapply Hvisit.
Qed.
Lemma table_buckets_types read v t max bg bg' cs r c : table_buckets cx read v t max bg = Ret (bg', (cs, r)) →
  c ∈ cs → val_ty c = tb_bucket t ∧ is_Some (ty_get (b_types b) (tb_bucket t)).
Proof.
  unfold table_buckets, collected. intros ([s' r'] & Hr & [= <- <- ->])%outcome_bind_Ret Hc.
  assert (s'.2 = [] ∨ is_Some (ty_get (b_types b) (tb_bucket t)) ∧ Forall (λ v, val_ty v = tb_bucket t) s'.2) as [E|[Hs Hf]].
  2: { rewrite E in Hc. by apply elem_of_nil in Hc. }
  2: { split; [|done]. rewrite Forall_forall in Hf. by apply Hf. }
  unfold walk_table_buckets in Hr.
  apply eff_bind_Ret in Hr as [(s1 & items & L & Hr)|(e & L & _)]; apply eff_lift_Ret in L as [-> Hi]; [|by left].
  destruct (items =? 0); [injection Hr as <- _; by left|].
  apply eff_bind_Ret in Hr as [(s1 & [[n ctrl] stride] & L & Hr)|(e & L & _)]; apply eff_lift_Ret in L as [-> Hsh]; [|by left].
  destruct (stride =? 0); [injection Hr as <- _; by left|].
  apply eff_bind_Ret in Hr as [(s1 & base & L & Hr)|(e & L & _)]; apply eff_lift_Ret in L as [-> _]; [|by left].
  apply eff_bind_Ret in Hr as [(s1 & control & L & Hr)|(e & L & _)]; apply eff_lift_Ret in L as [-> _]; [|by left].
  right. split.
  - unfold table_shape in Hsh. apply fbind_inl in Hsh as (? & _ & Hsh). apply fbind_inl in Hsh as (? & _ & Hsh).
    apply fbind_inl in Hsh as (? & _ & Hsh). destruct (_ <? items); [done|].
    apply fbind_inl in Hsh as (d & Hd & _). unfold ok_or_else in Hd. by destruct (ty_get _ _).
  - apply eff_bind_Ret in Hr as [(s2 & full & L & Hr)|(e & L & _)].
    + injection Hr as <- _. by eapply table_loop_types in L.
    + by eapply table_loop_types in L.
Qed.

(** *** Storage not visited holds nothing *)

(** The storage an inert type's record leaves: a table, or plain without a coroutine. *)
Lemma unbound_storage record st : is_bound record = false → storage_of record = st →
  match st with
  | StTable t => ∃ r, record = Some r ∧ ts_table r = Some t
  | StPlain => record ≫= ts_coroutine = None
  | _ => False
  end.
Proof.
  destruct record as [r|]; [|by intros _ <-]. cbn. unfold binds.
  destruct (ts_resource r), (ts_container r), (ts_access r), (ts_future r), (ts_coroutine r), (ts_storage r) eqn:?; try done;
    intros _ <-; destruct (ts_table r) eqn:?; eauto.
Qed.

Lemma inert_unbound ty record : inert_type cx ty → semantics_of cx ty = Ret record → is_bound record = false.
Proof.
  intros Hi Hr. apply not_true_iff_false. intros Hb. apply (Hi ty (rtc_refl _ _)). by eapply bound_reportable.
Qed.
Lemma inert_inside u w : inert_type cx u → inside_type cx u w → inert_type cx w.
Proof. intros Hi Hw. eapply inert_trans; [done|]. by apply rtc_once. Qed.
Lemma inert_storage v st : inert_type cx (val_ty v) → stored cx v st →
  match st with StTable _ | StPlain => True | _ => False end.
Proof.
  intros Hi (record & Hr & <-). pose proof (unbound_storage _ _ (inert_unbound _ _ Hi Hr) eq_refl) as Hs.
  by destruct (storage_of record).
Qed.

(** What is inside a value of an inert type is of one. *)
Lemma inert_part read v c : layout_plain → inert_type cx (val_ty v) → part cx read v c → inert_type cx (val_ty c).
Proof.
  intros Hp Hi Hc. destruct Hc as [c _ Hcl Hm|nm payload c _ Hcl Ha Hm|states c Hpl _|memo memo' c sel e d Hst _
    |max bg bg' cs r c Hst _ _|max bg bg' cs r c Hst _ _|t max bg bg' cs r c Hst Hb Hc];
    try (by apply (inert_storage _ _ Hi) in Hst).
  - eapply inert_inside; [done|]. by eapply member_part_inside.
  - destruct (active_payload_ty _ _ _ Ha) as (sh & vd & Hsh & Hvd & Hty).
    eapply (inert_inside (val_ty payload)).
    + rewrite Hty. eapply inert_inside; [done|]. by eapply inside_payload.
    + eapply member_part_inside; [done| |done]. rewrite Hty. by eapply payloads_plain.
  - destruct Hpl as (record & Hr & Hs & Hco).
    pose proof (unbound_storage _ _ (inert_unbound _ _ Hi Hr) Hs) as Hn. cbn in Hn. by rewrite Hn in Hco.
  - destruct Hst as (record & Hr & Hs).
    destruct (unbound_storage _ _ (inert_unbound _ _ Hi Hr) Hs) as (rec & -> & Ht).
    destruct (table_buckets_types _ _ _ _ _ _ _ _ _ Hb Hc) as [-> Hsome].
    eapply inert_inside; [done|]. by eapply inside_bucket.
Qed.

Lemma inert_within read v c : layout_plain → inert_type cx (val_ty v) → within cx read v c → inert_type cx (val_ty c).
Proof. intros Hp Hi Hw. induction Hw as [|x y z Hxy _ IH]; [done|]. apply IH. by eapply inert_part. Qed.

Lemma inert_not_observed statics read v o : inert_type cx (val_ty v) → ¬ observed_as cx statics read v o.
Proof. intros Hi [Hst _]. by apply (inert_storage _ _ Hi) in Hst. Qed.
Lemma inert_not_asks statics read v k q : inert_type cx (val_ty v) → ¬ asks cx statics read v k q.
Proof. intros Hi Ha. destruct Ha; by eapply inert_not_observed. Qed.
Lemma inert_not_refers statics read v source t from : inert_type cx (val_ty v) → ¬ refers cx statics read v source t from.
Proof.
  intros Hi Hr. destruct Hr; try by eapply inert_not_observed. by apply (inert_storage _ _ Hi) in H1.
Qed.
(** Nothing inside a value of an inert type makes a reference. *)
Lemma inert_silent statics read v c source t from : layout_plain → inert_type cx (val_ty v) → within cx read v c →
  ¬ names cx statics read c source t from.
Proof.
  intros Hp Hi Hw Hn. pose proof (inert_within _ _ _ Hp Hi Hw) as Hc.
  destruct Hn; [by eapply inert_not_refers|by eapply inert_not_asks].
Qed.

(** *** What a visit not skipped would say *)

Context (statics : list (StaticRole * StaticDef)) (read : ReadContext) (rt : option TaskAddr).
Context (P : Sunk → Prop).

#[local] Instance hands_only_preorder : PreOrder (hands_only P).
Proof.
  split.
  - intros s. exists []. by rewrite app_nil_r.
  - intros s1 s2 s3 (n1 & H1 & F1) (n2 & H2 & F2). exists (n1 ++ n2). rewrite H2, H1, app_assoc.
    split; [done|]. by apply Forall_app.
Qed.
Lemma hands_quiet {A} (m : scanning A) : (∀ s s' r, m s = Ret (s', r) → sc_sink s' = sc_sink s) → keeps_rel (hands_only P) m.
Proof. intros Hm s s' r Hr. exists []. rewrite (Hm _ _ _ Hr), app_nil_r. done. Qed.
Lemma hands_modify g : (∀ s, sc_sink (g s) = sc_sink s) → keeps_rel (hands_only P) (eff_modify (E := Empty_set) g).
Proof. intros Hg. apply hands_quiet. intros s s' r [= <- _]. apply Hg. Qed.
Lemma hands_report i : P (SunkIssue i) → keeps_rel (hands_only P) (report i).
Proof. intros Hi. apply keeps_modify. intros s. exists [SunkIssue i]. split; [done|]. by constructor. Qed.
Lemma hands_lifted {A B} (m : outcome A) (f : A → scanning B) :
  (∀ a, m = Ret a → keeps_rel (hands_only P) (f a)) → keeps_rel (hands_only P) (eff_bind (lifted m) f).
Proof.
  intros Hf s s' r. unfold eff_bind, lifted, eff_lift, infallible. destruct m as [a|]; [|done]. by apply Hf.
Qed.
Lemma hands_budget {A B} (m : ScanBudget → outcome (ScanBudget * A)) (f : A → scanning B) :
  (∀ bg bg' a, m bg = Ret (bg', a) → keeps_rel (hands_only P) (f a)) →
  keeps_rel (hands_only P) (eff_bind (on_budget m) f).
Proof.
  intros Hf s s' r. unfold eff_bind, on_budget. destruct (m (sc_budget s)) as [[bg a]|] eqn:E; [|done].
  intros Hr. apply (Hf _ _ _ E) in Hr as (new & Hn & ?). by exists new.
Qed.
Lemma hands_path f : keeps_rel (hands_only P) (eff_modify (E := Empty_set) (set_path f)).
Proof. by apply hands_modify. Qed.
Lemma hands_enter k : keeps_rel (hands_only P) (enter_seen k).
Proof. unfold enter_seen. keeps. by apply hands_modify. Qed.
#[local] Hint Resolve hands_path hands_enter : keeps.

Context (scan : Value → Z → Frame → scanning ()).
Context (Hscan : ∀ v d f, keeps_rel (hands_only P) (scan v d f)).

Lemma hands_part at_ st depth frame :
  (∀ e, execute_steps b (cc_proc cx) read [st] at_ = Ret (inr e) → P (SunkIssue (issue_of (value_key at_) (AeSteps e)))) →
  keeps_rel (hands_only P) (step_part cx read scan at_ st depth frame).
Proof.
  intros HP. unfold step_part. apply hands_lifted. intros [[child| |]|e] Hw; [|keeps|keeps|].
  - unfold push_path, pop_path. keeps.
  - by apply hands_report, HP.
Qed.
Lemma hands_members v depth frame :
  (∀ st e, execute_steps b (cc_proc cx) read [st] v = Ret (inr e) → P (SunkIssue (issue_of (value_key v) (AeSteps e)))) →
  keeps_rel (hands_only P) (scan_members cx read scan v depth frame).
Proof.
  intros HP. unfold scan_members. apply hands_lifted. intros ms _. apply keeps_each; [typeclasses eauto|].
  intros m. unfold scan_member. apply hands_lifted. intros size _. destruct (size =? 0); [keeps|].
  apply hands_part. intros e. apply HP.
Qed.

(** A visit of a value of an inert type, not skipped, hands over of its own no reference,
    and only the issues of its own storage. *)
Context (v : Value) (Hown : ∀ i, own_issue cx read v i → P (SunkIssue i)).

Lemma hands_table t depth frame : stored cx v (StTable t) →
  keeps_rel (hands_only P) (scan_table cx read scan v (value_key v) t depth frame).
Proof.
  intros Ht. unfold scan_table, scan_limits. apply keeps_bind; [typeclasses eauto|keeps|]. intros lim.
  apply hands_budget. intros bg bg' [buckets r] Hb. apply keeps_bind; [typeclasses eauto| |].
  - destruct r as [count|stop].
    + destruct (_ =? _); [keeps|]. apply hands_report, Hown. by eapply own_count.
    + apply hands_report, Hown. by eapply own_table.
  - intros _. unfold push_path, pop_path. keeps.
Qed.
Lemma hands_class depth frame : inert_type cx (val_ty v) →
  keeps_rel (hands_only P) (scan_class cx read scan v (value_key v) depth frame).
Proof.
  intros Hi. unfold scan_class. apply hands_lifted. intros cl Hcl.
  destruct cl as [| | |element n| | | | |]; try (apply keeps_ret; typeclasses eauto).
  - apply hands_lifted. intros a Ha. destruct a; [|keeps].
    destruct (Hi _ (rtc_refl _ _)). unfold holds_aggregates in Ha.
    apply outcome_bind_Ret in Ha as (ce & He & [= Ha]). eapply reported_array; [done..|]. by destruct ce.
  - apply hands_members. intros st e He. by eapply Hown, own_step.
  - apply hands_lifted. intros [[nm payload]|e] Ha.
    + unfold push_path, pop_path. keeps. apply hands_members. intros st e He. by eapply Hown, own_payload.
    + unfold report_named. apply hands_lifted. intros ty Hty. by apply hands_report, Hown, own_variant.
Qed.
Lemma inert_hands record depth frame :
  inert_type cx (val_ty v) → semantics_of cx (val_ty v) = Ret record →
  keeps_rel (hands_only P) (scan_storage cx statics read rt scan v (value_key v) record depth frame).
Proof.
  intros Hi Hr. pose proof (inert_unbound _ _ Hi Hr) as Hb.
  pose proof (unbound_storage _ _ Hb eq_refl) as Hs. unfold scan_storage.
  destruct (storage_of record) as [| |t| | |] eqn:Est; try done.
  - unfold once. keeps; apply hands_table; by exists record.
  - assert (is_some_future record = false) as Hf.
    { destruct record as [r|]; [|done]. destruct (unbound_record _ _ Hr Hb) as (_ & _ & _ & Hf & _).
      unfold is_some_future. cbn. by rewrite Hf. }
    rewrite Hs, Hf. unfold future_origin. cbn [andb negb]. apply keeps_bind; [typeclasses eauto|keeps|].
    intros [[d f]|]; [|keeps]. by apply hands_class.
Qed.
End inert.
