(* ===== verification/ScanTheorems.v ===== *)
(** A scan of a value's storage against what the storage holds: it ends within its budget,
    hands over references only of what the value reaches, reports whatever it could not do,
    and when it reports nothing, has handed over every reference there is. *)

From S2P Require Import Prelude Text StringTable Target Symbols TaskGraph Discovery Schema BundleCheck TypeView DisplayResolve DisplayEval Value Elements Pairing Semantics Contract ContractFacts Chain MemoryDemo TaskHeader OwnedLists Runtimes Effects Registries Containers Observe Scan ScanFacts ScanSpec Work.

Local Open Scope Z_scope.

(** ** What a run achieves *)

Section tours.
Context `{Demangler} `{StreamObservers} {T : Type} `{!Target T}.
Context (cx : ChainCtx T) (statics : list (StaticRole * StaticDef)) (read : ReadContext) (rt : option TaskAddr).
Abbreviation b := (cc_bundle cx).
Abbreviation proc := (cc_proc cx).
Abbreviation inert_ty := (inert_type cx).
Abbreviation part_of := (part cx read).
Abbreviation asks_of := (asks cx statics read).
Abbreviation refers_of := (refers cx statics read).
Abbreviation queued_of := (queued cx statics read).
Implicit Types (s : Scanner) (v c : Value).

(** The values the scan may meet. *)
Context (W : Value → Prop).
Hypothesis W_part : ∀ v c, W v → part_of v c → W c.

(** What the values met must be for a scan to be able to find all of them: a key is of one
    value and of one kind of queue, where an adapter leads does not depend on what is
    remembered of symbols, and layouts name their members. *)
Record world : Prop := mkWorld {
  keys_determine v v' : W v → W v' → value_key v = value_key v' → v = v';
  kinds_agree v v' k k' q : W v → W v' → asks_of v k q → asks_of v' k' q → k = k';
  adapters_stable v m1 m1' r1 m2 m2' r2 : W v → access_referent cx read v m1 = Ret (m1', r1) →
    access_referent cx read v m2 = Ret (m2', r2) → r1 = r2;
  layouts_plain : layout_plain cx
}.

(** A reference handed over is one some value met names. *)
Definition justified (r : TaskReference) : Prop :=
  rf_root_task r = rt ∧ ∃ v from, W v ∧ names cx statics read v (rf_source r) (rf_target r) from ∧
    rf_source_value r = Some from.
Definition emitted s (source : ReferenceSource) (t : Z) : Prop :=
  ∃ r, r ∈ sunk_references (sc_sink s) ∧ rf_source r = source ∧ rf_target r = t.

(** What is remembered of a [Notify]'s waiters is of its queue, and is all of it. *)
Definition notify_sound s : Prop := ∀ q l, mm_notify (sc_memos s) !! q = Some l → ∀ t, t ∈ l → queued_of QNotify q t.
Definition notify_full s : Prop := ∀ q l, mm_notify (sc_memos s) !! q = Some l → ∀ t, queued_of QNotify q t → t ∈ l.
Definition memos_full s : Prop := inert_memo_ok cx (mm_inert (sc_memos s)) ∧ notify_full s.

(** What a value met owes of its own. *)
Definition obliged v s : Prop :=
  (∀ source t from, refers_of v source t from → emitted s source t) ∧ ∀ k q, asks_of v k q → q ∈ sc_queues s.

(** A value all is handed over of, but for what is inside values entered. *)
Inductive settled s v : Prop :=
  | settled_inert : inert_ty (val_ty v) → settled s v
  | settled_seen : value_key v ∈ sc_seen s → settled s v
  | settled_open : obliged v s → (∀ c, part_of v c → settled s c) → settled s v.
Definition opened v s : Prop := inert_ty (val_ty v) ∨ obliged v s ∧ ∀ c, part_of v c → settled s c.

Definition drained (k : QueueKind) (q : ValueKey) s : Prop := ∀ t, queued_of k q t → emitted s (queue_source k) t.

(** What is entered between two states is opened, and the queues drained. *)
Record fresh s s' : Prop := mkFresh {
  fresh_seen v : W v → value_key v ∈ sc_seen s' → value_key v ∈ sc_seen s ∨ opened v s';
  fresh_queues v k q : W v → asks_of v k q → q ∈ sc_queues s' → q ∈ sc_queues s ∨ drained k q s'
}.

(** One state after another: only justified references are new, and where the scan is
    complete nothing is left half done. *)
Record tour s s' : Prop := mkTour {
  tour_moves : moves s s';
  tour_sound : notify_sound s → notify_sound s' ∧ ∃ new, sc_sink s' = sc_sink s ++ new ∧
    ∀ r, r ∈ sunk_references new → justified r;
  tour_full : world → memos_full s → sc_complete s' = true → memos_full s' ∧ fresh s s'
}.

Definition gives (G : Scanner → Prop) (m : scanning ()) : Prop := ∀ s s' r, notify_sound s → m s = Ret (s', r) →
  tour s s' ∧ (world → memos_full s → sc_complete s' = true → G s').

(** What a run achieves stays achieved. *)
Definition mono (G : Scanner → Prop) : Prop := ∀ s s', moves s s' → G s → G s'.

Lemma mono_emitted source t : mono (λ s, emitted s source t).
Proof.
  intros s s' [_ _ _ _ (new & Hs & _)] (r & Hr & ?). exists r. split; [|done].
  rewrite Hs, sunk_references_app. set_solver.
Qed.
Lemma mono_obliged v : mono (obliged v).
Proof.
  intros s s' Hm [Hr Hq]. split; [intros source t from Hn; eapply mono_emitted; eauto|].
  intros k q Ha. destruct Hm. set_solver.
Qed.
Lemma mono_settled v : mono (λ s, settled s v).
Proof.
  intros s s' Hm Hs. induction Hs as [v Hi|v Hin|v Ho _ IH]; [by apply settled_inert|apply settled_seen|].
  - destruct Hm. set_solver.
  - apply settled_open; [by eapply mono_obliged|done].
Qed.
Lemma mono_opened v : mono (opened v).
Proof.
  intros s s' Hm [Hi|[Ho Hc]]; [by left|right]. split; [by eapply mono_obliged|].
  intros c Hp. eapply mono_settled; eauto.
Qed.
Lemma mono_drained k q : mono (drained k q).
Proof. intros s s' Hm Hd t Ht. eapply mono_emitted; eauto. Qed.
Lemma mono_all {A} (P : A → Prop) (G : A → Scanner → Prop) : (∀ a, mono (G a)) → mono (λ s, ∀ a, P a → G a s).
Proof. intros Hg s s' Hm Ha a Hp. eapply Hg; eauto. Qed.
Lemma mono_const (P : Prop) : mono (λ _, P).
Proof. by intros s s'. Qed.
Lemma opened_settled v s : opened v s → settled s v.
Proof. intros [?|[? ?]]; [by apply settled_inert|by apply settled_open]. Qed.

Lemma fresh_trans s1 s2 s3 : fresh s1 s2 → fresh s2 s3 → moves s2 s3 → fresh s1 s3.
Proof.
  intros [S1 Q1] [S2 Q2] Hm. split.
  - intros v Hv Hin. destruct (S2 v Hv Hin) as [Hin2|]; [|by right].
    destruct (S1 v Hv Hin2); [by left|right]. by eapply mono_opened.
  - intros v k q Hv Ha Hin. destruct (Q2 v k q Hv Ha Hin) as [Hin2|]; [|by right].
    destruct (Q1 v k q Hv Ha Hin2); [by left|right]. by eapply mono_drained.
Qed.

#[local] Instance tour_preorder : PreOrder tour.
Proof.
  split.
  - intros s. split; [done| |].
    + intros Hn. split; [done|]. exists []. rewrite app_nil_r. split; [done|]. by intros r ?%elem_of_nil.
    + intros _ Hf _. split; [done|]. split; [by left|by left].
  - intros s1 s2 s3 [M1 S1 F1] [M2 S2 F2]. split; [by etransitivity| |].
    + intros Hn. destruct (S1 Hn) as (Hn2 & n1 & E1 & J1). destruct (S2 Hn2) as (Hn3 & n2 & E2 & J2).
      split; [done|]. exists (n1 ++ n2). rewrite E2, E1, app_assoc. split; [done|].
      intros r. rewrite sunk_references_app. intros [?|?]%elem_of_app; auto.
    + intros Hw Hf Hc. destruct (F1 Hw Hf) as [Hf2 X1]; [by apply M2|]. destruct (F2 Hw Hf2 Hc) as [Hf3 X2].
      split; [done|]. by eapply fresh_trans.
Qed.

(** A step that leaves what is entered, handed over and remembered alone. *)
Lemma tour_quiet s s' : moves s s' → sc_seen s' = sc_seen s → sc_queues s' = sc_queues s → sc_sink s' = sc_sink s →
  mm_notify (sc_memos s') = mm_notify (sc_memos s) →
  (inert_memo_ok cx (mm_inert (sc_memos s)) → inert_memo_ok cx (mm_inert (sc_memos s'))) → tour s s'.
Proof.
  intros Hm Hs Hq Hk Hn Hi. split; [done| |].
  - unfold notify_sound. rewrite Hn. intros Hok. split; [done|]. exists []. rewrite app_nil_r. split; [done|].
    by intros r ?%elem_of_nil.
  - unfold memos_full, notify_full. rewrite Hn. intros _ [Hok Hf] _. split; [by split; [apply Hi|]|].
    split; rewrite ?Hs, ?Hq; by left.
Qed.

(** *** Computations by their shape *)

Lemma gives_weaken (G G' : Scanner → Prop) (m : scanning ()) : (∀ s, G s → G' s) → gives G m → gives G' m.
Proof. intros Hg Hm s s' r Hn Hr. destruct (Hm _ _ _ Hn Hr) as [Ht Hf]. eauto. Qed.
Lemma gives_ret (G : Scanner → Prop) : (∀ s, G s) → gives G (eff_ret ()).
Proof. intros Hg s s' r _ [= <- _]. split; [done|]. eauto. Qed.
Lemma gives_seq G1 G2 (m k : scanning ()) : gives G1 m → gives G2 k → mono G1 →
  gives (λ s, G1 s ∧ G2 s) (eff_bind m (λ _, k)).
Proof.
  intros Hm Hk Hg s s' r Hn Hr. apply eff_bind_Ret in Hr as [(s1 & [] & H1 & H2)|([] & _)].
  destruct (Hm _ _ _ Hn H1) as [T1 F1]. destruct (tour_sound _ _ T1 Hn) as [Hn1 _].
  destruct (Hk _ _ _ Hn1 H2) as [T2 F2]. split; [by etransitivity|].
  intros Hw Hf Hc. assert (sc_complete s1 = true) as Hc1 by by apply T2.
  destruct (tour_full _ _ T1 Hw Hf Hc1) as [Hf1 _]. split; [|by apply F2]. eapply Hg; [by apply T2|]. by apply F1.
Qed.
(** What goes before or after for its effect alone. *)
Abbreviation quiet := (gives (λ _, True)).
Lemma gives_after G (m k : scanning ()) : quiet m → gives G k → gives G (eff_bind m (λ _, k)).
Proof.
  intros Hm Hk. eapply gives_weaken, (gives_seq (λ _, True)); [by intros s [_ ?]|done|done|by intros ? ?].
Qed.
Lemma gives_before G (m k : scanning ()) : gives G m → quiet k → mono G → gives G (eff_bind m (λ _, k)).
Proof.
  intros Hm Hk Hg. eapply gives_weaken, (gives_seq _ (λ _, True)); [by intros s [? _]|done|done|done].
Qed.
Lemma gives_each {A} (G : A → Scanner → Prop) f l : (∀ a, a ∈ l → gives (G a) (f a)) → (∀ a, mono (G a)) →
  gives (λ s, ∀ a, a ∈ l → G a s) (eff_each f l).
Proof.
  intros Hf Hg. induction l as [|a l IH]; cbn [eff_each].
  - apply gives_ret. by intros s a ?%elem_of_nil.
  - eapply gives_weaken, gives_seq; [|apply Hf; by left|apply IH; intros; apply Hf; by right|done].
    intros s [Ha Hl] a' [->|?]%elem_of_cons; [done|by apply Hl].
Qed.
Lemma gives_lifted {A} G (m : outcome A) f : (∀ a, m = Ret a → gives G (f a)) → gives G (eff_bind (lifted m) f).
Proof.
  intros Hf s s' r Hn Hr. apply eff_bind_Ret in Hr as [(s1 & a & H1 & H2)|([] & _)].
  apply eff_lift_Ret in H1 as [-> Hm%infallible_inl]. by apply (Hf a Hm) in H2.
Qed.
Lemma gives_get {A} G (g : Scanner → A) f : (∀ a, gives G (f a)) → gives G (eff_bind (eff_get g) f).
Proof.
  intros Hf s s' r Hn Hr. apply eff_bind_Ret in Hr as [(s1 & a & [= <- <-] & H2)|([] & _)]. by eapply Hf.
Qed.
Lemma gives_quiet {A} G (m : scanning A) f (K : A → Prop) :
  (∀ s s' a, m s = Ret (s', inl a) → tour s s' ∧ K a) → (∀ a, K a → gives G (f a)) → gives G (eff_bind m f).
Proof.
  intros Hm Hf s s' r Hn Hr. apply eff_bind_Ret in Hr as [(s1 & a & H1 & H2)|([] & _)].
  destruct (Hm _ _ _ H1) as [T1 Hk]. destruct (tour_sound _ _ T1 Hn) as [Hn1 _].
  destruct (Hf a Hk _ _ _ Hn1 H2) as [T2 F2]. split; [by etransitivity|].
  intros Hw Hi Hc. apply F2; [done| |done]. apply T1; [done|done|]. by apply T2.
Qed.
Lemma gives_budget {A} G (m : ScanBudget → outcome (ScanBudget * A)) f :
  (∀ bg bg' a, m bg = Ret (bg', a) → spends bg bg') →
  (∀ bg bg' a, m bg = Ret (bg', a) → gives G (f a)) → gives G (eff_bind (on_budget m) f).
Proof.
  intros Hs Hf. apply (gives_quiet _ _ _ (λ a, ∃ bg bg', m bg = Ret (bg', a))); [|intros a (bg & bg' & Hm); by eapply Hf].
  intros s s' a Hr. pose proof (on_budget_moves m Hs _ _ _ Hr) as Hm. unfold on_budget in Hr.
  destruct (m (sc_budget s)) as [[bg x]|] eqn:E; [|done]. injection Hr as <- <-. split; [|eauto]. by apply tour_quiet.
Qed.
Lemma gives_charging {A} G (m : ScanBudget → outcome (ScanBudget * A)) f : charging m →
  (∀ bg bg' a, m bg = Ret (bg', a) → gives G (f a)) → gives G (eff_bind (on_budget m) f).
Proof. intros Hc. apply gives_budget. intros bg bg' a Hm%Hc. by apply charges_spends. Qed.

(** *** Reports and references *)

Lemma gives_path f : quiet (eff_modify (set_path f)).
Proof.
  intros s s' r _ Hr. pose proof (path_moves _ _ _ _ Hr) as Hm. injection Hr as <- _. split; [by apply tour_quiet|done].
Qed.
Lemma gives_push st : quiet (push_path st).
Proof. apply gives_path. Qed.
Lemma gives_pop : quiet pop_path.
Proof. apply gives_path. Qed.

Lemma gives_incomplete G m : keeps_rel moves m →
  (∀ s s' r, m s = Ret (s', r) → sc_complete s' = false ∧ sc_memos s' = sc_memos s ∧
     ∃ new, sc_sink s' = sc_sink s ++ new ∧ sunk_references new = []) → gives G m.
Proof.
  intros Hm Hi s s' r _ Hr. destruct (Hi _ _ _ Hr) as (Hc & Hmm & new & Hs & Hn). split; [split|].
  - by apply Hm in Hr.
  - unfold notify_sound. rewrite Hmm. intros Hok. split; [done|]. exists new. rewrite Hn. split; [done|].
    by intros x ?%elem_of_nil.
  - by rewrite Hc.
  - by rewrite Hc.
Qed.
Lemma gives_report G i : gives G (report i).
Proof.
  apply gives_incomplete; [apply report_moves|]. intros s s' r [= <- _]. split; [done|]. split; [done|].
  by exists [SunkIssue i].
Qed.
Lemma gives_report_named G v key kind detail : gives G (report_named cx v key kind detail).
Proof. apply gives_lifted. intros. apply gives_report. Qed.
Lemma gives_node_stop G at_ stop : gives G (node_stop at_ stop).
Proof. apply gives_report. Qed.
Lemma gives_visit_refused G key : gives G (visit_refused key).
Proof.
  apply gives_incomplete; [apply visit_refused_moves|]. intros s s' r. unfold visit_refused. cbn.
  destruct (sc_visits_spent s); intros [= <- _]; (split; [done|]); (split; [done|]); cbn.
  - exists []. by rewrite app_nil_r.
  - by eexists [_].
Qed.
Lemma gives_report_all l : gives (λ _, l = []) (report_all l).
Proof.
  destruct l as [|i l]; [by apply gives_ret|]. apply gives_before; [apply gives_report| |by intros ? ?].
  eapply gives_weaken, (gives_each (λ _ _, True)); [done|intros; apply gives_report|by intros ? ?].
Qed.
Lemma gives_stopped {R} at_ (r : R + NodeStop) : gives (λ _, ∃ a, r = inl a) (stopped at_ r).
Proof. destruct r as [a|e]; [apply gives_ret; eauto|apply gives_report]. Qed.

(** A reference justified is handed over. *)
Lemma gives_reference t source from v : W v → names cx statics read v source t from →
  gives (λ s, emitted s source t) (reference rt t source from).
Proof.
  intros Hv Hn. unfold reference. apply gives_get. intros path s s' r _ Hr.
  pose proof (emit_moves _ _ _ _ Hr) as Hm. injection Hr as <- _. set (ref := mkReference _ _ _ _ _).
  split; [split; [done| |]|].
  - intros Hok. split; [done|]. exists [SunkReference ref]. split; [done|].
    intros x ->%list_elem_of_singleton. split; [done|]. by exists v, from.
  - intros _ Hf _. split; [done|]. by split; left.
  - intros _ _ _. exists ref. split; [|done]. cbn. rewrite sunk_references_app. set_solver.
Qed.
Lemma gives_references l source from v : W v → (∀ t, t ∈ l → names cx statics read v source t from) →
  gives (λ s, ∀ t, t ∈ l → emitted s source t) (references rt l source from).
Proof.
  intros Hv Hn. apply gives_each; [|intros; apply mono_emitted]. intros t Ht. apply (gives_reference _ _ _ v); auto.
Qed.

(** *** What is entered *)

Lemma tour_enter s s1 s' : moves s s1 → sc_sink s1 = sc_sink s → sc_memos s1 = sc_memos s → tour s1 s' →
  (world → memos_full s → sc_complete s' = true → fresh s1 s' → fresh s s') → tour s s'.
Proof.
  intros Hm Hs Hmm [M S F] Hfr. split; [by etransitivity| |].
  - intros Hn. rewrite <- Hs. apply S. unfold notify_sound. by rewrite Hmm.
  - intros Hw Hf Hc. assert (memos_full s1) as Hf1 by (unfold memos_full, notify_full; by rewrite Hmm).
    destruct (F Hw Hf1 Hc) as [? ?]. split; [done|]. by apply Hfr.
Qed.

(** A value entered is opened by what is done with it the first time. *)
Lemma gives_entered v m s s1 s' r : W v → gives (opened v) m → notify_sound s →
  s1 = add_seen (value_key v) s → m s1 = Ret (s', r) →
  tour s s' ∧ (world → memos_full s → sc_complete s' = true → opened v s').
Proof.
  intros Hv Hm Hn -> Hr. destruct (Hm (add_seen (value_key v) s) s' r Hn Hr) as [Ht Ho]. split; [|done].
  eapply tour_enter; [| | |exact Ht|]; [|done|done|].
  { apply moves_quiet; try done. cbn. set_solver. }
  intros Hw Hf Hc [Fs Fq]. split; [|done]. intros v' Hv' Hin.
  destruct (Fs v' Hv' Hin) as [[Hk%elem_of_singleton|?]%elem_of_union|]; [right|by left|by right].
  rewrite (keys_determine Hw v' v Hv' Hv Hk). by apply Ho.
Qed.
Lemma gives_seen v m : W v → gives (opened v) m →
  gives (λ s, settled s v) (eff_bind (enter_seen (value_key v)) (λ first : bool, if first then m else eff_ret ())).
Proof.
  intros Hv Hm s s' r Hn Hr. unfold enter_seen in Hr. cbn in Hr. unfold eff_bind in Hr at 1. cbn in Hr.
  case_bool_decide as Hin; cbn in Hr.
  - injection Hr as <- _. split; [done|]. intros _ _ _. by apply settled_seen.
  - destruct (gives_entered v m s _ s' r Hv Hm Hn eq_refl Hr) as [Ht Ho]. split; [done|].
    intros. by apply opened_settled, Ho.
Qed.
Lemma gives_queue v k q m : W v → asks_of v k q → gives (drained k q) m →
  gives (λ s, q ∈ sc_queues s) (eff_bind (enter_queue q) (λ first : bool, if first then m else eff_ret ())).
Proof.
  intros Hv Ha Hm s s' r Hn Hr. unfold enter_queue in Hr. cbn in Hr. unfold eff_bind in Hr at 1. cbn in Hr.
  case_bool_decide as Hin; cbn in Hr.
  { injection Hr as <- _. by split. }
  destruct (Hm (add_queue q s) s' r Hn Hr) as [Ht Hd]. split.
  2: { intros _ _ _. apply (mv_queues _ _ (tour_moves _ _ Ht)). set_solver. }
  eapply tour_enter; [| | |exact Ht|]; [|done|done|].
  { apply moves_quiet; try done. cbn. set_solver. }
  intros Hw Hf Hc [Fs Fq]. split; [done|]. intros v' k' q' Hv' Ha' Hin'.
  destruct (Fq v' k' q' Hv' Ha' Hin') as [[->%elem_of_singleton|?]%elem_of_union|]; [right|by left|by right].
  rewrite (kinds_agree Hw v' v k' k q Hv' Hv Ha' Ha). by apply Hd.
Qed.

(** The wakers of a queue, handed over as the observation's issues are. *)
Lemma gives_wakers v k q l issues : W v → asks_of v k q → (∀ t, t ∈ l → queued_of k q t) →
  (issues = [] → ∀ t, queued_of k q t → t ∈ l) →
  gives (drained k q) (eff_bind (report_all issues) (λ _, references rt l (queue_source k) (value_key v))).
Proof.
  intros Hv Ha Hl Hall. eapply gives_weaken, gives_seq; [|apply gives_report_all| |apply mono_const].
  2: { eapply (gives_references _ _ _ v); [done|]. intros t Ht. apply (names_queued _ _ _ _ k q t); auto. }
  intros s [Hi He] t Ht. by apply He, Hall.
Qed.

(** *** Resources *)

Lemma stored_eq v st st' : stored cx v st → stored cx v st' → st = st'.
Proof. intros (r1 & H1 & <-) (r2 & H2 & <-). congruence. Qed.
Lemma plain_stored v states : plain cx v states → stored cx v StPlain.
Proof. intros (r1 & ? & ? & _). by exists r1. Qed.

(** Where an adapter leads. *)
Definition referent v c : Prop := ∃ memo memo' sel e d, access_referent cx read v memo = Ret (memo', Some (NxNext c sel e d)).
(** What is inside a value, by its storage. *)
Definition part_via v (st : Storage) c : Prop :=
  match st with
  | StPlain =>
      (plain cx v None ∧ classify b (val_ty v) = Ret CStruct ∧ member_part cx read v c) ∨
      (∃ nm payload, plain cx v None ∧ classify b (val_ty v) = Ret CRustEnum ∧
         active_variant_raw b v = Ret (inl (nm, payload)) ∧ member_part cx read payload c) ∨
      ∃ states, plain cx v (Some states) ∧ local_part cx read v states c
  | StAdapter => referent v c
  | StContainer CkFuturesUnordered => ∃ max bg bg' cs r, set_children cx read v max bg = Ret (bg', (cs, r)) ∧ c ∈ cs
  | StContainer CkStreamMap => ∃ max bg bg' cs r, fanout_children cx read v max bg = Ret (bg', (cs, r)) ∧ c ∈ cs
  | StTable t => ∃ max bg bg' cs r, table_buckets cx read v t max bg = Ret (bg', (cs, r)) ∧ c ∈ cs
  | StResource | StContainer CkJoinSet | StUnavailable _ => False
  end.
Lemma part_storage v st c : stored cx v st → part_of v c → part_via v st c.
Proof.
  intros Hst Hp. destruct Hp as [c Hpl|nm payload c Hpl|states c Hpl|memo memo' c sel e d Hst'
    |max bg bg' cs r c Hst'|max bg bg' cs r c Hst'|t max bg bg' cs r c Hst'];
    (apply plain_stored in Hpl as Hst' || idtac); rewrite (stored_eq _ _ _ Hst Hst'); cbn.
  - by left.
  - right; left. eauto 10.
  - right; right. eauto.
  - by exists memo, memo', sel, e, d.
  - eauto 10.
  - eauto 10.
  - eauto 10.
Qed.

(** What an observation owes. *)
Definition waker_owed (w : option QueuedWaker) s : Prop :=
  ∀ t, t ∈ option_list (w ← w; waker_task w) → emitted s OneshotWaker t.
Definition owed (o : ResourceObservation) s : Prop :=
  match o with
  | RoJoin o => emitted s JoinHandle (jo_header o)
  | RoAcquire o => aq_semaphore o ∈ sc_queues s
  | RoIo o => scheduled_io o ∈ sc_queues s
  | RoRecv o => rc_chan o ∈ sc_queues s
  | RoNotified o => nt_notify o ∈ sc_queues s
  | RoOneshot o => waker_owed (os_rx_waker o) s
  | RoHttpConn o =>
      match hc_client o with
      | None => True
      | Some client => match hc_rx client with Some chan => chan ∈ sc_queues s | None => True end ∧
                       waker_owed (hc_callback client ≫= os_tx_waker) s
      end
  | RoTimer _ | RoHttpNegotiating _ => True
  end.

Lemma elem_of_option_list {A} (o : option A) x : x ∈ option_list o ↔ o = Some x.
Proof.
  destruct o; cbn; [|split; [by intros ?%elem_of_nil|done]]. rewrite list_elem_of_singleton. split; congruence.
Qed.
Lemma observed_eq v observed o : observe_resource cx statics read v = Ret observed →
  observed_as cx statics read v o → ob_value observed = Some o.
Proof. intros Ho (_ & iss & Ho'). rewrite Ho in Ho'. by injection Ho' as ->. Qed.

Lemma obliged_resource v observed s : stored cx v StResource → observe_resource cx statics read v = Ret observed →
  match ob_value observed with Some o => owed o s | None => True end → obliged v s.
Proof.
  intros Hst Ho Hw. split.
  - intros source t from Hr. destruct Hr as [o Hob|o w t Hob Hwk Ht|o client cb w t Hob Hcl Hcb Hwk Ht|? ? ? ? ? ? ? ? Hst'];
      [| | |by apply (stored_eq _ _ _ Hst) in Hst'];
      rewrite (observed_eq _ _ _ Ho Hob) in Hw; cbn in Hw.
    + done.
    + apply Hw, elem_of_option_list. by rewrite Hwk.
    + rewrite Hcl in Hw. destruct Hw as [_ Hw]. apply Hw, elem_of_option_list. rewrite Hcb. cbn. by rewrite Hwk.
  - intros k q Ha. destruct Ha as [o Hob|o Hob|o Hob|o client chan Hob Hcl Hrx|o Hob];
      rewrite (observed_eq _ _ _ Ho Hob) in Hw; cbn in Hw; try done.
    rewrite Hcl, Hrx in Hw. by destruct Hw.
Qed.

(** Reading a channel, a queue, a registration. *)
Lemma gives_channel v chan : W v → asks_of v QChannel chan →
  gives (drained QChannel chan) (channel_reference cx statics read rt chan (value_key v)).
Proof.
  intros Hv Ha. unfold channel_reference. apply gives_charging; [apply channel_charging|intros bg bg' o Ho].
  apply (gives_wakers v QChannel); [done|done| |].
  - intros t Ht%elem_of_option_list. by eapply queued_channel.
  - intros Hi t Ht. apply elem_of_option_list. inversion Ht as [| |q bg2 bg2' o2 t' Ho2 Ht2|]; subst.
    by eapply channel_more.
Qed.
Lemma elem_of_wakers {A} (f : A → option Z) (l : list A) t : t ∈ omap f l ↔ ∃ x, x ∈ l ∧ f x = Some t.
Proof. apply list_elem_of_omap. Qed.
Lemma gives_semaphore v sem : W v → asks_of v QSemaphore sem →
  gives (drained QSemaphore sem) (eff_bind (on_budget (observe_semaphore_queue cx statics read sem)) (λ queue,
    eff_bind (report_all (qo_issues queue)) (λ _,
      references rt (omap (waker_task ∘ sw_waker) (qo_waiters queue)) SemaphoreWaker (value_key v)))).
Proof.
  intros Hv Ha. apply gives_charging; [apply semaphore_charging|intros bg bg' o Ho].
  apply (gives_wakers v QSemaphore); [done|done| |].
  - intros t (w & Hw & Ht)%elem_of_wakers. by eapply queued_semaphore.
  - intros Hi t Ht. inversion Ht as [q bg2 bg2' o2 w t' Ho2 Hw2 Ht2| | |]; subst. apply elem_of_wakers.
    exists w. split; [|done]. exact (semaphore_more _ _ _ _ _ _ _ _ _ _ Ho Hi Ho2 _ Hw2).
Qed.
Lemma gives_registration v io : W v → asks_of v QRegistration io →
  gives (drained QRegistration io) (eff_bind (on_budget (observe_io_registration cx statics read io)) (λ registration,
    eff_bind (report_all (ob_issues registration)) (λ _,
      references rt (omap iw_task (match ob_value registration with Some r => io_waiters r | None => [] end))
        IoWaker (value_key v)))).
Proof.
  intros Hv Ha. apply gives_charging; [apply registration_charging|intros bg bg' o Ho].
  apply (gives_wakers v QRegistration); [done|done| |].
  - intros t (w & Hw & Ht)%elem_of_wakers. by eapply queued_io.
  - intros Hi t Ht. inversion Ht as [|q bg2 bg2' o2 w t' Ho2 Hw2 Ht2| |]; subst. apply elem_of_wakers.
    exists w. split; [|done]. exact (registration_more _ _ _ _ _ _ _ _ _ _ Ho Hi Ho2 _ Hw2).
Qed.

(** What the memo of waiters answers and becomes. *)
Lemma waiter_tasks_sound q memo memo' bg bg' tasks issues :
  (∀ q l, memo !! q = Some l → ∀ t, t ∈ l → queued_of QNotify q t) →
  notify_waiter_tasks cx statics read q memo bg = Ret (memo', bg', (tasks, issues)) →
  (∀ t, t ∈ tasks → queued_of QNotify q t) ∧ ∀ q l, memo' !! q = Some l → ∀ t, t ∈ l → queued_of QNotify q t.
Proof.
  intros Hm. unfold notify_waiter_tasks. destruct (memo !! q) as [l|] eqn:Eq.
  { intros [= <- _ <- _]. split; [by eapply Hm|done]. }
  intros ([bg1 o] & Ho & [= <- _ <- _])%outcome_bind_Ret.
  assert (∀ t, t ∈ omap (waker_task ∘ nw_waker) (no_waiters o) → queued_of QNotify q t) as Ht.
  { intros t (w & Hw & Ht)%elem_of_wakers. by eapply queued_notify. }
  split; [done|]. intros q' l. destruct (decide (q' = q)) as [->|Hne].
  - rewrite lookup_insert_eq. by intros [= <-].
  - rewrite lookup_insert_ne by done. apply Hm.
Qed.
Lemma waiter_tasks_full q memo memo' bg bg' tasks issues :
  (∀ q l, memo !! q = Some l → ∀ t, queued_of QNotify q t → t ∈ l) →
  notify_waiter_tasks cx statics read q memo bg = Ret (memo', bg', (tasks, issues)) → issues = [] →
  (∀ t, queued_of QNotify q t → t ∈ tasks) ∧ ∀ q l, memo' !! q = Some l → ∀ t, queued_of QNotify q t → t ∈ l.
Proof.
  intros Hm. unfold notify_waiter_tasks. destruct (memo !! q) as [l|] eqn:Eq.
  { intros [= <- _ <- _] _. split; [by eapply Hm|done]. }
  intros ([bg1 o] & Ho & [= <- _ <- <-])%outcome_bind_Ret Hi.
  assert (∀ t, queued_of QNotify q t → t ∈ omap (waker_task ∘ nw_waker) (no_waiters o)) as Ht.
  { intros t Hq. inversion Hq as [| | |q' bg2 bg2' o2 w t' Ho2 Hw2 Ht2]; subst. apply elem_of_wakers.
    exists w. split; [|done]. exact (notify_more _ _ _ _ _ _ _ _ _ _ Ho Hi Ho2 _ Hw2). }
  split; [done|]. intros q' l. destruct (decide (q' = q)) as [->|Hne].
  - rewrite lookup_insert_eq. by intros [= <-].
  - rewrite lookup_insert_ne by done. apply Hm.
Qed.
Lemma report_all_said l s s' r : report_all l s = Ret (s', r) → sc_complete s' = true → l = [].
Proof.
  destruct l as [|i l]; [done|]. unfold report_all. cbn [eff_each].
  intros [(s1 & u & [= <- <-] & H1)|([] & _)]%eff_bind_Ret Hc.
  apply (report_all_moves l) in H1. by apply H1 in Hc.
Qed.

Lemma gives_notify v q : W v → asks_of v QNotify q →
  gives (drained QNotify q) (eff_bind (eff_get sc_memos) (λ memos,
    eff_bind (on_budget (λ bg,
      '(memo, bg, (tasks, issues)) ← notify_waiter_tasks cx statics read q (mm_notify memos) bg;
      Ret (bg, (memo, tasks, issues)))) (λ '(memo, tasks, issues),
    eff_bind (eff_modify (set_memos (mkMemos (mm_inert memos) (mm_paired memos) memo))) (λ _,
    eff_bind (report_all issues) (λ _, references rt tasks NotifyWaker (value_key v)))))).
Proof.
  intros Hv Ha s s' r Hn Hr. apply eff_bind_Ret in Hr as [(s0 & memos & [= <- <-] & Hr)|([] & _)].
  apply eff_bind_Ret in Hr as [(s0 & [[memo tasks] issues] & Hb & Hr)|([] & _)].
  unfold on_budget in Hb. apply outcome_bind_Ret in Hb as ([bg' x] & Hb & [= <- ->]).
  apply outcome_bind_Ret in Hb as ([[memo' bg1] [tasks' issues']] & Hb & [= -> -> -> ->]).
  apply eff_bind_Ret in Hr as [(s1 & u & [= <- <-] & Hr)|([] & _)]. set (s1 := set_memos _ _) in Hr.
  destruct (waiter_tasks_sound _ _ _ _ _ _ _ Hn Hb) as [Ht Hn1].
  assert (moves s s1) as Hm.
  { apply moves_quiet; try done. apply charges_spends. by eapply waiter_tasks_charging. }
  assert (gives (λ s, issues = [] ∧ ∀ t, t ∈ tasks → emitted s NotifyWaker t)
    (eff_bind (report_all issues) (λ _, references rt tasks NotifyWaker (value_key v)))) as Hg.
  { apply gives_seq; [apply gives_report_all| |apply mono_const]. apply (gives_references _ _ _ v); [done|].
    intros t Hq. apply (names_queued _ _ _ _ QNotify q t); auto. }
  destruct (Hg s1 s' r Hn1 Hr) as [T1 F1].
  assert (memos_full s → sc_complete s' = true → memos_full s1 ∧ ∀ t, queued_of QNotify q t → t ∈ tasks) as Hfull.
  { intros [Hi Hf] Hc. apply eff_bind_Ret in Hr as [(s2 & u & H1 & H2)|([] & _)].
    apply references_moves in H2. apply report_all_said in H1; [|by apply H2].
    destruct (waiter_tasks_full _ _ _ _ _ _ _ Hf Hb H1). by split; [split|]. }
  split; [split|].
  - by etransitivity; [|apply T1].
  - intros _. by destruct (tour_sound _ _ T1 Hn1).
  - intros Hw Hf Hc. destruct (Hfull Hf Hc) as [Hf1 _]. destruct (tour_full _ _ T1 Hw Hf1 Hc) as [? [? ?]]. done.
  - intros Hw Hf Hc t Hq. destruct (Hfull Hf Hc) as [Hf1 Ha1]. apply F1; auto.
Qed.

Lemma gives_waker v w : W v →
  (∀ t, t ∈ option_list (w ← w; waker_task w) → refers_of v OneshotWaker t (value_key v)) →
  gives (waker_owed w) (waker_reference rt w (value_key v)).
Proof. intros Hv Hn. apply (gives_references _ _ _ v); [done|]. intros t Ht. by apply names_own, Hn. Qed.

Lemma mono_queue q : mono (λ s, q ∈ sc_queues s).
Proof. intros s s' [_ _ Hq _ _] Hin. by apply Hq. Qed.

(** A resource hands over what its observation owes. *)
Lemma gives_resource v : W v → stored cx v StResource →
  gives (obliged v) (resource cx statics read rt v (value_key v)).
Proof.
  intros Hv Hst. unfold resource. apply gives_lifted. intros observed Ho.
  apply gives_after; [eapply gives_weaken, gives_report_all; done|].
  apply (gives_weaken (λ s, match ob_value observed with Some o => owed o s | None => True end));
    [intros s; by eapply obliged_resource|].
  assert (∀ o, ob_value observed = Some o → observed_as cx statics read v o) as Hob.
  { intros o E. split; [done|]. exists (ob_issues observed). rewrite Ho. by destruct observed; cbn in *; subst. }
  destruct (ob_value observed) as [[j|a|ti|i|rc|n|os|h|hn]|]; cbn [owed]; try (by apply gives_ret);
    specialize (Hob _ eq_refl).
  - eapply gives_reference; [done|]. by eapply names_own, refers_join.
  - apply (gives_queue v QSemaphore); [done|by apply asks_semaphore|]. by apply gives_semaphore, asks_semaphore.
  - apply (gives_queue v QRegistration); [done|by apply asks_io|]. by apply gives_registration, asks_io.
  - apply (gives_queue v QChannel); [done|by apply asks_recv|]. by apply gives_channel, asks_recv.
  - apply (gives_queue v QNotify); [done|by apply asks_notified|]. by apply gives_notify, asks_notified.
  - apply gives_waker; [done|]. intros t Ht%elem_of_option_list. destruct (os_rx_waker os) as [w|] eqn:Ew; [|done].
    by eapply refers_oneshot.
  - destruct (hc_client h) as [client|] eqn:Ec; [|by apply gives_ret].
    apply gives_seq; [| |destruct (hc_rx client); [apply mono_queue|apply mono_const]].
    + destruct (hc_rx client) as [chan|] eqn:Ex; [|by apply gives_ret].
      apply (gives_queue v QChannel); [done|by eapply asks_http|]. by eapply gives_channel, asks_http.
    + apply gives_waker; [done|]. intros t Ht%elem_of_option_list.
      destruct (hc_callback client) as [cb|] eqn:Eb; [|done]. cbn in Ht.
      destruct (os_tx_waker cb) as [w|] eqn:Ew; [|done]. by eapply refers_http.
Qed.

(** *** Containers and the descent *)

Lemma not_resource v st : stored cx v st → st ≠ StResource → ∀ o, ¬ observed_as cx statics read v o.
Proof. intros Hst Hne o [Hr _]. by rewrite (stored_eq _ _ _ Hst Hr) in Hne. Qed.
Lemma obliged_none v s : (∀ o, ¬ observed_as cx statics read v o) → ¬ stored cx v (StContainer CkJoinSet) → obliged v s.
Proof.
  intros Ho Hj. split; [intros source t from Hr|intros k q Ha].
  - destruct Hr; try by destruct (Ho _ ltac:(eassumption)). done.
  - destruct Ha; by destruct (Ho _ ltac:(eassumption)).
Qed.
Lemma obliged_other v st s : stored cx v st → st ≠ StResource → st ≠ StContainer CkJoinSet → obliged v s.
Proof.
  intros Hst Hr Hj. apply obliged_none; [by eapply not_resource|]. intros Hst'. by rewrite (stored_eq _ _ _ Hst Hst') in Hj.
Qed.

Lemma gives_join_set v : W v → stored cx v (StContainer CkJoinSet) →
  gives (obliged v) (join_set cx read rt v (value_key v)).
Proof.
  intros Hv Hst. unfold join_set. apply gives_get. intros lim.
  apply gives_charging; [apply join_entries_charging|]. intros bg bg' [[tasks n] r] Hj.
  eapply gives_weaken, (gives_seq (λ _, ∃ a, r = inl a)); [| |apply gives_after; [apply gives_push|]|apply mono_const].
  2: { destruct r as [a|e]; [|apply gives_report]. destruct (_ =? n); [|apply gives_report]. apply gives_ret. eauto. }
  2: { apply gives_before; [|apply gives_pop|].
       - apply (gives_each (λ e s, emitted s JoinSetEntry e.2)); [|intros e; apply mono_emitted]. intros [a t] He.
         apply (gives_reference _ _ _ v); [done|]. by eapply names_own, refers_entry.
       - apply (mono_all (λ e, e ∈ tasks)). intros e. apply mono_emitted. }
  intros s [[[] ->] He]. split.
  - intros source t from Hr.
    destruct Hr as [o Hob|o w t Hob|o client cb w t Hob|max2 bg2 bg2' tasks2 n2 r2 entry t _ Hj2 Hin];
      try (by destruct (not_resource _ _ Hst ltac:(done) _ Hob)).
    apply (He (entry, t)). exact (join_entries_more _ _ _ _ _ _ _ _ _ _ _ _ _ _ _ Hj Hj2 _ Hin).
  - intros k q Ha. destruct Ha as [? Hob|? Hob|? Hob|? ? ? Hob|? Hob];
      by destruct (not_resource _ _ Hst ltac:(done) _ Hob).
Qed.

Section descent.
Context (scan : Value → Z → Frame → scanning ()).
(** What scanning a value gives: an origin is opened, and anything else settled. *)
Definition scanned v (depth : Z) s : Prop := if depth =? 0 then opened v s else settled s v.
Hypothesis scan_gives : ∀ v depth frame, W v → gives (scanned v depth) (scan v depth frame).

Lemma scanned_settled v depth s : scanned v depth s → settled s v.
Proof. unfold scanned. destruct (depth =? 0); [apply opened_settled|done]. Qed.
Lemma gives_scan v depth frame : W v → gives (λ s, settled s v) (scan v depth frame).
Proof. intros Hv. eapply gives_weaken, scan_gives; [|done]. intros s. apply scanned_settled. Qed.
Lemma gives_root v frame : W v → gives (λ s, settled s v) (root scan v frame).
Proof. intros Hv. apply gives_seen; [done|]. exact (scan_gives v 0 frame Hv). Qed.

Abbreviation all_settled P := (λ s, ∀ c, P c → settled s c).
Lemma mono_all_settled (P : Value → Prop) : mono (all_settled P).
Proof. apply (mono_all P (λ c s, settled s c)). intros c. apply mono_settled. Qed.

Lemma gives_step_part at_ st depth frame : (∀ c, steps_to cx read at_ st c → W c) →
  gives (all_settled (steps_to cx read at_ st)) (step_part cx read scan at_ st depth frame).
Proof.
  intros Hw. unfold step_part. apply gives_lifted. intros w Hs.
  destruct w as [[c|?|]|e]; [|apply gives_ret; intros s c Hc; unfold steps_to in Hc; congruence..|apply gives_report].
  apply gives_after; [apply gives_push|]. apply gives_before; [|apply gives_pop|apply mono_all_settled].
  eapply gives_weaken, (gives_scan c); [|by apply Hw]. intros s Hc c' Hc'. unfold steps_to in Hc'.
  rewrite Hs in Hc'. by injection Hc' as <-.
Qed.
Lemma gives_members v depth frame : (∀ c, member_part cx read v c → W c) →
  gives (all_settled (member_part cx read v)) (scan_members cx read scan v depth frame).
Proof.
  intros Hw. unfold scan_members. apply gives_lifted. intros ms Hms.
  set (G := λ m s, ∀ c size, ty_size b (m_ty m) = Ret size → size ≠ 0 →
    steps_to cx read v (Member (Named (m_name m))) c → settled s c).
  eapply gives_weaken, (gives_each G).
  - intros s Hg c (ms' & m & size & Hms' & Hm & Hs & Hn & Hst). rewrite Hms in Hms'. injection Hms' as <-. by eapply Hg.
  - intros m Hm. unfold scan_member. apply gives_lifted. intros size Hs. destruct (Z.eqb_spec size 0) as [->|Hne].
    + apply gives_ret. intros s c size Hs' Hn. rewrite Hs in Hs'. by injection Hs' as <-.
    + eapply gives_weaken, gives_step_part.
      * intros s Hg c size' _ _. apply Hg.
      * intros c Hc. apply Hw. by exists ms, m, size.
  - intros m s s' Hm Hg c size H1 H2 H3. eapply mono_settled; eauto.
Qed.

Lemma gives_coroutine v states depth frame : (∀ c, local_part cx read v states c → W c) →
  gives (all_settled (local_part cx read v states)) (coroutine cx read scan v (value_key v) states depth frame).
Proof.
  intros Hw. unfold coroutine. apply gives_lifted. intros [[active|e]|] Ha; [|apply gives_report_named..].
  apply gives_lifted. intros [st|] Hst; [|apply gives_report_named].
  assert (∀ s, live_stage (cs_stage st) = false → ∀ c, local_part cx read v states c → settled s c) as Hdead.
  { intros s Hl c (active' & st' & ? & ? & Ha' & Hst' & Hl' & _). rewrite Ha in Ha'. injection Ha' as <-.
    rewrite Hst in Hst'. injection Hst' as <-. congruence. }
  assert (live_stage (cs_stage st) = true → gives (all_settled (local_part cx read v states))
    (scan_locals cx read scan v (value_key v) st (bv_name active) depth frame)) as Hlive.
  { intros Hl. unfold scan_locals. apply gives_lifted. intros w Hs.
    assert (∀ c, local_part cx read v states c → ∃ payload r, w = inl (At payload) ∧ r ∈ cs_locals st ∧
      steps_to cx read payload (Member (Named r)) c) as Hpart.
    { intros c (active' & st' & payload & r & Ha' & Hst' & _ & Hp & Hr & Hc). rewrite Ha in Ha'. injection Ha' as <-.
      rewrite Hst in Hst'. injection Hst' as <-. unfold steps_to in Hp. rewrite Hs in Hp. injection Hp as ->. eauto. }
    destruct w as [[payload|?|]|e].
    2, 3: apply gives_ret; intros s c (? & ? & [=] & _)%Hpart.
    2: apply gives_report.
    apply gives_after; [apply gives_push|]. apply gives_after.
    { eapply gives_weaken, (gives_each (λ _ _, True)); [done| |by intros ? ?]. intros r _.
      apply gives_lifted. intros. apply gives_report_named. }
    apply gives_before; [|apply gives_pop|apply mono_all_settled].
    eapply gives_weaken, (gives_each (λ r, all_settled (steps_to cx read payload (Member (Named r))))).
    - intros s Hg c (payload' & r & [= <-] & Hr & Hc)%Hpart. by eapply Hg.
    - intros r Hr. apply gives_step_part. intros c Hc. apply Hw. exists active, st, payload, r. done.
    - intros r. apply mono_all_settled. }
  destruct (cs_stage st); cbn [live_stage] in *; auto; [apply gives_ret; auto..|apply gives_report_named].
Qed.

Lemma gives_world G (m : scanning ()) : gives (λ s, world → G s) m → gives G m.
Proof. intros Hm s s' r Hn Hr. destruct (Hm _ _ _ Hn Hr) as [Ht Hg]. eauto. Qed.
Lemma gives_follow c sel frame : W c → gives (λ s, settled s c) (follow scan c sel frame).
Proof.
  intros Hc. unfold follow. apply gives_get. intros n. apply gives_after; [apply gives_path|].
  apply gives_before; [by apply gives_root|apply gives_path|apply mono_settled].
Qed.
Lemma gives_adapter v frame : W v → (∀ c, referent v c → W c) →
  gives (all_settled (referent v)) (adapter cx read scan v (value_key v) frame).
Proof.
  intros Hv Hw. unfold adapter. apply gives_get. intros lim. destruct (_ <=? _); [apply gives_report|].
  apply gives_charging.
  { intros bg bg' x. pose proof (charge_referent_charges bg) as Hc. destruct (charge_referent bg). by intros [= <- _]. }
  intros bg bg' charged _. destruct (negb charged.1); [apply gives_node_stop|]. unfold access_memo.
  apply (gives_quiet _ _ _ (λ a, ∃ m m', access_referent cx read v m = Ret (m', a))).
  { intros s s' a Hr. pose proof (on_memos_moves _ _ _ _ Hr) as Hm. unfold on_memos in Hr.
    apply outcome_bind_Ret in Hr as ([mm x] & Ha & [= <- ->]). apply outcome_bind_Ret in Ha as ([p y] & Ha & [= <- ->]).
    split; [by apply tour_quiet|eauto]. }
  intros next (m & m' & Hnext). apply gives_world.
  assert (∀ c, referent v c → world → ∃ sel e d, next = Some (NxNext c sel e d)) as Hone.
  { intros c (m1 & m1' & sel & e & d & H1) Hwd. exists sel, e, d. by eapply (adapters_stable Hwd). }
  destruct next as [[c sel e d|[]]|]; try apply gives_report;
    try (apply gives_ret; intros s Hwd c0 Hc0; by destruct (Hone c0 Hc0 Hwd) as (? & ? & ? & ?)).
  eapply gives_weaken, gives_follow.
  - intros s Hs Hwd c0 Hc0. destruct (Hone c0 Hc0 Hwd) as (? & ? & ? & [= -> _ _ _]). done.
  - apply Hw. by exists m, m', sel, e, d.
Qed.

Lemma gives_children v children frame : (∀ c, c ∈ children → W c) →
  gives (all_settled (λ c, c ∈ children)) (nested_roots scan (value_key v) children frame).
Proof.
  intros Hw. unfold nested_roots. apply gives_get. intros lim. destruct (_ && _); [apply gives_report|].
  apply gives_after; [apply gives_push|]. apply gives_before; [|apply gives_pop|apply mono_all_settled].
  apply (gives_each (λ c s, settled s c)); [|intros c; apply mono_settled]. intros c Hc. apply gives_root. by apply Hw.
Qed.
Lemma gives_set v frame : W v → stored cx v (StContainer CkFuturesUnordered) →
  gives (all_settled (part_of v)) (scan_set cx read scan v (value_key v) frame).
Proof.
  intros Hv Hst. unfold scan_set. apply gives_get. intros lim.
  apply gives_charging; [apply set_children_charging|]. intros bg bg' [children r] Hc.
  eapply gives_weaken, gives_seq; [|apply gives_stopped|apply gives_children|apply mono_const].
  - intros s [[u ->] Hall] c (max2 & bg2 & bg2' & cs & r2 & Hc2 & Hin)%(part_storage _ _ _ Hst).
    apply Hall. exact (set_children_more _ _ _ _ _ _ _ _ _ _ _ _ _ Hc Hc2 _ Hin).
  - intros c Hin. eapply W_part; [done|]. by eapply part_child.
Qed.
Lemma gives_fanout v frame : W v → stored cx v (StContainer CkStreamMap) →
  gives (all_settled (part_of v)) (fanout cx read scan v (value_key v) frame).
Proof.
  intros Hv Hst. unfold fanout. apply gives_get. intros lim.
  apply gives_charging; [apply fanout_children_charging|]. intros bg bg' [children r] Hc.
  eapply gives_weaken, gives_seq; [|apply gives_stopped|apply gives_children|apply mono_const].
  - intros s [[u ->] Hall] c (max2 & bg2 & bg2' & cs & r2 & Hc2 & Hin)%(part_storage _ _ _ Hst).
    apply Hall. exact (fanout_children_more _ _ _ _ _ _ _ _ _ _ _ _ _ Hc Hc2 _ Hin).
  - intros c Hin. eapply W_part; [done|]. by eapply part_entry.
Qed.
Lemma gives_table v t depth frame : W v → stored cx v (StTable t) →
  gives (all_settled (part_of v)) (scan_table cx read scan v (value_key v) t depth frame).
Proof.
  intros Hv Hst. unfold scan_table. apply gives_get. intros lim.
  apply gives_charging; [apply table_buckets_charging|]. intros bg bg' [children r] Hc.
  eapply gives_weaken, (gives_seq (λ _, ∃ a, r = inl a)); [| |apply gives_after; [apply gives_push|]|apply mono_const].
  2: { destruct r as [a|e]; [|apply gives_report]. destruct (_ =? _); [|apply gives_report]. apply gives_ret. eauto. }
  2: { apply (gives_before (all_settled (λ c, c ∈ children))); [|apply gives_pop|apply mono_all_settled].
       apply (gives_each (λ c s, settled s c)); [|intros c; apply mono_settled]. intros c Hin. apply gives_scan.
       eapply W_part; [done|]. by eapply part_bucket. }
  intros s [[u ->] Hall] c (max2 & bg2 & bg2' & cs & r2 & Hc2 & Hin)%(part_storage _ _ _ Hst).
  apply Hall. exact (table_buckets_more _ _ _ _ _ _ _ _ _ _ _ _ _ _ Hc Hc2 _ Hin).
Qed.

(** *** A value *)

Lemma gives_class v depth frame : W v → plain cx v None →
  gives (all_settled (part_of v)) (scan_class cx read scan v (value_key v) depth frame).
Proof.
  intros Hv Hpl. pose proof (plain_stored _ _ Hpl) as Hst. unfold scan_class. apply gives_lifted. intros cl Hcl.
  assert (∀ c, part_of v c → (cl = CStruct ∧ member_part cx read v c) ∨
    ∃ nm payload, cl = CRustEnum ∧ active_variant_raw b v = Ret (inl (nm, payload)) ∧ member_part cx read payload c) as Hp.
  { intros c Hp. apply (part_storage _ _ _ Hst) in Hp. cbn in Hp.
    destruct Hp as [(_ & Hc & Hm)|[(nm & payload & _ & Hc & Ha & Hm)|(states & Hpl' & _)]].
    - rewrite Hcl in Hc. injection Hc as ->. by left.
    - rewrite Hcl in Hc. injection Hc as ->. right. by exists nm, payload.
    - destruct Hpl as (r1 & R1 & _ & N1). destruct Hpl' as (r2 & R2 & _ & N2). congruence. }
  assert (∀ s, cl ≠ CStruct → cl ≠ CRustEnum → all_settled (part_of v) s) as Hnone.
  { intros s H1 H2 c [[? _]|(? & ? & ? & _)]%Hp; done. }
  destruct cl; try (apply gives_ret; intros s; by apply Hnone).
  - apply gives_lifted. intros [] _; [apply gives_report_named|apply gives_ret; intros s; by apply Hnone].
  - eapply gives_weaken, gives_members; [|intros c Hm; eapply W_part; [done|by apply part_member]].
    intros s Hs c [[_ ?]|(? & ? & [=] & _)]%Hp. by apply Hs.
  - apply gives_lifted. intros [[nm payload]|e] Ha; [|apply gives_report_named].
    apply gives_after; [apply gives_push|]. apply gives_before; [|apply gives_pop|apply mono_all_settled].
    eapply gives_weaken, gives_members; [|intros c Hm; eapply W_part; [done|by eapply part_payload]].
    intros s Hs c [[[=] _]|(nm' & payload' & _ & Ha' & ?)]%Hp. rewrite Ha in Ha'. injection Ha' as <- <-. by apply Hs.
Qed.

Lemma opened_scanned v depth s : opened v s → scanned v depth s.
Proof. unfold scanned. destruct (depth =? 0); [done|apply opened_settled]. Qed.
Lemma gives_once v depth (m : scanning ()) : W v → gives (opened v) m → gives (scanned v depth) (once (value_key v) depth m).
Proof. intros Hv Hm. unfold once, scanned. destruct (depth =? 0); [done|by apply gives_seen]. Qed.

Lemma gives_assoc {A B} G (m : scanning A) (f : A → scanning B) g :
  gives G (eff_bind m (λ a, eff_bind (f a) g)) → gives G (eff_bind (eff_bind m f) g).
Proof.
  intros Hm s s' r Hn Hr. apply (Hm s s' r Hn). rewrite <- Hr. unfold eff_bind. by destruct (m s) as [[? [?|?]]|].
Qed.
Lemma gives_ext G (m m' : scanning ()) : (∀ s, m' s = m s) → gives G m → gives G m'.
Proof. intros He Hm s s' r Hn Hr. rewrite He in Hr. exact (Hm s s' r Hn Hr). Qed.

Lemma gives_seen_or {A} v (x : A) (rest : scanning A) g : W v → g x = eff_ret () → gives (opened v) (eff_bind rest g) →
  gives (λ s, settled s v)
    (eff_bind (enter_seen (value_key v)) (λ first : bool, eff_bind (if negb first then eff_ret x else rest) g)).
Proof.
  intros Hv Hx Hm. eapply gives_ext, (gives_seen v (eff_bind rest g)); [|done|done].
  intros s. unfold eff_bind at 1 3. destruct (enter_seen (value_key v) s) as [[s1 [[]|?]]|]; [done| |done|done].
  unfold eff_bind. cbn. by rewrite Hx.
Qed.

(** A future met inside another value is entered before what it holds. *)
Lemma gives_origin v fut depth frame body : W v → (∀ d f, gives (opened v) (body d f)) →
  gives (scanned v depth) (eff_bind (future_origin cx (value_key v) fut depth frame) (λ origin,
    match origin with None => eff_ret () | Some (d, f) => body d f end)).
Proof.
  intros Hv Hbody. unfold future_origin. destruct (negb (fut && (0 <? depth))) eqn:Ef.
  { eapply gives_weaken; [intros s; apply opened_scanned|]. exact (Hbody depth frame). }
  assert ((depth =? 0) = false) as Hd by (zb; lia). unfold scanned. rewrite Hd. apply gives_assoc.
  apply gives_seen_or; [done|done|].
  apply gives_assoc, gives_get. intros lim. apply gives_assoc, gives_get. intros path. apply gives_assoc, gives_lifted.
  intros awaitee _. destruct awaitee; (destruct (_ <=? _); [apply gives_assoc|apply Hbody]).
  - apply gives_before; [apply gives_report|by apply gives_ret|apply mono_opened].
  - apply gives_before; [apply gives_report|by apply gives_ret|apply mono_opened].
Qed.

Lemma gives_storage v record depth frame : W v → semantics_of cx (val_ty v) = Ret record →
  gives (scanned v depth) (scan_storage cx statics read rt scan v (value_key v) record depth frame).
Proof.
  intros Hv Hr. assert (stored cx v (storage_of record)) as Hst by by exists record.
  assert (∀ s, (∀ c, ¬ part_of v c) → obliged v s → opened v s) as Hleaf.
  { intros s Hp Ho. right. split; [done|]. intros c Hc. by apply Hp in Hc. }
  assert (∀ s, storage_of record ≠ StResource → storage_of record ≠ StContainer CkJoinSet →
    all_settled (part_of v) s → opened v s) as Hopen.
  { intros s H1 H2 Hs. right. split; [by eapply obliged_other|done]. }
  unfold scan_storage. destruct (storage_of record) as [|[]|t| |issue|] eqn:Es.
  - apply gives_once; [done|]. eapply gives_weaken, gives_resource; [|done|done]. intros s Ho. apply Hleaf; [|done].
    by intros c Hp%(part_storage _ _ _ Hst).
  - apply gives_once; [done|]. eapply gives_weaken, gives_join_set; [|done|done]. intros s Ho. apply Hleaf; [|done].
    by intros c Hp%(part_storage _ _ _ Hst).
  - apply gives_once; [done|]. eapply gives_weaken, gives_set; [|done|done]. intros s. by apply Hopen.
  - apply gives_once; [done|]. eapply gives_weaken, gives_fanout; [|done|done]. intros s. by apply Hopen.
  - apply gives_once; [done|]. eapply gives_weaken, gives_table; [|done|done]. intros s. by apply Hopen.
  - eapply gives_weaken, gives_adapter; [|done|].
    + intros s Hs. apply opened_scanned, Hopen; [done|done|]. intros c Hp%(part_storage _ _ _ Hst). by apply Hs.
    + intros c (m & m' & sel & e & d & Ha). eapply W_part; [done|]. by eapply part_referent.
  - apply gives_report_named.
  - apply gives_origin; [done|]. intros d f.
    destruct (record ≫= ts_coroutine) as [states|] eqn:Eco.
    + assert (plain cx v (Some states)) as Hpl by by exists record.
      eapply gives_weaken, gives_coroutine.
      * intros s Hs. apply Hopen; [done|done|]. intros c Hp%(part_storage _ _ _ Hst).
        destruct Hp as [((r1 & R1 & _ & N1) & _)|[(? & ? & (r1 & R1 & _ & N1) & _)|(states' & (r1 & R1 & _ & N1) & Hl)]];
          rewrite Hr in R1; injection R1 as <-; rewrite Eco in N1; try done. injection N1 as <-. by apply Hs.
      * intros c Hc. eapply W_part; [done|]. by eapply part_local.
    + eapply gives_weaken, gives_class; [|done|by exists record]. intros s. by apply Hopen.
Qed.

Lemma gives_inert v (m : scanning ()) G : W v → (∀ s, inert_ty (val_ty v) → G s) → gives G m →
  gives G (eff_bind (is_inert cx (val_ty v)) (λ i : bool, if i then eff_ret () else m)).
Proof.
  intros Hv Hi Hm s s' r Hn Hr. apply eff_bind_Ret in Hr as [(s1 & i & H1 & H2)|([] & _)].
  pose proof (is_inert_moves _ _ _ _ _ H1) as Hmv. unfold is_inert, on_memos in H1.
  apply outcome_bind_Ret in H1 as ([mm x] & H1 & [= <- ->]).
  apply outcome_bind_Ret in H1 as ([memo y] & H1 & [= <- ->]).
  assert (inert_memo_ok cx (mm_inert (sc_memos s)) → inert_memo_ok cx memo ∧ (i = true ↔ inert_ty (val_ty v))) as Hs.
  { intros Hok. by eapply reference_inert_spec. }
  match type of H2 with _ ?s2 = _ => set (s1 := s2) in *; assert (tour s s1) as T1 end.
  { apply tour_quiet; try done. intros Hok. by apply Hs. }
  destruct (tour_sound _ _ T1 Hn) as [Hn1 _]. destruct i.
  - injection H2 as <- _. split; [done|]. intros _ [Hok _] _. apply Hi. by apply Hs.
  - destruct (Hm _ _ _ Hn1 H2) as [T2 F2]. split; [by etransitivity|]. intros Hw Hf Hc.
    apply F2; [done| |done]. apply (tour_full _ _ T1 Hw Hf). by apply T2.
Qed.

Lemma gives_value v depth frame : W v →
  gives (scanned v depth) (scan_value cx statics read rt scan v depth frame).
Proof.
  intros Hv. unfold scan_value. apply gives_inert; [done| |].
  { intros s Hi. apply opened_scanned. by left. }
  apply gives_budget.
  { intros bg bg' x. pose proof (charge_visit_spends bg) as Hc. destruct (charge_visit bg). by intros [= <- _]. }
  intros bg bg' charged _. destruct (negb charged); [apply gives_visit_refused|].
  apply gives_lifted. intros size _. apply gives_get. intros lim.
  destruct (negb _); [apply gives_report_named|]. destruct (_ <? _); [apply gives_report|].
  apply gives_lifted. intros record Hr. by apply gives_storage.
Qed.
End descent.

Lemma gives_within fuel : ∀ v depth frame, W v →
  gives (scanned v depth) (scan_within cx statics read rt (λ _ _ _ _, Panic) fuel v depth frame).
Proof.
  induction fuel as [|fuel IH]; intros v depth frame Hv; cbn [scan_within]; [by intros s s' r|].
  by apply gives_value.
Qed.
Lemma gives_scan_root v bg : W v → gives (λ s, settled s v) (scan_root cx statics read rt v bg).
Proof. intros Hv. apply gives_root; [|done]. apply gives_within. Qed.
End tours.

(** ** A whole scan *)

(** What is remembered across scans is right, and of a [Notify]'s waiters all. *)
Record memos_exact `{Demangler} `{StreamObservers} {T} `{!Target T} (cx : ChainCtx T)
    (statics : list (StaticRole * StaticDef)) (read : ReadContext) (memos : Memos) : Prop := mkMemosExact {
  me_inert : inert_memo_ok cx (mm_inert memos);
  me_notify q l t : mm_notify memos !! q = Some l → t ∈ l ↔ queued cx statics read QNotify q t
}.

Section whole.
Context `{Demangler} `{StreamObservers} {T : Type} `{!Target T}.
Context (cx : ChainCtx T) (statics : list (StaticRole * StaticDef)) (read : ReadContext).
Implicit Types (v c : Value).

Lemma scan_references_inv v root_task memos bg memos' bg' l cp :
  scan_references cx statics read v root_task memos bg = Ret (memos', bg', l, cp) →
  ∃ s r, scan_root cx statics read (Some root_task) v bg (scanner_new bg memos) = Ret (s, r) ∧
    memos' = sc_memos s ∧ bg' = sc_budget s ∧ l = sc_sink s ∧ cp_complete cp = sc_complete s ∧
    cp_inline_visits cp = u64_sub (inline_visits bg') (inline_visits bg) ∧
    cp_referent_expansions cp = u64_sub (referent_expansions bg') (referent_expansions bg).
Proof. unfold scan_references. intros ([s r] & Hr & [= <- <- <- <-])%outcome_bind_Ret. by exists s, r. Qed.

Lemma within_part v c d : within cx read v c → part cx read c d → within cx read v d.
Proof. intros. by eapply rtc_r. Qed.

(** Where all is settled below the root, everything within it hands over all it names. *)
Lemma settled_within W s v c : (∀ v c, W v → part cx read v c → W c) → layout_plain cx → W v →
  (∀ u, W u → value_key u ∈ sc_seen s → opened cx statics read u s) →
  settled cx statics read s v → within cx read v c →
  (inert_type cx (val_ty c) ∨ obliged cx statics read c s).
Proof.
  intros Hpart Hlay Hv Hseen Hs Hw. revert Hv Hs. induction Hw as [v|v d c Hd Hw IH]; intros Hv Hs.
  - destruct Hs as [?|Hin|Ho _]; [by left| |by right]. destruct (Hseen v Hv Hin) as [?|[? _]]; [by left|by right].
  - assert (inert_type cx (val_ty v) ∨ ∀ d, part cx read v d → settled cx statics read s d) as [Hi|Hall].
    { destruct Hs as [?|Hin|_ Hall]; [by left| |by right]. destruct (Hseen v Hv Hin) as [?|[_ ?]]; [by left|by right]. }
    + left. eapply inert_within, Hw; [done|]. by eapply inert_part.
    + apply IH; [by eapply Hpart|by apply Hall].
Qed.

(** A complete scan's references are those named within the root. *)
Lemma scan_complete_emits v root_task memos bg memos' bg' l cp :
  scan_references cx statics read v root_task memos bg = Ret (memos', bg', l, cp) →
  world cx statics read (within cx read v) → memos_exact cx statics read memos → cp_complete cp = true →
  memos_exact cx statics read memos' ∧
  ∀ c source t from, within cx read v c → names cx statics read c source t from →
    ∃ r, r ∈ sunk_references l ∧ rf_source r = source ∧ rf_target r = t.
Proof.
  intros (s & r & Hr & -> & -> & -> & Hc & _)%scan_references_inv Hw [Mi Mn] Hcomp. rewrite Hc in Hcomp.
  assert (notify_sound cx statics read (scanner_new bg memos)) as Hn by (intros q ls Hq t; by rewrite (Mn q ls t Hq)).
  assert (memos_full cx statics read (scanner_new bg memos)) as Hf.
  { split; [done|]. intros q ls Hq t Ht. by rewrite (Mn q ls t Hq). }
  pose proof (within_part v) as Hpart.
  destruct (gives_scan_root cx statics read (Some root_task) (within cx read v) Hpart v bg (rtc_refl _ _) _ _ _ Hn Hr) as [Ht Hs].
  destruct (tour_sound _ _ _ _ _ _ _ Ht Hn) as [Hn' _].
  destruct (tour_full _ _ _ _ _ _ _ Ht Hw Hf Hcomp) as [[Hi' Hf'] [Fs Fq]]. specialize (Hs Hw Hf Hcomp). split.
  { split; [done|]. intros q ls t Hq. split; [by apply Hn'|by apply Hf']. }
  intros c source t from Hc' Hnm. destruct (settled_within (within cx read v) s v c) as [Hi|[Ho Hq]]; try done.
  - by destruct Hw.
  - intros u Hu Hin. by destruct (Fs u Hu Hin).
  - destruct Hw as [_ _ _ Hlay]. by destruct (inert_silent cx statics read c c source t from Hlay Hi (rtc_refl _ _)).
  - destruct Hnm as [source t from Hr'|k q t Ha Hqd]; [by eapply Ho|].
    destruct (Fq c k q Hc' Ha (Hq _ _ Ha)) as [Hin|Hd]; [done|]. by apply Hd.
Qed.
Lemma scan_justified v root_task memos bg memos' bg' l cp :
  scan_references cx statics read v root_task memos bg = Ret (memos', bg', l, cp) →
  (∀ q ls t, mm_notify memos !! q = Some ls → t ∈ ls → queued cx statics read QNotify q t) →
  (∀ r, r ∈ sunk_references l → justified cx statics read (Some root_task) (within cx read v) r) ∧
  ∀ q ls t, mm_notify memos' !! q = Some ls → t ∈ ls → queued cx statics read QNotify q t.
Proof.
  intros (s & r & Hr & -> & -> & -> & _)%scan_references_inv Hm.
  assert (notify_sound cx statics read (scanner_new bg memos)) as Hn by (intros q ls Hq t; by apply Hm).
  destruct (gives_scan_root cx statics read (Some root_task) _ (within_part v) v bg (rtc_refl _ _) _ _ _ Hn Hr) as [Ht _].
  destruct (tour_sound _ _ _ _ _ _ _ Ht Hn) as [Hn' (new & Hs & Hj)]. cbn in Hs. rewrite Hs. split; [done|].
  intros q ls t Hq. by apply Hn'.
Qed.

(** What a [Notify]'s list was first found to hold is the answer from then on, and without
    an issue, however the first reading ended. *)
Lemma waiter_tasks_remembered q memo bg memo' bg' tasks issues :
  notify_waiter_tasks cx statics read q memo bg = Ret (memo', bg', (tasks, issues)) →
  ∀ bg2, notify_waiter_tasks cx statics read q memo' bg2 = Ret (memo', bg2, (tasks, [])).
Proof.
  unfold notify_waiter_tasks. destruct (memo !! q) as [ls|] eqn:Eq.
  - intros [= <- _ <- _] bg2. by rewrite Eq.
  - intros ([bg1 o] & _ & [= <- _ <- _])%outcome_bind_Ret bg2. by rewrite lookup_insert_eq.
Qed.
End whole.

(** ** Properties *)

(** C2: a complete scan hands over exactly the references named within the root.  Where keys
    determine values and queues, adapters lead to one place and layouts name their members,
    a scan that reports itself complete, from a memory that is right, hands over a reference
    of a source and a task just when a value reachable from the root names it -- its own
    task or waker, an entry of its join set, or a waiter of the queue it asks for -- and the
    memory is right afterwards. *)
Theorem scan_exact `{Demangler} `{StreamObservers} {T} `{!Target T} (cx : ChainCtx T) statics read
    v root_task memos bg memos' bg' l cp :
  scan_references cx statics read v root_task memos bg = Ret (memos', bg', l, cp) →
  world cx statics read (within cx read v) → memos_exact cx statics read memos → cp_complete cp = true →
  memos_exact cx statics read memos' ∧ ∀ source t,
    (∃ r, r ∈ sunk_references l ∧ rf_source r = source ∧ rf_target r = t) ↔
    ∃ c from, within cx read v c ∧ names cx statics read c source t from.
Proof.
  intros Hr Hw Hm Hc. destruct (scan_complete_emits _ _ _ _ _ _ _ _ _ _ _ Hr Hw Hm Hc) as [Hm' He].
  split; [done|]. intros source t. split; [|intros (c & from & Hin & Hn); by eapply He].
  intros (r & Hin & <- & <-). destruct (scan_justified _ _ _ _ _ _ _ _ _ _ _ Hr) as [Hj _].
  { intros q ls t Hq. by apply (me_notify _ _ _ _ Hm). }
  destruct (Hj r Hin) as (_ & c & from & Hc' & Hn & _). by exists c, from.
Qed.

(** C6: a scan hands over no reference the root does not hold.  Complete or not, from any
    memory whose remembered waiters are waiters, every reference handed over is of the root
    task and comes from a value reachable from the root that names it, and what is
    remembered of waiters stays true. *)
Theorem scan_sound `{Demangler} `{StreamObservers} {T} `{!Target T} (cx : ChainCtx T) statics read
    v root_task memos bg memos' bg' l cp :
  scan_references cx statics read v root_task memos bg = Ret (memos', bg', l, cp) →
  (∀ q ls t, mm_notify memos !! q = Some ls → t ∈ ls → queued cx statics read QNotify q t) →
  (∀ r, r ∈ sunk_references l → rf_root_task r = Some root_task ∧ ∃ c from, within cx read v c ∧
    names cx statics read c (rf_source r) (rf_target r) from ∧ rf_source_value r = Some from) ∧
  ∀ q ls t, mm_notify memos' !! q = Some ls → t ∈ ls → queued cx statics read QNotify q t.
Proof. intros Hr Hm. exact (scan_justified _ _ _ _ _ _ _ _ _ _ _ Hr Hm). Qed.

(** C7: the recursion of a scan is bounded by its visits, and nothing goes wrong unsaid.
    Whatever would be done past as many levels as visits are left is never asked; each
    counter moves on and not past its limit, by what the completion says; the path is
    restored; and the scan calls itself complete exactly when it reported no issue. *)
Theorem scan_bounded `{Demangler} `{StreamObservers} {T} `{!Target T} (cx : ChainCtx T) statics read
    v root_task memos bg :
  (∀ ex fuel s, sc_budget s = bg → (visit_fuel bg <= fuel)%nat →
     root (scan_within cx statics read (Some root_task) ex fuel) v frame_default s =
     scan_root cx statics read (Some root_task) v bg s) ∧
  (∀ s s' r, scan_root cx statics read (Some root_task) v bg s = Ret (s', r) → sc_path s' = sc_path s) ∧
  ∀ memos' bg' l cp, scan_references cx statics read v root_task memos bg = Ret (memos', bg', l, cp) →
    spends bg bg' ∧ (cp_complete cp = true ↔ sunk_issues l = []) ∧
    (0 <= inline_visits bg ∧ inline_visits bg' < W64 →
       cp_inline_visits cp = inline_visits bg' - inline_visits bg) ∧
    (0 <= referent_expansions bg ∧ referent_expansions bg' < W64 →
       cp_referent_expansions cp = referent_expansions bg' - referent_expansions bg).
Proof.
  split; [intros ex fuel s Hb Hf; by eapply scan_root_same|].
  split; [intros s s' r Hr; by apply scan_root_path in Hr|].
  intros memos' bg' l cp (s & r & Hr & -> & -> & -> & -> & -> & ->)%scan_references_inv.
  apply scan_root_moves in Hr as [Hb _ _ _ (new & Hs & Hc)]. cbn in Hb, Hs, Hc. split; [done|].
  destruct Hc as [_ ->]; [done|]. rewrite Hs. split; [by rewrite bool_decide_eq_true|].
  destruct Hb as [_ [Hv _] [He _]]. unfold u64_sub. split; intros; apply Z.mod_small; lia.
Qed.

(** C18: the search for inert types answers exactly.  Where the look-ups of the types it
    follows succeed it ends, however types refer to one another; it answers that a type is
    inert just when no type inside it - through sized members, payloads and buckets - is a
    bound resource, container, pointer adapter, future or coroutine, has storage declared
    unreadable, or is an array of structs, enums, unions or arrays; and what it remembers is
    right again.  Nothing inside a value of an inert type names a task; and a visit of
    anything inside one, which the scan skips, would hand over no reference, and, besides
    what the visits of its parts hand over, no issue but of its own storage: a part that does
    not read, a variant that does not decode, or how the walk of its table ended. *)
Theorem inert_search_exact `{Demangler} `{StreamObservers} {T} `{!Target T} (cx : ChainCtx T) ty memo :
  inert_memo_ok cx memo →
  ((∀ u, rtc (step_type cx) ty u → inert_step cx u ≠ Panic) → reference_inert cx ty memo ≠ Panic) ∧
  (∀ memo' r, reference_inert cx ty memo = Ret (memo', r) →
     inert_memo_ok cx memo' ∧ (r = true ↔ ∀ u, rtc (inside_type cx) ty u → ¬ reportable cx u)) ∧
  (layout_plain cx → inert_type cx ty → ∀ statics read v c, val_ty v = ty → within cx read v c →
     (∀ source t from, ¬ names cx statics read c source t from) ∧
     ∀ rt scan record depth frame (P : Sunk → Prop), semantics_of cx (val_ty c) = Ret record →
       (∀ w d f, keeps_rel (hands_only P) (scan w d f)) → (∀ i, own_issue cx read c i → P (SunkIssue i)) →
       keeps_rel (hands_only P) (scan_storage cx statics read rt scan c (value_key c) record depth frame)).
Proof.
  intros Hm. split; [apply reference_inert_ends|]. split; [intros memo' r; by apply reference_inert_spec|].
  intros Hl Hi statics read v c <- Hw. split; [intros source t from; by eapply inert_silent|].
  intros rt scan record depth frame P Hr Hs Hown. apply inert_hands; [done|done| |done]. by eapply inert_within.
Qed.

(** ** Witnesses *)

(** Two holders, each with a handle on a task and a link to the other. *)
#[local] Instance link_demangler : Demangler := {| try_demangle := λ _, None |}.
#[local] Instance link_observers : StreamObservers :=
  {| observe_io := λ _ _ _, throw (AeNotOption 0); observe_http_conn := λ _ _, throw (AeNotOption 0) |}.

Definition link_names : list string := ["u64"; "JoinHandle"; "raw"; "Holder"; "handle"; "next"; "Link"; "to"]%string.
Definition link_types : list TypeDef :=
  [TBase 0 8 Unsigned;
   TStruct 1 8 [mkMember 2 0%nat 0];
   TStruct 3 16 [mkMember 4 1%nat 0; mkMember 5 3%nat 8];
   TStruct 6 8 [mkMember 7 4%nat 0];
   TPointer None 2%nat].
Definition link_bundle : Bundle :=
  mkBundle (table_of (bytes_of_string <$> link_names)) (mkTypeTable link_types [])
    [(JoinHandleRaw, mkBinding [1%nat] [Member (Named 2)] (Bound 1 0 None))].
Definition link_records : list TypeSemantics :=
  [mkSemantics 1%nat DeclaredMembers None None None (Some (mkBound RJoinHandle None false)) None None None None;
   mkSemantics 3%nat DeclaredMembers None None (Some (mkAccess AkOwned (FTValue (mkPath [Member (Named 7); Deref] 2%nat)))) None None None None None].
Definition link_memory : Flat := mkFlat 4096 (mjoin (to_le_bytes 8 <$> [77; 4112; 78; 4096])).
Definition link_cx : ChainCtx Flat :=
  mkChainCtx link_bundle link_records (default [] (semantic_index 5 link_records)) (mkInfra 0 0 0 0 0)%nat [] []
    (mkSymbols ∅ ∅) (mkSymbols ∅ ∅) [] link_memory (mkTables [] ∅ ∅) ∅.
Definition link_at (ty : BundleTypeId) (a : Z) (words : list Z) : Value := mkValue ty a (mjoin (to_le_bytes 8 <$> words)).
Definition link_root : Value := link_at 2 4096 [77; 4112].
Definition link_values : list Value :=
  [link_root; link_at 1 4096 [77]; link_at 3 4104 [4112]; link_at 2 4112 [78; 4096]; link_at 1 4112 [78]; link_at 3 4120 [4096]].
Definition link_budget : ScanBudget := budget_new (mkLimits 8 4 4 16 100 100 10).
Definition link_memos : Memos := mkMemos ∅ ∅ ∅.

Example link_scan : match scan_references link_cx [] None link_root 64 link_memos link_budget with
  | Ret (_, _, l, cp) => (cp_complete cp, cp_inline_visits cp, rf_target <$> sunk_references l)
  | Panic => (false, 0, [])
  end = (true, 6, [77; 78]).
Proof. vm_compute. reflexivity. Qed.

Lemma link_values_cases (P : Value → Prop) : Forall P link_values → ∀ v, v ∈ link_values → P v.
Proof. by rewrite Forall_forall. Qed.
Ltac each_value := repeat (apply Forall_cons_2; [|]); try apply Forall_nil_2.
Lemma link_stored v st : v ∈ link_values → stored link_cx v st →
  st = match val_ty v with 1%nat => StResource | 3%nat => StAdapter | _ => StPlain end.
Proof.
  revert v. apply (link_values_cases (λ v, stored link_cx v st → _)).
  each_value; intros (record & Hr & <-); vm_compute in Hr; by injection Hr as <-.
Qed.
Lemma link_referent v c : v ∈ link_values → referent link_cx None v c → c ∈ link_values.
Proof.
  revert v. apply (link_values_cases (λ v, referent link_cx None v c → _)).
  each_value; intros (memo & memo' & sel & e & d & Ha); vm_compute in Ha; try done;
    injection Ha as _ <- _ _ _; unfold link_values; rewrite !elem_of_cons; vm_compute; tauto.
Qed.
Lemma link_member v c : v ∈ link_values → val_ty v = 2%nat → member_part link_cx None v c → c ∈ link_values.
Proof.
  revert v. apply (link_values_cases (λ v, val_ty v = 2%nat → member_part link_cx None v c → c ∈ link_values)).
  each_value; intros Hty (ms & m & size & Hms & Hm & _ & _ & Hs); try done;
    vm_compute in Hms; injection Hms as <-; rewrite !elem_of_cons, elem_of_nil in Hm;
    destruct Hm as [->|[->|[]]]; vm_compute in Hs; injection Hs as <-;
    unfold link_values; rewrite !elem_of_cons; vm_compute; tauto.
Qed.
Lemma link_part v c : v ∈ link_values → part link_cx None v c → c ∈ link_values.
Proof.
  intros Hv Hp. assert (∃ record, semantics_of link_cx (val_ty v) = Ret record ∧ record ≫= ts_coroutine = None) as (record & Hr & Hco).
  { clear Hp. revert v Hv. apply (link_values_cases (λ v, ∃ r, semantics_of link_cx (val_ty v) = Ret r ∧ r ≫= ts_coroutine = None)). each_value; eexists; split; vm_compute; reflexivity. }
  assert (stored link_cx v (storage_of record)) as Hst by by exists record.
  apply (part_storage _ _ _ _ _ Hst) in Hp. rewrite (link_stored _ _ Hv Hst) in Hp.
  assert (val_ty v = 1 ∨ val_ty v = 2 ∨ val_ty v = 3)%nat as [E|[E|E]].
  { clear -Hv. revert v Hv. apply (link_values_cases (λ v, val_ty v = 1 ∨ val_ty v = 2 ∨ val_ty v = 3)%nat). each_value; cbn; tauto. }
  all: rewrite E in Hp; cbn in Hp.
  1: done.
  2: by eapply link_referent.
  destruct Hp as [(_ & _ & Hm)|[(nm & payload & _ & Hc & _)|(states & (record' & Hr' & _ & Hco') & _)]].
  - by eapply link_member.
  - by rewrite E in Hc.
  - rewrite Hr in Hr'. injection Hr' as <-. congruence.
Qed.
Lemma link_within v : within link_cx None link_root v → v ∈ link_values.
Proof.
  intros Hw. assert (link_root ∈ link_values) as Hr by by left. revert Hr.
  induction Hw as [|x y z Hxy _ IH]; [done|]. intros Hx. by eapply IH, link_part.
Qed.
Lemma link_observed v o : v ∈ link_values → observed_as link_cx [] None v o → ∃ j, o = RoJoin j.
Proof.
  revert v. apply (link_values_cases (λ v, observed_as link_cx [] None v o → ∃ j, o = RoJoin j)).
  each_value; intros [_ (iss & Ho)]; vm_compute in Ho; try done; injection Ho as <-; eauto.
Qed.
Lemma link_key v : v ∈ link_values → ∀ v', v' ∈ link_values → value_key v = value_key v' → v = v'.
Proof.
  revert v. apply (link_values_cases (λ v, ∀ v', v' ∈ link_values → value_key v = value_key v' → v = v')).
  each_value; apply (link_values_cases (λ v', value_key _ = value_key v' → _ = v')); each_value; by vm_compute.
Qed.
Lemma link_adapter v m1 m1' r1 m2 m2' r2 : v ∈ link_values → access_referent link_cx None v m1 = Ret (m1', r1) →
  access_referent link_cx None v m2 = Ret (m2', r2) → r1 = r2.
Proof.
  revert v. apply (link_values_cases (λ v, access_referent link_cx None v m1 = Ret (m1', r1) →
    access_referent link_cx None v m2 = Ret (m2', r2) → r1 = r2)).
  each_value; intros H1 H2; vm_compute in H1; vm_compute in H2; congruence.
Qed.
Lemma link_layout : layout_plain link_cx.
Proof.
  split.
  - intros ty sh v Hs. do 5 (destruct ty as [|ty]; [done|]). done.
  - intros ty ms m Hms. do 5 (destruct ty as [|ty]; [try done; injection Hms as <-; rewrite ?elem_of_cons, elem_of_nil;
      intuition (subst; done)|]). done.
Qed.
Lemma link_world : world link_cx [] None (within link_cx None link_root).
Proof.
  split.
  - intros v v' Hv%link_within Hv'%link_within. by apply link_key.
  - intros v v' k k' q Hv%link_within _ Ha _. exfalso.
    destruct Ha as [o Ho|o Ho|o Ho|o ? ? Ho|o Ho]; by destruct (link_observed _ _ Hv Ho).
  - intros v m1 m1' r1 m2 m2' r2 Hv%link_within. by apply link_adapter.
  - apply link_layout.
Qed.
Lemma link_memos_exact : memos_exact link_cx [] None link_memos.
Proof.
  unfold link_memos. split; cbn [mm_inert mm_notify]; [intros ty k H|intros q l t H]; by rewrite lookup_empty in H.
Qed.

(** The scan of two linked holders is complete, from a right memory: what it hands over is
    what they name, which is their two tasks. *)
Lemma scan_exact_witness : match scan_references link_cx [] None link_root 64 link_memos link_budget with
  | Ret (_, _, l, _) => (∀ source t, (∃ r, r ∈ sunk_references l ∧ rf_source r = source ∧ rf_target r = t) ↔
        ∃ c from, within link_cx None link_root c ∧ names link_cx [] None c source t from) ∧
      rf_target <$> sunk_references l = [77; 78]
  | Panic => False
  end.
Proof.
  pose proof link_scan as Hs. destruct (scan_references _ _ _ _ _ _ _) as [[[[memos' bg'] l] cp]|] eqn:E; [|done].
  injection Hs as Hc _ Hl. split; [|done].
  exact (proj2 (scan_exact link_cx [] None link_root 64 link_memos link_budget memos' bg' l cp E link_world
    link_memos_exact Hc)).
Defined.

Lemma scan_sound_witness : match scan_references link_cx [] None link_root 64 link_memos link_budget with
  | Ret (_, _, l, _) => (∀ r, r ∈ sunk_references l → rf_root_task r = Some 64 ∧
        ∃ c from, within link_cx None link_root c ∧ names link_cx [] None c (rf_source r) (rf_target r) from ∧
          rf_source_value r = Some from) ∧
      rf_target <$> sunk_references l = [77; 78]
  | Panic => False
  end.
Proof.
  pose proof link_scan as Hs. destruct (scan_references _ _ _ _ _ _ _) as [[[[memos' bg'] l] cp]|] eqn:E; [|done].
  injection Hs as _ _ Hl. split; [|done]. apply (scan_sound link_cx [] None link_root 64 link_memos link_budget memos' bg' l cp E).
  intros q ls t H. unfold link_memos in H. cbn [mm_notify] in H. by rewrite lookup_empty in H.
Defined.

(** The type of a count is inert, and so searched to its end, and a visit of a count says
    nothing but of its own bytes; a holder's is not. *)
Lemma inert_search_witness :
  reference_inert link_cx 0 ∅ ≠ Panic ∧ (∃ memo, reference_inert link_cx 0 ∅ = Ret (memo, true)) ∧ inert_type link_cx 0 ∧
  ¬ inert_type link_cx 2 ∧
  keeps_rel (hands_only (λ x, ∃ i, x = SunkIssue i ∧ own_issue link_cx None (mkValue 0 4096 (to_le_bytes 8 7)) i))
    (scan_storage link_cx [] None None (λ _ _ _, eff_ret ()) (mkValue 0 4096 (to_le_bytes 8 7))
       (mkValueKey 4096 0) None 0 frame_default).
Proof.
  assert (inert_memo_ok link_cx ∅) as Hm by (intros ty k H; by rewrite lookup_empty in H).
  destruct (inert_search_exact link_cx 0%nat ∅ Hm) as (He & Hi & Hown).
  assert (∃ memo, reference_inert link_cx 0 ∅ = Ret (memo, true)) as [memo Hr] by (eexists; vm_compute; reflexivity).
  assert (∃ memo, reference_inert link_cx 2 ∅ = Ret (memo, false)) as [memo2 Hr2] by (eexists; vm_compute; reflexivity).
  pose proof (proj1 (proj2 (Hi _ _ Hr)) eq_refl) as H0.
  split; [congruence|]. split; [by exists memo|]. split; [exact H0|]. split.
  - intros H2. destruct (inert_search_exact link_cx 2%nat ∅ Hm) as (_ & Hi2 & _).
    discriminate (proj2 (proj2 (Hi2 _ _ Hr2)) H2).
  - refine (proj2 (Hown (layouts_plain _ _ _ _ link_world) H0 [] None (mkValue 0 4096 (to_le_bytes 8 7)) _ eq_refl (rtc_refl _ _))
      None (λ _ _ _, eff_ret ()) None 0 frame_default _ _ _ _).
    + vm_compute. reflexivity.
    + intros w d f s s' r [= <- _]. exists []. by rewrite app_nil_r.
    + intros i Hi'. by exists i.
Defined.

Lemma scan_bounded_witness : match scan_references link_cx [] None link_root 64 link_memos link_budget with
  | Ret (_, bg', l, cp) => spends link_budget bg' ∧ (cp_complete cp = true ↔ sunk_issues l = []) ∧
      cp_inline_visits cp = inline_visits bg' - inline_visits link_budget
  | Panic => False
  end.
Proof.
  pose proof link_scan as Hs. destruct (scan_references _ _ _ _ _ _ _) as [[[[memos' bg'] l] cp]|] eqn:E; [|done].
  destruct (scan_bounded link_cx [] None link_root 64 link_memos link_budget) as (_ & _ & Hb).
  destruct (Hb _ _ _ _ E) as (H1 & H2 & H3 & _). split; [done|]. split; [done|]. apply H3. split; [done|].
  destruct H1 as [_ [_ Hv] _]. cbn in Hv. lia.
Defined.
