(* ===== verification/Live.v ===== *)
(** The live world of the discovery sweep ([hansei-runtime/src/tokio/bundle.rs]): what
    each item of work does to the target, over the session's owners and registries, and
    the discovery of hidden tasks that runs it.

    What the context remembers across the scans of a session is part of the world, and
    starts empty. *)

From S2P Require Import Prelude Text StringTable Target Symbols TaskGraph Discovery Schema BundleCheck TypeView DisplayResolve DisplayEval Value Elements Pairing Semantics Contract Chain TaskHeader OwnedLists Runtimes Effects Registries Containers Observe Scan Work.

Local Open Scope Z_scope.

Definition CellScheduler_ : Z := 44.

Inductive ClaimError :=
  | ClTask (e : TaskError)
  | ClInfra (e : InfraError)
  | ClNoOwnerId (addr : Z)
  | ClRead (addr : Z) (e : Error)
  | ClArc (e : Error)
  | ClUnbound
  | ClRuntime (flavor : RuntimeFlavor) (handle : Z) (e : ClaimError).

Inductive LiveError :=
  | LvList (e : ListError)
  | LvUnadmitted (owner : OwnerKey)
  | LvRuntime (handle : Z) (e : EnumError)
  | LvLocalSet (shared : Z) (e : EnumError)
  | LvHarvest (e : HarvestError)
  | LvDecode (addr : Z) (route : DiscoveryRoute) (e : TaskError)
  | LvHome (addr : Z) (e : ClaimError)
  | LvThreadId (tid : Z) (e : TaskError)
  | LvSet (e : TaskError)
  | LvProbe (e : RuntimeError)
  | LvIssue (i : DiscoveryIssue)
  | LvDropped (owner : OwnerKey)
  | LvInlineSpent (max : Z)
  | LvReferentsSpent (max : Z)
  | LvCapped (max : Z) (left : WorkTally).

(** The owner vectors and registries of a session, the harvests' guards, and what the
    context remembers. *)
Record Live := mkLive {
  lv_runtimes : list RuntimeRef;
  lv_sets : list LocalSetRef;
  lv_registries : Registries;
  lv_wheel_visited : gset Z;
  lv_io_visited : gset Z;
  lv_memos : Memos
}.

Definition candidate_route (c : Candidate) : DiscoveryRoute :=
  match c with CReference _ route => route | Queued _ _ _ _ => RBlockingQueue end.

(** The source a candidate is, and the claim a queue's entry makes. *)
Definition candidate_source (c : Candidate) : TaskSource * option OwnerClaim :=
  match c with
  | CReference reference _ => (Reference reference, None)
  | Queued _ owner queue entry =>
      (BlockingQueue owner queue entry, Some (mkClaim owner (EBlockingQueue queue entry)))
  end.

Section live.
Context `{Demangler} `{StreamObservers} {T : Type} `{!Target T} (cx : ChainCtx T).
Context (statics : list (StaticRole * StaticDef)) (describe : LiveError → string).
Context (thread_ids : list (Z * Z)) (excluded : list Z) (read : ReadContext).
Abbreviation b := (cc_bundle cx).
Abbreviation proc := (cc_proc cx).

Definition push_live (l : TaskList) (e : LiveError) : TaskList := push_error l (describe e).

(** ** Claims *)

(** [Context::arc_data]. *)
Definition arc_data (arc : Value) : fallible Error Value :=
  ptr ←! value_member b arc (bytes_of_string "ptr");
  inner ←! deref_ptr b proc ptr;
  value_member b inner (bytes_of_string "data").

(** [Context::runtime_claim]: the runtimes, one more where the claim admits it, and the
    key or the mismatch. *)
Definition runtime_claim (handle : Value) (flavor : RuntimeFlavor) (owner_id : Z) (addr : TaskAddr)
    (route : DiscoveryRoute) (rts : list RuntimeRef)
    : fallible ClaimError (list RuntimeRef * (OwnerKey + DiscoveryIssue)) :=
  let key := Runtime flavor (val_addr handle) in
  let mismatch expected := OwnerIdMismatch addr key expected (Some owner_id) in
  let checked (list_id : option Z) :=
    match list_id with
    | None => throw ClUnbound
    | Some id => succeed (rts, if id =? owner_id then inl key else inr (mismatch id))
    end in
  match find_first (λ r, val_addr (rr_handle r) =? val_addr handle) rts with
  | Some runtime => checked (rr_owned_id runtime)
  | None =>
      if bool_decide (val_addr handle ∈ excluded) then
        id ←! map_err ClTask (owned_list_id cx handle); checked id
      else
        map_err (ClRuntime flavor (val_addr handle)) (
          owned_id ←! map_err ClTask (owned_list_id cx handle);
          match owned_id with
          | None => throw ClUnbound
          | Some id =>
              if id =? owner_id
              then succeed (rts ++ [mkRuntimeRef flavor handle (Some id) [] route], inl key)
              else succeed (rts, inr (mismatch id))
          end)
  end.

(** The claim a cell makes on the owner its scheduler is, by the scheduler's class. *)
Definition owner_claim_of (class : SchedulerClass) (owner : Value) (owner_id : Z) (addr : TaskAddr)
    (route : DiscoveryRoute) (w : Live)
    : fallible ClaimError (Live * option (OwnerKey + DiscoveryIssue)) :=
  let on_runtime flavor :=
    '(rts, v) ←! runtime_claim owner flavor owner_id addr route (lv_runtimes w);
    succeed (mkLive rts (lv_sets w) (lv_registries w) (lv_wheel_visited w) (lv_io_visited w) (lv_memos w), Some v) in
  match class with
  | CLocalSet =>
      '(sets, v) ←! map_err ClTask (local_set_claim cx owner owner_id addr route thread_ids (lv_sets w));
      succeed (mkLive (lv_runtimes w) sets (lv_registries w) (lv_wheel_visited w) (lv_io_visited w) (lv_memos w), Some v)
  | CMultiThread => on_runtime MultiThread
  | CCurrentThread => on_runtime CurrentThread
  | CBlocking => succeed (w, None)
  end.

(** The owner a header's cell points to. *)
Definition cell_owner_of (h : DecodedTaskHeader) (known : KnownFuture)
    : fallible ClaimError (Z * Value) :=
  entry ←! infallible (task_entry cx (kf_entry known));
  cell_ty ←! map_err ClInfra (infra_ty cx (te_cell entry));
  owner_id ←! ok_or_else (h_owner_id h) (ClNoOwnerId (h_addr h));
  cell ←! map_err (ClRead (h_addr h)) (value_read b proc cell_ty (h_addr h));
  scheduler ←! map_err ClTask (role_walk_at cx CellScheduler_ cell);
  owner ←! map_err ClArc (arc_data scheduler);
  succeed (owner_id, owner).

(** [Context::cell_owner_claim]. *)
Definition cell_owner_claim (id : TaskRecordId) (class : SchedulerClass) (route : DiscoveryRoute)
    (w : Live) (l : TaskList) : outcome (Live * TaskList * (option OwnerClaim + ClaimError)) :=
  r ← record (tl_records l) id;
  match h_future (header r) with
  | FUnknown _ | Ambiguous _ _ => Ret (w, l, inl None)
  | FKnown known =>
      found ← cell_owner_of (header r) known;
      match found with
      | inr e => Ret (w, l, inr e)
      | inl (owner_id, owner) =>
          claim ← owner_claim_of class owner owner_id (h_addr (header r)) route w;
          match claim with
          | inr e => Ret (w, l, inr e)
          | inl (w, None) => Ret (w, l, inl None)
          | inl (w, Some (inl key)) =>
              Ret (w, l, inl (Some (mkClaim key (CellScheduler (value_key owner) owner_id))))
          | inl (w, Some (inr mismatch)) =>
              s ← issue (tl_records l) id mismatch;
              Ret (w, with_records l s, inl None)
          end
      end
  end.

(** ** One find *)

(** A fresh record followed home. *)
Definition follow_home (id : TaskRecordId) (class : option SchedulerClass) (addr : Z)
    (route : DiscoveryRoute) (w : Live) (l : TaskList) : outcome (Live * TaskList) :=
  match class with
  | None | Some CBlocking => Ret (w, l)
  | Some class =>
      '(w, l, r) ← cell_owner_claim id class route w l;
      match r with
      | inl (Some c) => '(_, s) ← claim (tl_records l) id c; Ret (w, with_records l s)
      | inl None => Ret (w, l)
      | inr e => Ret (w, push_live l (LvHome addr e))
      end
  end.

(** [Context::observe_candidate]. *)
Definition observe_candidate (c : Candidate) (w : Live) (l : TaskList) : outcome (Live * TaskList) :=
  let addr := candidate_addr c in
  let '(source, claim) := candidate_source c in
  match lookup_addr (tl_records l) addr with
  | Some id =>
      '(_, s) ← observe_at (tl_records l) id (mkObservation source None claim);
      Ret (w, with_records l s)
  | None =>
      h ← read_task_header cx addr read;
      match h with
      | inr e => Ret (w, push_live l (LvDecode addr (candidate_route c) e))
      | inl h =>
          class ← header_class cx h;
          kind ← header_kind cx h;
          '(effect, s) ← observe (tl_records l) h (mkObservation source kind claim);
          follow_home (e_record effect) class addr (candidate_route c) w (with_records l s)
      end
  end.

(** ** The world *)

(** [Live::runtime], and the set of an owner. *)
Definition live_runtime (owner : OwnerKey) (w : Live) : option RuntimeRef :=
  match owner with
  | Runtime _ handle => find_first (λ r, val_addr (rr_handle r) =? handle) (lv_runtimes w)
  | LocalSet _ => None
  end.

Definition live_set (shared : Z) (w : Live) : option LocalSetRef :=
  find_first (λ s, val_addr (ls_shared s) =? shared) (lv_sets w).

Definition describe_list : ListError → string := describe ∘ LvList.

(** The list an enumeration leaves, its failure pushed under [context]. *)
Definition enumerated_under (context : EnumError → LiveError) (r : TaskList * (() + EnumError)) : TaskList :=
  match r.2 with inl _ => r.1 | inr e => push_live r.1 (context e) end.

Definition live_enumerate (owner : OwnerKey) (w : Live) (l : TaskList) : outcome (Live * TaskList) :=
  match owner with
  | Runtime _ handle =>
      match live_runtime owner w with
      | None => Ret (w, push_live l (LvUnadmitted owner))
      | Some runtime =>
          shared ← find_shared cx runtime;
          r ← match shared with
              | inr e => Ret (l, inr e)
              | inl shared => enumerate_owned cx describe_list shared owner (rr_owned_id runtime) l
              end;
          Ret (w, enumerated_under (LvRuntime handle) r)
      end
  | LocalSet shared =>
      match live_set shared w with
      | None => Ret (w, push_live l (LvUnadmitted owner))
      | Some set =>
          r ← enumerate_local cx describe_list set l;
          Ret (w, enumerated_under (LvLocalSet shared) r)
      end
  end.

(** [Context::scan_records]: the [Candidates] sink keeps every reference. *)
Definition candidates_sink (references : list TaskReference) : list Candidate :=
  (λ reference, CReference reference (Scanned (rf_source reference))) <$> references.

Definition scan_record (id : TaskRecordId) (m : Memos) (l : TaskList) (bg : ScanBudget)
    : outcome (list Candidate * (Memos * TaskList * ScanBudget)) :=
  s ← mark_scanned (tl_records l) id;
  r ← record s id;
  let task := record_task r in
  root ← task_root cx read task;
  match root with
  | inl (StRunning future) =>
      '(m, bg, sunk, _) ← scan_references cx statics read future (addr task) m bg;
      Ret (candidates_sink (sunk_references sunk), (m, with_records l s, bg))
  | _ => Ret ([], (m, with_records l s, bg))
  end.

Fixpoint scan_records (ids : list TaskRecordId) (m : Memos) (l : TaskList) (bg : ScanBudget)
    : outcome (list Candidate * (Memos * TaskList * ScanBudget)) :=
  match ids with
  | [] => Ret ([], (m, l, bg))
  | id :: ids =>
      '(found, (m, l, bg)) ← scan_record id m l bg;
      '(rest, st) ← scan_records ids m l bg;
      Ret (found ++ rest, st)
  end.

Definition with_memos (m : Memos) (w : Live) : Live :=
  mkLive (lv_runtimes w) (lv_sets w) (lv_registries w) (lv_wheel_visited w) (lv_io_visited w) m.
Definition live_scan (id : TaskRecordId) (w : Live) (l : TaskList) (bg : ScanBudget)
    : outcome (list Candidate * (Live * TaskList * ScanBudget)) :=
  '(found, (m, l, bg)) ← scan_records [id] (lv_memos w) l bg; Ret (found, (with_memos m w, l, bg)).

(** A harvest's start over a guard, and the world and list it leaves. *)
Definition harvest_from (visited : gset Z) (w : Live) : Harvest :=
  mkHarvest visited [] [] [] (lv_registries w).

Definition harvest_errors (h : Harvest) (l : TaskList) : TaskList :=
  mkTaskList (tasks l) (errors l ++ (describe ∘ LvHarvest <$> hv_errors h)) (tl_records l).

Definition live_harvest (owner : OwnerKey) (g : Registry) (w : Live) (l : TaskList)
    : outcome (list Candidate * (Live * TaskList)) :=
  match live_runtime owner w with
  | None => Ret ([], (w, l))
  | Some runtime =>
      match g with
      | Timers =>
          '(h, _) ← wheel_task_pointers cx statics [runtime] (harvest_from (lv_wheel_visited w) w);
          Ret (hv_found h,
            (mkLive (lv_runtimes w) (lv_sets w) (hv_registries h) (hv_visited h) (lv_io_visited w) (lv_memos w),
             harvest_errors h l))
      | Io =>
          '(h, _) ← io_task_pointers cx statics [runtime] (harvest_from (lv_io_visited w) w);
          Ret (hv_found h,
            (mkLive (lv_runtimes w) (lv_sets w) (hv_registries h) (lv_wheel_visited w) (hv_visited h) (lv_memos w),
             harvest_errors h l))
      | RegBlockingQueue =>
          '(h, r) ← queued_blocking cx runtime (harvest_from ∅ w);
          let l := harvest_errors h l in
          Ret (hv_found h,
            (w, match r with
                | inl _ => l
                | inr e => push_live l (LvHarvest (HvQueue (val_addr (rr_handle runtime)) e))
                end))
      end
  end.

(** The owners a validation admits are the vectors' new tails. *)
Definition live_validate (c : Candidate) (w : Live) (l : TaskList)
    : outcome (list OwnerKey * (Live * TaskList)) :=
  '(w', l) ← observe_candidate c w l;
  Ret ((runtime_key <$> drop (length (lv_runtimes w)) (lv_runtimes w'))
       ++ (local_set_key <$> drop (length (lv_sets w)) (lv_sets w')), (w', l)).

Definition live_world : DiscoveryWorld Live := {|
  enumerate := live_enumerate;
  scan := live_scan;
  harvest := live_harvest;
  validate := live_validate
|}.
End live.

(** ** The discovery *)

Definition default_limits : ScanLimits := mkLimits 12 8 64 65536 16777216 1048576 4194304.

Section discover.
Context `{Demangler} `{StreamObservers} {T : Type} `{!Target T} (cx : ChainCtx T).
Context (statics : list (StaticRole * StaticDef)) (describe : LiveError → string).

(** The owner to LWP join: each worker's own thread id. *)
Fixpoint worker_thread_ids (workers : list Worker) (l : TaskList) : outcome (list (Z * Z) * TaskList) :=
  match workers with
  | [] => Ret ([], l)
  | worker :: workers =>
      id ← worker_thread_id cx worker;
      let l := match id with inr e => push_live describe l (LvThreadId (wk_tid worker) e) | inl _ => l end in
      '(ids, l) ← worker_thread_ids workers l;
      Ret (match id with inl (Some id) => (id, wk_tid worker) :: ids | _ => ids end, l)
  end.

(** The sets the probe found, each read once. *)
Fixpoint tls_sets (found : list (Z * Value)) (thread_ids : list (Z * Z)) (sets : list LocalSetRef)
    (l : TaskList) : outcome (list LocalSetRef * TaskList) :=
  match found with
  | [] => Ret (sets, l)
  | (tid, shared) :: found =>
      if existsb (λ set, val_addr (ls_shared set) =? val_addr shared) sets
      then tls_sets found thread_ids sets l
      else
        set ← read_local_set cx shared (Some tid) Tls thread_ids;
        match set with
        | inl set => tls_sets found thread_ids (sets ++ [set]) l
        | inr e => tls_sets found thread_ids sets (push_live describe l (LvSet e))
        end
  end.

Definition probed_sets (lwps : list LwpInfo) (thread_ids : list (Z * Z)) (l : TaskList)
    : outcome (list LocalSetRef * TaskList) :=
  found ← local_tls_probe cx statics lwps;
  match found with
  | inl found => tls_sets found thread_ids [] l
  | inr e => Ret ([], push_live describe l (LvProbe e))
  end.

(** A session's owners, runtimes first. *)
Definition owner_keys (w : Live) : list OwnerKey :=
  (runtime_key <$> lv_runtimes w) ++ (local_set_key <$> lv_sets w).

Definition is_reached (out : SweepOutcome) (key : OwnerKey) : bool := bool_decide (key ∈ reached out).

(** The owners the scope does not keep, and the vectors it does. *)
Definition dropped_owners (out : SweepOutcome) (w : Live) : list OwnerKey :=
  filter (λ key, is_reached out key = false) (owner_keys w).
Definition retained (out : SweepOutcome) (w : Live) : Live :=
  mkLive (filter (λ r, is_reached out (runtime_key r) = true) (lv_runtimes w))
    (filter (λ s, is_reached out (local_set_key s) = true) (lv_sets w))
    (lv_registries w) (lv_wheel_visited w) (lv_io_visited w) (lv_memos w).

(** What a spent budget or the cap reports. *)
Definition spent_errors (out : SweepOutcome) (lim : ScanLimits) : list LiveError :=
  let bg := Work.budget out in
  (if max_inline_visits (limits bg) <=? inline_visits bg
   then [LvInlineSpent (max_inline_visits (limits bg))] else [])
  ++ (if max_referent_expansions (limits bg) <=? referent_expansions bg
      then [LvReferentsSpent (max_referent_expansions (limits bg))] else [])
  ++ (if capped out then [LvCapped (max_work_items lim) (remaining out)] else []).

(** Every error a sweep leaves, in the order they are pushed. *)
Definition sweep_errors (out : SweepOutcome) (w : Live) (lim : ScanLimits) (s : TaskStore) : list LiveError :=
  (LvIssue <$> store_issues s) ++ (LvDropped <$> dropped_owners out w) ++ spent_errors out lim.

Definition live_start (runtimes : list RuntimeRef) (sets : list LocalSetRef) : Live :=
  mkLive runtimes sets (mkRegistries [] [] None) ∅ ∅ (mkMemos ∅ ∅ ∅).

Definition roots_of (w : Live) : Roots :=
  mkRoots (runtime_key <$> lv_runtimes w) (local_set_key <$> lv_sets w).

(** [Context::discover_hidden_tasks_with]. *)
Definition discover_hidden_tasks_with (lwps : list LwpInfo) (workers : list Worker)
    (runtimes : list RuntimeRef) (excluded : list Z) (l : TaskList) (read : ReadContext)
    (lim : ScanLimits) : outcome (Live * TaskList) :=
  '(thread_ids, l) ← worker_thread_ids workers l;
  '(sets, l) ← probed_sets lwps thread_ids l;
  let w := live_start runtimes sets in
  '(out, (w, l)) ← @sweep Live (live_world cx statics describe thread_ids excluded read) excluded
                     w l (roots_of w) lim;
  let l := reproject l excluded in
  Ret (retained out w,
       mkTaskList (tasks l) (errors l ++ (describe <$> sweep_errors out w lim (tl_records l)))
         (tl_records l)).

Definition discover_hidden_tasks (lwps : list LwpInfo) (workers : list Worker)
    (runtimes : list RuntimeRef) (excluded : list Z) (l : TaskList) (read : ReadContext)
    : outcome (Live * TaskList) :=
  discover_hidden_tasks_with lwps workers runtimes excluded l read default_limits.
End discover.
