(* ===== verification/LiveTheorems.v ===== *)
(** The discovery of hidden tasks over the live world: it ends, does every item of work
    once, works only on owners of the session, and reports what the roots reach.  The
    live world comes first: it files through the store's own operations, and its
    registries list every entry once. *)

From S2P Require Import Prelude Text StringTable Target Symbols TaskGraph Discovery Schema BundleCheck TypeView DisplayResolve DisplayEval Value Elements Pairing Semantics Contract ContractFacts Chain TaskHeader OwnedLists OwnedListTheorems Runtimes Effects Registries RegistryFacts Containers Observe Scan ScanFacts ScanSpec ScanTheorems Work DiscoveryFacts WorkFacts WorkTheorems Live MemoryDemo TaskDemo.

Local Open Scope Z_scope.

(** ** Owners *)

Definition runtime_addr (r : RuntimeRef) : Z := val_addr (rr_handle r).
Definition set_addr (s : LocalSetRef) : Z := val_addr (ls_shared s).

(** A list with one more element, where its key is not taken, or as it was. *)
Definition one_more {A} (key : A → Z) (l l' : list A) : Prop :=
  l' = l ∨ ∃ a, l' = l ++ [a] ∧ key a ∉ key <$> l.

Lemma one_more_distinct {A} (key : A → Z) l l' :
  one_more key l l' → NoDup (key <$> l) → NoDup (key <$> l').
Proof.
  intros [->|(a & -> & Hn)] Hd; [done|]. rewrite fmap_app. apply NoDup_app.
  split; [done|]. split; [|apply NoDup_singleton]. intros x Hx ->%list_elem_of_singleton. done.
Qed.

Lemma one_more_prefix {A} (key : A → Z) l l' : one_more key l l' → l `prefix_of` l'.
Proof. intros [->|(a & -> & _)]; [done|by eexists]. Qed.

Lemma find_key {A} (key : A → Z) (k : Z) l :
  find_first (λ a, key a =? k) l = None → k ∉ key <$> l.
Proof.
  intros Hf. rewrite find_first_None in Hf. intros (a & -> & Ha)%list_elem_of_fmap.
  specialize (Hf a Ha). by rewrite Z.eqb_refl in Hf.
Qed.

(** ** What enumerations file *)

Section lists.
Context `{Demangler} {T : Type} `{!Target T} (cx : ChainCtx T) (describe : ListError → string).

(** Filing that leaves the rows alone. *)
Definition lists_more (l l' : TaskList) : Prop := filed (tl_records l) (tl_records l').

Lemma observe_listed_filed h owner head owned_id l l' :
  observe_listed cx h owner head owned_id l = Ret l' → lists_more l l'.
Proof.
  unfold observe_listed. intros (k & _ & Hr)%outcome_bind_Ret.
  apply outcome_bind_Ret in Hr as ([e s] & Ho & Hr). apply files_observe in Ho.
  destruct (list_claim _ _ _ _).2 as [i|]; [|injection Hr as <-; by apply rtc_once].
  apply outcome_bind_Ret in Hr as (s' & Hi & [= <-]). apply files_issue in Hi.
  by eapply rtc_l, rtc_once.
Qed.

Lemma list_step_filed owner head owned_id a visited l visited' l' r :
  list_step cx owner head owned_id a visited l = Ret (visited', l', r) → lists_more l l'.
Proof.
  unfold list_step. intros Hr. case_match; [by injection Hr as <- <- <-; constructor|].
  case_match; [by injection Hr as <- <- <-; constructor|].
  apply outcome_bind_Ret in Hr as ([h|e] & _ & Hr); [|injection Hr as <- <- <-; constructor].
  apply outcome_bind_Ret in Hr as ([next|e] & _ & Hr); [|injection Hr as <- <- <-; constructor].
  apply outcome_bind_Ret in Hr as (l1 & Ho & [= <- <- <-]). by eapply observe_listed_filed.
Qed.

Lemma walk_owned_loop_filed owner head owned_id what fuel : ∀ cur visited l visited' l',
  walk_owned_loop cx describe fuel owner head owned_id what cur visited l = Ret (visited', l') → lists_more l l'.
Proof.
  induction fuel as [|fuel IH]; intros [a|] visited l visited' l' Hr; cbn [walk_owned_loop] in Hr;
    try done; try (injection Hr as <- <-; constructor).
  apply outcome_bind_Ret in Hr as ([[v l1] [next|e]] & Hs & Hr); apply list_step_filed in Hs.
  - apply IH in Hr. unfold lists_more in *. by etransitivity.
  - by injection Hr as <- <-.
Qed.

Lemma walk_shards_filed owner owned_id shards : ∀ index visited l l' r,
  walk_shards cx describe owner owned_id index shards visited l = Ret (l', r) → lists_more l l'.
Proof.
  induction shards as [|shard shards IH]; intros index visited l l' r Hr; cbn [walk_shards] in Hr.
  { injection Hr as <- <-. constructor. }
  apply outcome_bind_Ret in Hr as ([[head|]|e] & _ & Hr); [|by eapply IH|injection Hr as <- <-; constructor].
  apply outcome_bind_Ret in Hr as ([v l1] & Hw%walk_owned_loop_filed & Hr%IH). unfold lists_more in *.
  by etransitivity.
Qed.

Lemma enumerate_owned_filed shared owner owned_id l l' r :
  enumerate_owned cx describe shared owner owned_id l = Ret (l', r) → lists_more l l'.
Proof.
  unfold enumerate_owned. intros ([lists|e] & _ & Hr)%outcome_bind_Ret; [|injection Hr as <- <-; constructor].
  apply outcome_bind_Ret in Hr as ([es|e] & _ & Hr).
  - apply walk_shards_filed in Hr. by destruct owned_id.
  - injection Hr as <- <-. by destruct owned_id; constructor.
Qed.

Lemma enumerate_local_filed set l l' r :
  enumerate_local cx describe set l = Ret (l', r) → lists_more l l'.
Proof.
  unfold enumerate_local. intros ([[head| |]|e] & _ & Hr)%outcome_bind_Ret;
    try (injection Hr as <- <-; constructor).
  apply outcome_bind_Ret in Hr as ([a|e] & _ & Hr); [|injection Hr as <- <-; constructor].
  apply outcome_bind_Ret in Hr as ([v l1] & Hw%walk_owned_loop_filed & [= <- <-]). done.
Qed.

(** A claim on a set admits at most the set claimed. *)
Lemma local_set_claim_more shared owner_id addr route thread_ids sets sets' v :
  local_set_claim cx shared owner_id addr route thread_ids sets = Ret (inl (sets', v)) →
  one_more set_addr sets sets'.
Proof.
  unfold local_set_claim. destruct (find_first _ _) as [set|] eqn:Ef; [by intros [= <- _]; left|].
  intros (set & Hs & Hr)%fbind_inl. destruct (ls_owned_id set =? owner_id); injection Hr as <- _; [|by left].
  right. exists set. split; [done|]. apply (find_key set_addr) in Ef.
  unfold read_local_set in Hs. apply fbind_inl in Hs as (? & _ & Hs).
  apply fbind_inl in Hs as (? & _ & [= <-]). done.
Qed.
End lists.

(** ** The live world *)

Section live.
Context `{Demangler} `{StreamObservers} {T : Type} `{!Target T} (cx : ChainCtx T).
Context (statics : list (StaticRole * StaticDef)) (describe : LiveError → string).
Context (thread_ids : list (Z * Z)) (excluded : list Z) (read : ReadContext).

(** What the session remembers of a [Notify]'s waiters is of them. *)
Definition waiters_sound (w : Live) : Prop := ∀ q ls t, mm_notify (lv_memos w) !! q = Some ls → t ∈ ls →
  queued cx statics read QNotify q t.

(** What an operation may make of a session: its owner vectors at most one longer, by an
    owner of its own, its registries longer by entries new to their guards, and what it
    remembers as true as it was. *)
Record live_step (w w' : Live) : Prop := mkLiveStep {
  ls_runtimes : one_more runtime_addr (lv_runtimes w) (lv_runtimes w');
  ls_sets : one_more set_addr (lv_sets w) (lv_sets w');
  ls_timers : ∃ ts, rg_timers (lv_registries w') = rg_timers (lv_registries w) ++ ts ∧
    NoDup (ti_entry <$> ts) ∧ lv_wheel_visited w ⊆ lv_wheel_visited w' ∧
    ∀ t, t ∈ ts → (ti_entry t ∉ lv_wheel_visited w) ∧ ti_entry t ∈ lv_wheel_visited w';
  ls_io : ∃ rs, rg_io (lv_registries w') = rg_io (lv_registries w) ++ rs ∧
    NoDup (io_addr <$> rs) ∧ lv_io_visited w ⊆ lv_io_visited w' ∧
    ∀ r, r ∈ rs → (io_addr r ∉ lv_io_visited w) ∧ io_addr r ∈ lv_io_visited w';
  ls_waiters : waiters_sound w → waiters_sound w'
}.

(** A session in shape: no owner twice, and every entry once, under its guard. *)
Record live_ok (w : Live) : Prop := mkLiveOk {
  lo_runtimes : NoDup (runtime_addr <$> lv_runtimes w);
  lo_sets : NoDup (set_addr <$> lv_sets w);
  lo_timers : NoDup (ti_entry <$> rg_timers (lv_registries w));
  lo_timers_seen t : t ∈ rg_timers (lv_registries w) → ti_entry t ∈ lv_wheel_visited w;
  lo_io : NoDup (io_addr <$> rg_io (lv_registries w));
  lo_io_seen r : r ∈ rg_io (lv_registries w) → io_addr r ∈ lv_io_visited w
}.

Lemma live_same w rts sts : one_more runtime_addr (lv_runtimes w) rts → one_more set_addr (lv_sets w) sts →
  live_step w (mkLive rts sts (lv_registries w) (lv_wheel_visited w) (lv_io_visited w) (lv_memos w)).
Proof.
  intros Hr Hs. split; [done|done| | |done]; exists []; rewrite app_nil_r; (split; [done|]; split; [constructor|]);
    (split; [done|]); intros x Hx; by apply elem_of_nil in Hx.
Qed.

Lemma live_refl w : live_step w w.
Proof. destruct w. by apply live_same; left. Qed.

Lemma new_keys {A} (key : A → Z) l new (seen seen' : gset Z) :
  NoDup (key <$> l) → (∀ a, a ∈ l → key a ∈ seen) → NoDup (key <$> new) → seen ⊆ seen' →
  (∀ a, a ∈ new → (key a ∉ seen) ∧ key a ∈ seen') →
  NoDup (key <$> l ++ new) ∧ ∀ a, a ∈ l ++ new → key a ∈ seen'.
Proof.
  intros Hl Hseen Hn Hsub Hnew. split.
  - rewrite fmap_app. apply NoDup_app. split; [done|]. split; [|done].
    intros x (a & -> & Ha)%list_elem_of_fmap (a' & E & Ha')%list_elem_of_fmap.
    destruct (Hnew a' Ha') as [Hn' _]. apply Hn'. rewrite <- E. by apply Hseen.
  - intros a [Ha|Ha]%elem_of_app; [by apply Hsub, Hseen|by destruct (Hnew a Ha)].
Qed.

Lemma live_step_ok w w' : live_step w w' → live_ok w → live_ok w'.
Proof.
  intros [Sr Ss (ts & Et & Nt & Gt & Ft) (rs & Ei & Ni & Gi & Fi) _] [Or Os Ot Vt Oi Vi].
  destruct (new_keys ti_entry _ _ _ _ Ot Vt Nt Gt Ft) as [? ?].
  destruct (new_keys io_addr _ _ _ _ Oi Vi Ni Gi Fi) as [? ?].
  split; rewrite ?Et, ?Ei; try done; by eapply one_more_distinct.
Qed.

(** ** Claims *)

Lemma runtime_claim_more handle flavor owner_id addr route rts rts' v :
  runtime_claim cx excluded handle flavor owner_id addr route rts = Ret (inl (rts', v)) →
  one_more runtime_addr rts rts'.
Proof.
  unfold runtime_claim. destruct (find_first _ _) as [r|] eqn:Ef.
  { destruct (rr_owned_id r); [|done]. intros [= <- _]. by left. }
  case_bool_decide.
  { intros (o & _ & Hr)%fbind_inl. destruct o; [|done]. injection Hr as <- _. by left. }
  intros Hr%map_err_inl. apply fbind_inl in Hr as ([id|] & _ & Hr); [|done].
  destruct (id =? owner_id); injection Hr as <- _; [right|by left].
  eexists. split; [done|]. by apply (find_key runtime_addr) in Ef.
Qed.

Lemma owner_claim_step class owner owner_id addr route w w' v :
  owner_claim_of cx thread_ids excluded class owner owner_id addr route w = Ret (inl (w', v)) →
  live_step w w'.
Proof.
  unfold owner_claim_of. destruct class.
  - intros ([rts x] & Hc%runtime_claim_more & [= <- _])%fbind_inl. by apply live_same; [|left].
  - intros ([rts x] & Hc%runtime_claim_more & [= <- _])%fbind_inl. by apply live_same; [|left].
  - intros ([sets x] & Hc%map_err_inl & [= <- _])%fbind_inl.
    apply local_set_claim_more in Hc. by apply live_same; [left|].
  - intros [= <- _]. apply live_refl.
Qed.

(** An operation on a session and a listing: it files, and steps the session. *)
Definition operates (w w' : Live) (l l' : TaskList) : Prop := live_step w w' ∧ lists_more l l'.

Lemma cell_owner_claim_step id class route w l w' l' r :
  cell_owner_claim cx thread_ids excluded id class route w l = Ret (w', l', r) → operates w w' l l'.
Proof.
  assert (Hsame : operates w w l l) by (split; [apply live_refl|constructor]).
  unfold cell_owner_claim. intros (x & _ & Hr)%outcome_bind_Ret.
  destruct (h_future (header x)) as [known|ps|sym cs]; [|by injection Hr as <- <- <-..].
  apply outcome_bind_Ret in Hr as ([[owner_id owner]|e] & _ & Hr); [|by injection Hr as <- <- <-].
  apply outcome_bind_Ret in Hr as ([[w1 [[key|i]|]]|e] & Hc & Hr); try apply owner_claim_step in Hc.
  - injection Hr as <- <- <-. by split; [|constructor].
  - apply outcome_bind_Ret in Hr as (s & Hi%files_issue & [= <- <- <-]). split; [done|by apply rtc_once].
  - injection Hr as <- <- <-. by split; [|constructor].
  - by injection Hr as <- <- <-.
Qed.

Lemma follow_home_step id class addr route w l w' l' :
  follow_home cx describe thread_ids excluded id class addr route w l = Ret (w', l') → operates w w' l l'.
Proof.
  assert (Hsame : operates w w l l) by (split; [apply live_refl|constructor]).
  assert (∀ c, (
    '(w1, l1, r) ← cell_owner_claim cx thread_ids excluded id c route w l;
    match r with
    | inl (Some c) => '(_, s) ← claim (tl_records l1) id c; Ret (w1, with_records l1 s)
    | inl None => Ret (w1, l1)
    | inr e => Ret (w1, push_live describe l1 (LvHome addr e))
    end) = Ret (w', l') → operates w w' l l') as Hc.
  { intros c ([[w1 l1] r] & [Hw Hl]%cell_owner_claim_step & Hr)%outcome_bind_Ret.
    destruct r as [[cl|]|e]; [|by injection Hr as <- <-..].
    apply outcome_bind_Ret in Hr as ([e s] & Hf%files_claim & [= <- <-]).
    split; [done|]. by eapply rtc_r. }
  unfold follow_home. destruct class as [[]|]; try apply Hc; by intros [= <- <-].
Qed.

Lemma observe_candidate_step c w l w' l' :
  observe_candidate cx describe thread_ids excluded read c w l = Ret (w', l') → operates w w' l l'.
Proof.
  assert (Hsame : operates w w l l) by (split; [apply live_refl|constructor]).
  unfold observe_candidate. destruct (candidate_source c) as [source claim].
  destruct (lookup_addr _ _) as [id|].
  { intros ([e s] & Hf%files_observe_at & [= <- <-])%outcome_bind_Ret.
    split; [apply live_refl|by apply rtc_once]. }
  intros ([h|e] & _ & Hr)%outcome_bind_Ret; [|by injection Hr as <- <-].
  apply outcome_bind_Ret in Hr as (class & _ & Hr). apply outcome_bind_Ret in Hr as (kind & _ & Hr).
  apply outcome_bind_Ret in Hr as ([e s] & Hf%files_observe & [Hw Hl]%follow_home_step).
  split; [done|]. by eapply rtc_l.
Qed.

(** ** The operations *)

Lemma live_enumerate_step o w l w' l' :
  live_enumerate cx describe o w l = Ret (w', l') → w' = w ∧ lists_more l l'.
Proof.
  unfold live_enumerate. destruct o as [f h|sh].
  - destruct (live_runtime _ _) as [r|]; [|by intros [= <- <-]; split; constructor].
    intros ([shared|e] & _ & Hr)%outcome_bind_Ret.
    + apply outcome_bind_Ret in Hr as ([l1 [u|e]] & Hl%enumerate_owned_filed & [= <- <-]); done.
    + rewrite outcome_bind_eq in Hr. injection Hr as <- <-. by split; constructor.
  - destruct (live_set _ _) as [s|]; [|by intros [= <- <-]; split; constructor].
    intros ([l1 [u|e]] & Hl%enumerate_local_filed & [= <- <-])%outcome_bind_Ret; done.
Qed.

(** A world that remembers other things, as true. *)
Lemma memos_step m w : (waiters_sound w → waiters_sound (with_memos m w)) → live_step w (with_memos m w).
Proof. intros Hm. by destruct (live_refl w). Qed.

Lemma scan_record_marks id m l bg cs m' l' bg' : scan_record cx statics read id m l bg = Ret (cs, (m', l', bg')) →
  mark_scanned (tl_records l) id = Ret (tl_records l').
Proof.
  unfold scan_record. intros (s & Hs & Hr)%outcome_bind_Ret.
  apply outcome_bind_Ret in Hr as (r & _ & Hr). apply outcome_bind_Ret in Hr as (root & _ & Hr). rewrite Hs.
  destruct root as [[future| |]|e];
    [apply outcome_bind_Ret in Hr as ([[[m1 b1] sunk] cp] & _ & Hr)|..]; by injection Hr as <- <- <- <-.
Qed.
Lemma live_scan_step id w l bg cs w' l' bg' :
  live_scan cx statics read id w l bg = Ret (cs, (w', l', bg')) →
  w' = with_memos (lv_memos w') w ∧ scan_record cx statics read id (lv_memos w) l bg = Ret (cs, (lv_memos w', l', bg')).
Proof.
  unfold live_scan. cbn [scan_records].
  intros ([c1 [[m1 l1] bg1]] & Hr & [= <- <- <- <-])%outcome_bind_Ret.
  apply outcome_bind_Ret in Hr as ([c2 [[m2 l2] bg2]] & Hr & Hn).
  rewrite outcome_bind_eq in Hn. injection Hn as <- <- <- <-. by rewrite app_nil_r.
Qed.

(** A reference a task's own storage was found to make. *)
Definition scanned_reference (id : TaskRecordId) (s : TaskStore) (c : Candidate) : Prop :=
  ∃ s' r future reference, mark_scanned s id = Ret s' ∧ record s' id = Ret r ∧
    task_root cx read (record_task r) = Ret (inl (StRunning future)) ∧
    c = CReference reference (Scanned (rf_source reference)) ∧
    rf_root_task reference = Some (addr (record_task r)) ∧
    ∃ v key, ScanSpec.within cx read future v ∧ ScanSpec.names cx statics read v (rf_source reference) (rf_target reference) key ∧
      rf_source_value reference = Some key.

Lemma live_scan_finds id w l bg cs w' l' bg' : live_scan cx statics read id w l bg = Ret (cs, (w', l', bg')) →
  live_step w w' ∧ (waiters_sound w → ∀ c, c ∈ cs → scanned_reference id (tl_records l) c).
Proof.
  intros [-> Hr]%live_scan_step. cbn [lv_memos with_memos] in Hr. unfold scan_record in Hr.
  apply outcome_bind_Ret in Hr as (s & Hs & Hr). apply outcome_bind_Ret in Hr as (r & Hrec & Hr).
  apply outcome_bind_Ret in Hr as (root & Hroot & Hr).
  destruct root as [[future| |]|e]; [|by (injection Hr as <- Hm _ _; rewrite <- Hm; destruct w;
    split; [apply live_refl|intros _ c ?%elem_of_nil])..].
  apply outcome_bind_Ret in Hr as ([[[m1 b1] sunk] cp] & Hscan & [= <- Hm _ _]). rewrite <- Hm. split.
  - apply memos_step. intros Hw. by destruct (scan_justified _ _ _ _ _ _ _ _ _ _ _ Hscan Hw).
  - intros Hw c (reference & -> & Hin)%list_elem_of_fmap.
    destruct (scan_justified _ _ _ _ _ _ _ _ _ _ _ Hscan Hw) as [Hj _].
    destruct (Hj _ Hin) as (Hrt & v & key & Hv & Hn & Hk). exists s, r, future, reference. repeat (split; [done|]). eauto 10.
Qed.

Lemma wheel_pointers_filed runtimes :
  keeps_rel (timers_filed (cc_mappings cx)) (wheel_task_pointers cx statics runtimes).
Proof.
  unfold wheel_task_pointers, harvest_one. keeps; [apply harvest_wheel_filed|].
  apply keeps_modify. intros s. exists [], []. split; rewrite ?app_nil_r; try done; [constructor|].
  intros t Ht. by apply elem_of_nil in Ht.
Qed.

Lemma io_pointers_filed runtimes :
  keeps_rel (io_filed (cc_mappings cx)) (io_task_pointers cx statics runtimes).
Proof.
  unfold io_task_pointers, harvest_one. keeps; [apply harvest_io_filed|].
  apply keeps_modify. intros s. by apply io_filed_same.
Qed.

Lemma live_harvest_step o g w l cs w' l' :
  live_harvest cx statics describe o g w l = Ret (cs, (w', l')) →
  live_step w w' ∧ tl_records l' = tl_records l.
Proof.
  unfold live_harvest. destruct (live_runtime o w) as [runtime|]; [|intros [= _ <- <-]; by split; [apply live_refl|]].
  destruct g.
  - intros ([h r] & (ts & cs' & [A1 A2 A3 A4 A5 A6 A7])%wheel_pointers_filed & [= _ <- <-])%outcome_bind_Ret.
    split; [|done]. cbn in *. split; [by left|by left| | |done]; cbn.
    + exists ts. repeat (split; [done|]). intros t Ht. by destruct (A6 t Ht) as (_ & ? & ?).
    + exists []. rewrite A2, app_nil_r. split; [done|]. split; [constructor|]. split; [done|].
      intros x Hx. by apply elem_of_nil in Hx.
  - intros ([h r] & (ts & cs' & [A1 A2 A3 A4 A5 A6 A7])%io_pointers_filed & [= _ <- <-])%outcome_bind_Ret.
    split; [|done]. cbn in *. split; [by left|by left| | |done]; cbn.
    + exists []. rewrite A2, app_nil_r. split; [done|]. split; [constructor|]. split; [done|].
      intros x Hx. by apply elem_of_nil in Hx.
    + exists ts. repeat (split; [done|]). intros t Ht. by destruct (A6 t Ht) as (_ & ? & ?).
  - intros ([h r] & _ & [= _ <- <-])%outcome_bind_Ret. split; [apply live_refl|]. by destruct r.
Qed.

Lemma live_validate_step c w l os w' l' :
  live_validate cx describe thread_ids excluded read c w l = Ret (os, (w', l')) →
  operates w w' l l' ∧
  os = (runtime_key <$> drop (length (lv_runtimes w)) (lv_runtimes w'))
       ++ (local_set_key <$> drop (length (lv_sets w)) (lv_sets w')).
Proof.
  unfold live_validate. intros ([w1 l1] & Hw%observe_candidate_step & [= <- <- <-])%outcome_bind_Ret. done.
Qed.

Abbreviation world := (live_world cx statics describe thread_ids excluded read).

(** The live world files as a world must. *)
Lemma live_world_lawful : @LawfulWorld Live world.
Proof.
  split.
  - intros o w l w' l' _ [_ Hl]%live_enumerate_step. done.
  - intros id w l b cs w' l' b' _ _ [_ Hl%scan_record_marks]%live_scan_step. done.
  - intros o g w l cs w' l' _ [_ Hl]%live_harvest_step. done.
  - intros c w l os w' l' _ [[_ Hl] _]%live_validate_step. done.
Qed.

(** ** A run of the sweep *)

(** The session has an owner. *)
Definition admitted (w : Live) (o : OwnerKey) : Prop :=
  match o with
  | Runtime _ handle => is_Some (live_runtime o w)
  | LocalSet shared => is_Some (live_set shared w)
  end.

Lemma find_key_Some {A} (key : A → Z) a (l : list A) :
  a ∈ l → is_Some (find_first (λ x, key x =? key a) l).
Proof.
  intros Ha. destruct (find_first _ _) eqn:Ef; [by eexists|].
  rewrite find_first_None in Ef. specialize (Ef a Ha). by rewrite Z.eqb_refl in Ef.
Qed.

Lemma admitted_runtime r w : r ∈ lv_runtimes w → admitted w (runtime_key r).
Proof. intros Hr. by apply (find_key_Some runtime_addr). Qed.
Lemma admitted_set s w : s ∈ lv_sets w → admitted w (local_set_key s).
Proof. intros Hs. by apply (find_key_Some set_addr). Qed.

Lemma find_first_prefix {A} (p : A → bool) l l' :
  l `prefix_of` l' → is_Some (find_first p l) → is_Some (find_first p l').
Proof.
  intros [k ->] [a [Ha Hp]%find_first_Some]. destruct (find_first p (l ++ k)) eqn:Ef; [by eexists|].
  rewrite find_first_None in Ef. specialize (Ef a ltac:(set_solver)). congruence.
Qed.

Lemma admitted_step w w' o : live_step w w' → admitted w o → admitted w' o.
Proof.
  intros [Hr%one_more_prefix Hs%one_more_prefix _ _].
  destruct o as [f h|sh]; by apply find_first_prefix.
Qed.

Lemma validated_admitted c w l os w' l' :
  live_validate cx describe thread_ids excluded read c w l = Ret (os, (w', l')) →
  ∀ o, o ∈ os → admitted w' o.
Proof.
  intros [_ ->]%live_validate_step o [Ho|Ho]%elem_of_app; apply list_elem_of_fmap in Ho as (a & -> & Ha).
  - apply admitted_runtime. by eapply subseteq_drop.
  - apply admitted_set. by eapply subseteq_drop.
Qed.
End live.

(** The owner an item of work reads a list or a registry of. *)
Definition item_owner (item : DiscoveryWork) : option OwnerKey :=
  match item with
  | EnumerateRuntime o | EnumerateLocalSet o | HarvestTimers o | HarvestIo o | HarvestBlockingQueue o => Some o
  | ScanTask _ | Validate _ _ => None
  end.

(** An owner whose work is queued is scheduled. *)
Lemma queued_scheduled items q rts sch item q' o :
  sched_ok rts (accounted items q) sch → pop q = Some (item, q') → item_owner item = Some o → o ∈ sch.
Proof.
  intros Hok Hp Ho. rewrite <- (pop_accounted items q item q' Hp) in Hok.
  destruct Hok as [_ Ht Hi Hq Hs Hr]. unfold accounted in Ht, Hi, Hq, Hs, Hr. cbn in Ht, Hi, Hq, Hs, Hr.
  rewrite omap_app in Ht, Hi, Hq, Hs, Hr.
  destruct item; simplify_eq/=.
  1: assert (o ∈ filter (λ o, is_rt o = true ∧ o ∉ rts) sch) as Hin by (rewrite <- Hr; set_solver).
  2: assert (o ∈ filter (λ o, is_rt o = false) sch) as Hin by (rewrite <- Hs; set_solver).
  3: assert (o ∈ filter (λ o, is_rt o = true) sch) as Hin by (rewrite <- Ht; set_solver).
  4: assert (o ∈ filter (λ o, is_rt o = true) sch) as Hin by (rewrite <- Hi; set_solver).
  5: assert (o ∈ filter (λ o, is_rt o = true) sch) as Hin by (rewrite <- Hq; set_solver).
  all: by apply list_elem_of_filter in Hin as [_ Hin].
Qed.

Section discovery.
Context `{Demangler} `{StreamObservers} {T : Type} `{!Target T} (cx : ChainCtx T).
Context (statics : list (StaticRole * StaticDef)) (describe : LiveError → string).

(** ** What comes before the sweep *)

Lemma worker_thread_ids_records workers : ∀ l ids l',
  worker_thread_ids cx describe workers l = Ret (ids, l') → tl_records l' = tl_records l.
Proof.
  induction workers as [|w workers IH]; intros l ids l' Hr; cbn [worker_thread_ids] in Hr;
    [by injection Hr as <- <-|].
  apply outcome_bind_Ret in Hr as (id & _ & Hr). apply outcome_bind_Ret in Hr as ([ids' l1] & Hr & [= _ <-]).
  apply IH in Hr as ->. by destruct id.
Qed.

Lemma tls_sets_ok ids found : ∀ sets l sets' l',
  tls_sets cx describe found ids sets l = Ret (sets', l') → NoDup (set_addr <$> sets) →
  NoDup (set_addr <$> sets') ∧ tl_records l' = tl_records l.
Proof.
  induction found as [|[tid shared] found IH]; intros sets l sets' l' Hr Hn; cbn [tls_sets] in Hr.
  { by injection Hr as <- <-. }
  destruct (existsb _ sets) eqn:Ee; [by eapply IH|].
  apply outcome_bind_Ret in Hr as ([set|e] & Hs & Hr); [|by eapply (IH _ _ _ _ Hr)].
  apply (IH _ _ _ _ Hr). eapply one_more_distinct, Hn. right. exists set. split; [done|].
  assert (set_addr set = val_addr shared) as ->.
  { unfold read_local_set in Hs. apply fbind_inl in Hs as (? & _ & Hs).
    apply fbind_inl in Hs as (? & _ & [= <-]). done. }
  intros (s & E & Hin)%list_elem_of_fmap.
  assert (existsb (λ set, val_addr (ls_shared set) =? val_addr shared) sets = true) as Hx; [|congruence].
  apply existsb_exists. exists s. split; [by apply list_elem_of_In|]. by apply Z.eqb_eq.
Qed.

Lemma probed_sets_ok lwps ids l sets l' :
  probed_sets cx statics describe lwps ids l = Ret (sets, l') →
  NoDup (set_addr <$> sets) ∧ tl_records l' = tl_records l.
Proof.
  unfold probed_sets. intros ([found|e] & _ & Hr)%outcome_bind_Ret.
  - eapply tls_sets_ok; [done|constructor].
  - injection Hr as <- <-. by split; [constructor|].
Qed.

(** Why the discovery panics: a read before the sweep does, or the sweep's own run, over
    the session those reads gave, comes to an item whose operation does. *)
Inductive discovery_panics (lwps : list LwpInfo) (workers : list Worker) (runtimes : list RuntimeRef)
    (excluded : list Z) (l : TaskList) (read : ReadContext) (lim : ScanLimits) : Prop :=
  | dp_thread w : w ∈ workers → worker_thread_id cx w = Panic →
      discovery_panics lwps workers runtimes excluded l read lim
  | dp_probe : local_tls_probe cx statics lwps = Panic →
      discovery_panics lwps workers runtimes excluded l read lim
  | dp_set ids la found tid shared : worker_thread_ids cx describe workers l = Ret (ids, la) →
      local_tls_probe cx statics lwps = Ret (inl found) → (tid, shared) ∈ found →
      read_local_set cx shared (Some tid) Tls ids = Panic →
      discovery_panics lwps workers runtimes excluded l read lim
  | dp_sweep ids la sets l0 : worker_thread_ids cx describe workers l = Ret (ids, la) →
      probed_sets cx statics describe lwps ids la = Ret (sets, l0) →
      @sweep_panics Live (live_world cx statics describe ids excluded read) excluded
        (live_start runtimes sets) l0 (roots_of (live_start runtimes sets)) lim →
      discovery_panics lwps workers runtimes excluded l read lim.

Lemma worker_thread_ids_panic workers : ∀ l, worker_thread_ids cx describe workers l = Panic →
  ∃ w, w ∈ workers ∧ worker_thread_id cx w = Panic.
Proof.
  induction workers as [|w workers IH]; intros l Hr; cbn [worker_thread_ids] in Hr; [done|].
  destruct (worker_thread_id cx w) as [id|] eqn:E; [|exists w; split; [left|done]].
  rewrite outcome_bind_eq in Hr. set (l1 := match id with inl _ => l | inr e => _ end) in Hr.
  destruct (worker_thread_ids cx describe workers l1) as [[ids l2]|] eqn:E1; [done|].
  destruct (IH _ E1) as (w' & Hin & Hp). exists w'. split; [by right|done].
Qed.

Lemma tls_sets_panic ids found : ∀ sets l, tls_sets cx describe found ids sets l = Panic →
  ∃ tid shared, (tid, shared) ∈ found ∧ read_local_set cx shared (Some tid) Tls ids = Panic.
Proof.
  induction found as [|[tid shared] found IH]; intros sets l Hr; cbn [tls_sets] in Hr; [done|].
  assert (∀ sets l, tls_sets cx describe found ids sets l = Panic → ∃ tid' shared',
    (tid', shared') ∈ (tid, shared) :: found ∧ read_local_set cx shared' (Some tid') Tls ids = Panic) as IH'.
  { intros s1 l1 (t & sh & Hin & Hp)%IH. exists t, sh. split; [by right|done]. }
  destruct (existsb _ sets); [by eapply IH'|].
  destruct (read_local_set cx shared (Some tid) Tls ids) as [[set|e]|] eqn:E.
  - rewrite outcome_bind_eq in Hr. by eapply IH'.
  - rewrite outcome_bind_eq in Hr. by eapply IH'.
  - exists tid, shared. split; [left|done].
Qed.

(** ** The session through a run *)

Section run.
Context (ids : list (Z * Z)) (excluded : list Z) (read : ReadContext).
#[local] Instance world : DiscoveryWorld Live := live_world cx statics describe ids excluded read.

Lemma process_live (st st' : SweepState Live) item : process excluded st item = Ret st' →
  live_step cx statics read (s_world st) (s_world st') ∧
  ∀ o, o ∈ s_scheduled st' → o ∈ s_scheduled st ∨ admitted (s_world st') o.
Proof.
  destruct item; cbn [process]; unfold enumerated, scanned_task, harvested, validated.
  1-2: intros ([w l] & [-> _]%live_enumerate_step & Hr)%outcome_bind_Ret; destruct (take_scans _ _);
    injection Hr as <-; split; [apply live_refl|by left].
  - intros (r & _ & Hr)%outcome_bind_Ret.
    destruct (excluded_owned _ _); [injection Hr as <-; split; [apply live_refl|by left]|].
    apply outcome_bind_Ret in Hr as ([cs [[w l] bg]] & [Hw _]%live_scan_finds & [= <-]). split; [exact Hw|by left].
  - intros ([cs [w l]] & [Hw _]%(live_harvest_step cx statics describe read) & [= <-])%outcome_bind_Ret. split; [exact Hw|by left].
  - intros ([cs [w l]] & [Hw _]%(live_harvest_step cx statics describe read) & [= <-])%outcome_bind_Ret. split; [exact Hw|by left].
  - intros ([cs [w l]] & [Hw _]%(live_harvest_step cx statics describe read) & [= <-])%outcome_bind_Ret. split; [exact Hw|by left].
  - intros ([os [w l]] & Hv & Hr)%outcome_bind_Ret.
    epose proof (validated_admitted cx statics describe ids excluded read _ _ _ _ _ _ Hv) as Ha.
    apply (live_validate_step cx statics) in Hv as [[Hw _] _].
    pose proof (schedule_all_only excluded true os (s_queue st) (s_scheduled st)) as Hs.
    destruct (schedule_all _ _ _ _) as [q sch]. destruct (take_scans q l). injection Hr as <-.
    split; [exact Hw|]. intros o [Ho|Ho]%Hs; [by left|right; by apply Ha].
Qed.

(** Every owner scheduled is the session's, and the session is in shape. *)
Lemma runs_live st0 items fs os st : runs excluded st0 items fs os st →
  live_ok (s_world st0) → (∀ o, o ∈ s_scheduled st0 → admitted (s_world st0) o) →
  live_ok (s_world st) ∧ ∀ o, o ∈ s_scheduled st → admitted (s_world st) o.
Proof.
  induction 1 as [|items fs os st item q st' _ IH _ [Hw Ho]%process_live]; [done|].
  intros H1 H2. destruct (IH H1 H2) as [Hok Ha]. split; [by eapply live_step_ok|].
  intros o [Hin|?]%Ho; [|done]. eapply admitted_step; [done|]. by apply Ha.
Qed.

(** Every find of a task's scan is a reference its storage makes, at a state of the run. *)
Lemma runs_scans st0 items fs os st : runs excluded st0 items fs os st → waiters_sound cx statics read (s_world st0) →
  waiters_sound cx statics read (s_world st) ∧ ∀ c id, (c, OTask id) ∈ fs →
    ∃ items' fs' os' st', runs excluded st0 items' fs' os' st' ∧
      scanned_reference cx statics read id (tl_records (s_list st')) c.
Proof.
  induction 1 as [|items fs os st item q st' Hrun IH _ Hp]; intros Hw; [by split; [|intros c id ?%elem_of_nil]|].
  destruct (IH Hw) as [Hw1 Hf]. pose proof (process_live _ _ _ Hp) as [[_ _ _ _ Hw2] _]. split; [by apply Hw2|].
  intros c id [Hin|Hin]%elem_of_app; [by apply Hf|]. exists items, fs, os, st. split; [done|].
  assert (∀ o (A : Type) (m : outcome (list Candidate * A)), (c, OTask id) ∉ found (OOwner o) m) as Hother.
  { intros o A m. unfold found. destruct m as [[cs a]|]; [|by intros ?%elem_of_nil]. by intros (? & [=] & _)%list_elem_of_fmap. }
  destruct item; cbn [finds] in Hin; try (by apply elem_of_nil in Hin); try (by apply Hother in Hin).
  case_match eqn:Er; [|by apply elem_of_nil in Hin].
  destruct (excluded_owned _ _); [by apply elem_of_nil in Hin|]. unfold found in Hin.
  match type of Hin with context [match ?m with _ => _ end] => destruct m as [[cs [[w l] bg]]|] eqn:Es end;
    [|by apply elem_of_nil in Hin].
  apply list_elem_of_fmap in Hin as (c' & [= <- <-] & Hin). apply live_scan_finds in Es as [_ Hs]. by apply Hs.
Qed.
End run.

Lemma live_start_ok runtimes sets :
  NoDup (runtime_addr <$> runtimes) → NoDup (set_addr <$> sets) → live_ok (live_start runtimes sets).
Proof. intros Hr Hs. split; try done; try apply NoDup_nil_2; by intros x ?%elem_of_nil. Qed.

Lemma roots_admitted w o : o ∈ root_runtimes (roots_of w) ++ root_sets (roots_of w) → admitted w o.
Proof.
  intros [Ho|Ho]%elem_of_app; apply list_elem_of_fmap in Ho as (a & -> & Ha);
    [by apply admitted_runtime|by apply admitted_set].
Qed.

(** A discovery that returned: the sweep of the session the probes found, whose owners
    are the session's own when their turn comes, and a listing and session of what the
    roots reach. *)
Record discovered (lwps : list LwpInfo) (workers : list Worker) (runtimes : list RuntimeRef)
    (excluded : list Z) (l : TaskList) (read : ReadContext) (lim : ScanLimits) (w' : Live) (l' : TaskList)
    (ids : list (Z * Z)) (sets : list LocalSetRef) (l0 : TaskList) (out : SweepOutcome) (w : Live)
    (l1 : TaskList) (items : list DiscoveryWork) (fs : list (Candidate * Origin)) (os : list OwnerKey)
    (st : SweepState Live) : Prop := mkDiscovered {
  dc_probed : ∃ la, worker_thread_ids cx describe workers l = Ret (ids, la) ∧
    probed_sets cx statics describe lwps ids la = Ret (sets, l0);
  dc_records : tl_records l0 = tl_records l;
  dc_swept : @swept Live (live_world cx statics describe ids excluded read) excluded
    (live_start runtimes sets) l0 (roots_of (live_start runtimes sets)) lim out w l1 items fs os st;
  dc_turns items fs os st item q o :
    @runs Live (live_world cx statics describe ids excluded read) excluded
      (sweep_start excluded (live_start runtimes sets) l0 (roots_of (live_start runtimes sets)) lim)
      items fs os st →
    pop (s_queue st) = Some (item, q) → item_owner item = Some o → admitted (s_world st) o;
  dc_references c id : (c, OTask id) ∈ fs → ∃ items' fs' os' st',
    @runs Live (live_world cx statics describe ids excluded read) excluded
      (sweep_start excluded (live_start runtimes sets) l0 (roots_of (live_start runtimes sets)) lim)
      items' fs' os' st' ∧ scanned_reference cx statics read id (tl_records (s_list st')) c;
  dc_session : live_ok w';
  dc_owners o : o ∈ owner_keys w' ↔ o ∈ owner_keys w ∧
    reaches excluded (tl_records (s_list st)) (roots_of (live_start runtimes sets)) (s_found_from st) (OOwner o);
  dc_registries : lv_registries w' = lv_registries w;
  dc_rows t : t ∈ tasks l' ↔ ∃ id r, records (tl_records (s_list st)) !! id = Some r ∧ resident r = true ∧
    reaches excluded (tl_records (s_list st)) (roots_of (live_start runtimes sets)) (s_found_from st) (OTask id) ∧
    t = record_task r ∧ selected excluded t = true;
  dc_errors : errors l' = errors l1 ++ (describe <$> sweep_errors out w lim (tl_records l'))
}.

Lemma retained_ok out w : live_ok w → live_ok (retained out w).
Proof.
  intros []. unfold retained. split; cbn; try done; (eapply sublist_NoDup; [|by apply fmap_sublist, sublist_filter]); done.
Qed.

Lemma retained_keys out w o : o ∈ owner_keys (retained out w) ↔ o ∈ owner_keys w ∧ o ∈ reached out.
Proof.
  unfold owner_keys, retained, is_reached. cbn. rewrite !elem_of_app, !list_elem_of_fmap.
  setoid_rewrite list_elem_of_filter. setoid_rewrite bool_decide_eq_true. naive_solver.
Qed.

(** The rows of an applied scope. *)
Lemma scope_rows excluded l roots found_from os l' :
  (∀ f, f ∈ found_from → is_Some (records (tl_records l) !! f.2)) →
  apply_scope excluded l roots found_from = Ret (os, l') →
  (∀ o, o ∈ os ↔ reaches excluded (tl_records l) roots found_from (OOwner o)) ∧
  ∀ t, t ∈ project (tl_records l') excluded ↔
    ∃ id r, records (tl_records l) !! id = Some r ∧ resident r = true ∧
      reaches excluded (tl_records l) roots found_from (OTask id) ∧ t = record_task r ∧
      selected excluded t = true.
Proof.
  intros Hf Ha. destruct (apply_scope_returns excluded l roots found_from Hf)
    as (os' & s' & E & _ & Hos & _ & Hlen & Hrec). rewrite Ha in E. injection E as <- ->.
  split; [done|]. intros t. by apply project_scoped.
Qed.

(** The sweep of a session returns what a discovery is made of, or the world panics. *)
Lemma swept_discovered lwps workers runtimes excluded l read lim ids sets l0 out w l1 items fs os st :
  filed store_new (tl_records l) → NoDup (runtime_addr <$> runtimes) → NoDup (set_addr <$> sets) →
  (∃ la, worker_thread_ids cx describe workers l = Ret (ids, la) ∧
     probed_sets cx statics describe lwps ids la = Ret (sets, l0)) →
  tl_records l0 = tl_records l →
  @swept Live (live_world cx statics describe ids excluded read) excluded
    (live_start runtimes sets) l0 (roots_of (live_start runtimes sets)) lim out w l1 items fs os st →
  discovered lwps workers runtimes excluded l read lim (retained out w)
    (mkTaskList (tasks (reproject l1 excluded))
       (errors (reproject l1 excluded)
        ++ (describe <$> sweep_errors out w lim (tl_records (reproject l1 excluded))))
       (tl_records (reproject l1 excluded))) ids sets l0 out w l1 items fs os st.
Proof.
  intros Hf Hnr Hns Hprobed Hl0 Hsw. set (world := live_world cx statics describe ids excluded read) in *.
  assert (@LawfulWorld Live world) as Hlaw by apply live_world_lawful.
  set (w0 := live_start runtimes sets) in *. set (roots := roots_of w0) in *.
  assert (filed store_new (tl_records l0)) as Hf0 by by rewrite Hl0.
  pose proof (@sweep_start_inv Live world excluded w0 l0 roots lim Hf0) as Hstart.
  assert (Hrun : ∀ items fs os st, @runs Live world excluded (sweep_start excluded w0 l0 roots lim) items fs os st →
    live_ok (s_world st) ∧ ∀ o, o ∈ s_scheduled st → admitted (s_world st) o).
  { intros items' fs' os' st' Hr. eapply runs_live; [exact Hr| |].
    - unfold sweep_start. repeat case_match. by apply live_start_ok.
    - intros o Ho. apply (inv_scheduled _ _ _ _ _ _ _ Hstart) in Ho as [[Ho|Ho] _];
        [|by apply elem_of_nil in Ho]. apply roots_admitted in Ho.
      unfold sweep_start. repeat case_match. done. }
  pose proof Hsw as [Hw Hr _ _ _ _ _ _ Hscope _].
  pose proof (@runs_inv Live world excluded Hlaw _ _ _ _ _ _ _ Hstart Hr) as Hinv.
  destruct (scope_rows excluded (s_list st) roots (s_found_from st) (reached out) l1
    (inv_found _ _ _ _ _ _ _ Hinv) Hscope) as [Hos Hrows].
  split; try done.
  - intros items' fs' os' st' item q o Hr' Hp' Ho. apply Hrun in Hr' as Ha. apply Ha.
    pose proof (@runs_inv Live world excluded Hlaw _ _ _ _ _ _ _ Hstart Hr') as Hinv'.
    eapply queued_scheduled; [apply (inv_sched _ _ _ _ _ _ _ Hinv')|done|done].
  - assert (s_world (sweep_start excluded w0 l0 roots lim) = w0) as Hw0 by (unfold sweep_start; by repeat case_match).
    assert (waiters_sound cx statics read (s_world (sweep_start excluded w0 l0 roots lim))) as Hsound.
    { rewrite Hw0. intros q ls t Hq. change ((∅ : NotifyMemo) !! q = Some ls) in Hq. by rewrite lookup_empty in Hq. }
    by destruct (runs_scans _ _ _ _ _ _ _ _ Hr Hsound).
  - apply retained_ok. rewrite Hw. by apply (Hrun _ _ _ _ Hr).
  - intros o. by rewrite retained_keys, Hos.
Qed.
End discovery.

(** C1: the discovery of hidden tasks ends, complete.  From records filed by the core's
    enumeration and runtimes at distinct handles, it panics only where reading a
    worker's thread, the probe of the threads' local sets or a set it found does, or where
    the run of the sweep's own items, from the session those reads gave and within the
    cap, comes to an item whose operation panics in the state reached.  Otherwise the
    sweep came to no such item, and gave every item of its queue its turn once or reports
    the cap it stopped at; whenever the turn of an owner's list or registry comes the
    session has that owner, so none is reported as never admitted; the session it leaves
    has no owner twice and every timer entry and io resource once, over all the harvests;
    each find of a scan is a reference that the storage of the task scanned makes; and
    its owners and rows are exactly what the roots reach. *)
Theorem hidden_tasks_discovered `{Demangler} `{StreamObservers} {T} `{!Target T} (cx : ChainCtx T) statics
    describe lwps workers runtimes excluded l read lim :
  filed store_new (tl_records l) → 0 <= max_work_items lim → NoDup (runtime_addr <$> runtimes) →
  match discover_hidden_tasks_with cx statics describe lwps workers runtimes excluded l read lim with
  | Panic => discovery_panics cx statics describe lwps workers runtimes excluded l read lim
  | Ret (w', l') => ∃ ids sets l0 out w l1 items fs os st,
      ¬ @sweep_panics Live (live_world cx statics describe ids excluded read) excluded
          (live_start runtimes sets) l0 (roots_of (live_start runtimes sets)) lim ∧
      discovered cx statics describe lwps workers runtimes excluded l read lim w' l' ids sets l0 out w l1
        items fs os st
  end.
Proof.
  intros Hf Hmax Hn. unfold discover_hidden_tasks_with.
  destruct (worker_thread_ids cx describe workers l) as [[ids la]|] eqn:Ei.
  2: { apply worker_thread_ids_panic in Ei as (w & Hin & Hp). by eapply dp_thread. }
  rewrite outcome_bind_eq. assert (tl_records la = tl_records l) as Hla by by eapply worker_thread_ids_records.
  destruct (probed_sets cx statics describe lwps ids la) as [[sets l0]|] eqn:Es.
  2: { unfold probed_sets in Es. destruct (local_tls_probe cx statics lwps) as [[found|e]|] eqn:Ep;
         [|done|by apply dp_probe]. rewrite outcome_bind_eq in Es.
       apply tls_sets_panic in Es as (tid & sh & Hin & Hp). by eapply (dp_set _ _ _ _ _ _ _ _ _ _ ids la). }
  rewrite outcome_bind_eq. destruct (probed_sets_ok cx statics describe lwps ids la sets l0) as [Hns Hl0]; [done|].
  pose proof (@sweep_returns Live _ (live_world_lawful cx statics describe ids excluded read) excluded
    (live_start runtimes sets) l0 (roots_of (live_start runtimes sets)) lim) as Hsw.
  unfold returns in Hsw. rewrite Hl0, Hla in Hsw. specialize (Hsw Hf Hmax).
  destruct (sweep _ _ _ _ _) as [[out [w l1]]|] eqn:Esw; [|by eapply dp_sweep].
  rewrite outcome_bind_eq. destruct Hsw as (items & fs & os & st & Hsw). cbn [fst snd] in Hsw.
  exists ids, sets, l0, out, w, l1, items, fs, os, st. split.
  - intros Hp. pose proof (live_world_lawful cx statics describe ids excluded read).
    rewrite sweep_panics_panic in Esw; [done|by rewrite Hl0, Hla|done].
  - apply swept_discovered; try done; [by exists la|congruence].
Qed.

(** ** A session of one runtime

    The core enumerated its two lists; no thread is in a local set, and no registry's
    rows are bound, so the discovery scans the three tasks and harvests nothing. *)

#[local] Instance no_streams : StreamObservers :=
  {| observe_io := λ _ _ _, throw (AeNotOption 0); observe_http_conn := λ _ _, throw (AeNotOption 0) |}.

Definition hidden_runtime : RuntimeRef :=
  mkRuntimeRef MultiThread (mkValue 9%nat 4096 (val_bytes task_shared)) (Some 7) [1] WorkerContext.
Definition hidden_describe (e : LiveError) : string :=
  match e with
  | LvList e => task_describe e
  | LvIssue _ => "issue"
  | LvCapped _ _ => "capped"
  | _ => "failed"
  end%string.

Definition hidden_listed : TaskList :=
  match enumerate_owned task_cx task_describe task_shared (runtime_key hidden_runtime) (Some 7) task_empty with
  | Ret (l, _) => l
  | Panic => task_empty
  end.

Definition hidden_result (excluded : list Z) (items : Z) : option (list Z * list OwnerKey * list string) :=
  match discover_hidden_tasks_with task_cx [] hidden_describe [] [] [hidden_runtime] excluded hidden_listed None
          (mkLimits 12 8 64 64 64 64 items) with
  | Ret (w, l) => Some (addr <$> tasks l, owner_keys w, errors l)
  | Panic => None
  end.

Example hidden_all :
  hidden_result [] 100 = Some ([4144; 4184; 4224], [Runtime MultiThread 4096], ["cycle"; "issue"]%string).
Proof. vm_compute. reflexivity. Qed.

Example hidden_capped :
  hidden_result [] 2 = Some ([4144; 4184; 4224], [Runtime MultiThread 4096], ["cycle"; "issue"; "capped"]%string).
Proof. vm_compute. reflexivity. Qed.

(** An excluded runtime is no group, and its tasks are no rows. *)
Example hidden_excluded : hidden_result [4096] 100 = Some ([], [], ["cycle"; "issue"; "failed"]%string).
Proof. vm_compute. reflexivity. Qed.

Lemma hidden_tasks_discovered_witness :
  filed store_new (tl_records hidden_listed) ∧ NoDup (runtime_addr <$> [hidden_runtime]) ∧
  match discover_hidden_tasks_with task_cx [] hidden_describe [] [] [hidden_runtime] [] hidden_listed None
          (mkLimits 12 8 64 64 64 64 100) with
  | Panic => False
  | Ret (w', l') => length (tasks l') = 3%nat ∧ ∃ ids sets l0 out w l1 items fs os st,
      ¬ @sweep_panics Live (live_world task_cx [] hidden_describe ids [] None) []
          (live_start [hidden_runtime] sets) l0 (roots_of (live_start [hidden_runtime] sets))
          (mkLimits 12 8 64 64 64 64 100) ∧
      discovered task_cx [] hidden_describe [] [] [hidden_runtime] [] hidden_listed None
        (mkLimits 12 8 64 64 64 64 100) w' l' ids sets l0 out w l1 items fs os st
  end.
Proof.
  assert (Hf : filed store_new (tl_records hidden_listed)).
  { unfold hidden_listed.
    destruct (enumerate_owned _ _ _ _ _ _) as [[l r]|] eqn:E; [|constructor].
    by apply enumerate_owned_filed in E. }
  assert (Hn : NoDup (runtime_addr <$> [hidden_runtime])) by apply NoDup_singleton.
  split; [exact Hf|]. split; [exact Hn|].
  pose proof (hidden_tasks_discovered task_cx [] hidden_describe [] [] [hidden_runtime] [] hidden_listed None
    (mkLimits 12 8 64 64 64 64 100) Hf ltac:(cbn; lia) Hn) as Ht.
  assert (match discover_hidden_tasks_with task_cx [] hidden_describe [] [] [hidden_runtime] [] hidden_listed None
            (mkLimits 12 8 64 64 64 64 100) with
          | Ret (_, l) => length (tasks l) = 3%nat | Panic => False end) as Hr by (vm_compute; reflexivity).
  destruct (discover_hidden_tasks_with _ _ _ _ _ _ _ _ _ _) as [[w' l']|]; [|done].
  split; [exact Hr|exact Ht].
Defined.
